(* ===== verification/_CoqProject ===== *)
-Q . S2P
Prelude.v
State.v
Ring.v
Feed.v
Hash.v
Unicode.v
Websocket.v
Json.v
Http.v
Body.v
Server.v
Reply.v
Input.v
Word.v
Vat.v
Heap.v
Collect.v
Printer.v
Grow.v
Package.v
Reader.v
Readback.v
Frames.v
Capture.v
Deck.v
Tasks.v
Pump.v
X25519.v
Aes.v
Bignum.v
Mt.v
Session.v
Exchange.v
Agreement.v
Code.v
Tape.v
Restore.v
Text.v
Raster.v
Ansi.v
Emulator.v
Regional.v
Compositor.v
