(* ===== verification/Prelude.v ===== *)
(** * nxt: a verification of the nxt libraries

    The repository holds five C++ libraries: [nxt] (JSON, HTTP text, hashes, TLS),
    [nxtrt] (a coroutine runtime with byte feeds, HTTP and WebSocket clients),
    [nxtui] (terminal input and rendering), [nxtai] (a model client) and [wisp] (a
    Lisp with a columnar heap). This development models the parts of them that
    carry their own logic, as executable definitions, and proves what makes them
    correct. All paths below are under src/src/.

    ** Conventions

    A byte is a [Z] in [0, 256), text is a list of bytes, a [std::size_t] is a
    [nat] (or a [Z] where the code keeps a count that may be large) whose additions
    and subtractions wrap at 64 bits ([size_add], [size_sub], [wrap 64]), and 32-bit
    words are [Z] with [u32]. Code that may throw returns a [result]; an operation of
    an object is a function from its state to its result and the state it leaves,
    so that what is left behind by an exception is part of the model. Stateful code
    with many calls is written in the monad of [State]. An assertion of the source is
    an outcome of its own, and so is undefined behaviour that input can reach.

    A loop takes fuel, and running out of it is a value of its own ([None]) that the
    theorems exclude: each states that the operation ends with a result. The fuel of
    each definition is computed from what the loop consumes, at least one unit of it
    in each turn: the bytes of a text for a parser, the bytes a source still has for a
    refill loop, the rows and words of a heap for a scan; fixed fuel is used only where
    the code bounds the turns (two spans of a ring, one size line before a piece of a
    chunk).

    ** The files

    - This file: results, machine integers, text, bit fields, automation.
    - [State]: stateful code that may throw, with weakest preconditions.
    - [Ring]: nxtrt/buffer-core.hpp. [Chunks] is [buffer_chunks], [Chop] is
      [chop_view], [Region] is [ring_region], whose slots are constructed or raw. A
      ring refines a first-in first-out queue under every sequence of operations;
      iterating a framing view ends with the longest chain of frames.
    - [Feed]: nxtrt/value-buffers.hpp and buffers.cpp, the byte feed over a ring: the
      verbs that lend spans into the ring's storage, with the memory they point to.
      Each verb returns the right part of the stream, whatever the reads deliver and
      wherever the bytes lie, or throws and loses nothing.
    - [Hash]: nxt/crypto/sha256.cpp, sha1.cpp and crypto.cpp. Streaming hashes equal
      the hash of the padded message, HMAC and HKDF equal their RFC definitions.
    - [Unicode]: the UTF-8 encoder, validator and decoder of four files; the validator
      accepts exactly the encodings of scalar values.
    - [Websocket]: nxtrt/websocket.hpp, the client's frames, [send], [ping], [close]
      and [receive]. A message is delivered whole however it is fragmented and read;
      on any input [receive] does what the frames in it say, one pong for each ping,
      within its limits.
    - [Json]: nxt/json.hpp, the token reader and the string writer, with round trips
      and totality.
    - [Http]: nxt/http.hpp, the server-sent event parser ([Sse]) and [serialize]
      ([Request]). The parser is independent of chunking and delivers every event.
    - [Body]: nxtrt/http.hpp. [Head] parses URLs, response heads and header lists,
      [Body] is [http_body_reader] over a feed. A head round-trips; a body is cut by
      its framing exactly where it ends, and the connection is left at what follows.
    - [Server]: nxtrt/http-server.hpp and http-server.cpp up to the call of the handler,
      and [serialize] of nxtrt/http.hpp. The head with its lines and fields, the two
      framings of a payload, chunks and trailers, all under the limits of the options.
      A head is accepted only if it leaves no doubt, a request is read exactly however
      its bytes arrive, reading stays within its limits on any input, and what
      [serialize] writes is read back.
    - [Reply]: the rest of http-server.cpp that works on a connection: response heads,
      bodies from memory and from files, the loop over the requests. The client of
      [Body] reads what the server writes; pipelined requests are each answered once
      and in order; a connection ends on every input.
    - [Input]: nxtui/input.hpp and input.cpp, the keyboard decoder. No byte is lost,
      chunking does not matter, and every report in range decodes to what it encodes.
    - [Word], [Vat], [Heap], [Collect]: wisp/word.hpp, vat.hpp, heap.hpp and heap.cpp.
      Tagged words, tables of columns (which refine lists of rows), the heap with its
      pools, pins and roots, and the copying collector [tidy]: a collection keeps
      exactly what the pins and roots reach, moved under an injective map of pointers,
      releases every other external object once, and changes nothing if it cannot
      reserve its space.
    - [Printer]: wisp/printer.cpp. Printing ends on every heap, cyclic ones included,
      and gives the text of a recursive definition of the notation.
    - [Grow]: what the allocations of [Heap] leave alone, for the files that follow.
    - [Package]: the packages and symbols of wisp/heap.cpp. [intern] refines a directory
      from names to symbols with inheritance.
    - [Reader]: wisp/reader.cpp, the loop over explicit frames with its errors and
      locations. Reading ends on every input and yields a live value or an error.
      [Readback]: the reader reads back what the printer writes.
    - [Frames]: the frame cache of wisp/eval.hpp and eval.cpp, which keeps the innermost
      frames of a continuation and their argument vectors in native arrays and spills
      them to rows of the heap. The cache refines a stack of frames. [Capture] composes its
      operations as the evaluator does, each write after [writable_frame]: no sequence of
      them changes a continuation that was captured.
    - [Deck], [Tasks], [Pump]: the scheduler of nxtrt/ids.hpp, deck.hpp and the files of
      nxtrt/task/. [Deck] is the table of tasks: ids and tasks correspond one to one and an
      id that outlived its task names none. [Tasks] is the machine: promises, final
      suspension, awaiting and splicing, stop requests, groups with their policies, the
      pump and [sync_wait], where the body of a coroutine is a list of the awaits it
      makes. [Pump] proves of every history of launches, settlements, stops and pumps
      that no wake-up is lost and that no task outlives its scope.
    - [X25519]: nxt/crypto/x25519.cpp. The limb arithmetic never overflows and the ladder is
      the scalar multiplication of RFC 7748; the serialization of results below 2^65 can
      drop a carry.
    - [Aes]: nxt/crypto/aes128gcm.cpp. Decryption takes back encryption, for blocks and for
      IGE; a message of GCM opens exactly to the text it was sealed from, in place too; the
      tag is GHASH over the field with 2^128 elements.
    - [Bignum]: the integers of nxt/crypto.cpp: bytes, modular powers and raw RSA.
    - [Mt]: nxt/mt/wire.hpp, tl.hpp, transport.hpp, message.hpp, crypto.hpp and
      encrypted_packet.hpp, the messages of MTProto and their cryptography. Encrypted packets
      are read back, and a packet that is accepted bears its message key.
    - [Session]: nxt/mt/session.hpp. No request is lost or answered twice, the messages sent are
      numbered as the protocol asks, and arbitrary bytes are refused or authentic.
    - [Exchange], [Agreement]: nxt/mt/auth.hpp, the client's side of the key exchange, and a server
      as the protocol describes it: the two agree on the key and the salt.
    - [Code], [Tape], [Restore]: wisp/code.hpp, tape.hpp and tape.cpp, the images of a machine. [Tape]
      validates, writes and reads them: a tape, plain or compressed, gives back the machine it was
      written from. [Restore] is about arbitrary bytes: restoring them ends, and what it accepts is a well-formed
      heap with lists that end and continuations without a cycle.
    - [Text]: nxtui/utf8.hpp and the editing operations of text_field.hpp. Clusters cut a text
      without rest, offsets in bytes, clusters and columns agree, words are the runs of clusters
      that are no separators, and the field edits whole clusters.
    - [Raster]: nxtui/style.hpp, glyph-table.cpp, raster.hpp and raster.cpp. Ids and glyphs
      correspond, writes through windows stay in the arrays, and text is drawn cluster by cluster.
    - [Ansi], [Emulator]: the writer of escape sequences of nxtui/ansi.cpp; the class [terminal]
      says what a terminal does with them, and the emulator is a terminal.
    - [Regional]: nxtui/regional-tty.hpp. The program for a change of the HUD's height
      overwrites no line of the scrollback, unless the HUD takes the whole screen, which it
      blanks.
    - [Compositor]: nxtui/raster-diff.hpp and compositor.cpp. What a frame writes makes the
      terminal show the back buffer.

    The parts meet as they do in the code: [Collect] works on the heap that [Heap]
    builds over [Vat] and [Word], and so do [Printer], [Package], [Reader] and [Frames]
    with [Capture],
    which share what [Grow] says of allocation; [Reader] interns through [Package]; [Tape] writes the machine of
    [Package] with the digest of [Hash];
    [Mt] encrypts with [Aes], hashes with [Hash] and computes with [Bignum], and the key that
    [Exchange] makes is one that [Session] can use;
    [Body] and [Server] read through [Feed], which keeps its bytes in the ring of [Ring];
    [Websocket] uses the hashes of [Hash] and the validator of [Unicode], [Json],
    [Input] and [Reader] the codec; [Tasks] runs on the table of [Deck]; [Raster] measures text with [Text], and
    [Compositor] writes the difference of two rasters with the sequences of [Ansi] into the rows that
    [Regional] gives it.

    ** Parameters

    The masks of WebSocket frames come from the system's random source and are an
    argument ([random]) of the operations that draw them. What a peer or a terminal
    sends is a list of reads. The compression function is an argument of the block
    buffering of [Hash] and the scanner one of [Chop]; both are instantiated by, or
    stated for, the code that passes them. The handler of the HTTP server, the reads of
    the files it names and the moments at which a deadline passes are arguments of the
    connection loop; the names of the builtins are one of the heap's constructor and of
    [Tape], and the functions of zlib are one of [tape_encode] and [tape_decode]; the random bytes of a new key one of [x25519_keygen].
    The MTProto client is given its random bytes and the time by its caller, and so are [Session] and [Exchange]; [cpp_int] is [Z]. The wand that settles I/O is its
    contract: a parked coin is settled at most once, at any time, and a stop request settles the
    coins it cancels before it returns, as the epoll wand does. The tables of the vendored
    utf8proc are the class [utf8proc] of [Text], with the documented facts that the code relies on in
    [utf8proc_law] and a small instance; the terminal is the class [terminal] of [Ansi], with
    its laws in [terminal_law].

    ** Fuel

    The reader of Wisp takes one turn per byte left and one more; the printer and the
    search of used packages are bounded by the cells of the heap, and so are the lists that [Tape] checks;
    its search of the control links takes three turns per continuation and two more; a loop of the HTTP
    server by the bytes that are pending or still to come and one more; a loop over the clusters of a
    text by its bytes and one more. Containers of MTProto messages nest within their bytes. The
    attempts of [rsa_encrypt_padded], which the code does not bound, are an argument, and [exchange_agrees]
    says how many are enough; the factoring of [pq] has the bounds of the code.

    ** What is not modelled

    System calls, terminal modes and the io_uring back end; of the scheduler bells, pools,
    lands, hopes and trace spans; sinks and the copy loops between feeds and sinks; the
    record layer and handshake of TLS, with certificates, ECDSA and RSA-PSS; the Telegram requests and
    sockets of the MTProto client; compression and images; the step functions of the Wisp
    evaluator with its builtins, lowered code and boundaries, the streams of tapes and the command line;
    the layouts and widgets of nxtui, which are templates over drawing closures, its graphical
    window and its bindings of libvterm; the model client. In the modelled parts: failing writes and
    the upgrade exchange of the WebSocket client, the decompressing body reader, the heap's
    profiling counters; of the HTTP server the accept loop, the pool of connections, cancellation
    and failing writes; of the text functions paragraphs and the drawing of the text field. Between the
    acts of [Capture] the evaluator may allocate and collect, which [Grow] and [Collect] are about. *)
From Stdlib Require Export ZArith Lia String Ascii.
From stdpp Require Export base tactics options list list_numbers numbers gmap.

#[export] Set Default Goal Selector "!".

Declare Scope nxt_scope.
Delimit Scope nxt_scope with nxt.

(** ** Results of fallible code *)

(** A C++ function that may throw: [Ret] is a normal return, [Throw] the
    exception that leaves it. *)
Inductive result (E A : Type) : Type :=
| Ret (a : A)
| Throw (e : E).

Arguments Ret {E A} a.
Arguments Throw {E A} e.

Definition bind {E A B : Type} (m : result E A) (k : A → result E B) : result E B :=
  match m with
  | Ret a => k a
  | Throw e => Throw e
  end.

Definition is_ret {E A : Type} (m : result E A) : bool :=
  match m with
  | Ret _ => true
  | Throw _ => false
  end.

Notation "'let!' x := m 'in' k" := (bind m (fun x => k))
  (at level 10, x pattern, m at level 100, k at level 200) : nxt_scope.

#[global] Open Scope nxt_scope.

Lemma bind_ret {E A B : Type} (m : result E A) (k : A → result E B) b :
  bind m k = Ret b ↔ ∃ a, m = Ret a ∧ k a = Ret b.
Proof.
  destruct m as [a|e]; simpl; split; [eauto|..].
  - by intros (a' & [= ->] & H).
  - done.
  - by intros (a' & ? & ?).
Qed.

Lemma bind_throw {E A B : Type} (m : result E A) (k : A → result E B) e :
  bind m k = Throw e ↔ m = Throw e ∨ ∃ a, m = Ret a ∧ k a = Throw e.
Proof.
  destruct m as [a|e']; simpl; split; [eauto|..].
  - by intros [?|(a' & [= ->] & ?)].
  - intros [= ->]. by left.
  - by intros [[= ->]|(a' & ? & ?)].
Qed.

(** ** Machine integers *)

(** [wrap w x] is the value of [x] in an unsigned [w]-bit integer. *)
Definition wrap (w x : Z) : Z := (x mod 2 ^ w)%Z.

Abbreviation u8 := (wrap 8).
Abbreviation u32 := (wrap 32).
Abbreviation u64 := (wrap 64).

Lemma wrap_range w x : (0 ≤ w)%Z → (0 ≤ wrap w x < 2 ^ w)%Z.
Proof. intros. apply Z.mod_pos_bound. lia. Qed.

Lemma wrap_small w x : (0 ≤ x < 2 ^ w)%Z → wrap w x = x.
Proof. apply Z.mod_small. Qed.

Lemma wrap_wrap w x : (0 ≤ w)%Z → wrap w (wrap w x) = wrap w x.
Proof. intros. apply wrap_small, wrap_range; lia. Qed.

(** [std::size_t] values are [nat]s; the two operations that can leave the
    64-bit range wrap. *)
Definition size_add (a b : nat) : nat := Z.to_nat (wrap 64 (Z.of_nat a + Z.of_nat b)).

Definition size_sub (a b : nat) : nat := Z.to_nat (wrap 64 (Z.of_nat a - Z.of_nat b)).

(** The largest object size an implementation supports ([PTRDIFF_MAX]). *)
Definition ptrdiff_max : Z := (2 ^ 63 - 1)%Z.

Lemma size_add_small a b : (Z.of_nat a + Z.of_nat b < 2 ^ 64)%Z → size_add a b = a + b.
Proof. intros. unfold size_add. rewrite wrap_small; lia. Qed.

Lemma size_sub_small a b : b ≤ a → (Z.of_nat a < 2 ^ 64)%Z → size_sub a b = a - b.
Proof. intros. unfold size_sub. rewrite wrap_small; lia. Qed.

(** ** Bytes and byte strings *)

(** A byte is an integer in [0, 256); a [std::string] or a span of bytes is a
    list of them. *)
Abbreviation bytes := (list Z).

Definition is_byte (b : Z) : Prop := (0 ≤ b < 256)%Z.

#[export] Instance is_byte_dec b : Decision (is_byte b) := _.

Definition chr (c : ascii) : Z := Z.of_N (N_of_ascii c).

(** The bytes of a literal. *)
Definition str (s : string) : bytes := chr <$> list_ascii_of_string s.

#[global] Arguments str !s%_string_scope /.

Lemma chr_is_byte c : is_byte (chr c).
Proof. unfold is_byte, chr. pose proof (N_ascii_bounded c). lia. Qed.

Lemma str_is_bytes s : Forall is_byte (str s).
Proof. unfold str. rewrite Forall_fmap. apply Forall_true. intros; apply chr_is_byte. Qed.

(** A character literal. *)
Definition ch (s : string) : Z :=
  match s with
  | String c _ => chr c
  | EmptyString => 0
  end.

#[global] Arguments ch s%_string_scope.

Definition dquote : Z := 34.
Definition backslash : Z := 92.

(** ** Decimal text *)

(** [std::to_string] of an unsigned value, least significant digit last. *)
Fixpoint digits_loop (fuel : nat) (n : Z) (acc : bytes) : bytes :=
  match fuel with
  | 0 => acc
  | S fuel' =>
      let acc := (48 + n mod 10)%Z :: acc in
      if (n <? 10)%Z then acc else digits_loop fuel' (n / 10)%Z acc
  end.

Definition to_string (n : Z) : bytes := digits_loop (S (Z.to_nat (Z.log2 n))) n [].

Definition is_digit (c : Z) : bool := (48 <=? c)%Z && (c <=? 57)%Z.

(** The value of a digit string. *)
Definition dec_value (ds : bytes) : Z := foldl (λ v d, v * 10 + (d - 48))%Z 0%Z ds.

Lemma digits_loop_app fuel n acc : digits_loop fuel n acc = digits_loop fuel n [] ++ acc.
Proof.
  revert n acc. induction fuel as [|fuel IH]; intros n acc; [done|]. cbn [digits_loop].
  destruct (n <? 10)%Z; [done|]. rewrite IH, (IH _ [_]), <- app_assoc. done.
Qed.

Lemma digits_loop_digits fuel n : (0 ≤ n)%Z → Forall (λ c, is_digit c = true) (digits_loop fuel n []).
Proof.
  revert n. induction fuel as [|fuel IH]; intros n Hn; [constructor|]. cbn [digits_loop].
  assert (is_digit (48 + n mod 10) = true).
  { unfold is_digit. pose proof (Z.mod_pos_bound n 10). lia. }
  destruct (n <? 10)%Z; [by repeat constructor|]. rewrite digits_loop_app.
  apply Forall_app. split; [|by repeat constructor]. apply IH. apply Z.div_pos; lia.
Qed.

Lemma digits_loop_value fuel n : (0 ≤ n < 2 ^ Z.of_nat fuel)%Z →
  dec_value (digits_loop fuel n []) = n.
Proof.
  revert n. induction fuel as [|fuel IH]; intros n Hn; [change (0 = n)%Z; change (2 ^ Z.of_nat 0)%Z with 1%Z in Hn; lia|]. cbn [digits_loop].
  destruct (Z.ltb_spec n 10) as [Hs|Hs].
  { unfold dec_value. cbn [foldl]. rewrite Z.mod_small by lia. lia. }
  rewrite digits_loop_app. unfold dec_value. rewrite foldl_app. cbn [foldl].
  fold (dec_value (digits_loop fuel (n / 10) [])). rewrite IH.
  - pose proof (Z.div_mod n 10). lia.
  - rewrite Nat2Z.inj_succ, Z.pow_succ_r in Hn by lia. split; [apply Z.div_pos; lia|].
    apply Z.div_lt_upper_bound; lia.
Qed.

Lemma to_string_value n : (0 ≤ n)%Z → dec_value (to_string n) = n.
Proof.
  intros Hn. unfold to_string. apply digits_loop_value. split; [done|].
  rewrite Nat2Z.inj_succ, Z2Nat.id by apply Z.log2_nonneg.
  destruct (Z.eq_dec n 0%Z) as [->|]; [done|]. apply Z.log2_spec. lia.
Qed.

Lemma to_string_digits n : (0 ≤ n)%Z → Forall (λ c, is_digit c = true) (to_string n).
Proof. intros. by apply digits_loop_digits. Qed.

Lemma digits_loop_length fuel : ∀ n k, (0 < k)%nat → (0 ≤ n < 10 ^ Z.of_nat k)%Z → (length (digits_loop fuel n []) ≤ k)%nat.
Proof.
  induction fuel as [|fuel IH]; intros n k Hk Hn; [cbn; lia|]. cbn [digits_loop]. destruct (Z.ltb_spec n 10); [cbn; lia|].
  rewrite digits_loop_app, length_app. cbn [length]. destruct k as [|[|k]]; [lia|change (10 ^ Z.of_nat 1)%Z with 10%Z in Hn; lia|].
  rewrite Nat2Z.inj_succ, Z.pow_succ_r in Hn by lia. specialize (IH (n / 10)%Z (S k) ltac:(lia)).
  enough (0 ≤ n / 10 < 10 ^ Z.of_nat (S k))%Z as Hq by (specialize (IH Hq); lia).
  split; [apply Z.div_pos; lia|apply Z.div_lt_upper_bound; lia].
Qed.

Lemma to_string_nonempty n : to_string n ≠ [].
Proof.
  unfold to_string. cbn [digits_loop]. destruct (n <? 10)%Z; [done|].
  rewrite digits_loop_app. by intros [_ ?]%app_eq_nil.
Qed.

(** A decidable fact about bytes, checked on all 256 of them. *)
Definition all_bytes (P : Z → bool) : bool := forallb P (seqZ 0 256).

Lemma all_bytes_spec P : all_bytes P = true → ∀ b, is_byte b → P b = true.
Proof.
  unfold all_bytes, is_byte. intros H b Hb. rewrite forallb_forall in H. apply H.
  apply list_elem_of_In, elem_of_seqZ. lia.
Qed.

(** ** Bit fields as arithmetic *)

Lemma lor_shiftl_add a b n : (0 ≤ n)%Z → (0 ≤ b < 2 ^ n)%Z →
  Z.lor (Z.shiftl a n) b = (a * 2 ^ n + b)%Z.
Proof.
  intros Hn Hb. rewrite Z.shiftl_mul_pow2 by done.
  rewrite <- Z.add_lor_land. enough (Z.land (a * 2 ^ n) b = 0)%Z by lia.
  apply Z.bits_inj'. intros i Hi. rewrite Z.land_spec, Z.bits_0.
  destruct (Z.lt_ge_cases i n).
  - by rewrite Z.mul_pow2_bits_low.
  - destruct (Z.eq_dec b 0%Z) as [->|]; [by rewrite Z.bits_0, andb_false_r|].
    rewrite (Z.bits_above_log2 b i), andb_false_r; [done|lia|].
    apply Z.lt_le_trans with n; [|done]. apply Z.log2_lt_pow2; lia.
Qed.

Lemma land_ones_mod a n : (0 ≤ n)%Z → Z.land a (2 ^ n - 1) = (a mod 2 ^ n)%Z.
Proof. intros. rewrite <- Z.land_ones by done. f_equal. by rewrite Z.ones_equiv. Qed.

Lemma land_pow2 a n : (0 ≤ n)%Z → Z.land a (2 ^ n) = (a / 2 ^ n mod 2 * 2 ^ n)%Z.
Proof.
  intros Hn. apply Z.bits_inj'. intros i Hi. rewrite Z.land_spec, Z.pow2_bits_eqb by done.
  destruct (Z.lt_ge_cases i n).
  - rewrite Z.mul_pow2_bits_low by done. destruct (Z.eqb_spec n i); [lia|]. apply andb_false_r.
  - rewrite Z.mul_pow2_bits by done. replace (a / 2 ^ n mod 2)%Z with (a / 2 ^ n mod 2 ^ 1)%Z by done.
    destruct (Z.eqb_spec n i) as [->|].
    + rewrite Z.sub_diag, Z.mod_pow2_bits_low, Z.div_pow2_bits by lia. by rewrite andb_true_r.
    + rewrite Z.mod_pow2_bits_high by lia. apply andb_false_r.
Qed.

(** ** Automation *)

Create HintDb nxt.
Create Rewrite HintDb nxt_len.

#[export] Hint Resolve wrap_range chr_is_byte str_is_bytes : nxt.
#[export] Hint Rewrite @length_app @length_take @length_drop @length_fmap @length_replicate
  @length_insert : nxt_len.

(** Splits conjunctions and existentials in the context and substitutes. *)
Ltac inv_ret :=
  repeat match goal with
  | H : bind _ _ = Ret _ |- _ => apply bind_ret in H as (? & ? & ?)
  | H : Ret _ = Ret _ |- _ => injection H as H
  | H : Throw _ = Ret _ |- _ => discriminate H
  | H : Ret _ = Throw _ |- _ => discriminate H
  end.

(** Splits [Forall] facts about literal lists, leaving the goal as it is. *)
Ltac split_Forall :=
  repeat match goal with
  | H : Forall _ (_ :: _) |- _ => apply Forall_cons in H as [? H]
  | H : Forall _ (_ ++ _) |- _ => apply Forall_app in H as [? H]
  end.

(** [Forall is_byte] of a literal list. *)
Ltac byte_list := repeat (apply Forall_cons_2; [unfold is_byte; lia|]); apply Forall_nil_2.

(** Arithmetic on lengths. *)
Ltac len := repeat (autorewrite with nxt_len in *; cbn [length app] in * ); lia.
