(* ===== verification/State.v ===== *)
(** * Stateful code that may throw

    A step of an object: it reads and changes the object's state, may throw, and,
    where it loops, may run out of the fuel the model gives it. Used by the byte
    feeds ([Feed]), the HTTP bodies ([Body]) and the WebSocket client
    ([Websocket]). *)
From S2P Require Import Prelude.

Section prog.
Context {S E : Type}.

(** [None] is a loop that ran out of fuel. *)
Definition prog (A : Type) : Type := S → option (result E A * S).

Definition pret {A} (a : A) : prog A := λ s, Some (Ret a, s).

Definition pthrow {A} (e : E) : prog A := λ s, Some (Throw e, s).

Definition pbind {A B} (m : prog A) (k : A → prog B) : prog B := λ s,
  match m s with
  | None => None
  | Some (Ret a, s') => k a s'
  | Some (Throw e, s') => Some (Throw e, s')
  end.

Definition gets {A} (f : S → A) : prog A := λ s, Some (Ret (f s), s).

Definition modify (f : S → S) : prog unit := λ s, Some (Ret tt, f s).

(** [if (!b) throw e]. *)
Definition require (b : bool) (e : E) : prog unit := if b then pret tt else pthrow e.

(** ** Weakest preconditions *)

(** [wp m Q s]: [m] ends from [s], in a result and a state that satisfy [Q]. *)
Definition wp {A} (m : prog A) (Q : result E A → S → Prop) (s : S) : Prop :=
  ∃ r s', m s = Some (r, s') ∧ Q r s'.

Lemma wp_ret {A} (a : A) Q s : Q (Ret a) s → wp (pret a) Q s.
Proof. intros H. by exists (Ret a), s. Qed.

Lemma wp_throw {A} e (Q : result E A → S → Prop) s : Q (Throw e) s → wp (pthrow e) Q s.
Proof. intros H. by exists (Throw e), s. Qed.

Lemma wp_bind {A B} (m : prog A) (k : A → prog B) Q s :
  wp m (λ r s', match r with Ret a => wp (k a) Q s' | Throw e => Q (Throw e) s' end) s →
  wp (pbind m k) Q s.
Proof.
  intros (r & s' & Hm & H). unfold wp, pbind. rewrite Hm. destruct r as [a|e]; [done|].
  by exists (Throw e), s'.
Qed.

Lemma wp_gets {A} (f : S → A) Q s : Q (Ret (f s)) s → wp (gets f) Q s.
Proof. intros H. by exists (Ret (f s)), s. Qed.

Lemma wp_modify f Q s : Q (Ret tt) (f s) → wp (modify f) Q s.
Proof. intros H. by exists (Ret tt), (f s). Qed.

Lemma wp_require b e Q s :
  (b = true → Q (Ret tt) s) → (b = false → Q (Throw e) s) → wp (require b e) Q s.
Proof. destruct b; intros Ht Hf; [apply wp_ret|apply wp_throw]; eauto. Qed.

Lemma wp_mono {A} (m : prog A) (Q Q' : result E A → S → Prop) s :
  wp m Q s → (∀ r s', Q r s' → Q' r s') → wp m Q' s.
Proof. intros (r & s' & Hm & H) HQ. exists r, s'. eauto. Qed.

Lemma require_then {B} b e (k : unit → prog B) s : b = true → pbind (require b e) k s = k tt s.
Proof. by intros ->. Qed.

(** Running [m] and then [k], when [m] returns. *)
Lemma bind_run {A B} (m : prog A) (k : A → prog B) s a s' :
  m s = Some (Ret a, s') → pbind m k s = k a s'.
Proof. intros H. unfold pbind. by rewrite H. Qed.
End prog.

Arguments prog : clear implicits.

Notation "x <~ m ; k" := (pbind m (λ x, k))
  (at level 100, m at next level, right associativity) : nxt_scope.
