(* ===== verification/Ring.v ===== *)
(** * Ring storage and chunked views (src/src/nxtrt/buffer-core.hpp)

    [Chunks] is the two-span view type [buffer_chunks], [Chop] the framing view
    [chop_view] over it, and [Region] the borrowed ring storage
    [ring_region] that feeds and sinks keep their values in. *)
From S2P Require Import Prelude.

(** The [buffer_error]s this header throws. *)
Inductive buffer_error :=
| too_many_buffer_chunks
| chop_scanner_returned_zero_extent
| chop_scanner_overreported_extent.

(** [fare_t]: a count of values moved, or end of stream. *)
Inductive fare_t :=
| fare (n : nat)
| fare_eof.

Definition value_count (r : fare_t) : nat :=
  match r with
  | fare n => n
  | fare_eof => 0
  end.

Definition is_eof (r : fare_t) : bool :=
  match r with
  | fare _ => false
  | fare_eof => true
  end.

(** [std::ranges::equal] of a span with the front of another. *)
Fixpoint starts_with (needle hay : bytes) : bool :=
  match needle, hay with
  | [], _ => true
  | n :: needle', h :: hay' => Z.eqb n h && starts_with needle' hay'
  | _ :: _, [] => false
  end.

(** Index of the first occurrence of the needle, or the haystack's size. *)
Fixpoint find_bytes (haystack needle : bytes) : nat :=
  if starts_with needle haystack then 0
  else match haystack with
       | [] => 0
       | _ :: rest => S (find_bytes rest needle)
       end.

(** [find_bytes] returns the first place the needle occurs in the haystack,
    or the haystack's size when it occurs nowhere. *)
Theorem find_bytes_first (haystack needle : bytes) :
  let i := find_bytes haystack needle in
  i ≤ length haystack ∧
  (∀ j, j < i → starts_with needle (drop j haystack) = false) ∧
  (i < length haystack → starts_with needle (drop i haystack) = true).
Proof.
  induction haystack as [|h hay IH]; simpl.
  { destruct (starts_with needle []); simpl; repeat split; intros; lia. }
  destruct (starts_with needle (h :: hay)) eqn:Hs; simpl.
  { repeat split; [lia|intros; lia|done]. }
  destruct IH as (IH1 & IH2 & IH3). split; [lia|]. split.
  - intros [|j] Hj; [done|]. apply IH2. lia.
  - intros Hi. apply IH3. lia.
Qed.

Module Chunks.
Section chunks.
Context {A : Type} (Inline : nat).

(** The nonempty spans of the view, in order; a span is the list of the values
    it shows. *)
Definition buffer_chunks : Type := list (list A).

Definition size (bc : buffer_chunks) : nat := foldl (λ total c, total + length c) 0 bc.

Definition chunk_count (bc : buffer_chunks) : nat := length bc.

Definition empty (bc : buffer_chunks) : bool := size bc =? 0.

Definition append (bc : buffer_chunks) (chunk : list A) : result buffer_error buffer_chunks :=
  match chunk with
  | [] => Ret bc
  | _ => if length bc =? Inline then Throw too_many_buffer_chunks else Ret (bc ++ [chunk])
  end.

(** The constructor from a span of spans. *)
Fixpoint of_chunks (out : buffer_chunks) (cs : list (list A)) : result buffer_error buffer_chunks :=
  match cs with
  | [] => Ret out
  | c :: cs' => let! out' := append out c in of_chunks out' cs'
  end.

Fixpoint first_loop (out : buffer_chunks) (cs : list (list A)) (n : nat)
    : result buffer_error buffer_chunks :=
  match cs with
  | [] => Ret out
  | c :: cs' =>
      if n =? 0 then Ret out
      else
        let k := Nat.min n (length c) in
        let! out' := append out (take k c) in
        first_loop out' cs' (n - k)
  end.

Definition first (bc : buffer_chunks) (n : nat) : result buffer_error buffer_chunks :=
  first_loop [] bc n.

(** [None] is the default [count], which no span reaches. *)
Definition min_count (count : option nat) (n : nat) : nat :=
  match count with
  | Some c => Nat.min c n
  | None => n
  end.

Definition sub_count (count : option nat) (n : nat) : option nat :=
  match count with
  | Some c => Some (c - n)
  | None => None
  end.

Definition count_is_zero (count : option nat) : bool :=
  match count with
  | Some c => c =? 0
  | None => false
  end.

Fixpoint subspan_loop (out : buffer_chunks) (cs : list (list A)) (offset : nat)
    (count : option nat) : result buffer_error buffer_chunks :=
  match cs with
  | [] => Ret out
  | c :: cs' =>
      if length c <=? offset then subspan_loop out cs' (offset - length c) count
      else
        let rest := drop offset c in
        let k := min_count count (length rest) in
        let! out' := append out (take k rest) in
        let count' := sub_count count k in
        if count_is_zero count' then Ret out' else subspan_loop out' cs' 0 count'
  end.

Definition subspan (bc : buffer_chunks) (offset : nat) (count : option nat)
    : result buffer_error buffer_chunks :=
  subspan_loop [] bc offset count.

(** The whole view as one span when it is not split. *)
Definition single_span (bc : buffer_chunks) : option (list A) :=
  match bc with
  | [] => Some []
  | [c] => Some c
  | _ => None
  end.

(** What every [buffer_chunks] satisfies: at most [Inline] spans, none empty. *)
Definition view_ok (bc : buffer_chunks) : Prop :=
  length bc ≤ Inline ∧ Forall (λ c, c ≠ []) bc.

Lemma foldl_size (bc : buffer_chunks) n :
  foldl (λ total c, total + length c) n bc = n + length (concat bc).
Proof.
  revert n. induction bc as [|c bc IH]; intros n; simpl; [lia|].
  rewrite IH, length_app. lia.
Qed.

Lemma size_concat (bc : buffer_chunks) : size bc = length (concat bc).
Proof. apply foldl_size. Qed.

Lemma empty_concat (bc : buffer_chunks) : empty bc = true ↔ concat bc = [].
Proof. unfold empty. rewrite Nat.eqb_eq, size_concat. apply length_zero_iff_nil. Qed.

Lemma append_spec (bc : buffer_chunks) c :
  length bc < Inline → Forall (λ c, c ≠ []) bc →
  ∃ out, append bc c = Ret out ∧ length out ≤ S (length bc) ∧ Forall (λ c, c ≠ []) out
         ∧ concat out = concat bc ++ c.
Proof.
  intros Hlt Hne. destruct c as [|x c].
  { exists bc. rewrite app_nil_r. repeat split; auto with lia. }
  simpl. destruct (Nat.eqb_spec (length bc) Inline); [lia|].
  exists (bc ++ [x :: c]). rewrite length_app, concat_app. simpl. rewrite app_nil_r.
  repeat split; [lia|]. apply Forall_app; auto.
Qed.

Lemma first_loop_spec cs : ∀ out n,
  length out + length cs ≤ Inline → Forall (λ c, c ≠ []) out →
  ∃ bc, first_loop out cs n = Ret bc ∧ view_ok bc ∧ concat bc = concat out ++ take n (concat cs).
Proof.
  induction cs as [|c cs IH]; intros out n Hlen Hne; simpl in *.
  { exists out. rewrite take_nil, app_nil_r. repeat split; auto with lia. }
  destruct (Nat.eqb_spec n 0) as [->|Hn].
  { exists out. simpl. rewrite app_nil_r. repeat split; auto with lia. }
  destruct (append_spec out (take (Nat.min n (length c)) c)) as (out' & -> & Hl & Hne' & Hc);
    [lia|done|]. simpl.
  destruct (IH out' (n - Nat.min n (length c))) as (bc & -> & Hok & Hbc); [lia|done|].
  exists bc. repeat split; [apply Hok..|]. rewrite Hbc, Hc, <- app_assoc. f_equal.
  rewrite take_app. f_equal; [|f_equal; lia].
  destruct (Nat.le_ge_cases n (length c)); [f_equal; lia|].
  rewrite !take_ge by lia. done.
Qed.

Lemma subspan_loop_spec cs : ∀ out offset count,
  length out + length cs ≤ Inline → Forall (λ c, c ≠ []) out →
  ∃ bc, subspan_loop out cs offset count = Ret bc ∧ view_ok bc
        ∧ concat bc = concat out ++ take (min_count count (length (concat cs) - offset))
                                         (drop offset (concat cs)).
Proof.
  induction cs as [|c cs IH]; intros out offset cnt Hlen Hne; simpl in *.
  { exists out. rewrite drop_nil, take_nil, app_nil_r. repeat split; auto with lia. }
  destruct (Nat.leb_spec (length c) offset) as [Hle|Hlt].
  { destruct (IH out (offset - length c) cnt) as (bc & -> & Hok & Hbc); [lia|done|].
    exists bc. repeat split; [apply Hok..|]. rewrite Hbc, length_app, drop_app_ge by lia.
    do 3 f_equal. lia. }
  set (k := min_count cnt (length (drop offset c))).
  destruct (append_spec out (take k (drop offset c))) as (out' & -> & Hl & Hne' & Hc);
    [lia|done|]. simpl.
  rewrite drop_app_le by lia.
  assert (Hk : k ≤ length (drop offset c)) by (subst k; destruct cnt; simpl; lia).
  destruct (count_is_zero (sub_count cnt k)) eqn:Hz.
  { destruct cnt as [m|]; simpl in *; [|done]. apply Nat.eqb_eq in Hz.
    assert (k = m) as -> by lia. exists out'. rewrite Hc, length_app, length_drop in *.
    repeat split; [lia|done|]. rewrite take_app_le by len. do 2 f_equal. lia. }
  destruct (IH out' 0 (sub_count cnt k)) as (bc & -> & Hok & Hbc); [lia|done|].
  exists bc. repeat split; [apply Hok..|].
  assert (k = length (drop offset c)) as Hkc.
  { subst k. destruct cnt as [m|]; simpl in *; [|done]. apply Nat.eqb_neq in Hz. lia. }
  rewrite Hbc, Hc, drop_0, <- app_assoc, (take_ge (drop offset c)) by lia. f_equal.
  rewrite take_app_ge; [|rewrite Hkc in *; destruct cnt; simpl in *;
    rewrite length_app, ?length_drop in *; lia].
  do 2 f_equal. rewrite Nat.sub_0_r. destruct cnt as [m|]; simpl; len.
Qed.

Lemma of_chunks_spec cs : ∀ out,
  length out + length cs ≤ Inline → Forall (λ c, c ≠ []) out →
  ∃ bc, of_chunks out cs = Ret bc ∧ view_ok bc ∧ concat bc = concat out ++ concat cs.
Proof.
  induction cs as [|c cs IH]; intros out Hlen Hne; simpl in *.
  { exists out. rewrite app_nil_r. repeat split; auto with lia. }
  destruct (append_spec out c) as (out' & -> & Hl & Hne' & Hc); [lia|done|]. simpl.
  destruct (IH out') as (bc & -> & Hok & Hbc); [lia|done|].
  exists bc. split; [done|]. split; [done|]. by rewrite Hbc, Hc, <- app_assoc.
Qed.

End chunks.

Arguments buffer_chunks : clear implicits.
End Chunks.

Module Chop.
Section chop.
Context {Stock Frame : Type}.

(** One visible frame and the source prefix it occupies. *)
Record frame_chop := MkChop { extent : nat; frame : Frame }.

Inductive chop_scan_result :=
| chop_complete (c : frame_chop)
| chop_need_more (minimum_buffered : nat).

(** [chop_view]: the visible chunks and the scanner. *)
Record chop_view := MkView {
  stock_ : Chunks.buffer_chunks Stock;
  scanner_ : Chunks.buffer_chunks Stock → chop_scan_result
}.

Record iterator := MkIter { offset_ : nat; current_ : option frame_chop }.

Definition refresh (parent : chop_view) (offset : nat)
    : result buffer_error (option frame_chop) :=
  let! suffix := Chunks.subspan 2 (stock_ parent) offset None in
  if Chunks.empty suffix then Ret None
  else match scanner_ parent suffix with
       | chop_need_more _ => Ret None
       | chop_complete c =>
           if extent c =? 0 then Throw chop_scanner_returned_zero_extent
           else if Chunks.size suffix <? extent c then Throw chop_scanner_overreported_extent
           else Ret (Some c)
       end.

Definition iterator_at (parent : chop_view) (offset : nat) : result buffer_error iterator :=
  let! cur := refresh parent offset in Ret (MkIter offset cur).

Definition begin (parent : chop_view) : result buffer_error iterator := iterator_at parent 0.

(** [operator++] on an iterator whose current chop is [c]. *)
Definition advance (parent : chop_view) (it : iterator) (c : frame_chop)
    : result buffer_error iterator :=
  iterator_at parent (offset_ it + extent c).

Definition view_empty (parent : chop_view) : result buffer_error bool :=
  let! it := begin parent in
  Ret (match current_ it with None => true | Some _ => false end).

(** The range-for over the view; [None] when the fuel runs out. *)
Fixpoint walk (fuel : nat) (parent : chop_view) (it : iterator)
    : option (result buffer_error (list frame_chop)) :=
  match fuel with
  | 0 => None
  | S fuel' =>
      match current_ it with
      | None => Some (Ret [])
      | Some c =>
          match advance parent it c with
          | Throw e => Some (Throw e)
          | Ret it' =>
              match walk fuel' parent it' with
              | None => None
              | Some r => Some (let! cs := r in Ret (c :: cs))
              end
          end
      end
  end.

(** Every iteration advances past at least one value, so one turn per stock
    value and one to stop are enough. *)
Definition walk_fuel (parent : chop_view) : nat := S (Chunks.size (stock_ parent)).

Definition items (parent : chop_view) : option (result buffer_error (list frame_chop)) :=
  match begin parent with
  | Throw e => Some (Throw e)
  | Ret it => walk (walk_fuel parent) parent it
  end.

Definition count (parent : chop_view) : option (result buffer_error nat) :=
  match items parent with
  | None => None
  | Some r => Some (let! cs := r in Ret (length cs))
  end.

(** [has_at_least] stops at the [n]th chop without advancing past it. *)
Fixpoint has_loop (fuel : nat) (parent : chop_view) (it : iterator) (n : nat)
    : option (result buffer_error bool) :=
  match fuel with
  | 0 => None
  | S fuel' =>
      match current_ it with
      | None => Some (Ret false)
      | Some c =>
          if n - 1 =? 0 then Some (Ret true)
          else match advance parent it c with
               | Throw e => Some (Throw e)
               | Ret it' => has_loop fuel' parent it' (n - 1)
               end
      end
  end.

Definition has_at_least (parent : chop_view) (n : nat) : option (result buffer_error bool) :=
  if n =? 0 then Some (Ret true)
  else match begin parent with
       | Throw e => Some (Throw e)
       | Ret it => has_loop (walk_fuel parent) parent it n
       end.

(** [extent(max_count)]; [None] is the default [max_count]. *)
Fixpoint extent_loop (fuel : nat) (parent : chop_view) (it : iterator)
    (out : nat) (max_count : option nat) : option (result buffer_error nat) :=
  match fuel with
  | 0 => None
  | S fuel' =>
      match current_ it with
      | None => Some (Ret out)
      | Some c =>
          if Chunks.count_is_zero max_count then Some (Ret out)
          else match advance parent it c with
               | Throw e => Some (Throw e)
               | Ret it' =>
                   extent_loop fuel' parent it' (out + extent c) (Chunks.sub_count max_count 1)
               end
      end
  end.

Definition view_extent (parent : chop_view) (max_count : option nat)
    : option (result buffer_error nat) :=
  match begin parent with
  | Throw e => Some (Throw e)
  | Ret it => extent_loop (walk_fuel parent) parent it 0 max_count
  end.

(** Sum of the extents of the chops. *)
Definition chop_extent (chops : list frame_chop) : nat :=
  foldl (λ out c, out + extent c) 0 chops.

(** The chops of the view from an offset on, as the scanner finds them. *)
Inductive chopped (parent : chop_view) : nat → list frame_chop → Prop :=
| chopped_stop off :
    refresh parent off = Ret None → chopped parent off []
| chopped_cons off c cs :
    refresh parent off = Ret (Some c) →
    chopped parent (off + extent c) cs → chopped parent off (c :: cs).

Lemma foldl_extent (cs : list frame_chop) n :
  foldl (λ out c, out + extent c) n cs = n + chop_extent cs.
Proof.
  unfold chop_extent. revert n. induction cs as [|c cs IH]; intros n; simpl; [lia|].
  rewrite (IH (n + extent c)), (IH (extent c)). lia.
Qed.

Lemma chop_extent_cons c cs : chop_extent (c :: cs) = extent c + chop_extent cs.
Proof. unfold chop_extent at 1. simpl. apply foldl_extent. Qed.

(** A chop found at an offset is nonempty and lies inside the stock. *)
Lemma refresh_bounds parent off c :
  Chunks.view_ok 2 (stock_ parent) → refresh parent off = Ret (Some c) →
  0 < extent c ∧ off + extent c ≤ Chunks.size (stock_ parent).
Proof.
  intros [Hlen _]. unfold refresh, Chunks.subspan.
  destruct (Chunks.subspan_loop_spec 2 (stock_ parent) [] off None) as (bc & -> & _ & Hbc);
    [simpl; lia|done|]. simpl.
  destruct (Chunks.empty bc); [done|]. destruct (scanner_ parent bc) as [c'|]; [|done].
  destruct (Nat.eqb_spec (extent c') 0); [done|].
  destruct (Nat.ltb_spec (Chunks.size bc) (extent c')) as [|Hle]; [done|].
  intros [= ->]. rewrite !Chunks.size_concat in *. rewrite Hbc in Hle. simpl in Hle.
  rewrite length_take, length_drop in Hle. lia.
Qed.

Lemma walk_total parent fuel : ∀ off cur,
  Chunks.view_ok 2 (stock_ parent) → refresh parent off = Ret cur →
  off ≤ Chunks.size (stock_ parent) < off + fuel →
  ∃ r, walk fuel parent (MkIter off cur) = Some r ∧
       match r with
       | Ret cs => chopped parent off cs
       | Throw _ => True
       end.
Proof.
  induction fuel as [|fuel IH]; intros off cur Hok Hcur Hf; [lia|]. simpl.
  destruct cur as [c|]; [|exists (Ret []); auto using chopped].
  pose proof (refresh_bounds _ _ _ Hok Hcur) as [Hpos Hle].
  unfold advance, iterator_at. simpl.
  destruct (refresh parent (off + extent c)) as [cur'|e] eqn:Hcur'; simpl; [|by eexists].
  destruct (IH (off + extent c) cur') as (r & -> & Hr); [done|done|lia|].
  eexists. split; [done|]. destruct r as [cs|]; simpl; [|done]. by econstructor.
Qed.

Lemma chopped_bounds parent off cs :
  Chunks.view_ok 2 (stock_ parent) → chopped parent off cs →
  Forall (λ c, 0 < extent c) cs ∧
  (off ≤ Chunks.size (stock_ parent) → off + chop_extent cs ≤ Chunks.size (stock_ parent)).
Proof.
  intros Hok. induction 1 as [off H|off c cs H _ [IH1 IH2]].
  { split; [done|]. unfold chop_extent. simpl. lia. }
  destruct (refresh_bounds _ _ _ Hok H). rewrite chop_extent_cons.
  split; [by constructor|]. lia.
Qed.

Lemma chopped_length parent off cs :
  Chunks.view_ok 2 (stock_ parent) → chopped parent off cs →
  off ≤ Chunks.size (stock_ parent) → length cs + off ≤ Chunks.size (stock_ parent).
Proof.
  intros Hok. induction 1 as [off H|off c cs H _ IH]; simpl; [lia|].
  destruct (refresh_bounds _ _ _ Hok H). lia.
Qed.

Lemma has_loop_spec parent off cs :
  chopped parent off cs → ∀ fuel cur n,
  refresh parent off = Ret cur → length cs < fuel → 0 < n →
  has_loop fuel parent (MkIter off cur) n = Some (Ret (n <=? length cs)).
Proof.
  induction 1 as [off H|off c cs H Hc IH]; intros fuel cur n Hcur Hf Hn; simpl in *;
    rewrite H in Hcur; injection Hcur as <-; (destruct fuel as [|fuel]; [lia|]); simpl.
  { destruct n; [lia|]. done. }
  destruct (Nat.eqb_spec (n - 1) 0).
  { destruct (Nat.leb_spec n (S (length cs))); [done|lia]. }
  unfold advance, iterator_at. simpl.
  destruct Hc as [off' H'|off' c' cs' H' Hc'].
  - rewrite H'. simpl. rewrite (IH fuel None (n - 1)) by (done || lia).
    simpl. do 2 f_equal. destruct n; simpl; [lia|]. destruct n; simpl; [lia|done].
  - rewrite H'. simpl. rewrite (IH fuel (Some c') (n - 1)) by (done || lia).
    do 2 f_equal. destruct n; simpl; [lia|]. by rewrite Nat.sub_0_r.
Qed.

Definition take_count {A} (count : option nat) (l : list A) : list A :=
  match count with
  | Some k => take k l
  | None => l
  end.

Lemma extent_loop_spec parent off cs :
  chopped parent off cs → ∀ fuel cur out mc,
  refresh parent off = Ret cur → length cs < fuel →
  extent_loop fuel parent (MkIter off cur) out mc = Some (Ret (out + chop_extent (take_count mc cs))).
Proof.
  induction 1 as [off H|off c cs H Hc IH]; intros fuel cur out mc Hcur Hf; simpl in *;
    rewrite H in Hcur; injection Hcur as <-; (destruct fuel as [|fuel]; [lia|]); simpl.
  { destruct mc as [k|]; simpl; rewrite ?take_nil; unfold chop_extent; simpl; do 2 f_equal; lia. }
  destruct (Chunks.count_is_zero mc) eqn:Hz.
  { destruct mc as [k|]; simpl in *; [|done]. apply Nat.eqb_eq in Hz. subst k. simpl.
    unfold chop_extent. simpl. do 2 f_equal. lia. }
  assert (Hrest : ∀ cur', refresh parent (off + extent c) = Ret cur' →
    extent_loop fuel parent (MkIter (off + extent c) cur') (out + extent c)
      (Chunks.sub_count mc 1) = Some (Ret (out + chop_extent (take_count mc (c :: cs))))).
  { intros cur' Hcur'. rewrite (IH fuel cur') by (done || lia). do 2 f_equal.
    destruct mc as [[|k]|]; simpl in *; [done| |]; rewrite ?Nat.sub_0_r, chop_extent_cons; lia. }
  unfold advance, iterator_at. simpl.
  destruct Hc as [off' H'|off' c' cs' H' Hc']; rewrite H'; simpl; auto.
Qed.

(** Iterating a view always ends: with a scanner error, or with the chops the
    scanner finds one after another, each nonempty, together inside the stock. *)
Lemma items_total (parent : chop_view) :
  Chunks.view_ok 2 (stock_ parent) →
  ∃ r, items parent = Some r ∧
       match r with
       | Ret cs => chopped parent 0 cs ∧ Forall (λ c, 0 < extent c) cs
                   ∧ chop_extent cs ≤ Chunks.size (stock_ parent)
       | Throw _ => True
       end.
Proof.
  intros Hok. unfold items, begin, iterator_at.
  destruct (refresh parent 0) as [cur|e] eqn:Hcur; cbn [bind]; [|by eexists].
  destruct (walk_total parent (walk_fuel parent) 0 cur) as (r & -> & Hr);
    [done|done|unfold walk_fuel; lia|].
  eexists. split; [done|]. destruct r as [cs|]; [|done].
  destruct (chopped_bounds parent 0 cs Hok Hr) as [? ?]. split; [done|]. split; [done|lia].
Qed.

(** Iterating a chop view always ends. It ends with a scanner error, or
    with the chops the scanner finds one after another from the start of the
    stock; then each is nonempty, together they lie inside the stock, and
    [count], [has_at_least] and [extent] agree with them. *)
Theorem chop_view_total (parent : chop_view) :
  Chunks.view_ok 2 (stock_ parent) →
  (∃ e, items parent = Some (Throw e)) ∨
  (∃ cs, items parent = Some (Ret cs) ∧ chopped parent 0 cs ∧
         Forall (λ c, 0 < extent c) cs ∧ chop_extent cs ≤ Chunks.size (stock_ parent) ∧
         count parent = Some (Ret (length cs)) ∧
         (∀ n, has_at_least parent n = Some (Ret (n <=? length cs))) ∧
         (∀ mc, view_extent parent mc = Some (Ret (chop_extent (take_count mc cs))))).
Proof.
  intros Hok. destruct (items_total parent Hok) as (r & Hr & Hcs).
  destruct r as [cs|e]; [right|left; by exists e]. destruct Hcs as (Hcs & Hpos & Hle).
  pose proof (chopped_length parent 0 cs Hok Hcs ltac:(lia)) as Hlen.
  assert (∃ cur, refresh parent 0 = Ret cur) as [cur Hcur] by (destruct Hcs; eauto).
  exists cs. repeat split; try done.
  - unfold count. by rewrite Hr.
  - intros n. unfold has_at_least, begin, iterator_at. destruct (Nat.eqb_spec n 0) as [->|Hn]; [done|].
    rewrite Hcur. cbn [bind]. apply (has_loop_spec parent 0 cs Hcs); [done|unfold walk_fuel|]; lia.
  - intros mc. unfold view_extent, begin, iterator_at. rewrite Hcur. cbn [bind].
    rewrite (extent_loop_spec parent 0 cs Hcs) by (done || unfold walk_fuel; lia). done.
Qed.

End chop.

Arguments frame_chop : clear implicits.
Arguments chop_scan_result : clear implicits.
Arguments chop_view : clear implicits.
Arguments iterator : clear implicits.

(** A length-prefixed scanner: the first value is the length of the payload. *)
Definition prefixed (stock : Chunks.buffer_chunks Z) : chop_scan_result (list Z) :=
  match concat stock with
  | [] => chop_need_more 1
  | n :: rest =>
      if length rest <? Z.to_nat n then chop_need_more (S (Z.to_nat n))
      else chop_complete (MkChop (S (Z.to_nat n)) (take (Z.to_nat n) rest))
  end.

Definition prefixed_view : chop_view Z (list Z) :=
  MkView [[1%Z; 7%Z; 2%Z]; [8%Z; 9%Z; 3%Z; 0%Z]] prefixed.

Lemma chop_view_total_witness :
  items prefixed_view = Some (Ret [MkChop 2 [7%Z]; MkChop 3 [8%Z; 9%Z]]) ∧
  count prefixed_view = Some (Ret 2).
Proof.
  assert (Chunks.view_ok 2 (stock_ prefixed_view)) as Hok.
  { split; [simpl; lia|]. repeat constructor; discriminate. }
  destruct (chop_view_total prefixed_view Hok) as [[e H]|(cs & H & _ & _ & _ & Hc & _)];
    vm_compute in H; [discriminate|]. injection H as <-. split; [vm_compute; reflexivity|exact Hc].
Defined.

End Chop.

Module Region.
Section region.
Context {T : Type}.

(** A slot of the borrowed storage: a constructed value, or raw memory. *)
Definition slot : Type := option T.

Record ring_region := MkRing {
  data_ : list slot;
  capacity_ : nat;
  seek_ : nat;
  size_ : nat
}.

(** [std::span{data + off, len}]. *)
Definition span_of {A : Type} (data : list A) (off len : nat) : list A := take len (drop off data).

Definition ring_chunks {A : Type} (data : list A) (capacity seek size : nat)
    : result buffer_error (Chunks.buffer_chunks A) :=
  if size =? 0 then Ret []
  else
    let first := Nat.min size (size_sub capacity seek) in
    if first =? size then Chunks.of_chunks 2 [] [span_of data seek first]
    else Chunks.of_chunks 2 [] [span_of data seek first; span_of data 0 (size_sub size first)].

Definition ring_write_index (capacity seek size : nat) : nat := size_add seek size mod capacity.

(** The first raw slot after the live values and how many follow it. *)
Definition ring_unused_capacity (capacity seek size : nat) : nat * nat :=
  if size =? capacity then (0, 0)
  else
    let write := ring_write_index capacity seek size in
    let n := if write <? seek then size_sub seek write else size_sub capacity write in
    (write, Nat.min n (size_sub capacity size)).

(** The constructor over [capacity] raw slots. *)
Definition make (capacity : nat) : ring_region :=
  MkRing (replicate capacity None) capacity 0 0.

Definition empty (r : ring_region) : bool := size_ r =? 0.

Definition unused_capacity_size (r : ring_region) : nat := size_sub (capacity_ r) (size_ r).

Definition constructed (r : ring_region) : result buffer_error (Chunks.buffer_chunks slot) :=
  ring_chunks (data_ r) (capacity_ r) (seek_ r) (size_ r).

Definition unused_capacity (r : ring_region) : nat * nat :=
  ring_unused_capacity (capacity_ r) (seek_ r) (size_ r).

(** The index of the front value, if there is one. *)
Definition front_data (r : ring_region) : option nat :=
  if empty r then None else Some (seek_ r).

Definition write_index (r : ring_region) : nat :=
  ring_write_index (capacity_ r) (seek_ r) (size_ r).

Definition has_contiguous_constructed (r : ring_region) : bool :=
  size_add (seek_ r) (size_ r) <=? capacity_ r.

Definition advance_constructed (n : nat) (r : ring_region) : ring_region :=
  MkRing (data_ r) (capacity_ r) (seek_ r) (size_add (size_ r) n).

Definition release_without_destroying (r : ring_region) : ring_region :=
  MkRing (data_ r) (capacity_ r) 0 0.

Definition reset_if_empty (r : ring_region) : ring_region :=
  if empty r then MkRing (data_ r) (capacity_ r) 0 (size_ r) else r.

(** [std::destroy_at] on each slot of a span. *)
Definition destroy_span (data : list slot) (off len : nat) : list slot :=
  take off data ++ replicate len None ++ drop (off + len) data.

(** The [while (n != 0)] loop; [None] when the fuel runs out. *)
Fixpoint destroy_loop (fuel n : nat) (r : ring_region) : option ring_region :=
  if n =? 0 then Some r
  else match fuel with
       | 0 => None
       | S fuel' =>
           let k := Nat.min n (size_sub (capacity_ r) (seek_ r)) in
           destroy_loop fuel' (n - k)
             (MkRing (destroy_span (data_ r) (seek_ r) k) (capacity_ r)
                (size_add (seek_ r) k mod capacity_ r) (size_sub (size_ r) k))
       end.

(** A run of live values is at most two spans, so two turns are enough. *)
Definition destroy_prefix (n : nat) (r : ring_region) : option ring_region :=
  destroy_loop 2 n r.

Definition destroy_all (r : ring_region) : option ring_region :=
  match destroy_prefix (size_ r) r with
  | Some r' => Some (MkRing (data_ r') (capacity_ r') 0 (size_ r'))
  | None => None
  end.

(** A caller constructs values from the start of the unused span. *)
Definition construct_at (vs : list T) (off : nat) (data : list slot) : list slot :=
  take off data ++ (Some <$> vs) ++ drop (off + length vs) data.

Definition fill (vs : list T) (r : ring_region) : ring_region :=
  advance_constructed (length vs)
    (MkRing (construct_at vs (unused_capacity r).1 (data_ r)) (capacity_ r) (seek_ r) (size_ r)).

(** The slots in logical order, from the read cursor round to it. *)
Definition rotation {A : Type} (seek : nat) (data : list A) : list A :=
  drop seek data ++ take seek data.

(** The ring holds the queue [q]: from the cursor on, the values of [q] are
    constructed and every other slot is raw. *)
Record holds (r : ring_region) (q : list T) : Prop := {
  holds_bound : (2 * Z.of_nat (capacity_ r) < 2 ^ 64)%Z;
  holds_length : length (data_ r) = capacity_ r;
  holds_seek : seek_ r ≤ capacity_ r ∧ (seek_ r = 0 ∨ seek_ r < capacity_ r);
  holds_size : size_ r = length q;
  holds_slots : rotation (seek_ r) (data_ r) =
                (Some <$> q) ++ replicate (capacity_ r - length q) None
}.

Lemma holds_capacity r q : holds r q → length q ≤ capacity_ r.
Proof.
  intros [_ Hl Hs _ Hr]. apply (f_equal length) in Hr. unfold rotation in Hr. len.
Qed.

Lemma holds_make c : (2 * Z.of_nat c < 2 ^ 64)%Z → holds (make c) [].
Proof.
  intros Hb. split; simpl; auto with lia.
  - by rewrite length_replicate.
  - unfold rotation. rewrite drop_0, take_0, app_nil_r. f_equal. lia.
Qed.

(** The values in order are what the storage shows from the cursor. *)
Lemma holds_take r q : holds r q → take (length q) (rotation (seek_ r) (data_ r)) = Some <$> q.
Proof. intros H. by rewrite (holds_slots _ _ H), take_app_le, take_ge by len. Qed.

Lemma holds_drop r q n : holds r q → length q ≤ n →
  drop n (rotation (seek_ r) (data_ r)) = replicate (capacity_ r - n) None.
Proof.
  intros H Hn. rewrite (holds_slots _ _ H), drop_app_ge, drop_replicate by len.
  f_equal. len.
Qed.

Lemma constructed_view r q :
  holds r q → ∃ cs, constructed r = Ret cs ∧ Chunks.view_ok 2 cs ∧ concat cs = Some <$> q.
Proof.
  intros H. pose proof (holds_capacity r q H). pose proof (holds_take r q H) as Ht.
  destruct H as [Hb Hl Hs Hz _]. unfold constructed, ring_chunks. rewrite Hz.
  destruct (Nat.eqb_spec (length q) 0) as [Hq|Hq].
  { apply length_zero_iff_nil in Hq as ->. exists []. by repeat split; simpl; auto with lia. }
  rewrite size_sub_small by lia. set (k := Nat.min _ _).
  assert (Hcs : ∀ cs : list (list slot), length cs ≤ 2 → concat cs = Some <$> q →
    ∃ bc, Chunks.of_chunks 2 [] cs = Ret bc ∧ Chunks.view_ok 2 bc ∧ concat bc = Some <$> q).
  { intros cs Hn Hc. destruct (Chunks.of_chunks_spec 2 cs []) as (bc & ? & ? & Hbc);
      [simpl; lia|done|]. exists bc. rewrite Hbc. auto. }
  destruct (Nat.eqb_spec k (length q)) as [Hk|Hk]; apply Hcs; simpl; auto; rewrite app_nil_r;
    unfold span_of; rewrite <- Ht; unfold rotation.
  - rewrite take_app_le by len. by rewrite Hk.
  - rewrite take_app_ge, drop_0, size_sub_small by len. rewrite (take_ge (drop _ _)) by len.
    f_equal. rewrite take_take. f_equal. len.
Qed.

(** Where the raw span starts: after the live values, wrapping at the end. *)
Lemma unused_capacity_cases r q : holds r q → length q < capacity_ r →
  (seek_ r + length q < capacity_ r ∧
     unused_capacity r = (seek_ r + length q, capacity_ r - seek_ r - length q)) ∨
  (capacity_ r ≤ seek_ r + length q ∧
     unused_capacity r = (seek_ r + length q - capacity_ r, capacity_ r - length q)).
Proof.
  intros [Hb Hl Hs Hz _] Hlt. unfold unused_capacity, ring_unused_capacity, ring_write_index.
  rewrite Hz, size_add_small by lia. destruct (Nat.eqb_spec (length q) (capacity_ r)); [lia|].
  destruct (Nat.lt_ge_cases (seek_ r + length q) (capacity_ r)) as [Hw|Hw]; [left|right];
    (split; [done|]).
  - rewrite Nat.mod_small by done. destruct (Nat.ltb_spec (seek_ r + length q) (seek_ r)); [lia|].
    rewrite !size_sub_small by lia. f_equal. lia.
  - assert ((seek_ r + length q) mod capacity_ r = seek_ r + length q - capacity_ r) as ->.
    { symmetry. apply Nat.mod_unique with 1; lia. }
    destruct (Nat.ltb_spec (seek_ r + length q - capacity_ r) (seek_ r)); [|lia].
    rewrite !size_sub_small by lia. f_equal. lia.
Qed.

Lemma fill_slots r q vs : holds r q → length q < capacity_ r →
  length vs ≤ (unused_capacity r).2 →
  rotation (seek_ r) (construct_at vs (unused_capacity r).1 (data_ r)) =
  (Some <$> q ++ vs) ++ replicate (capacity_ r - length (q ++ vs)) None.
Proof.
  intros H Hlt Hvs. pose proof (holds_take r q H) as Ht.
  pose proof (holds_drop r q (length q + length vs) H) as Hd.
  rewrite length_app, fmap_app, <- app_assoc, <- Ht, <- Hd by lia. clear Ht Hd.
  destruct (unused_capacity_cases r q H Hlt) as [[Hw Hu]|[Hw Hu]]; rewrite Hu in *; simpl in *;
    destruct H as [_ Hl Hs _ _]; unfold construct_at, rotation;
    rewrite <- (take_drop (seek_ r) (data_ r)) at 1 2 3 4;
    set (A := take (seek_ r) (data_ r)); set (B := drop (seek_ r) (data_ r));
    assert (length A = seek_ r) by (subst A; len);
    assert (length B = capacity_ r - seek_ r) by (subst B; len).
  - rewrite (take_app_ge A B (seek_ r + _)), (drop_app_ge A B (seek_ r + _ + _)) by lia.
    rewrite <- !(app_assoc A), drop_app_length', take_app_length' by done.
    rewrite (take_app_le B), (drop_app_le B), <- !app_assoc by lia.
    replace (seek_ r + length q - length A) with (length q) by lia.
    replace (seek_ r + length q + length vs - length A) with (length q + length vs) by lia. done.
  - rewrite (take_app_le A), (drop_app_le A) by lia.
    set (w := seek_ r + length q - capacity_ r) in *.
    assert (length (take w A ++ (Some <$> vs) ++ drop (w + length vs) A) = seek_ r) as HL by len.
    rewrite !app_assoc, <- (app_assoc (take w A)), drop_app_length', take_app_length' by done.
    rewrite (take_app_ge B), (drop_app_ge B), <- !app_assoc by lia.
    do 2 f_equal; [f_equal; lia|]. f_equal. f_equal. lia.
Qed.

Lemma destroy_step r q k : holds r q → 0 < k → k ≤ length q → k ≤ capacity_ r - seek_ r →
  holds (MkRing (destroy_span (data_ r) (seek_ r) k) (capacity_ r)
           (size_add (seek_ r) k mod capacity_ r) (size_sub (size_ r) k)) (drop k q).
Proof.
  intros H Hk Hkq Hkc. pose proof (holds_capacity r q H).
  assert (Hslots : drop k (rotation (seek_ r) (data_ r)) ++ replicate k None =
                   (Some <$> drop k q) ++ replicate (capacity_ r - length (drop k q)) None).
  { rewrite (holds_slots _ _ H), drop_app_le, <- app_assoc, <- replicate_add by len.
    rewrite fmap_drop. do 2 f_equal. len. }
  destruct H as [Hb Hl Hs Hz _].
  rewrite size_add_small, size_sub_small by lia.
  assert (HA : length (take (seek_ r) (data_ r)) = seek_ r) by len.
  split; simpl; [done|unfold destroy_span; len| |len|].
  - pose proof (Nat.mod_upper_bound (seek_ r + k) (capacity_ r)). lia.
  - rewrite <- Hslots. unfold rotation, destroy_span. rewrite (drop_app_le (drop _ _)), drop_drop by len.
    destruct (Nat.lt_ge_cases (seek_ r + k) (capacity_ r)) as [Hw|Hw].
    + rewrite Nat.mod_small, (app_assoc (take _ _)) by done.
      rewrite drop_app_length', take_app_length' by len. by rewrite <- app_assoc.
    + assert (seek_ r + k = capacity_ r) as -> by lia. rewrite Nat.Div0.mod_same, drop_0, take_0.
      rewrite !(drop_ge (data_ r)) by lia. by rewrite !app_nil_r.
Qed.

Lemma destroy_prefix_holds r q n : holds r q → n ≤ length q →
  ∃ r', destroy_prefix n r = Some r' ∧ holds r' (drop n q).
Proof.
  intros H Hn. pose proof (holds_capacity r q H). unfold destroy_prefix. simpl.
  destruct (Nat.eqb_spec n 0) as [->|Hn0]; [by exists r|].
  rewrite (size_sub_small (capacity_ r)) by (destruct H; lia).
  remember (Nat.min n (capacity_ r - seek_ r)) as k eqn:Hkd.
  assert (0 < k) by (destruct H; lia).
  pose proof (destroy_step r q k H) as H'. specialize (H' ltac:(lia) ltac:(lia) ltac:(lia)).
  set (r1 := MkRing _ _ _ _) in *.
  destruct (Nat.eqb_spec (n - k) 0) as [Hk|Hk].
  { exists r1. split; [done|]. by assert (n = k) as -> by lia. }
  assert (seek_ r1 = 0) as Hs1.
  { subst r1. simpl. rewrite size_add_small by (destruct H; lia).
    replace (seek_ r + k) with (capacity_ r) by lia. apply Nat.Div0.mod_same. }
  assert (Nat.min (n - k) (size_sub (capacity_ r) (seek_ r1)) = n - k) as Hmin.
  { rewrite size_sub_small; [lia|lia|]. destruct H; lia. }
  change (size_add (seek_ r) k mod capacity_ r) with (seek_ r1).
  rewrite Hmin, Nat.sub_diag. simpl. eexists. split; [done|].
  replace (drop n q) with (drop (n - k) (drop k q)) by (rewrite drop_drop; f_equal; lia).
  apply (destroy_step r1); [done|lia|len|]. rewrite Hs1. simpl. lia.
Qed.

Lemma fill_holds r q vs : holds r q → length vs ≤ (unused_capacity r).2 →
  holds (fill vs r) (q ++ vs).
Proof.
  intros H Hvs. pose proof (holds_capacity r q H).
  destruct (Nat.eq_dec (length q) (capacity_ r)) as [Hfull|Hfull].
  - assert ((unused_capacity r).2 = 0) as Hz.
    { unfold unused_capacity, ring_unused_capacity. rewrite (holds_size _ _ H), Hfull.
      by rewrite Nat.eqb_refl. }
    destruct vs; [|simpl in *; lia]. rewrite app_nil_r.
    destruct H as [Hb Hl Hs Hz' Hr]. unfold fill, advance_constructed, construct_at.
    split; simpl; try done; rewrite ?Nat.add_0_r, ?take_drop; try done.
    rewrite size_add_small; lia.
  - pose proof (fill_slots r q vs H ltac:(lia) Hvs) as Hslots.
    destruct (unused_capacity_cases r q H ltac:(lia)) as [[Hw Hu]|[Hw Hu]];
      rewrite Hu in *; destruct H as [Hb Hl Hs Hz _]; simpl in *;
      (split; simpl; [done| |done| |]); rewrite ?Hu; simpl; try done;
      try (rewrite size_add_small by lia; len); unfold construct_at; len.
Qed.

Lemma reset_holds r q : holds r q → holds (reset_if_empty r) q.
Proof.
  intros H. unfold reset_if_empty, empty. destruct (Nat.eqb_spec (size_ r) 0) as [Hz|]; [|done].
  assert (q = []) as ->.
  { apply length_zero_iff_nil. rewrite <- (holds_size _ _ H). done. }
  destruct H as [Hb Hl Hs Hz' Hr]. split; simpl; auto with lia.
  unfold rotation in *. rewrite drop_0, take_0, app_nil_r, Nat.sub_0_r in *. simpl in *.
  symmetry in Hr |- *. apply replicate_as_elem_of in Hr as [Hlen Hin].
  apply replicate_as_elem_of. split; [done|]. intros y Hy. apply Hin.
  rewrite <- (take_drop (seek_ r) (data_ r)), elem_of_app in Hy. rewrite elem_of_app. tauto.
Qed.

Lemma destroy_loop_capacity fuel : ∀ n r r',
  destroy_loop fuel n r = Some r' → capacity_ r' = capacity_ r.
Proof.
  induction fuel as [|fuel IH]; intros n r r'; simpl; destruct (n =? 0); intros H;
    simplify_eq; try done. by apply IH in H.
Qed.

(** What an owner does to a ring. *)
Inductive ring_op :=
| op_fill (vs : list T)
| op_destroy_prefix (n : nat)
| op_destroy_all
| op_reset_if_empty.

(** One operation; [None] when a destruction does not finish. *)
Definition perform (op : ring_op) (r : ring_region) : option ring_region :=
  match op with
  | op_fill vs => Some (fill vs r)
  | op_destroy_prefix n => destroy_prefix n r
  | op_destroy_all => destroy_all r
  | op_reset_if_empty => Some (reset_if_empty r)
  end.

Fixpoint performs (ops : list ring_op) (r : ring_region) : option ring_region :=
  match ops with
  | [] => Some r
  | op :: ops => perform op r ≫= performs ops
  end.

(** The precondition the caller of an operation keeps: it constructs no more
    values than the unused span has slots, and destroys only live ones. *)
Definition allowed (op : ring_op) (r : ring_region) : Prop :=
  match op with
  | op_fill vs => length vs ≤ (unused_capacity r).2
  | op_destroy_prefix n => n ≤ size_ r
  | op_destroy_all | op_reset_if_empty => True
  end.

(** Each operation of a sequence is allowed in the state it is performed in. *)
Fixpoint all_allowed (ops : list ring_op) (r : ring_region) : Prop :=
  match ops with
  | [] => True
  | op :: ops => allowed op r ∧ ∀ r', perform op r = Some r' → all_allowed ops r'
  end.

(** The first-in first-out queue a ring stands for. *)
Definition queue_op (op : ring_op) (q : list T) : list T :=
  match op with
  | op_fill vs => q ++ vs
  | op_destroy_prefix n => drop n q
  | op_destroy_all => []
  | op_reset_if_empty => q
  end.

Lemma destroy_all_holds r q : holds r q → ∃ r', destroy_all r = Some r' ∧ holds r' [].
Proof.
  intros H. unfold destroy_all.
  destruct (destroy_prefix_holds r q (size_ r) H) as (r' & -> & H').
  { by rewrite (holds_size _ _ H). }
  rewrite (holds_size _ _ H), drop_ge in H' by done.
  eexists. split; [done|]. pose proof (holds_size _ _ H') as Hz. apply reset_holds in H'.
  unfold reset_if_empty, empty in H'. by rewrite Hz in *.
Qed.

Lemma destroy_prefix_capacity n r r' : destroy_prefix n r = Some r' → capacity_ r' = capacity_ r.
Proof. apply destroy_loop_capacity. Qed.

Lemma perform_holds op r q : holds r q → allowed op r →
  ∃ r', perform op r = Some r' ∧ holds r' (queue_op op q) ∧ capacity_ r' = capacity_ r.
Proof.
  intros H Ha. destruct op as [vs|n| |]; simpl in *.
  - eexists. split_and!; [done|by apply fill_holds|done].
  - rewrite (holds_size _ _ H) in Ha. destruct (destroy_prefix_holds r q n H Ha) as (r' & E & ?).
    exists r'. split_and!; [done..|by eapply destroy_prefix_capacity].
  - destruct (destroy_all_holds r q H) as (r' & E & ?). exists r'. split_and!; [done..|].
    unfold destroy_all in E. destruct (destroy_prefix _ _) eqn:Hd; simplify_eq/=.
    by eapply destroy_prefix_capacity.
  - eexists. split_and!; [done|by apply reset_holds|]. unfold reset_if_empty. by destruct (empty r).
Qed.

Lemma performs_holds ops : ∀ r q, holds r q → all_allowed ops r →
  ∃ r', performs ops r = Some r' ∧ holds r' (foldl (λ q op, queue_op op q) q ops) ∧ capacity_ r' = capacity_ r.
Proof.
  induction ops as [|op ops IH]; intros r q H Ha; simpl in *; [by exists r|].
  destruct Ha as [Ha Hn]. destruct (perform_holds op r q H Ha) as (r1 & E & H1 & <-).
  rewrite E. simpl. apply IH; [done|by apply Hn].
Qed.

(** C20: The ring refines a first-in first-out queue. Any sequence of
    operations on a fresh ring, each allowed where it is performed (no more
    values constructed than the unused span has slots, no more destroyed than
    are live), returns, the loops that destroy values included. In the state it
    returns the slots from the read cursor on are exactly the values the queue
    holds, every other slot is raw memory, and the constructed view shows those
    values in order in at most two spans. *)
Theorem ring_refines_queue (c : nat) (ops : list ring_op) :
  (2 * Z.of_nat c < 2 ^ 64)%Z → all_allowed ops (make c) →
  let q := foldl (λ q op, queue_op op q) [] ops in
  ∃ r, performs ops (make c) = Some r ∧ holds r q ∧ size_ r = length q ∧ capacity_ r = c ∧
  ∃ cs, constructed r = Ret cs ∧ Chunks.view_ok 2 cs ∧ concat cs = Some <$> q.
Proof.
  intros Hc Ha q. destruct (performs_holds ops (make c) [] (holds_make c Hc) Ha) as (r & E & Hr & Hcap).
  exists r. split_and!; [done..|apply (holds_size _ _ Hr)|done|]. by apply constructed_view.
Qed.

(** The unused span lies inside the storage, every slot of it is raw memory,
    and it is empty only when the ring is full. *)
Theorem unused_capacity_raw (r : ring_region) (q : list T) :
  holds r q →
  let '(off, n) := unused_capacity r in
  off + n ≤ capacity_ r ∧ span_of (data_ r) off n = replicate n None ∧
  (n = 0 ↔ length q = capacity_ r).
Proof.
  intros H. pose proof (holds_capacity r q H).
  destruct (Nat.eq_dec (length q) (capacity_ r)) as [Hfull|Hfull].
  { unfold unused_capacity, ring_unused_capacity.
    rewrite (holds_size _ _ H), Hfull, Nat.eqb_refl. split; [lia|]. by split. }
  pose proof (holds_drop r q (length q) H ltac:(lia)) as Hd. unfold rotation in Hd.
  destruct (unused_capacity_cases r q H ltac:(lia)) as [[Hw ->]|[Hw ->]];
    destruct H as [_ Hl Hs _ _]; (split; [lia|]); (split; [|lia]); unfold span_of.
  - rewrite drop_app_le, drop_drop in Hd by len.
    apply (f_equal (take (capacity_ r - seek_ r - length q))) in Hd.
    rewrite take_app_le, take_replicate in Hd by len. rewrite Hd. f_equal. lia.
  - rewrite drop_app_ge in Hd by len. rewrite length_drop, Hl in Hd.
    replace (length q - (capacity_ r - seek_ r)) with (seek_ r + length q - capacity_ r) in Hd
      by lia. rewrite <- Hd, skipn_firstn_comm. f_equal. lia.
Qed.

End region.
Arguments ring_region : clear implicits.
Arguments slot : clear implicits.

(** A ring of three slots that has wrapped: two values written, one destroyed,
    one more written after it, then one that lands in the first slot. *)
Definition wrapped_ops : list (@ring_op Z) :=
  [op_fill [1%Z; 2%Z]; op_destroy_prefix 1; op_fill [3%Z]; op_fill [4%Z]].

Definition wrapped_ring : ring_region Z := MkRing [Some 4%Z; Some 2%Z; Some 3%Z] 3 1 3.

Lemma wrapped_allowed : all_allowed wrapped_ops (make 3).
Proof.
  repeat (split; [vm_compute; lia|]; let E := fresh in intros ? E; vm_compute in E; injection E as <-).
  done.
Qed.

Lemma ring_refines_queue_witness :
  all_allowed wrapped_ops (make 3) ∧ performs wrapped_ops (make 3) = Some wrapped_ring ∧
  holds wrapped_ring [2%Z; 3%Z; 4%Z].
Proof.
  split; [apply wrapped_allowed|].
  destruct (ring_refines_queue 3 wrapped_ops) as (r & E & H & _); [vm_compute; done|apply wrapped_allowed|].
  assert (r = wrapped_ring) as -> by (vm_compute in E; injection E as <-; reflexivity). by split.
Defined.

Lemma unused_capacity_raw_witness :
  (3 = 0 ↔ @length Z [] = 3) ∧ span_of (data_ (@make Z 3)) 0 3 = [None; None; None].
Proof.
  pose proof (unused_capacity_raw (@make Z 3) [] (holds_make 3 ltac:(vm_compute; done))) as H.
  vm_compute in H. vm_compute. tauto.
Defined.

End Region.
