(* ===== verification/Feed.v ===== *)
(** * Byte feeds

    [feed<std::byte>] of src/src/nxtrt/value-buffers.hpp over a [taskfeed_base]
    source, as [socket_source] and [fd_source] are: a ring of lookahead that the
    reading verbs look at first and refill from the source when they must.

    A verb lends the bytes it consumed as a span into the ring's storage, so the
    model keeps the storage's contents ([mem]) beside the lifetimes of its slots
    ([Region.ring_region]): destroying a byte ends its lifetime and leaves its
    memory as it is, and a span shows whatever the memory holds when it is read. *)
From S2P Require Import Prelude State Ring.
Import Region.

Inductive feed_error :=
| buffer_too_small
| buffer_is_full
| consumed_past_buffer
| filled_before_delimiter
| end_of_input
| empty_delimiter
| values_are_wrapped.

(** [source] is what the reads will deliver, in pieces as they arrive; after
    them the source has ended. *)
Record feed := MkFeed {
  ring_ : ring_region Z;
  mem : bytes;
  source : list bytes;
}.

(** [explicit feed(std::size_t buffer_size)], over uninitialized storage. *)
Definition make_feed (storage : bytes) (source : list bytes) : feed :=
  MkFeed (make (length storage)) storage source.

Abbreviation verb := (prog feed feed_error).

Definition set_ring (f : feed) (r : ring_region Z) : feed := MkFeed r (mem f) (source f).

Definition buffered_size (f : feed) : nat := size_ (ring_ f).

(** A span into the storage: its first slot and its size. *)
Record span := MkSpan { at_ : nat; len_ : nat }.

(** The bytes a span shows. *)
Definition view (m : bytes) (s : span) : bytes := span_of m (at_ s) (len_ s).

Definition write_at (off : nat) (bs m : bytes) : bytes := take off m ++ bs ++ drop (off + length bs) m.

(** [ring_.constructed()] as spans: the live run and, if it wraps, its rest. *)
Definition buffered_spans (f : feed) : list span :=
  let r := ring_ f in
  if size_ r =? 0 then []
  else
    let first := Nat.min (size_ r) (size_sub (capacity_ r) (seek_ r)) in
    if first =? size_ r then [MkSpan (seek_ r) first]
    else [MkSpan (seek_ r) first; MkSpan 0 (size_sub (size_ r) first)].

(** [buffered_span]: the buffered bytes as one span. *)
Definition buffered_span : verb span := λ f,
  match buffered_spans f with
  | [] => Some (Ret (MkSpan 0 0), f)
  | [s] => Some (Ret s, f)
  | _ => Some (Throw values_are_wrapped, f)
  end.

Definition first_buffered_span (limit : nat) (f : feed) : span :=
  match buffered_spans f with
  | [] => MkSpan 0 0
  | s :: _ => MkSpan (at_ s) (Nat.min limit (len_ s))
  end.

(** [toss]: consume [n] values. *)
Definition toss (n : nat) : verb unit := λ f,
  if buffered_size f <? n then Some (Throw consumed_past_buffer, f)
  else
    match destroy_prefix n (ring_ f) with
    | None => None
    | Some r => Some (Ret tt, set_ring f (reset_if_empty r))
    end.

(** One read of the source into at most [n] slots: the bytes read and the source
    after it. A read of no byte is the end. *)
Definition read_source (n : nat) (src : list bytes) : fare_t * bytes * list bytes :=
  match src with
  | [] => (fare_eof, [], [])
  | seg :: src' =>
      let k := Nat.min n (length seg) in
      if k =? 0 then (fare_eof, [], src')
      else (fare k, take k seg, if k =? length seg then src' else drop k seg :: src')
  end.

(** [fill_more], with the read straight into the unused capacity. *)
Definition fill_more : verb fare_t := λ f,
  if buffered_size f =? capacity_ (ring_ f) then Some (Throw buffer_is_full, f)
  else
    let '(off, n) := unused_capacity (ring_ f) in
    if n =? 0 then Some (Throw buffer_is_full, f)
    else
      let '(result, bs, src) := read_source n (source f) in
      Some (Ret result, MkFeed (Region.fill bs (ring_ f)) (write_at off bs (mem f)) src).

(** [contiguize_buffered_for_derived]. *)
Definition contiguize : verb unit := λ f,
  if empty (ring_ f) then Some (Ret tt, set_ring f (reset_if_empty (ring_ f)))
  else if has_contiguous_constructed (ring_ f) then Some (Ret tt, f)
  else
    let values := concat (view (mem f) <$> buffered_spans f) in
    match destroy_all (ring_ f) with
    | None => None
    | Some r => Some (Ret tt, MkFeed (Region.fill values r) (write_at 0 values (mem f)) (source f))
    end.

(** [fill_slow]: refill until [n] values are buffered. *)
Fixpoint fill_slow (fuel n : nat) : verb unit :=
  match fuel with
  | O => λ _, None
  | S fuel' =>
      before <~ gets buffered_size;
      if n <=? before then pret tt
      else
        read <~ fill_more;
        after <~ gets buffered_size;
        if is_eof read && (value_count read =? 0) && (after =? before) then pthrow end_of_input
        else fill_slow fuel' n
  end.

(** The bytes the source still has: each refill takes one of them or ends. *)
Definition source_size (f : feed) : nat := length (concat (source f)).

Definition fill (n : nat) : verb unit := λ f,
  if capacity_ (ring_ f) <? n then Some (Throw buffer_too_small, f)
  else if n <=? buffered_size f then Some (Ret tt, f)
  else fill_slow (S (S (source_size f))) n f.

(** [contiguous_prefix]. *)
Definition contiguous_prefix (n : nat) : verb span := λ f,
  let one := first_buffered_span n f in
  if len_ one =? n then Some (Ret one, f)
  else (_ <~ contiguize; s <~ buffered_span; pret (MkSpan (at_ s) n)) f.

(** [peek_span]: borrow the next [n] bytes as one span. *)
Definition peek_span (n : nat) : verb span := _ <~ fill n; contiguous_prefix n.

(** [take(n)]: consume the next [n] bytes and lend them. *)
Definition take_span (n : nat) : verb span := out <~ peek_span n; _ <~ toss n; pret out.

(** [take_some]: the next contiguous bytes, up to [limit]; nothing at the end. *)
Definition take_some (limit : nat) : verb (option span) :=
  let lend : verb (option span) :=
    f <~ gets (λ f, f);
    let out := first_buffered_span limit f in
    _ <~ toss (len_ out);
    pret (Some out) in
  buffered <~ gets buffered_size;
  if buffered =? 0 then
    result <~ fill_more;
    if is_eof result && (value_count result =? 0) then pret None
    else if value_count result =? 0 then
      s <~ buffered_span;
      pret (Some (MkSpan (at_ s) 0))
    else lend
  else lend.

(** [take_until_slow], which [take_until] is one turn of. *)
Fixpoint take_until_loop (fuel : nat) (delimiter : bytes) : verb span :=
  match fuel with
  | O => λ _, None
  | S fuel' =>
      _ <~ contiguize;
      available <~ buffered_span;
      f <~ gets (λ f, f);
      let cut := find_bytes (view (mem f) available) delimiter in
      if cut <? len_ available then
        _ <~ toss (cut + length delimiter);
        pret (MkSpan (at_ available) cut)
      else if buffered_size f =? capacity_ (ring_ f) then pthrow filled_before_delimiter
      else
        read <~ fill_more;
        if is_eof read && (value_count read =? 0) then pthrow end_of_input
        else take_until_loop fuel' delimiter
  end.

Definition take_until (delimiter : bytes) : verb span := λ f,
  if bool_decide (delimiter = []) then Some (Throw empty_delimiter, f)
  else take_until_loop (S (S (source_size f))) delimiter f.

(** ** The feed as a queue *)

(** A slot and its memory: a constructed byte is what the memory holds. *)
Definition slot_holds (s : slot Z) (b : Z) : Prop := ∀ v, s = Some v → b = v.

(** The feed has buffered [q]. *)
Record feed_ok (f : feed) (q : bytes) : Prop := {
  fd_ring : holds (ring_ f) q;
  fd_mem : Forall2 slot_holds (data_ (ring_ f)) (mem f);
  fd_room : 0 < capacity_ (ring_ f);
  fd_source : Forall (λ seg, seg ≠ []) (source f);
}.

(** What a reader of the feed will still see. *)
Definition stream (q : bytes) (f : feed) : bytes := q ++ concat (source f).

Lemma make_feed_ok storage source : (0 < length storage) → (2 * Z.of_nat (length storage) < 2 ^ 64)%Z →
  Forall (λ seg, seg ≠ []) source → feed_ok (make_feed storage source) [].
Proof.
  intros Hl Hb Hs. split; cbn; [by apply holds_make| |done|done].
  apply Forall2_same_length_lookup_2; [by rewrite length_replicate|]. intros i s b Hsl _ v ->.
  by apply lookup_replicate in Hsl as [? _].
Qed.

Lemma rotation_Forall2 {A B} (P : A → B → Prop) n l k :
  Forall2 P l k → Forall2 P (rotation n l) (rotation n k).
Proof. intros H. unfold rotation. apply Forall2_app; [by apply Forall2_drop|by apply Forall2_take]. Qed.

Lemma slot_values (q : bytes) : ∀ bs, Forall2 slot_holds (@fmap list _ Z (slot Z) Some q) bs → bs = q.
Proof.
  induction q as [|x q IH]; intros bs H; [by inv H|]. cbn in H. inv H as [|? b ? bs' Hb Hbs].
  f_equal; [by apply Hb|by apply IH].
Qed.

(** The memory, from the cursor on, starts with the buffered bytes. *)
Lemma mem_queue f q : feed_ok f q → take (length q) (rotation (seek_ (ring_ f)) (mem f)) = q.
Proof.
  intros [Hr Hm _ _]. apply (rotation_Forall2 _ (seek_ (ring_ f))) in Hm. rewrite (holds_slots _ _ Hr) in Hm.
  apply Forall2_app_inv_l in Hm as (b1 & b2 & H1 & _ & ->). apply slot_values in H1 as ->. by rewrite take_app_length.
Qed.

Lemma mem_length f q : feed_ok f q → length (mem f) = capacity_ (ring_ f).
Proof. intros [Hr Hm _ _]. by rewrite <- (Forall2_length _ _ _ Hm), (holds_length _ _ Hr). Qed.

Lemma buffered_size_ok f q : feed_ok f q → buffered_size f = length q.
Proof. intros H. apply (holds_size _ _ (fd_ring _ _ H)). Qed.

(** The spans show the buffered bytes, the first of them in front. *)
Lemma buffered_spans_ok f q : feed_ok f q →
  concat (view (mem f) <$> buffered_spans f) = q ∧
  Forall (λ s, 0 < len_ s ∧ at_ s + len_ s ≤ capacity_ (ring_ f)) (buffered_spans f).
Proof.
  intros H. pose proof (mem_queue f q H) as Ht. pose proof (mem_length f q H) as Hl.
  destruct H as [Hr _ _ _]. pose proof (holds_capacity _ _ Hr) as Hc. destruct Hr as [Hb _ Hs Hz _].
  unfold buffered_spans. rewrite Hz. destruct (Nat.eqb_spec (length q) 0) as [Hq|Hq].
  { apply length_zero_iff_nil in Hq as ->. by split. }
  rewrite size_sub_small by lia. set (k := Nat.min _ _). unfold rotation in Ht.
  destruct (Nat.eqb_spec k (length q)) as [Hk|Hk]; (split; [|repeat constructor; cbn; lia||rewrite ?size_sub_small; lia]).
  - cbn. rewrite app_nil_r. unfold view, span_of. cbn. rewrite take_app_le in Ht by len. by rewrite Hk.
  - cbn. rewrite app_nil_r. unfold view, span_of. cbn. rewrite drop_0, size_sub_small by lia.
    rewrite take_app_ge in Ht by len. rewrite (take_ge (drop _ _)) by len. rewrite <- Ht at 2. f_equal.
    rewrite take_take. f_equal. len.
Qed.

(** ** The verbs keep the feed well formed *)

Lemma construct_mem vs off data m : off + length vs ≤ length data → Forall2 slot_holds data m →
  Forall2 slot_holds (construct_at vs off data) (write_at off vs m).
Proof.
  intros Hl H. unfold construct_at, write_at. apply Forall2_app; [by apply Forall2_take|].
  apply Forall2_app; [|by apply Forall2_drop]. clear. induction vs as [|v vs IH]; constructor; [by intros ? [= ->]|done].
Qed.

Lemma destroy_mem off k data m : off + k ≤ length data → Forall2 slot_holds data m →
  Forall2 slot_holds (destroy_span data off k) m.
Proof.
  intros Hl H. pose proof (Forall2_length _ _ _ H) as Hm. unfold destroy_span.
  rewrite <- (take_drop off m), <- (take_drop k (drop off m)), drop_drop.
  apply Forall2_app; [by apply Forall2_take|]. apply Forall2_app; [|by apply Forall2_drop].
  apply Forall2_replicate_l; [rewrite length_take, length_drop; lia|by apply Forall_true].
Qed.

Lemma destroy_loop_mem fuel : ∀ n r r' m, destroy_loop fuel n r = Some r' → length (data_ r) = capacity_ r →
  seek_ r ≤ capacity_ r → (Z.of_nat (capacity_ r) < 2 ^ 63)%Z → Forall2 slot_holds (data_ r) m →
  Forall2 slot_holds (data_ r') m.
Proof.
  induction fuel as [|fuel IH]; intros n r r' m Hd Hl Hs Hc Hm; cbn in Hd; destruct (Nat.eqb_spec n 0) as [->|Hn];
    simplify_eq; [done|done|]. rewrite size_sub_small in Hd by lia. apply IH with (m := m) in Hd; [done|..]; cbn.
  - unfold destroy_span. len.
  - rewrite size_add_small by lia. pose proof (Nat.mod_upper_bound (seek_ r + Nat.min n (capacity_ r - seek_ r)) (capacity_ r)).
    destruct (capacity_ r) eqn:?; [cbn; lia|lia].
  - done.
  - apply destroy_mem; [lia|done].
Qed.

Lemma toss_ok n f q : feed_ok f q → n ≤ length q →
  ∃ f', toss n f = Some (Ret tt, f') ∧ feed_ok f' (drop n q) ∧ mem f' = mem f ∧ source f' = source f ∧
    capacity_ (ring_ f') = capacity_ (ring_ f).
Proof.
  intros H Hn. unfold toss. rewrite (buffered_size_ok f q H). destruct (Nat.ltb_spec (length q) n); [lia|].
  destruct H as [Hr Hm Hroom Hsrc]. destruct (destroy_prefix_holds _ _ _ Hr Hn) as (r & Hd & Hr').
  rewrite Hd. eexists. split; [done|]. pose proof (reset_holds _ _ Hr') as Hr''.
  assert (capacity_ (reset_if_empty r) = capacity_ (ring_ f)) as Hcap.
  { transitivity (capacity_ r); [unfold reset_if_empty; by destruct (empty r)|by eapply destroy_loop_capacity]. }
  assert (data_ (reset_if_empty r) = data_ r) as Hdata by (unfold reset_if_empty; by destruct (empty r)).
  split; [|done]. split; [done| |cbn; lia|done]. cbn. rewrite Hdata.
  destruct Hr as [Hb Hl Hs _ _]. eapply destroy_loop_mem; [exact Hd|done|lia|lia|done].
Qed.

Lemma unused_ok f q : feed_ok f q → length q < capacity_ (ring_ f) →
  let '(off, n) := unused_capacity (ring_ f) in 0 < n ∧ off + n ≤ capacity_ (ring_ f).
Proof.
  intros [Hr _ _ _] Hlt. destruct (unused_capacity_cases _ _ Hr Hlt) as [[? ->]|[? ->]];
    pose proof (holds_seek _ _ Hr); lia.
Qed.

(** A refill appends what the source delivers next. *)
Lemma fill_more_ok f q : feed_ok f q → length q < capacity_ (ring_ f) →
  ∃ fare f' bs, fill_more f = Some (Ret fare, f') ∧ feed_ok f' (q ++ bs) ∧
    bs ++ concat (source f') = concat (source f) ∧ capacity_ (ring_ f') = capacity_ (ring_ f) ∧
    (if bool_decide (source f = []) then fare = fare_eof ∧ bs = [] else ∃ k, fare = Ring.fare (S k) ∧ length bs = S k).
Proof.
  intros H Hlt. pose proof (unused_ok f q H Hlt) as Hu. unfold fill_more. rewrite (buffered_size_ok f q H).
  destruct (Nat.eqb_spec (length q) (capacity_ (ring_ f))) as [|_]; [lia|].
  pose proof (fill_holds (ring_ f) q) as Hfill. destruct (unused_capacity (ring_ f)) as [off n] eqn:Hun.
  destruct Hu as [Hn Hbound]. destruct (Nat.eqb_spec n 0); [lia|].
  assert (∀ bs src, length bs ≤ n → Forall (λ seg, seg ≠ []) src →
    feed_ok (MkFeed (Region.fill bs (ring_ f)) (write_at off bs (mem f)) src) (q ++ bs)) as Hok.
  { intros bs src Hbs Hsrc. destruct H as [Hr Hm Hroom _]. split; [by apply Hfill|..|done|done].
    cbn. rewrite Hun. apply construct_mem; [|done]. rewrite (holds_length _ _ Hr). cbn. lia. }
  pose proof (fd_source _ _ H) as Hsrc. destruct (source f) as [|seg src] eqn:Hsf; cbn.
  - do 3 eexists. split; [reflexivity|]. split; [by apply Hok; [cbn; lia|]|]. done.
  - apply Forall_cons in Hsrc as [Hseg Hsrc]. assert (0 < length seg) by (destruct seg; [done|cbn; lia]).
    destruct (Nat.eqb_spec (Nat.min n (length seg)) 0); [lia|]. set (k := Nat.min n (length seg)).
    do 3 eexists. split; [reflexivity|]. split.
    + apply Hok; [len|]. destruct (Nat.eqb_spec k (length seg)); [done|]. constructor; [|done].
      intros E%(f_equal length). rewrite length_drop in E. cbn in E. lia.
    + split; [|split; [done|]].
      * cbn. destruct (Nat.eqb_spec k (length seg)) as [->|]; [by rewrite firstn_all|]. cbn.
        by rewrite app_assoc, take_drop.
      * exists (k - 1). split; [f_equal; lia|]. len.
Qed.

(** At the end of the source a refill changes nothing. *)
Lemma fill_more_eof f q : feed_ok f q → source f = [] → length q < capacity_ (ring_ f) →
  fill_more f = Some (Ret fare_eof, f).
Proof.
  intros H Hsrc Hlt. pose proof (unused_ok f q H Hlt) as Hu. unfold fill_more. rewrite (buffered_size_ok f q H).
  destruct (Nat.eqb_spec (length q) (capacity_ (ring_ f))); [lia|].
  destruct (unused_capacity (ring_ f)) as [off n0] eqn:Hun. destruct (Nat.eqb_spec n0 0); [lia|].
  rewrite Hsrc. cbn. do 2 f_equal. unfold Region.fill, advance_constructed, construct_at, write_at. cbn.
  rewrite Hun. cbn. rewrite !Nat.add_0_r, !take_drop, size_add_small.
  - destruct f as [[? ? ? ?] ? ?]. cbn in *. by rewrite Nat.add_0_r, Hsrc.
  - pose proof (fd_ring _ _ H) as [? _ _ Hz _]. rewrite Hz. lia.
Qed.

(** The buffered bytes lie in one run. *)
Definition in_one_run (f : feed) : Prop := seek_ (ring_ f) + size_ (ring_ f) ≤ capacity_ (ring_ f).

Lemma contiguize_ok f q : feed_ok f q →
  ∃ f', contiguize f = Some (Ret tt, f') ∧ feed_ok f' q ∧ source f' = source f ∧
    capacity_ (ring_ f') = capacity_ (ring_ f) ∧ in_one_run f'.
Proof.
  intros H. pose proof (buffered_spans_ok f q H) as [Hspans _]. pose proof (fd_ring _ _ H) as Hr.
  pose proof (holds_capacity _ _ Hr) as Hcap. pose proof Hr as [Hb Hl Hs Hz _].
  unfold contiguize, in_one_run. destruct (empty (ring_ f)) eqn:He.
  { eexists. split; [done|]. unfold reset_if_empty. rewrite He. cbn. apply Nat.eqb_eq in He.
    split; [|by rewrite He; repeat split; lia]. pose proof (reset_holds _ _ Hr) as Hreset. unfold reset_if_empty, empty in Hreset.
    rewrite He in Hreset. destruct H. split; try done. by rewrite He in *. }
  unfold has_contiguous_constructed. rewrite size_add_small by lia.
  destruct (Nat.leb_spec (seek_ (ring_ f) + size_ (ring_ f)) (capacity_ (ring_ f))) as [Hle|Hgt].
  { exists f. done. }
  destruct (destroy_all_holds _ _ Hr) as (r & Hd & Hr'). rewrite Hd, Hspans. eexists. split; [done|]. cbn.
  assert (seek_ r = 0 ∧ size_ r = 0 ∧ capacity_ r = capacity_ (ring_ f) ∧ Forall2 slot_holds (data_ r) (mem f))
    as (Hseek & Hsize & Hrcap & Hmem).
  { pose proof (holds_size _ _ Hr') as Hrz. unfold destroy_all in Hd.
    destruct (destroy_prefix (size_ (ring_ f)) (ring_ f)) as [r0|] eqn:Hp; [|done]. injection Hd as <-.
    cbn [size_ seek_ capacity_ data_] in *.
    split; [done|]. split; [done|]. split; [by eapply destroy_loop_capacity|].
    eapply destroy_loop_mem; [exact Hp|done|lia|lia|apply (fd_mem _ _ H)]. }
  assert (unused_capacity r = (0, capacity_ r)) as Hun.
  { unfold unused_capacity, ring_unused_capacity, ring_write_index. rewrite Hseek, Hsize.
    pose proof (fd_room _ _ H). destruct (Nat.eqb_spec 0 (capacity_ r)); [lia|].
    rewrite size_add_small by lia. rewrite Nat.Div0.mod_0_l. cbn [Nat.ltb Nat.leb Nat.add].
    rewrite !size_sub_small by lia. f_equal. lia. }
  pose proof (fill_holds r [] q Hr') as Hfill. rewrite Hun in Hfill. specialize (Hfill ltac:(cbn; lia)).
  pose proof (holds_size _ _ Hfill) as Hfz. cbn in Hfz.
  split; [|split; [done|]; split; [done|]; cbn in *; lia].
  split; [done|..|cbn; rewrite Hrcap; apply H|apply H]. cbn. rewrite Hun. apply construct_mem; [|done].
  rewrite (holds_length _ _ Hr'). cbn. lia.
Qed.

Lemma view_length m s : at_ s + len_ s ≤ length m → length (view m s) = len_ s.
Proof. intros H. unfold view, span_of. rewrite length_take, length_drop. lia. Qed.

(** The first run of buffered bytes, cut at the limit. *)
Lemma first_span_ok f q limit : feed_ok f q → q ≠ [] → 0 < limit →
  let s := first_buffered_span limit f in
  0 < len_ s ≤ limit ∧ len_ s ≤ length q ∧ view (mem f) s = take (len_ s) q ∧
  at_ s + len_ s ≤ capacity_ (ring_ f) ∧
  (in_one_run f → limit = length q → len_ s = length q).
Proof.
  intros H Hq Hlim. pose proof (buffered_spans_ok f q H) as [Hc Hs]. pose proof (mem_length f q H) as Hl.
  pose proof (holds_size _ _ (fd_ring _ _ H)) as Hz. pose proof (fd_ring _ _ H) as [Hb _ Hsk _ _].
  pose proof (holds_capacity _ _ (fd_ring _ _ H)) as Hcap.
  unfold first_buffered_span. destruct (buffered_spans f) as [|s ss] eqn:Hsp; [by cbn in Hc|].
  apply Forall_cons in Hs as [[Hs0 Hs1] _]. cbn in Hc |- *.
  assert (len_ s ≤ length q) by (rewrite <- Hc, length_app, view_length by lia; lia).
  split; [lia|]. split; [lia|]. split; [|split; [lia|]].
  - rewrite <- Hc, take_app_le by (rewrite view_length by lia; lia). unfold view, span_of. cbn.
    rewrite take_take. f_equal. lia.
  - intros Hrun ->. unfold buffered_spans in Hsp. destruct (Nat.eqb_spec (size_ (ring_ f)) 0); [done|].
    unfold in_one_run in Hrun. rewrite size_sub_small in Hsp by lia.
    rewrite Nat.min_l in Hsp by lia. rewrite Nat.eqb_refl in Hsp. injection Hsp as <- <-. cbn. lia.
Qed.

(** Lending the first buffered run. *)
Definition lend (limit : nat) : verb (option span) :=
  f <~ gets (λ f, f);
  let out := first_buffered_span limit f in
  _ <~ toss (len_ out);
  pret (Some out).

Lemma lend_ok f q limit : feed_ok f q → q ≠ [] → 0 < limit →
  ∃ sp f', lend limit f = Some (Ret (Some sp), f') ∧ feed_ok f' (drop (len_ sp) q) ∧
    0 < len_ sp ≤ limit ∧ len_ sp ≤ length q ∧ view (mem f') sp = take (len_ sp) q ∧
    mem f' = mem f ∧ source f' = source f ∧ capacity_ (ring_ f') = capacity_ (ring_ f).
Proof.
  intros H Hq Hlim. destruct (first_span_ok f q limit H Hq Hlim) as (Hl & Hlq & Hv & _).
  destruct (toss_ok (len_ (first_buffered_span limit f)) f q H Hlq) as (f' & Ht & Hf' & Hm & Hs & Hc).
  exists (first_buffered_span limit f), f'. split.
  { unfold lend. change (pbind (gets (λ f, f)) ?k f) with (k f f). cbv beta zeta. by rewrite (bind_run _ _ _ _ _ Ht). }
  by rewrite Hm.
Qed.

Lemma take_some_unfold limit f :
  take_some limit f =
  if buffered_size f =? 0 then
    pbind fill_more (λ result,
      if is_eof result && (value_count result =? 0) then pret None
      else if value_count result =? 0 then s <~ buffered_span; pret (Some (MkSpan (at_ s) 0))
      else lend limit) f
  else lend limit f.
Proof. unfold take_some. change (pbind (gets buffered_size) ?k f) with (k (buffered_size f) f). cbv beta. by destruct (_ =? 0). Qed.

(** The next bytes of the stream, as a span that shows them. *)
Lemma take_some_ok f q limit : feed_ok f q → 0 < limit →
  if bool_decide (stream q f = []) then take_some limit f = Some (Ret None, f)
  else ∃ sp f' q', take_some limit f = Some (Ret (Some sp), f') ∧ feed_ok f' q' ∧
    stream q f = view (mem f') sp ++ stream q' f' ∧ 0 < len_ sp ≤ limit ∧
    length (view (mem f') sp) = len_ sp ∧ capacity_ (ring_ f') = capacity_ (ring_ f) ∧
    (q ≠ [] → view (mem f') sp = take (len_ sp) q ∧ q' = drop (len_ sp) q ∧ len_ sp ≤ length q).
Proof.
  intros H Hlim. rewrite take_some_unfold, (buffered_size_ok f q H). unfold stream.
  assert (∀ f1 q1, feed_ok f1 q1 → q1 ≠ [] → q1 ++ concat (source f1) = q ++ concat (source f) →
    capacity_ (ring_ f1) = capacity_ (ring_ f) → (q ≠ [] → q1 = q) →
    ∃ sp f' q', lend limit f1 = Some (Ret (Some sp), f') ∧ feed_ok f' q' ∧
      q ++ concat (source f) = view (mem f') sp ++ q' ++ concat (source f') ∧ 0 < len_ sp ≤ limit ∧
      length (view (mem f') sp) = len_ sp ∧ capacity_ (ring_ f') = capacity_ (ring_ f) ∧
      (q ≠ [] → view (mem f') sp = take (len_ sp) q ∧ q' = drop (len_ sp) q ∧ len_ sp ≤ length q)) as Hlend.
  { intros f1 q1 H1 Hq1 Hst Hcap Heq. destruct (lend_ok f1 q1 limit H1 Hq1 Hlim) as (sp & f' & Hl & Hf' & Hlen & Hle & Hv & _ & Hs & Hc).
    exists sp, f', (drop (len_ sp) q1). rewrite Hs, Hv. split; [done|]. split; [done|].
    split; [by rewrite app_assoc, take_drop|]. split; [done|]. split; [rewrite length_take; lia|]. split; [congruence|].
    intros Hne. by rewrite <- (Heq Hne). }
  destruct q as [|x q].
  - cbn [length Nat.eqb]. destruct (fill_more_ok f [] H) as (fr & f1 & bs & Hfill & Hf1 & Hbs & Hcap & Hres); [apply H|].
    cbn [app] in *. destruct (source f) as [|seg src] eqn:Hsrc.
    + rewrite (bool_decide_true (concat [] = [])) by done.
      by rewrite (bind_run _ _ _ _ _ (fill_more_eof f [] H Hsrc (fd_room _ _ H))).
    + rewrite bool_decide_false in Hres by done. destruct Hres as (k & -> & Hk).
      assert (bs ≠ []) by (intros ->; done).
      rewrite bool_decide_false by (rewrite <- Hbs; by intros [? ?]%app_eq_nil).
      rewrite (bind_run _ _ _ _ _ Hfill). cbn [is_eof value_count andb Nat.eqb]. apply (Hlend f1 bs); try done.
  - cbn [length Nat.eqb]. rewrite bool_decide_false by done. by apply (Hlend f (x :: q)).
Qed.

(** ** Searching a prefix of the stream *)

Lemma starts_with_app d : ∀ a b, starts_with d a = true → starts_with d (a ++ b) = true.
Proof.
  induction d as [|x d IH]; intros [|y a] b; cbn; try done. intros [? ?]%andb_prop. apply andb_true_intro. auto.
Qed.

Lemma starts_with_short d : ∀ a b, starts_with d (a ++ b) = true → length d ≤ length a → starts_with d a = true.
Proof.
  induction d as [|x d IH]; intros [|y a] b; cbn; try done; [lia|]. intros [? ?]%andb_prop Hl.
  apply andb_true_intro. split; [done|]. eapply IH; [done|lia].
Qed.

Lemma starts_with_split d : ∀ a, starts_with d a = true → a = d ++ drop (length d) a.
Proof.
  induction d as [|x d IH]; intros [|y a]; cbn; try done. intros [->%Z.eqb_eq ?]%andb_prop. f_equal. auto.
Qed.

(** A match in the buffered bytes is the first of the whole stream. *)
Lemma find_found q d x : d ≠ [] → find_bytes q d < length q → find_bytes (q ++ x) d = find_bytes q d ∧
  starts_with d (drop (find_bytes q d) q) = true ∧ find_bytes q d + length d ≤ length q.
Proof.
  intros Hd. induction q as [|y q IH]; [cbn; lia|]. cbn [find_bytes app length]. intros H.
  destruct (starts_with d (y :: q)) eqn:Hs.
  - pose proof (starts_with_app d _ x Hs) as Hs'. cbn [app] in Hs'. rewrite Hs'. split; [done|]. split; [done|].
    apply starts_with_split, (f_equal length) in Hs. rewrite length_app in Hs. cbn [length] in Hs. lia.
  - destruct (starts_with d (y :: q ++ x)) eqn:Hs'.
    + destruct (Nat.le_gt_cases (length d) (length (y :: q))) as [Hl|Hl].
      { rewrite (starts_with_short d (y :: q) x Hs' Hl) in Hs. done. }
      destruct IH as (_ & _ & Hle); [lia|]. cbn [length] in Hl. lia.
    + destruct IH as (-> & Hst & Hle); [lia|]. cbn [drop]. split; [done|]. split; [done|lia].
Qed.

(** With no match in the buffered bytes, one ends after them. *)
Lemma find_missing q d x : d ≠ [] → find_bytes q d = length q → length q < find_bytes (q ++ x) d + length d.
Proof.
  intros Hd. assert (0 < length d) by (destruct d; [done|cbn; lia]).
  induction q as [|y q IH]; [cbn; lia|]. cbn [find_bytes app length].
  destruct (starts_with d (y :: q)) eqn:Hs; [done|]. intros Hf. destruct (starts_with d (y :: q ++ x)) eqn:Hs'; [|specialize (IH ltac:(lia)); lia].
  destruct (Nat.le_gt_cases (length d) (length (y :: q))) as [Hl|Hl]; [|cbn [length] in Hl; lia].
  rewrite (starts_with_short d (y :: q) x Hs' Hl) in Hs. done.
Qed.

Lemma find_le q d : find_bytes q d ≤ length q.
Proof. induction q as [|y q IH]; cbn; destruct (starts_with _ _); lia. Qed.

(** ** [take_until] *)

Lemma one_run_span f q : feed_ok f q → in_one_run f →
  ∃ s, buffered_span f = Some (Ret s, f) ∧ view (mem f) s = q ∧ len_ s = length q ∧ at_ s + len_ s ≤ capacity_ (ring_ f).
Proof.
  intros H Hrun. pose proof (buffered_spans_ok f q H) as [Hc Hs]. pose proof (mem_length f q H) as Hl.
  pose proof (holds_size _ _ (fd_ring _ _ H)) as Hz. pose proof (fd_ring _ _ H) as [Hb _ Hsk _ _].
  unfold buffered_span. unfold buffered_spans in *. unfold in_one_run in Hrun.
  destruct (Nat.eqb_spec (size_ (ring_ f)) 0) as [Hz0|Hz0].
  { exists (MkSpan 0 0). cbn in *. subst q. split_and!; [done|done|done|lia]. }
  rewrite size_sub_small, Nat.min_l, Nat.eqb_refl in * by lia. eexists. split; [done|]. cbn in Hc. rewrite app_nil_r in Hc.
  split; [done|]. cbn. split; [done|]. lia.
Qed.

(** How [take_until] may end. *)
Definition until_outcome (f : feed) (q d : bytes) (r : result feed_error span) (f' : feed) : Prop :=
  ∃ q', feed_ok f' q' ∧ capacity_ (ring_ f') = capacity_ (ring_ f) ∧
  match r with
  | Ret sp =>
      stream q f = view (mem f') sp ++ d ++ stream q' f' ∧
      find_bytes (stream q f) d = length (view (mem f') sp) ∧ length (view (mem f') sp) = len_ sp
  | Throw e =>
      stream q' f' = stream q f ∧
      (e = end_of_input ∧ find_bytes (stream q f) d = length (stream q f) ∨
       e = filled_before_delimiter ∧ capacity_ (ring_ f) < find_bytes (stream q f) d + length d)
  end.

Lemma take_until_loop_ok d fuel : d ≠ [] → ∀ f q, feed_ok f q → source_size f < fuel →
  wp (take_until_loop fuel d) (until_outcome f q d) f.
Proof.
  intros Hd. induction fuel as [|fuel IH]; intros f q H Hf; [lia|]. cbn [take_until_loop].
  destruct (contiguize_ok f q H) as (f1 & Hc & H1 & Hsrc & Hcap & Hrun).
  destruct (one_run_span f1 q H1 Hrun) as (s & Hspan & Hv & Hlen & Hat).
  assert (stream q f1 = stream q f) as Hst by (unfold stream; by rewrite Hsrc).
  apply wp_bind. exists (Ret tt), f1. split; [done|]. apply wp_bind. exists (Ret s), f1. split; [done|].
  apply wp_bind, wp_gets. rewrite Hv, Hlen. destruct (Nat.ltb_spec (find_bytes q d) (length q)) as [Hlt|Hge].
  - destruct (find_found q d (concat (source f)) Hd Hlt) as (Hfind & Hsw & Hle).
    destruct (toss_ok (find_bytes q d + length d) f1 q H1 Hle) as (f2 & Ht & H2 & Hm & Hs2 & Hc2).
    apply wp_bind. exists (Ret tt), f2. split; [done|]. apply wp_ret. exists (drop (find_bytes q d + length d) q).
    split; [done|]. split; [congruence|].
    assert (view (mem f2) (MkSpan (at_ s) (find_bytes q d)) = take (find_bytes q d) q) as Hview.
    { rewrite Hm. transitivity (take (find_bytes q d) (view (mem f1) s)); [|by rewrite Hv].
      unfold view, span_of. cbn [at_ len_]. rewrite take_take. f_equal. lia. }
    rewrite Hview. split; [|split; [unfold stream; rewrite Hfind, length_take; lia|cbn; rewrite length_take; lia]].
    unfold stream. rewrite Hs2, Hsrc, <- drop_drop, !app_assoc. f_equal.
    apply starts_with_split in Hsw. rewrite <- app_assoc, <- Hsw. by rewrite take_drop.
  - assert (find_bytes q d = length q) as Hnone by (pose proof (find_le q d); lia).
    rewrite (buffered_size_ok f1 q H1). destruct (Nat.eqb_spec (length q) (capacity_ (ring_ f1))) as [Hfull|Hroom].
    { apply wp_throw. exists q. split; [done|]. split; [done|]. split; [done|]. right. split; [done|].
      rewrite <- Hcap, <- Hfull. by apply find_missing. }
    pose proof (holds_capacity _ _ (fd_ring _ _ H1)) as Hle.
    destruct (fill_more_ok f1 q H1) as (fr & f2 & bs & Hfill & H2 & Hbs & Hc2 & Hres); [lia|].
    apply wp_bind. exists (Ret fr), f2. split; [done|]. case_bool_decide as He.
    + destruct Hres as [-> ->]. apply wp_throw. rewrite app_nil_r in H2. exists q. split; [done|].
      split; [congruence|]. split; [unfold stream; by rewrite <- Hsrc, <- Hbs|]. left. split; [done|].
      unfold stream. rewrite <- Hsrc, He. cbn. rewrite app_nil_r. done.
    + destruct Hres as (k & -> & Hk). cbn [is_eof value_count andb]. eapply wp_mono; [apply (IH f2 (q ++ bs) H2)|].
      * unfold source_size in *. rewrite <- Hsrc, <- Hbs, length_app in Hf. lia.
      * intros r f3 (q' & H3 & Hc3 & Hr). assert (stream (q ++ bs) f2 = stream q f) as Hst2.
        { unfold stream. by rewrite <- app_assoc, Hbs, Hsrc. }
        rewrite Hst2, Hc2, Hcap in *. exists q'. split; [done|]. split; [congruence|]. done.
Qed.

(** ** [fill] and [take(n)] *)

(** A refill loop leaves the stream as it was. *)
Definition filled (f : feed) (q : bytes) (n : nat) (r : result feed_error unit) (f' : feed) : Prop :=
  ∃ q', feed_ok f' q' ∧ capacity_ (ring_ f') = capacity_ (ring_ f) ∧ stream q' f' = stream q f ∧
  match r with
  | Ret _ => n ≤ length q'
  | Throw e => e = buffer_too_small ∧ capacity_ (ring_ f) < n ∨ e = end_of_input ∧ length (stream q f) < n
  end.

Lemma fill_slow_ok n fuel : ∀ f q, feed_ok f q → n ≤ capacity_ (ring_ f) → source_size f < fuel →
  wp (fill_slow fuel n) (filled f q n) f.
Proof.
  induction fuel as [|fuel IH]; intros f q H Hn Hf; [lia|]. cbn [fill_slow]. apply wp_bind, wp_gets.
  rewrite (buffered_size_ok f q H). destruct (Nat.leb_spec n (length q)) as [Hle|Hlt].
  { apply wp_ret. by exists q. }
  destruct (fill_more_ok f q H) as (fr & f1 & bs & Hfill & H1 & Hbs & Hc & Hres); [lia|].
  apply wp_bind. exists (Ret fr), f1. split; [done|]. apply wp_bind, wp_gets. rewrite (buffered_size_ok f1 _ H1).
  assert (stream (q ++ bs) f1 = stream q f) as Hst by (unfold stream; by rewrite <- app_assoc, Hbs).
  case_bool_decide as He.
  - destruct Hres as [-> ->]. rewrite app_nil_r in *. cbn [is_eof value_count andb Nat.eqb]. rewrite Nat.eqb_refl.
    apply wp_throw. exists q. split_and!; [done|done|done|]. right. split; [done|]. unfold stream. rewrite He. cbn.
    rewrite app_nil_r. done.
  - destruct Hres as (k & -> & Hk). cbn [is_eof andb]. eapply wp_mono; [apply (IH f1 (q ++ bs) H1); [lia|]|].
    + unfold source_size in *. rewrite <- Hbs, length_app in Hf. lia.
    + intros r f2 (q' & H2 & Hc2 & Hst2 & Hr). rewrite Hst, Hc in *. exists q'. split_and!; [done|congruence|done|done].
Qed.

Lemma fill_ok n f q : feed_ok f q → wp (fill n) (filled f q n) f.
Proof.
  intros H. unfold fill, wp. destruct (Nat.ltb_spec (capacity_ (ring_ f)) n).
  { do 2 eexists. split; [done|]. exists q. split_and!; [done..|]. by left. }
  rewrite (buffered_size_ok f q H). destruct (Nat.leb_spec n (length q)).
  { do 2 eexists. split; [done|]. by exists q. }
  apply (fill_slow_ok n (S (S (source_size f))) f q); [done|lia|lia].
Qed.

Lemma contiguous_prefix_ok n f q : feed_ok f q → n ≤ length q →
  ∃ s f', contiguous_prefix n f = Some (Ret s, f') ∧ feed_ok f' q ∧ source f' = source f ∧
    capacity_ (ring_ f') = capacity_ (ring_ f) ∧ len_ s = n ∧ view (mem f') s = take n q.
Proof.
  intros H Hn. unfold contiguous_prefix. destruct (Nat.eqb_spec (len_ (first_buffered_span n f)) n) as [Hlen|Hlen].
  - exists (first_buffered_span n f), f. split_and!; try done. destruct n as [|n].
    { unfold view, span_of. rewrite Hlen. done. }
    destruct (first_span_ok f q (S n) H) as (_ & _ & Hv & _); [intros ->; cbn in Hn; lia|lia|]. by rewrite Hv, Hlen.
  - destruct (contiguize_ok f q H) as (f1 & Hc & H1 & Hsrc & Hcap & Hrun).
    destruct (one_run_span f1 q H1 Hrun) as (s & Hspan & Hv & Hl & Hat).
    exists (MkSpan (at_ s) n), f1. rewrite (bind_run _ _ _ _ _ Hc), (bind_run _ _ _ _ _ Hspan). split_and!; try done.
    transitivity (take n (view (mem f1) s)); [|by rewrite Hv]. unfold view, span_of. cbn. rewrite take_take. f_equal. lia.
Qed.

(** [take(n)] lends exactly the next [n] bytes, wherever they lie in the ring
    and however many reads they take: it returns a span that shows the next [n]
    bytes of the stream and leaves the rest, or throws and loses nothing, because
    the buffer is smaller than [n] or because the stream ends before. *)
Theorem take_exact f q n : feed_ok f q →
  ∃ r f' q', take_span n f = Some (r, f') ∧ feed_ok f' q' ∧
  match r with
  | Ret sp => length (view (mem f') sp) = n ∧ stream q f = view (mem f') sp ++ stream q' f'
  | Throw e =>
      stream q' f' = stream q f ∧
      (e = buffer_too_small ∧ capacity_ (ring_ f) < n ∨ e = end_of_input ∧ length (stream q f) < n)
  end.
Proof.
  intros H. destruct (fill_ok n f q H) as (r & f1 & Hfill & q1 & H1 & Hc1 & Hst & Hr).
  unfold take_span, peek_span. destruct r as [[]|e].
  - destruct (contiguous_prefix_ok n f1 q1 H1 Hr) as (s & f2 & Hcp & H2 & Hs2 & Hc2 & Hl & Hv).
    destruct (toss_ok n f2 q1 H2 Hr) as (f3 & Ht & H3 & Hm & Hs3 & Hc3).
    exists (Ret s), f3, (drop n q1). split.
    { rewrite (bind_run _ _ f s f2) by (by rewrite (bind_run _ _ _ _ _ Hfill)). by rewrite (bind_run _ _ _ _ _ Ht). }
    split; [done|]. rewrite Hm, Hv. split; [rewrite length_take; lia|].
    rewrite <- Hst. unfold stream. rewrite Hs3, Hs2, app_assoc, take_drop. done.
  - exists (Throw e), f1, q1. split; [unfold pbind; by rewrite Hfill|]. split; [done|]. by rewrite Hst.
Qed.

(** [take_some] lends the next bytes of the stream: nothing, and no change, at
    its end; otherwise a span of one byte or more and at most [limit], which
    shows the bytes that come next, with everything after them still to come. *)
Theorem take_some_next f q limit : feed_ok f q → 0 < limit →
  if bool_decide (stream q f = []) then take_some limit f = Some (Ret None, f)
  else ∃ sp f' q', take_some limit f = Some (Ret (Some sp), f') ∧ feed_ok f' q' ∧
    stream q f = view (mem f') sp ++ stream q' f' ∧ 0 < length (view (mem f') sp) ≤ limit.
Proof.
  intros H Hl. pose proof (take_some_ok f q limit H Hl) as Hs. case_bool_decide; [done|].
  destruct Hs as (sp & f' & q' & Hr & H' & Hst & Hlen & Hv & _). exists sp, f', q'. rewrite Hv. done.
Qed.

Lemma take_until_ok f q d : feed_ok f q → d ≠ [] → wp (take_until d) (until_outcome f q d) f.
Proof.
  intros H Hd. unfold wp, take_until. rewrite bool_decide_false by done. by apply take_until_loop_ok; [..|lia].
Qed.

(** Consuming from one run leaves one run. *)
Lemma toss_one_run n f q f' : feed_ok f q → n ≤ length q → in_one_run f → toss n f = Some (Ret tt, f') → in_one_run f'.
Proof.
  intros H Hn Hrun. pose proof (fd_ring _ _ H) as [Hb _ Hs Hz _]. pose proof (holds_capacity _ _ (fd_ring _ _ H)) as Hc.
  unfold toss. rewrite (buffered_size_ok f q H). destruct (Nat.ltb_spec (length q) n); [lia|].
  unfold in_one_run in *. unfold destroy_prefix. cbn [destroy_loop]. destruct (Nat.eqb_spec n 0) as [->|Hn0].
  { intros [= <-]. cbn. unfold reset_if_empty, empty. destruct (Nat.eqb_spec (size_ (ring_ f)) 0); cbn; lia. }
  rewrite size_sub_small, Nat.min_l, Nat.sub_diag by lia. cbn [Nat.eqb]. intros [= <-]. cbn.
  unfold reset_if_empty, empty. cbn. rewrite size_sub_small, size_add_small by lia.
  destruct (Nat.eqb_spec (size_ (ring_ f) - n) 0); cbn; [lia|].
  rewrite Nat.mod_small by lia. lia.
Qed.

(** A delimiter that is buffered, with the bytes before it, in one run is taken
    without touching the storage. *)
Lemma take_until_buffered f q d : feed_ok f q → d ≠ [] → in_one_run f → find_bytes q d < length q →
  ∃ s f', take_until d f = Some (Ret s, f') ∧ mem f' = mem f ∧ source f' = source f ∧ in_one_run f'.
Proof.
  intros H Hd Hrun Hlt. unfold take_until. rewrite bool_decide_false by done. cbn [take_until_loop].
  destruct (one_run_span f q H Hrun) as (s & Hspan & Hv & Hlen & _).
  destruct (find_found q d [] Hd Hlt) as (_ & _ & Hle).
  destruct (toss_ok (find_bytes q d + length d) f q H Hle) as (f2 & Ht & _ & Hm & Hs2 & _).
  assert (contiguize f = Some (Ret tt, f)) as Hc.
  { unfold contiguize, empty, has_contiguous_constructed. pose proof (fd_ring _ _ H) as [Hb _ Hs Hz _].
    pose proof (holds_capacity _ _ (fd_ring _ _ H)). unfold in_one_run in Hrun.
    destruct (Nat.eqb_spec (size_ (ring_ f)) 0); [lia|]. rewrite size_add_small by lia.
    destruct (Nat.leb_spec (seek_ (ring_ f) + size_ (ring_ f)) (capacity_ (ring_ f))); [done|lia]. }
  exists (MkSpan (at_ s) (find_bytes q d)), f2. rewrite (bind_run _ _ _ _ _ Hc), (bind_run _ _ _ _ _ Hspan).
  change (pbind (gets (λ f, f)) ?k f) with (k f f). cbv beta zeta. rewrite Hv, Hlen.
  destruct (Nat.ltb_spec (find_bytes q d) (length q)); [|lia]. rewrite (bind_run _ _ _ _ _ Ht).
  split; [done|]. split; [done|]. split; [done|]. exact (toss_one_run _ _ _ _ H Hle Hrun Ht).
Qed.

(** [take_some] from one run of buffered bytes leaves one run and the storage as
    it was. *)
Lemma take_some_buffered f q limit r f' : feed_ok f q → 0 < limit → q ≠ [] → in_one_run f →
  take_some limit f = Some (r, f') → mem f' = mem f ∧ source f' = source f ∧ in_one_run f'.
Proof.
  intros H Hl Hq Hrun. rewrite take_some_unfold, (buffered_size_ok f q H). destruct (Nat.eqb_spec (length q) 0) as [E|_].
  { by apply length_zero_iff_nil in E. }
  destruct (first_span_ok f q limit H Hq Hl) as (_ & Hle & _).
  destruct (toss_ok (len_ (first_buffered_span limit f)) f q H Hle) as (f2 & Ht & _ & Hm & Hs & _).
  unfold lend. change (pbind (gets (λ f, f)) ?k f) with (k f f). cbv beta zeta.
  rewrite (bind_run _ _ _ _ _ Ht). intros [= <- <-]. split; [done|]. split; [done|]. exact (toss_one_run _ _ _ _ H Hle Hrun Ht).
Qed.

(** C21: [take_until] finds the first delimiter of the stream. It always ends: it
    lends the bytes before the first occurrence, with the bytes after the
    delimiter still to come, even when the delimiter is split between reads or
    wraps in the ring; or it throws with nothing consumed, exactly because the
    stream ends without a delimiter or because the delimiter lies beyond what
    the buffer can hold. *)
Theorem take_until_first f q d : feed_ok f q → d ≠ [] →
  ∃ r f', take_until d f = Some (r, f') ∧ until_outcome f q d r f'.
Proof. apply take_until_ok. Qed.

(** ** A feed for the examples *)

(** A buffer of eight bytes whose ring has wrapped: two bytes at its end and one
    at its start, with two more reads to come. *)
Definition wrapped_feed : feed :=
  MkFeed (MkRing [Some 3%Z; None; None; None; None; None; Some 1%Z; Some 2%Z] 8 6 3)
    [3; 9; 9; 9; 9; 9; 1; 2]%Z [[4%Z; 13%Z]; [10%Z; 5%Z]].

Lemma wrapped_ok : feed_ok wrapped_feed [1; 2; 3]%Z.
Proof.
  split; [by split; cbn; lia || reflexivity|..|cbn; lia|by repeat constructor].
  repeat constructor; by intros ? [= <-].
Qed.

Lemma take_exact_witness :
  ∃ r f' q', take_span 4 wrapped_feed = Some (r, f') ∧ feed_ok f' q' ∧
  match r with
  | Ret sp => length (view (mem f') sp) = 4 ∧ [1; 2; 3; 4; 13; 10; 5]%Z = view (mem f') sp ++ stream q' f'
  | Throw e => stream q' f' = [1; 2; 3; 4; 13; 10; 5]%Z ∧
      (e = buffer_too_small ∧ 8 < 4 ∨ e = end_of_input ∧ 7 < 4)
  end.
Proof. apply (take_exact wrapped_feed [1; 2; 3]%Z 4). apply wrapped_ok. Defined.

Lemma take_some_next_witness :
  ∃ sp f' q', take_some 5 wrapped_feed = Some (Ret (Some sp), f') ∧ feed_ok f' q' ∧
    [1; 2; 3; 4; 13; 10; 5]%Z = view (mem f') sp ++ stream q' f' ∧ 0 < length (view (mem f') sp) ≤ 5.
Proof. apply (take_some_next wrapped_feed [1; 2; 3]%Z 5); [apply wrapped_ok|lia]. Defined.

Lemma take_until_first_witness :
  ∃ r f', take_until [13; 10]%Z wrapped_feed = Some (r, f') ∧ until_outcome wrapped_feed [1; 2; 3]%Z [13; 10]%Z r f'.
Proof. apply (take_until_first wrapped_feed [1; 2; 3]%Z [13; 10]%Z); [apply wrapped_ok|done]. Defined.
