(* ===== verification/Hash.v ===== *)
(** * Hash functions (src/src/nxt/crypto/sha256.cpp, sha1.cpp, crypto.cpp)

    [Block] is the buffering both hash states share: [update] absorbs any
    number of bytes, compressing each full 64-byte block, and [finalize] pads.
    [Sha256] and [Sha1] are the two compression functions over it, [Hmac] the
    keyed hash and [Hkdf] the key derivation built on it. *)
From S2P Require Import Prelude.
#[local] Open Scope Z_scope.

(** ** 32-bit word operations *)

Definition rotr (x : Z) (n : Z) : Z := Z.lor (Z.shiftr x n) (u32 (Z.shiftl x (32 - n))).

Definition rotl (x : Z) (n : Z) : Z := Z.lor (u32 (Z.shiftl x n)) (Z.shiftr x (32 - n)).

(** [~x] in 32 bits. *)
Definition not32 (x : Z) : Z := Z.lxor x (2 ^ 32 - 1).

Definition nthZ (l : list Z) (i : nat) : Z := default 0 (l !! i).

Definition load32_be (block : bytes) (off : nat) : Z :=
  Z.lor (Z.lor (Z.lor (Z.shiftl (nthZ block off) 24) (Z.shiftl (nthZ block (off + 1)) 16))
               (Z.shiftl (nthZ block (off + 2)) 8))
        (nthZ block (off + 3)).

Definition store32_be (value : Z) : bytes :=
  [u8 (Z.shiftr value 24); u8 (Z.shiftr value 16); u8 (Z.shiftr value 8); u8 value].

(** [out[k] = f(k)] for the words of a digest. *)
Definition store_words (ws : list Z) : bytes := concat (store32_be <$> ws).

(** ** Buffering and padding *)
Module Block.
Section block.
Context (compress : list Z → bytes → list Z).

Record hash_state := MkHash {
  state_ : list Z;
  buffer_ : bytes;
  size_ : Z;
  buffered_ : nat
}.

(** The [while (input.size() >= buffer_.size())] loop: the chaining value and
    the bytes left. *)
Fixpoint absorb (fuel : nat) (state : list Z) (input : bytes) : list Z * bytes :=
  match fuel with
  | O => (state, input)
  | S fuel' =>
      if (64 <=? length input)%nat
      then absorb fuel' (compress state (take 64 input)) (drop 64 input)
      else (state, input)
  end.

(** [std::ranges::copy(src, buf.begin() + off)]. *)
Definition copy_at (buf : bytes) (off : nat) (src : bytes) : bytes :=
  take off buf ++ src ++ drop (off + length src) buf.

Definition update (st : hash_state) (input : bytes) : hash_state :=
  let size := u64 (size_ st + Z.of_nat (length input)) in
  let '(state, buffer, buffered, input) :=
    if (buffered_ st =? 0)%nat then (state_ st, buffer_ st, buffered_ st, input)
    else
      let n := Nat.min (length input) (64 - buffered_ st) in
      let buffer := copy_at (buffer_ st) (buffered_ st) (take n input) in
      let buffered := (buffered_ st + n)%nat in
      if (buffered =? 64)%nat then (compress (state_ st) buffer, buffer, 0%nat, drop n input)
      else (state_ st, buffer, buffered, drop n input) in
  let '(state, input) := absorb (length input) state input in
  match input with
  | [] => MkHash state buffer size buffered
  | _ => MkHash state (copy_at buffer 0 input) size (length input)
  end.

(** The eight bytes [block[final_size - 1 - i] = bit_size >> (8 * i)]. *)
Definition bit_size_bytes (bit_size : Z) : bytes :=
  (λ i, u8 (Z.shiftr bit_size (8 * i))) <$> [7; 6; 5; 4; 3; 2; 1; 0].

Definition final_block (st : hash_state) : bytes :=
  let final_size := if (buffered_ st <? 56)%nat then 64%nat else 128%nat in
  let block := copy_at (replicate 128 0) 0 (take (buffered_ st) (buffer_ st)) in
  let block := <[buffered_ st := 128]> block in
  copy_at block (final_size - 8) (bit_size_bytes (u64 (size_ st * 8))).

(** The chaining value after the padded last block or two. *)
Definition finalize (st : hash_state) : list Z :=
  let block := final_block st in
  let state := compress (state_ st) (take 64 block) in
  if (buffered_ st <? 56)%nat then state else compress state (drop 64 block).

Definition start (iv : list Z) : hash_state := MkHash iv (replicate 64 0) 0 0.

(** ** The specification: hash the padded message block by block *)

(** The padding of a message of [n] bytes: a one bit, zero bits, and the length in
    bits, up to a whole number of blocks. *)
Definition padding (n : nat) : bytes :=
  let zeros := if (n mod 64 <? 56)%nat then (55 - n mod 64)%nat else (119 - n mod 64)%nat in
  [128] ++ replicate zeros 0 ++ bit_size_bytes (u64 (8 * Z.of_nat n)).

Definition fold_blocks (iv : list Z) (m : bytes) : list Z := (absorb (length m) iv m).1.

Definition md_hash (iv : list Z) (m : bytes) : list Z := fold_blocks iv (m ++ padding (length m)).

(** The state has absorbed exactly the message [m] from [iv]. *)
Record absorbed (iv : list Z) (st : hash_state) (m : bytes) : Prop := {
  absorbed_buffer : length (buffer_ st) = 64%nat;
  absorbed_fill : (buffered_ st < 64)%nat;
  absorbed_size : size_ st = u64 (Z.of_nat (length m));
  absorbed_state : absorb (length m) iv m = (state_ st, take (buffered_ st) (buffer_ st))
}.

Lemma absorb_fuel fuel state input :
  (length input ≤ fuel)%nat → absorb fuel state input = absorb (length input) state input.
Proof.
  revert state input. induction fuel as [fuel IH] using lt_wf_ind. intros state input Hf.
  destruct fuel as [|fuel]; [destruct input; [done|simpl in *; lia]|].
  destruct input as [|b input]; [done|].
  change (length (b :: input)) with (S (length input)). cbn [absorb].
  destruct (Nat.leb_spec 64 (length (b :: input))) as [H64|]; [|done].
  rewrite (IH fuel) by len. symmetry. apply IH; len.
Qed.

Lemma absorb_unfold state input :
  absorb (length input) state input =
  if (64 <=? length input)%nat
  then absorb (length (drop 64 input)) (compress state (take 64 input)) (drop 64 input)
  else (state, input).
Proof.
  destruct input as [|b input]; [done|].
  change (length (b :: input)) with (S (length input)) at 1. cbn [absorb].
  destruct (64 <=? length (b :: input))%nat eqn:H; [|done]. apply absorb_fuel. len.
Qed.

(** Absorbing two pieces is absorbing them joined. *)
Lemma absorb_app state m n :
  absorb (length (m ++ n)) state (m ++ n) =
  let '(state', rest) := absorb (length m) state m in
  absorb (length (rest ++ n)) state' (rest ++ n).
Proof.
  remember (length m) as k eqn:Hk. revert state m Hk.
  induction k as [k IH] using lt_wf_ind. intros state m ->.
  rewrite (absorb_unfold state m). destruct (Nat.leb_spec 64 (length m)) as [H|H]; [|done].
  rewrite (absorb_unfold state (m ++ n)).
  destruct (Nat.leb_spec 64 (length (m ++ n))) as [_|H']; [|len].
  rewrite take_app_le, drop_app_le by lia. apply IH; len.
Qed.

Lemma absorb_rest state m : (length (absorb (length m) state m).2 < 64)%nat.
Proof.
  remember (length m) as k eqn:Hk. revert state m Hk.
  induction k as [k IH] using lt_wf_ind. intros state m ->.
  rewrite absorb_unfold. destruct (Nat.leb_spec 64 (length m)); [|done]. apply IH; len.
Qed.

Lemma absorb_rest_mod state m : length (absorb (length m) state m).2 = (length m mod 64)%nat.
Proof.
  remember (length m) as k eqn:Hk. revert state m Hk.
  induction k as [k IH] using lt_wf_ind. intros state m ->.
  rewrite absorb_unfold. destruct (Nat.leb_spec 64 (length m)) as [H|H].
  - rewrite (IH (length (drop 64 m))) by len. rewrite length_drop.
    rewrite <- (Nat.Div0.mod_add (length m - 64) 1). f_equal. lia.
  - symmetry. by apply Nat.mod_small.
Qed.

Lemma copy_at_length buf off src :
  (off + length src ≤ length buf)%nat → length (copy_at buf off src) = length buf.
Proof. unfold copy_at. len. Qed.

Lemma copy_at_take buf off src :
  (off + length src ≤ length buf)%nat →
  take (off + length src) (copy_at buf off src) = take off buf ++ src.
Proof.
  intros. unfold copy_at. rewrite app_assoc. apply take_app_length'. len.
Qed.

Lemma start_absorbed iv : absorbed iv (start iv) [].
Proof. by split; simpl; try lia. Qed.

Lemma wrap_add_size (a b : nat) :
  u64 (u64 (Z.of_nat a) + Z.of_nat b) = u64 (Z.of_nat (a + b)).
Proof. unfold wrap. rewrite Zplus_mod_idemp_l. f_equal. lia. Qed.

(** The tail of [update], once the buffer is empty. *)
Lemma update_tail iv state buffer size m input :
  length buffer = 64%nat → size = u64 (Z.of_nat (length (m ++ input))) →
  absorb (length m) iv m = (state, []) →
  absorbed iv (let '(state, input) := absorb (length input) state input in
     match input with
     | [] => MkHash state buffer size 0
     | _ => MkHash state (copy_at buffer 0 input) size (length input)
     end) (m ++ input).
Proof.
  intros Hb Hs Hm. pose proof (absorb_app iv m input) as Happ. rewrite Hm in Happ. simpl in Happ.
  pose proof (absorb_rest state input) as Hr.
  destruct (absorb (length input) state input) as [state' rest] eqn:Ha. simpl in Hr.
  destruct rest as [|b rest]; [by split; simpl; try lia|].
  split; cbn [state_ buffer_ size_ buffered_]; [|done|done|].
  - rewrite copy_at_length; [done|simpl in *; lia].
  - rewrite Happ. f_equal. symmetry. apply (copy_at_take buffer 0 (b :: rest)). lia.
Qed.

Lemma update_absorbed iv st m input : absorbed iv st m → absorbed iv (update st input) (m ++ input).
Proof.
  intros [Hb Hf Hs Hm]. unfold update. rewrite Hs, wrap_add_size, <- length_app.
  destruct (Nat.eqb_spec (buffered_ st) 0) as [Hz|Hz].
  { rewrite Hz in *. by apply update_tail. }
  set (n := Nat.min (length input) (64 - buffered_ st)).
  assert (Hn : length (take n input) = n) by (subst n; len).
  set (buf := copy_at (buffer_ st) (buffered_ st) (take n input)).
  assert (Hbuf : length buf = 64%nat) by (subst buf; rewrite copy_at_length; subst n; len).
  assert (Hjoin : take (buffered_ st + n) buf = take (buffered_ st) (buffer_ st) ++ take n input).
  { subst buf. rewrite <- Hn at 1. apply copy_at_take. subst n. len. }
  pose proof (absorb_app iv m (take n input)) as Happ. rewrite Hm, <- Hjoin in Happ.
  assert (Hsplit : m ++ input = (m ++ take n input) ++ drop n input)
    by (by rewrite <- app_assoc, take_drop).
  destruct (Nat.eqb_spec (buffered_ st + n) 64) as [H64|H64].
  - rewrite Hsplit. apply update_tail; [done|by rewrite <- Hsplit|].
    rewrite Happ, absorb_unfold, H64, !(take_ge buf), drop_ge by lia.
    by rewrite Hbuf.
  - assert (drop n input = []) as ->.
    { apply drop_ge. subst n. lia. }
    split; simpl; [done|subst n; lia|done|].
    rewrite Hsplit, (drop_ge input n), app_nil_r, Happ by (subst n; lia).
    rewrite absorb_unfold. destruct (Nat.leb_spec 64 (length (take (buffered_ st + n) buf))); [|done].
    subst n. len.
Qed.

Lemma final_block_eq iv st m : absorbed iv st m →
  take (if (buffered_ st <? 56)%nat then 64 else 128) (final_block st) =
  take (buffered_ st) (buffer_ st) ++ padding (length m).
Proof.
  intros [Hb Hf Hs Hm]. pose proof (absorb_rest_mod iv m) as Hmod. rewrite Hm in Hmod. cbn [snd] in Hmod.
  rewrite length_take_le in Hmod by lia.
  unfold final_block, padding. rewrite Hs, <- Hmod.
  set (rest := take (buffered_ st) (buffer_ st)).
  assert (Hr : length rest = buffered_ st) by (subst rest; len).
  assert (u64 (u64 (Z.of_nat (length m)) * 8) = u64 (8 * Z.of_nat (length m))) as ->.
  { unfold wrap. rewrite Zmult_mod_idemp_l. f_equal. lia. }
  set (bits := bit_size_bytes _). assert (length bits = 8%nat) by done. clearbody bits.
  unfold copy_at at 2. simpl (take 0 _). rewrite drop_replicate, app_nil_l, Nat.add_0_l.
  replace (128 - length rest)%nat with (S (127 - length rest)) by lia.
  simpl replicate. rewrite insert_app_r_alt, Hr, Nat.sub_diag by lia. simpl (<[0%nat := _]> _).
  set (N := if (buffered_ st <? 56)%nat then 64%nat else 128%nat).
  assert (HN : (N - 8 + length bits = N)%nat ∧ (N ≤ 128)%nat ∧ (buffered_ st + 9 ≤ N)%nat).
  { subst N. destruct (Nat.ltb_spec (buffered_ st) 56); lia. }
  assert ((if (buffered_ st <? 56)%nat then (55 - buffered_ st)%nat else (119 - buffered_ st)%nat)
          = (N - 9 - buffered_ st)%nat) as ->.
  { subst N. destruct (Nat.ltb_spec (buffered_ st) 56); lia. }
  clearbody N. destruct HN as (HN & HN' & HN'').
  rewrite <- HN at 1. rewrite copy_at_take by len.
  rewrite take_app_ge, <- !app_assoc, Hr by lia. f_equal. simpl app.
  replace (N - 8 - buffered_ st)%nat with (S (N - 9 - buffered_ st)) by lia.
  simpl. rewrite take_replicate. do 3 f_equal. lia.
Qed.

(** The finalized chaining value is the hash of the padded message. *)
Lemma finalize_absorbed iv st m : absorbed iv st m → finalize st = md_hash iv m.
Proof.
  intros H. pose proof (final_block_eq iv st m H) as Hfb. destruct H as [Hb Hf Hs Hm].
  unfold md_hash, fold_blocks. rewrite absorb_app, Hm, <- Hfb. unfold finalize.
  assert (Hl : length (final_block st) = 128%nat).
  { unfold final_block. rewrite !copy_at_length, length_insert, ?copy_at_length; try done;
      rewrite ?length_insert, ?copy_at_length; simpl; rewrite ?length_replicate;
      destruct (Nat.ltb_spec (buffered_ st) 56); len. }
  set (fb := final_block st) in *. clearbody fb.
  destruct (Nat.ltb_spec (buffered_ st) 56).
  - rewrite absorb_unfold. rewrite take_take, (drop_ge (take 64 fb)), length_take, Hl by len. done.
  - rewrite (take_ge fb 128) by lia. rewrite absorb_unfold, Hl. simpl (64 <=? 128)%nat. cbn [fst].
    rewrite absorb_unfold, length_drop, Hl. simpl (64 <=? 128 - 64)%nat.
    rewrite (take_ge (drop 64 fb)), (drop_ge (drop 64 fb)) by len. done.
Qed.

End block.
End Block.

(** ** SHA-256 *)
Module Sha256.

(** The round constants, a row of four at a time. *)
Definition sha256_k : list Z :=
  concat [
    [0x428a2f98; 0x71374491; 0xb5c0fbcf; 0xe9b5dba5];
    [0x3956c25b; 0x59f111f1; 0x923f82a4; 0xab1c5ed5];
    [0xd807aa98; 0x12835b01; 0x243185be; 0x550c7dc3];
    [0x72be5d74; 0x80deb1fe; 0x9bdc06a7; 0xc19bf174];
    [0xe49b69c1; 0xefbe4786; 0x0fc19dc6; 0x240ca1cc];
    [0x2de92c6f; 0x4a7484aa; 0x5cb0a9dc; 0x76f988da];
    [0x983e5152; 0xa831c66d; 0xb00327c8; 0xbf597fc7];
    [0xc6e00bf3; 0xd5a79147; 0x06ca6351; 0x14292967];
    [0x27b70a85; 0x2e1b2138; 0x4d2c6dfc; 0x53380d13];
    [0x650a7354; 0x766a0abb; 0x81c2c92e; 0x92722c85];
    [0xa2bfe8a1; 0xa81a664b; 0xc24b8b70; 0xc76c51a3];
    [0xd192e819; 0xd6990624; 0xf40e3585; 0x106aa070];
    [0x19a4c116; 0x1e376c08; 0x2748774c; 0x34b0bcb5];
    [0x391c0cb3; 0x4ed8aa4a; 0x5b9cca4f; 0x682e6ff3];
    [0x748f82ee; 0x78a5636f; 0x84c87814; 0x8cc70208];
    [0x90befffa; 0xa4506ceb; 0xbef9a3f7; 0xc67178f2]
  ].

(** [w[i] = w[i-16] + s0 + w[i-7] + s1], appended to the schedule so far. *)
Definition extend (w : list Z) (i : nat) : list Z :=
  let w15 := nthZ w (i - 15) in
  let w2 := nthZ w (i - 2) in
  let s0 := Z.lxor (Z.lxor (rotr w15 7) (rotr w15 18)) (Z.shiftr w15 3) in
  let s1 := Z.lxor (Z.lxor (rotr w2 17) (rotr w2 19)) (Z.shiftr w2 10) in
  w ++ [u32 (nthZ w (i - 16) + s0 + nthZ w (i - 7) + s1)].

Definition schedule (block : bytes) : list Z :=
  foldl extend ((λ i, load32_be block (4 * i)) <$> seq 0 16) (seq 16 48).

(** The working variables. *)
Record vars := MkVars { va : Z; vb : Z; vc : Z; vd : Z; ve : Z; vf : Z; vg : Z; vh : Z }.

Definition round (w : list Z) (v : vars) (i : nat) : vars :=
  let s1 := Z.lxor (Z.lxor (rotr (ve v) 6) (rotr (ve v) 11)) (rotr (ve v) 25) in
  let ch := Z.lxor (Z.land (ve v) (vf v)) (Z.land (not32 (ve v)) (vg v)) in
  let temp1 := u32 (vh v + s1 + ch + nthZ sha256_k i + nthZ w i) in
  let s0 := Z.lxor (Z.lxor (rotr (va v) 2) (rotr (va v) 13)) (rotr (va v) 22) in
  let maj := Z.lxor (Z.lxor (Z.land (va v) (vb v)) (Z.land (va v) (vc v)))
                    (Z.land (vb v) (vc v)) in
  let temp2 := u32 (s0 + maj) in
  MkVars (u32 (temp1 + temp2)) (va v) (vb v) (vc v) (u32 (vd v + temp1)) (ve v) (vf v) (vg v).

Definition sha256_compress (state : list Z) (block : bytes) : list Z :=
  let w := schedule block in
  let v := foldl (round w)
    (MkVars (nthZ state 0) (nthZ state 1) (nthZ state 2) (nthZ state 3)
            (nthZ state 4) (nthZ state 5) (nthZ state 6) (nthZ state 7)) (seq 0 64) in
  [u32 (nthZ state 0 + va v); u32 (nthZ state 1 + vb v);
   u32 (nthZ state 2 + vc v); u32 (nthZ state 3 + vd v);
   u32 (nthZ state 4 + ve v); u32 (nthZ state 5 + vf v);
   u32 (nthZ state 6 + vg v); u32 (nthZ state 7 + vh v)].

Definition sha256_iv : list Z :=
  [0x6a09e667; 0xbb67ae85; 0x3c6ef372; 0xa54ff53a;
   0x510e527f; 0x9b05688c; 0x1f83d9ab; 0x5be0cd19].

(** [sha256_state] and its operations. *)
Definition init : Block.hash_state := Block.start sha256_iv.

Definition update (st : Block.hash_state) (input : bytes) : Block.hash_state :=
  Block.update sha256_compress st input.

Definition finalize (st : Block.hash_state) : bytes :=
  store_words (Block.finalize sha256_compress st).

Definition sha256 (input : bytes) : bytes := finalize (update init input).

(** The digest by the padded-message definition. *)
Definition sha256_spec (m : bytes) : bytes :=
  store_words (Block.md_hash sha256_compress sha256_iv m).

End Sha256.

(** ** SHA-1 *)
Module Sha1.

Definition extend (w : list Z) (i : nat) : list Z :=
  w ++ [rotl (Z.lxor (Z.lxor (Z.lxor (nthZ w (i - 3)) (nthZ w (i - 8))) (nthZ w (i - 14)))
                     (nthZ w (i - 16))) 1].

Definition schedule (block : bytes) : list Z :=
  foldl extend ((λ i, load32_be block (4 * i)) <$> seq 0 16) (seq 16 64).

Record vars := MkVars { va : Z; vb : Z; vc : Z; vd : Z; ve : Z }.

Definition round (w : list Z) (v : vars) (i : nat) : vars :=
  let '(f, k) :=
    if (i <? 20)%nat then
      (Z.lor (Z.land (vb v) (vc v)) (Z.land (not32 (vb v)) (vd v)), 0x5a827999)
    else if (i <? 40)%nat then (Z.lxor (Z.lxor (vb v) (vc v)) (vd v), 0x6ed9eba1)
    else if (i <? 60)%nat then
      (Z.lor (Z.lor (Z.land (vb v) (vc v)) (Z.land (vb v) (vd v))) (Z.land (vc v) (vd v)),
       0x8f1bbcdc)
    else (Z.lxor (Z.lxor (vb v) (vc v)) (vd v), 0xca62c1d6) in
  let temp := u32 (rotl (va v) 5 + f + ve v + k + nthZ w i) in
  MkVars temp (va v) (rotl (vb v) 30) (vc v) (vd v).

Definition sha1_compress (state : list Z) (block : bytes) : list Z :=
  let w := schedule block in
  let v := foldl (round w)
    (MkVars (nthZ state 0) (nthZ state 1) (nthZ state 2) (nthZ state 3) (nthZ state 4))
    (seq 0 80) in
  [u32 (nthZ state 0 + va v); u32 (nthZ state 1 + vb v); u32 (nthZ state 2 + vc v);
   u32 (nthZ state 3 + vd v); u32 (nthZ state 4 + ve v)].

Definition sha1_iv : list Z := [0x67452301; 0xefcdab89; 0x98badcfe; 0x10325476; 0xc3d2e1f0].

Definition init : Block.hash_state := Block.start sha1_iv.

Definition update (st : Block.hash_state) (input : bytes) : Block.hash_state :=
  Block.update sha1_compress st input.

Definition finalize (st : Block.hash_state) : bytes :=
  store_words (Block.finalize sha1_compress st).

Definition sha1 (input : bytes) : bytes := finalize (update init input).

Definition sha1_spec (m : bytes) : bytes := store_words (Block.md_hash sha1_compress sha1_iv m).

End Sha1.

(** ** HMAC-SHA256 *)
Module Hmac.

Definition sha256_len : nat := 32.
Definition sha256_block_len : nat := 64.

Definition hmac_key_block (key : bytes) : bytes :=
  Block.copy_at (replicate sha256_block_len 0) 0
    (if (sha256_block_len <? length key)%nat then Sha256.sha256 key else key).

Record hmac_sha256_state := MkHmac { inner_ : Block.hash_state; outer_pad_ : bytes }.

Definition init (key : bytes) : hmac_sha256_state :=
  let key_block := hmac_key_block key in
  let inner_pad := Z.lxor 0x36 <$> key_block in
  let outer_pad := Z.lxor 0x5c <$> key_block in
  MkHmac (Sha256.update Sha256.init inner_pad) outer_pad.

Definition update (st : hmac_sha256_state) (input : bytes) : hmac_sha256_state :=
  MkHmac (Sha256.update (inner_ st) input) (outer_pad_ st).

Definition finalize (st : hmac_sha256_state) : bytes :=
  let outer := Sha256.update Sha256.init (outer_pad_ st) in
  let outer := Sha256.update outer (Sha256.finalize (inner_ st)) in
  Sha256.finalize outer.

Definition hmac_sha256 (key data : bytes) : bytes := finalize (update (init key) data).

(** RFC 2104's definition over a hash of whole messages. *)
Definition hmac_spec (H : bytes → bytes) (key data : bytes) : bytes :=
  let k := hmac_key_block key in
  H ((Z.lxor 0x5c <$> k) ++ H ((Z.lxor 0x36 <$> k) ++ data)).

End Hmac.

(** ** HKDF-SHA256 *)
Module Hkdf.

Inductive crypto_error := hkdf_sha256_output_is_too_long.

Definition hkdf_extract_sha256 (salt ikm : bytes) : bytes :=
  Hmac.hmac_sha256 (match salt with [] => replicate Hmac.sha256_len 0 | _ => salt end) ikm.

(** The output loop: [previous] is empty on the first turn; [None] when the
    fuel runs out. *)
Fixpoint expand_loop (fuel : nat) (prk info previous out : bytes) (len : nat) (counter : Z)
    : option bytes :=
  if (length out =? len)%nat then Some out
  else match fuel with
       | O => None
       | S fuel' =>
           let hmac := Hmac.init prk in
           let hmac := Hmac.update hmac previous in
           let hmac := Hmac.update hmac info in
           let hmac := Hmac.update hmac [counter] in
           let previous := Hmac.finalize hmac in
           let n := Nat.min (len - length out) (length previous) in
           expand_loop fuel' prk info previous (out ++ take n previous) len (u8 (counter + 1))
       end.

(** One block of output per turn, so [len] turns are more than enough. *)
Definition hkdf_expand_sha256 (prk info : bytes) (len : nat)
    : option (result crypto_error bytes) :=
  if (255 * Hmac.sha256_len <? len)%nat then Some (Throw hkdf_sha256_output_is_too_long)
  else match expand_loop len prk info [] [] len 1 with
       | Some out => Some (Ret out)
       | None => None
       end.

(** RFC 5869: T(0) is empty and T(i+1) = HMAC(prk, T(i) | info | i+1). *)
Fixpoint T_block (prk info : bytes) (i : nat) : bytes :=
  match i with
  | O => []
  | S i' => Hmac.hmac_sha256 prk (T_block prk info i' ++ info ++ [Z.of_nat i])
  end.

Definition okm (prk info : bytes) (n : nat) : bytes :=
  concat (T_block prk info <$> seq 1 n).

End Hkdf.

Module HashFacts.
Import Hmac Hkdf.

Example sha256_abc : Sha256.sha256 (str "abc") =
  [0xba; 0x78; 0x16; 0xbf; 0x8f; 0x01; 0xcf; 0xea; 0x41; 0x41; 0x40; 0xde; 0x5d; 0xae; 0x22; 0x23;
   0xb0; 0x03; 0x61; 0xa3; 0x96; 0x17; 0x7a; 0x9c; 0xb4; 0x10; 0xff; 0x61; 0xf2; 0x00; 0x15; 0xad].
Proof. vm_compute. reflexivity. Qed.

Example sha1_abc : Sha1.sha1 (str "abc") =
  [0xa9; 0x99; 0x3e; 0x36; 0x47; 0x06; 0x81; 0x6a; 0xba; 0x3e;
   0x25; 0x71; 0x78; 0x50; 0xc2; 0x6c; 0x9c; 0xd0; 0xd8; 0x9d].
Proof. vm_compute. reflexivity. Qed.

(** Any sequence of updates leaves the state that has absorbed their bytes. *)
Lemma updates_absorbed compress iv chunks : ∀ st m,
  Block.absorbed compress iv st m →
  Block.absorbed compress iv (foldl (Block.update compress) st chunks) (m ++ concat chunks).
Proof.
  induction chunks as [|c cs IH]; intros st m H; simpl; [by rewrite app_nil_r|].
  rewrite app_assoc. by apply IH, Block.update_absorbed.
Qed.

Lemma finalize_updates compress iv chunks :
  Block.finalize compress (foldl (Block.update compress) (Block.start iv) chunks) =
  Block.md_hash compress iv (concat chunks).
Proof. apply Block.finalize_absorbed, (updates_absorbed _ _ _ _ []), Block.start_absorbed. Qed.

Lemma store_words_length ws : length (store_words ws) = (4 * length ws)%nat.
Proof.
  unfold store_words. induction ws as [|w ws IH]; [done|].
  rewrite fmap_cons. cbn [concat]. rewrite length_app, IH. simpl. lia.
Qed.

Lemma store_words_bytes ws : Forall is_byte (store_words ws).
Proof.
  unfold store_words. induction ws as [|w ws IH]; [constructor|]. simpl.
  repeat (constructor; [unfold is_byte; apply (wrap_range 8); lia|]). done.
Qed.

Lemma sha256_updates chunks :
  Sha256.finalize (foldl Sha256.update Sha256.init chunks) = Sha256.sha256_spec (concat chunks).
Proof. unfold Sha256.finalize, Sha256.sha256_spec. f_equal. apply finalize_updates. Qed.

Lemma sha256_eq m : Sha256.sha256 m = Sha256.sha256_spec m.
Proof.
  pose proof (sha256_updates [m]) as H. simpl in H. by rewrite app_nil_r in H.
Qed.

Lemma sha256_length m : length (Sha256.sha256 m) = 32%nat.
Proof. unfold Sha256.sha256, Sha256.finalize. rewrite store_words_length. unfold Block.finalize.
  by destruct (_ <? 56)%nat. Qed.

Lemma hmac_updates st chunks :
  foldl update st chunks =
  MkHmac (foldl Sha256.update (inner_ st) chunks) (outer_pad_ st).
Proof. revert st. induction chunks as [|c cs IH]; intros st; [by destruct st|]. cbn [foldl]. by rewrite IH. Qed.

Lemma hmac_chunks key chunks :
  finalize (foldl update (init key) chunks) = hmac_spec Sha256.sha256 key (concat chunks).
Proof.
  rewrite hmac_updates. unfold finalize, init, hmac_spec. cbn [inner_ outer_pad_].
  set (ipad := Z.lxor 0x36 <$> _). set (opad := Z.lxor 0x5c <$> _).
  pose proof (sha256_updates (ipad :: chunks)) as Hi. simpl in Hi. rewrite Hi, <- sha256_eq.
  pose proof (sha256_updates [opad; Sha256.sha256 (ipad ++ concat chunks)]) as Ho. simpl in Ho.
  rewrite Ho, app_nil_r. symmetry. apply sha256_eq.
Qed.

Lemma hmac_length key chunks : length (finalize (foldl update (init key) chunks)) = 32%nat.
Proof. rewrite hmac_chunks. apply sha256_length. Qed.

Lemma hmac_sha256_spec key data : hmac_sha256 key data = hmac_spec Sha256.sha256 key data.
Proof. pose proof (hmac_chunks key [data]) as H. simpl in H. by rewrite app_nil_r in H. Qed.

Lemma T_block_length prk info i : length (T_block prk info (S i)) = 32%nat.
Proof. simpl. rewrite hmac_sha256_spec. apply sha256_length. Qed.

Lemma okm_S prk info n : okm prk info (S n) = okm prk info n ++ T_block prk info (S n).
Proof.
  unfold okm. rewrite seq_S, fmap_app, concat_app. simpl (_ <$> [_]). simpl concat.
  by rewrite app_nil_r.
Qed.

Lemma okm_length prk info n : length (okm prk info n) = (32 * n)%nat.
Proof.
  induction n as [|n IH]; [done|]. rewrite okm_S, length_app, IH, T_block_length. lia.
Qed.

Lemma okm_prefix prk info n m : (n ≤ m)%nat → take (32 * n) (okm prk info m) = okm prk info n.
Proof.
  induction 1 as [|m H IH]; [by rewrite <- okm_length with (prk := prk) (info := info), take_ge|].
  rewrite okm_S, take_app_le by (rewrite okm_length; lia). done.
Qed.

Lemma okm_partial prk info i len : (32 * i ≤ len ≤ 32 * S i)%nat → (S i ≤ 255)%nat →
  take len (okm prk info 255) = okm prk info i ++ take (len - 32 * i) (T_block prk info (S i)).
Proof.
  intros Hl Hi. replace len with (Nat.min len (32 * S i)) at 1 by lia.
  rewrite <- take_take, (okm_prefix prk info (S i)), okm_S, take_app_ge, okm_length
    by (rewrite ?okm_length; lia). done.
Qed.

(** From [i] whole blocks on, the loop ends with the first [len] bytes. *)
Lemma expand_loop_spec prk info len fuel : ∀ i c,
  (32 * i ≤ len ≤ 255 * 32)%nat → (len ≤ fuel + 32 * i)%nat →
  ((32 * i < len)%nat → c = Z.of_nat i + 1) →
  expand_loop fuel prk info (T_block prk info i) (okm prk info i) len c =
  Some (take len (okm prk info 255)).
Proof.
  induction fuel as [|fuel IH]; intros i c Hi Hf Hc; cbn [expand_loop]; rewrite okm_length;
    (destruct (Nat.eqb_spec (32 * i) len) as [<-|Hne]; [by rewrite okm_prefix by lia|]); [lia|].
  rewrite (Hc ltac:(lia)).
  pose proof (hmac_chunks prk [T_block prk info i; info; [Z.of_nat i + 1]]) as Hh.
  simpl foldl in Hh. rewrite Hh. simpl concat. clear Hh.
  replace (Z.of_nat i + 1) with (Z.of_nat (S i)) by lia.
  rewrite <- hmac_sha256_spec. change (hmac_sha256 prk _) with (T_block prk info (S i)).
  rewrite T_block_length.
  destruct (Nat.le_gt_cases 32 (len - 32 * i)) as [Hfull|Hpart].
  - rewrite Nat.min_r, take_ge, <- okm_S by (rewrite ?T_block_length; lia).
    apply IH; [lia|lia|]. intros. apply wrap_small. lia.
  - rewrite Nat.min_l by lia. rewrite <- okm_partial by lia.
    assert (length (take len (okm prk info 255)) = len) as Hl by (rewrite length_take, okm_length; lia).
    destruct fuel; cbn [expand_loop]; by rewrite Hl, Nat.eqb_refl.
Qed.

(** Hashing a message in pieces gives the SHA-256 digest of the whole: feeding
    any sequence of chunks and finalizing equals the block-by-block hash of the
    concatenation padded as FIPS 180-4 prescribes, which is also what the
    one-shot function returns. *)
Theorem sha256_streaming (chunks : list bytes) :
  Sha256.finalize (foldl Sha256.update Sha256.init chunks) = Sha256.sha256_spec (concat chunks) ∧
  Sha256.sha256 (concat chunks) = Sha256.sha256_spec (concat chunks) ∧
  length (Sha256.sha256 (concat chunks)) = 32%nat ∧
  Forall is_byte (Sha256.sha256 (concat chunks)).
Proof.
  split; [apply sha256_updates|]. split; [apply sha256_eq|]. split; [apply sha256_length|].
  apply store_words_bytes.
Qed.

(** The same for SHA-1: chunked hashing equals hashing the padded whole. *)
Theorem sha1_streaming (chunks : list bytes) :
  Sha1.finalize (foldl Sha1.update Sha1.init chunks) = Sha1.sha1_spec (concat chunks) ∧
  Sha1.sha1 (concat chunks) = Sha1.sha1_spec (concat chunks).
Proof.
  assert (H : ∀ cs, Sha1.finalize (foldl Sha1.update Sha1.init cs) = Sha1.sha1_spec (concat cs)).
  { intros cs. unfold Sha1.finalize, Sha1.sha1_spec. f_equal. apply finalize_updates. }
  split; [apply H|]. pose proof (H [concat chunks]) as H1. simpl in H1. by rewrite app_nil_r in H1.
Qed.

(** HMAC-SHA256 fed in pieces is RFC 2104's HMAC of the concatenated message,
    for keys of every length (longer than a block they are hashed first). *)
Theorem hmac_streaming (key : bytes) (chunks : list bytes) :
  finalize (foldl update (init key) chunks) = hmac_spec Sha256.sha256 key (concat chunks) ∧
  hmac_sha256 key (concat chunks) = hmac_spec Sha256.sha256 key (concat chunks).
Proof. split; [apply hmac_chunks|apply hmac_sha256_spec]. Qed.

(** HKDF expansion always ends. Beyond 255 digests it throws; otherwise it
    returns exactly the requested number of bytes of RFC 5869's
    T(1) | T(2) | ... | T(255), the one-byte counter never wrapping in use. *)
Theorem hkdf_expand_correct (prk info : bytes) (len : nat) :
  hkdf_expand_sha256 prk info len =
  Some (if (255 * sha256_len <? len)%nat then Throw hkdf_sha256_output_is_too_long
        else Ret (take len (okm prk info 255))) ∧
  length (take len (okm prk info 255)) = Nat.min len (255 * sha256_len).
Proof.
  unfold hkdf_expand_sha256, sha256_len. split.
  - destruct (Nat.ltb_spec (255 * 32) len) as [|Hle]; [done|].
    pose proof (expand_loop_spec prk info len len 0 1) as H. cbn [T_block] in H.
    change (okm prk info 0) with (@nil Z) in H. rewrite H; [done|lia|lia|done].
  - rewrite length_take, okm_length. lia.
Qed.

End HashFacts.
