(* ===== verification/Unicode.v ===== *)
(** * UTF-8 codecs

    The byte-level UTF-8 code of four files: the encoder of src/src/nxt/json.hpp
    (also in src/src/nxtui/input.cpp), the validator of
    src/src/nxtrt/websocket.hpp and the decoder of src/src/wisp/reader.cpp. *)
From S2P Require Import Prelude.
#[local] Open Scope Z_scope.

(** A Unicode scalar value: a code point that is not a surrogate. *)
Definition scalar (cp : Z) : Prop := 0 ≤ cp ≤ 0x10ffff ∧ ¬ (0xd800 ≤ cp ≤ 0xdfff).

#[export] Instance scalar_dec cp : Decision (scalar cp) := _.

(** [append_utf8] and [encode_utf8]: the bytes appended for a code point. *)
Definition encode_utf8 (cp : Z) : bytes :=
  if cp <=? 0x7f then [u8 cp]
  else if cp <=? 0x7ff then
    [u8 (Z.lor 0xc0 (Z.shiftr cp 6)); u8 (Z.lor 0x80 (Z.land cp 0x3f))]
  else if cp <=? 0xffff then
    [u8 (Z.lor 0xe0 (Z.shiftr cp 12)); u8 (Z.lor 0x80 (Z.land (Z.shiftr cp 6) 0x3f));
     u8 (Z.lor 0x80 (Z.land cp 0x3f))]
  else
    [u8 (Z.lor 0xf0 (Z.shiftr cp 18)); u8 (Z.lor 0x80 (Z.land (Z.shiftr cp 12) 0x3f));
     u8 (Z.lor 0x80 (Z.land (Z.shiftr cp 6) 0x3f)); u8 (Z.lor 0x80 (Z.land cp 0x3f))].

(** The body of the validator's loop: [None] is [return false]. *)
Definition utf8_step (st : Z * Z * Z) (c : Z) : option (Z * Z * Z) :=
  let '(value, minimum, left_) := st in
  if negb (left_ =? 0) then
    if negb (Z.land c 0xc0 =? 0x80) then None
    else
      let value := u32 (Z.lor (Z.shiftl value 6) (Z.land c 63)) in
      let left_ := left_ - 1 in
      if (left_ =? 0) && ((value <? minimum) || (0x10ffff <? value)
                         || ((0xd800 <=? value) && (value <=? 0xdfff)))
      then None
      else Some (value, minimum, left_)
  else if 0x80 <=? c then
    if (0xc2 <=? c) && (c <=? 0xdf) then Some (Z.land c 31, 0x80, 1)
    else if (0xe0 <=? c) && (c <=? 0xef) then Some (Z.land c 15, 0x800, 2)
    else if (0xf0 <=? c) && (c <=? 0xf4) then Some (Z.land c 7, 0x10000, 3)
    else None
  else Some (value, minimum, left_).

Fixpoint utf8_loop (st : Z * Z * Z) (text : bytes) : bool :=
  match text with
  | [] => let '(_, _, left_) := st in left_ =? 0
  | c :: text' =>
      match utf8_step st c with
      | None => false
      | Some st' => utf8_loop st' text'
      end
  end.

(** [detail::utf8]. *)
Definition utf8 (text : bytes) : bool := utf8_loop (0, 0, 0) text.

(** [reader::peek]: the code point at the front of the remaining source. *)
Inductive utf8_error :=
| invalid_or_truncated_utf8
| invalid_utf8_continuation
| invalid_utf8_scalar.

Definition eof : Z := 0x110000.

Definition lead_width (lead : Z) : nat :=
  if (0xc2 <=? lead) && (lead <=? 0xdf) then 2
  else if (0xe0 <=? lead) && (lead <=? 0xef) then 3
  else if (0xf0 <=? lead) && (lead <=? 0xf4) then 4
  else 0.

(** The continuation loop over the bytes after the lead. *)
Fixpoint continuation (c : Z) (conts : bytes) : result utf8_error Z :=
  match conts with
  | [] => Ret c
  | b :: conts' =>
      if negb (Z.land b 0xc0 =? 0x80) then Throw invalid_utf8_continuation
      else continuation (u32 (Z.lor (Z.shiftl c 6) (Z.land b 0x3f))) conts'
  end.

Definition peek (source : bytes) : result utf8_error Z :=
  match source with
  | [] => Ret eof
  | lead :: rest =>
      if lead <? 0x80 then Ret lead
      else
        let width := lead_width lead in
        if (width =? 0)%nat || (length source <? width)%nat then Throw invalid_or_truncated_utf8
        else
          let c := Z.land lead (Z.shiftr 0x7f (Z.of_nat width)) in
          let! c := continuation c (take (width - 1) rest) in
          if ((width =? 3)%nat && (c <? 0x800)) || ((width =? 4)%nat && (c <? 0x10000))
             || ((0xd800 <=? c) && (c <=? 0xdfff)) || (0x10ffff <? c)
          then Throw invalid_utf8_scalar
          else Ret c
  end.

(** How far [reader::take] moves past a code point. *)
Definition scalar_width (c : Z) : nat :=
  if c <? 0x80 then 1 else if c <? 0x800 then 2 else if c <? 0x10000 then 3 else 4.

(** ** The encoding as arithmetic *)

Definition is_cont (b : Z) : Prop := 0x80 ≤ b < 0xc0.

Lemma cont_test b : is_byte b → (Z.land b 0xc0 =? 0x80) = true ↔ is_cont b.
Proof.
  intros Hb. unfold is_cont.
  assert (Bool.eqb (Z.land b 0xc0 =? 0x80) ((0x80 <=? b) && (b <? 0xc0)) = true) as H.
  { revert b Hb. apply all_bytes_spec. vm_compute. reflexivity. }
  apply Bool.eqb_prop in H. rewrite H. lia.
Qed.

Lemma low_bits b n : 0 ≤ n → Z.land b (2 ^ n - 1) = b mod 2 ^ n.
Proof. apply land_ones_mod. Qed.

Lemma mark_add (m n v : Z) : 0 ≤ n → 0 ≤ v < 2 ^ n → Z.lor (m * 2 ^ n) v = m * 2 ^ n + v.
Proof. intros. rewrite <- Z.shiftl_mul_pow2, lor_shiftl_add by done. by rewrite Z.shiftl_mul_pow2. Qed.

Lemma encode_utf8_arith cp : scalar cp →
  encode_utf8 cp =
  if cp <=? 0x7f then [cp]
  else if cp <=? 0x7ff then [192 + cp / 64; 128 + cp mod 64]
  else if cp <=? 0xffff then [224 + cp / 4096; 128 + cp / 64 mod 64; 128 + cp mod 64]
  else [240 + cp / 262144; 128 + cp / 4096 mod 64; 128 + cp / 64 mod 64; 128 + cp mod 64].
Proof.
  intros [Hr _]. unfold encode_utf8.
  change 0x3f with (2 ^ 6 - 1). rewrite !low_bits by lia.
  rewrite !Z.shiftr_div_pow2 by lia.
  change 0xc0 with (3 * 2 ^ 6). change 0x80 with (2 * 2 ^ 6).
  change 0xe0 with (7 * 2 ^ 5). change 0xf0 with (15 * 2 ^ 4).
  destruct (Z.leb_spec cp 0x7f); [f_equal; apply wrap_small; lia|].
  destruct (Z.leb_spec cp 0x7ff); [|destruct (Z.leb_spec cp 0xffff)];
    rewrite !mark_add, !wrap_small by (Z.to_euclidean_division_equations; lia); done.
Qed.

(** The value a lead byte and its continuation bytes carry. *)
Lemma join_add v b : 0 ≤ v < 2 ^ 21 → is_cont b →
  u32 (Z.lor (Z.shiftl v 6) (Z.land b 63)) = v * 64 + (b - 128).
Proof.
  intros Hv Hb. unfold is_cont in Hb. change 63 with (2 ^ 6 - 1).
  rewrite low_bits, lor_shiftl_add by (lia || apply Z.mod_pos_bound; lia).
  rewrite wrap_small; Z.to_euclidean_division_equations; lia.
Qed.


Lemma bad_lead st c text : 0x80 ≤ c → lead_width c = 0%nat → st.2 = 0 →
  utf8_loop st (c :: text) = false.
Proof.
  intros Hc Hw Hl. destruct st as [[v m] l]. simpl in Hl. subst l. cbn [utf8_loop utf8_step].
  unfold lead_width in Hw. simpl (negb (0 =? 0)).
  destruct (Z.leb_spec 0x80 c); [|lia].
  destruct (_ && _); [done|]. destruct (_ && _); [done|]. by destruct (_ && _).
Qed.

(** One continuation byte, before and at the last one of a sequence. *)
Lemma step_cont v m l c : is_byte c → 1 ≤ l → 0 ≤ v < 2 ^ 21 →
  utf8_step (v, m, l) c =
  if decide (is_cont c) then
    let v' := v * 64 + (c - 128) in
    if (l =? 1) && ((v' <? m) || (0x10ffff <? v') || ((0xd800 <=? v') && (v' <=? 0xdfff)))
    then None else Some (v', m, l - 1)
  else None.
Proof.
  intros Hc Hl Hv. unfold utf8_step. destruct (Z.eqb_spec l 0); [lia|]. simpl negb. cbv match.
  pose proof (cont_test c Hc) as Ht. case_decide as Hd.
  - rewrite (proj2 Ht Hd). simpl negb. cbv match. rewrite join_add by done.
    replace (l - 1 =? 0) with (l =? 1) by lia. done.
  - destruct (Z.land c 0xc0 =? 0x80); [by destruct Hd; apply Ht|done].
Qed.

Lemma step_lead st c : is_byte c → st.2 = 0 → 0x80 ≤ c →
  utf8_step st c =
  match lead_width c with
  | 2%nat => Some (c - 192, 0x80, 1)
  | 3%nat => Some (c - 224, 0x800, 2)
  | 4%nat => Some (c - 240, 0x10000, 3)
  | _ => None
  end.
Proof.
  intros Hb Hl Hc. destruct st as [[v m] l]. simpl in Hl. subst l. unfold utf8_step, lead_width.
  simpl (negb _). cbv match. destruct (Z.leb_spec 0x80 c); [|lia]. unfold is_byte in Hb.
  change 31 with (2 ^ 5 - 1). change 15 with (2 ^ 4 - 1). change 7 with (2 ^ 3 - 1).
  rewrite !low_bits by lia.
  destruct (Z.leb_spec 0xc2 c), (Z.leb_spec c 0xdf); simpl; try lia.
  all: try (do 3 f_equal; Z.to_euclidean_division_equations; lia).
  all: destruct (Z.leb_spec 0xe0 c), (Z.leb_spec c 0xef); simpl; try lia; try done.
  all: try (do 3 f_equal; Z.to_euclidean_division_equations; lia).
  all: destruct (Z.leb_spec 0xf0 c), (Z.leb_spec c 0xf4); simpl; try lia; try done.
  all: try (do 3 f_equal; Z.to_euclidean_division_equations; lia).
Qed.

Lemma encode_bytes cp : scalar cp → Forall is_byte (encode_utf8 cp).
Proof.
  intros Hs. rewrite encode_utf8_arith by done. destruct Hs as [Hr _]. unfold is_byte.
  destruct (Z.leb_spec cp 0x7f); [repeat constructor; lia|].
  destruct (Z.leb_spec cp 0x7ff); [|destruct (Z.leb_spec cp 0xffff)];
    repeat constructor; Z.to_euclidean_division_equations; lia.
Qed.

Lemma encode_length cp : length (encode_utf8 cp) = scalar_width cp.
Proof.
  unfold encode_utf8, scalar_width.
  destruct (Z.leb_spec cp 0x7f), (Z.ltb_spec cp 0x80); try lia; [done|].
  destruct (Z.leb_spec cp 0x7ff), (Z.ltb_spec cp 0x800); try lia; [done|].
  destruct (Z.leb_spec cp 0xffff), (Z.ltb_spec cp 0x10000); lia || done.
Qed.

(** Between characters the leftover value and minimum do not matter. *)
Lemma utf8_loop_idle st st' text : st.2 = 0 → st'.2 = 0 → utf8_loop st text = utf8_loop st' text.
Proof.
  revert st st'. induction text as [|c text IH]; intros [[v m] l] [[v' m'] l'] Hl Hl';
    simpl in Hl, Hl'; subst; [done|].
  cbn [utf8_loop utf8_step]. simpl (negb _). cbv match.
  destruct (0x80 <=? c); [|by apply IH].
  destruct (_ && _); [done|]. destruct (_ && _); [done|]. by destruct (_ && _).
Qed.

Lemma lead_width_cases c : is_byte c → 0x80 ≤ c →
  lead_width c = 0%nat ∨
  (lead_width c = 2%nat ∧ 0xc2 ≤ c ≤ 0xdf) ∨
  (lead_width c = 3%nat ∧ 0xe0 ≤ c ≤ 0xef) ∨
  (lead_width c = 4%nat ∧ 0xf0 ≤ c ≤ 0xf4).
Proof.
  intros Hb Hc. unfold lead_width.
  destruct (Z.leb_spec 0xc2 c), (Z.leb_spec c 0xdf); simpl; auto with lia;
    destruct (Z.leb_spec 0xe0 c), (Z.leb_spec c 0xef); simpl; auto with lia;
    destruct (Z.leb_spec 0xf0 c), (Z.leb_spec c 0xf4); simpl; auto with lia.
Qed.

Lemma lead_width_2 c : 0xc2 ≤ c ≤ 0xdf → lead_width c = 2%nat.
Proof. intros. unfold lead_width. by destruct (Z.leb_spec 0xc2 c), (Z.leb_spec c 0xdf); try lia. Qed.

Lemma lead_width_3 c : 0xe0 ≤ c ≤ 0xef → lead_width c = 3%nat.
Proof.
  intros. unfold lead_width. destruct (Z.leb_spec 0xc2 c), (Z.leb_spec c 0xdf); try lia.
  by destruct (Z.leb_spec 0xe0 c), (Z.leb_spec c 0xef); try lia.
Qed.

Lemma lead_width_4 c : 0xf0 ≤ c ≤ 0xf4 → lead_width c = 4%nat.
Proof.
  intros. unfold lead_width. destruct (Z.leb_spec 0xc2 c), (Z.leb_spec c 0xdf); try lia.
  destruct (Z.leb_spec 0xe0 c), (Z.leb_spec c 0xef); try lia.
  by destruct (Z.leb_spec 0xf0 c), (Z.leb_spec c 0xf4); try lia.
Qed.

(** Linear arithmetic with the divisions of the encoding. *)
Ltac enc_lia := unfold is_byte, is_cont in *; Z.to_euclidean_division_equations; lia.

Ltac cont_step :=
  rewrite step_cont by enc_lia; rewrite decide_True by enc_lia; cbv zeta;
  try (change (3 =? 1) with false; change (3 - 1) with 2);
  try (change (2 =? 1) with false; change (2 - 1) with 1); cbn [andb]; cbv match.

(** An encoded scalar is accepted and leaves the validator between characters. *)
Lemma utf8_loop_encode cp st text : scalar cp → st.2 = 0 →
  utf8_loop st (encode_utf8 cp ++ text) = utf8_loop (0, 0, 0) text.
Proof.
  intros Hs Hl. pose proof (encode_bytes cp Hs) as Hb. rewrite encode_utf8_arith in * by done.
  destruct Hs as [Hr Hsur].
  destruct (Z.leb_spec cp 0x7f).
  { simpl. destruct st as [[v m] l]. simpl in Hl. subst l. cbn [utf8_step]. simpl (negb _). cbv match.
    destruct (Z.leb_spec 0x80 cp); [lia|]. by apply utf8_loop_idle. }
  destruct (Z.leb_spec cp 0x7ff); [|destruct (Z.leb_spec cp 0xffff)]; split_Forall;
    cbn [app utf8_loop]; rewrite step_lead by (done || enc_lia).
  - rewrite lead_width_2 by enc_lia. cont_step.
    replace ((192 + cp / 64 - 192) * 64 + (128 + cp mod 64 - 128)) with cp by enc_lia.
    destruct (Z.ltb_spec cp 0x80), (Z.ltb_spec 0x10ffff cp), (Z.leb_spec 0xd800 cp),
      (Z.leb_spec cp 0xdfff); try lia; by apply utf8_loop_idle.
  - rewrite lead_width_3 by enc_lia. do 2 cont_step.
    replace ((_ * 64 + _) * 64 + _) with cp by enc_lia.
    destruct (Z.ltb_spec cp 0x800), (Z.ltb_spec 0x10ffff cp), (Z.leb_spec 0xd800 cp),
      (Z.leb_spec cp 0xdfff); try lia; by apply utf8_loop_idle.
  - rewrite lead_width_4 by enc_lia. do 3 cont_step.
    replace (((_ * 64 + _) * 64 + _) * 64 + _) with cp by enc_lia.
    destruct (Z.ltb_spec cp 0x10000), (Z.ltb_spec 0x10ffff cp), (Z.leb_spec 0xd800 cp),
      (Z.leb_spec cp 0xdfff); try lia; by apply utf8_loop_idle.
Qed.

(** A multi-byte sequence as the decoders read it, and the scalar it encodes. *)
Lemma encode_2 c c1 : 0xc2 ≤ c ≤ 0xdf → is_cont c1 →
  let cp := (c - 192) * 64 + (c1 - 128) in scalar cp ∧ encode_utf8 cp = [c; c1].
Proof.
  intros Hc H1 cp. assert (scalar cp) as Hs by (subst cp; unfold scalar; enc_lia).
  split; [done|]. rewrite encode_utf8_arith by done. subst cp.
  destruct (Z.leb_spec ((c - 192) * 64 + (c1 - 128)) 0x7f); [enc_lia|].
  destruct (Z.leb_spec ((c - 192) * 64 + (c1 - 128)) 0x7ff); [|enc_lia].
  repeat f_equal; enc_lia.
Qed.

Lemma encode_3 c c1 c2 : 0xe0 ≤ c ≤ 0xef → is_cont c1 → is_cont c2 →
  let cp := ((c - 224) * 64 + (c1 - 128)) * 64 + (c2 - 128) in
  0x800 ≤ cp → ¬ (0xd800 ≤ cp ≤ 0xdfff) → scalar cp ∧ encode_utf8 cp = [c; c1; c2].
Proof.
  intros Hc H1 H2 cp Hmin Hsur. assert (scalar cp) as Hs by (subst cp; unfold scalar; enc_lia).
  split; [done|]. rewrite encode_utf8_arith by done.
  destruct (Z.leb_spec cp 0x7f); [lia|]. destruct (Z.leb_spec cp 0x7ff); [lia|].
  destruct (Z.leb_spec cp 0xffff); subst cp; [|enc_lia].
  repeat f_equal; enc_lia.
Qed.

Lemma encode_4 c c1 c2 c3 : 0xf0 ≤ c ≤ 0xf4 → is_cont c1 → is_cont c2 → is_cont c3 →
  let cp := (((c - 240) * 64 + (c1 - 128)) * 64 + (c2 - 128)) * 64 + (c3 - 128) in
  0x10000 ≤ cp ≤ 0x10ffff → scalar cp ∧ encode_utf8 cp = [c; c1; c2; c3].
Proof.
  intros Hc H1 H2 H3 cp Hmin. assert (scalar cp) as Hs by (unfold scalar; lia).
  split; [done|]. rewrite encode_utf8_arith by done.
  destruct (Z.leb_spec cp 0x7f); [lia|]. destruct (Z.leb_spec cp 0x7ff); [lia|].
  destruct (Z.leb_spec cp 0xffff); [lia|]. subst cp.
  repeat f_equal; enc_lia.
Qed.

Ltac cont_inv :=
  rewrite step_cont by enc_lia; case_decide; [|done]; cbv zeta;
  try (change (3 =? 1) with false; change (3 - 1) with 2);
  try (change (2 =? 1) with false; change (2 - 1) with 1); cbn [andb]; cbv match.

Lemma utf8_loop_cons st c text :
  utf8_loop st (c :: text) =
  match utf8_step st c with None => false | Some st' => utf8_loop st' text end.
Proof. done. Qed.

(** The front of accepted text is an encoded scalar. *)
Lemma utf8_loop_front c text : Forall is_byte (c :: text) → utf8_loop (0, 0, 0) (c :: text) = true →
  ∃ cp rest, scalar cp ∧ c :: text = encode_utf8 cp ++ rest ∧ utf8_loop (0, 0, 0) rest = true.
Proof.
  intros Hb. apply Forall_cons in Hb as [? Hb]. destruct (Z.lt_ge_cases c 0x80) as [Hc|Hc].
  { intros Hok. exists c, text.
    assert (scalar c) as Hs by (unfold scalar; enc_lia). split; [done|].
    rewrite encode_utf8_arith by done. destruct (Z.leb_spec c 0x7f); [|lia]. split; [done|].
    simpl in Hok. by destruct (Z.leb_spec 0x80 c); [lia|]. }
  rewrite utf8_loop_cons, step_lead by done.
  destruct (lead_width_cases c ltac:(done) Hc) as [->|[[-> Hr]|[[-> Hr]|[-> Hr]]]]; [done|..].
  - destruct text as [|c1 text]; [done|]. apply Forall_cons in Hb as [? Hb]. rewrite utf8_loop_cons. cont_inv.
    destruct (_ || _) eqn:Ht; cbn [andb]; [done|]. intros Hok.
    destruct (encode_2 c c1) as [Hs He]; [done..|]. eexists _, text.
    split; [exact Hs|]. rewrite He. split; [done|]. by rewrite <- Hok; apply utf8_loop_idle.
  - destruct text as [|c1 text]; [done|]. apply Forall_cons in Hb as [? Hb]. rewrite utf8_loop_cons. cont_inv.
    destruct text as [|c2 text]; [done|]. apply Forall_cons in Hb as [? Hb]. rewrite utf8_loop_cons. cont_inv.
    destruct (_ || _) eqn:Ht; cbn [andb]; [done|]. intros Hok.
    destruct (encode_3 c c1 c2) as [Hs He]; [done|done|done|lia|lia|]. eexists _, text.
    split; [exact Hs|]. rewrite He. split; [done|]. by rewrite <- Hok; apply utf8_loop_idle.
  - destruct text as [|c1 text]; [done|]. apply Forall_cons in Hb as [? Hb]. rewrite utf8_loop_cons. cont_inv.
    destruct text as [|c2 text]; [done|]. apply Forall_cons in Hb as [? Hb]. rewrite utf8_loop_cons. cont_inv.
    destruct text as [|c3 text]; [done|]. apply Forall_cons in Hb as [? Hb]. rewrite utf8_loop_cons. cont_inv.
    destruct (_ || _) eqn:Ht; cbn [andb]; [done|]. intros Hok.
    destruct (encode_4 c c1 c2 c3) as [Hs He]; [done|done|done|done|lia|]. eexists _, text.
    split; [exact Hs|]. rewrite He. split; [done|]. by rewrite <- Hok; apply utf8_loop_idle.
Qed.

Lemma encode_nonempty cp : encode_utf8 cp ≠ [].
Proof. unfold encode_utf8. repeat destruct (_ <=? _); done. Qed.

(** C33: The WebSocket validator accepts exactly the well-formed UTF-8 texts: the
    byte strings that are the encodings of a sequence of Unicode scalar values. *)
Theorem utf8_accepts_exactly_utf8 (text : bytes) : Forall is_byte text →
  utf8 text = true ↔ ∃ cps, Forall scalar cps ∧ text = concat (encode_utf8 <$> cps).
Proof.
  intros Hb. unfold utf8. split.
  - remember (length text) as n eqn:Hn. revert text Hb Hn.
    induction n as [n IH] using lt_wf_ind. intros text Hb -> Hok.
    destruct text as [|c text]; [exists []; by split|].
    destruct (utf8_loop_front c text Hb Hok) as (cp & rest & Hs & Heq & Hrest).
    pose proof (encode_nonempty cp) as Hne.
    assert (Hlt : (length rest < length (c :: text))%nat).
    { rewrite Heq. destruct (encode_utf8 cp); [done|]. len. }
    rewrite Heq in Hb. apply Forall_app in Hb as [_ Hb].
    destruct (IH (length rest) Hlt rest Hb eq_refl Hrest) as (cps & Hcps & ->).
    exists (cp :: cps). split; [by constructor|]. by rewrite Heq.
  - intros (cps & Hcps & ->). clear Hb. induction Hcps as [|cp cps Hs _ IH]; [done|].
    simpl. by rewrite utf8_loop_encode.
Qed.

Lemma continuation_cons v b bs : is_byte b → 0 ≤ v < 2 ^ 21 →
  continuation v (b :: bs) =
  if decide (is_cont b) then continuation (v * 64 + (b - 128)) bs
  else Throw invalid_utf8_continuation.
Proof.
  intros Hb Hv. cbn [continuation]. pose proof (cont_test b Hb) as Ht. case_decide as Hd.
  - rewrite (proj2 Ht Hd). simpl negb. cbv match. by rewrite join_add.
  - destruct (Z.land b 0xc0 =? 0x80); [by destruct Hd; apply Ht|done].
Qed.

(** What [peek] computes for each lead byte. *)
Lemma peek_cons lead rest : is_byte lead → 0x80 ≤ lead →
  peek (lead :: rest) =
  match lead_width lead with
  | 2%nat => match rest with
      | c1 :: _ => let! c := continuation (lead - 192) [c1] in
          if ((0xd800 <=? c) && (c <=? 0xdfff)) || (0x10ffff <? c)
          then Throw invalid_utf8_scalar else Ret c
      | _ => Throw invalid_or_truncated_utf8
      end
  | 3%nat => match rest with
      | c1 :: c2 :: _ => let! c := continuation (lead - 224) [c1; c2] in
          if (c <? 0x800) || ((0xd800 <=? c) && (c <=? 0xdfff)) || (0x10ffff <? c)
          then Throw invalid_utf8_scalar else Ret c
      | _ => Throw invalid_or_truncated_utf8
      end
  | 4%nat => match rest with
      | c1 :: c2 :: c3 :: _ => let! c := continuation (lead - 240) [c1; c2; c3] in
          if (c <? 0x10000) || ((0xd800 <=? c) && (c <=? 0xdfff)) || (0x10ffff <? c)
          then Throw invalid_utf8_scalar else Ret c
      | _ => Throw invalid_or_truncated_utf8
      end
  | _ => Throw invalid_or_truncated_utf8
  end.
Proof.
  intros Hb Hc. unfold peek. destruct (Z.ltb_spec lead 0x80); [lia|].
  destruct (lead_width_cases lead Hb Hc) as [->|[[-> Hr]|[[-> Hr]|[-> Hr]]]]; [done|..];
    (destruct rest as [|c1 rest]; [done|]).
  - change (Z.shiftr 0x7f (Z.of_nat 2)) with (2 ^ 5 - 1). rewrite low_bits by lia.
    replace (lead mod 2 ^ 5) with (lead - 192) by enc_lia. done.
  - destruct rest as [|c2 rest]; [done|].
    change (Z.shiftr 0x7f (Z.of_nat 3)) with (2 ^ 4 - 1). rewrite low_bits by lia.
    replace (lead mod 2 ^ 4) with (lead - 224) by enc_lia.
    change (take (3 - 1) (c1 :: c2 :: rest)) with [c1; c2].
    cbn [length Nat.ltb Nat.leb Nat.eqb orb andb].
    destruct (continuation (lead - 224) [c1; c2]) as [c|]; [|done]. cbn [bind].
    by rewrite orb_false_r.
  - destruct rest as [|c2 rest]; [done|]. destruct rest as [|c3 rest]; [done|].
    change (Z.shiftr 0x7f (Z.of_nat 4)) with (2 ^ 3 - 1). rewrite low_bits by lia.
    replace (lead mod 2 ^ 3) with (lead - 240) by enc_lia. reflexivity.
Qed.

Ltac peek_cont := rewrite continuation_cons by enc_lia; rewrite decide_True by enc_lia.

Lemma peek_encode (cp : Z) (rest : bytes) : scalar cp → peek (encode_utf8 cp ++ rest) = Ret cp.
Proof.
  intros Hs.
  pose proof (encode_bytes cp Hs) as Hb. rewrite encode_utf8_arith in * by done.
  destruct Hs as [Hr Hsur].
  destruct (Z.leb_spec cp 0x7f); [simpl; by destruct (Z.ltb_spec cp 0x80); [|lia]|].
  destruct (Z.leb_spec cp 0x7ff); [|destruct (Z.leb_spec cp 0xffff)]; split_Forall;
    cbn [app]; rewrite peek_cons by enc_lia.
  - rewrite lead_width_2 by enc_lia. peek_cont. cbn [continuation bind].
    replace (_ * 64 + _) with cp by enc_lia.
    by destruct (Z.ltb_spec 0x10ffff cp), (Z.leb_spec 0xd800 cp), (Z.leb_spec cp 0xdfff); try lia.
  - rewrite lead_width_3 by enc_lia. do 2 peek_cont. cbn [continuation bind].
    replace ((_ * 64 + _) * 64 + _) with cp by enc_lia.
    by destruct (Z.ltb_spec cp 0x800), (Z.ltb_spec 0x10ffff cp), (Z.leb_spec 0xd800 cp),
      (Z.leb_spec cp 0xdfff); try lia.
  - rewrite lead_width_4 by enc_lia. do 3 peek_cont. cbn [continuation bind].
    replace (((_ * 64 + _) * 64 + _) * 64 + _) with cp by enc_lia.
    by destruct (Z.ltb_spec cp 0x10000), (Z.ltb_spec 0x10ffff cp), (Z.leb_spec 0xd800 cp),
      (Z.leb_spec cp 0xdfff); try lia.
Qed.

Lemma peek_front (source : bytes) c : Forall is_byte source → source ≠ [] →
  peek source = Ret c → scalar c ∧ ∃ rest, source = encode_utf8 c ++ rest.
Proof.
  intros Hb Hne. destruct source as [|lead rest]; [done|]. split_Forall.
  destruct (Z.lt_ge_cases lead 0x80) as [Hc|Hc].
  { simpl. destruct (Z.ltb_spec lead 0x80); [|lia]. intros [= <-].
    assert (scalar lead) as Hs by (unfold scalar; enc_lia). split; [done|]. exists rest.
    rewrite encode_utf8_arith by done. by destruct (Z.leb_spec lead 0x7f); [|lia]. }
  rewrite peek_cons by done.
  destruct (lead_width_cases lead ltac:(done) Hc) as [->|[[-> Hr]|[[-> Hr]|[-> Hr]]]]; [done|..];
    (destruct rest as [|c1 rest]; [done|]); split_Forall.
  - rewrite continuation_cons by enc_lia. case_decide; [|done]. cbn [continuation bind].
    destruct (_ || _) eqn:Ht; [done|]. intros [= <-].
    destruct (encode_2 lead c1) as [Hs He]; [done..|]. rewrite He. split; [done|]. by exists rest.
  - destruct rest as [|c2 rest]; [done|]. split_Forall.
    rewrite continuation_cons by enc_lia. case_decide; [|done].
    rewrite continuation_cons by enc_lia. case_decide; [|done]. cbn [continuation bind].
    destruct (_ || _) eqn:Ht; [done|]. intros [= <-].
    destruct (encode_3 lead c1 c2) as [Hs He]; [done|done|done|lia|lia|].
    rewrite He. split; [done|]. by exists rest.
  - destruct rest as [|c2 rest]; [done|]. destruct rest as [|c3 rest]; [done|]. split_Forall.
    do 3 (rewrite continuation_cons by enc_lia; case_decide; [|done]). cbn [continuation bind].
    destruct (_ || _) eqn:Ht; [done|]. intros [= <-].
    destruct (encode_4 lead c1 c2 c3) as [Hs He]; [done|done|done|done|lia|].
    rewrite He. split; [done|]. by exists rest.
Qed.

(** The source reader decodes exactly well-formed UTF-8: at a nonempty source
    it returns a code point precisely when the source starts with the encoding of
    that scalar value, and taking it moves past exactly those bytes. *)
Theorem peek_exact (source : bytes) (c : Z) : Forall is_byte source → source ≠ [] →
  peek source = Ret c ↔
  scalar c ∧ source = encode_utf8 c ++ drop (scalar_width c) source.
Proof.
  intros Hb Hne. split.
  - intros Hp. destruct (peek_front source c Hb Hne Hp) as [Hs [rest Heq]]. split; [done|].
    rewrite Heq at 2. by rewrite drop_app_length' by (by rewrite encode_length).
  - intros [Hs Heq]. rewrite Heq. by apply peek_encode.
Qed.

Lemma utf8_accepts_exactly_utf8_witness :
  Forall is_byte [0x24; 0xe2; 0x82; 0xac] ∧
  (utf8 [0x24; 0xe2; 0x82; 0xac] = true ↔
   ∃ cps, Forall scalar cps ∧ [0x24; 0xe2; 0x82; 0xac] = concat (encode_utf8 <$> cps)).
Proof.
  assert (Forall is_byte [0x24; 0xe2; 0x82; 0xac]) as H by byte_list.
  split; [exact H|]. exact (utf8_accepts_exactly_utf8 _ H).
Defined.

Lemma peek_exact_witness :
  peek [0xf0; 0x9f; 0x98; 0x80; 0x21] = Ret 0x1f600 ↔
  scalar 0x1f600 ∧ [0xf0; 0x9f; 0x98; 0x80; 0x21] =
    encode_utf8 0x1f600 ++ drop (scalar_width 0x1f600) [0xf0; 0x9f; 0x98; 0x80; 0x21].
Proof. apply peek_exact; [byte_list|discriminate]. Defined.
