(* ===== verification/Websocket.v ===== *)
(** * The WebSocket client

    src/src/nxtrt/websocket.hpp: the handshake digest ([base64], [accept_key]),
    the checks on close codes and header names, and the [client] with its
    operations [send], [ping], [close] and [receive]. *)
From S2P Require Import Prelude State Hash Unicode.
#[local] Open Scope Z_scope.

(** ** Handshake digest and field checks *)

Definition alphabet : bytes :=
  str "ABCDEFGHIJKLMNOPQRSTUVWXYZabcdefghijklmnopqrstuvwxyz0123456789+/".

Definition letter (n : Z) : Z := default 0 (alphabet !! Z.to_nat (Z.land n 63)).

(** One turn of the loop, over the (at most three) bytes left for it. *)
Definition base64_group (b0 : Z) (rest : bytes) : bytes :=
  let n := Z.shiftl b0 16 in
  let n := match rest with b1 :: _ => Z.lor n (Z.shiftl b1 8) | [] => n end in
  let n := match rest with _ :: b2 :: _ => Z.lor n b2 | _ => n end in
  [letter (Z.shiftr n 18); letter (Z.shiftr n 12);
   match rest with _ :: _ => letter (Z.shiftr n 6) | [] => ch "=" end;
   match rest with _ :: _ :: _ => letter n | _ => ch "=" end].

Fixpoint base64 (bytes : bytes) : list Z :=
  match bytes with
  | [] => []
  | b0 :: b1 :: b2 :: bytes' => base64_group b0 [b1; b2] ++ base64 bytes'
  | b0 :: rest => base64_group b0 rest
  end.

Definition accept_key (key : bytes) : bytes :=
  base64 (Sha1.sha1 (key ++ str "258EAFA5-E914-47DA-95CA-C5AB0DC85B11")).

Definition close_code (code : Z) : bool :=
  ((1000 <=? code) && (code <=? 1014) && negb (code =? 1004) && negb (code =? 1005)
   && negb (code =? 1006))
  || ((3000 <=? code) && (code <=? 4999)).

(** ** Messages and the client's state *)

Inductive message_type := M_text | M_binary | M_close | M_pong.

#[export] Instance message_type_eq_dec : EqDecision message_type.
Proof. solve_decision. Defined.

Definition type_number (t : message_type) : Z :=
  match t with M_text => 1 | M_binary => 2 | M_close => 8 | M_pong => 10 end.

Record message := MkMessage { type : message_type; data : bytes; code : option Z }.

(** The exceptions, with the text they carry. *)
Inductive ws_error :=
| protocol_error (what : string)
| logic_error (what : string)
| invalid_argument (what : string).

(** The client. [connected] is whether [socket_] is set ([tls_] only chooses
    the route of the bytes). [input_] is what the connection will still deliver,
    buffer by buffer, before its end; [output_] the frames written; [drawn_] the
    number of random masks used. *)
Record client := MkClient {
  max_message_size : nat;
  connected : bool;
  busy_ : bool;
  close_sent_ : bool;
  close_received_ : bool;
  fragments_ : bytes;
  fragment_type_ : option message_type;
  input_ : list bytes;
  output_ : list bytes;
  drawn_ : nat;
}.

Definition set_connected (c : client) (b : bool) : client :=
  MkClient (max_message_size c) b (busy_ c) (close_sent_ c) (close_received_ c)
    (fragments_ c) (fragment_type_ c) (input_ c) (output_ c) (drawn_ c).

Definition set_busy (c : client) (b : bool) : client :=
  MkClient (max_message_size c) (connected c) b (close_sent_ c) (close_received_ c)
    (fragments_ c) (fragment_type_ c) (input_ c) (output_ c) (drawn_ c).

Definition set_close (c : client) (sent received : bool) : client :=
  MkClient (max_message_size c) (connected c) (busy_ c) sent received
    (fragments_ c) (fragment_type_ c) (input_ c) (output_ c) (drawn_ c).

Definition set_fragments (c : client) (f : bytes) (t : option message_type) : client :=
  MkClient (max_message_size c) (connected c) (busy_ c) (close_sent_ c) (close_received_ c)
    f t (input_ c) (output_ c) (drawn_ c).

Definition set_input (c : client) (i : list bytes) : client :=
  MkClient (max_message_size c) (connected c) (busy_ c) (close_sent_ c) (close_received_ c)
    (fragments_ c) (fragment_type_ c) i (output_ c) (drawn_ c).

Definition written (c : client) (f : bytes) : client :=
  MkClient (max_message_size c) (connected c) (busy_ c) (close_sent_ c) (close_received_ c)
    (fragments_ c) (fragment_type_ c) (input_ c) (output_ c ++ [f]) (S (drawn_ c)).

Definition disconnect (c : client) : client := set_connected c false.

(** A step of the client. *)
Abbreviation op := (prog client ws_error).

(** ** Input *)

(** [input().take()]: the next byte, or nothing at the end. *)
Fixpoint take_byte (cs : list bytes) : option (Z * list bytes) :=
  match cs with
  | [] => None
  | [] :: cs' => take_byte cs'
  | (b :: c) :: cs' => Some (b, c :: cs')
  end.

(** [input().take_some(n)]: up to [n] of the bytes buffered next. *)
Fixpoint take_some (n : nat) (cs : list bytes) : option (bytes * list bytes) :=
  match cs with
  | [] => None
  | [] :: cs' => take_some n cs'
  | c :: cs' => Some (take n c, drop n c :: cs')
  end.

Definition octet : op Z := λ c,
  match take_byte (input_ c) with
  | None => Some (Throw (protocol_error "WebSocket EOF without Close"), c)
  | Some (b, cs) => Some (Ret b, set_input c cs)
  end.

(** [for (i < width) size = (size << 8) | octet()], at 64 bits. *)
Fixpoint read_size (width : nat) (size : Z) : op Z :=
  match width with
  | O => pret size
  | S width' => b <~ octet; read_size width' (Z.lor (u64 (Z.shiftl size 8)) b)
  end.

Definition known_opcode (opcode : Z) : bool :=
  (opcode =? 0) || (opcode =? 1) || (opcode =? 2) || (opcode =? 8) || (opcode =? 9)
  || (opcode =? 10).

(** The payload's length, from the seven bits of the second byte. *)
Definition read_length (size : Z) : op Z :=
  if (size =? 126) || (size =? 127) then
    let width := if size =? 126 then 2%nat else 8%nat in
    size <~ read_size width 0;
    _ <~ require (negb (((width =? 2)%nat && (size <? 126))
                        || ((width =? 8)%nat && ((size <? 65536) || negb (Z.shiftr size 63 =? 0)))))
           (protocol_error "noncanonical WebSocket length");
    pret size
  else pret size.

(** The frame header: FIN, the opcode and the payload's length. *)
Definition read_head : op (bool * Z * Z) :=
  first <~ octet;
  second <~ octet;
  let fin := negb (Z.land first 128 =? 0) in
  let opcode := Z.land first 15 in
  let control := 8 <=? opcode in
  _ <~ require ((Z.land first 112 =? 0) && (Z.land second 128 =? 0) && known_opcode opcode)
         (protocol_error "invalid WebSocket frame flags/opcode");
  let size := Z.land second 127 in
  _ <~ require (negb (control && (negb fin || (125 <? size))))
         (protocol_error "invalid WebSocket control frame");
  size <~ read_length size;
  pret (fin, opcode, size).

(** The checks on a data frame before its payload is read. *)
Definition check_fragment (opcode size : Z) : op unit :=
  if 8 <=? opcode then pret tt
  else
    c <~ gets (λ c, c);
    _ <~ require (negb (((opcode =? 0) && bool_decide (fragment_type_ c = None))
                        || (negb (opcode =? 0) && bool_decide (fragment_type_ c ≠ None))))
           (protocol_error "invalid WebSocket fragmentation");
    require (size <=? Z.of_nat (size_sub (max_message_size c) (length (fragments_ c))))
      (protocol_error "WebSocket message limit exceeded").

(** [while (payload.size() < size) payload.append(take_some(...))]. *)
Fixpoint payload_loop (fuel : nat) (size : Z) (payload : bytes) : op bytes :=
  match fuel with
  | O => λ _, None
  | S fuel' =>
      if Z.of_nat (length payload) <? size then λ c,
        match take_some (Z.to_nat (size - Z.of_nat (length payload))) (input_ c) with
        | None => Some (Throw (protocol_error "truncated WebSocket payload"), c)
        | Some (part, cs) => payload_loop fuel' size (payload ++ part) (set_input c cs)
        end
      else pret payload
  end.

(** Each turn takes a byte or more, so the bytes left bound the loop. *)
Definition read_payload (size : Z) : op bytes := λ c,
  payload_loop (S (length (concat (input_ c)))) size [] c.

(** ** Output *)

Definition size_bytes (size : nat) : bytes :=
  if (size <? 126)%nat then [u8 (Z.lor 128 (Z.of_nat size))]
  else
    let width := if (Z.of_nat size <=? 65535) then 2%nat else 8%nat in
    u8 (if (width =? 2)%nat then 254 else 255)
    :: ((λ i, u8 (Z.land (Z.shiftr (Z.of_nat size) (8 * Z.of_nat i)) 255)) <$> reverse (seq 0 width)).

Definition masked (mask : bytes) (data : bytes) : bytes :=
  imap (λ i b, Z.lxor b (nth (i mod 4) mask 0)) data.

(** The bytes of one client frame. *)
Definition frame_bytes (opcode : Z) (mask : bytes) (data : bytes) : list Z :=
  u8 (Z.lor 128 opcode) :: size_bytes (length data) ++ mask ++ masked mask data.

Section client.
(** [nxt::crypto::random]: the mask of the k-th frame. *)
Variable random : nat → bytes.

(** The connection takes every write. In the code a write that fails and a stop that was requested
    throw here, which ends the operation like any other exception. *)
Definition frame (opcode : Z) (data : bytes) : op unit := λ c,
  Some (Ret tt, written c (frame_bytes opcode (random (drawn_ c)) data)).

(** [guard]: one operation at a time, on a live connection; an operation that
    throws closes it. *)
Definition guarded {A} (body : op A) : op A := λ c,
  if busy_ c then Some (Throw (logic_error "overlapping WebSocket operations"), c)
  else if negb (connected c) then Some (Throw (logic_error "WebSocket connection is closed"), c)
  else
    match body (set_busy c true) with
    | None => None
    | Some (Ret a, c') => Some (Ret a, set_busy c' false)
    | Some (Throw e, c') => Some (Throw e, disconnect (set_busy c' false))
    end.

Definition send (type : message_type) (data : bytes) : op unit :=
  _ <~ require (bool_decide (type = M_text) || bool_decide (type = M_binary))
         (invalid_argument "send requires text or binary");
  c <~ gets (λ c, c);
  _ <~ require (negb ((max_message_size c <? length data)%nat
                      || (bool_decide (type = M_text) && negb (utf8 data))))
         (invalid_argument "invalid WebSocket message");
  guarded (
    c <~ gets (λ c, c);
    _ <~ require (negb (close_sent_ c)) (logic_error "WebSocket is closing");
    frame (type_number type) data).

Definition ping (data : bytes) : op unit :=
  _ <~ require (negb (125 <? length data)%nat) (invalid_argument "WebSocket ping exceeds 125 bytes");
  guarded (
    c <~ gets (λ c, c);
    _ <~ require (negb (close_sent_ c)) (logic_error "WebSocket is closing");
    frame 9 data).

Definition close (code : Z) (reason : bytes) : op unit :=
  _ <~ require (close_code code && negb (123 <? length reason)%nat && utf8 reason)
         (invalid_argument "invalid WebSocket close");
  guarded (
    c <~ gets (λ c, c);
    if close_sent_ c then pret tt
    else
      _ <~ frame 8 ([u8 (Z.shiftr code 8); u8 (Z.land code 255)] ++ reason);
      modify (λ c, set_close c true (close_received_ c))).

(** The close event a payload announces. *)
Definition close_event (payload : bytes) : op message :=
  match payload with
  | [] => pret (MkMessage M_close [] None)
  | [_] => pthrow (protocol_error "invalid WebSocket close payload")
  | b0 :: b1 :: reason =>
      let code := Z.lor (Z.shiftl b0 8) b1 in
      _ <~ require (close_code code && utf8 reason) (protocol_error "invalid WebSocket close code/reason");
      pret (MkMessage M_close reason (Some code))
  end.

(** [if (opcode != 0) fragment_type_ = opcode]. *)
Definition begin_fragment (opcode : Z) : op unit :=
  if opcode =? 0 then pret tt
  else modify (λ c, set_fragments c (fragments_ c) (Some (if opcode =? 1 then M_text else M_binary))).

(** What [receive] does with a whole frame: [None] is [continue]. *)
Definition handle (fin : bool) (opcode : Z) (payload : bytes) : op (option message) :=
  if opcode =? 9 then _ <~ frame 10 payload; pret None
  else if opcode =? 10 then pret (Some (MkMessage M_pong payload None))
  else if opcode =? 8 then
    event <~ close_event payload;
    c <~ gets (λ c, c);
    _ <~ (if close_sent_ c then pret tt else frame 8 payload);
    _ <~ modify (λ c, disconnect (set_fragments (set_close c true true) [] (fragment_type_ c)));
    pret (Some event)
  else
    _ <~ begin_fragment opcode;
    _ <~ modify (λ c, set_fragments c (fragments_ c ++ payload) (fragment_type_ c));
    if negb fin then pret None
    else
      c <~ gets (λ c, c);
      let event := MkMessage (default M_text (fragment_type_ c)) (fragments_ c) None in
      _ <~ modify (λ c, set_fragments c [] None);
      _ <~ require (negb (bool_decide (type event = M_text) && negb (utf8 (data event))))
             (protocol_error "invalid WebSocket UTF-8");
      pret (if close_sent_ c then None else Some event).

(** The body of [for (;;)]. *)
Definition receive_step : op (option message) :=
  head <~ read_head;
  let '(fin, opcode, size) := head in
  _ <~ check_fragment opcode size;
  payload <~ read_payload size;
  handle fin opcode payload.

Fixpoint receive_loop (fuel : nat) : op (option message) :=
  match fuel with
  | O => λ _, None
  | S fuel' =>
      event <~ receive_step;
      match event with
      | Some m => pret (Some m)
      | None => receive_loop fuel'
      end
  end.

(** Each turn takes two bytes or more. *)
Definition receive : op (option message) := λ c,
  if close_received_ c then Some (Ret None, c)
  else guarded (λ c, receive_loop (S (length (concat (input_ c)))) c) c.
End client.

(** ** Reasoning about client steps *)

Lemma take_byte_concat cs :
  match take_byte cs with
  | None => concat cs = []
  | Some (b, cs') => concat cs = b :: concat cs'
  end.
Proof. induction cs as [|[|b c] cs IH]; done. Qed.

Lemma take_some_concat n cs :
  match take_some n cs with
  | None => concat cs = []
  | Some (part, cs') => concat cs = part ++ concat cs' ∧ (1 ≤ n → 1 ≤ length part ≤ n)%nat
  end.
Proof.
  induction cs as [|[|b c] cs IH]; [done|done|]. cbn [take_some concat]. split.
  - by rewrite app_assoc, take_drop.
  - intros Hn. rewrite length_take. cbn [length]. lia.
Qed.

(** The bytes still to come. *)
Abbreviation left_over c := (concat (input_ c)).

Lemma wp_octet Q c :
  (left_over c = [] → Q (Throw (protocol_error "WebSocket EOF without Close")) c) →
  (∀ b cs, left_over c = b :: concat cs → Q (Ret b) (set_input c cs)) →
  wp octet Q c.
Proof.
  intros He Hb. pose proof (take_byte_concat (input_ c)) as H. unfold wp, octet.
  destruct (take_byte (input_ c)) as [[b cs]|]; eauto.
Qed.

(** ** The theorem's vocabulary: frames as RFC 6455 puts them on the wire *)

(** [n] in [w] bytes, the most significant first. *)
Fixpoint be_bytes (w : nat) (n : Z) : bytes :=
  match w with
  | O => []
  | S w' => be_bytes w' (n / 256) ++ [n mod 256]
  end.

Definition be_value (v : Z) (bs : bytes) : Z := foldl (λ v b, v * 256 + b) v bs.

Definition length_field (n : nat) : bytes :=
  if (n <=? 125)%nat then [Z.of_nat n]
  else if Z.of_nat n <=? 65535 then 126 :: be_bytes 2 (Z.of_nat n)
  else 127 :: be_bytes 8 (Z.of_nat n).

Definition first_byte (fin : bool) (op : Z) : Z := if fin then 128 + op else op.

(** A frame from the server: FIN, the opcode, no mask. *)
Definition server_frame (fin : bool) (opcode : Z) (payload : bytes) : bytes :=
  first_byte fin opcode :: length_field (length payload) ++ payload.

Lemma be_bytes_length w n : length (be_bytes w n) = w.
Proof. revert n. induction w as [|w IH]; intros n; [done|]. cbn [be_bytes]. rewrite length_app, IH. cbn. lia. Qed.

Lemma be_bytes_bytes w n : Forall is_byte (be_bytes w n).
Proof.
  revert n. induction w as [|w IH]; intros n; [constructor|]. cbn [be_bytes]. apply Forall_app. split; [done|].
  apply Forall_singleton. unfold is_byte. pose proof (Z.mod_pos_bound n 256). lia.
Qed.

Lemma be_bytes_value w n : 0 ≤ n < 256 ^ Z.of_nat w → be_value 0 (be_bytes w n) = n.
Proof.
  unfold be_value. revert n. induction w as [|w IH]; intros n Hn; [change (256 ^ Z.of_nat 0) with 1 in Hn; cbn; lia|].
  cbn [be_bytes]. rewrite foldl_app. cbn [foldl]. rewrite Nat2Z.inj_succ, Z.pow_succ_r in Hn by lia.
  rewrite IH.
  - pose proof (Z.div_mod n 256). lia.
  - split; [apply Z.div_pos; lia|]. apply Z.div_lt_upper_bound; lia.
Qed.

(** ** Reading what is there *)

(** [m] takes exactly [s] from the input and returns [a]. *)
Definition reads {A} (m : op A) (s : bytes) (a : A) : Prop :=
  ∀ c rest, left_over c = s ++ rest →
    ∃ cs, m c = Some (Ret a, set_input c cs) ∧ concat cs = rest.

Lemma reads_ret {A} (a : A) : reads (pret a) [] a.
Proof. intros c rest Hc. exists (input_ c). by destruct c. Qed.

Lemma reads_bind {A B} (m : op A) (k : A → op B) s1 s2 a b :
  reads m s1 a → reads (k a) s2 b → reads (pbind m k) (s1 ++ s2) b.
Proof.
  intros Hm Hk c rest Hc. rewrite <- app_assoc in Hc. destruct (Hm c _ Hc) as (cs & Hr & Hcs).
  destruct (Hk (set_input c cs) rest Hcs) as (cs' & Hr' & Hcs'). exists cs'. split; [|done].
  unfold pbind. by rewrite Hr.
Qed.

(** A step that takes nothing. *)
Lemma reads_require {B} b e (k : unit → op B) s x :
  b = true → reads (k tt) s x → reads (pbind (require b e) k) s x.
Proof. intros -> Hk. apply (reads_bind _ _ [] s tt); [apply reads_ret|done]. Qed.

Lemma reads_octet b : reads octet [b] b.
Proof.
  intros c rest Hc. pose proof (take_byte_concat (input_ c)) as H. unfold octet.
  destruct (take_byte (input_ c)) as [[b' cs]|]; [|by rewrite Hc in H].
  rewrite Hc in H. injection H as -> ->. by exists cs.
Qed.

Lemma shift_in v b : 0 ≤ v < 2 ^ 56 → is_byte b → Z.lor (u64 (Z.shiftl v 8)) b = v * 256 + b.
Proof.
  unfold is_byte. intros Hv Hb. rewrite wrap_small.
  - rewrite lor_shiftl_add by lia. lia.
  - rewrite Z.shiftl_mul_pow2 by lia. lia.
Qed.

Lemma reads_size bs : ∀ v, Forall is_byte bs → 0 ≤ v → v < 2 ^ (64 - 8 * Z.of_nat (length bs)) →
  (length bs ≤ 8)%nat → reads (read_size (length bs) v) bs (be_value v bs).
Proof.
  induction bs as [|b bs IH]; intros v Hb Hv Hlim Hl; [apply reads_ret|]. split_Forall. cbn [length read_size] in *.
  unfold is_byte in *.
  assert (2 ^ (64 - 8 * Z.of_nat (S (length bs))) ≤ 2 ^ 56) by (apply Z.pow_le_mono_r; lia).
  apply (reads_bind _ _ [b] bs b); [apply reads_octet|]. rewrite shift_in by (unfold is_byte; lia).
  apply IH; [done|lia| |lia].
  replace (64 - 8 * Z.of_nat (length bs)) with (64 - 8 * Z.of_nat (S (length bs)) + 8) by lia.
  rewrite Z.pow_add_r by lia. lia.
Qed.

Lemma reads_payload p : reads (read_payload (Z.of_nat (length p))) p p.
Proof.
  assert (∀ fuel pre q c rest, left_over c = q ++ rest → (length q < fuel)%nat →
    ∃ cs, payload_loop fuel (Z.of_nat (length (pre ++ q))) pre c = Some (Ret (pre ++ q), set_input c cs)
          ∧ concat cs = rest) as Hgen.
  { induction fuel as [|fuel IH]; intros pre q c rest Hc Hf; [lia|]. cbn [payload_loop].
    destruct q as [|b q].
    { rewrite app_nil_r, Z.ltb_irrefl. exists (input_ c). by destruct c. }
    destruct (Z.ltb_spec (Z.of_nat (length pre)) (Z.of_nat (length (pre ++ b :: q)))) as [_|Hl]; [|len].
    replace (Z.to_nat _) with (length (b :: q)) by len.
    pose proof (take_some_concat (length (b :: q)) (input_ c)) as H.
    destruct (take_some _ (input_ c)) as [[part cs]|]; [|by rewrite Hc in H].
    destruct H as [Heq Hlen]. rewrite Hc in Heq. specialize (Hlen ltac:(cbn; lia)).
    assert (∃ q', b :: q = part ++ q' ∧ concat cs = q' ++ rest) as (q' & Hq & Hcs).
    { exists (drop (length part) (b :: q)). assert (take (length part) ((b :: q) ++ rest) = part) as Ht.
      { rewrite Heq. by rewrite take_app_length. }
      rewrite take_app_le in Ht by lia. split.
      - by rewrite <- Ht at 1; rewrite take_drop.
      - apply (f_equal (drop (length part))) in Heq. rewrite drop_app_le, drop_app_length in Heq by lia. done. }
    rewrite Hq in *. rewrite app_assoc. destruct (IH (pre ++ part) q' (set_input c cs) rest) as (cs' & Hr & Hcs').
    - done.
    - rewrite length_app in Hf, Hlen. cbn in Hlen. lia.
    - exists cs'. done. }
  intros c rest Hc. unfold read_payload. destruct (Hgen (S (length (left_over c))) [] p c rest Hc) as (cs & Hr & Hcs).
  - rewrite Hc, length_app. lia.
  - by exists cs.
Qed.

Lemma known_opcode_cases op : known_opcode op = true →
  op = 0 ∨ op = 1 ∨ op = 2 ∨ op = 8 ∨ op = 9 ∨ op = 10.
Proof. unfold known_opcode. lia. Qed.

Lemma first_byte_fields fin op : known_opcode op = true →
  Z.land (first_byte fin op) 112 = 0 ∧ Z.land (first_byte fin op) 15 = op
  ∧ negb (Z.land (first_byte fin op) 128 =? 0) = fin.
Proof. intros H%known_opcode_cases. destruct fin; destruct_or! H; subst op; done. Qed.

Lemma low_byte b : 0 ≤ b ≤ 127 → Z.land b 128 = 0 ∧ Z.land b 127 = b.
Proof.
  intros Hb. assert ((b <=? 127) = true → Z.land b 128 = 0 ∧ Z.land b 127 = b) as H; [|apply H; lia].
  assert (implb (b <=? 127) ((Z.land b 128 =? 0) && (Z.land b 127 =? b)) = true) as H.
  { assert (is_byte b) as Hbb by (unfold is_byte; lia). revert b Hbb Hb.
    intros b Hbb _. revert b Hbb. apply all_bytes_spec. by vm_compute. }
  intros Hle. rewrite Hle in H. cbn in H. lia.
Qed.

Lemma reads_then {A B} (m : op A) (k : A → op B) s a b :
  reads m s a → reads (k a) [] b → reads (pbind m k) s b.
Proof. intros Hm Hk. rewrite <- (app_nil_r s). by eapply reads_bind. Qed.

Lemma reads_be w n : (w ≤ 8)%nat → 0 ≤ n < 256 ^ Z.of_nat w → reads (read_size w 0) (be_bytes w n) n.
Proof.
  intros Hw Hlim. rewrite <- (be_bytes_length w n) at 1. rewrite <- (be_bytes_value w n) at 3 by lia.
  apply reads_size; [apply be_bytes_bytes|lia| |by rewrite be_bytes_length].
  rewrite be_bytes_length. apply Z.pow_pos_nonneg; lia.
Qed.

(** The length field: its first byte, and the bytes after it. *)
Lemma reads_length n : Z.of_nat n < 2 ^ 63 →
  ∃ b ext, length_field n = b :: ext ∧ 0 ≤ b ≤ 127 ∧ (b ≤ 125 ↔ (n ≤ 125)%nat)
    ∧ reads (read_length b) ext (Z.of_nat n).
Proof.
  intros Hn. unfold length_field, read_length. destruct (Nat.leb_spec n 125) as [H125|H125].
  { exists (Z.of_nat n), []. split; [done|]. split; [lia|]. split; [lia|].
    destruct (Z.eqb_spec (Z.of_nat n) 126), (Z.eqb_spec (Z.of_nat n) 127); try lia. apply reads_ret. }
  destruct (Z.leb_spec (Z.of_nat n) 65535) as [H16|H16].
  - exists 126, (be_bytes 2 (Z.of_nat n)). split; [done|]. split; [lia|]. split; [lia|].
    cbn [Z.eqb Pos.eqb orb]. eapply reads_then; [apply reads_be; lia|].
    apply reads_require; [cbn [Nat.eqb andb]; lia|apply reads_ret].
  - exists 127, (be_bytes 8 (Z.of_nat n)). split; [done|]. split; [lia|]. split; [lia|].
    cbn [Z.eqb Pos.eqb orb]. eapply reads_then; [apply reads_be; lia|].
    apply reads_require; [|apply reads_ret]. cbn [Nat.eqb andb].
    rewrite Z.shiftr_div_pow2, Z.div_small by lia. cbn. lia.
Qed.

Lemma reads_head fin op n : known_opcode op = true → (8 ≤ op → fin = true ∧ (n ≤ 125)%nat) →
  Z.of_nat n < 2 ^ 63 →
  reads read_head (first_byte fin op :: length_field n) (fin, op, Z.of_nat n).
Proof.
  intros Hop Hctl Hn. destruct (first_byte_fields fin op Hop) as (H112 & H15 & H128).
  destruct (reads_length n Hn) as (b & ext & -> & Hb & H125 & Hr). destruct (low_byte b Hb) as [Hz H127].
  apply (reads_bind _ _ [_] (b :: ext) (first_byte fin op)); [apply reads_octet|].
  apply (reads_bind _ _ [_] ext b); [apply reads_octet|]. cbn beta zeta.
  rewrite H112, H15, H128, Hz, H127. apply reads_require; [by rewrite Hop|].
  apply reads_require; [|by eapply reads_then; [done|apply reads_ret]].
  destruct (Z.leb_spec 8 op); [|done]. destruct Hctl as [-> ?]; [done|]. cbn. lia.
Qed.

(** ** Receiving a fragmented message *)

(** The client after it wrote the frames [fs], a mask drawn for each. *)
Definition sent (c : client) (fs : list bytes) : client :=
  MkClient (max_message_size c) (connected c) (busy_ c) (close_sent_ c) (close_received_ c)
    (fragments_ c) (fragment_type_ c) (input_ c) (output_ c ++ fs) (drawn_ c + length fs).

Lemma sent_written c f fs : sent (written c f) fs = sent c (f :: fs).
Proof. unfold sent, written. cbn. rewrite <- app_assoc. f_equal. lia. Qed.

Lemma sent_sent c fs gs : sent (sent c fs) gs = sent c (fs ++ gs).
Proof. unfold sent. cbn. rewrite <- app_assoc, length_app. f_equal. lia. Qed.

Lemma sent_nil c : sent c [] = c.
Proof. unfold sent. destruct c. cbn. rewrite app_nil_r, Nat.add_0_r. done. Qed.

(** A piece of a message, after the pings the server put before it. *)
Record segment := MkSegment { pings : list bytes; part : bytes }.

Fixpoint message_wire (op : Z) (segs : list segment) : bytes :=
  match segs with
  | [] => []
  | s :: segs' =>
      concat (server_frame true 9 <$> pings s)
      ++ server_frame (bool_decide (segs' = [])) op (part s) ++ message_wire 0 segs'
  end.

Section receiving.
Context (random : nat → bytes).

(** The answers to the pings [ps], the first with the [k]-th mask. *)
Fixpoint pongs (k : nat) (ps : list bytes) : list bytes :=
  match ps with
  | [] => []
  | p :: ps' => frame_bytes 10 (random k) p :: pongs (S k) ps'
  end.

Lemma pongs_length k ps : length (pongs k ps) = length ps.
Proof. revert k. induction ps as [|p ps IH]; intros k; [done|]. cbn. by rewrite IH. Qed.

Lemma pongs_app k ps qs : pongs k (ps ++ qs) = pongs k ps ++ pongs (k + length ps) qs.
Proof.
  revert k. induction ps as [|p ps IH]; intros k; cbn; [by rewrite Nat.add_0_r|]. rewrite IH. do 3 f_equal. lia.
Qed.

(** The frame may come now. *)
Definition in_turn (c : client) (op : Z) (p : bytes) : Prop :=
  8 ≤ op ∨
  ((op = 0 ↔ fragment_type_ c ≠ None) ∧ (length (fragments_ c) + length p ≤ max_message_size c)%nat).

Lemma check_fragment_ok c op p : in_turn c op p → Z.of_nat (max_message_size c) < 2 ^ 64 →
  check_fragment op (Z.of_nat (length p)) c = Some (Ret tt, c).
Proof.
  intros Hin Hmax. unfold check_fragment. destruct (Z.leb_spec 8 op); [done|]. destruct Hin as [?|[Hft Hlen]]; [lia|].
  cbn [pbind gets]. unfold pbind, gets, require. rewrite size_sub_small by lia.
  replace (negb _) with true.
  - destruct (Z.leb_spec (Z.of_nat (length p)) (Z.of_nat (max_message_size c - length (fragments_ c)))); [done|lia].
  - destruct (Z.eqb_spec op 0) as [->|Hne]; cbn [negb andb orb].
    + rewrite bool_decide_false by tauto. done.
    + rewrite bool_decide_false by tauto. done.
Qed.

Lemma step_frame c fin op p rest : left_over c = server_frame fin op p ++ rest →
  known_opcode op = true → (8 ≤ op → fin = true ∧ (length p ≤ 125)%nat) → Z.of_nat (length p) < 2 ^ 63 →
  in_turn c op p → Z.of_nat (max_message_size c) < 2 ^ 64 →
  ∃ cs, concat cs = rest ∧ receive_step random c = handle random fin op p (set_input c cs).
Proof.
  intros Hc Hop Hctl Hp Hin Hmax. unfold server_frame in Hc.
  rewrite app_comm_cons, <- app_assoc in Hc.
  destruct (reads_head fin op (length p) Hop Hctl Hp c _ Hc) as (cs & Hr & Hcs).
  destruct (reads_payload p (set_input c cs) rest Hcs) as (cs' & Hr' & Hcs'). exists cs'. split; [done|].
  unfold receive_step, pbind. rewrite Hr, (check_fragment_ok (set_input c cs)) by done. by rewrite Hr'.
Qed.

Lemma loop_pings ps : Forall (λ p, length p ≤ 125)%nat ps → ∀ c rest fuel,
  left_over c = concat (server_frame true 9 <$> ps) ++ rest → Z.of_nat (max_message_size c) < 2 ^ 64 →
  ∃ cs, concat cs = rest ∧
    receive_loop random (length ps + fuel) c
    = receive_loop random fuel (sent (set_input c cs) (pongs (drawn_ c) ps)).
Proof.
  induction 1 as [|p ps Hp Hps IH]; intros c rest fuel Hc Hmax.
  { exists (input_ c). split; [done|]. cbn. rewrite sent_nil. by destruct c. }
  cbn [fmap list_fmap concat] in Hc. rewrite <- app_assoc in Hc.
  destruct (step_frame c true 9 p _ Hc) as (cs & Hcs & Hs); [done|done|lia|left; lia|done|].
  destruct (IH (written (set_input c cs) (frame_bytes 10 (random (drawn_ c)) p)) rest fuel Hcs Hmax) as (cs' & Hcs' & Hl).
  exists cs'. split; [done|]. cbn [length Nat.add receive_loop]. unfold pbind at 1. rewrite Hs. cbn [handle].
  etrans; [exact Hl|]. f_equal. cbn [pongs]. rewrite <- sent_written. done.
Qed.

Definition data_type (ty : message_type) : Prop := ty = M_text ∨ ty = M_binary.

(** The opcode that starts or continues a message of type [ty]. *)
Definition part_opcode (c : client) (ty : message_type) (op : Z) : Prop :=
  (op = type_number ty ∧ fragment_type_ c = None) ∨ (op = 0 ∧ fragment_type_ c = Some ty).

Lemma part_in_turn c ty op p : data_type ty → part_opcode c ty op →
  (length (fragments_ c) + length p ≤ max_message_size c)%nat →
  known_opcode op = true ∧ op < 8 ∧ in_turn c op p.
Proof.
  unfold in_turn. intros [->| ->] [[-> Hf]|[-> Hf]] Hl; rewrite Hf; (split; [done|]); (split; [done|]); right; done.
Qed.

(** What [handle] does with a piece of a message. *)
Lemma handle_part c ty op fin p : data_type ty → part_opcode c ty op →
  (fin = true → ty = M_text → utf8 (fragments_ c ++ p) = true) → close_sent_ c = false →
  handle random fin op p c =
  if fin then Some (Ret (Some (MkMessage ty (fragments_ c ++ p) None)), set_fragments c [] None)
  else Some (Ret None, set_fragments c (fragments_ c ++ p) (Some ty)).
Proof.
  intros Hty Hop Hutf Hsent. unfold handle.
  assert (op ≠ 9 ∧ op ≠ 10 ∧ op ≠ 8) as (H9 & H10 & H8)
    by (destruct Hty as [->| ->], Hop as [[-> _]|[-> _]]; done).
  rewrite (proj2 (Z.eqb_neq _ _) H9), (proj2 (Z.eqb_neq _ _) H10), (proj2 (Z.eqb_neq _ _) H8).
  assert (begin_fragment op c
          = Some (Ret tt, set_fragments c (fragments_ c) (Some ty))) as Hstart.
  { unfold begin_fragment. destruct Hop as [[-> _]|[-> Hf]].
    - by destruct Hty as [->| ->].
    - cbn. rewrite <- Hf. by destruct c. }
  unfold pbind at 1. rewrite Hstart. unfold pbind, modify, gets, require, pret. cbn [set_fragments fragments_ fragment_type_ negb].
  destruct fin; cbn [negb]; [|done]. cbn [default set_fragments type data close_sent_].
  rewrite Hsent. destruct Hty as [->| ->]; [|done].
  cbn [set_fragments fragments_ fragment_type_ default from_option]. by rewrite (Hutf eq_refl eq_refl).
Qed.

Definition all_pings (segs : list segment) : list bytes := concat (pings <$> segs).
Definition all_parts (segs : list segment) : bytes := concat (part <$> segs).

(** The frames of a message. *)
Definition frame_count (segs : list segment) : nat := length (all_pings segs) + length segs.

Lemma after_part c cs1 cs2 cs3 (ps qs : list bytes) f t :
  set_fragments (sent (set_input (set_fragments (set_input (sent (set_input c cs1) ps) cs2) f t) cs3) qs) [] None
  = set_fragments (sent (set_input c cs3) (ps ++ qs)) [] None.
Proof. rewrite <- sent_sent. done. Qed.

Lemma loop_message ty segs : data_type ty → segs ≠ [] →
  Forall (λ s, Forall (λ p, length p ≤ 125)%nat (pings s)) segs → ∀ c op rest fuel,
  left_over c = message_wire op segs ++ rest → part_opcode c ty op →
  (length (fragments_ c) + length (all_parts segs) ≤ max_message_size c)%nat →
  Z.of_nat (max_message_size c) < 2 ^ 63 →
  (ty = M_text → utf8 (fragments_ c ++ all_parts segs) = true) → close_sent_ c = false →
  ∃ cs, concat cs = rest ∧
    receive_loop random (frame_count segs + fuel) c
    = Some (Ret (Some (MkMessage ty (fragments_ c ++ all_parts segs) None)),
            set_fragments (sent (set_input c cs) (pongs (drawn_ c) (all_pings segs))) [] None).
Proof.
  intros Hty Hne Hpings. induction Hpings as [|s segs Hs Hsegs IH]; [done|]. clear Hne.
  intros c op rest fuel Hc Hop Hlen Hmax Hutf Hsent.
  unfold all_parts, all_pings in Hlen, Hutf |- *. cbn [fmap list_fmap concat] in Hlen, Hutf |- *.
  fold (all_parts segs) in Hlen, Hutf |- *. fold (all_pings segs) in *. rewrite length_app in Hlen.
  cbn [message_wire] in Hc. rewrite <- !app_assoc in Hc.
  replace (frame_count (s :: segs) + fuel)%nat with (length (pings s) + S (frame_count segs + fuel))%nat.
  2:{ unfold frame_count, all_pings. cbn [fmap list_fmap concat length]. rewrite length_app. lia. }
  destruct (loop_pings (pings s) Hs c _ (S (frame_count segs + fuel)) Hc) as (cs1 & Hc1 & ->); [lia|].
  set (c1 := sent (set_input c cs1) (pongs (drawn_ c) (pings s))).
  destruct (part_in_turn c1 ty op (part s) Hty Hop) as (Hk & H8 & Hin); [cbn; lia|].
  destruct (step_frame c1 _ op (part s) _ Hc1 Hk) as (cs2 & Hc2 & Hst); [lia|lia|done|cbn; lia|].
  cbn [receive_loop]. unfold pbind at 1. rewrite Hst.
  rewrite (handle_part (set_input c1 cs2) ty op); [|done|done| |done].
  2:{ intros Hfin%bool_decide_eq_true Ht. subst segs. unfold all_parts in Hutf. cbn [fmap list_fmap concat] in Hutf.
      rewrite app_nil_r in Hutf. by apply Hutf. }
  destruct segs as [|s' segs'].
  - rewrite bool_decide_true by done. exists cs2. split; [done|]. unfold all_parts, all_pings. cbn [fmap list_fmap concat].
    rewrite !app_nil_r. done.
  - rewrite bool_decide_false by done.
    destruct (IH ltac:(done) (set_fragments (set_input c1 cs2) (fragments_ c ++ part s) (Some ty)) 0 rest fuel)
      as (cs3 & Hc3 & Hl); [exact Hc2|by right| |done| |done|].
    { change (length (fragments_ c ++ part s) + length (all_parts (s' :: segs')) ≤ max_message_size c)%nat.
      rewrite length_app. lia. }
    { change (ty = M_text → utf8 ((fragments_ c ++ part s) ++ all_parts (s' :: segs')) = true).
      by rewrite <- app_assoc. }
    exists cs3. split; [done|]. etrans; [exact Hl|].
    cbn [fragments_ set_fragments]. rewrite <- app_assoc. do 2 f_equal.
    rewrite pongs_app, <- (pongs_length (drawn_ c) (pings s)). apply after_part.
Qed.
End receiving.

(** A client that waits for a message. *)
Record ready (c : client) : Prop := {
  rd_connected : connected c = true;
  rd_busy : busy_ c = false;
  rd_close : close_sent_ c = false ∧ close_received_ c = false;
  rd_fragments : fragments_ c = [] ∧ fragment_type_ c = None;
  rd_max : Z.of_nat (max_message_size c) < 2 ^ 63;
}.

Lemma server_frame_length fin op p : (2 ≤ length (server_frame fin op p))%nat.
Proof.
  unfold server_frame, length_field. destruct (length p <=? 125)%nat; [|destruct (Z.of_nat (length p) <=? 65535)]; len.
Qed.

Lemma pings_wire_length ps : (length ps ≤ length (concat (server_frame true 9 <$> ps)))%nat.
Proof.
  induction ps as [|p ps IH]; [done|]. cbn [fmap list_fmap concat length]. rewrite length_app.
  pose proof (server_frame_length true 9 p). lia.
Qed.

Lemma message_wire_length segs : ∀ op, (frame_count segs ≤ length (message_wire op segs))%nat.
Proof.
  induction segs as [|s segs IH]; intros op; [done|]. unfold frame_count, all_pings in *.
  cbn [fmap list_fmap concat length message_wire]. rewrite !length_app. specialize (IH 0).
  pose proof (pings_wire_length (pings s)). pose proof (server_frame_length (bool_decide (segs = [])) op (part s)). lia.
Qed.

(** C15: a message arrives whole, however the server cut it up. For any split of a
    text or binary message of at most [max_message_size] bytes into frames, with
    any pings between them, and however the connection delivers the bytes,
    [receive] returns the message, has answered every ping in order with its
    payload, and leaves exactly the bytes after the message. *)
Theorem receive_delivers random c ty segs rest :
  ready c → data_type ty → segs ≠ [] →
  Forall (λ s, Forall (λ p, length p ≤ 125)%nat (pings s)) segs →
  (length (all_parts segs) ≤ max_message_size c)%nat →
  (ty = M_text → utf8 (all_parts segs) = true) →
  left_over c = message_wire (type_number ty) segs ++ rest →
  ∃ cs, concat cs = rest ∧
    receive random c = Some (Ret (Some (MkMessage ty (all_parts segs) None)),
                             sent (set_input c cs) (pongs random (drawn_ c) (all_pings segs))).
Proof.
  intros [Hcon Hbusy [Hcs Hcr] [Hf Hft] Hmax] Hty Hne Hpings Hlen Hutf Hc.
  unfold receive. rewrite Hcr. unfold guarded. rewrite Hbusy, Hcon. cbn [negb].
  pose proof (message_wire_length segs (type_number ty)) as Hcount.
  change (left_over (set_busy c true)) with (left_over c).
  assert (∃ fuel, S (length (left_over c)) = (frame_count segs + fuel)%nat) as [fuel Hfuel].
  { exists (S (length (left_over c)) - frame_count segs)%nat. rewrite Hc, length_app. lia. }
  destruct (loop_message random ty segs Hty Hne Hpings (set_busy c true) (type_number ty) rest fuel)
    as (cs & Hrest & Hl); [done|by left|cbn; rewrite Hf; done|done|cbn; by rewrite Hf|done|].
  exists cs. split; [done|]. rewrite Hfuel, Hl. cbn [set_busy fragments_]. rewrite Hf.
  unfold set_fragments, set_busy, sent, set_input.
  cbn [max_message_size connected busy_ close_sent_ close_received_ fragments_ fragment_type_ input_ output_ drawn_ app].
  by rewrite Hf, Hft, Hbusy.
Qed.

(** ** What the server reads *)

(** The length of a client frame, from the low bits of its second byte. *)
Definition decode_length (b : Z) (s : bytes) : option (nat * bytes) :=
  let w := if b <=? 125 then 0%nat else if b =? 126 then 2%nat else 8%nat in
  if (length s <? w)%nat then None
  else Some (if b <=? 125 then Z.to_nat b else Z.to_nat (be_value 0 (take w s)), drop w s).

(** A frame as the server reads it (RFC 6455, 5.2): an unfragmented, masked
    frame gives the opcode, the payload with the mask taken off, and the rest. *)
Definition server_decode (s : bytes) : option (Z * bytes * bytes) :=
  match s with
  | b0 :: b1 :: s' =>
      if (128 <=? b0) && (128 <=? b1) then
        '(n, s') ← decode_length (b1 - 128) s';
        if (length s' <? 4 + n)%nat then None
        else Some (b0 - 128, masked (take 4 s') (take n (drop 4 s')), drop (4 + n) s')
      else None
  | _ => None
  end.

Lemma masked_length mask data : length (masked mask data) = length data.
Proof. apply length_imap. Qed.

Lemma masked_masked mask data : masked mask (masked mask data) = data.
Proof.
  apply list_eq. intros i. unfold masked. rewrite !list_lookup_imap. destruct (data !! i) as [b|]; [|done].
  cbn. f_equal. by rewrite Z.lxor_assoc, Z.lxor_nilpotent, Z.lxor_0_r.
Qed.

Lemma high_bit b : 0 ≤ b ≤ 127 → u8 (Z.lor 128 b) = 128 + b.
Proof.
  intros Hb. change 128 with (Z.shiftl 1 7) at 1. rewrite lor_shiftl_add by lia. apply wrap_small. lia.
Qed.

Lemma size_byte n i : 0 ≤ n → 0 ≤ i → u8 (Z.land (Z.shiftr n i) 255) = n / 2 ^ i mod 256.
Proof.
  intros Hn Hi. change 255 with (2 ^ 8 - 1). rewrite land_ones_mod, Z.shiftr_div_pow2 by lia. apply wrap_small.
  apply Z.mod_pos_bound. lia.
Qed.

(** The client's length bytes are the canonical ones with the mask bit set. *)
Lemma size_bytes_field n : Z.of_nat n < 2 ^ 63 →
  ∃ b ext, length_field n = b :: ext ∧ size_bytes n = (128 + b) :: ext ∧ 0 ≤ b ≤ 127 ∧
    ∀ s, decode_length b (ext ++ s) = Some (n, s).
Proof.
  intros Hn. unfold length_field, size_bytes, decode_length.
  destruct (Nat.leb_spec n 125), (Nat.ltb_spec n 126); [|lia|lia|].
  { exists (Z.of_nat n), []. split; [done|]. rewrite high_bit by lia. split; [done|]. split; [lia|]. intros s.
    destruct (Z.leb_spec (Z.of_nat n) 125); [|lia]. cbn. by rewrite Nat2Z.id. }
  assert (∀ w s, Z.of_nat n < 256 ^ Z.of_nat w →
    (if (length (be_bytes w (Z.of_nat n) ++ s) <? w)%nat then None
     else Some (Z.to_nat (be_value 0 (take w (be_bytes w (Z.of_nat n) ++ s))), drop w (be_bytes w (Z.of_nat n) ++ s)))
    = Some (n, s)) as Hext.
  { intros w s Hlim. assert (length (be_bytes w (Z.of_nat n)) = w) as Hl by apply be_bytes_length.
    destruct (Nat.ltb_spec (length (be_bytes w (Z.of_nat n) ++ s)) w) as [Hlt|_]; [rewrite length_app in Hlt; lia|].
    rewrite take_app_length', drop_app_length' by done. rewrite be_bytes_value by lia. by rewrite Nat2Z.id. }
  destruct (Z.leb_spec (Z.of_nat n) 65535) as [H16|H16].
  - exists 126, (be_bytes 2 (Z.of_nat n)). split; [done|]. split.
    { change (reverse (seq 0 2)) with [1; 0]%nat. cbn [fmap list_fmap be_bytes app Nat.eqb]. rewrite !size_byte by lia.
      change (2 ^ (8 * Z.of_nat 0)) with 1. by rewrite Z.div_1_r. }
    split; [lia|]. intros s. apply (Hext 2%nat). lia.
  - exists 127, (be_bytes 8 (Z.of_nat n)). split; [done|]. split.
    { change (reverse (seq 0 8)) with [7; 6; 5; 4; 3; 2; 1; 0]%nat. cbn [fmap list_fmap be_bytes app Nat.eqb].
      rewrite !size_byte by lia. rewrite !Z.div_div by lia.
      change (2 ^ (8 * Z.of_nat 0)) with 1. by rewrite Z.div_1_r. }
    split; [lia|]. intros s. apply (Hext 8%nat). lia.
Qed.

Lemma frame_decodes op mask data rest : 0 ≤ op ≤ 15 → length mask = 4%nat → Z.of_nat (length data) < 2 ^ 63 →
  server_decode (frame_bytes op mask data ++ rest) = Some (op, data, rest).
Proof.
  intros Hop Hm Hd. destruct (size_bytes_field (length data) Hd) as (b & ext & _ & Hsize & Hb & Hdec).
  unfold frame_bytes, server_decode. rewrite Hsize, high_bit by lia. cbn [app].
  destruct (Z.leb_spec 128 (128 + op)), (Z.leb_spec 128 (128 + b)); try lia. cbn [andb].
  replace (128 + b - 128) with b by lia. rewrite <- !app_assoc, Hdec. cbn [mbind option_bind].
  pose proof (masked_length mask data) as Hlm.
  destruct (Nat.ltb_spec (length (mask ++ masked mask data ++ rest)) (4 + length data)) as [Hlt|_].
  { rewrite !length_app in Hlt. lia. }
  rewrite <- drop_drop, take_app_length', drop_app_length' by done. rewrite take_app_length', drop_app_length' by done.
  rewrite masked_masked. do 3 f_equal. lia.
Qed.

(** what [send] writes is one frame that the server reads back: on a live
    connection, for a text or binary message within the limit (valid UTF-8 if
    text), the frame on the wire is masked, complete, has the message's opcode
    and decodes to the message's bytes whatever the mask drawn. *)
Theorem send_frame random c ty data :
  ready c → (∀ k, length (random k) = 4%nat) → data_type ty →
  (length data ≤ max_message_size c)%nat → (ty = M_text → utf8 data = true) →
  ∃ f, send random ty data c = Some (Ret tt, written c f) ∧
    ∀ rest, server_decode (f ++ rest) = Some (type_number ty, data, rest).
Proof.
  intros [Hcon Hbusy [Hcs Hcr] _ Hmax] Hrand Hty Hlen Hutf.
  exists (frame_bytes (type_number ty) (random (drawn_ c)) data). split.
  - unfold send. rewrite require_then by (by destruct Hty as [->| ->]).
    change (pbind (gets (λ c, c)) ?k c) with (k c c). cbv beta. rewrite require_then.
    2:{ destruct (Nat.ltb_spec (max_message_size c) (length data)); [lia|].
        destruct Hty as [->| ->]; [by rewrite Hutf|done]. }
    unfold guarded. rewrite Hbusy, Hcon. cbn [negb]. change (pbind (gets (λ c, c)) ?k ?d) with (k d d). cbv beta.
    rewrite require_then by (cbn; by rewrite Hcs). cbn [frame]. unfold frame, written, set_busy. cbn. by rewrite Hbusy.
  - intros rest. apply frame_decodes; [|done|lia]. by destruct Hty as [->| ->].
Qed.

(** ** Receiving anything *)

(** The client took the bytes [s] from its input, and did nothing else. *)
Definition took (s : bytes) (c c' : client) : Prop :=
  left_over c = s ++ left_over c' ∧ c' = set_input c (input_ c').

Lemma took_refl c : took [] c c.
Proof. split; [done|by destruct c]. Qed.

Lemma took_trans s s' c1 c2 c3 : took s c1 c2 → took s' c2 c3 → took (s ++ s') c1 c3.
Proof. intros [Hl ->] [Hl' ->]. cbn in *. split; [by rewrite Hl, Hl', app_assoc|done]. Qed.

Lemma took_bytes s c c' : took s c c' → Forall is_byte (left_over c) → Forall is_byte s ∧ Forall is_byte (left_over c').
Proof. intros [-> _]. apply Forall_app. Qed.

(** Whatever happens, only input was taken; on a return the result and the bytes
    taken are as [P] says. *)
Definition taking {A} (c : client) (P : A → bytes → Prop) (r : result ws_error A) (c' : client) : Prop :=
  ∃ s, took s c c' ∧ match r with Ret a => P a s | Throw _ => True end.

Lemma wp_taking_bind {A B} (m : op A) (f : A → op B) (P : A → bytes → Prop) (P' : B → bytes → Prop) c :
  wp m (taking c P) c →
  (∀ a s c', P a s → took s c c' → wp (f a) (taking c' (λ b s', P' b (s ++ s'))) c') →
  wp (pbind m f) (taking c P') c.
Proof.
  intros Hm Hf. apply wp_bind. eapply wp_mono; [exact Hm|]. intros [a|e] c' (s & Ht & HP); [|by exists s].
  eapply wp_mono; [by eapply Hf|]. intros r c'' (s' & Ht' & H). exists (s ++ s'). split; [by eapply took_trans|done].
Qed.

Lemma wp_taking_octet c : wp octet (taking c (λ b s, s = [b])) c.
Proof.
  apply wp_octet; [intros _; exists []; split; [apply took_refl|done]|]. intros b cs H. exists [b]. done.
Qed.

Lemma wp_taking_require b e c : wp (require b e) (taking c (λ _ s, s = [] ∧ b = true)) c.
Proof. apply wp_require; intros H; exists []; (split; [apply took_refl|done]). Qed.

Lemma wp_taking_ret {A} (a : A) (P : A → bytes → Prop) c : P a [] → wp (pret a) (taking c P) c.
Proof. intros H. apply wp_ret. exists []. split; [apply took_refl|done]. Qed.

Lemma wp_taking_size w : ∀ v c, Forall is_byte (left_over c) → 0 ≤ v < 2 ^ (64 - 8 * Z.of_nat w) → (w ≤ 8)%nat →
  wp (read_size w v) (taking c (λ n s, length s = w ∧ n = be_value v s)) c.
Proof.
  induction w as [|w IH]; intros v c Hc Hv Hw; [by apply wp_taking_ret|]. cbn [read_size].
  eapply wp_taking_bind; [apply wp_taking_octet|]. intros b s c' -> Ht. destruct (took_bytes _ _ _ Ht Hc) as [Hb Hc']; rewrite Forall_singleton in Hb.
  assert (2 ^ (64 - 8 * Z.of_nat (S w)) ≤ 2 ^ 56) by (apply Z.pow_le_mono_r; lia).
  rewrite shift_in by (done || lia). unfold is_byte in Hb. eapply wp_mono; [apply IH; [done| |lia]|].
  - replace (64 - 8 * Z.of_nat w) with (64 - 8 * Z.of_nat (S w) + 8) by lia. rewrite Z.pow_add_r by lia. lia.
  - intros r c'' (s & Hs & HP). exists s. split; [done|]. destruct r; [|done]. destruct HP as [<- ->]. done.
Qed.

(** A big-endian number is written back with the bytes it was read from. *)
Lemma be_value_takes bs : Forall is_byte bs →
  be_bytes (length bs) (be_value 0 bs) = bs ∧ 0 ≤ be_value 0 bs < 256 ^ Z.of_nat (length bs).
Proof.
  induction bs as [|b bs IH] using rev_ind; intros H; [done|]. apply Forall_app in H as [Hbs Hb]; rewrite Forall_singleton in Hb. unfold is_byte in Hb.
  destruct (IH Hbs) as [E Hv]. unfold be_value in *. rewrite foldl_app, length_app, Nat.add_comm. cbn [foldl length Nat.add be_bytes].
  set (v := foldl _ 0 bs) in *. rewrite Z.div_add_l, (Z.div_small b), Z.add_0_r, E by lia. split.
  - do 2 f_equal. rewrite Z.add_comm, Z.mod_add, Z.mod_small; lia.
  - rewrite Nat2Z.inj_succ, Z.pow_succ_r by lia. lia.
Qed.

Lemma wp_taking_length size c : Forall is_byte (left_over c) → 0 ≤ size ≤ 127 →
  wp (read_length size) (taking c (λ n s, 0 ≤ n < 2 ^ 63 ∧ length_field (Z.to_nat n) = size :: s ∧ (size ≤ 125 → n = size))) c.
Proof.
  intros Hc Hs. unfold read_length, length_field. destruct (Z.eqb_spec size 126) as [E126|E126], (Z.eqb_spec size 127) as [E127|E127]; cbn [orb]; [lia|..].
  3:{ apply wp_taking_ret. split; [lia|]. split; [|done]. rewrite (proj2 (Nat.leb_le _ _)), Z2Nat.id by lia. done. }
  all: subst size; eapply wp_taking_bind; [apply wp_taking_size; [done|by vm_compute|lia]|]; intros n s c' [Hl ->] Ht.
  all: destruct (took_bytes _ _ _ Ht Hc) as [Hb _]; destruct (be_value_takes s Hb) as [E Hv]; rewrite Hl in E, Hv.
  all: eapply wp_taking_bind; [apply wp_taking_require|]; intros [] s' c'' [-> Hr] _; apply wp_taking_ret; rewrite app_nil_r.
  all: cbn [Nat.eqb andb orb negb] in Hr; set (n := be_value 0 s) in *.
  - change (256 ^ Z.of_nat 2) with 65536 in Hv. split; [lia|]. split; [|lia].
    rewrite (proj2 (Nat.leb_gt _ _)), Z2Nat.id, (proj2 (Z.leb_le _ _)), E by lia. done.
  - change (256 ^ Z.of_nat 8) with (2 ^ 64) in Hv. rewrite Z.shiftr_div_pow2 in Hr by lia.
    assert (n / 2 ^ 63 = 0) as Hz by lia. apply Z.div_small_iff in Hz; [|lia]. split; [lia|]. split; [|lia].
    rewrite (proj2 (Nat.leb_gt _ _)), Z2Nat.id, (proj2 (Z.leb_gt _ _)), E by lia. done.
Qed.

Lemma first_byte_back b : is_byte b → Z.land b 112 = 0 → b = first_byte (negb (Z.land b 128 =? 0)) (Z.land b 15).
Proof.
  intros Hb H. assert (implb (Z.land b 112 =? 0) (b =? first_byte (negb (Z.land b 128 =? 0)) (Z.land b 15)) = true) as E.
  { revert b Hb H. intros b Hb _. revert b Hb. apply all_bytes_spec. by vm_compute. }
  rewrite H in E. cbn [Z.eqb implb] in E. lia.
Qed.

Lemma second_byte_back b : is_byte b → Z.land b 128 = 0 → 0 ≤ b ≤ 127 ∧ Z.land b 127 = b.
Proof.
  intros Hb H. assert (implb (Z.land b 128 =? 0) (b <=? 127) = true) as E.
  { revert b Hb H. intros b Hb _. revert b Hb. apply all_bytes_spec. by vm_compute. }
  rewrite H in E. cbn [Z.eqb implb] in E. unfold is_byte in Hb. assert (0 ≤ b ≤ 127) as Hb' by lia. split; [done|]. by apply low_byte.
Qed.

(** A header [read_head] accepts is one the protocol allows, in its only encoding. *)
Definition head_ok (h : bool * Z * Z) (s : bytes) : Prop :=
  let '(fin, op, size) := h in
  known_opcode op = true ∧ (8 ≤ op → fin = true ∧ size ≤ 125) ∧ 0 ≤ size < 2 ^ 63 ∧
  s = first_byte fin op :: length_field (Z.to_nat size).

Lemma wp_taking_head c : Forall is_byte (left_over c) → wp read_head (taking c head_ok) c.
Proof.
  intros Hc. unfold read_head. eapply wp_taking_bind; [apply wp_taking_octet|]. intros first s1 c1 -> H1.
  destruct (took_bytes _ _ _ H1 Hc) as [Hb1 Hc1]; rewrite Forall_singleton in Hb1.
  eapply wp_taking_bind; [apply wp_taking_octet|]. intros second s2 c2 -> H2. destruct (took_bytes _ _ _ H2 Hc1) as [Hb2 Hc2]; rewrite Forall_singleton in Hb2. cbv zeta.
  eapply wp_taking_bind; [apply wp_taking_require|]. intros [] s3 c3 [-> Hflags] H3. destruct (took_bytes _ _ _ H3 Hc2) as [_ Hc3].
  apply andb_prop in Hflags as [Hflags Hop]. apply andb_prop in Hflags as [Hf%Z.eqb_eq Hs%Z.eqb_eq].
  destruct (second_byte_back second Hb2 Hs) as [Hr E2]. rewrite E2.
  eapply wp_taking_bind; [apply wp_taking_require|]. intros [] s4 c4 [-> Hctl] H4. destruct (took_bytes _ _ _ H4 Hc3) as [_ Hc4].
  eapply wp_taking_bind; [by apply wp_taking_length|]. intros size s5 c5 (Hn & El & Hsize) _. apply wp_taking_ret. cbn.
  rewrite app_nil_r, El, <- first_byte_back by done. split; [done|]. split; [|done]. intros H8.
  rewrite (proj2 (Z.leb_le _ _) H8) in Hctl. destruct (negb (Z.land first 128 =? 0)); [|done]. cbn in Hctl. split; [done|]. rewrite Hsize; lia.
Qed.

Lemma wp_taking_payload size c : wp (read_payload size) (taking c (λ p s, s = p ∧ length p = Z.to_nat size)) c.
Proof.
  unfold read_payload.
  assert (∀ fuel c (pre : bytes), Z.of_nat (length pre) ≤ Z.max 0 size → (length (left_over c) < fuel)%nat →
    wp (payload_loop fuel size pre) (taking c (λ p s, p = pre ++ s ∧ length p = Z.to_nat size)) c) as Hgen.
  { clear c. induction fuel as [|fuel IH]; intros c pre Hpre Hf; [lia|]. cbn [payload_loop].
    destruct (Z.ltb_spec (Z.of_nat (length pre)) size) as [Hlt|Hge]; [|apply wp_taking_ret; rewrite app_nil_r; split; [done|lia]].
    pose proof (take_some_concat (Z.to_nat (size - Z.of_nat (length pre))) (input_ c)) as H. unfold wp.
    destruct (take_some _ (input_ c)) as [[part cs]|].
    - destruct H as [Heq Hl]. specialize (Hl ltac:(lia)). rewrite Heq, length_app in Hf.
      destruct (IH (set_input c cs) (pre ++ part)) as (r & c' & Hr & s & Ht & HP); [rewrite length_app; lia|cbn; lia|].
      exists r, c'. split; [done|]. exists (part ++ s). split; [apply (took_trans part s c (set_input c cs)); [by split|done]|]. destruct r; [|done]. by rewrite app_assoc.
    - do 2 eexists. split; [done|]. exists []. split; [apply took_refl|done]. }
  destruct (Hgen (S (length (left_over c))) c []) as (r & c' & Hr & s & Ht & HP); [cbn; lia|lia|]. exists r, c'. split; [done|].
  exists s. split; [done|]. destruct r; [|done]. by destruct HP as [-> ?].
Qed.

(** The reassembly buffer is within the limit. *)
Definition bounded (c : client) : Prop :=
  (length (fragments_ c) ≤ max_message_size c)%nat ∧ Z.of_nat (max_message_size c) < 2 ^ 64 ∧
  ∀ t, fragment_type_ c = Some t → data_type t.

(** The payload a close event was read from. *)
Definition echoes (m : message) (payload : bytes) : Prop :=
  (length payload ≤ 125)%nat ∧
  match code m with
  | None => payload = [] ∧ data m = []
  | Some k => ∃ b0 b1, payload = b0 :: b1 :: data m ∧ k = Z.lor (Z.shiftl b0 8) b1 ∧
                       close_code k = true ∧ utf8 (data m) = true
  end.

Definition same_flags (c c' : client) : Prop :=
  connected c' = connected c ∧ busy_ c' = busy_ c ∧ close_sent_ c' = close_sent_ c ∧
  close_received_ c' = close_received_ c ∧ max_message_size c' = max_message_size c.

(** *** What a sequence of frames means *)

(** A frame of the server. *)
Record wframe := MkFrame { f_fin : bool; f_op : Z; f_payload : bytes }.

Definition wire (fs : list wframe) : bytes := concat ((λ w, server_frame (f_fin w) (f_op w) (f_payload w)) <$> fs).

Definition pings_of (fs : list wframe) : list bytes := f_payload <$> filter (λ w, f_op w = 9) fs.

(** A frame after which [receive] goes on: a ping, or a piece of a message that is not its last or
    that comes when the client has sent its close. *)
Definition passes (closing : bool) (w : wframe) : Prop :=
  f_op w = 9 ∨ (f_op w < 8 ∧ (f_fin w = true → closing = true)).

(** The message under assembly, the type it was begun with included. *)
Definition part_type (op : Z) (t : option message_type) : message_type :=
  if op =? 0 then default M_text t else if op =? 1 then M_text else M_binary.

Definition absorb (st : bytes * option message_type) (w : wframe) : bytes * option message_type :=
  if f_op w <? 8 then
    if f_fin w then ([], None) else (st.1 ++ f_payload w, Some (part_type (f_op w) st.2))
  else st.

(** The message that frame [w] completes when [st] was received before it. *)
Definition completes (closing : bool) (max : nat) (st : bytes * option message_type) (w : wframe) (m : message) : Prop :=
  if f_op w =? 10 then m = MkMessage M_pong (f_payload w) None ∧ (length (f_payload w) ≤ 125)%nat
  else if f_op w =? 8 then type m = M_close ∧ echoes m (f_payload w)
  else f_op w < 8 ∧ f_fin w = true ∧ closing = false ∧ (f_op w = 0 ↔ st.2 ≠ None) ∧
       m = MkMessage (part_type (f_op w) st.2) (st.1 ++ f_payload w) None ∧
       (length (data m) ≤ max)%nat ∧ (type m = M_text → utf8 (data m) = true).

Section safety.
Context (random : nat → bytes).

(** The client after a frame that [passes], but for its input. *)
Definition after (c : client) (w : wframe) : client :=
  if f_op w =? 9 then written c (frame_bytes 10 (random (drawn_ c)) (f_payload w))
  else let st := absorb (fragments_ c, fragment_type_ c) w in set_fragments c st.1 st.2.

(** The client after a frame that completes a message, but for its input. *)
Definition final (c : client) (w : wframe) : client :=
  if f_op w =? 10 then c
  else if f_op w =? 8 then
    let c1 := if close_sent_ c then c else written c (frame_bytes 8 (random (drawn_ c)) (f_payload w)) in
    disconnect (set_fragments (set_close c1 true true) [] (fragment_type_ c))
  else set_fragments c [] None.

(** A frame [receive] takes in. *)
Definition admitted (c : client) (w : wframe) : Prop :=
  known_opcode (f_op w) = true ∧ (8 ≤ f_op w → f_fin w = true ∧ (length (f_payload w) ≤ 125)%nat) ∧
  (f_op w < 8 → (length (fragments_ c) + length (f_payload w) ≤ max_message_size c)%nat ∧ (f_op w = 0 ↔ fragment_type_ c ≠ None)).

(** What [handle] does with a frame. *)
Definition handled (c : client) (w : wframe) (r : result ws_error (option message)) (c' : client) : Prop :=
  match r with
  | Throw _ => f_op w ≠ 9 ∧ ∃ f t, c' = set_fragments c f t ∧ bounded c'
  | Ret None => passes (close_sent_ c) w ∧ c' = after c w ∧ bounded c'
  | Ret (Some m) => completes (close_sent_ c) (max_message_size c) (fragments_ c, fragment_type_ c) w m ∧ c' = final c w ∧ bounded c'
  end.

Lemma wp_close_event p c : (length p ≤ 125)%nat →
  wp (close_event p) (λ r c', c' = c ∧ ∀ m, r = Ret m → type m = M_close ∧ echoes m p) c.
Proof.
  intros Hp. destruct p as [|b0 [|b1 p]]; cbn [close_event].
  - apply wp_ret. split; [done|]. intros m [= <-]. done.
  - by apply wp_throw.
  - apply wp_bind, wp_require; intros H; [|done]. apply wp_ret. split; [done|]. intros m [= <-]. split; [done|].
    split; [done|]. apply andb_prop in H as [? ?]. by exists b0, b1.
Qed.

Lemma handle_close c p : bounded c → (length p ≤ 125)%nat → wp (handle random true 8 p) (handled c (MkFrame true 8 p)) c.
Proof.
  intros (Hb1 & Hb2 & Hb3) Hp. unfold handle. cbn [Z.eqb Pos.eqb]. apply wp_bind. eapply wp_mono; [by apply wp_close_event|].
  intros [m|e] c' [-> Hm].
  2:{ split; [done|]. exists (fragments_ c), (fragment_type_ c). split; [by destruct c|done]. }
  destruct (Hm m eq_refl) as [Hty Hecho]. apply wp_bind, wp_gets, wp_bind.
  assert (bounded (final c (MkFrame true 8 p))) as Hbf by (unfold final; destruct c as [? ? ? [] ? ? ? ? ? ?]; cbn in *; (split; [cbn; lia|done])).
  unfold final in Hbf. cbn [f_op f_payload Z.eqb Pos.eqb] in Hbf. unfold handled, completes, final. cbn [f_op f_payload Z.eqb Pos.eqb].
  destruct (close_sent_ c) eqn:Hcs.
  - apply wp_ret. by apply wp_bind, wp_modify, wp_ret.
  - do 2 eexists. split; [reflexivity|]. by apply wp_bind, wp_modify, wp_ret.
Qed.

Lemma handle_data c fin op p : bounded c → op < 8 → admitted c (MkFrame fin op p) →
  wp (handle random fin op p) (handled c (MkFrame fin op p)) c.
Proof.
  intros (Hb1 & Hb2 & Hb3) H8 (Hop & _ & Hin). destruct (Hin H8) as [Hlen H0]. cbn [f_op f_payload f_fin] in *. unfold handle.
  assert ((op =? 9) = false ∧ (op =? 10) = false ∧ (op =? 8) = false ∧ (op <? 8) = true) as (E9 & E10 & E8 & Elt) by lia. rewrite E9, E10, E8.
  set (ty := part_type op (fragment_type_ c)).
  assert (data_type ty) as Hty.
  { unfold ty, part_type, data_type. destruct (Z.eqb_spec op 0) as [->|]; [|destruct (op =? 1); auto].
    destruct (fragment_type_ c) as [t|] eqn:Hft; [by apply Hb3|tauto]. }
  assert (begin_fragment op c = Some (Ret tt, set_fragments c (fragments_ c) (Some ty))) as Hstart.
  { unfold begin_fragment, ty, part_type. destruct (Z.eqb_spec op 0) as [->|Hne]; [|done].
    destruct (fragment_type_ c) as [t|] eqn:Hft; [|tauto]. cbn. rewrite <- Hft. by destruct c. }
  apply wp_bind. do 2 eexists. split; [exact Hstart|]. cbv beta iota. apply wp_bind, wp_modify. cbn [set_fragments fragments_ fragment_type_].
  set (c1 := set_fragments _ _ _). unfold handled, after, final, completes, absorb, passes. cbn [f_op f_payload f_fin]. rewrite E9, E10, E8, Elt.
  destruct fin; cbn [negb].
  2:{ apply wp_ret. split; [by right|]. split; [done|]. split; [cbn; rewrite length_app; lia|]. split; [done|]. intros t [= <-]. done. }
  assert (bounded (set_fragments c1 [] None)) as Hbe by (split; [cbn; lia|done]).
  apply wp_bind, wp_gets, wp_bind, wp_modify. cbn [type data]. change (default M_text (fragment_type_ c1)) with ty.
  change (fragments_ c1) with (fragments_ c ++ p). change (close_sent_ c1) with (close_sent_ c). apply wp_bind, wp_require; intros Hu.
  - apply wp_ret. destruct (close_sent_ c) eqn:Hcs.
    + split; [by right|]. done.
    + split; [|done]. split_and!; [lia|done|done|done|done|cbn; rewrite length_app; cbn; lia|]. cbn [type data snd]. intros Ht. rewrite bool_decide_true in Hu by done. destruct (utf8 (fragments_ c ++ p)); done.
  - split; [lia|]. by exists [], None.
Qed.

Lemma wp_handle c w : bounded c → admitted c w → wp (handle random (f_fin w) (f_op w) (f_payload w)) (handled c w) c.
Proof.
  destruct w as [fin op p]. intros Hb Ha. pose proof Ha as (Hop & Hctl & _). cbn [f_op f_payload f_fin] in *.
  destruct (Z.lt_ge_cases op 8) as [H8|H8]; [by apply handle_data|]. destruct (Hctl H8) as [-> Hp].
  destruct (known_opcode_cases op Hop) as [H|[H|[H|[H|[H|H]]]]]; try lia; subst op.
  - by apply handle_close.
  - do 2 eexists. split; [reflexivity|]. split; [by left|done].
  - do 2 eexists. split; [reflexivity|]. split; [done|]. done.
Qed.

Lemma wp_check op size c : bounded c →
  wp (check_fragment op size)
     (taking c (λ _ s, s = [] ∧ (op < 8 → size ≤ Z.of_nat (max_message_size c - length (fragments_ c)) ∧
                               (op = 0 ↔ fragment_type_ c ≠ None)))) c.
Proof.
  intros (Hb1 & Hb2 & _). unfold check_fragment. destruct (Z.leb_spec 8 op); [apply wp_taking_ret; split; [done|lia]|].
  apply wp_bind, wp_gets. eapply wp_taking_bind; [apply wp_taking_require|]. intros [] s c' [-> Hft] Hc.
  eapply wp_mono; [apply wp_taking_require|]. intros r c'' (s & Ht & HP). exists s. split; [done|]. destruct r; [|done].
  destruct HP as [-> Hsize]. rewrite size_sub_small in Hsize by lia. split; [done|]. intros _. split; [by apply Z.leb_le|].
  destruct (Z.eqb_spec op 0); cbn in Hft; case_bool_decide; naive_solver.
Qed.

(** One turn of the loop: it stopped inside a frame, or took one in and handled it. *)
Lemma wp_step c : bounded c → Forall is_byte (left_over c) →
  wp (receive_step random) (λ r c', (∃ e s, r = Throw e ∧ took s c c') ∨
    ∃ w c1, took (wire [w]) c c1 ∧ admitted c1 w ∧ bounded c1 ∧ handled c1 w r c' ∧ input_ c' = input_ c1) c.
Proof.
  intros Hb Hc. unfold receive_step. apply wp_bind. eapply wp_mono; [by apply wp_taking_head|]. intros [[[fin op] size]|e] c1 (s1 & H1 & Hh).
  2:{ left. eauto. }
  destruct Hh as (Hop & Hctl & Hsz & ->). apply wp_bind. assert (bounded c1) as Hb1 by (destruct H1 as [_ ->]; exact Hb).
  eapply wp_mono; [by apply wp_check|]. intros [[]|e] c2 (s2 & H2 & Hk).
  2:{ left. eauto using took_trans. }
  destruct Hk as [-> Hck]. pose proof (took_trans _ _ _ _ _ H1 H2) as H12. apply wp_bind. eapply wp_mono; [apply wp_taking_payload|]. intros [p|e] c3 (s3 & H3 & Hp).
  2:{ left. eauto using took_trans. }
  destruct Hp as [-> Hp]. pose proof (took_trans _ _ _ _ _ H12 H3) as H13. set (w := MkFrame fin op p).
  assert (took (wire [w]) c c3) as Hw.
  { unfold wire, server_frame. cbn. rewrite Hp, app_nil_r. rewrite app_nil_r in H13. exact H13. }
  assert (bounded c3) as Hb3 by (destruct H13 as [_ ->]; exact Hb).
  assert (admitted c3 w) as Ha.
  { split; [done|]. cbn [w f_op f_fin f_payload]. split; [intros H; destruct (Hctl H); split; [done|lia]|]. intros H. destruct (Hck H) as [Hs Ht].
    destruct H2 as [_ E2], H3 as [_ E3], Hb1 as [Hb1 _]. rewrite E3, E2. cbn. split; [lia|done]. }
  eapply wp_mono; [by apply (wp_handle c3 w)|]. intros r c' Hr. right. exists w, c3. split_and!; [done..|].
  destruct r as [[m|]|e].
  - destruct Hr as (_ & -> & _). unfold final. by destruct (f_op w =? 10), (f_op w =? 8), (close_sent_ c3).
  - destruct Hr as (_ & -> & _). unfold after. by destruct (f_op w =? 9).
  - by destruct Hr as (_ & f & t & -> & _).
Qed.

(** *** A run of frames *)

(** The client took in the frames [fs], going on after each. *)
Definition passed (c : client) (fs : list wframe) (c' : client) : Prop :=
  left_over c = wire fs ++ left_over c' ∧ Forall (passes (close_sent_ c)) fs ∧ c' = set_input (foldl after c fs) (input_ c') ∧ bounded c'.

Lemma after_input c cs w : after (set_input c cs) w = set_input (after c w) cs.
Proof. unfold after. by destruct (f_op w =? 9). Qed.

Lemma after_flags c w : same_flags c (after c w).
Proof. unfold after. by destruct (f_op w =? 9). Qed.

Lemma passed_refl c : bounded c → passed c [] c.
Proof. intros Hb. split_and!; [done|done|by destruct c|done]. Qed.

Lemma foldl_after_input fs : ∀ c cs, foldl after (set_input c cs) fs = set_input (foldl after c fs) cs.
Proof. induction fs as [|w fs IH]; intros c cs; [done|]. cbn. by rewrite after_input, IH. Qed.

Lemma passed_cons c w c1 c2 fs c' : took (wire [w]) c c1 → passes (close_sent_ c) w → c2 = after c1 w → passed c2 fs c' → passed c (w :: fs) c'.
Proof.
  intros [Hl ->] Hw -> (Hl' & Hf & E & Hb). pose proof (after_flags c w) as (_ & _ & Hcs & _). rewrite after_input in *. cbn [set_input input_ close_sent_] in Hl', Hf, E. split_and!; [| |by rewrite foldl_after_input in E|done].
  - rewrite Hl, Hl'. change (w :: fs) with ([w] ++ fs). unfold wire. by rewrite fmap_app, concat_app, app_assoc.
  - rewrite Hcs in Hf. by constructor.
Qed.

(** What the client wrote and holds after it. *)
Lemma passed_fields c fs c' : passed c fs c' → same_flags c c' ∧
  output_ c' = output_ c ++ pongs random (drawn_ c) (pings_of fs) ∧ drawn_ c' = (drawn_ c + length (pings_of fs))%nat ∧
  (fragments_ c', fragment_type_ c') = foldl absorb (fragments_ c, fragment_type_ c) fs.
Proof.
  intros (_ & Hp & -> & _). generalize (input_ c') as cs. clear c'. intros cs. generalize dependent c.
  induction fs as [|w fs IH]; intros c Hp; [cbn; by rewrite app_nil_r, Nat.add_0_r|]. apply Forall_cons in Hp as [Hw Hp].
  pose proof (after_flags c w) as (F1 & F2 & F3 & F4 & F5). destruct (IH (after c w)) as ((G1 & G2 & G3 & G4 & G5) & Ho & Hd & Ha); [by rewrite F3|].
  cbn [foldl]. split; [split_and!; congruence|]. rewrite Ho, Hd, Ha. unfold pings_of. rewrite filter_cons. unfold after. destruct (Z.eqb_spec (f_op w) 9) as [E|E].
  - rewrite decide_True by done. cbn. rewrite <- app_assoc. split_and!; [done|lia|]. unfold absorb at 3. by rewrite E.
  - rewrite decide_False by done. cbn. split_and!; [done|done|]. by rewrite <- surjective_pairing.
Qed.

(** [receive] stopped in the frame that comes next, which is not a ping. *)
Definition stopped (c c' : client) : Prop :=
  (∀ p rest, (length p ≤ 125)%nat → left_over c ≠ server_frame true 9 p ++ rest) ∧
  (∃ s, left_over c = s ++ left_over c') ∧ (∃ f t, c' = set_fragments (set_input c (input_ c')) f t) ∧ bounded c'.

(** A ping is taken in. *)
Lemma ping_step c p rest : bounded c → (length p ≤ 125)%nat → left_over c = server_frame true 9 p ++ rest →
  ∃ c', receive_step random c = Some (Ret None, c').
Proof.
  intros (_ & Hm & _) Hp Hc. destruct (step_frame random c true 9 p rest Hc) as (cs & _ & E); [done|done|lia|left; lia|done|].
  rewrite E. eexists. reflexivity.
Qed.

(** How the loop ends. *)
Definition ended (c : client) (r : result ws_error (option message)) (c' : client) : Prop :=
  ∃ fs c1, passed c fs c1 ∧
  match r with
  | Throw _ => stopped c1 c'
  | Ret None => False
  | Ret (Some m) => ∃ w, left_over c1 = wire [w] ++ left_over c' ∧ bounded c' ∧
      completes (close_sent_ c1) (max_message_size c1) (fragments_ c1, fragment_type_ c1) w m ∧ c' = set_input (final c1 w) (input_ c')
  end.

Lemma ended_cons c w c1 c2 r c' : took (wire [w]) c c1 → passes (close_sent_ c) w → c2 = after c1 w → ended c2 r c' → ended c r c'.
Proof. intros Ht Hw E (fs & c3 & Hp & H). exists (w :: fs), c3. split; [by eapply passed_cons|done]. Qed.

Lemma final_input c cs w : final (set_input c cs) w = set_input (final c w) cs.
Proof. unfold final. cbn. destruct (f_op w =? 10), (f_op w =? 8), (close_sent_ c); done. Qed.

Lemma step_stops c e c' : bounded c → receive_step random c = Some (Throw e, c') →
  ((∃ e' s, @Throw ws_error (option message) e = Throw e' ∧ took s c c') ∨
   ∃ w c1, took (wire [w]) c c1 ∧ admitted c1 w ∧ bounded c1 ∧ handled c1 w (Throw e) c' ∧ input_ c' = input_ c1) → stopped c c'.
Proof.
  intros Hb Hr H. split.
  { intros p rest Hp Hc. destruct (ping_step c p rest Hb Hp Hc) as (? & E). by rewrite E in Hr. }
  destruct H as [(_ & s & _ & Ht)|(w & c1 & Ht & _ & _ & (_ & f & t & -> & Hb') & _)].
  - destruct Ht as [Hl ->]. split; [by exists s|]. split; [|exact Hb]. exists (fragments_ c), (fragment_type_ c). by destruct c.
  - destruct Ht as [Hl E]. split; [by exists (wire [w])|]. split; [|done]. exists f, t. by rewrite E at 1.
Qed.

Lemma wp_loop fuel : ∀ c, bounded c → Forall is_byte (left_over c) → (length (left_over c) < fuel)%nat →
  wp (receive_loop random fuel) (ended c) c.
Proof.
  induction fuel as [|fuel IH]; intros c Hb Hc Hf; [lia|]. cbn [receive_loop]. apply wp_bind.
  destruct (wp_step c Hb Hc) as (r & c2 & Hr & H). exists r, c2. split; [done|]. destruct r as [[m|]|e].
  - apply wp_ret. destruct H as [(? & ? & ? & _)|(w & c1 & Ht & Ha & Hb1 & (Hm & -> & Hb2) & Hi)]; [done|]. exists [], c. split; [by apply passed_refl|].
    destruct Ht as [Hl E]. rewrite E in *. exists w. rewrite Hi. split; [done|]. split; [done|]. split; [done|]. by rewrite final_input.
  - destruct H as [(? & ? & ? & _)|(w & c1 & Ht & Ha & Hb1 & (Hp & -> & Hb2) & Hi)]; [done|]. pose proof Ht as [Hl E].
    destruct (took_bytes _ _ _ Ht Hc) as [_ Hc1]. pose proof (server_frame_length (f_fin w) (f_op w) (f_payload w)) as Hw.
    assert (close_sent_ c1 = close_sent_ c) as Hcs by (by rewrite E). rewrite <- Hi in Hl, Hc1. rewrite Hl, length_app in Hf. unfold wire in Hf. cbn in Hf. rewrite app_nil_r in Hf.
    eapply wp_mono; [apply IH; [done|done|lia]|]. intros r c' He. eapply ended_cons; [done| |done|done]. by rewrite <- Hcs.
  - exists [], c. split; [by apply passed_refl|]. by eapply step_stops.
Qed.
End safety.

(** C16: [receive] does what the frames in its input say, whatever bytes the server sends and
    however they arrive. It always ends. A message is returned after the frames [fs] that do not
    end a message (pings and pieces) and the frame [w] that completes it: exactly these frames
    are taken from the input; the client wrote one pong per ping of [fs], in order and with its
    payload, and after them the echo of a close if it had not sent one; the message is the pong, the
    close or the pieces put together, with its type, a legal size and valid text; and no data
    message is returned once a close was sent. On an exception the frames [fs] before the one that
    failed were answered in the same way, that one was not a ping, and the connection is closed.
    [nullopt] is returned only after a close was received. In all cases the reassembly buffer
    stays within [max_message_size]. *)
Theorem receive_safe random c : bounded c → busy_ c = false → Forall is_byte (left_over c) →
  ∃ r c', receive random c = Some (r, c') ∧ bounded c' ∧ busy_ c' = false ∧
    match r with
    | Ret None => close_received_ c = true ∧ c' = c
    | Throw _ => connected c' = false ∧
        (connected c = false ∧ c' = c ∨
         ∃ fs rest, left_over c = wire fs ++ rest ∧ Forall (passes (close_sent_ c)) fs ∧
           (∀ p rest', (length p ≤ 125)%nat → rest ≠ server_frame true 9 p ++ rest') ∧
           (∃ s, rest = s ++ left_over c') ∧ output_ c' = output_ c ++ pongs random (drawn_ c) (pings_of fs))
    | Ret (Some m) => connected c = true ∧
        ∃ fs w, left_over c = wire (fs ++ [w]) ++ left_over c' ∧ Forall (passes (close_sent_ c)) fs ∧
          let st := foldl absorb (fragments_ c, fragment_type_ c) fs in let ps := pings_of fs in
          completes (close_sent_ c) (max_message_size c) st w m ∧
          if f_op w =? 8 then
            connected c' = false ∧ close_sent_ c' = true ∧ close_received_ c' = true ∧ fragments_ c' = [] ∧
            output_ c' = output_ c ++ pongs random (drawn_ c) ps ++
              (if close_sent_ c then [] else [frame_bytes 8 (random (drawn_ c + length ps)%nat) (f_payload w)])
          else same_flags c c' ∧ output_ c' = output_ c ++ pongs random (drawn_ c) ps ∧
            (fragments_ c', fragment_type_ c') = absorb st w
    end.
Proof.
  intros Hb Hbusy Hc. unfold receive. destruct (close_received_ c) eqn:Hcr; [by exists (Ret None), c|].
  unfold guarded. rewrite Hbusy. destruct (connected c) eqn:Hcon; cbn [negb].
  2:{ do 2 eexists. split; [reflexivity|]. split; [done|]. split; [done|]. split; [done|]. by left. }
  destruct (wp_loop random (S (length (left_over (set_busy c true)))) (set_busy c true)) as (r & c' & Hr & fs & c1 & Hp & H); [done|done|lia|].
  cbv beta. change (left_over (set_busy c true)) with (left_over c) in *. rewrite Hr.
  pose proof Hp as (Hl & Hfs & _ & Hb1). destruct (passed_fields _ _ _ _ Hp) as ((F1 & F2 & F3 & F4 & F5) & Ho & Hd & Hst).
  cbn in Hl, Hfs, F1, F3, F4, F5, Ho, Hd, Hst. destruct r as [[m|]|e]; [|done|].
  - destruct H as (w & Hl1 & Hb' & Hm & E). do 2 eexists. split; [reflexivity|]. split; [exact Hb'|]. split; [done|]. split; [done|].
    exists fs, w. split; [unfold wire in *; rewrite fmap_app, concat_app, <- app_assoc; cbn in *; by rewrite Hl, Hl1|]. split; [done|].
    cbv zeta. rewrite <- Hst, <- F3, <- F5. split; [done|]. rewrite E. unfold final, absorb. unfold completes in Hm.
    destruct (Z.eqb_spec (f_op w) 10) as [E10|E10]; [rewrite E10; cbn; rewrite Ho; unfold same_flags; cbn; split_and!; congruence|].
    destruct (Z.eqb_spec (f_op w) 8) as [E8|E8].
    + cbn. rewrite <- Hd. destruct (close_sent_ c1); cbn; rewrite Ho, ?app_nil_r, <- ?app_assoc; done.
    + destruct Hm as (Hlt & -> & _). rewrite (proj2 (Z.ltb_lt _ _) Hlt). unfold same_flags. cbn. rewrite Ho. split_and!; congruence.
  - destruct H as (Hnp & (s & Hs) & (f & t & E) & Hb'). do 2 eexists. split; [reflexivity|]. split; [exact Hb'|]. split; [done|]. split; [done|].
    right. exists fs, (left_over c1). split_and!; [done..|by exists s|]. rewrite E. cbn. by rewrite Ho.
Qed.

(** ** Base 64 *)

Fixpoint index_from (i : Z) (c : Z) (l : bytes) : option Z :=
  match l with
  | [] => None
  | d :: l' => if c =? d then Some i else index_from (i + 1) c l'
  end.

(** The value of a letter. *)
Definition letter_value (c : Z) : option Z := index_from 0 c alphabet.

Definition pad : Z := ch "=".

(** Reading base 64 back (RFC 4648): four letters are three bytes, and padding
    only ends the text. *)
Fixpoint base64_decode (s : bytes) : option bytes :=
  match s with
  | [] => Some []
  | c0 :: c1 :: c2 :: c3 :: s' =>
      v0 ← letter_value c0; v1 ← letter_value c1;
      if c2 =? pad then
        if (c3 =? pad) && bool_decide (s' = []) then Some [v0 * 4 + v1 / 16] else None
      else
        v2 ← letter_value c2;
        if c3 =? pad then
          if bool_decide (s' = []) then Some [v0 * 4 + v1 / 16; v1 mod 16 * 16 + v2 / 4] else None
        else
          v3 ← letter_value c3;
          rest ← base64_decode s';
          Some (v0 * 4 + v1 / 16 :: v1 mod 16 * 16 + v2 / 4 :: v2 mod 4 * 64 + v3 :: rest)
  | _ => None
  end.

Lemma letter_ok n : letter_value (letter n) = Some (n mod 64) ∧ (letter n =? pad) = false.
Proof.
  unfold letter. change 63 with (2 ^ 6 - 1). rewrite land_ones_mod by lia. change (2 ^ 6) with 64.
  assert (is_byte (n mod 64) ∧ n mod 64 < 64) as [Hb Hlt].
  { unfold is_byte. pose proof (Z.mod_pos_bound n 64). lia. }
  assert (implb (n mod 64 <? 64)
    (bool_decide (letter_value (default 0 (alphabet !! Z.to_nat (n mod 64))) = Some (n mod 64))
     && negb (default 0 (alphabet !! Z.to_nat (n mod 64)) =? pad)) = true) as H.
  { clear Hlt. revert Hb. generalize (n mod 64). apply all_bytes_spec. by vm_compute. }
  destruct (Z.ltb_spec (n mod 64) 64); [|lia]. cbn [implb] in H. apply andb_prop in H as [H1 H2].
  apply bool_decide_eq_true in H1. split; [done|]. by destruct (_ =? pad).
Qed.

Lemma letter_code n : letter_value (letter n) = Some (n mod 64).
Proof. apply letter_ok. Qed.

Lemma letter_pad n : (letter n =? pad) = false.
Proof. apply letter_ok. Qed.

(** The three bytes of a group as one number, and its four letters. *)
Lemma group_arith b0 b1 b2 : is_byte b0 → is_byte b1 → is_byte b2 →
  let n := b0 * 65536 + b1 * 256 + b2 in
  Z.lor (Z.lor (Z.shiftl b0 16) (Z.shiftl b1 8)) b2 = n ∧
  n / 2 ^ 18 mod 64 * 4 + n / 2 ^ 12 mod 64 / 16 = b0 ∧
  n / 2 ^ 12 mod 64 mod 16 * 16 + n / 2 ^ 6 mod 64 / 4 = b1 ∧
  n / 2 ^ 6 mod 64 mod 4 * 64 + n mod 64 = b2.
Proof.
  unfold is_byte. intros H0 H1 H2. cbv zeta. split.
  2:{ change (2 ^ 18) with 262144. change (2 ^ 12) with 4096. change (2 ^ 6) with 64.
      split_and!; Z.to_euclidean_division_equations; lia. }
  rewrite (lor_shiftl_add b0) by (rewrite ?Z.shiftl_mul_pow2 by lia; lia). rewrite Z.shiftl_mul_pow2 by lia.
  replace (b0 * 2 ^ 16 + b1 * 2 ^ 8) with (Z.shiftl (b0 * 256 + b1) 8) by (rewrite Z.shiftl_mul_pow2 by lia; lia).
  rewrite lor_shiftl_add by lia. lia.
Qed.

Lemma decode_group3 b0 b1 b2 s : is_byte b0 → is_byte b1 → is_byte b2 →
  base64_decode (base64_group b0 [b1; b2] ++ s) = rest ← base64_decode s; Some (b0 :: b1 :: b2 :: rest).
Proof.
  intros H0 H1 H2. destruct (group_arith b0 b1 b2 H0 H1 H2) as (Hn & E0 & E1 & E2). unfold base64_group. rewrite Hn.
  rewrite !Z.shiftr_div_pow2 by lia. cbn [app base64_decode].
  rewrite !letter_code, ?letter_pad.
  cbn [mbind option_bind]. by rewrite E0, E1, E2.
Qed.

Lemma decode_group2 b0 b1 : is_byte b0 → is_byte b1 → base64_decode (base64_group b0 [b1]) = Some [b0; b1].
Proof.
  intros H0 H1. destruct (group_arith b0 b1 0 H0 H1) as (Hn & E0 & E1 & _); [done|]. rewrite Z.lor_0_r in Hn.
  unfold base64_group. rewrite Hn. rewrite !Z.shiftr_div_pow2 by lia. cbn [base64_decode]. fold pad. rewrite Z.eqb_refl.
  rewrite !letter_code, ?letter_pad.
  cbn [mbind option_bind]. by rewrite E0, E1.
Qed.

Lemma decode_group1 b0 : is_byte b0 → base64_decode (base64_group b0 []) = Some [b0].
Proof.
  intros H0. destruct (group_arith b0 0 0 H0) as (Hn & E0 & _); [done|done|]. rewrite !Z.lor_0_r in Hn.
  unfold base64_group. rewrite Hn. rewrite !Z.shiftr_div_pow2 by lia. cbn [base64_decode]. fold pad. rewrite Z.eqb_refl.
  rewrite !letter_code.
  cbn [mbind option_bind andb]. by rewrite E0.
Qed.

(** [base64] loses nothing: its text is four characters for each three bytes
    or part of three, and decodes to the bytes it was made from. *)
Theorem base64_roundtrip bs : Forall is_byte bs →
  base64_decode (base64 bs) = Some bs ∧ length (base64 bs) = (4 * ((length bs + 2) / 3))%nat.
Proof.
  remember (length bs) as n eqn:Hn. revert bs Hn. induction n as [n IH] using lt_wf_ind. intros bs -> Hb.
  destruct bs as [|b0 [|b1 [|b2 bs]]]; split_Forall.
  - done.
  - split; [by apply decode_group1|done].
  - split; [by apply decode_group2|done].
  - destruct (IH (length bs) ltac:(cbn; lia) bs eq_refl) as [Hd Hl]; [done|]. cbn [base64]. split.
    + rewrite decode_group3, Hd by done. done.
    + rewrite length_app, Hl. cbn [length base64_group].
      replace (S (S (S (length bs))) + 2)%nat with (length bs + 2 + 1 * 3)%nat by lia. rewrite Nat.div_add by lia. lia.
Qed.

Lemma base64_roundtrip_witness :
  base64_decode (base64 (str "any carnal pleas")) = Some (str "any carnal pleas")
  ∧ length (base64 (str "any carnal pleas")) = 24%nat.
Proof. apply (base64_roundtrip (str "any carnal pleas")). apply str_is_bytes. Defined.

(** The handshake of RFC 6455, 1.3. *)
Example accept_key_rfc : accept_key (str "dGhlIHNhbXBsZSBub25jZQ==") = str "s3pPLMBiTxaQ9kYGzzhZRbK+xOo=".
Proof. by vm_compute. Qed.

(** ** Witnesses *)

(** A connected client that will be sent [input]. *)
Definition fresh (max : nat) (input : list bytes) : client :=
  MkClient max true false false false [] None input [] 0.

Definition some_mask (k : nat) : bytes := [1; 2; Z.of_nat k; 4].

(** A text in two frames with a ping before the second, delivered in scraps. *)
Definition hello_segments : list segment := [MkSegment [] (str "Hel"); MkSegment [str "?"] (str "lo")].

Definition hello_client : client :=
  fresh 1024 [[1; 3; 72]; []; [101; 108; 137]; [1; 63; 128; 2; 108]; [111; 7]].

Lemma hello_bytes : Forall is_byte (left_over hello_client).
Proof. cbn. repeat constructor; unfold is_byte; lia. Qed.

Lemma hello_ready : ready hello_client.
Proof. by split. Qed.

Lemma receive_delivers_witness :
  ∃ cs, concat cs = [7] ∧
    receive some_mask hello_client
    = Some (Ret (Some (MkMessage M_text (str "Hello") None)),
            sent (set_input hello_client cs) [frame_bytes 10 (some_mask 0) (str "?")]).
Proof.
  apply (receive_delivers some_mask hello_client M_text hello_segments [7]).
  - apply hello_ready.
  - by left.
  - done.
  - repeat (apply Forall_cons_2; [repeat (apply Forall_cons_2; [cbn; lia|]); apply Forall_nil_2|]). apply Forall_nil_2.
  - cbn. lia.
  - done.
  - reflexivity.
Defined.

Lemma send_frame_witness :
  ∃ f, send some_mask M_text (str "Hello") hello_client = Some (Ret tt, written hello_client f) ∧
    ∀ rest, server_decode (f ++ rest) = Some (1, str "Hello", rest).
Proof.
  apply (send_frame some_mask hello_client M_text (str "Hello")).
  - apply hello_ready.
  - done.
  - by left.
  - cbn. lia.
  - done.
Defined.

Lemma receive_safe_witness : ∃ m c', receive some_mask hello_client = Some (Ret (Some m), c') ∧ bounded c' ∧
  ∃ fs w, left_over hello_client = wire (fs ++ [w]) ++ left_over c' ∧
    completes false (max_message_size hello_client) (foldl absorb ([], None) fs) w m.
Proof.
  destruct (receive_safe some_mask hello_client) as (r & c' & E & Hb & _ & H);
    [split; [cbn; lia|done]|done|by apply hello_bytes|].
  destruct r as [[m|]|e].
  - exists m, c'. destruct H as (_ & fs & w & Hl & _ & Hm & _). split; [exact E|]. split; [exact Hb|]. by exists fs, w.
  - destruct H as [H _]. vm_compute in H. discriminate H.
  - vm_compute in E. discriminate E.
Defined.
