(* ===== verification/Json.v ===== *)
(** * JSON tokens (src/src/nxt/json.hpp)

    The string writer and the token reader. The reader is the [string_reader]
    instance of the [Reader] template; a coroutine of it is a function from the
    reader to the value it returns and the reader it leaves. *)
From S2P Require Import Prelude Unicode.
#[local] Open Scope Z_scope.

Module Tokens.

(** [parse_error], one constructor per message. *)
Inductive parse_error :=
| unexpected_end (context : string)
| invalid_unicode_escape
| control_character
| missing_low_surrogate
| invalid_low_surrogate
| unpaired_low_surrogate
| invalid_string_escape
| expected_json_string
| invalid_json_token.

Record string_reader := MkReader { input : bytes; offset : nat }.

(** A reading coroutine; [None] is a loop that ran out of fuel. *)
Definition json (A : Type) : Type :=
  string_reader → option (result parse_error (A * string_reader)).

Definition jret {A} (a : A) : json A := λ r, Some (Ret (a, r)).

Definition jthrow {A} (e : parse_error) : json A := λ r, Some (Throw e).

Definition jbind {A B} (m : json A) (k : A → json B) : json B := λ r,
  match m r with
  | None => None
  | Some (Throw e) => Some (Throw e)
  | Some (Ret (a, r')) => k a r'
  end.

Notation "x <- m ;; k" := (jbind m (λ x, k))
  (at level 100, m at next level, right associativity) : nxt_scope.

Definition peek : json (option Z) := λ r,
  if (length (input r) <=? offset r)%nat then Some (Ret (None, r))
  else Some (Ret (input r !! offset r, r)).

Definition take : json (option Z) := λ r,
  if (length (input r) <=? offset r)%nat then Some (Ret (None, r))
  else Some (Ret (input r !! offset r, MkReader (input r) (S (offset r)))).

Inductive token_kind :=
| object_begin | object_end | array_begin | array_end | colon | comma
| k_string | k_number | k_boolean | k_null.

Record token := MkToken { kind : token_kind; text : bytes; boolean : bool }.

(** ** Writer: the text each call appends *)

Definition hex_digit (v : Z) : Z := default 0 (str "0123456789abcdef" !! Z.to_nat v).

Definition escape_char (c : Z) : bytes :=
  if c =? dquote then [backslash; dquote]
  else if c =? backslash then [backslash; backslash]
  else if c =? 8 then [backslash; ch "b"]
  else if c =? 12 then [backslash; ch "f"]
  else if c =? 10 then [backslash; ch "n"]
  else if c =? 13 then [backslash; ch "r"]
  else if c =? 9 then [backslash; ch "t"]
  else if c <? 0x20 then
    [backslash; ch "u"; ch "0"; ch "0"; hex_digit (Z.shiftr c 4); hex_digit (Z.land c 0xf)]
  else [c].

Definition write_string (out : bytes) (text : bytes) : bytes :=
  out ++ [dquote] ++ concat (escape_char <$> text) ++ [dquote].

Definition write_key (out name : bytes) : bytes := write_string out name ++ [ch ":"].

Definition write_boolean (out : bytes) (value : bool) : bytes :=
  out ++ (if value then str "true" else str "false").

Definition write_number (out : bytes) (value : Z) : bytes := out ++ to_string value.

Definition write_raw (out text : bytes) : bytes := out ++ text.

Definition write_character (out : bytes) (c : Z) : bytes := out ++ [c].

(** ** Reader *)

Definition make_token (k : token_kind) : token := MkToken k [] false.

Definition make_text_token (k : token_kind) (t : bytes) : token := MkToken k t false.

Definition make_bool_token (value : bool) : token := MkToken k_boolean [] value.

Definition hex_value (c : Z) : option Z :=
  if (ch "0" <=? c) && (c <=? ch "9") then Some (c - ch "0")
  else if (ch "a" <=? c) && (c <=? ch "f") then Some (c - ch "a" + 10)
  else if (ch "A" <=? c) && (c <=? ch "F") then Some (c - ch "A" + 10)
  else None.

Definition is_ws (c : Z) : bool := (c =? ch " ") || (c =? 10) || (c =? 13) || (c =? 9).

Fixpoint skip_ws (fuel : nat) : json unit :=
  match fuel with
  | O => λ _, None
  | S fuel' =>
      c <- peek ;;
      match c with
      | None => jret tt
      | Some c => if negb (is_ws c) then jret tt else _ <- take ;; skip_ws fuel'
      end
  end.

Definition require_char (context : string) : json Z :=
  c <- take ;;
  match c with
  | None => jthrow (unexpected_end context)
  | Some c => jret c
  end.

Fixpoint read_hex (n : nat) (value : Z) : json Z :=
  match n with
  | O => jret value
  | S n' =>
      c <- require_char "unicode escape" ;;
      match hex_value c with
      | None => jthrow invalid_unicode_escape
      | Some hex => read_hex n' (u32 (Z.lor (Z.shiftl value 4) hex))
      end
  end.

Definition read_u16_escape : json Z := read_hex 4 0.

(** The code point of a [\u] escape, after the [u]. *)
Definition read_code_point : json Z :=
  cp <- read_u16_escape ;;
  if (0xd800 <=? cp) && (cp <=? 0xdbff) then
    a <- require_char "low surrogate escape" ;;
    if negb (a =? backslash) then jthrow missing_low_surrogate
    else
      b <- require_char "low surrogate escape" ;;
      if negb (b =? ch "u") then jthrow missing_low_surrogate
      else
        low <- read_u16_escape ;;
        if (low <? 0xdc00) || (0xdfff <? low) then jthrow invalid_low_surrogate
        else jret (u32 (0x10000 + Z.shiftl (cp - 0xd800) 10 + (low - 0xdc00)))
  else if (0xdc00 <=? cp) && (cp <=? 0xdfff) then jthrow unpaired_low_surrogate
  else jret cp.

(** The bytes an escape sequence stands for, after the backslash. *)
Definition read_escape : json bytes :=
  escaped <- require_char "string escape" ;;
  if escaped =? dquote then jret [dquote]
  else if escaped =? backslash then jret [backslash]
  else if escaped =? ch "/" then jret [ch "/"]
  else if escaped =? ch "b" then jret [8]
  else if escaped =? ch "f" then jret [12]
  else if escaped =? ch "n" then jret [10]
  else if escaped =? ch "r" then jret [13]
  else if escaped =? ch "t" then jret [9]
  else if escaped =? ch "u" then cp <- read_code_point ;; jret (encode_utf8 cp)
  else jthrow invalid_string_escape.

Fixpoint read_string_body (fuel : nat) (out : bytes) : json bytes :=
  match fuel with
  | O => λ _, None
  | S fuel' =>
      c <- require_char "string" ;;
      if c =? dquote then jret out
      else if c <? 0x20 then jthrow control_character
      else if negb (c =? backslash) then read_string_body fuel' (out ++ [c])
      else e <- read_escape ;; read_string_body fuel' (out ++ e)
  end.

(** Each turn of a reading loop takes a character. *)
Definition fuel_of (r : string_reader) : nat := S (length (input r)).

Definition skip_ws_all : json unit := λ r, skip_ws (fuel_of r) r.

Definition read_string_rest : json bytes := λ r, read_string_body (fuel_of r) [] r.

Definition read_string : json bytes :=
  _ <- skip_ws_all ;;
  c <- require_char "string" ;;
  if negb (c =? dquote) then jthrow expected_json_string else read_string_rest.

Definition is_number_char (c : Z) : bool :=
  ((ch "0" <=? c) && (c <=? ch "9")) || (c =? ch ".") || (c =? ch "e") || (c =? ch "E")
  || (c =? ch "+") || (c =? ch "-").

Fixpoint number_loop (fuel : nat) (out : bytes) : json bytes :=
  match fuel with
  | O => λ _, None
  | S fuel' =>
      c <- peek ;;
      match c with
      | None => jret out
      | Some c => if negb (is_number_char c) then jret out
                  else _ <- take ;; number_loop fuel' (out ++ [c])
      end
  end.

Definition read_number_text (first : Z) : json bytes := λ r, number_loop (fuel_of r) [first] r.

Fixpoint read_literal_tail (tail : bytes) : json bool :=
  match tail with
  | [] => jret true
  | expected :: tail' =>
      c <- take ;;
      match c with
      | None => jret false
      | Some c => if c =? expected then read_literal_tail tail' else jret false
      end
  end.

(** The token that starts with the character taken, if one was. *)
Definition read_token_from (c : option Z) : json (option token) :=
  match c with
  | None => jret None
  | Some c =>
      if c =? ch "{" then jret (Some (make_token object_begin))
      else if c =? ch "}" then jret (Some (make_token object_end))
      else if c =? ch "[" then jret (Some (make_token array_begin))
      else if c =? ch "]" then jret (Some (make_token array_end))
      else if c =? ch ":" then jret (Some (make_token colon))
      else if c =? ch "," then jret (Some (make_token comma))
      else if c =? dquote then
        t <- read_string_rest ;; jret (Some (make_text_token k_string t))
      else if c =? ch "t" then
        ok <- read_literal_tail (str "rue") ;;
        if ok : bool then jret (Some (make_bool_token true)) else jthrow invalid_json_token
      else if c =? ch "f" then
        ok <- read_literal_tail (str "alse") ;;
        if ok : bool then jret (Some (make_bool_token false)) else jthrow invalid_json_token
      else if c =? ch "n" then
        ok <- read_literal_tail (str "ull") ;;
        if ok : bool then jret (Some (make_token k_null)) else jthrow invalid_json_token
      else if ((ch "0" <=? c) && (c <=? ch "9")) || (c =? ch "-") then
        t <- read_number_text c ;; jret (Some (make_text_token k_number t))
      else jthrow invalid_json_token
  end.

Definition read_token : json (option token) :=
  _ <- skip_ws_all ;;
  c <- take ;;
  read_token_from c.

(** ** Reasoning about readers *)

(** What is left to read. *)
Definition rest (r : string_reader) : bytes := drop (offset r) (input r).

(** From any reader with [s] left, [m] returns [a] and leaves [s']. *)
Definition runs {A} (m : json A) (s : bytes) (a : A) (s' : bytes) : Prop :=
  ∀ r, rest r = s → ∃ r', m r = Some (Ret (a, r')) ∧ rest r' = s' ∧ input r' = input r.

(** From any reader with [s] left, [m] throws [e]. *)
Definition throws {A} (m : json A) (s : bytes) (e : parse_error) : Prop :=
  ∀ r, rest r = s → m r = Some (Throw e).

Lemma rest_cons r c s : rest r = c :: s →
  (offset r < length (input r))%nat ∧ input r !! offset r = Some c ∧
  rest (MkReader (input r) (S (offset r))) = s.
Proof.
  unfold rest. intros H. simpl.
  assert (input r !! offset r = Some c) as Hl.
  { rewrite <- (Nat.add_0_r (offset r)), <- lookup_drop, H. done. }
  split; [by eapply lookup_lt_Some|]. split; [done|].
  apply drop_S in Hl. rewrite H in Hl. by injection Hl.
Qed.

Lemma rest_nil r : rest r = [] → (length (input r) ≤ offset r)%nat.
Proof. unfold rest. intros H. apply (f_equal length) in H. len. Qed.

Lemma rest_fuel r : (length (rest r) < fuel_of r)%nat.
Proof. unfold rest, fuel_of. len. Qed.

Lemma runs_ret {A} (a : A) s : runs (jret a) s a s.
Proof. intros r Hr. by exists r. Qed.

Lemma runs_bind {A B} (m : json A) (k : A → json B) s a s' b s'' :
  runs m s a s' → runs (k a) s' b s'' → runs (jbind m k) s b s''.
Proof.
  intros Hm Hk r Hr. destruct (Hm r Hr) as (r' & Hm' & Hr' & Hi).
  destruct (Hk r' Hr') as (r'' & Hk' & Hr'' & Hi'). exists r''. unfold jbind.
  rewrite Hm'. split; [done|]. split; [done|]. congruence.
Qed.

Lemma runs_peek c s : runs peek (c :: s) (Some c) (c :: s).
Proof.
  intros r Hr. destruct (rest_cons r c s Hr) as (Ho & Hl & _). exists r. unfold peek.
  destruct (Nat.leb_spec (length (input r)) (offset r)); [lia|]. by rewrite Hl.
Qed.

Lemma runs_peek_nil : runs peek [] None [].
Proof.
  intros r Hr. pose proof (rest_nil r Hr). exists r. unfold peek.
  by destruct (Nat.leb_spec (length (input r)) (offset r)); [|lia].
Qed.

Lemma runs_take c s : runs take (c :: s) (Some c) s.
Proof.
  intros r Hr. destruct (rest_cons r c s Hr) as (Ho & Hl & Hs).
  exists (MkReader (input r) (S (offset r))). unfold take.
  destruct (Nat.leb_spec (length (input r)) (offset r)); [lia|]. by rewrite Hl.
Qed.

Lemma runs_take_nil : runs take [] None [].
Proof.
  intros r Hr. pose proof (rest_nil r Hr). exists r. unfold take.
  by destruct (Nat.leb_spec (length (input r)) (offset r)); [|lia].
Qed.

Lemma runs_require context c s : runs (require_char context) (c :: s) c s.
Proof. eapply runs_bind; [apply runs_take|]. apply runs_ret. Qed.

Lemma runs_fuel {A} (m : nat → json A) s a s' :
  (∀ fuel, (length s < fuel)%nat → runs (m fuel) s a s') → runs (λ r, m (fuel_of r) r) s a s'.
Proof.
  intros H r Hr. apply H; [|done]. pose proof (rest_fuel r) as Hf. by rewrite Hr in Hf.
Qed.

Create HintDb json.
#[local] Hint Resolve runs_ret runs_peek runs_peek_nil runs_take runs_take_nil runs_require : json.

(** ** White space *)

Lemma skip_ws_stop fuel s : (0 < fuel)%nat →
  match s with [] => True | c :: _ => is_ws c = false end → runs (skip_ws fuel) s tt s.
Proof.
  intros Hf Hs. destruct fuel as [|fuel]; [lia|]. simpl. destruct s as [|c s].
  - eapply runs_bind; [apply runs_peek_nil|]. apply runs_ret.
  - eapply runs_bind; [apply runs_peek|]. simpl. rewrite Hs. apply runs_ret.
Qed.

Lemma skip_ws_runs ws : ∀ fuel s, Forall (λ c, is_ws c = true) ws →
  match s with [] => True | c :: _ => is_ws c = false end →
  (length (ws ++ s) < fuel)%nat → runs (skip_ws fuel) (ws ++ s) tt s.
Proof.
  induction ws as [|w ws IH]; intros fuel s Hws Hs Hf; [apply skip_ws_stop; [lia|done]|].
  split_Forall. destruct fuel as [|fuel]; [lia|]. simpl.
  eapply runs_bind; [apply runs_peek|]. simpl.
  match goal with H : is_ws w = true |- _ => rewrite H end. simpl.
  eapply runs_bind; [apply runs_take|]. apply IH; [done|done|len].
Qed.

(** ** Strings *)

(** The four digits of a [\u] escape. *)
Definition hex4 (v : Z) : bytes :=
  [hex_digit (v / 4096); hex_digit (v / 256 mod 16); hex_digit (v / 16 mod 16); hex_digit (v mod 16)].

Lemma hex_value_digit v : 0 ≤ v < 16 → hex_value (hex_digit v) = Some v.
Proof.
  intros Hv.
  assert (∀ b, is_byte b → implb (b <? 16) (bool_decide (hex_value (hex_digit b) = Some b)) = true)
    as H by (apply all_bytes_spec; vm_compute; reflexivity).
  specialize (H v ltac:(unfold is_byte; lia)). destruct (Z.ltb_spec v 16); [|lia].
  by apply bool_decide_eq_true_1 in H.
Qed.

Lemma hex_step value hex : 0 ≤ value < 2 ^ 28 → 0 ≤ hex < 16 →
  u32 (Z.lor (Z.shiftl value 4) hex) = value * 16 + hex.
Proof. intros. rewrite lor_shiftl_add by lia. apply wrap_small. lia. Qed.

Lemma read_hex4 v s : 0 ≤ v < 65536 → runs read_u16_escape (hex4 v ++ s) v s.
Proof.
  intros Hv. unfold read_u16_escape, hex4. cbn [app].
  assert (Hd : 0 ≤ v / 4096 < 16 ∧ 0 ≤ v / 256 mod 16 < 16 ∧ 0 ≤ v / 16 mod 16 < 16
    ∧ 0 ≤ v mod 16 < 16 ∧ v = ((v / 4096 * 16 + v / 256 mod 16) * 16 + v / 16 mod 16) * 16 + v mod 16)
    by (Z.to_euclidean_division_equations; lia).
  destruct Hd as (H1 & H2 & H3 & H4 & Heq).
  do 4 (eapply runs_bind; [apply runs_require|]; rewrite hex_value_digit, hex_step by lia).
  replace (_ * 16 + v mod 16) with v by lia. apply runs_ret.
Qed.

(** The [\u] spelling of a scalar value: one escape, or a surrogate pair. *)
Definition escape16 (cp : Z) : bytes :=
  if cp <? 0x10000 then hex4 cp
  else hex4 (0xd800 + (cp - 0x10000) / 1024) ++ [backslash; ch "u"]
       ++ hex4 (0xdc00 + (cp - 0x10000) mod 1024).

Lemma read_code_point_runs cp s : scalar cp → runs read_code_point (escape16 cp ++ s) cp s.
Proof.
  intros [Hr Hsur]. unfold escape16, read_code_point. destruct (Z.ltb_spec cp 0x10000) as [Hb|Hb].
  - eapply runs_bind; [apply read_hex4; lia|].
    destruct (Z.leb_spec 0xd800 cp), (Z.leb_spec cp 0xdbff), (Z.leb_spec 0xdc00 cp),
      (Z.leb_spec cp 0xdfff); try lia; apply runs_ret.
  - set (hi := 0xd800 + (cp - 0x10000) / 1024). set (lo := 0xdc00 + (cp - 0x10000) mod 1024).
    assert (Hhi : 0xd800 ≤ hi ≤ 0xdbff) by (subst hi; Z.to_euclidean_division_equations; lia).
    assert (Hlo : 0xdc00 ≤ lo ≤ 0xdfff) by (subst lo; Z.to_euclidean_division_equations; lia).
    assert (Hcp : 0x10000 + (hi - 0xd800) * 1024 + (lo - 0xdc00) = cp)
      by (subst hi lo; Z.to_euclidean_division_equations; lia).
    clearbody hi lo. rewrite <- !app_assoc. eapply runs_bind; [apply read_hex4; lia|].
    destruct (Z.leb_spec 0xd800 hi), (Z.leb_spec hi 0xdbff); try lia. cbn [andb app].
    eapply runs_bind; [apply runs_require|]. rewrite Z.eqb_refl. cbn [negb].
    eapply runs_bind; [apply runs_require|]. rewrite Z.eqb_refl. cbn [negb].
    eapply runs_bind; [apply read_hex4; lia|].
    destruct (Z.ltb_spec lo 0xdc00), (Z.ltb_spec 0xdfff lo); try lia. cbn [orb].
    rewrite Z.shiftl_mul_pow2 by lia. change (2 ^ 10) with 1024.
    rewrite wrap_small by lia. rewrite Hcp. apply runs_ret.
Qed.

Lemma read_escape_u cp s : scalar cp →
  runs read_escape (ch "u" :: escape16 cp ++ s) (encode_utf8 cp) s.
Proof.
  intros Hs. eapply runs_bind; [apply runs_require|]. cbn.
  eapply runs_bind; [by apply read_code_point_runs|]. apply runs_ret.
Qed.

(** What the writer does with a byte: keeps it, or escapes it in a way the
    reader undoes. *)
Lemma escape_char_cases c : is_byte c →
  (escape_char c = [c] ∧ c ≠ dquote ∧ c ≠ backslash ∧ 0x20 ≤ c) ∨
  (∃ e, escape_char c = backslash :: e ∧ ∀ s, runs read_escape (e ++ s) [c] s).
Proof.
  intros Hb. unfold escape_char, dquote, backslash.
  repeat match goal with
  | |- context [c =? ?k] => destruct (Z.eqb_spec c k) as [->|?];
      [right; eexists; split; [reflexivity|]; intros s;
       eapply runs_bind; [apply runs_require|]; apply runs_ret|]
  end.
  destruct (Z.ltb_spec c 0x20); [right|left; auto with lia].
  unfold is_byte in Hb. exists ([ch "u"] ++ escape16 c).
  assert (scalar c) as Hs by (unfold scalar; lia).
  split; [|intros s; rewrite <- app_assoc; pose proof (read_escape_u c s Hs) as Hru;
           rewrite encode_utf8_arith in Hru by done; by destruct (Z.leb_spec c 0x7f); [|lia]].
  unfold escape16, hex4. destruct (Z.ltb_spec c 0x10000); [|lia].
  replace (c / 4096) with 0 by (Z.to_euclidean_division_equations; lia).
  replace (c / 256 mod 16) with 0 by (Z.to_euclidean_division_equations; lia).
  change 0xf with (2 ^ 4 - 1). rewrite land_ones_mod, Z.shiftr_div_pow2 by lia.
  change (2 ^ 4) with 16. replace (c / 16 mod 16) with (c / 16) by (Z.to_euclidean_division_equations; lia).
  reflexivity.
Qed.

Lemma read_string_body_runs t tail : ∀ fuel out, Forall is_byte t → (length t < fuel)%nat →
  runs (read_string_body fuel out) (concat (escape_char <$> t) ++ dquote :: tail) (out ++ t) tail.
Proof.
  induction t as [|c t IH]; intros fuel out Hb Hf; (destruct fuel as [|fuel]; [lia|]);
    cbn [read_string_body].
  { eapply runs_bind; [apply runs_require|]. rewrite app_nil_r. apply runs_ret. }
  split_Forall. rewrite fmap_cons. cbn [concat]. rewrite <- app_assoc.
  replace (out ++ c :: t) with ((out ++ [c]) ++ t) by (by rewrite <- app_assoc).
  destruct (escape_char_cases c) as [(-> & Hq & Hbs & Hc)|(e & -> & He)]; [done|..].
  - eapply runs_bind; [apply runs_require|]. destruct (Z.eqb_spec c dquote); [done|].
    destruct (Z.ltb_spec c 0x20); [lia|]. destruct (Z.eqb_spec c backslash); [done|].
    apply IH; [done|len].
  - cbn [app]. eapply runs_bind; [apply runs_require|]. cbn [Z.eqb].
    change (backslash =? dquote) with false. change (backslash <? 0x20) with false.
    rewrite Z.eqb_refl. cbn [negb]. cbv match.
    eapply runs_bind; [apply He|]. apply IH; [done|len].
Qed.

Lemma escape_char_nonempty c : (1 ≤ length (escape_char c))%nat.
Proof. unfold escape_char. repeat case_match; simpl; lia. Qed.

Lemma escaped_length t : (length t ≤ length (concat (escape_char <$> t)))%nat.
Proof.
  induction t as [|c t IH]; [done|]. rewrite fmap_cons. cbn [concat].
  pose proof (escape_char_nonempty c). len.
Qed.

Lemma read_string_rest_runs t tail : Forall is_byte t →
  runs read_string_rest (concat (escape_char <$> t) ++ dquote :: tail) t tail.
Proof.
  intros Hb. apply (runs_fuel (λ fuel, read_string_body fuel [])). intros fuel Hf.
  apply (read_string_body_runs t tail fuel []); [done|]. pose proof (escaped_length t). len.
Qed.

(** ** Tokens *)

(** The text the writer produces for a token. *)
Inductive written : token → bytes → Prop :=
| written_object_begin : written (make_token object_begin) (write_character [] (ch "{"))
| written_object_end : written (make_token object_end) (write_character [] (ch "}"))
| written_array_begin : written (make_token array_begin) (write_character [] (ch "["))
| written_array_end : written (make_token array_end) (write_character [] (ch "]"))
| written_colon : written (make_token colon) (write_character [] (ch ":"))
| written_comma : written (make_token comma) (write_character [] (ch ","))
| written_null : written (make_token k_null) (write_raw [] (str "null"))
| written_boolean b : written (make_bool_token b) (write_boolean [] b)
| written_number n : 0 ≤ n → written (make_text_token k_number (to_string n)) (write_number [] n)
| written_string t : Forall is_byte t →
    written (make_text_token k_string t) (write_string [] t).

(** Text that does not continue a number. *)
Definition ends_number (s : bytes) : Prop :=
  match s with
  | [] => True
  | c :: _ => is_number_char c = false
  end.

Lemma literal_tail_runs t tail : runs (read_literal_tail t) (t ++ tail) true tail.
Proof.
  induction t as [|c t IH]; [apply runs_ret|]. eapply runs_bind; [apply runs_take|].
  cbv beta match. rewrite Z.eqb_refl. apply IH.
Qed.

Lemma number_loop_runs ds tail : ∀ fuel out, Forall (λ c, is_digit c = true) ds →
  ends_number tail → (length ds < fuel)%nat →
  runs (number_loop fuel out) (ds ++ tail) (out ++ ds) tail.
Proof.
  induction ds as [|d ds IH]; intros fuel out Hd Ht Hf; (destruct fuel as [|fuel]; [lia|]);
    cbn [number_loop].
  - rewrite app_nil_r. destruct tail as [|c tail].
    + eapply runs_bind; [apply runs_peek_nil|]. apply runs_ret.
    + eapply runs_bind; [apply runs_peek|]. cbv beta match. rewrite Ht. apply runs_ret.
  - split_Forall. eapply runs_bind; [apply runs_peek|]. cbv beta match.
    assert (is_number_char d = true) as ->.
    { unfold is_number_char. change (ch "0") with 48. change (ch "9") with 57.
      unfold is_digit in *. by match goal with H : _ = true |- _ => rewrite H end. }
    cbn [negb]. eapply runs_bind; [apply runs_take|].
    replace (out ++ d :: ds) with ((out ++ [d]) ++ ds) by (by rewrite <- app_assoc).
    apply IH; [done|done|len].
Qed.

Lemma skip_ws_all_runs ws s : Forall (λ c, is_ws c = true) ws →
  match s with [] => True | c :: _ => is_ws c = false end →
  runs skip_ws_all (ws ++ s) tt s.
Proof. intros Hw Hs. apply (runs_fuel skip_ws). intros. by apply skip_ws_runs. Qed.

Lemma digit_token d ds tail : Forall (λ c, is_digit c = true) (d :: ds) → ends_number tail →
  runs read_token ((d :: ds) ++ tail) (Some (make_text_token k_number (d :: ds))) tail.
Proof.
  intros Hd Ht. split_Forall. cbn [app].
  match goal with H : is_digit d = true |- _ => rename H into Hdd end.
  unfold is_digit in Hdd. apply andb_prop in Hdd as [H1 H2].
  apply Z.leb_le in H1, H2.
  eapply runs_bind.
  { apply (skip_ws_all_runs []); [done|]. unfold is_ws. change (ch " ") with 32. lia. }
  eapply runs_bind; [apply runs_take|]. unfold read_token_from.
  repeat match goal with
  | |- context [d =? ?k] => let k' := eval vm_compute in k in
      change k with k'; destruct (Z.eqb_spec d k'); [lia|]
  end.
  change (ch "0") with 48. change (ch "9") with 57.
  destruct (Z.leb_spec 48 d), (Z.leb_spec d 57); try lia. cbn [andb orb].
  eapply runs_bind; [|apply runs_ret].
  apply (runs_fuel (λ fuel, number_loop fuel [d])). intros fuel Hf.
  apply (number_loop_runs ds tail fuel [d]); [done|done|len].
Qed.

Lemma read_token_nows tk w tail : written tk w →
  (kind tk = k_number → ends_number tail) → runs read_token (w ++ tail) (Some tk) tail.
Proof.
  intros Hw Ht.
  destruct Hw as [| | | | | | |b|n Hn|t Hb]; simpl in Ht;
    try (eapply runs_bind; [apply (skip_ws_all_runs []); done|];
         eapply runs_bind; [apply runs_take|]; apply runs_ret).
  - eapply runs_bind; [apply (skip_ws_all_runs []); done|].
    eapply runs_bind; [apply runs_take|]. cbn.
    eapply runs_bind; [apply (literal_tail_runs (str "ull"))|]. apply runs_ret.
  - destruct b; (eapply runs_bind; [apply (skip_ws_all_runs []); done|]);
      (eapply runs_bind; [apply runs_take|]); cbn.
    + eapply runs_bind; [apply (literal_tail_runs (str "rue"))|]. apply runs_ret.
    + eapply runs_bind; [apply (literal_tail_runs (str "alse"))|]. apply runs_ret.
  - unfold write_number. cbn [app]. pose proof (to_string_digits n Hn) as Hd.
    pose proof (to_string_nonempty n). destruct (to_string n) as [|d ds]; [done|].
    apply digit_token; auto.
  - unfold write_string. rewrite app_nil_l, <- !app_assoc.
    eapply runs_bind; [by apply (skip_ws_all_runs [])|].
    eapply runs_bind; [apply runs_take|]. cbn.
    eapply runs_bind; [by apply read_string_rest_runs|]. apply runs_ret.
Qed.

(** ** Every read ends *)

(** From the reader [m] returns or throws, and when it returns it has read at
    least [k] characters. *)
Definition ends {A} (m : json A) (k : nat) (r : string_reader) : Prop :=
  ∃ res, m r = Some res ∧ ∀ a r', res = Ret (a, r') →
    input r' = input r ∧ (length (rest r') + k ≤ length (rest r))%nat.

Lemma ends_ret {A} (a : A) r : ends (jret a) 0 r.
Proof. eexists. split; [done|]. intros a' r' [= _ <-]. by split; [|lia]. Qed.

Lemma ends_throw {A} e k r : ends (@jthrow A e) k r.
Proof. by eexists. Qed.

Lemma ends_weaken {A} (m : json A) k k' r : (k' ≤ k)%nat → ends m k r → ends m k' r.
Proof.
  intros Hk (res & Hm & Hres). exists res. split; [done|]. intros a r' H. destruct (Hres a r' H). by split; [|lia].
Qed.

Lemma ends_bind {A B} (m : json A) (f : A → json B) k k' r :
  ends m k r →
  (∀ a r', m r = Some (Ret (a, r')) → (length (rest r') + k ≤ length (rest r))%nat → ends (f a) k' r') →
  ends (jbind m f) (k + k') r.
Proof.
  intros (res & Hm & Hres) Hf. unfold ends, jbind. rewrite Hm.
  destruct res as [[a r']|e]; [|by eexists].
  destruct (Hres a r' eq_refl) as [Hi Hl]. destruct (Hf a r' Hm Hl) as (res' & Hf' & Hres').
  exists res'. split; [done|]. intros b r'' H. destruct (Hres' b r'' H). split; [congruence|lia].
Qed.

Lemma ends_peek r : ends peek 0 r.
Proof.
  unfold ends, peek. destruct (_ <=? _)%nat; (eexists; split; [done|]); intros a r' [= _ <-]; by split; [|lia].
Qed.

Lemma peek_same r a r' : peek r = Some (Ret (a, r')) → r' = r ∧ a = head (rest r).
Proof.
  unfold peek, rest. destruct (Nat.leb_spec (length (input r)) (offset r)) as [H|H]; intros [= <- <-].
  - by rewrite drop_ge.
  - split; [done|]. destruct (lookup_lt_is_Some_2 _ _ H) as [x Hx]. rewrite Hx.
    by rewrite (drop_S _ _ _ Hx).
Qed.

Lemma ends_take r : ends take (match rest r with [] => 0 | _ => 1 end) r.
Proof.
  destruct (rest r) as [|c s] eqn:Hr.
  - destruct (runs_take_nil r Hr) as (r' & Ht & Hr' & Hi). exists (Ret (None, r')).
    split; [done|]. intros a r'' [= _ <-]. rewrite Hr, Hr'. simpl. by split; [|lia].
  - destruct (runs_take c s r Hr) as (r' & Ht & Hr' & Hi). exists (Ret (Some c, r')).
    split; [done|]. intros a r'' [= _ <-]. rewrite Hr, Hr'. simpl. by split; [|lia].
Qed.

Lemma ends_take_0 r : ends take 0 r.
Proof. eapply ends_weaken; [|apply ends_take]. lia. Qed.

Lemma ends_require ctx r : ends (require_char ctx) 1 r.
Proof.
  unfold require_char. destruct (rest r) as [|c s] eqn:Hr.
  - unfold ends, jbind. destruct (runs_take_nil r Hr) as (r' & -> & _). by eexists.
  - destruct (runs_require ctx c s r Hr) as (r' & Ht & Hr' & Hi). eexists. split; [exact Ht|].
    intros a r'' [= _ <-]. rewrite Hr, Hr'. simpl. by split; [|lia].
Qed.

Lemma ends_skip_ws fuel r : (length (rest r) < fuel)%nat → ends (skip_ws fuel) 0 r.
Proof.
  revert r. induction fuel as [|fuel IH]; intros r Hf; [lia|]. cbn [skip_ws].
  apply (ends_bind _ _ 0 0); [apply ends_peek|]. intros a r' Hp _.
  apply peek_same in Hp as [-> Ha]. destruct a as [c|]; [|apply ends_ret].
  destruct (negb _); [apply ends_ret|].
  apply (ends_weaken _ 1); [lia|]. apply (ends_bind _ _ 1 0).
  - pose proof (ends_take r) as H. by destruct (rest r).
  - intros _ r' _ Hl. apply IH. lia.
Qed.

Lemma ends_read_hex n v r : ends (read_hex n v) 0 r.
Proof.
  revert v r. induction n as [|n IH]; intros v r; [apply ends_ret|]. cbn [read_hex].
  apply (ends_weaken _ 1); [lia|]. apply (ends_bind _ _ 1 0); [apply ends_require|].
  intros c r' _ _. destruct (hex_value c); [apply IH|apply ends_throw].
Qed.

Lemma ends_code_point r : ends read_code_point 0 r.
Proof.
  apply (ends_bind _ _ 0 0); [apply ends_read_hex|]. intros cp r1 _ _.
  destruct (_ && _); [|destruct (_ && _); [apply ends_throw|apply ends_ret]].
  apply (ends_weaken _ 1); [lia|]. apply (ends_bind _ _ 1 0); [apply ends_require|]. intros a r2 _ _.
  destruct (negb _); [apply ends_throw|].
  apply (ends_weaken _ 1); [lia|]. apply (ends_bind _ _ 1 0); [apply ends_require|]. intros b r3 _ _.
  destruct (negb _); [apply ends_throw|].
  apply (ends_bind _ _ 0 0); [apply ends_read_hex|]. intros low r4 _ _.
  destruct (_ || _); [apply ends_throw|apply ends_ret].
Qed.

Lemma ends_escape r : ends read_escape 0 r.
Proof.
  apply (ends_weaken _ 1); [lia|]. apply (ends_bind _ _ 1 0); [apply ends_require|]. intros c r' _ _.
  repeat (destruct (c =? _); [apply ends_ret || idtac|]); [|apply ends_throw].
  apply (ends_bind _ _ 0 0); [apply ends_code_point|]. intros. apply ends_ret.
Qed.

Lemma ends_string_body fuel out r : (length (rest r) < fuel)%nat →
  ends (read_string_body fuel out) 0 r.
Proof.
  revert out r. induction fuel as [|fuel IH]; intros out r Hf; [lia|]. cbn [read_string_body].
  apply (ends_weaken _ 1); [lia|]. apply (ends_bind _ _ 1 0); [apply ends_require|]. intros c r' _ Hl.
  destruct (_ =? _); [apply ends_ret|]. destruct (_ <? _); [apply ends_throw|].
  destruct (negb _); [apply IH; lia|].
  apply (ends_bind _ _ 0 0); [apply ends_escape|]. intros e r'' _ Hl'. apply IH. lia.
Qed.

Lemma ends_number_loop fuel out r : (length (rest r) < fuel)%nat → ends (number_loop fuel out) 0 r.
Proof.
  revert out r. induction fuel as [|fuel IH]; intros out r Hf; [lia|]. cbn [number_loop].
  apply (ends_bind _ _ 0 0); [apply ends_peek|]. intros a r' Hp _.
  apply peek_same in Hp as [-> Ha]. destruct a as [c|]; [|apply ends_ret].
  destruct (negb _); [apply ends_ret|].
  apply (ends_weaken _ 1); [lia|]. apply (ends_bind _ _ 1 0).
  - pose proof (ends_take r) as H. by destruct (rest r).
  - intros _ r' _ Hl. apply IH. lia.
Qed.

Lemma ends_literal t r : ends (read_literal_tail t) 0 r.
Proof.
  revert r. induction t as [|c t IH]; intros r; [apply ends_ret|]. cbn [read_literal_tail].
  apply (ends_bind _ _ 0 0); [apply ends_take_0|]. intros a r' _ _. destruct a as [a|]; [|apply ends_ret].
  destruct (_ =? _); [apply IH|apply ends_ret].
Qed.

Lemma ends_token_from c r : ends (read_token_from c) 0 r.
Proof.
  unfold read_token_from. destruct c as [c|]; [|apply ends_ret].
  repeat (destruct (c =? _); [try apply ends_ret|]); try (destruct (_ || _); [|apply ends_throw]);
    try (apply (ends_bind _ _ 0 0); [apply ends_literal|];
         intros [] r3 _ _; [apply ends_ret|apply ends_throw]);
    apply (ends_bind _ _ 0 0); try (intros; apply ends_ret).
  - apply ends_string_body, rest_fuel.
  - apply ends_number_loop, rest_fuel.
  - apply ends_number_loop, rest_fuel.
Qed.

Lemma ends_read_token r : ends read_token 0 r.
Proof.
  apply (ends_bind _ _ 0 0); [apply ends_skip_ws, rest_fuel|]. intros _ r1 _ _.
  apply (ends_bind _ _ 0 0); [apply ends_take_0|]. intros c r2 _ _. apply ends_token_from.
Qed.

Lemma read_token_progress r tk r' :
  read_token r = Some (Ret (Some tk, r')) → (length (rest r') < length (rest r))%nat.
Proof.
  intros Hrun. unfold read_token in Hrun. unfold jbind at 1 in Hrun.
  destruct (ends_skip_ws (fuel_of r) r (rest_fuel r)) as (res & Hs & Hl).
  unfold skip_ws_all in Hrun. rewrite Hs in Hrun. destruct res as [[[] r1]|]; [|done].
  destruct (Hl tt r1 eq_refl) as [_ Hl1]. unfold jbind at 1 in Hrun.
  destruct (ends_take r1) as (res & Ht & Hlt). rewrite Ht in Hrun.
  destruct res as [[c r2]|]; [|done]. destruct (Hlt c r2 eq_refl) as [_ Hl2].
  destruct (ends_token_from c r2) as (res & Hb & Hlb).
  destruct c as [c|]; [|by injection Hrun]. rewrite Hb in Hrun. injection Hrun as ->.
  destruct (Hlb _ _ eq_refl) as [_ Hl3].
  destruct (rest r1) as [|c' s] eqn:Hr1; [|simpl in *; lia].
  exfalso. destruct (runs_take_nil r1 Hr1) as (r3 & Ht3 & _). rewrite Ht in Ht3. done.
Qed.

(** ** The claims *)

(** A stream of tokens: the text of each, after white space of any length; a
    number is followed by something that cannot continue it. *)
Inductive written_stream : list token → bytes → Prop :=
| written_nil ws : Forall (λ c, is_ws c = true) ws → written_stream [] ws
| written_cons ws tk w tks s :
    Forall (λ c, is_ws c = true) ws → written tk w → written_stream tks s →
    (kind tk = k_number → ends_number s) → written_stream (tk :: tks) (ws ++ w ++ s).

(** The tokens read until [read_token] says the text is over: the loop of a
    caller, [n] tokens at most. *)
Fixpoint read_tokens (n : nat) : json (list token) :=
  match n with
  | O => λ _, None
  | S n' =>
      tk <- read_token ;;
      match tk with
      | None => jret []
      | Some tk => tks <- read_tokens n' ;; jret (tk :: tks)
      end
  end.

(** Leading white space is invisible to [read_token]. *)
Lemma read_token_ws ws tk s s' : Forall (λ c, is_ws c = true) ws →
  match s with [] => True | c :: _ => is_ws c = false end →
  runs read_token s tk s' → runs read_token (ws ++ s) tk s'.
Proof.
  intros Hws Hs Hrun r Hr.
  destruct (skip_ws_all_runs ws s Hws Hs r Hr) as (r1 & Hk & Hr1 & Hi1).
  destruct (Hrun r1 Hr1) as (r2 & Hk2 & Hr2 & Hi2).
  exists r2. split; [|split; [done|congruence]].
  destruct (skip_ws_all_runs [] s (Forall_nil_2 _) Hs r1 Hr1) as (r1' & Hk1 & _ & Hi1').
  unfold read_token, jbind in Hk2 |- *. rewrite Hk. rewrite Hk1 in Hk2.
  assert (r1' = r1) as ->; [|done].
  unfold skip_ws_all, fuel_of in Hk1. cbn [skip_ws] in Hk1. unfold jbind in Hk1.
  destruct (peek r1) as [[[c ?]|]|] eqn:Hp; try done.
  apply peek_same in Hp as [-> ->]. rewrite Hr1 in Hk1. destruct s as [|c s]; cbn in Hk1.
  - by injection Hk1.
  - rewrite Hs in Hk1. cbn in Hk1. by injection Hk1.
Qed.

Lemma written_head tk w : written tk w → ∃ c w', w = c :: w' ∧ is_ws c = false.
Proof.
  destruct 1 as [| | | | | | |[]|n Hn|t]; try (do 2 eexists; split; reflexivity).
  unfold write_number. cbn [app]. pose proof (to_string_digits n Hn) as Hd.
  pose proof (to_string_nonempty n). destruct (to_string n) as [|d ds]; [done|].
  split_Forall. do 2 eexists. split; [done|]. unfold is_ws, is_digit in *.
  change (ch " ") with 32. lia.
Qed.

(** a string written by the writer is read back unchanged, whatever its
    bytes (quotes, backslashes, control characters and non-ASCII included),
    whatever white space precedes it, and the reader stops right after the
    closing quote. *)
Theorem string_roundtrip ws t tail :
  Forall (λ c, is_ws c = true) ws → Forall is_byte t →
  runs read_string (ws ++ write_string [] t ++ tail) t tail.
Proof.
  intros Hws Hb. unfold write_string. rewrite app_nil_l, <- !app_assoc.
  eapply runs_bind; [by apply skip_ws_all_runs|].
  eapply runs_bind; [apply runs_require|]. cbn. by apply read_string_rest_runs.
Qed.

Lemma string_roundtrip_witness :
  runs read_string (str " " ++ write_string [] [0; 34; 92; 200] ++ str "]") [0; 34; 92; 200] (str "]").
Proof.
  apply (string_roundtrip (str " ") [0; 34; 92; 200] (str "]"));
    repeat constructor; unfold is_byte; lia.
Defined.

(** C32: a text made of written tokens, with white space anywhere between them,
    is read back by [read_token] as exactly those tokens, then as the end of
    the text; nothing is left unread. *)
Theorem tokens_roundtrip tks s :
  written_stream tks s → runs (read_tokens (S (length tks))) s tks [].
Proof.
  induction 1 as [ws Hws|ws tk w tks s Hws Hw Hs IH Hn].
  - cbn [read_tokens length]. eapply (runs_bind _ _ _ None); [|apply runs_ret].
    rewrite <- (app_nil_r ws). apply read_token_ws; [done|done|].
    eapply runs_bind; [by apply (skip_ws_all_runs [])|].
    eapply runs_bind; [apply runs_take_nil|]. apply runs_ret.
  - cbn [length]. cbn [read_tokens]. eapply (runs_bind _ _ _ (Some tk)).
    + apply read_token_ws; [done|..].
      * by destruct (written_head tk w Hw) as (c & w' & -> & Hc).
      * by apply read_token_nows.
    + eapply runs_bind; [exact IH|]. apply runs_ret.
Qed.

Lemma tokens_roundtrip_witness :
  runs (read_tokens 6) (str "[12 , true]")
    [make_token array_begin; make_text_token k_number (str "12"); make_token comma;
     make_bool_token true; make_token array_end] [].
Proof.
  apply (tokens_roundtrip [make_token array_begin; make_text_token k_number (str "12");
    make_token comma; make_bool_token true; make_token array_end] (str "[12 , true]")).
  apply (written_cons [] (make_token array_begin) (str "[") _ (str "12 , true]"));
    [constructor|constructor| |done].
  apply (written_cons [] (make_text_token k_number (to_string 12)) (str "12") _ (str " , true]"));
    [constructor|by apply (written_number 12)| |done].
  apply (written_cons (str " ") (make_token comma) (str ",") _ (str " true]"));
    [by repeat constructor|constructor| |done].
  apply (written_cons (str " ") (make_bool_token true) (str "true") _ (str "]"));
    [by repeat constructor|constructor| |done].
  apply (written_cons [] (make_token array_end) (str "]") _ []); [constructor|constructor| |done].
  constructor. constructor.
Defined.

(** reading a token always ends, with a token, with the end of the text or
    with a parse error; it leaves the text alone, never moves backwards, and a
    token takes at least one character, so a caller's loop over the tokens of a
    text ends too. *)
Theorem read_token_total r :
  ∃ res, read_token r = Some res ∧
    ∀ tk r', res = Ret (tk, r') →
      input r' = input r ∧ (length (rest r') ≤ length (rest r))%nat ∧
      (tk ≠ None → (length (rest r') < length (rest r))%nat).
Proof.
  destruct (ends_read_token r) as (res & Hr & Hl). exists res. split; [done|].
  intros tk r' ->. destruct (Hl tk r' eq_refl). split; [done|]. split; [lia|].
  destruct tk as [tk|]; [intros _|done]. by eapply read_token_progress.
Qed.

Lemma throws_bind {A B} (m : json A) (k : A → json B) s a s' e :
  runs m s a s' → throws (k a) s' e → throws (jbind m k) s e.
Proof.
  intros Hm Hk r Hr. destruct (Hm r Hr) as (r' & Hm' & Hr' & _). unfold jbind. rewrite Hm'.
  by apply Hk.
Qed.

Lemma throws_bind_l {A B} (m : json A) (k : A → json B) s e :
  throws m s e → throws (jbind m k) s e.
Proof. intros Hm r Hr. unfold jbind. by rewrite (Hm r Hr). Qed.

Lemma throws_throw {A} s e : throws (@jthrow A e) s e.
Proof. by intros r _. Qed.

(** an escaped scalar value, spelled as one [\u] escape or as a surrogate
    pair, reads as its UTF-8 encoding; a [\u] escape that is half of a pair is
    refused: a low half alone, and a high half whose second escape is not a low
    half. *)
Theorem unicode_escapes cp hi lo s :
  (scalar cp → runs read_escape (ch "u" :: escape16 cp ++ s) (encode_utf8 cp) s) ∧
  (0xdc00 ≤ lo ≤ 0xdfff → throws read_escape (ch "u" :: hex4 lo ++ s) unpaired_low_surrogate) ∧
  (0xd800 ≤ hi ≤ 0xdbff → 0 ≤ cp < 65536 → ~ 0xdc00 ≤ cp ≤ 0xdfff →
     throws read_escape (ch "u" :: hex4 hi ++ [backslash; ch "u"] ++ hex4 cp ++ s)
       invalid_low_surrogate).
Proof.
  split; [apply read_escape_u|]. split.
  - intros Hlo. eapply throws_bind; [apply runs_require|]. cbn.
    apply throws_bind_l. eapply throws_bind; [apply read_hex4; lia|].
    destruct (Z.leb_spec 0xd800 lo), (Z.leb_spec lo 0xdbff), (Z.leb_spec 0xdc00 lo),
      (Z.leb_spec lo 0xdfff); try lia. apply throws_throw.
  - intros Hhi Hcp Hn. eapply throws_bind; [apply runs_require|]. cbn.
    apply throws_bind_l. eapply throws_bind; [apply read_hex4; lia|].
    destruct (Z.leb_spec 0xd800 hi), (Z.leb_spec hi 0xdbff); try lia. cbn [andb app].
    eapply throws_bind; [apply runs_require|]. cbn [negb Z.eqb Pos.eqb].
    eapply throws_bind; [apply runs_require|]. cbn.
    eapply throws_bind; [apply read_hex4; lia|].
    destruct (Z.ltb_spec cp 0xdc00), (Z.ltb_spec 0xdfff cp); try lia; apply throws_throw.
Qed.

Lemma unicode_escapes_witness :
  runs read_escape (str "u00e5!") [0xc3; 0xa5] (str "!") ∧
  throws read_escape (str "udfff!") unpaired_low_surrogate ∧
  throws read_escape (str "ud800" ++ [backslash] ++ str "u0041!") invalid_low_surrogate.
Proof.
  destruct (unicode_escapes 0xe5 0xd800 0xdfff (str "!")) as (H1 & H2 & _).
  destruct (unicode_escapes 0x41 0xd800 0xdfff (str "!")) as (_ & _ & H3).
  split; [|split].
  - apply H1. unfold scalar. lia.
  - apply H2. lia.
  - apply H3; lia.
Defined.

End Tokens.
