(* ===== verification/Http.v ===== *)
(** * Server-sent events and request text (src/src/nxt/http.hpp)

    [Sse] is the incremental [server_sent_event_parser], a state machine over
    characters; [Request] is [serialize], the text of an HTTP/1.1 request. *)
From S2P Require Import Prelude Ring.
#[local] Open Scope Z_scope.

Module Sse.

Definition cr : Z := 13.
Definition lf : Z := 10.

Record server_sent_event := MkEvent {
  type : bytes;
  data : bytes;
  id : bytes;
  retry_ms : option Z;
}.

(** [server_sent_event{}]. *)
Definition fresh : server_sent_event := MkEvent (str "message") [] [] None.

Record server_sent_event_parser := MkParser {
  line_ : bytes;
  previous_was_cr_ : bool;
  pending_ : server_sent_event;
  pending_has_id_ : bool;
  last_id_ : bytes;
}.

Definition parser : server_sent_event_parser := MkParser [] false fresh false [].

(** The part of [std::from_chars] this code uses: the longest digit string,
    after one optional minus sign, as an [int], and where it stopped; [None]
    when [ec] reports no digits or a value out of range. *)
Fixpoint digits_prefix (s : bytes) : bytes * bytes :=
  match s with
  | c :: s' => if is_digit c then let '(ds, rest) := digits_prefix s' in (c :: ds, rest) else ([], s)
  | [] => ([], [])
  end.

Definition from_chars_int (s : bytes) : option (Z * bytes) :=
  let '(negative, s') :=
    match s with
    | c :: s' => if c =? ch "-" then (true, s') else (false, s)
    | [] => (false, [])
    end in
  let '(ds, rest) := digits_prefix s' in
  let v := if negative : bool then - dec_value ds else dec_value ds in
  match ds with
  | [] => None
  | _ => if (- 2 ^ 31 <=? v) && (v <? 2 ^ 31) then Some (v, rest) else None
  end.

(** [line.find(c)]: what precedes the first [c] and what follows it. *)
Fixpoint cut (c : Z) (s : bytes) : option (bytes * bytes) :=
  match s with
  | [] => None
  | x :: s' =>
      if x =? c then Some ([], s')
      else match cut c s' with
           | Some (a, b) => Some (x :: a, b)
           | None => None
           end
  end.

(** The state and the events pushed so far. *)
Definition step : Type := server_sent_event_parser * list server_sent_event.

Definition dispatch (s : step) : step :=
  let '(p, events) := s in
  let last_id := if pending_has_id_ p then id (pending_ p) else last_id_ p in
  let events :=
    match data (pending_ p) with
    | [] => events
    | d =>
        let d := if default 0 (last d) =? lf then take (length d - 1) d else d in
        let id := if negb (pending_has_id_ p) then last_id else id (pending_ p) in
        events ++ [MkEvent (type (pending_ p)) d id (retry_ms (pending_ p))]
    end in
  (MkParser (line_ p) (previous_was_cr_ p) fresh false last_id, events).

Definition with_pending (p : server_sent_event_parser) (e : server_sent_event) (has_id : bool)
    : server_sent_event_parser :=
  MkParser (line_ p) (previous_was_cr_ p) e has_id (last_id_ p).

(** The effect of a field on the pending event. *)
Definition process_field (p : server_sent_event_parser) (field value : bytes)
    : server_sent_event_parser :=
  let e := pending_ p in
  if decide (field = str "data") then
    with_pending p (MkEvent (type e) (data e ++ value ++ [lf]) (id e) (retry_ms e)) (pending_has_id_ p)
  else if decide (field = str "event") then
    let type := match value with [] => str "message" | _ => value end in
    with_pending p (MkEvent type (data e) (id e) (retry_ms e)) (pending_has_id_ p)
  else if decide (field = str "id") then
    match cut 0 value with
    | None => with_pending p (MkEvent (type e) (data e) value (retry_ms e)) true
    | Some _ => p
    end
  else if decide (field = str "retry") then
    match from_chars_int value with
    | Some (retry, []) =>
        with_pending p (MkEvent (type e) (data e) (id e) (Some retry)) (pending_has_id_ p)
    | _ => p
    end
  else p.

Definition process_line (s : step) (line : bytes) : step :=
  match line with
  | [] => dispatch s
  | c :: _ =>
      if c =? ch ":" then s
      else
        let '(field, value) := default (line, []) (cut (ch ":") line) in
        let value := match value with
                     | v :: value' => if v =? ch " " then value' else value
                     | [] => []
                     end in
        (process_field s.1 field value, s.2)
  end.

Definition clear_line (p : server_sent_event_parser) (was_cr : bool) : server_sent_event_parser :=
  MkParser [] was_cr (pending_ p) (pending_has_id_ p) (last_id_ p).

(** One turn of [feed]'s loop. *)
Definition feed_char (s : step) (c : Z) : step :=
  let '(p, events) := s in
  if c =? cr then
    let '(p', events') := process_line s (line_ p) in (clear_line p' true, events')
  else if c =? lf then
    if previous_was_cr_ p then
      (MkParser (line_ p) false (pending_ p) (pending_has_id_ p) (last_id_ p), events)
    else
      let '(p', events') := process_line s (line_ p) in (clear_line p' (previous_was_cr_ p'), events')
  else
    (MkParser (line_ p ++ [c]) false (pending_ p) (pending_has_id_ p) (last_id_ p), events).

Definition feed (p : server_sent_event_parser) (body : bytes) : step :=
  foldl feed_char (p, []) body.

Definition close (p : server_sent_event_parser) : step :=
  let p := MkParser (line_ p) false (pending_ p) (pending_has_id_ p) (last_id_ p) in
  let s :=
    match line_ p with
    | [] => (p, [])
    | l => let '(p', events) := process_line (p, []) l in (clear_line p' (previous_was_cr_ p'), events)
    end in
  dispatch s.

(** The events of a stream that arrives in pieces: each piece is fed, then the
    stream is closed. *)
Fixpoint feed_all (p : server_sent_event_parser) (chunks : list bytes) : step :=
  match chunks with
  | [] => close p
  | c :: chunks' =>
      let '(p', events) := feed p c in
      let '(p'', more) := feed_all p' chunks' in
      (p'', events ++ more)
  end.

(** ** The line structure *)

Lemma process_line_events p events line :
  process_line (p, events) line =
  let '(p', more) := process_line (p, []) line in (p', events ++ more).
Proof.
  unfold process_line. destruct line as [|c line].
  - unfold dispatch. destruct (data (pending_ p)); by rewrite ?app_nil_r.
  - destruct (c =? ch ":"); [by rewrite app_nil_r|].
    destruct (default _ _) as [field value]. by rewrite app_nil_r.
Qed.

Lemma feed_char_events p events c :
  feed_char (p, events) c = let '(p', more) := feed_char (p, []) c in (p', events ++ more).
Proof.
  unfold feed_char. destruct (c =? cr); [|destruct (c =? lf); [destruct (previous_was_cr_ p)|]];
    try by rewrite app_nil_r.
  - rewrite process_line_events. by destruct (process_line (p, []) _).
  - rewrite process_line_events. by destruct (process_line (p, []) _).
Qed.

Lemma feed_events body : ∀ p events,
  foldl feed_char (p, events) body = let '(p', more) := feed p body in (p', events ++ more).
Proof.
  unfold feed. induction body as [|c body IH]; intros p events; cbn [foldl]; [by rewrite app_nil_r|].
  rewrite feed_char_events. destruct (feed_char (p, []) c) as [p' e].
  rewrite IH, (IH _ e). destruct (foldl feed_char (p', []) body) as [p'' e'].
  by rewrite app_assoc.
Qed.

Lemma feed_app p a b :
  feed p (a ++ b) = let '(p', events) := feed p a in let '(p'', more) := feed p' b in (p'', events ++ more).
Proof.
  unfold feed at 1. rewrite foldl_app. fold (feed p a). destruct (feed p a) as [p' e].
  apply feed_events.
Qed.

Lemma feed_all_concat chunks : ∀ p, feed_all p chunks =
  let '(p', e) := feed p (concat chunks) in let '(p'', more) := close p' in (p'', e ++ more).
Proof.
  induction chunks as [|c chunks IH]; intros p; cbn [feed_all concat].
  - cbn. by destruct (close p).
  - rewrite feed_app. destruct (feed p c) as [p' e]. rewrite IH.
    destruct (feed p' (concat chunks)) as [p'' e']. destruct (close p'') as [p3 e3].
    by rewrite app_assoc.
Qed.

(** how a stream is cut into chunks does not matter: feeding it piece by
    piece and closing gives the events, and the parser, that feeding it whole
    gives, even when a cut falls inside a line or between a CR and its LF. *)
Theorem sse_chunking p chunks : feed_all p chunks = feed_all p [concat chunks].
Proof. rewrite !feed_all_concat. cbn [concat]. by rewrite app_nil_r. Qed.

(** The three line ends the parser knows. *)
Inductive terminator := T_cr | T_lf | T_crlf.

#[export] Instance terminator_eq_dec : EqDecision terminator.
Proof. solve_decision. Defined.

Definition eol (t : terminator) : bytes :=
  match t with
  | T_cr => [cr]
  | T_lf => [lf]
  | T_crlf => [cr; lf]
  end.

Definition plain (line : bytes) : Prop := Forall (λ c, c ≠ cr ∧ c ≠ lf) line.

(** The text of lines with their ends. A line with no text whose end is a lone
    LF, right after a lone CR, is the same text as one CRLF. *)
Definition text_of (ls : list (bytes * terminator)) : bytes :=
  concat ((λ l, l.1 ++ eol l.2) <$> ls).

Fixpoint unambiguous (after_cr : bool) (ls : list (bytes * terminator)) : Prop :=
  match ls with
  | [] => True
  | (l, t) :: ls' =>
      ~ (after_cr = true ∧ l = [] ∧ t = T_lf) ∧ unambiguous (bool_decide (t = T_cr)) ls'
  end.

Lemma feed_plain l p : plain l → l ≠ [] →
  feed p l = (MkParser (line_ p ++ l) false (pending_ p) (pending_has_id_ p) (last_id_ p), []).
Proof.
  intros Hl. unfold feed. revert p. induction Hl as [|c l [Hc Hn] Hl IH]; intros p Hne; [done|].
  cbn [foldl]. unfold feed_char at 2.
  destruct (Z.eqb_spec c cr); [done|]. destruct (Z.eqb_spec c lf); [done|].
  destruct l as [|c' l]; [done|]. rewrite IH by done. cbn. by rewrite <- app_assoc.
Qed.

(** What processing a line leaves alone. *)
Lemma process_line_keeps p events l :
  line_ (process_line (p, events) l).1 = line_ p ∧
  previous_was_cr_ (process_line (p, events) l).1 = previous_was_cr_ p.
Proof.
  unfold process_line. destruct l as [|c l]; [done|]. destruct (c =? ch ":"); [done|].
  destruct (default _ _) as [field value]. cbn [fst]. unfold process_field.
  repeat case_match; done.
Qed.

(** Processing a line looks only at the pending event and the last id. *)
Lemma process_line_frame p l line was_cr :
  process_line (MkParser line was_cr (pending_ p) (pending_has_id_ p) (last_id_ p), []) l =
  let '(p', e) := process_line (p, []) l in
  (MkParser line was_cr (pending_ p') (pending_has_id_ p') (last_id_ p'), e).
Proof.
  unfold process_line. destruct l as [|c l].
  - unfold dispatch. cbn. by destruct (data (pending_ p)).
  - destruct (c =? ch ":"); [done|]. destruct (default _ _) as [field value]. cbn [fst snd].
    unfold process_field. cbn [pending_ pending_has_id_ last_id_ with_pending line_ previous_was_cr_].
    repeat case_match; done.
Qed.

(** The parser's state but for the line being collected. *)
Definition at_line (p : server_sent_event_parser) (was_cr : bool) : server_sent_event_parser :=
  clear_line p was_cr.

Lemma feed_line p l t : plain l → line_ p = [] →
  ~ (previous_was_cr_ p = true ∧ l = [] ∧ t = T_lf) →
  feed p (l ++ eol t) =
  let '(p', e) := process_line (p, []) l in (at_line p' (bool_decide (t = T_cr)), e).
Proof.
  intros Hl Hp Hu. rewrite feed_app.
  set (q := MkParser l (if decide (l = []) then previous_was_cr_ p else false)
              (pending_ p) (pending_has_id_ p) (last_id_ p)).
  assert (feed p l = (q, [])) as ->.
  { unfold q. case_decide as He.
    - subst l. cbn. destruct p. cbn in *. by subst.
    - rewrite feed_plain, Hp by done. done. }
  assert (process_line (q, []) l = let '(p', e) := process_line (p, []) l in
    (MkParser l (previous_was_cr_ q) (pending_ p') (pending_has_id_ p') (last_id_ p'), e)) as Hq
    by apply process_line_frame.
  unfold feed, eol, at_line. destruct (process_line (p, []) l) as [p' e].
  destruct t; cbn [foldl]; unfold feed_char; cbn [Z.eqb Pos.eqb cr lf].
  - change (line_ q) with l. rewrite Hq. by cbn.
  - assert (previous_was_cr_ q = false) as Hf.
    { cbn. case_decide; [|done]. destruct (previous_was_cr_ p); [|done]. by destruct Hu. }
    rewrite Hf. change (line_ q) with l. rewrite Hq, Hf. by cbn.
  - change (line_ q) with l. rewrite Hq. by cbn.
Qed.

Lemma fold_lines_events ls p e :
  foldl process_line (p, e) ls = let '(p', e') := foldl process_line (p, []) ls in (p', e ++ e').
Proof.
  revert p e. induction ls as [|l ls IH]; intros p e; cbn [foldl]; [by rewrite app_nil_r|].
  rewrite process_line_events. destruct (process_line (p, []) l) as [p' e'].
  rewrite IH, (IH p' e'). destruct (foldl process_line (p', []) ls). by rewrite app_assoc.
Qed.

(** Runs of lines, whatever line was being collected. *)
Lemma fold_lines_frame ls : ∀ p was_cr,
  foldl process_line (at_line p was_cr, []) ls =
  let '(p', e) := foldl process_line (p, []) ls in
  (MkParser [] was_cr (pending_ p') (pending_has_id_ p') (last_id_ p'), e).
Proof.
  induction ls as [|l ls IH]; intros p was_cr; cbn [foldl]; [done|].
  unfold at_line, clear_line at 1. rewrite process_line_frame.
  destruct (process_line (p, []) l) as [p' e].
  rewrite fold_lines_events, (fold_lines_events ls p' e).
  specialize (IH p' was_cr). unfold at_line, clear_line in IH. rewrite IH.
  by destruct (foldl process_line (p', []) ls).
Qed.

(** Feeding lines is processing them. *)
Lemma feed_lines ls : ∀ p, Forall (λ l, plain l.1) ls → line_ p = [] →
  unambiguous (previous_was_cr_ p) ls →
  ∃ was_cr, feed p (text_of ls) =
    let '(p', e) := foldl process_line (p, []) (ls.*1) in (at_line p' was_cr, e).
Proof.
  induction ls as [|[l t] ls IH]; intros p Hl Hp Hu.
  - exists (previous_was_cr_ p). cbn. destruct p. cbn in Hp. by subst.
  - apply Forall_cons in Hl as [Hl Hls]. destruct Hu as [Hu Hus]. cbn [fst] in Hl.
    unfold text_of. rewrite fmap_cons. cbn [concat fst snd]. rewrite feed_app, feed_line by done.
    rewrite fmap_cons. cbn [foldl fst]. destruct (process_line (p, []) l) as [p' e] eqn:Hpl.
    destruct (IH (at_line p' (bool_decide (t = T_cr)))) as [was_cr Hf]; [done|done|done|].
    exists was_cr. unfold text_of in Hf. rewrite Hf, fold_lines_frame.
    rewrite (fold_lines_events _ p' e). by destruct (foldl process_line (p', []) (ls.*1)).
Qed.

(** the three line ends mean the same: a stream of lines, each ended by CR,
    LF or CRLF as the sender likes, gives the events, the pending event and the
    last event id of processing those lines one by one. *)
Theorem sse_line_ends p ls :
  Forall (λ l, plain l.1) ls → line_ p = [] → unambiguous (previous_was_cr_ p) ls →
  let s := feed p (text_of ls) in
  let s' := foldl process_line (p, []) (ls.*1) in
  s.2 = s'.2 ∧ line_ s.1 = [] ∧ pending_ s.1 = pending_ s'.1 ∧
  pending_has_id_ s.1 = pending_has_id_ s'.1 ∧ last_id_ s.1 = last_id_ s'.1.
Proof.
  intros Hl Hp Hu. destruct (feed_lines ls p Hl Hp Hu) as [was_cr Hf]. cbv zeta. rewrite Hf.
  by destruct (foldl process_line (p, []) (ls.*1)).
Qed.

Lemma sse_line_ends_witness :
  (feed parser (text_of [(str "data: a", T_cr); (str "id: 7", T_crlf); ([], T_lf)])).2 =
  [MkEvent (str "message") (str "a") (str "7") None].
Proof.
  eapply eq_trans; [|vm_compute; reflexivity].
  apply (sse_line_ends parser [(str "data: a", T_cr); (str "id: 7", T_crlf); ([], T_lf)]).
  - repeat constructor; done.
  - done.
  - by repeat split; intros (? & ? & ?).
Defined.

(** ** What a sender means *)

Record message := MkMessage {
  m_type : option bytes;
  m_data : list bytes;
  m_id : option bytes;
  m_retry : option Z;
}.

Definition field_line (name value : bytes) : bytes := name ++ [ch ":"; ch " "] ++ value.

(** The lines of a message, the blank one included. *)
Definition render (m : message) : list bytes :=
  (field_line (str "event") <$> option_list (m_type m)) ++
  (field_line (str "data") <$> m_data m) ++
  (field_line (str "id") <$> option_list (m_id m)) ++
  ((λ n, field_line (str "retry") (to_string n)) <$> option_list (m_retry m)) ++ [[]].

Fixpoint join_lines (ds : list bytes) : bytes :=
  match ds with
  | [] => []
  | [d] => d
  | d :: ds' => d ++ lf :: join_lines ds'
  end.

Definition received (last_id : bytes) (m : message) : server_sent_event :=
  MkEvent (default (str "message") (m_type m)) (join_lines (m_data m)) (default last_id (m_id m))
    (m_retry m).

(** A message without an id carries the last one seen. *)
Fixpoint received_all (last_id : bytes) (ms : list message) : list server_sent_event :=
  match ms with
  | [] => []
  | m :: ms' => received last_id m :: received_all (default last_id (m_id m)) ms'
  end.

Definition well_formed (m : message) : Prop :=
  (∀ t, m_type m = Some t → plain t ∧ t ≠ []) ∧
  Forall plain (m_data m) ∧ m_data m ≠ [] ∧
  (∀ i, m_id m = Some i → plain i ∧ 0 ∉ i) ∧
  (∀ n, m_retry m = Some n → 0 ≤ n < 2 ^ 31).

Lemma cut_found c a b : c ∉ a → cut c (a ++ c :: b) = Some (a, b).
Proof.
  induction a as [|x a IH]; intros Ha; cbn [cut app].
  - by rewrite Z.eqb_refl.
  - destruct (Z.eqb_spec x c) as [->|]; [set_solver|]. by rewrite IH by set_solver.
Qed.

Lemma cut_none c a : c ∉ a → cut c a = None.
Proof.
  induction a as [|x a IH]; intros Ha; cbn [cut]; [done|].
  destruct (Z.eqb_spec x c) as [->|]; [set_solver|]. by rewrite IH by set_solver.
Qed.

(** A field name of the protocol holds no colon. *)
Ltac field_name := first [discriminate | apply (bool_decide_unpack _); vm_compute; exact I].

Lemma process_field_line p e name value : ch ":" ∉ name → name ≠ [] →
  process_line (p, e) (field_line name value) = (process_field p name value, e).
Proof.
  intros Hn Hne. unfold process_line, field_line. destruct name as [|c name]; [done|].
  cbn [app]. destruct (Z.eqb_spec c (ch ":")) as [->|]; [set_solver|].
  change (c :: name ++ ch ":" :: ch " " :: value) with ((c :: name) ++ ch ":" :: ch " " :: value).
  by rewrite cut_found by done.
Qed.

Lemma digits_prefix_all ds : Forall (λ c, is_digit c = true) ds → digits_prefix ds = (ds, []).
Proof. induction 1 as [|c ds Hc Hds IH]; cbn [digits_prefix]; [done|]. by rewrite Hc, IH. Qed.

Lemma from_chars_to_string n : 0 ≤ n < 2 ^ 31 → from_chars_int (to_string n) = Some (n, []).
Proof.
  intros Hn. pose proof (to_string_digits n ltac:(lia)) as Hd. pose proof (to_string_nonempty n) as Hne.
  unfold from_chars_int. destruct (to_string n) as [|c ds] eqn:He; [done|].
  assert ((c =? ch "-") = false) as ->.
  { split_Forall. unfold is_digit in *. change (ch "-") with 45. lia. }
  rewrite digits_prefix_all by done. rewrite <- He, to_string_value by lia.
  destruct (Z.leb_spec (-2^31) n), (Z.ltb_spec n (2^31)); by try lia.
Qed.

(** The four fields. *)
Lemma field_data p v : process_field p (str "data") v =
  with_pending p (MkEvent (type (pending_ p)) (data (pending_ p) ++ v ++ [lf]) (id (pending_ p))
    (retry_ms (pending_ p))) (pending_has_id_ p).
Proof. done. Qed.

Lemma field_event p v : v ≠ [] → process_field p (str "event") v =
  with_pending p (MkEvent v (data (pending_ p)) (id (pending_ p)) (retry_ms (pending_ p)))
    (pending_has_id_ p).
Proof. by destruct v. Qed.

Lemma field_id p v : 0 ∉ v → process_field p (str "id") v =
  with_pending p (MkEvent (type (pending_ p)) (data (pending_ p)) v (retry_ms (pending_ p))) true.
Proof.
  intros Hv. transitivity (match cut 0 v with
    | None => with_pending p (MkEvent (type (pending_ p)) (data (pending_ p)) v (retry_ms (pending_ p))) true
    | Some _ => p end); [done|]. by rewrite cut_none.
Qed.

Lemma field_retry p n : 0 ≤ n < 2 ^ 31 → process_field p (str "retry") (to_string n) =
  with_pending p (MkEvent (type (pending_ p)) (data (pending_ p)) (id (pending_ p)) (Some n))
    (pending_has_id_ p).
Proof.
  intros Hn. transitivity (match from_chars_int (to_string n) with
    | Some (retry, []) => with_pending p (MkEvent (type (pending_ p)) (data (pending_ p))
        (id (pending_ p)) (Some retry)) (pending_has_id_ p)
    | _ => p end); [done|]. by rewrite from_chars_to_string.
Qed.

(** The data collected from data lines. *)
Definition collected (ds : list bytes) : bytes := concat ((λ d, d ++ [lf]) <$> ds).

Lemma collected_join ds : ds ≠ [] → collected ds = join_lines ds ++ [lf].
Proof.
  unfold collected. induction ds as [|d ds IH]; intros Hne; [done|]. rewrite fmap_cons. cbn [concat].
  destruct ds as [|d' ds]; [by rewrite app_nil_r|]. rewrite IH by done.
  cbn [join_lines]. by rewrite <- !app_assoc.
Qed.

Lemma process_data ds : ∀ p e,
  foldl process_line (p, e) (field_line (str "data") <$> ds) =
  (with_pending p (MkEvent (type (pending_ p)) (data (pending_ p) ++ collected ds) (id (pending_ p))
     (retry_ms (pending_ p))) (pending_has_id_ p), e).
Proof.
  unfold collected. induction ds as [|d ds IH]; intros p e.
  - cbn. rewrite app_nil_r. by destruct p as [? ? []].
  - rewrite !fmap_cons. cbn [foldl concat]. rewrite process_field_line by field_name.
    rewrite field_data, IH. cbn. by rewrite <- !app_assoc.
Qed.

Lemma process_render m p e : well_formed m → pending_ p = fresh → pending_has_id_ p = false →
  foldl process_line (p, e) (render m) =
  (MkParser (line_ p) (previous_was_cr_ p) fresh false (default (last_id_ p) (m_id m)),
   e ++ [received (last_id_ p) m]).
Proof.
  intros (Ht & Hd & Hne & Hi & Hr) Hp Hh. unfold render. rewrite !foldl_app.
  destruct m as [t ds i r]. cbn [m_type m_data m_id m_retry] in *.
  set (t' := default (str "message") t).
  assert (foldl process_line (p, e) (field_line (str "event") <$> option_list t) =
    (with_pending p (MkEvent t' [] [] None) false, e)) as ->.
  { destruct t as [t|].
    - change (foldl _ _ _) with (process_line (p, e) (field_line (str "event") t)).
      rewrite process_field_line by field_name. by rewrite field_event, Hp, Hh by by apply (Ht t).
    - destruct p. cbn in *. by subst. }
  rewrite process_data. cbn [pending_ with_pending type data id retry_ms app pending_has_id_].
  assert (foldl process_line (with_pending (with_pending p (MkEvent t' [] [] None) false)
      (MkEvent t' (collected ds) [] None) false, e)
      (field_line (str "id") <$> option_list i) =
    (with_pending p (MkEvent t' (collected ds) (default [] i) None) (bool_decide (is_Some i)), e)) as ->.
  { destruct i as [i|]; [|done].
    match goal with |- foldl _ ?s _ = _ =>
      change (foldl _ _ _) with (process_line s (field_line (str "id") i)) end.
    rewrite process_field_line by field_name. by rewrite field_id by by apply (Hi i). }
  assert (foldl process_line (with_pending p (MkEvent t' (collected ds) (default [] i) None)
      (bool_decide (is_Some i)), e)
      ((λ n, field_line (str "retry") (to_string n)) <$> option_list r) =
    (with_pending p (MkEvent t' (collected ds) (default [] i) r) (bool_decide (is_Some i)), e)) as ->.
  { destruct r as [r|]; [|done].
    match goal with |- foldl _ ?s _ = _ =>
      change (foldl _ _ _) with (process_line s (field_line (str "retry") (to_string r))) end.
    rewrite process_field_line by field_name. by rewrite field_retry by by apply Hr. }
  rewrite collected_join by done. cbn. unfold dispatch. cbn.
  destruct (join_lines ds ++ [lf]) as [|c d] eqn:Hj; [by apply app_eq_nil in Hj as [_ ?]|].
  assert (length d - 0 = length (join_lines ds))%nat as -> by (apply (f_equal length) in Hj; len).
  rewrite <- Hj, last_snoc, take_app_length. by destruct i.
Qed.

Lemma process_renders ms : ∀ p e, Forall well_formed ms → pending_ p = fresh →
  pending_has_id_ p = false → ∃ last_id,
  foldl process_line (p, e) (ms ≫= render) =
  (MkParser (line_ p) (previous_was_cr_ p) fresh false last_id, e ++ received_all (last_id_ p) ms).
Proof.
  induction ms as [|m ms IH]; intros p e Hw Hp Hh; cbn.
  - exists (last_id_ p). rewrite app_nil_r. destruct p. cbn in *. by subst.
  - apply Forall_cons in Hw as [Hm Hms]. rewrite foldl_app, process_render by done.
    edestruct IH as [i Hi]; [done|..]; last first.
    { exists i. rewrite Hi. cbn. by rewrite <- app_assoc. }
    all: done.
Qed.

Lemma field_line_plain name v : plain name → plain v → plain (field_line name v).
Proof. intros. unfold plain, field_line. rewrite !Forall_app. repeat constructor; done. Qed.

Lemma digits_plain n : 0 ≤ n → plain (to_string n).
Proof.
  intros Hn. eapply Forall_impl; [by apply to_string_digits|]. intros c. unfold is_digit, cr, lf. lia.
Qed.

Lemma render_plain m : well_formed m → Forall plain (render m).
Proof.
  intros (Ht & Hd & Hne & Hi & Hr). unfold render. rewrite !Forall_app, !Forall_fmap.
  repeat split.
  - destruct (m_type m); [|constructor]. apply Forall_singleton, field_line_plain; [|by apply Ht].
    by repeat constructor.
  - eapply Forall_impl; [done|]. intros. apply field_line_plain; [by repeat constructor|done].
  - destruct (m_id m); [|constructor]. apply Forall_singleton, field_line_plain; [|by apply Hi].
    by repeat constructor.
  - destruct (m_retry m) as [n|]; [|constructor]. apply Forall_singleton, field_line_plain.
    + by repeat constructor.
    + apply digits_plain. by apply (Hr n).
  - repeat constructor.
Qed.

(** C31: what a sender renders is what the parser delivers: messages with a
    type, one or more data lines, an id without NULs and a retry delay, sent
    with any mix of line ends and cut anywhere into chunks, arrive as exactly
    those events, data lines joined by LF, in order; a message without an id
    carries the id of the latest message that had one. *)
Theorem sse_delivers ms ls chunks :
  Forall well_formed ms → ls.*1 = ms ≫= render → unambiguous false ls →
  concat chunks = text_of ls →
  (feed_all parser chunks).2 = received_all [] ms.
Proof.
  intros Hw Hls Hu Hc. rewrite feed_all_concat, Hc.
  destruct (feed_lines ls parser) as [was_cr ->]; [|done|done|].
  - assert (Forall plain (ls.*1)) as H; [|by rewrite Forall_fmap in H].
    rewrite Hls. clear Hls. induction Hw as [|m ms Hm Hms IH]; [done|].
    cbn. apply Forall_app. split; [by apply render_plain|done].
  - rewrite Hls. destruct (process_renders ms parser [] Hw eq_refl eq_refl) as [i ->].
    cbn. by rewrite app_nil_r.
Qed.

Lemma sse_delivers_witness :
  (feed_all parser [str "event: x" ++ [cr]; [lf] ++ str "data: a" ++ [lf] ++ str "da"; str "ta: " ++ [lf; lf]]).2 =
  received_all [] [MkMessage (Some (str "x")) [str "a"; []] None None].
Proof.
  apply (sse_delivers [MkMessage (Some (str "x")) [str "a"; []] None None]
    [(str "event: x", T_crlf); (str "data: a", T_lf); (str "data: ", T_lf); ([], T_lf)]).
  - apply Forall_singleton. split; [|split; [|split; [|split]]]; cbn; try done.
    + intros ? [= <-]. by repeat constructor.
    + by repeat constructor.
  - done.
  - by repeat split; intros (? & ? & ?).
  - done.
Defined.

End Sse.

Module Request.

Record header := MkHeader { name : bytes; value : bytes }.

Record request := MkRequest {
  method : bytes;
  target : bytes;
  host : bytes;
  headers : list header;
  body : bytes;
}.

Definition crlf : bytes := [13; 10].

(** [std::tolower] in the C locale. *)
Definition tolower (c : Z) : Z := if (ch "A" <=? c) && (c <=? ch "Z") then c + 32 else c.

Definition header_name_is (lhs rhs : bytes) : bool :=
  (length lhs =? length rhs)%nat && bool_decide (tolower <$> lhs = tolower <$> rhs).

(** One turn of the loop over the headers: the two flags and the text. *)
Definition add_header (s : bool * bool * bytes) (h : header) : bool * bool * bytes :=
  let '(has_content_length, has_connection, out) := s in
  (has_content_length || header_name_is (name h) (str "content-length"),
   has_connection || header_name_is (name h) (str "connection"),
   out ++ name h ++ str ": " ++ value h ++ crlf).

Definition serialize (req : request) : bytes :=
  let out := method req ++ str " " ++ target req ++ str " HTTP/1.1" ++ crlf in
  let out := match host req with
             | [] => out
             | _ => out ++ str "Host: " ++ host req ++ crlf
             end in
  let '(has_content_length, has_connection, out) :=
    foldl add_header (false, false, out) (headers req) in
  let out := if negb has_content_length
             then out ++ str "Content-Length: " ++ to_string (Z.of_nat (length (body req))) ++ crlf
             else out in
  let out := if negb has_connection then out ++ str "Connection: close" ++ crlf else out in
  out ++ crlf ++ body req.

(** ** What the peer reads *)

(** The lines up to the first empty one, and what follows it. *)
Fixpoint read_head (acc s : bytes) : option (list bytes * bytes) :=
  match s with
  | [] => None
  | c :: s' =>
      match c, s' with
      | 13, 10 :: s'' =>
          match acc with
          | [] => Some ([], s'')
          | _ => match read_head [] s'' with
                 | Some (ls, rest) => Some (acc :: ls, rest)
                 | None => None
                 end
          end
      | _, _ => read_head (acc ++ [c]) s'
      end
  end.

(** The headers a request is sent with. *)
Definition has_header (req : request) (n : string) : bool :=
  existsb (λ h, header_name_is (name h) (str n)) (headers req).

Definition sent_headers (req : request) : list header :=
  (match host req with [] => [] | h => [MkHeader (str "Host") h] end) ++
  headers req ++
  (if has_header req "content-length" then []
   else [MkHeader (str "Content-Length") (to_string (Z.of_nat (length (body req))))]) ++
  (if has_header req "connection" then [] else [MkHeader (str "Connection") (str "close")]).

Definition header_line (h : header) : bytes := name h ++ str ": " ++ value h.

Definition head_lines (req : request) : list bytes :=
  (method req ++ str " " ++ target req ++ str " HTTP/1.1") :: (header_line <$> sent_headers req).

Definition lines_text (ls : list bytes) : bytes := concat ((λ l, l ++ crlf) <$> ls).

(** Text a caller may put into a head: no carriage return. *)
Definition safe (s : bytes) : Prop := 13 ∉ s.

Definition safe_request (req : request) : Prop :=
  safe (method req) ∧ safe (target req) ∧ safe (host req) ∧
  Forall (λ h, safe (name h) ∧ safe (value h)) (headers req).

Lemma read_head_line l : ∀ acc s, safe l → acc ++ l ≠ [] →
  read_head acc (l ++ crlf ++ s) =
  match read_head [] s with Some (ls, rest) => Some ((acc ++ l) :: ls, rest) | None => None end.
Proof.
  induction l as [|c l IH]; intros acc s Hl Hne.
  - rewrite app_nil_r in *. cbn. by destruct acc.
  - unfold safe in Hl. apply not_elem_of_cons in Hl as [Hc Hl].
    cbn [app]. transitivity (read_head (acc ++ [c]) (l ++ crlf ++ s)).
    + cbn [read_head]. repeat (case_match; try done).
    + rewrite IH; [by rewrite <- app_assoc|done|by destruct acc].
Qed.

Lemma read_head_lines ls : ∀ s, Forall (λ l, safe l ∧ l ≠ []) ls →
  read_head [] (lines_text ls ++ crlf ++ s) = Some (ls, s).
Proof.
  unfold lines_text. induction ls as [|l ls IH]; intros s Hls; [done|].
  apply Forall_cons in Hls as [[Hl Hne] Hls]. rewrite fmap_cons. cbn [concat].
  rewrite <- !app_assoc, read_head_line by done. by rewrite IH.
Qed.

Lemma add_headers hs : ∀ a b out,
  foldl add_header (a, b, out) hs =
  (a || existsb (λ h, header_name_is (name h) (str "content-length")) hs,
   b || existsb (λ h, header_name_is (name h) (str "connection")) hs,
   out ++ lines_text (header_line <$> hs)).
Proof.
  unfold lines_text. induction hs as [|h hs IH]; intros a b out; cbn [foldl existsb].
  - by rewrite !orb_false_r, app_nil_r.
  - unfold add_header at 2. rewrite IH, !fmap_cons, !orb_assoc. cbn [concat].
    unfold header_line. by rewrite <- !app_assoc.
Qed.

Lemma lines_text_app a b : lines_text (a ++ b) = lines_text a ++ lines_text b.
Proof. unfold lines_text. by rewrite fmap_app, concat_app. Qed.

Lemma lines_text_cons l ls : lines_text (l :: ls) = l ++ crlf ++ lines_text ls.
Proof. unfold lines_text. rewrite fmap_cons. cbn [concat]. by rewrite <- app_assoc. Qed.

Lemma serialize_lines req : serialize req = lines_text (head_lines req) ++ crlf ++ body req.
Proof.
  unfold serialize, head_lines, sent_headers, has_header. rewrite add_headers. cbn [orb].
  generalize (existsb (λ h, header_name_is (name h) (str "content-length")) (headers req)) as cl.
  generalize (existsb (λ h, header_name_is (name h) (str "connection")) (headers req)) as cn.
  generalize (to_string (Z.of_nat (length (body req)))) as size. intros size cn cl.
  rewrite lines_text_cons, !fmap_app, !lines_text_app.
  destruct (host req) as [|c h], cl, cn; cbn [negb fmap list_fmap];
    rewrite ?lines_text_cons, <- ?app_assoc; reflexivity.
Qed.

(** the bytes of a request frame it: a peer that reads lines up to the first
    empty one reads the request line and the headers, the caller's in their
    order with the host before them and the computed ones after, and is left
    with exactly the body, provided the caller's parts hold no carriage return. *)
Theorem serialize_framing req : safe_request req →
  read_head [] (serialize req) = Some (head_lines req, body req).
Proof.
  intros (Hm & Ht & Hh & Hhs). rewrite serialize_lines. apply read_head_lines.
  assert (∀ h, safe (name h) ∧ safe (value h) → safe (header_line h) ∧ header_line h ≠ []) as Hline.
  { intros h [Hn Hv]. unfold safe, header_line in *. split.
    - rewrite !not_elem_of_app. split; [done|]. split; [|done]. by apply (bool_decide_unpack _).
    - by intros [_ [? _]%app_eq_nil]%app_eq_nil. }
  apply Forall_cons. split.
  { unfold safe in *. split; [|by intros [_ [? _]%app_eq_nil]%app_eq_nil].
    rewrite !not_elem_of_app. repeat split; try done; by apply (bool_decide_unpack _). }
  apply Forall_fmap. eapply Forall_impl; [|exact Hline]. unfold sent_headers.
  rewrite !Forall_app. repeat split.
  - destruct (host req); [constructor|]. apply Forall_singleton. split; [|done].
    by apply (bool_decide_unpack _).
  - done.
  - destruct (has_header _ _); [constructor|]. apply Forall_singleton.
    split; [by apply (bool_decide_unpack _)|]. intros Hin. cbn [value] in Hin.
    pose proof (to_string_digits (Z.of_nat (length (body req))) ltac:(lia)) as Hd.
    rewrite Forall_forall in Hd. by specialize (Hd 13 Hin).
  - destruct (has_header _ _); [constructor|]. apply Forall_singleton.
    split; by apply (bool_decide_unpack _).
Qed.

Lemma serialize_framing_witness :
  let req := MkRequest (str "POST") (str "/v1") (str "h") [MkHeader (str "X") (str "y")] (str "ab") in
  read_head [] (serialize req) =
    Some ([str "POST /v1 HTTP/1.1"; str "Host: h"; str "X: y"; str "Content-Length: 2";
           str "Connection: close"], str "ab").
Proof.
  apply (serialize_framing
    (MkRequest (str "POST") (str "/v1") (str "h") [MkHeader (str "X") (str "y")] (str "ab"))).
  repeat split; try apply Forall_singleton; repeat split; by apply (bool_decide_unpack _).
Defined.

End Request.
