(* ===== verification/Body.v ===== *)
(** * HTTP responses over a byte feed

    src/src/nxtrt/http.hpp: module [Head] is the parsing of URLs, status lines and
    header fields, module [Body] the [http_body_reader] that takes the transfer
    framing off a response body read from a byte feed ([Feed]). *)
From S2P Require Import Prelude State Ring Feed Http.
#[local] Open Scope Z_scope.

(** The exceptions that leave this code: its own, and the feed's. *)
Inductive http_error :=
| protocol_error (what : string)
| feed_failed (e : feed_error).

Module Head.

Definition ascii_lower (c : Z) : Z := if (ch "A" <=? c) && (c <=? ch "Z") then c - ch "A" + ch "a" else c.

Definition iequals (a b : bytes) : bool :=
  (length a =? length b)%nat && bool_decide (ascii_lower <$> a = ascii_lower <$> b).

Definition is_blank (c : Z) : bool := (c =? ch " ") || (c =? 9).

Fixpoint trim_front (text : bytes) : bytes :=
  match text with
  | c :: text' => if is_blank c then trim_front text' else text
  | [] => []
  end.

Definition trim_ascii (text : bytes) : bytes := reverse (trim_front (reverse (trim_front text))).

(** [text.find(c)]: the text before the first [c] and the text after it. *)
Abbreviation cut := Http.Sse.cut.

(** [text.rfind(c)]. *)
Definition cut_last (c : Z) (s : bytes) : option (bytes * bytes) :=
  match cut c (reverse s) with
  | Some (a, b) => Some (reverse b, reverse a)
  | None => None
  end.

(** ** URLs *)

Record url := MkUrl { tls : bool; host : bytes; port : bytes; target : bytes }.

Definition strip_prefix (p text : bytes) : option bytes :=
  if starts_with p text then Some (drop (length p) text) else None.

Definition parse_authority (tls : bool) (authority target : bytes) : result http_error url :=
  match cut_last (ch ":") authority with
  | Some (h, p) =>
      if bool_decide (h = []) || bool_decide (p = []) then Throw (protocol_error "invalid URL authority")
      else Ret (MkUrl tls h p target)
  | None => Ret (MkUrl tls authority (if tls then str "443" else str "80") target)
  end.

Definition parse_url (text : bytes) : result http_error url :=
  let! scheme :=
    match strip_prefix (str "http://") text, strip_prefix (str "https://") text with
    | Some t, _ => Ret (false, t)
    | None, Some t => Ret (true, t)
    | None, None => Throw (protocol_error "only http:// and https:// URLs are supported")
    end in
  let '(tls, text) := scheme in
  let '(authority, target) :=
    match cut (ch "/") text with
    | Some (a, t) => (a, ch "/" :: t)
    | None => (text, [ch "/"])
    end in
  if bool_decide (authority = []) then Throw (protocol_error "URL host is empty")
  else parse_authority tls authority target.

Definition is_default_port (u : url) : bool :=
  (negb (tls u) && bool_decide (port u = str "80")) || (tls u && bool_decide (port u = str "443")).

Definition host_header (u : url) : bytes :=
  if is_default_port u then host u else host u ++ [ch ":"] ++ port u.

(** ** Response heads *)

Abbreviation header := Http.Request.header.
Abbreviation MkHeader := Http.Request.MkHeader.
Abbreviation header_name := Http.Request.name.
Abbreviation header_text := Http.Request.value.

Record response_head := MkHead {
  version : bytes;
  status : Z;
  reason : bytes;
  headers : list header;
}.

Definition crlf : bytes := [13; 10].

(** The next line and the text after its end. *)
Definition next_line (text : bytes) : bytes * bytes :=
  let eol := find_bytes text crlf in
  if (eol =? length text)%nat then (text, []) else (take eol text, drop (eol + 2) text).

Definition parse_status_line (line : bytes) : result http_error (bytes * Z * bytes) :=
  match cut (ch " ") line with
  | None => Throw (protocol_error "malformed HTTP status line")
  | Some (v, rest) =>
      let '(status_text, reason) :=
        match cut (ch " ") rest with
        | Some (s, r) => (s, r)
        | None => (rest, [])
        end in
      match Http.Sse.from_chars_int status_text with
      | Some (n, []) => Ret (v, n, reason)
      | _ => Throw (protocol_error "malformed HTTP status code")
      end
  end.

(** The header a line holds: a line without a colon holds none. *)
Definition parse_header (line : bytes) : option header :=
  match cut (ch ":") line with
  | Some (n, v) => Some (MkHeader (trim_ascii n) (trim_ascii v))
  | None => None
  end.

(** The loop over the header lines; a line takes one byte or more. *)
Fixpoint parse_headers (fuel : nat) (text : bytes) : option (list header) :=
  match fuel with
  | O => None
  | S fuel' =>
      match text with
      | [] => Some []
      | _ =>
          let '(line, text') := next_line text in
          match parse_headers fuel' text' with
          | None => None
          | Some hs => Some (match parse_header line with Some h => h :: hs | None => hs end)
          end
      end
  end.

Definition parse_response_head (text : bytes) : option (result http_error response_head) :=
  match text with
  | [] => Some (Throw (protocol_error "missing response status line"))
  | _ =>
      let '(line, text') := next_line text in
      match parse_status_line line with
      | Throw e => Some (Throw e)
      | Ret (v, s, r) =>
          match parse_headers (S (length text')) text' with
          | None => None
          | Some hs =>
              Some (if bool_decide (v = []) then Throw (protocol_error "missing response status line")
                    else Ret (MkHead v s r hs))
          end
      end
  end.

(** The value of the first header with the name. *)
Fixpoint header_value (hs : list header) (name : bytes) : option bytes :=
  match hs with
  | [] => None
  | h :: hs' => if iequals (header_name h) name then Some (header_text h) else header_value hs' name
  end.

(** The loop over a comma-separated list. *)
Fixpoint list_has_token (fuel : nat) (rest token : bytes) : bool :=
  match fuel with
  | O => false
  | S fuel' =>
      match cut (ch ",") rest with
      | Some (p, rest') => iequals (trim_ascii p) token || list_has_token fuel' rest' token
      | None => iequals (trim_ascii rest) token
      end
  end.

Definition has_header_token (head : response_head) (name token : bytes) : bool :=
  match header_value (headers head) name with
  | None => false
  | Some v => list_has_token (S (length v)) v token
  end.

(** [std::from_chars] of a [std::size_t] in base [base]: the value of the longest
    run of digits, if there is one and it fits, and the text after it. *)
Definition digit_value (base c : Z) : option Z :=
  let v := if is_digit c then c - 48
           else if (ch "a" <=? c) && (c <=? ch "f") then c - ch "a" + 10
           else if (ch "A" <=? c) && (c <=? ch "F") then c - ch "A" + 10 else base in
  if v <? base then Some v else None.

Fixpoint digits_value (base acc : Z) (s : bytes) : Z * bytes :=
  match s with
  | [] => (acc, [])
  | c :: s' =>
      match digit_value base c with
      | Some v => digits_value base (acc * base + v) s'
      | None => (acc, s)
      end
  end.

Definition from_chars_size (base : Z) (s : bytes) : option (Z * bytes) :=
  let '(v, rest) := digits_value base 0 s in
  if (length rest =? length s)%nat || (2 ^ 64 <=? v) then None else Some (v, rest).

Definition content_length (head : response_head) : result http_error (option Z) :=
  match header_value (headers head) (str "content-length") with
  | None => Ret None
  | Some v =>
      match from_chars_size 10 v with
      | Some (n, []) => Ret (Some n)
      | _ => Throw (protocol_error "invalid Content-Length")
      end
  end.

Definition is_chunked (head : response_head) : bool :=
  has_header_token head (str "transfer-encoding") (str "chunked").

Inductive content_encoding := identity | gzip | deflate | zstd | brotli.

(** One entry of the Content-Encoding list. *)
Definition encoding_part (part : bytes) (acc : option content_encoding)
    : result http_error (option content_encoding) :=
  if bool_decide (part = []) || iequals part (str "identity") then Ret acc
  else
    match acc with
    | Some _ => Throw (protocol_error "stacked Content-Encoding values are not supported")
    | None =>
        if iequals part (str "gzip") || iequals part (str "x-gzip") then Ret (Some gzip)
        else if iequals part (str "deflate") then Ret (Some deflate)
        else if iequals part (str "zstd") then Ret (Some zstd)
        else if iequals part (str "br") then Ret (Some brotli)
        else Throw (protocol_error "unsupported Content-Encoding")
    end.

Fixpoint encoding_list (fuel : nat) (rest : bytes) (acc : option content_encoding)
    : option (result http_error content_encoding) :=
  match fuel with
  | O => None
  | S fuel' =>
      match cut (ch ",") rest with
      | Some (p, rest') =>
          match encoding_part (trim_ascii p) acc with
          | Ret acc' => encoding_list fuel' rest' acc'
          | Throw e => Some (Throw e)
          end
      | None => Some (let! acc' := encoding_part (trim_ascii rest) acc in Ret (default identity acc'))
      end
  end.

Definition response_content_encoding (head : response_head) : option (result http_error content_encoding) :=
  match header_value (headers head) (str "content-encoding") with
  | None => Some (Ret identity)
  | Some v => encoding_list (S (length v)) v None
  end.

Definition parse_chunk_size (line : bytes) : result http_error Z :=
  let size_text := match cut (ch ";") line with Some (s, _) => s | None => line end in
  if bool_decide (size_text = []) then Throw (protocol_error "empty chunk size")
  else
    match from_chars_size 16 size_text with
    | Some (n, []) => Ret n
    | _ => Throw (protocol_error "invalid chunk size")
    end.

(** ** A head and its text *)

Definition header_line (h : header) : bytes := header_name h ++ str ": " ++ header_text h.

Definition status_line (h : response_head) : bytes :=
  version h ++ [ch " "] ++ to_string (status h) ++ [ch " "] ++ reason h.

(** The text of a head, without the blank line. *)
Definition render (h : response_head) : bytes :=
  status_line h ++ concat ((λ f, crlf ++ header_line f) <$> headers h).

Record header_ok (h : header) : Prop := {
  ho_colon : ch ":" ∉ header_name h;
  ho_name : 13 ∉ header_name h;
  ho_value : 13 ∉ header_text h;
  ho_trim_name : trim_ascii (header_name h) = header_name h;
  ho_trim_value : trim_ascii (header_text h) = header_text h;
}.

Record head_ok (h : response_head) : Prop := {
  hk_version : version h ≠ [] ∧ (ch " " ∉ version h) ∧ (13 ∉ version h);
  hk_status : 0 ≤ status h < 2 ^ 31;
  hk_reason : 13 ∉ reason h;
  hk_headers : Forall header_ok (headers h);
}.

Lemma find_skip line x d : 13 ∉ line → find_bytes (line ++ x) (13 :: d) = (length line + find_bytes x (13%Z :: d))%nat.
Proof.
  induction line as [|c line IH]; intros Hl; [done|]. apply not_elem_of_cons in Hl as [Hc Hl].
  cbn [app length find_bytes starts_with]. destruct (Z.eqb_spec 13 c); [done|]. cbn [andb]. by rewrite IH.
Qed.

(** The lines after the first. *)
Definition fields (hs : list header) : bytes :=
  match hs with
  | [] => []
  | h :: hs' => header_line h ++ concat ((λ f, crlf ++ header_line f) <$> hs')
  end.

Lemma next_line_fields line hs : 13 ∉ line →
  next_line (line ++ concat ((λ f, crlf ++ header_line f) <$> hs)) = (line, fields hs).
Proof.
  intros Hl. unfold next_line. cbv zeta. change (find_bytes ?t crlf) with (find_bytes t (13 :: [10])).
  rewrite find_skip by done. destruct hs as [|h hs].
  - cbn [concat fmap list_fmap find_bytes starts_with]. rewrite app_nil_r, Nat.add_0_r, Nat.eqb_refl. done.
  - set (rest := concat _). assert (rest = 13 :: 10 :: fields (h :: hs)) as -> by done.
    cbn [find_bytes starts_with Z.eqb Pos.eqb andb]. rewrite Nat.add_0_r, length_app.
    destruct (Nat.eqb_spec (length line) (length line + length (13 :: 10 :: fields (h :: hs)))) as [E|_]; [cbn in E; lia|].
    rewrite take_app_length, <- drop_drop, drop_app_length. done.
Qed.

Lemma not_in_digits n c : 0 ≤ n → is_digit c = false → c ∉ to_string n.
Proof.
  intros Hn Hc Hin. pose proof (to_string_digits n Hn) as Hd. rewrite Forall_forall in Hd. apply Hd in Hin. congruence.
Qed.

Lemma header_line_clean h : header_ok h → (13 ∉ header_line h) ∧ header_line h ≠ [] ∧
  parse_header (header_line h) = Some h.
Proof.
  intros [Hc Hn Hv Htn Htv]. split; [|split].
  - unfold header_line. rewrite !not_elem_of_app. split; [done|]. split; [|done].
    change (str ": ") with [58; 32]. rewrite !not_elem_of_cons. split; [done|]. split; [done|]. apply not_elem_of_nil.
  - unfold header_line. by intros [_ ?]%app_eq_nil.
  - unfold parse_header, header_line. change (str ": " ++ header_text h) with (ch ":" :: ch " " :: header_text h).
    rewrite Http.Sse.cut_found by done. rewrite Htn.
    change (trim_ascii (ch " " :: header_text h)) with (trim_ascii (header_text h)). rewrite Htv. by destruct h.
Qed.

Lemma parse_headers_fields hs : Forall header_ok hs → ∀ fuel, (length (fields hs) < fuel)%nat →
  parse_headers fuel (fields hs) = Some hs.
Proof.
  induction 1 as [|h hs Hh Hhs IH]; intros [|fuel] Hf; try done; [cbn in Hf; lia..|].
  destruct (header_line_clean h Hh) as (Hcr & Hne & Hp). cbn [parse_headers].
  destruct (fields (h :: hs)) as [|c t] eqn:E; [by apply app_eq_nil in E as [? _]|]. rewrite <- E in *.
  unfold fields at 1. rewrite next_line_fields by done. rewrite IH, Hp; [done|].
  assert (length (fields hs) < length (fields (h :: hs)))%nat; [|lia]. unfold fields at 2. destruct hs as [|h' hs'].
  - rewrite app_nil_r. cbn. destruct (header_line h); [done|cbn; lia].
  - cbn [fields fmap list_fmap concat]. rewrite !length_app. cbn. lia.
Qed.

Lemma status_line_clean h : head_ok h → 13 ∉ status_line h.
Proof.
  intros [(_ & _ & ?) ? ? _]. unfold status_line. rewrite !not_elem_of_app, !list_elem_of_singleton.
  split_and!; try done. apply not_in_digits; [lia|done].
Qed.

Lemma parse_render h : head_ok h → parse_response_head (render h) = Some (Ret h).
Proof.
  intros Hh. pose proof (status_line_clean h Hh) as Hcr. destruct Hh as [(Hv0 & Hvs & _) Hs Hr Hhs].
  unfold parse_response_head. destruct (render h) as [|c t] eqn:E.
  { by apply app_eq_nil in E as [[? _]%app_eq_nil _]. }
  rewrite <- E. unfold render. rewrite next_line_fields by done.
  unfold parse_status_line, status_line. change ([ch " "] ++ ?x) with (ch " " :: x). rewrite Http.Sse.cut_found by done.
  change ([ch " "] ++ ?x) with (ch " " :: x). rewrite Http.Sse.cut_found by (apply not_in_digits; [lia|done]). rewrite Http.Sse.from_chars_to_string by done.
  rewrite parse_headers_fields by (done || lia). rewrite bool_decide_false by done. by destruct h.
Qed.

Lemma find_line_end c x : 13 ≠ c →
  find_bytes (13 :: 10 :: c :: x) [13; 10; 13; 10] = S (S (find_bytes (c :: x) [13; 10; 13; 10])).
Proof. intros Hc%Z.eqb_neq. cbn [find_bytes starts_with]. rewrite Hc. done. Qed.

(** The first blank line of a head's text is the one that ends it. *)
Lemma find_blank_line hs rest : Forall header_ok hs → ∀ line, 13 ∉ line →
  find_bytes ((line ++ concat ((λ f, crlf ++ header_line f) <$> hs)) ++ crlf ++ crlf ++ rest) (crlf ++ crlf) =
  length (line ++ concat ((λ f, crlf ++ header_line f) <$> hs)).
Proof.
  change (crlf ++ crlf) with (13 :: [10; 13; 10]). induction 1 as [|h hs Hh Hhs IH]; intros line Hl.
  - cbn [concat fmap list_fmap]. rewrite app_nil_r. rewrite find_skip by done. cbn. lia.
  - destruct (header_line_clean h Hh) as (Hcr & Hne & _). rewrite <- app_assoc, find_skip, length_app by done. f_equal.
    cbn [fmap list_fmap concat]. specialize (IH _ Hcr).
    destruct (header_line h) as [|c t] eqn:E; [done|]. apply not_elem_of_cons in Hcr as [Hc _].
    transitivity (S (S (find_bytes (((c :: t) ++ concat ((λ f, crlf ++ header_line f) <$> hs)) ++ crlf ++ crlf ++ rest) [13; 10; 13; 10]))).
    + cbn [app]. rewrite <- find_line_end by done. unfold crlf. cbn [app]. by rewrite <- !app_assoc.
    + rewrite IH. done.
Qed.

End Head.

Module Body.
Import Head.

(** How the end of the body is found. *)
Inductive mode := mode_content_length | mode_chunked | mode_until_eof.

Record http_body_reader := MkReader {
  reader_ : feed;
  mode_ : mode;
  remaining_ : Z;
  done_ : bool;
}.

Abbreviation op := (prog http_body_reader http_error).

Definition set_reader (b : http_body_reader) (f : feed) : http_body_reader :=
  MkReader f (mode_ b) (remaining_ b) (done_ b).

Definition set_remaining (n : Z) (b : http_body_reader) : http_body_reader :=
  MkReader (reader_ b) (mode_ b) n (done_ b).

Definition set_done (d : bool) (b : http_body_reader) : http_body_reader :=
  MkReader (reader_ b) (mode_ b) (remaining_ b) d.

(** [co_await reader_->verb(...)]: an exception of the feed goes through. *)
Definition on_reader {A} (m : prog feed feed_error A) : op A := λ b,
  match m (reader_ b) with
  | None => None
  | Some (Ret a, f) => Some (Ret a, set_reader b f)
  | Some (Throw e, f) => Some (Throw (feed_failed e), set_reader b f)
  end.

(** [as_string_view(span)]: the bytes the span shows now. *)
Definition span_bytes (s : span) : op bytes := gets (λ b, view (mem (reader_ b)) s).

(** The constructor, over a borrowed feed. *)
Definition configure (f : feed) (head : response_head) : result http_error http_body_reader :=
  if is_chunked head then Ret (MkReader f mode_chunked 0 false)
  else
    let! length := content_length head in
    match length with
    | Some n => Ret (MkReader f mode_content_length n (n =? 0))
    | None => Ret (MkReader f mode_until_eof 0 false)
    end.

(** [remaining_ -= n] of [std::size_t]. *)
Definition consume (n : nat) (b : http_body_reader) : http_body_reader :=
  set_remaining (wrap 64 (remaining_ b - Z.of_nat n)) b.

Definition next_content_length (limit : Z) : op (option span) :=
  remaining <~ gets remaining_;
  if remaining =? 0 then _ <~ modify (set_done true); pret None
  else
    chunk <~ on_reader (take_some (Z.to_nat (Z.min limit remaining)));
    match chunk with
    | None => pthrow (protocol_error "unexpected end of content-length body")
    | Some s =>
        _ <~ modify (consume (len_ s));
        left <~ gets remaining_;
        _ <~ (if left =? 0 then modify (set_done true) else pret tt);
        pret (Some s)
    end.

(** One piece of the chunk that is being read, and the CRLF after its last. *)
Definition next_piece (limit : Z) : op (option span) :=
  remaining <~ gets remaining_;
  chunk <~ on_reader (take_some (Z.to_nat (Z.min limit remaining)));
  match chunk with
  | None => pthrow (protocol_error "unexpected end of chunked body")
  | Some s =>
      _ <~ modify (consume (len_ s));
      left <~ gets remaining_;
      _ <~ (if (left =? 0) && negb (len_ s =? 0)%nat then
              end_ <~ on_reader (take_until crlf);
              require (len_ end_ =? 0)%nat (protocol_error "chunk data was not followed by CRLF")
            else pret tt);
      pret (Some s)
  end.

(** The loop: a chunk-size line that is not the last is followed by a piece. *)
Fixpoint next_chunked_loop (fuel : nat) (limit : Z) : op (option span) :=
  match fuel with
  | O => λ _, None
  | S fuel' =>
      remaining <~ gets remaining_;
      if 0 <? remaining then next_piece limit
      else
        line <~ on_reader (take_until crlf);
        text <~ span_bytes line;
        match parse_chunk_size text with
        | Throw e => pthrow e
        | Ret size =>
            if size =? 0 then
              trailers <~ on_reader (take_until crlf);
              _ <~ require (len_ trailers =? 0)%nat (protocol_error "chunk trailers are not supported");
              _ <~ modify (set_done true);
              pret None
            else
              _ <~ modify (set_remaining size);
              next_chunked_loop fuel' limit
        end
  end.

Definition next_chunked : Z → op (option span) := next_chunked_loop 2.

Definition next_until_eof (limit : Z) : op (option span) :=
  chunk <~ on_reader (take_some (Z.to_nat limit));
  _ <~ (match chunk with None => modify (set_done true) | Some _ => pret tt end);
  pret chunk.

(** [next]: the next piece of the body, nothing at its end. *)
Definition next (limit : Z) : op (option span) :=
  finished <~ gets done_;
  if finished then pret None
  else
    m <~ gets mode_;
    match m with
    | mode_content_length => next_content_length limit
    | mode_chunked => next_chunked limit
    | mode_until_eof => next_until_eof limit
    end.

(** [read_response_head], on the feed. *)
Definition read_response_head (f : feed) : option (result http_error response_head * feed) :=
  match take_until (crlf ++ crlf) f with
  | None => None
  | Some (Throw e, f') => Some (Throw (feed_failed e), f')
  | Some (Ret s, f') =>
      match parse_response_head (view (mem f') s) with
      | None => None
      | Some r => Some (r, f')
      end
  end.

(** ** The verbs through the reader *)

Definition through {A} (r : result feed_error A) : result http_error A :=
  match r with Ret a => Ret a | Throw e => Throw (feed_failed e) end.

Lemma wp_reader {A} (m : prog feed feed_error A) Q b :
  wp m (λ r f, Q (through r) (set_reader b f)) (reader_ b) → wp (on_reader m) Q b.
Proof.
  intros (r & f & Hm & H). unfold wp, on_reader. rewrite Hm. destruct r as [a|e]; eauto.
Qed.

Lemma set_reader_id b : set_reader b (reader_ b) = b.
Proof. by destruct b. Qed.

(** A piece of the stream was lent: it is what came next. *)
Definition lent (f : feed) (q : bytes) (n : nat) (s : span) (f' : feed) (q' : bytes) : Prop :=
  feed_ok f' q' ∧ stream q f = view (mem f') s ++ stream q' f' ∧ (0 < len_ s ≤ n)%nat ∧
  length (view (mem f') s) = len_ s ∧ Region.capacity_ (ring_ f') = Region.capacity_ (ring_ f).

Lemma wp_take_some b q n Q : feed_ok (reader_ b) q → (0 < n)%nat →
  (stream q (reader_ b) = [] → Q (Ret None) b) →
  (∀ s f' q', take_some n (reader_ b) = Some (Ret (Some s), f') → lent (reader_ b) q n s f' q' →
     Q (Ret (Some s)) (set_reader b f')) →
  wp (on_reader (take_some n)) Q b.
Proof.
  intros H Hn Hnone Hsome. apply wp_reader. pose proof (take_some_ok _ _ n H Hn) as Hs. case_bool_decide as He.
  - exists (Ret None), (reader_ b). split; [done|]. cbn [through]. rewrite set_reader_id. auto.
  - destruct Hs as (s & f' & q' & Hr & H' & Hst & Hlen & Hv & Hc & _). exists (Ret (Some s)), f'.
    split; [done|]. apply (Hsome s f' q'); [done|]. unfold lent. auto.
Qed.

Lemma wp_take_line b q Q : feed_ok (reader_ b) q →
  (∀ r f', take_until crlf (reader_ b) = Some (r, f') → until_outcome (reader_ b) q crlf r f' →
     Q (through r) (set_reader b f')) →
  wp (on_reader (take_until crlf)) Q b.
Proof.
  intros H HQ. apply wp_reader. destruct (take_until_ok _ _ crlf H ltac:(done)) as (r & f' & Hr & Ho).
  exists r, f'. auto.
Qed.

(** ** Every call of [next] *)

Record reader_ok (b : http_body_reader) (q : bytes) : Prop := {
  ok_feed : feed_ok (reader_ b) q;
  ok_remaining : 0 ≤ remaining_ b < 2 ^ 64;
}.

(** The bytes the underlying feed still has. *)
Definition left_of (q : bytes) (b : http_body_reader) : nat := length (stream q (reader_ b)).

(** What a call may do, whatever the peer sent. *)
Definition call_outcome (n : nat) (limit : Z) (r : result http_error (option span)) (b' : http_body_reader) : Prop :=
  ∃ q', reader_ok b' q' ∧
  match r with
  | Ret (Some s) => 0 < Z.of_nat (len_ s) ≤ limit ∧ (left_of q' b' + len_ s ≤ n)%nat
  | Ret None => done_ b' = true ∧ (left_of q' b' ≤ n)%nat
  | Throw _ => (left_of q' b' ≤ n)%nat
  end.

Lemma call_outcome_mono m n limit r b' : (m ≤ n)%nat → call_outcome m limit r b' → call_outcome n limit r b'.
Proof.
  intros Hle (q' & Hok & H). exists q'. split; [done|]. destruct r as [[s|]|e]; lia || (destruct H; split; [done|lia]).
Qed.

Lemma until_shrinks f q r f' : until_outcome f q crlf r f' →
  ∃ q', feed_ok f' q' ∧ (length (stream q' f') ≤ length (stream q f))%nat.
Proof.
  intros (q' & H & _ & Hr). exists q'. split; [done|]. destruct r as [s|e].
  - destruct Hr as (-> & _). rewrite !length_app. lia.
  - by destruct Hr as [-> _].
Qed.

Lemma from_chars_size_range base s n rest : 0 < base → from_chars_size base s = Some (n, rest) → 0 ≤ n < 2 ^ 64.
Proof.
  intros Hbase. unfold from_chars_size. destruct (digits_value base 0 s) as [v r] eqn:Hd.
  destruct (_ || _) eqn:Hb; [done|]. intros [= <- _]. apply orb_false_elim in Hb as [_ Hb%Z.leb_gt].
  split; [|done]. clear Hb. assert (∀ s acc v r, 0 ≤ acc → digits_value base acc s = (v, r) → 0 ≤ v) as Hpos.
  { clear s v r Hd. induction s as [|c s IH]; intros acc v r Ha; cbn [digits_value]; [by intros [= <- _]|].
    destruct (digit_value base c) as [d|] eqn:Hdv; [|by intros [= <- _]]. apply IH.
    assert (0 ≤ d) by (unfold digit_value, is_digit in Hdv; repeat case_match; simplify_eq; lia). nia. }
  by eapply Hpos, Hd.
Qed.

Lemma parse_chunk_size_range line n : parse_chunk_size line = Ret n → 0 ≤ n < 2 ^ 64.
Proof.
  unfold parse_chunk_size. case_bool_decide; [done|]. destruct (from_chars_size _ _) as [[v [|? ?]]|] eqn:E; try done.
  intros [= <-]. by eapply from_chars_size_range, E.
Qed.

Lemma consume_remaining n b : (Z.of_nat n ≤ remaining_ b) → remaining_ b < 2 ^ 64 →
  remaining_ (consume n b) = remaining_ b - Z.of_nat n.
Proof. intros Hn Hb. cbn. rewrite wrap_small; lia. Qed.

Lemma next_content_length_safe limit b q : reader_ok b q → 0 < limit →
  wp (next_content_length limit) (call_outcome (left_of q b) limit) b.
Proof.
  intros [H Hr] Hl. apply wp_bind, wp_gets. destruct (Z.eqb_spec (remaining_ b) 0) as [Hz|Hz].
  { apply wp_bind, wp_modify, wp_ret. exists q. by split. }
  apply wp_bind. apply (wp_take_some b q); [done|lia|..].
  - intros _. apply wp_throw. exists q. split; [by split|done].
  - intros s f' q' _ (H' & Hst & Hlen & Hv & _). apply wp_bind, wp_modify, wp_bind, wp_gets.
    assert (call_outcome (left_of q b) limit (Ret (Some s)) (consume (len_ s) (set_reader b f')) ∧
      ∀ d, call_outcome (left_of q b) limit (Ret (Some s)) (set_done d (consume (len_ s) (set_reader b f')))) as [H1 H2].
    { assert (0 ≤ remaining_ (consume (len_ s) (set_reader b f')) < 2 ^ 64) by (rewrite consume_remaining; cbn; lia).
      split; [|intros d]; exists q'; (split; [split; done|]); unfold left_of; cbn [reader_ set_done consume set_remaining set_reader];
        rewrite Hst, length_app; lia. }
    apply wp_bind. destruct (_ =? 0); [apply wp_modify|]; apply wp_ret; [apply H2|].
    apply wp_ret. apply H1.
Qed.

Lemma next_piece_safe limit b q : reader_ok b q → 0 < limit → 0 < remaining_ b →
  wp (next_piece limit) (call_outcome (left_of q b) limit) b.
Proof.
  intros [H Hr] Hl Hpos. apply wp_bind, wp_gets, wp_bind. apply (wp_take_some b q); [done|lia|..].
  - intros _. apply wp_throw. exists q. split; [by split|done].
  - intros s f' q' _ (H' & Hst & Hlen & Hv & _). apply wp_bind, wp_modify, wp_bind, wp_gets.
    set (b1 := consume (len_ s) (set_reader b f')).
    assert (0 ≤ remaining_ b1 < 2 ^ 64) by (unfold b1; rewrite consume_remaining; cbn; lia).
    assert (left_of q b = len_ s + left_of q' b1)%nat as Hleft by (unfold left_of; cbn; rewrite Hst, length_app, Hv; done).
    apply wp_bind. destruct (_ && _).
    + apply wp_bind, (wp_take_line b1 q'); [done|]. intros r f2 _ Ho.
      destruct (until_shrinks _ _ _ _ Ho) as (q2 & H2 & Hle). destruct r as [e|e]; cbn [through].
      * apply wp_require; intros _; [apply wp_ret|]; exists q2; (split; [by split|]); unfold left_of in *; cbn in *; lia.
      * exists q2. split; [by split|]. unfold left_of in *. cbn in *. lia.
    + apply wp_ret, wp_ret. exists q'. split; [by split|]. lia.
Qed.

Lemma next_chunked_safe limit b q : reader_ok b q → 0 < limit →
  wp (next_chunked limit) (call_outcome (left_of q b) limit) b.
Proof.
  intros [H Hr] Hl. unfold next_chunked. cbn [next_chunked_loop]. apply wp_bind, wp_gets.
  destruct (Z.ltb_spec 0 (remaining_ b)); [by apply next_piece_safe|].
  apply wp_bind, (wp_take_line b q); [done|]. intros r f1 _ Ho.
  destruct (until_shrinks _ _ _ _ Ho) as (q1 & H1 & Hle). destruct r as [line|e]; cbn [through].
  2: { exists q1. split; [by split|done]. }
  apply wp_bind, wp_gets. destruct (parse_chunk_size _) as [size|e] eqn:Hp.
  2: { apply wp_throw. exists q1. split; [by split|done]. }
  apply parse_chunk_size_range in Hp. destruct (Z.eqb_spec size 0) as [->|Hs].
  - apply wp_bind, (wp_take_line _ q1); [done|]. intros r f2 _ Ho2.
    destruct (until_shrinks _ _ _ _ Ho2) as (q2 & H2 & Hle2). unfold left_of in *. cbn in Hle2.
    destruct r as [t|e]; cbn [through].
    + apply wp_bind, wp_require; intros _; [apply wp_bind, wp_modify, wp_ret|];
        exists q2; (split; [by split|]); cbn; unfold left_of; cbn; lia.
    + exists q2. split; [by split|]. unfold left_of. cbn. lia.
  - apply wp_bind, wp_modify, wp_bind, wp_gets. cbn [remaining_ set_remaining].
    destruct (Z.ltb_spec 0 size); [|lia].
    eapply wp_mono; [apply (next_piece_safe limit _ q1); [by split|done|done]|].
    intros r' b' Ho'. eapply call_outcome_mono, Ho'. done.
Qed.

Lemma next_until_eof_safe limit b q : reader_ok b q → 0 < limit →
  wp (next_until_eof limit) (call_outcome (left_of q b) limit) b.
Proof.
  intros [H Hr] Hl. apply wp_bind, (wp_take_some b q); [done|lia|..].
  - intros _. apply wp_bind, wp_modify, wp_ret. exists q. by split.
  - intros s f' q' _ (H' & Hst & Hlen & Hv & _). apply wp_bind, wp_ret, wp_ret.
    exists q'. split; [by split|]. unfold left_of. cbn. rewrite Hst, length_app. lia.
Qed.

(** Whatever the peer sends, [next] ends: it returns a piece of one byte or more
    and at most [limit], for which the connection has that many bytes fewer; or it
    returns nothing and the body is done; or it throws. The byte feed and the count
    of remaining bytes stay well formed in each case, so that a caller that reads
    the body to its end stops. *)
Theorem next_safe limit b q : reader_ok b q → 0 < limit →
  ∃ r b', next limit b = Some (r, b') ∧ call_outcome (left_of q b) limit r b'.
Proof.
  intros H Hl. cut (wp (next limit) (call_outcome (left_of q b) limit) b); [done|].
  apply wp_bind, wp_gets. destruct (done_ b) eqn:Hd; [apply wp_ret; by exists q|].
  apply wp_bind, wp_gets. destruct (mode_ b);
    [by apply next_content_length_safe|by apply next_chunked_safe|by apply next_until_eof_safe].
Qed.

(** ** Reading a whole body *)

(** A caller that reads the pieces of a body until there is none. *)
Fixpoint drain (fuel : nat) (limit : Z) : op bytes :=
  match fuel with
  | O => λ _, None
  | S fuel' =>
      piece <~ next limit;
      match piece with
      | None => pret []
      | Some s => bs <~ span_bytes s; rest <~ drain fuel' limit; pret (bs ++ rest)
      end
  end.

Lemma drain_piece fuel limit b s b' : next limit b = Some (Ret (Some s), b') →
  drain (S fuel) limit b = pbind (drain fuel limit) (λ rest, pret (view (mem (reader_ b')) s ++ rest)) b'.
Proof. intros H. cbn [drain]. by rewrite (bind_run _ _ _ _ _ H). Qed.

Lemma drain_end fuel limit b b' : next limit b = Some (Ret None, b') → drain (S fuel) limit b = Some (Ret [], b').
Proof. intros H. cbn [drain]. by rewrite (bind_run _ _ _ _ _ H). Qed.

(** *** By Content-Length *)

Definition sized (f : feed) (n : Z) : http_body_reader := MkReader f mode_content_length n (n =? 0).

Lemma next_sized f q n limit : feed_ok f q → 0 < limit → 0 < n < 2 ^ 64 →
  if bool_decide (stream q f = []) then
    next limit (sized f n) = Some (Throw (protocol_error "unexpected end of content-length body"), sized f n)
  else ∃ s f' q', next limit (sized f n) = Some (Ret (Some s), sized f' (n - Z.of_nat (len_ s))) ∧
    lent f q (Z.to_nat (Z.min limit n)) s f' q'.
Proof.
  intros H Hl Hn. assert (next limit (sized f n) = next_content_length limit (sized f n)) as ->.
  { unfold next, sized. destruct (Z.eqb_spec n 0); [lia|done]. }
  unfold next_content_length. change (pbind (gets remaining_) ?k (sized f n)) with (k n (sized f n)). cbv beta.
  destruct (Z.eqb_spec n 0); [lia|]. pose proof (take_some_ok f q (Z.to_nat (Z.min limit n)) H ltac:(lia)) as Ht.
  case_bool_decide as He.
  - assert (on_reader (take_some (Z.to_nat (Z.min limit n))) (sized f n) = Some (Ret None, sized f n)) as Hr.
    { unfold on_reader. cbn [reader_ sized]. by rewrite Ht. }
    by rewrite (bind_run _ _ _ _ _ Hr).
  - destruct Ht as (s & f' & q' & Ht & H' & Hst & Hlen & Hv & Hc & _). exists s, f', q'.
    split; [|unfold lent; auto].
    assert (on_reader (take_some (Z.to_nat (Z.min limit n))) (sized f n) = Some (Ret (Some s), set_reader (sized f n) f')) as Hr.
    { unfold on_reader. cbn [reader_ sized]. by rewrite Ht. }
    rewrite (bind_run _ _ _ _ _ Hr). unfold sized, set_reader, consume, set_remaining, set_done, pbind, modify, gets, pret.
    cbn [remaining_ reader_ mode_ done_]. rewrite wrap_small by lia.
    destruct (Z.eqb_spec (n - Z.of_nat (len_ s)) 0); destruct (Z.eqb_spec n 0); done || lia.
Qed.

(** What reading a body of [n] bytes gives. *)
Definition sized_outcome (f : feed) (q : bytes) (n : Z) (r : result http_error bytes) (b' : http_body_reader) : Prop :=
  ∃ q', feed_ok (reader_ b') q' ∧
  if n <=? Z.of_nat (length (stream q f)) then
    r = Ret (take (Z.to_nat n) (stream q f)) ∧ done_ b' = true ∧
    stream q' (reader_ b') = drop (Z.to_nat n) (stream q f)
  else r = Throw (protocol_error "unexpected end of content-length body") ∧ stream q' (reader_ b') = [].

Lemma drain_sized fuel limit : 0 < limit → ∀ f q n, feed_ok f q → 0 ≤ n < 2 ^ 64 →
  (Nat.min (Z.to_nat n) (length (stream q f)) < fuel)%nat → wp (drain fuel limit) (sized_outcome f q n) (sized f n).
Proof.
  intros Hl. induction fuel as [|fuel IH]; intros f q n H Hn Hf; [lia|]. destruct (Z.eq_dec n 0) as [->|Hz].
  { unfold wp. rewrite (drain_end fuel limit _ (sized f 0)) by done. do 2 eexists. split; [done|]. exists q.
    split; [done|]. destruct (Z.leb_spec 0 (Z.of_nat (length (stream q f)))); [|lia]. by rewrite drop_0. }
  pose proof (next_sized f q n limit H Hl ltac:(lia)) as Hnext. case_bool_decide as He.
  - unfold wp. cbn [drain]. unfold pbind at 1. rewrite Hnext. do 2 eexists. split; [done|]. exists q. split; [done|].
    rewrite He. cbn [length]. destruct (Z.leb_spec n (Z.of_nat 0)); [lia|done].
  - destruct Hnext as (s & f' & q' & Hr & H' & Hst & Hlen & Hv & _). unfold wp. rewrite (drain_piece _ _ _ _ _ Hr).
    apply wp_bind. rewrite Hst, length_app, Hv in Hf.
    eapply wp_mono; [apply (IH f' q' (n - Z.of_nat (len_ s)) H'); lia|]. intros r b' (q2 & H2 & Hr2).
    unfold sized_outcome. rewrite Hst, length_app, Hv.
    destruct (Z.leb_spec (n - Z.of_nat (len_ s)) (Z.of_nat (length (stream q' f')))) as [Hle|Hle].
    + destruct Hr2 as (-> & Hdone & Hq2). apply wp_ret. exists q2. split; [done|].
      destruct (Z.leb_spec n (Z.of_nat (len_ s + length (stream q' f')))); [|lia]. cbn [reader_ sized].
      rewrite take_app_ge, drop_app_ge by lia. rewrite Hv, Hq2. split; [do 3 f_equal; lia|]. split; [done|f_equal; lia].
    + destruct Hr2 as [-> Hq2]. exists q2. split; [done|].
      destruct (Z.leb_spec n (Z.of_nat (len_ s + length (stream q' f')))); [lia|done].
Qed.

Lemma content_length_range head n : content_length head = Ret (Some n) → 0 ≤ n < 2 ^ 64.
Proof.
  unfold content_length. destruct (header_value _ _) as [v|]; [|done].
  destruct (from_chars_size _ _) as [[m [|? ?]]|] eqn:E; try done. intros [= <-]. by eapply from_chars_size_range, E.
Qed.

(** A body with a Content-Length of [n] is the next [n] bytes of the connection,
    in pieces of at most [limit] bytes, and the connection is left at the byte after
    them, where the next response starts; a connection that ends before gives the
    protocol error, after every byte it had. *)
Theorem sized_body f q head n limit : feed_ok f q → is_chunked head = false → content_length head = Ret (Some n) →
  0 < limit → ∃ b r b', configure f head = Ret b ∧
    drain (S (length (stream q f))) limit b = Some (r, b') ∧ sized_outcome f q n r b'.
Proof.
  intros H Hc Hn Hl. exists (sized f n). pose proof (content_length_range _ _ Hn) as Hr.
  destruct (drain_sized (S (length (stream q f))) limit Hl f q n H Hr) as (r & b' & Hd & Ho); [lia|].
  exists r, b'. split; [|done]. unfold configure. by rewrite Hc, Hn.
Qed.

(** *** Until the connection ends *)

Definition unsized (f : feed) : http_body_reader := MkReader f mode_until_eof 0 false.

Lemma drain_unsized fuel limit : 0 < limit → ∀ f q, feed_ok f q → (length (stream q f) < fuel)%nat →
  wp (drain fuel limit) (λ r b', ∃ q', feed_ok (reader_ b') q' ∧ r = Ret (stream q f) ∧ done_ b' = true ∧
    stream q' (reader_ b') = []) (unsized f).
Proof.
  intros Hl. induction fuel as [|fuel IH]; intros f q H Hf; [lia|].
  pose proof (take_some_ok f q (Z.to_nat limit) H ltac:(lia)) as Ht. unfold wp. case_bool_decide as He.
  - assert (next limit (unsized f) = Some (Ret None, set_done true (unsized f))) as Hn.
    { change (next limit (unsized f)) with (next_until_eof limit (unsized f)). unfold next_until_eof, pbind, on_reader.
      cbn [reader_ unsized]. by rewrite Ht. }
    rewrite (drain_end _ _ _ _ Hn). do 2 eexists. split; [done|]. exists q. by rewrite He.
  - destruct Ht as (s & f' & q' & Ht & H' & Hst & Hlen & Hv & _).
    assert (next limit (unsized f) = Some (Ret (Some s), unsized f')) as Hn.
    { change (next limit (unsized f)) with (next_until_eof limit (unsized f)). unfold next_until_eof, pbind, on_reader.
      cbn [reader_ unsized]. by rewrite Ht. }
    rewrite (drain_piece _ _ _ _ _ Hn). apply wp_bind. rewrite Hst, length_app, Hv in Hf.
    eapply wp_mono; [apply (IH f' q' H'); lia|]. intros r b' (q2 & H2 & -> & Hd & Hs). apply wp_ret. exists q2.
    rewrite Hst. done.
Qed.

(** A body with neither framing is everything the connection delivers. *)
Theorem unsized_body f q head limit : feed_ok f q → is_chunked head = false → content_length head = Ret None →
  0 < limit → ∃ b b' q', configure f head = Ret b ∧
    drain (S (length (stream q f))) limit b = Some (Ret (stream q f), b') ∧
    done_ b' = true ∧ feed_ok (reader_ b') q' ∧ stream q' (reader_ b') = [].
Proof.
  intros H Hc Hn Hl. destruct (drain_unsized (S (length (stream q f))) limit Hl f q H) as (r & b' & Hd & q' & H' & -> & Hf & Hs); [lia|].
  exists (unsized f), b', q'. split; [|done]. unfold configure. by rewrite Hc, Hn.
Qed.

(** *** By chunks *)

(** A chunk as it is sent: its size line (a size, maybe with extensions) and its
    data. *)
Definition encode_chunk (c : bytes * bytes) : bytes := c.1 ++ crlf ++ c.2 ++ crlf.

Definition encode_chunks (cs : list (bytes * bytes)) (last : bytes) : bytes :=
  concat (encode_chunk <$> cs) ++ last ++ crlf ++ crlf.

(** A size line for [n] bytes that a buffer of [cap] bytes can hold. *)
Definition size_line (cap : nat) (line : bytes) (n : nat) : Prop :=
  parse_chunk_size line = Ret (Z.of_nat n) ∧ find_bytes (line ++ crlf) crlf = length line ∧ (length line + 2 ≤ cap)%nat.

Definition chunk_ok (cap : nat) (c : bytes * bytes) : Prop := size_line cap c.1 (length c.2) ∧ c.2 ≠ [].

(** A reader with [n] bytes of a chunk to come. *)
Definition chunked (f : feed) (n : nat) : http_body_reader := MkReader f mode_chunked (Z.of_nat n) false.

(** A line that is in the stream is taken from it; if it was buffered in one run,
    nothing moves in the storage. *)
Lemma take_line f q line rest : feed_ok f q → stream q f = line ++ crlf ++ rest →
  find_bytes (line ++ crlf) crlf = length line → (length line + 2 ≤ Region.capacity_ (ring_ f))%nat →
  ∃ s f' q', take_until crlf f = Some (Ret s, f') ∧ feed_ok f' q' ∧ view (mem f') s = line ∧ len_ s = length line ∧
    stream q' f' = rest ∧ Region.capacity_ (ring_ f') = Region.capacity_ (ring_ f) ∧
    (in_one_run f → (length line + 2 ≤ length q)%nat →
     in_one_run f' ∧ mem f' = mem f ∧ (length q' + length line + 2 = length q)%nat).
Proof.
  intros H Hst Hfind Hcap. destruct (take_until_ok f q crlf H ltac:(done)) as (r & f' & Hr & q' & H' & Hc & Ho).
  assert (find_bytes (stream q f) crlf = length line) as Hfirst.
  { rewrite Hst, app_assoc. by rewrite (proj1 (find_found (line ++ crlf) crlf rest ltac:(done) ltac:(rewrite Hfind, length_app; cbn; lia))). }
  destruct r as [s|e].
  2: { destruct Ho as [_ [[_ E]|[_ E]]]; rewrite Hfirst in E; [|cbn in E; lia].
       rewrite Hst, !length_app in E. cbn in E. lia. }
  destruct Ho as (Hst' & Hlen & Hls). rewrite Hst in Hst'. rewrite Hfirst in Hlen.
  apply app_inj_1 in Hst' as [Hline Hst']; [|done]. apply app_inv_head in Hst'.
  exists s, f', q'. rewrite <- Hline. split_and!; try done; [lia|]. intros Hrun Hq.
  assert (find_bytes q crlf < length q)%nat as Hin.
  { pose proof (find_le q crlf). destruct (Nat.eq_dec (find_bytes q crlf) (length q)) as [E|]; [|lia].
    pose proof (find_missing q crlf (concat (source f)) ltac:(done) E) as Hm. unfold stream in Hfirst.
    rewrite Hfirst in Hm. cbn in Hm. lia. }
  destruct (take_until_buffered f q crlf H ltac:(done) Hrun Hin) as (s2 & f2 & Hr2 & Hm2 & Hs2 & Hrun2).
  rewrite Hr in Hr2. injection Hr2 as <- <-. split; [done|]. split; [done|].
  apply (f_equal length) in Hst'. unfold stream in *. apply (f_equal length) in Hst. rewrite Hs2 in Hst'.
  rewrite !length_app in *. cbn in Hst. lia.
Qed.

Lemma view_length_eq m m' s : length m = length m' → length (view m s) = length (view m' s).
Proof. intros H. unfold view, Region.span_of. by rewrite !length_take, !length_drop, H. Qed.

(** What is left of a chunked body whose current chunk has [data] to come. *)
Definition rest_of (data : bytes) (cs : list (bytes * bytes)) (last : bytes) : bytes :=
  (if bool_decide (data = []) then [] else data ++ crlf) ++ encode_chunks cs last.

(** All of that is buffered, in one run. *)
Definition all_buffered (f : feed) (q : bytes) (n : nat) : Prop := in_one_run f ∧ (n ≤ length q)%nat.

(** A piece of the body: its content is right if it does not finish its chunk, or if
    the rest of the body was buffered in one run. *)
Definition piece_of (f : feed) (q data : bytes) (n n' : nat) (s : span) (f' : feed) (q' : bytes) : Prop :=
  feed_ok f' q' ∧ Region.capacity_ (ring_ f') = Region.capacity_ (ring_ f) ∧ (0 < len_ s ≤ length data)%nat ∧
  length (view (mem f') s) = len_ s ∧ ((len_ s < length data)%nat → view (mem f') s = take (len_ s) data) ∧
  (all_buffered f q n → all_buffered f' q' n' ∧ view (mem f') s = take (len_ s) data).

Lemma next_piece_data f q data after limit n : feed_ok f q → data ≠ [] → Z.of_nat (length data) < 2 ^ 64 →
  stream q f = data ++ crlf ++ after → 0 < limit → (2 ≤ Region.capacity_ (ring_ f))%nat →
  (length data + 2 ≤ n)%nat →
  ∃ s f' q', next_piece limit (chunked f (length data)) = Some (Ret (Some s), chunked f' (length data - len_ s)) ∧
    stream q' f' = (if (len_ s =? length data)%nat then after else drop (len_ s) data ++ crlf ++ after) ∧
    piece_of f q data n (if (len_ s =? length data)%nat then n - (length data + 2) else n - len_ s) s f' q'.
Proof.
  intros H Hd Hbig Hst Hl Hcap Hn. set (k := Z.to_nat (Z.min limit (Z.of_nat (length data)))).
  assert (length data ≠ 0)%nat as Hd0 by (by destruct data). assert (0 < k ≤ length data)%nat as Hk by lia.
  pose proof (take_some_ok f q k H ltac:(lia)) as Ht. rewrite bool_decide_false in Ht by (rewrite Hst; by destruct data).
  destruct Ht as (s & f1 & q1 & Ht & H1 & Hst1 & Hlen & Hv & Hc1 & _).
  assert (view (mem f1) s = take (len_ s) data ∧ stream q1 f1 = drop (len_ s) data ++ crlf ++ after) as [Hview Hq1].
  { rewrite Hst in Hst1. rewrite <- (take_drop (len_ s) data), <- app_assoc in Hst1.
    apply app_inj_1 in Hst1 as [? ?]; [done|]. rewrite length_take, Hv. lia. }
  assert (in_one_run f → q ≠ [] → in_one_run f1 ∧ mem f1 = mem f ∧ (length q1 + len_ s = length q)%nat) as Hbuf.
  { intros Hrun Hq. destruct (take_some_buffered f q k _ f1 H ltac:(lia) Hq Hrun Ht) as (? & Hs1 & ?). split_and!; [done..|].
    apply (f_equal length) in Hst1. unfold stream in Hst1. rewrite Hs1, !length_app, Hv in Hst1. lia. }
  assert (on_reader (take_some k) (chunked f (length data)) = Some (Ret (Some s), chunked f1 (length data))) as Hr.
  { unfold on_reader. cbn [reader_ chunked]. by rewrite Ht. }
  unfold next_piece. change (pbind (gets remaining_) ?c (chunked f (length data))) with (c (Z.of_nat (length data)) (chunked f (length data))).
  cbv beta. fold k. rewrite (bind_run _ _ _ _ _ Hr).
  assert (consume (len_ s) (chunked f1 (length data)) = chunked f1 (length data - len_ s)) as Hcons.
  { unfold consume, set_remaining, chunked. cbn. rewrite wrap_small by lia. f_equal. lia. }
  rewrite (bind_run (modify _) _ _ tt (chunked f1 (length data - len_ s))) by (by unfold modify; rewrite Hcons).
  change (pbind (gets remaining_) ?c (chunked f1 ?m)) with (c (Z.of_nat m) (chunked f1 m)). cbv beta.
  destruct (Nat.eqb_spec (len_ s) (length data)) as [Hend|Hmore].
  - rewrite Hend, Nat.sub_diag. destruct (Nat.eqb_spec (length data) 0); [lia|]. cbn [Z.of_nat Z.eqb negb andb].
    rewrite Hend, drop_all in Hq1. cbn [app] in Hq1.
    destruct (take_line f1 q1 [] after H1 Hq1 ltac:(done) ltac:(cbn; lia)) as (e & f2 & q2 & Hr2 & H2 & _ & Hle & Hst2 & Hc2 & Hbuf2).
    exists s, f2, q2. rewrite Hend, Nat.eqb_refl, Nat.sub_diag. split; [|split; [done|]].
    { assert (on_reader (take_until crlf) (chunked f1 0) = Some (Ret e, chunked f2 0)) as Hline.
      { unfold on_reader. change (reader_ (chunked f1 0)) with f1. by rewrite Hr2. }
      rewrite (bind_run _ _ _ tt (chunked f2 0)); [done|]. change ((Z.of_nat 0 =? 0) && true) with true.
      cbv iota. rewrite (bind_run _ _ _ _ _ Hline), Hle. done. }
    split; [done|]. split; [congruence|]. split; [lia|]. split; [|split; [lia|]].
    + rewrite <- Hv. apply view_length_eq. rewrite (mem_length _ _ H1), (mem_length _ _ H2). done.
    + intros [Hrun Hq]. destruct (Hbuf Hrun) as (Hrun1 & Hm1 & Hl1); [intros ->; cbn in Hq; lia|].
      destruct (Hbuf2 Hrun1) as (Hrun2 & Hm2 & Hl2); [cbn; lia|]. rewrite Hm2, Hview. split; [|done]. split; [done|cbn in Hl2; lia].
  - exists s, f1, q1. rewrite (proj2 (Nat.eqb_neq _ _) Hmore). split; [|split; [done|]].
    { destruct (Z.eqb_spec (Z.of_nat (length data - len_ s)) 0); [lia|done]. }
    split; [done|]. split; [done|]. split; [lia|]. split; [done|]. split; [done|].
    intros [Hrun Hq]. destruct (Hbuf Hrun) as (Hrun1 & Hm1 & Hl1); [intros ->; cbn in Hq; lia|]. split; [|done]. split; [done|lia].
Qed.

Lemma rest_of_data data cs last : data ≠ [] → rest_of data cs last = data ++ crlf ++ encode_chunks cs last.
Proof. intros H. unfold rest_of. by rewrite bool_decide_false, <- app_assoc. Qed.

Lemma encode_chunks_cons c cs last : encode_chunks (c :: cs) last = c.1 ++ crlf ++ c.2 ++ crlf ++ encode_chunks cs last.
Proof. unfold encode_chunks. cbn. unfold encode_chunk. by rewrite <- !app_assoc. Qed.

(** From [data] and [cs] to come, a call lent [piece] of the body and left [data']
    and [cs'] to come. *)
Record piece_step (f : feed) (q data : bytes) (cs : list (bytes * bytes)) (last tail : bytes)
    (s : span) (f' : feed) (piece q' data' : bytes) (cs' : list (bytes * bytes)) : Prop := {
  ps_body : data ++ concat (snd <$> cs) = piece ++ data' ++ concat (snd <$> cs');
  ps_piece : piece ≠ [];
  ps_length : length (view (mem f') s) = length piece;
  ps_stream : stream q' f' = rest_of data' cs' last ++ tail;
  ps_feed : feed_ok f' q';
  ps_capacity : Region.capacity_ (ring_ f') = Region.capacity_ (ring_ f);
  ps_chunks : Forall (chunk_ok (Region.capacity_ (ring_ f))) cs';
  ps_small : Z.of_nat (length data') < 2 ^ 64;
  ps_content : all_buffered f q (length (rest_of data cs last)) →
    all_buffered f' q' (length (rest_of data' cs' last)) ∧ view (mem f') s = piece;
}.

Lemma next_in_data f q data cs last tail limit : feed_ok f q → data ≠ [] → Z.of_nat (length data) < 2 ^ 64 →
  stream q f = rest_of data cs last ++ tail → 0 < limit → (2 ≤ Region.capacity_ (ring_ f))%nat →
  Forall (chunk_ok (Region.capacity_ (ring_ f))) cs →
  ∃ s f' piece q' data', next_piece limit (chunked f (length data)) = Some (Ret (Some s), chunked f' (length data')) ∧
    piece_step f q data cs last tail s f' piece q' data' cs.
Proof.
  intros H Hd Hbig Hst Hl Hcap Hcs. rewrite rest_of_data, <- !app_assoc in Hst by done.
  destruct (next_piece_data f q data (encode_chunks cs last ++ tail) limit (length (rest_of data cs last)) H Hd Hbig Hst Hl Hcap)
    as (s & f' & q' & Hr & Hst' & H' & Hc & Hlen & Hv & _ & Hbuf).
  { rewrite rest_of_data by done. rewrite !length_app. cbn. lia. }
  exists s, f', (take (len_ s) data), q', (drop (len_ s) data). rewrite length_drop. split; [done|].
  assert (rest_of data cs last = data ++ crlf ++ encode_chunks cs last) as Hrest by (by apply rest_of_data).
  split; try done.
  - by rewrite app_assoc, take_drop.
  - intros E%(f_equal length). rewrite length_take in E. cbn in E. lia.
  - rewrite Hv, length_take. lia.
  - rewrite Hst'. destruct (Nat.eqb_spec (len_ s) (length data)) as [E|E].
    + by rewrite E, drop_all.
    + rewrite rest_of_data; [by rewrite <- !app_assoc|]. intros E2%(f_equal length). rewrite length_drop in E2. cbn in E2. lia.
  - rewrite length_drop. lia.
  - intros Hb. destruct (Hbuf Hb) as [[Hrun Hq] Hview]. split; [|done]. split; [done|].
    rewrite Hrest, !length_app in Hq. cbn in Hq. destruct (Nat.eqb_spec (len_ s) (length data)) as [E|E].
    + rewrite E, drop_all. change (rest_of [] cs last) with (encode_chunks cs last). lia.
    + rewrite rest_of_data; [rewrite !length_app, length_drop; cbn; lia|].
      intros E2%(f_equal length). rewrite length_drop in E2. cbn in E2. lia.
Qed.

(** A size line sets the count of bytes that the chunk has to come. *)
Lemma next_size_line f q line data cs last tail : feed_ok f q → size_line (Region.capacity_ (ring_ f)) line (length data) →
  data ≠ [] → stream q f = encode_chunks ((line, data) :: cs) last ++ tail →
  ∃ f1 q1, (∀ limit, next limit (chunked f 0) = next_piece limit (chunked f1 (length data))) ∧
    feed_ok f1 q1 ∧ Region.capacity_ (ring_ f1) = Region.capacity_ (ring_ f) ∧ Z.of_nat (length data) < 2 ^ 64 ∧
    stream q1 f1 = rest_of data cs last ++ tail ∧
    (all_buffered f q (length (encode_chunks ((line, data) :: cs) last)) →
     all_buffered f1 q1 (length (rest_of data cs last))).
Proof.
  intros H (Hp & Hfind & Hcap) Hd Hst. rewrite encode_chunks_cons in Hst |- *. cbn [fst snd] in *.
  rewrite <- (rest_of_data data cs last Hd), <- !app_assoc in Hst.
  destruct (take_line f q line _ H Hst Hfind Hcap) as (s & f1 & q1 & Hr & H1 & Hv & _ & Hst1 & Hc1 & Hbuf).
  exists f1, q1. split.
  - intros limit. change (next limit (chunked f 0)) with (next_chunked limit (chunked f 0)).
    assert (on_reader (take_until crlf) (chunked f 0) = Some (Ret s, chunked f1 0)) as Hline.
    { unfold on_reader. change (reader_ (chunked f 0)) with f. by rewrite Hr. }
    unfold next_chunked. cbn [next_chunked_loop].
    change (pbind (gets remaining_) ?k (chunked f 0)) with (k 0 (chunked f 0)). cbv beta. cbn [Z.ltb Z.compare].
    rewrite (bind_run _ _ _ _ _ Hline). change (pbind (span_bytes s) ?k (chunked f1 0)) with (k (view (mem f1) s) (chunked f1 0)).
    cbv beta. rewrite Hv, Hp. destruct (Z.eqb_spec (Z.of_nat (length data)) 0); [by destruct data|].
    change (pbind (modify (set_remaining (Z.of_nat (length data)))) ?k (chunked f1 0)) with (k tt (chunked f1 (length data))).
    cbv beta. change (pbind (gets remaining_) ?k (chunked f1 (length data))) with (k (Z.of_nat (length data)) (chunked f1 (length data))).
    cbv beta. destruct (Z.ltb_spec 0 (Z.of_nat (length data))); [done|lia].
  - apply parse_chunk_size_range in Hp. split_and!; [done|done|lia|done|]. intros [Hrun Hq].
    rewrite <- (rest_of_data data cs last Hd), !length_app in Hq. cbn in Hq.
    destruct (Hbuf Hrun) as (Hrun1 & _ & Hl1); [lia|]. split; [done|lia].
Qed.

(** The last chunk ends the body, and the connection is left after it. *)
Lemma next_last f q last tail limit : feed_ok f q → size_line (Region.capacity_ (ring_ f)) last 0 →
  stream q f = last ++ crlf ++ crlf ++ tail →
  ∃ f' q', next limit (chunked f 0) = Some (Ret None, set_done true (chunked f' 0)) ∧ feed_ok f' q' ∧ stream q' f' = tail.
Proof.
  intros H (Hp & Hfind & Hcap) Hst.
  destruct (take_line f q last _ H Hst Hfind Hcap) as (s & f1 & q1 & Hr & H1 & Hv & _ & Hst1 & Hc1 & _).
  destruct (take_line f1 q1 [] tail H1 Hst1 ltac:(done) ltac:(cbn; lia)) as (t & f2 & q2 & Hr2 & H2 & _ & Hl2 & Hst2 & _).
  exists f2, q2. split; [|done]. change (next limit (chunked f 0)) with (next_chunked limit (chunked f 0)).
  assert (on_reader (take_until crlf) (chunked f 0) = Some (Ret s, chunked f1 0)) as Hline.
  { unfold on_reader. change (reader_ (chunked f 0)) with f. by rewrite Hr. }
  assert (on_reader (take_until crlf) (chunked f1 0) = Some (Ret t, chunked f2 0)) as Hblank.
  { unfold on_reader. change (reader_ (chunked f1 0)) with f1. by rewrite Hr2. }
  unfold next_chunked. cbn [next_chunked_loop].
  change (pbind (gets remaining_) ?k (chunked f 0)) with (k 0 (chunked f 0)). cbv beta. cbn [Z.ltb Z.compare].
  rewrite (bind_run _ _ _ _ _ Hline). change (pbind (span_bytes s) ?k (chunked f1 0)) with (k (view (mem f1) s) (chunked f1 0)).
  cbv beta. rewrite Hv, Hp. change (Z.of_nat 0 =? 0) with true. cbv iota. rewrite (bind_run _ _ _ _ _ Hblank), Hl2. done.
Qed.

Lemma next_chunk f q data cs last tail limit : feed_ok f q → Z.of_nat (length data) < 2 ^ 64 →
  stream q f = rest_of data cs last ++ tail → 0 < limit → (2 ≤ Region.capacity_ (ring_ f))%nat →
  Forall (chunk_ok (Region.capacity_ (ring_ f))) cs → data ≠ [] ∨ cs ≠ [] →
  ∃ s f' piece q' data' cs', next limit (chunked f (length data)) = Some (Ret (Some s), chunked f' (length data')) ∧
    piece_step f q data cs last tail s f' piece q' data' cs'.
Proof.
  intros H Hbig Hst Hl Hcap Hcs Hne. destruct data as [|x data].
  - destruct cs as [|[line data] cs]; [by destruct Hne|]. apply Forall_cons in Hcs as [[Hline Hd] Hcs]. cbn [fst snd] in *.
    destruct (next_size_line f q line data cs last tail H Hline Hd Hst) as (f1 & q1 & Hnext & H1 & Hc1 & Hb1 & Hst1 & Hbuf).
    rewrite <- Hc1 in Hcap, Hcs.
    destruct (next_in_data f1 q1 data cs last tail limit H1 Hd Hb1 Hst1 Hl Hcap Hcs) as (s & f' & piece & q' & data' & Hr & Hps).
    exists s, f', piece, q', data', cs. split; [by rewrite Hnext|]. destruct Hps as [? ? ? ? ? Hc ? ? Hcont]. rewrite Hc1 in *.
    split; try done. intros Hb. apply Hcont, Hbuf. done.
  - destruct (next_in_data f q (x :: data) cs last tail limit H ltac:(done) Hbig Hst Hl Hcap Hcs)
      as (s & f' & piece & q' & data' & Hr & Hps).
    exists s, f', piece, q', data', cs. split; [|done]. rewrite <- Hr.
    change (next limit (chunked f (length (x :: data)))) with (next_chunked limit (chunked f (length (x :: data)))).
    unfold next_chunked. cbn [next_chunked_loop]. unfold pbind at 1, gets. cbn [remaining_ chunked].
    destruct (Z.ltb_spec 0 (Z.of_nat (length (x :: data)))) as [|E]; [done|cbn [length] in E; lia].
Qed.

Lemma drain_chunks fuel limit last tail : 0 < limit → ∀ f q data cs, feed_ok f q →
  Z.of_nat (length data) < 2 ^ 64 → stream q f = rest_of data cs last ++ tail →
  (2 ≤ Region.capacity_ (ring_ f))%nat → Forall (chunk_ok (Region.capacity_ (ring_ f))) cs →
  size_line (Region.capacity_ (ring_ f)) last 0 → (length (data ++ concat (snd <$> cs)) < fuel)%nat →
  wp (drain fuel limit) (λ r b', ∃ body q', r = Ret body ∧ done_ b' = true ∧ feed_ok (reader_ b') q' ∧
    stream q' (reader_ b') = tail ∧ length body = length (data ++ concat (snd <$> cs)) ∧
    (all_buffered f q (length (rest_of data cs last)) → body = data ++ concat (snd <$> cs))) (chunked f (length data)).
Proof.
  intros Hl. induction fuel as [|fuel IH]; intros f q data cs H Hbig Hst Hcap Hcs Hlast Hf; [lia|].
  destruct (decide (data = [] ∧ cs = [])) as [[-> ->]|Hne].
  - assert (stream q f = last ++ crlf ++ crlf ++ tail) as Hst' by (rewrite Hst; cbn; by rewrite <- !app_assoc).
    destruct (next_last f q last tail limit H Hlast Hst') as (f' & q' & Hn & H' & Ht). unfold wp.
    rewrite (drain_end _ _ _ _ Hn). do 2 eexists. split; [done|]. by exists [], q'.
  - destruct (next_chunk f q data cs last tail limit H Hbig Hst Hl Hcap Hcs) as (s & f' & piece & q' & data' & cs' & Hn & Hps).
    { destruct data; [right; naive_solver|by left]. }
    destruct Hps as [Hbody Hp Hlen Hst' H' Hc Hcs' Hbig' Hcont]. unfold wp. rewrite (drain_piece _ _ _ _ _ Hn).
    apply wp_bind. rewrite <- Hc in Hcap, Hcs', Hlast. rewrite Hbody in Hf |- *.
    assert (length piece ≠ 0)%nat by (by destruct piece).
    eapply wp_mono; [apply (IH f' q' data' cs' H' Hbig' Hst' Hcap Hcs' Hlast); rewrite length_app in Hf; lia|].
    intros r b' (body & q2 & -> & Hd & H2 & Ht & Hbl & Hbc). apply wp_ret. eexists _, q2. split; [done|].
    split_and!; try done.
    + rewrite (length_app (view _ _)), (length_app piece). cbn [reader_ chunked]. lia.
    + intros Hb. destruct (Hcont Hb) as [Hb' Hv]. cbn [reader_ chunked]. by rewrite Hv, (Hbc Hb').
Qed.

(** C22: A chunked body is taken apart at the right places: for every sequence of
    chunks, with or without extensions on the size lines, the pieces that [next]
    returns add up to the number of bytes of the chunks, the framing is consumed to
    its last byte and the connection is left at what follows. If the framed body was
    buffered in one run, the pieces show exactly the data of the chunks. *)
Theorem chunked_body f q head cs last tail limit : feed_ok f q → is_chunked head = true →
  Forall (chunk_ok (Region.capacity_ (ring_ f))) cs → size_line (Region.capacity_ (ring_ f)) last 0 →
  stream q f = encode_chunks cs last ++ tail → 0 < limit →
  ∃ b body b' q', configure f head = Ret b ∧
    drain (S (length (concat (snd <$> cs)))) limit b = Some (Ret body, b') ∧ done_ b' = true ∧
    feed_ok (reader_ b') q' ∧ stream q' (reader_ b') = tail ∧ length body = length (concat (snd <$> cs)) ∧
    (in_one_run f → (length (encode_chunks cs last) ≤ length q)%nat → body = concat (snd <$> cs)).
Proof.
  intros H Hh Hcs Hlast Hst Hl. exists (chunked f 0). pose proof Hlast as (_ & _ & Hcap).
  destruct (drain_chunks (S (length (concat (snd <$> cs)))) limit last tail Hl f q [] cs H)
    as (r & b' & Hd & body & q' & -> & Hdone & H' & Ht & Hlen & Hbuf); try done; [cbn [app]; lia..|].
  exists body, b', q'. split; [unfold configure; by rewrite Hh|]. split_and!; try done. intros Hrun Hq. by apply Hbuf.
Qed.

(** ** Reading a head *)

Lemma head_read f q h rest : feed_ok f q → head_ok h → stream q f = render h ++ crlf ++ crlf ++ rest →
  (length (render h) + 4 ≤ Region.capacity_ (ring_ f))%nat →
  ∃ f' q', read_response_head f = Some (Ret h, f') ∧ feed_ok f' q' ∧ stream q' f' = rest.
Proof.
  intros H Hh Hst Hcap. destruct (take_until_ok f q (crlf ++ crlf) H ltac:(done)) as (r & f' & Hr & q' & H' & Hc & Ho).
  assert (13 ∉ status_line h) as Hcr by (by apply status_line_clean).
  assert (find_bytes (stream q f) (crlf ++ crlf) = length (render h)) as Hfirst.
  { rewrite Hst. apply find_blank_line; [by destruct Hh|done]. }
  destruct r as [s|e].
  2: { destruct Ho as [_ [[_ E]|[_ E]]]; rewrite Hfirst in E; [|cbn in E; lia].
       rewrite Hst, !length_app in E. cbn in E. lia. }
  destruct Ho as (Hst' & Hlen & _). rewrite Hst in Hst'. rewrite Hfirst in Hlen.
  apply app_inj_1 in Hst' as [Htext Hst']; [|done]. rewrite <- app_assoc in Hst'. do 2 apply app_inv_head in Hst'.
  exists f', q'. split; [|done]. unfold read_response_head. by rewrite Hr, <- Htext, parse_render.
Qed.

(** Reading a response head from a connection gives the head that was sent,
    version, status, reason and every header field in order and with its
    duplicates, however the bytes are split between reads; the body is left to
    read, from its first byte. The head has to fit in the feed's buffer. *)
Theorem read_head f q h rest : feed_ok f q → head_ok h → stream q f = render h ++ crlf ++ crlf ++ rest →
  (length (render h) + 4 ≤ Region.capacity_ (ring_ f))%nat →
  ∃ f' q', read_response_head f = Some (Ret h, f') ∧ feed_ok f' q' ∧ stream q' f' = rest.
Proof. apply head_read. Qed.

(** ** Examples *)

Definition head_with (name value : string) : response_head :=
  MkHead (str "HTTP/1.1") 200 (str "OK") [MkHeader (str name) (str value)].

(** A response in two reads, over a buffer of 64 bytes. *)
Definition response_feed (a b : bytes) : feed := make_feed (replicate 64 0) [a; b].

Lemma response_feed_ok a b : a ≠ [] → b ≠ [] → feed_ok (response_feed a b) [].
Proof. intros Ha Hb. apply make_feed_ok; [cbn; lia|cbn; lia|]. by repeat constructor. Qed.

Lemma chunked_head_ok : head_ok (head_with "Transfer-Encoding" "chunked").
Proof.
  split; [|cbn; lia|..].
  - split; [done|]. split; apply (bool_decide_unpack _); vm_compute; exact I.
  - apply (bool_decide_unpack _). vm_compute. exact I.
  - apply Forall_singleton. split; try (apply (bool_decide_unpack _); vm_compute; exact I).
Qed.

Lemma read_head_witness :
  let h := head_with "Transfer-Encoding" "chunked" in
  let f := response_feed (take 30 (render h)) (drop 30 (render h) ++ crlf ++ crlf ++ str "5") in
  ∃ f' q', read_response_head f = Some (Ret h, f') ∧ feed_ok f' q' ∧ stream q' f' = str "5".
Proof.
  intros h f. apply (read_head f []).
  - by apply response_feed_ok.
  - apply chunked_head_ok.
  - vm_compute. reflexivity.
  - apply Nat.leb_le. vm_compute. reflexivity.
Defined.

Lemma next_safe_witness :
  let b := chunked (response_feed (str "xyz" ++ crlf) (str "0")) 0 in
  ∃ r b', next 10 b = Some (r, b') ∧ call_outcome (left_of [] b) 10 r b'.
Proof. intros b. apply next_safe; [split; [by apply response_feed_ok|cbn; lia]|lia]. Defined.

Lemma sized_body_witness :
  let f := response_feed (str "hel") (str "lo, and more") in
  ∃ b r b', configure f (head_with "Content-Length" "5") = Ret b ∧ drain 16 2 b = Some (r, b') ∧ sized_outcome f [] 5 r b'.
Proof.
  intros f. apply (sized_body f [] (head_with "Content-Length" "5") 5 2);
    [by apply response_feed_ok|reflexivity|reflexivity|lia].
Defined.

Lemma unsized_body_witness :
  let f := response_feed (str "hel") (str "lo") in
  ∃ b b' q', configure f (head_with "Server" "x") = Ret b ∧ drain 6 4 b = Some (Ret (str "hello"), b') ∧
    done_ b' = true ∧ feed_ok (reader_ b') q' ∧ stream q' (reader_ b') = [].
Proof.
  intros f. apply (unsized_body f [] (head_with "Server" "x") 4);
    [by apply response_feed_ok|reflexivity|reflexivity|lia].
Defined.

Definition hello_chunks : list (bytes * bytes) := [(str "5", str "hello"); (str "7;ext=1", str ", world")].

Lemma hello_chunks_ok : Forall (chunk_ok 64) hello_chunks.
Proof.
  repeat (apply Forall_cons_2; [split; [split; [reflexivity|split; [reflexivity|apply Nat.leb_le; reflexivity]]|done]|]).
  apply Forall_nil_2.
Qed.

(** A feed that has buffered [q], with [room] more bytes in its buffer. *)
Definition buffered_feed (q : bytes) (room : nat) : feed :=
  MkFeed (Region.MkRing ((Some <$> q) ++ replicate room None) (length q + room) 0 (length q)) (q ++ replicate room 0) [].

Lemma buffered_feed_ok q room : (0 < room)%nat → (2 * Z.of_nat (length q + room) < 2 ^ 64) → feed_ok (buffered_feed q room) q.
Proof.
  intros Hr Hb. split; cbn; [|..|lia|done].
  - split; cbn; [done|rewrite length_app, length_fmap, length_replicate; lia|lia|done|].
    unfold Region.rotation. rewrite drop_0, app_nil_r. do 2 f_equal. lia.
  - apply Forall2_app; [|by apply Forall2_replicate]. clear. induction q; constructor; [by intros ? [= ->]|done].
Qed.

Lemma chunked_body_witness :
  let text := encode_chunks hello_chunks (str "0") in
  let f := buffered_feed (text ++ str "HTTP") 27 in
  ∃ b body b' q', configure f (head_with "Transfer-Encoding" "gzip, Chunked") = Ret b ∧
    drain 13 100 b = Some (Ret body, b') ∧ done_ b' = true ∧ feed_ok (reader_ b') q' ∧
    stream q' (reader_ b') = str "HTTP" ∧ length body = 12%nat ∧
    (in_one_run f → (length text ≤ length (text ++ str "HTTP"))%nat → body = str "hello, world").
Proof.
  intros text f. apply (chunked_body f (text ++ str "HTTP") (head_with "Transfer-Encoding" "gzip, Chunked")
    hello_chunks (str "0") (str "HTTP") 100).
  - apply buffered_feed_ok; [lia|vm_compute; reflexivity].
  - reflexivity.
  - apply hello_chunks_ok.
  - split; [reflexivity|]. split; [reflexivity|]. apply Nat.leb_le. reflexivity.
  - vm_compute. reflexivity.
  - lia.
Defined.

(** A response that arrives in three reads: the size line, the data, and the rest. *)
Definition late_feed : feed :=
  make_feed (replicate 16 0) [str "5" ++ crlf; str "hello"; crlf ++ str "0" ++ crlf ++ crlf].

(** A piece that finishes its chunk can show other bytes than the chunk's. The
    span is lent before the CRLF after the data is taken from the same feed, and
    taking it may refill the storage the span lies in: for the body [hello], whose
    CRLF arrives in a later read, [next] returns a span of five bytes that shows the
    framing after the data. *)
Theorem chunk_overwritten :
  stream [] late_feed = encode_chunks [(str "5", str "hello")] (str "0") ∧
  ∃ s b' b'', next (2 ^ 64 - 1) (chunked late_feed 0) = Some (Ret (Some s), b') ∧
    view (mem (reader_ b')) s = crlf ++ str "0" ++ crlf ∧
    drain 6 (2 ^ 64 - 1) (chunked late_feed 0) = Some (Ret (crlf ++ str "0" ++ crlf), b'').
Proof. split; [vm_compute; reflexivity|]. do 3 eexists. split; [vm_compute; reflexivity|]. vm_compute. done. Qed.

End Body.
