(* ===== verification/Server.v ===== *)
(** * The HTTP server's request reader (src/src/nxtrt/http-server.cpp)

    How a connection reads a request from its byte feed ([Feed]): the strict parser of
    heads, the line and payload readers that spend the wire budget, and the two framings
    of a body. A request that a client writes is read back whatever the reads are cut
    into, with the pipelined bytes after it left alone; no input takes the reader past
    the limits it was given. *)
From S2P Require Import Prelude State Ring Feed Http Body.
#[local] Open Scope Z_scope.

Abbreviation header := Http.Request.header.
Abbreviation MkHeader := Http.Request.MkHeader.
Abbreviation header_name := Http.Request.name.
Abbreviation header_text := Http.Request.value.
Abbreviation request := Http.Request.request.
Abbreviation MkRequest := Http.Request.MkRequest.
Abbreviation iequals := Head.iequals.
Abbreviation trim_ascii := Head.trim_ascii.
Abbreviation cut := Http.Sse.cut.
Abbreviation crlf := Head.crlf.

(** What ends the reading of a request: a [rejection] with its status, or a failure of
    the feed. *)
Inductive failure :=
| rejection (status : Z)
| input_failed (e : feed_error).

(** The limits of [server_options]. *)
Record server_options := MkOptions {
  max_header_bytes : Z;
  max_body_bytes : Z;
  max_body_wire_bytes : Z;
  max_requests_per_connection : nat;
  max_response_header_bytes : Z;
  max_response_body_bytes : Z;
}.

Definition size (s : bytes) : Z := Z.of_nat (length s).

(** ** Fields *)

Definition alpha (c : Z) : bool := ((ch "a" <=? c) && (c <=? ch "z")) || ((ch "A" <=? c) && (c <=? ch "Z")).

Definition token_char (c : Z) : bool :=
  alpha c || is_digit c || existsb (Z.eqb c) (str "!#$%&'*+-.^_`|~").

Definition field_char (c : Z) : bool := (c =? 9) || ((32 <=? c) && negb (c =? 127)).

Definition parse_field (line : bytes) : result failure header :=
  match cut (ch ":") line with
  | None => Throw (rejection 400)
  | Some (name, value) =>
      if bool_decide (name = []) || negb (forallb token_char name) then Throw (rejection 400)
      else if negb (forallb field_char value) then Throw (rejection 400)
      else Ret (MkHeader name (trim_ascii value))
  end.

(** ** Heads *)

Record request_head := MkRequestHead {
  req : request;
  length_ : Z;
  chunked : bool;
  keep_alive : bool;
  bytes_ : Z;
}.

(** The head and the counters of the loop over the fields. *)
Record scan := MkScan {
  head : request_head;
  hosts : nat;
  lengths : nat;
  transfers : nat;
  expects : bool;
}.

Definition host_char (c : Z) : bool :=
  negb ((c <=? 32) || (c =? 127) || existsb (Z.eqb c) (str ",/@\#?")).

Definition target_char (c : Z) : bool := (32 <? c) && (c <? 127).

(** [HTTP/] and a version of two digits. *)
Definition version_ok (v : bytes) : bool :=
  (length v =? 8)%nat && starts_with (str "HTTP/") v && is_digit (nth 5 v 0) && (nth 6 v 0 =? ch ".") && is_digit (nth 7 v 0).

Definition request_line (line : bytes) : result failure (bytes * bytes) :=
  match cut (ch " ") line with
  | None => Throw (rejection 400)
  | Some (method, rest) =>
      match cut (ch " ") rest with
      | None => Throw (rejection 400)
      | Some (target, version) =>
          if bool_decide (method = []) || negb (forallb token_char method) then Throw (rejection 400)
          else if bool_decide (target = []) || negb (forallb target_char target) then Throw (rejection 400)
          else if negb (version_ok version) then Throw (rejection 400)
          else if negb (bool_decide (version = str "HTTP/1.1")) then Throw (rejection 505)
          else if bool_decide (method = str "CONNECT") then Throw (rejection 501)
          else if (negb (starts_with (str "/") target)
                   && negb (bool_decide (method = str "OPTIONS") && bool_decide (target = str "*")))
                  || existsb (Z.eqb (ch "#")) target then Throw (rejection 400)
          else Ret (method, target)
      end
  end.

(** The loop over the tokens of a Connection field: whether [close] is one of them. *)
Fixpoint connection_tokens (fuel : nat) (tokens : bytes) : option (result failure bool) :=
  match fuel with
  | O => None
  | S fuel' =>
      let '(part, rest) := match cut (ch ",") tokens with Some (p, r) => (p, Some r) | None => (tokens, None) end in
      let token := trim_ascii part in
      if negb (bool_decide (token = [])) && negb (forallb token_char token) then Some (Throw (rejection 400))
      else if iequals token (str "upgrade") then Some (Throw (rejection 400))
      else
        let close := iequals token (str "close") in
        match rest with
        | None => Some (Ret close)
        | Some r =>
            match connection_tokens fuel' r with
            | Some (Ret more) => Some (Ret (close || more))
            | o => o
            end
        end
  end.

Definition with_req (f : request → request) (h : request_head) : request_head :=
  MkRequestHead (f (req h)) (length_ h) (chunked h) (keep_alive h) (bytes_ h).

Definition set_host (v : bytes) (r : request) : request :=
  MkRequest (Http.Request.method r) (Http.Request.target r) v (Http.Request.headers r) (Http.Request.body r).

Definition add_field (f : header) (r : request) : request :=
  MkRequest (Http.Request.method r) (Http.Request.target r) (Http.Request.host r) (Http.Request.headers r ++ [f]) (Http.Request.body r).

Definition set_body (b : bytes) (r : request) : request :=
  MkRequest (Http.Request.method r) (Http.Request.target r) (Http.Request.host r) (Http.Request.headers r) b.

(** What a field means for the head. *)
Definition see_field (f : header) (s : scan) : option (result failure scan) :=
  let h := head s in
  let value := header_text f in
  if iequals (header_name f) (str "Host") then
    Some (if bool_decide (value = []) || negb (forallb host_char value) then Throw (rejection 400)
          else Ret (MkScan (with_req (set_host value) h) (S (hosts s)) (lengths s) (transfers s) (expects s)))
  else if iequals (header_name f) (str "Content-Length") then
    Some (if bool_decide (value = []) || negb (forallb is_digit value) then Throw (rejection 400)
          else
            match Head.from_chars_size 10 value with
            | Some (n, []) =>
                Ret (MkScan (MkRequestHead (req h) n (chunked h) (keep_alive h) (bytes_ h)) (hosts s) (S (lengths s)) (transfers s) (expects s))
            | _ => Throw (rejection 400)
            end)
  else if iequals (header_name f) (str "Transfer-Encoding") then
    Some (if negb (iequals value (str "chunked")) then Throw (rejection 400)
          else Ret (MkScan (MkRequestHead (req h) (length_ h) true (keep_alive h) (bytes_ h)) (hosts s) (lengths s) (S (transfers s)) (expects s)))
  else if iequals (header_name f) (str "Expect") then Some (Ret (MkScan h (hosts s) (lengths s) (transfers s) true))
  else if iequals (header_name f) (str "Upgrade") then Some (Throw (rejection 400))
  else if iequals (header_name f) (str "Connection") then
    match connection_tokens (S (length value)) value with
    | None => None
    | Some (Throw e) => Some (Throw e)
    | Some (Ret close) =>
        Some (Ret (MkScan (MkRequestHead (req h) (length_ h) (chunked h) (if close then false else keep_alive h) (bytes_ h))
                     (hosts s) (lengths s) (transfers s) (expects s)))
    end
  else Some (Ret s).

Definition push_field (f : header) (s : scan) : scan :=
  MkScan (with_req (add_field f) (head s)) (hosts s) (lengths s) (transfers s) (expects s).

(** The loop over the fields, each of two bytes or more. *)
Fixpoint parse_fields (fuel : nat) (text : bytes) (s : scan) : option (result failure scan) :=
  match fuel with
  | O => None
  | S fuel' =>
      if bool_decide (text = crlf) then Some (Ret s)
      else
        let eol := find_bytes text crlf in
        if (eol =? length text)%nat then Some (Throw (rejection 400))
        else
          match parse_field (take eol text) with
          | Throw e => Some (Throw e)
          | Ret f =>
              match see_field f s with
              | Some (Ret s') => parse_fields fuel' (drop (eol + 2) text) (push_field f s')
              | o => o
              end
          end
  end.

(** What the counters say at the end. *)
Definition framing (s : scan) : result failure request_head :=
  if negb (hosts s =? 1)%nat || (1 <? lengths s)%nat || (1 <? transfers s)%nat
     || (negb (lengths s =? 0)%nat && negb (transfers s =? 0)%nat) then Throw (rejection 400)
  else if expects s then Throw (rejection 417)
  else Ret (head s).

Definition parse_head (text : bytes) : option (result failure request_head) :=
  let eol := find_bytes text crlf in
  let found := negb (eol =? length text)%nat in
  match request_line (if found then take eol text else text) with
  | Throw e => Some (Throw e)
  | Ret (method, target) =>
      let start := MkScan (MkRequestHead (MkRequest method target [] [] []) 0 false true (size text)) 0 0 0 false in
      (* [npos + 2] wraps to one *)
      match parse_fields (S (length text)) (if found then drop (eol + 2) text else drop 1 text) start with
      | None => None
      | Some (Throw e) => Some (Throw e)
      | Some (Ret s) => Some (framing s)
      end
  end.

(** ** Reading *)

(** A connection's feed and the bytes that were read and not used yet. *)
Record conn := MkConn { input : feed; pending : bytes }.

Abbreviation op := (prog conn failure).

Definition set_input (f : feed) (c : conn) : conn := MkConn f (pending c).
Definition set_pending (p : bytes) (c : conn) : conn := MkConn (input c) p.

Definition on_input {A} (m : prog feed feed_error A) : op A := λ c,
  match m (input c) with
  | None => None
  | Some (Ret a, f) => Some (Ret a, set_input f c)
  | Some (Throw e, f) => Some (Throw (input_failed e), set_input f c)
  end.

Definition lift {A} (r : result failure A) : op A := match r with Ret a => pret a | Throw e => pthrow e end.

(** A loop that ran out of fuel. *)
Definition lift_fuel {A} (r : option (result failure A)) : op A := match r with Some r => lift r | None => λ _, None end.

(** The bytes that may still arrive. *)
Definition input_left (c : conn) : nat := buffered_size (input c) + source_size (input c).

Definition append_input (limit status : Z) : op bool :=
  p <~ gets pending;
  if limit <=? size p then pthrow (rejection status)
  else
    bytes <~ on_input (take_some (Z.to_nat (Z.min 4096 (limit - size p))));
    match bytes with
    | None => pret false
    | Some s =>
        _ <~ modify (λ c, set_pending (pending c ++ view (mem (input c)) s) c);
        pret true
    end.

(** [pending.find(needle)]. *)
Definition found (needle : bytes) (c : conn) : option nat :=
  let i := find_bytes (pending c) needle in if (i =? length (pending c))%nat then None else Some i.

Definition erase (n : nat) : op unit := modify (λ c, set_pending (drop n (pending c)) c).

(** The loop that reads until there is a blank line; [None] is a connection that ended
    before the first byte. *)
Fixpoint head_end (fuel : nat) (options : server_options) : op (option nat) :=
  match fuel with
  | O => λ _, None
  | S fuel' =>
      e <~ gets (found (crlf ++ crlf));
      match e with
      | Some n => pret (Some n)
      | None =>
          more <~ append_input (max_header_bytes options) 431;
          if more : bool then head_end fuel' options
          else
            p <~ gets pending;
            if bool_decide (p = []) then pret None else pthrow (rejection 400)
      end
  end.

Definition read_head (options : server_options) : op (option request_head) :=
  n <~ gets input_left;
  e <~ head_end (S n) options;
  match e with
  | None => pret None
  | Some e =>
      let size_ := (e + 4)%nat in
      if max_header_bytes options <? Z.of_nat size_ then pthrow (rejection 431)
      else
        p <~ gets pending;
        parsed <~ lift_fuel (parse_head (take size_ p));
        _ <~ erase size_;
        pret (Some parsed)
  end.

Fixpoint line_end (fuel : nat) (wire limit : Z) : op nat :=
  match fuel with
  | O => λ _, None
  | S fuel' =>
      e <~ gets (found crlf);
      match e with
      | Some n => pret n
      | None =>
          more <~ append_input (Z.min wire limit) (if wire <? limit then 413 else 431);
          if more : bool then line_end fuel' wire limit else pthrow (rejection 400)
      end
  end.

(** The line, and the wire budget that is left. *)
Definition read_line (wire limit : Z) : op (bytes * Z) :=
  n <~ gets input_left;
  e <~ line_end (S n) wire limit;
  let size_ := (e + 2)%nat in
  if wire <? Z.of_nat size_ then pthrow (rejection 413)
  else if limit <? Z.of_nat size_ then pthrow (rejection 431)
  else
    p <~ gets pending;
    _ <~ erase size_;
    pret (take e p, wire - Z.of_nat size_).

Definition trim_left (text : bytes) : bytes := Head.trim_front text.

(** The longest prefix of such characters. *)
Fixpoint prefix_of_chars (P : Z → bool) (s : bytes) : nat :=
  match s with
  | c :: s' => if P c then S (prefix_of_chars P s') else O
  | [] => O
  end.

Definition hex_char (c : Z) : bool := match Head.digit_value 16 c with Some _ => true | None => false end.

(** The text after the closing quote of a quoted string. *)
Fixpoint quoted_string (fuel : nat) (line : bytes) : option (result failure bytes) :=
  match fuel with
  | O => None
  | S fuel' =>
      match line with
      | [] => Some (Throw (rejection 400))
      | c :: line =>
          if c =? dquote then Some (Ret line)
          else if c =? backslash then
            match line with
            | [] => Some (Throw (rejection 400))
            | c' :: line => if field_char c' then quoted_string fuel' line else Some (Throw (rejection 400))
            end
          else if field_char c then quoted_string fuel' line else Some (Throw (rejection 400))
      end
  end.

(** The loop over the extensions of a chunk. *)
Fixpoint chunk_extensions (fuel : nat) (line : bytes) : option (result failure unit) :=
  match fuel with
  | O => None
  | S fuel' =>
      match line with
      | [] => Some (Ret tt)
      | _ =>
          match trim_left line with
          | [] => Some (Throw (rejection 400))
          | c :: line =>
              if negb (c =? ch ";") then Some (Throw (rejection 400))
              else
                let line := trim_left line in
                let name := prefix_of_chars token_char line in
                if (name =? 0)%nat then Some (Throw (rejection 400))
                else
                  match drop name line with
                  | [] => Some (Ret tt)
                  | line =>
                      match trim_left line with
                      | [] => Some (Throw (rejection 400))
                      | c :: rest =>
                          if negb (c =? ch "=") then chunk_extensions fuel' (c :: rest)
                          else
                            match trim_left rest with
                            | [] => Some (Throw (rejection 400))
                            | c :: rest =>
                                if c =? dquote then
                                  match quoted_string (S (length rest)) rest with
                                  | None => None
                                  | Some (Throw e) => Some (Throw e)
                                  | Some (Ret line) => chunk_extensions fuel' line
                                  end
                                else
                                  let value := prefix_of_chars token_char (c :: rest) in
                                  if (value =? 0)%nat then Some (Throw (rejection 400))
                                  else chunk_extensions fuel' (drop value (c :: rest))
                            end
                      end
                  end
          end
      end
  end.

Definition chunk_length (line : bytes) : option (result failure Z) :=
  let digits := take (prefix_of_chars hex_char line) line in
  match Head.from_chars_size 16 digits with
  | Some (n, []) =>
      match chunk_extensions (S (length line)) (drop (length digits) line) with
      | None => None
      | Some (Throw e) => Some (Throw e)
      | Some (Ret _) => Some (Ret n)
      end
  | _ => Some (Throw (rejection 400))
  end.

(** The loop over the pieces of a payload, each of a byte or more: the body and the wire
    budget. *)
Fixpoint payload_loop (fuel : nat) (body : bytes) (length_ wire : Z) : op (bytes * Z) :=
  match fuel with
  | O => λ _, None
  | S fuel' =>
      if length_ =? 0 then pret (body, wire)
      else
        p <~ gets pending;
        more <~ (if bool_decide (p = []) then append_input (Z.min length_ 4096) 413 else pret true);
        if negb more then pthrow (rejection 400)
        else
          p <~ gets pending;
          let count := Z.to_nat (Z.min length_ (size p)) in
          _ <~ erase count;
          payload_loop fuel' (body ++ take count p) (length_ - Z.of_nat count) (wire - Z.of_nat count)
  end.

Definition read_payload (body : bytes) (length_ wire body_limit : Z) : op (bytes * Z) :=
  if (wrap 64 (body_limit - size body) <? length_) || (wire <? length_) then pthrow (rejection 413)
  else
    n <~ gets (λ c, length (pending c) + input_left c)%nat;
    payload_loop (S n) body length_ wire.

(** The two bytes after the data of a chunk. *)
Fixpoint fill_two (fuel : nat) : op unit :=
  match fuel with
  | O => λ _, None
  | S fuel' =>
      p <~ gets pending;
      if 2 <=? size p then pret tt
      else
        more <~ append_input 2 400;
        if more : bool then fill_two fuel' else pthrow (rejection 400)
  end.

Definition chunk_crlf (wire : Z) : op Z :=
  if wire <? 2 then pthrow (rejection 413)
  else
    _ <~ fill_two 3;
    p <~ gets pending;
    if negb (starts_with crlf p) then pthrow (rejection 400)
    else _ <~ erase 2; pret (wire - 2).

(** The loop over the chunks, until the one of length zero. *)
Fixpoint chunks_loop (fuel : nat) (options : server_options) (body : bytes) (wire : Z) : op (bytes * Z) :=
  match fuel with
  | O => λ _, None
  | S fuel' =>
      lw <~ read_line wire (max_header_bytes options);
      let '(line, wire) := lw in
      n <~ lift_fuel (chunk_length line);
      if n =? 0 then pret (body, wire)
      else
        bw <~ read_payload body n wire (max_body_bytes options);
        let '(body, wire) := bw in
        wire <~ chunk_crlf wire;
        chunks_loop fuel' options body wire
  end.

(** The loop over the trailer fields, which are checked and dropped. *)
Fixpoint trailers_loop (fuel : nat) (wire budget : Z) : op unit :=
  match fuel with
  | O => λ _, None
  | S fuel' =>
      lw <~ read_line wire budget;
      let '(line, wire) := lw in
      let budget := wrap 64 (budget - (size line + 2)) in
      if bool_decide (line = []) then pret tt
      else
        f <~ lift (parse_field line);
        if iequals (header_name f) (str "Content-Length") || iequals (header_name f) (str "Transfer-Encoding")
        then pthrow (rejection 400)
        else trailers_loop fuel' wire budget
  end.

Definition read_body (parsed : request_head) (options : server_options) : op request_head :=
  let wire := max_body_wire_bytes options in
  let body := Http.Request.body (req parsed) in
  if negb (chunked parsed) then
    bw <~ read_payload body (length_ parsed) wire (max_body_bytes options);
    pret (with_req (set_body bw.1) parsed)
  else
    n <~ gets (λ c, length (pending c) + input_left c)%nat;
    bw <~ chunks_loop (S n) options body wire;
    let '(body, wire) := bw in
    n <~ gets (λ c, length (pending c) + input_left c)%nat;
    _ <~ trailers_loop (S n) wire (wrap 64 (max_header_bytes options - bytes_ parsed + 2));
    pret (with_req (set_body body) parsed).

(** What [connection] reads for one request: its head and, when it has one, its body. *)
Definition read_request (options : server_options) : op (option request_head) :=
  parsed <~ read_head options;
  match parsed with
  | None => pret None
  | Some parsed =>
      if (max_body_bytes options <? length_ parsed) || (max_body_wire_bytes options <? length_ parsed)
      then pthrow (rejection 413)
      else if chunked parsed || negb (length_ parsed =? 0)
      then parsed <~ read_body parsed options; pret (Some parsed)
      else pret (Some parsed)
  end.

(** ** What is left to read *)

(** The connection's feed has buffered [q]. *)
Definition conn_ok (c : conn) (q : bytes) : Prop := feed_ok (input c) q.

(** What a reader of the connection will still see. *)
Definition rest (q : bytes) (c : conn) : bytes := pending c ++ stream q (input c).

Lemma input_left_ok c q : conn_ok c q → input_left c = length (stream q (input c)).
Proof. intros H. unfold input_left, stream. rewrite (buffered_size_ok _ _ H), length_app. done. Qed.

(** More of the stream is pending, and no more than [limit]. *)
Record grown (limit : Z) (q : bytes) (c : conn) (q' : bytes) (c' : conn) : Prop := {
  gr_ok : conn_ok c' q';
  gr_rest : rest q' c' = rest q c;
  gr_more : (length (pending c) < length (pending c'))%nat;
  gr_left : (input_left c' < input_left c)%nat;
  gr_limit : size (pending c') ≤ limit;
  gr_prefix : pending c `prefix_of` pending c';
}.

Lemma append_input_wp c q limit status Q : conn_ok c q →
  (limit ≤ size (pending c) → Q (Throw (rejection status)) c) →
  (size (pending c) < limit → stream q (input c) = [] → Q (Ret false) c) →
  (size (pending c) < limit → ∀ q' c', grown limit q c q' c' → Q (Ret true) c') →
  wp (append_input limit status) Q c.
Proof.
  intros H Hfull Hend Hmore. unfold append_input. apply wp_bind, wp_gets. destruct (Z.leb_spec limit (size (pending c))) as [Hle|Hlt].
  { by apply wp_throw, Hfull. }
  set (n := Z.to_nat (Z.min 4096 (limit - size (pending c)))). apply wp_bind. assert (0 < n)%nat as Hn by lia.
  pose proof (take_some_ok _ _ n H Hn) as Hs. case_bool_decide as He.
  - exists (Ret None), c. unfold on_input. rewrite Hs. split; [by destruct c|]. apply wp_ret. auto.
  - destruct Hs as (s & f' & q' & Hr & H' & Hst & Hlen & Hv & _). exists (Ret (Some s)), (set_input f' c). unfold on_input. rewrite Hr.
    split; [done|]. apply wp_bind, wp_modify, wp_ret. set (c' := set_pending _ _).
    assert (pending c' = pending c ++ view (mem f') s) as Hp by done.
    assert (rest q' c' = rest q c) as Hrest by (unfold rest; rewrite Hst, Hp, <- app_assoc; done).
    apply (Hmore Hlt q'). split; [done|done|rewrite Hp, length_app; lia| |rewrite Hp; unfold size; rewrite length_app, Hv; unfold size in *; lia|rewrite Hp; by eexists].
    rewrite (input_left_ok c q H), (input_left_ok c' q' H'), Hst, length_app. change (input c') with f'. lia.
Qed.

Lemma found_some needle c n : needle ≠ [] → found needle c = Some n → ∀ x,
  find_bytes (pending c ++ x) needle = n ∧ (n + length needle ≤ length (pending c))%nat ∧
  take (n + length needle) (pending c) = take n (pending c) ++ needle.
Proof.
  intros Hn Hf x. unfold found in Hf. destruct (Nat.eqb_spec (find_bytes (pending c) needle) (length (pending c))) as [|Hne]; [done|]. injection Hf as <-.
  pose proof (find_le (pending c) needle) as Hle. destruct (find_found (pending c) needle x Hn) as (H1 & H2 & H3); [lia|].
  split; [done|]. split; [done|]. set (n := find_bytes (pending c) needle) in *.
  rewrite <- take_take_drop. f_equal.
  rewrite (starts_with_split _ _ H2). apply take_app_length.
Qed.

Lemma found_none needle c x : needle ≠ [] → found needle c = None → (length (pending c) < find_bytes (pending c ++ x) needle + length needle)%nat.
Proof.
  intros Hn Hf. unfold found in Hf. destruct (Nat.eqb_spec (find_bytes (pending c) needle) (length (pending c))) as [E|]; [|done].
  by apply find_missing.
Qed.

Lemma erase_rest c q n : conn_ok c q → (n ≤ length (pending c))%nat →
  conn_ok (set_pending (drop n (pending c)) c) q ∧ rest q c = take n (pending c) ++ rest q (set_pending (drop n (pending c)) c).
Proof. intros H Hn. split; [done|]. unfold rest. cbn [pending set_pending input]. by rewrite app_assoc, take_drop. Qed.

(** What a connection keeps while it reads. *)
Record kept (bound : Z) (c : conn) (q' : bytes) (c' : conn) : Prop := {
  kt_ok : conn_ok c' q';
  kt_pending : size (pending c') ≤ Z.max (size (pending c)) bound;
}.

(** ** Lines *)

Definition line_outcome (q : bytes) (c : conn) (wire limit : Z) (r : result failure (bytes * Z)) (c' : conn) : Prop :=
  ∃ q', kept limit c q' c' ∧
  match r with
  | Ret (line, wire') =>
      rest q c = line ++ crlf ++ rest q' c' ∧ find_bytes (rest q c) crlf = length line ∧ wire' = wire - (size line + 2) ∧ 0 ≤ wire' ∧ size line + 2 ≤ limit
  | Throw e => ∃ s, e = rejection s ∧ s ∈ [400; 413; 431] ∧
      (find_bytes (rest q c) crlf = length (rest q c) ∨ Z.min wire limit < Z.of_nat (find_bytes (rest q c) crlf) + 2)
  end.

Lemma line_end_wp fuel wire limit : ∀ c q, conn_ok c q → (input_left c < fuel)%nat →
  wp (line_end fuel wire limit) (λ r c', ∃ q', kept limit c q' c' ∧ rest q' c' = rest q c ∧
    match r with
    | Ret n => found crlf c' = Some n
    | Throw e => ∃ s, e = rejection s ∧ s ∈ [400; 413; 431] ∧
        (find_bytes (rest q c) crlf = length (rest q c) ∨ Z.min wire limit < Z.of_nat (find_bytes (rest q c) crlf) + 2)
    end) c.
Proof.
  induction fuel as [|fuel IH]; intros c q H Hf; [lia|]. cbn [line_end]. apply wp_bind, wp_gets.
  destruct (found crlf c) as [n|] eqn:Hfound.
  { apply wp_ret. exists q. split; [split; [done|lia]|done]. }
  apply wp_bind. apply (append_input_wp c q _ _ _ H).
  - intros Hle. exists q. split; [split; [done|lia]|]. split; [done|]. eexists. split; [done|]. split; [destruct (wire <? limit); set_solver|].
    right. pose proof (found_none crlf c (stream q (input c)) ltac:(done) Hfound) as Hm. unfold rest, size in *. cbn [length Head.crlf] in Hm. lia.
  - intros _ Hend. apply wp_throw. exists q. split; [split; [done|lia]|]. split; [done|]. eexists. split; [done|]. split; [set_solver|]. left.
    unfold rest. rewrite Hend, app_nil_r. unfold found in Hfound. by destruct (Nat.eqb_spec (find_bytes (pending c) crlf) (length (pending c))).
  - intros _ q1 c1 [G1 G2 G3 G4 G5 _]. apply (wp_mono _ _ _ _ (IH c1 q1 G1 ltac:(lia))). intros r c' (q' & [K1 K2] & Hr & Hout).
    exists q'. rewrite <- G2. split; [split; [done|lia]|done].
Qed.

Lemma read_line_wp c q wire limit : conn_ok c q → wp (read_line wire limit) (line_outcome q c wire limit) c.
Proof.
  intros H. unfold read_line. apply wp_bind, wp_gets, wp_bind. apply (wp_mono _ _ _ _ (line_end_wp (S (input_left c)) wire limit c q H ltac:(lia))).
  intros [e|e] c1 (q1 & [K1 K2] & Hr & Hout); [|exists q1; split; [by split|done]].
  destruct (found_some crlf c1 e ltac:(done) Hout (stream q1 (input c1))) as (Hfind & Hle & Hsplit). fold (rest q1 c1) in Hfind. rewrite Hr in Hfind.
  cbn [length Head.crlf] in Hle, Hsplit.
  destruct (Z.ltb_spec wire (Z.of_nat (e + 2))) as [Hw|Hw].
  { apply wp_throw. exists q1. split; [by split|]. eexists. split; [done|]. split; [set_solver|]. right. rewrite Hfind. lia. }
  destruct (Z.ltb_spec limit (Z.of_nat (e + 2))) as [Hl|Hl].
  { apply wp_throw. exists q1. split; [by split|]. eexists. split; [done|]. split; [set_solver|]. right. rewrite Hfind. lia. }
  apply wp_bind, wp_gets, wp_bind, wp_modify, wp_ret. destruct (erase_rest c1 q1 (e + 2) K1 Hle) as [H2 Hr2]. exists q1.
  assert (size (take e (pending c1)) = Z.of_nat e) as Hsz by (unfold size; rewrite length_take; lia).
  split; [split; [done|cbn [pending set_pending]; unfold size in *; rewrite length_drop; lia]|].
  split; [|split; [rewrite Hfind, length_take; lia|rewrite Hsz; lia]].
  rewrite <- Hr, Hr2, Hsplit, <- app_assoc. done.
Qed.

(** ** Heads are parsed to an end *)

(** The statuses a request is refused with. *)
Definition refusals : list Z := [400; 413; 417; 431; 501; 505].

(** An outcome that is a value or a refusal. *)
Definition settled {A} (r : option (result failure A)) : Prop :=
  ∃ v, r = Some v ∧ ∀ e, v = Throw e → ∃ s, e = rejection s ∧ s ∈ refusals.

Lemma settled_ret {A} (a : A) : settled (Some (Ret a)).
Proof. by eexists. Qed.

Lemma settled_throw {A} s : bool_decide (s ∈ refusals) = true → settled (Some (Throw (rejection s) : result failure A)).
Proof. intros H%bool_decide_eq_true. eexists. split; [done|]. intros e [= <-]. eauto. Qed.

Lemma settled_pass {A B} (e : failure) : (∀ e', (Throw e : result failure A) = Throw e' → ∃ s, e' = rejection s ∧ s ∈ refusals) →
  settled (Some (Throw e : result failure B)).
Proof. intros H. eexists. split; [done|]. intros e' [= <-]. by apply H. Qed.

Lemma settled_if {A} (b : bool) (r r' : option (result failure A)) : settled r → settled r' → settled (if b then r else r').
Proof. by destruct b. Qed.

Lemma settled_some_if {A} (b : bool) (r r' : result failure A) : settled (Some r) → settled (Some r') → settled (Some (if b then r else r')).
Proof. by destruct b. Qed.

(** The goals that only branch to values and refusals. *)
Ltac settle := repeat first [apply settled_ret | apply settled_throw; reflexivity | apply settled_if | apply settled_some_if | done].

Lemma cut_length c s a b : cut c s = Some (a, b) → (length s = length a + 1 + length b)%nat ∧ s = a ++ c :: b.
Proof.
  revert a b. induction s as [|x s IH]; intros a b; cbn; [done|]. destruct (Z.eqb_spec x c) as [->|].
  - by intros [= <- <-].
  - destruct (cut c s) as [[a' b']|] eqn:E; [|done]. intros [= <- <-]. destruct (IH a' b' eq_refl) as [H1 H2]. cbn. split; [lia|by rewrite H2].
Qed.

Lemma connection_tokens_settled fuel tokens : (length tokens < fuel)%nat → settled (connection_tokens fuel tokens).
Proof.
  revert tokens. induction fuel as [|fuel IH]; intros tokens Hf; [lia|]. cbn [connection_tokens].
  destruct (cut (ch ",") tokens) as [[p r]|] eqn:Hc; settle. apply cut_length in Hc as [Hc _].
  destruct (IH r ltac:(lia)) as ([more|e] & -> & He); settle. by apply (settled_pass (A := bool)).
Qed.

Lemma see_field_settled f s : settled (see_field f s).
Proof.
  unfold see_field. settle.
  - destruct (Head.from_chars_size 10 _) as [[n [|]]|]; settle.
  - destruct (connection_tokens_settled (S (length (header_text f))) (header_text f) ltac:(lia)) as ([b|e] & -> & He); settle.
    by apply (settled_pass (A := bool)).
Qed.

Lemma parse_field_settled line : settled (Some (parse_field line)).
Proof. unfold parse_field. destruct (cut (ch ":") line) as [[n v]|]; settle. Qed.

Lemma parse_fields_settled fuel text s : (length text < fuel)%nat → settled (parse_fields fuel text s).
Proof.
  revert text s. induction fuel as [|fuel IH]; intros text s Hf; [lia|]. cbn [parse_fields].
  apply settled_if; [apply settled_ret|]. destruct (Nat.eqb_spec (find_bytes text crlf) (length text)) as [|Hne]; [by settle|]. pose proof (find_le text crlf) as Hle.
  destruct (parse_field_settled (take (find_bytes text crlf) text)) as (r & Hr & He). injection Hr as <-.
  destruct (parse_field _) as [f|e]; [|by eapply settled_pass].
  destruct (see_field_settled f s) as ([s'|e] & -> & He'); [|by eapply settled_pass]. apply IH. rewrite length_drop. lia.
Qed.

Lemma request_line_settled line : settled (Some (request_line line)).
Proof. unfold request_line. destruct (cut _ line) as [[m r]|]; settle. destruct (cut _ r) as [[t v]|]; settle. Qed.

Lemma parse_head_settled text : settled (parse_head text).
Proof.
  unfold parse_head. cbv zeta.
  set (line := if negb (find_bytes text crlf =? length text)%nat then take (find_bytes text crlf) text else text). destruct (request_line_settled line) as (r & Hr & He). injection Hr as <-.
  destruct (request_line line) as [[m t]|e]; [|by eapply settled_pass].
  set (start := MkScan _ _ _ _ _).
  set (text' := if negb (find_bytes text crlf =? length text)%nat then drop (find_bytes text crlf + 2) text else drop 1 text).
  destruct (parse_fields_settled (S (length text)) text' start) as ([s|e] & -> & He').
  - unfold text'. destruct (negb _); rewrite length_drop; lia.
  - unfold framing. settle.
  - by eapply settled_pass.
Qed.

(** ** Heads *)

Definition head_outcome (q : bytes) (c : conn) (options : server_options) (r : result failure (option request_head)) (c' : conn) : Prop :=
  let blank := find_bytes (rest q c) (crlf ++ crlf) in
  ∃ q', kept (max_header_bytes options) c q' c' ∧
  match r with
  | Ret None => rest q c = []
  | Ret (Some p) => ∃ text, rest q c = text ++ rest q' c' ∧ (blank + 4 = length text)%nat ∧ size text ≤ max_header_bytes options ∧
      parse_head text = Some (Ret p)
  | Throw e => (∃ s, e = rejection s ∧ s ∈ refusals) ∧ (rest q c = [] → max_header_bytes options ≤ 0) ∧
      (blank = length (rest q c) ∨ max_header_bytes options < Z.of_nat blank + 4 ∨ parse_head (take (blank + 4) (rest q c)) = Some (Throw e))
  end.

Lemma head_end_wp fuel options : ∀ c q, conn_ok c q → (input_left c < fuel)%nat →
  wp (head_end fuel options) (λ r c', ∃ q', kept (max_header_bytes options) c q' c' ∧ rest q' c' = rest q c ∧
    match r with
    | Ret None => rest q c = []
    | Ret (Some n) => found (crlf ++ crlf) c' = Some n
    | Throw e => (∃ s, e = rejection s ∧ s ∈ refusals) ∧ (rest q c = [] → max_header_bytes options ≤ 0) ∧
        (find_bytes (rest q c) (crlf ++ crlf) = length (rest q c) ∨ max_header_bytes options < Z.of_nat (find_bytes (rest q c) (crlf ++ crlf)) + 4)
    end) c.
Proof.
  induction fuel as [|fuel IH]; intros c q H Hf; [lia|]. cbn [head_end]. apply wp_bind, wp_gets.
  destruct (found (crlf ++ crlf) c) as [n|] eqn:Hfound.
  { apply wp_ret. exists q. split; [split; [done|lia]|done]. }
  apply wp_bind. apply (append_input_wp c q _ _ _ H).
  - intros Hle. exists q. split; [split; [done|lia]|]. split; [done|]. split; [eexists; split; [done|set_solver]|].
    split; [intros [E _]%app_eq_nil; rewrite E in Hle; done|]. right. pose proof (found_none (crlf ++ crlf) c (stream q (input c)) ltac:(done) Hfound) as Hm. unfold rest, size in *. cbn [length app Head.crlf] in *. lia.
  - intros _ Hend. apply wp_bind, wp_gets. assert (rest q c = pending c) as Hrest by (unfold rest; by rewrite Hend, app_nil_r). case_bool_decide as Hp.
    + apply wp_ret. exists q. split; [split; [done|lia]|]. split; [done|congruence].
    + apply wp_throw. exists q. split; [split; [done|lia]|]. split; [done|]. split; [eexists; split; [done|set_solver]|]. split; [congruence|]. left.
      rewrite Hrest. unfold found in Hfound. by destruct (Nat.eqb_spec (find_bytes (pending c) (crlf ++ crlf)) (length (pending c))).
  - intros _ q1 c1 [G1 G2 G3 G4 G5 _]. apply (wp_mono _ _ _ _ (IH c1 q1 G1 ltac:(lia))). intros r c' (q' & [K1 K2] & Hr & Hout).
    exists q'. rewrite <- G2. split; [split; [done|lia]|done].
Qed.

Lemma read_head_wp c q options : conn_ok c q → wp (read_head options) (head_outcome q c options) c.
Proof.
  intros H. unfold read_head. apply wp_bind, wp_gets, wp_bind. apply (wp_mono _ _ _ _ (head_end_wp (S (input_left c)) options c q H ltac:(lia))).
  unfold head_outcome. intros [[e|]|e] c1 (q1 & [K1 K2] & Hr & Hout); cbv zeta.
  - destruct (found_some (crlf ++ crlf) c1 e ltac:(done) Hout (stream q1 (input c1))) as (Hfind & Hle & Hsplit). fold (rest q1 c1) in Hfind. rewrite Hr in Hfind.
    cbn [length app Head.crlf] in Hle, Hsplit. rewrite Hfind.
    assert (rest q c = [] → max_header_bytes options ≤ 0) as Hnil by (rewrite <- Hr; intros [E _]%app_eq_nil; rewrite E in Hle; cbn in Hle; lia).
    destruct (Z.ltb_spec (max_header_bytes options) (Z.of_nat (e + 4))) as [Hw|Hw].
    { apply wp_throw. exists q1. split; [by split|]. split; [eexists; split; [done|set_solver]|]. split; [done|]. right. left. lia. }
    apply wp_bind, wp_gets, wp_bind. destruct (erase_rest c1 q1 (e + 4) K1 Hle) as [H2 Hr2].
    destruct (parse_head_settled (take (e + 4) (pending c1))) as (r & Hp & He). rewrite Hp. destruct r as [p|er].
    + apply wp_ret, wp_bind, wp_modify, wp_ret. exists q1.
      split; [split; [done|cbn [pending set_pending]; unfold size in *; rewrite length_drop; lia]|].
      exists (take (e + 4) (pending c1)). rewrite <- Hr. split; [done|]. unfold size. rewrite length_take. split; [lia|]. split; [lia|done].
    + apply wp_throw. exists q1. split; [by split|]. split; [by apply He|]. split; [done|]. right. right. rewrite <- Hr. unfold rest. by rewrite take_app_le.
  - apply wp_ret. exists q1. split; [by split|done].
  - exists q1. split; [by split|]. destruct Hout as (? & ? & ?). tauto.
Qed.

(** ** Payloads *)

(** The next [n] bytes were added to the body. *)
Definition payload_outcome (q : bytes) (c : conn) (body : bytes) (n wire : Z) (r : result failure (bytes * Z)) (c' : conn) : Prop :=
  ∃ q', kept 4096 c q' c' ∧
  match r with
  | Ret (body', wire') => ∃ data, size data = n ∧ rest q c = data ++ rest q' c' ∧ body' = body ++ data ∧ wire' = wire - n
  | Throw e => e = rejection 400 ∧ size (rest q c) < n
  end.

Lemma payload_loop_wp fuel : ∀ c q body n wire, conn_ok c q → 0 ≤ n → (length (pending c) + input_left c < fuel)%nat →
  wp (payload_loop fuel body n wire) (payload_outcome q c body n wire) c.
Proof.
  induction fuel as [|fuel IH]; intros c q body n wire H Hn Hf; [lia|]. cbn [payload_loop]. destruct (Z.eqb_spec n 0) as [->|H0].
  { apply wp_ret. exists q. split; [split; [done|lia]|]. exists []. rewrite app_nil_r. split_and!; try done. lia. }
  apply wp_bind, wp_gets, wp_bind.
  assert (∀ q1 c1, conn_ok c1 q1 → rest q1 c1 = rest q c → pending c1 ≠ [] → (length (pending c1) + input_left c1 < S fuel)%nat →
    size (pending c1) ≤ Z.max (size (pending c)) 4096 →
    wp (if negb true then pthrow (rejection 400)
        else
          p <~ gets pending;
          _ <~ erase (Z.to_nat (Z.min n (size p)));
          payload_loop fuel (body ++ take (Z.to_nat (Z.min n (size p))) p) (n - Z.of_nat (Z.to_nat (Z.min n (size p))))
            (wire - Z.of_nat (Z.to_nat (Z.min n (size p))))) (payload_outcome q c body n wire) c1) as Hgo.
  { intros q1 c1 H1 Hr1 Hp1 Hf1 Hb1. cbn [negb]. apply wp_bind, wp_gets, wp_bind, wp_modify. set (k := Z.to_nat (Z.min n (size (pending c1)))).
    assert (0 < length (pending c1))%nat as Hpos by (destruct (pending c1); [done|cbn; lia]).
    assert ((k ≤ length (pending c1))%nat ∧ (0 < k)%nat ∧ Z.of_nat k ≤ n) as (Hk & Hk0 & Hkn) by (unfold k, size; lia).
    destruct (erase_rest c1 q1 k H1 Hk) as [H2 Hr2]. set (c2 := set_pending (drop k (pending c1)) c1) in *.
    assert (length (pending c2) = length (pending c1) - k)%nat as Hl2 by (unfold c2; cbn; by rewrite length_drop).
    eapply wp_mono; [apply (IH c2 q1); [done|lia|change (input_left c2) with (input_left c1); lia]|].
    assert (size (take k (pending c1)) = Z.of_nat k) as Hsz by (unfold size; rewrite length_take; lia).
    intros r c' (q' & [K1 K2] & Hout). exists q'. split; [split; [done|unfold size in *; lia]|]. rewrite <- Hr1, Hr2. destruct r as [[b w]|e].
    - destruct Hout as (data & Hd & Hrd & -> & ->). exists (take k (pending c1) ++ data).
      split; [unfold size in *; rewrite length_app; lia|]. rewrite Hrd, !app_assoc. split_and!; try done. lia.
    - destruct Hout as [-> Hlt]. split; [done|]. unfold size in *. rewrite length_app. lia. }
  case_bool_decide as Hp.
  - apply (append_input_wp c q _ _ _ H).
    + intros Hle. unfold size in Hle. rewrite Hp in Hle. cbn in Hle. lia.
    + intros _ Hend. cbn [negb]. apply wp_throw. exists q. split; [split; [done|lia]|]. split; [done|]. unfold rest. rewrite Hp, Hend. change (0 < n). lia.
    + intros _ q1 c1 [G1 G2 G3 G4 G5 _]. apply (Hgo q1 c1); try done; [by intros E; rewrite E in G3; cbn in G3; lia| |unfold size in *; lia].
      unfold conn_ok in *. pose proof (f_equal length G2) as E. unfold rest in E. rewrite !length_app, <- (input_left_ok c q H), <- (input_left_ok c1 q1 G1) in E. lia.
  - apply wp_ret. apply (Hgo q c); try done. lia.
Qed.

Lemma read_payload_wp c q body n wire limit : conn_ok c q → 0 ≤ n → size body ≤ limit < 2 ^ 64 →
  wp (read_payload body n wire limit) (λ r c', ∃ q', kept 4096 c q' c' ∧
    match r with
    | Ret (body', wire') => ∃ data, size data = n ∧ rest q c = data ++ rest q' c' ∧ body' = body ++ data ∧ wire' = wire - n ∧
        0 ≤ wire' ∧ size body' ≤ limit
    | Throw e => e = rejection 400 ∧ size (rest q c) < n ∨ e = rejection 413 ∧ (limit - size body < n ∨ wire < n)
    end) c.
Proof.
  intros H Hn Hb. unfold read_payload. rewrite wrap_small by (unfold size in *; lia).
  destruct (Z.ltb_spec (limit - size body) n) as [Hl|Hl]; cbn [orb].
  { apply wp_throw. exists q. split; [split; [done|lia]|]. right. auto. }
  destruct (Z.ltb_spec wire n) as [Hw|Hw].
  { apply wp_throw. exists q. split; [split; [done|lia]|]. right. auto. }
  apply wp_bind, wp_gets. eapply wp_mono; [apply payload_loop_wp; [exact H|done|lia]|]. intros r c' (q' & Hk & Hout). exists q'. split; [done|].
  destruct r as [[b w]|e]; [|by left]. destruct Hout as (data & Hd & Hr & -> & ->). exists data. split_and!; try done; [lia|].
  unfold size in *. rewrite length_app. lia.
Qed.

(** ** Chunks *)

Lemma fill_two_wp fuel : ∀ c q, conn_ok c q → (0 < fuel)%nat → (2 < fuel + length (pending c))%nat →
  wp (fill_two fuel) (λ r c', ∃ q', kept 2 c q' c' ∧ rest q' c' = rest q c ∧
    match r with Ret _ => 2 ≤ size (pending c') | Throw e => e = rejection 400 ∧ size (rest q c) < 2 end) c.
Proof.
  induction fuel as [|fuel IH]; intros c q H H0 Hf; [lia|]. cbn [fill_two]. apply wp_bind, wp_gets.
  destruct (Z.leb_spec 2 (size (pending c))) as [Hp|Hp].
  { apply wp_ret. exists q. split; [split; [done|lia]|done]. }
  apply wp_bind. apply (append_input_wp c q _ _ _ H).
  - intros Hle. lia.
  - intros _ Hend. apply wp_throw. exists q. split; [split; [done|lia]|]. split; [done|]. split; [done|]. unfold rest. by rewrite Hend, app_nil_r.
  - intros _ q1 c1 [G1 G2 G3 G4 G5 _]. unfold size in Hp. eapply wp_mono; [apply (IH c1 q1 G1); lia|]. intros r c' (q' & [K1 K2] & Hr & Hout).
    exists q'. rewrite <- G2. split; [split; [done|lia]|done].
Qed.

Lemma starts_with_longer d a b : (length d ≤ length a)%nat → starts_with d (a ++ b) = starts_with d a.
Proof.
  intros Hl. destruct (starts_with d a) eqn:E; [by apply starts_with_app|].
  destruct (starts_with d (a ++ b)) eqn:E'; [|done]. by rewrite (starts_with_short d a b E' Hl) in E.
Qed.

Lemma chunk_crlf_wp c q wire : conn_ok c q →
  wp (chunk_crlf wire) (λ r c', ∃ q', kept 2 c q' c' ∧
    match r with
    | Ret wire' => rest q c = crlf ++ rest q' c' ∧ wire' = wire - 2 ∧ 0 ≤ wire'
    | Throw e => (∃ s, e = rejection s ∧ s ∈ refusals) ∧ (wire < 2 ∨ starts_with crlf (rest q c) = false)
    end) c.
Proof.
  intros H. unfold chunk_crlf. destruct (Z.ltb_spec wire 2) as [Hw|Hw].
  { apply wp_throw. exists q. split; [split; [done|lia]|]. split; [eexists; split; [done|set_solver]|by left]. }
  apply wp_bind. eapply wp_mono; [apply (fill_two_wp 3 c q H); lia|]. intros [[]|e] c1 (q1 & [K1 K2] & Hr & Hout).
  - apply wp_bind, wp_gets. assert (starts_with crlf (rest q c) = starts_with crlf (pending c1)) as Hsw.
    { rewrite <- Hr. apply starts_with_longer. unfold size in Hout. cbn. lia. }
    destruct (starts_with crlf (pending c1)) eqn:Hs; cbn [negb].
    + apply wp_bind, wp_modify, wp_ret. destruct (erase_rest c1 q1 2 K1) as [H2 Hr2]; [unfold size in Hout; lia|]. exists q1.
      split; [split; [done|cbn [pending set_pending]; unfold size in *; rewrite length_drop; lia]|]. split; [|lia]. rewrite <- Hr, Hr2. f_equal.
      rewrite (starts_with_split _ _ Hs). done.
    + apply wp_throw. exists q1. split; [by split|]. split; [eexists; split; [done|set_solver]|by right].
  - destruct Hout as [-> Hlt]. exists q1. split; [by split|]. split; [eexists; split; [done|set_solver]|]. right.
    destruct (starts_with crlf (rest q c)) eqn:E; [|done]. apply starts_with_split, (f_equal length) in E. rewrite length_app in E. unfold size in Hlt. cbn in E. lia.
Qed.

Lemma prefix_of_chars_le P s : (prefix_of_chars P s ≤ length s)%nat.
Proof. induction s as [|c s IH]; cbn; [lia|]. destruct (P c); lia. Qed.

Lemma trim_left_le s : (length (trim_left s) ≤ length s)%nat.
Proof. unfold trim_left. induction s as [|c s IH]; cbn; [lia|]. destruct (Head.is_blank c); cbn; lia. Qed.

Lemma quoted_string_settled fuel line : (length line < fuel)%nat →
  settled (quoted_string fuel line) ∧ ∀ rest, quoted_string fuel line = Some (Ret rest) → (length rest ≤ length line)%nat.
Proof.
  revert line. induction fuel as [|fuel IH]; intros line Hf; [lia|]. cbn [quoted_string]. destruct line as [|c line]; [by split; [settle|]|].
  cbn in Hf. destruct (c =? dquote); [split; [settle|intros rest [= <-]; cbn; lia]|]. destruct (c =? backslash).
  - destruct line as [|c' line]; [by split; [settle|]|]. cbn in Hf. destruct (field_char c'); [|by split; [settle|]].
    destruct (IH line ltac:(lia)) as [H1 H2]. split; [done|]. intros rest Hr. apply H2 in Hr. cbn. lia.
  - destruct (field_char c); [|by split; [settle|]]. destruct (IH line ltac:(lia)) as [H1 H2]. split; [done|]. intros rest Hr. apply H2 in Hr. cbn. lia.
Qed.

Lemma chunk_extensions_settled fuel line : (length line < fuel)%nat → settled (chunk_extensions fuel line).
Proof.
  revert line. induction fuel as [|fuel IH]; intros line Hf; [lia|]. cbn [chunk_extensions]. destruct line as [|c0 l0] eqn:El; [by settle|]. rewrite <- El in *.
  pose proof (trim_left_le line) as L1. destruct (trim_left line) as [|c1 l1]; [by settle|]. cbn in L1. apply settled_if; [by settle|].
  pose proof (trim_left_le l1) as L2. set (l2 := trim_left l1) in *. pose proof (prefix_of_chars_le token_char l2) as L3.
  destruct (Nat.eqb_spec (prefix_of_chars token_char l2) 0) as [|Hn]; [by settle|].
  assert (length (drop (prefix_of_chars token_char l2) l2) < length l2)%nat as L4 by (rewrite length_drop; lia).
  destruct (drop (prefix_of_chars token_char l2) l2) as [|c3 l3]; [by settle|]. pose proof (trim_left_le (c3 :: l3)) as L5.
  destruct (trim_left (c3 :: l3)) as [|c4 l4]; [by settle|]. cbn in L5. apply settled_if; [apply IH; cbn in *; lia|].
  pose proof (trim_left_le l4) as L6. destruct (trim_left l4) as [|c5 l5]; [by settle|]. cbn [length] in L6, L4. destruct (c5 =? dquote).
  - destruct (quoted_string_settled (S (length l5)) l5 ltac:(lia)) as [([l6|e] & Hq & He) Hlen]; rewrite Hq; [|by eapply settled_pass].
    apply IH. apply Hlen in Hq. lia.
  - destruct (Nat.eqb_spec (prefix_of_chars token_char (c5 :: l5)) 0); [by settle|]. apply IH. rewrite length_drop. cbn [length]. lia.
Qed.

Lemma chunk_length_settled line : settled (chunk_length line).
Proof.
  unfold chunk_length. destruct (Head.from_chars_size 16 _) as [[n [|]]|]; settle.
  destruct (chunk_extensions_settled (S (length line)) (drop (length (take (prefix_of_chars hex_char line) line)) line)) as ([u|e] & -> & He);
    [rewrite length_drop; lia|by settle|by eapply settled_pass].
Qed.

Lemma chunk_length_range line n : chunk_length line = Some (Ret n) → 0 ≤ n < 2 ^ 64.
Proof.
  unfold chunk_length. destruct (Head.from_chars_size 16 _) as [[m [|]]|] eqn:E; try done.
  destruct (chunk_extensions _ _) as [[u|e]|]; try done. intros [= <-]. by eapply Body.from_chars_size_range in E; [|lia].
Qed.

(** ** Bodies *)

(** A chunk as it is sent: its size line and its data. *)
Definition chunk_text (x : bytes * bytes) : bytes := x.1 ++ crlf ++ x.2 ++ crlf.

Definition chunks_text (xs : list (bytes * bytes)) (last : bytes) : bytes := concat (chunk_text <$> xs) ++ last ++ crlf.

Definition chunk_means (x : bytes * bytes) : Prop := chunk_length x.1 = Some (Ret (size x.2)) ∧ x.2 ≠ [].

Definition line_text (l : bytes) : bytes := l ++ crlf.

Lemma size_app a b : size (a ++ b) = size a + size b.
Proof. unfold size. rewrite length_app. lia. Qed.

Lemma size_nonneg a : 0 ≤ size a.
Proof. unfold size. lia. Qed.

Lemma size_crlf : size crlf = 2.
Proof. done. Qed.

(** Arithmetic on the sizes of texts. *)
Ltac sizes := rewrite ?size_app, ?size_crlf in *; lia.

Lemma kept_trans b c c1 c' q1 q' : kept b c q1 c1 → kept b c1 q' c' → kept b c q' c'.
Proof. intros [A1 A2] [B1 B2]. split; [done|lia]. Qed.

Lemma kept_bound b b' c c' q' : kept b c q' c' → b ≤ b' → kept b' c q' c'.
Proof. intros [A1 A2] Hb. split; [done|lia]. Qed.

Definition server_bound (options : server_options) : Z := Z.max (max_header_bytes options) 4096.

(** A body in chunks was read: which ones, and what it cost. *)
Definition chunks_outcome (options : server_options) (q : bytes) (c : conn) (body : bytes) (wire : Z)
    (r : result failure (bytes * Z)) (c' : conn) : Prop :=
  ∃ q', kept (server_bound options) c q' c' ∧
  match r with
  | Ret (body', wire') => ∃ xs last, rest q c = chunks_text xs last ++ rest q' c' ∧ Forall chunk_means xs ∧ chunk_length last = Some (Ret 0) ∧
      body' = body ++ concat xs.*2 ∧ wire' = wire - size (chunks_text xs last) ∧ 0 ≤ wire' ∧ size body' ≤ max_body_bytes options
  | Throw e => ∃ s, e = rejection s ∧ s ∈ refusals
  end.

Lemma few_refusals s : s ∈ [400; 413; 431] → s ∈ refusals.
Proof. unfold refusals. rewrite !elem_of_cons. intuition. Qed.

Lemma refused s : bool_decide (s ∈ refusals) = true → ∃ t, rejection s = rejection t ∧ t ∈ refusals.
Proof. intros H%bool_decide_eq_true. eauto. Qed.

Lemma chunks_loop_wp options fuel : max_body_bytes options < 2 ^ 64 → ∀ c q body wire, conn_ok c q → size body ≤ max_body_bytes options → (length (rest q c) < fuel)%nat →
  wp (chunks_loop fuel options body wire) (chunks_outcome options q c body wire) c.
Proof.
  intros Hmax. set (B := server_bound options). assert (max_header_bytes options ≤ B ∧ 4096 ≤ B) as [HB1 HB2] by (unfold B, server_bound; lia).
  induction fuel as [|fuel IH]; intros c q body wire H Hb Hf; [lia|]. cbn [chunks_loop]. apply wp_bind.
  eapply wp_mono; [apply (read_line_wp c q wire (max_header_bytes options) H)|]. intros [[line wire1]|e] c1 (q1 & K1 & Hout); apply (kept_bound _ B) in K1; try done.
  2: { destruct Hout as (s & -> & Hs & _). exists q1. split; [done|]. exists s. split; [done|by apply few_refusals]. }
  destruct Hout as (Hr & _ & -> & Hw1 & _). apply wp_bind.
  destruct (chunk_length_settled line) as (v & Hcl & He). rewrite Hcl. destruct v as [n|e]; [|apply wp_throw; exists q1; split; [done|by apply He]].
  apply wp_ret. pose proof (chunk_length_range line n Hcl) as Hn. destruct (Z.eqb_spec n 0) as [->|H0].
  { apply wp_ret. exists q1. split; [done|].
    exists [], line. unfold chunks_text. cbn [fmap list_fmap concat app]. rewrite app_nil_r, <- app_assoc. split_and!; try done. sizes. }
  apply wp_bind. eapply wp_mono; [apply (read_payload_wp c1 q1 body n _ (max_body_bytes options) (kt_ok _ _ _ _ K1)); lia|].
  intros [[body2 wire2]|e] c2 (q2 & K2 & Hout); apply (kept_bound _ B) in K2; try done; pose proof (kept_trans _ _ _ _ _ _ K1 K2) as K12.
  2: { exists q2. split; [done|]. destruct Hout as [[-> _]|[-> _]]; by apply refused. }
  destruct Hout as (data & Hd & Hr2 & -> & -> & Hw2 & Hb2). apply wp_bind.
  eapply wp_mono; [apply (chunk_crlf_wp c2 q2 _ (kt_ok _ _ _ _ K2))|].
  intros [wire3|e] c3 (q3 & K3 & Hout); apply (kept_bound _ B) in K3; try lia; pose proof (kept_trans _ _ _ _ _ _ K12 K3) as K13; [|exists q3; split; [done|apply Hout]].
  destruct Hout as (Hr3 & -> & Hw3).
  assert (rest q c = chunk_text (line, data) ++ rest q3 c3) as Hrest.
  { unfold chunk_text. cbn [fst snd]. rewrite Hr, Hr2, Hr3, <- !app_assoc. done. }
  eapply wp_mono; [apply (IH c3 q3 (body ++ data) _ (kt_ok _ _ _ _ K3) Hb2)|].
  { apply (f_equal length) in Hrest. rewrite length_app in Hrest. unfold chunk_text in Hrest. rewrite !length_app in Hrest. cbn in Hrest. lia. }
  intros r c' (q' & K4 & Hout). exists q'. split; [by eapply kept_trans|].
  destruct r as [[body' wire']|e]; [|done]. destruct Hout as (xs & last & Hrx & Hxs & Hlast & -> & -> & Hw' & Hb').
  exists ((line, data) :: xs), last. split; [|split; [|split; [done|split; [|split; [|split; [done|done]]]]]].
  - rewrite Hrest, Hrx. unfold chunks_text. rewrite fmap_cons. cbn [concat]. by rewrite <- !app_assoc.
  - apply Forall_cons_2; [|done]. split; cbn [fst snd]; [by rewrite Hcl, Hd|]. intros ->. by apply H0.
  - cbn [fmap list_fmap concat snd]. by rewrite <- app_assoc.
  - unfold chunks_text. rewrite fmap_cons. cbn [concat]. unfold chunk_text at 2. cbn [fst snd]. sizes.
Qed.

(** *** Trailers *)

Definition trailer_means (l : bytes) : Prop := l ≠ [] ∧ ∃ f, parse_field l = Ret f ∧
  iequals (header_name f) (str "Content-Length") = false ∧ iequals (header_name f) (str "Transfer-Encoding") = false.

(** Lines, and the empty one that ends them. *)
Definition fields_text (ls : list bytes) : bytes := concat (line_text <$> ls) ++ crlf.

Lemma fields_text_cons l ls : fields_text (l :: ls) = l ++ crlf ++ fields_text ls.
Proof. unfold fields_text. rewrite fmap_cons. cbn [concat]. unfold line_text at 1. by rewrite <- !app_assoc. Qed.

Definition trailers_outcome (bound : Z) (q : bytes) (c : conn) (wire budget : Z) (r : result failure unit) (c' : conn) : Prop :=
  ∃ q', kept bound c q' c' ∧
  match r with
  | Ret _ => ∃ ls, rest q c = fields_text ls ++ rest q' c' ∧ Forall trailer_means ls ∧ size (fields_text ls) ≤ wire ∧ size (fields_text ls) ≤ budget
  | Throw e => ∃ s, e = rejection s ∧ s ∈ refusals
  end.

Lemma trailers_loop_wp bound fuel : ∀ c q wire budget, conn_ok c q → budget ≤ bound → budget < 2 ^ 64 → (length (rest q c) < fuel)%nat →
  wp (trailers_loop fuel wire budget) (trailers_outcome bound q c wire budget) c.
Proof.
  induction fuel as [|fuel IH]; intros c q wire budget H Hbb Hb Hf; [lia|]. cbn [trailers_loop]. apply wp_bind.
  eapply wp_mono; [apply (read_line_wp c q wire budget H)|]. intros [[line wire1]|e] c1 (q1 & K1 & Hout); apply (kept_bound _ bound) in K1; try done.
  2: { destruct Hout as (s & -> & Hs & _). exists q1. split; [done|]. exists s. split; [done|by apply few_refusals]. }
  destruct Hout as (Hr & _ & -> & Hw1 & Hle). pose proof (size_nonneg line) as Hsl. rewrite wrap_small by lia. case_bool_decide as Hline.
  { apply wp_ret. exists q1. split; [done|]. exists []. subst line. split_and!; try done; change (size (fields_text [])) with 2; change (size []) with 0 in *; lia. }
  apply wp_bind. destruct (parse_field_settled line) as (v & Hv & He). injection Hv as <-. destruct (parse_field line) as [f|e] eqn:Hpf.
  2: { apply wp_throw. exists q1. split; [done|]. by apply He. }
  apply wp_ret. destruct (iequals (header_name f) (str "Content-Length")) eqn:E1; [apply wp_throw; exists q1; split; [done|by apply refused]|].
  destruct (iequals (header_name f) (str "Transfer-Encoding")) eqn:E2; [apply wp_throw; exists q1; split; [done|by apply refused]|]. cbn [orb].
  eapply wp_mono; [apply (IH c1 q1 _ _ (kt_ok _ _ _ _ K1)); [lia|lia|]|].
  { apply (f_equal length) in Hr. rewrite !length_app in Hr. cbn in Hr. lia. }
  intros r c' (q' & K2 & Hout). exists q'. split; [by eapply kept_trans|]. destruct r as [u|e]; [|done]. destruct Hout as (ls & Hrl & Hls & Hw & Hbu).
  exists (line :: ls). rewrite fields_text_cons. split_and!.
  - rewrite Hr, Hrl, <- !app_assoc. done.
  - apply Forall_cons_2; [|done]. split; [done|]. by exists f.
  - sizes.
  - sizes.
Qed.

(** *** Both framings *)

(** What the body of a request is on the wire: [length_] bytes, or chunks and trailers. *)
Definition body_text (p : request_head) (body wire : bytes) : Prop :=
  if chunked p then ∃ xs last ls, wire = chunks_text xs last ++ fields_text ls ∧ Forall chunk_means xs ∧ chunk_length last = Some (Ret 0) ∧
    Forall trailer_means ls ∧ body = concat xs.*2
  else size wire = length_ p ∧ body = wire.

Record options_ok (o : server_options) : Prop := {
  oo_header : 4 ≤ max_header_bytes o < 2 ^ 32;
  oo_body : 0 ≤ max_body_bytes o < 2 ^ 64;
  oo_wire : 0 ≤ max_body_wire_bytes o < 2 ^ 64;
}.

Lemma read_body_wp options p c q : options_ok options → conn_ok c q → Http.Request.body (req p) = [] → 0 ≤ length_ p →
  2 ≤ bytes_ p ≤ max_header_bytes options →
  wp (read_body p options) (λ r c', ∃ q', kept (server_bound options) c q' c' ∧
    match r with
    | Ret p' => ∃ body wire, rest q c = wire ++ rest q' c' ∧ body_text p body wire ∧ p' = with_req (set_body body) p ∧
        size wire ≤ max_body_wire_bytes options ∧ size body ≤ max_body_bytes options
    | Throw e => ∃ s, e = rejection s ∧ s ∈ refusals
    end) c.
Proof.
  intros [Ho1 Ho2 Ho3] H Hb Hl Hby. unfold read_body, body_text. rewrite Hb. assert (4096 ≤ server_bound options ∧ max_header_bytes options ≤ server_bound options) as [HB1 HB2] by (unfold server_bound; lia).
  destruct (chunked p); cbn [negb].
  - apply wp_bind, wp_gets, wp_bind. eapply wp_mono; [apply (chunks_loop_wp options _ (proj2 Ho2) c q [] _ H); [change (size []) with 0; lia|]|].
    { unfold rest. rewrite length_app, <- (input_left_ok c q H). lia. }
    intros [[body wire1]|e] c1 (q1 & K1 & Hout); apply (kept_bound _ (server_bound options)) in K1; try lia; [|by exists q1].
    destruct Hout as (xs & last & Hr & Hxs & Hlast & -> & -> & Hw & Hsz).
    rewrite wrap_small by lia. apply wp_bind, wp_gets, wp_bind.
    eapply wp_mono; [apply (trailers_loop_wp (server_bound options) _ c1 q1 _ _ (kt_ok _ _ _ _ K1)); [lia|lia|]|].
    { unfold rest. rewrite length_app, <- (input_left_ok c1 q1 (kt_ok _ _ _ _ K1)). lia. }
    intros [u|e] c2 (q2 & K2 & Hout); [|exists q2; split; [by eapply kept_trans|done]]. destruct Hout as (ls & Hr2 & Hls & Hw2 & _).
    apply wp_ret. exists q2. split; [by eapply kept_trans|]. exists (concat xs.*2), (chunks_text xs last ++ fields_text ls).
    split; [by rewrite Hr, Hr2, <- app_assoc|]. split; [by exists xs, last, ls|]. split; [done|]. split; [|done]. sizes.
  - apply wp_bind. eapply wp_mono; [apply (read_payload_wp c q [] _ _ (max_body_bytes options) H Hl); change (size []) with 0; lia|].
    intros [[body wire1]|e] c1 (q1 & K1 & Hout); apply (kept_bound _ (server_bound options)) in K1; try lia.
    + destruct Hout as (data & Hd & Hr & -> & -> & Hw & Hsz). apply wp_ret. exists q1. split; [done|]. exists data, data. split_and!; try done. lia.
    + exists q1. split; [done|]. destruct Hout as [[-> _]|[-> _]]; by apply refused.
Qed.

(** ** What a head says *)

(** The fields of a head, one after the other. *)
Fixpoint see_all (fs : list header) (s : scan) : option (result failure scan) :=
  match fs with
  | [] => Some (Ret s)
  | f :: fs' => match see_field f s with Some (Ret s') => see_all fs' (push_field f s') | o => o end
  end.

Lemma find_bytes_split text d : d ≠ [] → find_bytes text d ≠ length text →
  text = take (find_bytes text d) text ++ d ++ drop (find_bytes text d + length d) text.
Proof.
  intros Hd Hne. pose proof (find_le text d) as Hle. destruct (find_found text d [] Hd ltac:(lia)) as (_ & Hs & _).
  rewrite <- (take_drop (find_bytes text d) text) at 1. f_equal. rewrite (starts_with_split _ _ Hs) at 1. by rewrite drop_drop.
Qed.

Lemma parse_fields_inv fuel : ∀ text s s', parse_fields fuel text s = Some (Ret s') →
  ∃ ls fs, text = fields_text ls ∧ Forall2 (λ l f, parse_field l = Ret f) ls fs ∧ see_all fs s = Some (Ret s').
Proof.
  induction fuel as [|fuel IH]; intros text s s'; [done|]. cbn [parse_fields]. case_bool_decide as Ht.
  { intros [= <-]. exists [], []. split; [done|]. split; [constructor|done]. }
  destruct (Nat.eqb_spec (find_bytes text crlf) (length text)) as [|Hne]; [done|].
  destruct (parse_field _) as [f|] eqn:Hf; [|done]. destruct (see_field f s) as [[s1|]|] eqn:Hs; try done. intros Hp.
  apply IH in Hp as (ls & fs & Hx & Hls & Hfs). exists (take (find_bytes text crlf) text :: ls), (f :: fs). split; [|split; [by constructor|cbn [see_all]; by rewrite Hs]].
  rewrite (find_bytes_split text crlf) at 1 by done. change (length crlf) with 2%nat. by rewrite Hx, fields_text_cons.
Qed.

Definition named (n : string) (f : header) : bool := iequals (header_name f) (str n).

(** The fields of that name. *)
Definition of_name (n : string) (fs : list header) : list header := List.filter (named n) fs.

(** The scan after the fields [fs]. *)
Record scanned (p0 : request_head) (fs : list header) (s : scan) : Prop := {
  sc_method : Http.Request.method (req (head s)) = Http.Request.method (req p0);
  sc_target : Http.Request.target (req (head s)) = Http.Request.target (req p0);
  sc_body : Http.Request.body (req (head s)) = Http.Request.body (req p0);
  sc_bytes : bytes_ (head s) = bytes_ p0;
  sc_fields : Http.Request.headers (req (head s)) = fs;
  sc_hosts : hosts s = length (of_name "Host" fs);
  sc_host : ∀ f, last (of_name "Host" fs) = Some f → Http.Request.host (req (head s)) = header_text f ∧ header_text f ≠ [] ∧ forallb host_char (header_text f) = true;
  sc_lengths : lengths s = length (of_name "Content-Length" fs);
  sc_length : match last (of_name "Content-Length" fs) with
              | None => length_ (head s) = 0
              | Some f => Head.from_chars_size 10 (header_text f) = Some (length_ (head s), [])
              end;
  sc_transfers : transfers s = length (of_name "Transfer-Encoding" fs);
  sc_chunked : chunked (head s) = negb (transfers s =? 0)%nat;
  sc_coding : Forall (λ f, iequals (header_text f) (str "chunked") = true) (of_name "Transfer-Encoding" fs);
  sc_expects : expects s = existsb (named "Expect") fs;
  sc_upgrade : of_name "Upgrade" fs = [];
}.

Lemma of_name_app n fs f : of_name n (fs ++ [f]) = of_name n fs ++ (if named n f then [f] else []).
Proof. unfold of_name. rewrite List.filter_app. cbn. by destruct (named n f). Qed.

(** A field has one name. *)
Lemma named_other n m f : bool_decide (Head.ascii_lower <$> str n = Head.ascii_lower <$> str m) = false → named n f = true → named m f = false.
Proof.
  intros Hnm%bool_decide_eq_false Hn. unfold named, Head.iequals in *. apply andb_true_iff in Hn as [_ Hn%bool_decide_eq_true].
  apply andb_false_iff. right. apply bool_decide_eq_false. congruence.
Qed.

(** The counts and flags after one more field, from what its name is. *)
Ltac scan_field :=
  split; unfold push_field, with_req, add_field, set_host;
  cbn [head hosts lengths transfers expects req length_ chunked keep_alive bytes_ Http.Request.method Http.Request.target
       Http.Request.host Http.Request.headers Http.Request.body];
  rewrite ?of_name_app, ?existsb_app; cbn [existsb];
  repeat match goal with E : named _ _ = _ |- _ => rewrite E; clear E end;
  rewrite ?app_nil_r, ?orb_false_r, ?orb_true_r, ?length_app, ?last_snoc; cbn [length]; try done; try lia; try congruence.

Lemma see_field_scanned p0 fs s f s' : scanned p0 fs s → see_field f s = Some (Ret s') → scanned p0 (fs ++ [f]) (push_field f s').
Proof.
  intros [H1 H2 H3 H4 H5 H6 H7 H8 H9 H10 H11 H12 H13 H14] Hs. unfold see_field in Hs.
  fold (named "Host" f) (named "Content-Length" f) (named "Transfer-Encoding" f) (named "Expect" f) (named "Upgrade" f) (named "Connection" f) in Hs.
  pose proof (λ n m, named_other n m f) as Hname.
  destruct (named "Host" f) eqn:E1.
  { assert (named "Content-Length" f = false ∧ named "Transfer-Encoding" f = false ∧ named "Expect" f = false ∧ named "Upgrade" f = false) as (E2 & E3 & E4 & E5)
      by (split_and!; by apply (Hname "Host"%string)). clear Hname.
    destruct (bool_decide (header_text f = []) || negb (forallb host_char (header_text f))) eqn:Hc; [done|]. injection Hs as <-.
    apply orb_false_iff in Hc as [Hc1%bool_decide_eq_false Hc2%negb_false_iff]. scan_field. intros f' [= <-]. done. }
  destruct (named "Content-Length" f) eqn:E2.
  { assert (named "Transfer-Encoding" f = false ∧ named "Expect" f = false ∧ named "Upgrade" f = false) as (E3 & E4 & E5)
      by (split_and!; by apply (Hname "Content-Length"%string)). clear Hname.
    destruct (bool_decide (header_text f = []) || negb (forallb is_digit (header_text f))) eqn:Hc; [done|].
    destruct (Head.from_chars_size 10 (header_text f)) as [[n [|]]|] eqn:Hn; try done. injection Hs as <-. scan_field. }
  destruct (named "Transfer-Encoding" f) eqn:E3.
  { assert (named "Expect" f = false ∧ named "Upgrade" f = false) as (E4 & E5) by (split_and!; by apply (Hname "Transfer-Encoding"%string)). clear Hname.
    destruct (negb (iequals (header_text f) (str "chunked"))) eqn:Hc; [done|]. apply negb_false_iff in Hc. injection Hs as <-. scan_field.
    apply Forall_app. split; [done|]. by apply Forall_cons_2. }
  destruct (named "Expect" f) eqn:E4.
  { assert (named "Upgrade" f = false) as E5 by (by apply (Hname "Expect"%string)). clear Hname. injection Hs as <-. scan_field. }
  destruct (named "Upgrade" f) eqn:E5; [done|]. clear Hname. destruct (named "Connection" f) eqn:E6.
  - destruct (connection_tokens _ _) as [[close|]|]; try done. injection Hs as <-. scan_field.
  - injection Hs as <-. scan_field.
Qed.

Lemma see_all_scanned p0 fs : ∀ gs s s', scanned p0 gs s → see_all fs s = Some (Ret s') → scanned p0 (gs ++ fs) s'.
Proof.
  induction fs as [|f fs IH]; intros gs s s' Hsc; cbn [see_all]; [intros [= <-]; by rewrite app_nil_r|].
  destruct (see_field f s) as [[s1|]|] eqn:Hs; try done. intros Hall. rewrite (cons_middle f gs fs), app_assoc.
  apply (IH _ (push_field f s1)); [|done]. by eapply see_field_scanned.
Qed.

(** What a request line may be. *)
Lemma request_line_inv line m t : request_line line = Ret (m, t) →
  line = m ++ [ch " "] ++ t ++ str " HTTP/1.1" ∧ m ≠ [] ∧ forallb token_char m = true ∧ m ≠ str "CONNECT" ∧
  t ≠ [] ∧ forallb target_char t = true ∧ existsb (Z.eqb (ch "#")) t = false ∧ (starts_with (str "/") t = true ∨ m = str "OPTIONS" ∧ t = str "*").
Proof.
  unfold request_line. destruct (cut _ line) as [[m' r]|] eqn:C1; [|done]. destruct (cut _ r) as [[t' v]|] eqn:C2; [|done].
  apply cut_length in C1 as [_ ->], C2 as [_ ->].
  destruct (bool_decide (m' = []) || _) eqn:T1; [done|]. destruct (bool_decide (t' = []) || _) eqn:T2; [done|]. destruct (negb (version_ok v)); [done|].
  destruct (negb (bool_decide (v = str "HTTP/1.1"))) eqn:T3; [done|]. destruct (bool_decide (m' = str "CONNECT")) eqn:T4; [done|].
  destruct ((_ && _) || _) eqn:T5; [done|]. intros [= <- <-].
  apply orb_false_iff in T1 as [T1%bool_decide_eq_false T1'%negb_false_iff], T2 as [T2%bool_decide_eq_false T2'%negb_false_iff].
  apply negb_false_iff, bool_decide_eq_true in T3. apply bool_decide_eq_false in T4. apply orb_false_iff in T5 as [T5 T6]. subst v. split_and!; try done.
  apply andb_false_iff in T5 as [T5%negb_false_iff|T5%negb_false_iff]; [by left|]. right.
  by apply andb_true_iff in T5 as [?%bool_decide_eq_true ?%bool_decide_eq_true].
Qed.

Definition start_head (m t : bytes) (n : Z) : request_head := MkRequestHead (MkRequest m t [] [] []) 0 false true n.
Definition start_scan (m t : bytes) (n : Z) : scan := MkScan (start_head m t n) 0 0 0 false.

Lemma parse_head_inv text p : parse_head text = Some (Ret p) → ∃ m t ls fs s,
  text = m ++ [ch " "] ++ t ++ str " HTTP/1.1" ++ crlf ++ fields_text ls ∧ request_line (m ++ [ch " "] ++ t ++ str " HTTP/1.1") = Ret (m, t) ∧
  Forall2 (λ l f, parse_field l = Ret f) ls fs ∧ see_all fs (start_scan m t (size text)) = Some (Ret s) ∧ framing s = Ret p.
Proof.
  unfold parse_head. cbv zeta. destruct (Nat.eqb_spec (find_bytes text crlf) (length text)) as [Hno|Hne]; cbn [negb].
  - destruct (request_line text) as [[m t]|]; [|done]. destruct text as [|c text]; [done|]. change (drop 1 (c :: text)) with text.
    assert (find_bytes text crlf = length text) as Hno'.
    { cbn [find_bytes length] in Hno. destruct (starts_with crlf (c :: text)); [done|]. by injection Hno. }
    cbn [parse_fields]. rewrite bool_decide_false by (by intros ->). by rewrite Hno', Nat.eqb_refl.
  - destruct (request_line (take (find_bytes text crlf) text)) as [[m t]|] eqn:Hl; [|done].
    destruct (parse_fields _ _ _) as [[s|]|] eqn:Hf; try done. intros [= Hfr]. pose proof (request_line_inv _ _ _ Hl) as (El & _).
    apply parse_fields_inv in Hf as (ls & fs & Ht & Hls & Hs). exists m, t, ls, fs, s. split_and!; try done; [|by rewrite <- El].
    rewrite (find_bytes_split text crlf) at 1 by done. change (length crlf) with 2%nat. rewrite Ht, El, <- !app_assoc. done.
Qed.

(** *** Lines without a carriage return *)

Lemma find_line line tail : 13 ∉ line → find_bytes (line ++ crlf ++ tail) crlf = length line.
Proof.
  intros Hl. change (find_bytes ?t crlf) with (find_bytes t (13 :: [10])). rewrite Head.find_skip by done. cbn. lia.
Qed.

Lemma forallb_clean (P : Z → bool) s : P 13 = false → forallb P s = true → 13 ∉ s.
Proof. intros HP Hs Hin. rewrite forallb_forall in Hs. apply list_elem_of_In, Hs in Hin. congruence. Qed.

Lemma trim_clean s : (13 ∉ Head.trim_front s) → 13 ∉ s.
Proof.
  induction s as [|c s IH]; cbn [Head.trim_front]; [done|]. destruct (Head.is_blank c) eqn:E; [|done]. intros H%IH. apply not_elem_of_cons. split; [|done].
  intros <-. done.
Qed.

Lemma field_line_clean line f : parse_field line = Ret f → (13 ∉ line) ∧ line ≠ [].
Proof.
  unfold parse_field. destruct (cut _ line) as [[n v]|] eqn:Hc; [|done]. apply cut_length in Hc as [_ ->].
  destruct (bool_decide (n = []) || _) eqn:T1; [done|]. destruct (negb (forallb field_char v)) eqn:T2; [done|]. intros _.
  apply orb_false_iff in T1 as [_ T1%negb_false_iff]. apply negb_false_iff in T2. split; [|by destruct n].
  rewrite not_elem_of_app, not_elem_of_cons. split; [by apply (forallb_clean token_char)|]. split; [done|by apply (forallb_clean field_char)].
Qed.

Lemma prefix_clean P s : P 13 = false → 13 ∉ take (prefix_of_chars P s) s.
Proof.
  intros HP. induction s as [|c s IH]; cbn [prefix_of_chars]; [apply not_elem_of_nil|]. destruct (P c) eqn:E; cbn [take]; [|apply not_elem_of_nil].
  apply not_elem_of_cons. split; [|done]. intros <-. congruence.
Qed.

Lemma clean_drop n (s : bytes) : (13 ∉ take n s) → (13 ∉ drop n s) → 13 ∉ s.
Proof. intros H1 H2. rewrite <- (take_drop n s), not_elem_of_app. done. Qed.

Lemma quoted_clean fuel line r : quoted_string fuel line = Some (Ret r) → (13 ∉ r) → 13 ∉ line.
Proof.
  revert line. induction fuel as [|fuel IH]; intros line; [done|]. cbn [quoted_string]. destruct line as [|c line]; [done|]. intros Hq Hr.
  apply not_elem_of_cons. destruct (Z.eqb_spec c dquote) as [->|]; [injection Hq as ->; done|]. destruct (Z.eqb_spec c backslash) as [->|].
  - split; [done|]. destruct line as [|c' line]; [done|]. destruct (field_char c') eqn:E; [|done]. apply not_elem_of_cons. split; [by intros <-|]. by apply IH.
  - destruct (field_char c) eqn:E; [|done]. split; [by intros <-|]. by apply IH.
Qed.

Lemma extensions_clean fuel line u : chunk_extensions fuel line = Some (Ret u) → 13 ∉ line.
Proof.
  revert line. induction fuel as [|fuel IH]; intros line; [done|]. cbn [chunk_extensions]. destruct line as [|c0 l0] eqn:El; [intros _; apply not_elem_of_nil|]. rewrite <- El. clear El.
  intros H. apply trim_clean. fold (trim_left line). destruct (trim_left line) as [|c1 l1]; [done|].
  destruct (Z.eqb_spec c1 (ch ";")) as [->|]; [|done]. cbn [negb] in H. apply not_elem_of_cons. split; [done|]. apply trim_clean. fold (trim_left l1). set (l2 := trim_left l1) in *.
  destruct (_ =? 0)%nat; [done|]. apply (clean_drop (prefix_of_chars token_char l2)); [by apply prefix_clean|].
  destruct (drop _ l2) as [|c3 l3] eqn:E3; [apply not_elem_of_nil|]. apply trim_clean. fold (trim_left (c3 :: l3)). destruct (trim_left (c3 :: l3)) as [|c4 l4]; [done|].
  destruct (Z.eqb_spec c4 (ch "=")) as [->|]; cbn [negb] in H; [|by apply IH]. apply not_elem_of_cons. split; [done|]. apply trim_clean. fold (trim_left l4).
  destruct (trim_left l4) as [|c5 l5]; [done|]. destruct (Z.eqb_spec c5 dquote) as [->|].
  - destruct (quoted_string _ _) as [[l6|]|] eqn:Hq; try done. apply not_elem_of_cons. split; [done|]. eapply quoted_clean; [exact Hq|by apply IH].
  - destruct (_ =? 0)%nat; [done|]. apply (clean_drop (prefix_of_chars token_char (c5 :: l5))); [by apply prefix_clean|by apply IH].
Qed.

Lemma chunk_line_clean line n : chunk_length line = Some (Ret n) → 13 ∉ line.
Proof.
  unfold chunk_length. destruct (Head.from_chars_size 16 _) as [[m [|]]|]; try done. destruct (chunk_extensions _ _) as [[u|]|] eqn:Hx; try done. intros _.
  apply extensions_clean in Hx. rewrite length_take_le in Hx by apply prefix_of_chars_le. by apply (clean_drop _ _ (prefix_clean hex_char line eq_refl)).
Qed.

(** *** Exact reading *)

Lemma read_line_exact c q line tail wire limit : conn_ok c q → rest q c = line ++ crlf ++ tail → 13 ∉ line → size line + 2 ≤ wire → size line + 2 ≤ limit →
  ∃ c' q', read_line wire limit c = Some (Ret (line, wire - (size line + 2)), c') ∧ conn_ok c' q' ∧ rest q' c' = tail.
Proof.
  intros H Hr Hl Hw Hlim. destruct (read_line_wp c q wire limit H) as (r & c' & Hrun & q' & [K1 _] & Hout). rewrite Hr, find_line in Hout by done.
  destruct r as [[line' wire']|e].
  - destruct Hout as (Ht & Hlen & -> & _). apply app_inj_1 in Ht as [<- Ht]; [|done]. apply app_inv_head in Ht. exists c', q'. done.
  - destruct Hout as (s & _ & _ & [E|E]); unfold size in *; [rewrite !length_app in E; cbn in E; lia|lia].
Qed.

Lemma read_payload_exact c q data tail body wire limit : conn_ok c q → rest q c = data ++ tail → size data ≤ wire →
  size body + size data ≤ limit < 2 ^ 64 →
  ∃ c' q', read_payload body (size data) wire limit c = Some (Ret (body ++ data, wire - size data), c') ∧ conn_ok c' q' ∧ rest q' c' = tail.
Proof.
  intros H Hr Hw Hlim. pose proof (size_nonneg data) as Hd. destruct (read_payload_wp c q body (size data) wire limit H Hd ltac:(lia)) as (r & c' & Hrun & q' & [K1 _] & Hout).
  rewrite Hr in Hout. destruct r as [[b w]|e].
  - destruct Hout as (d & Hsz & Ht & -> & -> & _). apply app_inj_1 in Ht as [<- Ht]; [|unfold size in Hsz; lia]. by exists c', q'.
  - exfalso. rewrite size_app in Hout. pose proof (size_nonneg tail). lia.
Qed.

Lemma chunk_crlf_exact c q tail wire : conn_ok c q → rest q c = crlf ++ tail → 2 ≤ wire →
  ∃ c' q', chunk_crlf wire c = Some (Ret (wire - 2), c') ∧ conn_ok c' q' ∧ rest q' c' = tail.
Proof.
  intros H Hr Hw. destruct (chunk_crlf_wp c q wire H) as (r & c' & Hrun & q' & [K1 _] & Hout). rewrite Hr in Hout. destruct r as [w|e].
  - destruct Hout as (Ht & -> & _). apply app_inv_head in Ht. by exists c', q'.
  - destruct Hout as (_ & [?|Hs]); [lia|]. by rewrite starts_with_longer in Hs by (cbn; lia).
Qed.

Lemma chunks_text_cons x xs last : chunks_text (x :: xs) last = x.1 ++ crlf ++ x.2 ++ crlf ++ chunks_text xs last.
Proof. unfold chunks_text. rewrite fmap_cons. cbn [concat]. unfold chunk_text at 1. by rewrite <- !app_assoc. Qed.

(** The size lines fit the limit of a line. *)
Definition lines_fit (limit : Z) (xs : list (bytes * bytes)) (last : bytes) : Prop :=
  Forall (λ x, size x.1 + 2 ≤ limit) xs ∧ size last + 2 ≤ limit.

Lemma chunks_exact options xs last tail : max_body_bytes options < 2 ^ 64 → Forall chunk_means xs → chunk_length last = Some (Ret 0) →
  lines_fit (max_header_bytes options) xs last → ∀ fuel c q body wire, conn_ok c q → rest q c = chunks_text xs last ++ tail → (length xs < fuel)%nat →
  size (chunks_text xs last) ≤ wire → size body + size (concat xs.*2) ≤ max_body_bytes options →
  ∃ c' q', chunks_loop fuel options body wire c = Some (Ret (body ++ concat xs.*2, wire - size (chunks_text xs last)), c') ∧ conn_ok c' q' ∧ rest q' c' = tail.
Proof.
  intros Hmax Hxs Hlast [Hfit Hfl]. induction Hxs as [|[line data] xs [Hx Hne] Hxs IH]; intros [|fuel] c q body wire H Hr Hf Hw Hb; try (cbn in Hf; lia).
  - unfold chunks_text in *. cbn [fmap list_fmap concat app] in *. rewrite <- app_assoc in Hr. cbn [chunks_loop].
    destruct (read_line_exact c q last tail wire (max_header_bytes options) H Hr (chunk_line_clean _ _ Hlast)) as (c' & q' & Hrun & H' & Hr'); [sizes|done|].
    exists c', q'. rewrite (bind_run _ _ _ _ _ Hrun). cbn beta iota. rewrite Hlast. rewrite app_nil_r. split; [|done]. rewrite size_app. reflexivity.
  - cbn [fst snd] in *. apply Forall_cons in Hfit as [Hfx Hfit]. cbn [fst snd] in Hfx. rewrite chunks_text_cons in *. cbn [fst snd] in *. rewrite <- !app_assoc in Hr.
    cbn [fmap list_fmap concat snd] in Hb |- *. pose proof (size_nonneg data) as P1. pose proof (size_nonneg (chunks_text xs last)) as P2. pose proof (size_nonneg line) as P3. pose proof (size_nonneg (concat xs.*2)) as P4.
    rewrite !size_app, !size_crlf in Hw. rewrite size_app in Hb. cbn [chunks_loop].
    destruct (read_line_exact c q line _ wire (max_header_bytes options) H Hr (chunk_line_clean _ _ Hx)) as (c1 & q1 & Hrun1 & H1 & Hr1); [lia|lia|].
    destruct (read_payload_exact c1 q1 data _ body (wire - (size line + 2)) (max_body_bytes options) H1 Hr1) as (c2 & q2 & Hrun2 & H2 & Hr2); [lia|lia|].
    destruct (chunk_crlf_exact c2 q2 _ (wire - (size line + 2) - size data) H2 Hr2) as (c3 & q3 & Hrun3 & H3 & Hr3); [lia|].
    destruct (IH Hfit fuel c3 q3 (body ++ data) (wire - (size line + 2) - size data - 2) H3 Hr3) as (c' & q' & Hrun & H' & Hr'); [cbn in Hf; lia|lia|rewrite size_app; lia|].
    exists c', q'. split; [|done]. rewrite (bind_run _ _ _ _ _ Hrun1). cbn beta iota. rewrite Hx. unfold lift_fuel, lift. change (pbind (pret ?a) ?k ?s) with (k a s). cbn beta.
    destruct (Z.eqb_spec (size data) 0) as [E|_]; [destruct data; [done|unfold size in E; cbn in E; lia]|].
    rewrite (bind_run _ _ _ _ _ Hrun2). cbn beta iota. rewrite (bind_run _ _ _ _ _ Hrun3). rewrite Hrun, <- app_assoc. do 4 f_equal. rewrite !size_app, !size_crlf. lia.
Qed.

Lemma trailers_exact ls tail : Forall trailer_means ls → ∀ fuel c q wire budget, conn_ok c q → rest q c = fields_text ls ++ tail → (length ls < fuel)%nat →
  size (fields_text ls) ≤ wire → size (fields_text ls) ≤ budget < 2 ^ 64 →
  ∃ c' q', trailers_loop fuel wire budget c = Some (Ret tt, c') ∧ conn_ok c' q' ∧ rest q' c' = tail.
Proof.
  induction 1 as [|line ls (Hne & f & Hf & E1 & E2) Hls IH]; intros [|fuel] c q wire budget H Hr Hfu Hw Hb; try (cbn in Hfu; lia); cbn [trailers_loop].
  - change (size (fields_text [])) with 2 in *. destruct (read_line_exact c q [] tail wire budget H Hr ltac:(apply not_elem_of_nil)) as (c' & q' & Hrun & H' & Hr'); [change (size []) with 0; lia..|].
    exists c', q'. by rewrite (bind_run _ _ _ _ _ Hrun).
  - rewrite fields_text_cons in *. rewrite <- !app_assoc in Hr. rewrite !size_app, !size_crlf in Hw, Hb.
    pose proof (size_nonneg line) as P1. pose proof (size_nonneg (fields_text ls)) as P2.
    destruct (field_line_clean line f Hf) as [Hcl _]. destruct (read_line_exact c q line _ wire budget H Hr Hcl) as (c1 & q1 & Hrun & H1 & Hr1); [lia|lia|].
    destruct (IH fuel c1 q1 (wire - (size line + 2)) (budget - (size line + 2)) H1 Hr1) as (c' & q' & Hrun' & H' & Hr'); [cbn in Hfu; lia|lia|lia|].
    exists c', q'. split; [|done]. rewrite (bind_run _ _ _ _ _ Hrun). cbn beta iota. rewrite wrap_small by lia. rewrite bool_decide_false by done.
    rewrite Hf. unfold lift. change (pbind (pret ?a) ?k ?s) with (k a s). cbn beta. by rewrite E1, E2.
Qed.

(** The first blank line of a head is its end. *)
Lemma first_blank ls x : Forall (λ l, (13 ∉ l) ∧ l ≠ []) ls → ∀ line, 13 ∉ line →
  (find_bytes (line ++ crlf ++ fields_text ls ++ x) (crlf ++ crlf) + 4 = length (line ++ crlf ++ fields_text ls))%nat.
Proof.
  change (crlf ++ crlf) with (13 :: [10; 13; 10]). induction 1 as [|l ls [Hc Hne] Hls IH]; intros line Hl.
  - rewrite Head.find_skip, length_app by done. unfold fields_text. cbn. lia.
  - rewrite Head.find_skip, length_app by done. rewrite fields_text_cons.
    specialize (IH l Hc). destruct l as [|a l]; [done|]. apply not_elem_of_cons in Hc as [Ha _].
    rewrite <- !app_assoc. change (find_bytes (crlf ++ (a :: l) ++ ?y) ?d) with (find_bytes (13 :: 10 :: a :: (l ++ y)) d). rewrite Head.find_line_end by done.
    change (a :: (l ++ crlf ++ fields_text ls ++ x)) with ((a :: l) ++ crlf ++ fields_text ls ++ x). rewrite length_app. change (length crlf) with 2%nat. lia.
Qed.

(** A head that was accepted. *)
Lemma accepted text p : parse_head text = Some (Ret p) → ∃ m t ls fs s,
  text = (m ++ [ch " "] ++ t ++ str " HTTP/1.1") ++ crlf ++ fields_text ls ∧ request_line (m ++ [ch " "] ++ t ++ str " HTTP/1.1") = Ret (m, t) ∧
  (13 ∉ m ++ [ch " "] ++ t ++ str " HTTP/1.1") ∧ Forall2 (λ l f, parse_field l = Ret f) ls fs ∧ Forall (λ l, (13 ∉ l) ∧ l ≠ []) ls ∧
  scanned (start_head m t (size text)) fs s ∧ framing s = Ret p.
Proof.
  intros (m & t & ls & fs & s & Ht & Hl & Hf & Hs & Hp)%parse_head_inv. exists m, t, ls, fs, s. split; [by rewrite Ht, <- !app_assoc|]. split; [done|].
  split; [|split; [done|split; [|split; [|done]]]].
  - destruct (request_line_inv _ _ _ Hl) as (_ & _ & Hm & _ & _ & Htg & _). rewrite !not_elem_of_app. split; [by apply (forallb_clean token_char)|].
    split; [by apply (bool_decide_unpack _)|]. split; [by apply (forallb_clean target_char)|]. by apply (bool_decide_unpack _).
  - clear Hs Ht. induction Hf as [|l f ls fs Hlf _ IH]; [apply Forall_nil_2|]. apply Forall_cons_2; [by eapply field_line_clean|done].
  - apply (see_all_scanned (start_head m t (size text)) fs []) in Hs; [done|]. by split.
Qed.

Lemma framing_head s p : framing s = Ret p → head s = p ∧ hosts s = 1%nat ∧ (lengths s ≤ 1)%nat ∧ (transfers s ≤ 1)%nat ∧ (lengths s = 0%nat ∨ transfers s = 0%nat) ∧ expects s = false.
Proof.
  unfold framing. destruct (_ || _) eqn:E; [done|]. destruct (expects s); [done|]. intros [= ->].
  apply orb_false_iff in E as [E E4]. apply orb_false_iff in E as [E E3]. apply orb_false_iff in E as [E1 E2].
  apply negb_false_iff, Nat.eqb_eq in E1. apply Nat.ltb_ge in E2, E3. split_and!; try done.
  apply andb_false_iff in E4 as [?%negb_false_iff%Nat.eqb_eq|?%negb_false_iff%Nat.eqb_eq]; auto.
Qed.

Lemma accepted_blank text p x : parse_head text = Some (Ret p) → (find_bytes (text ++ x) (crlf ++ crlf) + 4 = length text)%nat.
Proof.
  intros (m & t & ls & fs & s & -> & _ & Hc & _ & Hls & _)%accepted. rewrite <- (app_assoc _ (crlf ++ _) x), <- (app_assoc crlf). by apply first_blank.
Qed.

Lemma accepted_head text p : parse_head text = Some (Ret p) → bytes_ p = size text ∧ Http.Request.body (req p) = [] ∧ 0 ≤ length_ p < 2 ^ 64 ∧ 4 ≤ size text.
Proof.
  intros Hp. pose proof (accepted_blank text p [] Hp) as Hb. apply accepted in Hp as (m & t & ls & fs & s & Ht & _ & _ & _ & _ & Hsc & Hf).
  apply framing_head in Hf as (<- & _). destruct Hsc as [_ _ H3 H4 _ _ _ _ H9 _ _ _ _ _]. split; [done|]. split; [done|]. split; [|unfold size; lia].
  destruct (last _) as [f|]; [|lia]. by eapply Body.from_chars_size_range in H9; [|lia].
Qed.

Lemma read_head_exact options c q text p tail : conn_ok c q → rest q c = text ++ tail → parse_head text = Some (Ret p) → size text ≤ max_header_bytes options →
  ∃ c' q', read_head options c = Some (Ret (Some p), c') ∧ conn_ok c' q' ∧ rest q' c' = tail.
Proof.
  intros H Hr Hp Hle. pose proof (accepted_blank text p tail Hp) as Hb. destruct (read_head_wp c q options H) as (r & c' & Hrun & q' & [K1 _] & Hout). rewrite Hr in Hout.
  destruct r as [[p'|]|e].
  - destruct Hout as (text' & Ht & Hl & _ & Hp'). apply app_inj_1 in Ht as [<- Ht]; [|lia]. rewrite Hp in Hp'. injection Hp' as <-. by exists c', q'.
  - exfalso. apply app_eq_nil in Hout as [-> _]. cbn in Hb. lia.
  - exfalso. destruct Hout as (_ & _ & [E|[E|E]]); [rewrite length_app in E; lia|unfold size in *; lia|]. rewrite Hb, take_app_length, Hp in E. done.
Qed.

(** ** The properties of the reader *)

(** A head that is beyond doubt: what it says about the request and about the framing of
    its body, with every field of it accounted for. *)
Record strict_head (text : bytes) (p : request_head) : Prop := {
  sh_text : ∃ ls, Forall2 (λ l f, parse_field l = Ret f) ls (Http.Request.headers (req p)) ∧
    text = Http.Request.method (req p) ++ [ch " "] ++ Http.Request.target (req p) ++ str " HTTP/1.1" ++ crlf ++ fields_text ls;
  sh_method : Http.Request.method (req p) ≠ [] ∧ forallb token_char (Http.Request.method (req p)) = true ∧ Http.Request.method (req p) ≠ str "CONNECT";
  sh_target : forallb target_char (Http.Request.target (req p)) = true ∧ existsb (Z.eqb (ch "#")) (Http.Request.target (req p)) = false ∧
    (starts_with (str "/") (Http.Request.target (req p)) = true ∨ Http.Request.method (req p) = str "OPTIONS" ∧ Http.Request.target (req p) = str "*");
  sh_host : ∃ f, of_name "Host" (Http.Request.headers (req p)) = [f] ∧ Http.Request.host (req p) = header_text f ∧
    header_text f ≠ [] ∧ forallb host_char (header_text f) = true;
  sh_framing :
    of_name "Content-Length" (Http.Request.headers (req p)) = [] ∧ length_ p = 0 ∧
      (∃ f, of_name "Transfer-Encoding" (Http.Request.headers (req p)) = [f] ∧ iequals (header_text f) (str "chunked") = true) ∧ chunked p = true ∨
    of_name "Transfer-Encoding" (Http.Request.headers (req p)) = [] ∧ chunked p = false ∧
      (of_name "Content-Length" (Http.Request.headers (req p)) = [] ∧ length_ p = 0 ∨
       ∃ f, of_name "Content-Length" (Http.Request.headers (req p)) = [f] ∧ Head.from_chars_size 10 (header_text f) = Some (length_ p, []));
  sh_none : of_name "Upgrade" (Http.Request.headers (req p)) = [] ∧ existsb (named "Expect") (Http.Request.headers (req p)) = false;
}.

Lemma one_of {A} (l : list A) : length l = 1%nat → ∃ x, l = [x].
Proof. destruct l as [|x []]; try done. eauto. Qed.

Lemma head_strict text p : parse_head text = Some (Ret p) → strict_head text p.
Proof.
  intros (m & t & ls & fs & s & -> & Hl & _ & Hf & _ & Hsc & Hfr)%accepted.
  destruct (request_line_inv _ _ _ Hl) as (_ & Hm & Hmt & Hmc & Htn & Htt & Ht & Hto). apply framing_head in Hfr as (<- & F1 & F2 & F3 & F4 & F5).
  destruct Hsc as [S1 S2 S3 S4 S5 S6 S7 S8 S9 S10 S11 S12 S13 S14]. cbn in S1, S2. split; rewrite ?S1, ?S2, ?S5; try done.
  - exists ls. split; [done|]. by rewrite <- !app_assoc.
  - rewrite F1 in S6. destruct (one_of (of_name "Host" fs)) as [f Hone]; [done|]. exists f. split; [done|]. apply S7. by rewrite Hone.
  - rewrite S11, S10 in *. destruct (of_name "Transfer-Encoding" fs) as [|f [|]] eqn:ET; [| |cbn in F3; lia].
    + right. split_and!; [done|done|]. destruct (of_name "Content-Length" fs) as [|f [|]] eqn:EC; [by left|right; by exists f|cbn in S8; lia].
    + left. destruct F4 as [F4|]; [|done]. rewrite F4 in S8. destruct (of_name "Content-Length" fs) eqn:EC; [|done]. split_and!; try done.
      exists f. split; [done|]. by apply Forall_cons in S12 as [? _].
  - by rewrite <- S13, F5.
Qed.

(** C18: A head that the server accepts leaves no doubt about the request: its text is a
    request line of HTTP/1.1 and lines that are each one field, with exactly one Host of
    allowed characters, no Upgrade and no Expect, and the body is framed in exactly one
    way: by one chunked Transfer-Encoding and no Content-Length, or by at most one
    Content-Length, whose digits are the length, and no Transfer-Encoding. *)
Theorem parse_head_strict text p : parse_head text = Some (Ret p) → strict_head text p.
Proof. apply head_strict. Qed.

Lemma request_bounded options c q : options_ok options → conn_ok c q →
  wp (read_request options) (λ r c', ∃ q', conn_ok c' q' ∧ size (pending c') ≤ Z.max (size (pending c)) (server_bound options) ∧
    match r with
    | Ret (Some p) => ∃ text wire, rest q c = text ++ wire ++ rest q' c' ∧ size text ≤ max_header_bytes options ∧
        size wire ≤ max_body_wire_bytes options ∧ size (Http.Request.body (req p)) ≤ max_body_bytes options
    | Ret None => rest q c = []
    | Throw e => ∃ s, e = rejection s ∧ s ∈ refusals
    end) c.
Proof.
  intros Ho H. assert (4096 ≤ server_bound options ∧ max_header_bytes options ≤ server_bound options) as [HB1 HB2] by (unfold server_bound; lia).
  pose proof (oo_body _ Ho) as Hmb. pose proof (oo_wire _ Ho) as Hmw.
  unfold read_request. apply wp_bind. eapply wp_mono; [apply (read_head_wp c q options H)|].
  intros [[p|]|e] c1 (q1 & K1 & Hout); apply (kept_bound _ (server_bound options)) in K1; try done; pose proof (kt_ok _ _ _ _ K1) as H1; pose proof (kt_pending _ _ _ _ K1) as P1.
  - destruct Hout as (text & Hr & _ & Hsz & Hp). destruct (accepted_head text p Hp) as (Hby & Hb & Hl & H4).
    destruct ((max_body_bytes options <? length_ p) || (max_body_wire_bytes options <? length_ p)).
    { apply wp_throw. exists q1. split; [done|]. split; [done|by apply refused]. }
    destruct (chunked p || negb (length_ p =? 0)).
    + apply wp_bind. eapply wp_mono; [apply (read_body_wp options p c1 q1 Ho H1 Hb); lia|].
      intros [p'|e] c2 (q2 & K2 & Hout); pose proof (kept_trans _ _ _ _ _ _ K1 K2) as [K3 K4]; [|by exists q2].
      destruct Hout as (body & wire & Hr2 & _ & -> & Hw & Hbs). apply wp_ret. exists q2. split; [done|]. split; [done|]. exists text, wire. by rewrite Hr, Hr2.
    + apply wp_ret. exists q1. split; [done|]. split; [done|]. exists text, []. rewrite Hb. change (size []) with 0. split_and!; try done; lia.
  - apply wp_ret. exists q1. done.
  - exists q1. split; [done|]. split; [done|]. by destruct Hout.
Qed.

(** C19: Whatever the peer sends, reading a request ends, and within its limits: the head
    takes at most [max_header_bytes], the body, with its framing and trailers, at most
    [max_body_wire_bytes], and holds at most [max_body_bytes]; the bytes kept for later
    never exceed the larger of the header limit and one read of 4096 bytes, unless more
    was pending before; and the only failures are refusals with a status. *)
Theorem read_request_bounded options c q : options_ok options → conn_ok c q →
  wp (read_request options) (λ r c', ∃ q', conn_ok c' q' ∧ size (pending c') ≤ Z.max (size (pending c)) (server_bound options) ∧
    match r with
    | Ret (Some p) => ∃ text wire, rest q c = text ++ wire ++ rest q' c' ∧ size text ≤ max_header_bytes options ∧
        size wire ≤ max_body_wire_bytes options ∧ size (Http.Request.body (req p)) ≤ max_body_bytes options
    | Ret None => rest q c = []
    | Throw e => ∃ s, e = rejection s ∧ s ∈ refusals
    end) c.
Proof. apply request_bounded. Qed.

(** A body on the wire that a server with these limits takes: [body] bytes as they are, or
    chunks whose size lines fit and trailers within what the head left of its budget. *)
Inductive framed (o : server_options) (p : request_head) : bytes → bytes → Prop :=
| framed_sized body : chunked p = false → size body = length_ p → framed o p body body
| framed_chunked xs last ls : chunked p = true → Forall chunk_means xs → chunk_length last = Some (Ret 0) → Forall trailer_means ls →
    lines_fit (max_header_bytes o) xs last → size (fields_text ls) ≤ max_header_bytes o - bytes_ p + 2 →
    framed o p (concat xs.*2) (chunks_text xs last ++ fields_text ls).

Lemma chunks_count xs last : (length xs ≤ length (chunks_text xs last))%nat.
Proof. induction xs as [|x xs IH]; [cbn; lia|]. rewrite chunks_text_cons, !length_app. cbn. lia. Qed.

Lemma lines_count ls : (length ls ≤ length (fields_text ls))%nat.
Proof. induction ls as [|l ls IH]; [cbn; lia|]. rewrite fields_text_cons, !length_app. cbn. lia. Qed.

Lemma read_body_exact o p c q body wire tail : options_ok o → conn_ok c q → framed o p body wire → Http.Request.body (req p) = [] →
  4 ≤ bytes_ p ≤ max_header_bytes o → rest q c = wire ++ tail → size wire ≤ max_body_wire_bytes o → size body ≤ max_body_bytes o →
  ∃ c' q', read_body p o c = Some (Ret (with_req (set_body body) p), c') ∧ conn_ok c' q' ∧ rest q' c' = tail.
Proof.
  intros [Ho1 Ho2 Ho3] H Hfr Hb0 Hby Hr Hw Hb. assert (∀ c q, conn_ok c q → length (rest q c) = length (pending c) + input_left c)%nat as Hfuel.
  { intros c1 q1 H1. unfold rest. by rewrite length_app, (input_left_ok c1 q1 H1). }
  unfold read_body. rewrite Hb0. destruct Hfr as [body Hc Hl|xs last ls Hc Hxs Hlast Hls Hfit Htr]; rewrite Hc; cbn [negb].
  - rewrite <- Hl. destruct (read_payload_exact c q body tail [] (max_body_wire_bytes o) (max_body_bytes o) H Hr Hw) as (c' & q' & Hrun & H' & Hr'); [change (size []) with 0; lia|].
    exists c', q'. by rewrite (bind_run _ _ _ _ _ Hrun).
  - rewrite <- app_assoc in Hr. rewrite size_app in Hw. pose proof (size_nonneg (fields_text ls)) as P1. change (pbind (gets ?g) ?kk ?r) with (kk (g r) r). cbv beta.
    destruct (chunks_exact o xs last (fields_text ls ++ tail) (proj2 Ho2) Hxs Hlast Hfit (S (length (pending c) + input_left c)) c q [] (max_body_wire_bytes o) H Hr)
      as (c1 & q1 & Hrun1 & H1 & Hr1); [|lia|change (size []) with 0; lia|].
    { rewrite <- (Hfuel c q H), Hr, length_app. pose proof (chunks_count xs last). lia. }
    rewrite (bind_run _ _ _ _ _ Hrun1). cbn beta iota. change (pbind (gets ?g) ?kk ?r) with (kk (g r) r). cbv beta. rewrite wrap_small by lia.
    destruct (trailers_exact ls tail Hls (S (length (pending c1) + input_left c1)) c1 q1 (max_body_wire_bytes o - size (chunks_text xs last)) (max_header_bytes o - bytes_ p + 2) H1 Hr1)
      as (c' & q' & Hrun & H' & Hr'); [|lia|lia|].
    { rewrite <- (Hfuel c1 q1 H1), Hr1, length_app. pose proof (lines_count ls). lia. }
    exists c', q'. by rewrite (bind_run _ _ _ _ _ Hrun).
Qed.

Lemma request_exact o c q text p body wire tail : options_ok o → conn_ok c q → rest q c = text ++ wire ++ tail →
  parse_head text = Some (Ret p) → framed o p body wire → size text ≤ max_header_bytes o → size wire ≤ max_body_wire_bytes o → size body ≤ max_body_bytes o →
  ∃ c' q', read_request o c = Some (Ret (Some (with_req (set_body body) p)), c') ∧ conn_ok c' q' ∧ rest q' c' = tail.
Proof.
  intros Ho H Hr Hp Hfr Ht Hw Hb. destruct (accepted_head text p Hp) as (Hby & Hb0 & _ & H4). pose proof (sh_framing _ _ (head_strict text p Hp)) as Hs.
  destruct (read_head_exact o c q text p (wire ++ tail) H Hr Hp Ht) as (c1 & q1 & Hrun & H1 & Hr1). unfold read_request. rewrite (bind_run _ _ _ _ _ Hrun). cbn beta iota.
  pose proof (size_nonneg wire) as P1. pose proof (size_nonneg body) as P2.
  assert (length_ p ≤ max_body_bytes o ∧ length_ p ≤ max_body_wire_bytes o) as [L1 L2].
  { destruct Hfr as [body Hc Hl|xs last ls Hc]; [lia|]. destruct Hs as [(_ & -> & _)|(_ & Hc' & _)]; [lia|congruence]. }
  rewrite (proj2 (Z.ltb_ge _ _) L1), (proj2 (Z.ltb_ge _ _) L2). cbn [orb].
  destruct (chunked p || negb (length_ p =? 0)) eqn:Hany.
  - destruct (read_body_exact o p c1 q1 body wire tail Ho H1 Hfr Hb0 ltac:(lia) Hr1 Hw Hb) as (c' & q' & Hrun' & H' & Hr'). exists c', q'. by rewrite (bind_run _ _ _ _ _ Hrun').
  - apply orb_false_iff in Hany as [Hc Hl%negb_false_iff%Z.eqb_eq]. destruct Hfr as [body _ Hl'|]; [|congruence]. rewrite Hl in Hl'.
    assert (body = []) as -> by (destruct body; [done|unfold size in Hl'; cbn in Hl'; lia]). exists c1, q1. split; [|done].
    destruct p as [[m t ho hs b] l ck ka by_]. cbn in Hb0. subst b. done.
Qed.

(** The end of the connection between two requests. *)
Lemma request_end o c q : options_ok o → conn_ok c q → rest q c = [] → ∃ c', read_request o c = Some (Ret None, c').
Proof.
  intros Ho H Hr. destruct (read_head_wp c q o H) as (r & c' & Hrun & q' & _ & Hout). exists c'. unfold read_request. destruct r as [[p|]|e].
  - destruct Hout as (text & Ht & Hl & _). rewrite Hr in Ht. symmetry in Ht. apply app_eq_nil in Ht as [-> _]. cbn in Hl. lia.
  - by rewrite (bind_run _ _ _ _ _ Hrun).
  - destruct Hout as (_ & Hm & _). specialize (Hm Hr). pose proof (oo_header _ Ho). lia.
Qed.

(** C3: A request whose head is accepted and whose body is framed as the head says is read
    exactly, however the reads of the connection cut it: the handler gets the body with
    its framing, chunk extensions and trailers taken off, and what follows on the
    connection, a pipelined request say, is left from its first byte. *)
Theorem read_request_exact o c q text p body wire tail : options_ok o → conn_ok c q → rest q c = text ++ wire ++ tail →
  parse_head text = Some (Ret p) → framed o p body wire → size text ≤ max_header_bytes o → size wire ≤ max_body_wire_bytes o → size body ≤ max_body_bytes o →
  ∃ c' q', read_request o c = Some (Ret (Some (with_req (set_body body) p)), c') ∧ conn_ok c' q' ∧ rest q' c' = tail.
Proof. apply request_exact. Qed.

(** ** What a client writes *)

(** [serialize] of src/src/nxtrt/http.hpp: one turn of its loop over the headers. *)
Definition add_header (s : bool * bool * bytes) (f : header) : bool * bool * bytes :=
  let '(has_content_length, has_connection, out) := s in
  (has_content_length || iequals (header_name f) (str "content-length"),
   has_connection || iequals (header_name f) (str "connection"),
   out ++ header_name f ++ str ": " ++ header_text f ++ crlf).

Definition serialize (r : request) : bytes :=
  let out := Http.Request.method r ++ [ch " "] ++ Http.Request.target r ++ str " HTTP/1.1" ++ crlf in
  let out := match Http.Request.host r with
             | [] => out
             | h => out ++ str "Host: " ++ h ++ crlf
             end in
  let '(has_content_length, has_connection, out) := foldl add_header (false, false, out) (Http.Request.headers r) in
  let out := if negb has_content_length
             then out ++ str "Content-Length: " ++ to_string (size (Http.Request.body r)) ++ crlf else out in
  let out := if negb has_connection then out ++ str "Connection: close" ++ crlf else out in
  out ++ crlf ++ Http.Request.body r.

(** A field that may be sent. *)
Record field_ok (f : header) : Prop := {
  fo_name : header_name f ≠ [] ∧ forallb token_char (header_name f) = true;
  fo_value : forallb field_char (header_text f) = true ∧ trim_ascii (header_text f) = header_text f;
}.

(** The names that mean something to the server. *)
Definition reserved (f : header) : bool :=
  named "Host" f || named "Content-Length" f || named "Transfer-Encoding" f || named "Expect" f || named "Upgrade" f || named "Connection" f.

Record client_request (r : request) : Prop := {
  cr_method : Http.Request.method r ≠ [] ∧ forallb token_char (Http.Request.method r) = true ∧ Http.Request.method r ≠ str "CONNECT";
  cr_target : starts_with (str "/") (Http.Request.target r) = true ∧ forallb target_char (Http.Request.target r) = true ∧
    existsb (Z.eqb (ch "#")) (Http.Request.target r) = false;
  cr_host : Http.Request.host r ≠ [] ∧ forallb host_char (Http.Request.host r) = true;
  cr_headers : Forall (λ f, field_ok f ∧ reserved f = false) (Http.Request.headers r);
  cr_body : size (Http.Request.body r) < 2 ^ 64;
}.

(** The fields a request is sent with. *)
Definition sent_fields (r : request) : list header :=
  MkHeader (str "Host") (Http.Request.host r) :: Http.Request.headers r ++
  [MkHeader (str "Content-Length") (to_string (size (Http.Request.body r))); MkHeader (str "Connection") (str "close")].

Definition field_line (f : header) : bytes := header_name f ++ str ": " ++ header_text f.

Lemma iequals_lower a n m : Head.ascii_lower <$> str n = Head.ascii_lower <$> str m → iequals a (str n) = iequals a (str m).
Proof.
  intros H. unfold Head.iequals. rewrite H. assert (length (str n) = length (str m)) as -> by (apply (f_equal length) in H; by rewrite !length_fmap in H). done.
Qed.

Lemma serialize_headers hs : ∀ out, Forall (λ f, field_ok f ∧ reserved f = false) hs →
  foldl add_header (false, false, out) hs = (false, false, out ++ concat (line_text <$> (field_line <$> hs))).
Proof.
  induction hs as [|f hs IH]; intros out; [by rewrite app_nil_r|]. intros [[_ Hr] Hhs]%Forall_cons. cbn [foldl].
  unfold reserved in Hr. repeat apply orb_false_iff in Hr as [Hr ?]. unfold add_header at 2.
  rewrite (iequals_lower _ "content-length" "Content-Length"), (iequals_lower _ "connection" "Connection") by reflexivity.
  fold (named "Content-Length" f) (named "Connection" f).
  replace (named "Content-Length" f) with false by congruence. replace (named "Connection" f) with false by congruence. cbn [orb]. rewrite IH by done.
  rewrite !fmap_cons. cbn [concat]. unfold line_text at 2, field_line at 2. by rewrite <- !app_assoc.
Qed.

Definition head_text (r : request) : bytes :=
  (Http.Request.method r ++ [ch " "] ++ Http.Request.target r ++ str " HTTP/1.1") ++ crlf ++ fields_text (field_line <$> sent_fields r).

Lemma serialize_text r : client_request r → serialize r = head_text r ++ Http.Request.body r.
Proof.
  intros [_ _ [Hh _] Hhs _]. unfold serialize. destruct (Http.Request.host r) as [|h0 h] eqn:Eh; [done|]. rewrite <- Eh. rewrite serialize_headers by done. cbn [negb].
  unfold head_text, sent_fields, fields_text. rewrite !fmap_cons, !fmap_app, concat_cons, concat_app. cbn [fmap list_fmap concat]. unfold line_text, field_line. cbn [Http.Request.name Http.Request.value].
  rewrite <- !app_assoc. reflexivity.
Qed.

Lemma trim_none s : forallb (λ c, negb (Head.is_blank c)) s = true → trim_ascii s = s.
Proof.
  assert (∀ s, forallb (λ c, negb (Head.is_blank c)) s = true → Head.trim_front s = s) as Hf.
  { intros [|c s'] H; [done|]. cbn in *. apply andb_true_iff in H as [H%negb_true_iff _]. by rewrite H. }
  intros H. unfold Head.trim_ascii. rewrite (Hf s H), Hf; [apply reverse_involutive|]. rewrite forallb_forall in *. intros x Hx. apply H.
  rewrite <- list_elem_of_In in *. by rewrite elem_of_reverse in Hx.
Qed.

Lemma forallb_weaken (P Q : Z → bool) s : (∀ c, P c = true → Q c = true) → forallb P s = true → forallb Q s = true.
Proof. rewrite !forallb_forall. eauto. Qed.

Lemma parse_field_line f : field_ok f → parse_field (field_line f) = Ret f.
Proof.
  intros [[Hn Ht] [Hv Htr]]. unfold parse_field, field_line. change (str ": " ++ header_text f) with (ch ":" :: ch " " :: header_text f).
  rewrite Http.Sse.cut_found; [|intros Hin; rewrite forallb_forall in Ht; apply list_elem_of_In, Ht in Hin; done].
  rewrite bool_decide_false, Ht by done. cbn [orb negb forallb]. change (field_char (ch " ")) with true. rewrite Hv. cbn [andb negb].
  change (trim_ascii (ch " " :: header_text f)) with (trim_ascii (header_text f)). rewrite Htr. by destruct f.
Qed.

Lemma field_lines fs : Forall field_ok fs → Forall2 (λ l f, parse_field l = Ret f) (field_line <$> fs) fs.
Proof. induction 1; cbn; constructor; [by apply parse_field_line|done]. Qed.

Lemma parse_fields_lines ls fs : Forall2 (λ l f, parse_field l = Ret f) ls fs → ∀ fuel s, (length (fields_text ls) < fuel)%nat →
  parse_fields fuel (fields_text ls) s = see_all fs s.
Proof.
  induction 1 as [|l f ls fs Hf Hls IH]; intros [|fuel] s Hfu; try lia; cbn [parse_fields see_all].
  - rewrite bool_decide_true; done.
  - destruct (field_line_clean l f Hf) as [Hc Hne]. rewrite fields_text_cons in *. rewrite find_line by done.
    rewrite bool_decide_false; [|destruct l as [|c l]; [done|]; intros [= -> _]; by apply Hc; left].
    rewrite !length_app in Hfu |- *. destruct (Nat.eqb_spec (length l) (length l + (length crlf + length (fields_text ls)))) as [E|_]; [cbn in E; lia|].
    rewrite take_app_length, Hf. destruct (see_field f s) as [[s'|]|]; try done. rewrite <- (IH fuel); [|cbn in Hfu; lia]. f_equal.
    rewrite <- drop_drop, drop_app_length. done.
Qed.

Lemma parse_head_lines m t ls fs : request_line (m ++ [ch " "] ++ t ++ str " HTTP/1.1") = Ret (m, t) → (13 ∉ m ++ [ch " "] ++ t ++ str " HTTP/1.1") →
  Forall2 (λ l f, parse_field l = Ret f) ls fs →
  let text := (m ++ [ch " "] ++ t ++ str " HTTP/1.1") ++ crlf ++ fields_text ls in
  parse_head text = match see_all fs (start_scan m t (size text)) with Some (Ret s) => Some (framing s) | Some (Throw e) => Some (Throw e) | None => None end.
Proof.
  intros Hl Hc Hf text. set (line := m ++ [ch " "] ++ t ++ str " HTTP/1.1") in *.
  assert (find_bytes text crlf = length line) as E1 by (by apply find_line).
  assert ((length line =? length text)%nat = false) as E2 by (apply Nat.eqb_neq; unfold text; rewrite !length_app; cbn; lia).
  assert (take (length line) text = line) as E3 by apply take_app_length.
  assert (drop (length line + 2) text = fields_text ls) as E4 by (unfold text; rewrite <- drop_drop, drop_app_length; done).
  unfold parse_head. cbv zeta. rewrite E1, E2. cbn [negb]. rewrite E3, Hl, E4. fold (start_head m t (size text)) (start_scan m t (size text)).
  rewrite (parse_fields_lines ls fs Hf); [done|]. unfold text. rewrite !length_app. lia.
Qed.

(** Fields that mean nothing to the server. *)
Definition pushes (fs : list header) (s : scan) : scan :=
  MkScan (with_req (λ r, MkRequest (Http.Request.method r) (Http.Request.target r) (Http.Request.host r) (Http.Request.headers r ++ fs) (Http.Request.body r)) (head s))
    (hosts s) (lengths s) (transfers s) (expects s).

Lemma see_plain fs gs s : Forall (λ f, field_ok f ∧ reserved f = false) fs → see_all (fs ++ gs) s = see_all gs (pushes fs s).
Proof.
  intros Hfs. revert s. induction Hfs as [|f fs [_ Hr] Hfs IH]; intros s; cbn [app see_all].
  - f_equal. destruct s as [[[m t ho hs b] l ck ka by_] a b' c d]. unfold pushes, with_req. cbn. by rewrite app_nil_r.
  - assert (see_field f s = Some (Ret s)) as ->.
    { unfold reserved in Hr. repeat apply orb_false_iff in Hr as [Hr ?]. unfold see_field.
      fold (named "Host" f) (named "Content-Length" f) (named "Transfer-Encoding" f) (named "Expect" f) (named "Upgrade" f) (named "Connection" f).
      repeat match goal with E : named _ f = false |- _ => rewrite E; clear E end. done. }
    rewrite IH. f_equal. unfold pushes, push_field, with_req, add_field. cbn. by rewrite <- app_assoc.
Qed.

Lemma digits_value_all ds : forallb is_digit ds = true → ∀ acc, Head.digits_value 10 acc ds = (foldl (λ v d, v * 10 + (d - 48)) acc ds, []).
Proof.
  induction ds as [|d ds IH]; intros H acc; [done|]. cbn [forallb] in H. apply andb_true_iff in H as [Hd H]. cbn [Head.digits_value foldl]. unfold Head.digit_value. rewrite Hd.
  assert ((d - 48 <? 10) = true) as -> by (unfold is_digit in Hd; lia). by apply IH.
Qed.

Lemma digits_all n : 0 ≤ n → forallb is_digit (to_string n) = true.
Proof. intros Hn. apply forallb_forall. intros x Hx. pose proof (to_string_digits n Hn) as Hd. rewrite Forall_forall in Hd. by apply Hd, list_elem_of_In. Qed.

Lemma from_chars_size_to_string n : 0 ≤ n < 2 ^ 64 → Head.from_chars_size 10 (to_string n) = Some (n, []).
Proof.
  intros Hn. unfold Head.from_chars_size. rewrite digits_value_all by (apply digits_all; lia). fold (dec_value (to_string n)). rewrite to_string_value by lia.
  destruct (Nat.eqb_spec (length (@nil Z)) (length (to_string n))) as [E|_]; [destruct (to_string n) eqn:Et; [by apply to_string_nonempty in Et|done]|].
  cbn [orb]. by destruct (Z.leb_spec (2 ^ 64) n); [lia|].
Qed.

Lemma client_line r : client_request r →
  request_line (Http.Request.method r ++ [ch " "] ++ Http.Request.target r ++ str " HTTP/1.1") = Ret (Http.Request.method r, Http.Request.target r) ∧
  13 ∉ Http.Request.method r ++ [ch " "] ++ Http.Request.target r ++ str " HTTP/1.1".
Proof.
  intros [(M1 & M2 & M3) (T1 & T2 & T3) _ _ _]. split.
  - unfold request_line. change ([ch " "] ++ ?x) with (ch " " :: x). rewrite Http.Sse.cut_found by (intros Hin; rewrite forallb_forall in M2; by apply list_elem_of_In, M2 in Hin).
    change (str " HTTP/1.1") with (ch " " :: str "HTTP/1.1"). rewrite Http.Sse.cut_found by (intros Hin; rewrite forallb_forall in T2; by apply list_elem_of_In, T2 in Hin).
    rewrite (bool_decide_false (Http.Request.method r = [])), M2, T2, T3, T1, (bool_decide_false (Http.Request.method r = str "CONNECT")) by done.
    rewrite bool_decide_false by (by intros E; rewrite E in T1). done.
  - rewrite !not_elem_of_app. split; [by apply (forallb_clean token_char)|]. split; [by apply (bool_decide_unpack _)|].
    split; [by apply (forallb_clean target_char)|]. by apply (bool_decide_unpack _).
Qed.

Lemma sent_fields_ok r : client_request r → Forall field_ok (sent_fields r).
Proof.
  intros [_ _ (H1 & H2) Hhs Hb]. pose proof (size_nonneg (Http.Request.body r)) as Hs. unfold sent_fields. apply Forall_cons_2; [|apply Forall_app; split].
  - split; [done|]. cbn [Http.Request.value]. split; [|apply trim_none]; (eapply forallb_weaken; [|exact H2]); intros c; unfold host_char, field_char, Head.is_blank; change (ch " ") with 32; lia.
  - eapply Forall_impl; [exact Hhs|]. by intros f [? _].
  - pose proof (digits_all (size (Http.Request.body r)) Hs) as Hd. apply Forall_cons_2; [|apply Forall_cons_2; [|apply Forall_nil_2]]; (split; [done|]); cbn [Http.Request.value]; [|done].
    split; [|apply trim_none]; (eapply forallb_weaken; [|exact Hd]); intros c; unfold is_digit, field_char, Head.is_blank; change (ch " ") with 32; lia.
Qed.

(** What the server makes of it. *)
Definition client_head (r : request) : request_head :=
  MkRequestHead (MkRequest (Http.Request.method r) (Http.Request.target r) (Http.Request.host r) (sent_fields r) []) (size (Http.Request.body r)) false false (size (head_text r)).

Lemma see_client m t k ho hs v n : ho ≠ [] → forallb host_char ho = true → Forall (λ f, field_ok f ∧ reserved f = false) hs →
  v ≠ [] → forallb is_digit v = true → Head.from_chars_size 10 v = Some (n, []) →
  let fs := MkHeader (str "Host") ho :: hs ++ [MkHeader (str "Content-Length") v; MkHeader (str "Connection") (str "close")] in
  see_all fs (start_scan m t k) = Some (Ret (MkScan (MkRequestHead (MkRequest m t ho fs []) n false false k) 1 1 0 false)).
Proof.
  intros Ho1 Ho2 Hhs Hv Hd Hn fs. unfold fs at 1. cbn [see_all].
  assert (see_field (MkHeader (str "Host") ho) (start_scan m t k) = Some (Ret (MkScan (with_req (set_host ho) (start_head m t k)) 1 0 0 false))) as ->.
  { unfold see_field. cbn [Http.Request.name Http.Request.value]. change (iequals (str "Host") (str "Host")) with true. cbv iota. rewrite bool_decide_false, Ho2 by done. reflexivity. }
  rewrite see_plain by done. cbn [see_all]. set (s1 := pushes _ _).
  assert (see_field (MkHeader (str "Content-Length") v) s1 =
    Some (Ret (MkScan (MkRequestHead (req (head s1)) n false true k) 1 1 0 false))) as ->.
  { unfold see_field. cbn [Http.Request.name Http.Request.value]. change (iequals (str "Content-Length") (str "Host")) with false.
    change (iequals (str "Content-Length") (str "Content-Length")) with true. cbv iota. rewrite bool_decide_false, Hd, Hn by done. reflexivity. }
  set (s2 := push_field _ _).
  assert (see_field (MkHeader (str "Connection") (str "close")) s2 = Some (Ret (MkScan (MkRequestHead (req (head s2)) n false false k) 1 1 0 false))) as -> by reflexivity.
  subst s1 s2. unfold push_field, pushes, with_req, add_field, set_host, start_head.
  cbn [head req hosts lengths transfers expects length_ chunked keep_alive bytes_ Http.Request.method Http.Request.target Http.Request.host Http.Request.headers Http.Request.body].
  rewrite <- !app_assoc. reflexivity.
Qed.

Lemma parse_client r : client_request r → parse_head (head_text r) = Some (Ret (client_head r)).
Proof.
  intros Hr. destruct (client_line r Hr) as [Hl Hc]. pose proof (field_lines _ (sent_fields_ok r Hr)) as Hf.
  unfold head_text at 1. rewrite (parse_head_lines _ _ _ _ Hl Hc Hf). fold (head_text r). destruct Hr as [_ _ (H1 & H2) Hhs Hb].
  pose proof (size_nonneg (Http.Request.body r)) as Hs. unfold sent_fields at 1.
  rewrite (see_client _ _ _ _ _ _ (size (Http.Request.body r)) H1 H2 Hhs); [reflexivity|apply to_string_nonempty|by apply digits_all|by apply from_chars_size_to_string].
Qed.

(** C25: The server reads what the client writes: a request that [serialize] sends, with a
    host, fields other than the framing ones and any body, reaches the handler with its
    method, target, host and body, and with its fields in order between the Host and the
    framing fields that were added; the connection is to be closed, as the client asked,
    and is left at what follows. *)
Theorem server_reads_client o c q r tail : options_ok o → conn_ok c q → client_request r → rest q c = serialize r ++ tail →
  size (head_text r) ≤ max_header_bytes o → size (Http.Request.body r) ≤ max_body_bytes o → size (Http.Request.body r) ≤ max_body_wire_bytes o →
  ∃ c' q' p, read_request o c = Some (Ret (Some p), c') ∧ conn_ok c' q' ∧ rest q' c' = tail ∧ keep_alive p = false ∧
    req p = MkRequest (Http.Request.method r) (Http.Request.target r) (Http.Request.host r) (sent_fields r) (Http.Request.body r).
Proof.
  intros Ho H Hr Hst Hh Hb Hw. rewrite (serialize_text r Hr), <- app_assoc in Hst.
  destruct (request_exact o c q (head_text r) (client_head r) (Http.Request.body r) (Http.Request.body r) tail Ho H Hst (parse_client r Hr)) as (c' & q' & Hrun & H' & Hr'); try done.
  { by apply framed_sized. }
  exists c', q', (with_req (set_body (Http.Request.body r)) (client_head r)). done.
Qed.

(** ** Examples *)

Definition small_options : server_options := MkOptions 256 64 128 3 256 64.

Lemma small_options_ok : options_ok small_options.
Proof. split; cbn; lia. Qed.

(** A connection that delivers two reads through a buffer of 64 bytes. *)
Definition two_reads (a b : bytes) : conn := MkConn (Body.response_feed a b) [].

Definition get_text : bytes := str "GET /a HTTP/1.1" ++ crlf ++ fields_text [str "Host: h"; str "X-Id:  7 "].

Definition post_text : bytes := str "POST /a HTTP/1.1" ++ crlf ++ fields_text [str "Host: h"; str "transfer-encoding: Chunked"].

Definition post_head : request_head :=
  MkRequestHead (MkRequest (str "POST") (str "/a") (str "h")
    [MkHeader (str "Host") (str "h"); MkHeader (str "transfer-encoding") (str "Chunked")] []) 0 true true (size post_text).

Definition post_chunks : list (bytes * bytes) := [(str "5;a=b", str "hello"); (str "1", str "!")].

Definition post_wire : bytes := chunks_text post_chunks (str "0") ++ fields_text [str "Etag: x"].

Example refused_heads :
  map (λ t, parse_head (t ++ crlf ++ fields_text [str "Host: h"]))
    [str "GET /a HTTP/1.0"; str "CONNECT a:1 HTTP/1.1"; str "GET a HTTP/1.1"; str "GET /a#b HTTP/1.1"; str "GET  /a HTTP/1.1"; str "GET / http/1.1"] =
  [Some (Throw (rejection 505)); Some (Throw (rejection 501)); Some (Throw (rejection 400)); Some (Throw (rejection 400));
   Some (Throw (rejection 400)); Some (Throw (rejection 400))].
Proof. vm_compute. reflexivity. Qed.

Example refused_fields :
  map (λ ls, parse_head (str "GET / HTTP/1.1" ++ crlf ++ fields_text ls))
    [[]; [str "Host: a"; str "Host: a"]; [str "Host: a"; str "Content-Length: 1"; str "Transfer-Encoding: chunked"];
     [str "Host: a"; str "Content-Length: +1"]; [str "Host : a"]; [str "Host: a"; str "Expect: 100-continue"]; [str "Host: a"; str " b"]] =
  [Some (Throw (rejection 400)); Some (Throw (rejection 400)); Some (Throw (rejection 400)); Some (Throw (rejection 400));
   Some (Throw (rejection 400)); Some (Throw (rejection 417)); Some (Throw (rejection 400))].
Proof. vm_compute. reflexivity. Qed.

Lemma parse_head_strict_witness : ∃ p, parse_head get_text = Some (Ret p) ∧ strict_head get_text p.
Proof. eexists. split; [vm_compute; reflexivity|]. apply parse_head_strict. vm_compute. reflexivity. Defined.

Lemma read_request_bounded_witness : ∃ r c', read_request small_options (two_reads (str "GET / HT") (str "TP/1.1")) = Some (r, c') ∧ size (pending c') ≤ 4096.
Proof.
  destruct (read_request_bounded small_options (two_reads (str "GET / HT") (str "TP/1.1")) [] small_options_ok) as (r & c' & Hrun & q' & _ & Hp & _).
  - apply Body.response_feed_ok; discriminate.
  - exists r, c'. split; [exact Hrun|exact Hp].
Defined.

Lemma read_request_exact_witness :
  ∃ c' q', read_request small_options (two_reads (take 40 post_text) (drop 40 post_text ++ post_wire ++ str "GET")) =
      Some (Ret (Some (with_req (set_body (str "hello!")) post_head)), c') ∧ conn_ok c' q' ∧ rest q' c' = str "GET".
Proof.
  apply (read_request_exact small_options _ [] post_text post_head (str "hello!") post_wire (str "GET") small_options_ok).
  - apply Body.response_feed_ok; discriminate.
  - vm_compute. reflexivity.
  - vm_compute. reflexivity.
  - apply (framed_chunked small_options post_head post_chunks (str "0") [str "Etag: x"]).
    + reflexivity.
    + apply Forall_cons_2; [split; [vm_compute; reflexivity|discriminate]|]. apply Forall_cons_2; [split; [vm_compute; reflexivity|discriminate]|]. apply Forall_nil_2.
    + vm_compute. reflexivity.
    + apply Forall_cons_2; [|apply Forall_nil_2]. split; [discriminate|]. eexists. split; [vm_compute; reflexivity|]. split; vm_compute; reflexivity.
    + split; [|vm_compute; discriminate]. apply Forall_cons_2; [vm_compute; discriminate|]. apply Forall_cons_2; [vm_compute; discriminate|]. apply Forall_nil_2.
    + vm_compute. discriminate.
  - vm_compute. discriminate.
  - vm_compute. discriminate.
  - vm_compute. discriminate.
Defined.

Definition ping : request := MkRequest (str "PUT") (str "/v1") (str "h:80") [MkHeader (str "X") (str "y")] (str "ab").

Lemma server_reads_client_witness :
  ∃ c' q' p, read_request small_options (two_reads (take 30 (serialize ping)) (drop 30 (serialize ping) ++ str "!")) = Some (Ret (Some p), c') ∧
    conn_ok c' q' ∧ rest q' c' = str "!" ∧ keep_alive p = false ∧ req p = MkRequest (str "PUT") (str "/v1") (str "h:80") (sent_fields ping) (str "ab").
Proof.
  apply (server_reads_client small_options _ [] ping (str "!") small_options_ok).
  - apply Body.response_feed_ok; discriminate.
  - split; [split; [discriminate|split; [reflexivity|discriminate]]|split; [reflexivity|split; reflexivity]|split; [discriminate|reflexivity]| |reflexivity].
    apply Forall_cons_2; [|apply Forall_nil_2]. split; [|reflexivity]. split; (split; [first [discriminate | reflexivity]|vm_compute; reflexivity]).
  - vm_compute. reflexivity.
  - vm_compute. discriminate.
  - vm_compute. discriminate.
  - vm_compute. discriminate.
Defined.
