(* ===== verification/Reply.v ===== *)
(** * The HTTP server's responses and connections (src/src/nxtrt/http-server.cpp)

    How a connection answers: the text of a response, the file bodies, and the loop that
    reads requests and writes one answer for each. A response head stays within its limit
    and is read back by the client of [Body] with the length of the body it announces;
    pipelined requests are answered in order; a connection ends whatever is sent. *)
From S2P Require Import Prelude State Ring Feed Http Body Server.
#[local] Open Scope Z_scope.

Record file_body := MkFile { fd : Z; offset : Z; file_length : Z }.

Record response := MkResponse {
  status : Z;
  headers : list header;
  body : bytes;
  file : option file_body;
}.

Record message := MkMessage { message_head : bytes; message_body : bytes }.

(** The fields that the server owns. *)
Definition managed_header (name : bytes) : bool :=
  iequals name (str "Content-Length") || iequals name (str "Connection") || iequals name (str "Transfer-Encoding")
  || iequals name (str "Trailer") || iequals name (str "Upgrade") || iequals name (str "Keep-Alive")
  || iequals name (str "Proxy-Connection").

Definition reason_phrase (status : Z) : bytes :=
  match status with
  | 200 => str "OK"
  | 201 => str "Created"
  | 202 => str "Accepted"
  | 203 => str "Non-Authoritative Information"
  | 204 => str "No Content"
  | 205 => str "Reset Content"
  | 206 => str "Partial Content"
  | 207 => str "Multi-Status"
  | 208 => str "Already Reported"
  | 226 => str "IM Used"
  | 300 => str "Multiple Choices"
  | 301 => str "Moved Permanently"
  | 302 => str "Found"
  | 303 => str "See Other"
  | 304 => str "Not Modified"
  | 305 => str "Use Proxy"
  | 307 => str "Temporary Redirect"
  | 308 => str "Permanent Redirect"
  | 400 => str "Bad Request"
  | 401 => str "Unauthorized"
  | 402 => str "Payment Required"
  | 403 => str "Forbidden"
  | 404 => str "Not Found"
  | 405 => str "Method Not Allowed"
  | 406 => str "Not Acceptable"
  | 407 => str "Proxy Authentication Required"
  | 408 => str "Request Timeout"
  | 409 => str "Conflict"
  | 410 => str "Gone"
  | 411 => str "Length Required"
  | 412 => str "Precondition Failed"
  | 413 => str "Payload Too Large"
  | 414 => str "URI Too Long"
  | 415 => str "Unsupported Media Type"
  | 416 => str "Range Not Satisfiable"
  | 417 => str "Expectation Failed"
  | 418 => str "I'm a teapot"
  | 421 => str "Misdirected Request"
  | 422 => str "Unprocessable Entity"
  | 423 => str "Locked"
  | 424 => str "Failed Dependency"
  | 425 => str "Too Early"
  | 426 => str "Upgrade Required"
  | 428 => str "Precondition Required"
  | 429 => str "Too Many Requests"
  | 431 => str "Request Header Fields Too Large"
  | 451 => str "Unavailable For Legal Reasons"
  | 500 => str "Internal Server Error"
  | 501 => str "Not Implemented"
  | 502 => str "Bad Gateway"
  | 503 => str "Service Unavailable"
  | 504 => str "Gateway Timeout"
  | 505 => str "HTTP Version Not Supported"
  | 506 => str "Variant Also Negotiates"
  | 507 => str "Insufficient Storage"
  | 508 => str "Loop Detected"
  | 510 => str "Not Extended"
  | 511 => str "Network Authentication Required"
  | _ => str "Unknown"
  end.

(** The loop over the fields of a response: the head so far and the budget that is left. *)
Fixpoint add_fields (fields : list header) (remaining : Z) (out : bytes) : result failure bytes :=
  match fields with
  | [] => Ret out
  | f :: fields' =>
      if bool_decide (header_name f = []) || negb (forallb token_char (header_name f)) || negb (forallb field_char (header_text f))
      then Throw (rejection 500)
      else if remaining <? size (header_name f) then Throw (rejection 500)
      else
        let remaining := remaining - size (header_name f) in
        if (remaining <? 4) || (remaining - 4 <? size (header_text f)) then Throw (rejection 500)
        else
          add_fields fields' (remaining - (size (header_text f) + 4))
            (if managed_header (header_name f) then out else out ++ header_name f ++ str ": " ++ header_text f ++ crlf)
  end.

Definition make_response (res : response) (head keep_alive : bool) (options : server_options) : result failure (message * option file_body) :=
  if (status res <? 200) || (599 <? status res) || (max_response_body_bytes options <? size (body res))
     || (match file res with Some _ => true | None => false end && negb (bool_decide (body res = [])))
  then Throw (rejection 500)
  else
    let out := str "HTTP/1.1 " ++ to_string (status res) ++ [ch " "] ++ reason_phrase (status res) ++ crlf in
    let! out := add_fields (headers res) (wrap 64 (max_response_header_bytes options - 128)) out in
    let out := if negb keep_alive then out ++ str "Connection: close" ++ crlf else out in
    if negb (status res =? 204) && negb (status res =? 304) then
      let size_ := if status res =? 205 then 0
                   else match file res with Some f => file_length f | None => size (body res) end in
      let out := out ++ str "Content-Length: " ++ to_string size_ ++ crlf in
      let sends := negb head && negb (status res =? 205) in
      Ret (MkMessage (out ++ crlf) (if sends && match file res with None => true | Some _ => false end then body res else []),
           if sends then file res else None)
    else Ret (MkMessage (out ++ crlf) [], None).

Definition write_response (msg : message) : bytes := message_head msg ++ message_body msg.

(** ** Connections *)

(** What a handler does. It may throw the [timeout_error] of a scope of its own, or
    anything else ([operation_cancelled] included). *)
Inductive thrown := timeout_error | other_error.

Inductive handled := responds (res : response) | throws (e : thrown).

Section connection.
(** The handler; [read_at], what a read of a file at an offset gives, at most the size
    asked for; and which deadlines pass while the request is received and handled. *)
Context (options : server_options) (handler : request → handled) (read_at : Z → nat → Z → bytes).
Context (late_read late_handler : nat → bool).

(** The loop over the pieces of a file; [false] when the file ended early. *)
Fixpoint write_file (fuel : nat) (f : Z) (off remaining : Z) : option (bytes * bool) :=
  match fuel with
  | O => None
  | S fuel' =>
      if remaining =? 0 then Some ([], true)
      else
        let chunk := read_at f (Z.to_nat (Z.min remaining (16 * 1024))) off in
        if bool_decide (chunk = []) then Some ([], false)
        else
          match write_file fuel' f (off + size chunk) (remaining - size chunk) with
          | None => None
          | Some (out, ok) => Some (chunk ++ out, ok)
          end
  end.

(** What one turn of the loop comes to. *)
Inductive attempt :=
| ended
| answer (msg : message) (file : option file_body) (keep_alive : bool)
| failed (status : Z).

Definition handle (count : nat) (p : request_head) : attempt :=
  let head := bool_decide (Http.Request.method (req p) = str "HEAD") in
  let keep := keep_alive p && (S count <? max_requests_per_connection options)%nat in
  if late_handler count then failed 504
  else
    match handler (req p) with
    | throws timeout_error => failed 504
    | throws other_error => failed 500
    | responds res =>
        match make_response res head keep options with
        | Throw (rejection s) => failed s
        | Throw (input_failed _) => failed 500
        | Ret (msg, file) => answer msg file keep
        end
    end.

Definition turn (count : nat) (c : conn) : option (attempt * conn) :=
  if late_read count then Some (failed 408, c)
  else
    match read_request options c with
    | None => None
    | Some (Throw (rejection s), c') => Some (failed s, c')
    | Some (Throw (input_failed _), c') => Some (ended, c')
    | Some (Ret None, c') => Some (ended, c')
    | Some (Ret (Some p), c') => Some (handle count p, c')
    end.

(** [connection]: all that is written, for the requests that are [left]. *)
Fixpoint connection_loop (left count : nat) (c : conn) : option bytes :=
  match left with
  | O => Some []
  | S left' =>
      match turn count c with
      | None => None
      | Some (ended, _) => Some []
      | Some (failed s, _) =>
          match make_response (MkResponse s [] [] None) false false options with
          | Ret (msg, _) => Some (write_response msg)
          | Throw _ => Some []
          end
      | Some (answer msg file keep, c') =>
          match (match file with Some f => write_file (S (Z.to_nat (file_length f))) (fd f) (offset f) (file_length f) | None => Some ([], true) end) with
          | None => None
          | Some (sent, ok) =>
              if ok && keep then
                match connection_loop left' (S count) c' with
                | None => None
                | Some out => Some (write_response msg ++ sent ++ out)
                end
              else Some (write_response msg ++ sent)
          end
      end
  end.

Definition connection (c : conn) : option bytes := connection_loop (max_requests_per_connection options) 0 c.
End connection.

(** ** The text of a response *)

Lemma to_string_size n : 0 ≤ n < 2 ^ 64 → size (to_string n) ≤ 20.
Proof.
  intros Hn. unfold size, to_string. assert (2 ^ 64 ≤ 10 ^ Z.of_nat 20) by (vm_compute; discriminate).
  pose proof (digits_loop_length (S (Z.to_nat (Z.log2 n))) n 20 ltac:(lia) ltac:(lia)). lia.
Qed.

Lemma ret_inj {E A} (a b : A) : (Ret a : result E A) = Ret b → a = b.
Proof. by intros [= ->]. Qed.

(** Every status that a response may have. *)
Lemma status_texts s : 200 ≤ s ≤ 599 → size (to_string s) = 3 ∧ size (reason_phrase s) ≤ 31 ∧ 13 ∉ reason_phrase s.
Proof.
  intros Hs. assert (forallb (λ s, (size (to_string s) =? 3) && (size (reason_phrase s) <=? 31) && forallb (λ c, negb (c =? 13)) (reason_phrase s)) (seqZ 200 400) = true) as Hall
    by (vm_compute; reflexivity).
  rewrite forallb_forall in Hall. assert (s ∈ seqZ 200 400) as Hin by (apply elem_of_seqZ; lia). apply list_elem_of_In, Hall in Hin.
  apply andb_true_iff in Hin as [Hin H3]. apply andb_true_iff in Hin as [H1%Z.eqb_eq H2%Z.leb_le]. split; [done|]. split; [done|]. by apply (forallb_clean _ _ eq_refl) in H3.
Qed.

(** The fields that are sent as the handler gave them. *)
Definition sent (fs : list header) : list header := List.filter (λ f, negb (managed_header (header_name f))) fs.

Definition lines (fs : list header) : bytes := concat (line_text <$> (field_line <$> fs)).

Lemma lines_nil : lines [] = [].
Proof. done. Qed.

Lemma lines_cons f fs : lines (f :: fs) = header_name f ++ str ": " ++ header_text f ++ crlf ++ lines fs.
Proof. unfold lines. rewrite !fmap_cons. cbn [concat]. unfold line_text at 1, field_line at 1. by rewrite <- !app_assoc. Qed.

Lemma lines_app fs gs : lines (fs ++ gs) = lines fs ++ lines gs.
Proof. unfold lines. by rewrite !fmap_app, concat_app. Qed.

Definition field_chars (f : header) : Prop := header_name f ≠ [] ∧ forallb token_char (header_name f) = true ∧ forallb field_char (header_text f) = true.

Lemma add_fields_inv fs : ∀ rem out out', add_fields fs rem out = Ret out' → 0 ≤ rem →
  out' = out ++ lines (sent fs) ∧ size (lines (sent fs)) ≤ rem ∧ Forall field_chars fs.
Proof.
  induction fs as [|f fs IH]; intros rem out out'; cbn [add_fields].
  { intros [= ->] Hrem. unfold sent, lines. cbn. rewrite app_nil_r. split; [done|]. split; [done|apply Forall_nil_2]. }
  destruct (bool_decide _ || _ || _) eqn:T; [done|]. apply orb_false_iff in T as [T T3%negb_false_iff]. apply orb_false_iff in T as [T1%bool_decide_eq_false T2%negb_false_iff].
  destruct (Z.ltb_spec rem (size (header_name f))) as [|H1]; [done|]. destruct (Z.ltb_spec (rem - size (header_name f)) 4) as [|H2]; [done|]. cbn [orb].
  destruct (Z.ltb_spec (rem - size (header_name f) - 4) (size (header_text f))) as [|H3]; [done|]. intros Hadd Hrem.
  apply IH in Hadd as (-> & Hsz & Hfs); [|lia]. pose proof (size_nonneg (header_name f)) as P1. pose proof (size_nonneg (header_text f)) as P2.
  unfold sent in *. cbn [List.filter]. split; [|split; [|by apply Forall_cons_2]].
  - destruct (managed_header (header_name f)); cbn [negb]; [done|]. rewrite lines_cons, <- !app_assoc. done.
  - destruct (managed_header (header_name f)); cbn [negb]; [lia|]. rewrite lines_cons, !size_app, size_crlf. change (size (str ": ")) with 2. lia.
Qed.

(** The fields of the head that was written, and the length it announces. *)
Definition announced (res : response) : Z :=
  if status res =? 205 then 0 else match file res with Some f => file_length f | None => size (body res) end.

Definition bodiless (res : response) : bool := (status res =? 204) || (status res =? 304).

Definition all_fields (res : response) (keep : bool) : list header :=
  sent (headers res) ++ (if keep then [] else [MkHeader (str "Connection") (str "close")]) ++
  (if bodiless res then [] else [MkHeader (str "Content-Length") (to_string (announced res))]).

Definition response_line (res : response) : bytes := str "HTTP/1.1 " ++ to_string (status res) ++ [ch " "] ++ reason_phrase (status res).

Lemma make_response_inv res head keep o msg f : make_response res head keep o = Ret (msg, f) → 128 ≤ max_response_header_bytes o < 2 ^ 64 →
  200 ≤ status res ≤ 599 ∧ size (body res) ≤ max_response_body_bytes o ∧ Forall field_chars (headers res) ∧
  message_head msg = response_line res ++ crlf ++ lines (all_fields res keep) ++ crlf ∧
  size (lines (sent (headers res))) ≤ max_response_header_bytes o - 128 ∧
  (file res = None → f = None ∧ message_body msg = (if head || bodiless res || (status res =? 205) then [] else body res)) ∧
  (∀ g, file res = Some g → message_body msg = [] ∧ f = (if head || bodiless res || (status res =? 205) then None else Some g)).
Proof.
  intros Hm Ho. unfold make_response in Hm. destruct (_ || _ || _ || _) eqn:T; [done|].
  apply orb_false_iff in T as [T T4]. apply orb_false_iff in T as [T T3%Z.ltb_ge]. apply orb_false_iff in T as [T1%Z.ltb_ge T2%Z.ltb_ge].
  rewrite wrap_small in Hm by lia. destruct (add_fields _ _ _) as [out|] eqn:Hadd; [|done]. cbn [bind] in Hm.
  apply add_fields_inv in Hadd as (-> & Hsz & Hfs); [|lia]. split; [lia|]. split; [done|]. split; [done|].
  unfold all_fields, bodiless, announced, response_line. rewrite !lines_app.
  destruct (negb (status res =? 204) && negb (status res =? 304)) eqn:E.
  - apply andb_true_iff in E as [E1%negb_true_iff E2%negb_true_iff]. rewrite E1, E2. cbn [orb]. rewrite orb_false_r. apply ret_inj, pair_eq in Hm as [<- <-]. cbn [message_head message_body].
    split; [destruct keep; cbn [negb]; rewrite ?lines_cons, ?lines_nil; cbn [Http.Request.name Http.Request.value]; rewrite <- ?app_assoc, ?app_nil_l, ?app_nil_r; reflexivity|].
    split; [done|]. split.
    + intros Hf. rewrite Hf. cbn. by destruct head, (status res =? 205).
    + intros g Hg. rewrite Hg. cbn. by destruct head, (status res =? 205).
  - assert ((status res =? 204) || (status res =? 304) = true) as Hb by (by destruct (status res =? 204), (status res =? 304)).
    rewrite Hb, orb_true_r. cbn [orb]. apply ret_inj, pair_eq in Hm as [<- <-]. cbn [message_head message_body].
    split; [destruct keep; cbn [negb]; rewrite ?lines_cons, ?lines_nil; cbn [Http.Request.name Http.Request.value]; rewrite <- ?app_assoc, ?app_nil_l, ?app_nil_r; reflexivity|].
    done.
Qed.

(** The head of a response fits its limit: the status line, the handler's fields and
    the ones the server adds take at most [max_response_header_bytes] bytes, so the 128
    bytes that are set aside for the status line and the framing are enough for every
    status and every length. *)
Theorem response_head_bounded res head keep o msg f : make_response res head keep o = Ret (msg, f) →
  128 ≤ max_response_header_bytes o < 2 ^ 64 → size (body res) < 2 ^ 64 → (∀ g, file res = Some g → 0 ≤ file_length g < 2 ^ 64) →
  size (message_head msg) ≤ max_response_header_bytes o.
Proof.
  intros Hm Ho Hb Hf. destruct (make_response_inv _ _ _ _ _ _ Hm Ho) as (Hs & _ & _ & -> & Hsz & _). destruct (status_texts (status res) Hs) as (S1 & S2 & _).
  assert (0 ≤ announced res < 2 ^ 64) as Ha.
  { unfold announced. destruct (status res =? 205); [lia|]. destruct (file res) as [g|]; [by apply Hf|]. pose proof (size_nonneg (body res)). lia. }
  pose proof (to_string_size _ Ha) as Hd. unfold response_line, all_fields. rewrite !lines_app, !size_app, S1, !size_crlf. change (size (str "HTTP/1.1 ")) with 9. change (size [ch " "]) with 1.
  assert (size (lines (if keep then [] else [MkHeader (str "Connection") (str "close")])) ≤ 19) as Hk by (destruct keep; vm_compute; discriminate).
  assert (size (lines (if bodiless res then [] else [MkHeader (str "Content-Length") (to_string (announced res))])) ≤ 38) as Hc.
  { destruct (bodiless res); [vm_compute; discriminate|]. rewrite lines_cons, lines_nil, !size_app, size_crlf. cbn [Http.Request.name Http.Request.value].
    change (size (str "Content-Length")) with 14. change (size (str ": ")) with 2. change (size []) with 0. lia. }
  lia.
Qed.

(** ** What the client makes of it *)

Definition response_head_of (res : response) (keep : bool) : Head.response_head :=
  Head.MkHead (str "HTTP/1.1") (status res) (reason_phrase (status res)) (all_fields res keep).

Lemma lines_render fs : crlf ++ lines fs = concat ((λ f, crlf ++ Head.header_line f) <$> fs) ++ crlf.
Proof.
  induction fs as [|f fs IH]; [done|]. rewrite lines_cons, fmap_cons. cbn [concat]. unfold Head.header_line at 1. rewrite <- !app_assoc. rewrite <- IH. by rewrite !app_assoc.
Qed.

Lemma head_render res keep : response_line res ++ crlf ++ lines (all_fields res keep) ++ crlf = Head.render (response_head_of res keep) ++ crlf ++ crlf.
Proof.
  unfold Head.render, Head.status_line, response_line, response_head_of. cbn [Head.version Head.status Head.reason Head.headers].
  change (str "HTTP/1.1 ") with (str "HTTP/1.1" ++ [ch " "]). rewrite (app_assoc crlf (lines _)), lines_render, <- !app_assoc. reflexivity.
Qed.

Definition trimmed (f : header) : Prop := trim_ascii (header_text f) = header_text f.

Lemma token_trimmed n : forallb token_char n = true → trim_ascii n = n ∧ (ch ":" ∉ n) ∧ 13 ∉ n.
Proof.
  intros Hn. split; [|split].
  - apply trim_none. eapply forallb_weaken; [|exact Hn]. intros c Hc. apply negb_true_iff. unfold Head.is_blank. apply orb_false_iff.
    split; apply Z.eqb_neq; intros ->; done.
  - intros Hin. rewrite forallb_forall in Hn. apply list_elem_of_In, Hn in Hin. done.
  - by apply (forallb_clean token_char).
Qed.

Lemma sent_ok f : field_chars f → trimmed f → Head.header_ok f.
Proof. intros (_ & Hn & Hv) Ht. destruct (token_trimmed _ Hn) as (H1 & H2 & H3). split; try done. by apply (forallb_clean field_char). Qed.

Lemma all_fields_ok res keep : Forall field_chars (headers res) → Forall trimmed (headers res) → 0 ≤ announced res → Forall Head.header_ok (all_fields res keep).
Proof.
  intros Hf Ht Ha. unfold all_fields. rewrite !Forall_app. split_and!.
  - unfold sent. induction Hf as [|f fs Hf Hfs IH]; [apply Forall_nil_2|]. apply Forall_cons in Ht as [Ht Hts]. cbn [List.filter].
    destruct (negb _); [apply Forall_cons_2; [by apply sent_ok|]|]; by apply IH.
  - destruct keep; [apply Forall_nil_2|]. apply Forall_cons_2; [|apply Forall_nil_2]. split; apply (bool_decide_unpack _); vm_compute; exact I.
  - destruct (bodiless res); [apply Forall_nil_2|]. apply Forall_cons_2; [|apply Forall_nil_2]. pose proof (digits_all _ Ha) as Hd.
    apply sent_ok; [split; [done|split; [done|]]|apply trim_none]; (eapply forallb_weaken; [|exact Hd]); intros c; unfold is_digit, field_char, Head.is_blank; change (ch " ") with 32; lia.
Qed.

Lemma sent_lacks fs n : (∀ m, iequals m (str n) = true → managed_header m = true) → Forall (λ f, iequals (header_name f) (str n) = false) (sent fs).
Proof.
  intros Hn. unfold sent. induction fs as [|f fs IH]; [apply Forall_nil_2|]. cbn [List.filter]. destruct (managed_header (header_name f)) eqn:E; [done|].
  apply Forall_cons_2; [|done]. destruct (iequals (header_name f) (str n)) eqn:E'; [|done]. by rewrite (Hn _ E') in E.
Qed.

Lemma header_value_skip fs gs n : Forall (λ f, iequals (header_name f) n = false) fs → Head.header_value (fs ++ gs) n = Head.header_value gs n.
Proof. induction 1 as [|f fs Hf Hfs IH]; [done|]. cbn [app Head.header_value]. by rewrite Hf. Qed.

Lemma all_fields_length res keep : bodiless res = false → Head.header_value (all_fields res keep) (str "content-length") = Some (to_string (announced res)).
Proof.
  intros Hb. unfold all_fields. rewrite header_value_skip, header_value_skip, Hb; [reflexivity|..].
  - destruct keep; [apply Forall_nil_2|]. apply Forall_cons_2; [reflexivity|apply Forall_nil_2].
  - apply sent_lacks. intros m Hm. unfold managed_header. rewrite (iequals_lower m "Content-Length" "content-length"), Hm by reflexivity. done.
Qed.

Lemma all_fields_chunked res keep : Head.header_value (all_fields res keep) (str "transfer-encoding") = None.
Proof.
  unfold all_fields. rewrite header_value_skip, header_value_skip; [by destruct (bodiless res)|..].
  - destruct keep; [apply Forall_nil_2|]. apply Forall_cons_2; [reflexivity|apply Forall_nil_2].
  - apply sent_lacks. intros m Hm. unfold managed_header. rewrite (iequals_lower m "Transfer-Encoding" "transfer-encoding"), Hm, ?orb_true_r by reflexivity. done.
Qed.

(** C24: The client of nxtrt reads what the server writes: from a response whose fields
    have no blanks at their ends, [read_response_head] gives the status, its phrase, and
    the handler's fields less the ones the server owns; the body is not chunked and its
    announced length is the number of bytes that follow for an ordinary response, so no
    field of the handler can move the end of the head or of the body. *)
Theorem client_reads_response f q res head keep o msg g x : feed_ok f q → make_response res head keep o = Ret (msg, g) →
  128 ≤ max_response_header_bytes o < 2 ^ 64 → Forall trimmed (headers res) → size (body res) < 2 ^ 64 → file res = None →
  stream q f = write_response msg ++ x → (length (message_head msg) ≤ Region.capacity_ (ring_ f))%nat →
  ∃ f' q' h, Body.read_response_head f = Some (Ret h, f') ∧ feed_ok f' q' ∧ stream q' f' = message_body msg ++ x ∧
    Head.status h = status res ∧ Head.reason h = reason_phrase (status res) ∧ Head.headers h = all_fields res keep ∧ Head.is_chunked h = false ∧
    (head = false → bodiless res = false → Head.content_length h = Ret (Some (size (message_body msg)))).
Proof.
  intros Hf Hm Ho Ht Hb Hfile Hst Hcap. destruct (make_response_inv _ _ _ _ _ _ Hm Ho) as (Hs & _ & Hfs & Hhead & _ & Hnone & _). destruct (Hnone Hfile) as [_ Hbody].
  destruct (status_texts (status res) Hs) as (_ & _ & Hr).
  assert (0 ≤ announced res < 2 ^ 64) as Ha by (unfold announced; rewrite Hfile; pose proof (size_nonneg (body res)); destruct (status res =? 205); lia).
  assert (Head.head_ok (response_head_of res keep)) as Hok.
  { split; [|cbn; lia|done|by apply all_fields_ok; [done|done|lia]]. split; [discriminate|]. split; apply (bool_decide_unpack _); vm_compute; exact I. }
  unfold write_response in Hst. rewrite Hhead, head_render in Hst, Hcap. rewrite !length_app in Hcap. rewrite <- !app_assoc in Hst.
  destruct (Body.head_read f q (response_head_of res keep) (message_body msg ++ x) Hf Hok Hst) as (f' & q' & Hrun & Hf' & Hst'); [cbn in *; lia|].
  exists f', q', (response_head_of res keep). split_and!; try done.
  - unfold Head.is_chunked, Head.has_header_token, response_head_of. cbn [Head.headers]. by rewrite all_fields_chunked.
  - intros -> Hbl. unfold Head.content_length, response_head_of. cbn [Head.headers]. rewrite all_fields_length by done. rewrite from_chars_size_to_string by done.
    rewrite Hbody, Hbl. cbn [orb]. unfold announced. rewrite Hfile. by destruct (status res =? 205).
Qed.

(** ** Every connection *)

(** What [serve] requires of its options. *)
Record serve_ok (o : server_options) : Prop := {
  so_read : options_ok o;
  so_response : 128 ≤ max_response_header_bytes o < 2 ^ 64;
  so_body : 0 ≤ max_response_body_bytes o;
}.

Section connections.
#[local] Set Default Proof Using "All".
Context (o : server_options) (handler : request → handled) (read_at : Z → nat → Z → bytes).
Context (late_read late_handler : nat → bool).
Hypothesis Ho : serve_ok o.

Lemma write_file_ends fuel f off n : (∀ k off, length (read_at f k off) ≤ k)%nat → 0 ≤ n → (Z.to_nat n < fuel)%nat →
  ∃ out ok, write_file read_at fuel f off n = Some (out, ok) ∧ size out ≤ n ∧ (ok = true → size out = n).
Proof using Type.
  intros Hread. revert off n. induction fuel as [|fuel IH]; intros off n Hn Hf; [lia|]. cbn [write_file]. destruct (Z.eqb_spec n 0) as [->|H0].
  { exists [], true. done. }
  set (chunk := read_at f (Z.to_nat (Z.min n (16 * 1024))) off). pose proof (Hread (Z.to_nat (Z.min n (16 * 1024))) off) as Hl. fold chunk in Hl.
  case_bool_decide as Hc; [exists [], false; done|]. assert (0 < length chunk)%nat as Hp by (destruct chunk; [done|cbn; lia]).
  destruct (IH (off + size chunk) (n - size chunk)) as (out & ok & -> & Hs & Hok); [unfold size in *; lia..|].
  exists (chunk ++ out), ok. rewrite size_app. split; [done|]. split; [lia|]. intros ->. specialize (Hok eq_refl). lia.
Qed.

Lemma handle_file count p msg g keep : handle o handler late_handler count p = answer msg (Some g) keep →
  ∃ res, handler (req p) = responds res ∧ file res = Some g.
Proof.
  unfold handle. destruct (late_handler count); [done|]. destruct (handler (req p)) as [res|[]] eqn:Hh; [|done..].
  destruct (make_response _ _ _ _) as [[msg' g']|[]] eqn:Hm; try done. intros [= -> -> _]. exists res. split; [done|].
  destruct (make_response_inv _ _ _ _ _ _ Hm (so_response _ Ho)) as (_ & _ & _ & _ & _ & Hn & Hs).
  destruct (file res) as [g'|]; [destruct (Hs g' eq_refl) as [_ E]; destruct (_ || _); congruence|]. by destruct (Hn eq_refl).
Qed.

Lemma turn_ends count c q : conn_ok c q → ∃ a c' q', turn o handler late_read late_handler count c = Some (a, c') ∧
  conn_ok c' q' ∧ ∀ msg g keep, a = answer msg (Some g) keep → ∃ p res, handler p = responds res ∧ file res = Some g.
Proof.
  intros H. unfold turn. destruct (late_read count); [by exists (failed 408), c, q|].
  destruct (request_bounded o c q (so_read _ Ho) H) as (r & c' & -> & q' & H' & _ & Hout). destruct r as [[p|]|[s|e]].
  - exists (handle o handler late_handler count p), c', q'. split; [done|]. split; [done|]. intros msg g keep Ha. apply handle_file in Ha as (res & ? & ?). by exists (req p), res.
  - by exists ended, c', q'.
  - by exists (failed s), c', q'.
  - by exists ended, c', q'.
Qed.

Lemma connection_loop_ends : (∀ f k off, length (read_at f k off) ≤ k)%nat →
  (∀ r res g, handler r = responds res → file res = Some g → 0 ≤ file_length g) →
  ∀ left count c q, conn_ok c q → ∃ out, connection_loop o handler read_at late_read late_handler left count c = Some out.
Proof.
  intros Hread Hfiles left. induction left as [|left IH]; intros count c q H; [by eexists|]. cbn [connection_loop].
  destruct (turn_ends count c q H) as (a & c' & q' & -> & H' & Hfile). destruct a as [|msg [g|] keep|s].
  - by eexists.
  - destruct (Hfile msg g keep eq_refl) as (r & res & Hr & Hg). specialize (Hfiles r res g Hr Hg).
    destruct (write_file_ends (S (Z.to_nat (file_length g))) (fd g) (offset g) (file_length g) (Hread (fd g)) Hfiles ltac:(lia)) as (out & ok & -> & _).
    destruct (ok && keep); [|by eexists]. destruct (IH (S count) c' q' H') as [out' ->]. by eexists.
  - destruct (true && keep); [|by eexists]. destruct (IH (S count) c' q' H') as [out' ->]. by eexists.
  - destruct (make_response _ _ _ _) as [[msg f]|]; by eexists.
Qed.
End connections.

(** A connection ends: whatever bytes the peer sends, whatever the handler and the
    files it names do, and whichever deadlines pass, a connection reads, answers and
    closes after at most [max_requests_per_connection] turns. *)
Theorem connection_ends o handler read_at late_read late_handler c q : serve_ok o → conn_ok c q →
  (∀ f k off, length (read_at f k off) ≤ k)%nat → (∀ r res g, handler r = responds res → file res = Some g → 0 ≤ file_length g) →
  ∃ out, connection o handler read_at late_read late_handler c = Some out.
Proof. intros Ho H Hread Hfiles. by eapply connection_loop_ends. Qed.

(** ** Pipelined requests *)

(** A request on the wire and the answer to it. *)
Record exchange := MkExchange {
  x_text : bytes;
  x_wire : bytes;
  x_head : request_head;
  x_body : bytes;
  x_response : response;
  x_message : message;
}.

Record exchange_ok (o : server_options) (handler : request → handled) (x : exchange) : Prop := {
  xo_head : parse_head (x_text x) = Some (Ret (x_head x));
  xo_framed : framed o (x_head x) (x_body x) (x_wire x);
  xo_text : size (x_text x) ≤ max_header_bytes o;
  xo_wire : size (x_wire x) ≤ max_body_wire_bytes o;
  xo_body : size (x_body x) ≤ max_body_bytes o;
  xo_keep : keep_alive (x_head x) = true;
  xo_handler : handler (set_body (x_body x) (req (x_head x))) = responds (x_response x);
  xo_message : make_response (x_response x) (bool_decide (Http.Request.method (req (x_head x)) = str "HEAD")) true o = Ret (x_message x, None);
}.

Lemma connection_loop_answers o handler read_at xs : options_ok o → Forall (exchange_ok o handler) xs →
  ∀ left count c q, conn_ok c q → rest q c = concat ((λ x, x_text x ++ x_wire x) <$> xs) → (length xs < left)%nat → (count + left = max_requests_per_connection o)%nat →
  connection_loop o handler read_at (λ _, false) (λ _, false) left count c = Some (concat ((λ x, write_response (x_message x)) <$> xs)).
Proof.
  intros Ho Hxs. induction Hxs as [|x xs [X1 X2 X3 X4 X5 X6 X7 X8] Hxs IH]; intros [|left] count c q H Hr Hlen Hc; try (cbn in Hlen; lia); cbn [connection_loop].
  - destruct (request_end o c q Ho H Hr) as [c' Hrun]. unfold turn. by rewrite Hrun.
  - rewrite fmap_cons in Hr. cbn [concat] in Hr. rewrite <- app_assoc in Hr.
    destruct (request_exact o c q (x_text x) (x_head x) (x_body x) (x_wire x) _ Ho H Hr X1 X2 X3 X4 X5) as (c' & q' & Hrun & H' & Hr').
    unfold turn. rewrite Hrun. unfold handle. cbn [req with_req keep_alive]. change (Http.Request.method (set_body (x_body x) ?r)) with (Http.Request.method r).
    cbn in Hlen. rewrite X7, X6. rewrite (proj2 (Nat.ltb_lt (S count) _)) by lia. cbn [andb]. rewrite X8. cbn [andb].
    rewrite (IH left (S count) c' q' H' Hr') by (cbn in *; lia). rewrite fmap_cons. cbn [concat]. done.
Qed.

(** C23: Pipelined requests are answered in order: a peer that sends any number of requests
    at once, fewer than the connection allows, in whatever reads, gets exactly the
    responses of the handler, each once and in the order of the requests, and then the
    end of the connection. *)
Theorem connection_answers o handler read_at c q xs : options_ok o → conn_ok c q → Forall (exchange_ok o handler) xs →
  rest q c = concat ((λ x, x_text x ++ x_wire x) <$> xs) → (length xs < max_requests_per_connection o)%nat →
  connection o handler read_at (λ _, false) (λ _, false) c = Some (concat ((λ x, write_response (x_message x)) <$> xs)).
Proof. intros Ho H Hxs Hr Hlen. by apply (connection_loop_answers o handler read_at xs Ho Hxs _ 0 c q). Qed.

(** ** Examples *)

Definition hello : response := MkResponse 200 [MkHeader (str "X") (str "y"); MkHeader (str "Content-Length") (str "9")] (str "hi") None.

Definition hello_text : bytes := str "HTTP/1.1 200 OK" ++ crlf ++ str "X: y" ++ crlf ++ str "Content-Length: 2" ++ crlf ++ crlf.

Example hello_written : make_response hello false true small_options = Ret (MkMessage hello_text (str "hi"), None).
Proof. vm_compute. reflexivity. Qed.

Lemma small_serve_ok : serve_ok small_options.
Proof. split; [apply small_options_ok|cbn; lia|cbn; lia]. Qed.

Lemma response_head_bounded_witness : size hello_text ≤ 256.
Proof.
  apply (response_head_bounded hello false true small_options (MkMessage hello_text (str "hi")) None).
  - vm_compute. reflexivity.
  - split; [vm_compute; discriminate|vm_compute; reflexivity].
  - vm_compute. reflexivity.
  - intros g Hg. discriminate Hg.
Defined.

Lemma client_reads_response_witness :
  ∃ f' q' h, Body.read_response_head (Body.response_feed (take 20 hello_text) (drop 20 hello_text ++ str "hi")) = Some (Ret h, f') ∧
    feed_ok f' q' ∧ stream q' f' = str "hi" ++ [] ∧ Head.status h = 200 ∧ Head.reason h = str "OK" ∧
    Head.headers h = all_fields hello true ∧ Head.is_chunked h = false ∧ (false = false → bodiless hello = false → Head.content_length h = Ret (Some 2)).
Proof.
  apply (client_reads_response (Body.response_feed (take 20 hello_text) (drop 20 hello_text ++ str "hi")) [] hello false true small_options
    (MkMessage hello_text (str "hi")) None []).
  - apply Body.response_feed_ok; discriminate.
  - vm_compute. reflexivity.
  - split; [vm_compute; discriminate|vm_compute; reflexivity].
  - apply Forall_cons_2; [vm_compute; reflexivity|]. apply Forall_cons_2; [vm_compute; reflexivity|]. apply Forall_nil_2.
  - vm_compute. reflexivity.
  - reflexivity.
  - vm_compute. reflexivity.
  - apply Nat.leb_le. vm_compute. reflexivity.
Defined.

Definition echo (r : request) : handled := responds (MkResponse 200 [] (Http.Request.body r) None).

Definition no_files (_ : Z) (_ : nat) (_ : Z) : bytes := [].

Lemma connection_ends_witness :
  ∃ out, connection small_options echo no_files (λ n, (n =? 1)%nat) (λ _, false) (two_reads (get_text ++ str "GET") (str "x")) = Some out.
Proof.
  apply (connection_ends small_options echo no_files _ _ _ []).
  - exact small_serve_ok.
  - apply Body.response_feed_ok; discriminate.
  - intros f k off. apply Nat.le_0_l.
  - intros r res g Hr Hg. injection Hr as <-. discriminate Hg.
Defined.

Definition get_head : request_head :=
  MkRequestHead (MkRequest (str "GET") (str "/a") (str "h") [MkHeader (str "Host") (str "h"); MkHeader (str "X-Id") (str "7")] []) 0 false true (size get_text).

Definition ok_text (n : string) : bytes := str "HTTP/1.1 200 OK" ++ crlf ++ str "Content-Length: " ++ str n ++ crlf ++ crlf.

Definition get_exchange : exchange :=
  MkExchange get_text [] get_head [] (MkResponse 200 [] [] None) (MkMessage (ok_text "0") []).

Definition post_exchange : exchange :=
  MkExchange post_text post_wire post_head (str "hello!") (MkResponse 200 [] (str "hello!") None) (MkMessage (ok_text "6") (str "hello!")).

Lemma get_exchange_ok : exchange_ok small_options echo get_exchange.
Proof.
  split; try (vm_compute; reflexivity); try (vm_compute; discriminate). by apply framed_sized.
Qed.

Lemma post_exchange_ok : exchange_ok small_options echo post_exchange.
Proof.
  split; try (vm_compute; reflexivity); try (vm_compute; discriminate).
  apply (framed_chunked small_options post_head post_chunks (str "0") [str "Etag: x"]); try (vm_compute; reflexivity); try (vm_compute; discriminate).
  - repeat (apply Forall_cons_2; [split; [vm_compute; reflexivity|discriminate]|]). apply Forall_nil_2.
  - apply Forall_cons_2; [|apply Forall_nil_2]. split; [discriminate|]. eexists. split; [vm_compute; reflexivity|]. split; vm_compute; reflexivity.
  - split; [|vm_compute; discriminate]. repeat (apply Forall_cons_2; [vm_compute; discriminate|]). apply Forall_nil_2.
Qed.

Lemma connection_answers_witness :
  connection small_options echo no_files (λ _, false) (λ _, false) (two_reads (take 50 (get_text ++ post_text ++ post_wire)) (drop 50 (get_text ++ post_text ++ post_wire))) =
    Some (ok_text "0" ++ ok_text "6" ++ str "hello!").
Proof.
  apply (connection_answers small_options echo no_files _ [] [get_exchange; post_exchange]).
  - exact small_options_ok.
  - apply Body.response_feed_ok; discriminate.
  - apply Forall_cons_2; [exact get_exchange_ok|]. apply Forall_cons_2; [exact post_exchange_ok|]. apply Forall_nil_2.
  - vm_compute. reflexivity.
  - apply Nat.ltb_lt. reflexivity.
Defined.
