(* ===== verification/Input.v ===== *)
(** * Keyboard input (src/src/nxtui/input.hpp, src/src/nxtui/input.cpp)

    The incremental decoder [Parser]: bytes read from the terminal in,
    [KeyEvent]s out. A [long] that overflows is undefined behaviour, modelled as
    the exception [signed_overflow]. *)
From S2P Require Import Prelude Unicode.
#[local] Open Scope Z_scope.

(** Undefined behaviour the code can reach. *)
Inductive undefined := signed_overflow.

Inductive Key :=
| unknown | character | enter | tab | backspace | escape | insert | delete_
| left | right | up | down | home | k_end | page_up | page_down | k_begin
| f1 | f2 | f3 | f4 | f5 | f6 | f7 | f8 | f9 | f10 | f11 | f12.

#[export] Instance Key_eq_dec : EqDecision Key.
Proof. solve_decision. Defined.

Inductive EventType := press | repeat_ | release.

Record Modifiers := MkMods {
  shift : bool; alt : bool; ctrl : bool; super : bool;
  hyper : bool; meta : bool; caps_lock : bool; num_lock : bool;
}.

Definition no_mods : Modifiers := MkMods false false false false false false false false.

(** [Pos]: cells right of and lines below the terminal origin. *)
Record Pos := MkPos { x : Z; y : Z }.

Record KeyEvent := MkKeyEvent {
  key : Key;
  type : EventType;
  mods : Modifiers;
  codepoint : Z;
  shifted_codepoint : option Z;
  base_layout_codepoint : option Z;
  text : bytes;
  raw : bytes;
  cursor_position : option Pos;
}.

(** A value-initialised event, and its assignments. *)
Definition key_event : KeyEvent := MkKeyEvent unknown press no_mods 0 None None [] [] None.

Definition set_key (e : KeyEvent) (k : Key) : KeyEvent :=
  MkKeyEvent k (type e) (mods e) (codepoint e) (shifted_codepoint e) (base_layout_codepoint e)
    (text e) (raw e) (cursor_position e).

Definition set_type (e : KeyEvent) (t : EventType) : KeyEvent :=
  MkKeyEvent (key e) t (mods e) (codepoint e) (shifted_codepoint e) (base_layout_codepoint e)
    (text e) (raw e) (cursor_position e).

Definition set_mods (e : KeyEvent) (m : Modifiers) : KeyEvent :=
  MkKeyEvent (key e) (type e) m (codepoint e) (shifted_codepoint e) (base_layout_codepoint e)
    (text e) (raw e) (cursor_position e).

Definition set_codepoint (e : KeyEvent) (cp : Z) : KeyEvent :=
  MkKeyEvent (key e) (type e) (mods e) cp (shifted_codepoint e) (base_layout_codepoint e)
    (text e) (raw e) (cursor_position e).

Definition set_shifted (e : KeyEvent) (cp : Z) : KeyEvent :=
  MkKeyEvent (key e) (type e) (mods e) (codepoint e) (Some cp) (base_layout_codepoint e)
    (text e) (raw e) (cursor_position e).

Definition set_base (e : KeyEvent) (cp : Z) : KeyEvent :=
  MkKeyEvent (key e) (type e) (mods e) (codepoint e) (shifted_codepoint e) (Some cp)
    (text e) (raw e) (cursor_position e).

Definition set_text (e : KeyEvent) (t : bytes) : KeyEvent :=
  MkKeyEvent (key e) (type e) (mods e) (codepoint e) (shifted_codepoint e) (base_layout_codepoint e)
    t (raw e) (cursor_position e).

Definition set_raw (e : KeyEvent) (r : bytes) : KeyEvent :=
  MkKeyEvent (key e) (type e) (mods e) (codepoint e) (shifted_codepoint e) (base_layout_codepoint e)
    (text e) r (cursor_position e).

Definition set_cursor (e : KeyEvent) (p : Pos) : KeyEvent :=
  MkKeyEvent (key e) (type e) (mods e) (codepoint e) (shifted_codepoint e) (base_layout_codepoint e)
    (text e) (raw e) (Some p).

Definition plain_mods (m : Modifiers) : bool :=
  negb (alt m) && negb (super m) && negb (hyper m) && negb (meta m).

Definition pressed (e : KeyEvent) : bool :=
  bool_decide (key e = character) && match type e with release => false | _ => true end.

Definition is_text (e : KeyEvent) : bool :=
  pressed e && negb (bool_decide (text e = [])) && negb (ctrl (mods e)) && plain_mods (mods e).

Definition is_ctrl_c (e : KeyEvent) : bool :=
  pressed e && (codepoint e =? ch "c") && ctrl (mods e) && plain_mods (mods e).

Definition is_ctrl_l (e : KeyEvent) : bool :=
  pressed e && (codepoint e =? ch "l") && ctrl (mods e) && plain_mods (mods e).

Definition is_ctrl_z (e : KeyEvent) : bool :=
  pressed e && (codepoint e =? ch "z") && ctrl (mods e) && plain_mods (mods e).

(** ** Parameters of a control sequence *)

Definition in_long (v : Z) : bool := (- 2 ^ 63 <=? v) && (v <? 2 ^ 63).

(** A [long] product or sum. *)
Definition long (v : Z) : result undefined Z := if in_long v then Ret v else Throw signed_overflow.

Fixpoint parse_number_loop (value : Z) (text : bytes) : result undefined (option Z) :=
  match text with
  | [] => Ret (Some value)
  | c :: text' =>
      if (c <? ch "0") || (ch "9" <? c) then Ret None
      else
        let! v := long (value * 10) in
        let! v := long (v + (c - ch "0")) in
        parse_number_loop v text'
  end.

Definition parse_number (text : bytes) : result undefined (option Z) :=
  match text with
  | [] => Ret None
  | _ => parse_number_loop 0 text
  end.

(** The pieces between separators; never empty. *)
Fixpoint split (body : bytes) (separator : Z) : list bytes :=
  match body with
  | [] => [[]]
  | c :: body' =>
      if c =? separator then [] :: split body' separator
      else match split body' separator with
           | [] => [[c]]
           | p :: ps => (c :: p) :: ps
           end
  end.

Definition decode_modifiers (encoded : Z) : Modifiers :=
  let bits := if 0 <? encoded then encoded - 1 else 0 in
  MkMods (negb (Z.land bits 1 =? 0)) (negb (Z.land bits 2 =? 0)) (negb (Z.land bits 4 =? 0))
    (negb (Z.land bits 8 =? 0)) (negb (Z.land bits 16 =? 0)) (negb (Z.land bits 32 =? 0))
    (negb (Z.land bits 64 =? 0)) (negb (Z.land bits 128 =? 0)).

Definition decode_event_type (encoded : Z) : EventType :=
  match encoded with
  | 2 => repeat_
  | 3 => release
  | _ => press
  end.

Definition parse_codepoint (text : bytes) : result undefined (option Z) :=
  let! value := parse_number text in
  match value with
  | None => Ret None
  | Some v =>
      if (v <? 0) || (0x10ffff <? v) then Ret None
      else if (0xd800 <=? v) && (v <=? 0xdfff) then Ret None
      else Ret (Some v)
  end.

Fixpoint parse_text_parts (out : bytes) (parts : list bytes) : result undefined (option bytes) :=
  match parts with
  | [] => Ret (Some out)
  | part :: parts' =>
      let! cp := parse_codepoint part in
      match cp with
      | None => Ret None
      | Some cp => parse_text_parts (out ++ encode_utf8 cp) parts'
      end
  end.

Definition parse_associated_text (text : bytes) : result undefined (option bytes) :=
  match text with
  | [] => Ret (Some [])
  | _ => parse_text_parts [] (split text (ch ":"))
  end.

Definition key_from_tilde (number : Z) : Key :=
  match number with
  | 2 => insert | 3 => delete_ | 5 => page_up | 6 => page_down | 7 => home | 8 => k_end
  | 11 => f1 | 12 => f2 | 13 => f3 | 14 => f4 | 15 => f5 | 17 => f6 | 18 => f7 | 19 => f8
  | 20 => f9 | 21 => f10 | 23 => f11 | 24 => f12
  | _ => unknown
  end.

Definition key_from_final (command : Z) : Key :=
  if command =? ch "A" then up
  else if command =? ch "B" then down
  else if command =? ch "C" then right
  else if command =? ch "D" then left
  else if command =? ch "E" then k_begin
  else if command =? ch "F" then k_end
  else if command =? ch "H" then home
  else if command =? ch "P" then f1
  else if command =? ch "Q" then f2
  else if command =? ch "R" then f3
  else if command =? ch "S" then f4
  else if command =? ch "Z" then tab
  else unknown.

Definition key_from_codepoint (cp : Z) : Key :=
  match cp with
  | 0 => unknown
  | 9 => tab
  | 13 => enter
  | 27 => escape
  | 127 => backspace
  | _ => if (0xe000 <=? cp) && (cp <=? 0xf8ff) then unknown else character
  end.

Definition valid_utf8_cont (c : Z) : bool := Z.land c 0xc0 =? 0x80.

(** ** Control sequences *)

Inductive CsiResult := incomplete | parsed | invalid.

(** [parse_csi] returns how it went and the event as far as it was filled in. *)
Definition csi : Type := result undefined (CsiResult * KeyEvent).

Definition cursor_report (params : list bytes) (raw : bytes) (event : KeyEvent) : csi :=
  let! row := parse_number (nth 0 params []) in
  let! col := parse_number (nth 1 params []) in
  match row, col with
  | Some row, Some col =>
      if (row <=? 0) || (col <=? 0) then Ret (invalid, event)
      else Ret (parsed, set_cursor (set_key (set_raw event raw) unknown) (MkPos (col - 1) (row - 1)))
  | _, _ => Ret (invalid, event)
  end.

(** The alternate code points: the [i]th part of the key parameter. *)
Definition alternate (key_parts : list bytes) (i : nat) (set : KeyEvent → Z → KeyEvent)
    (event : KeyEvent) (k : KeyEvent → csi) : csi :=
  match nth i key_parts [] with
  | [] => k event
  | part =>
      let! cp := parse_codepoint part in
      match cp with
      | None => Ret (invalid, event)
      | Some cp => k (set event cp)
      end
  end.

(** The modifiers and the event type: the second parameter. *)
Definition modifiers (params : list bytes) (event : KeyEvent) (k : KeyEvent → csi) : csi :=
  if (length params <? 2)%nat then k event
  else
    let parts := split (nth 1 params []) (ch ":") in
    let! encoded := parse_number (nth 0 parts []) in
    let event := match encoded with
                 | Some m => set_mods event (decode_modifiers m)
                 | None => event
                 end in
    match nth 1 parts [] with
    | [] => k event
    | part =>
        let! type := parse_number part in
        match type with
        | None => Ret (invalid, event)
        | Some t => k (set_type event (decode_event_type t))
        end
    end.

(** The first nonempty parameter from the third on. *)
Fixpoint first_nonempty (ps : list bytes) : bytes :=
  match ps with
  | [] => []
  | [] :: ps' => first_nonempty ps'
  | p :: _ => p
  end.

Definition associated_text (params : list bytes) (event : KeyEvent) (k : KeyEvent → csi) : csi :=
  if (length params <? 3)%nat then k event
  else
    match first_nonempty (drop 2 params) with
    | [] => k event
    | t =>
        let! text := parse_associated_text t in
        match text with
        | None => Ret (invalid, event)
        | Some text => k (set_text event text)
        end
    end.

(** The event of the final byte. *)
Definition finish (command : Z) (first : option Z) (event : KeyEvent) : csi :=
  if command =? ch "u" then
    let cp := default 0 first in
    let event := set_key (set_codepoint event cp) (key_from_codepoint cp) in
    let event := if negb (bool_decide (text event = [])) && bool_decide (key event = unknown)
                 then set_key event character else event in
    let event := if bool_decide (key event = character) && bool_decide (text event = [])
                 then set_text event (encode_utf8 cp) else event in
    Ret (parsed, event)
  else if command =? ch "~" then Ret (parsed, set_key event (key_from_tilde (default 0 first)))
  else
    let event := set_key event (key_from_final command) in
    let m := mods event in
    Ret (parsed,
      if command =? ch "Z" then
        set_mods event (MkMods true (alt m) (ctrl m) (super m) (hyper m) (meta m) (caps_lock m) (num_lock m))
      else event).

(** The sequence with its parts named: all of it, what is between [CSI] and the
    final byte, and the final byte. *)
Definition decode_csi (raw body : bytes) (command : Z) (event : KeyEvent) : csi :=
  if match body with c :: _ => c =? ch "<" | [] => false end then Ret (invalid, event)
  else
    let params := split body (ch ";") in
    if (command =? ch "R") && (length params =? 2)%nat then cursor_report params raw event
    else
      let key_parts := match params with [] => [] | p :: _ => split p (ch ":") end in
      let! first := match nth 0 key_parts [] with [] => Ret None | part => parse_codepoint part end in
      if negb (bool_decide (is_Some first)) && negb (command =? ch "Z") then Ret (invalid, event)
      else
        alternate key_parts 1 set_shifted (set_raw event raw) (λ event,
        alternate key_parts 2 set_base event (λ event,
        modifiers params event (λ event,
        associated_text params event (λ event,
        finish command first event)))).

Definition parse_csi (pending : bytes) (end_ : nat) (event : KeyEvent) : csi :=
  decode_csi (take (end_ + 1) pending) (take (end_ - 2) (drop 2 pending)) (nth end_ pending 0) event.

(** ** Control bytes and text *)

Definition parse_control (c : Z) (event : KeyEvent) : KeyEvent :=
  let event := set_raw event [c] in
  if (c =? 13) || (c =? 10) then set_key event enter
  else if c =? 9 then set_key event tab
  else if (c =? 8) || (c =? 0x7f) then set_key event backspace
  else if (1 <=? c) && (c <=? 26) then
    let m := mods event in
    let event := set_mods (set_key event character)
      (MkMods (shift m) (alt m) true (super m) (hyper m) (meta m) (caps_lock m) (num_lock m)) in
    let event := set_codepoint event (ch "a" + c - 1) in
    set_text event (encode_utf8 (codepoint event))
  else set_key event unknown.

(** The length and the leading bits of a sequence, by its first byte. *)
Definition utf8_lead (first : Z) : option (nat * Z) :=
  if Z.land first 0x80 =? 0 then Some (1%nat, first)
  else if Z.land first 0xe0 =? 0xc0 then Some (2%nat, Z.land first 0x1f)
  else if Z.land first 0xf0 =? 0xe0 then Some (3%nat, Z.land first 0x0f)
  else if Z.land first 0xf8 =? 0xf0 then Some (4%nat, Z.land first 0x07)
  else None.

(** The continuation bytes; [None] at one that is not. *)
Fixpoint utf8_tail (cp : Z) (cs : bytes) : option Z :=
  match cs with
  | [] => Some cp
  | c :: cs' =>
      if negb (valid_utf8_cont c) then None
      else utf8_tail (u32 (Z.lor (Z.shiftl cp 6) (Z.land c 0x3f))) cs'
  end.

Definition stray_byte (pending : bytes) (event : KeyEvent) : KeyEvent * bytes :=
  (set_raw (set_key event unknown) (take 1 pending), drop 1 pending).

(** [None] waits for more bytes; otherwise the event and what is left. *)
Definition parse_utf8 (pending : bytes) (event : KeyEvent) : option (KeyEvent * bytes) :=
  match utf8_lead (nth 0 pending 0) with
  | None => Some (stray_byte pending event)
  | Some (len, cp) =>
      if (length pending <? len)%nat then None
      else
        match utf8_tail cp (take (len - 1) (drop 1 pending)) with
        | None => Some (stray_byte pending event)
        | Some cp =>
            let seq := take len pending in
            Some (set_raw (set_text (set_codepoint (set_key event character) cp) seq) seq,
                  drop len pending)
        end
  end.

(** ** The parser *)

(** Index of the final byte of the control sequence, from index [i] on. *)
Fixpoint find_final (i : nat) (s : bytes) : option nat :=
  match s with
  | [] => None
  | b :: s' => if (0x40 <=? b) && (b <=? 0x7e) then Some i else find_final (S i) s'
  end.

(** One turn of [feed]'s loop on nonempty pending bytes: [None] breaks out of
    it; otherwise the event pushed and the bytes that stay pending. *)
Definition feed_step (pending : bytes) : result undefined (option (KeyEvent * bytes)) :=
  let c := nth 0 pending 0 in
  let deliver_escape :=
    Ret (Some (set_raw (set_key key_event escape) (take 1 pending), drop 1 pending)) in
  if c =? 0x1b then
    if (length pending =? 1)%nat then Ret None
    else if nth 1 pending 0 =? ch "[" then
      match find_final 2 (drop 2 pending) with
      | None => Ret None
      | Some end_ =>
          let! r := parse_csi pending end_ key_event in
          match r with
          | (parsed, event) => Ret (Some (event, drop (end_ + 1) pending))
          | (invalid, event) =>
              Ret (Some (set_raw (set_key event unknown) (take (end_ + 1) pending),
                         drop (end_ + 1) pending))
          | (incomplete, event) =>
              Ret (Some (set_raw (set_key event escape) (take 1 pending), drop 1 pending))
          end
      end
    else deliver_escape
  else if (c <? 0x20) || (c =? 0x7f) then Ret (Some (parse_control c key_event, drop 1 pending))
  else Ret (parse_utf8 pending key_event).

(** The events of [feed] and the bytes left pending; [None] is out of fuel. *)
Fixpoint feed_loop (fuel : nat) (pending : bytes) : option (result undefined (list KeyEvent * bytes)) :=
  match fuel with
  | O => None
  | S fuel' =>
      match pending with
      | [] => Some (Ret ([], []))
      | _ =>
          match feed_step pending with
          | Throw e => Some (Throw e)
          | Ret None => Some (Ret ([], pending))
          | Ret (Some (event, pending')) =>
              match feed_loop fuel' pending' with
              | Some (Ret (events, rest)) => Some (Ret (event :: events, rest))
              | r => r
              end
          end
      end
  end.

(** Every turn takes at least a byte. *)
Definition feed (pending bytes : bytes) : option (result undefined (list KeyEvent * list Z)) :=
  let pending := pending ++ bytes in feed_loop (S (length pending)) pending.

Definition flush_event (c : Z) : KeyEvent :=
  if c =? 0x1b then set_raw (set_key key_event escape) [c]
  else if (c <? 0x20) || (c =? 0x7f) then parse_control c key_event
  else set_raw (set_key key_event unknown) [c].

(** The events of [flush]; nothing stays pending. *)
Fixpoint flush (pending : bytes) : list KeyEvent :=
  match pending with
  | [] => []
  | c :: pending' => flush_event c :: flush pending'
  end.

Definition has_pending (pending : bytes) : bool := negb (bool_decide (pending = [])).

(** ** One turn of the loop *)

(** A parsed sequence keeps the raw bytes it was given. *)
Definition keeps_raw (r : bytes) (c : csi) : Prop :=
  ∀ res ev, c = Ret (res, ev) → res ≠ incomplete ∧ (res = parsed → raw ev = r).

Lemma keeps_invalid r ev : keeps_raw r (Ret (invalid, ev)).
Proof. by intros ? ? [= <- <-]. Qed.

Lemma keeps_bind {A} r (m : result undefined A) (k : A → csi) :
  (∀ a, keeps_raw r (k a)) → keeps_raw r (bind m k).
Proof. intros Hk res ev H. apply bind_ret in H as (a & _ & Ha). by apply (Hk a). Qed.

Lemma keeps_alternate r parts i set ev k : raw ev = r → (∀ e cp, raw (set e cp) = raw e) →
  (∀ e, raw e = r → keeps_raw r (k e)) → keeps_raw r (alternate parts i set ev k).
Proof.
  intros He Hset Hk. unfold alternate. destruct (nth i parts []); [by apply Hk|].
  apply keeps_bind. intros [cp|]; [|apply keeps_invalid]. apply Hk. by rewrite Hset.
Qed.

Lemma keeps_modifiers r params ev k : raw ev = r →
  (∀ e, raw e = r → keeps_raw r (k e)) → keeps_raw r (modifiers params ev k).
Proof.
  intros He Hk. unfold modifiers. destruct (_ <? _)%nat; [by apply Hk|].
  apply keeps_bind. intros m. destruct (nth 1 _ []); [apply Hk; by destruct m|].
  apply keeps_bind. intros [t|]; [|apply keeps_invalid]. apply Hk. by destruct m.
Qed.

Lemma keeps_text r params ev k : raw ev = r →
  (∀ e, raw e = r → keeps_raw r (k e)) → keeps_raw r (associated_text params ev k).
Proof.
  intros He Hk. unfold associated_text. destruct (_ <? _)%nat; [by apply Hk|].
  destruct (first_nonempty _); [by apply Hk|].
  apply keeps_bind. intros [t|]; [|apply keeps_invalid]. by apply Hk.
Qed.

Lemma keeps_finish r command first ev : raw ev = r → keeps_raw r (finish command first ev).
Proof.
  intros He res ev'. unfold finish. repeat case_match; intros [= <- <-]; done.
Qed.

Lemma parse_csi_raw s i ev : keeps_raw (take (i + 1) s) (parse_csi s i ev).
Proof.
  unfold parse_csi, decode_csi. destruct (match take _ _ with [] => _ | _ => _ end); [apply keeps_invalid|].
  destruct (_ && _).
  { apply keeps_bind. intros row. apply keeps_bind. intros col.
    destruct row, col; try apply keeps_invalid. destruct (_ || _); [apply keeps_invalid|].
    by intros ? ? [= <- <-]. }
  apply keeps_bind. intros first. destruct (_ && _); [apply keeps_invalid|].
  apply keeps_alternate; [done|done|]. intros. apply keeps_alternate; [done|done|]. intros.
  apply keeps_modifiers; [done|]. intros. apply keeps_text; [done|]. intros. by apply keeps_finish.
Qed.

Lemma parse_csi_app s t i ev : (2 ≤ i)%nat → (i < length s)%nat →
  parse_csi (s ++ t) i ev = parse_csi s i ev.
Proof.
  intros H2 Hi. unfold parse_csi.
  rewrite (take_app_le s t), (drop_app_le s t), (take_app_le (drop 2 s)), app_nth1 by len. done.
Qed.

Lemma find_final_range s : ∀ i e, find_final i s = Some e → (i ≤ e < i + length s)%nat.
Proof.
  induction s as [|b s IH]; intros i e; cbn [find_final length]; [done|].
  destruct (_ && _); [intros [= <-]; lia|]. intros H%IH. lia.
Qed.

Lemma find_final_app s t : ∀ i e, find_final i s = Some e → find_final i (s ++ t) = Some e.
Proof.
  induction s as [|b s IH]; intros i e; cbn [find_final app]; [done|].
  destruct (_ && _); [done|]. apply IH.
Qed.

Lemma parse_control_raw c : raw (parse_control c key_event) = [c].
Proof. unfold parse_control. repeat case_match; done. Qed.

Lemma utf8_lead_len c len cp : utf8_lead c = Some (len, cp) → (1 ≤ len ≤ 4)%nat.
Proof. unfold utf8_lead. repeat case_match; intros [= <- <-]; lia. Qed.

(** What a turn that delivers an event does: the event's raw bytes are the
    front of the pending bytes, the rest stays, and bytes that arrive later
    would have changed nothing. *)
Lemma feed_step_some s e s' : s ≠ [] → feed_step s = Ret (Some (e, s')) →
  s = raw e ++ s' ∧ raw e ≠ [] ∧ ∀ t, feed_step (s ++ t) = Ret (Some (e, s' ++ t)).
Proof.
  destruct s as [|c s]; intros Hne H; [done|]. revert H. unfold feed_step.
  cbn [nth app length]. destruct (c =? 0x1b).
  - destruct s as [|c' s]; [done|]. cbn [nth length Nat.eqb app].
    destruct (c' =? ch "["); [|by intros [= <- <-]].
    change (drop 2 (c :: c' :: s)) with s. destruct (find_final 2 s) as [i|] eqn:Hf; [|done].
    pose proof (find_final_range _ _ _ Hf) as Hi.
    assert (Hr : ∀ t, take (i + 1) ((c :: c' :: s) ++ t) = take (i + 1) (c :: c' :: s))
      by (intros; rewrite take_app_le by len; done).
    assert (Hd : ∀ t, drop (i + 1) ((c :: c' :: s) ++ t) = drop (i + 1) (c :: c' :: s) ++ t)
      by (intros; rewrite drop_app_le by len; done).
    assert (take (i + 1) (c :: c' :: s) ≠ []) as Hne' by (rewrite Nat.add_comm; done).
    pose proof (parse_csi_raw (c :: c' :: s) i key_event) as Hk. intros H.
    apply bind_ret in H as ([res ev] & Hp & H). destruct (Hk _ _ Hp) as [Hinc Hraw].
    assert (∀ t, parse_csi (c :: c' :: s ++ t) i key_event = Ret (res, ev)) as Hp'
      by (intros t; rewrite <- Hp; apply (parse_csi_app (c :: c' :: s)); cbn; lia).
    destruct res; [done| |]; injection H as <- <-; cbn [raw set_raw].
    + rewrite Hraw by done. split; [by rewrite take_drop|]. split; [done|]. intros t.
      change (drop 2 (c :: c' :: s ++ t)) with (s ++ t). rewrite (find_final_app s t 2 i Hf), Hp'. cbn [bind]. by rewrite <- Hd.
    + split; [by rewrite take_drop|]. split; [done|]. intros t.
      change (drop 2 (c :: c' :: s ++ t)) with (s ++ t). rewrite (find_final_app s t 2 i Hf), Hp'. cbn [bind]. by rewrite <- Hd, <- (Hr t).
  - destruct (_ || _); [intros [= <- <-]; by rewrite parse_control_raw|].
    unfold parse_utf8. cbn [nth]. destruct (utf8_lead c) as [[len cp]|] eqn:Hl; [|by intros [= <- <-]].
    apply utf8_lead_len in Hl. destruct (Nat.ltb_spec (length (c :: s)) len) as [|Hlen]; [done|].
    assert (∀ t, (length (c :: s ++ t) <? len)%nat = false) as Hlt
      by (intros; apply Nat.ltb_ge; len).
    assert (∀ t, take (len - 1) (s ++ t) = take (len - 1) s) as Ht
      by (intros; rewrite take_app_le by len; done).
    change (drop 1 (c :: s)) with s.
    destruct (utf8_tail _ _) as [cp'|] eqn:Hu; intros [= <- <-]; cbn [raw set_raw].
    + split; [by rewrite take_drop|]. split; [by destruct len; [lia|]|]. intros t.
      change (drop 1 (c :: s ++ t)) with (s ++ t). rewrite Hlt, Ht, Hu. rewrite (take_app_le (c :: s) t), (drop_app_le (c :: s) t) by len. done.
    + split; [done|]. split; [done|]. intros t.
      change (drop 1 (c :: s ++ t)) with (s ++ t). by rewrite Hlt, Ht, Hu.
Qed.

Lemma feed_step_throw s e t : s ≠ [] → feed_step s = Throw e → feed_step (s ++ t) = Throw e.
Proof.
  destruct s as [|c s]; intros Hne H; [done|]. revert H. unfold feed_step.
  cbn [nth app length]. destruct (c =? 0x1b); [|by destruct (_ || _)].
  destruct s as [|c' s]; [done|]. cbn [nth length Nat.eqb app].
  destruct (c' =? ch "["); [|done].
  change (drop 2 (c :: c' :: s)) with s. change (drop 2 (c :: c' :: s ++ t)) with (s ++ t).
  destruct (find_final 2 s) as [i|] eqn:Hf; [|done].
  pose proof (find_final_range _ _ _ Hf) as Hi. rewrite (find_final_app s t 2 i Hf).
  intros [H|([res ev] & _ & H)]%bind_throw; [|by destruct res].
  change (c :: c' :: s ++ t) with ((c :: c' :: s) ++ t).
  rewrite (parse_csi_app (c :: c' :: s)) by (cbn; lia). by rewrite H.
Qed.

(** ** The loop *)

(** [feed] on its pending bytes. *)
Definition feed_all (s : bytes) : option (result undefined (list KeyEvent * bytes)) :=
  feed_loop (S (length s)) s.

Lemma feed_loop_fuel fuel : ∀ s, (length s < fuel)%nat → feed_loop fuel s = feed_all s.
Proof.
  unfold feed_all. induction fuel as [fuel IH] using lt_wf_ind. intros s Hf.
  destruct fuel as [|fuel]; [lia|]. cbn [feed_loop]. destruct s as [|c s]; [done|].
  destruct (feed_step (c :: s)) as [[[e s']|]|] eqn:Hs; [|done|done].
  destruct (feed_step_some (c :: s) e s') as (Heq & Hne & _); [done|done|].
  assert (length s' < length (c :: s))%nat.
  { rewrite Heq. destruct (raw e); [done|]. len. }
  assert (feed_loop fuel s' = feed_loop (length (c :: s)) s') as ->; [|done].
  rewrite (IH fuel), (IH (length (c :: s))) by (cbn in *; lia). done.
Qed.

Lemma feed_all_step s e s' : s ≠ [] → feed_step s = Ret (Some (e, s')) →
  feed_all s = match feed_all s' with
               | Some (Ret (events, rest)) => Some (Ret (e :: events, rest))
               | r => r
               end.
Proof.
  intros Hne Hs. unfold feed_all at 1. cbn [feed_loop]. destruct s as [|c s]; [done|].
  rewrite Hs. destruct (feed_step_some (c :: s) e s') as (Heq & Hr & _); [done|done|].
  rewrite feed_loop_fuel; [done|]. rewrite Heq. destruct (raw e); [done|]. len.
Qed.

Lemma feed_all_stop s : s ≠ [] → feed_step s = Ret None → feed_all s = Some (Ret ([], s)).
Proof. intros Hne Hs. unfold feed_all. cbn [feed_loop]. destruct s; [done|]. by rewrite Hs. Qed.

Lemma feed_all_throw s e : s ≠ [] → feed_step s = Throw e → feed_all s = Some (Throw e).
Proof. intros Hne Hs. unfold feed_all. cbn [feed_loop]. destruct s; [done|]. by rewrite Hs. Qed.

(** Bytes that one turn uses up. *)
Lemma feed_one s e : s ≠ [] → feed_step s = Ret (Some (e, [])) → feed [] s = Some (Ret ([e], [])).
Proof.
  intros Hne Hs. unfold feed. cbn [app]. fold (feed_all s). by rewrite (feed_all_step _ _ _ Hne Hs).
Qed.

(** Induction over the turns of the loop. *)
Lemma feed_ind (P : bytes → Prop) :
  P [] →
  (∀ s, s ≠ [] → feed_step s = Ret None → P s) →
  (∀ s e, s ≠ [] → feed_step s = Throw e → P s) →
  (∀ s e s', s ≠ [] → feed_step s = Ret (Some (e, s')) → s = raw e ++ s' → raw e ≠ [] → P s' → P s) →
  ∀ s, P s.
Proof.
  intros Hnil Hstop Hthrow Hstep s. remember (length s) as n eqn:Hn. revert s Hn.
  induction n as [n IH] using lt_wf_ind. intros s ->. destruct s as [|c s]; [done|].
  destruct (feed_step (c :: s)) as [[[e s']|]|e] eqn:Hs;
    [|by apply Hstop|by apply (Hthrow _ e)].
  destruct (feed_step_some (c :: s) e s') as (Heq & Hr & _); [done|done|].
  apply (Hstep _ e s'); try done. eapply IH; [|done].
  rewrite Heq. destruct (raw e); [done|]. len.
Qed.

(** ** No undefined behaviour without long numbers *)

(** No run of more than 18 digits. *)
Definition short_runs (s : bytes) : Prop :=
  ∀ a ds b, s = a ++ ds ++ b → Forall (λ c, is_digit c = true) ds → (length ds ≤ 18)%nat.

Definition infix (p s : bytes) : Prop := ∃ a b, s = a ++ p ++ b.

Lemma short_infix p s : infix p s → short_runs s → short_runs p.
Proof.
  intros (a & b & ->) Hs a' ds b' -> Hds. apply (Hs (a ++ a') ds (b' ++ b)); [|done].
  by rewrite <- !app_assoc.
Qed.

Lemma infix_refl s : infix s s.
Proof. exists [], []. by rewrite app_nil_r. Qed.

Lemma infix_trans a b c : infix a b → infix b c → infix a c.
Proof. intros (x1 & y1 & ->) (x2 & y2 & ->). exists (x2 ++ x1), (y1 ++ y2). by rewrite <- !app_assoc. Qed.

Lemma infix_take n s : infix (take n s) s.
Proof. exists [], (drop n s). by rewrite app_nil_l, take_drop. Qed.

Lemma infix_drop n s : infix (drop n s) s.
Proof. exists (take n s), []. by rewrite app_nil_r, take_drop. Qed.

Lemma split_infix sep s : Forall (λ p, infix p s) (split s sep) ∧ split s sep ≠ [] ∧
  ∀ p ps, split s sep = p :: ps → ∃ b, s = p ++ b.
Proof.
  induction s as [|c s (IH & Hne & Hp)]; cbn [split].
  - split; [apply Forall_singleton, infix_refl|]. split; [done|]. intros p ps [= <- <-]. by exists [].
  - assert (∀ p, infix p s → infix p (c :: s)) as Hc.
    { intros p Hi. eapply infix_trans; [done|]. by exists [c], []; rewrite app_nil_r. }
    destruct (c =? sep).
    + split; [|split; [done|]].
      * constructor; [by exists [], (c :: s)|]. eapply Forall_impl; [exact IH|done].
      * intros p ps [= <- <-]. by eexists.
    + destruct (split s sep) as [|p ps] eqn:Hs; [done|]. destruct (Hp p ps eq_refl) as [b ->].
      split; [|split; [done|]].
      * apply Forall_cons in IH as [_ IH]. constructor; [by exists [], b|]. eapply Forall_impl; [exact IH|done].
      * intros p' ps' [= <- <-]. by exists b.
Qed.

Lemma nth_split_infix sep s i : infix (nth i (split s sep) []) s.
Proof.
  destruct (split_infix sep s) as [H _]. destruct (nth_in_or_default i (split s sep) []) as [Hi|Hi].
  - rewrite Forall_forall in H. by apply H, list_elem_of_In.
  - rewrite Hi. by exists [], s.
Qed.

(** A computation that stays defined. *)
Definition defined {A} (m : result undefined A) : Prop := ∃ a, m = Ret a.

Lemma defined_ret {A} (a : A) : defined (Ret a).
Proof. by eexists. Qed.

Lemma defined_bind {A B} (m : result undefined A) (k : A → result undefined B) :
  defined m → (∀ a, m = Ret a → defined (k a)) → defined (bind m k).
Proof. intros [a ->] Hk. by apply Hk. Qed.

#[local] Hint Resolve defined_ret : core.

Lemma number_loop_defined text : ∀ v k, 0 ≤ v < 10 ^ Z.of_nat k → (k ≤ 18)%nat →
  (∀ ds b, text = ds ++ b → Forall (λ c, is_digit c = true) ds → (k + length ds ≤ 18)%nat) →
  defined (parse_number_loop v text).
Proof.
  induction text as [|c text IH]; intros v k Hv Hk Hds; cbn [parse_number_loop]; [done|].
  destruct (_ || _) eqn:Hc; [done|]. change (ch "0") with 48 in *. change (ch "9") with 57 in *.
  assert (is_digit c = true) as Hd by (unfold is_digit; lia).
  pose proof (Hds [c] text eq_refl ltac:(by repeat constructor)) as Hk1. cbn [length] in Hk1.
  assert (10 ^ Z.of_nat k ≤ 10 ^ 17) by (apply Z.pow_le_mono_r; lia).
  assert (∀ x, 0 ≤ x < 2 ^ 63 → long x = Ret x) as Hl.
  { intros x Hx. unfold long, in_long.
    by destruct (Z.leb_spec (-2^63) x), (Z.ltb_spec x (2^63)); try lia. }
  rewrite (Hl (v * 10)) by lia. cbn [bind]. rewrite Hl by lia. cbn [bind].
  apply (IH _ (S k)).
  - rewrite Nat2Z.inj_succ, Z.pow_succ_r by lia. lia.
  - lia.
  - intros ds b -> Hf. specialize (Hds (c :: ds) b eq_refl ltac:(by constructor)). len.
Qed.

Lemma parse_number_defined text : short_runs text → defined (parse_number text).
Proof.
  intros Hs. unfold parse_number. destruct text as [|c text]; [done|].
  apply (number_loop_defined _ 0 0); [lia|lia|]. intros ds b Heq Hd. by apply (Hs [] ds b).
Qed.

Lemma parse_codepoint_defined text : short_runs text → defined (parse_codepoint text).
Proof.
  intros Hs. apply defined_bind; [by apply parse_number_defined|]. intros [v|] _; [|done].
  repeat case_match; done.
Qed.

Lemma parse_text_defined text : short_runs text → defined (parse_associated_text text).
Proof.
  intros Hs. unfold parse_associated_text. destruct text as [|c t] eqn:Ht; [done|]. rewrite <- Ht in *.
  assert (Forall short_runs (split text (ch ":"))) as Hp.
  { destruct (split_infix (ch ":") text) as [Hi _]. eapply Forall_impl; [exact Hi|].
    intros p Hpi. exact (short_infix _ _ Hpi Hs). }
  generalize (@nil Z). induction Hp as [|p ps Hp Hps IH]; intros out; cbn [parse_text_parts]; [done|].
  apply defined_bind; [by apply parse_codepoint_defined|]. intros [cp|] _; [|done]. apply IH.
Qed.

Lemma alternate_defined parts i set ev k : short_runs (nth i parts []) →
  (∀ e, defined (k e)) → defined (alternate parts i set ev k).
Proof.
  intros Hs Hk. unfold alternate. destruct (nth i parts []) as [|c p]; [done|].
  apply defined_bind; [by apply parse_codepoint_defined|]. intros [cp|] _; done.
Qed.

Lemma first_nonempty_nth ps : ∃ i, first_nonempty ps = nth i ps [].
Proof.
  induction ps as [|p ps [i IH]]; [by exists 0%nat|]. destruct p; [by exists (S i)|by exists 0%nat].
Qed.

Lemma parse_csi_defined s i ev : short_runs s → defined (parse_csi s i ev).
Proof.
  intros Hs. unfold parse_csi, decode_csi.
  assert (short_runs (take (i - 2) (drop 2 s))) as Hb.
  { eapply short_infix; [|done]. eapply infix_trans; [apply infix_take|apply infix_drop]. }
  set (body := take (i - 2) (drop 2 s)) in *. set (params := split body (ch ";")).
  assert (∀ j, short_runs (nth j params [])) as Hp by (intros; eapply short_infix; [apply nth_split_infix|done]).
  assert (∀ j k, short_runs (nth k (split (nth j params []) (ch ":")) [])) as Hpp
    by (intros; eapply short_infix; [apply nth_split_infix|done]).
  destruct (match body with [] => _ | _ => _ end); [done|]. destruct (_ && _).
  { apply defined_bind; [by apply parse_number_defined|]. intros row _.
    apply defined_bind; [by apply parse_number_defined|]. intros col _. repeat case_match; done. }
  assert (match params with [] => [] | p :: _ => split p (ch ":") end = split (nth 0 params []) (ch ":")) as Hk.
  { destruct params eqn:He; [|done]. by destruct (split_infix (ch ";") body) as (_ & ? & _). }
  rewrite Hk. apply defined_bind.
  { specialize (Hpp 0 0)%nat. destruct (nth 0 (split _ _) []); [done|]. by apply parse_codepoint_defined. }
  intros first _. destruct (_ && _); [done|].
  apply alternate_defined; [done|]. intros e1. apply alternate_defined; [done|]. intros e2.
  unfold modifiers. assert (∀ e, defined (associated_text params e (finish (nth i s 0) first))) as Ht.
  { intros e. unfold associated_text. destruct (_ <? _)%nat; [unfold finish; repeat case_match; done|].
    destruct (first_nonempty_nth (drop 2 params)) as [j Hj].
    destruct (first_nonempty (drop 2 params)) eqn:Hf; [unfold finish; repeat case_match; done|].
    apply defined_bind.
    - apply parse_text_defined. rewrite Hj, nth_skipn. apply Hp.
    - intros [t|] _; [|done]. unfold finish; repeat case_match; done. }
  destruct (_ <? _)%nat; [done|]. apply defined_bind; [by apply parse_number_defined|]. intros m _.
  specialize (Hpp 1 1)%nat. destruct (nth 1 (split _ _) []); [by destruct m|].
  apply defined_bind; [by apply parse_number_defined|]. intros [t|] _; done.
Qed.

Lemma feed_step_defined s : short_runs s → defined (feed_step s).
Proof.
  intros Hs. unfold feed_step. destruct (_ =? _); [|destruct (_ || _); done].
  destruct (_ =? _)%nat; [done|]. destruct (_ =? _); [|done]. destruct (find_final _ _); [|done].
  apply defined_bind; [by apply parse_csi_defined|]. intros [[] ev] _; done.
Qed.

(** ** The claims *)

(** every byte read from the terminal is accounted for, once: the raw bytes
    of the delivered events, in order, followed by the bytes held back, are the
    bytes that were pending followed by the bytes fed; every event accounts for
    at least one byte, the loop ends, and no number overflows a [long] unless
    the input has a run of more than 18 digits. *)
Theorem feed_accounts pending bytes :
  ∃ r, feed pending bytes = Some r ∧
    (short_runs (pending ++ bytes) → defined r) ∧
    ∀ events rest, r = Ret (events, rest) →
      concat (raw <$> events) ++ rest = pending ++ bytes ∧ Forall (λ e, raw e ≠ []) events.
Proof.
  unfold feed. fold (feed_all (pending ++ bytes)). generalize (pending ++ bytes) as s.
  apply feed_ind.
  - eexists. split; [done|]. split; [done|]. by intros ? ? [= <- <-].
  - intros s Hne Hs. eexists. split; [by apply feed_all_stop|]. split; [done|]. by intros ? ? [= <- <-].
  - intros s e Hne Hs. eexists. split; [by apply feed_all_throw|]. split; [|done].
    intros Hr. destruct (feed_step_defined s Hr). congruence.
  - intros s e s' Hne Hs Heq Hr (r & IH & Hdef & Hacc).
    rewrite (feed_all_step _ _ _ Hne Hs), IH. destruct r as [[events rest]|u].
    + eexists. split; [done|]. split; [done|]. intros ? ? [= <- <-].
      destruct (Hacc _ _ eq_refl) as [Hc Hf]. split; [|by constructor].
      rewrite fmap_cons. cbn [concat]. by rewrite <- app_assoc, Hc.
    + eexists. split; [done|]. split; [|done]. intros Hsr. apply Hdef.
      eapply short_infix; [|done]. rewrite Heq. exists (raw e), []. by rewrite app_nil_r.
Qed.

(** C30: how the terminal's bytes are cut into reads does not matter: feeding two
    pieces delivers the events, and holds back the bytes, that feeding them at
    once does, even when the cut falls inside an escape sequence or a UTF-8
    character. *)
Theorem feed_chunking pending a b :
  feed pending (a ++ b) =
  match feed pending a with
  | Some (Ret (events, rest)) =>
      match feed rest b with
      | Some (Ret (more, rest')) => Some (Ret (events ++ more, rest'))
      | r => r
      end
  | r => r
  end.
Proof.
  unfold feed. rewrite app_assoc. fold (feed_all ((pending ++ a) ++ b)) (feed_all (pending ++ a)).
  generalize (pending ++ a) as s. apply feed_ind.
  - change (feed_all []) with (Some (@Ret undefined _ (@nil KeyEvent, @nil Z))).
    cbn [app]. fold (feed_all b). by destruct (feed_all b) as [[[]|]|].
  - intros s Hne Hs. rewrite (feed_all_stop s) by done. fold (feed_all (s ++ b)).
    by destruct (feed_all (s ++ b)) as [[[]|]|].
  - intros s e Hne Hs. rewrite (feed_all_throw s e) by done.
    rewrite (feed_all_throw (s ++ b) e); [done|by destruct s|by apply feed_step_throw].
  - intros s e s' Hne Hs Heq Hr IH. rewrite (feed_all_step _ _ _ Hne Hs).
    destruct (feed_step_some s e s' Hne Hs) as (_ & _ & Happ).
    assert (s ++ b ≠ []) as Hne' by (by destruct s).
    rewrite (feed_all_step _ _ _ Hne' (Happ b)), IH.
    destruct (feed_all s') as [[[ev rest]|]|]; [|done|done].
    fold (feed_all (rest ++ b)). by destruct (feed_all (rest ++ b)) as [[[]|]|].
Qed.

(** ** Typed text *)

Lemma utf8_lead_arith b : is_byte b →
  utf8_lead b =
  if b <? 128 then Some (1%nat, b) else if b <? 192 then None
  else if b <? 224 then Some (2%nat, b - 192) else if b <? 240 then Some (3%nat, b - 224)
  else if b <? 248 then Some (4%nat, b - 240) else None.
Proof.
  intros Hb. apply (bool_decide_eq_true_1 _). revert b Hb. apply all_bytes_spec.
  vm_compute. reflexivity.
Qed.

Lemma utf8_tail_cons v b bs : is_byte b → is_cont b → 0 ≤ v < 2 ^ 21 →
  utf8_tail v (b :: bs) = utf8_tail (v * 64 + (b - 128)) bs.
Proof.
  intros Hb Hc Hv. cbn [utf8_tail]. unfold valid_utf8_cont.
  rewrite (proj2 (cont_test b Hb) Hc). cbn [negb]. by rewrite join_add.
Qed.

(** The event of a typed character. *)
Definition text_event (cp : Z) : KeyEvent :=
  MkKeyEvent character press no_mods cp None None (encode_utf8 cp) (encode_utf8 cp) None.

Ltac tail_cont := rewrite utf8_tail_cons by enc_lia.

Lemma parse_utf8_encode cp rest : scalar cp →
  parse_utf8 (encode_utf8 cp ++ rest) key_event = Some (text_event cp, rest).
Proof.
  intros Hs. unfold text_event.
  assert (∃ len v, utf8_lead (nth 0 (encode_utf8 cp) 0) = Some (len, v) ∧
    length (encode_utf8 cp) = len ∧ utf8_tail v (drop 1 (encode_utf8 cp)) = Some cp)
    as (len & v & Hl & Hlen & Ht).
  { pose proof (encode_bytes cp Hs) as Hb. rewrite encode_utf8_arith in * by done.
    destruct Hs as [Hr Hsur].
    destruct (Z.leb_spec cp 0x7f); [|destruct (Z.leb_spec cp 0x7ff); [|destruct (Z.leb_spec cp 0xffff)]];
      split_Forall; cbn [nth]; rewrite utf8_lead_arith by enc_lia;
      repeat match goal with |- context [?a <? ?b] => destruct (Z.ltb_spec a b); try (enc_lia) end;
      (do 2 eexists; split; [reflexivity|]; split; [reflexivity|]).
    - reflexivity.
    - cbn [drop]. tail_cont. cbn [utf8_tail]. f_equal. enc_lia.
    - cbn [drop]. do 2 tail_cont. cbn [utf8_tail]. f_equal. enc_lia.
    - cbn [drop]. do 3 tail_cont. cbn [utf8_tail]. f_equal. enc_lia. }
  unfold parse_utf8. pose proof (encode_nonempty cp) as Hne.
  rewrite app_nth1 by (destruct (encode_utf8 cp); [done|cbn; lia]). rewrite Hl.
  destruct (Nat.ltb_spec (length (encode_utf8 cp ++ rest)) len); [len|].
  rewrite drop_app_le, take_app_le, (take_ge (drop 1 _)) by (destruct (encode_utf8 cp); [done|len]).
  rewrite Ht, <- Hlen, take_app_length, drop_app_length. done.
Qed.

(** Bytes that start a character and not a control code. *)
Definition typed (cp : Z) : Prop := scalar cp ∧ 0x20 ≤ cp ∧ cp ≠ 0x7f.

Lemma encode_head cp : scalar cp →
  nth 0 (encode_utf8 cp) 0 = cp ∧ cp < 0x80 ∨ 0xc0 ≤ nth 0 (encode_utf8 cp) 0.
Proof.
  intros Hs. rewrite encode_utf8_arith by done. destruct Hs as [Hr _].
  destruct (Z.leb_spec cp 0x7f); [left; cbn; lia|right].
  destruct (Z.leb_spec cp 0x7ff); [|destruct (Z.leb_spec cp 0xffff)]; cbn [nth]; enc_lia.
Qed.

Lemma feed_step_text cp rest : typed cp →
  feed_step (encode_utf8 cp ++ rest) = Ret (Some (text_event cp, rest)).
Proof.
  intros (Hs & Hc & Hd). unfold feed_step. rewrite parse_utf8_encode by done.
  pose proof (encode_nonempty cp) as Hne. pose proof (encode_head cp Hs) as Hh.
  rewrite app_nth1 by (destruct (encode_utf8 cp); [done|cbn; lia]).
  destruct (Z.eqb_spec (nth 0 (encode_utf8 cp) 0) 0x1b); [lia|].
  by destruct (Z.ltb_spec (nth 0 (encode_utf8 cp) 0) 0x20),
    (Z.eqb_spec (nth 0 (encode_utf8 cp) 0) 0x7f); try lia.
Qed.

(** typed or pasted text arrives as it was typed: the UTF-8 bytes of any
    characters that are not control codes give exactly one text event per
    character, in order, each with its code point and its bytes as the text to
    insert, and nothing is held back. *)
Theorem feed_text cps : Forall typed cps →
  feed [] (cps ≫= encode_utf8) = Some (Ret (text_event <$> cps, [])) ∧
  Forall (λ e, is_text e = true) (text_event <$> cps).
Proof.
  intros Ht. unfold feed. cbn [app]. fold (feed_all (cps ≫= encode_utf8)). split.
  - induction Ht as [|cp cps Hcp Hcps IH]; [done|]. cbn [mbind list_bind].
    rewrite (feed_all_step _ (text_event cp) (cps ≫= encode_utf8)); [|..|by apply feed_step_text].
    + by rewrite IH.
    + pose proof (encode_nonempty cp). by destruct (encode_utf8 cp).
  - apply Forall_fmap, Forall_true. intros cp. unfold is_text. cbn.
    by destruct (encode_utf8 cp) eqn:He; [destruct (encode_nonempty cp)|].
Qed.

Lemma feed_text_witness :
  feed [] (str "h" ++ [0xc3; 0xa9] ++ [0xf0; 0x9f; 0x99; 0x82]) =
  Some (Ret ([text_event 104; text_event 0xe9; text_event 0x1f642], [])).
Proof.
  apply (feed_text [104; 0xe9; 0x1f642]). repeat constructor; unfold typed, scalar; lia.
Defined.

(** ** Key reports *)

Lemma fold_dec_ge ds : ∀ v, 0 ≤ v → Forall (λ c, is_digit c = true) ds →
  v ≤ foldl (λ v d, v * 10 + (d - 48)) v ds.
Proof.
  induction ds as [|d ds IH]; intros v Hv Hd; cbn [foldl]; [lia|]. split_Forall.
  unfold is_digit in *. specialize (IH (v * 10 + (d - 48)) ltac:(lia) Hd). lia.
Qed.

Lemma number_loop_digits ds : ∀ v, 0 ≤ v → Forall (λ c, is_digit c = true) ds →
  foldl (λ v d, v * 10 + (d - 48)) v ds < 2 ^ 63 →
  parse_number_loop v ds = Ret (Some (foldl (λ v d, v * 10 + (d - 48)) v ds)).
Proof.
  induction ds as [|d ds IH]; intros v Hv Hd Hl; cbn [parse_number_loop foldl] in *; [done|].
  apply Forall_cons in Hd as [Hdd Hd]. unfold is_digit in Hdd.
  pose proof (fold_dec_ge ds (v * 10 + (d - 48)) ltac:(lia) Hd).
  change (ch "0") with 48. change (ch "9") with 57.
  destruct (Z.ltb_spec d 48), (Z.ltb_spec 57 d); try lia. cbn [orb].
  assert (∀ x, 0 ≤ x < 2 ^ 63 → long x = Ret x) as Hlong.
  { intros y Hy. unfold long, in_long.
    by destruct (Z.leb_spec (-2^63) y), (Z.ltb_spec y (2^63)); try lia. }
  rewrite (Hlong (v * 10)) by lia. cbn [bind]. rewrite Hlong by lia. cbn [bind].
  apply IH; [lia|done|done].
Qed.

Lemma parse_number_to_string n : 0 ≤ n < 2 ^ 63 → parse_number (to_string n) = Ret (Some n).
Proof.
  intros Hn. unfold parse_number. pose proof (to_string_nonempty n). pose proof (to_string_digits n ltac:(lia)).
  pose proof (to_string_value n ltac:(lia)) as Hv. unfold dec_value in Hv.
  destruct (to_string n) as [|c ds] eqn:He; [done|]. rewrite <- He in *.
  rewrite number_loop_digits; [by rewrite Hv|lia|done|lia].
Qed.

Lemma parse_codepoint_to_string cp : scalar cp → parse_codepoint (to_string cp) = Ret (Some cp).
Proof.
  intros [Hr Hs]. unfold parse_codepoint. rewrite parse_number_to_string by lia. cbn [bind].
  by destruct (Z.ltb_spec cp 0), (Z.ltb_spec 0x10ffff cp), (Z.leb_spec 0xd800 cp),
    (Z.leb_spec cp 0xdfff); try lia.
Qed.

Lemma split_none sep a : sep ∉ a → split a sep = [a].
Proof.
  induction a as [|c a IH]; intros Ha; [done|]. cbn [split]. apply not_elem_of_cons in Ha as [Hc Ha].
  destruct (Z.eqb_spec c sep); [congruence|]. by rewrite IH.
Qed.

Lemma split_cons sep a b : sep ∉ a → split (a ++ sep :: b) sep = a :: split b sep.
Proof.
  induction a as [|c a IH]; intros Ha; cbn [split app]; [by rewrite Z.eqb_refl|].
  apply not_elem_of_cons in Ha as [Hc Ha]. destruct (Z.eqb_spec c sep); [congruence|]. by rewrite IH.
Qed.

Lemma find_final_first s c t : ∀ i, Forall (λ b, (0x40 <=? b) && (b <=? 0x7e) = false) s →
  (0x40 <=? c) && (c <=? 0x7e) = true → find_final i (s ++ c :: t) = Some (i + length s)%nat.
Proof.
  induction s as [|b s IH]; intros i Hs Hc; cbn [find_final app length].
  - rewrite Hc. f_equal. lia.
  - apply Forall_cons in Hs as [Hb Hs]. rewrite Hb, IH by done. f_equal. lia.
Qed.

(** A control sequence on the wire. *)
Definition sequence (body : bytes) (command : Z) : bytes := [0x1b; ch "["] ++ body ++ [command].

(** What a complete sequence at the front of the pending bytes does. *)
Lemma feed_step_sequence body command rest :
  Forall (λ b, (0x40 <=? b) && (b <=? 0x7e) = false) body →
  (0x40 <=? command) && (command <=? 0x7e) = true →
  feed_step (sequence body command ++ rest) =
  let! r := decode_csi (sequence body command) body command key_event in
  match r with
  | (parsed, event) => Ret (Some (event, rest))
  | (invalid, event) => Ret (Some (set_raw (set_key event unknown) (sequence body command), rest))
  | (incomplete, event) =>
      Ret (Some (set_raw (set_key event escape) [0x1b], drop 1 (sequence body command ++ rest)))
  end.
Proof.
  intros Hb Hc. unfold feed_step, sequence. rewrite <- !app_assoc. cbn [app nth length].
  cbn [Nat.eqb]. rewrite !Z.eqb_refl.
  change (drop 2 (0x1b :: ch "[" :: body ++ command :: rest)) with (body ++ command :: rest).
  rewrite find_final_first by done. unfold parse_csi.
  replace (0x1b :: ch "[" :: body ++ command :: rest)
    with ((0x1b :: ch "[" :: body ++ [command]) ++ rest) by (cbn; by rewrite <- app_assoc).
  assert (length (0x1b :: ch "[" :: body ++ [command]) = (2 + length body + 1)%nat) as <- by len.
  rewrite take_app_length, drop_app_length.
  assert (take (2 + length body - 2) (drop 2 ((0x1b :: ch "[" :: body ++ [command]) ++ rest)) = body) as ->.
  { cbn [app]. replace (2 + length body - 2)%nat with (length body) by lia.
    change (drop 2 _) with ((body ++ [command]) ++ rest). by rewrite <- app_assoc, take_app_length. }
  assert (nth (2 + length body) ((0x1b :: ch "[" :: body ++ [command]) ++ rest) 0 = command) as ->.
  { cbn [app nth Nat.add]. rewrite <- app_assoc, app_nth2 by lia. by rewrite Nat.sub_diag. }
  done.
Qed.

(** A key report of the Kitty protocol. *)
Record report := MkReport {
  r_code : Z;
  r_shifted : option Z;
  r_base : option Z;
  r_mods : Modifiers;
  r_type : EventType;
  r_text : list Z;
}.

Definition mod_bits (m : Modifiers) : Z :=
  Z.b2z (shift m) + 2 * Z.b2z (alt m) + 4 * Z.b2z (ctrl m) + 8 * Z.b2z (super m)
  + 16 * Z.b2z (hyper m) + 32 * Z.b2z (meta m) + 64 * Z.b2z (caps_lock m) + 128 * Z.b2z (num_lock m).

Definition type_number (t : EventType) : Z :=
  match t with press => 1 | repeat_ => 2 | release => 3 end.

Fixpoint join (sep : Z) (ps : list bytes) : bytes :=
  match ps with
  | [] => []
  | [p] => p
  | p :: ps' => p ++ sep :: join sep ps'
  end.

(** [code:shifted:base ; modifiers:type ; text], the form a terminal sends. *)
Definition opt_number (o : option Z) : bytes := match o with Some n => to_string n | None => [] end.

Definition report_params (r : report) : list bytes :=
  [join (ch ":") [to_string (r_code r); opt_number (r_shifted r); opt_number (r_base r)];
   join (ch ":") [to_string (1 + mod_bits (r_mods r)); to_string (type_number (r_type r))];
   join (ch ":") (to_string <$> r_text r)].

Definition report_bytes (r : report) : bytes := sequence (join (ch ";") (report_params r)) (ch "u").

Definition valid_report (r : report) : Prop :=
  scalar (r_code r) ∧ (∀ cp, r_shifted r = Some cp → scalar cp) ∧
  (∀ cp, r_base r = Some cp → scalar cp) ∧ Forall scalar (r_text r).

(** The key a report names: text makes a character of a key that has no name. *)
Definition report_key (r : report) : Key :=
  match key_from_codepoint (r_code r), r_text r with
  | unknown, _ :: _ => character
  | k, _ => k
  end.

Definition report_event (r : report) : KeyEvent :=
  let inserted := match report_key r, r_text r with
                  | character, [] => encode_utf8 (r_code r)
                  | _, t => t ≫= encode_utf8
                  end in
  MkKeyEvent (report_key r) (r_type r) (r_mods r) (r_code r) (r_shifted r) (r_base r)
    inserted (report_bytes r) None.

Lemma decode_mod_bits m : decode_modifiers (1 + mod_bits m) = m.
Proof. by destruct m as [[] [] [] [] [] [] [] []]. Qed.

Lemma mod_bits_range m : 0 ≤ mod_bits m < 256.
Proof. destruct m as [[] [] [] [] [] [] [] []]; unfold mod_bits; cbn; lia. Qed.

(** Text of a parameter: digits and colons. *)
Definition param_char (c : Z) : Prop := is_digit c = true ∨ c = ch ":".

Lemma digit_not_sep c n : 0 ≤ n → is_digit c = false → c ∉ to_string n.
Proof.
  intros Hn Hc Hin. pose proof (to_string_digits n Hn) as Hd. rewrite Forall_forall in Hd.
  specialize (Hd c Hin). cbn in Hd. congruence.
Qed.

Lemma opt_number_sep c o : (∀ n, o = Some n → scalar n) → is_digit c = false → c ∉ opt_number o.
Proof.
  intros Ho Hc. destruct o as [n|]; [|by intros ?%elem_of_nil]. apply digit_not_sep; [|done].
  by destruct (Ho n eq_refl) as [[? ?] _].
Qed.

Lemma join_not_elem c sep ps : c ≠ sep → Forall (λ p, c ∉ p) ps → c ∉ join sep ps.
Proof.
  intros Hc. induction 1 as [|p ps Hp Hps IH]; cbn [join]; [by intros ?%elem_of_nil|].
  destruct ps; [done|]. rewrite not_elem_of_app, not_elem_of_cons. done.
Qed.

Lemma split_join sep ps : ps ≠ [] → Forall (λ p, sep ∉ p) ps → split (join sep ps) sep = ps.
Proof.
  intros Hne. induction 1 as [|p ps Hp Hps IH]; [done|]. cbn [join]. destruct ps as [|p' ps].
  - by apply split_none.
  - rewrite split_cons by done. by rewrite IH.
Qed.

Lemma text_parts_encode cps : ∀ out, Forall scalar cps →
  parse_text_parts out (to_string <$> cps) = Ret (Some (out ++ (cps ≫= encode_utf8))).
Proof.
  induction cps as [|cp cps IH]; intros out Hs; [by rewrite app_nil_r|].
  apply Forall_cons in Hs as [Hcp Hs]. rewrite fmap_cons. cbn [parse_text_parts mbind list_bind].
  rewrite parse_codepoint_to_string by done. cbn [bind].
  rewrite IH by done. by rewrite <- app_assoc.
Qed.

Lemma join_Forall (P : Z → Prop) sep ps : P sep → Forall (Forall P) ps → Forall P (join sep ps).
Proof.
  intros Hsep. induction 1 as [|p ps Hp Hps IH]; cbn [join]; [done|]. destruct ps; [done|].
  apply Forall_app. split; [done|]. by constructor.
Qed.

Lemma number_params n : 0 ≤ n → Forall param_char (to_string n).
Proof. intros Hn. eapply Forall_impl; [by apply to_string_digits|]. by left. Qed.

Lemma opt_params o : (∀ n, o = Some n → scalar n) → Forall param_char (opt_number o).
Proof. intros Ho. destruct o as [n|]; [|done]. apply number_params. by destruct (Ho n eq_refl) as [[? ?] _]. Qed.

Lemma report_params_chars r : valid_report r → Forall (Forall param_char) (report_params r).
Proof.
  intros (Hc & Hs & Hb & Ht). pose proof (mod_bits_range (r_mods r)).
  repeat constructor; (apply join_Forall; [by right|]).
  - repeat constructor; [apply number_params; by destruct Hc as [[? ?] _]|by apply opt_params|by apply opt_params].
  - repeat constructor; apply number_params; [lia|]. by destruct (r_type r).
  - apply Forall_fmap. eapply Forall_impl; [exact Ht|]. intros cp [[? ?] _]. by apply number_params.
Qed.

Lemma param_chars_plain ps : Forall (Forall param_char) ps →
  Forall (λ p, ch ";" ∉ p) ps ∧
  Forall (λ b, (0x40 <=? b) && (b <=? 0x7e) = false) (join (ch ";") ps).
Proof.
  intros Hp. split.
  - eapply Forall_impl; [exact Hp|]. intros p Hpc Hin. rewrite Forall_forall in Hpc.
    by destruct (Hpc _ Hin).
  - apply join_Forall; [done|]. eapply Forall_impl; [exact Hp|]. intros p Hpc.
    eapply Forall_impl; [exact Hpc|]. intros c [Hd| ->]; [|done]. unfold is_digit in Hd. lia.
Qed.

Lemma alternate_number parts i set ev k o : nth i parts [] = opt_number o →
  (∀ n, o = Some n → scalar n) →
  alternate parts i set ev k = k (match o with Some cp => set ev cp | None => ev end).
Proof.
  intros Hn Ho. unfold alternate. rewrite Hn. destruct o as [cp|]; [|done]. cbn [opt_number].
  pose proof (to_string_nonempty cp). destruct (to_string cp) as [|c ds] eqn:He; [done|].
  rewrite <- He, parse_codepoint_to_string; [done|]. by apply Ho.
Qed.

Lemma modifiers_number params ev k m t : (2 ≤ length params)%nat →
  nth 1 params [] = join (ch ":") [to_string (1 + mod_bits m); to_string (type_number t)] →
  modifiers params ev k = k (set_type (set_mods ev m) t).
Proof.
  intros Hl Hn. pose proof (mod_bits_range m). unfold modifiers.
  destruct (Nat.ltb_spec (length params) 2); [lia|].
  rewrite Hn, split_join; [|done|].
  2: { repeat constructor; apply digit_not_sep; try done; [lia|by destruct t]. }
  cbn [nth]. rewrite parse_number_to_string by lia. cbn [bind]. rewrite decode_mod_bits.
  assert (∃ c ds, to_string (type_number t) = c :: ds) as (c & ds & He)
    by (destruct t; by do 2 eexists).
  rewrite He, <- He, parse_number_to_string by (destruct t; cbn; lia). cbn [bind].
  by destruct t.
Qed.

Lemma text_number params ev k cps : length params = 3%nat →
  nth 2 params [] = join (ch ":") (to_string <$> cps) → Forall scalar cps → text ev = [] →
  associated_text params ev k = k (set_text ev (cps ≫= encode_utf8)).
Proof.
  intros Hl Hn Hs Htx. unfold associated_text. rewrite Hl. cbn [Nat.ltb Nat.leb].
  assert (first_nonempty (drop 2 params) = join (ch ":") (to_string <$> cps)) as ->.
  { destruct params as [|p0 [|p1 [|p2 [|]]]]; try done. cbn in *. subst p2.
    by destruct (join _ _). }
  destruct cps as [|cp cps].
  { cbn. unfold set_text. rewrite <- Htx. by destruct ev. }
  assert (split (join (ch ":") (to_string <$> cp :: cps)) (ch ":") = to_string <$> cp :: cps) as Hsp.
  { apply split_join; [done|]. apply Forall_fmap. eapply Forall_impl; [exact Hs|].
    intros n [[? ?] _]. by apply digit_not_sep. }
  unfold parse_associated_text.
  destruct (join (ch ":") (to_string <$> cp :: cps)) as [|c t] eqn:He.
  { exfalso. rewrite fmap_cons in He. cbn [join] in He. pose proof (to_string_nonempty cp).
    destruct (to_string <$> cps); [done|]. by apply app_eq_nil in He as [? _]. }
  rewrite Hsp, text_parts_encode by done. done.
Qed.

Lemma finish_report r rw :
  finish (ch "u") (Some (r_code r))
    (MkKeyEvent unknown (r_type r) (r_mods r) 0 (r_shifted r) (r_base r) (r_text r ≫= encode_utf8) rw None) =
  Ret (parsed, set_raw (report_event r) rw).
Proof.
  unfold finish. rewrite Z.eqb_refl. unfold report_event, report_key. cbn [default from_option id].
  destruct (r_text r) as [|cp t]; [by destruct (key_from_codepoint (r_code r))|].
  assert (∃ c s, (cp :: t) ≫= encode_utf8 = c :: s) as (c & s & ->).
  { cbn [mbind list_bind]. pose proof (encode_nonempty cp).
    destruct (encode_utf8 cp); [done|]. by do 2 eexists. }
  by destruct (key_from_codepoint (r_code r)).
Qed.

Lemma decode_report r rw : valid_report r →
  decode_csi rw (join (ch ";") (report_params r)) (ch "u") key_event =
  Ret (parsed, set_raw (report_event r) rw).
Proof.
  intros Hv. destruct (param_chars_plain _ (report_params_chars r Hv)) as [Hp _].
  pose proof (report_params_chars r Hv) as Hpc. destruct Hv as (Hc & Hs & Hb & Ht).
  unfold decode_csi. rewrite split_join by done.
  assert (match join (ch ";") (report_params r) with [] => false | c :: _ => c =? ch "<" end = false) as ->.
  { pose proof (join_Forall (λ c, c ≠ ch "<") (ch ";") (report_params r)) as H.
    destruct (join (ch ";") (report_params r)) as [|c s]; [done|]. apply Z.eqb_neq.
    enough (Forall (λ c, c ≠ ch "<") (c :: s)) as Hf by (by apply Forall_cons in Hf as [? _]).
    apply H; [done|]. eapply Forall_impl; [exact Hpc|]. intros p Hpp.
    eapply Forall_impl; [exact Hpp|]. intros c' [Hd|Hd] Heq; by rewrite Heq in Hd. }
  change ((ch "u" =? ch "R") && (length (report_params r) =? 2)%nat) with false. cbv match.
  set (parts := [to_string (r_code r); opt_number (r_shifted r); opt_number (r_base r)]).
  assert (match report_params r with [] => [] | p :: _ => split p (ch ":") end = parts) as ->.
  { unfold report_params. apply split_join; [done|]. repeat constructor.
    - apply digit_not_sep; [by destruct Hc as [[? ?] _]|done].
    - by apply opt_number_sep.
    - by apply opt_number_sep. }
  assert (match nth 0 parts [] with [] => Ret None | z :: l => parse_codepoint (z :: l) end
          = Ret (Some (r_code r))) as ->.
  { cbn [nth parts]. pose proof (to_string_nonempty (r_code r)).
    destruct (to_string (r_code r)) as [|c ds] eqn:He; [done|]. rewrite <- He.
    by apply parse_codepoint_to_string. }
  cbn [bind]. rewrite bool_decide_eq_true_2 by done. cbn [negb andb].
  rewrite (alternate_number parts 1 _ _ _ (r_shifted r)) by done.
  rewrite (alternate_number parts 2 _ _ _ (r_base r)) by done.
  rewrite (modifiers_number _ _ _ (r_mods r) (r_type r)); [|cbn; lia|done].
  rewrite (text_number _ _ _ (r_text r)); [|done|done|done|by destruct (r_shifted r), (r_base r)].
  rewrite <- finish_report. f_equal. by destruct (r_shifted r), (r_base r).
Qed.

(** a key report of the Kitty protocol is decoded exactly: whatever the
    code point, the alternate code points, the eight modifiers, the event type
    and the associated text, the bytes a terminal sends give one event with
    those fields, and nothing is held back. *)
Theorem feed_report r : valid_report r →
  feed [] (report_bytes r) = Some (Ret ([report_event r], [])).
Proof.
  intros Hv. destruct (param_chars_plain _ (report_params_chars r Hv)) as [Hp Hf].
  apply feed_one; [done|].
  unfold report_bytes. rewrite <- (app_nil_r (sequence _ _)), feed_step_sequence, app_nil_r by done.
  by rewrite decode_report.
Qed.

Lemma feed_report_witness :
  feed [] ([0x1b] ++ str "[97:65:;6:3;65u") =
  Some (Ret ([MkKeyEvent character release
    (MkMods true false true false false false false false) 97 (Some 65) None (str "A")
    ([0x1b] ++ str "[97:65:;6:3;65u") None], [])).
Proof.
  apply (feed_report (MkReport 97 (Some 65) None
    (MkMods true false true false false false false false) release [65])).
  split; [|split; [|split]]; cbn.
  - unfold scalar. lia.
  - intros ? [= <-]. unfold scalar. lia.
  - done.
  - repeat constructor; unfold scalar; lia.
Defined.

(** a cursor position report gives the position, counted from zero: [CSI
    row ; col R] sets the column to [col - 1] and the line to [row - 1]. *)
Theorem feed_cursor_report row col : 1 ≤ row < 2 ^ 63 → 1 ≤ col < 2 ^ 63 →
  let wire := sequence (join (ch ";") [to_string row; to_string col]) (ch "R") in
  feed [] wire =
  Some (Ret ([MkKeyEvent unknown press no_mods 0 None None [] wire (Some (MkPos (col - 1) (row - 1)))], [])).
Proof.
  intros Hr Hc wire. assert (Forall (Forall param_char) [to_string row; to_string col]) as Hp
    by (repeat constructor; apply number_params; lia).
  destruct (param_chars_plain _ Hp) as [Hsep Hf].
  apply feed_one; [done|]. unfold wire.
  rewrite <- (app_nil_r (sequence _ _)), feed_step_sequence, app_nil_r by done.
  unfold decode_csi. rewrite split_join by done.
  assert (match join (ch ";") [to_string row; to_string col] with [] => false | c :: _ => c =? ch "<" end
    = false) as ->.
  { cbn [join]. pose proof (to_string_nonempty row). pose proof (to_string_digits row ltac:(lia)).
    destruct (to_string row); [done|]. split_Forall. cbn [app]. unfold is_digit in *.
    change (ch "<") with 60. lia. }
  cbn [length Nat.eqb]. rewrite Z.eqb_refl. cbn [andb]. unfold cursor_report. cbn [nth].
  rewrite !parse_number_to_string by lia. cbn [bind].
  by destruct (Z.leb_spec row 0), (Z.leb_spec col 0); try lia.
Qed.

Lemma feed_cursor_report_witness :
  feed [] ([0x1b] ++ str "[24;80R") =
  Some (Ret ([MkKeyEvent unknown press no_mods 0 None None [] ([0x1b] ++ str "[24;80R")
    (Some (MkPos 79 23))], [])).
Proof. apply (feed_cursor_report 24 80); lia. Defined.

(** flushing delivers what is pending byte by byte: one event per byte, each
    with that byte as its raw bytes, ESC as the escape key. *)
Theorem flush_accounts pending :
  raw <$> flush pending = (λ c, [c]) <$> pending ∧
  (∀ i, pending !! i = Some 0x1b → key <$> flush pending !! i = Some escape).
Proof.
  induction pending as [|c pending [IH IHi]]; [done|]. cbn [flush]. split.
  - rewrite !fmap_cons, IH. f_equal. unfold flush_event.
    destruct (c =? 0x1b); [done|]. destruct (_ || _); [apply parse_control_raw|done].
  - intros [|i] Hi; [|by apply IHi]. by injection Hi as ->.
Qed.

(** with nothing pending, a control sequence with no parameter is not a key, but for
    [CSI Z]: the cursor and function keys of a terminal in its legacy mode, [CSI A] and
    the like, arrive as the unknown key. *)
Theorem bare_final_unknown command :
  (0x40 <=? command) && (command <=? 0x7e) = true → command ≠ ch "Z" →
  feed [] (sequence [] command) =
  Some (Ret ([set_raw key_event (sequence [] command)], [])).
Proof.
  intros Hf Hz. apply feed_one; [done|].
  rewrite <- (app_nil_r (sequence _ _)), feed_step_sequence, app_nil_r by done.
  unfold decode_csi. cbn. rewrite andb_false_r.
  destruct (Z.eqb_spec command (chr "Z")) as [|_]; done.
Qed.

Lemma bare_final_unknown_witness :
  feed [] [0x1b; 91; 65] = Some (Ret ([set_raw key_event [0x1b; 91; 65]], [])).
Proof. by apply (bare_final_unknown 65). Defined.

(** A parameter of twenty digits overflows the [long] it is read into. *)
Example long_parameter_overflows :
  feed [] (sequence (str "99999999999999999999") (ch "u")) = Some (Throw signed_overflow).
Proof. vm_compute. reflexivity. Qed.
