(* ===== verification/Word.v ===== *)
(** * Tagged words (src/src/wisp/word.hpp)

    A guest value is a 32-bit word: a 31-bit integer, or a five-bit tag with a
    27-bit payload; the payload of a pointer is a 26-bit row index and an era
    bit. The assertions of the source are the [_ok] predicates. *)
From S2P Require Import Prelude.
#[local] Open Scope Z_scope.

(** The format identities; [unnamed] is the tag number no enumerator has. *)
Inductive tag :=
| T_integer | T_sys | T_chr | T_jet | T_rec | T_duo | T_sym | T_fun | T_mac
| T_v32 | T_v08 | T_pkg | T_run | T_ktx | T_ext | T_pin | unnamed.

#[export] Instance tag_eq_dec : EqDecision tag.
Proof. solve_decision. Defined.

Definition tag_number (t : tag) : Z :=
  match t with
  | T_integer => 0x00 | T_sys => 0x11 | T_chr => 0x12 | T_jet => 0x13 | T_rec => 0x14
  | T_duo => 0x15 | T_sym => 0x16 | T_fun => 0x17 | T_mac => 0x18 | T_v32 => 0x19
  | T_v08 => 0x1a | T_pkg => 0x1b | T_run => 0x1c | T_ktx => 0x1d | T_ext => 0x1e
  | T_pin => 0x1f | unnamed => 0x10
  end.

(** [tag(n)] *)
Definition tag_at (n : Z) : tag :=
  match n with
  | 0x00 => T_integer | 0x11 => T_sys | 0x12 => T_chr | 0x13 => T_jet | 0x14 => T_rec
  | 0x15 => T_duo | 0x16 => T_sym | 0x17 => T_fun | 0x18 => T_mac | 0x19 => T_v32
  | 0x1a => T_v08 | 0x1b => T_pkg | 0x1c => T_run | 0x1d => T_ktx | 0x1e => T_ext
  | 0x1f => T_pin | _ => unnamed
  end.

Definition max_index : Z := Z.shiftl 1 26 - 1.
Definition max_immediate : Z := Z.shiftl 1 27 - 1.
Definition min_fixnum : Z := - Z.shiftl 1 30.
Definition max_fixnum : Z := Z.shiftl 1 30 - 1.

Definition is_word (x : Z) : Prop := 0 ≤ x < 2 ^ 32.

Definition tag_of (x : Z) : tag :=
  if Z.land x 0x80000000 =? 0 then T_integer else tag_at (Z.shiftr x 27).

Definition is_pointer (t : tag) : bool :=
  (tag_number t =? tag_number T_rec)
  || ((tag_number T_duo <=? tag_number t) && (tag_number t <=? tag_number T_ext)).

Definition fixnum_ok (x : Z) : bool := (min_fixnum <=? x) && (x <=? max_fixnum).

Definition fixnum (x : Z) : Z := Z.land (u32 x) 0x7fffffff.

Definition integer_ok (x : Z) : bool := bool_decide (tag_of x = T_integer).

Definition integer (x : Z) : Z := Z.land x 0x3fffffff - Z.land x 0x40000000.

Definition immediate_ok (t : tag) (payload : Z) : bool :=
  bool_decide (t ∈ [T_sys; T_chr; T_jet; T_pin]) && (payload <=? max_immediate).

Definition immediate (t : tag) (payload : Z) : Z := Z.lor (u32 (Z.shiftl (tag_number t) 27)) payload.

Definition pointer_ok (t : tag) (index : Z) : bool := is_pointer t && (index <=? max_index).

Definition pointer (t : tag) (index : Z) (era : bool) : Z :=
  Z.lor (Z.lor (u32 (Z.shiftl (tag_number t) 27)) (u32 (Z.shiftl index 1))) (Z.b2z era).

Definition pointer_word (x : Z) : bool := is_pointer (tag_of x).

Definition index_of (x : Z) : Z := Z.land (Z.shiftr x 1) max_index.

Definition era_of (x : Z) : bool := negb (Z.land x 1 =? 0).

Definition payload_ok (x : Z) : bool :=
  negb (is_pointer (tag_of x)) && negb (bool_decide (tag_of x = T_integer)).

Definition payload_of (x : Z) : Z := Z.land x max_immediate.

Definition nil : Z := immediate T_sys 0.
Definition word_t : Z := immediate T_sys 1.
Definition nah : Z := immediate T_sys 2.
Definition zap : Z := immediate T_sys 3.
Definition top : Z := immediate T_sys 4.

(** The mark the collector leaves in a row is a number below 2^32. *)
Lemma zap_value : zap = 0x88000003.
Proof. reflexivity. Qed.

(** ** The fields as arithmetic *)

Lemma bit31 x : is_word x → (Z.land x 0x80000000 =? 0) = (x <? 2 ^ 31).
Proof.
  intros Hx. unfold is_word in Hx. change 0x80000000 with (2 ^ 31). rewrite land_pow2 by lia.
  destruct (Z.ltb_spec x (2 ^ 31)).
  - by rewrite (Z.div_small x) by lia.
  - replace (x / 2 ^ 31) with 1 by (Z.to_euclidean_division_equations; lia). done.
Qed.

Lemma tag_of_arith x : is_word x →
  tag_of x = if x <? 2 ^ 31 then T_integer else tag_at (x / 2 ^ 27).
Proof. intros Hx. unfold tag_of. rewrite bit31 by done. by rewrite Z.shiftr_div_pow2 by lia. Qed.

Lemma tag_number_range t : t ≠ T_integer → 16 ≤ tag_number t < 32.
Proof. by destruct t. Qed.

Lemma tag_at_number t : tag_at (tag_number t) = t.
Proof. by destruct t. Qed.

Lemma tag_number_at n : 16 ≤ n < 32 → tag_number (tag_at n) = n.
Proof.
  intros Hn. assert (n ∈ seqZ 16 16) as Hin by (apply elem_of_seqZ; lia).
  clear Hn. revert n Hin. apply Forall_forall. by repeat constructor.
Qed.

Lemma index_of_arith x : index_of x = x / 2 mod 2 ^ 26.
Proof.
  unfold index_of, max_index. rewrite Z.shiftl_mul_pow2, Z.mul_1_l, land_ones_mod by lia.
  by rewrite Z.shiftr_div_pow2 by lia.
Qed.

Lemma era_of_arith x : era_of x = (x mod 2 =? 1).
Proof.
  unfold era_of. change 1 with (2 ^ 1 - 1) at 1. rewrite land_ones_mod by lia.
  change (2 ^ 1) with 2. pose proof (Z.mod_pos_bound x 2).
  destruct (Z.eqb_spec (x mod 2) 0), (Z.eqb_spec (x mod 2) 1); lia || done.
Qed.

Lemma payload_of_arith x : payload_of x = x mod 2 ^ 27.
Proof. unfold payload_of, max_immediate. by rewrite Z.shiftl_mul_pow2, Z.mul_1_l, land_ones_mod by lia. Qed.

Lemma pointer_arith t index era : t ≠ T_integer → 0 ≤ index < 2 ^ 26 →
  pointer t index era = tag_number t * 2 ^ 27 + index * 2 + Z.b2z era.
Proof.
  intros Ht Hi. pose proof (tag_number_range t Ht). unfold pointer.
  assert (Z.lor (Z.shiftl (tag_number t) 27) (index * 2) = tag_number t * 2 ^ 27 + index * 2) as Hl
    by (apply lor_shiftl_add; lia).
  rewrite !wrap_small by (rewrite Z.shiftl_mul_pow2; lia).
  rewrite (Z.shiftl_mul_pow2 index) by lia. change (2 ^ 1) with 2. rewrite Hl.
  replace (tag_number t * 2 ^ 27 + index * 2) with (Z.shiftl (tag_number t * 2 ^ 26 + index) 1)
    by (rewrite Z.shiftl_mul_pow2; lia).
  rewrite lor_shiftl_add by (lia || by destruct era). by rewrite Z.shiftl_mul_pow2 by lia.
Qed.

Lemma immediate_arith t payload : t ≠ T_integer → 0 ≤ payload < 2 ^ 27 →
  immediate t payload = tag_number t * 2 ^ 27 + payload.
Proof.
  intros Ht Hp. pose proof (tag_number_range t Ht). unfold immediate.
  rewrite wrap_small by (rewrite Z.shiftl_mul_pow2; lia). by apply lor_shiftl_add.
Qed.

Lemma pointer_not_integer t : is_pointer t = true → t ≠ T_integer.
Proof. by intros H ->. Qed.

(** A pointer takes apart into what it was made of. *)
Lemma pointer_parts t index era : is_pointer t = true → 0 ≤ index < 2 ^ 26 →
  is_word (pointer t index era) ∧ tag_of (pointer t index era) = t ∧
  index_of (pointer t index era) = index ∧ era_of (pointer t index era) = era.
Proof.
  intros Ht Hi. apply pointer_not_integer in Ht. pose proof (tag_number_range t Ht) as Hn.
  rewrite pointer_arith by done. set (x := tag_number t * 2 ^ 27 + index * 2 + Z.b2z era).
  assert (0 ≤ Z.b2z era < 2) by (destruct era; cbn; lia).
  assert (is_word x) as Hx by (unfold is_word, x; lia). split; [done|].
  rewrite tag_of_arith, index_of_arith, era_of_arith by done.
  destruct (Z.ltb_spec x (2 ^ 31)); [unfold x in *; lia|].
  replace (x / 2 ^ 27) with (tag_number t) by (unfold x; Z.to_euclidean_division_equations; lia).
  rewrite tag_at_number. split; [done|]. split.
  - unfold x. Z.to_euclidean_division_equations; lia.
  - replace (x mod 2) with (Z.b2z era) by (unfold x; Z.to_euclidean_division_equations; lia).
    by destruct era.
Qed.

(** A word that is a pointer is the one made of its parts. *)
Lemma pointer_rebuild x : is_word x → is_pointer (tag_of x) = true →
  pointer (tag_of x) (index_of x) (era_of x) = x.
Proof.
  intros Hx Hp. pose proof (pointer_not_integer _ Hp) as Ht.
  rewrite pointer_arith by (done || (rewrite index_of_arith; apply Z.mod_pos_bound; lia)).
  rewrite index_of_arith, era_of_arith. rewrite tag_of_arith in * by done.
  destruct (Z.ltb_spec x (2 ^ 31)); [done|]. unfold is_word in Hx.
  rewrite tag_number_at by (Z.to_euclidean_division_equations; lia).
  pose proof (Z.mod_pos_bound x 2 ltac:(lia)).
  replace (Z.b2z (x mod 2 =? 1)) with (x mod 2) by (destruct (Z.eqb_spec (x mod 2) 1); cbn; lia).
  Z.to_euclidean_division_equations; lia.
Qed.

Lemma index_of_range x : 0 ≤ index_of x < 2 ^ 26.
Proof. rewrite index_of_arith. apply Z.mod_pos_bound. lia. Qed.

Lemma immediate_parts t payload : t ≠ T_integer → 0 ≤ payload < 2 ^ 27 →
  is_word (immediate t payload) ∧ tag_of (immediate t payload) = t ∧
  payload_of (immediate t payload) = payload.
Proof.
  intros Ht Hp. pose proof (tag_number_range t Ht) as Hn. rewrite immediate_arith by done.
  set (x := tag_number t * 2 ^ 27 + payload).
  assert (is_word x) as Hx by (unfold is_word, x; lia). split; [done|].
  rewrite tag_of_arith, payload_of_arith by done.
  destruct (Z.ltb_spec x (2 ^ 31)); [unfold x in *; lia|].
  replace (x / 2 ^ 27) with (tag_number t) by (unfold x; Z.to_euclidean_division_equations; lia).
  rewrite tag_at_number. split; [done|]. unfold x. Z.to_euclidean_division_equations; lia.
Qed.

Lemma fixnum_arith x : fixnum x = x mod 2 ^ 31.
Proof.
  unfold fixnum. change 0x7fffffff with (2 ^ 31 - 1). rewrite land_ones_mod by lia. unfold wrap.
  Z.to_euclidean_division_equations; lia.
Qed.

Lemma integer_arith x : 0 ≤ x < 2 ^ 31 → integer x = if x <? 2 ^ 30 then x else x - 2 ^ 31.
Proof.
  intros Hx. unfold integer. change 0x3fffffff with (2 ^ 30 - 1). change 0x40000000 with (2 ^ 30).
  rewrite land_ones_mod, land_pow2 by lia.
  destruct (Z.ltb_spec x (2 ^ 30)).
  - rewrite (Z.div_small x), Z.mod_small by lia. change (0 mod 2) with 0. lia.
  - replace (x / 2 ^ 30) with 1 by (Z.to_euclidean_division_equations; lia).
    Z.to_euclidean_division_equations; lia.
Qed.

(** So is an immediate. *)
Lemma immediate_rebuild x : is_word x → tag_of x ≠ T_integer → immediate (tag_of x) (payload_of x) = x.
Proof.
  intros Hx Hni.
  assert (0 ≤ payload_of x < 2 ^ 27) as Hp by (rewrite payload_of_arith; apply Z.mod_pos_bound; lia).
  rewrite immediate_arith by done. rewrite payload_of_arith. rewrite tag_of_arith in * by done.
  destruct (Z.ltb_spec x (2 ^ 31)); [done|]. unfold is_word in Hx.
  rewrite tag_number_at by (Z.to_euclidean_division_equations; lia).
  Z.to_euclidean_division_equations; lia.
Qed.

(** small integers survive boxing: every integer of 31 bits, negative ones
    included, is what reading its fixnum gives back, and the fixnum is tagged as
    an integer. *)
Theorem fixnum_roundtrip x : fixnum_ok x = true →
  is_word (fixnum x) ∧ tag_of (fixnum x) = T_integer ∧ integer (fixnum x) = x.
Proof.
  unfold fixnum_ok, min_fixnum, max_fixnum. rewrite Z.shiftl_mul_pow2 by lia. intros Hx.
  assert (- 2 ^ 30 ≤ x < 2 ^ 30) as Hr by lia. rewrite fixnum_arith.
  pose proof (Z.mod_pos_bound x (2 ^ 31) ltac:(lia)) as Hm.
  assert (is_word (x mod 2 ^ 31)) as Hw by (unfold is_word; lia). split; [done|].
  rewrite tag_of_arith, integer_arith by done.
  destruct (Z.ltb_spec (x mod 2 ^ 31) (2 ^ 31)); [|lia]. split; [done|].
  destruct (Z.ltb_spec (x mod 2 ^ 31) (2 ^ 30)); Z.to_euclidean_division_equations; lia.
Qed.

Lemma fixnum_roundtrip_witness : integer (fixnum (-5)) = -5 ∧ fixnum (-5) = 0x7ffffffb.
Proof. split; [by apply (fixnum_roundtrip (-5))|done]. Defined.

(** the tag and the payload determine the word: every 32-bit word is
    exactly the integer, the pointer or the immediate its parts make, so no two
    words have the same parts. *)
Theorem word_rebuild x : is_word x →
  (tag_of x = T_integer → fixnum_ok (integer x) = true ∧ fixnum (integer x) = x) ∧
  (pointer_word x = true →
     pointer_ok (tag_of x) (index_of x) = true ∧ pointer (tag_of x) (index_of x) (era_of x) = x) ∧
  (tag_of x ∈ [T_sys; T_chr; T_jet; T_pin] →
     immediate_ok (tag_of x) (payload_of x) = true ∧ immediate (tag_of x) (payload_of x) = x).
Proof.
  intros Hx. split; [|split].
  - rewrite tag_of_arith by done. destruct (Z.ltb_spec x (2 ^ 31)) as [Hl|Hl].
    + intros _. unfold is_word in Hx. rewrite integer_arith by lia. rewrite fixnum_arith.
      unfold fixnum_ok, min_fixnum, max_fixnum. rewrite Z.shiftl_mul_pow2 by lia.
      destruct (Z.ltb_spec x (2 ^ 30)); (split; [lia|]); Z.to_euclidean_division_equations; lia.
    + intros Ht. exfalso. unfold is_word in Hx.
      pose proof (tag_number_at (x / 2 ^ 27) ltac:(Z.to_euclidean_division_equations; lia)) as Hn.
      rewrite Ht in Hn. cbn in Hn. Z.to_euclidean_division_equations; lia.
  - intros Hp. split; [|by apply pointer_rebuild]. unfold pointer_ok. unfold pointer_word in Hp.
    rewrite Hp. pose proof (index_of_range x). unfold max_index. change (Z.shiftl 1 26) with (2 ^ 26). cbn [andb]. lia.
  - intros Ht. assert (tag_of x ≠ T_integer) as Hni by (intros Heq; rewrite Heq in Ht; by apply (bool_decide_pack _) in Ht).
    assert (0 ≤ payload_of x < 2 ^ 27) as Hp by (rewrite payload_of_arith; apply Z.mod_pos_bound; lia).
    unfold immediate_ok. rewrite bool_decide_eq_true_2 by done. split; [unfold max_immediate; change (Z.shiftl 1 27) with (2 ^ 27); cbn [andb]; lia|].
    by apply immediate_rebuild.
Qed.

Lemma word_rebuild_witness :
  pointer (tag_of (pointer T_duo 7 true)) (index_of (pointer T_duo 7 true)) true = pointer T_duo 7 true.
Proof.
  destruct (word_rebuild (pointer T_duo 7 true)) as (_ & H & _); [done|]. by apply H.
Defined.
