(* ===== verification/Vat.v ===== *)
(** * The columnar vat (src/src/wisp/vat.hpp)

    A table keeps one rack of words per field of its schema. A rack is a list of
    slots, raw beyond the table's size. The abstraction is the list of rows. *)
From S2P Require Import Prelude Word.

(** Why an operation of the heap does not return. *)
Inductive fault :=
| assertion
| raw_access
| table_exceeds_indices
| table_full
| payload_exceeds_offsets
| pins_exhausted.

Inductive field :=
| F_car | F_cdr | F_str | F_pkg | F_val | F_fun | F_dyn | F_env | F_par | F_exp | F_sym | F_cnt
| F_idx | F_len | F_nam | F_use | F_hop | F_acc | F_arg | F_err | F_way | F_meta.

#[export] Instance field_eq_dec : EqDecision field.
Proof. solve_decision. Defined.

Inductive field_kind := K_value | K_offset | K_length | K_count | K_external.

#[export] Instance field_kind_eq_dec : EqDecision field_kind.
Proof. solve_decision. Defined.

Record column := MkColumn { id : field; name : string; kind : field_kind }.

Definition value_column (f : field) (n : string) : column := MkColumn f n K_value.

Definition schema_duo : list column := [value_column F_car "car"; value_column F_cdr "cdr"].

Definition schema_sym : list column :=
  [value_column F_str "str"; value_column F_pkg "pkg"; value_column F_val "val";
   value_column F_fun "fun"; value_column F_dyn "dyn"].

Definition schema_fun : list column :=
  [value_column F_env "env"; value_column F_par "par"; value_column F_exp "exp";
   value_column F_sym "sym"; MkColumn F_cnt "cnt" K_count].

Definition schema_v08 : list column := [MkColumn F_idx "idx" K_offset; MkColumn F_len "len" K_length].

Definition schema_pkg : list column :=
  [value_column F_nam "nam"; value_column F_sym "sym"; value_column F_use "use"].

Definition schema_run : list column :=
  [value_column F_exp "exp"; value_column F_val "val"; value_column F_err "err";
   value_column F_env "env"; value_column F_way "way"; value_column F_meta "meta"].

Definition schema_ktx : list column :=
  [value_column F_hop "hop"; value_column F_env "env"; value_column F_fun "fun";
   value_column F_acc "acc"; value_column F_arg "arg"].

Definition schema_ext : list column := [MkColumn F_idx "idx" K_external; value_column F_val "val"].

(** [schema<T>::columns]; the tags that are not pointers have no schema. *)
Definition schema (t : tag) : list column :=
  match t with
  | T_duo => schema_duo
  | T_sym => schema_sym
  | T_fun | T_mac => schema_fun
  | T_v08 | T_v32 | T_rec => schema_v08
  | T_pkg => schema_pkg
  | T_run => schema_run
  | T_ktx => schema_ktx
  | T_ext => schema_ext
  | _ => []
  end.

Definition width (t : tag) : nat := length (schema t).

Fixpoint find_column (f : field) (i : nat) (cs : list column) : option nat :=
  match cs with
  | [] => None
  | c :: cs' => if decide (id c = f) then Some i else find_column f (S i) cs'
  end.

(** [column_index<T, F>()]; [None] does not compile. *)
Definition column_index (t : tag) (f : field) : option nat := find_column f 0 (schema t).

Abbreviation row := (list Z).

Record tab := MkTab {
  columns_ : list (list (option Z));
  size_ : nat;
  capacity_ : nat;
}.

Definition empty_tab (t : tag) : tab := MkTab (replicate (width t) []) 0 0.

(** [max_index + 1], the most rows a table can have. *)
Definition max_rows : Z := (max_index + 1)%Z.

Definition reserve (tb : tab) (n : nat) : result fault tab :=
  if (max_rows <? Z.of_nat n)%Z then Throw table_exceeds_indices
  else if n <=? capacity_ tb then Ret tb
  else Ret (MkTab ((λ col, take (size_ tb) col ++ replicate (n - size_ tb) None) <$> columns_ tb)
              (size_ tb) n).

(** [construct_at] in every column. *)
Definition construct_row (tb : tab) (data : row) : tab :=
  MkTab (zip_with (λ col v, <[size_ tb := Some v]> col) (columns_ tb) data)
    (S (size_ tb)) (capacity_ tb).

Definition push (tb : tab) (data : row) : result fault (nat * tab) :=
  let! tb :=
    if size_ tb =? capacity_ tb then
      if (Z.of_nat (size_ tb) =? max_rows)%Z then Throw table_full
      else
        let wanted := if capacity_ tb =? 0 then 8 else capacity_ tb * 2 in
        reserve tb (Z.to_nat (Z.min max_rows (Z.of_nat wanted)))
    else Ret tb in
  Ret (size_ tb, construct_row tb data).

(** The live words of a column. *)
Definition col (tb : tab) (c : nat) : result fault (list Z) :=
  match columns_ tb !! c with
  | None => Throw assertion
  | Some rack =>
      match mapM (M:=option) (λ s, s) (take (size_ tb) rack) with
      | Some ws => Ret ws
      | None => Throw raw_access
      end
  end.

Definition get (tb : tab) (i c : nat) : result fault Z :=
  if i <? size_ tb then
    match columns_ tb !! c with
    | None => Throw assertion
    | Some rack =>
        match rack !! i with
        | Some (Some w) => Ret w
        | _ => Throw raw_access
        end
    end
  else Throw assertion.

Definition set (tb : tab) (i c : nat) (x : Z) : result fault tab :=
  if (i <? size_ tb) && (c <? length (columns_ tb)) then
    Ret (MkTab (alter (λ rack, <[i := Some x]> rack) c (columns_ tb)) (size_ tb) (capacity_ tb))
  else Throw assertion.

Fixpoint read_from (tb : tab) (i c : nat) (n : nat) : result fault row :=
  match n with
  | 0 => Ret []
  | S n' =>
      let! w := get tb i c in
      let! ws := read_from tb i (S c) n' in
      Ret (w :: ws)
  end.

(** [read] and [put] go over the columns in order. *)
Definition read (tb : tab) (i : nat) : result fault row := read_from tb i 0 (length (columns_ tb)).

Fixpoint put_from (tb : tab) (i c : nat) (data : row) : result fault tab :=
  match data with
  | [] => Ret tb
  | w :: data' => let! tb := set tb i c w in put_from tb i (S c) data'
  end.

Definition put (tb : tab) (i : nat) (data : row) : result fault tab := put_from tb i 0 data.

(** The tables of the vat, in the vat's order. *)
Definition vat_tags : list tag :=
  [T_duo; T_sym; T_fun; T_mac; T_v32; T_v08; T_pkg; T_run; T_ktx; T_ext; T_rec].

Abbreviation vat := (list tab).

Definition empty_vat : vat := empty_tab <$> vat_tags.

Fixpoint find_tag (t : tag) (i : nat) (ts : list tag) : nat :=
  match ts with
  | [] => i
  | u :: ts' => if decide (u = t) then i else find_tag t (S i) ts'
  end.

Definition vat_index (t : tag) : nat := find_tag t 0 vat_tags.

(** [std::get<tab<T>>] and its assignment. *)
Definition table (v : vat) (t : tag) : tab := nth (vat_index t) v (empty_tab t).

Definition with_table (v : vat) (t : tag) (tb : tab) : vat := <[vat_index t := tb]> v.

(** ** Rows *)

Definition slot (rack : list (option Z)) (i : nat) : Z := default 0%Z (default None (rack !! i)).

(** The rows of a table. *)
Definition rows (tb : tab) : list row :=
  (λ i, (λ rack, slot rack i) <$> columns_ tb) <$> seq 0 (size_ tb).

(** A rack whose first words are live. *)
Definition rack_ok (size capacity : nat) (rack : list (option Z)) : Prop :=
  length rack = capacity ∧ ∀ i, i < size → is_Some (default None (rack !! i)).

Record tab_ok (w : nat) (tb : tab) : Prop := {
  ok_width : length (columns_ tb) = w;
  ok_racks : Forall (rack_ok (size_ tb) (capacity_ tb)) (columns_ tb);
  ok_size : size_ tb ≤ capacity_ tb;
  ok_capacity : (Z.of_nat (capacity_ tb) ≤ max_rows)%Z;
}.

Lemma rows_length tb : length (rows tb) = size_ tb.
Proof. unfold rows. by rewrite length_fmap, length_seq. Qed.

Lemma rows_lookup tb i : i < size_ tb →
  rows tb !! i = Some ((λ rack, slot rack i) <$> columns_ tb).
Proof. intros Hi. unfold rows. rewrite list_lookup_fmap, lookup_seq_lt by done. done. Qed.

Lemma rows_width w tb : tab_ok w tb → Forall (λ r, length r = w) (rows tb).
Proof.
  intros [Hw _ _ _]. unfold rows. apply Forall_fmap, Forall_true. intros i. cbn.
  by rewrite length_fmap.
Qed.

(** Two tables with the same size and the same words have the same rows. *)
Lemma rows_ext tb tb' : size_ tb = size_ tb' → length (columns_ tb) = length (columns_ tb') →
  (∀ c i rack rack', columns_ tb !! c = Some rack → columns_ tb' !! c = Some rack' → i < size_ tb →
     slot rack i = slot rack' i) →
  rows tb = rows tb'.
Proof.
  intros Hs Hl Hc. unfold rows. rewrite <- Hs. apply list_fmap_ext. intros j i Hi.
  apply lookup_seq in Hi as [-> Hi]. cbn [plus]. apply list_eq. intros c.
  rewrite !list_lookup_fmap.
  destruct (columns_ tb !! c) as [rack|] eqn:H1, (columns_ tb' !! c) as [rack'|] eqn:H2; cbn; try done.
  - f_equal. by apply (Hc c).
  - apply lookup_lt_Some in H1. apply lookup_ge_None in H2. lia.
  - apply lookup_lt_Some in H2. apply lookup_ge_None in H1. lia.
Qed.

Lemma slot_app_l rack x i : i < length rack → slot (rack ++ x) i = slot rack i.
Proof. intros. unfold slot. by rewrite lookup_app_l. Qed.

Lemma slot_insert rack i j v : i < length rack →
  slot (<[i := Some v]> rack) j = if decide (i = j) then v else slot rack j.
Proof.
  intros Hi. unfold slot. case_decide as Hd.
  - subst j. by rewrite list_lookup_insert_eq.
  - by rewrite list_lookup_insert_ne.
Qed.

Lemma slot_take rack n i : i < n → slot (take n rack) i = slot rack i.
Proof. intros. unfold slot. by rewrite lookup_take_lt. Qed.

Lemma empty_tab_ok t : tab_ok (width t) (empty_tab t).
Proof.
  split; cbn; [by rewrite length_replicate| |lia|done].
  apply Forall_replicate. split; [done|]. lia.
Qed.

Lemma reserve_ok w tb n : tab_ok w tb → (Z.of_nat n ≤ max_rows)%Z →
  ∃ tb', reserve tb n = Ret tb' ∧ tab_ok w tb' ∧ rows tb' = rows tb ∧
    size_ tb' = size_ tb ∧ capacity_ tb' = Nat.max n (capacity_ tb).
Proof.
  intros [Hw Hr Hs Hc] Hn. unfold reserve. destruct (Z.ltb_spec max_rows (Z.of_nat n)); [lia|].
  destruct (Nat.leb_spec n (capacity_ tb)).
  { exists tb. repeat split; try done. lia. }
  eexists. split; [done|]. rewrite Forall_forall in Hr. split; [|split; [|split; [done|cbn; lia]]].
  - split; cbn; [by rewrite length_fmap| |lia|lia]. apply Forall_fmap, Forall_forall.
    intros rack Hin. destruct (Hr rack Hin) as [Hl Hlive]. split; [cbn; len|].
    intros i Hi. cbn. rewrite lookup_app_l, lookup_take_lt by len. by apply Hlive.
  - apply rows_ext; cbn; [done|by rewrite length_fmap|]. intros c i rack rack' H1 H2 Hi.
    rewrite list_lookup_fmap, H2 in H1. injection H1 as <-.
    destruct (Hr rack') as [Hl _]; [by eapply list_elem_of_lookup_2|].
    by rewrite slot_app_l, slot_take by len.
Qed.

Lemma construct_ok w tb data : tab_ok w tb → size_ tb < capacity_ tb → length data = w →
  tab_ok w (construct_row tb data) ∧ rows (construct_row tb data) = rows tb ++ [data].
Proof.
  intros [Hw Hr Hs Hc] Hlt Hd. rewrite Forall_forall in Hr.
  assert (∀ c rack, columns_ tb !! c = Some rack → length rack = capacity_ tb) as Hlen.
  { intros c rack Hl. by apply (Hr rack), (list_elem_of_lookup_2 _ c). }
  assert (∀ c rack v, columns_ tb !! c = Some rack → data !! c = Some v →
    columns_ (construct_row tb data) !! c = Some (<[size_ tb := Some v]> rack)) as Hlook.
  { intros c rack v H1 H2. cbn. rewrite lookup_zip_with, H1. cbn. by rewrite H2. }
  split.
  - split; cbn; [by rewrite length_zip_with_l_eq by lia| |lia|done].
    apply Forall_lookup_2. intros c rack' Hl. rewrite lookup_zip_with in Hl.
    destruct (columns_ tb !! c) as [rack|] eqn:H1; [|done].
    destruct (data !! c) as [v|]; [|done]. injection Hl as <-.
    destruct (Hr rack) as [Hll Hlive]; [by eapply list_elem_of_lookup_2|].
    split; [by rewrite length_insert|]. intros i Hi.
    destruct (decide (i = size_ tb)) as [->|]; [rewrite list_lookup_insert_eq by lia; by eexists|].
    rewrite list_lookup_insert_ne by lia. apply Hlive. lia.
  - unfold rows at 1. cbn [size_ construct_row]. rewrite seq_S, fmap_app. f_equal.
    + unfold rows. apply list_fmap_ext. intros j i Hi. apply lookup_seq in Hi as [-> Hi]. cbn [plus].
      apply list_eq. intros c. rewrite !list_lookup_fmap.
      destruct (columns_ tb !! c) as [rack|] eqn:H1.
      * destruct (lookup_lt_is_Some_2 data c) as [v Hv]; [apply lookup_lt_Some in H1; lia|].
        rewrite (Hlook c rack v) by done. cbn. rewrite slot_insert by (rewrite (Hlen c); done).
        by rewrite decide_False by lia.
      * apply lookup_ge_None in H1. rewrite (proj2 (lookup_ge_None _ _)); [done|].
        cbn. rewrite length_zip_with_l_eq; lia.
    + cbn [fmap list_fmap plus]. f_equal. apply list_eq. intros c. rewrite list_lookup_fmap.
      destruct (columns_ tb !! c) as [rack|] eqn:H1.
      * destruct (lookup_lt_is_Some_2 data c) as [v Hv]; [apply lookup_lt_Some in H1; lia|].
        rewrite (Hlook c rack v) by done. cbn. rewrite slot_insert by (rewrite (Hlen c); done).
        by rewrite decide_True, Hv.
      * apply lookup_ge_None in H1. rewrite !(proj2 (lookup_ge_None _ _)); [done|lia|].
        cbn. rewrite length_zip_with_l_eq; lia.
Qed.

(** A table with room, or that can make room, takes a row. *)
Lemma push_ok w tb data : tab_ok w tb → length data = w → (Z.of_nat (size_ tb) < max_rows)%Z →
  ∃ tb', push tb data = Ret (size_ tb, tb') ∧ tab_ok w tb' ∧ rows tb' = rows tb ++ [data] ∧
    size_ tb' = S (size_ tb) ∧ capacity_ tb ≤ capacity_ tb'.
Proof.
  intros Hok Hd Hlt. unfold push. destruct (Nat.eqb_spec (size_ tb) (capacity_ tb)) as [He|Hne].
  - destruct (Z.eqb_spec (Z.of_nat (size_ tb)) max_rows); [lia|].
    set (wanted := Z.to_nat _).
    destruct (reserve_ok w tb wanted) as (tb1 & -> & Hok1 & Hr1 & Hs1 & Hc1); [done|unfold wanted; lia|].
    assert (size_ tb1 < capacity_ tb1).
    { rewrite Hs1, Hc1. unfold wanted. destruct (Nat.eqb_spec (capacity_ tb) 0); lia. }
    destruct (construct_ok w tb1 data) as [Hok2 Hr2]; [done|done|done|].
    exists (construct_row tb1 data). cbn [bind]. rewrite Hs1, Hr2, Hr1. repeat split; try apply Hok2; cbn; lia.
  - destruct Hok as [Hw Hr Hs Hc]. destruct (construct_ok w tb data) as [Hok2 Hr2]; [done|lia|done|].
    exists (construct_row tb data). cbn [bind]. rewrite Hr2. repeat split; try apply Hok2; cbn; lia.
Qed.

Lemma push_full w tb data : tab_ok w tb → Z.of_nat (size_ tb) = max_rows →
  push tb data = Throw table_full.
Proof.
  intros [Hw Hr Hs Hc] He. unfold push. destruct (Nat.eqb_spec (size_ tb) (capacity_ tb)); [|lia].
  destruct (Z.eqb_spec (Z.of_nat (size_ tb)) max_rows); done.
Qed.

Lemma get_ok w tb i c r : tab_ok w tb → rows tb !! i = Some r → c < w →
  ∃ x, r !! c = Some x ∧ get tb i c = Ret x.
Proof.
  intros [Hw Hr Hs Hc] Hi Hcw. assert (i < size_ tb) as Hlt by (rewrite <- rows_length; by eapply lookup_lt_Some).
  rewrite rows_lookup in Hi by done. injection Hi as <-. unfold get.
  destruct (Nat.ltb_spec i (size_ tb)); [|lia].
  destruct (lookup_lt_is_Some_2 (columns_ tb) c) as [rack Hrack]; [lia|].
  exists (slot rack i). rewrite list_lookup_fmap, Hrack. split; [done|]. unfold slot.
  rewrite Forall_forall in Hr. destruct (Hr rack) as [Hl Hlive]; [by eapply list_elem_of_lookup_2|].
  destruct (Hlive i Hlt) as [x Hx]. by destruct (rack !! i) as [[y|]|].
Qed.

Lemma get_out tb i c : size_ tb ≤ i → get tb i c = Throw assertion.
Proof. intros Hi. unfold get. by destruct (Nat.ltb_spec i (size_ tb)); [lia|]. Qed.

Lemma set_ok w tb i c x r : tab_ok w tb → rows tb !! i = Some r → c < w →
  ∃ tb', set tb i c x = Ret tb' ∧ tab_ok w tb' ∧ rows tb' = <[i := <[c := x]> r]> (rows tb) ∧
    size_ tb' = size_ tb ∧ capacity_ tb' = capacity_ tb.
Proof.
  intros [Hw Hr Hs Hc] Hi Hcw. assert (i < size_ tb) as Hlt by (rewrite <- rows_length; by eapply lookup_lt_Some).
  rewrite rows_lookup in Hi by done. injection Hi as <-. unfold set. rewrite Hw.
  destruct (Nat.ltb_spec i (size_ tb)), (Nat.ltb_spec c w); try lia. cbn [andb].
  eexists. split; [done|]. rewrite Forall_forall in Hr.
  assert (∀ c rack, columns_ tb !! c = Some rack → length rack = capacity_ tb) as Hlen.
  { intros c' rack Hl. by apply (Hr rack), (list_elem_of_lookup_2 _ c'). }
  split; [|split; [|done]].
  - split; cbn; [by rewrite length_alter| |done|done]. apply Forall_lookup_2. intros c' rack' Hl.
    destruct (decide (c = c')) as [<-|Hne].
    + rewrite list_lookup_alter_eq in Hl. destruct (columns_ tb !! c) as [rack|] eqn:Hrack; [|done].
      injection Hl as <-. destruct (Hr rack) as [Hll Hlive]; [by eapply list_elem_of_lookup_2|].
      split; [by rewrite length_insert|]. intros j Hj.
      destruct (decide (i = j)) as [<-|]; [rewrite list_lookup_insert_eq by lia; by eexists|].
      rewrite list_lookup_insert_ne by done. by apply Hlive.
    + rewrite list_lookup_alter_ne in Hl by done. apply Hr. by eapply list_elem_of_lookup_2.
  - apply list_eq. intros j. destruct (decide (j < size_ tb)) as [Hj|Hj].
    2: { rewrite !(proj2 (lookup_ge_None _ _)); [done|rewrite length_insert, rows_length; lia|].
         rewrite rows_length. cbn. lia. }
    rewrite rows_lookup by done. cbn [columns_].
    destruct (decide (i = j)) as [<-|Hij].
    + rewrite list_lookup_insert_eq by (by rewrite rows_length). f_equal. apply list_eq. intros c'.
      rewrite list_lookup_fmap. destruct (decide (c = c')) as [<-|Hcc].
      * rewrite list_lookup_alter_eq, list_lookup_insert_eq by (rewrite length_fmap; lia).
        destruct (lookup_lt_is_Some_2 (columns_ tb) c) as [rack Hrack]; [lia|]. rewrite Hrack. cbn.
        by rewrite slot_insert, decide_True by (try rewrite (Hlen c rack Hrack); lia).
      * by rewrite list_lookup_alter_ne, list_lookup_insert_ne, list_lookup_fmap by done.
    + rewrite list_lookup_insert_ne, rows_lookup by done. f_equal. apply list_eq. intros c'.
      rewrite !list_lookup_fmap. destruct (decide (c = c')) as [<-|Hcc].
      * rewrite list_lookup_alter_eq. destruct (columns_ tb !! c) as [rack|] eqn:Hrack; [|done]. cbn.
        by rewrite slot_insert, decide_False by (try rewrite (Hlen c rack Hrack); lia).
      * by rewrite list_lookup_alter_ne.
Qed.

Lemma read_from_ok w tb i r : tab_ok w tb → rows tb !! i = Some r → ∀ n c, c + n = w →
  read_from tb i c n = Ret (drop c r).
Proof.
  intros Hok Hi. assert (length r = w) as Hlen.
  { pose proof (rows_width w tb Hok) as Hw. rewrite Forall_lookup in Hw. by apply (Hw i). }
  induction n as [|n IH]; intros c Hc; cbn [read_from].
  - by rewrite drop_ge by lia.
  - destruct (get_ok w tb i c r) as (x & Hx & ->); [done|done|lia|]. cbn [bind].
    rewrite IH by lia. cbn [bind]. by rewrite (drop_S r x c).
Qed.

Lemma read_ok w tb i r : tab_ok w tb → rows tb !! i = Some r → read tb i = Ret r.
Proof.
  intros Hok Hi. unfold read. rewrite (read_from_ok w tb i r) by (done || by rewrite (ok_width w tb)).
  by rewrite drop_0.
Qed.

Lemma put_from_ok w i data : ∀ tb c r, tab_ok w tb → rows tb !! i = Some r → c + length data = w →
  ∃ tb', put_from tb i c data = Ret tb' ∧ tab_ok w tb' ∧
    rows tb' = <[i := take c r ++ data]> (rows tb) ∧ size_ tb' = size_ tb ∧ capacity_ tb' = capacity_ tb.
Proof.
  induction data as [|x data IH]; intros tb c r Hok Hi Hc; cbn [put_from length] in *.
  - exists tb. assert (length r = w) as Hlen.
    { pose proof (rows_width w tb Hok) as Hw. rewrite Forall_lookup in Hw. by apply (Hw i). }
    rewrite app_nil_r, take_ge, list_insert_id by (done || lia). done.
  - destruct (set_ok w tb i c x r) as (tb1 & -> & Hok1 & Hr1 & Hs1 & Hc1); [done|done|lia|]. cbn [bind].
    assert (i < length (rows tb)) as Hlt by by eapply lookup_lt_Some.
    assert (length r = w) as Hlen.
    { pose proof (rows_width w tb Hok) as Hw. rewrite Forall_lookup in Hw. by apply (Hw i). }
    destruct (IH tb1 (S c) (<[c := x]> r)) as (tb2 & -> & Hok2 & Hr2 & Hs2 & Hc2); [done| |lia|].
    { rewrite Hr1. by apply list_lookup_insert_eq. }
    exists tb2. repeat split; try apply Hok2; try congruence. rewrite Hr2, Hr1, list_insert_insert_eq.
    f_equal. rewrite (take_S_r _ c x) by (apply list_lookup_insert_eq; lia).
    rewrite take_insert_ge by lia. by rewrite <- app_assoc.
Qed.

Lemma put_ok w tb i r data : tab_ok w tb → rows tb !! i = Some r → length data = w →
  ∃ tb', put tb i data = Ret tb' ∧ tab_ok w tb' ∧ rows tb' = <[i := data]> (rows tb) ∧
    size_ tb' = size_ tb ∧ capacity_ tb' = capacity_ tb.
Proof. intros Hok Hi Hd. apply (put_from_ok w i data tb 0 r Hok Hi). lia. Qed.

Lemma col_ok w tb c : tab_ok w tb → c < w →
  col tb c = Ret ((λ r, default 0%Z (r !! c)) <$> rows tb).
Proof.
  intros [Hw Hr Hs Hc] Hcw. unfold col.
  destruct (lookup_lt_is_Some_2 (columns_ tb) c) as [rack Hrack]; [lia|]. rewrite Hrack.
  rewrite Forall_forall in Hr. destruct (Hr rack) as [Hl Hlive]; [by eapply list_elem_of_lookup_2|].
  assert (mapM (λ s, s) (take (size_ tb) rack) = Some ((λ r, default 0%Z (r !! c)) <$> rows tb)) as ->; [|done].
  apply mapM_Some_2, Forall2_same_length_lookup_2; [rewrite length_fmap, rows_length; len|].
  intros i s x Hsl Hx. assert (i < size_ tb) as Hi.
  { apply lookup_lt_Some in Hsl. revert Hsl. len. }
  rewrite lookup_take_lt in Hsl by done. rewrite list_lookup_fmap, rows_lookup in Hx by done.
  cbn in Hx. rewrite list_lookup_fmap, Hrack in Hx. cbn in Hx. injection Hx as <-. unfold slot.
  destruct (Hlive i Hi) as [y Hy]. rewrite Hsl in Hy |- *. cbn in *. by subst s.
Qed.

(** ** A table is its list of rows *)

Inductive tab_op :=
| op_push (data : row)
| op_set (i c : nat) (x : Z)
| op_put (i : nat) (data : row)
| op_reserve (n : nat).

Definition tab_step (tb : tab) (op : tab_op) : result fault tab :=
  match op with
  | op_push data => let! r := push tb data in Ret r.2
  | op_set i c x => set tb i c x
  | op_put i data => put tb i data
  | op_reserve n => reserve tb n
  end.

(** The same operations on rows. *)
Definition rows_step (rs : list row) (op : tab_op) : result fault (list row) :=
  match op with
  | op_push data =>
      if (Z.of_nat (length rs) <? max_rows)%Z then Ret (rs ++ [data]) else Throw table_full
  | op_set i c x =>
      match rs !! i with
      | Some r => Ret (<[i := <[c := x]> r]> rs)
      | None => Throw assertion
      end
  | op_put i data =>
      match rs !! i with
      | Some _ => Ret (<[i := data]> rs)
      | None => Throw assertion
      end
  | op_reserve n => if (Z.of_nat n <=? max_rows)%Z then Ret rs else Throw table_exceeds_indices
  end.

Fixpoint run {S Op : Type} (step : S → Op → result fault S) (s : S) (ops : list Op) : result fault S :=
  match ops with
  | [] => Ret s
  | op :: ops' => let! s := step s op in run step s ops'
  end.

(** An operation whose row has the table's width and whose column exists. *)
Definition op_fits (w : nat) (op : tab_op) : Prop :=
  match op with
  | op_push data | op_put _ data => length data = w ∧ 0 < w
  | op_set _ c _ => c < w
  | op_reserve _ => True
  end.

Lemma tab_step_rows w tb op : tab_ok w tb → op_fits w op →
  match rows_step (rows tb) op with
  | Ret rs => ∃ tb', tab_step tb op = Ret tb' ∧ tab_ok w tb' ∧ rows tb' = rs
  | Throw e => tab_step tb op = Throw e
  end.
Proof.
  intros Hok Hfit. destruct op as [data|i c x|i data|n]; cbn [rows_step tab_step op_fits] in *.
  - rewrite rows_length. destruct (Z.ltb_spec (Z.of_nat (size_ tb)) max_rows).
    + destruct (push_ok w tb data) as (tb' & -> & Hok' & Hr & _); [done|by destruct Hfit|done|]. by exists tb'.
    + rewrite (push_full w); [done|done|]. destruct Hok. lia.
  - destruct (rows tb !! i) as [r|] eqn:Hi.
    + destruct (set_ok w tb i c x r) as (tb' & -> & Hok' & Hr & _); [done..|]. by exists tb'.
    + apply lookup_ge_None in Hi. rewrite rows_length in Hi. unfold set.
      by destruct (Nat.ltb_spec i (size_ tb)); [lia|].
  - destruct Hfit as [Hd Hw]. destruct (rows tb !! i) as [r|] eqn:Hi.
    + destruct (put_ok w tb i r data) as (tb' & -> & Hok' & Hr & _); [done..|]. by exists tb'.
    + apply lookup_ge_None in Hi. rewrite rows_length in Hi. unfold put.
      destruct data as [|x data]; [cbn in *; lia|]. cbn [put_from]. unfold set.
      by destruct (Nat.ltb_spec i (size_ tb)); [lia|].
  - destruct (Z.leb_spec (Z.of_nat n) max_rows).
    + destruct (reserve_ok w tb n) as (tb' & -> & Hok' & Hr & _); [done..|]. by exists tb'.
    + unfold reserve. by destruct (Z.ltb_spec max_rows (Z.of_nat n)); [|lia].
Qed.

(** C29: A table is an append-only list of rows, whatever its columns and its
    growth: any run of pushes, field writes, row writes and reservations throws
    exactly what the same run on a list of rows throws (a full table, too large
    a reservation, a failed assertion), and otherwise leaves a table whose rows,
    read back, are that list. *)
Theorem tab_refines_rows w ops tb : tab_ok w tb → Forall (op_fits w) ops →
  match run rows_step (rows tb) ops with
  | Ret rs => ∃ tb', run tab_step tb ops = Ret tb' ∧ tab_ok w tb' ∧ size_ tb' = length rs ∧
      ∀ i r, rs !! i = Some r → read tb' i = Ret r
  | Throw e => run tab_step tb ops = Throw e
  end.
Proof.
  revert tb. induction ops as [|op ops IH]; intros tb Hok Hfit; cbn [run].
  - exists tb. split; [done|]. split; [done|]. rewrite rows_length. split; [done|]. intros. by eapply read_ok.
  - apply Forall_cons in Hfit as [Hf Hfit]. pose proof (tab_step_rows w tb op Hok Hf) as Hs.
    destruct (rows_step (rows tb) op) as [rs|e]; cbn [bind].
    + destruct Hs as (tb' & -> & Hok' & <-). by apply IH.
    + by rewrite Hs.
Qed.

Lemma tab_refines_rows_witness :
  ∃ tb, run tab_step (empty_tab T_duo) [op_push [1; 2]; op_push [3; 4]; op_set 0 1 9; op_reserve 20]%Z = Ret tb ∧
    read tb 0 = Ret [1; 9]%Z ∧ read tb 1 = Ret [3; 4]%Z.
Proof.
  pose proof (tab_refines_rows 2 [op_push [1; 2]; op_push [3; 4]; op_set 0 1 9; op_reserve 20]%Z
    (empty_tab T_duo) (empty_tab_ok T_duo)) as H.
  destruct H as (tb & Hr & _ & _ & Hread).
  - repeat constructor.
  - exists tb. split; [exact Hr|]. split; by apply Hread.
Defined.
