(* ===== verification/Heap.v ===== *)
(** * Guest storage (src/src/wisp/heap.hpp, src/src/wisp/heap.cpp)

    The heap's tables, payload pools, pins and host roots, and the operations on
    them but for [collect], which is in [Collect]. An operation that throws
    leaves a heap behind, so an operation returns its result and the heap. The
    profiling counters are not modelled. *)
From Stdlib Require Import Sorting.Sorted.
From S2P Require Import Prelude Word Vat.

(** A host slot, linked to its neighbours. Addresses are numbers. *)
Record root := MkRoot { value_ : Z; prev_ : option nat; next_ : option nat }.

Record heap := MkHeap {
  vat_ : vat;
  bytes_ : bytes;
  words_ : list Z;
  pins_ : list (Z * Z);
  next_pin_ : Z;
  roots_ : option nat;
  era_ : bool;
  frozen_ktx_ : nat;
  host_ : bool;
  (** The memory the root objects live in. *)
  slots_ : gmap nat root;
}.

Definition new_heap (host : bool) : heap := MkHeap empty_vat [] [] [] 1 None false 0 host ∅.

(** An operation: its result, and the heap it leaves. *)
Definition op (A : Type) : Type := heap → result fault A * heap.

Definition oret {A} (a : A) : op A := λ h, (Ret a, h).

Definition othrow {A} (e : fault) : op A := λ h, (Throw e, h).

Definition obind {A B} (m : op A) (k : A → op B) : op B := λ h,
  match m h with
  | (Ret a, h') => k a h'
  | (Throw e, h') => (Throw e, h')
  end.

Notation "x ⇐ m ; k" := (obind m (λ x, k))
  (at level 100, m at next level, right associativity) : nxt_scope.

(** A reading operation. *)
Definition query {A} (f : heap → result fault A) : op A := λ h, (f h, h).

(** [assert] *)
Definition oassert (b : bool) : op unit := if b then oret tt else othrow assertion.

(** [try m catch (...) { f; throw; }] *)
Definition otry {A} (m : op A) (f : heap → heap) : op A := λ h,
  match m h with
  | (Ret a, h') => (Ret a, h')
  | (Throw e, h') => (Throw e, f h')
  end.

Definition set_vat (h : heap) (v : vat) : heap :=
  MkHeap v (bytes_ h) (words_ h) (pins_ h) (next_pin_ h) (roots_ h) (era_ h) (frozen_ktx_ h)
    (host_ h) (slots_ h).

Definition set_bytes (h : heap) (b : bytes) : heap :=
  MkHeap (vat_ h) b (words_ h) (pins_ h) (next_pin_ h) (roots_ h) (era_ h) (frozen_ktx_ h)
    (host_ h) (slots_ h).

Definition set_words (h : heap) (w : list Z) : heap :=
  MkHeap (vat_ h) (bytes_ h) w (pins_ h) (next_pin_ h) (roots_ h) (era_ h) (frozen_ktx_ h)
    (host_ h) (slots_ h).

Definition set_pins (h : heap) (p : list (Z * Z)) (n : Z) : heap :=
  MkHeap (vat_ h) (bytes_ h) (words_ h) p n (roots_ h) (era_ h) (frozen_ktx_ h) (host_ h) (slots_ h).

Definition set_roots (h : heap) (r : option nat) (s : gmap nat root) : heap :=
  MkHeap (vat_ h) (bytes_ h) (words_ h) (pins_ h) (next_pin_ h) r (era_ h) (frozen_ktx_ h) (host_ h) s.

Definition set_frozen (h : heap) (n : nat) : heap :=
  MkHeap (vat_ h) (bytes_ h) (words_ h) (pins_ h) (next_pin_ h) (roots_ h) (era_ h) n (host_ h) (slots_ h).

(** ** Rows *)

Definition htable (h : heap) (t : tag) : tab := table (vat_ h) t.

(** [check<T>]: the row a guest pointer names. *)
Definition check (h : heap) (t : tag) (x : Z) : result fault nat :=
  if bool_decide (tag_of x = t) && is_pointer (tag_of x) && Bool.eqb (era_of x) (era_ h) then
    let i := Z.to_nat (index_of x) in
    if i <? size_ (htable h t) then Ret i else Throw assertion
  else Throw assertion.

Definition make (t : tag) (data : row) : op Z :=
  _ ⇐ oassert (negb (nth 0 data 0 =? zap)%Z);
  λ h,
  match push (htable h t) data with
  | Throw e => (Throw e, h)
  | Ret (i, tb) =>
      let h' := set_vat h (with_table (vat_ h) t tb) in
      if pointer_ok t (Z.of_nat i) then (Ret (pointer t (Z.of_nat i) (era_ h)), h')
      else (Throw assertion, h')
  end.

Definition hread (t : tag) (x : Z) (h : heap) : result fault row :=
  let! i := check h t x in read (htable h t) i.

(** The position of a field; the source finds it at compile time. *)
Definition column (t : tag) (f : field) : nat := default 0 (column_index t f).

Definition hget (t : tag) (f : field) (x : Z) (h : heap) : result fault Z :=
  let! i := check h t x in Vat.get (htable h t) i (column t f).

Definition hset (t : tag) (f : field) (x value : Z) : op unit :=
  _ ⇐ oassert (negb (column t f =? 0) || negb (value =? zap)%Z);
  λ h,
  match (let! i := check h t x in Vat.set (htable h t) i (column t f) value) with
  | Throw e => (Throw e, h)
  | Ret tb => (Ret tt, set_vat h (with_table (vat_ h) t tb))
  end.

Definition hput (t : tag) (x : Z) (data : row) : op unit :=
  _ ⇐ oassert (negb (nth 0 data 0 =? zap)%Z);
  λ h,
  match (let! i := check h t x in put (htable h t) i data) with
  | Throw e => (Throw e, h)
  | Ret tb => (Ret tt, set_vat h (with_table (vat_ h) t tb))
  end.

(** A shallow copy: vector descriptors share their payload. *)
Definition copy (t : tag) (x : Z) : op Z := data ⇐ query (hread t x); make t data.

Definition cons (car cdr : Z) : op Z := make T_duo [car; cdr].

(** ** Payload pools *)

(** Where appended data comes from: memory of the caller, or a slice of the
    pool itself. *)
Inductive source (A : Type) :=
| foreign (data : list A)
| own (offset len : nat).
Arguments foreign {A} data.
Arguments own {A} offset len.

Definition source_size {A} (d : source A) : nat :=
  match d with
  | foreign data => length data
  | own _ len => len
  end.

Definition word_limit : Z := (2 ^ 32 - 1)%Z.

(** [limit - size] is computed in 64 bits. *)
Definition pool_size (size extra : Z) : result fault Z :=
  if (u64 (word_limit - size) <? extra)%Z then Throw payload_exceeds_offsets else Ret (size + extra)%Z.

(** The new pool and the offset of the appended slice. *)
Definition append {A} (pool : list A) (data : source A) : result fault (Z * list A) :=
  let start := Z.of_nat (length pool) in
  if source_size data =? 0 then Ret (u32 start, pool)
  else
    let! _ := pool_size start (Z.of_nat (source_size data)) in
    match data with
    | foreign xs => Ret (u32 start, pool ++ xs)
    | own offset len =>
        if len <=? length pool - offset then Ret (u32 start, pool ++ take len (drop offset pool))
        else Throw assertion
    end.

Definition newv08 (data : source Z) : op Z := λ h,
  match append (bytes_ h) data with
  | Throw e => (Throw e, h)
  | Ret (idx, pool) =>
      otry (make T_v08 [idx; u32 (Z.of_nat (source_size data))])
        (λ h, set_bytes h (take (Z.to_nat idx) (bytes_ h)))
        (set_bytes h pool)
  end.

Definition new_words (t : tag) (data : source Z) : op Z := λ h,
  match append (words_ h) data with
  | Throw e => (Throw e, h)
  | Ret (idx, pool) =>
      otry (make t [idx; u32 (Z.of_nat (source_size data))])
        (λ h, set_words h (take (Z.to_nat idx) (words_ h)))
        (set_words h pool)
  end.

Definition newv32 (data : source Z) : op Z := new_words T_v32 data.

Definition filledv32 (len : nat) (value : Z) : op Z := λ h,
  let idx := length (words_ h) in
  match pool_size (Z.of_nat idx) (Z.of_nat len) with
  | Throw e => (Throw e, h)
  | Ret _ =>
      otry (make T_v32 [u32 (Z.of_nat idx); u32 (Z.of_nat len)])
        (λ h, set_words h (take idx (words_ h)))
        (set_words h (words_ h ++ replicate len value))
  end.

(** The slice a descriptor shows, as a place in the pool. *)
Definition slice {A} (pool : list A) (r : row) : result fault (nat * nat) :=
  let idx := Z.to_nat (nth 0 r 0%Z) in
  let len := Z.to_nat (nth 1 r 0%Z) in
  if (idx <=? length pool) && (len <=? length pool - idx) then Ret (idx, len) else Throw assertion.

Definition v08_place (x : Z) (h : heap) : result fault (nat * nat) :=
  let! r := hread T_v08 x h in slice (bytes_ h) r.

Definition v08slice (x : Z) (h : heap) : result fault bytes :=
  let! p := v08_place x h in Ret (take p.2 (drop p.1 (bytes_ h))).

Definition words_place (t : tag) (x : Z) (h : heap) : result fault (nat * nat) :=
  let! r := hread t x h in slice (words_ h) r.

Definition hwords (t : tag) (x : Z) (h : heap) : result fault (list Z) :=
  let! p := words_place t x h in Ret (take p.2 (drop p.1 (words_ h))).

Definition set_word (t : tag) (x : Z) (i : nat) (value : Z) : op unit := λ h,
  match words_place t x h with
  | Throw e => (Throw e, h)
  | Ret (idx, len) =>
      if i <? len then (Ret tt, set_words h (<[idx + i := value]> (words_ h))) else (Throw assertion, h)
  end.

Definition v32slice (x : Z) (h : heap) : result fault (list Z) := hwords T_v32 x h.

Definition v32set (x : Z) (i : nat) (value : Z) : op unit := set_word T_v32 x i value.

(** The slice is lent from the pool it is appended to. *)
Definition clonev32 (x : Z) : op Z := p ⇐ query (words_place T_v32 x); newv32 (own p.1 p.2).

Definition copy_continuation_frame (x : Z) : op Z :=
  frame ⇐ query (hread T_ktx x);
  let fn := tag_of (nth (column T_ktx F_fun) frame 0%Z) in
  let acc := nth (column T_ktx F_acc) frame 0%Z in
  if (bool_decide (fn = T_fun) || bool_decide (fn = T_jet) || bool_decide (fn = T_rec))
     && bool_decide (tag_of acc = T_v32)
  then acc' ⇐ clonev32 acc; make T_ktx (<[column T_ktx F_acc := acc']> frame)
  else make T_ktx frame.

Definition freeze_continuations (h : heap) : heap := set_frozen h (size_ (htable h T_ktx)).

Definition continuation_frozen (x : Z) (h : heap) : result fault bool :=
  let! i := check h T_ktx x in Ret (i <? frozen_ktx_ h).

(** ** Pins *)

(** [std::map::emplace]: in key order, and nothing when the key is there. *)
Fixpoint emplace (k v : Z) (m : list (Z * Z)) : list (Z * Z) :=
  match m with
  | [] => [(k, v)]
  | (k', v') :: m' =>
      if (k <? k')%Z then (k, v) :: m
      else if (k =? k')%Z then m
      else (k', v') :: emplace k v m'
  end.

Fixpoint find_pin (k : Z) (m : list (Z * Z)) : option Z :=
  match m with
  | [] => None
  | (k', v) :: m' => if (k =? k')%Z then Some v else find_pin k m'
  end.

Definition erase (k : Z) (m : list (Z * Z)) : list (Z * Z) := filter (λ p, p.1 ≠ k) m.

Definition make_pin (value : Z) : op Z := λ h,
  if (max_immediate <? next_pin_ h)%Z then (Throw pins_exhausted, h)
  else
    (Ret (immediate T_pin (next_pin_ h)),
     set_pins h (emplace (next_pin_ h) value (pins_ h)) (u32 (next_pin_ h + 1))).

Definition pinned (pin : Z) (h : heap) : result fault Z :=
  if bool_decide (tag_of pin = T_pin) then
    match find_pin (payload_of pin) (pins_ h) with
    | Some v => Ret v
    | None => Throw assertion
    end
  else Throw assertion.

Definition free_pin (pin : Z) : op unit := λ h,
  if bool_decide (tag_of pin = T_pin)
  then (Ret tt, set_pins h (erase (payload_of pin) (pins_ h)) (next_pin_ h))
  else (Throw assertion, h).

(** ** Roots *)

Definition with_prev (r : root) (p : option nat) : root := MkRoot (value_ r) p (next_ r).

Definition with_next (r : root) (n : option nat) : root := MkRoot (value_ r) (prev_ r) n.

Definition with_value (r : root) (v : Z) : root := MkRoot v (prev_ r) (next_ r).

(** The constructor, at the address of the new object. *)
Definition root_new (addr : nat) (value : Z) (h : heap) : heap :=
  let mem := <[addr := MkRoot value None (roots_ h)]> (slots_ h) in
  let mem := match roots_ h with
             | Some n => alter (λ r, with_prev r (Some addr)) n mem
             | None => mem
             end in
  set_roots h (Some addr) mem.

(** The destructor; the object's memory is gone afterwards. *)
Definition root_delete (addr : nat) (h : heap) : heap :=
  match slots_ h !! addr with
  | None => h
  | Some r =>
      let '(head, mem) :=
        match prev_ r with
        | Some p => (roots_ h, alter (λ q, with_next q (next_ r)) p (slots_ h))
        | None => (next_ r, slots_ h)
        end in
      let mem := match next_ r with
                 | Some n => alter (λ q, with_prev q (prev_ r)) n mem
                 | None => mem
                 end in
      set_roots h head (delete addr mem)
  end.

Definition root_get (addr : nat) (h : heap) : option Z := value_ <$> slots_ h !! addr.

Definition root_set (addr : nat) (value : Z) (h : heap) : heap :=
  set_roots h (roots_ h) (alter (λ r, with_value r value) addr (slots_ h)).

(** The ids [release_externals] hands to the host, in order. *)
Definition release_externals (h : heap) : result fault (list Z) :=
  if host_ h then
    let! ids := col (htable h T_ext) 0 in
    Ret (filter (λ id, id ≠ zap) ids)
  else Ret [].

(** The destructor: no root is left, and every external row is released. *)
Definition destroy (h : heap) : result fault (list Z) :=
  match roots_ h with
  | Some _ => Throw assertion
  | None => release_externals h
  end.

(** ** Tables of the vat *)

Lemma pointer_tags t : is_pointer t = true ↔ t ∈ vat_tags.
Proof.
  split; [|by revert t; apply Forall_forall; repeat constructor].
  intros H. destruct t; try done; by apply (bool_decide_unpack _).
Qed.

Lemma vat_index_tags t : is_pointer t = true → vat_tags !! vat_index t = Some t ∧ vat_index t < 11.
Proof. destruct t; try done; intros _; (split; [reflexivity|by apply Nat.ltb_lt]). Qed.

Lemma vat_index_inj t u : is_pointer t = true → is_pointer u = true →
  vat_index t = vat_index u → t = u.
Proof.
  intros Ht Hu He. destruct (vat_index_tags t Ht) as [H1 _], (vat_index_tags u Hu) as [H2 _].
  rewrite He in H1. congruence.
Qed.

Lemma table_with_eq v t tb : is_pointer t = true → length v = 11 → table (with_table v t tb) t = tb.
Proof.
  intros Ht Hl. destruct (vat_index_tags t Ht) as [_ Hi]. unfold table, with_table.
  apply nth_lookup_Some. by rewrite list_lookup_insert_eq by lia.
Qed.

Lemma table_with_ne v t u tb : is_pointer t = true → is_pointer u = true → t ≠ u →
  table (with_table v t tb) u = table v u.
Proof.
  intros Ht Hu Hne. unfold table, with_table. rewrite !nth_lookup.
  rewrite list_lookup_insert_ne; [done|]. intros He. by apply Hne, vat_index_inj.
Qed.

Lemma with_table_length v t tb : length (with_table v t tb) = length v.
Proof. apply length_insert. Qed.

(** ** The invariant *)

(** A word the guest may hold: a pointer names a live row of this era. *)
Definition valid (h : heap) (x : Z) : Prop :=
  is_word x ∧
  (pointer_word x = true →
     era_of x = era_ h ∧ Z.to_nat (index_of x) < size_ (htable h (tag_of x))).

Definition word_payload (t : tag) : bool := bool_decide (t = T_v32) || bool_decide (t = T_rec).

(** The place a descriptor names lies in the pool. *)
Definition in_pool {A} (pool : list A) (r : row) : Prop :=
  (nth 0 r 0 + nth 1 r 0 ≤ Z.of_nat (length pool))%Z.

(** The columns of a tag that hold guest values. *)
Definition value_column_at (t : tag) (c : nat) : Prop :=
  ∃ col, schema t !! c = Some col ∧ kind col = K_value.

Record row_ok (h : heap) (t : tag) (r : row) : Prop := {
  row_words : Forall is_word r;
  row_mark : nth 0 r 0%Z ≠ zap;
  row_values : ∀ c x, value_column_at t c → r !! c = Some x → valid h x;
  row_v08 : t = T_v08 → in_pool (bytes_ h) r;
  row_v32 : word_payload t = true → in_pool (words_ h) r;
}.

(** A doubly linked list: each object's neighbours are its neighbours in [l]. *)
Definition linked (mem : gmap nat root) (l : list nat) : Prop :=
  ∀ k a, l !! k = Some a →
    ∃ v, mem !! a = Some (MkRoot v (match k with 0 => None | S k' => l !! k' end) (l !! S k)).

(** The roots are a linked list of all the root objects. *)
Definition roots_ok (h : heap) (l : list nat) : Prop :=
  NoDup l ∧ roots_ h = l !! 0 ∧ linked (slots_ h) l ∧ dom (slots_ h) = list_to_set l.

Record heap_ok (h : heap) : Prop := {
  hk_vat : length (vat_ h) = 11;
  hk_tabs : ∀ t, is_pointer t = true → tab_ok (width t) (htable h t);
  hk_rows : ∀ t i r, is_pointer t = true → rows (htable h t) !! i = Some r → row_ok h t r;
  hk_words : Forall (valid h) (words_ h);
  hk_words_size : (Z.of_nat (length (words_ h)) ≤ word_limit)%Z;
  hk_bytes_size : (Z.of_nat (length (bytes_ h)) ≤ word_limit)%Z;
  hk_pins : Forall (λ p, valid h p.2) (pins_ h);
  hk_pin_keys : StronglySorted Z.lt (pins_ h).*1;
  hk_next_pin : Forall (λ k, 1 ≤ k < next_pin_ h)%Z (pins_ h).*1 ∧ (1 ≤ next_pin_ h ≤ max_immediate + 1)%Z;
  hk_slots : ∀ a r, slots_ h !! a = Some r → valid h (value_ r);
  hk_roots : ∃ l, roots_ok h l;
}.

(** What is live in one heap is live in a heap of the same era with no fewer rows. *)
Lemma valid_mono h h' x : era_ h' = era_ h →
  (∀ t, is_pointer t = true → size_ (htable h t) ≤ size_ (htable h' t)) → valid h x → valid h' x.
Proof.
  intros He Hs [Hw Hp]. split; [done|]. intros Hpw. destruct (Hp Hpw) as [Hera Hi].
  split; [congruence|]. eapply Nat.lt_le_trans; [exact Hi|]. by apply Hs.
Qed.

Lemma in_pool_mono {A} (p p' : list A) r : length p ≤ length p' → in_pool p r → in_pool p' r.
Proof. unfold in_pool. lia. Qed.

Lemma row_ok_mono h h' t r : era_ h' = era_ h →
  (∀ t, is_pointer t = true → size_ (htable h t) ≤ size_ (htable h' t)) →
  length (bytes_ h) ≤ length (bytes_ h') → length (words_ h) ≤ length (words_ h') →
  row_ok h t r → row_ok h' t r.
Proof.
  intros He Hs Hb Hw [H1 H2 H3 H4 H5]. split; [done|done|..].
  - intros c x Hc Hx. by apply (valid_mono h), (H3 c x).
  - intros. eapply in_pool_mono; [done|auto].
  - intros. eapply in_pool_mono; [done|auto].
Qed.

Lemma new_heap_ok host : heap_ok (new_heap host).
Proof.
  assert (∀ t, is_pointer t = true → htable (new_heap host) t = empty_tab t) as He
    by (intros []; done).
  split; try done.
  - intros t Ht. rewrite He by done. apply empty_tab_ok.
  - intros t i r Ht. by rewrite He by done.
  - by constructor.
  - exists []. split; [constructor|]. split; [done|]. split; [|set_solver]. intros k a. by rewrite lookup_nil.
Qed.

(** ** Reading and writing rows *)

Lemma check_ok h t x : valid h x → tag_of x = t → is_pointer t = true →
  check h t x = Ret (Z.to_nat (index_of x)).
Proof.
  intros [Hw Hp] <- Ht. destruct (Hp Ht) as [He Hi]. unfold check.
  rewrite bool_decide_eq_true_2, Ht, He, Bool.eqb_reflx by done. cbn [andb].
  by destruct (Nat.ltb_spec (Z.to_nat (index_of x)) (size_ (htable h (tag_of x)))); [|lia].
Qed.

(** The row a valid pointer names. *)
Definition row_of (h : heap) (x : Z) : row :=
  default [] (rows (htable h (tag_of x)) !! Z.to_nat (index_of x)).

Lemma row_of_lookup h x : valid h x → pointer_word x = true →
  rows (htable h (tag_of x)) !! Z.to_nat (index_of x) = Some (row_of h x).
Proof.
  intros [Hw Hp] Hpw. destruct (Hp Hpw) as [_ Hi]. unfold row_of. rewrite <- rows_length in Hi.
  apply lookup_lt_is_Some_2 in Hi as [r ->]. done.
Qed.

Lemma hread_ok h t x : heap_ok h → valid h x → tag_of x = t → is_pointer t = true →
  hread t x h = Ret (row_of h x).
Proof.
  intros Hh Hv Ht Hp. unfold hread. rewrite check_ok by done. cbn [bind]. subst t.
  by apply (read_ok _ _ _ _ (hk_tabs _ Hh _ Hp)), row_of_lookup.
Qed.

Lemma row_of_length h x : heap_ok h → valid h x → pointer_word x = true →
  length (row_of h x) = width (tag_of x).
Proof.
  intros Hh Hv Hp. pose proof (rows_width _ _ (hk_tabs _ Hh _ Hp)) as Hw.
  rewrite Forall_lookup in Hw. by eapply Hw, row_of_lookup.
Qed.

(** A heap with one table replaced. *)
Definition with_htable (h : heap) (t : tag) (tb : tab) : heap := set_vat h (with_table (vat_ h) t tb).

Lemma htable_with_eq h t tb : heap_ok h → is_pointer t = true → htable (with_htable h t tb) t = tb.
Proof. intros Hh Ht. apply table_with_eq; [done|]. apply (hk_vat _ Hh). Qed.

Lemma htable_with_ne h t u tb : is_pointer t = true → is_pointer u = true → t ≠ u →
  htable (with_htable h t tb) u = htable h u.
Proof. apply table_with_ne. Qed.

Lemma with_htable_sizes h t tb u : heap_ok h → is_pointer t = true → is_pointer u = true →
  size_ (htable h t) ≤ size_ tb → size_ (htable h u) ≤ size_ (htable (with_htable h t tb) u).
Proof.
  intros Hh Ht Hu Hs. destruct (decide (t = u)) as [<-|Hne].
  - by rewrite htable_with_eq.
  - by rewrite htable_with_ne.
Qed.

Lemma with_htable_ok h t tb : heap_ok h → is_pointer t = true → tab_ok (width t) tb →
  size_ (htable h t) ≤ size_ tb →
  (∀ i r, rows tb !! i = Some r → row_ok h t r ∨ row_ok (with_htable h t tb) t r) →
  heap_ok (with_htable h t tb).
Proof.
  intros Hh Ht Hok Hs Hrows. pose proof (with_htable_sizes h t tb) as Hsz.
  assert (∀ x, valid h x → valid (with_htable h t tb) x) as Hvalid.
  { intros x. apply valid_mono; [done|]. intros u Hu. by apply Hsz. }
  assert (∀ u r, row_ok h u r → row_ok (with_htable h t tb) u r) as Hrow.
  { intros u r. apply row_ok_mono; try done. intros u' Hu. by apply Hsz. }
  destruct Hh. split; try done.
  - cbn. by rewrite with_table_length.
  - intros u Hu. destruct (decide (t = u)) as [<-|Hne]; [by rewrite htable_with_eq|].
    rewrite htable_with_ne by done. auto.
  - intros u i r Hu Hi. destruct (decide (t = u)) as [<-|Hne].
    + rewrite htable_with_eq in Hi by done. destruct (Hrows i r Hi); auto.
    + rewrite htable_with_ne in Hi by done. eauto.
  - eapply Forall_impl; [done|auto].
  - eapply Forall_impl; [done|]. cbn. auto.
  - eauto.
Qed.

Lemma max_rows_index n : (Z.of_nat n < max_rows)%Z → (0 ≤ Z.of_nat n < 2 ^ 26)%Z.
Proof. unfold max_rows, max_index. change (Z.shiftl 1 26) with (2 ^ 26)%Z. lia. Qed.

(** [make] appends a row and returns a pointer to it, or throws and leaves the
    heap as it was. *)
Lemma make_ok h t data : heap_ok h → is_pointer t = true → length data = width t → row_ok h t data →
  (Z.of_nat (size_ (htable h t)) < max_rows)%Z →
  ∃ tb, make t data h = (Ret (pointer t (Z.of_nat (size_ (htable h t))) (era_ h)), with_htable h t tb) ∧
    rows tb = rows (htable h t) ++ [data] ∧ heap_ok (with_htable h t tb) ∧ size_ tb = S (size_ (htable h t)).
Proof.
  intros Hh Ht Hd Hrow Hs. pose proof (max_rows_index _ Hs) as Hi.
  destruct (push_ok _ _ data (hk_tabs _ Hh t Ht) Hd Hs) as (tb & Hp & Hok & Hr & Hsz & _).
  exists tb. unfold make, obind, oassert. destruct (Z.eqb_spec (nth 0 data 0) zap)%Z.
  { by destruct (row_mark _ _ _ Hrow). }
  cbn [negb oret]. rewrite Hp.
  assert (pointer_ok t (Z.of_nat (size_ (htable h t))) = true) as ->.
  { unfold pointer_ok, max_index. rewrite Ht. change (Z.shiftl 1 26) with (2 ^ 26)%Z. cbn [andb]. lia. }
  split; [done|]. split; [done|]. split; [|done]. apply with_htable_ok; [done|done|done|lia|].
  intros i r Hl. rewrite Hr in Hl. apply lookup_app_Some in Hl as [Hl|[Hge Hl]].
  - left. by eapply hk_rows.
  - left. apply list_lookup_singleton_Some in Hl as [_ <-]. done.
Qed.

Lemma make_full h t data : heap_ok h → is_pointer t = true → nth 0 data 0%Z ≠ zap →
  Z.of_nat (size_ (htable h t)) = max_rows → make t data h = (Throw table_full, h).
Proof.
  intros Hh Ht Hz Hs. unfold make, obind, oassert. destruct (Z.eqb_spec (nth 0 data 0) zap)%Z; [done|].
  cbn [negb oret]. by rewrite (push_full _ _ _ (hk_tabs _ Hh t Ht) Hs).
Qed.

(** The pointer [make] returns is valid and reads back as the row; old pointers
    read as before. *)
Lemma made_pointer h t tb data : heap_ok h → is_pointer t = true →
  (Z.of_nat (size_ (htable h t)) < max_rows)%Z →
  rows tb = rows (htable h t) ++ [data] →
  let x := pointer t (Z.of_nat (size_ (htable h t))) (era_ h) in
  valid (with_htable h t tb) x ∧ tag_of x = t ∧ row_of (with_htable h t tb) x = data ∧
  (∀ y, valid h y → pointer_word y = true →
     valid (with_htable h t tb) y ∧ row_of (with_htable h t tb) y = row_of h y).
Proof.
  intros Hh Ht Hs Hr x. pose proof (max_rows_index _ Hs) as Hi.
  assert (size_ tb = S (size_ (htable h t))) as Hsz.
  { rewrite <- !rows_length, Hr. len. }
  destruct (pointer_parts t (Z.of_nat (size_ (htable h t))) (era_ h) Ht Hi) as (Hw & Htag & Hidx & Hera).
  fold x in Hw, Htag, Hidx, Hera. split; [|split; [done|split]].
  - split; [done|]. intros _. rewrite Htag, Hidx, Nat2Z.id, htable_with_eq by done. split; [done|lia].
  - unfold row_of. rewrite Htag, Hidx, Nat2Z.id, htable_with_eq, Hr by done.
    rewrite lookup_app_r, rows_length, Nat.sub_diag by (rewrite rows_length; lia). done.
  - intros y Hv Hp. split.
    + apply (valid_mono h); [done| |exact Hv]. intros u Hu. apply with_htable_sizes; try done. lia.
    + unfold row_of. destruct (decide (t = tag_of y)) as [He|Hne]; [|by rewrite htable_with_ne].
      rewrite <- He, htable_with_eq, Hr by done. destruct Hv as [_ [_ Hlt]]; [done|].
      rewrite lookup_app_l by (rewrite rows_length; by rewrite He). done.
Qed.

(** ** Payloads *)

(** The data a source shows, and that it lies in the pool. *)
Definition content {A} (pool : list A) (d : source A) : list A :=
  match d with
  | foreign xs => xs
  | own offset len => take len (drop offset pool)
  end.

Definition source_ok {A} (pool : list A) (d : source A) : Prop :=
  match d with
  | foreign _ => True
  | own offset len => offset + len ≤ length pool
  end.

Lemma content_length {A} (pool : list A) d : source_ok pool d → length (content pool d) = source_size d.
Proof. destruct d; cbn; [done|]. intros. len. Qed.

Lemma append_ok {A} (pool : list A) d : (Z.of_nat (length pool) ≤ word_limit)%Z → source_ok pool d →
  append pool d =
  if (Z.of_nat (length pool + source_size d) <=? word_limit)%Z
  then Ret (Z.of_nat (length pool), pool ++ content pool d)
  else Throw payload_exceeds_offsets.
Proof.
  intros Hp Hd. unfold append, pool_size, word_limit in *.
  rewrite !(wrap_small 32) by lia. rewrite wrap_small by lia.
  destruct (Nat.eqb_spec (source_size d) 0) as [He|Hne].
  - destruct (Z.leb_spec (Z.of_nat (length pool + source_size d)) (2 ^ 32 - 1)); [|lia].
    rewrite <- (content_length pool d Hd) in He. apply nil_length_inv in He.
    by rewrite He, app_nil_r.
  - destruct (Z.ltb_spec (2 ^ 32 - 1 - Z.of_nat (length pool)) (Z.of_nat (source_size d))),
      (Z.leb_spec (Z.of_nat (length pool + source_size d)) (2 ^ 32 - 1)); try lia; cbn [bind]; [done|].
    destruct d as [xs|offset n]; [done|]. cbn in Hd |- *.
    by destruct (Nat.leb_spec n (length pool - offset)); [|lia].
Qed.

(** A longer word pool, or a longer byte pool, is as good. *)
Lemma set_words_ok h ws : heap_ok h → Forall (valid h) ws →
  (Z.of_nat (length (words_ h ++ ws)) ≤ word_limit)%Z → heap_ok (set_words h (words_ h ++ ws)).
Proof.
  intros Hh Hws Hs.
  assert (∀ x, valid h x → valid (set_words h (words_ h ++ ws)) x) as Hv by done.
  destruct Hh. split; try done.
  - intros t i r Ht Hi. apply (row_ok_mono h); try done; [cbn; len|]. eauto.
  - apply Forall_app. split; eapply Forall_impl; try done; auto.
Qed.

Lemma set_bytes_ok h bs : heap_ok h →
  (Z.of_nat (length (bytes_ h ++ bs)) ≤ word_limit)%Z → heap_ok (set_bytes h (bytes_ h ++ bs)).
Proof.
  intros Hh Hs. destruct Hh. split; try done.
  intros t i r Ht Hi. apply (row_ok_mono h); try done; [cbn; len|]. eauto.
Qed.

Lemma u32_small n : (Z.of_nat n ≤ word_limit)%Z → u32 (Z.of_nat n) = Z.of_nat n.
Proof. unfold word_limit. intros. apply wrap_small. lia. Qed.

Lemma limit_word n : (Z.of_nat n ≤ word_limit)%Z → is_word (Z.of_nat n).
Proof. unfold word_limit, is_word. lia. Qed.

(** A descriptor of the end of a pool. *)
Lemma descriptor_ok h t idx len : is_pointer t = true → schema t = schema_v08 →
  (Z.of_nat (idx + len) ≤ word_limit)%Z → Z.of_nat idx ≠ zap →
  (t = T_v08 → idx + len ≤ length (bytes_ h)) → (word_payload t = true → idx + len ≤ length (words_ h)) →
  row_ok h t [Z.of_nat idx; Z.of_nat len].
Proof.
  intros Ht Hsch Hl Hz Hb Hw. split.
  - repeat constructor; apply limit_word; lia.
  - done.
  - intros c x (col & Hc & Hk) _. rewrite Hsch in Hc.
    destruct c as [|[|c]]; [by injection Hc as <-|by injection Hc as <-|done].
  - intros E. specialize (Hb E). unfold in_pool. cbn [nth]. lia.
  - intros E. specialize (Hw E). unfold in_pool. cbn [nth]. lia.
Qed.

Lemma word_payload_cases t : word_payload t = true → is_pointer t = true ∧ schema t = schema_v08 ∧ t ≠ T_v08.
Proof. destruct t; try done. Qed.

Lemma row_nonneg h t r k : row_ok h t r → (0 ≤ nth k r 0)%Z.
Proof.
  intros [Hws _ _ _ _]. destruct (nth_in_or_default k r 0%Z) as [Hi| ->]; [|done].
  rewrite Forall_forall in Hws. apply list_elem_of_In in Hi. by destruct (Hws _ Hi).
Qed.

(** A descriptor shows a slice of its pool. *)
Lemma in_pool_bounds {A} h t (pool : list A) r : row_ok h t r → in_pool pool r →
  Z.to_nat (nth 0 r 0%Z) + Z.to_nat (nth 1 r 0%Z) ≤ length pool.
Proof.
  intros Hr Hp. pose proof (row_nonneg h t r 0 Hr). pose proof (row_nonneg h t r 1 Hr).
  unfold in_pool in Hp. lia.
Qed.

Lemma slice_ok {A} h t (pool : list A) r : row_ok h t r → in_pool pool r →
  slice pool r = Ret (Z.to_nat (nth 0 r 0%Z), Z.to_nat (nth 1 r 0%Z)).
Proof.
  intros Hr Hp. pose proof (in_pool_bounds h t pool r Hr Hp). unfold slice.
  destruct (Nat.leb_spec (Z.to_nat (nth 0 r 0%Z)) (length pool)); [|lia].
  by destruct (Nat.leb_spec (Z.to_nat (nth 1 r 0%Z)) (length pool - Z.to_nat (nth 0 r 0%Z))); [|lia].
Qed.

Lemma row_of_ok h x : heap_ok h → valid h x → pointer_word x = true → row_ok h (tag_of x) (row_of h x).
Proof. intros Hh Hv Hp. by eapply hk_rows, row_of_lookup. Qed.

Lemma hwords_ok h t x : heap_ok h → valid h x → tag_of x = t → word_payload t = true →
  hwords t x h = Ret (take (Z.to_nat (nth 1 (row_of h x) 0%Z))
                       (drop (Z.to_nat (nth 0 (row_of h x) 0%Z)) (words_ h))).
Proof.
  intros Hh Hv Ht Hp. destruct (word_payload_cases t Hp) as (Hptr & _ & _).
  unfold hwords, words_place. rewrite hread_ok by done. cbn [bind]. subst t.
  pose proof (row_of_ok h x Hh Hv Hptr) as Hrow. by rewrite (slice_ok _ _ _ _ Hrow (row_v32 _ _ _ Hrow Hp)).
Qed.

(** A field of a live row, and that it is live itself if it holds a guest value. *)
Lemma hget_ok h t f x c : heap_ok h → valid h x → tag_of x = t → is_pointer t = true → column_index t f = Some c →
  c < width t → ∃ y, hget t f x h = Ret y ∧ row_of h x !! c = Some y.
Proof.
  intros Hh Hv Ht Hp Hc Hw. unfold hget, column. rewrite check_ok, Hc by done. cbn [bind default]. subst t.
  destruct (get_ok _ _ _ c _ (hk_tabs _ Hh _ Hp) (row_of_lookup h x Hv Hp) Hw) as (y & Hy & Hg).
  by exists y.
Qed.

Lemma hget_valid h t f x c : heap_ok h → valid h x → tag_of x = t → is_pointer t = true → column_index t f = Some c →
  c < width t → value_column_at t c → ∃ y, hget t f x h = Ret y ∧ valid h y.
Proof.
  intros Hh Hv Ht Hp Hc Hw Hval. destruct (hget_ok h t f x c) as (y & Hg & Hy); try done. exists y. split; [done|].
  subst t. by eapply row_values; [apply row_of_ok|..].
Qed.

Lemma v08slice_ok h x : heap_ok h → valid h x → tag_of x = T_v08 → ∃ bs, v08slice x h = Ret bs.
Proof.
  intros Hh Hv Ht. unfold v08slice, v08_place. rewrite hread_ok by done. cbn [bind].
  pose proof (row_of_ok h x Hh Hv) as Hrow. unfold pointer_word in Hrow. rewrite Ht in Hrow. specialize (Hrow eq_refl).
  rewrite (slice_ok _ _ _ _ Hrow (row_v08 _ _ _ Hrow eq_refl)). by eexists.
Qed.

Lemma hwords_valid h t x : heap_ok h → valid h x → tag_of x = t → word_payload t = true →
  ∃ ws, hwords t x h = Ret ws ∧ Forall (valid h) ws.
Proof.
  intros Hh Hv Ht Hp. rewrite (hwords_ok h t x Hh Hv Ht Hp). eexists. split; [done|].
  apply Forall_take, Forall_drop, Hh.
Qed.

Lemma heap_set_words_id h ws : set_words (set_words h ws) (words_ h) = h.
Proof. by destruct h. Qed.

Lemma heap_set_bytes_id h bs : set_bytes (set_bytes h bs) (bytes_ h) = h.
Proof. by destruct h. Qed.

(** a new vector or record holds the words it was given, even when they are
    lent from another vector of the same heap: reading it back gives them, every
    vector that was there reads as before, and the heap stays well formed. When
    the allocation throws (the table is full, or the pool would pass 32-bit
    offsets) the heap is exactly as it was. The one other outcome is a failed
    assertion, when the pool's size is the word the collector marks rows with. *)
Theorem new_words_spec h t d : heap_ok h → word_payload t = true → source_ok (words_ h) d →
  Forall (valid h) (content (words_ h) d) →
  match new_words t d h with
  | (Ret x, h') =>
      heap_ok h' ∧ valid h' x ∧ hwords t x h' = Ret (content (words_ h) d) ∧
      ∀ u y ys, word_payload u = true → valid h y → tag_of y = u →
        hwords u y h = Ret ys → hwords u y h' = Ret ys
  | (Throw e, h') =>
      (e = table_full ∨ e = payload_exceeds_offsets) ∧ h' = h ∨
      e = assertion ∧ Z.of_nat (length (words_ h)) = zap
  end.
Proof.
  intros Hh Hp Hd Hv. destruct (word_payload_cases t Hp) as (Hptr & Hsch & Hn8).
  unfold new_words. rewrite append_ok; [|apply (hk_words_size _ Hh)|done].
  destruct (Z.leb_spec (Z.of_nat (length (words_ h) + source_size d)) word_limit) as [Hl|Hl]; [|auto].
  rewrite u32_small by lia. rewrite <- (content_length _ _ Hd) in Hl |- *.
  set (ws := content (words_ h) d) in *. set (h1 := set_words h (words_ h ++ ws)).
  assert (heap_ok h1) as Hh1 by (apply set_words_ok; [done|done|rewrite length_app; lia]).
  set (data := [Z.of_nat (length (words_ h)); Z.of_nat (length ws)]).
  destruct (decide (Z.of_nat (length (words_ h)) = zap)) as [Hz|Hz].
  { unfold otry, make, obind, oassert. cbn [nth data]. rewrite Hz, Z.eqb_refl. cbn. by right. }
  unfold otry.
  destruct (decide (Z.of_nat (size_ (htable h1 t)) = max_rows)) as [Hf|Hf].
  { rewrite make_full by done. left. split; [by left|]. rewrite Nat2Z.id. cbn [words_ h1 set_words].
    rewrite take_app_length. apply heap_set_words_id. }
  assert (Z.of_nat (size_ (htable h1 t)) < max_rows)%Z as Hs by (destruct (hk_tabs _ Hh1 t Hptr); lia).
  assert (row_ok h1 t data) as Hrow
    by (apply descriptor_ok; try done; cbn; rewrite length_app; lia).
  destruct (make_ok h1 t data) as (tb & -> & Hr & Hh2 & Hsz); try done.
  { unfold width. by rewrite Hsch. }
  destruct (made_pointer h1 t tb data Hh1 Hptr Hs Hr) as (Hx & Htag & Hrx & Hold).
  split; [done|]. split; [done|]. split.
  - rewrite hwords_ok, Hrx by done. cbn [nth data words_ with_htable set_vat h1 set_words].
    rewrite !Nat2Z.id, drop_app_length, take_ge by lia. done.
  - intros u y ys Hu Hy Hty Hys. destruct (word_payload_cases u Hu) as (Huptr & _ & _). subst u.
    rewrite (hwords_ok h) in Hys by done. injection Hys as <-.
    destruct (Hold y) as [Hy' Hry]; [done|done|]. rewrite hwords_ok, Hry by done. cbn [words_ with_htable set_vat h1 set_words].
    change (row_of h1 y) with (row_of h y).
    pose proof (row_of_ok h y Hh Hy Huptr) as Hrow'.
    pose proof (in_pool_bounds _ _ _ _ Hrow' (row_v32 _ _ _ Hrow' Hu)).
    by rewrite drop_app_le, take_app_le by len.
Qed.

Lemma new_words_spec_witness :
  hwords T_v32 (pointer T_v32 0 false) (new_words T_v32 (foreign [5%Z]) (new_heap false)).2 = Ret [5%Z].
Proof.
  assert (Forall (valid (new_heap false)) [5%Z]) as Hv.
  { apply Forall_singleton. split; [unfold is_word; lia|done]. }
  destruct (new_words_spec (new_heap false) T_v32 (foreign [5%Z]) (new_heap_ok false) eq_refl I Hv)
    as (_ & _ & H & _).
  exact H.
Defined.

(** ** Roots *)

Lemma linked_elem mem l a : NoDup l → linked mem l → a ∈ l →
  ∃ k v, l !! k = Some a ∧
    mem !! a = Some (MkRoot v (match k with 0 => None | S k' => l !! k' end) (l !! S k)).
Proof.
  intros Hnd Hl [k Hk]%list_elem_of_lookup_1. destruct (Hl k a Hk) as [v Hv]. by exists k, v.
Qed.

Lemma root_new_links h l addr value : roots_ok h l → addr ∉ l →
  roots_ok (root_new addr value h) (addr :: l).
Proof.
  intros (Hnd & Hhead & Hl & Hdom) Hfresh. unfold root_new.
  assert (∀ k b, l !! k = Some b → b ≠ addr) as Hne
    by (intros k b Hk ->; by apply Hfresh, (list_elem_of_lookup_2 _ k)).
  assert (∀ i j b, l !! i = Some b → l !! j = Some b → i = j) as Hinj
    by (intros; by eapply NoDup_lookup).
  split; [by constructor|]. split; [done|]. split.
  - intros k b Hk. cbn [slots_ set_roots]. rewrite Hhead. destruct k as [|k].
    + injection Hk as <-. exists value. cbn [lookup list_lookup].
      destruct (l !! 0) as [n|] eqn:Hn.
      * rewrite lookup_alter_ne by (by eapply Hne). by rewrite lookup_insert_eq.
      * by rewrite lookup_insert_eq.
    + change (l !! k = Some b) in Hk. destruct (Hl k b Hk) as [v Hv]. exists v.
      assert (addr ≠ b) by (intros <-; by eapply Hne).
      destruct (l !! 0) as [n|] eqn:Hn; [|by destruct l].
      destruct (decide (n = b)) as [->|Hnb].
      * assert (k = 0) as -> by (by eapply Hinj). rewrite lookup_alter_eq, lookup_insert_ne, Hv by done. done.
      * rewrite lookup_alter_ne, lookup_insert_ne, Hv by done. destruct k; [congruence|done].
  - cbn [slots_ set_roots]. destruct (roots_ h); rewrite ?dom_alter_L, dom_insert_L, Hdom; set_solver.
Qed.

(** The memory of the roots after an update of the root [o] points to, if any. *)
Lemma lookup_alter_opt (f : root → root) (o : option nat) (m : gmap nat root) b :
  match o with Some a => alter f a m | None => m end !! b = if decide (o = Some b) then f <$> m !! b else m !! b.
Proof.
  destruct o as [a|]; [|done]. destruct (decide (a = b)) as [->|Hab].
  - by rewrite lookup_alter_eq, decide_True.
  - rewrite lookup_alter_ne, decide_False by congruence. done.
Qed.

Lemma dom_alter_opt (f : root → root) (o : option nat) (m : gmap nat root) :
  dom match o with Some a => alter f a m | None => m end = dom m.
Proof. by destruct o; rewrite ?dom_alter_L. Qed.

Lemma list_to_set_delete (l : list nat) k a : NoDup l → l !! k = Some a →
  (list_to_set l : gset nat) ∖ {[a]} = list_to_set (delete k l) ∧ a ∉ delete k l.
Proof.
  intros Hnd Hk. pose proof (delete_Permutation l k a Hk) as Hperm.
  assert (a ∉ delete k l) as Hna by (rewrite Hperm in Hnd; by apply NoDup_cons in Hnd as [? _]).
  split; [|done]. apply set_eq. intros b. rewrite elem_of_difference, elem_of_singleton, !elem_of_list_to_set.
  assert (b ∈ l ↔ b = a ∨ b ∈ delete k l) as -> by (rewrite Hperm at 1; apply elem_of_cons).
  split; [by intros [[->|] ?]|]. intros Hb. split; [by right|]. by intros ->.
Qed.

Lemma root_delete_links h l k addr : roots_ok h l → l !! k = Some addr →
  roots_ok (root_delete addr h) (delete k l).
Proof.
  intros (Hnd & Hhead & Hl & Hdom) Hk. destruct (Hl k addr Hk) as [v Hv].
  assert (∀ i j b, l !! i = Some b → l !! j = Some b → i = j) as Hinj
    by (intros; by eapply NoDup_lookup).
  assert (NoDup (delete k l)) as Hnd' by (eapply sublist_NoDup; [done|apply sublist_delete]).
  unfold root_delete. rewrite Hv. cbn [prev_ next_].
  set (prev := match k with 0 => None | S k' => l !! k' end).
  set (mem1 := match prev with Some p => alter (λ q, with_next q (l !! S k)) p (slots_ h) | None => slots_ h end).
  set (head := match prev with Some _ => roots_ h | None => l !! S k end).
  set (mem2 := match l !! S k with Some n => alter (λ q, with_prev q prev) n mem1 | None => mem1 end).
  assert ((let '(head, mem) := match prev with
      | Some p => (roots_ h, alter (λ q, with_next q (l !! S k)) p (slots_ h))
      | None => (l !! S k, slots_ h) end in
    set_roots h head (delete addr match l !! S k with
      | Some n => alter (λ q, with_prev q prev) n mem | None => mem end)) =
    set_roots h head (delete addr mem2)) as -> by (unfold head, mem2, mem1; by destruct prev).
  split; [done|]. split; [|split].
  - cbn. unfold head, prev. destruct k as [|k].
    + rewrite list_lookup_delete_ge by lia. done.
    + destruct (l !! k) as [p|] eqn:Hp; [by rewrite list_lookup_delete_lt, Hhead by lia|].
      apply lookup_ge_None in Hp. apply lookup_lt_Some in Hk. lia.
  - intros j b Hj. cbn [slots_ set_roots].
    assert (b ≠ addr) as Hba.
    { intros ->. apply (proj2 (list_to_set_delete l k addr Hnd Hk)). by apply list_elem_of_lookup_2 in Hj. }
    rewrite lookup_delete_ne by done.
    unfold mem2. rewrite lookup_alter_opt. unfold mem1. rewrite lookup_alter_opt. unfold prev in *.
    destruct (decide (j < k)) as [Hjk|Hjk].
    + rewrite list_lookup_delete_lt in Hj by done. destruct (Hl j b Hj) as [v' Hv']. exists v'. rewrite Hv'.
      rewrite (decide_False (P := l !! S k = Some b))
        by (intros Hn; pose proof (Hinj _ _ _ Hj Hn); lia).
      destruct k as [|k]; [lia|].
      assert (match j with 0 => None | S j' => delete (S k) l !! j' end =
              match j with 0 => None | S j' => l !! j' end) as ->
        by (destruct j; [done|by rewrite list_lookup_delete_lt by lia]).
      destruct (decide (j = k)) as [->|Hne].
      * rewrite decide_True, list_lookup_delete_ge by (done || lia). done.
      * rewrite decide_False by (intros Hn; by pose proof (Hinj _ _ _ Hj Hn)).
        by rewrite list_lookup_delete_lt by lia.
    + rewrite list_lookup_delete_ge in Hj by lia. destruct (Hl (S j) b Hj) as [v' Hv']. exists v'. rewrite Hv'.
      rewrite (decide_False (P := match k with 0 => None | S k' => l !! k' end = Some b))
        by (destruct k; [done|]; intros Hn; pose proof (Hinj _ _ _ Hj Hn); lia).
      rewrite (list_lookup_delete_ge l k (S j)) by lia.
      destruct (decide (j = k)) as [->|Hne].
      * rewrite decide_True by done. cbn. do 2 f_equal.
        destruct k; [done|by rewrite list_lookup_delete_lt by lia].
      * rewrite decide_False by (intros Hn; pose proof (Hinj _ _ _ Hj Hn); lia).
        destruct j as [|j]; [lia|]. by rewrite list_lookup_delete_ge by lia.
  - cbn. rewrite dom_delete_L.
    unfold mem2, mem1. rewrite !dom_alter_opt, Hdom. by apply list_to_set_delete.
Qed.

(** the roots are a doubly linked list of exactly the live root objects,
    whatever the order they are created and destroyed in: creating a root links
    it in front, and destroying any root, first, last or in the middle, unlinks
    it and nothing else. *)
Theorem roots_linked h l :
  roots_ok h l →
  (∀ addr value, addr ∉ l → roots_ok (root_new addr value h) (addr :: l)) ∧
  (∀ k addr, l !! k = Some addr → roots_ok (root_delete addr h) (delete k l)) ∧
  (∀ addr value, roots_ok (root_set addr value h) l).
Proof.
  intros Hok. split; [|split].
  - intros. by apply root_new_links.
  - intros. by apply root_delete_links.
  - intros addr value. destruct Hok as (Hnd & Hh & Hl & Hd). split; [done|]. split; [done|]. split.
    + intros k a Hk. destruct (Hl k a Hk) as [v Hv]. cbn [slots_ root_set set_roots].
      destruct (decide (addr = a)) as [->|]; [|rewrite lookup_alter_ne by done; by exists v].
      rewrite lookup_alter_eq, Hv. by exists value.
    + cbn. by rewrite dom_alter_L.
Qed.

Lemma roots_linked_witness :
  roots_ok (root_delete 7 (root_new 8 nil (root_new 7 nil (new_heap false)))) [8].
Proof.
  assert (roots_ok (new_heap false) []) as H0.
  { split; [constructor|]. split; [done|]. split; [|set_solver]. intros k a. by rewrite lookup_nil. }
  destruct (roots_linked _ _ H0) as (H1 & _ & _). specialize (H1 7 nil ltac:(by apply not_elem_of_nil)).
  destruct (roots_linked _ _ H1) as (H2 & _ & _).
  specialize (H2 8 nil ltac:(by apply (bool_decide_unpack _))).
  destruct (roots_linked _ _ H2) as (_ & H3 & _). by apply (H3 1 7).
Defined.

(** ** Pins *)

Lemma emplace_last k v m : Forall (λ j, j < k)%Z m.*1 → emplace k v m = m ++ [(k, v)].
Proof.
  induction m as [|[j w] m IH]; intros Hm; cbn [emplace app]; [done|].
  rewrite fmap_cons in Hm. apply Forall_cons in Hm as [Hj Hm]. cbn in Hj.
  destruct (Z.ltb_spec k j); [lia|]. destruct (Z.eqb_spec k j); [lia|]. by rewrite IH.
Qed.

Lemma find_pin_app k m m' : find_pin k (m ++ m') =
  match find_pin k m with Some v => Some v | None => find_pin k m' end.
Proof. induction m as [|[j w] m IH]; cbn; [done|]. by destruct (k =? j)%Z. Qed.

Lemma find_pin_elem k v m : find_pin k m = Some v → k ∈ m.*1.
Proof.
  induction m as [|[j w] m IH]; cbn; [done|]. rewrite elem_of_cons.
  destruct (Z.eqb_spec k j) as [->|]; [by left|]. intros H. right. by apply IH.
Qed.

Lemma find_pin_erase j k m : find_pin j (erase k m) = if decide (j = k) then None else find_pin j m.
Proof.
  unfold erase. induction m as [|[i w] m IH]; [by case_decide|]. rewrite filter_cons. cbn [fst].
  destruct (decide (i ≠ k)) as [Hik|Hik]; cbn [find_pin].
  - rewrite IH. destruct (Z.eqb_spec j i) as [->|]; [by rewrite decide_False|done].
  - rewrite IH. apply dec_stable in Hik as ->. case_decide; [done|]. by destruct (Z.eqb_spec j k).
Qed.

Lemma sorted_snoc l k : StronglySorted Z.lt l → Forall (λ j, j < k)%Z l → StronglySorted Z.lt (l ++ [k]).
Proof.
  induction 1 as [|a l Hs IH Ha]; intros Hl; cbn; [by repeat constructor|].
  apply Forall_cons in Hl as [Hak Hl]. constructor; [by apply IH|]. apply Forall_app. by repeat constructor.
Qed.

Lemma make_pin_ok h v : heap_ok h → valid h v → (next_pin_ h ≤ max_immediate)%Z →
  make_pin v h = (Ret (immediate T_pin (next_pin_ h)),
    set_pins h (pins_ h ++ [(next_pin_ h, v)]) (next_pin_ h + 1)%Z) ∧
  heap_ok (make_pin v h).2.
Proof.
  intros Hh Hv Hn. destruct (hk_next_pin _ Hh) as [Hk Hr].
  assert (Forall (λ j, j < next_pin_ h)%Z (pins_ h).*1) as Hlt
    by (eapply Forall_impl; [exact Hk|]; cbn; lia).
  assert (make_pin v h = (Ret (immediate T_pin (next_pin_ h)),
    set_pins h (pins_ h ++ [(next_pin_ h, v)]) (next_pin_ h + 1)%Z)) as Hm.
  { unfold make_pin. destruct (Z.ltb_spec max_immediate (next_pin_ h)); [lia|].
    rewrite emplace_last by done. rewrite wrap_small; [done|].
    unfold max_immediate in Hn. change (Z.shiftl 1 27) with (2 ^ 27)%Z in Hn. lia. }
  rewrite Hm. split; [done|]. cbn [snd]. destruct Hh. split; try done.
  - intros t i r Ht Hi. apply (row_ok_mono h); try done. by eapply hk_rows0.
  - cbn [pins_ set_pins]. apply Forall_app. split; [done|]. by apply Forall_singleton.
  - cbn. rewrite fmap_app. by apply sorted_snoc.
  - cbn. rewrite fmap_app, Forall_app. split; [|lia]. split; [|repeat constructor; cbn; lia].
    eapply Forall_impl; [exact Hk|]. cbn. lia.
Qed.

Lemma Forall_filter {A} (Q P : A → Prop) `{!∀ x, Decision (P x)} (l : list A) :
  Forall Q l → Forall Q (filter P l).
Proof. rewrite !Forall_forall. intros Hf x [_ Hx]%list_elem_of_filter. by apply Hf. Qed.

Lemma filter_sorted (l : list (Z * Z)) (P : Z * Z → Prop) `{!∀ x, Decision (P x)} :
  StronglySorted Z.lt l.*1 → StronglySorted Z.lt (filter P l).*1.
Proof.
  induction l as [|p l IH]; [done|]. rewrite fmap_cons. intros Hs. inversion Hs as [|? ? Hs' Hp]; subst.
  rewrite filter_cons. case_decide; [|auto]. rewrite fmap_cons. constructor; [auto|].
  rewrite Forall_fmap in Hp |- *. by apply Forall_filter.
Qed.

Lemma free_pin_ok h pin : heap_ok h → tag_of pin = T_pin → heap_ok (free_pin pin h).2.
Proof.
  intros Hh Ht. unfold free_pin. rewrite bool_decide_eq_true_2 by done. cbn [snd]. destruct Hh.
  split; try done.
  - intros t i r Hp Hi. apply (row_ok_mono h); try done. by eapply hk_rows0.
  - by apply Forall_filter.
  - by apply filter_sorted.
  - cbn. destruct hk_next_pin0 as [Hk Hr]. split; [|done]. rewrite Forall_fmap in Hk |- *.
    by apply Forall_filter.
Qed.

(** a pin keeps its value until it is freed, and its id is never another
    pin's: a new pin reads as its value, every other pin reads as before, no id
    that was ever handed out is handed out again, and freeing a pin, once or
    twice, removes that pin alone. *)
Theorem pins_spec h v : heap_ok h → valid h v → (next_pin_ h ≤ max_immediate)%Z →
  ∃ pin h', make_pin v h = (Ret pin, h') ∧ heap_ok h' ∧
    pinned pin h' = Ret v ∧
    (∀ q, q ≠ pin → is_word q → tag_of q = T_pin → pinned q h' = pinned q h) ∧
    pinned pin h = Throw assertion ∧
    (∀ q, tag_of q = T_pin → is_word q → (free_pin q h').1 = Ret tt ∧
       pinned q (free_pin q h').2 = Throw assertion ∧
       (∀ p, p ≠ q → is_word p → tag_of p = T_pin → pinned p (free_pin q h').2 = pinned p h') ∧
       (free_pin q (free_pin q h').2).2 = (free_pin q h').2).
Proof.
  intros Hh Hv Hn. destruct (make_pin_ok h v Hh Hv Hn) as [Hm Hok]. rewrite Hm in *.
  destruct (hk_next_pin _ Hh) as [Hk Hr].
  assert (0 ≤ next_pin_ h < 2 ^ 27)%Z as Hrange.
  { unfold max_immediate in Hn. change (Z.shiftl 1 27) with (2 ^ 27)%Z in Hn. lia. }
  destruct (immediate_parts T_pin (next_pin_ h)) as (Hw & Ht & Hp); [done|done|].
  assert (∀ p q, is_word p → is_word q → tag_of p = T_pin → tag_of q = T_pin →
    payload_of p = payload_of q → p = q) as Hinj.
  { intros p q Hpw Hqw Hpt Hqt He.
    assert (∀ x, is_word x → tag_of x = T_pin → immediate T_pin (payload_of x) = x) as Hre.
    { intros x Hx Hxt. rewrite <- Hxt. apply immediate_rebuild; [done|]. by rewrite Hxt. }
    rewrite <- (Hre p), <- (Hre q), He by done. done. }
  assert (find_pin (next_pin_ h) (pins_ h) = None) as Hnone.
  { destruct (find_pin (next_pin_ h) (pins_ h)) as [w|] eqn:Hf; [|done].
    apply find_pin_elem in Hf. rewrite Forall_forall in Hk. specialize (Hk _ Hf). cbn in Hk. lia. }
  do 2 eexists. split; [done|]. split; [exact Hok|]. unfold pinned. rewrite Ht, Hp.
  rewrite !(bool_decide_eq_true_2 (T_pin = T_pin)) by done. cbn [pins_ set_pins].
  rewrite find_pin_app, Hnone. cbn [find_pin]. rewrite Z.eqb_refl.
  split; [done|]. split; [|split; [done|]].
  - intros q Hq Hqw Hqt. rewrite Hqt, !bool_decide_eq_true_2 by done. rewrite find_pin_app. cbn [find_pin].
    destruct (Z.eqb_spec (payload_of q) (next_pin_ h)) as [He|]; [|by destruct (find_pin (payload_of q) (pins_ h))].
    exfalso. apply Hq, Hinj; try done. by rewrite Hp.
  - intros q Hqt Hqw. unfold free_pin. rewrite Hqt, !bool_decide_eq_true_2 by done.
    cbn [fst snd pins_ set_pins next_pin_]. split; [done|]. rewrite find_pin_erase, decide_True by done.
    split; [done|]. split.
    + intros p Hpq Hpw Hpt. rewrite Hpt, !bool_decide_eq_true_2 by done. rewrite find_pin_erase, decide_False; [done|].
      intros He. by apply Hpq, Hinj.
    + unfold set_pins. cbn. f_equal. unfold erase. rewrite list_filter_filter_l; [done|]. tauto.
Qed.

Lemma pins_spec_witness :
  ∃ pin h', make_pin 5%Z (new_heap false) = (Ret pin, h') ∧ pinned pin h' = Ret 5%Z.
Proof.
  destruct (pins_spec (new_heap false) 5%Z) as (pin & h' & Hm & _ & Hp & _).
  - apply new_heap_ok.
  - split; [unfold is_word; lia|done].
  - done.
  - by exists pin, h'.
Defined.

(** The offset of a payload is a plain number in a row's first column, where the
    collector's mark is not allowed: when the pool's size is that mark, the next
    string cannot be made. *)
Lemma newv08_at_mark h xs : Z.of_nat (length (bytes_ h)) = zap →
  (Z.of_nat (length (bytes_ h) + length xs) ≤ word_limit)%Z →
  (newv08 (foreign xs) h).1 = Throw assertion.
Proof.
  intros Hz Hl. unfold newv08. rewrite append_ok by (done || lia). cbn [source_size content].
  destruct (Z.leb_spec (Z.of_nat (length (bytes_ h) + length xs)) word_limit); [|lia].
  rewrite Hz. unfold otry, make, obind, oassert. cbn [nth]. by rewrite Z.eqb_refl.
Qed.
