(* ===== verification/Collect.v ===== *)
(** * The collector (struct [tidy] of src/src/wisp/heap.cpp)

    An era-flipping copying collector: live rows are copied to a fresh vat, an
    old row that was copied is marked with [zap] and points to its copy, and the
    copies are scanned until nothing changes. *)
From S2P Require Import Prelude Word Vat Heap.

Record tidy := MkTidy {
  old : heap;
  next : vat;
  t_bytes : bytes;
  t_words : list Z;
  scan : list nat;
  word_scan : nat;
}.

Definition set_old (s : tidy) (h : heap) : tidy :=
  MkTidy h (next s) (t_bytes s) (t_words s) (scan s) (word_scan s).

Definition set_next (s : tidy) (v : vat) : tidy :=
  MkTidy (old s) v (t_bytes s) (t_words s) (scan s) (word_scan s).

Definition set_t_words (s : tidy) (w : list Z) : tidy :=
  MkTidy (old s) (next s) (t_bytes s) w (scan s) (word_scan s).

Definition set_t_bytes (s : tidy) (b : bytes) : tidy :=
  MkTidy (old s) (next s) b (t_words s) (scan s) (word_scan s).

Definition set_scan (s : tidy) (c : list nat) : tidy :=
  MkTidy (old s) (next s) (t_bytes s) (t_words s) c (word_scan s).

Definition set_word_scan (s : tidy) (n : nat) : tidy :=
  MkTidy (old s) (next s) (t_bytes s) (t_words s) (scan s) n.

(** ** The constructor *)

Fixpoint reserve_all (tags : list tag) (h : heap) (v : vat) : result fault vat :=
  match tags with
  | [] => Ret v
  | t :: tags' =>
      let! tb := reserve (table v t) (size_ (htable h t)) in
      reserve_all tags' h (with_table v t tb)
  end.

Fixpoint total_size (total : Z) (lens : list Z) : result fault Z :=
  match lens with
  | [] => Ret total
  | len :: lens' => let! total := pool_size total len in total_size total lens'
  end.

Definition start (h : heap) : result fault tidy :=
  let! v := reserve_all vat_tags h empty_vat in
  let! v32_lens := col (htable h T_v32) (column T_v32 F_len) in
  let! total := total_size 0 v32_lens in
  let! rec_lens := col (htable h T_rec) (column T_rec F_len) in
  let! _ := total_size total rec_lens in
  let! v08_lens := col (htable h T_v08) (column T_v08 F_len) in
  let! _ := total_size 0 v08_lens in
  Ret (MkTidy h v [] [] (replicate (length vat_tags) 0) 0).

(** ** Copying *)

(** A copied row's payload goes to the end of the new pool. *)
Definition move_payload (t : tag) (x : Z) (s : tidy) (data : row) : result fault (row * tidy) :=
  if word_payload t then
    let! payload := hwords t x (old s) in
    Ret (<[column t F_idx := u32 (Z.of_nat (length (t_words s)))]> data,
         set_t_words s (t_words s ++ payload))
  else if decide (t = T_v08) then
    let! payload := v08slice x (old s) in
    Ret (<[column t F_idx := u32 (Z.of_nat (length (t_bytes s)))]> data,
         set_t_bytes s (t_bytes s ++ payload))
  else Ret (data, s).

(** [push<T>] *)
Definition forward (t : tag) (x : Z) (s : tidy) : result fault (Z * tidy) :=
  if negb (pointer_word x) then Throw assertion
  else if negb (Bool.eqb (era_of x) (era_ (old s))) then Ret (x, s)
  else
    let from := htable (old s) t in
    let! i := check (old s) t x in
    let! mark := Vat.get from i 0 in
    if (mark =? zap)%Z then let! y := Vat.get from i 1 in Ret (y, s)
    else
      let! data := read from i in
      let! moved := move_payload t x s data in
      let '(data, s) := moved in
      let! pushed := push (table (next s) t) data in
      let '(j, to) := pushed in
      if pointer_ok t (Z.of_nat j) then
        let s := set_next s (with_table (next s) t to) in
        let y := pointer t (Z.of_nat j) (negb (era_ (old s))) in
        let! from := Vat.set from i 0 zap in
        let! from := Vat.set from i 1 y in
        Ret (y, set_old s (with_htable (old s) t from))
      else Throw assertion.

(** [copy]: the switch over the pointer tags. *)
Definition relocate (x : Z) (s : tidy) : result fault (Z * tidy) :=
  if is_pointer (tag_of x) then forward (tag_of x) x s else Ret (x, s).

(** ** Scanning *)

(** The columns of one row, from [c] on. *)
Fixpoint pull_columns (t : tag) (cols : list Vat.column) (cursor c : nat) (s : tidy) : result fault tidy :=
  match cols with
  | [] => Ret s
  | cl :: cols' =>
      let! s :=
        if decide (kind cl = K_value) then
          let! w := Vat.get (table (next s) t) cursor c in
          let! r := relocate w s in
          let '(value, s) := r in
          let! tb := Vat.set (table (next s) t) cursor c value in
          Ret (set_next s (with_table (next s) t tb))
        else Ret s in
      pull_columns t cols' cursor (S c) s
  end.

(** Rows from the cursor to the end of the table, which grows meanwhile; [None]
    is out of fuel. *)
Fixpoint pull_rows (fuel : nat) (t : tag) (s : tidy) : option (result fault tidy) :=
  match fuel with
  | 0 => None
  | S fuel' =>
      let cursor := nth (vat_index t) (scan s) 0 in
      if cursor <? size_ (table (next s) t) then
        match pull_columns t (schema t) cursor 0 s with
        | Throw e => Some (Throw e)
        | Ret s => pull_rows fuel' t (set_scan s (<[vat_index t := S cursor]> (scan s)))
        end
      else Some (Ret s)
  end.

(** Whether a table had rows to scan, and the state after scanning them. *)
Definition pull (fuel : nat) (t : tag) (s : tidy) : option (result fault (bool * tidy)) :=
  let changed := nth (vat_index t) (scan s) 0 <? size_ (table (next s) t) in
  match pull_rows fuel t s with
  | None => None
  | Some (Throw e) => Some (Throw e)
  | Some (Ret s) => Some (Ret (changed, s))
  end.

Fixpoint pull_all (fuel : nat) (tags : list tag) (changed : bool) (s : tidy)
    : option (result fault (bool * tidy)) :=
  match tags with
  | [] => Some (Ret (changed, s))
  | t :: tags' =>
      match pull fuel t s with
      | Some (Ret (c, s)) => pull_all fuel tags' (c || changed) s
      | r => r
      end
  end.

(** The loop over the copied words. *)
Fixpoint pull_words (fuel : nat) (changed : bool) (s : tidy) : option (result fault (bool * tidy)) :=
  match fuel with
  | 0 => None
  | S fuel' =>
      match t_words s !! word_scan s with
      | None => Some (Ret (changed, s))
      | Some w =>
          match relocate w s with
          | Throw e => Some (Throw e)
          | Ret (value, s) =>
              let s := set_t_words s (<[word_scan s := value]> (t_words s)) in
              pull_words fuel' true (set_word_scan s (S (word_scan s)))
          end
      end
  end.

(** The [do] loop. *)
Fixpoint rounds (fuel inner : nat) (s : tidy) : option (result fault tidy) :=
  match fuel with
  | 0 => None
  | S fuel' =>
      match pull_all inner vat_tags false s with
      | None => None
      | Some (Throw e) => Some (Throw e)
      | Some (Ret (changed, s)) =>
          match pull_words inner changed s with
          | None => None
          | Some (Throw e) => Some (Throw e)
          | Some (Ret (changed, s)) => if changed then rounds fuel' inner s else Some (Ret s)
          end
      end
  end.

(** ** Roots and pins *)

(** The pins, in key order: those done, and those still to do. *)
Fixpoint relocate_pins (done todo : list (Z * Z)) (s : tidy) : result fault tidy :=
  match todo with
  | [] => Ret (set_old s (set_pins (old s) done (next_pin_ (old s))))
  | (k, v) :: todo' =>
      let! r := relocate v s in
      let '(value, s) := r in
      relocate_pins (done ++ [(k, value)]) todo' s
  end.

(** The linked list of roots, from an address on. *)
Fixpoint relocate_roots (fuel : nat) (r : option nat) (s : tidy) : option (result fault tidy) :=
  match fuel with
  | 0 => None
  | S fuel' =>
      match r with
      | None => Some (Ret s)
      | Some a =>
          match slots_ (old s) !! a with
          | None => Some (Throw raw_access)
          | Some node =>
              match relocate (value_ node) s with
              | Throw e => Some (Throw e)
              | Ret (value, s) => relocate_roots fuel' (next_ node) (set_old s (root_set a value (old s)))
              end
          end
      end
  end.

(** How many turns any loop of the collector can take: every turn of the inner
    loops scans a copied row or word. *)
Definition collect_fuel (h : heap) : nat :=
  2 + foldr (λ tb n, size_ tb + n) 0 (vat_ h)
    + Z.to_nat (foldr (λ r n, nth 1 r 0 + n)%Z 0%Z (rows (htable h T_v32) ++ rows (htable h T_rec))).

(** [run]: the heap after it, and the ids released to the host. *)
Definition run (h : heap) (s : tidy) : option (result fault (list Z * heap)) :=
  match relocate_pins [] (pins_ h) s with
  | Throw e => Some (Throw e)
  | Ret s =>
      match relocate_roots (S (size (slots_ h))) (roots_ (old s)) s with
      | None => None
      | Some (Throw e) => Some (Throw e)
      | Some (Ret s) =>
          match rounds (collect_fuel h) (collect_fuel h) s with
          | None => None
          | Some (Throw e) => Some (Throw e)
          | Some (Ret s) =>
              Some (let! released := release_externals (old s) in
                    let o := old s in
                    Ret (released,
                      freeze_continuations
                        (MkHeap (next s) (t_bytes s) (t_words s) (pins_ o) (next_pin_ o) (roots_ o)
                           (negb (era_ o)) (frozen_ktx_ o) (host_ o) (slots_ o))))
          end
      end
  end.

(** [collect]: the ids released and the heap; when the reservation throws, the
    heap is the one it was called on. *)
Definition collect (h : heap) : option (result fault (list Z) * heap) :=
  match start h with
  | Throw e => Some (Throw e, h)
  | Ret s =>
      match run h s with
      | None => None
      | Some (Throw e) => Some (Throw e, h)
      | Some (Ret (released, h')) => Some (Ret released, h')
      end
  end.

(** ** What is live *)

(** The words a vector or record shows. *)
Definition payload (h : heap) (x : Z) : list Z :=
  take (Z.to_nat (nth 1 (row_of h x) 0%Z)) (drop (Z.to_nat (nth 0 (row_of h x) 0%Z)) (words_ h)).

(** The bytes a string shows. *)
Definition text (h : heap) (x : Z) : bytes :=
  take (Z.to_nat (nth 1 (row_of h x) 0%Z)) (drop (Z.to_nat (nth 0 (row_of h x) 0%Z)) (bytes_ h)).

(** The words an object holds: its value fields, and its payload. *)
Inductive holds (h : heap) (x y : Z) : Prop :=
| holds_field c : value_column_at (tag_of x) c → row_of h x !! c = Some y → holds h x y
| holds_word k : word_payload (tag_of x) = true → payload h x !! k = Some y → holds h x y.

(** The pointers reachable from the pins and the roots. *)
Inductive reach (h : heap) : Z → Prop :=
| reach_pin k x : (k, x) ∈ pins_ h → pointer_word x = true → reach h x
| reach_root a r : slots_ h !! a = Some r → pointer_word (value_ r) = true → reach h (value_ r)
| reach_step x y : reach h x → holds h x y → pointer_word y = true → reach h y.

(** What a word becomes when pointers move by [φ]. *)
Definition becomes (φ : Z → option Z) (x y : Z) : Prop := if pointer_word x then φ x = Some y else y = x.

(** [y] in one heap is [x] of another, moved: the same tag, the values moved, the
    other numbers the same, and the payload the same, moved. The offset of a
    payload is the collector's to choose. *)
Record same_object (h h' : heap) (φ : Z → option Z) (x y : Z) : Prop := {
  so_tag : tag_of y = tag_of x;
  so_values : ∀ c a, value_column_at (tag_of x) c → row_of h x !! c = Some a →
    ∃ b, row_of h' y !! c = Some b ∧ becomes φ a b;
  so_numbers : ∀ c, ~ value_column_at (tag_of x) c → (schema (tag_of x) = schema_v08 → c ≠ 0) →
    row_of h' y !! c = row_of h x !! c;
  so_payload : word_payload (tag_of x) = true → Forall2 (becomes φ) (payload h x) (payload h' y);
  so_text : tag_of x = T_v08 → text h' y = text h x;
}.

(** One heap is another, compacted: the pins and the roots are moved, everything
    reachable is there, moved, at a place of its own, and nothing else is. *)
Record compacted (h h' : heap) (φ : Z → option Z) : Prop := {
  ct_pins : Forall2 (λ a b, a.1 = b.1 ∧ becomes φ a.2 b.2) (pins_ h) (pins_ h');
  ct_roots : roots_ h' = roots_ h ∧ dom (slots_ h') = dom (slots_ h) ∧
    ∀ a r, slots_ h !! a = Some r →
      ∃ v, slots_ h' !! a = Some (with_value r v) ∧ becomes φ (value_ r) v;
  ct_live : ∀ x, reach h x → ∃ y, φ x = Some y ∧ valid h' y ∧ same_object h h' φ x y;
  ct_inj : ∀ x x' y, reach h x → reach h x' → φ x = Some y → φ x' = Some y → x = x';
  ct_only : ∀ y, pointer_word y = true → valid h' y → ∃ x, reach h x ∧ φ x = Some y;
}.

Lemma holds_valid h x y : heap_ok h → valid h x → pointer_word x = true → holds h x y → valid h y.
Proof.
  intros Hh Hv Hp [c Hc Hl|k Hw Hl].
  - eapply row_values; [|done|done]. by apply row_of_ok.
  - pose proof (hk_words _ Hh) as Hws. rewrite Forall_lookup in Hws. unfold payload in Hl.
    apply lookup_take_Some in Hl as [Hl _]. rewrite lookup_drop in Hl. by eapply Hws.
Qed.

Lemma reach_valid h x : heap_ok h → reach h x → valid h x ∧ pointer_word x = true.
Proof.
  intros Hh. induction 1 as [k x Hk Hp|a r Ha Hp|x y Hx [IHv IHp] Hy Hp].
  - split; [|done]. pose proof (hk_pins _ Hh) as Hpin. rewrite Forall_forall in Hpin. by apply (Hpin (k, x)).
  - split; [|done]. by eapply hk_slots.
  - split; [|done]. by eapply holds_valid.
Qed.

Lemma width_two t : is_pointer t = true → 2 ≤ width t.
Proof. destruct t; try done; intros _; by apply Nat.leb_le. Qed.

(** ** Lists and schemas *)

Lemma nth_insert0 (r : row) a b : 2 ≤ length r → nth 0 (<[1 := b]> (<[0 := a]> r)) 0%Z = a ∧
  nth 1 (<[1 := b]> (<[0 := a]> r)) 0%Z = b.
Proof. destruct r as [|x [|y r]]; cbn; [lia|lia|done]. Qed.

Lemma pool_lookup_grows {A} (p p' : list A) i x : (∃ l, p' = p ++ l) → p !! i = Some x → p' !! i = Some x.
Proof. intros [l ->] H. by apply lookup_app_l_Some. Qed.

Lemma fold_le (f g : tag → nat) l : Forall (λ t, f t ≤ g t) l →
  foldr (λ t n, f t + n) 0 l ≤ foldr (λ t n, g t + n) 0 l.
Proof. induction 1; cbn [foldr]; lia. Qed.

Lemma fold_lt (f g : tag → nat) l t : Forall (λ t, f t ≤ g t) l → t ∈ l → f t < g t →
  foldr (λ t n, f t + n) 0 l < foldr (λ t n, g t + n) 0 l.
Proof.
  induction 1 as [|u l Hu Hl IH]; intros Hin Ht; [by apply not_elem_of_nil in Hin|]. cbn [foldr].
  pose proof (fold_le f g l Hl). apply elem_of_cons in Hin as [->|Hin]; [lia|]. specialize (IH Hin Ht). lia.
Qed.

Lemma pointer_tags_all : Forall (λ t, is_pointer t = true) vat_tags.
Proof. by repeat constructor. Qed.

Lemma vat_fold v : length v = 11 →
  foldr (λ tb n, size_ tb + n) 0 v = foldr (λ t n, size_ (table v t) + n) 0 vat_tags.
Proof. intros Hl. do 12 (destruct v as [|? v]; try done). Qed.

Lemma nth_insert_eq (l : list nat) i v : i < length l → nth i (<[i := v]> l) 0 = v.
Proof. intros. apply nth_lookup_Some. by apply list_lookup_insert_eq. Qed.

Lemma nth_insert_ne (l : list nat) i k v : i ≠ k → nth k (<[i := v]> l) 0 = nth k l 0.
Proof. intros. rewrite !nth_lookup. by rewrite list_lookup_insert_ne. Qed.

Lemma take_drop_lookup {A} (l : list A) o n k : o + n ≤ length l → k < n → take n (drop o l) !! k = l !! (o + k).
Proof. intros Hl Hk. by rewrite lookup_take_lt, lookup_drop. Qed.

Lemma value_column_bound t c : value_column_at t c → c < width t.
Proof. intros (col & Hc & _). by eapply lookup_lt_Some. Qed.

(** The columns of a descriptor hold no guest values. *)
Lemma descriptor_columns t c : schema t = schema_v08 → ~ value_column_at t c.
Proof.
  intros Hs (col & Hc & Hk). rewrite Hs in Hc. destruct c as [|[|c]]; [..|done]; by injection Hc as <-.
Qed.

Lemma v08_schema t : t = T_v08 → schema t = schema_v08.
Proof. by intros ->. Qed.

Lemma value_column_dec t c : Decision (value_column_at t c).
Proof.
  unfold value_column_at. destruct (schema t !! c) as [cl|] eqn:Hc.
  - destruct (decide (kind cl = K_value)) as [Hk|Hk]; [left; by exists cl|].
    right. by intros (? & [= <-] & ?).
  - right. by intros (? & ? & ?).
Defined.

Lemma scan_zero t : nth (vat_index t) (replicate 11 0) 0 = 0.
Proof. by destruct t. Qed.

(** ** The invariant of the collector *)

Section collector.
Context (h0 : heap) (Hok : heap_ok h0).
#[local] Set Default Proof Using "All".

Abbreviation e := (era_ h0).

(** A word that needs no more work: not a pointer, or a pointer to a copy. *)
Definition settled (x : Z) : Prop :=
  is_word x ∧ (pointer_word x = true → era_of x = negb e).

(** Where an old pointer was copied to, if it was. *)
Definition fwd (s : tidy) (x : Z) : option Z :=
  if pointer_word x && Bool.eqb (era_of x) e then
    match rows (htable (old s) (tag_of x)) !! Z.to_nat (index_of x) with
    | Some r => if (nth 0 r 0 =? zap)%Z then Some (nth 1 r 0%Z) else None
    | None => None
    end
  else None.

(** A word and what stands for it: itself so far, or its copy. *)
Definition related (s : tidy) (x y : Z) : Prop := y = x ∨ fwd s x = Some y.

(** A word the collector may be asked to relocate. *)
Definition sound (x : Z) : Prop :=
  is_word x ∧ (pointer_word x = true → era_of x = e → valid h0 x ∧ reach h0 x).

(** A row and its copy, whose payload is in the new pools. *)
Record copied (s : tidy) (t : tag) (r0 r : row) : Prop := {
  cp_length : length r = length r0;
  cp_values : ∀ c x y, value_column_at t c → r0 !! c = Some x → r !! c = Some y → related s x y;
  cp_others : ∀ c, ~ value_column_at t c → (schema t = schema_v08 → c ≠ 0) → r !! c = r0 !! c;
  cp_words : word_payload t = true → (0 ≤ nth 0 r 0 ≤ Z.of_nat (length (t_words s)))%Z ∧ ∀ k, k < Z.to_nat (nth 1 r0 0%Z) →
    ∃ x y, words_ h0 !! (Z.to_nat (nth 0 r0 0%Z) + k) = Some x ∧
      t_words s !! (Z.to_nat (nth 0 r 0%Z) + k) = Some y ∧ related s x y;
  cp_bytes : t = T_v08 → (0 ≤ nth 0 r 0 ≤ Z.of_nat (length (t_bytes s)))%Z ∧ ∀ k, k < Z.to_nat (nth 1 r0 0%Z) →
    is_Some (t_bytes s !! (Z.to_nat (nth 0 r 0%Z) + k)) ∧
    t_bytes s !! (Z.to_nat (nth 0 r 0%Z) + k) = bytes_ h0 !! (Z.to_nat (nth 0 r0 0%Z) + k);
}.

Definition orow (t : tag) (i : nat) : option row := rows (htable h0 t) !! i.

(** The length a descriptor row gives. *)
Definition len_of (t : tag) (i : nat) : Z := nth 1 (default [] (orow t i)) 0%Z.

Definition sum_lens (t : tag) (l : list nat) : Z := foldr (λ i n, len_of t i + n)%Z 0%Z l.

Record inv (s : tidy) (src : tag → list nat) : Prop := {
  iv_vat : length (vat_ (old s)) = 11;
  iv_era : era_ (old s) = e;
  iv_pools : words_ (old s) = words_ h0 ∧ bytes_ (old s) = bytes_ h0;
  iv_tabs : ∀ t, is_pointer t = true →
    tab_ok (width t) (htable (old s) t) ∧ size_ (htable (old s) t) = size_ (htable h0 t);
  iv_old : ∀ t i r0, is_pointer t = true → orow t i = Some r0 →
    ((i ∉ src t) ∧ rows (htable (old s) t) !! i = Some r0) ∨
    (∃ j, src t !! j = Some i ∧
       rows (htable (old s) t) !! i = Some (<[1 := pointer t (Z.of_nat j) (negb e)]> (<[0 := zap]> r0)));
  iv_next : length (next s) = 11;
  iv_next_tabs : ∀ t, is_pointer t = true → tab_ok (width t) (table (next s) t);
  iv_src : ∀ t, is_pointer t = true →
    NoDup (src t) ∧ Forall (λ i, i < size_ (htable h0 t)) (src t) ∧
    length (src t) = size_ (table (next s) t);
  iv_copied : ∀ t j i r0 r, is_pointer t = true → src t !! j = Some i → orow t i = Some r0 →
    rows (table (next s) t) !! j = Some r → copied s t r0 r;
  iv_reach : ∀ t i, is_pointer t = true → i ∈ src t → reach h0 (pointer t (Z.of_nat i) e);
  iv_words : Forall (λ y, ∃ x, valid h0 x ∧ (pointer_word x = true → reach h0 x) ∧ related s x y) (t_words s);
  iv_count : Z.of_nat (length (t_words s)) = (sum_lens T_v32 (src T_v32) + sum_lens T_rec (src T_rec))%Z ∧
    Z.of_nat (length (t_bytes s)) = sum_lens T_v08 (src T_v08);
  iv_scan : length (scan s) = 11 ∧ ∀ t, is_pointer t = true →
    nth (vat_index t) (scan s) 0 ≤ size_ (table (next s) t) ∧
    ∀ j r c y, j < nth (vat_index t) (scan s) 0 → rows (table (next s) t) !! j = Some r →
      value_column_at t c → r !! c = Some y → settled y;
  iv_word_scan : word_scan s ≤ length (t_words s) ∧ Forall settled (take (word_scan s) (t_words s));
}.

(** How the state grows: copies are added, and nothing else changes. *)
Record grows (s s' : tidy) : Prop := {
  gr_fwd : ∀ x y, fwd s x = Some y → fwd s' x = Some y;
  gr_rows : ∀ t, is_pointer t = true → ∃ l, rows (table (next s') t) = rows (table (next s) t) ++ l;
  gr_words : ∃ l, t_words s' = t_words s ++ l;
  gr_bytes : ∃ l, t_bytes s' = t_bytes s ++ l;
  gr_scan : scan s' = scan s ∧ word_scan s' = word_scan s;
  gr_host : pins_ (old s') = pins_ (old s) ∧ next_pin_ (old s') = next_pin_ (old s) ∧
    roots_ (old s') = roots_ (old s) ∧ slots_ (old s') = slots_ (old s) ∧ host_ (old s') = host_ (old s) ∧
    frozen_ktx_ (old s') = frozen_ktx_ (old s);
}.

Lemma grows_refl s : grows s s.
Proof.
  split; try done.
  - intros. exists []. by rewrite app_nil_r.
  - exists []. by rewrite app_nil_r.
  - exists []. by rewrite app_nil_r.
Qed.

Lemma grows_trans s1 s2 s3 : grows s1 s2 → grows s2 s3 → grows s1 s3.
Proof.
  intros [F1 R1 W1 B1 S1 H1] [F2 R2 W2 B2 S2 H2]. split.
  - auto.
  - intros t Ht. destruct (R1 t Ht) as [l1 E1], (R2 t Ht) as [l2 E2]. exists (l1 ++ l2).
    by rewrite E2, E1, app_assoc.
  - destruct W1 as [l1 E1], W2 as [l2 E2]. exists (l1 ++ l2). by rewrite E2, E1, app_assoc.
  - destruct B1 as [l1 E1], B2 as [l2 E2]. exists (l1 ++ l2). by rewrite E2, E1, app_assoc.
  - destruct S1, S2. split; congruence.
  - destruct H1 as (? & ? & ? & ? & ? & ?), H2 as (? & ? & ? & ? & ? & ?). repeat split; congruence.
Qed.

Lemma related_grows s s' x y : (∀ x y, fwd s x = Some y → fwd s' x = Some y) → related s x y → related s' x y.
Proof. intros H [->|Hf]; [by left|right; auto]. Qed.

Lemma copied_grows s s' t r0 r : (∀ x y, fwd s x = Some y → fwd s' x = Some y) →
  (∃ l, t_words s' = t_words s ++ l) → (∃ l, t_bytes s' = t_bytes s ++ l) →
  copied s t r0 r → copied s' t r0 r.
Proof.
  intros HF HW HB [H1 H2 H3 H4 H5]. split; [done|..|done| |].
  - intros. eapply related_grows; [done|eauto].
  - intros Ht. destruct (H4 Ht) as [Hn Hk]. split; [destruct HW as [l ->]; len|]. intros k Hlt.
    destruct (Hk k Hlt) as (x & y & Hx & Hy & Hr). exists x, y. split; [done|].
    split; [by eapply pool_lookup_grows|by eapply related_grows].
  - intros Ht. destruct (H5 Ht) as [Hn Hk]. split; [destruct HB as [l ->]; len|]. intros k Hlt.
    destruct (Hk k Hlt) as [[b Hb] He]. rewrite <- He, Hb.
    rewrite (pool_lookup_grows _ _ _ _ HB Hb). done.
Qed.

Lemma copied_same s s' t r0 r : old s' = old s → t_words s' = t_words s → t_bytes s' = t_bytes s →
  copied s t r0 r → copied s' t r0 r.
Proof.
  intros Ho Hw Hb. apply copied_grows.
  - unfold fwd. by rewrite Ho.
  - exists []. by rewrite app_nil_r.
  - exists []. by rewrite app_nil_r.
Qed.

(** ** Forwarding *)

Lemma pointer_size t i : is_pointer t = true → i < size_ (htable h0 t) → (0 ≤ Z.of_nat i < 2 ^ 26)%Z.
Proof.
  intros Ht Hi. destruct (hk_tabs _ Hok t Ht) as [_ _ Hs Hc]. unfold max_rows, max_index in Hc.
  change (Z.shiftl 1 26) with (2 ^ 26)%Z in Hc. lia.
Qed.

Lemma orow_some t i : i < size_ (htable h0 t) → ∃ r0, orow t i = Some r0.
Proof. intros Hi. apply lookup_lt_is_Some_2. by rewrite rows_length. Qed.

(** An old pointer and the row it names. *)
Lemma valid_orow x : valid h0 x → pointer_word x = true →
  orow (tag_of x) (Z.to_nat (index_of x)) = Some (row_of h0 x) ∧
  pointer (tag_of x) (Z.of_nat (Z.to_nat (index_of x))) e = x.
Proof.
  intros Hv Hp. split; [by apply row_of_lookup|]. destruct Hv as [Hw Hv]. destruct (Hv Hp) as [He _].
  rewrite Z2Nat.id by apply index_of_range. rewrite <- He. by apply pointer_rebuild.
Qed.

Lemma orow_width t i r0 : is_pointer t = true → orow t i = Some r0 → length r0 = width t.
Proof.
  intros Ht Hi. pose proof (rows_width _ _ (hk_tabs _ Hok t Ht)) as Hw. rewrite Forall_lookup in Hw.
  by eapply Hw.
Qed.

(** [fwd] in terms of the sources of the copies. *)
Lemma fwd_spec s src t i r0 : inv s src → is_pointer t = true → orow t i = Some r0 →
  ((i ∉ src t) ∧ fwd s (pointer t (Z.of_nat i) e) = None) ∨
  (∃ j, src t !! j = Some i ∧ fwd s (pointer t (Z.of_nat i) e) = Some (pointer t (Z.of_nat j) (negb e))).
Proof.
  intros Hinv Ht Hi.
  assert (i < size_ (htable h0 t)) as Hlt by (rewrite <- rows_length; by eapply lookup_lt_Some).
  destruct (pointer_parts t (Z.of_nat i) e Ht (pointer_size t i Ht Hlt)) as (Hw & Htag & Hidx & Hera).
  pose proof (orow_width t i r0 Ht Hi) as Hlen. pose proof (width_two t Ht).
  unfold fwd, pointer_word. rewrite Htag, Ht, Hera, Bool.eqb_reflx, Hidx, Nat2Z.id. cbn [andb].
  destruct (iv_old _ _ Hinv t i r0 Ht Hi) as [[Hn ->]|(j & Hj & ->)].
  - left. split; [done|]. pose proof (hk_rows _ Hok t i r0 Ht Hi) as Hrow.
    destruct (Z.eqb_spec (nth 0 r0 0) zap)%Z; [|done]. by destruct (row_mark _ _ _ Hrow).
  - right. exists j. split; [done|].
    destruct (nth_insert0 r0 zap (pointer t (Z.of_nat j) (negb e))) as [-> ->]; [lia|].
    by rewrite Z.eqb_refl.
Qed.

(** A copy is a pointer of the new era, with the tag of its source, to a row of
    the new vat. *)
Lemma fwd_settled s src x y : inv s src → valid h0 x → fwd s x = Some y →
  pointer_word x = true ∧ settled y ∧ pointer_word y = true ∧ tag_of y = tag_of x ∧
  ∃ j, y = pointer (tag_of x) (Z.of_nat j) (negb e) ∧ Z.to_nat (index_of y) = j ∧
    src (tag_of x) !! j = Some (Z.to_nat (index_of x)) ∧ j < size_ (table (next s) (tag_of x)).
Proof.
  intros Hinv Hv Hf. assert (pointer_word x = true) as Hp
    by (unfold fwd in Hf; by destruct (pointer_word x)).
  destruct (valid_orow x Hv Hp) as [Ho Hx].
  destruct (fwd_spec s src _ _ _ Hinv Hp Ho) as [[_ Hf']|(j & Hj & Hf')]; rewrite Hx, Hf in Hf'; [done|].
  injection Hf' as ->. destruct (iv_src _ _ Hinv _ Hp) as (Hnd & Hrange & Hlen).
  assert (j < size_ (table (next s) (tag_of x))) as Hj' by (rewrite <- Hlen; by eapply lookup_lt_Some).
  assert (0 ≤ Z.of_nat j < 2 ^ 26)%Z as Hjr.
  { destruct (iv_next_tabs _ _ Hinv _ Hp) as [_ _ Hs Hc]. unfold max_rows, max_index in Hc.
    change (Z.shiftl 1 26) with (2 ^ 26)%Z in Hc. lia. }
  destruct (pointer_parts (tag_of x) (Z.of_nat j) (negb e) Hp Hjr) as (Hw & Htag & Hidx & Hera).
  split; [done|]. split; [by split|]. split; [unfold pointer_word; by rewrite Htag|].
  split; [done|]. exists j. rewrite Hidx, Nat2Z.id. done.
Qed.

Lemma len_nonneg t i : is_pointer t = true → (0 ≤ len_of t i)%Z.
Proof.
  intros Ht. unfold len_of. destruct (orow t i) as [r0|] eqn:Hi; [|done].
  by apply (row_nonneg h0 t), (hk_rows _ Hok t i r0 Ht Hi).
Qed.

Lemma sum_lens_app t l l' : sum_lens t (l ++ l') = (sum_lens t l + sum_lens t l')%Z.
Proof. unfold sum_lens. induction l as [|i l IH]; cbn [app foldr]; lia. Qed.

Lemma sum_lens_nonneg t l : is_pointer t = true → (0 ≤ sum_lens t l)%Z.
Proof.
  intros Ht. unfold sum_lens. induction l as [|i l IH]; cbn [foldr]; [lia|].
  pose proof (len_nonneg t i Ht). lia.
Qed.

Lemma sum_lens_perm t l l' : l ≡ₚ l' → sum_lens t l = sum_lens t l'.
Proof. unfold sum_lens. induction 1; cbn [foldr]; lia. Qed.

(** Copies never outgrow what was reserved. *)
Lemma sum_lens_le t l n : is_pointer t = true → NoDup l → Forall (λ i, i < n) l →
  (sum_lens t l ≤ sum_lens t (seq 0 n))%Z.
Proof.
  intros Ht Hnd Hl.
  assert (l ⊆+ seq 0 n) as [k Hk]%submseteq_Permutation.
  { apply NoDup_submseteq; [done|]. intros i Hi. apply elem_of_seq. rewrite Forall_forall in Hl.
    specialize (Hl i Hi). cbn in Hl. lia. }
  rewrite (sum_lens_perm t _ _ Hk), sum_lens_app. pose proof (sum_lens_nonneg t k Ht). lia.
Qed.

Lemma sum_lens_rows t : is_pointer t = true →
  sum_lens t (seq 0 (size_ (htable h0 t))) = foldr (λ r n, nth 1 r 0 + n)%Z 0%Z (rows (htable h0 t)).
Proof.
  intros Ht. rewrite <- (rows_length (htable h0 t)). unfold sum_lens, len_of, orow.
  assert (∀ pre l, rows (htable h0 t) = pre ++ l →
    foldr (λ i n, nth 1 (default [] (rows (htable h0 t) !! i)) 0 + n)%Z 0%Z (seq (length pre) (length l)) =
    foldr (λ r n, nth 1 r 0 + n)%Z 0%Z l) as H; [|by apply (H [])].
  intros pre l. revert pre. induction l as [|r l IH]; intros pre He; [done|]. cbn [length seq foldr].
  specialize (IH (pre ++ [r])). rewrite length_app, Nat.add_1_r in IH. rewrite IH by (by rewrite <- app_assoc).
  by rewrite He, lookup_app_r, Nat.sub_diag by done.
Qed.

(** The state the constructor starts from. *)
Lemma start_inv s : old s = h0 → length (next s) = 11 →
  (∀ t, is_pointer t = true → tab_ok (width t) (table (next s) t) ∧ size_ (table (next s) t) = 0) →
  t_bytes s = [] → t_words s = [] → scan s = replicate 11 0 → word_scan s = 0 → inv s (λ _, []).
Proof.
  intros Ho Hn Ht Hb Hw Hs Hws.
  assert (∀ t j r, is_pointer t = true → rows (table (next s) t) !! j = Some r → False) as Hno.
  { intros t j r Hp Hr. destruct (Ht t Hp) as [_ H0]. apply lookup_lt_Some in Hr. rewrite rows_length in Hr. lia. }
  split; rewrite ?Ho, ?Hb, ?Hw, ?Hws.
  - apply (hk_vat _ Hok).
  - done.
  - done.
  - intros t Hp. split; [by apply (hk_tabs _ Hok)|done].
  - intros t i r0 Hp Hr. left. split; [by apply not_elem_of_nil|done].
  - done.
  - intros t Hp. by apply Ht.
  - intros t Hp. split; [constructor|]. split; [constructor|]. by destruct (Ht t Hp) as [_ ->].
  - intros t j i r0 r Hp Hj. done.
  - intros t i Hp Hi. by apply not_elem_of_nil in Hi.
  - constructor.
  - done.
  - rewrite Hs. split; [by rewrite length_replicate|]. intros t Hp. rewrite scan_zero. split; [lia|]. lia.
  - split; [done|]. constructor.
Qed.

(** The sizes the constructor checked. *)
Context (Hwords : (sum_lens T_v32 (seq 0 (size_ (htable h0 T_v32)))
                   + sum_lens T_rec (seq 0 (size_ (htable h0 T_rec))) ≤ word_limit)%Z).
Context (Hbytes : (sum_lens T_v08 (seq 0 (size_ (htable h0 T_v08))) ≤ word_limit)%Z).

Lemma fresh_room s src t i : inv s src → is_pointer t = true → i < size_ (htable h0 t) → i ∉ src t →
  NoDup (src t ++ [i]) ∧ Forall (λ j, j < size_ (htable h0 t)) (src t ++ [i]) ∧
  (Z.of_nat (size_ (table (next s) t)) < max_rows)%Z.
Proof.
  intros Hinv Ht Hi Hn. destruct (iv_src _ _ Hinv t Ht) as (Hnd & Hr & Hl).
  assert (NoDup (src t ++ [i])) as Hnd'.
  { apply NoDup_app. split; [done|]. split; [|apply NoDup_singleton].
    intros j Hj ->%list_elem_of_singleton. done. }
  assert (Forall (λ j, j < size_ (htable h0 t)) (src t ++ [i])) as Hr'
    by (apply Forall_app; by rewrite Forall_singleton).
  split; [done|]. split; [done|].
  assert (length (src t ++ [i]) ≤ length (seq 0 (size_ (htable h0 t)))) as Hle.
  { apply submseteq_length, NoDup_submseteq; [done|]. intros j Hj. apply elem_of_seq.
    rewrite Forall_forall in Hr'. specialize (Hr' j Hj). cbn in Hr'. lia. }
  rewrite length_app, length_seq in Hle. cbn in Hle.
  destruct (hk_tabs _ Hok t Ht) as [_ _ Hs Hc]. lia.
Qed.

(** The state after the payload of [x] is copied. *)
Definition moved (s : tidy) (x : Z) : tidy :=
  set_t_bytes
    (set_t_words s (t_words s ++ if word_payload (tag_of x) then payload h0 x else []))
    (t_bytes s ++ if decide (tag_of x = T_v08) then text h0 x else []).

(** The row that is pushed for [x]. *)
Definition moved_row (s : tidy) (x : Z) : row :=
  if word_payload (tag_of x) then <[0 := Z.of_nat (length (t_words s))]> (row_of h0 x)
  else if decide (tag_of x = T_v08) then <[0 := Z.of_nat (length (t_bytes s))]> (row_of h0 x)
  else row_of h0 x.

(** A live row that was not copied reads as it did. *)
Lemma unforwarded_row s src x : inv s src → valid h0 x → pointer_word x = true → fwd s x = None →
  (Z.to_nat (index_of x) ∉ src (tag_of x)) ∧
  rows (htable (old s) (tag_of x)) !! Z.to_nat (index_of x) = Some (row_of h0 x).
Proof.
  intros Hinv Hv Hp Hf. destruct (valid_orow x Hv Hp) as [Ho Hx].
  destruct (iv_old _ _ Hinv _ _ _ Hp Ho) as [|(j & Hj & _)]; [done|].
  destruct (fwd_spec s src _ _ _ Hinv Hp Ho) as [[Hn _]|(j' & _ & Hf')].
  - destruct Hn. by eapply list_elem_of_lookup_2.
  - rewrite Hx, Hf in Hf'. done.
Qed.

Lemma check_old s src x : inv s src → valid h0 x → pointer_word x = true →
  check (old s) (tag_of x) x = Ret (Z.to_nat (index_of x)).
Proof.
  intros Hinv Hv Hp. apply check_ok; [|done|done]. split; [by destruct Hv|]. intros _.
  destruct Hv as [_ Hv]. destruct (Hv Hp) as [He Hi]. rewrite (iv_era _ _ Hinv).
  by rewrite (proj2 (iv_tabs _ _ Hinv _ Hp)).
Qed.

Lemma hread_old s src x : inv s src → valid h0 x → pointer_word x = true → fwd s x = None →
  hread (tag_of x) x (old s) = Ret (row_of h0 x).
Proof.
  intros Hinv Hv Hp Hf. destruct (unforwarded_row s src x Hinv Hv Hp Hf) as [_ Hr].
  unfold hread. rewrite (check_old s src) by done. cbn [bind].
  by apply (read_ok _ _ _ _ (proj1 (iv_tabs _ _ Hinv _ Hp))).
Qed.

Lemma fresh_counts s src x : inv s src → valid h0 x → pointer_word x = true → fwd s x = None →
  (word_payload (tag_of x) = true → (Z.of_nat (length (t_words s)) ≤ word_limit)%Z) ∧
  (tag_of x = T_v08 → (Z.of_nat (length (t_bytes s)) ≤ word_limit)%Z).
Proof.
  intros Hinv Hv Hp Hf. destruct (iv_count _ _ Hinv) as [-> ->].
  assert (∀ t, is_pointer t = true → (sum_lens t (src t) ≤ sum_lens t (seq 0 (size_ (htable h0 t))))%Z) as Hle.
  { intros t Ht. destruct (iv_src _ _ Hinv t Ht) as (Hnd & Hr & _). by apply sum_lens_le. }
  pose proof (Hle T_v32 eq_refl). pose proof (Hle T_rec eq_refl). pose proof (Hle T_v08 eq_refl).
  split; intros _; lia.
Qed.

Lemma move_payload_ok s src x : inv s src → valid h0 x → pointer_word x = true → fwd s x = None →
  move_payload (tag_of x) x s (row_of h0 x) = Ret (moved_row s x, moved s x).
Proof.
  intros Hinv Hv Hp Hf. pose proof (row_of_ok h0 x Hok Hv Hp) as Hrow.
  destruct (fresh_counts s src x Hinv Hv Hp Hf) as [Hcw Hcb].
  destruct (iv_pools _ _ Hinv) as [Hpw Hpb].
  unfold move_payload, moved_row, moved. destruct (word_payload (tag_of x)) eqn:Hwp.
  - assert (tag_of x ≠ T_v08) as Hn8 by (by apply word_payload_cases).
    rewrite (decide_False (P := tag_of x = T_v08)) by done.
    unfold hwords, words_place. rewrite (hread_old s src) by done. cbn [bind].
    rewrite Hpw, (slice_ok _ _ _ _ Hrow (row_v32 _ _ _ Hrow Hwp)). cbn [bind fst snd].
    rewrite u32_small by auto. assert (column (tag_of x) F_idx = 0) as ->.
    { destruct (word_payload_cases _ Hwp) as (_ & Hs & _). unfold column, column_index. by rewrite Hs. }
    unfold set_t_bytes, set_t_words. cbn. by rewrite app_nil_r.
  - destruct (decide (tag_of x = T_v08)) as [H8|H8].
    + unfold v08slice, v08_place. rewrite <- H8 at 1. rewrite (hread_old s src) by done. cbn [bind].
      rewrite Hpb, (slice_ok _ _ _ _ Hrow (row_v08 _ _ _ Hrow H8)). cbn [bind fst snd].
      rewrite u32_small by auto. rewrite H8. unfold set_t_bytes, set_t_words. cbn. by rewrite app_nil_r.
    + unfold set_t_bytes, set_t_words. cbn. rewrite !app_nil_r. by destruct s.
Qed.

(** The sources once [x] is copied. *)
Definition add_src (src : tag → list nat) (x : Z) (u : tag) : list nat :=
  if decide (u = tag_of x) then src u ++ [Z.to_nat (index_of x)] else src u.

(** The state once [x] is copied, given its new tables. *)
Definition forwarded (s : tidy) (x : Z) (to from : tab) : tidy :=
  set_old (set_next (moved s x) (with_table (next s) (tag_of x) to))
    (with_htable (old s) (tag_of x) from).

(** The two tables: the copy is appended to one, the mark set in the other. *)
Record forwards (s : tidy) (x : Z) (to from : tab) : Prop := {
  fw_to : tab_ok (width (tag_of x)) to;
  fw_to_rows : rows to = rows (table (next s) (tag_of x)) ++ [moved_row s x];
  fw_from : tab_ok (width (tag_of x)) from;
  fw_from_size : size_ from = size_ (htable (old s) (tag_of x));
  fw_from_rows : rows from =
    <[Z.to_nat (index_of x) :=
        <[1 := pointer (tag_of x) (Z.of_nat (size_ (table (next s) (tag_of x)))) (negb e)]>
          (<[0 := zap]> (row_of h0 x))]> (rows (htable (old s) (tag_of x)));
}.

Lemma moved_row_length s x : length (moved_row s x) = length (row_of h0 x).
Proof. unfold moved_row. repeat case_match; by rewrite ?length_insert. Qed.

(** Copying [x]: what [forward] does when [x] was not copied before. *)
Lemma forward_fresh s src x : inv s src → valid h0 x → pointer_word x = true → fwd s x = None →
  ∃ to from, forwards s x to from ∧
    forward (tag_of x) x s =
      Ret (pointer (tag_of x) (Z.of_nat (size_ (table (next s) (tag_of x)))) (negb e),
           forwarded s x to from).
Proof.
  intros Hinv Hv Hp Hf. destruct (unforwarded_row s src x Hinv Hv Hp Hf) as [Hn Hr].
  pose proof (row_of_ok h0 x Hok Hv Hp) as Hrow. pose proof (row_of_length h0 x Hok Hv Hp) as Hlen.
  pose proof (width_two _ Hp) as Hw2. destruct (iv_tabs _ _ Hinv _ Hp) as [Htab Hsz].
  assert (Z.to_nat (index_of x) < size_ (htable h0 (tag_of x))) as Hi by (by destruct Hv as [_ [? ?]]).
  destruct (fresh_room s src _ _ Hinv Hp Hi Hn) as (_ & _ & Hroom).
  destruct (push_ok _ _ (moved_row s x) (iv_next_tabs _ _ Hinv _ Hp)) as (to & Hpush & Hto & Htor & Htos & _);
    [by rewrite moved_row_length|done|].
  set (y := pointer (tag_of x) (Z.of_nat (size_ (table (next s) (tag_of x)))) (negb e)).
  destruct (set_ok _ _ _ 0 zap _ Htab Hr) as (from1 & Hset1 & Hfrom1 & Hrows1 & Hs1 & _); [lia|].
  assert (rows from1 !! Z.to_nat (index_of x) = Some (<[0 := zap]> (row_of h0 x))) as Hr1
    by (rewrite Hrows1; apply list_lookup_insert_eq; by eapply lookup_lt_Some).
  destruct (set_ok _ _ _ 1 y _ Hfrom1 Hr1) as (from2 & Hset2 & Hfrom2 & Hrows2 & Hs2 & _); [lia|].
  exists to, from2. split.
  - split; [done|done|done|congruence|]. by rewrite Hrows2, Hrows1, list_insert_insert_eq.
  - unfold forward. rewrite Hp, (iv_era _ _ Hinv). destruct Hv as [Hw Hv']. destruct (Hv' Hp) as [He _].
    rewrite He, Bool.eqb_reflx. cbn [negb].
    rewrite (check_old s src) by (done || by split). cbn [bind].
    destruct (get_ok _ _ _ 0 _ Htab Hr) as (m & Hm & ->); [lia|]. cbn [bind].
    destruct (Z.eqb_spec m zap) as [->|_].
    { destruct (row_mark _ _ _ Hrow). by apply nth_lookup_Some. }
    rewrite (read_ok _ _ _ _ Htab Hr). cbn [bind].
    rewrite (move_payload_ok s src) by (done || by split). cbn [bind].
    change (next (moved s x)) with (next s). rewrite Hpush. cbn [bind].
    assert (pointer_ok (tag_of x) (Z.of_nat (size_ (table (next s) (tag_of x)))) = true) as ->.
    { unfold pointer_ok. change (is_pointer (tag_of x)) with (pointer_word x). rewrite Hp.
      unfold max_rows in Hroom. cbn [andb]. lia. }
    change (era_ (old (set_next (moved s x) (with_table (next s) (tag_of x) to)))) with (era_ (old s)).
    rewrite (iv_era _ _ Hinv). fold y. rewrite Hset1. cbn [bind]. rewrite Hset2. done.
Qed.

Lemma forwarded_next s src x to from u : inv s src → pointer_word x = true → is_pointer u = true →
  table (next (forwarded s x to from)) u = if decide (u = tag_of x) then to else table (next s) u.
Proof.
  intros Hinv Hp Hu. cbn [next forwarded set_old set_next]. case_decide as Hd.
  - subst u. apply table_with_eq; [done|apply (iv_next _ _ Hinv)].
  - by apply table_with_ne.
Qed.

Lemma forwarded_old s src x to from u : inv s src → pointer_word x = true → is_pointer u = true →
  htable (old (forwarded s x to from)) u = if decide (u = tag_of x) then from else htable (old s) u.
Proof.
  intros Hinv Hp Hu. cbn [old forwarded set_old]. unfold htable, with_htable. cbn [vat_ set_vat].
  case_decide as Hd.
  - subst u. apply table_with_eq; [done|apply (iv_vat _ _ Hinv)].
  - by apply table_with_ne.
Qed.

(** Marking [x] changes no other forwarding. *)
Lemma forwarded_fwd s src x to from : inv s src → valid h0 x → pointer_word x = true → fwd s x = None →
  forwards s x to from →
  fwd (forwarded s x to from) x =
    Some (pointer (tag_of x) (Z.of_nat (size_ (table (next s) (tag_of x)))) (negb e)) ∧
  ∀ a b, fwd s a = Some b → fwd (forwarded s x to from) a = Some b.
Proof.
  intros Hinv Hv Hp Hf [_ _ _ Hsz Hrows]. destruct (unforwarded_row s src x Hinv Hv Hp Hf) as [Hn Hr].
  pose proof (row_of_length h0 x Hok Hv Hp) as Hlen. pose proof (width_two _ Hp) as Hw2. split.
  - unfold fwd. destruct Hv as [_ Hv]. destruct (Hv Hp) as [He _]. rewrite Hp, He, Bool.eqb_reflx. cbn [andb].
    rewrite (forwarded_old s src), decide_True, Hrows by done.
    rewrite list_lookup_insert_eq by (by eapply lookup_lt_Some).
    edestruct (nth_insert0 (row_of h0 x)) as [-> ->]; [lia|]. by rewrite Z.eqb_refl.
  - intros a b Hab. assert (pointer_word a = true) as Hpa by (unfold fwd in Hab; by destruct (pointer_word a)).
    unfold fwd in Hab |- *. rewrite Hpa in *. destruct (Bool.eqb (era_of a) e) eqn:Hea; [|done]. cbn [andb] in *.
    rewrite (forwarded_old s src) by done. case_decide as Hd; [|done]. rewrite Hrows.
    rewrite Hd in Hab. destruct (decide (Z.to_nat (index_of x) = Z.to_nat (index_of a))) as [Hi|Hi].
    + exfalso. unfold fwd in Hf. destruct Hv as [_ Hv]. destruct (Hv Hp) as [He _].
      rewrite Hp, He, Bool.eqb_reflx in Hf. cbn [andb] in Hf. rewrite Hi in Hf. by rewrite Hf in Hab.
    + by rewrite list_lookup_insert_ne.
Qed.

Lemma forwarded_grows s src x to from : inv s src → valid h0 x → pointer_word x = true → fwd s x = None →
  forwards s x to from → grows s (forwarded s x to from).
Proof.
  intros Hinv Hv Hp Hf Hfw. split.
  - by apply (forwarded_fwd s src).
  - intros u Hu. rewrite (forwarded_next s src) by done. case_decide as Hd.
    + subst u. eexists. apply (fw_to_rows _ _ _ _ Hfw).
    + exists []. by rewrite app_nil_r.
  - by eexists.
  - by eexists.
  - done.
  - done.
Qed.

(** A fresh copy is a copy: its values stand for themselves, and its payload was
    just appended. *)
Lemma fresh_copied s x to from : valid h0 x → pointer_word x = true →
  copied (forwarded s x to from) (tag_of x) (row_of h0 x) (moved_row s x).
Proof.
  intros Hv Hp. pose proof (row_of_ok h0 x Hok Hv Hp) as Hrow.
  pose proof (row_of_length h0 x Hok Hv Hp) as Hlen. pose proof (width_two _ Hp) as Hw2.
  assert (schema (tag_of x) ≠ schema_v08 → moved_row s x = row_of h0 x) as Hsame.
  { intros Hs. unfold moved_row. destruct (word_payload (tag_of x)) eqn:Hw.
    - by destruct (word_payload_cases _ Hw) as (_ & ? & _).
    - case_decide as H8; [|done]. by apply v08_schema in H8. }
  split.
  - apply moved_row_length.
  - intros c a b Hc Ha Hb. left.
    assert (schema (tag_of x) ≠ schema_v08) as Hs by (intros Hs; by apply (descriptor_columns _ c Hs)).
    rewrite Hsame in Hb by done. congruence.
  - intros c Hc H0. unfold moved_row.
    destruct (word_payload (tag_of x)) eqn:Hw; [|case_decide as H8; [|done]].
    + destruct (word_payload_cases _ Hw) as (_ & Hs & _). rewrite list_lookup_insert_ne; [done|].
      specialize (H0 Hs). lia.
    + rewrite list_lookup_insert_ne; [done|]. specialize (H0 (v08_schema _ H8)). lia.
  - intros Hw. unfold moved_row. rewrite Hw.
    assert (nth 0 (<[0 := Z.of_nat (length (t_words s))]> (row_of h0 x)) 0%Z = Z.of_nat (length (t_words s))) as ->.
    { apply nth_lookup_Some, list_lookup_insert_eq. lia. }
    split; [cbn [t_words t_bytes forwarded set_old set_next moved set_t_bytes set_t_words]; len|]. intros k Hk.
    pose proof (in_pool_bounds _ _ _ _ Hrow (row_v32 _ _ _ Hrow Hw)) as Hb.
    destruct (lookup_lt_is_Some_2 (words_ h0) (Z.to_nat (nth 0 (row_of h0 x) 0%Z) + k)) as [w Hwk]; [lia|].
    exists w, w. split; [done|]. split; [|by left]. cbn. rewrite Hw, Nat2Z.id.
    rewrite lookup_app_r by lia. replace (length (t_words s) + k - length (t_words s)) with k by lia.
    unfold payload. rewrite lookup_take_lt, lookup_drop by done. done.
  - intros H8. unfold moved_row. rewrite decide_True by done.
    assert (word_payload (tag_of x) = false) as -> by (by rewrite H8).
    assert (nth 0 (<[0 := Z.of_nat (length (t_bytes s))]> (row_of h0 x)) 0%Z = Z.of_nat (length (t_bytes s))) as ->.
    { apply nth_lookup_Some, list_lookup_insert_eq. lia. }
    split; [cbn [t_words t_bytes forwarded set_old set_next moved set_t_bytes set_t_words]; len|]. intros k Hk.
    pose proof (in_pool_bounds _ _ _ _ Hrow (row_v08 _ _ _ Hrow H8)) as Hb.
    destruct (lookup_lt_is_Some_2 (bytes_ h0) (Z.to_nat (nth 0 (row_of h0 x) 0%Z) + k)) as [w Hwk]; [lia|].
    cbn. rewrite decide_True, Nat2Z.id by done. rewrite lookup_app_r by lia.
    replace (length (t_bytes s) + k - length (t_bytes s)) with k by lia.
    unfold text. rewrite lookup_take_lt, lookup_drop, Hwk by done. done.
Qed.

Lemma payload_length x : valid h0 x → word_payload (tag_of x) = true →
  Z.of_nat (length (payload h0 x)) = len_of (tag_of x) (Z.to_nat (index_of x)).
Proof.
  intros Hv Hw. destruct (word_payload_cases _ Hw) as (Hp & _ & _).
  destruct (valid_orow x Hv Hp) as [Ho _]. unfold len_of. rewrite Ho. cbn.
  pose proof (row_of_ok h0 x Hok Hv Hp) as Hrow.
  pose proof (in_pool_bounds _ _ _ _ Hrow (row_v32 _ _ _ Hrow Hw)) as Hb.
  pose proof (row_nonneg _ _ _ 1 Hrow). unfold payload. rewrite length_take, length_drop. lia.
Qed.

Lemma text_length x : valid h0 x → tag_of x = T_v08 →
  Z.of_nat (length (text h0 x)) = len_of (tag_of x) (Z.to_nat (index_of x)).
Proof.
  intros Hv H8. assert (is_pointer (tag_of x) = true) as Hp by (by rewrite H8).
  destruct (valid_orow x Hv Hp) as [Ho _]. unfold len_of. rewrite Ho. cbn.
  pose proof (row_of_ok h0 x Hok Hv Hp) as Hrow.
  pose proof (in_pool_bounds _ _ _ _ Hrow (row_v08 _ _ _ Hrow H8)) as Hb.
  pose proof (row_nonneg _ _ _ 1 Hrow). unfold text. rewrite length_take, length_drop. lia.
Qed.

Lemma sum_lens_add src x t : sum_lens t (add_src src x t) =
  (sum_lens t (src t) + if decide (t = tag_of x) then len_of t (Z.to_nat (index_of x)) else 0)%Z.
Proof.
  unfold add_src. case_decide; [|lia]. rewrite sum_lens_app. unfold sum_lens at 2. cbn [foldr]. lia.
Qed.

Lemma forwarded_counts s src x to from : inv s src → valid h0 x → pointer_word x = true →
  Z.of_nat (length (t_words (forwarded s x to from))) =
    (sum_lens T_v32 (add_src src x T_v32) + sum_lens T_rec (add_src src x T_rec))%Z ∧
  Z.of_nat (length (t_bytes (forwarded s x to from))) = sum_lens T_v08 (add_src src x T_v08).
Proof.
  intros Hinv Hv Hp. destruct (iv_count _ _ Hinv) as [Hcw Hcb]. rewrite !sum_lens_add.
  cbn [t_words t_bytes forwarded set_old set_next moved set_t_bytes set_t_words].
  rewrite !length_app, !Nat2Z.inj_add, Hcw, Hcb. split.
  - destruct (word_payload (tag_of x)) eqn:Hw.
    + rewrite payload_length by done. unfold word_payload in Hw.
      destruct (decide (T_v32 = tag_of x)) as [H1|H1], (decide (T_rec = tag_of x)) as [H2|H2];
        try congruence; rewrite <- ?H1, <- ?H2; try lia.
      exfalso. rewrite !bool_decide_eq_false_2 in Hw by congruence. done.
    + rewrite !decide_False by (intros H; by rewrite <- H in Hw). cbn. lia.
  - destruct (decide (tag_of x = T_v08)) as [H8|H8].
    + rewrite text_length, decide_True by done. by rewrite H8.
    + rewrite decide_False by congruence. cbn. lia.
Qed.

Lemma forwarded_old_rows s src x to from : inv s src → valid h0 x → pointer_word x = true →
  fwd s x = None → forwards s x to from → ∀ t i r0, is_pointer t = true → orow t i = Some r0 →
  ((i ∉ add_src src x t) ∧ rows (htable (old (forwarded s x to from)) t) !! i = Some r0) ∨
  (∃ j, add_src src x t !! j = Some i ∧
     rows (htable (old (forwarded s x to from)) t) !! i =
       Some (<[1 := pointer t (Z.of_nat j) (negb e)]> (<[0 := zap]> r0))).
Proof.
  intros Hinv Hv Hp Hf Hfw t i r0 Ht Hi. rewrite (forwarded_old s src) by done. unfold add_src.
  destruct (unforwarded_row s src x Hinv Hv Hp Hf) as [Hn Hr].
  case_decide as Hd; [|by apply (iv_old _ _ Hinv)]. subst t. rewrite (fw_from_rows _ _ _ _ Hfw).
  destruct (decide (Z.to_nat (index_of x) = i)) as [<-|Hne].
  - right. exists (length (src (tag_of x))). rewrite lookup_app_r, Nat.sub_diag by done. split; [done|].
    rewrite list_lookup_insert_eq by (by eapply lookup_lt_Some).
    destruct (iv_src _ _ Hinv _ Hp) as (_ & _ & ->).
    destruct (valid_orow x Hv Hp) as [Ho _]. rewrite Hi in Ho. by injection Ho as <-.
  - rewrite list_lookup_insert_ne by done. destruct (iv_old _ _ Hinv _ i r0 Hp Hi) as [[Hi' Hrow]|(j & Hj & Hrow)].
    + left. split; [|done]. rewrite not_elem_of_app, list_elem_of_singleton. auto.
    + right. exists j. split; [|done]. by apply lookup_app_l_Some.
Qed.

(** Copying an object keeps the invariant. *)
Lemma forwarded_inv s src x to from : inv s src → valid h0 x → pointer_word x = true → reach h0 x →
  fwd s x = None → forwards s x to from → inv (forwarded s x to from) (add_src src x).
Proof.
  intros Hinv Hv Hp Hreach Hf Hfw. pose proof (forwarded_grows s src x to from Hinv Hv Hp Hf Hfw) as Hg.
  destruct (unforwarded_row s src x Hinv Hv Hp Hf) as [Hn Hr].
  assert (Z.to_nat (index_of x) < size_ (htable h0 (tag_of x))) as Hi by (by destruct Hv as [_ [? ?]]).
  destruct (fresh_room s src _ _ Hinv Hp Hi Hn) as (Hnd & Hrange & _).
  assert (size_ to = S (size_ (table (next s) (tag_of x)))) as Hto.
  { rewrite <- !rows_length, (fw_to_rows _ _ _ _ Hfw). len. }
  destruct (iv_src _ _ Hinv _ Hp) as (_ & _ & Hlen). destruct (valid_orow x Hv Hp) as [Ho Hx].
  split.
  - cbn. rewrite with_table_length. apply (iv_vat _ _ Hinv).
  - apply (iv_era _ _ Hinv).
  - apply (iv_pools _ _ Hinv).
  - intros t Ht. rewrite (forwarded_old s src) by done. case_decide as Hd; [|by apply (iv_tabs _ _ Hinv)].
    subst t. destruct Hfw as [_ _ Hfrom Hsz _]. split; [done|]. rewrite Hsz. by apply (iv_tabs _ _ Hinv).
  - by apply forwarded_old_rows.
  - cbn. rewrite with_table_length. apply (iv_next _ _ Hinv).
  - intros t Ht. rewrite (forwarded_next s src) by done. case_decide as Hd; [|by apply (iv_next_tabs _ _ Hinv)].
    subst t. apply (fw_to _ _ _ _ Hfw).
  - intros t Ht. rewrite (forwarded_next s src) by done. unfold add_src.
    case_decide as Hd; [|by apply (iv_src _ _ Hinv)]. subst t. split; [done|]. split; [done|]. len.
  - intros t j i r0 r Ht Hj Hi0 Hrow. rewrite (forwarded_next s src) in Hrow by done. unfold add_src in Hj.
    case_decide as Hd.
    + subst t. rewrite (fw_to_rows _ _ _ _ Hfw) in Hrow.
      destruct (decide (j < length (src (tag_of x)))) as [Hjl|Hjl].
      * rewrite lookup_app_l in Hj by lia. rewrite lookup_app_l in Hrow by (rewrite rows_length; lia).
        eapply copied_grows; [apply Hg|apply Hg|apply Hg|]. by eapply (iv_copied _ _ Hinv).
      * rewrite lookup_app_r in Hj by lia. rewrite lookup_app_r in Hrow by (rewrite rows_length; lia).
        apply list_lookup_singleton_Some in Hj as [_ <-]. apply list_lookup_singleton_Some in Hrow as [_ <-].
        rewrite Ho in Hi0. injection Hi0 as <-. by apply fresh_copied.
    + eapply copied_grows; [apply Hg|apply Hg|apply Hg|]. by eapply (iv_copied _ _ Hinv).
  - intros t i Ht Hin. unfold add_src in Hin. case_decide as Hd; [|by apply (iv_reach _ _ Hinv)].
    apply elem_of_app in Hin as [Hin|Hin]; [by apply (iv_reach _ _ Hinv)|].
    apply list_elem_of_singleton in Hin as ->. subst t. by rewrite Hx.
  - cbn [t_words forwarded set_old set_next moved set_t_bytes set_t_words]. apply Forall_app. split.
    + eapply Forall_impl; [apply (iv_words _ _ Hinv)|]. intros y (x' & Hx1 & Hx2 & Hx3).
      exists x'. split; [done|]. split; [done|]. eapply related_grows; [apply Hg|done].
    + destruct (word_payload (tag_of x)) eqn:Hw; [|done]. apply Forall_lookup. intros k y Hy.
      assert (holds h0 x y) as Hh by (by eapply holds_word). exists y. split; [by eapply holds_valid|].
      split; [|by left]. intros Hpy. by eapply reach_step.
  - by apply forwarded_counts.
  - destruct (iv_scan _ _ Hinv) as [Hsl Hs]. split; [done|]. intros t Ht. destruct (Hs t Ht) as [Hle Hset].
    cbn [scan forwarded set_old set_next moved set_t_bytes set_t_words].
    destruct (gr_rows _ _ Hg t Ht) as [l Hl].
    assert (size_ (table (next s) t) ≤ size_ (table (next (forwarded s x to from)) t)) as Hsz.
    { rewrite <- !rows_length, Hl. len. }
    split; [lia|]. intros j r c y Hj Hrow Hc Hy. eapply (Hset j r); [done| |done|done].
    rewrite Hl, lookup_app_l in Hrow by (rewrite rows_length; lia). done.
  - destruct (iv_word_scan _ _ Hinv) as [Hle Hs].
    cbn [word_scan t_words forwarded set_old set_next moved set_t_bytes set_t_words].
    split; [len|]. by rewrite take_app_le.
Qed.

(** ** Relocating a word *)

Lemma settled_related s x y : valid h0 x → related s x y → settled y → pointer_word x = true → fwd s x = Some y.
Proof.
  intros Hv [->|Hf] Hs Hp; [|done]. destruct Hv as [_ Hv]. destruct (Hv Hp) as [He _].
  destruct Hs as [_ Hs]. specialize (Hs Hp). rewrite He in Hs. by destruct e.
Qed.

(** The sources only grow. *)
Definition extends (src src' : tag → list nat) : Prop := ∀ t, ∃ l, src' t = src t ++ l.

Lemma extends_refl src : extends src src.
Proof. intros t. exists []. by rewrite app_nil_r. Qed.

Lemma extends_add src x : extends src (add_src src x).
Proof. intros t. unfold add_src. case_decide; [by eexists|]. exists []. by rewrite app_nil_r. Qed.

(** [relocate] never fails: it returns a settled word, which is the word itself
    when that was settled, and the word's copy otherwise. *)
Lemma relocate_ok s src x : inv s src → sound x →
  ∃ y s' src', relocate x s = Ret (y, s') ∧ inv s' src' ∧ grows s s' ∧ extends src src' ∧ settled y ∧
    (settled x → y = x) ∧ (pointer_word x = true → era_of x = e → fwd s' x = Some y).
Proof.
  intros Hinv [Hw Hs]. unfold relocate. change (is_pointer (tag_of x)) with (pointer_word x).
  destruct (pointer_word x) eqn:Hp.
  2: { exists x, s, src. split; [done|]. split; [done|]. split; [apply grows_refl|].
       split; [apply extends_refl|]. split; [by split; [|congruence]|]. done. }
  destruct (decide (era_of x = e)) as [He|He].
  - destruct (Hs eq_refl He) as [Hv Hreach].
    assert (settled x → False) as Hns by (intros [_ H]; specialize (H Hp); rewrite He in H; by destruct e).
    destruct (fwd s x) as [y|] eqn:Hf.
    + exists y, s, src. split; [|split; [done|split; [apply grows_refl|split; [apply extends_refl|]]]].
      * unfold forward. rewrite Hp, (iv_era _ _ Hinv), He, Bool.eqb_reflx. cbn [negb].
        rewrite (check_old s src) by done. cbn [bind].
        unfold fwd in Hf. rewrite Hp, He, Bool.eqb_reflx in Hf. cbn [andb] in Hf.
        destruct (rows (htable (old s) (tag_of x)) !! Z.to_nat (index_of x)) as [r|] eqn:Hr; [|done].
        destruct (iv_tabs _ _ Hinv _ Hp) as [Htab _]. pose proof (width_two _ Hp).
        destruct (get_ok _ _ _ 0 _ Htab Hr) as (m & Hm & ->); [lia|]. cbn [bind].
        destruct (get_ok _ _ _ 1 _ Htab Hr) as (m1 & Hm1 & ->); [lia|]. cbn [bind].
        rewrite (nth_lookup_Some _ _ _ _ Hm), (nth_lookup_Some _ _ _ _ Hm1) in Hf.
        destruct (m =? zap)%Z; [|done]. by injection Hf as ->.
      * destruct (fwd_settled s src x y Hinv Hv Hf) as (_ & Hset & _). split; [done|]. by split; [intros ?%Hns|].
    + destruct (forward_fresh s src x Hinv Hv Hp Hf) as (to & from & Hfw & ->).
      do 3 eexists. split; [done|]. pose proof (forwarded_inv s src x to from Hinv Hv Hp Hreach Hf Hfw) as Hinv'.
      destruct (forwarded_fwd s src x to from Hinv Hv Hp Hf Hfw) as [Hfx _].
      split; [exact Hinv'|]. split; [by eapply forwarded_grows|].
      split; [apply extends_add|].
      destruct (fwd_settled _ _ x _ Hinv' Hv Hfx) as (_ & Hset & _). split; [done|]. by split; [intros ?%Hns|].
  - assert (era_of x = negb e) as He' by (by destruct (era_of x), e).
    exists x, s, src. split.
    + unfold forward. rewrite Hp, (iv_era _ _ Hinv), He'. cbn [negb]. by destruct e.
    + split; [done|]. split; [apply grows_refl|]. split; [apply extends_refl|]. split; [by split|]. split; [done|]. congruence.
Qed.

(** ** Scanning *)

(** What scanning keeps: copies stay, tables and pools only grow, and the host's
    slots are left alone. *)
Record steps (s s' : tidy) : Prop := {
  st_fwd : ∀ x y, fwd s x = Some y → fwd s' x = Some y;
  st_sizes : ∀ t, is_pointer t = true → size_ (table (next s) t) ≤ size_ (table (next s') t);
  st_words : length (t_words s) ≤ length (t_words s');
  st_host : pins_ (old s') = pins_ (old s) ∧ next_pin_ (old s') = next_pin_ (old s) ∧
    roots_ (old s') = roots_ (old s) ∧ slots_ (old s') = slots_ (old s) ∧ host_ (old s') = host_ (old s) ∧
    frozen_ktx_ (old s') = frozen_ktx_ (old s);
}.

Lemma steps_refl s : steps s s.
Proof. by split. Qed.

Lemma steps_trans s1 s2 s3 : steps s1 s2 → steps s2 s3 → steps s1 s3.
Proof.
  intros [F1 S1 W1 H1] [F2 S2 W2 H2]. split; [auto| |lia|].
  - intros t Ht. specialize (S1 t Ht). specialize (S2 t Ht). lia.
  - destruct H1 as (? & ? & ? & ? & ? & ?), H2 as (? & ? & ? & ? & ? & ?). repeat split; congruence.
Qed.

Lemma grows_steps s s' : grows s s' → steps s s'.
Proof.
  intros [HF HR [w HW] _ _ HH]. split; [done| | |done].
  - intros t Ht. destruct (HR t Ht) as [l Hl]. rewrite <- !rows_length, Hl. len.
  - rewrite HW. len.
Qed.

(** The source of a copy. *)
Lemma copy_source s src t j r : inv s src → is_pointer t = true → rows (table (next s) t) !! j = Some r →
  ∃ i r0, src t !! j = Some i ∧ orow t i = Some r0 ∧ copied s t r0 r ∧ length r = width t ∧
    valid h0 (pointer t (Z.of_nat i) e) ∧ reach h0 (pointer t (Z.of_nat i) e) ∧
    row_of h0 (pointer t (Z.of_nat i) e) = r0 ∧ tag_of (pointer t (Z.of_nat i) e) = t.
Proof.
  intros Hinv Ht Hr. destruct (iv_src _ _ Hinv t Ht) as (Hnd & Hrange & Hlen).
  assert (j < length (src t)) as Hj by (rewrite Hlen, <- rows_length; by eapply lookup_lt_Some).
  destruct (lookup_lt_is_Some_2 _ _ Hj) as [i Hi]. pose proof (list_elem_of_lookup_2 _ _ _ Hi) as Hin.
  rewrite Forall_forall in Hrange. specialize (Hrange i Hin). cbn in Hrange.
  destruct (orow_some t i Hrange) as [r0 Hr0]. exists i, r0.
  destruct (pointer_parts t (Z.of_nat i) e Ht (pointer_size t i Ht Hrange)) as (Hw & Htag & Hidx & Hera).
  pose proof (iv_copied _ _ Hinv t j i r0 r Ht Hi Hr0 Hr) as Hc.
  assert (valid h0 (pointer t (Z.of_nat i) e)) as Hv.
  { split; [done|]. intros _. rewrite Htag, Hidx, Nat2Z.id. done. }
  split; [done|]. split; [done|]. split; [done|]. split.
  { rewrite (cp_length _ _ _ _ Hc). by eapply orow_width. }
  split; [done|]. split; [by apply (iv_reach _ _ Hinv)|]. split; [|done].
  unfold row_of. rewrite Htag, Hidx, Nat2Z.id. fold (orow t i). by rewrite Hr0.
Qed.

(** A word in a copy may be relocated. *)
Lemma related_sound s src x y : inv s src → valid h0 x → (pointer_word x = true → reach h0 x) →
  related s x y → sound y.
Proof.
  intros Hinv Hv Hr [->|Hf].
  - split; [by destruct Hv|]. auto.
  - destruct (fwd_settled s src x y Hinv Hv Hf) as (_ & [Hw Hs] & _). split; [done|].
    intros Hp He. specialize (Hs Hp). rewrite He in Hs. by destruct e.
Qed.

(** Relocating what stands for [x] gives what stands for [x] for good. *)
Lemma relocate_related s s' x y z : valid h0 x → related s x y → (fwd s x = Some y → settled y) →
  (∀ a b, fwd s a = Some b → fwd s' a = Some b) →
  (settled y → z = y) → (pointer_word y = true → era_of y = e → fwd s' y = Some z) → related s' x z.
Proof.
  intros Hv [->|Hf] Hset Hmono Hz1 Hz2.
  - destruct (pointer_word x) eqn:Hp.
    + right. apply Hz2; [done|]. by destruct Hv as [_ [? _]].
    + left. apply Hz1. split; [by destruct Hv|]. congruence.
  - right. rewrite (Hz1 (Hset Hf)). auto.
Qed.

(** Writing a settled word over the one it stands for, in a copy. *)
Lemma write_inv s src t j c r x y tb : inv s src → is_pointer t = true →
  rows (table (next s) t) !! j = Some r → value_column_at t c →
  (∀ i r0, src t !! j = Some i → orow t i = Some r0 → r0 !! c = Some x) → related s x y → settled y →
  tab_ok (width t) tb → rows tb = <[j := <[c := y]> r]> (rows (table (next s) t)) →
  inv (set_next s (with_table (next s) t tb)) src.
Proof.
  intros Hinv Ht Hr Hc Hx Hxy Hy Htb Hrows.
  assert (j < length (rows (table (next s) t))) as Hj by by eapply lookup_lt_Some.
  assert (size_ tb = size_ (table (next s) t)) as Hsz.
  { rewrite <- !rows_length, Hrows. apply length_insert. }
  assert (∀ u, is_pointer u = true → table (next (set_next s (with_table (next s) t tb))) u =
    if decide (t = u) then tb else table (next s) u) as Htab.
  { intros u Hu. cbn [next set_next]. case_decide as Hd.
    - subst u. apply table_with_eq; [done|apply (iv_next _ _ Hinv)].
    - by apply table_with_ne. }
  destruct (copy_source s src t j r Hinv Ht Hr) as (i & r0 & Hi & Hr0 & Hcp & Hlen & _).
  pose proof (value_column_bound t c Hc) as Hcw.
  split; try apply Hinv.
  - cbn. rewrite with_table_length. apply (iv_next _ _ Hinv).
  - intros u Hu. rewrite Htab by done. case_decide; [by subst u|]. by apply (iv_next_tabs _ _ Hinv).
  - intros u Hu. rewrite Htab by done. destruct (iv_src _ _ Hinv u Hu) as (? & ? & Hl).
    split; [done|]. split; [done|]. case_decide; [subst u; lia|done].
  - intros u j' i' r0' r' Hu Hi' Hr0' Hr'. rewrite Htab in Hr' by done.
    apply (copied_same s); [done..|].
    case_decide as Hd; [|by eapply (iv_copied _ _ Hinv)]. subst u. rewrite Hrows in Hr'.
    destruct (decide (j = j')) as [<-|Hne].
    2: { rewrite list_lookup_insert_ne in Hr' by done. by eapply (iv_copied _ _ Hinv). }
    rewrite list_lookup_insert_eq in Hr' by done. injection Hr' as <-.
    rewrite Hi in Hi'. injection Hi' as <-. rewrite Hr0 in Hr0'. injection Hr0' as <-.
    assert (schema t = schema_v08 → False) as Hns by (intros Hs; by apply (descriptor_columns t c Hs)).
    destruct Hcp as [C1 C2 C3 C4 C5]. split.
    + by rewrite length_insert.
    + intros c' a b Hc' Ha Hb. destruct (decide (c = c')) as [<-|Hcc].
      * rewrite list_lookup_insert_eq in Hb by lia. injection Hb as <-.
        specialize (Hx i r0 Hi Hr0). rewrite Hx in Ha. by injection Ha as <-.
      * rewrite list_lookup_insert_ne in Hb by done. by eapply C2.
    + intros c' Hc' H0. rewrite list_lookup_insert_ne by congruence. auto.
    + intros Hw. by destruct (word_payload_cases _ Hw) as (_ & ?%Hns & _).
    + intros H8. by apply v08_schema, Hns in H8.
  - destruct (iv_scan _ _ Hinv) as [Hsl Hs]. split; [done|]. intros u Hu. rewrite Htab by done.
    destruct (Hs u Hu) as [Hle Hset]. case_decide as Hd; [subst u|done].
    split; [by rewrite Hsz|]. intros j' r' c' y' Hj' Hr' Hc' Hy'. rewrite Hrows in Hr'.
    destruct (decide (j = j')) as [<-|Hne].
    + rewrite list_lookup_insert_eq in Hr' by done. injection Hr' as <-.
      destruct (decide (c = c')) as [<-|Hcc].
      * rewrite list_lookup_insert_eq in Hy' by lia. by injection Hy' as <-.
      * rewrite list_lookup_insert_ne in Hy' by done. by eapply (Hset j r).
    + rewrite list_lookup_insert_ne in Hr' by done. by eapply (Hset j' r').
Qed.

(** One value column of one copy. *)
Lemma pull_field_ok s src t j c r : inv s src → is_pointer t = true →
  rows (table (next s) t) !! j = Some r → value_column_at t c →
  ∃ s' src' y,
    (let! w := Vat.get (table (next s) t) j c in
     let! p := relocate w s in
     let '(value, s) := p in
     let! tb := Vat.set (table (next s) t) j c value in
     Ret (set_next s (with_table (next s) t tb))) = Ret s' ∧
    inv s' src' ∧ steps s s' ∧ scan s' = scan s ∧ word_scan s' = word_scan s ∧
    settled y ∧ rows (table (next s') t) !! j = Some (<[c := y]> r).
Proof.
  intros Hinv Ht Hr Hc. pose proof (value_column_bound t c Hc) as Hcw.
  destruct (copy_source s src t j r Hinv Ht Hr) as (i & r0 & Hi & Hr0 & Hcp & Hlen & Hv & Hreach & Hrow & Htag).
  destruct (get_ok _ _ _ c _ (iv_next_tabs _ _ Hinv t Ht) Hr Hcw) as (w & Hw & ->). cbn [bind].
  destruct (lookup_lt_is_Some_2 r0 c) as [x Hx]; [rewrite <- (cp_length _ _ _ _ Hcp); lia|].
  assert (holds h0 (pointer t (Z.of_nat i) e) x) as Hh
    by (eapply holds_field; [by rewrite Htag|by rewrite Hrow]).
  assert (valid h0 x) as Hvx by (eapply holds_valid; [done|exact Hv| |done]; unfold pointer_word; by rewrite Htag).
  assert (pointer_word x = true → reach h0 x) as Hrx by (intros; by eapply reach_step).
  pose proof (cp_values _ _ _ _ Hcp c x w Hc Hx Hw) as Hrel.
  destruct (relocate_ok s src w Hinv (related_sound s src x w Hinv Hvx Hrx Hrel))
    as (y & s1 & src1 & Hreloc & Hinv1 & Hg & Hext & Hset & Hid & Hfwd).
  rewrite Hreloc. cbn [bind]. destruct (gr_rows _ _ Hg t Ht) as [l Hl].
  assert (rows (table (next s1) t) !! j = Some r) as Hr1 by (rewrite Hl; by apply lookup_app_l_Some).
  destruct (set_ok _ _ _ c y _ (iv_next_tabs _ _ Hinv1 t Ht) Hr1 Hcw) as (tb & -> & Htb & Hrows & Hsz & _).
  cbn [bind]. exists (set_next s1 (with_table (next s1) t tb)), src1, y. split; [done|].
  assert (related s1 x y) as Hrel1.
  { eapply relocate_related; [done|exact Hrel| |apply Hg|done|done].
    intros Hf. by apply (fwd_settled s src x w Hinv Hvx Hf). }
  assert (table (next (set_next s1 (with_table (next s1) t tb))) t = tb) as Htab
    by (apply table_with_eq; [done|apply (iv_next _ _ Hinv1)]).
  split.
  { eapply write_inv; [done|done|exact Hr1|exact Hc| |exact Hrel1|done|done|done].
    intros i' r0' Hi' Hr0'. destruct (Hext t) as [l' Hl'].
    assert (src1 t !! j = Some i) as Hsi by (rewrite Hl'; by apply lookup_app_l_Some).
    rewrite Hsi in Hi'. injection Hi' as <-. rewrite Hr0 in Hr0'. by injection Hr0' as <-. }
  split.
  { eapply steps_trans; [by apply grows_steps|]. split; [done| |done|done].
    intros u Hu. cbn [next set_next]. destruct (decide (t = u)) as [<-|Hne].
    - rewrite table_with_eq by (done || apply (iv_next _ _ Hinv1)). lia.
    - by rewrite table_with_ne. }
  split; [by apply Hg|]. split; [by apply Hg|]. split; [done|].
  rewrite Htab, Hrows. apply list_lookup_insert_eq. by eapply lookup_lt_Some.
Qed.

(** The row at [j] has its value columns settled, up to column [c]. *)
Definition settled_upto (s : tidy) (t : tag) (j c : nat) : Prop :=
  ∀ r k y, rows (table (next s) t) !! j = Some r → k < c → value_column_at t k → r !! k = Some y → settled y.

Lemma pull_columns_ok t cols : is_pointer t = true → ∀ c s src j, inv s src →
  j < size_ (table (next s) t) → drop c (schema t) = cols → settled_upto s t j c →
  ∃ s' src', pull_columns t cols j c s = Ret s' ∧ inv s' src' ∧ steps s s' ∧
    scan s' = scan s ∧ word_scan s' = word_scan s ∧ settled_upto s' t j (width t).
Proof.
  intros Ht. induction cols as [|cl cols IH]; intros c s src j Hinv Hj Hcols Hset; cbn [pull_columns].
  - exists s, src. split; [done|]. split; [done|]. split; [apply steps_refl|]. split; [done|]. split; [done|].
    intros r k y Hr Hk Hc Hy. eapply Hset; try done.
    apply (f_equal length) in Hcols. rewrite length_drop in Hcols. cbn in Hcols.
    pose proof (value_column_bound t k Hc). unfold width in *. lia.
  - assert (schema t !! c = Some cl) as Hcl.
    { rewrite <- (Nat.add_0_r c), <- lookup_drop, Hcols. done. }
    assert (drop (S c) (schema t) = cols) as Hcols'.
    { rewrite (drop_S _ _ _ Hcl) in Hcols. by injection Hcols. }
    destruct (decide (kind cl = K_value)) as [Hk|Hk].
    + assert (value_column_at t c) as Hc by (by exists cl).
      destruct (lookup_lt_is_Some_2 (rows (table (next s) t)) j) as [r Hr]; [by rewrite rows_length|].
      destruct (pull_field_ok s src t j c r Hinv Ht Hr Hc)
        as (s1 & src1 & y & -> & Hinv1 & Hst & Hsc & Hws & Hy & Hr1). cbn [bind].
      destruct (IH (S c) s1 src1 j Hinv1) as (s2 & src2 & Hrun & Hinv2 & Hst2 & Hsc2 & Hws2 & Hset2).
      { eapply Nat.lt_le_trans; [exact Hj|]. by apply Hst. }
      { done. }
      { intros r' k z Hr' Hk' Hck Hz. rewrite Hr1 in Hr'. injection Hr' as <-.
        destruct (decide (c = k)) as [<-|Hne].
        - rewrite list_lookup_insert_eq in Hz; [by injection Hz as <-|].
          apply lookup_lt_Some in Hz. by rewrite length_insert in Hz.
        - rewrite list_lookup_insert_ne in Hz by done. eapply Hset; try done. lia. }
      exists s2, src2. split; [done|]. split; [done|]. split; [by eapply steps_trans|].
      split; [congruence|]. split; [congruence|done].
    + cbn [bind]. apply (IH (S c) s src j); try done. intros r k y Hr Hk' Hck Hy.
      destruct (decide (k = c)) as [->|Hne]; [|eapply Hset; try done; lia].
      destruct Hck as (cl' & Hcl' & Hk''). rewrite Hcl in Hcl'. by injection Hcl' as <-.
Qed.

(** Moving a cursor past a settled row. *)
Lemma advance_inv s src t : inv s src → is_pointer t = true →
  nth (vat_index t) (scan s) 0 < size_ (table (next s) t) →
  settled_upto s t (nth (vat_index t) (scan s) 0) (width t) →
  inv (set_scan s (<[vat_index t := S (nth (vat_index t) (scan s) 0)]> (scan s))) src.
Proof.
  intros Hinv Ht Hlt Hset. destruct (iv_scan _ _ Hinv) as [Hsl Hs].
  destruct (vat_index_tags t Ht) as [_ Hidx].
  split; try apply Hinv.
  - intros u j i r0 r Hu Hi Hr0 Hr. apply (copied_same s); [done..|]. by eapply (iv_copied _ _ Hinv).
  - cbn [scan set_scan next]. split; [by rewrite length_insert|]. intros u Hu. destruct (Hs u Hu) as [Hle Hsu].
    destruct (decide (t = u)) as [<-|Hne].
    + rewrite nth_insert_eq by lia. split; [lia|]. intros j r c y Hj Hr Hc Hy.
      destruct (decide (j = nth (vat_index t) (scan s) 0)) as [->|Hjn].
      * eapply Hset; try done. by apply value_column_bound.
      * eapply Hsu; try done. lia.
    + assert (vat_index t ≠ vat_index u) by (intros Hv; by apply Hne, vat_index_inj).
      by rewrite nth_insert_ne.
Qed.

(** Scans only move forward. *)
Definition scans (s s' : tidy) : Prop :=
  (∀ t, is_pointer t = true → nth (vat_index t) (scan s) 0 ≤ nth (vat_index t) (scan s') 0) ∧
  word_scan s ≤ word_scan s'.

Lemma scans_trans s1 s2 s3 : scans s1 s2 → scans s2 s3 → scans s1 s3.
Proof. intros [S1 W1] [S2 W2]. split; [|lia]. intros t Ht. specialize (S1 t Ht). specialize (S2 t Ht). lia. Qed.

(** No more rows are copied than there were. *)
Lemma next_size_le s src t : inv s src → is_pointer t = true →
  size_ (table (next s) t) ≤ size_ (htable h0 t).
Proof.
  intros Hinv Ht. destruct (iv_src _ _ Hinv t Ht) as (Hnd & Hr & <-).
  rewrite <- (length_seq (size_ (htable h0 t)) 0).
  apply submseteq_length, NoDup_submseteq; [done|]. intros j Hj. apply elem_of_seq.
  rewrite Forall_forall in Hr. specialize (Hr j Hj). cbn in Hr. lia.
Qed.

Lemma pull_rows_ok t fuel : is_pointer t = true → ∀ s src, inv s src →
  size_ (htable h0 t) - nth (vat_index t) (scan s) 0 < fuel →
  ∃ s' src', pull_rows fuel t s = Some (Ret s') ∧ inv s' src' ∧ steps s s' ∧ scans s s' ∧
    nth (vat_index t) (scan s') 0 = size_ (table (next s') t) ∧
    (nth (vat_index t) (scan s) 0 = size_ (table (next s) t) → s' = s).
Proof.
  intros Ht. destruct (vat_index_tags t Ht) as [_ Hidx].
  induction fuel as [|fuel IH]; intros s src Hinv Hf; [lia|]. cbn [pull_rows].
  destruct (iv_scan _ _ Hinv) as [Hsl Hs]. destruct (Hs t Ht) as [Hle _].
  destruct (Nat.ltb_spec (nth (vat_index t) (scan s) 0) (size_ (table (next s) t))) as [Hlt|Hge].
  - destruct (pull_columns_ok t (schema t) Ht 0 s src _ Hinv Hlt eq_refl)
      as (s1 & src1 & -> & Hinv1 & Hst1 & Hsc1 & Hws1 & Hset1); [intros r k y _ Hk; lia|].
    pose proof (next_size_le s src t Hinv Ht) as Hsz.
    assert (nth (vat_index t) (scan s) 0 < size_ (table (next s1) t)) as Hlt1.
    { eapply Nat.lt_le_trans; [exact Hlt|]. by apply Hst1. }
    rewrite <- Hsc1 in Hlt1, Hset1 |- *.
    pose proof (advance_inv s1 src1 t Hinv1 Ht Hlt1 Hset1) as Hinv2.
    set (s2 := set_scan s1 _) in *.
    assert (nth (vat_index t) (scan s2) 0 = S (nth (vat_index t) (scan s1) 0)) as Hcur
      by (unfold s2; cbn [scan set_scan]; rewrite nth_insert_eq by (rewrite Hsc1; lia); done).
    destruct (IH s2 src1 Hinv2) as (s3 & src3 & Hrun & Hinv3 & Hst3 & Hsc3 & Hend & _).
    { rewrite Hcur, Hsc1. lia. }
    exists s3, src3. split; [done|]. split; [done|].
    split; [eapply steps_trans; [exact Hst1|]; by eapply steps_trans; [|exact Hst3]|].
    split; [|split; [done|intros Heq; rewrite Hsc1 in Heq; lia]].
    eapply scans_trans; [|exact Hsc3]. split; [|cbn; lia].
    intros u Hu. destruct (decide (t = u)) as [<-|Hne]; [rewrite Hcur, Hsc1; lia|].
    unfold s2. cbn [scan set_scan]. rewrite nth_insert_ne, Hsc1; [done|].
    intros Hv. by apply Hne, vat_index_inj.
  - exists s, src. split; [done|]. split; [done|]. split; [apply steps_refl|].
    split; [by split|]. split; [lia|done].
Qed.

(** How far the scans have come. *)
Definition work (s : tidy) : nat :=
  foldr (λ t n, nth (vat_index t) (scan s) 0 + n) 0 vat_tags + word_scan s.

Lemma scans_work s s' : scans s s' → work s ≤ work s'.
Proof.
  intros [Hs Hw]. unfold work. apply Nat.add_le_mono; [|done]. apply fold_le.
  eapply Forall_impl; [apply pointer_tags_all|done].
Qed.

Lemma scans_work_lt s s' t : scans s s' → is_pointer t = true →
  nth (vat_index t) (scan s) 0 < nth (vat_index t) (scan s') 0 → work s < work s'.
Proof.
  intros [Hs Hw] Ht Hlt. unfold work. apply Nat.add_lt_le_mono; [|done]. eapply fold_lt; [|by apply pointer_tags|done].
  eapply Forall_impl; [apply pointer_tags_all|done].
Qed.

(** The tables, one after the other. *)
Lemma pull_all_ok fuel tags : Forall (λ t, is_pointer t = true) tags → ∀ c s src, inv s src →
  (∀ t, is_pointer t = true → size_ (htable h0 t) < fuel) →
  ∃ c' s' src', pull_all fuel tags c s = Some (Ret (c', s')) ∧ inv s' src' ∧ steps s s' ∧ scans s s' ∧
    (c' = true → c = true ∨ work s < work s') ∧
    (c' = false → c = false ∧ s' = s ∧
       Forall (λ t, nth (vat_index t) (scan s) 0 = size_ (table (next s) t)) tags).
Proof.
  induction 1 as [|t tags Ht Htags IH]; intros c s src Hinv Hf; cbn [pull_all].
  { exists c, s, src. split; [done|]. split; [done|]. split; [apply steps_refl|]. split; [by split|].
    split; [by left|]. done. }
  unfold pull. destruct (pull_rows_ok t fuel Ht s src Hinv) as (s1 & src1 & -> & Hinv1 & Hst1 & Hsc1 & Hend & Hid).
  { specialize (Hf t Ht). lia. }
  destruct (iv_scan _ _ Hinv) as [_ Hs]. destruct (Hs t Ht) as [Hle _].
  set (b := nth (vat_index t) (scan s) 0 <? size_ (table (next s) t)).
  destruct (IH (b || c) s1 src1 Hinv1 Hf) as (c' & s2 & src2 & -> & Hinv2 & Hst2 & Hsc2 & Htrue & Hfalse).
  exists c', s2, src2. split; [done|]. split; [done|]. split; [by eapply steps_trans|].
  split; [by eapply scans_trans|]. pose proof (scans_work _ _ Hsc1). pose proof (scans_work _ _ Hsc2).
  split.
  - intros Hc. destruct (Htrue Hc) as [[Hb|Hb]%orb_prop|Hlt]; [|by left|right; lia].
    right. apply Nat.ltb_lt in Hb. assert (work s < work s1); [|lia].
    eapply scans_work_lt; [done|exact Ht|]. rewrite Hend. eapply Nat.lt_le_trans; [exact Hb|]. by apply Hst1.
  - intros Hc. destruct (Hfalse Hc) as ([Hb Hc']%orb_false_elim & -> & Hall).
    apply Nat.ltb_ge in Hb. assert (s1 = s) as -> by (apply Hid; lia).
    split; [done|]. split; [done|]. constructor; [lia|done].
Qed.

(** Overwriting a copied word by one that stands for the same words. *)
Lemma write_word_inv s src k w y : inv s src → t_words s !! k = Some w →
  (∀ x, valid h0 x → related s x w → related s x y) → settled y →
  inv (set_t_words s (<[k := y]> (t_words s))) src.
Proof.
  intros Hinv Hk Hrel Hy. pose proof (lookup_lt_Some _ _ _ Hk) as Hlt.
  pose proof (hk_words _ Hok) as Hws. rewrite Forall_lookup in Hws.
  split; try apply Hinv.
  - intros t j i r0 r Ht Hi Hr0 Hr. destruct (iv_copied _ _ Hinv t j i r0 r Ht Hi Hr0 Hr) as [C1 C2 C3 C4 C5].
    split; [done|done|done| |done]. intros Hw. destruct (C4 Hw) as [Hn Hall].
    split; [cbn [t_words set_t_words]; by rewrite length_insert|]. intros k' Hk'. destruct (Hall k' Hk') as (a & b & Ha & Hb & Hab).
    destruct (decide (k = Z.to_nat (nth 0 r 0%Z) + k')) as [->|Hne].
    + exists a, y. split; [done|]. cbn [t_words set_t_words]. rewrite list_lookup_insert_eq by done.
      split; [done|]. rewrite Hk in Hb. injection Hb as <-. apply Hrel; [by eapply Hws|done].
    + exists a, b. split; [done|]. cbn [t_words set_t_words]. by rewrite list_lookup_insert_ne.
  - cbn [t_words set_t_words]. pose proof (iv_words _ _ Hinv) as Hall. rewrite Forall_lookup in Hall |- *.
    intros k' z Hz. destruct (decide (k = k')) as [<-|Hne].
    + rewrite list_lookup_insert_eq in Hz by done. injection Hz as <-.
      destruct (Hall k w Hk) as (x & Hv & Hr & Hx). exists x. split; [done|]. split; [done|]. by apply Hrel.
    + rewrite list_lookup_insert_ne in Hz by done. by apply (Hall k').
  - cbn [t_words t_bytes set_t_words]. rewrite length_insert. apply (iv_count _ _ Hinv).
  - cbn [t_words word_scan set_t_words]. destruct (iv_word_scan _ _ Hinv) as [Hle Hs].
    rewrite length_insert. split; [done|]. rewrite Forall_lookup in Hs |- *. intros k' z Hz.
    apply lookup_take_Some in Hz as [Hz Hk']. destruct (decide (k = k')) as [<-|Hne].
    + rewrite list_lookup_insert_eq in Hz by done. by injection Hz as <-.
    + rewrite list_lookup_insert_ne in Hz by done. apply (Hs k'). apply lookup_take_Some. done.
Qed.

(** The most words that can be copied. *)
Definition word_total : nat :=
  Z.to_nat (sum_lens T_v32 (seq 0 (size_ (htable h0 T_v32))) + sum_lens T_rec (seq 0 (size_ (htable h0 T_rec)))).

Lemma words_le s src : inv s src → length (t_words s) ≤ word_total.
Proof.
  intros Hinv. destruct (iv_count _ _ Hinv) as [Hc _]. unfold word_total.
  assert (∀ t, is_pointer t = true → (sum_lens t (src t) ≤ sum_lens t (seq 0 (size_ (htable h0 t))))%Z) as Hle.
  { intros t Ht. destruct (iv_src _ _ Hinv t Ht) as (Hnd & Hr & _). by apply sum_lens_le. }
  pose proof (Hle T_v32 eq_refl). pose proof (Hle T_rec eq_refl). lia.
Qed.

Lemma pull_words_ok fuel : ∀ c s src, inv s src → word_total - word_scan s < fuel →
  ∃ c' s' src', pull_words fuel c s = Some (Ret (c', s')) ∧ inv s' src' ∧ steps s s' ∧ scans s s' ∧
    word_scan s' = length (t_words s') ∧
    (c' = true → c = true ∨ work s < work s') ∧ (c' = false → c = false ∧ s' = s).
Proof.
  induction fuel as [|fuel IH]; intros c s src Hinv Hf; [lia|]. cbn [pull_words].
  destruct (iv_word_scan _ _ Hinv) as [Hle Hset]. destruct (t_words s !! word_scan s) as [w|] eqn:Hw.
  2: { apply lookup_ge_None in Hw. exists c, s, src. split; [done|]. split; [done|].
       split; [apply steps_refl|]. split; [by split|]. split; [lia|]. split; [by left|done]. }
  pose proof (iv_words _ _ Hinv) as Hall. rewrite Forall_lookup in Hall.
  destruct (Hall _ _ Hw) as (x & Hv & Hr & Hx).
  destruct (relocate_ok s src w Hinv (related_sound s src x w Hinv Hv Hr Hx))
    as (y & s1 & src1 & -> & Hinv1 & Hg & Hext & Hy & Hid & Hfwd).
  destruct (gr_words _ _ Hg) as [l Hl]. destruct (gr_scan _ _ Hg) as [Hsc Hws]. rewrite Hws.
  assert (t_words s1 !! word_scan s = Some w) as Hw1 by (rewrite Hl; by apply lookup_app_l_Some).
  pose proof (lookup_lt_Some _ _ _ Hw) as Hlt. pose proof (lookup_lt_Some _ _ _ Hw1) as Hlt1.
  assert (inv (set_t_words s1 (<[word_scan s := y]> (t_words s1))) src1) as Hinv2.
  { apply (write_word_inv s1 src1 _ w); try done. intros a Ha Haw.
    eapply (relocate_related s1 s1); try done. intros Hf'. by apply (fwd_settled s1 src1 a w Hinv1 Ha Hf'). }
  set (s2 := set_t_words s1 _) in *. set (s3 := set_word_scan s2 _).
  assert (word_scan s2 = word_scan s) as Hws2 by done.
  assert (inv s3 src1) as Hinv3.
  { split; try apply Hinv2.
    - intros t j i r0 r Ht Hi Hr0 Hrow. apply (copied_same s2); [done..|]. by eapply (iv_copied _ _ Hinv2).
    - unfold s3. cbn [word_scan set_word_scan t_words]. destruct (iv_word_scan _ _ Hinv2) as [Hle2 Hset2].
      assert (t_words s2 !! word_scan s = Some y) as Hy2 by (unfold s2; cbn; by apply list_lookup_insert_eq).
      rewrite Hws2 in *. split; [apply lookup_lt_Some in Hy2; lia|].
      rewrite (take_S_r _ _ _ Hy2). apply Forall_app. split; [done|]. by apply Forall_singleton. }
  assert (word_scan s3 = S (word_scan s)) as Hws3 by (unfold s3; cbn; by rewrite Hws).
  pose proof (words_le s src Hinv).
  destruct (IH true s3 src1 Hinv3) as (c' & s4 & src4 & Hrun & Hinv4 & Hst4 & Hsc4 & Hend & Htrue & Hfalse).
  { rewrite Hws3. lia. }
  exists c', s4, src4. split; [exact Hrun|]. split; [done|].
  assert (steps s s3) as Hst3.
  { eapply steps_trans; [by apply grows_steps|]. split; try done. unfold s3, s2. cbn. by rewrite length_insert. }
  assert (scans s s3) as Hsc3.
  { split; [|rewrite Hws3; lia]. intros t Ht. unfold s3, s2. cbn. by rewrite Hsc. }
  assert (work s < work s3).
  { unfold work. rewrite Hws3. unfold s3, s2. cbn [scan set_word_scan set_t_words]. rewrite Hsc. lia. }
  pose proof (scans_work _ _ Hsc4).
  split; [by eapply steps_trans|]. split; [by eapply scans_trans|]. split; [done|].
  split; [intros _; right; lia|]. intros Hc. by destruct (Hfalse Hc).
Qed.

(** ** The whole run *)

Definition row_total : nat := foldr (λ t n, size_ (htable h0 t) + n) 0 vat_tags.

Lemma work_le s src : inv s src → work s ≤ row_total + word_total.
Proof.
  intros Hinv. unfold work, row_total. destruct (iv_word_scan _ _ Hinv) as [Hw _].
  pose proof (words_le s src Hinv). apply Nat.add_le_mono; [|lia]. apply fold_le.
  eapply Forall_impl; [apply pointer_tags_all|]. intros t Ht. cbv beta.
  destruct (iv_scan _ _ Hinv) as [_ Hs]. destruct (Hs t Ht) as [Hle _].
  pose proof (next_size_le s src t Hinv Ht). lia.
Qed.

Lemma fuel_eq : collect_fuel h0 = 2 + row_total + word_total.
Proof.
  unfold collect_fuel, row_total, word_total. rewrite (vat_fold _ (hk_vat _ Hok)).
  rewrite !sum_lens_rows by done. f_equal. f_equal. rewrite foldr_app.
  generalize (rows (htable h0 T_rec)) as l2. generalize (rows (htable h0 T_v32)) as l1. intros l1 l2.
  generalize (foldr (λ r n, nth 1 r 0 + n)%Z 0%Z l2) as k. intros k.
  induction l1 as [|r l1 IH]; cbn [foldr]; lia.
Qed.

Lemma size_le_total t : is_pointer t = true → size_ (htable h0 t) ≤ row_total.
Proof.
  intros Ht. unfold row_total. apply pointer_tags in Ht. induction vat_tags as [|u l IH]; [by apply not_elem_of_nil in Ht|].
  cbn [foldr]. apply elem_of_cons in Ht as [->|Ht]; [lia|]. specialize (IH Ht). lia.
Qed.

(** Nothing is left to scan. *)
Definition complete (s : tidy) : Prop :=
  (∀ t, is_pointer t = true → nth (vat_index t) (scan s) 0 = size_ (table (next s) t)) ∧
  word_scan s = length (t_words s).

Lemma rounds_ok fuel inner : row_total + word_total < inner → ∀ s src, inv s src →
  row_total + word_total - work s < fuel →
  ∃ s' src', rounds fuel inner s = Some (Ret s') ∧ inv s' src' ∧ steps s s' ∧ complete s'.
Proof.
  intros Hinner. induction fuel as [|fuel IH]; intros s src Hinv Hf; [lia|]. cbn [rounds].
  destruct (pull_all_ok inner vat_tags pointer_tags_all false s src Hinv)
    as (c1 & s1 & src1 & -> & Hinv1 & Hst1 & Hsc1 & Htrue1 & Hfalse1).
  { intros t Ht. pose proof (size_le_total t Ht). lia. }
  destruct (pull_words_ok inner c1 s1 src1 Hinv1)
    as (c2 & s2 & src2 & -> & Hinv2 & Hst2 & Hsc2 & Hend & Htrue2 & Hfalse2); [lia|].
  pose proof (scans_work _ _ Hsc1). pose proof (scans_work _ _ Hsc2). pose proof (work_le s2 src2 Hinv2).
  assert (steps s s2) as Hst by (by eapply steps_trans). destruct c2.
  - assert (work s < work s2) by (destruct (Htrue2 eq_refl) as [->|]; [destruct (Htrue1 eq_refl)|]; [done|lia|lia]).
    destruct (IH s2 src2 Hinv2) as (s3 & src3 & Hrun & Hinv3 & Hst3 & Hc); [lia|].
    exists s3, src3. split; [done|]. split; [done|]. split; [by eapply steps_trans|done].
  - destruct (Hfalse2 eq_refl) as [-> ->]. destruct (Hfalse1 eq_refl) as (_ & -> & Hall).
    exists s, src1. split; [done|]. split; [done|]. split; [apply steps_refl|]. split; [|done].
    intros t Ht. rewrite Forall_forall in Hall. by apply Hall, pointer_tags.
Qed.

Lemma rounds_run s src : inv s src → ∃ s' src',
  rounds (collect_fuel h0) (collect_fuel h0) s = Some (Ret s') ∧ inv s' src' ∧ steps s s' ∧ complete s'.
Proof. intros Hinv. pose proof fuel_eq. eapply rounds_ok; [lia|exact Hinv|lia]. Qed.

(** ** Pins and roots *)

(** Changing pins and slots leaves the rest alone. *)
Lemma host_inv s src h' : inv s src → vat_ h' = vat_ (old s) → era_ h' = era_ (old s) →
  words_ h' = words_ (old s) → bytes_ h' = bytes_ (old s) → inv (set_old s h') src.
Proof.
  intros Hinv Hv He Hw Hb.
  assert (∀ x, fwd (set_old s h') x = fwd s x) as Hf by (intros; unfold fwd, htable; cbn; by rewrite Hv).
  assert (∀ x y, related s x y → related (set_old s h') x y) as Hrel
    by (intros x y [->|Hr]; [by left|right; by rewrite Hf]).
  split; cbn [old set_old next t_words t_bytes scan word_scan]; try apply Hinv.
  - rewrite Hv. apply Hinv.
  - rewrite He. apply Hinv.
  - rewrite Hw, Hb. apply Hinv.
  - unfold htable. rewrite Hv. apply (iv_tabs _ _ Hinv).
  - unfold htable. rewrite Hv. apply (iv_old _ _ Hinv).
  - intros t j i r0 r Ht Hi Hr0 Hr. apply (copied_grows s); [intros ? ?; by rewrite Hf|..|by eapply (iv_copied _ _ Hinv)].
    + exists []. by rewrite app_nil_r.
    + exists []. by rewrite app_nil_r.
  - eapply Forall_impl; [apply (iv_words _ _ Hinv)|]. intros y (x & ? & ? & ?). exists x. auto.
Qed.

(** A word the host holds, and what stands for it. *)
Definition moved_to (s : tidy) (x y : Z) : Prop := settled y ∧ related s x y.

Lemma moved_to_mono s s' x y : (∀ x y, fwd s x = Some y → fwd s' x = Some y) → moved_to s x y → moved_to s' x y.
Proof. intros H [Hs Hr]. split; [done|]. by eapply related_grows. Qed.

Lemma relocate_host s src x : inv s src → valid h0 x → (pointer_word x = true → reach h0 x) →
  ∃ y s' src', relocate x s = Ret (y, s') ∧ inv s' src' ∧ grows s s' ∧ moved_to s' x y.
Proof.
  intros Hinv Hv Hr.
  destruct (relocate_ok s src x Hinv) as (y & s' & src' & -> & Hinv' & Hg & _ & Hy & Hid & Hfwd).
  { split; [by destruct Hv|]. auto. }
  exists y, s', src'. split; [done|]. split; [done|]. split; [done|]. split; [done|].
  destruct (pointer_word x) eqn:Hp.
  - right. apply Hfwd; [done|]. by destruct Hv as [_ [? _]].
  - left. apply Hid. split; [by destruct Hv|]. congruence.
Qed.

(** The pins before and after. *)
Definition pins_moved (s : tidy) (p q : list (Z * Z)) : Prop :=
  Forall2 (λ a b, a.1 = b.1 ∧ moved_to s a.2 b.2) p q.

Lemma relocate_pins_ok todo : ∀ s src done0 done, inv s src → pins_ h0 = done0 ++ todo →
  pins_moved s done0 done →
  ∃ s' src' pins', relocate_pins done todo s = Ret s' ∧ inv s' src' ∧ pins_ (old s') = pins' ∧
    pins_moved s' (pins_ h0) pins' ∧
    next_pin_ (old s') = next_pin_ (old s) ∧ roots_ (old s') = roots_ (old s) ∧
    slots_ (old s') = slots_ (old s) ∧ host_ (old s') = host_ (old s) ∧ frozen_ktx_ (old s') = frozen_ktx_ (old s).
Proof.
  induction todo as [|[k v] todo IH]; intros s src done0 done Hinv Hp Hd; cbn [relocate_pins].
  - do 3 eexists. split; [done|]. split; [by apply host_inv|]. split; [done|]. split; [|done].
    rewrite Hp, app_nil_r. eapply Forall2_impl; [exact Hd|]. intros a b [? ?]. split; [done|].
    by eapply moved_to_mono; [|done].
  - assert (valid h0 v) as Hv.
    { pose proof (hk_pins _ Hok) as Hall. rewrite Hp, Forall_app, Forall_cons in Hall. by destruct Hall as (_ & ? & _). }
    destruct (relocate_host s src v Hinv Hv) as (y & s1 & src1 & -> & Hinv1 & Hg & Hm).
    { intros Hpv. eapply reach_pin; [|done]. rewrite Hp. apply elem_of_app. right. apply elem_of_cons. by left. }
    cbn [bind]. destruct (IH s1 src1 (done0 ++ [(k, v)]) (done ++ [(k, y)]) Hinv1)
      as (s2 & src2 & pins' & Hrun & Hinv2 & Hpins & Hmoved & Hh).
    { by rewrite <- app_assoc. }
    { apply Forall2_app; [|constructor; [by split|constructor]]. eapply Forall2_impl; [exact Hd|]. intros a b [? ?].
      split; [done|]. eapply moved_to_mono; [apply Hg|done]. }
    exists s2, src2, pins'. split; [done|]. split; [done|]. split; [done|]. split; [done|].
    destruct (gr_host _ _ Hg) as (_ & ? & ? & ? & ? & ?), Hh as (? & ? & ? & ? & ?). repeat split; congruence.
Qed.

(** The roots once the first [k] of the list are done. *)
Definition slots_at (s : tidy) (l : list nat) (k : nat) : Prop :=
  dom (slots_ (old s)) = dom (slots_ h0) ∧
  ∀ j a r0, l !! j = Some a → slots_ h0 !! a = Some r0 →
    ∃ v, slots_ (old s) !! a = Some (with_value r0 v) ∧
      (if decide (j < k) then moved_to s (value_ r0) v else v = value_ r0).

(** The host fields that relocating the roots leaves alone. *)
Definition host_same (s s' : tidy) : Prop :=
  pins_ (old s') = pins_ (old s) ∧ next_pin_ (old s') = next_pin_ (old s) ∧
  roots_ (old s') = roots_ (old s) ∧ host_ (old s') = host_ (old s) ∧
  frozen_ktx_ (old s') = frozen_ktx_ (old s).

Lemma relocate_roots_ok l fuel : roots_ok h0 l → ∀ k s src, inv s src → length l - k < fuel →
  slots_at s l k →
  ∃ s' src', relocate_roots fuel (l !! k) s = Some (Ret s') ∧ inv s' src' ∧ slots_at s' l (length l) ∧
    host_same s s' ∧ ∀ x y, fwd s x = Some y → fwd s' x = Some y.
Proof.
  intros (Hnd & _ & Hl & Hdom). induction fuel as [|fuel IH]; intros k s src Hinv Hf Hslots; [lia|].
  cbn [relocate_roots]. destruct (l !! k) as [a|] eqn:Hk.
  2: { exists s, src. split; [done|]. split; [done|]. split; [|by repeat split].
       destruct Hslots as [Hd Hs]. split; [done|]. intros j b r0 Hj Hr0. destruct (Hs j b r0 Hj Hr0) as (v & Hv & Hm).
       exists v. split; [done|]. apply lookup_lt_Some in Hj. apply lookup_ge_None in Hk.
       rewrite decide_True in Hm by lia. rewrite decide_True by lia. done. }
  destruct (Hl k a Hk) as [v0 Hr0]. set (r0 := MkRoot v0 _ _) in Hr0. pose proof Hslots as [Hd Hs].
  destruct (Hs k a r0 Hk Hr0) as (v & Hv & Hm). rewrite decide_False in Hm by lia. subst v.
  rewrite Hv. cbn [value_ with_value next_].
  destruct (relocate_host s src (value_ r0) Hinv) as (y & s1 & src1 & -> & Hinv1 & Hg & Hmv).
  { by apply (hk_slots _ Hok a). }
  { intros Hp. by eapply reach_root. }
  pose proof (lookup_lt_Some _ _ _ Hk) as Hkl.
  assert (inv (set_old s1 (root_set a y (old s1))) src1) as Hinv2 by (by apply host_inv).
  destruct (gr_host _ _ Hg) as (Hg1 & Hg2 & Hg3 & Hg4 & Hg5 & Hg6).
  change (next_ r0) with (l !! S k).
  destruct (IH (S k) (set_old s1 (root_set a y (old s1))) src1 Hinv2) as (s2 & src2 & Hrun & Hinv3 & Hs3 & Hh3 & Hf3).
  { lia. }
  { split; [cbn; rewrite dom_alter_L; congruence|]. intros j b rb Hj Hrb. cbn [old set_old slots_ root_set set_roots].
    rewrite Hg4. destruct (decide (a = b)) as [<-|Hab].
    - assert (j = k) as -> by (by eapply NoDup_lookup). rewrite Hr0 in Hrb. injection Hrb as <-.
      exists y. rewrite lookup_alter_eq, Hv. split; [done|]. rewrite decide_True by lia. exact Hmv.
    - rewrite lookup_alter_ne by done. destruct (Hs j b rb Hj Hrb) as (v & Hv' & Hm'). exists v. split; [done|].
      assert (j ≠ k) by (intros ->; congruence).
      destruct (decide (j < k)) as [Hjk|Hjk].
      + rewrite decide_True by lia. eapply moved_to_mono; [|exact Hm']. apply Hg.
      + by rewrite decide_False by lia. }
  exists s2, src2. split; [done|]. split; [done|]. split; [done|]. split.
  - destruct Hh3 as (? & ? & ? & ? & ?). cbn in *. repeat split; congruence.
  - intros b c Hbc. apply Hf3, (gr_fwd _ _ Hg b c Hbc).
Qed.

(** The run from that state: it ends, with everything scanned, and the pins and
    the roots stand for what they held. *)
Lemma run_states s l : old s = h0 → inv s (λ _, []) → roots_ok h0 l →
  ∃ s1 s2 s3 src,
    relocate_pins [] (pins_ h0) s = Ret s1 ∧
    relocate_roots (S (size (slots_ h0))) (roots_ (old s1)) s1 = Some (Ret s2) ∧
    rounds (collect_fuel h0) (collect_fuel h0) s2 = Some (Ret s3) ∧
    inv s3 src ∧ complete s3 ∧ pins_moved s3 (pins_ h0) (pins_ (old s3)) ∧ slots_at s3 l (length l) ∧
    next_pin_ (old s3) = next_pin_ h0 ∧ roots_ (old s3) = roots_ h0 ∧ host_ (old s3) = host_ h0.
Proof.
  intros Ho Hinv Hl. destruct (relocate_pins_ok (pins_ h0) s (λ _, []) [] [] Hinv eq_refl)
    as (s1 & src1 & pins' & Hp1 & Hinv1 & Hpins & Hmoved & Hn1 & Hr1 & Hs1 & Hh1 & Hf1); [constructor|].
  rewrite Ho in *. pose proof Hl as (Hnd & Hhead & Hlink & Hdom).
  assert (size (slots_ h0) = length l) as Hsize.
  { rewrite <- size_dom, Hdom. by apply size_list_to_set. }
  destruct (relocate_roots_ok l (S (length l)) Hl 0 s1 src1 Hinv1) as (s2 & src2 & Hr2 & Hinv2 & Hs2 & Hh2 & Hf2).
  { lia. }
  { split; [congruence|]. intros j a r0 Hj Hr0. exists (value_ r0). rewrite Hs1, Hr0. by destruct r0. }
  destruct (rounds_run s2 src2 Hinv2) as (s3 & src3 & Hr3 & Hinv3 & Hst & Hc).
  exists s1, s2, s3, src3. rewrite Hsize, Hr1, Hhead. split; [done|]. split; [done|]. split; [done|].
  split; [done|]. split; [done|]. destruct (st_host _ _ Hst) as (E1 & E2 & E3 & E4 & E5 & E6).
  destruct Hh2 as (D1 & D2 & D3 & D4 & D5). split; [|split].
  - rewrite E1, D1, Hpins. eapply Forall2_impl; [exact Hmoved|]. intros a b [? ?]. split; [done|].
    eapply moved_to_mono; [|done]. intros x y Hxy. by apply Hst, Hf2.
  - destruct Hs2 as [Hd Hs]. split; [congruence|]. intros j a r0 Hj Hr0. destruct (Hs j a r0 Hj Hr0) as (v & Hv & Hm).
    exists v. rewrite E4. split; [done|]. rewrite decide_True in Hm |- * by (by eapply lookup_lt_Some).
    eapply moved_to_mono; [apply Hst|done].
  - repeat split; congruence.
Qed.

(** ** The heap that is left *)

(** What a word became. *)
Definition image (s : tidy) (x y : Z) : Prop := becomes (fwd s) x y.

Lemma moved_image s x y : valid h0 x → moved_to s x y → image s x y.
Proof.
  intros Hv [Hs Hr]. unfold image, becomes. destruct (pointer_word x) eqn:Hp; [by apply settled_related|].
  destruct Hr as [->|Hf]; [done|]. unfold fwd in Hf. by rewrite Hp in Hf.
Qed.

(** The heap made of the copies. *)
Definition result_heap (s : tidy) : heap :=
  freeze_continuations
    (MkHeap (next s) (t_bytes s) (t_words s) (pins_ (old s)) (next_pin_ (old s)) (roots_ (old s))
       (negb e) (frozen_ktx_ (old s)) (host_ (old s)) (slots_ (old s))).

Lemma result_table s t : htable (result_heap s) t = table (next s) t.
Proof. done. Qed.

(** What stands for a valid word is valid in the new heap. *)
Lemma image_valid s src x y : inv s src → valid h0 x → image s x y → valid (result_heap s) y.
Proof.
  intros Hinv Hv Hi. unfold image, becomes in Hi. destruct (pointer_word x) eqn:Hp.
  - destruct (fwd_settled s src x y Hinv Hv Hi) as (_ & [Hw Hs] & Hpy & Htag & j & Hy & Hj & _ & Hlt).
    split; [done|]. intros _. split; [by apply Hs|]. rewrite Htag, Hj. done.
  - subst y. split; [by destruct Hv|]. congruence.
Qed.

(** Every value of a copy, once everything is scanned, is the image of the value
    it was copied from. *)
Lemma complete_field s src t j r c y : inv s src → complete s → is_pointer t = true →
  rows (table (next s) t) !! j = Some r → value_column_at t c → r !! c = Some y →
  ∃ i r0 x, src t !! j = Some i ∧ orow t i = Some r0 ∧ r0 !! c = Some x ∧ valid h0 x ∧ image s x y ∧ settled y.
Proof.
  intros Hinv [Hscan _] Ht Hr Hc Hy.
  destruct (copy_source s src t j r Hinv Ht Hr) as (i & r0 & Hi & Hr0 & Hcp & Hlen & Hv & Hreach & Hrow & Htag).
  destruct (lookup_lt_is_Some_2 r0 c) as [x Hx].
  { rewrite <- (cp_length _ _ _ _ Hcp). by eapply lookup_lt_Some. }
  assert (valid h0 x) as Hvx.
  { eapply (row_values h0 t r0); [by apply (hk_rows _ Hok t i)|done|done]. }
  assert (settled y) as Hs.
  { destruct (iv_scan _ _ Hinv) as [_ Hsc]. destruct (Hsc t Ht) as [_ Hset]. eapply (Hset j r); try done.
    rewrite Hscan by done. rewrite <- rows_length. by eapply lookup_lt_Some. }
  exists i, r0, x. split; [done|]. split; [done|]. split; [done|]. split; [done|]. split; [|done].
  apply moved_image; [done|]. split; [done|]. by eapply (cp_values _ _ _ _ Hcp).
Qed.

Lemma complete_words s src : inv s src → complete s → Forall settled (t_words s).
Proof.
  intros Hinv [_ Hw]. destruct (iv_word_scan _ _ Hinv) as [_ Hs]. by rewrite Hw, take_ge in Hs by done.
Qed.

(** Everything reachable was copied. *)
Lemma complete_reach s src l : inv s src → complete s → pins_moved s (pins_ h0) (pins_ (old s)) →
  roots_ok h0 l → slots_at s l (length l) → ∀ x, reach h0 x → ∃ y, fwd s x = Some y.
Proof.
  intros Hinv Hc Hpins (Hnd & _ & Hlink & Hdom) [_ Hslots] x Hx.
  induction Hx as [k x Hk Hp|a r Ha Hp|x y Hx [x' Hx'] Hh Hp].
  - apply list_elem_of_lookup_1 in Hk as [j Hj].
    destruct (Forall2_lookup_l _ _ _ _ _ Hpins Hj) as ([k' y] & _ & _ & Hm). exists y. cbn in Hm.
    assert (valid h0 x) as Hv.
    { pose proof (hk_pins _ Hok) as Hall. rewrite Forall_lookup in Hall. by apply (Hall j (k, x)). }
    pose proof (moved_image s x y Hv Hm) as Hi. unfold image, becomes in Hi. by rewrite Hp in Hi.
  - assert (a ∈ l) as Hal.
    { apply elem_of_dom_2 in Ha. rewrite Hdom in Ha. by apply elem_of_list_to_set in Ha. }
    apply list_elem_of_lookup_1 in Hal as [j Hj]. destruct (Hslots j a r Hj Ha) as (v & _ & Hm).
    rewrite decide_True in Hm by (by eapply lookup_lt_Some).
    exists v. pose proof (moved_image s _ v (hk_slots _ Hok a r Ha) Hm) as Hi. unfold image, becomes in Hi. by rewrite Hp in Hi.
  - destruct (reach_valid h0 x Hok Hx) as [Hvx Hpx].
    destruct (fwd_settled s src x x' Hinv Hvx Hx') as (_ & _ & _ & _ & j & _ & _ & Hsrc & Hj).
    destruct (lookup_lt_is_Some_2 (rows (table (next s) (tag_of x))) j) as [r Hr]; [by rewrite rows_length|].
    destruct (valid_orow x Hvx Hpx) as [Ho _].
    pose proof (iv_copied _ _ Hinv _ _ _ _ _ Hpx Hsrc Ho Hr) as Hcp.
    assert (valid h0 y) as Hvy by (by eapply holds_valid).
    destruct Hh as [c Hcol Hy|k Hw Hy].
    + destruct (lookup_lt_is_Some_2 r c) as [z Hz]; [rewrite (cp_length _ _ _ _ Hcp); by eapply lookup_lt_Some|].
      destruct (complete_field s src _ j r c z Hinv Hc Hpx Hr Hcol Hz) as (i & r0 & y' & Hi & Hr0 & Hy' & _ & Him & _).
      rewrite Hsrc in Hi. injection Hi as <-. rewrite Ho in Hr0. injection Hr0 as <-.
      rewrite Hy in Hy'. injection Hy' as <-. exists z. unfold image, becomes in Him. by rewrite Hp in Him.
    + unfold payload in Hy. apply lookup_take_Some in Hy as [Hy Hk]. rewrite lookup_drop in Hy.
      destruct (cp_words _ _ _ _ Hcp Hw) as [_ Hall]. destruct (Hall k Hk) as (a & b & Ha & Hb & Hab).
      rewrite Hy in Ha. injection Ha as <-. exists b. apply settled_related; try done.
      pose proof (complete_words s src Hinv Hc) as Hs. rewrite Forall_lookup in Hs. by eapply Hs.
Qed.

(** Offsets in the new pools are not the collector's mark. *)
Context (Hmark_words : (sum_lens T_v32 (seq 0 (size_ (htable h0 T_v32)))
                        + sum_lens T_rec (seq 0 (size_ (htable h0 T_rec))) < zap)%Z).
Context (Hmark_bytes : (sum_lens T_v08 (seq 0 (size_ (htable h0 T_v08))) < zap)%Z).

Lemma pools_below s src : inv s src →
  (Z.of_nat (length (t_words s)) < zap)%Z ∧ (Z.of_nat (length (t_bytes s)) < zap)%Z.
Proof.
  intros Hinv. destruct (iv_count _ _ Hinv) as [-> ->].
  assert (∀ t, is_pointer t = true → (sum_lens t (src t) ≤ sum_lens t (seq 0 (size_ (htable h0 t))))%Z) as Hle.
  { intros t Ht. destruct (iv_src _ _ Hinv t Ht) as (Hnd & Hr & _). by apply sum_lens_le. }
  pose proof (Hle T_v32 eq_refl). pose proof (Hle T_rec eq_refl). pose proof (Hle T_v08 eq_refl). lia.
Qed.

(** The columns of a copy: a settled value, an unchanged number, or an offset. *)
Lemma copy_column s src t j r c y : inv s src → complete s → is_pointer t = true →
  rows (table (next s) t) !! j = Some r → r !! c = Some y →
  ∃ i r0, src t !! j = Some i ∧ orow t i = Some r0 ∧
   ((value_column_at t c ∧ settled y ∧ ∃ x, r0 !! c = Some x ∧ image s x y) ∨
    (~ value_column_at t c ∧ r0 !! c = Some y) ∨
    (schema t = schema_v08 ∧ c = 0 ∧ (0 ≤ y < zap)%Z)).
Proof.
  intros Hinv Hc Ht Hr Hy. pose proof (pools_below s src Hinv) as [Hpw Hpb].
  destruct (copy_source s src t j r Hinv Ht Hr) as (i & r0 & Hi & Hr0 & Hcp & Hlen & _).
  exists i, r0. split; [done|]. split; [done|]. destruct (value_column_dec t c) as [Hv|Hv].
  - left. destruct (complete_field s src t j r c y Hinv Hc Ht Hr Hv Hy) as (i' & r0' & x & Hi' & Hr0' & Hx & _ & Him & Hs).
    rewrite Hi in Hi'. injection Hi' as <-. rewrite Hr0 in Hr0'. injection Hr0' as <-. eauto.
  - right. destruct (decide (c = 0)) as [->|Hc0].
    + destruct (word_payload t) eqn:Hw.
      { right. destruct (word_payload_cases t Hw) as (_ & Hs & _). split; [done|]. split; [done|].
        destruct (cp_words _ _ _ _ Hcp Hw) as [Hn _]. rewrite (nth_lookup_Some _ _ _ _ Hy) in Hn. lia. }
      destruct (decide (t = T_v08)) as [H8|H8].
      { right. split; [by apply v08_schema|]. split; [done|].
        destruct (cp_bytes _ _ _ _ Hcp H8) as [Hn _]. rewrite (nth_lookup_Some _ _ _ _ Hy) in Hn. lia. }
      left. split; [done|]. rewrite <- (cp_others _ _ _ _ Hcp); [done|done|].
      intros Hs. by destruct t.
    + left. split; [done|]. by rewrite <- (cp_others _ _ _ _ Hcp).
Qed.

Lemma settled_not_zap s src x y : inv s src → valid h0 x → x ≠ zap → image s x y → y ≠ zap.
Proof.
  intros Hinv Hv Hx Hi ->. unfold image, becomes in Hi. destruct (pointer_word x) eqn:Hp; [|congruence].
  by destruct (fwd_settled s src x zap Hinv Hv Hi) as (_ & _ & ? & _).
Qed.

Lemma copy_len s src t j r : inv s src → is_pointer t = true → rows (table (next s) t) !! j = Some r →
  schema t = schema_v08 → ∃ i r0, src t !! j = Some i ∧ orow t i = Some r0 ∧ copied s t r0 r ∧
    nth 1 r 0%Z = nth 1 r0 0%Z ∧ (0 ≤ nth 1 r0 0)%Z.
Proof.
  intros Hinv Ht Hr Hs. destruct (copy_source s src t j r Hinv Ht Hr) as (i & r0 & Hi & Hr0 & Hcp & Hlen & _).
  exists i, r0. split; [done|]. split; [done|]. split; [done|]. split.
  - rewrite !nth_lookup. by rewrite (cp_others _ _ _ _ Hcp) by (done || by apply descriptor_columns).
  - eapply row_nonneg. by apply (hk_rows _ Hok t i r0).
Qed.

Lemma result_row_ok s src t j r : inv s src → complete s → is_pointer t = true →
  rows (table (next s) t) !! j = Some r → row_ok (result_heap s) t r.
Proof.
  intros Hinv Hc Ht Hr. pose proof (pools_below s src Hinv) as [Hpw Hpb]. pose proof (width_two t Ht) as Hw2.
  destruct (copy_source s src t j r Hinv Ht Hr) as (i & r0 & Hi & Hr0 & Hcp & Hlen & _).
  pose proof (hk_rows _ Hok t i r0 Ht Hr0) as Hrow.
  assert (∀ c y, r !! c = Some y → is_word y ∧ (c = 0 → y ≠ zap)) as Hcol.
  { intros c y Hy. destruct (copy_column s src t j r c y Hinv Hc Ht Hr Hy) as (i' & r0' & Hi' & Hr0' & Hcase).
    rewrite Hi in Hi'. injection Hi' as <-. rewrite Hr0 in Hr0'. injection Hr0' as <-.
    assert (∀ x, r0 !! 0 = Some x → x ≠ zap) as Hz.
    { intros x Hx ->. apply (row_mark _ _ _ Hrow). by apply nth_lookup_Some. }
    destruct Hcase as [(Hv & [Hw _] & x & Hx & Him)|[(_ & Hy0)|(_ & _ & Hz0)]].
    - split; [done|]. intros ->. eapply settled_not_zap; [done| |by apply Hz|done]. by eapply (row_values h0 t r0).
    - split; [|intros ->; by apply Hz]. pose proof (row_words _ _ _ Hrow) as Hall. rewrite Forall_lookup in Hall. by eapply Hall.
    - split; [unfold is_word; rewrite zap_value in Hz0; lia|lia]. }
  split.
  - apply Forall_lookup. intros c y Hy. by apply (Hcol c y).
  - destruct (lookup_lt_is_Some_2 r 0) as [y Hy]; [lia|]. rewrite (nth_lookup_Some _ _ _ _ Hy). by apply (Hcol 0 y).
  - intros c y Hv Hy. destruct (complete_field s src t j r c y Hinv Hc Ht Hr Hv Hy) as (_ & _ & x & _ & _ & _ & Hvx & Him & _).
    by eapply image_valid.
  - intros H8. destruct (copy_len s src t j r Hinv Ht Hr (v08_schema t H8)) as (i' & r0' & _ & _ & Hcp' & Hl & Hl0).
    destruct (cp_bytes _ _ _ _ Hcp' H8) as [Hn Hk]. unfold in_pool. cbn [bytes_ result_heap freeze_continuations set_frozen].
    rewrite Hl. destruct (decide (nth 1 r0' 0%Z = 0%Z)); [lia|].
    destruct (Hk (Z.to_nat (nth 1 r0' 0%Z) - 1)) as [[b Hb] _]; [lia|]. apply lookup_lt_Some in Hb. lia.
  - intros Hw. destruct (word_payload_cases t Hw) as (_ & Hs & _).
    destruct (copy_len s src t j r Hinv Ht Hr Hs) as (i' & r0' & _ & _ & Hcp' & Hl & Hl0).
    destruct (cp_words _ _ _ _ Hcp' Hw) as [Hn Hk]. unfold in_pool. cbn [words_ result_heap freeze_continuations set_frozen].
    rewrite Hl. destruct (decide (nth 1 r0' 0%Z = 0%Z)); [lia|].
    destruct (Hk (Z.to_nat (nth 1 r0' 0%Z) - 1)) as (a & b & _ & Hb & _); [lia|]. apply lookup_lt_Some in Hb. lia.
Qed.

Lemma result_ok s src l : inv s src → complete s → pins_moved s (pins_ h0) (pins_ (old s)) →
  roots_ok h0 l → slots_at s l (length l) → next_pin_ (old s) = next_pin_ h0 → roots_ (old s) = roots_ h0 →
  heap_ok (result_heap s).
Proof.
  intros Hinv Hc Hpins (Hnd & Hhead & Hlink & Hdom) [Hd Hslots] Hnp Hro.
  pose proof (pools_below s src Hinv) as [Hpw Hpb]. rewrite zap_value in Hpw, Hpb.
  assert ((pins_ (old s)).*1 = (pins_ h0).*1) as Hkeys.
  { clear -Hpins. induction Hpins as [|a b p q [H _] _ IH]; [done|]. rewrite !fmap_cons. by rewrite H, IH. }
  split.
  - apply (iv_next _ _ Hinv).
  - intros t Ht. by apply (iv_next_tabs _ _ Hinv).
  - intros t i r Ht Hr. by eapply result_row_ok.
  - apply Forall_lookup. intros k y Hy. pose proof (iv_words _ _ Hinv) as Hall. rewrite Forall_lookup in Hall.
    destruct (Hall k y Hy) as (x & Hv & _ & Hrel). eapply image_valid; [done|exact Hv|]. apply moved_image; [done|].
    split; [|done]. pose proof (complete_words s src Hinv Hc) as Hs. rewrite Forall_lookup in Hs. by eapply Hs.
  - unfold word_limit. cbn. lia.
  - unfold word_limit. cbn. lia.
  - apply Forall_lookup. intros k [a y] Hy. destruct (Forall2_lookup_r _ _ _ _ _ Hpins Hy) as ([a' x] & Hx & _ & Hm).
    pose proof (hk_pins _ Hok) as Hall. rewrite Forall_lookup in Hall. specialize (Hall _ _ Hx).
    eapply image_valid; [done|exact Hall|]. by apply moved_image.
  - cbn. rewrite Hkeys. apply (hk_pin_keys _ Hok).
  - cbn. rewrite Hkeys, Hnp. apply (hk_next_pin _ Hok).
  - intros a r Ha. cbn in Ha.
    assert (a ∈ l) as Hal.
    { apply elem_of_dom_2 in Ha. rewrite Hd, Hdom in Ha. by apply elem_of_list_to_set in Ha. }
    apply list_elem_of_lookup_1 in Hal as [j Hj]. destruct (Hlink j a Hj) as [v0 Hr0].
    destruct (Hslots j a _ Hj Hr0) as (v & Hv & Hm). rewrite decide_True in Hm by (by eapply lookup_lt_Some).
    rewrite Ha in Hv. injection Hv as ->. cbn [value_ with_value]. pose proof (hk_slots _ Hok a _ Hr0) as Hvalid.
    eapply image_valid; [done|exact Hvalid|]. by apply moved_image.
  - exists l. split; [done|]. split; [cbn; congruence|]. split; [|cbn; congruence].
    intros k a Hk. destruct (Hlink k a Hk) as [v0 Hr0]. destruct (Hslots k a _ Hk Hr0) as (v & Hv & _).
    exists v. cbn. rewrite Hv. done.
Qed.

(** A copy is its source, moved. *)
Lemma result_object s src x y : inv s src → complete s → valid h0 x → fwd s x = Some y →
  same_object h0 (result_heap s) (fwd s) x y.
Proof.
  intros Hinv Hc Hv Hf.
  destruct (fwd_settled s src x y Hinv Hv Hf) as (Hp & Hset & Hpy & Htag & j & Hy & Hj & Hsrc & Hlt).
  destruct (lookup_lt_is_Some_2 (rows (table (next s) (tag_of x))) j) as [r Hr]; [by rewrite rows_length|].
  destruct (valid_orow x Hv Hp) as [Ho _]. pose proof (iv_copied _ _ Hinv _ _ _ _ _ Hp Hsrc Ho Hr) as Hcp.
  assert (row_of (result_heap s) y = r) as Hry.
  { unfold row_of. rewrite Htag, Hj, result_table. by rewrite Hr. }
  pose proof (result_row_ok s src _ _ _ Hinv Hc Hp Hr) as Hrow'. pose proof (row_of_ok h0 x Hok Hv Hp) as Hrow.
  split; [done|..]; rewrite ?Hry.
  - intros c a Hcol Ha. destruct (lookup_lt_is_Some_2 r c) as [b Hb].
    { rewrite (cp_length _ _ _ _ Hcp). by eapply lookup_lt_Some. }
    destruct (complete_field s src _ j r c b Hinv Hc Hp Hr Hcol Hb) as (i & r0 & a' & Hi & Hr0 & Ha' & _ & Him & _).
    rewrite Hsrc in Hi. injection Hi as <-. rewrite Ho in Hr0. injection Hr0 as <-.
    rewrite Ha in Ha'. injection Ha' as <-. by exists b.
  - intros c Hcol H0. by apply (cp_others _ _ _ _ Hcp).
  - intros Hw. destruct (word_payload_cases _ Hw) as (_ & Hs & _).
    destruct (cp_words _ _ _ _ Hcp Hw) as [Hn Hk].
    pose proof (in_pool_bounds _ _ _ _ Hrow (row_v32 _ _ _ Hrow Hw)) as Hb0.
    pose proof (in_pool_bounds _ _ _ _ Hrow' (row_v32 _ _ _ Hrow' Hw)) as Hb1.
    assert (nth 1 r 0%Z = nth 1 (row_of h0 x) 0%Z) as Hlen.
    { rewrite !nth_lookup. by rewrite (cp_others _ _ _ _ Hcp) by (done || by apply descriptor_columns). }
    unfold payload. rewrite Hry. cbn [words_ result_heap freeze_continuations set_frozen] in *. rewrite Hlen in *.
    apply Forall2_same_length_lookup_2; [len|]. intros k a b Ha Hb.
    assert (k < Z.to_nat (nth 1 (row_of h0 x) 0%Z)) as Hkl by (apply lookup_lt_Some in Ha; revert Ha; len).
    rewrite take_drop_lookup in Ha, Hb by done. destruct (Hk k Hkl) as (a' & b' & Ha' & Hb' & Hab).
    rewrite Ha in Ha'. injection Ha' as <-. rewrite Hb in Hb'. injection Hb' as <-.
    assert (valid h0 a) as Hva by (pose proof (hk_words _ Hok) as Hall; rewrite Forall_lookup in Hall; by eapply Hall).
    apply (moved_image s a b Hva). split; [|done].
    pose proof (complete_words s src Hinv Hc) as Hall. rewrite Forall_lookup in Hall. by eapply Hall.
  - intros H8. destruct (cp_bytes _ _ _ _ Hcp H8) as [Hn Hk].
    pose proof (in_pool_bounds _ _ _ _ Hrow (row_v08 _ _ _ Hrow H8)) as Hb0.
    pose proof (in_pool_bounds _ _ _ _ Hrow' (row_v08 _ _ _ Hrow' H8)) as Hb1.
    assert (nth 1 r 0%Z = nth 1 (row_of h0 x) 0%Z) as Hlen.
    { rewrite !nth_lookup. by rewrite (cp_others _ _ _ _ Hcp) by (done || by apply descriptor_columns, v08_schema). }
    unfold text. rewrite Hry. cbn [bytes_ result_heap freeze_continuations set_frozen] in *. rewrite Hlen in *.
    apply list_eq. intros k. destruct (decide (k < Z.to_nat (nth 1 (row_of h0 x) 0%Z))) as [Hkl|Hkl].
    + rewrite !take_drop_lookup by done. by apply Hk.
    + rewrite !lookup_take_ge by lia. done.
Qed.

Lemma result_compacted s src l : inv s src → complete s → pins_moved s (pins_ h0) (pins_ (old s)) →
  roots_ok h0 l → slots_at s l (length l) → roots_ (old s) = roots_ h0 →
  compacted h0 (result_heap s) (fwd s).
Proof.
  intros Hinv Hc Hpins Hl Hslots Hro.
  assert (∀ x, reach h0 x → ∃ y, fwd s x = Some y) as Hreach by (by eapply complete_reach).
  destruct Hl as (Hnd & Hhead & Hlink & Hdom). destruct Hslots as [Hd Hslots]. split.
  - cbn. pose proof (hk_pins _ Hok) as Hvalid.
    apply Forall2_same_length_lookup_2; [by eapply Forall2_length|]. intros k a b Ha Hb.
    destruct (Forall2_lookup_lr _ _ _ _ _ _ Hpins Ha Hb) as [Hk Hm]. split; [done|].
    apply moved_image; [|done]. rewrite Forall_lookup in Hvalid. by apply (Hvalid k a).
  - cbn. split; [done|]. split; [done|]. intros a r Ha.
    assert (a ∈ l) as Hal.
    { pose proof Ha as Ha'. apply elem_of_dom_2 in Ha'. rewrite Hdom in Ha'. by apply elem_of_list_to_set in Ha'. }
    apply list_elem_of_lookup_1 in Hal as [j Hj]. destruct (Hslots j a r Hj Ha) as (v & Hv & Hm).
    rewrite decide_True in Hm by (by eapply lookup_lt_Some). exists v. split; [done|].
    apply moved_image; [by apply (hk_slots _ Hok a)|done].
  - intros x Hx. destruct (Hreach x Hx) as [y Hy]. destruct (reach_valid h0 x Hok Hx) as [Hv Hp]. exists y.
    split; [done|]. split; [eapply (image_valid s src x); [done|done|]; unfold image, becomes; by rewrite Hp|].
    by eapply result_object.
  - intros x x' y Hx Hx' Hy Hy'.
    destruct (reach_valid h0 x Hok Hx) as [Hv Hp], (reach_valid h0 x' Hok Hx') as [Hv' Hp'].
    destruct (fwd_settled s src x y Hinv Hv Hy) as (_ & _ & _ & Htag & j & _ & Hj & Hsrc & _).
    destruct (fwd_settled s src x' y Hinv Hv' Hy') as (_ & _ & _ & Htag' & j' & _ & Hj' & Hsrc' & _).
    destruct (valid_orow x Hv Hp) as [_ <-], (valid_orow x' Hv' Hp') as [_ <-].
    rewrite Htag in Htag'. rewrite Htag' in *. rewrite Hj in Hj'. subst j'. rewrite Hsrc in Hsrc'.
    injection Hsrc' as Heq. by rewrite Heq.
  - intros y Hpy [Hw Hv]. destruct (Hv Hpy) as [He Hlt]. rewrite result_table in Hlt. cbn in He.
    destruct (lookup_lt_is_Some_2 (rows (table (next s) (tag_of y))) (Z.to_nat (index_of y))) as [r Hr]; [by rewrite rows_length|].
    destruct (copy_source s src _ _ r Hinv Hpy Hr) as (i & r0 & Hi & Hr0 & _ & _ & Hvx & Hrx & _).
    exists (pointer (tag_of y) (Z.of_nat i) e). split; [done|].
    destruct (fwd_spec s src _ i r0 Hinv Hpy Hr0) as [[Hn _]|(j & Hj & Hf)].
    { destruct Hn. by eapply list_elem_of_lookup_2. }
    destruct (iv_src _ _ Hinv _ Hpy) as (Hnd' & _). assert (j = Z.to_nat (index_of y)) as -> by (by eapply NoDup_lookup).
    rewrite Hf, Z2Nat.id by apply index_of_range. rewrite <- He. by rewrite pointer_rebuild.
Qed.

(** The ids handed to the host: those of the external rows that were not copied. *)
Lemma released_ids s src : inv s src → host_ (old s) = true →
  release_externals (old s) =
  Ret ((λ i, nth 0 (default [] (orow T_ext i)) 0%Z) <$>
       filter (λ i, i ∉ src T_ext) (seq 0 (size_ (htable h0 T_ext)))).
Proof.
  intros Hinv Hh. unfold release_externals. rewrite Hh.
  destruct (iv_tabs _ _ Hinv T_ext eq_refl) as [Htab Hsz]. rewrite (col_ok _ _ 0 Htab) by (cbn; lia). cbn [bind]. f_equal.
  assert (rows (htable (old s) T_ext) = (λ i, default [] (rows (htable (old s) T_ext) !! i)) <$> seq 0 (size_ (htable h0 T_ext))) as ->.
  { apply list_eq. intros i. rewrite list_lookup_fmap. destruct (decide (i < size_ (htable h0 T_ext))) as [Hi|Hi].
    - rewrite lookup_seq_lt by done. cbn. destruct (lookup_lt_is_Some_2 (rows (htable (old s) T_ext)) i) as [r ->]; [|done].
      by rewrite rows_length, Hsz.
    - rewrite !(proj2 (lookup_ge_None _ _)); [done|rewrite length_seq; lia|rewrite rows_length; lia]. }
  assert (Forall (λ i, i < size_ (htable h0 T_ext)) (seq 0 (size_ (htable h0 T_ext)))) as Hall
    by (apply Forall_seq; lia).
  revert Hall. generalize (seq 0 (size_ (htable h0 T_ext))) as l. induction l as [|i l IH]; intros Hall; [done|].
  apply Forall_cons in Hall as [Hi Hall]. destruct (orow_some T_ext i Hi) as [r0 Hr0].
  pose proof (orow_width T_ext i r0 eq_refl Hr0) as Hlen. pose proof (hk_rows _ Hok T_ext i r0 eq_refl Hr0) as Hrow.
  rewrite !fmap_cons, !filter_cons.
  destruct (iv_old _ _ Hinv T_ext i r0 eq_refl Hr0) as [[Hn Hr]|(j & Hj & Hr)]; rewrite Hr; cbn [from_option Datatypes.id].
  - destruct (lookup_lt_is_Some_2 r0 0) as [y Hy]; [rewrite Hlen; cbn; lia|]. rewrite Hy. cbn [from_option Datatypes.id].
    pose proof (row_mark _ _ _ Hrow) as Hz. rewrite (nth_lookup_Some _ _ _ _ Hy) in Hz.
    rewrite !decide_True by done. rewrite fmap_cons, Hr0. cbn [from_option Datatypes.id].
    rewrite (nth_lookup_Some _ _ _ _ Hy). f_equal. by apply IH.
  - rewrite (decide_False (P := i ∉ src T_ext)) by (intros Hn; by apply Hn, (list_elem_of_lookup_2 _ j)).
    rewrite decide_False; [by apply IH|].
    destruct r0 as [|a [|b r0]]; [done|done|]. cbn. by intros H.
Qed.

End collector.

(** ** The constructor *)

(** The payload sizes the constructor adds up. *)
Definition words_needed (h : heap) : Z :=
  (sum_lens h T_v32 (seq 0 (size_ (htable h T_v32))) + sum_lens h T_rec (seq 0 (size_ (htable h T_rec))))%Z.

Definition bytes_needed (h : heap) : Z := sum_lens h T_v08 (seq 0 (size_ (htable h T_v08))).

Lemma total_size_ok lens : Forall (λ n, 0 ≤ n)%Z lens → ∀ total, (0 ≤ total ≤ word_limit)%Z →
  total_size total lens =
  if (total + foldr Z.add 0 lens <=? word_limit)%Z then Ret (total + foldr Z.add 0 lens)%Z
  else Throw payload_exceeds_offsets.
Proof.
  assert (∀ l, Forall (λ n, 0 ≤ n)%Z l → (0 ≤ foldr Z.add 0 l)%Z) as Hnn
    by (induction 1; cbn [foldr]; lia).
  induction 1 as [|n lens Hn Hl IH]; intros total Ht; cbn [total_size foldr].
  - rewrite Z.add_0_r. by destruct (Z.leb_spec total word_limit); [|lia].
  - specialize (Hnn lens Hl). unfold pool_size, word_limit in *. rewrite wrap_small by lia.
    destruct (Z.ltb_spec (2 ^ 32 - 1 - total) n); cbn [bind].
    + by destruct (Z.leb_spec (total + (n + foldr Z.add 0 lens)) (2 ^ 32 - 1))%Z; [lia|].
    + rewrite IH by lia. by rewrite Z.add_assoc.
Qed.

Lemma reserve_all_ok h tags v : heap_ok h → Forall (λ t, is_pointer t = true) tags → length v = 11 →
  (∀ t, is_pointer t = true → tab_ok (width t) (table v t) ∧ size_ (table v t) = 0) →
  ∃ v', reserve_all tags h v = Ret v' ∧ length v' = 11 ∧
    ∀ t, is_pointer t = true → tab_ok (width t) (table v' t) ∧ size_ (table v' t) = 0.
Proof.
  intros Hh Htags. revert v. induction Htags as [|t tags Ht Htags IH]; intros v Hl Hv; cbn [reserve_all]; [by exists v|].
  destruct (Hv t Ht) as [Htab Hsz]. destruct (hk_tabs _ Hh t Ht) as [_ _ Hs Hc].
  destruct (reserve_ok _ _ (size_ (htable h t)) Htab) as (tb & -> & Htb & _ & Hsz' & _); [lia|]. cbn [bind].
  apply IH; [by rewrite with_table_length|]. intros u Hu. destruct (decide (t = u)) as [<-|Hne].
  - rewrite table_with_eq by done. split; [done|congruence].
  - rewrite table_with_ne by done. auto.
Qed.

Lemma lens_sum h t : heap_ok h → is_pointer t = true → schema t = schema_v08 →
  col (htable h t) (column t F_len) = Ret ((λ r, nth 1 r 0%Z) <$> rows (htable h t)) ∧
  Forall (λ n, 0 ≤ n)%Z ((λ r, nth 1 r 0%Z) <$> rows (htable h t)) ∧
  foldr Z.add 0%Z ((λ r, nth 1 r 0%Z) <$> rows (htable h t)) = sum_lens h t (seq 0 (size_ (htable h t))).
Proof.
  intros Hh Ht Hs. split; [|split].
  - assert (column t F_len = 1) as -> by (unfold column, column_index; by rewrite Hs).
    rewrite (col_ok _ _ 1 (hk_tabs _ Hh t Ht)) by (unfold width; rewrite Hs; cbn; lia). f_equal.
    apply list_fmap_ext. intros i r Hr. by rewrite nth_lookup.
  - apply Forall_fmap, Forall_lookup. intros i r Hr. cbn. eapply row_nonneg. by apply (hk_rows _ Hh t i r).
  - rewrite sum_lens_rows by done. by rewrite foldr_fmap.
Qed.

(** [start] succeeds when the payloads fit 32-bit offsets, and throws otherwise. *)
Lemma start_ok h : heap_ok h →
  if (words_needed h <=? word_limit)%Z && (bytes_needed h <=? word_limit)%Z then
    ∃ s, start h = Ret s ∧ old s = h ∧ inv h s (λ _, [])
  else start h = Throw payload_exceeds_offsets.
Proof.
  intros Hh. unfold start.
  destruct (reserve_all_ok h vat_tags empty_vat Hh pointer_tags_all) as (v & -> & Hl & Hv); [done| |].
  { intros t Ht. assert (table empty_vat t = empty_tab t) as -> by (by destruct t). split; [apply empty_tab_ok|done]. }
  cbn [bind]. destruct (lens_sum h T_v32 Hh eq_refl eq_refl) as (-> & Hn1 & Hs1).
  destruct (lens_sum h T_rec Hh eq_refl eq_refl) as (-> & Hn2 & Hs2).
  destruct (lens_sum h T_v08 Hh eq_refl eq_refl) as (-> & Hn3 & Hs3). cbn [bind].
  pose proof (sum_lens_nonneg h Hh T_v32 (seq 0 (size_ (htable h T_v32))) eq_refl) as P1.
  pose proof (sum_lens_nonneg h Hh T_rec (seq 0 (size_ (htable h T_rec))) eq_refl) as P2.
  unfold words_needed, bytes_needed.
  rewrite total_size_ok by (done || (unfold word_limit; lia)). rewrite Z.add_0_l, Hs1.
  destruct (Z.leb_spec (sum_lens h T_v32 (seq 0 (size_ (htable h T_v32)))) word_limit) as [L1|L1]; cbn [bind].
  2: { by destruct (Z.leb_spec (sum_lens h T_v32 (seq 0 (size_ (htable h T_v32)))
       + sum_lens h T_rec (seq 0 (size_ (htable h T_rec)))) word_limit)%Z; [lia|]. }
  rewrite total_size_ok by (done || lia). rewrite Hs2.
  destruct (Z.leb_spec (sum_lens h T_v32 (seq 0 (size_ (htable h T_v32)))
    + sum_lens h T_rec (seq 0 (size_ (htable h T_rec)))) word_limit)%Z; cbn [bind andb]; [|done].
  rewrite total_size_ok by (done || (unfold word_limit; lia)). rewrite Z.add_0_l, Hs3.
  destruct (Z.leb_spec (sum_lens h T_v08 (seq 0 (size_ (htable h T_v08)))) word_limit); cbn [bind]; [|done].
  eexists. split; [done|]. split; [done|]. by apply start_inv.
Qed.

(** ** The claims *)

(** The run, put together. *)
Lemma collect_states h : heap_ok h → (words_needed h < zap)%Z → (bytes_needed h < zap)%Z →
  ∃ s src released, collect h = Some (Ret released, result_heap h s) ∧ inv h s src ∧ complete s ∧
    release_externals (old s) = Ret released ∧ host_ (old s) = host_ h ∧
    heap_ok (result_heap h s) ∧ compacted h (result_heap h s) (fwd h s) ∧
    ∀ x, reach h x → ∃ y, fwd h s x = Some y.
Proof.
  intros Hh Hw Hb.
  assert (zap ≤ word_limit)%Z as Hz by (by rewrite zap_value).
  pose proof (start_ok h Hh) as Hst. unfold words_needed, bytes_needed in *.
  assert ((sum_lens h T_v32 (seq 0 (size_ (htable h T_v32))) + sum_lens h T_rec (seq 0 (size_ (htable h T_rec))) <=? word_limit)%Z
    && (sum_lens h T_v08 (seq 0 (size_ (htable h T_v08))) <=? word_limit)%Z = true) as Hfit by lia.
  rewrite Hfit in Hst. destruct Hst as (s & Hs & Hold & Hinv). destruct (hk_roots _ Hh) as [l Hl].
  destruct (run_states h Hh ltac:(lia) ltac:(lia) s l Hold Hinv Hl)
    as (s1 & s2 & s3 & src & H1 & H2 & H3 & Hinv3 & Hc & Hpins & Hslots & Hnp & Hro & Hho).
  assert (∃ released, release_externals (old s3) = Ret released) as [released Hrel].
  { unfold release_externals. destruct (host_ (old s3)); [|by eexists].
    destruct (iv_tabs _ _ _ Hinv3 T_ext eq_refl) as [Htab _]. rewrite (col_ok _ _ 0 Htab) by (cbn; lia). by eexists. }
  exists s3, src, released. split.
  { unfold collect. rewrite Hs. unfold run. rewrite H1, H2, H3, Hrel. cbn [bind].
    by rewrite (iv_era _ _ _ Hinv3). }
  split; [done|]. split; [done|]. split; [done|]. split; [done|].
  split; [by eapply result_ok; try done; lia|]. split; [by eapply result_compacted; try done; lia|].
  by eapply complete_reach; try done; lia.
Qed.

(** C1: collection keeps exactly what is reachable. On a well-formed heap whose
    payloads leave room below the collector's mark, [collect] ends, no assertion
    of it fails, and there is a map from old pointers to new ones such that the
    pins and the roots now hold the images of what they held; every object
    reachable from them is there under its image, with its fields and payload
    moved along; distinct objects have distinct images; and every row of the new
    heap is the image of a reachable object. The new heap is well formed and of
    the other era. *)
Theorem collect_correct h : heap_ok h → (words_needed h < zap)%Z → (bytes_needed h < zap)%Z →
  ∃ released h' φ, collect h = Some (Ret released, h') ∧ heap_ok h' ∧ era_ h' = negb (era_ h) ∧
    compacted h h' φ.
Proof.
  intros Hh Hw Hb. destruct (collect_states h Hh Hw Hb) as (s & src & released & Hc & _ & _ & _ & _ & Hok & Hct & _).
  exists released, (result_heap h s), (fwd h s). done.
Qed.

(** a collection releases an external object to the host exactly when no
    pin or root reaches it: the ids handed out are those of the unreachable
    external rows, each once, in the order of their rows. *)
Theorem collect_releases h : heap_ok h → (words_needed h < zap)%Z → (bytes_needed h < zap)%Z →
  host_ h = true →
  ∃ released h' (kept : list nat), collect h = Some (Ret released, h') ∧
    (∀ i, i ∈ kept ↔ i < size_ (htable h T_ext) ∧ reach h (pointer T_ext (Z.of_nat i) (era_ h))) ∧
    released = (λ i, nth 0 (default [] (rows (htable h T_ext) !! i)) 0%Z) <$>
               filter (λ i, i ∉ kept) (seq 0 (size_ (htable h T_ext))).
Proof.
  intros Hh Hw Hb Hhost.
  destruct (collect_states h Hh Hw Hb) as (s & src & released & Hc & Hinv & _ & Hrel & Hho & _ & _ & Hreach).
  exists released, (result_heap h s), (src T_ext). split; [done|]. split.
  - intros i. destruct (iv_src _ _ _ Hinv T_ext eq_refl) as (_ & Hrange & _). rewrite Forall_forall in Hrange. split.
    + intros Hi. split; [by apply Hrange|]. by apply (iv_reach _ _ _ Hinv).
    + intros [Hi Hr]. destruct (Hreach _ Hr) as [y Hy]. destruct (orow_some h Hh T_ext i Hi) as [r0 Hr0].
      destruct (fwd_spec h Hh s src T_ext i r0 Hinv eq_refl Hr0) as [[_ Hf]|(j & Hj & _)]; [congruence|].
      by eapply list_elem_of_lookup_2.
  - assert (zap ≤ word_limit)%Z by (by rewrite zap_value). unfold words_needed, bytes_needed in *.
    rewrite (released_ids h Hh) with (src := src) in Hrel by (done || congruence || lia). by injection Hrel.
Qed.

(** a collection that cannot reserve its pools changes nothing: when the
    payloads of all rows together pass 32-bit offsets, [collect] throws and the
    heap, the pins and the roots are as they were. *)
Theorem collect_atomic h : heap_ok h → (word_limit < words_needed h ∨ word_limit < bytes_needed h)%Z →
  collect h = Some (Throw payload_exceeds_offsets, h).
Proof.
  intros Hh Hbig. pose proof (start_ok h Hh) as Hst.
  assert ((words_needed h <=? word_limit)%Z && (bytes_needed h <=? word_limit)%Z = false) as Hfit by lia.
  rewrite Hfit in Hst. unfold collect. by rewrite Hst.
Qed.

(** ** Examples *)

(** A heap with one pinned pair and one external object nothing holds. *)
Definition example_heap : heap :=
  (make_pin (pointer T_duo 0 false)
    (make T_ext [42%Z; nil] (Heap.cons 3%Z nil (new_heap true)).2).2).2.

Lemma nil_valid h : valid h nil.
Proof. split; [by unfold is_word|done]. Qed.

Lemma small_valid h x : (0 ≤ x < 2 ^ 31)%Z → valid h x.
Proof.
  intros Hx. assert (is_word x) as Hw by (unfold is_word; lia). split; [done|]. unfold pointer_word.
  rewrite tag_of_arith by done. by destruct (Z.ltb_spec x (2 ^ 31)); [|lia].
Qed.

Lemma example_ok : heap_ok example_heap.
Proof.
  unfold example_heap. pose proof (new_heap_ok true) as H0. set (h0 := new_heap true) in *.
  destruct (make_ok h0 T_duo [3%Z; nil]) as (tb & Hm & Hr & H1 & Hs); [done|done|done| |done|].
  { split; [|done| |done|done].
    - apply Forall_cons_2; [by unfold is_word|]. apply Forall_cons_2; [by unfold is_word|done].
    - intros c x _ Hx. destruct c as [|[|c]]; [..|done]; injection Hx as <-; [apply small_valid; lia|apply nil_valid]. }
  unfold Heap.cons. rewrite Hm. cbn [snd].
  destruct (make_ok (with_htable h0 T_duo tb) T_ext [42%Z; nil]) as (tb2 & Hm2 & Hr2 & H2 & _); [done|done|done| |done|].
  { split; [|done| |done|done].
    - apply Forall_cons_2; [by unfold is_word|]. apply Forall_cons_2; [by unfold is_word|done].
    - intros c x _ Hx. destruct c as [|[|c]]; [..|done]; injection Hx as <-; [apply small_valid; lia|apply nil_valid]. }
  rewrite Hm2. cbn [snd]. apply make_pin_ok; [done| |done]. split; [done|]. intros _. split; [done|].
  change (tag_of (pointer T_duo 0 false)) with T_duo. rewrite htable_with_ne by done.
  rewrite htable_with_eq by done. rewrite Hs. by apply Nat.ltb_lt.
Qed.

Lemma collect_correct_witness :
  ∃ released h' φ, collect example_heap = Some (Ret released, h') ∧ heap_ok h' ∧ era_ h' = true ∧
    compacted example_heap h' φ.
Proof. apply (collect_correct example_heap); [apply example_ok|by vm_compute|by vm_compute]. Defined.

Lemma collect_releases_witness :
  ∃ released h' (kept : list nat), collect example_heap = Some (Ret released, h') ∧
    released = (λ i, nth 0 (default [] (rows (htable example_heap T_ext) !! i)) 0%Z) <$>
               filter (λ i, i ∉ kept) (seq 0 (size_ (htable example_heap T_ext))).
Proof.
  destruct (collect_releases example_heap) as (released & h' & kept & Hc & _ & Hr).
  - apply example_ok.
  - by vm_compute.
  - by vm_compute.
  - exact eq_refl.
  - exists released, h', kept. exact (conj Hc Hr).
Defined.

(** Descriptors that share a payload, as [copy] makes them. *)
Lemma share_ok h idx len : heap_ok h → (Z.of_nat idx ≠ zap)%Z → idx + len ≤ length (bytes_ h) →
  (Z.of_nat (size_ (htable h T_v08)) < max_rows)%Z →
  ∃ h', heap_ok h' ∧ bytes_ h' = bytes_ h ∧
    rows (htable h' T_v08) = rows (htable h T_v08) ++ [[Z.of_nat idx; Z.of_nat len]].
Proof.
  intros Hh Hz Hl Hs. pose proof (hk_bytes_size _ Hh).
  destruct (make_ok h T_v08 [Z.of_nat idx; Z.of_nat len]) as (tb & _ & Hr & Hh' & _); [done|done|done| |done|].
  { apply descriptor_ok; try done. lia. }
  exists (with_htable h T_v08 tb). split; [done|]. split; [done|]. by rewrite htable_with_eq.
Qed.

Lemma shared_heap n : (Z.of_nat n ≤ word_limit)%Z → (word_limit < 2 * Z.of_nat n)%Z →
  ∃ h, heap_ok h ∧ (word_limit < bytes_needed h)%Z.
Proof.
  intros Hn H2. pose proof (new_heap_ok false) as H0.
  assert (heap_ok (set_bytes (new_heap false) ([] ++ replicate n 0%Z))) as H1
    by (apply set_bytes_ok; [done|]; by rewrite app_nil_l, length_replicate).
  destruct (share_ok _ 0 n H1) as (h1 & Hh1 & Hb1 & Hr1); [done|cbn; by rewrite length_replicate|done|].
  destruct (share_ok h1 0 n Hh1) as (h2 & Hh2 & Hb2 & Hr2); [done|rewrite Hb1; cbn; by rewrite length_replicate| |].
  { rewrite <- rows_length, Hr1. done. }
  exists h2. split; [done|]. unfold bytes_needed. rewrite sum_lens_rows, Hr2, Hr1 by done.
  change (rows (htable _ T_v08)) with ([] : list row). cbn [app foldr nth]. lia.
Qed.

Lemma collect_atomic_witness :
  ∃ h, heap_ok h ∧ collect h = Some (Throw payload_exceeds_offsets, h).
Proof.
  destruct (shared_heap (Z.to_nat (2 ^ 32 - 1))) as (h & Hh & Hb).
  - rewrite Z2Nat.id by lia. done.
  - rewrite Z2Nat.id by lia. done.
  - exists h. split; [done|]. apply (collect_atomic h Hh). by right.
Defined.
