(* ===== verification/Printer.v ===== *)
(** * The compact printer (src/src/wisp/printer.cpp)

    [compact_printer] prints a guest value with an explicit stack of commands, so
    that deep values need no native stack, and a set of the values it is inside of,
    so that cyclic ones end. The heap and the current package do not change while it
    runs; the printer's text, stack and set are its state. *)
From S2P Require Import Prelude Word Vat Heap.
#[local] Open Scope Z_scope.

Inductive action := A_value | A_tail | A_elements | A_leave | A_close_list.

Record command := MkCommand { kind : action; value_of : Z; index : nat }.

(** The top of [pending_] is its first element. *)
Record compact_printer := MkPrinter {
  out_ : bytes;
  pending_ : list command;
  active_ : gset Z;
}.

Definition emit (text : bytes) (p : compact_printer) : compact_printer :=
  MkPrinter (out_ p ++ text) (pending_ p) (active_ p).

Definition push_back (c : command) (p : compact_printer) : compact_printer :=
  MkPrinter (out_ p) (c :: pending_ p) (active_ p).

(** [enter]: false, with the cycle mark printed, inside of [x] already. *)
Definition enter (x : Z) (p : compact_printer) : bool * compact_printer :=
  if decide (x ∈ active_ p) then (false, emit (str "#<CYCLE>") p)
  else (true, push_back (MkCommand A_leave x 0) (MkPrinter (out_ p) (pending_ p) ({[x]} ∪ active_ p))).

(** [std::to_string] of a signed value. *)
Definition to_string_signed (n : Z) : bytes := if n <? 0 then ch "-" :: to_string (- n) else to_string n.

Definition escape (c : Z) : bytes :=
  if c =? dquote then [backslash; dquote]
  else if c =? backslash then [backslash; backslash]
  else if c =? 10 then [backslash; ch "n"]
  else [c].

Definition string_text (bs : bytes) : bytes := [dquote] ++ concat (escape <$> bs) ++ [dquote].

Definition diagnostic (name : bytes) (payload : Z) : bytes :=
  str "#<" ++ name ++ [ch " "] ++ to_string payload ++ [ch ">"].

Section printer.
Context (h : heap) (current : Z).

(** [xs[i]] of a span, out of bounds undefined. *)
Definition at_index (xs : list Z) (i : nat) : result fault Z :=
  match xs !! i with Some x => Ret x | None => Throw raw_access end.

Definition cons_cell (x : Z) (p : compact_printer) : result fault compact_printer :=
  let! r := hread T_duo x h in
  Ret (push_back (MkCommand A_value (nth 0 r 0) 0) (push_back (MkCommand A_tail (nth 1 r 0) 0) p)).

Definition symbol_text (x : Z) : result fault bytes :=
  let! package := hget T_sym F_pkg x h in
  let! prefix :=
    if package =? nil then Ret (str "#:")
    else
      let! nam := hget T_pkg F_nam package h in
      let! name := v08slice nam h in
      if bool_decide (name = str "KEYWORD") then Ret [ch ":"]
      else if negb (bool_decide (name = str "KEY"))
              && (if current =? nil then negb (bool_decide (name = str "WISP")) else negb (package =? current))
      then Ret (name ++ [ch ":"])
      else Ret [] in
  let! s := hget T_sym F_str x h in
  let! name := v08slice s h in
  Ret (prefix ++ name).

(** [function<T>]. *)
Definition function_text (t : tag) (x : Z) : result fault bytes :=
  let! sym := hget t F_sym x h in
  if sym =? nil then
    Ret (if bool_decide (t = T_fun) then str "#<ANONYMOUS-FUNCTION>" else str "#<ANONYMOUS-MACRO>")
  else
    let! s := hget T_sym F_str sym h in
    let! name := v08slice s h in
    Ret (str "#'" ++ name).

Definition record_name (r : Z) : result fault Z :=
  let! xs := hwords T_rec r h in
  let! type := at_index xs 0 in
  if bool_decide (tag_of type = T_rec) then
    let! ts := hwords T_rec type h in
    if (1 <? length ts)%nat then at_index ts 1 else Ret type
  else Ret type.

(** The loop over the slot names; [room] is [xs.size() - count]. The result is what
    is left of the list, the count and the name found; [None] is a name that is not
    a symbol. *)
Fixpoint slot_names (room : nat) (names : Z) (count slot : nat) (found : Z)
    : result fault (option (Z * nat * Z)) :=
  match room with
  | O => Ret (Some (names, count, found))
  | S room' =>
      if bool_decide (tag_of names = T_duo) then
        let! r := hread T_duo names h in
        let name := nth 0 r 0 in
        if bool_decide (tag_of name = T_sym) then
          slot_names room' (nth 1 r 0) (S count) slot (if (S count =? slot)%nat then name else found)
        else Ret None
      else Ret (Some (names, count, found))
  end.

Definition slot_name (r : Z) (slot : nat) : result fault Z :=
  let! xs := hwords T_rec r h in
  let! type := at_index xs 0 in
  if bool_decide (tag_of type = T_rec) then
    let! ts := hwords T_rec type h in
    if (length ts <? 3)%nat then Ret nil
    else
      let! names := at_index ts 2 in
      let! walk := slot_names (length xs) names 0 slot nil in
      match walk with
      | None => Ret nil
      | Some (rest, count, found) =>
          Ret (if (rest =? nil) && (count + 1 =? length xs)%nat then found else nil)
      end
  else Ret nil.

(** The text before the slot [i] of a record. *)
Definition slot_text (r : Z) (i : nat) : result fault bytes :=
  let! name := slot_name r i in
  if name =? nil then Ret (str " ")
  else
    let! s := hget T_sym F_str name h in
    let! text := v08slice s h in
    Ret (str " :" ++ text ++ [ch " "]).

(** [fields<T>]. *)
Definition fields (t : tag) (x : Z) (i : nat) (p : compact_printer) : result fault compact_printer :=
  match schema t !! i with
  | None => Ret p
  | Some c =>
      let! r := hread t x h in
      let! y := at_index r i in
      Ret (push_back (MkCommand A_value y 0) (push_back (MkCommand A_elements x (S i))
             (emit ([ch " "] ++ str (name c) ++ [ch "="]) p)))
  end.

Definition sys_text (x : Z) : bytes :=
  if x =? nil then str "NIL"
  else if x =? word_t then str "T"
  else if x =? nah then str "#<NAH>"
  else if x =? top then str "#<TOP>"
  else if x =? zap then str "#<ZAP>"
  else diagnostic (str "sys") (payload_of x).

(** The values that are printed at once, without entering them. *)
Definition atom_text (x : Z) : result fault bytes :=
  match tag_of x with
  | T_integer => Ret (to_string_signed (integer x))
  | T_sys => Ret (sys_text x)
  | T_sym => symbol_text x
  | T_v08 => let! bs := v08slice x h in Ret (string_text bs)
  | T_pkg => Ret (str "<package>")
  | T_fun => function_text T_fun x
  | T_mac => function_text T_mac x
  | T_ext => let! idx := hget T_ext F_idx x h in Ret (diagnostic (str "ext") idx)
  | T_jet => Ret (diagnostic (str "jet") (payload_of x))
  | T_chr => Ret (diagnostic (str "chr") (payload_of x))
  | T_pin => Ret (diagnostic (str "pin") (payload_of x))
  | _ => Ret (diagnostic (str "word") x)
  end.

Definition value (x : Z) (p : compact_printer) : result fault compact_printer :=
  match tag_of x with
  | T_duo =>
      let '(entered, p) := enter x p in
      if entered then cons_cell x (push_back (MkCommand A_close_list nil 0) (emit (str "(") p)) else Ret p
  | T_rec =>
      let '(entered, p) := enter x p in
      if entered then
        let! name := record_name x in
        Ret (push_back (MkCommand A_value name 0) (push_back (MkCommand A_elements x 1) (emit (str "#S(") p)))
      else Ret p
  | T_v32 | T_ktx | T_run =>
      let '(entered, p) := enter x p in
      if entered then
        Ret (push_back (MkCommand A_elements x 0)
               (emit (if bool_decide (tag_of x = T_v32) then str "#<"
                      else if bool_decide (tag_of x = T_ktx) then str "<%ktx" else str "<run") p))
      else Ret p
  | _ => let! text := atom_text x in Ret (emit text p)
  end.

Definition tail (y : Z) (p : compact_printer) : result fault compact_printer :=
  if bool_decide (tag_of y = T_duo) then
    if decide (y ∈ active_ p) then Ret (emit (str " . #<CYCLE>") p)
    else cons_cell y (enter y (emit (str " ") p)).2
  else if negb (y =? nil) then Ret (push_back (MkCommand A_value y 0) (emit (str " . ") p))
  else Ret p.

Definition elements (y : Z) (i : nat) (p : compact_printer) : result fault compact_printer :=
  if bool_decide (tag_of y = T_rec) then
    let! xs := hwords T_rec y h in
    if (i =? length xs)%nat then Ret p
    else
      let! before := slot_text y i in
      let! x := at_index xs i in
      Ret (push_back (MkCommand A_value x 0) (push_back (MkCommand A_elements y (S i)) (emit before p)))
  else if bool_decide (tag_of y = T_v32) then
    let! xs := v32slice y h in
    if (i =? length xs)%nat then Ret p
    else
      let! x := at_index xs i in
      Ret (push_back (MkCommand A_value x 0) (push_back (MkCommand A_elements y (S i))
             (emit (if (i =? 0)%nat then [] else str " ") p)))
  else if bool_decide (tag_of y = T_ktx) then fields T_ktx y i p
  else fields T_run y i p.

Definition leave (y : Z) (p : compact_printer) : compact_printer :=
  emit (if bool_decide (tag_of y = T_rec) then str ")"
        else if bool_decide (tag_of y = T_duo) then [] else str ">")
    (MkPrinter (out_ p) (pending_ p) (active_ p ∖ {[y]})).

(** One turn of the loop in [run]. *)
Definition obey (c : command) (p : compact_printer) : result fault compact_printer :=
  match kind c with
  | A_value => value (value_of c) p
  | A_tail => tail (value_of c) p
  | A_elements => elements (value_of c) (index c) p
  | A_leave => Ret (leave (value_of c) p)
  | A_close_list => Ret (emit (str ")") p)
  end.

Fixpoint run (fuel : nat) (p : compact_printer) : option (result fault bytes) :=
  match fuel with
  | O => None
  | S fuel' =>
      match pending_ p with
      | [] => Some (Ret (out_ p))
      | c :: rest =>
          match obey c (MkPrinter (out_ p) rest (active_ p)) with
          | Throw e => Some (Throw e)
          | Ret p' => run fuel' p'
          end
      end
  end.

Definition print (fuel : nat) (x : Z) : option (result fault bytes) :=
  run fuel (MkPrinter [] [MkCommand A_value x 0] ∅).

(** ** The text of a value, by recursion *)

Definition ok {A} (r : result fault A) : option A := match r with Ret a => Some a | Throw _ => None end.

(** The slots of a record from [i] on, each with the text before it. *)
Fixpoint record_slots (x : Z) (i : nat) (ws : list Z) : result fault (list (bytes * Z)) :=
  match ws with
  | [] => Ret []
  | w :: ws' =>
      let! before := slot_text x i in
      let! slots := record_slots x (S i) ws' in
      Ret ((before, w) :: slots)
  end.

(** What stands inside a vector, a record or a frame: values with the text before. *)
Definition parts (x : Z) : result fault (list (bytes * Z)) :=
  match tag_of x with
  | T_v32 => let! xs := v32slice x h in Ret (imap (λ i w, (if (i =? 0)%nat then [] else str " ", w)) xs)
  | T_rec =>
      let! xs := hwords T_rec x h in
      let! name := record_name x in
      let! slots := record_slots x 1 (drop 1 xs) in
      Ret (([], name) :: slots)
  | t =>
      let! r := hread t x h in
      if (length r =? length (schema t))%nat
      then Ret (zip_with (λ c w, ([ch " "] ++ str (name c) ++ [ch "="], w)) (schema t) r)
      else Throw raw_access
  end.

Definition opening (t : tag) : bytes :=
  match t with
  | T_rec => str "#S("
  | T_v32 => str "#<"
  | T_ktx => str "<%ktx"
  | _ => str "<run"
  end.

Definition closing (t : tag) : bytes := match t with T_rec => str ")" | _ => str ">" end.

(** A tag whose values are printed by entering them. *)
Definition compound (t : tag) : bool := bool_decide (t ∈ [T_duo; T_rec; T_v32; T_ktx; T_run]).

(** [show n A x]: the text of [x] inside of the values [A], if nesting [n] is enough
    for it; [show_cells] that of a list from the cell [x], which is in [A], on. *)
Fixpoint show (n : nat) (A : gset Z) (x : Z) {struct n} : option bytes :=
  match n with
  | O => None
  | S n' =>
      if compound (tag_of x) then
        if decide (x ∈ A) then Some (str "#<CYCLE>")
        else if bool_decide (tag_of x = T_duo) then
          t ← show_cells n' ({[x]} ∪ A) x;
          Some (str "(" ++ t ++ str ")")
        else
          ps ← ok (parts x);
          ts ← mapM (λ p : bytes * Z, t ← show n' ({[x]} ∪ A) p.2; Some (p.1 ++ t)) ps;
          Some (opening (tag_of x) ++ concat ts ++ closing (tag_of x))
      else ok (atom_text x)
  end
with show_cells (n : nat) (A : gset Z) (x : Z) {struct n} : option bytes :=
  match n with
  | O => None
  | S n' =>
      r ← ok (hread T_duo x h);
      let '(car, cdr) := (nth 0 r 0, nth 1 r 0) in
      a ← show n' A car;
      if bool_decide (tag_of cdr = T_duo) then
        if decide (cdr ∈ A) then Some (a ++ str " . #<CYCLE>")
        else
          t ← show_cells n' ({[cdr]} ∪ A) cdr;
          Some (a ++ str " " ++ t)
      else if cdr =? nil then Some a
      else
        t ← show n' A cdr;
        Some (a ++ str " . " ++ t)
  end.

Lemma show_cells_S n A x car cdr : hread T_duo x h = Ret [car; cdr] → show_cells (S n) A x =
  a ← show n A car;
  if bool_decide (tag_of cdr = T_duo) then
    if decide (cdr ∈ A) then Some (a ++ str " . #<CYCLE>")
    else
      t ← show_cells n ({[cdr]} ∪ A) cdr;
      Some (a ++ str " " ++ t)
  else if cdr =? nil then Some a
  else
    t ← show n A cdr;
    Some (a ++ str " . " ++ t).
Proof. intros Hr. cbn [show show_cells]. by rewrite Hr. Qed.

(** ** The machine computes that text *)

(** One turn of the loop, as a relation. *)
Definition turn (p p' : compact_printer) : Prop :=
  ∃ c rest, pending_ p = c :: rest ∧ obey c (MkPrinter (out_ p) rest (active_ p)) = Ret p'.

Lemma turn_obey c rest o A p' : obey c (MkPrinter o rest A) = Ret p' → turn (MkPrinter o (c :: rest) A) p'.
Proof. intros H. by exists c, rest. Qed.

Lemma run_turns p p' : rtc turn p p' → pending_ p' = [] → ∃ k, ∀ m, run (k + m) p = Some (Ret (out_ p')).
Proof.
  intros Hr He. induction Hr as [p|p p1 p2 (c & rest & Hp & Ho) _ IH].
  - exists 1%nat. intros m. cbn. by rewrite He.
  - destruct (IH He) as [k Hk]. exists (S k). intros m. cbn [run Nat.add]. rewrite Hp, Ho. apply Hk.
Qed.

Lemma ok_Some {A} (r : result fault A) a : ok r = Some a → r = Ret a.
Proof. by destruct r; intros [= ->]. Qed.

(** What [elements] does at each place of a value with the parts [ps], from [i] on. *)
Definition steps_through (x : Z) (i : nat) (ps : list (bytes * Z)) : Prop :=
  (∀ j b w p, ps !! j = Some (b, w) → elements x (i + j) p =
     Ret (push_back (MkCommand A_value w 0) (push_back (MkCommand A_elements x (S (i + j))) (emit b p)))) ∧
  ∀ p, elements x (i + length ps) p = Ret p.

Lemma steps_through_cons x i b w ps : steps_through x i ((b, w) :: ps) →
  (∀ p, elements x i p =
     Ret (push_back (MkCommand A_value w 0) (push_back (MkCommand A_elements x (S i)) (emit b p)))) ∧
  steps_through x (S i) ps.
Proof.
  intros [He Hend]. split.
  - intros p. specialize (He 0%nat b w p eq_refl). by rewrite Nat.add_0_r in He.
  - split.
    + intros j b' w' p Hj. specialize (He (S j) b' w' p Hj). by rewrite Nat.add_succ_r in He.
    + intros p. specialize (Hend p). cbn [length] in Hend. by rewrite Nat.add_succ_r in Hend.
Qed.

(** Running through the parts prints each after the text before it. *)
Lemma elements_turns (f : Z → option bytes) x A :
  (∀ w t, f w = Some t → ∀ o rest, rtc turn (MkPrinter o (MkCommand A_value w 0 :: rest) A) (MkPrinter (o ++ t) rest A)) →
  ∀ ps i ts o rest, steps_through x i ps →
  mapM (λ p : bytes * Z, t ← f p.2; Some (p.1 ++ t)) ps = Some ts →
  rtc turn (MkPrinter o (MkCommand A_elements x i :: rest) A) (MkPrinter (o ++ concat ts) rest A).
Proof.
  intros Hf. induction ps as [|[b w] ps IH]; intros i ts o rest Hst Hm.
  - injection Hm as <-. cbn. rewrite app_nil_r. apply rtc_once, turn_obey. destruct Hst as [_ He].
    specialize (He (MkPrinter o rest A)). by rewrite Nat.add_0_r in He.
  - destruct (steps_through_cons _ _ _ _ _ Hst) as [He Hst']. cbn in Hm.
    destruct (f w) as [t|] eqn:Hw; [|done]. cbn in Hm.
    destruct (mapM _ ps) as [ts'|] eqn:Hm'; [|done]. injection Hm as <-.
    eapply rtc_l; [apply turn_obey, He|]. cbn. etrans; [by apply Hf|].
    rewrite <- !app_assoc. rewrite (app_assoc o b), (app_assoc (o ++ b) t). by apply IH.
Qed.

Lemma lookup_record_slots x ws : ∀ i slots, record_slots x i ws = Ret slots →
  length slots = length ws ∧
  ∀ j b w, slots !! j = Some (b, w) → slot_text x (i + j) = Ret b ∧ ws !! j = Some w.
Proof.
  induction ws as [|w ws IH]; intros i slots Hs; cbn in Hs; [by injection Hs as <-|].
  destruct (slot_text x i) as [b|] eqn:Hb; [|done]. cbn in Hs.
  destruct (record_slots x (S i) ws) as [slots'|] eqn:Hr; [|done]. injection Hs as <-.
  destruct (IH _ _ Hr) as [Hl Hlk]. split; [cbn; lia|]. intros [|j] b' w' Hj; cbn in Hj.
  - injection Hj as <- <-. by rewrite Nat.add_0_r.
  - rewrite Nat.add_succ_r. by apply Hlk.
Qed.

Lemma at_index_lookup xs i w : xs !! i = Some w → at_index xs i = Ret w.
Proof. unfold at_index. by intros ->. Qed.

Lemma vector_steps x ps : tag_of x = T_v32 → parts x = Ret ps → steps_through x 0 ps.
Proof.
  unfold parts. intros Ht. rewrite Ht. destruct (v32slice x h) as [xs|] eqn:Hx; [|done]. intros [= <-].
  assert (∀ i p, elements x i p = if (i =? length xs)%nat then Ret p else
    let! w := at_index xs i in Ret (push_back (MkCommand A_value w 0) (push_back (MkCommand A_elements x (S i))
      (emit (if (i =? 0)%nat then [] else str " ") p)))) as He.
  { intros i p. unfold elements. by rewrite Ht, Hx. }
  split.
  - intros j b w p Hj. rewrite He. cbn [Nat.add]. rewrite list_lookup_imap in Hj.
    destruct (xs !! j) as [w'|] eqn:Hw; [|done]. injection Hj as <- <-.
    pose proof (lookup_lt_Some _ _ _ Hw). destruct (Nat.eqb_spec j (length xs)); [lia|].
    by rewrite (at_index_lookup _ _ _ Hw).
  - intros p. rewrite He, length_imap. cbn [Nat.add]. by rewrite Nat.eqb_refl.
Qed.

Lemma record_steps x ps : tag_of x = T_rec → parts x = Ret ps →
  ∃ name slots, ps = ([], name) :: slots ∧ record_name x = Ret name ∧ steps_through x 1 slots.
Proof.
  unfold parts. intros Ht. rewrite Ht. destruct (hwords T_rec x h) as [xs|] eqn:Hx; [|done]. cbn [bind].
  destruct (record_name x) as [name|] eqn:Hn; [|done]. cbn [bind].
  destruct (record_slots x 1 (drop 1 xs)) as [slots|] eqn:Hs; [|done]. intros [= <-]. exists name, slots.
  split; [done|]. split; [done|]. destruct (lookup_record_slots _ _ _ _ Hs) as [Hl Hlk].
  assert (0 < length xs)%nat as Hpos.
  { unfold record_name in Hn. rewrite Hx in Hn. cbn in Hn. destruct xs; [done|cbn; lia]. }
  assert (∀ i p, elements x i p = if (i =? length xs)%nat then Ret p else
    let! before := slot_text x i in
    let! w := at_index xs i in Ret (push_back (MkCommand A_value w 0) (push_back (MkCommand A_elements x (S i))
      (emit before p)))) as He.
  { intros i p. unfold elements. by rewrite Ht, Hx. }
  split.
  - intros j b w p Hj. destruct (Hlk j b w Hj) as [Hb Hw]. rewrite He, Hb. rewrite lookup_drop in Hw.
    pose proof (lookup_lt_Some _ _ _ Hw). destruct (Nat.eqb_spec (1 + j) (length xs)); [lia|].
    cbn [bind]. by rewrite (at_index_lookup _ _ _ Hw).
  - intros p. rewrite He, Hl, length_drop. replace (1 + (length xs - 1))%nat with (length xs) by lia.
    by rewrite Nat.eqb_refl.
Qed.

Lemma frame_steps x ps : tag_of x = T_ktx ∨ tag_of x = T_run → parts x = Ret ps → steps_through x 0 ps.
Proof.
  intros Ht Hp. assert (∃ r, hread (tag_of x) x h = Ret r ∧ length r = length (schema (tag_of x)) ∧
    ps = zip_with (λ c w, ([ch " "] ++ str (name c) ++ [ch "="], w)) (schema (tag_of x)) r) as (r & Hr & Hl & ->).
  { unfold parts in Hp. destruct Ht as [Ht|Ht]; rewrite Ht in Hp |- *; destruct (hread _ x h) as [r|]; try done;
      cbn [bind] in Hp; destruct (_ =? _)%nat eqn:E in Hp; try done; apply Nat.eqb_eq in E;
      injection Hp as <-; by exists r. }
  assert (∀ i p, elements x i p = fields (tag_of x) x i p) as He.
  { intros i p. unfold elements. by destruct Ht as [Ht|Ht]; rewrite Ht. }
  split.
  - intros j b w p Hj. rewrite He. cbn [Nat.add]. apply lookup_zip_with_Some in Hj as (c & w' & Hbw & Hc & Hw).
    injection Hbw as -> <-. unfold fields. by rewrite Hc, Hr; cbn [bind]; rewrite (at_index_lookup _ _ _ Hw).
  - intros p. rewrite He. unfold fields. rewrite length_zip_with, Hl, Nat.min_id. cbn [Nat.add].
    by rewrite lookup_ge_None_2.
Qed.

Lemma enter_new x o rest A : x ∉ A →
  enter x (MkPrinter o rest A) = (true, MkPrinter o (MkCommand A_leave x 0 :: rest) ({[x]} ∪ A)).
Proof. intros H. unfold enter. by rewrite decide_False. Qed.

Lemma enter_again x o rest A : x ∈ A → enter x (MkPrinter o rest A) = (false, MkPrinter (o ++ str "#<CYCLE>") rest A).
Proof. intros H. unfold enter. by rewrite decide_True. Qed.

(** Leaving a value closes it and forgets it. *)
Lemma leave_turn x o rest A : x ∉ A → turn (MkPrinter o (MkCommand A_leave x 0 :: rest) ({[x]} ∪ A))
  (MkPrinter (o ++ if bool_decide (tag_of x = T_rec) then str ")"
                   else if bool_decide (tag_of x = T_duo) then [] else str ">") rest A).
Proof.
  intros H. apply turn_obey. cbn [obey kind value_of]. unfold leave, emit. cbn [out_ pending_ active_].
  do 2 f_equal. apply set_eq. intros y. rewrite elem_of_difference, elem_of_union, elem_of_singleton.
  split; [by intros [[->|?] ?]|]. intros Hy. split; [by right|]. by intros ->.
Qed.

Lemma compound_tag t : compound t = true → t = T_duo ∨ t = T_rec ∨ t = T_v32 ∨ t = T_ktx ∨ t = T_run.
Proof. intros H. destruct t; try discriminate H; auto 6. Qed.

Lemma value_atom x p : compound (tag_of x) = false → value x p = let! text := atom_text x in Ret (emit text p).
Proof. unfold value. by destruct (tag_of x). Qed.

Lemma value_cycle x o rest A : compound (tag_of x) = true → x ∈ A →
  value x (MkPrinter o rest A) = Ret (MkPrinter (o ++ str "#<CYCLE>") rest A).
Proof.
  intros Hc Hx. unfold value. rewrite enter_again by done.
  destruct (compound_tag _ Hc) as [H|[H|[H|[H|H]]]]; by rewrite H.
Qed.

(** A compound value that is not a list: its opening, its parts and its closing. *)
Lemma value_parts f x o rest A t : compound (tag_of x) = true → tag_of x ≠ T_duo → x ∉ A →
  (∀ w t, f w = Some t → ∀ o rest,
     rtc turn (MkPrinter o (MkCommand A_value w 0 :: rest) ({[x]} ∪ A)) (MkPrinter (o ++ t) rest ({[x]} ∪ A))) →
  (ps ← ok (parts x);
   ts ← mapM (λ p : bytes * Z, t ← f p.2; Some (p.1 ++ t)) ps;
   Some (opening (tag_of x) ++ concat ts ++ closing (tag_of x))) = Some t →
  rtc turn (MkPrinter o (MkCommand A_value x 0 :: rest) A) (MkPrinter (o ++ t) rest A).
Proof.
  intros Hc Hd Hx Hf Ht. destruct (ok (parts x)) as [ps|] eqn:Hp; [|done]. apply ok_Some in Hp. cbn in Ht.
  destruct (mapM _ ps) as [ts|] eqn:Hm; [|done]. cbn in Ht. injection Ht as <-.
  pose proof (elements_turns f x ({[x]} ∪ A) Hf) as He.
  assert (∀ o', rtc turn (MkPrinter o' (MkCommand A_leave x 0 :: rest) ({[x]} ∪ A))
    (MkPrinter (o' ++ closing (tag_of x)) rest A)) as Hleave.
  { intros o'. eapply rtc_l; [by apply leave_turn|]. rewrite (bool_decide_false (tag_of x = T_duo)) by done.
    destruct (compound_tag _ Hc) as [H|[H|[H|[H|H]]]]; try done; by rewrite H. }
  rewrite app_assoc, app_assoc. destruct (decide (tag_of x = T_rec)) as [Hr|Hr].
  - destruct (record_steps x ps Hr Hp) as (name & slots & -> & Hn & Hst). cbn in Hm.
    destruct (f name) as [tn|] eqn:Hfn; [|done]. cbn in Hm. destruct (mapM _ slots) as [ts'|] eqn:Hm'; [|done].
    injection Hm as <-. eapply rtc_l.
    { apply turn_obey. cbn [obey kind value_of]. unfold value. rewrite Hr, enter_new, Hn by done. reflexivity. }
    cbn. etrans; [by apply Hf|]. etrans; [by eapply He|]. rewrite Hr. cbn. rewrite <- !app_assoc.
    rewrite !app_assoc. rewrite Hr in Hleave. apply Hleave.
  - assert (steps_through x 0 ps) as Hst.
    { destruct (compound_tag _ Hc) as [H|[H|[H|[H|H]]]]; try done;
        [by apply vector_steps|by apply frame_steps; [left|]|by apply frame_steps; [right|]]. }
    assert (value x (MkPrinter o rest A) = Ret (MkPrinter (o ++ opening (tag_of x))
      (MkCommand A_elements x 0 :: MkCommand A_leave x 0 :: rest) ({[x]} ∪ A))) as Hv.
    { unfold value. rewrite enter_new by done.
      destruct (compound_tag _ Hc) as [H|[H|[H|[H|H]]]]; try done; by rewrite H. }
    eapply rtc_l; [apply turn_obey, Hv|]. etrans; [by eapply He|]. apply Hleave.
Qed.

Lemma same_out o o' rest A : o = o' → rtc turn (MkPrinter o rest A) (MkPrinter o' rest A).
Proof. by intros ->. Qed.

Lemma show_turns n :
  (∀ A x t, show n A x = Some t → ∀ o rest,
     rtc turn (MkPrinter o (MkCommand A_value x 0 :: rest) A) (MkPrinter (o ++ t) rest A)) ∧
  (∀ A x t, show_cells n A x = Some t → ∀ o rest, ∃ p', cons_cell x (MkPrinter o rest A) = Ret p' ∧
     rtc turn p' (MkPrinter (o ++ t) rest A)).
Proof.
  induction n as [|n [IHs IHc]]; [done|]. split; intros A x t Hs o rest; cbn [show show_cells] in Hs.
  - destruct (compound (tag_of x)) eqn:Hc.
    2: { apply ok_Some in Hs. apply rtc_once, turn_obey. cbn [obey kind value_of]. by rewrite value_atom, Hs. }
    destruct (decide (x ∈ A)) as [Hx|Hx].
    { injection Hs as <-. by apply rtc_once, turn_obey, value_cycle. }
    destruct (bool_decide (tag_of x = T_duo)) eqn:Hd.
    2: { eapply value_parts, Hs; [done|by apply bool_decide_eq_false in Hd|done|apply IHs]. }
    apply bool_decide_eq_true in Hd. destruct (show_cells n ({[x]} ∪ A) x) as [tc|] eqn:Hcell; [|done].
    cbn in Hs. injection Hs as <-.
    destruct (IHc _ _ _ Hcell (o ++ str "(") (MkCommand A_close_list nil 0 :: MkCommand A_leave x 0 :: rest))
      as (p' & Hp & Hrun).
    eapply rtc_l.
    { apply turn_obey. cbn [obey kind value_of]. unfold value. rewrite Hd, enter_new by done. exact Hp. }
    etrans; [exact Hrun|]. eapply rtc_l; [by apply turn_obey|]. eapply rtc_l; [by apply leave_turn|].
    apply same_out. rewrite Hd. cbn. by rewrite app_nil_r, <- !app_assoc.
  - destruct (hread T_duo x h) as [r|] eqn:Hr; [|done]. cbn [ok mbind option_bind] in Hs.
    destruct (show n A (nth 0 r 0)) as [a|] eqn:Ha; [|done]. cbn in Hs.
    eexists. split; [unfold cons_cell; rewrite Hr; reflexivity|]. etrans; [by apply IHs|].
    cbn [push_back out_ pending_ active_]. set (cdr := nth 1 r 0) in *.
    assert (∀ p', tail cdr (MkPrinter (o ++ a) rest A) = Ret p' → rtc turn p' (MkPrinter (o ++ t) rest A) →
      rtc turn (MkPrinter (o ++ a) (MkCommand A_tail cdr 0 :: rest) A) (MkPrinter (o ++ t) rest A)) as Htail.
    { intros p' Ht Hrun. eapply rtc_l; [by apply turn_obey, Ht|done]. }
    unfold tail in Htail. destruct (bool_decide (tag_of cdr = T_duo)) eqn:Hd.
    + cbn [active_] in Htail. destruct (decide (cdr ∈ A)) as [Hc|Hc].
      { injection Hs as <-. eapply Htail; [done|]. apply same_out. cbn. by rewrite <- app_assoc. }
      destruct (show_cells n ({[cdr]} ∪ A) cdr) as [tc|] eqn:Hcell; [|done]. cbn in Hs. injection Hs as <-.
      destruct (IHc _ _ _ Hcell ((o ++ a) ++ str " ") (MkCommand A_leave cdr 0 :: rest)) as (p' & Hp & Hrun).
      unfold emit in Htail. cbn [out_ pending_ active_] in Htail. rewrite enter_new in Htail by done.
      eapply Htail; [exact Hp|]. etrans; [exact Hrun|]. eapply rtc_l; [by apply leave_turn|]. apply same_out.
      apply bool_decide_eq_true in Hd. rewrite Hd. cbn. by rewrite app_nil_r, <- !app_assoc.
    + destruct (cdr =? nil); cbn [negb] in Htail.
      { injection Hs as <-. by eapply Htail. }
      destruct (show n A cdr) as [tc|] eqn:Ht; [|done]. cbn in Hs. injection Hs as <-.
      eapply Htail; [done|]. etrans; [by apply IHs|]. apply same_out. cbn. by rewrite <- !app_assoc.
Qed.

(** ** Printing ends *)

(** The rows are well formed beyond what the heap itself needs: names are strings,
    packages are packages, and a record has its type. *)
Record printable : Prop := {
  pr_heap : heap_ok h;
  pr_str : ∀ x s, hget T_sym F_str x h = Ret s → tag_of s = T_v08;
  pr_pkg : ∀ x p, hget T_sym F_pkg x h = Ret p → p = nil ∨ tag_of p = T_pkg;
  pr_nam : ∀ x s, hget T_pkg F_nam x h = Ret s → tag_of s = T_v08;
  pr_sym : ∀ t x s, hget t F_sym x h = Ret s → t = T_fun ∨ t = T_mac → s = nil ∨ tag_of s = T_sym;
  pr_rec : ∀ x, hwords T_rec x h ≠ Ret [];
}.

Context (Hpr : printable).
#[local] Set Default Proof Using "All".

(** A value field of a live row. *)
Lemma field_valid t f x c : valid h x → tag_of x = t → is_pointer t = true → column_index t f = Some c →
  Vat.kind <$> schema t !! c = Some K_value → ∃ y, hget t f x h = Ret y ∧ valid h y.
Proof.
  intros Hv Ht Hp Hc Hk. destruct (schema t !! c) as [col|] eqn:E; [|done]. injection Hk as Hk.
  apply (hget_valid h t f x c); try done; [apply Hpr|by eapply lookup_lt_Some, E|by exists col].
Qed.

(** The text a string field holds. *)
Lemma name_text t f x c : valid h x → tag_of x = t → is_pointer t = true → column_index t f = Some c →
  Vat.kind <$> schema t !! c = Some K_value → (∀ s, hget t f x h = Ret s → tag_of s = T_v08) →
  ∃ s bs, hget t f x h = Ret s ∧ v08slice s h = Ret bs.
Proof.
  intros Hv Ht Hp Hc Hk Hs. destruct (field_valid t f x c Hv Ht Hp Hc Hk) as (s & Hg & Hvs).
  destruct (v08slice_ok h s (pr_heap Hpr) Hvs (Hs s Hg)) as [bs Hbs]. by exists s, bs.
Qed.

Lemma symbol_name x : valid h x → tag_of x = T_sym → ∃ s bs, hget T_sym F_str x h = Ret s ∧ v08slice s h = Ret bs.
Proof. intros Hv Ht. apply (name_text _ _ _ 0%nat); try done. apply Hpr. Qed.

Lemma package_name x : valid h x → tag_of x = T_pkg → ∃ s bs, hget T_pkg F_nam x h = Ret s ∧ v08slice s h = Ret bs.
Proof. intros Hv Ht. apply (name_text _ _ _ 0%nat); try done. apply Hpr. Qed.

Lemma symbol_text_total x : valid h x → tag_of x = T_sym → ∃ t, symbol_text x = Ret t.
Proof.
  intros Hv Ht. unfold symbol_text. destruct (field_valid T_sym F_pkg x 1 Hv Ht) as (p & Hp & Hvp); try done.
  rewrite Hp. cbn [bind]. destruct (symbol_name x Hv Ht) as (s & bs & Hs & Hbs). rewrite Hs. cbn [bind]. rewrite Hbs.
  destruct (Z.eqb_spec p nil) as [|Hne]; [by eexists|]. destruct (pr_pkg Hpr _ _ Hp) as [|Htp]; [done|].
  destruct (package_name p Hvp Htp) as (s' & bs' & Hs' & Hbs'). rewrite Hs'. cbn [bind]. rewrite Hbs'. cbn [bind].
  case_bool_decide; [by eexists|]. destruct (_ && _); by eexists.
Qed.

Lemma function_text_total t x : t = T_fun ∨ t = T_mac → valid h x → tag_of x = t → ∃ b, function_text t x = Ret b.
Proof.
  intros Hf Hv Ht. unfold function_text. destruct (field_valid t F_sym x 3 Hv Ht) as (s & Hs & Hvs); try by destruct Hf as [->| ->].
  rewrite Hs. cbn [bind]. destruct (Z.eqb_spec s nil) as [|Hne]; [by eexists|].
  destruct (pr_sym Hpr _ _ _ Hs Hf) as [|Hts]; [done|]. destruct (symbol_name s Hvs Hts) as (n & bs & Hn & Hbs).
  rewrite Hn. cbn [bind]. rewrite Hbs. by eexists.
Qed.

Lemma atom_text_total x : valid h x → compound (tag_of x) = false → ∃ t, atom_text x = Ret t.
Proof.
  intros Hv Hc. unfold atom_text. destruct (tag_of x) eqn:Ht; try (by eexists); try done.
  - by apply symbol_text_total.
  - apply function_text_total; auto.
  - apply function_text_total; auto.
  - destruct (v08slice_ok h x (pr_heap Hpr) Hv Ht) as [bs ->]. by eexists.
  - destruct (hget_ok h T_ext F_idx x 0 (pr_heap Hpr) Hv Ht) as (y & -> & _); try done; [cbn; lia|]. by eexists.
Qed.

(** The fields of a live cell. *)
Lemma cell_fields x : valid h x → tag_of x = T_duo →
  ∃ car cdr, hread T_duo x h = Ret [car; cdr] ∧ valid h car ∧ valid h cdr.
Proof.
  intros Hv Ht. pose proof (pr_heap Hpr) as Hh. assert (pointer_word x = true) as Hpw by (unfold pointer_word; by rewrite Ht).
  pose proof (row_of_ok h x Hh Hv Hpw) as Hrow. pose proof (row_of_length h x Hh Hv Hpw) as Hlen.
  rewrite hread_ok by done. rewrite Ht in Hrow, Hlen. cbn in Hlen.
  destruct (row_of h x) as [|car [|cdr [|]]]; try done. exists car, cdr. split; [done|].
  split; [eapply (row_values _ _ _ Hrow 0)|eapply (row_values _ _ _ Hrow 1)]; try done; by eexists.
Qed.

Lemma slot_names_total room : ∀ names count slot found, valid h names → (found = nil ∨ valid h found ∧ tag_of found = T_sym) →
  ∃ walk, slot_names room names count slot found = Ret walk ∧
  match walk with Some (_, _, f) => f = nil ∨ valid h f ∧ tag_of f = T_sym | None => True end.
Proof.
  induction room as [|room IH]; intros names count slot found Hv Hf; cbn [slot_names]; [by eexists|].
  case_bool_decide as Ht; [|by eexists].
  destruct (cell_fields names Hv Ht) as (car & cdr & -> & Hcar & Hcdr). cbn [bind nth].
  case_bool_decide as Hs; [|by eexists]. apply IH; [done|]. destruct (_ =? _)%nat; auto.
Qed.

(** The words of a record: its type first. *)
Lemma record_words x : valid h x → tag_of x = T_rec →
  ∃ type slots, hwords T_rec x h = Ret (type :: slots) ∧ valid h type ∧ Forall (valid h) slots.
Proof.
  intros Hv Ht. destruct (hwords_valid h T_rec x (pr_heap Hpr) Hv Ht eq_refl) as (ws & Hw & Hws).
  destruct ws as [|type slots]; [by destruct (pr_rec Hpr x)|]. apply Forall_cons in Hws as [? ?]. eauto.
Qed.

Lemma record_name_total x : valid h x → tag_of x = T_rec → ∃ n, record_name x = Ret n ∧ valid h n.
Proof.
  intros Hv Ht. unfold record_name. destruct (record_words x Hv Ht) as (type & slots & -> & Hvt & _). cbn.
  case_bool_decide as Htt; [|by eexists]. destruct (record_words type Hvt Htt) as (tt & ts & -> & _ & Hts). cbn.
  destruct ts as [|n ts]; cbn; [by eexists|]. apply Forall_cons in Hts as [? _]. by eexists.
Qed.

Lemma slot_text_total x i : valid h x → tag_of x = T_rec → ∃ b, slot_text x i = Ret b.
Proof.
  intros Hv Ht. assert (∃ n, slot_name x i = Ret n ∧ (n = nil ∨ valid h n ∧ tag_of n = T_sym)) as (n & Hn & Hcase).
  { unfold slot_name. destruct (record_words x Hv Ht) as (type & slots & -> & Hvt & _). cbn [bind].
    change (at_index (type :: slots) 0) with (@Ret fault Z type). cbn [bind].
    case_bool_decide as Htt; [|by eexists; split; [|left]].
    destruct (record_words type Hvt Htt) as (tt & ts & -> & _ & Hts). cbn [bind].
    destruct ts as [|a [|names ts]]; [by eexists; split; [|left]..|].
    change (length (tt :: a :: names :: ts) <? 3)%nat with false. cbv iota.
    change (at_index (tt :: a :: names :: ts) 2) with (@Ret fault Z names). cbn [bind].
    apply Forall_cons in Hts as [_ Hts]. apply Forall_cons in Hts as [Hnames _].
    destruct (slot_names_total (length (type :: slots)) names 0 i nil Hnames (or_introl eq_refl)) as (walk & -> & Hf).
    cbn [bind]. destruct walk as [[[rest count] found]|].
    - eexists. split; [done|]. destruct (_ && _); [done|by left].
    - eexists. split; [done|]. by left. }
  unfold slot_text. rewrite Hn. cbn [bind]. destruct (Z.eqb_spec n nil) as [|Hne]; [by eexists|].
  destruct Hcase as [|[Hvn Htn]]; [done|]. destruct (symbol_name n Hvn Htn) as (s & bs & -> & Hbs). cbn [bind].
  rewrite Hbs. by eexists.
Qed.

Lemma record_slots_total x ws : valid h x → tag_of x = T_rec → Forall (valid h) ws →
  ∀ i, ∃ slots, record_slots x i ws = Ret slots ∧ Forall (λ p, valid h p.2) slots.
Proof.
  intros Hv Ht. induction 1 as [|w ws Hw Hws IH]; intros i; cbn [record_slots]; [by eexists|].
  destruct (slot_text_total x i Hv Ht) as [b ->]. destruct (IH (S i)) as (slots & -> & Hs). cbn [bind].
  eexists. split; [done|]. by constructor.
Qed.

Lemma parts_total x : valid h x → compound (tag_of x) = true → tag_of x ≠ T_duo →
  ∃ ps, parts x = Ret ps ∧ Forall (λ p, valid h p.2) ps.
Proof.
  intros Hv Hc Hd. pose proof (pr_heap Hpr) as Hh.
  assert (∀ t, tag_of x = t → t = T_ktx ∨ t = T_run → ∃ ps, parts x = Ret ps ∧ Forall (λ p, valid h p.2) ps) as Hframe.
  { intros t Ht Hcase. assert (is_pointer t = true) as Hp by (by destruct Hcase as [->| ->]).
    assert (pointer_word x = true) as Hpw by (unfold pointer_word; by rewrite Ht).
    pose proof (row_of_ok h x Hh Hv Hpw) as Hrow. pose proof (row_of_length h x Hh Hv Hpw) as Hlen.
    exists (zip_with (λ c w, ([ch " "] ++ str (name c) ++ [ch "="], w)) (schema t) (row_of h x)). split.
    - unfold parts. rewrite Ht in Hlen |- *. destruct Hcase as [->| ->]; rewrite hread_ok by done; cbn [bind];
        rewrite Hlen, Nat.eqb_refl; done.
    - apply Forall_lookup. intros i p Hi. apply lookup_zip_with_Some in Hi as (c & w & -> & Hci & Hw). cbn [snd].
      rewrite Ht in Hrow. eapply (row_values _ _ _ Hrow i); [|done]. exists c. split; [done|].
      destruct Hcase as [->| ->]; repeat (destruct i as [|i]; [by injection Hci as <-|]); done. }
  destruct (compound_tag _ Hc) as [Ht|[Ht|[Ht|[Ht|Ht]]]]; [done|..|by eapply Hframe; eauto|by eapply Hframe; eauto].
  - unfold parts. rewrite Ht. destruct (record_words x Hv Ht) as (type & slots & -> & _ & Hslots). cbn [bind].
    destruct (record_name_total x Hv Ht) as (n & -> & Hn). cbn [bind].
    change (drop 1 (type :: slots)) with slots.
    destruct (record_slots_total x slots Hv Ht Hslots 1) as (ss & -> & Hss). cbn [bind]. eexists. split; [done|].
    by constructor.
  - unfold parts. rewrite Ht. destruct (hwords_valid h T_v32 x Hh Hv Ht eq_refl) as (ws & Hw & Hws).
    unfold v32slice. rewrite Hw. cbn [bind]. eexists. split; [done|]. apply Forall_lookup. intros i p Hi.
    rewrite list_lookup_imap in Hi. destruct (ws !! i) as [w|] eqn:E; [|done]. injection Hi as <-. cbn.
    rewrite Forall_lookup in Hws. by eapply Hws.
Qed.

Section bound.
Context (U : gset Z) (HU : ∀ x, is_word x → x ∈ U).

(** What is left to enter shrinks by the value that is entered. *)
Lemma entered x A : valid h x → x ∉ A → (size (U ∖ ({[x]} ∪ A)) < size (U ∖ A))%nat.
Proof.
  intros [Hw _] Hx. apply subset_size. apply strict_spec_alt. split.
  - intros y [Hy Hn]%elem_of_difference. apply elem_of_difference. split; [done|]. intros Ha. apply Hn, elem_of_union. by right.
  - intros E. assert (x ∈ U ∖ A) as Hin by (apply elem_of_difference; auto). rewrite <- E in Hin.
    apply elem_of_difference in Hin as [_ Hn]. apply Hn, elem_of_union. left. by apply elem_of_singleton.
Qed.

Lemma show_total n :
  (∀ A x, valid h x → (2 * size (U ∖ A) + 2 ≤ n)%nat → is_Some (show n A x)) ∧
  (∀ A x, valid h x → tag_of x = T_duo → (2 * size (U ∖ A) + 3 ≤ n)%nat → is_Some (show_cells n A x)).
Proof.
  induction n as [|n [IHs IHc]]; [split; intros; lia|]. split; intros A x Hv.
  - intros Hn. cbn [show]. destruct (compound (tag_of x)) eqn:Hc.
    2: { destruct (atom_text_total x Hv Hc) as [t ->]. by eexists. }
    destruct (decide (x ∈ A)) as [|Hx]; [by eexists|]. pose proof (entered x A Hv Hx).
    case_bool_decide as Hd.
    + destruct (IHc ({[x]} ∪ A) x Hv Hd) as [t ->]; [lia|]. by eexists.
    + destruct (parts_total x Hv Hc Hd) as (ps & -> & Hps). cbn [ok mbind option_bind].
      assert (is_Some (mapM (λ p : bytes * Z, t ← show n ({[x]} ∪ A) p.2; Some (p.1 ++ t)) ps)) as [ts ->].
      { apply mapM_is_Some_2. eapply Forall_impl; [exact Hps|]. intros p Hp. cbn [compose].
        destruct (IHs ({[x]} ∪ A) p.2 Hp) as [t ->]; [lia|]. by eexists. }
      by eexists.
  - intros Ht Hn. cbn [show_cells]. destruct (cell_fields x Hv Ht) as (car & cdr & -> & Hcar & Hcdr). cbn [ok mbind option_bind nth].
    destruct (IHs A car Hcar) as [a ->]; [lia|]. cbn [mbind option_bind]. case_bool_decide as Hd.
    + destruct (decide (cdr ∈ A)) as [|Hx]; [by eexists|]. pose proof (entered cdr A Hcdr Hx).
      destruct (IHc ({[cdr]} ∪ A) cdr Hcdr Hd) as [t ->]; [lia|]. by eexists.
    + destruct (cdr =? nil); [by eexists|]. destruct (IHs A cdr Hcdr) as [t ->]; [lia|]. by eexists.
Qed.
End bound.
End printer.

Lemma words_finite : ∃ U : gset Z, ∀ x, is_word x → x ∈ U.
Proof.
  exists (list_to_set (seqZ 0 (2 ^ 32))). unfold is_word. intros x Hx. apply elem_of_list_to_set, elem_of_seqZ. lia.
Qed.

(** Enough turns of the loop print the text of the value. *)
Lemma print_show h current n x t : show h current n ∅ x = Some t →
  ∃ k, ∀ m, print h current (k + m) x = Some (Ret t).
Proof.
  intros Hs. destruct (show_turns h current n) as [Ht _].
  apply (run_turns h current _ (MkPrinter t [] ∅)); [|done]. apply (Ht ∅ x t Hs [] []).
Qed.

(** C34: Printing ends for every live value of a well-formed heap, whatever is shared
    or cyclic in it, without an access outside of it; the loop over explicit commands
    computes the text that the recursive description gives, with the values it is
    inside of printed as cycles. *)
Theorem print_total h current x : printable h → valid h x →
  ∃ n t k, show h current n ∅ x = Some t ∧ ∀ m, print h current (k + m) x = Some (Ret t).
Proof.
  intros Hpr Hv. destruct words_finite as [U HU].
  destruct (show_total h current Hpr U HU (2 * size (U ∖ ∅) + 2)) as [Ht _].
  destruct (Ht ∅ x Hv ltac:(lia)) as [t Hs]. destruct (print_show _ _ _ _ _ Hs) as [k Hk]. eauto.
Qed.

(** ** Acyclic data *)

(** What a finite value denotes: lists, vectors, and what prints at once. *)
Inductive datum :=
| D_nil
| D_atom (text : bytes)
| D_cons (car cdr : datum)
| D_vector (items : list datum).

Inductive denotes (h : heap) (current : Z) : Z → datum → Prop :=
| denotes_nil : denotes h current nil D_nil
| denotes_atom x t : compound (tag_of x) = false → x ≠ nil → atom_text h current x = Ret t →
    denotes h current x (D_atom t)
| denotes_cons x car cdr a d : tag_of x = T_duo → hread T_duo x h = Ret [car; cdr] →
    denotes h current car a → denotes h current cdr d → denotes h current x (D_cons a d)
| denotes_vector x ws ds : tag_of x = T_v32 → v32slice x h = Ret ws →
    Forall2 (denotes h current) ws ds → denotes h current x (D_vector ds).

(** Items with a blank between them. *)
Definition spaced (ts : list bytes) : bytes :=
  concat (imap (λ i t, (if (i =? 0)%nat then [] else str " ") ++ t) ts).

(** The notation of a datum, and of one that is the rest of a list. *)
Fixpoint notation (rest : bool) (d : datum) : bytes :=
  match d with
  | D_nil => if rest then [] else str "NIL"
  | D_atom t => (if rest then str " . " else []) ++ t
  | D_cons a b =>
      if rest then str " " ++ notation false a ++ notation true b
      else str "(" ++ notation false a ++ notation true b ++ str ")"
  | D_vector ds => (if rest then str " . " else []) ++ str "#<" ++ spaced (notation false <$> ds) ++ str ">"
  end.

Fixpoint datum_size (d : datum) : nat :=
  match d with
  | D_cons a b => S (datum_size a + datum_size b)
  | D_vector ds => S (sum_list_with datum_size ds)
  | _ => 1
  end.

Lemma item_size d ds : d ∈ ds → (datum_size d < datum_size (D_vector ds))%nat.
Proof. cbn. induction 1; cbn; lia. Qed.

Section data.
Context (h : heap) (current : Z).

Lemma nil_atom : compound (tag_of nil) = false.
Proof. done. Qed.

(** A value denotes one datum. *)
Lemma denotes_unique n : ∀ x d d', (datum_size d ≤ n)%nat → denotes h current x d → denotes h current x d' → d = d'.
Proof.
  induction n as [|n IH]; intros x d d' Hn Hd Hd'; [destruct d; cbn in Hn; lia|].
  destruct Hd as [|x t Hc Hx Ht|x car cdr a b Hx Hr Ha Hb|x ws ds Hx Hw Hds];
    inversion Hd' as [|x' t' Hc' Hx' Ht'|x' car' cdr' a' b' Hx' Hr' Ha' Hb'|x' ws' ds' Hx' Hw' Hds']; subst; try congruence;
    try (rewrite Hx in Hc'; discriminate); try (rewrite Hx' in Hc; discriminate); try discriminate.
  - rewrite Hr in Hr'. injection Hr' as <- <-. cbn in Hn. f_equal; [eapply (IH car)|eapply (IH cdr)]; eauto; lia.
  - rewrite Hw in Hw'. injection Hw' as <-. f_equal.
    assert (∀ d, d ∈ ds → (datum_size d ≤ n)%nat) as Hsize by (intros d Hin; pose proof (item_size d ds Hin); lia).
    clear Hd' Hw Hx Hx' Hn. revert ds' Hds'. induction Hds as [|w d ws ds Hwd Hds IHds]; intros ds' Hds'; inversion Hds'; subst; [done|].
    f_equal; [eapply (IH w); eauto; apply Hsize; left|]. apply IHds; [|done]. intros d' Hin. apply Hsize. by right.
Qed.

(** The values [A] are all around a datum of size [s]. *)
Definition around (A : gset Z) (s : nat) : Prop := ∀ y, y ∈ A → ∃ d, denotes h current y d ∧ (s ≤ datum_size d)%nat.

Lemma around_out A x d s : around A s → denotes h current x d → (datum_size d < s)%nat → x ∉ A.
Proof.
  intros HA Hd Hs Hx. destruct (HA x Hx) as (d' & Hd' & Hle). pose proof (denotes_unique _ x d d' (le_n _) Hd Hd'). subst. lia.
Qed.

Lemma around_enter A x d s : around A s → denotes h current x d → (datum_size d ≤ s)%nat → around ({[x]} ∪ A) (datum_size d).
Proof.
  intros HA Hd Hs y [->%elem_of_singleton|Hy]%elem_of_union; [by exists d|].
  destruct (HA y Hy) as (dy & Hdy & Hle). exists dy. split; [done|lia].
Qed.

Lemma around_le A s s' : around A s → (s' ≤ s)%nat → around A s'.
Proof. intros HA Hs y Hy. destruct (HA y Hy) as (d & Hd & Hle). exists d. split; [done|lia]. Qed.

Lemma datum_size_pos d : (0 < datum_size d)%nat.
Proof. destruct d; cbn; lia. Qed.

(** The parts of a vector with the texts of their values are the items with blanks between. *)
Lemma vector_texts (f : Z → option bytes) ws ts : mapM f ws = Some ts → ∀ k,
  mapM (λ p : bytes * Z, t ← f p.2; Some (p.1 ++ t)) (imap (λ i w, (if (k + i =? 0)%nat then [] else str " ", w)) ws) =
  Some (imap (λ i t, (if (k + i =? 0)%nat then [] else str " ") ++ t) ts).
Proof.
  revert ts. induction ws as [|w ws IH]; intros ts Hm k; cbn in Hm; [by injection Hm as <-|].
  destruct (f w) as [t|] eqn:Hw; [|done]. cbn in Hm. destruct (mapM f ws) as [ts'|] eqn:Hm'; [|done]. injection Hm as <-.
  rewrite !imap_cons. cbn [mapM fst snd]. rewrite Hw. cbn [mbind option_bind].
  assert (∀ A B (f : bool → A → B) l, imap ((λ i a, f (k + i =? 0)%nat a) ∘ S) l = imap (λ i a, f (S k + i =? 0)%nat a) l) as Hshift.
  { intros A B g l. apply imap_ext. intros i a _. cbn [compose]. by rewrite Nat.add_succ_r. }
  rewrite (Hshift _ _ (λ (b : bool) (w : Z), (if b then [] else str " ", w)) ws).
  rewrite (Hshift _ _ (λ (b : bool) (t : bytes), (if b then [] else str " ") ++ t) ts').
  by rewrite (IH ts' eq_refl (S k)).
Qed.

Lemma show_datum n :
  (∀ d x A, denotes h current x d → around A (S (datum_size d)) → (2 * datum_size d ≤ n)%nat →
     show h current n A x = Some (notation false d)) ∧
  (∀ a b x A, denotes h current x (D_cons a b) → around A (datum_size (D_cons a b)) → (2 * datum_size (D_cons a b) ≤ S n)%nat →
     show_cells h current n A x = Some (notation false a ++ notation true b)).
Proof.
  induction n as [|n [IHs IHc]].
  { split; intros; exfalso; [pose proof (datum_size_pos d)|pose proof (datum_size_pos a); cbn in *]; lia. }
  split.
  - intros d x A Hd HA Hn. cbn [show]. destruct Hd as [|x t Hc Hx Ht|x car cdr a b Hx Hr Ha Hb|x ws ds Hx Hw Hds].
    + done.
    + by rewrite Hc, Ht.
    + assert (denotes h current x (D_cons a b)) as Hd by (by eapply denotes_cons).
      rewrite Hx. cbn [compound bool_decide]. rewrite decide_False by (eapply around_out; [done..|lia]).
      rewrite bool_decide_true by done. rewrite (IHc a b x); [|done|eapply around_enter; [done..|lia]|lia].
      cbn. by rewrite <- !app_assoc.
    + assert (denotes h current x (D_vector ds)) as Hd by (by eapply denotes_vector).
      rewrite Hx. cbn [compound bool_decide]. rewrite decide_False by (eapply around_out; [done..|lia]).
      rewrite bool_decide_false by done. unfold parts. rewrite Hx, Hw. cbn [bind ok mbind option_bind].
      assert (mapM (show h current n ({[x]} ∪ A)) ws = Some (notation false <$> ds)) as Hm.
      { apply mapM_Some_2. rewrite Forall2_fmap_r. apply Forall2_same_length_lookup in Hds as [Hl Hds].
        apply Forall2_same_length_lookup. split; [done|]. intros i w d Hi Hdi.
        pose proof (item_size d ds (list_elem_of_lookup_2 _ _ _ Hdi)).
        apply IHs; [by eapply Hds| |lia].
        eapply around_le; [eapply around_enter; [done..|lia]|lia]. }
      pose proof (vector_texts _ _ _ Hm 0) as Ht. cbn [Nat.add] in Ht. rewrite Ht. done.
  - intros a b x A Hd HA Hn. inversion Hd as [| |x' car cdr a' b' Hx Hr Ha Hb|]; subst.
    rewrite (show_cells_S _ _ _ _ _ _ _ Hr). cbn [datum_size] in Hn, HA.
    pose proof (datum_size_pos a). pose proof (datum_size_pos b).
    rewrite (IHs a car); [|done|eapply around_le; [done|lia]|lia]. cbn [mbind option_bind].
    destruct Hb as [|y t Hc Hy Ht|y car' cdr' c e Hy Hr' Hc He|y ws ds Hy Hw Hds].
    + cbn. by rewrite app_nil_r.
    + rewrite bool_decide_false by (intros E; by rewrite E in Hc). destruct (Z.eqb_spec y nil); [done|].
      rewrite (IHs (D_atom t)); [done|by apply denotes_atom|eapply around_le; [done|cbn; lia]|cbn in *; lia].
    + assert (denotes h current y (D_cons c e)) as Hde by (by eapply denotes_cons).
      rewrite bool_decide_true by done. rewrite decide_False by (eapply around_out; [done..|lia]).
      rewrite (IHc c e y); [done|done|eapply around_enter; [done..|lia]|lia].
    + assert (denotes h current y (D_vector ds)) as Hde by (by eapply denotes_vector).
      rewrite bool_decide_false by (by rewrite Hy). destruct (Z.eqb_spec y nil) as [->|]; [done|].
      rewrite (IHs (D_vector ds)); [done|done|eapply around_le; [done|lia]|lia].
Qed.
End data.

(** A finite value prints as the notation of the list structure it denotes: a list
    as its items between parentheses with blanks between them, with a dot before a
    last cdr that is not NIL, a vector in its own brackets, and the rest by their
    texts, however cells are shared. *)
Theorem print_datum h current x d : denotes h current x d →
  ∃ k, ∀ m, print h current (k + m) x = Some (Ret (notation false d)).
Proof.
  intros Hd. apply (print_show h current (2 * datum_size d)).
  apply (proj1 (show_datum h current _)); [done| |lia]. intros y Hy. set_solver.
Qed.

(** ** Examples *)

(** The heap after a list of conses on small numbers. *)
Definition cell_heap : heap := (cons (fixnum 1) (fixnum 2) (new_heap false)).2.

Definition cell : Z := pointer T_duo 0 false.

Lemma small_fixnum_valid h n : 0 ≤ n < 2 ^ 30 → valid h (fixnum n).
Proof.
  intros Hn. assert (fixnum n = n) as E.
  { unfold fixnum. rewrite wrap_small by lia. change 0x7fffffff with (2 ^ 31 - 1). rewrite land_ones_mod by lia.
    apply Z.mod_small. lia. }
  rewrite E. split; [unfold is_word; lia|]. unfold pointer_word. rewrite tag_of_arith by (unfold is_word; lia).
  destruct (Z.ltb_spec n (2 ^ 31)); [done|lia].
Qed.

Lemma cell_heap_ok : heap_ok cell_heap.
Proof.
  destruct (make_ok (new_heap false) T_duo [fixnum 1; fixnum 2]) as (tb & Hm & _ & Hok & _); try done.
  - apply new_heap_ok.
  - split; try done; [by repeat constructor|]. intros c x _ Hx.
    destruct c as [|[|]]; try done; injection Hx as <-; by apply small_fixnum_valid.
  - unfold cell_heap, cons. by rewrite Hm.
Qed.

Lemma check_empty h t x : size_ (htable h t) = 0%nat → check h t x = Throw assertion.
Proof. intros H. unfold check. rewrite H. by destruct (_ && _). Qed.

Lemma cell_printable : printable cell_heap.
Proof.
  assert (∀ t x, t ≠ T_duo → is_pointer t = true → check cell_heap t x = Throw assertion) as Hnone.
  { intros t x Ht Hp. apply check_empty. by destruct t. }
  split; [apply cell_heap_ok|..].
  - intros x s. unfold hget. by rewrite Hnone.
  - intros x s. unfold hget. by rewrite Hnone.
  - intros x s. unfold hget. by rewrite Hnone.
  - intros t x s. unfold hget. intros Hs [->| ->]; by rewrite Hnone in Hs.
  - intros x. unfold hwords, words_place, hread. by rewrite Hnone.
Qed.

Lemma print_total_witness :
  ∃ n t k, show cell_heap nil n ∅ cell = Some t ∧ ∀ m, print cell_heap nil (k + m) cell = Some (Ret t).
Proof.
  apply (print_total cell_heap nil cell cell_printable). split; [vm_compute; split; [discriminate|reflexivity]|].
  intros _. split; [reflexivity|]. vm_compute. apply le_n.
Defined.

Lemma print_datum_witness :
  ∃ k, ∀ m, print cell_heap nil (k + m) cell = Some (Ret (str "(1 . 2)")).
Proof.
  apply (print_datum cell_heap nil cell (D_cons (D_atom (str "1")) (D_atom (str "2")))).
  apply (denotes_cons _ _ _ (fixnum 1) (fixnum 2)); [reflexivity|vm_compute; reflexivity|..];
    (apply denotes_atom; [reflexivity|discriminate|vm_compute; reflexivity]).
Defined.

(** A list that contains itself, twice. *)
Example print_cycle :
  let h := (obind (cons (fixnum 1) nil) (λ a, obind (cons a a) (λ b, hset T_duo F_cdr a b)) (new_heap false)).2 in
  print h nil 100 (pointer T_duo 1 false) = Some (Ret (str "((1 . #<CYCLE>) 1 . #<CYCLE>)")).
Proof. vm_compute. reflexivity. Qed.
