(* ===== verification/Grow.v ===== *)
(** * How allocation extends a heap

    The relation between a heap and what native code makes of it by allocating rows
    and by writing the columns that interning writes: live values stay live, rows and
    payloads read as before. Used by the packages ([Package]) and the reader
    ([Reader]). *)
From S2P Require Import Prelude Word Vat Heap.
#[local] Open Scope Z_scope.

(** The columns that may be written: the symbols of a package, and the value and the
    function of a symbol. *)
Definition written (t : tag) (c : nat) : bool :=
  match t, c with
  | T_pkg, 1%nat | T_sym, 2%nat | T_sym, 3%nat => true
  | _, _ => false
  end.

(** The tables whose rows are values only, not places in a pool. *)
Definition plain_rows (t : tag) : bool := negb (bool_decide (t = T_v08)) && negb (word_payload t).

Record keeps (h h' : heap) : Prop := {
  kp_from : heap_ok h;
  kp_to : heap_ok h';
  kp_valid : ∀ x, valid h x → valid h' x;
  kp_rows : ∀ x c, valid h x → pointer_word x = true → written (tag_of x) c = false →
    row_of h' x !! c = row_of h x !! c;
  kp_bytes : bytes_ h `prefix_of` bytes_ h';
  kp_words : words_ h `prefix_of` words_ h';
}.

Lemma keeps_refl h : heap_ok h → keeps h h.
Proof. by split. Qed.

Lemma keeps_trans h1 h2 h3 : keeps h1 h2 → keeps h2 h3 → keeps h1 h3.
Proof.
  intros [H1 H2 H3 H4 H5 H6] [K1 K2 K3 K4 K5 K6]. split; try done; [auto| |by etrans..].
  intros x c Hv Hp Hw. rewrite K4, H4; auto.
Qed.

(** ** What reads as before *)

Lemma keeps_hget h h' t f x c v : keeps h h' → valid h x → tag_of x = t → is_pointer t = true →
  column_index t f = Some c → (c < width t)%nat → written t c = false → hget t f x h = Ret v → hget t f x h' = Ret v.
Proof.
  intros Hk Hv Ht Hp Hc Hw Hf Hg. destruct (hget_ok h t f x c (kp_from _ _ Hk) Hv Ht Hp Hc Hw) as (y & Hy & Hr).
  destruct (hget_ok h' t f x c (kp_to _ _ Hk) (kp_valid _ _ Hk x Hv) Ht Hp Hc Hw) as (y' & Hy' & Hr').
  rewrite Hg in Hy. injection Hy as <-. subst t. rewrite (kp_rows _ _ Hk x c Hv Hp Hf), Hr in Hr'.
  injection Hr' as <-. done.
Qed.

(** Rows without a column that is written are the same. *)
Lemma keeps_row h h' x : keeps h h' → valid h x → pointer_word x = true → tag_of x ≠ T_pkg → tag_of x ≠ T_sym →
  row_of h' x = row_of h x.
Proof.
  intros Hk Hv Hp H1 H2. apply list_eq. intros c. apply (kp_rows _ _ Hk x c Hv Hp).
  destruct (tag_of x); done.
Qed.

Lemma keeps_hread h h' t x r : keeps h h' → valid h x → tag_of x = t → is_pointer t = true → t ≠ T_pkg → t ≠ T_sym →
  hread t x h = Ret r → hread t x h' = Ret r.
Proof.
  intros Hk Hv Ht Hp H1 H2 Hr. rewrite hread_ok in Hr; [|apply Hk|done..]. injection Hr as <-.
  rewrite hread_ok; [|apply Hk|by apply Hk|done..]. f_equal. subst t. by apply keeps_row.
Qed.

Lemma slice_prefix {A} (p p' : list A) i n : p `prefix_of` p' → (i + n ≤ length p)%nat →
  take n (drop i p') = take n (drop i p).
Proof. intros [q ->] Hl. by rewrite drop_app_le, take_app_le by len. Qed.

Lemma keeps_v08slice h h' x bs : keeps h h' → valid h x → tag_of x = T_v08 → v08slice x h = Ret bs → v08slice x h' = Ret bs.
Proof.
  intros Hk Hv Ht. unfold v08slice, v08_place.
  assert (pointer_word x = true) as Hp by (unfold pointer_word; by rewrite Ht).
  pose proof (row_of_ok h x (kp_from _ _ Hk) Hv Hp) as Hrow. rewrite Ht in Hrow.
  pose proof (row_of_ok h' x (kp_to _ _ Hk) (kp_valid _ _ Hk x Hv) Hp) as Hrow'. rewrite Ht in Hrow'.
  rewrite !hread_ok by (done || apply Hk; done). cbn [bind].
  rewrite (slice_ok _ _ _ _ Hrow (row_v08 _ _ _ Hrow eq_refl)), (slice_ok _ _ _ _ Hrow' (row_v08 _ _ _ Hrow' eq_refl)).
  cbn [bind fst snd]. rewrite (keeps_row h h' x Hk Hv Hp) by (by rewrite Ht). intros [= <-]. f_equal.
  apply slice_prefix; [apply Hk|]. apply (in_pool_bounds h T_v08); [done|]. by apply (row_v08 _ _ _ Hrow).
Qed.

Lemma keeps_hwords h h' t x ws : keeps h h' → valid h x → tag_of x = t → word_payload t = true →
  hwords t x h = Ret ws → hwords t x h' = Ret ws.
Proof.
  intros Hk Hv Ht Hw. destruct (word_payload_cases t Hw) as (Hp & _ & _).
  rewrite (hwords_ok h), (hwords_ok h') by (done || apply Hk; done). intros [= <-]. f_equal.
  assert (pointer_word x = true) as Hpw by (unfold pointer_word; by rewrite Ht).
  pose proof (row_of_ok h x (kp_from _ _ Hk) Hv Hpw) as Hrow. rewrite Ht in Hrow.
  rewrite (keeps_row h h' x Hk Hv Hpw) by (rewrite Ht; by destruct t).
  apply slice_prefix; [apply Hk|]. apply (in_pool_bounds h t); [done|]. by apply (row_v32 _ _ _ Hrow).
Qed.

(** ** Allocating *)

(** A new row: a live pointer with the tag that shows the data. *)
Definition made (h h' : heap) (t : tag) (data : row) (x : Z) : Prop :=
  keeps h h' ∧ valid h' x ∧ tag_of x = t ∧ row_of h' x = data ∧ ¬ valid h x.

(** Room for [n] more rows of a tag. *)
Definition room (h : heap) (t : tag) (n : nat) : Prop := Z.of_nat (size_ (htable h t)) + Z.of_nat n ≤ max_rows.

Lemma make_made h t data : heap_ok h → is_pointer t = true → length data = width t → row_ok h t data → room h t 1 →
  ∃ x h', make t data h = (Ret x, h') ∧ made h h' t data x ∧ bytes_ h' = bytes_ h ∧ words_ h' = words_ h ∧
    (∀ u, is_pointer u = true → size_ (htable h' u) = (size_ (htable h u) + if decide (u = t) then 1 else 0)%nat) ∧
    ∀ y, valid h y → pointer_word y = true → row_of h' y = row_of h y.
Proof.
  intros Hh Ht Hl Hrow Hroom. assert (Z.of_nat (size_ (htable h t)) < max_rows) as Hs by (unfold room in Hroom; lia).
  destruct (make_ok h t data Hh Ht Hl Hrow Hs) as (tb & Hm & Hr & Hh' & Hsz).
  destruct (made_pointer h t tb data Hh Ht Hs Hr) as (Hx & Htag & Hrx & Hold).
  eexists _, _. split; [exact Hm|]. split; [|split; [done|split; [done|split]]].
  - split; [|split; [done|split; [done|split; [done|]]]].
    + split; try done.
      * intros x Hv. destruct (decide (pointer_word x = true)) as [Hp|Hp]; [by apply Hold|].
        split; [apply Hv|done].
      * intros x c Hv Hp _. by rewrite (proj2 (Hold x Hv Hp)).
    + intros [_ Hv]. unfold pointer_word in Hv. rewrite Htag in Hv. destruct (Hv Ht) as [_ Hlt].
      destruct (pointer_parts t (Z.of_nat (size_ (htable h t))) (era_ h) Ht (max_rows_index _ Hs)) as (_ & _ & Hidx & _).
      rewrite Hidx, Nat2Z.id in Hlt. lia.
  - intros u Hu. case_decide as Hut; [subst; rewrite htable_with_eq by done; lia|].
    rewrite htable_with_ne by done. lia.
  - intros y Hv Hp. by apply Hold.
Qed.

(** Space for [n] more rows of each table and [n] more bytes of text. *)
Record space (h : heap) (n : nat) : Prop := {
  sp_rows : ∀ t, is_pointer t = true → room h t n;
  sp_bytes : Z.of_nat (length (bytes_ h) + n) < zap;
  sp_words : Z.of_nat (length (words_ h) + n) < zap;
}.

Lemma space_le h n n' : space h n → (n' ≤ n)%nat → space h n'.
Proof. intros [H1 H2 H3] Hle. split; [|lia..]. intros t Ht. specialize (H1 t Ht). unfold room in *. lia. Qed.

(** Every row that was there is as it was, and the tables only grow. *)
Record rows_kept (h h' : heap) : Prop := {
  rk_rows : ∀ y, valid h y → pointer_word y = true → row_of h' y = row_of h y;
  rk_frozen : frozen_ktx_ h' = frozen_ktx_ h;
  rk_era : era_ h' = era_ h;
  rk_sizes : ∀ u, is_pointer u = true → (size_ (htable h u) ≤ size_ (htable h' u))%nat;
}.

Lemma rows_kept_trans h1 h2 h3 : keeps h1 h2 → rows_kept h1 h2 → rows_kept h2 h3 → rows_kept h1 h3.
Proof.
  intros Hk [R1 F1 E1 S1] [R2 F2 E2 S2]. split; [|congruence|congruence|].
  - intros y Hv Hp. rewrite R2, R1; [done|done|done|by apply Hk|done].
  - intros u Hu. specialize (S1 u Hu). specialize (S2 u Hu). lia.
Qed.

Lemma make_registers h t data : frozen_ktx_ (make t data h).2 = frozen_ktx_ h ∧ era_ (make t data h).2 = era_ h.
Proof.
  unfold make, obind, oassert, oret. destruct (negb _); [|done]. cbn. destruct (push _ _) as [[i tb]|]; [|done]. by destruct (pointer_ok _ _).
Qed.

(** The tables after a new row of [t]. *)
Definition one_more (t : tag) (h h' : heap) : Prop :=
  ∀ u, is_pointer u = true → size_ (htable h' u) = (size_ (htable h u) + if decide (u = t) then 1 else 0)%nat.

Lemma make_sizes h t data n : heap_ok h → is_pointer t = true → length data = width t → row_ok h t data → space h (S n) →
  ∃ x h', make t data h = (Ret x, h') ∧ made h h' t data x ∧ rows_kept h h' ∧ space h' n ∧ one_more t h h' ∧ words_ h' = words_ h.
Proof.
  intros Hh Ht Hl Hrow [H1 H2 H3]. destruct (make_made h t data Hh Ht Hl Hrow) as (x & h' & Hm & Hmade & Hb & Hw & Hs & Hold).
  { specialize (H1 t Ht). unfold room in *. lia. }
  exists x, h'. split; [done|]. split; [done|]. split.
  { destruct (make_registers h t data) as [Hf He]. rewrite Hm in Hf, He. split; try done. intros u Hu. rewrite (Hs u Hu). lia. }
  split; [|done]. split; [|rewrite Hb; lia|rewrite Hw; lia].
  intros u Hu. specialize (H1 u Hu). unfold room in *. rewrite (Hs u Hu). case_decide; lia.
Qed.

Lemma make_space h t data n : heap_ok h → is_pointer t = true → length data = width t → row_ok h t data → space h (S n) →
  ∃ x h', make t data h = (Ret x, h') ∧ made h h' t data x ∧ rows_kept h h' ∧ space h' n.
Proof.
  intros Hh Ht Hl Hrow Hsp. destruct (make_sizes h t data n Hh Ht Hl Hrow Hsp) as (x & h' & Hm & Hmade & Hr & Hs & _). by exists x, h'.
Qed.

Lemma cons_made h a d n : heap_ok h → valid h a → valid h d → a ≠ zap → space h (S n) →
  ∃ x h', cons a d h = (Ret x, h') ∧ made h h' T_duo [a; d] x ∧ rows_kept h h' ∧ space h' n.
Proof.
  intros Hh Ha Hd Hz Hs. apply make_space; try done. split; try done.
  - apply Forall_cons_2; [apply Ha|]. apply Forall_cons_2; [apply Hd|]. apply Forall_nil_2.
  - intros c x _ Hx. destruct c as [|[|]]; try done; by injection Hx as <-.
Qed.

Lemma made_read h h' t data x : made h h' t data x → is_pointer t = true → hread t x h' = Ret data.
Proof. intros (Hk & Hv & Ht & Hr & _) Hp. rewrite hread_ok, Hr; [done|apply Hk|done..]. Qed.

Lemma set_bytes_keeps h bs : heap_ok h → Z.of_nat (length (bytes_ h) + length bs) ≤ word_limit →
  keeps h (set_bytes h (bytes_ h ++ bs)) ∧ rows_kept h (set_bytes h (bytes_ h ++ bs)).
Proof.
  intros Hh Hl. split; [|done]. split; try done; [apply set_bytes_ok; [done|rewrite length_app; lia]|].
  by exists bs.
Qed.

Lemma newv08_made h bs n : heap_ok h → space h (S (n + length bs)) →
  ∃ x h', newv08 (foreign bs) h = (Ret x, h') ∧ keeps h h' ∧ valid h' x ∧ tag_of x = T_v08 ∧
    v08slice x h' = Ret bs ∧ rows_kept h h' ∧ space h' n ∧ ¬ valid h x.
Proof.
  intros Hh Hsp. pose proof Hsp as [H1 H2 H3]. assert (zap ≤ word_limit) as Hzl by (vm_compute; discriminate).
  unfold newv08. rewrite append_ok; [|apply (hk_bytes_size _ Hh)|done]. cbn [source_size content].
  destruct (Z.leb_spec (Z.of_nat (length (bytes_ h) + length bs)) word_limit) as [Hl|Hl]; [|lia].
  rewrite u32_small by lia. destruct (set_bytes_keeps h bs Hh Hl) as [Hk1 Hr1].
  set (h1 := set_bytes h (bytes_ h ++ bs)) in *.
  assert (space h1 (S n)) as Hsp1.
  { split; [intros t Ht; specialize (H1 t Ht); unfold room in *; change (htable h1 t) with (htable h t); lia| |].
    - change (bytes_ h1) with (bytes_ h ++ bs). rewrite length_app. lia.
    - change (words_ h1) with (words_ h). lia. }
  destruct (make_space h1 T_v08 [Z.of_nat (length (bytes_ h)); Z.of_nat (length bs)] n) as (x & h' & Hm & Hmade & Hr2 & Hsp2);
    try done; [apply Hk1|apply descriptor_ok; try done; [lia|intros _; change (bytes_ h1) with (bytes_ h ++ bs); rewrite length_app; lia]|].
  pose proof Hmade as (Hk2 & Hv & Ht & Hrow & Hnew). pose proof (keeps_trans _ _ _ Hk1 Hk2) as Hk.
  exists x, h'. unfold otry. rewrite Hm. split; [done|]. split; [done|]. split; [done|]. split; [done|].
  split; [|split; [by apply (rows_kept_trans _ h1)|split; [done|]]].
  - unfold v08slice, v08_place. rewrite (made_read _ _ _ _ _ Hmade) by done. cbn [bind].
    pose proof (row_of_ok h' x (kp_to _ _ Hk2) Hv) as Hok. unfold pointer_word in Hok. rewrite Ht, Hrow in Hok.
    specialize (Hok eq_refl). rewrite (slice_ok _ _ _ _ Hok (row_v08 _ _ _ Hok eq_refl)). cbn [bind fst snd nth].
    rewrite !Nat2Z.id. rewrite (slice_prefix (bytes_ h ++ bs)); [|apply Hk2|rewrite length_app; lia].
    by rewrite drop_app_length, take_ge by lia.
  - intros Hv'. apply Hnew. by apply Hk1.
Qed.

(** A new vector for words that were appended to the pool. *)
Definition vector_made (h h' : heap) (ws : list Z) (n : nat) (x : Z) : Prop :=
  keeps h h' ∧ valid h' x ∧ tag_of x = T_v32 ∧ hwords T_v32 x h' = Ret ws ∧ rows_kept h h' ∧ space h' n ∧
  row_of h' x = [Z.of_nat (length (words_ h)); Z.of_nat (length ws)] ∧ ¬ valid h x ∧ one_more T_v32 h h'.

Lemma append_vector h ws n undo : heap_ok h → Forall (valid h) ws → space h (S (n + length ws)) →
  ∃ x h', otry (make T_v32 [Z.of_nat (length (words_ h)); Z.of_nat (length ws)]) undo (set_words h (words_ h ++ ws)) = (Ret x, h') ∧
    vector_made h h' ws n x.
Proof.
  intros Hh Hws [H1 H2 H3]. assert (zap ≤ word_limit) as Hzl by (vm_compute; discriminate).
  set (h1 := set_words h (words_ h ++ ws)).
  assert (keeps h h1) as Hk1.
  { split; try done; [apply set_words_ok; [done|done|rewrite length_app; lia]|]. by exists ws. }
  assert (rows_kept h h1) as Hr1 by done.
  assert (space h1 (S n)) as Hsp1.
  { split; [intros t Ht; specialize (H1 t Ht); unfold room in *; change (htable h1 t) with (htable h t); lia| |].
    - change (bytes_ h1) with (bytes_ h). lia.
    - change (words_ h1) with (words_ h ++ ws). rewrite length_app. lia. }
  destruct (make_sizes h1 T_v32 [Z.of_nat (length (words_ h)); Z.of_nat (length ws)] n) as (x & h' & Hm & Hmade & Hr2 & Hsp2 & Hsz & _);
    try done; [apply Hk1|apply descriptor_ok; try done; [lia|lia|intros _; change (words_ h1) with (words_ h ++ ws); rewrite length_app; lia]|].
  pose proof Hmade as (Hk2 & Hv & Ht & Hrow & Hnew). exists x, h'. unfold otry. rewrite Hm. split; [done|].
  split; [by eapply keeps_trans|]. split; [done|]. split; [done|]. split; [|split; [by apply (rows_kept_trans _ h1)|split; [done|split; [done|split; [|exact Hsz]]]]].
  - rewrite hwords_ok, Hrow by (done || apply Hk2). cbn [nth]. rewrite !Nat2Z.id.
    rewrite (slice_prefix (words_ h ++ ws)); [|apply Hk2|rewrite length_app; lia]. by rewrite drop_app_length, take_ge by lia.
  - intros Hv'. by apply Hnew, Hk1.
Qed.

Lemma new_vector h d n : heap_ok h → source_ok (words_ h) d → Forall (valid h) (content (words_ h) d) →
  space h (S (n + length (content (words_ h) d))) →
  ∃ x h', newv32 d h = (Ret x, h') ∧ vector_made h h' (content (words_ h) d) n x.
Proof.
  intros Hh Hd Hws Hsp. assert (zap ≤ word_limit) as Hzl by (vm_compute; discriminate). pose proof (sp_words _ _ Hsp) as H3.
  unfold newv32, new_words. rewrite append_ok; [|apply (hk_words_size _ Hh)|done].
  rewrite <- (content_length _ _ Hd). set (ws := content (words_ h) d) in *.
  destruct (Z.leb_spec (Z.of_nat (length (words_ h) + length ws)) word_limit) as [Hl|Hl]; [|lia].
  rewrite u32_small by lia. by apply append_vector.
Qed.

Lemma newv32_made h ws n : heap_ok h → Forall (valid h) ws → space h (S (n + length ws)) →
  ∃ x h', newv32 (foreign ws) h = (Ret x, h') ∧ vector_made h h' ws n x.
Proof. intros Hh Hws Hsp. by apply (new_vector h (foreign ws)). Qed.

Lemma filledv32_made h k v n : heap_ok h → valid h v → space h (S (n + k)) →
  ∃ x h', filledv32 k v h = (Ret x, h') ∧ vector_made h h' (replicate k v) n x.
Proof.
  intros Hh Hv Hsp. assert (zap ≤ word_limit) as Hzl by (vm_compute; discriminate). pose proof (sp_words _ _ Hsp) as H3.
  unfold filledv32, pool_size. rewrite wrap_small by (unfold word_limit in *; lia).
  destruct (Z.ltb_spec (word_limit - Z.of_nat (length (words_ h))) (Z.of_nat k)); [lia|].
  rewrite !u32_small by lia. pose proof (append_vector h (replicate k v) n (λ x, set_words x (take (length (words_ h)) (words_ x)))) as Happ.
  rewrite length_replicate in Happ. apply Happ; [done|by apply Forall_replicate|done].
Qed.

Lemma clonev32_made h a ws n : heap_ok h → valid h a → tag_of a = T_v32 → hwords T_v32 a h = Ret ws → space h (S (n + length ws)) →
  ∃ x h', clonev32 a h = (Ret x, h') ∧ vector_made h h' ws n x.
Proof.
  intros Hh Hv Ht Hws Hsp. destruct (hwords_valid h T_v32 a Hh Hv Ht eq_refl) as (ws' & Hws' & Hval). rewrite Hws in Hws'. injection Hws' as <-.
  unfold clonev32, obind, query. unfold hwords in Hws. destruct (words_place T_v32 a h) as [[i k]|] eqn:Hp; [|done].
  cbn [bind fst snd] in Hws. injection Hws as Hws. cbn [fst snd].
  assert (i + k ≤ length (words_ h))%nat as Hle.
  { unfold words_place in Hp. rewrite hread_ok in Hp by done. cbn [bind] in Hp.
    assert (pointer_word a = true) as Hpw by (unfold pointer_word; by rewrite Ht).
    pose proof (row_of_ok h a Hh Hv Hpw) as Hrow. rewrite Ht in Hrow.
    rewrite (slice_ok _ _ _ _ Hrow (row_v32 _ _ _ Hrow eq_refl)) in Hp. injection Hp as <- <-.
    apply (in_pool_bounds h T_v32); [done|]. by apply (row_v32 _ _ _ Hrow). }
  destruct (new_vector h (own i k) n Hh) as (x & h' & Hn & Hm); cbn [content]; try (rewrite Hws; done); [done|].
  cbn [content] in Hm. rewrite Hws in Hm. by exists x, h'.
Qed.

(** Two live pointers to the same row are the same word. *)
Lemma same_row h x y : valid h x → valid h y → pointer_word x = true → tag_of x = tag_of y →
  Z.to_nat (index_of x) = Z.to_nat (index_of y) → x = y.
Proof.
  intros [Hwx Hx] [Hwy Hy] Hp Ht Hi. assert (pointer_word y = true) as Hpy by (unfold pointer_word in *; congruence).
  destruct (Hx Hp) as [Hex _]. destruct (Hy Hpy) as [Hey _].
  pose proof (index_of_range x). pose proof (index_of_range y).
  rewrite <- (pointer_rebuild x), <- (pointer_rebuild y) by done. f_equal; [done|lia|congruence].
Qed.

Lemma written_pos t c : written t c = true → (0 < c)%nat ∧ value_column_at t c ∧ plain_rows t = true.
Proof.
  intros H. destruct t; try done; destruct c as [|[|[|[|]]]]; try done; (split; [lia|]); (split; [by eexists|done]).
Qed.

Lemma row_write h t r c v : row_ok h t r → (0 < c)%nat → plain_rows t = true → valid h v → row_ok h t (<[c := v]> r).
Proof.
  intros [H1 H2 H3 H4 H5] Hc Ht Hv.
  assert (∀ k, k ≠ c → nth k (<[c := v]> r) 0 = nth k r 0) as Hnth.
  { intros k Hk. rewrite !nth_lookup, list_lookup_insert_ne by done. done. }
  split.
  - apply Forall_insert; [done|]. apply Hv.
  - by rewrite Hnth by lia.
  - intros k x Hk Hx. destruct (decide (k = c)) as [->|Hne].
    + apply list_lookup_insert_Some in Hx as [(_ & <- & _)|[? _]]; [done|done].
    + rewrite list_lookup_insert_ne in Hx by done. eauto.
  - by intros ->.
  - intros Hw. by destruct t.
Qed.

(** Writing a column of a row. *)
Lemma hset_row h t f x v c : heap_ok h → valid h x → tag_of x = t → is_pointer t = true → column_index t f = Some c →
  (0 < c < width t)%nat → plain_rows t = true → valid h v →
  ∃ h', hset t f x v h = (Ret tt, h') ∧ heap_ok h' ∧ (∀ y, valid h y → valid h' y) ∧ bytes_ h' = bytes_ h ∧ words_ h' = words_ h ∧
    frozen_ktx_ h' = frozen_ktx_ h ∧ (∀ u, is_pointer u = true → size_ (htable h' u) = size_ (htable h u)) ∧
    ∀ y, valid h y → pointer_word y = true →
      row_of h' y = if decide (y = x) then <[c := v]> (row_of h x) else row_of h y.
Proof.
  intros Hh Hv Ht Hp Hc Hcw Hpl Hvv. assert (pointer_word x = true) as Hpx by (unfold pointer_word; by rewrite Ht).
  pose proof (row_of_lookup h x Hv Hpx) as Hl. rewrite Ht in Hl. set (i := Z.to_nat (index_of x)) in *.
  destruct (set_ok _ _ i c v _ (hk_tabs _ Hh t Hp) Hl (proj2 Hcw)) as (tb & Hs & Htb & Hrows & Hsz & _).
  pose proof (row_of_ok h x Hh Hv Hpx) as Hrow. rewrite Ht in Hrow.
  assert (heap_ok (with_htable h t tb)) as Hh'.
  { apply with_htable_ok; try done; [lia|]. intros j r Hj. left. rewrite Hrows in Hj.
    apply list_lookup_insert_Some in Hj as [(_ & <- & _)|[_ Hj]]; [apply row_write; try done; lia|]. by eapply hk_rows. }
  exists (with_htable h t tb). split.
  { unfold hset, obind, oassert, column. rewrite Hc. change (default 0%nat (Some c)) with c.
    destruct (Nat.eqb_spec c 0); [lia|]. cbn [negb orb]. unfold oret. rewrite (check_ok h t x Hv Ht Hp). cbn [bind]. fold i. by rewrite Hs. }
  split; [done|]. split.
  { intros y Hy. apply (valid_mono h); [done| |done]. intros u Hu. apply with_htable_sizes; try done. lia. }
  split; [done|]. split; [done|]. split; [done|]. split.
  { intros u Hu. destruct (decide (t = u)) as [->|Hne]; [by rewrite htable_with_eq|by rewrite htable_with_ne]. }
  intros y Hy Hpy. unfold row_of at 1. destruct (decide (tag_of y = t)) as [Hty|Hty].
  - rewrite Hty, htable_with_eq, Hrows by done. destruct (decide (Z.to_nat (index_of y) = i)) as [Hi|Hi].
    + assert (y = x) as -> by (apply (same_row h); try done; congruence). rewrite decide_True by done.
      rewrite list_lookup_insert_eq by (by eapply lookup_lt_Some). done.
    + rewrite decide_False by (by intros ->). rewrite list_lookup_insert_ne by done. unfold row_of. by rewrite Hty.
  - rewrite htable_with_ne by first [done | exact Hpy | congruence]. rewrite decide_False by (by intros ->). done.
Qed.

Lemma space_same h h' n : bytes_ h' = bytes_ h → words_ h' = words_ h →
  (∀ u, is_pointer u = true → size_ (htable h' u) = size_ (htable h u)) → space h n → space h' n.
Proof.
  intros Hb Hw Hs [H1 H2 H3]. split; [|by rewrite Hb|by rewrite Hw]. intros u Hu. unfold room. rewrite (Hs u Hu). by apply H1.
Qed.

(** Writing a column that may be written. *)
Lemma hset_keeps h t f x v c : heap_ok h → valid h x → tag_of x = t → is_pointer t = true → column_index t f = Some c →
  written t c = true → valid h v → (c < width t)%nat →
  ∃ h', hset t f x v h = (Ret tt, h') ∧ keeps h h' ∧ row_of h' x = <[c := v]> (row_of h x) ∧
    (∀ y, valid h y → pointer_word y = true → y ≠ x → row_of h' y = row_of h y) ∧ (∀ n, space h n → space h' n).
Proof.
  intros Hh Hv Ht Hp Hc Hw Hvv Hcw. assert (pointer_word x = true) as Hpx by (unfold pointer_word; by rewrite Ht).
  destruct (written_pos t c Hw) as (Hc0 & _ & Hpl).
  destruct (hset_row h t f x v c) as (h' & Hs & Hh' & Hmono & Hb & Hwd & _ & Hsz & Hread); try done.
  exists h'. split; [done|]. split; [|split; [|split]].
  - split; try done; [|by rewrite Hb|by rewrite Hwd]. intros y k Hy Hpy Hk. rewrite Hread by done. case_decide as Hyx; [|done].
    subst y. rewrite list_lookup_insert_ne; [done|]. intros ->. rewrite Ht in Hk. congruence.
  - rewrite Hread by done. by rewrite decide_True.
  - intros y Hy Hpy Hne. rewrite Hread by done. by rewrite decide_False.
  - intros n. by apply space_same.
Qed.

Lemma new_heap_space n : Z.of_nat n ≤ 2 ^ 21 → space (new_heap false) n.
Proof.
  intros Hn. assert (zap = 2281701379) as Hz by (vm_compute; reflexivity).
  split; [|change (length (bytes_ (new_heap false))) with 0%nat; lia|change (length (words_ (new_heap false))) with 0%nat; lia].
  intros t Ht. unfold room. assert (size_ (htable (new_heap false) t) = 0%nat) as -> by (by destruct t).
  assert (2 ^ 21 ≤ max_rows) as Hr by (vm_compute; discriminate). lia.
Qed.
