(* ===== verification/Package.v ===== *)
(** * Packages and symbols (src/src/wisp/eval.hpp, src/src/wisp/eval.cpp)

    The part of [evaluator] that names things: its packages, the symbols interned in
    them and the symbols native code knows. A package is a row of the heap whose
    symbols are a list; the evaluator's roots are fields of the model, as no
    operation here collects. *)
From S2P Require Import Prelude State Word Vat Heap Grow.
#[local] Open Scope Z_scope.

Inductive wisp_error :=
| heap_fault (e : fault)
| invalid_argument (what : string).

Record evaluator := MkEvaluator {
  heap_ : heap;
  base_ : Z;
  keywords_ : Z;
  keys_ : Z;
  packages_ : Z;
  current_ : Z;
  nil_name_ : Z;
  true_name_ : Z;
  known_ : list Z;
}.

Abbreviation action := (prog evaluator wisp_error).

Definition set_heap (h : heap) (m : evaluator) : evaluator :=
  MkEvaluator h (base_ m) (keywords_ m) (keys_ m) (packages_ m) (current_ m) (nil_name_ m) (true_name_ m) (known_ m).

Definition set_packages (p : Z) (m : evaluator) : evaluator :=
  MkEvaluator (heap_ m) (base_ m) (keywords_ m) (keys_ m) p (current_ m) (nil_name_ m) (true_name_ m) (known_ m).

Definition set_known (ks : list Z) (m : evaluator) : evaluator :=
  MkEvaluator (heap_ m) (base_ m) (keywords_ m) (keys_ m) (packages_ m) (current_ m) (nil_name_ m) (true_name_ m) ks.

(** A call of an operation of the heap. *)
Definition on_heap {A} (o : op A) : action A := λ m,
  match o (heap_ m) with
  | (Ret a, h) => Some (Ret a, set_heap h m)
  | (Throw e, h) => Some (Throw (heap_fault e), set_heap h m)
  end.

(** A read of the heap. *)
Definition asks {A} (q : heap → result fault A) : action A := λ m,
  match q (heap_ m) with
  | Ret a => Some (Ret a, m)
  | Throw e => Some (Throw (heap_fault e), m)
  end.

(** The most turns a walk down a list that ends can take. *)
Definition cells (h : heap) : nat := S (size_ (htable h T_duo)).

(** The lambda [find] in [intern]: the symbol of the list [cur] with the name. *)
Fixpoint find_symbol (fuel : nat) (name : bytes) (cur : Z) : action (option Z) :=
  match fuel with
  | O => λ _, None
  | S fuel' =>
      if cur =? nil then pret None
      else
        cell <~ asks (hread T_duo cur);
        let sym := nth 0 cell 0 in
        s <~ asks (hget T_sym F_str sym);
        text <~ asks (v08slice s);
        if bool_decide (text = name) then pret (Some sym) else find_symbol fuel' name (nth 1 cell 0)
  end.

Definition find (name : bytes) (pkg : Z) : action (option Z) :=
  cur <~ asks (hget T_pkg F_sym pkg);
  m <~ gets (λ m, m);
  find_symbol (cells (heap_ m)) name cur.

(** The loop over the packages used, with a second cursor at half the speed. *)
Fixpoint find_used (fuel : nat) (name : bytes) (cur slow : Z) (move_slow : bool) : action (option Z) :=
  match fuel with
  | O => λ _, None
  | S fuel' =>
      if cur =? nil then pret None
      else if negb (bool_decide (tag_of cur = T_duo)) then pthrow (invalid_argument "malformed package uses list")
      else
        cell <~ asks (hread T_duo cur);
        let used := nth 0 cell 0 in
        if negb (bool_decide (tag_of used = T_pkg)) then pthrow (invalid_argument "non-package in uses list")
        else
          inherited <~ find name used;
          match inherited with
          | Some s => pret (Some s)
          | None =>
              let cur := nth 1 cell 0 in
              slow <~ (if move_slow : bool then asks (hget T_duo F_cdr slow) else pret slow);
              if negb (cur =? nil) && (cur =? slow) then pthrow (invalid_argument "cyclic package uses list")
              else find_used fuel' name cur slow (negb move_slow)
          end
  end.

(** The slow cursor is caught within two rounds of a cycle. *)
Definition uses_fuel (h : heap) : nat := 4 * cells h.

Definition make_symbol (name : bytes) (package : Z) : action Z :=
  symbols <~ asks (hget T_pkg F_sym package);
  s <~ on_heap (newv08 (foreign name));
  sym <~ on_heap (make T_sym [s; package; nah; nil; nil]);
  list <~ on_heap (cons sym symbols);
  _ <~ on_heap (hset T_pkg F_sym package list);
  pret sym.

Definition intern (name : bytes) (package : Z) : action Z :=
  m <~ gets (λ m, m);
  if (package =? base_ m) && bool_decide (name = str "NIL") then pret nil
  else if (package =? base_ m) && bool_decide (name = str "T") then pret word_t
  else
    own <~ find name package;
    match own with
    | Some s => pret s
    | None =>
        use <~ asks (hget T_pkg F_use package);
        inherited <~ find_used (uses_fuel (heap_ m)) name use use false;
        match inherited with
        | Some s => pret s
        | None => make_symbol name package
        end
    end.

Definition intern_base (name : bytes) : action Z := m <~ gets (λ m, m); intern name (base_ m).

Definition keyword (name : bytes) : action Z := m <~ gets (λ m, m); intern name (keywords_ m).

(** The walk of [find_package]. *)
Fixpoint find_named (fuel : nat) (name : bytes) (cur : Z) : action Z :=
  match fuel with
  | O => λ _, None
  | S fuel' =>
      if cur =? nil then pret nil
      else
        cell <~ asks (hread T_duo cur);
        let pkg := nth 0 cell 0 in
        s <~ asks (hget T_pkg F_nam pkg);
        text <~ asks (v08slice s);
        if bool_decide (text = name) then pret pkg else find_named fuel' name (nth 1 cell 0)
  end.

Definition find_package (name : bytes) : action Z :=
  m <~ gets (λ m, m);
  find_named (cells (heap_ m)) name (packages_ m).

Definition define_package (name : bytes) : action Z :=
  found <~ find_package name;
  if negb (found =? nil) then pthrow (invalid_argument "package already exists")
  else
    s <~ on_heap (newv08 (foreign name));
    pkg <~ on_heap (make T_pkg [s; nil; nil]);
    m <~ gets (λ m, m);
    ps <~ on_heap (cons pkg (packages_ m));
    _ <~ modify (set_packages ps);
    pret pkg.

Definition known_names : list bytes := str <$> [
  "QUOTE"; "BACKQUOTE"; "UNQUOTE"; "UNQUOTE-SPLICING"; "FUNCTION"; "&REST"; "&BODY"; "&OPTIONAL";
  "BINDING"; "COND"; "DEFUN"; "IF"; "FN"; "LET"; "DO"; "EVAL"; "PROMPT"; "RESUME"; "EXP"; "VAL"; "ERROR";
  "BOOLEAN"; "CHARACTER"; "CONS"; "CONTINUATION"; "EVALUATOR"; "EXTERNAL"; "INTEGER"; "MACRO"; "NULL";
  "PACKAGE"; "PIN"; "RECORD"; "STRING"; "SYMBOL"; "VECTOR"; "ACTIVE-EVALUATOR"; "BAD-FIXNUM-DIVISION";
  "BAD-MODULO"; "BOUNDS-ERROR"; "BUG"; "BUILTIN-FAILURE"; "CONTINUATION-CALL-ERROR"; "CYCLIC-LIST";
  "END-OF-FILE"; "EXHAUSTED"; "FIXNUM-OVERFLOW"; "IMMUTABLE-CODE"; "INVALID-ARGUMENT-COUNT";
  "INVALID-BINDING"; "INVALID-CALLEE"; "INVALID-CODE"; "INVALID-CONTINUATION"; "INVALID-ENVIRONMENT";
  "INVALID-EXPRESSION"; "INVALID-FUNCTION"; "INVALID-PACKAGE-USES"; "INVALID-PARAMETERS";
  "INVALID-STRING-INPUT-STREAM"; "INVALID-VALUE"; "KEY-SPACE-EXHAUSTED"; "LOW-LEVEL-ERROR"; "PACKAGE-ERROR";
  "PACKAGE-EXISTS"; "PROGRAM-ERROR"; "PROMPT-TAG-MISSING"; "READ-ERROR"; "TYPE-MISMATCH"; "UNBOUND-VARIABLE";
  "UNDEFINED-FUNCTION"; "UNDEFINED-PACKAGE"; "UNHANDLED-ERROR"; "STRING-INPUT-STREAM"]%string.

(** [known]: the symbol of a known name; a name that is not known does not compile. *)
Definition known (name : string) (m : evaluator) : Z :=
  match list_find (λ n, n = str name) known_names with
  | Some (i, _) => nth i (known_ m) 0
  | None => 0
  end.

Fixpoint intern_all (names : list bytes) : action (list Z) :=
  match names with
  | [] => pret []
  | n :: names' => s <~ intern_base n; ss <~ intern_all names'; pret (s :: ss)
  end.

Definition install_known : action unit := ss <~ intern_all known_names; modify (set_known ss).

(** A package with no symbols. *)
Definition new_package (name : string) : op Z := s ⇐ newv08 (foreign (str name)); make T_pkg [s; nil; nil].

(** The constructor up to the builtins: the packages, the two names and the known
    symbols. *)
Definition new_names (h : heap) : result fault evaluator * heap :=
  (base ⇐ new_package "WISP";
   keywords ⇐ new_package "KEYWORD";
   keys ⇐ new_package "KEY";
   l0 ⇐ cons base nil;
   l1 ⇐ cons keywords l0;
   l2 ⇐ cons keys l1;
   nil_name ⇐ newv08 (foreign (str "NIL"));
   true_name ⇐ newv08 (foreign (str "T"));
   λ h, (Ret (MkEvaluator h base keywords keys l2 base nil_name true_name []), h)) h.

(** The builtins are bound to the symbols of their names, in order. *)
Fixpoint install_jets (i : Z) (jets : list bytes) : action unit :=
  match jets with
  | [] => pret tt
  | name :: jets' =>
      s <~ intern_base name;
      _ <~ on_heap (hset T_sym F_fun s (immediate T_jet i));
      install_jets (i + 1) jets'
  end.

Definition new_evaluator (jets : list bytes) (h : heap) : option (result wisp_error evaluator) :=
  match new_names h with
  | (Throw e, _) => Some (Throw (heap_fault e))
  | (Ret m, _) =>
      match (_ <~ install_known; install_jets 0 jets) m with
      | None => None
      | Some (Ret _, m') => Some (Ret m')
      | Some (Throw e, _) => Some (Throw e)
      end
  end.

(** ** Lists *)

(** The cells from [x] on hold the items and end with NIL. *)
Inductive spine (h : heap) : Z → list Z → Prop :=
| spine_nil : spine h nil []
| spine_cons x a d l : valid h x → tag_of x = T_duo → hread T_duo x h = Ret [a; d] → spine h d l → spine h x (a :: l).

Lemma spine_unique h x l l' : spine h x l → spine h x l' → l = l'.
Proof.
  intros H. revert l'. induction H as [|x a d l Hv Ht Hr _ IH]; intros l' H'; inversion H' as [|? a' d' l2 Hv' Ht' Hr' Hd']; subst;
    try done. rewrite Hr in Hr'. injection Hr' as <- <-. f_equal. auto.
Qed.

Lemma spine_not_nil h x a l : spine h x (a :: l) → x ≠ nil.
Proof. inversion 1 as [|? ? ? ? _ Ht]; subst. by intros ->. Qed.

(** The cells of a list are different rows. *)
Lemma spine_cells h x l : spine h x l → ∃ cs, length cs = length l ∧ NoDup cs ∧
  Forall (λ c, valid h c ∧ tag_of c = T_duo ∧ ∃ l', spine h c l' ∧ (length l' ≤ length l)%nat) cs.
Proof.
  induction 1 as [|x a d l Hv Ht Hr Hd (cs & Hl & Hnd & Hcs)].
  { exists []. split; [done|]. split; [apply NoDup_nil_2|done]. }
  exists (x :: cs). split; [cbn; lia|]. split.
  - apply NoDup_cons_2; [|done]. intros Hin. rewrite Forall_forall in Hcs. destruct (Hcs x Hin) as (_ & _ & l' & Hl' & Hle).
    pose proof (spine_unique h x l' (a :: l) Hl' ltac:(by econstructor)). subst l'. cbn in Hle. lia.
  - constructor.
    + split; [done|]. split; [done|]. exists (a :: l). split; [by econstructor|done].
    + eapply Forall_impl; [exact Hcs|]. intros c (Hvc & Htc & l' & Hl' & Hle). split; [done|]. split; [done|].
      exists l'. split; [done|cbn; lia].
Qed.

(** Different cells are at most as many as the rows. *)
Lemma rows_bound h cs : NoDup cs → Forall (λ c, valid h c ∧ tag_of c = T_duo) cs → (length cs ≤ size_ (htable h T_duo))%nat.
Proof.
  intros Hnd Hcs. rewrite Forall_forall in Hcs.
  set (f := λ c, Z.to_nat (index_of c)). rewrite <- (length_fmap f cs), <- (length_seq (size_ (htable h T_duo)) 0).
  apply submseteq_length, NoDup_submseteq.
  - apply NoDup_fmap_2_strong; [|done]. intros c c' Hc Hc' Hf. destruct (Hcs c Hc) as (Hv & Ht).
    destruct (Hcs c' Hc') as (Hv' & Ht'). apply (same_row h); try done; [unfold pointer_word; by rewrite Ht|congruence].
  - intros i Hi. apply list_elem_of_fmap in Hi as (c & -> & Hc). destruct (Hcs c Hc) as ([_ Hv] & Ht).
    unfold pointer_word in Hv. rewrite Ht in Hv. destruct (Hv eq_refl) as [_ Hlt]. apply elem_of_seq. unfold f. lia.
Qed.

Lemma spine_bound h x l : spine h x l → (length l ≤ size_ (htable h T_duo))%nat.
Proof.
  intros H. destruct (spine_cells h x l H) as (cs & <- & Hnd & Hcs). apply rows_bound; [done|].
  eapply Forall_impl; [exact Hcs|]. by intros c (Hv & Ht & _).
Qed.

Lemma spine_keeps h h' x l : keeps h h' → spine h x l → spine h' x l.
Proof.
  intros Hk. induction 1 as [|x a d l Hv Ht Hr _ IH]; [constructor|].
  econstructor; [by apply Hk|done|by eapply keeps_hread|done].
Qed.

(** ** Symbols of a package *)

(** The text of a string. *)
Definition text_of (h : heap) (v : Z) (text : bytes) : Prop := valid h v ∧ tag_of v = T_v08 ∧ v08slice v h = Ret text.

Definition named (h : heap) (s : Z) (name : bytes) : Prop :=
  valid h s ∧ tag_of s = T_sym ∧ ∃ v, hget T_sym F_str s h = Ret v ∧ text_of h v name.

(** A symbol of the package [p]. *)
Definition homed (h : heap) (p s : Z) (name : bytes) : Prop := named h s name ∧ hget T_sym F_pkg s h = Ret p.

(** The package [p] has the symbols [l], newest first. *)
Definition symbols (h : heap) (p : Z) (l : list (bytes * Z)) : Prop :=
  valid h p ∧ tag_of p = T_pkg ∧
  ∃ cur, hget T_pkg F_sym p h = Ret cur ∧ valid h cur ∧ spine h cur l.*2 ∧ Forall (λ e, homed h p e.2 e.1) l.

(** The first entry for a name. *)
Fixpoint assoc (name : bytes) (l : list (bytes * Z)) : option Z :=
  match l with
  | [] => None
  | (n, s) :: l' => if decide (n = name) then Some s else assoc name l'
  end.

Lemma assoc_app name l l' : assoc name (l ++ l') = match assoc name l with Some s => Some s | None => assoc name l' end.
Proof. induction l as [|[n s] l IH]; [done|]. cbn. by case_decide. Qed.

Lemma asks_ret {A B} (q : heap → result fault A) (k : A → action B) m a :
  q (heap_ m) = Ret a → pbind (asks q) k m = k a m.
Proof. intros H. unfold pbind, asks. by rewrite H. Qed.

Lemma find_symbol_ok m name : ∀ l cur fuel, spine (heap_ m) cur l.*2 → Forall (λ e, named (heap_ m) e.2 e.1) l →
  (length l < fuel)%nat → find_symbol fuel name cur m = Some (Ret (assoc name l), m).
Proof.
  induction l as [|[n s] l IH]; intros cur [|fuel] Hs Hn Hf; cbn [length] in Hf; try lia; cbn [find_symbol].
  - inversion Hs; subst. done.
  - pose proof (spine_not_nil _ _ _ _ Hs) as Hnil. inversion Hs as [|? ? d ? Hv Ht Hr Hd]; subst.
    destruct (Z.eqb_spec cur nil); [done|]. apply Forall_cons in Hn as [(_ & _ & v & Hg & _ & _ & Htext) Hn]. cbn [snd fst] in *.
    rewrite (asks_ret _ _ _ _ Hr). cbn [nth]. rewrite (asks_ret _ _ _ _ Hg), (asks_ret _ _ _ _ Htext). cbn [assoc].
    case_decide as Hname; [by rewrite bool_decide_true|]. rewrite bool_decide_false by done. by apply IH; [..|lia].
Qed.

Lemma homed_named h p l : Forall (λ e : bytes * Z, homed h p e.2 e.1) l → Forall (λ e : bytes * Z, named h e.2 e.1) l.
Proof. intros H. eapply Forall_impl; [exact H|]. by intros e []. Qed.

Lemma find_ok m name p l : symbols (heap_ m) p l → find name p m = Some (Ret (assoc name l), m).
Proof.
  intros (_ & _ & cur & Hg & _ & Hs & Hn). unfold find. rewrite (asks_ret _ _ _ _ Hg).
  change (pbind (gets (λ m, m)) ?k m) with (k m m). cbv beta. apply find_symbol_ok; [done|by eapply homed_named|].
  pose proof (spine_bound _ _ _ Hs) as Hb. rewrite length_fmap in Hb. unfold cells. lia.
Qed.

(** ** Packages used *)

(** The package [p] uses packages with the symbols [ls], in order. *)
Definition uses (h : heap) (p : Z) (ls : list (list (bytes * Z))) : Prop :=
  ∃ cur us, hget T_pkg F_use p h = Ret cur ∧ valid h cur ∧ spine h cur us ∧ Forall2 (symbols h) us ls.

Lemma cell_cdr h x a d : heap_ok h → valid h x → tag_of x = T_duo → hread T_duo x h = Ret [a; d] →
  hget T_duo F_cdr x h = Ret d.
Proof.
  intros Hh Hv Ht Hr. destruct (hget_ok h T_duo F_cdr x 1 Hh Hv Ht) as (y & Hg & Hy); try done; [cbn; lia|].
  rewrite hread_ok in Hr by done. injection Hr as Hr. rewrite Hr in Hy. injection Hy as <-. done.
Qed.

Lemma find_used_ok m name fuel : heap_ok (heap_ m) → ∀ us ls cur ss slow move_slow, spine (heap_ m) cur us →
  Forall2 (symbols (heap_ m)) us ls → spine (heap_ m) slow ss →
  (if move_slow : bool then length us < length ss else length us ≤ length ss)%nat → (length us < fuel)%nat →
  find_used fuel name cur slow move_slow m = Some (Ret (assoc name (concat ls)), m).
Proof.
  intros Hh. induction fuel as [|fuel IH]; intros us ls cur ss slow mv Hs Hls Hslow Hinv Hf; [lia|]. cbn [find_used].
  destruct Hs as [|cur u d us Hv Ht Hr Hd].
  { by inversion Hls. }
  destruct (Z.eqb_spec cur nil) as [->|_]; [done|]. rewrite (bool_decide_true (tag_of cur = T_duo)) by done. cbn [negb].
  rewrite (asks_ret _ _ _ _ Hr). cbn [nth]. inversion Hls as [|? l ? ls' Hl Hls']; subst.
  pose proof Hl as (_ & Htp & _). rewrite (bool_decide_true (tag_of u = T_pkg)) by done. cbn [negb].
  rewrite (bind_run _ _ _ _ _ (find_ok m name u l Hl)). cbn [concat]. rewrite assoc_app.
  destruct (assoc name l) as [s|]; [done|]. cbn [length] in Hinv, Hf.
  assert (∃ slow' ss', (if mv then asks (hget T_duo F_cdr slow) else pret slow) m = Some (Ret slow', m) ∧
    spine (heap_ m) slow' ss' ∧ (length us < length ss')%nat) as (slow' & ss' & Hmove & Hss & Hlt).
  { destruct mv; [|by exists slow, ss; split; [|split; [|lia]]].
    destruct Hslow as [|slow a' d' ss Hv' Ht' Hr' Hd']; [cbn in Hinv; lia|]. exists d', ss. split; [|split; [done|cbn in Hinv; lia]].
    unfold asks. by rewrite (cell_cdr _ _ _ _ Hh Hv' Ht' Hr'). }
  rewrite (bind_run _ _ _ _ _ Hmove).
  assert (negb (d =? nil) && (d =? slow') = false) as ->.
  { destruct (Z.eqb_spec d slow') as [<-|]; [|apply andb_false_r]. pose proof (spine_unique _ _ _ _ Hd Hss). subst ss'. lia. }
  apply (IH us ls' d ss' slow' (negb mv)); try done; [destruct mv; cbn; lia|lia].
Qed.

(** ** Interning *)

(** What is known of the symbols before a name is interned. *)
Definition lookup (h : heap) (p : Z) (l : list (bytes * Z)) (ls : list (list (bytes * Z))) : Prop :=
  symbols h p l ∧ uses h p ls.

(** The names that are words of their own in the base package. *)
Definition reserved (m : evaluator) (name : bytes) (p : Z) : option Z :=
  if p =? base_ m then
    if decide (name = str "NIL") then Some nil else if decide (name = str "T") then Some word_t else None
  else None.

(** Interning looks at the reserved names, the package and the packages it uses, and
    makes a symbol when there is none. *)
Lemma intern_search m name p l ls : heap_ok (heap_ m) → lookup (heap_ m) p l ls →
  intern name p m =
  match match reserved m name p with Some s => Some s | None => assoc name (l ++ concat ls) end with
  | Some s => Some (Ret s, m)
  | None => make_symbol name p m
  end.
Proof.
  intros Hh [Hl (cur & us & Hg & _ & Hs & Hls)]. unfold intern, reserved. change (pbind (gets (λ m, m)) ?k m) with (k m m).
  cbv beta. pose proof (spine_bound _ _ _ Hs) as Hb.
  assert (∀ k : option Z → action Z, pbind (find_used (uses_fuel (heap_ m)) name cur cur false) k m = k (assoc name (concat ls)) m) as Hused.
  { intros k. apply bind_run. apply (find_used_ok m name _ Hh us ls cur us cur false); try done. unfold uses_fuel, cells. lia. }
  destruct (p =? base_ m); cbn [andb].
  - case_decide as Hn; [by rewrite bool_decide_true|]. rewrite (bool_decide_false (name = str "NIL")) by done.
    case_decide as Ht; [by rewrite bool_decide_true|]. rewrite (bool_decide_false (name = str "T")) by done.
    rewrite (bind_run _ _ _ _ _ (find_ok m name p l Hl)), assoc_app. destruct (assoc name l); [done|].
    rewrite (asks_ret _ _ _ _ Hg). rewrite Hused. by destruct (assoc name (concat ls)).
  - rewrite (bind_run _ _ _ _ _ (find_ok m name p l Hl)), assoc_app. destruct (assoc name l); [done|].
    rewrite (asks_ret _ _ _ _ Hg). rewrite Hused. by destruct (assoc name (concat ls)).
Qed.

Lemma named_keeps h h' s name : keeps h h' → named h s name → named h' s name.
Proof.
  intros Hk (Hv & Ht & v & Hg & Hvv & Htv & Htext). split; [by apply Hk|]. split; [done|]. exists v. split.
  - by eapply (keeps_hget h h' T_sym F_str s 0); [..|exact Hg]; try done; cbn; lia.
  - split; [by apply Hk|]. split; [done|]. by eapply keeps_v08slice.
Qed.

Lemma homed_keeps h h' p s name : keeps h h' → homed h p s name → homed h' p s name.
Proof.
  intros Hk [Hn Hp]. split; [by eapply named_keeps|]. destruct Hn as (Hv & Ht & _).
  by eapply (keeps_hget h h' T_sym F_pkg s 1); [..|exact Hp]; try done; cbn; lia.
Qed.

(** The symbols of the packages whose list of symbols was not written. *)
Lemma symbols_keeps h h' p l : keeps h h' → hget T_pkg F_sym p h' = hget T_pkg F_sym p h → symbols h p l → symbols h' p l.
Proof.
  intros Hk Hg (Hv & Ht & cur & Hc & Hvc & Hs & Hn). split; [by apply Hk|]. split; [done|]. exists cur.
  rewrite Hg. split; [done|]. split; [by apply Hk|]. split; [by eapply spine_keeps|].
  eapply Forall_impl; [exact Hn|]. intros e. by apply homed_keeps.
Qed.

Lemma on_heap_ret {A B} (o : op A) (k : A → action B) m a h : o (heap_ m) = (Ret a, h) →
  pbind (on_heap o) k m = k a (set_heap h m).
Proof. intros H. unfold pbind, on_heap. by rewrite H. Qed.

Lemma hget_row h t f x c : heap_ok h → valid h x → tag_of x = t → is_pointer t = true → column_index t f = Some c →
  (c < width t)%nat → ∃ y, hget t f x h = Ret y ∧ row_of h x !! c = Some y ∧
    ∀ h', heap_ok h' → valid h' x → row_of h' x !! c = row_of h x !! c → hget t f x h' = Ret y.
Proof.
  intros Hh Hv Ht Hp Hc Hw. destruct (hget_ok h t f x c Hh Hv Ht Hp Hc Hw) as (y & Hg & Hy). exists y.
  split; [done|]. split; [done|]. intros h' Hh' Hv' Hr. destruct (hget_ok h' t f x c Hh' Hv' Ht Hp Hc Hw) as (y' & Hg' & Hy').
  rewrite Hr, Hy in Hy'. by injection Hy' as <-.
Qed.

Lemma valid_constant h x : is_word x → pointer_word x = false → valid h x.
Proof. intros Hw Hp. split; [done|]. by rewrite Hp. Qed.

(** A row of valid words. *)
Lemma row_valid h t r : Forall (valid h) r → nth 0 r 0 ≠ zap → t ≠ T_v08 → word_payload t = false → row_ok h t r.
Proof.
  intros Hr Hz Ht Hw. split; try done.
  - eapply Forall_impl; [exact Hr|]. by intros x [].
  - intros c x _ Hx. by eapply Forall_lookup_1.
  - by rewrite Hw.
Qed.

Lemma text_keeps h h' v text : keeps h h' → text_of h v text → text_of h' v text.
Proof. intros Hk (Hv & Ht & Hs). split; [by apply Hk|]. split; [done|]. by eapply keeps_v08slice. Qed.

(** A pointer is not the mark of a moved row. *)
Lemma pointer_not_zap x : pointer_word x = true → x ≠ zap.
Proof. by intros Hp ->. Qed.

Lemma make_symbol_ok m name p l n : heap_ok (heap_ m) → symbols (heap_ m) p l → space (heap_ m) (3 + n + length name) →
  ∃ s h', make_symbol name p m = Some (Ret s, set_heap h' m) ∧ keeps (heap_ m) h' ∧ ¬ valid (heap_ m) s ∧
    symbols h' p ((name, s) :: l) ∧ space h' n ∧
    ∀ q, valid (heap_ m) q → tag_of q = T_pkg → q ≠ p → hget T_pkg F_sym q h' = hget T_pkg F_sym q (heap_ m).
Proof.
  intros Hh Hl Hsp. pose proof Hl as (Hvp & Htp & cur & Hg & Hvc & Hs & Hn). unfold make_symbol.
  rewrite (asks_ret _ _ _ _ Hg).
  destruct (newv08_made (heap_ m) name (2 + n) Hh ltac:(done)) as (v & h1 & H1 & Hk1 & Hvv & Htv & Htext & Hr1 & Hsp1 & _).
  rewrite (on_heap_ret _ _ _ _ _ H1).
  destruct (make_space h1 T_sym [v; p; nah; nil; nil] (1 + n)) as (s & h2 & H2 & Hm2 & Hr2 & Hsp2); try done; [apply Hk1| |].
  { apply row_valid; try done; [|by apply pointer_not_zap; unfold pointer_word; cbn [nth]; rewrite Htv].
    apply Forall_cons_2; [done|]. apply Forall_cons_2; [by apply Hk1|].
    repeat (apply Forall_cons_2; [by apply valid_constant|]). apply Forall_nil_2. }
  rewrite (on_heap_ret _ _ (set_heap h1 m) s h2 H2). pose proof Hm2 as (Hk2 & Hvs & Hts & Hrow2 & Hnew2).
  destruct (cons_made h2 s cur n (kp_to _ _ Hk2) Hvs) as (c & h3 & H3 & Hm3 & Hr3 & Hsp3); try done.
  { by apply Hk2, Hk1. }
  { apply pointer_not_zap. unfold pointer_word. by rewrite Hts. }
  rewrite (on_heap_ret _ _ (set_heap h2 (set_heap h1 m)) c h3 H3). pose proof Hm3 as (Hk3 & Hvc3 & Htc & Hrow3 & _).
  pose proof (keeps_trans _ _ _ Hk1 (keeps_trans _ _ _ Hk2 Hk3)) as Hk13.
  destruct (hset_keeps h3 T_pkg F_sym p c 1) as (h4 & H4 & Hk4 & Hrow4 & Hr4 & Hsp4); try done;
    [apply Hk3|by apply Hk13|cbn; lia|].
  rewrite (on_heap_ret _ _ (set_heap h3 (set_heap h2 (set_heap h1 m))) tt h4 H4).
  pose proof (keeps_trans _ _ _ Hk13 Hk4) as Hk.
  exists s, h4. split; [done|]. split; [done|]. split; [intros Hv; by apply Hnew2, Hk1|]. split; [|split; [by apply Hsp4|]].
  - split; [by apply Hk|]. split; [done|]. exists c.
    destruct (hget_ok h4 T_pkg F_sym p 1 (kp_to _ _ Hk4) (kp_valid _ _ Hk p Hvp) Htp eq_refl eq_refl ltac:(cbn; lia)) as (y & Hy & Hyr).
    rewrite Hrow4 in Hyr. apply list_lookup_insert_Some in Hyr as [(_ & <- & _)|[? _]]; [|done].
    split; [done|]. split; [by apply Hk4|]. split.
    + apply (spine_keeps h3 h4); [done|]. eapply (spine_cons _ _ _ cur); [done..|by apply (made_read _ _ _ _ _ Hm3)|].
      by eapply spine_keeps.
    + apply Forall_cons_2.
      * cbn [fst snd]. apply (homed_keeps h2); [by eapply keeps_trans|].
        assert (∀ f c y, column_index T_sym f = Some c → (c < 5)%nat → [v; p; nah; nil; nil] !! c = Some y →
          hget T_sym f s h2 = Ret y) as Hcol.
        { intros f k y Hk' Hlt Hyc. destruct (hget_ok h2 T_sym f s k (kp_to _ _ Hk2) Hvs Hts eq_refl Hk' Hlt) as (z & Hz & Hzr).
          rewrite Hrow2, Hyc in Hzr. by injection Hzr as <-. }
        split; [|apply (Hcol _ 1%nat); [done|lia|done]]. split; [done|]. split; [done|]. exists v.
        split; [apply (Hcol _ 0%nat); [done|lia|done]|]. apply (text_keeps h1); [done|]. by split.
      * eapply Forall_impl; [exact Hn|]. intros e. by apply homed_keeps.
  - intros q Hvq Htq Hne. assert (pointer_word q = true) as Hpq by (unfold pointer_word; by rewrite Htq).
    destruct (hget_row (heap_ m) T_pkg F_sym q 1 Hh Hvq Htq eq_refl eq_refl ltac:(cbn; lia)) as (y & -> & _ & Hy).
    apply Hy; [apply Hk|by apply Hk|]. rewrite Hr4 by (try done; by apply Hk13).
    assert (rows_kept (heap_ m) h3) as Hr13.
    { apply (rows_kept_trans _ h1); [done|done|]. by apply (rows_kept_trans _ h2). }
    by rewrite (rk_rows _ _ Hr13 q Hvq Hpq).
Qed.

(** ** The abstract directory *)

(** Each package with its symbols, newest first, and the packages it uses. *)
Abbreviation directory := (gmap Z (list (bytes * Z) * list Z)).

Definition own (D : directory) (p : Z) : list (bytes * Z) := default [] (fst <$> D !! p).

Definition used (h : heap) (p : Z) (us : list Z) : Prop :=
  ∃ cur, hget T_pkg F_use p h = Ret cur ∧ valid h cur ∧ spine h cur us.

(** The heap holds the directory, in which a package has a name once. *)
Record registered (h : heap) (D : directory) : Prop := {
  rg_heap : heap_ok h;
  rg_symbols : ∀ p l us, D !! p = Some (l, us) → symbols h p l ∧ used h p us;
  rg_closed : ∀ p l us, D !! p = Some (l, us) → Forall (λ u, is_Some (D !! u)) us;
  rg_names : ∀ p l us, D !! p = Some (l, us) → NoDup l.*1;
}.

(** What a name means in a package. *)
Definition resolve (m : evaluator) (D : directory) (name : bytes) (p : Z) : option Z :=
  match reserved m name p with
  | Some s => Some s
  | None => assoc name (own D p ++ concat (own D <$> default [] (snd <$> D !! p)))
  end.

Lemma assoc_none name l : assoc name l = None → name ∉ l.*1.
Proof.
  induction l as [|[n s] l IH]; [intros _; apply not_elem_of_nil|]. cbn. case_decide as Hn; [done|]. intros H.
  apply not_elem_of_cons. split; [by intros ->|auto].
Qed.

Lemma assoc_some name l s : assoc name l = Some s → (name, s) ∈ l.
Proof.
  induction l as [|[n s'] l IH]; [done|]. cbn. case_decide as Hn; [intros [= ->]; subst; by left|]. intros H. right. auto.
Qed.

Lemma registered_lookup h D p l us : registered h D → D !! p = Some (l, us) → lookup h p l (own D <$> us).
Proof.
  intros Hr Hp. destruct (rg_symbols _ _ Hr p l us Hp) as [Hl (cur & Hg & Hv & Hs)]. split; [done|].
  exists cur, us. split; [done|]. split; [done|]. split; [done|].
  pose proof (rg_closed _ _ Hr p l us Hp) as Hc. clear Hs Hp. induction Hc as [|u us [[lu uu] Hu] _ IH]; [constructor|].
  rewrite fmap_cons. constructor; [|exact IH]. unfold own. rewrite Hu. apply (rg_symbols _ _ Hr u lu uu Hu).
Qed.

Lemma used_keeps h h' p us : keeps h h' → valid h p → tag_of p = T_pkg → used h p us → used h' p us.
Proof.
  intros Hk Hv Ht (cur & Hg & Hvc & Hs). exists cur. split; [|split; [by apply Hk|by eapply spine_keeps]].
  by eapply (keeps_hget h h' T_pkg F_use p 2); [..|exact Hg]; try done; cbn; lia.
Qed.

Lemma make_symbol_registered m D name p l us n : registered (heap_ m) D → D !! p = Some (l, us) → name ∉ l.*1 →
  space (heap_ m) (3 + n + length name) →
  ∃ s h', make_symbol name p m = Some (Ret s, set_heap h' m) ∧ keeps (heap_ m) h' ∧ ¬ valid (heap_ m) s ∧
    registered h' (<[p := ((name, s) :: l, us)]> D) ∧ space h' n.
Proof.
  intros Hr Hp Hnew Hsp. pose proof (rg_symbols _ _ Hr p l us Hp) as [Hl Hu].
  destruct (make_symbol_ok m name p l n (rg_heap _ _ Hr) Hl Hsp) as (s & h' & Hm & Hk & Hs & Hl' & Hsp' & Hother).
  exists s, h'. split; [done|]. split; [done|]. split; [done|]. split; [|done]. split; [apply Hk| | |].
  - intros q lq uq Hq. apply lookup_insert_Some in Hq as [[<- [= <- <-]]|[Hne Hq]].
    + split; [done|]. apply (used_keeps (heap_ m)); try done; apply Hl.
    + destruct (rg_symbols _ _ Hr q lq uq Hq) as [Hlq Huq]. pose proof Hlq as (Hvq & Htq & _). split.
      * apply (symbols_keeps (heap_ m)); [done| |done]. by apply Hother.
      * by apply (used_keeps (heap_ m)).
  - intros q lq uq Hq. assert (∃ lq', D !! q = Some (lq', uq)) as [lq' Hq'].
    { apply lookup_insert_Some in Hq as [[<- [= <- <-]]|[_ Hq]]; by eexists. }
    eapply Forall_impl; [apply (rg_closed _ _ Hr q lq' uq Hq')|]. intros u Hdu. cbn beta.
    apply lookup_insert_is_Some'. by right.
  - intros q lq uq Hq. apply lookup_insert_Some in Hq as [[<- [= <- <-]]|[_ Hq]]; [|by apply (rg_names _ _ Hr q lq uq)].
    rewrite fmap_cons. apply NoDup_cons_2; [done|]. by apply (rg_names _ _ Hr p l us).
Qed.

Lemma resolve_at m D name p l us : D !! p = Some (l, us) → resolve m D name p =
  match reserved m name p with Some s => Some s | None => assoc name (l ++ concat (own D <$> us)) end.
Proof. intros Hp. unfold resolve, own at 1. by rewrite Hp. Qed.

(** Interning a name that means something gives what it means. *)
Lemma intern_found m D name p s : registered (heap_ m) D → is_Some (D !! p) → resolve m D name p = Some s →
  intern name p m = Some (Ret s, m).
Proof.
  intros Hr [[l us] Hp]. rewrite (resolve_at m D name p l us Hp). intros Hs.
  rewrite (intern_search m name p l (own D <$> us) (rg_heap _ _ Hr)) by (by apply registered_lookup). by rewrite Hs.
Qed.

Lemma intern_new m D name p l us n : registered (heap_ m) D → D !! p = Some (l, us) → resolve m D name p = None →
  space (heap_ m) (3 + n + length name) →
  ∃ s h', intern name p m = Some (Ret s, set_heap h' m) ∧ keeps (heap_ m) h' ∧ ¬ valid (heap_ m) s ∧
    registered h' (<[p := ((name, s) :: l, us)]> D) ∧ space h' n.
Proof.
  intros Hr Hp. rewrite (resolve_at m D name p l us Hp). intros Hs Hsp.
  rewrite (intern_search m name p l (own D <$> us) (rg_heap _ _ Hr)) by (by apply registered_lookup). rewrite Hs.
  apply make_symbol_registered; try done. destruct (reserved m name p); [done|]. rewrite assoc_app in Hs.
  destruct (assoc name l) eqn:Ha; [done|]. by apply assoc_none.
Qed.

(** C27: [intern] refines the directory: a name that means a symbol of the package or of
    a package it uses, or a reserved name of the base package, gives that symbol and
    changes nothing; any other name gives a symbol that did not exist, added to the
    package's symbols and to nothing else. *)
Theorem intern_refines m D name p l us n : registered (heap_ m) D → D !! p = Some (l, us) →
  space (heap_ m) (3 + n + length name) →
  match resolve m D name p with
  | Some s => intern name p m = Some (Ret s, m)
  | None => ∃ s h', intern name p m = Some (Ret s, set_heap h' m) ∧ keeps (heap_ m) h' ∧ ¬ valid (heap_ m) s ∧
      registered h' (<[p := ((name, s) :: l, us)]> D) ∧ space h' n
  end.
Proof.
  intros Hr Hp Hsp. destruct (resolve m D name p) eqn:He; [|by apply (intern_new m D name p l us n)].
  by apply (intern_found m D).
Qed.

Lemma resolve_insert m h D name p l us s : resolve m D name p = None →
  resolve (set_heap h m) (<[p := ((name, s) :: l, us)]> D) name p = Some s.
Proof.
  intros Hr. rewrite (resolve_at _ _ _ _ ((name, s) :: l) us) by apply lookup_insert_eq.
  change (reserved (set_heap h m) name p) with (reserved m name p). revert Hr. unfold resolve.
  destruct (reserved m name p); [done|]. intros _. cbn. by rewrite decide_True.
Qed.

(** Interning a name again gives the same symbol and makes nothing. *)
Theorem intern_again m D name p : registered (heap_ m) D → is_Some (D !! p) → space (heap_ m) (3 + length name) →
  ∃ s m', intern name p m = Some (Ret s, m') ∧ intern name p m' = Some (Ret s, m').
Proof.
  intros Hr [[l us] Hp] Hsp. destruct (resolve m D name p) as [s|] eqn:He.
  { exists s, m. split; by apply (intern_found m D). }
  destruct (intern_new m D name p l us 0 Hr Hp He Hsp) as (s & h' & Hi & Hk & Hs & Hr' & _).
  exists s, (set_heap h' m). split; [done|]. apply (intern_found (set_heap h' m) _ _ _ _ Hr'); [|by apply resolve_insert].
  apply lookup_insert_is_Some'. by left.
Qed.

(** ** The evaluator's names *)

Definition package_named (h : heap) (p : Z) (name : bytes) : Prop :=
  valid h p ∧ tag_of p = T_pkg ∧ ∃ v, hget T_pkg F_nam p h = Ret v ∧ text_of h v name.

Lemma package_named_keeps h h' p name : keeps h h' → package_named h p name → package_named h' p name.
Proof.
  intros Hk (Hv & Ht & v & Hg & Htext). split; [by apply Hk|]. split; [done|]. exists v. split; [|by eapply text_keeps].
  by eapply (keeps_hget h h' T_pkg F_nam p 0); [..|exact Hg]; try done; cbn; lia.
Qed.

(** Packages keep their symbols when no list of symbols is written. *)
Lemma registered_keeps h h' D : keeps h h' →
  (∀ p, valid h p → tag_of p = T_pkg → hget T_pkg F_sym p h' = hget T_pkg F_sym p h) → registered h D → registered h' D.
Proof.
  intros Hk Hg Hr. split; [apply Hk| |apply Hr|apply Hr]. intros p l us Hp.
  destruct (rg_symbols _ _ Hr p l us Hp) as [Hl Hu]. pose proof Hl as (Hv & Ht & _).
  split; [by apply (symbols_keeps h); auto|by apply (used_keeps h)].
Qed.

Lemma rows_kept_sym h h' p : keeps h h' → rows_kept h h' → valid h p → tag_of p = T_pkg →
  hget T_pkg F_sym p h' = hget T_pkg F_sym p h.
Proof.
  intros Hk Hr Hv Ht. destruct (hget_row h T_pkg F_sym p 1 (kp_from _ _ Hk) Hv Ht eq_refl eq_refl ltac:(cbn; lia)) as (y & -> & _ & Hy).
  apply Hy; [apply Hk|by apply Hk|]. rewrite (rk_rows _ _ Hr); [done|done|unfold pointer_word; by rewrite Ht].
Qed.

(** The packages of the evaluator by name, newest first. *)
Record named_packages (m : evaluator) (D : directory) (ps : list (bytes * Z)) : Prop := {
  np_dir : registered (heap_ m) D;
  np_valid : valid (heap_ m) (packages_ m);
  np_list : spine (heap_ m) (packages_ m) ps.*2;
  np_named : Forall (λ e, package_named (heap_ m) e.2 e.1) ps;
  np_known : ∀ e, e ∈ ps → is_Some (D !! e.2);
}.

Lemma find_named_ok m name : ∀ ps cur fuel, spine (heap_ m) cur ps.*2 →
  Forall (λ e, package_named (heap_ m) e.2 e.1) ps → (length ps < fuel)%nat →
  find_named fuel name cur m = Some (Ret (default nil (assoc name ps)), m).
Proof.
  induction ps as [|[n p] ps IH]; intros cur [|fuel] Hs Hn Hf; cbn [length] in Hf; try lia; cbn [find_named].
  - by inversion Hs.
  - pose proof (spine_not_nil _ _ _ _ Hs) as Hnil. inversion Hs as [|? ? d ? Hv Ht Hr Hd]; subst.
    destruct (Z.eqb_spec cur nil); [done|]. apply Forall_cons in Hn as [(_ & _ & v & Hg & _ & _ & Htext) Hn]. cbn [snd fst] in *.
    rewrite (asks_ret _ _ _ _ Hr). cbn [nth]. rewrite (asks_ret _ _ _ _ Hg), (asks_ret _ _ _ _ Htext). cbn [assoc].
    case_decide as Hname; [by rewrite bool_decide_true|]. rewrite bool_decide_false by done. by apply IH; [..|lia].
Qed.

Lemma find_package_ok m D name ps : named_packages m D ps → find_package name m = Some (Ret (default nil (assoc name ps)), m).
Proof.
  intros Hm. unfold find_package. change (pbind (gets (λ m, m)) ?k m) with (k m m). cbv beta.
  apply find_named_ok; [apply Hm|apply Hm|]. pose proof (spine_bound _ _ _ (np_list _ _ _ Hm)) as Hb.
  rewrite length_fmap in Hb. unfold cells. lia.
Qed.

Lemma new_package_ok h name n : heap_ok h → space h (2 + n + length name) →
  ∃ p h', (s ⇐ newv08 (foreign name); make T_pkg [s; nil; nil]) h = (Ret p, h') ∧ keeps h h' ∧ rows_kept h h' ∧
    package_named h' p name ∧ symbols h' p [] ∧ used h' p [] ∧ ¬ valid h p ∧ space h' n.
Proof.
  intros Hh Hsp. destruct (newv08_made h name (1 + n) Hh Hsp) as (v & h1 & H1 & Hk1 & Hvv & Htv & Htext & Hr1 & Hsp1 & _).
  unfold obind. rewrite H1.
  destruct (make_space h1 T_pkg [v; nil; nil] n) as (p & h2 & H2 & Hm2 & Hr2 & Hsp2); try done; [apply Hk1| |].
  { apply row_valid; try done; [|by apply pointer_not_zap; unfold pointer_word; cbn [nth]; rewrite Htv].
    apply Forall_cons_2; [done|]. repeat (apply Forall_cons_2; [by apply valid_constant|]). apply Forall_nil_2. }
  pose proof Hm2 as (Hk2 & Hvp & Htp & Hrow & Hnew). exists p, h2. rewrite H2. split; [done|].
  pose proof (keeps_trans _ _ _ Hk1 Hk2) as Hk.
  assert (∀ f c x, column_index T_pkg f = Some c → (c < 3)%nat → [v; nil; nil] !! c = Some x → hget T_pkg f p h2 = Ret x) as Hget.
  { intros f c x Hc Hlt Hx. destruct (hget_ok h2 T_pkg f p c (kp_to _ _ Hk2) Hvp Htp eq_refl Hc Hlt) as (y & Hy & Hyr).
    rewrite Hrow, Hx in Hyr. by injection Hyr as <-. }
  split; [done|]. split; [by apply (rows_kept_trans _ h1)|]. assert (valid h2 nil) as Hnil by by apply valid_constant.
  split; [|split; [|split; [|split; [|done]]]].
  - split; [done|]. split; [done|]. exists v. split; [apply (Hget _ 0%nat); [done|lia|done]|]. apply (text_keeps h1); [done|]. by split.
  - split; [done|]. split; [done|]. exists nil. split; [apply (Hget _ 1%nat); [done|lia|done]|]. split; [done|].
    split; [constructor|apply Forall_nil_2].
  - exists nil. split; [apply (Hget _ 2%nat); [done|lia|done]|]. split; [done|constructor].
  - intros Hv. by apply Hnew, Hk1.
Qed.

Lemma registered_insert h D p : registered h D → D !! p = None → symbols h p [] → used h p [] → registered h (<[p := ([], [])]> D).
Proof.
  intros Hr Hp Hl Hu. split; [apply Hr|..]; intros q l us Hq;
    (apply lookup_insert_Some in Hq as [[<- [= <- <-]]|[Hne Hq]]; [|]); try done.
  - by apply (rg_symbols _ _ Hr).
  - eapply Forall_impl; [by apply (rg_closed _ _ Hr q l us)|]. intros u Hdu. cbn beta. apply lookup_insert_is_Some'. by right.
  - apply NoDup_nil_2.
  - by apply (rg_names _ _ Hr q l us).
Qed.

(** The rows a directory names are live. *)
Lemma registered_fresh h D p : registered h D → ¬ valid h p → D !! p = None.
Proof.
  intros Hr Hp. destruct (D !! p) as [[l us]|] eqn:He; [|done]. destruct (rg_symbols _ _ Hr p l us He) as [(Hv & _) _]. done.
Qed.

(** [define_package] refuses a name that a package has; otherwise the new package has
    that name, no symbols and no used packages, and comes first in the list that
    [find_package] searches. *)
Theorem define_package_spec m D ps name n : named_packages m D ps → space (heap_ m) (3 + n + length name) →
  match assoc name ps with
  | Some _ => define_package name m = Some (Throw (invalid_argument "package already exists"), m)
  | None => ∃ p m', define_package name m = Some (Ret p, m') ∧ named_packages m' (<[p := ([], [])]> D) ((name, p) :: ps) ∧
      D !! p = None ∧ keeps (heap_ m) (heap_ m') ∧ find_package name m' = Some (Ret p, m')
  end.
Proof.
  intros Hm Hsp. unfold define_package. rewrite (bind_run _ _ _ _ _ (find_package_ok m D name ps Hm)).
  destruct (assoc name ps) as [q|] eqn:Hq; cbn [default].
  { apply assoc_some in Hq. pose proof (np_named _ _ _ Hm) as Hnamed. rewrite Forall_forall in Hnamed.
    change (Datatypes.id q) with q. destruct (Z.eqb_spec q nil) as [->|]; [|done].
    by destruct (Hnamed _ Hq) as (_ & Ht & _). }
  rewrite Z.eqb_refl. cbn [negb].
  destruct (new_package_ok (heap_ m) name (1 + n)) as (p & h1 & H1 & Hk1 & Hr1 & Hn1 & Hl1 & Hu1 & Hnew & Hsp1);
    [apply Hm|done|]. unfold obind in H1. destruct (newv08 (foreign name) (heap_ m)) as [[v|e] h0] eqn:H0; [|done].
  rewrite (on_heap_ret _ _ m v h0 H0), (on_heap_ret _ _ (set_heap h0 m) p h1 H1).
  change (pbind (gets (λ m, m)) ?k ?m) with (k m m). cbv beta.
  destruct (cons_made h1 p (packages_ m) n (kp_to _ _ Hk1)) as (c & h2 & H2 & Hm2 & Hr2 & Hsp2); try done; [apply Hn1|..].
  { apply Hk1, Hm. }
  { apply pointer_not_zap. unfold pointer_word. by rewrite (proj1 (proj2 Hn1)). }
  rewrite (on_heap_ret _ _ (set_heap h1 (set_heap h0 m)) c h2 H2). pose proof Hm2 as (Hk2 & Hvc & Htc & _ & _).
  pose proof (keeps_trans _ _ _ Hk1 Hk2) as Hk. pose proof (np_dir _ _ _ Hm) as Hr.
  pose proof (registered_fresh _ _ p Hr Hnew) as Hp.
  set (m' := set_packages c (set_heap h2 m)).
  assert (named_packages m' (<[p := ([], [])]> D) ((name, p) :: ps)) as Hm'.
  { split.
    - apply registered_insert; [|done|..].
      + apply (registered_keeps (heap_ m)); [done| |done]. intros q Hv Ht. apply rows_kept_sym; try done. by apply (rows_kept_trans _ h1).
      + apply (symbols_keeps h1); try done. by apply rows_kept_sym; try apply Hl1.
      + apply (used_keeps h1); try done; apply Hl1.
    - done.
    - eapply (spine_cons _ _ _ (packages_ m)); [done..|by apply (made_read _ _ _ _ _ Hm2)|].
      apply (spine_keeps (heap_ m)); [done|apply Hm].
    - apply Forall_cons_2; [by apply (package_named_keeps h1)|]. eapply Forall_impl; [apply (np_named _ _ _ Hm)|].
      intros e. by apply package_named_keeps.
    - intros e He. apply lookup_insert_is_Some'. apply elem_of_cons in He as [->|He]; [by left|right]. by apply (np_known _ _ _ Hm). }
  exists p, m'. split; [done|]. split; [done|]. split; [done|]. split; [done|].
  rewrite (find_package_ok _ _ _ _ Hm'). cbn. by rewrite decide_True.
Qed.

(** ** The constructor *)

(** What an operation that names things keeps: the fields of the evaluator, the live
    values, and each package's symbols and used packages. *)
Record extends (m m' : evaluator) (D D' : directory) : Prop := {
  ex_fields : m' = set_heap (heap_ m') m;
  ex_keeps : keeps (heap_ m) (heap_ m');
  ex_dir : ∀ q l us, D !! q = Some (l, us) →
    ∃ l', D' !! q = Some (l', us) ∧ ∀ name s, assoc name l = Some s → assoc name l' = Some s;
}.

Lemma extends_same m D : heap_ok (heap_ m) → extends m m D D.
Proof. intros Hh. split; [by destruct m|by apply keeps_refl|]. intros q l us Hq. by exists l. Qed.

Lemma extends_trans m1 m2 m3 D1 D2 D3 : extends m1 m2 D1 D2 → extends m2 m3 D2 D3 → extends m1 m3 D1 D3.
Proof.
  intros [E1 K1 Q1] [E2 K2 Q2]. split; [rewrite E2, E1 at 1; done|by eapply keeps_trans|].
  intros q l us Hq. destruct (Q1 q l us Hq) as (l2 & H2 & N2). destruct (Q2 q l2 us H2) as (l3 & H3 & N3).
  exists l3. split; [done|]. auto.
Qed.

Lemma extends_some m m' D D' q : extends m m' D D' → is_Some (D !! q) → is_Some (D' !! q).
Proof. intros He [[l us] Hq]. destruct (ex_dir _ _ _ _ He q l us Hq) as (l' & -> & _). by eexists. Qed.

Lemma named_packages_keeps m h D D' ps : keeps (heap_ m) h → registered h D' → (∀ q, is_Some (D !! q) → is_Some (D' !! q)) →
  named_packages m D ps → named_packages (set_heap h m) D' ps.
Proof.
  intros Hk Hr Hd Hm. split; [done|by apply Hk, Hm|by apply (spine_keeps (heap_ m)), Hm| |].
  - eapply Forall_impl; [apply (np_named _ _ _ Hm)|]. intros e. by apply package_named_keeps.
  - intros e He. by apply Hd, (np_known _ _ _ Hm).
Qed.

Lemma intern_step m D ps name p n : named_packages m D ps → is_Some (D !! p) → space (heap_ m) (3 + n + length name) →
  ∃ s m' D', intern name p m = Some (Ret s, m') ∧ named_packages m' D' ps ∧ extends m m' D D' ∧
    space (heap_ m') n ∧ resolve m' D' name p = Some s.
Proof.
  intros Hm [[l us] Hp] Hsp. pose proof (np_dir _ _ _ Hm) as Hr. destruct (resolve m D name p) as [s|] eqn:He.
  - exists s, m, D. split; [by apply (intern_found m D)|]. split; [done|]. split; [apply extends_same, Hr|].
    split; [by eapply space_le; [done|lia]|done].
  - destruct (intern_new m D name p l us n Hr Hp He Hsp) as (s & h' & Hi & Hk & Hs & Hr' & Hsp').
    assert (assoc name l = None) as Hnone.
    { revert He. rewrite (resolve_at m D name p l us Hp), assoc_app. destruct (reserved m name p); [done|]. by destruct (assoc name l). }
    set (D' := <[p := ((name, s) :: l, us)]> D) in *. exists s, (set_heap h' m), D'.
    assert (extends m (set_heap h' m) D D') as Hext.
    { split; [done|done|]. intros q lq uq Hq. unfold D'. destruct (decide (p = q)) as [<-|Hne].
      - rewrite Hp in Hq. injection Hq as <- <-. rewrite lookup_insert_eq. eexists. split; [done|].
        intros name' s' Hs'. cbn. case_decide; [congruence|done].
      - rewrite lookup_insert_ne by done. by exists lq. }
    split; [done|]. split; [apply (named_packages_keeps m h' D); try done|split; [done|split; [done|by apply resolve_insert]]].
    intros q. by apply (extends_some _ _ _ _ _ Hext).
Qed.

(** The space that interning the names can take. *)
Definition cost (names : list bytes) : nat := sum_list_with (λ name, 3 + length name)%nat names.

(** A name of a machine's own, that is not a word. *)
Definition jet_name (name : bytes) : Prop := name ≠ str "NIL" ∧ name ≠ str "T".

#[export] Instance jet_name_dec name : Decision (jet_name name).
Proof. unfold jet_name. apply _. Defined.

Lemma jet_not_reserved m name p : jet_name name → reserved m name p = None.
Proof. intros [H1 H2]. unfold reserved. destruct (p =? base_ m); [|done]. by rewrite !decide_False. Qed.

(** A package that uses no others. *)
Definition alone (D : directory) (p : Z) : Prop := ∃ l, D !! p = Some (l, []).

Lemma alone_extends m m' D D' p : extends m m' D D' → alone D p → alone D' p.
Proof. intros He [l Hp]. destruct (ex_dir _ _ _ _ He p l [] Hp) as (l' & Hl' & _). by exists l'. Qed.

Lemma alone_some D p : alone D p → is_Some (D !! p).
Proof. intros [l ->]. by eexists. Qed.

Lemma own_extends m m' D D' p name s : extends m m' D D' → assoc name (own D p) = Some s → assoc name (own D' p) = Some s.
Proof.
  intros He. unfold own. destruct (D !! p) as [[l us]|] eqn:Hp; [|done]. destruct (ex_dir _ _ _ _ He p l us Hp) as (l' & -> & Hl').
  apply Hl'.
Qed.

Lemma alone_resolve m D name p : alone D p → jet_name name → resolve m D name p = assoc name (own D p).
Proof.
  intros [l Hp] Hj. rewrite (resolve_at m D name p l [] Hp), jet_not_reserved by done. cbn. rewrite app_nil_r.
  unfold own. by rewrite Hp.
Qed.

Lemma intern_all_ok names : ∀ m D ps n, Forall jet_name names → named_packages m D ps → alone D (base_ m) →
  space (heap_ m) (cost names + n) →
  ∃ ss m' D', intern_all names m = Some (Ret ss, m') ∧ named_packages m' D' ps ∧ extends m m' D D' ∧
    space (heap_ m') n ∧ Forall2 (λ name s, assoc name (own D' (base_ m)) = Some s) names ss.
Proof.
  induction names as [|name names IH]; intros m D ps n Hj Hm Hb Hsp; cbn [intern_all].
  { exists [], m, D. split; [done|]. split; [done|]. split; [apply extends_same, Hm|]. split; [done|constructor]. }
  change (cost (name :: names)) with (3 + length name + cost names)%nat in Hsp. apply Forall_cons in Hj as [Hj Hjs].
  destruct (intern_step m D ps name (base_ m) (cost names + n) Hm (alone_some _ _ Hb)) as (s & m1 & D1 & H1 & Hm1 & He1 & Hsp1 & Hs).
  { eapply space_le; [done|lia]. }
  unfold intern_base at 1. change (pbind (pbind (gets (λ m, m)) ?k1) ?k m) with (pbind (k1 m) k m). cbv beta.
  rewrite (bind_run _ _ _ _ _ H1). assert (base_ m1 = base_ m) as Hbase by (rewrite (ex_fields _ _ _ _ He1); done).
  pose proof (alone_extends _ _ _ _ _ He1 Hb) as Hb1. rewrite (alone_resolve m1 D1 name _ Hb1 Hj) in Hs. rewrite <- Hbase in Hb1.
  destruct (IH m1 D1 ps n Hjs Hm1 Hb1 Hsp1) as (ss & m2 & D2 & H2 & Hm2 & He2 & Hsp2 & Hss).
  rewrite Hbase in *. rewrite (bind_run _ _ _ _ _ H2). exists (s :: ss), m2, D2. split; [done|]. split; [done|].
  split; [by eapply extends_trans|]. split; [done|]. constructor; [by apply (own_extends m1 m2 D1)|done].
Qed.

(** A name that is not reserved means a symbol with that name. *)
Lemma resolve_named m D name p s : registered (heap_ m) D → is_Some (D !! p) → reserved m name p = None →
  resolve m D name p = Some s → named (heap_ m) s name.
Proof.
  intros Hr [[l us] Hp] Hn. rewrite (resolve_at m D name p l us Hp), Hn. intros Hs.
  destruct (registered_lookup _ _ _ _ _ Hr Hp) as [(_ & _ & _ & _ & _ & _ & Hl) (_ & us' & _ & _ & _ & Hus)].
  assert (Forall (λ e, named (heap_ m) e.2 e.1) (l ++ concat (own D <$> us))) as Hall.
  { apply Forall_app. split; [by eapply homed_named|]. clear -Hus. induction Hus as [|u lu us' ls (_ & _ & _ & _ & _ & _ & Hu) _ IH]; [constructor|].
    apply Forall_app. split; [by eapply homed_named|done]. }
  rewrite Forall_forall in Hall. exact (Hall _ (assoc_some _ _ _ Hs)).
Qed.

(** Writing the value or the function of a symbol. *)
Lemma symbol_write m D ps s f c v n : named_packages m D ps → valid (heap_ m) s → tag_of s = T_sym →
  column_index T_sym f = Some c → written T_sym c = true → valid (heap_ m) v → space (heap_ m) n →
  ∃ h', hset T_sym f s v (heap_ m) = (Ret tt, h') ∧ named_packages (set_heap h' m) D ps ∧
    extends m (set_heap h' m) D D ∧ space h' n ∧ row_of h' s = <[c := v]> (row_of (heap_ m) s).
Proof.
  intros Hm Hv Ht Hc Hw Hvv Hsp. destruct (hset_keeps (heap_ m) T_sym f s v c) as (h' & Hs & Hk & Hrow & Hr & Hsp'); try done.
  { apply Hm. }
  { destruct c as [|[|[|[|]]]]; try done; cbn; lia. }
  exists h'. assert (registered h' D) as Hreg.
  { apply (registered_keeps (heap_ m)); [done| |apply Hm]. intros p Hvp Htp.
    destruct (hget_row (heap_ m) T_pkg F_sym p 1 (kp_from _ _ Hk) Hvp Htp eq_refl eq_refl ltac:(cbn; lia)) as (y & -> & _ & Hy).
    apply Hy; [apply Hk|by apply Hk|]. rewrite Hr; [done|done|unfold pointer_word; by rewrite Htp|congruence]. }
  split; [done|]. split; [by apply (named_packages_keeps m h' D)|]. split; [|split; [by apply Hsp'|done]].
  split; [done|done|]. intros q l us Hq. by exists l.
Qed.

Lemma jet_valid h i : 0 ≤ i < 2 ^ 27 → valid h (immediate T_jet i).
Proof.
  intros Hi. destruct (immediate_parts T_jet i ltac:(done) Hi) as (Hw & Ht & _). apply valid_constant; [done|].
  unfold pointer_word. by rewrite Ht.
Qed.

Lemma install_jets_ok jets : ∀ i m D ps n, Forall jet_name jets → 0 ≤ i → i + Z.of_nat (length jets) ≤ 2 ^ 27 →
  named_packages m D ps → is_Some (D !! base_ m) → space (heap_ m) (cost jets + n) →
  ∃ m' D', install_jets i jets m = Some (Ret tt, m') ∧ named_packages m' D' ps ∧ extends m m' D D' ∧ space (heap_ m') n.
Proof.
  induction jets as [|name jets IH]; intros i m D ps n Hj Hi Hlim Hm Hb Hsp; cbn [install_jets].
  { exists m, D. split; [done|]. split; [done|]. split; [apply extends_same, Hm|done]. }
  change (cost (name :: jets)) with (3 + length name + cost jets)%nat in Hsp. cbn [length] in Hlim.
  apply Forall_cons in Hj as [Hj1 Hj].
  destruct (intern_step m D ps name (base_ m) (cost jets + n) Hm Hb) as (s & m1 & D1 & H1 & Hm1 & He1 & Hsp1 & Hs).
  { eapply space_le; [done|lia]. }
  unfold intern_base at 1. change (pbind (pbind (gets (λ m, m)) ?k1) ?k m) with (pbind (k1 m) k m). cbv beta.
  rewrite (bind_run _ _ _ _ _ H1). assert (base_ m1 = base_ m) as Hbase by (rewrite (ex_fields _ _ _ _ He1); done).
  assert (named (heap_ m1) s name) as (Hvs & Hts & _).
  { apply (resolve_named m1 D1 name (base_ m)); try done; [apply Hm1|by apply (extends_some _ _ _ _ _ He1)|].
    by apply jet_not_reserved. }
  destruct (symbol_write m1 D1 ps s F_fun 3 (immediate T_jet i) (cost jets + n) Hm1 Hvs Hts eq_refl eq_refl)
    as (h2 & H2 & Hm2 & He2 & Hsp2 & _); [apply jet_valid; lia|done|].
  rewrite (on_heap_ret _ _ m1 tt h2 H2).
  destruct (IH (i + 1) (set_heap h2 m1) D1 ps n Hj ltac:(lia) ltac:(lia) Hm2) as (m3 & D3 & H3 & Hm3 & He3 & Hsp3);
    [by change (base_ (set_heap h2 m1)) with (base_ m1); rewrite Hbase; apply (extends_some _ _ _ _ _ He1)|done|].
  exists m3, D3. split; [done|]. split; [done|]. split; [|done].
  eapply extends_trans; [exact He1|]. by eapply extends_trans.
Qed.

Lemma obind_ret {A B} (o : op A) (k : A → op B) h a h' : o h = (Ret a, h') → obind o k h = k a h'.
Proof. intros H. unfold obind. by rewrite H. Qed.

Lemma empty_registered h : heap_ok h → registered h ∅.
Proof. intros Hh. by split. Qed.

(** One more package of a directory. *)
Lemma new_package_registered h D name n : registered h D → space h (2 + n + length (str name)) →
  ∃ p h', new_package name h = (Ret p, h') ∧ keeps h h' ∧ registered h' (<[p := ([], [])]> D) ∧ D !! p = None ∧
    package_named h' p (str name) ∧ space h' n.
Proof.
  intros Hr Hsp. destruct (new_package_ok h (str name) n (rg_heap _ _ Hr) Hsp) as (p & h' & Hn & Hk & Hrk & Hp & Hl & Hu & Hnew & Hsp').
  pose proof (registered_fresh _ _ p Hr Hnew) as Hd. exists p, h'. split; [done|]. split; [done|]. split; [|done].
  apply registered_insert; [|done..]. apply (registered_keeps h); [done| |done]. intros q Hv Ht. by apply rows_kept_sym.
Qed.

(** One more cell of the list of packages. *)
Lemma package_cell h D p name ps rest n : registered h D → package_named h p name → valid h rest → spine h rest ps →
  space h (1 + n) →
  ∃ c h', cons p rest h = (Ret c, h') ∧ keeps h h' ∧ registered h' D ∧ valid h' c ∧ spine h' c (p :: ps) ∧ space h' n.
Proof.
  intros Hr (Hv & Ht & _) Hvr Hs Hsp. destruct (cons_made h p rest n (rg_heap _ _ Hr) Hv Hvr) as (c & h' & Hc & Hm & Hrk & Hsp');
    [by apply pointer_not_zap; unfold pointer_word; rewrite Ht|done|].
  pose proof Hm as (Hk & Hvc & Htc & _). exists c, h'. split; [done|]. split; [done|]. split; [|split; [done|split; [|done]]].
  - apply (registered_keeps h); [done| |done]. intros q Hvq Htq. by apply rows_kept_sym.
  - eapply (spine_cons _ _ _ rest); [done..|by apply (made_read _ _ _ _ _ Hm)|]. by eapply spine_keeps.
Qed.

Lemma name_made h D name n : registered h D → space h (1 + n + length (str name)) →
  ∃ v h', newv08 (foreign (str name)) h = (Ret v, h') ∧ keeps h h' ∧ registered h' D ∧ text_of h' v (str name) ∧ space h' n.
Proof.
  intros Hr Hsp. destruct (newv08_made h (str name) n (rg_heap _ _ Hr) Hsp) as (v & h' & Hn & Hk & Hv & Ht & Hs & Hrk & Hsp' & _).
  exists v, h'. split; [done|]. split; [done|]. split; [|done]. apply (registered_keeps h); [done| |done].
  intros q Hvq Htq. by apply rows_kept_sym.
Qed.

Lemma new_names_ok h n : heap_ok h → space h (29 + n) →
  ∃ m D h' ps, new_names h = (Ret m, h') ∧ h' = heap_ m ∧ named_packages m D ps ∧
    ps = [(str "KEY", keys_ m); (str "KEYWORD", keywords_ m); (str "WISP", base_ m)] ∧
    D = <[keys_ m := ([], [])]> (<[keywords_ m := ([], [])]> {[base_ m := ([], [])]}) ∧
    NoDup [base_ m; keywords_ m; keys_ m] ∧
    current_ m = base_ m ∧ text_of h' (nil_name_ m) (str "NIL") ∧ text_of h' (true_name_ m) (str "T") ∧ space h' n.
Proof.
  intros Hh Hsp.
  destruct (new_package_registered h ∅ "WISP" (23 + n) (empty_registered h Hh)) as (p1 & h1 & H1 & _ & R1 & F1 & N1 & S1);
    [apply (space_le _ _ _ Hsp); change (length (str "WISP")) with 4%nat; lia|].
  destruct (new_package_registered h1 _ "KEYWORD" (14 + n) R1) as (p2 & h2 & H2 & K2 & R2 & F2 & N2 & S2);
    [apply (space_le _ _ _ S1); change (length (str "KEYWORD")) with 7%nat; lia|].
  destruct (new_package_registered h2 _ "KEY" (9 + n) R2) as (p3 & h3 & H3 & K3 & R3 & F3 & N3 & S3);
    [apply (space_le _ _ _ S2); change (length (str "KEY")) with 3%nat; lia|].
  pose proof (package_named_keeps _ _ _ _ (keeps_trans _ _ _ K2 K3) N1) as N1'.
  pose proof (package_named_keeps _ _ _ _ K3 N2) as N2'.
  destruct (package_cell h3 _ p1 _ [] nil (8 + n) R3 N1') as (c1 & h4 & H4 & K4 & R4 & V4 & L4 & S4);
    [by apply valid_constant|constructor|done|].
  destruct (package_cell h4 _ p2 _ _ c1 (7 + n) R4 (package_named_keeps _ _ _ _ K4 N2') V4 L4) as (c2 & h5 & H5 & K5 & R5 & V5 & L5 & S5);
    [done|].
  pose proof (keeps_trans _ _ _ K4 K5) as K45.
  destruct (package_cell h5 _ p3 _ _ c2 (6 + n) R5 (package_named_keeps _ _ _ _ K45 N3) V5 L5) as (c3 & h6 & H6 & K6 & R6 & V6 & L6 & S6);
    [done|].
  destruct (name_made h6 _ "NIL" (2 + n) R6) as (v1 & h7 & H7 & K7 & R7 & T7 & S7);
    [apply (space_le _ _ _ S6); change (length (str "NIL")) with 3%nat; lia|].
  destruct (name_made h7 _ "T" n R7) as (v2 & h8 & H8 & K8 & R8 & T8 & S8);
    [apply (space_le _ _ _ S7); change (length (str "T")) with 1%nat; lia|].
  pose proof (keeps_trans _ _ _ K7 K8) as K78. pose proof (keeps_trans _ _ _ K45 (keeps_trans _ _ _ K6 K78)) as K48.
  eexists _, _, h8, _. unfold new_names. rewrite (obind_ret _ _ _ _ _ H1), (obind_ret _ _ _ _ _ H2), (obind_ret _ _ _ _ _ H3),
    (obind_ret _ _ _ _ _ H4), (obind_ret _ _ _ _ _ H5), (obind_ret _ _ _ _ _ H6), (obind_ret _ _ _ _ _ H7), (obind_ret _ _ _ _ _ H8).
  split; [reflexivity|]. cbn [heap_ keys_ keywords_ base_ current_ nil_name_ true_name_]. split; [done|]. split; [|split; [reflexivity|]].
  - split; cbn [heap_ packages_]; [exact R8|by apply K78|by apply (spine_keeps h6)| |].
    + repeat (apply Forall_cons_2; [by eapply package_named_keeps|]). apply Forall_nil_2.
    + intros e He. repeat (apply elem_of_cons in He as [->|He]; [cbn [snd]|]); [..|by apply elem_of_nil in He].
      * apply lookup_insert_is_Some'. by left.
      * apply lookup_insert_is_Some'. right. apply lookup_insert_is_Some'. by left.
      * apply lookup_insert_is_Some'. right. apply lookup_insert_is_Some'. right. apply lookup_insert_is_Some'. by left.
  - split; [done|]. split; [|split; [done|split; [by apply (text_keeps h7)|done]]].
    rewrite lookup_insert_None in F2. rewrite !lookup_insert_None in F3. destruct F2 as [_ F2]. destruct F3 as [[_ F3] F3'].
    apply NoDup_cons_2; [|apply NoDup_cons_2; [|apply NoDup_singleton]].
    + rewrite !elem_of_cons. intros [->|[->|He]]; [done|done|by apply elem_of_nil in He].
    + rewrite elem_of_cons. intros [->|He]; [done|by apply elem_of_nil in He].
Qed.

(** The symbols native code knows are the base package's own with their names. *)
Definition knows (m : evaluator) (D : directory) : Prop :=
  Forall2 (λ name s, assoc name (own D (base_ m)) = Some s) known_names (known_ m).

Lemma extends_base m m' D D' : extends m m' D D' → base_ m' = base_ m ∧ keywords_ m' = keywords_ m ∧
  current_ m' = current_ m ∧ known_ m' = known_ m.
Proof. intros [-> _ _]. done. Qed.

Lemma knows_extends m m' D D' : extends m m' D D' → knows m D → knows m' D'.
Proof.
  intros He. destruct (extends_base _ _ _ _ He) as (Hb & _ & _ & Hk). unfold knows. rewrite Hb, Hk.
  intros H. eapply Forall2_impl; [exact H|]. intros name s. by apply (own_extends m m').
Qed.

(** A machine with its packages in order. *)
Record machine_ok (m : evaluator) (D : directory) (ps : list (bytes * Z)) : Prop := {
  mo_packages : named_packages m D ps;
  mo_base : is_Some (D !! base_ m);
  mo_keywords : is_Some (D !! keywords_ m);
  mo_current : is_Some (D !! current_ m);
  mo_known : knows m D;
  mo_apart : keywords_ m ≠ base_ m;
}.

Lemma machine_extends m m' D D' ps : machine_ok m D ps → named_packages m' D' ps → extends m m' D D' → machine_ok m' D' ps.
Proof.
  intros Hm Hp He. destruct (extends_base _ _ _ _ He) as (Eb & Ek & Ec & _).
  split; rewrite ?Eb, ?Ek, ?Ec; try done; try (by apply (extends_some _ _ _ _ _ He), Hm).
  - by apply (knows_extends m m' D), Hm.
  - apply Hm.
Qed.

(** The space the constructor takes. *)
Definition start_cost (jets : list bytes) : nat := 29 + cost known_names + cost jets.

Lemma known_jets : Forall jet_name known_names.
Proof. apply (bool_decide_unpack _). by vm_compute. Qed.

Lemma new_evaluator_ok jets h n : heap_ok h → Forall jet_name jets → Z.of_nat (length jets) ≤ 2 ^ 27 →
  space h (start_cost jets + n) →
  ∃ m D, new_evaluator jets h = Some (Ret m) ∧
    machine_ok m D [(str "KEY", keys_ m); (str "KEYWORD", keywords_ m); (str "WISP", base_ m)] ∧
    current_ m = base_ m ∧ space (heap_ m) n ∧ alone D (base_ m).
Proof.
  intros Hh Hj Hlen Hsp. unfold start_cost in Hsp.
  destruct (new_names_ok h (cost known_names + (cost jets + n)) Hh) as (m & D & h' & ps & H0 & -> & Hm & Hps & HD & Hnd & Hc & _ & _ & S0).
  { apply (space_le _ _ _ Hsp). lia. }
  assert (is_Some (D !! keywords_ m)) as Hk by (apply (np_known _ _ _ Hm (str "KEYWORD", keywords_ m)); rewrite Hps; right; by left).
  assert (base_ m ≠ keywords_ m ∧ base_ m ≠ keys_ m) as [Hne1 Hne2].
  { apply NoDup_cons_1_1 in Hnd. rewrite !not_elem_of_cons in Hnd. tauto. }
  assert (alone D (base_ m)) as Hb by (exists []; rewrite HD, !lookup_insert_ne by done; apply lookup_singleton_eq).
  destruct (intern_all_ok known_names m D ps (cost jets + n)) as (ss & m1 & D1 & H1 & Hm1 & He1 & S1 & Hss); try done.
  { apply known_jets. }
  destruct (extends_base _ _ _ _ He1) as (Eb & Ek & Ec & _).
  set (m2 := set_known ss m1). assert (base_ m2 = base_ m) as Eb2 by (by rewrite <- Eb).
  assert (named_packages m2 D1 ps) as Hm2 by (destruct Hm1; by split).
  assert (keys_ m2 = keys_ m) as Es by (change (keys_ m1 = keys_ m); by rewrite (ex_fields _ _ _ _ He1)).
  pose proof (extends_some _ _ _ _ _ He1 (alone_some _ _ Hb)) as Hb1. pose proof (extends_some _ _ _ _ _ He1 Hk) as Hk1.
  assert (machine_ok m2 D1 ps) as Hmach.
  { split; try done; rewrite ?Eb2; try done.
    - change (keywords_ m2) with (keywords_ m1). by rewrite Ek.
    - change (current_ m2) with (current_ m1). by rewrite Ec, Hc.
    - unfold knows. by rewrite Eb2.
    - change (keywords_ m2) with (keywords_ m1). by rewrite Ek. }
  destruct (install_jets_ok jets 0 m2 D1 ps n Hj ltac:(lia) ltac:(lia) Hm2) as (m3 & D3 & H3 & Hm3 & He3 & S3);
    [by rewrite Eb2|done|].
  destruct (extends_base _ _ _ _ He3) as (Eb3 & Ek3 & Ec3 & _). exists m3, D3.
  assert (keys_ m3 = keys_ m) as Es3 by (rewrite (ex_fields _ _ _ _ He3); exact Es).
  split; [|split; [|split; [|split; [done|]]]].
  - unfold new_evaluator. rewrite H0. unfold install_known.
    rewrite (bind_run _ _ m tt m2); [|by rewrite (bind_run _ _ _ _ _ H1)]. by rewrite H3.
  - rewrite Eb3, Ek3, Es3, Eb2. change (keywords_ m2) with (keywords_ m1). rewrite Ek, <- Hps. by apply (machine_extends m2 m3 D1).
  - rewrite Eb3, Ec3, Eb2. change (current_ m2) with (current_ m1). by rewrite Ec.
  - rewrite Eb3, Eb2. by apply (alone_extends _ _ _ _ _ He3), (alone_extends _ _ _ _ _ He1).
Qed.

Lemma known_interned m D ps i name : machine_ok m D ps → known_names !! i = Some name →
  intern_base name m = Some (Ret (nth i (known_ m) 0), m).
Proof.
  intros Hm Hi. destruct (Forall2_lookup_l _ _ _ _ _ (mo_known _ _ _ Hm) Hi) as (s & Hs & Hr).
  unfold intern_base. change (pbind (gets (λ m, m)) ?k m) with (k m m). cbv beta.
  rewrite (nth_lookup_Some _ _ 0 s Hs). apply (intern_found m D); [apply Hm|apply Hm|].
  destruct (mo_base _ _ _ Hm) as [[l us] Hb]. rewrite (resolve_at _ _ _ _ l us Hb), jet_not_reserved.
  - revert Hr. unfold own at 1. rewrite Hb. rewrite assoc_app. change (default [] (fst <$> Some (l, us))) with l. by intros ->.
  - apply (Forall_lookup_1 _ _ _ _ known_jets Hi).
Qed.

(** A new evaluator is complete: on a heap with the space, the constructor returns a
    machine whose list of packages is KEY, KEYWORD and WISP, whose current package is
    WISP, and in which each known symbol is the one that interning its name gives,
    without changing anything; the builtins' names are bound after that and move
    none of them. *)
Theorem new_evaluator_knows jets h n : heap_ok h → Forall jet_name jets → Z.of_nat (length jets) ≤ 2 ^ 27 →
  space h (start_cost jets + n) →
  ∃ m, new_evaluator jets h = Some (Ret m) ∧ current_ m = base_ m ∧
    find_package (str "WISP") m = Some (Ret (base_ m), m) ∧ find_package (str "KEYWORD") m = Some (Ret (keywords_ m), m) ∧
    find_package (str "KEY") m = Some (Ret (keys_ m), m) ∧
    ∀ i name, known_names !! i = Some name → intern_base name m = Some (Ret (nth i (known_ m) 0), m).
Proof.
  intros Hh Hj Hl Hsp. destruct (new_evaluator_ok jets h n Hh Hj Hl Hsp) as (m & D & Hn & Hm & Hc & _).
  exists m. rewrite !(find_package_ok m D _ _ (mo_packages _ _ _ Hm)). split; [done|]. split; [done|].
  split; [done|]. split; [done|]. split; [done|]. intros i name Hi. by eapply known_interned.
Qed.

(** ** The walk of the uses list ends *)

(** Every list of symbols is well formed. *)
Definition symbol_lists (h : heap) : Prop := ∀ p, valid h p → tag_of p = T_pkg → ∃ l, symbols h p l.

Lemma half_step k : (if Nat.odd k then S (Nat.div2 k) else Nat.div2 k) = Nat.div2 (S k).
Proof.
  rewrite !Nat.div2_div. pose proof (Nat.div_mod_eq k 2). pose proof (Nat.div_mod_eq (S k) 2).
  pose proof (Nat.mod_upper_bound (S k) 2). pose proof (Nat.mod_upper_bound k 2). pose proof (Nat.odd_spec k) as Ho.
  destruct (Nat.odd k) eqn:Hk; [apply Nat.odd_spec in Hk as [j ->]; lia|].
  assert (Nat.even k = true) as He by (rewrite <- Nat.negb_odd, Hk; done). apply Nat.even_spec in He as [j ->]. lia.
Qed.

Lemma not_NoDup_fmap_seq {A} `{EqDecision A} (f : nat → A) n : ¬ NoDup (f <$> seq 0 n) → ∃ i j, (i < j < n)%nat ∧ f i = f j.
Proof.
  induction n as [|n IH]; [intros []; apply NoDup_nil_2|]. rewrite seq_S, fmap_app. cbn. intros Hnd.
  destruct (decide (f n ∈ f <$> seq 0 n)) as [Hin|Hin].
  - apply list_elem_of_fmap in Hin as (i & He & Hi). apply elem_of_seq in Hi. exists i, n. split; [lia|done].
  - destruct IH as (i & j & Hij & He); [|exists i, j; split; [lia|done]]. intros Hn. apply Hnd, NoDup_app.
    split; [done|]. split; [|apply NoDup_singleton]. intros x Hx Hx'. apply list_elem_of_singleton in Hx' as ->. done.
Qed.

Section floyd.
Context (m : evaluator) (name : bytes) (start : Z).
Context (Hh : heap_ok (heap_ m)) (Hl : symbol_lists (heap_ m)) (Hstart : valid (heap_ m) start).
#[local] Set Default Proof Using "All".

Definition next_of (x : Z) : Z := match hget T_duo F_cdr x (heap_ m) with Ret d => d | Throw _ => nil end.
Definition trail (k : nat) : Z := Nat.iter k next_of start.

Lemma cell_at x : valid (heap_ m) x → tag_of x = T_duo →
  ∃ a, hread T_duo x (heap_ m) = Ret [a; next_of x] ∧ hget T_duo F_cdr x (heap_ m) = Ret (next_of x) ∧
    valid (heap_ m) a ∧ valid (heap_ m) (next_of x).
Proof.
  intros Hv Ht. destruct (hget_valid (heap_ m) T_duo F_car x 0 Hh Hv Ht) as (a & Ha & Hva); try done; [cbn; lia|by eexists|].
  destruct (hget_valid (heap_ m) T_duo F_cdr x 1 Hh Hv Ht) as (d & Hd & Hvd); try done; [cbn; lia|by eexists|].
  unfold next_of. rewrite Hd. exists a. split; [|done].
  destruct (hget_ok (heap_ m) T_duo F_car x 0 Hh Hv Ht) as (a' & Ha' & Hra); try done; [cbn; lia|].
  destruct (hget_ok (heap_ m) T_duo F_cdr x 1 Hh Hv Ht) as (d' & Hd' & Hrd); try done; [cbn; lia|].
  assert (pointer_word x = true) as Hp by (unfold pointer_word; by rewrite Ht).
  pose proof (row_of_length (heap_ m) x Hh Hv Hp) as Hlen. rewrite Ht in Hlen.
  rewrite hread_ok by done. rewrite Ha in Ha'. rewrite Hd in Hd'. injection Ha' as <-. injection Hd' as <-.
  destruct (row_of (heap_ m) x) as [|b [|e []]]; try done. injection Hra as <-. by injection Hrd as <-.
Qed.

Definition cell_in (i : nat) : Prop := valid (heap_ m) (trail i) ∧ tag_of (trail i) = T_duo.

(** The walk at turn [k] runs out of turns only past cells, and past no meeting. *)
Lemma find_used_spent fuel : ∀ k, (∀ i, (i < k)%nat → cell_in i) → valid (heap_ m) (trail k) →
  find_used fuel name (trail k) (trail (Nat.div2 k)) (Nat.odd k) m = None →
  ∀ i, (i < k + fuel)%nat → cell_in i ∧ ((k ≤ i)%nat → trail (S i) ≠ trail (Nat.div2 (S i))).
Proof.
  induction fuel as [|fuel IH]; intros k Hold Hv Hrun i Hi; [split; [apply Hold|]; lia|]. cbn [find_used] in Hrun.
  destruct (Z.eqb_spec (trail k) nil) as [|Hnil]; [done|].
  destruct (decide (tag_of (trail k) = T_duo)) as [Ht|Ht]; [|by rewrite bool_decide_false in Hrun].
  rewrite (bool_decide_true (tag_of (trail k) = T_duo)) in Hrun by done. cbn [negb] in Hrun.
  destruct (cell_at (trail k) Hv Ht) as (u & Hr & _ & Hvu & Hvn). rewrite (asks_ret _ _ _ _ Hr) in Hrun. cbn [nth] in Hrun.
  destruct (decide (tag_of u = T_pkg)) as [Hu|Hu]; [|by rewrite bool_decide_false in Hrun].
  rewrite (bool_decide_true (tag_of u = T_pkg)) in Hrun by done. cbn [negb] in Hrun.
  destruct (Hl u Hvu Hu) as [l Hsym]. rewrite (bind_run _ _ _ _ _ (find_ok m name u l Hsym)) in Hrun.
  destruct (assoc name l); [done|]. change (next_of (trail k)) with (trail (S k)) in *.
  assert (∀ i, (i < S k)%nat → cell_in i) as Hnew.
  { intros j Hj. destruct (decide (j = k)) as [->|]; [by split|]. apply Hold. lia. }
  destruct (Hnew (Nat.div2 k)) as [Hvs Hts]; [destruct k as [|k]; [cbn; lia|]; pose proof (Nat.le_div2 k); lia|].
  destruct (cell_at _ Hvs Hts) as (u' & _ & Hg & _ & Hvn'). change (next_of (trail (Nat.div2 k))) with (trail (S (Nat.div2 k))) in *.
  assert ((if Nat.odd k then asks (hget T_duo F_cdr (trail (Nat.div2 k))) else pret (trail (Nat.div2 k))) m =
    Some (Ret (trail (Nat.div2 (S k))), m)) as Hmove.
  { rewrite <- half_step. destruct (Nat.odd k); [unfold asks; by rewrite Hg|done]. }
  rewrite (bind_run _ _ _ _ _ Hmove) in Hrun.
  destruct (Hnew (Nat.div2 (S k))) as [_ Hts']; [pose proof (Nat.le_div2 k); lia|].
  destruct (Z.eqb_spec (trail (S k)) (trail (Nat.div2 (S k)))) as [He|Hne].
  { rewrite <- He in Hts'. destruct (Z.eqb_spec (trail (S k)) nil) as [Hn|]; [by rewrite Hn in Hts'|done]. }
  rewrite andb_false_r in Hrun. rewrite Nat.negb_odd, <- Nat.odd_succ in Hrun.
  destruct (IH (S k) Hnew Hvn Hrun i) as [Hc Hm]; [lia|]. split; [done|]. intros Hk.
  destruct (decide (i = k)) as [->|]; [done|]. apply Hm. lia.
Qed.

Lemma trail_add i j a : trail i = trail j → trail (i + a) = trail (j + a).
Proof. intros H. induction a as [|a IH]; [by rewrite !Nat.add_0_r|]. rewrite !Nat.add_succ_r.
  change (next_of (trail (i + a)) = next_of (trail (j + a))). by rewrite IH. Qed.

Lemma trail_period i d : trail i = trail (i + d) → ∀ a k, (i ≤ a)%nat → trail a = trail (a + k * d).
Proof.
  intros H a k Ha. induction k as [|k IH]; [by rewrite Nat.add_0_r|]. rewrite IH.
  pose proof (trail_add i (i + d) (a - i + k * d) H) as Hs.
  replace (i + (a - i + k * d))%nat with (a + k * d)%nat in Hs by lia. rewrite Hs. f_equal. lia.
Qed.

(** Among more cells than there are rows, one comes twice. *)
Lemma trail_repeats n : (size_ (htable (heap_ m) T_duo) < n)%nat → (∀ i, (i < n)%nat → cell_in i) →
  ∃ i j, (i < j < n)%nat ∧ trail i = trail j.
Proof.
  intros Hn Hc. destruct (decide (NoDup (trail <$> seq 0 n))) as [Hnd|Hnd].
  - exfalso. pose proof (rows_bound (heap_ m) (trail <$> seq 0 n) Hnd) as Hb. rewrite length_fmap, length_seq in Hb.
    assert (n ≤ size_ (htable (heap_ m) T_duo))%nat; [|lia]. apply Hb. apply Forall_forall. intros x Hx.
    apply list_elem_of_fmap in Hx as (i & -> & Hi). apply Hc. apply elem_of_seq in Hi. lia.
  - apply not_NoDup_fmap_seq in Hnd as (i & j & Hij & He). by exists i, j.
Qed.

Lemma find_used_total : find_used (uses_fuel (heap_ m)) name start start false m ≠ None.
Proof.
  intros Hrun. set (N := size_ (htable (heap_ m) T_duo)) in *.
  assert (uses_fuel (heap_ m) = 4 * S N)%nat as Hf by done.
  pose proof (find_used_spent (uses_fuel (heap_ m)) 0 ltac:(lia) Hstart Hrun) as H. rewrite Hf in H.
  destruct (trail_repeats (S N)) as (i & j & Hij & He); [lia|intros i Hi; apply H; lia|].
  set (d := (j - i)%nat) in *. assert (trail i = trail (i + d)) as Hp by (rewrite He; f_equal; lia).
  set (q := (d * S (i / d))%nat). assert (d ≠ 0)%nat as Hd by lia.
  assert (i < q ≤ j)%nat as Hq.
  { unfold q. pose proof (Nat.div_mod_eq i d). pose proof (Nat.mod_upper_bound i d Hd). nia. }
  destruct (H (2 * q - 1)%nat) as [_ Hm]; [lia|]. apply Hm; [lia|]. replace (S (2 * q - 1)) with (2 * q)%nat by lia.
  rewrite Nat.div2_double. symmetry. replace (2 * q)%nat with (q + S (i / d) * d)%nat by (unfold q; lia).
  apply (trail_period i); [done|lia].
Qed.

End floyd.

(** An action that gives an outcome in every state. *)
Definition total {A} (a : action A) : Prop := ∀ m, a m ≠ None.

Lemma total_bind {A B} (a : action A) (k : A → action B) : total a → (∀ x, total (k x)) → total (pbind a k).
Proof. intros Ha Hk m. unfold pbind. specialize (Ha m). destruct (a m) as [[[x|e] m']|]; [apply Hk|done|done]. Qed.

Lemma total_on_heap {A} (o : op A) : total (on_heap o).
Proof. intros m. unfold on_heap. by destruct (o (heap_ m)) as [[]]. Qed.

Lemma total_asks {A} (q : heap → result fault A) : total (asks q).
Proof. intros m. unfold asks. by destruct (q (heap_ m)). Qed.

Lemma total_ret {A} (a : A) : total (pret a).
Proof. done. Qed.

Create HintDb action_total.
#[export] Hint Resolve total_bind total_on_heap total_asks total_ret : action_total.

Lemma make_symbol_total name p : total (make_symbol name p).
Proof. unfold make_symbol. auto 10 with action_total. Qed.

(** [intern] returns or throws whatever the list of used packages is, one that comes
    back to itself or ends in something else included, when the packages' lists of
    symbols are lists. *)
Theorem intern_total m name p : heap_ok (heap_ m) → symbol_lists (heap_ m) → valid (heap_ m) p → tag_of p = T_pkg →
  ∃ r m', intern name p m = Some (r, m').
Proof.
  intros Hh Hl Hv Ht. enough (intern name p m ≠ None) as Hne by (destruct (intern name p m) as [[r m']|]; [by exists r, m'|done]).
  unfold intern. change (pbind (gets (λ m, m)) ?k m) with (k m m). cbv beta.
  destruct (_ && _); [done|]. destruct (_ && _); [done|]. destruct (Hl p Hv Ht) as [l Hs].
  rewrite (bind_run _ _ _ _ _ (find_ok m name p l Hs)). destruct (assoc name l); [done|].
  destruct (hget_valid (heap_ m) T_pkg F_use p 2 Hh Hv Ht) as (use & Hu & Hvu); try done; [cbn; lia|by eexists|].
  rewrite (asks_ret _ _ _ _ Hu). unfold pbind. pose proof (find_used_total m name use Hh Hl Hvu) as Hf.
  destruct (find_used _ name use use false m) as [[[[s|]|e] m']|]; [done|by apply make_symbol_total|done|done].
Qed.

(** ** Witnesses *)

(** A package on its own. *)
Definition lone_heap : heap := (new_package "P" (new_heap false)).2.
Definition lone_package : Z := pointer T_pkg 0 false.
Definition lone_machine : evaluator := MkEvaluator lone_heap nil nil nil nil lone_package nil nil [].

(** A new machine on an empty heap, without builtins. *)
Lemma small_machine n : Z.of_nat n ≤ 2 ^ 20 →
  ∃ m D, new_evaluator [] (new_heap false) = Some (Ret m) ∧
    machine_ok m D [(str "KEY", keys_ m); (str "KEYWORD", keywords_ m); (str "WISP", base_ m)] ∧
    current_ m = base_ m ∧ space (heap_ m) n ∧ alone D (base_ m).
Proof.
  intros Hn. apply new_evaluator_ok; [apply new_heap_ok|constructor|done|]. apply new_heap_space.
  assert (start_cost [] = 1035%nat) as -> by (vm_compute; reflexivity). lia.
Qed.

Lemma lone_facts : heap_ok lone_heap ∧ symbols lone_heap lone_package [] ∧ used lone_heap lone_package [] ∧
  package_named lone_heap lone_package (str "P") ∧ space lone_heap 1000.
Proof.
  destruct (new_package_ok (new_heap false) (str "P") 1000 (new_heap_ok false)) as (p & h & Hn & Hk & _ & Hp & Hl & Hu & _ & Hsp).
  { apply new_heap_space. change (length (str "P")) with 1%nat. lia. }
  change (new_package "P" (new_heap false) = (Ret p, h)) in Hn.
  assert (h = lone_heap) as -> by (unfold lone_heap; by rewrite Hn).
  assert (new_package "P" (new_heap false) = (Ret lone_package, lone_heap)) as Hc by (vm_compute; reflexivity).
  rewrite Hc in Hn. injection Hn as <-. split; [apply Hk|done].
Qed.

Lemma lone_symbol_lists : symbol_lists lone_heap.
Proof.
  intros p Hv Ht. exists []. destruct lone_facts as (_ & Hl & _). assert (p = lone_package) as ->; [|done].
  apply (same_row lone_heap); [done|apply Hl|unfold pointer_word; by rewrite Ht|by rewrite Ht|].
  destruct Hv as [_ Hv]. unfold pointer_word in Hv. rewrite Ht in Hv. destruct (Hv eq_refl) as [_ Hlt].
  change (size_ (htable lone_heap T_pkg)) with 1%nat in Hlt. change (Z.to_nat (index_of lone_package)) with 0%nat. lia.
Qed.

Definition lone_directory : directory := {[lone_package := ([], [])]}.

Lemma lone_registered : registered lone_heap lone_directory.
Proof.
  destruct lone_facts as (Hh & Hl & Hu & _). apply registered_insert; [by apply empty_registered|done..].
Qed.

Lemma intern_total_witness : ∃ r m', intern (str "FOO") lone_package lone_machine = Some (r, m').
Proof.
  apply (intern_total lone_machine (str "FOO") lone_package); [apply lone_facts|apply lone_symbol_lists|apply lone_facts|].
  vm_compute. reflexivity.
Defined.

Lemma intern_refines_witness : ∃ s h', intern (str "FOO") lone_package lone_machine = Some (Ret s, set_heap h' lone_machine) ∧
  registered h' (<[lone_package := ([(str "FOO", s)], [])]> lone_directory).
Proof.
  pose proof (intern_refines lone_machine lone_directory (str "FOO") lone_package [] [] 0 lone_registered) as H.
  destruct H as (s & h' & Hi & _ & _ & Hr & _).
  - apply lookup_singleton_eq.
  - apply (space_le _ 1000); [apply lone_facts|]. change (length (str "FOO")) with 3%nat. lia.
  - exists s, h'. split; [exact Hi|exact Hr].
Defined.

Lemma intern_again_witness : ∃ s m', intern (str "FOO") lone_package lone_machine = Some (Ret s, m') ∧
  intern (str "FOO") lone_package m' = Some (Ret s, m').
Proof.
  apply (intern_again lone_machine lone_directory); [exact lone_registered| |].
  - exists ([], []). apply lookup_singleton_eq.
  - apply (space_le _ 1000); [apply lone_facts|]. change (length (str "FOO")) with 3%nat. lia.
Defined.

Lemma lone_packages : named_packages lone_machine lone_directory [].
Proof.
  split; [apply lone_registered|by apply valid_constant|constructor|apply Forall_nil_2|]. intros e He. by apply elem_of_nil in He.
Qed.

Lemma define_package_spec_witness : ∃ p m', define_package (str "Q") lone_machine = Some (Ret p, m') ∧
  find_package (str "Q") m' = Some (Ret p, m').
Proof.
  pose proof (define_package_spec lone_machine lone_directory [] (str "Q") 0 lone_packages) as H.
  destruct H as (p & m' & Hd & _ & _ & _ & Hf).
  - apply (space_le _ 1000); [apply lone_facts|]. change (length (str "Q")) with 1%nat. lia.
  - by exists p, m'.
Defined.

Lemma new_evaluator_knows_witness : ∃ m, new_evaluator [] (new_heap false) = Some (Ret m) ∧
  intern_base (str "QUOTE") m = Some (Ret (nth 0 (known_ m) 0), m).
Proof.
  destruct (new_evaluator_knows [] (new_heap false) 0) as (m & Hn & _ & _ & _ & _ & Hk).
  - apply new_heap_ok.
  - constructor.
  - vm_compute. discriminate.
  - apply new_heap_space. vm_compute. discriminate.
  - exists m. split; [exact Hn|]. apply (Hk 0%nat). reflexivity.
Defined.

(** A list of used packages that comes back to itself. *)
Example intern_cyclic :
  let h := (_ ⇐ new_package "Q"; c ⇐ cons lone_package nil; _ ⇐ hset T_duo F_cdr c c;
            hset T_pkg F_use (pointer T_pkg 1 false) c) lone_heap in
  let m := MkEvaluator h.2 nil nil nil nil nil nil nil [] in
  intern (str "FOO") (pointer T_pkg 1 false) m = Some (Throw (invalid_argument "cyclic package uses list"), m).
Proof. vm_compute. reflexivity. Qed.
