(* ===== verification/Reader.v ===== *)
(** * The Wisp reader (src/src/wisp/reader.cpp)

    The source reader of the Lisp: UTF-8 characters ([Unicode.peek]), blanks and
    comments, names folded to upper case, numbers, strings, and the loop over explicit
    frames that builds lists, vectors and quoted forms. The reader owns its source; the
    heap and the evaluator it names symbols in are part of its state. *)
From S2P Require Import Prelude State Unicode Word Vat Heap Grow Package Printer.
#[local] Open Scope Z_scope.

Inductive exception :=
| read_error (offset : nat) (message : bytes)
| thrown (e : wisp_error)
| source_out_of_range.

Record reader := MkReader {
  evaluator_ : evaluator;
  position_ : nat;
  form_position_ : nat;
}.

Abbreviation reading := (prog reader exception).

Definition set_evaluator (m : evaluator) (r : reader) : reader := MkReader m (position_ r) (form_position_ r).
Definition set_position (n : nat) (r : reader) : reader := MkReader (evaluator_ r) n (form_position_ r).
Definition set_form_position (n : nat) (r : reader) : reader := MkReader (evaluator_ r) (position_ r) n.

(** A call of the evaluator or, through it, of the heap. *)
Definition language {A} (a : Package.action A) : reading A := λ r,
  match a (evaluator_ r) with
  | None => None
  | Some (Ret x, m) => Some (Ret x, set_evaluator m r)
  | Some (Throw e, m) => Some (Throw (thrown e), set_evaluator m r)
  end.

(** [try { body } catch (const std::invalid_argument & error) { throw read_error(start, error.what()); }]. *)
Definition catch_invalid {A} (start : nat) (body : reading A) : reading A := λ r,
  match body r with
  | Some (Throw (thrown (invalid_argument what)), r') => Some (Throw (read_error start (str what)), r')
  | other => other
  end.

Definition digit (c : Z) : bool := (0x30 <=? c) && (c <=? 0x39).

Definition ranges : list (Z * Z) := [
  (0x00c0, 0x02af); (0x0370, 0x03ff); (0x1f00, 0x1fff);
  (0x0400, 0x052f); (0x0530, 0x077f); (0x0900, 0x0d7f);
  (0x1e00, 0x1eff); (0x1d00, 0x1dbf); (0x1400, 0x167f);
  (0x1200, 0x137f); (0x13a0, 0x13ff); (0x16a0, 0x16ff);
  (0x10a0, 0x10ff); (0x1100, 0x11ff); (0x3040, 0x30ff);
  (0x31a0, 0x31ff); (0xac00, 0xd7a3); (0x4e00, 0x9fff);
  (0x3400, 0x4dbf); (0x2000, 0x206f); (0x20a0, 0x20cf);
  (0x2100, 0x218f); (0x2190, 0x21ff); (0x2200, 0x22ff);
  (0x2300, 0x23ff); (0x2460, 0x24ff); (0x25a0, 0x2bff);
  (0x1f300, 0x1f5ff); (0x1f600, 0x1f64f); (0x1f680, 0x1f6ff);
  (0x1f900, 0x1fad0); (0x1fa70, 0x1faff)].

Definition punctuation : bytes := str "()[]{}" ++ [dquote] ++ str ";#`',".

Definition constituent (c : Z) : bool :=
  if c <? 128 then
    if (c =? 0x20) || ((0x09 <=? c) && (c <=? 0x0d)) then false
    else negb (bool_decide (c ∈ punctuation))
  else existsb (λ '(first, last), (first <=? c) && (c <=? last)) ranges.

(** The position of the first byte [c] at or after [from]. *)
Definition find_from (c : Z) (from : nat) (text : bytes) : option nat :=
  match list_find (eq c) (drop from text) with
  | Some (i, _) => Some (from + i)%nat
  | None => None
  end.

Definition find_last (c : Z) (text : bytes) : option nat :=
  match list_find (eq c) (reverse text) with
  | Some (i, _) => Some (length text - 1 - i)%nat
  | None => None
  end.

Definition source_location (source path : bytes) (offset : nat) : result exception bytes :=
  if (length source <? offset)%nat then Throw source_out_of_range
  else
    let prefix := take offset source in
    let line := (1 + length (filter (λ c, c = 10%Z) prefix))%nat in
    let column := match find_last 10 prefix with
                  | None => (offset + 1)%nat
                  | Some newline => (offset - newline)%nat
                  end in
    Ret (path ++ str ":" ++ to_string (Z.of_nat line) ++ str ":" ++ to_string (Z.of_nat column)).

(** What the decoder's errors say. *)
Definition utf8_message (e : utf8_error) : bytes :=
  str (match e with
       | invalid_or_truncated_utf8 => "invalid or truncated UTF-8"
       | invalid_utf8_continuation => "invalid UTF-8 continuation"
       | invalid_utf8_scalar => "invalid UTF-8 scalar"
       end).

Definition fold_case (c : Z) : Z := if (0x61 <=? c) && (c <=? 0x7a) then c - 32 else c.

Inductive kind := K_list | K_vector | K_quote | K_tail | K_close.

#[export] Instance kind_eq_dec : EqDecision kind.
Proof. solve_decision. Defined.

Record frame := MkFrame { type : kind; suffix : Z; items : list Z }.

Section reader.
Context (source path : bytes).

Definition new_reader (m : evaluator) (offset : nat) : result exception reader :=
  if (length source <? offset)%nat then Throw source_out_of_range else Ret (MkReader m offset offset).

Definition fail {A} (at_ : nat) (message : string) : reading A := pthrow (read_error at_ (str message)).

Definition here : reading nat := gets position_.

Definition peek : reading Z := λ r,
  match Unicode.peek (drop (position_ r) source) with
  | Ret c => Some (Ret c, r)
  | Throw e => Some (Throw (read_error (position_ r) (utf8_message e)), r)
  end.

Definition take_char : reading Z :=
  c <~ peek;
  p <~ here;
  if c =? eof then fail p "unexpected EOF"
  else _ <~ modify (set_position (p + scalar_width c)); pret c.

(** The turns a loop that takes a character each turn can need. *)
Definition turns (r : reader) : nat := S (length source - position_ r).

(** The loop of a comment: [while (peek() != eof && take() != '\n') {}]. *)
Fixpoint comment (fuel : nat) : reading unit :=
  match fuel with
  | O => λ _, None
  | S fuel' =>
      c <~ peek;
      if c =? eof then pret tt
      else d <~ take_char; if d =? 10 then pret tt else comment fuel'
  end.

Fixpoint space_loop (fuel : nat) : reading unit :=
  match fuel with
  | O => λ _, None
  | S fuel' =>
      c <~ peek;
      if (c =? 0x20) || (c =? 10) || (c =? 12) then _ <~ take_char; space_loop fuel'
      else if c =? ch ";" then n <~ gets turns; _ <~ comment n; space_loop fuel'
      else pret tt
  end.

Definition space : reading unit := n <~ gets turns; space_loop n.

Fixpoint name_loop (fuel : nat) : reading unit :=
  match fuel with
  | O => λ _, None
  | S fuel' => c <~ peek; if constituent c then _ <~ take_char; name_loop fuel' else pret tt
  end.

(** The source between two positions. *)
Definition between (start stop : nat) : bytes := take (stop - start) (drop start source).

Definition name : reading bytes :=
  start <~ here;
  n <~ gets turns;
  _ <~ name_loop n;
  stop <~ here;
  pret (fold_case <$> between start stop).

Definition symbol : reading Z :=
  start <~ here;
  text <~ name;
  catch_invalid start
    match find_from (ch ":") 0 text with
    | None => r <~ gets evaluator_; language (intern text (current_ r))
    | Some colon =>
        match find_from (ch ":") (colon + 1) text with
        | Some extra => fail (start + extra) "colon in symbol name"
        | None =>
            package <~ language (find_package (take colon text));
            if package =? nil then fail start "no such package"
            else language (intern (drop (colon + 1) text) package)
        end
    end.

Fixpoint number_loop (fuel : nat) (result digits : Z) : reading Z :=
  match fuel with
  | O => λ _, None
  | S fuel' =>
      c <~ peek;
      if digit c then
        let d := c - 0x30 in
        let digits := u32 (digits + 1) in
        p <~ here;
        if (10 <? digits) || (u32 (max_fixnum - d) `div` 10 <? result) then fail p "integer overflow"
        else _ <~ take_char; number_loop fuel' (u32 (u32 (result * 10) + d)) digits
      else pret result
  end.

Definition number : reading Z := n <~ gets turns; number_loop n 0 0.

Fixpoint string_loop (fuel : nat) (text : bytes) : reading Z :=
  match fuel with
  | O => λ _, None
  | S fuel' =>
      start <~ here;
      c <~ take_char;
      if c =? dquote then language (on_heap (newv08 (foreign text)))
      else if negb (c =? ch "\") then stop <~ here; string_loop fuel' (text ++ between start stop)
      else
        escape <~ here;
        e <~ take_char;
        if e =? ch "n" then string_loop fuel' (text ++ [10])
        else if e =? dquote then string_loop fuel' (text ++ [dquote])
        else if e =? ch "\" then string_loop fuel' (text ++ [ch "\"])
        else fail escape "bad string escape"
  end.

Definition string_form : reading Z := _ <~ take_char; n <~ gets turns; string_loop n [].

(** [value = heap_.cons(items[i - 1], value)] from the last item to the first. *)
Fixpoint cons_all (items : list Z) (value : Z) : reading Z :=
  match items with
  | [] => pret value
  | x :: items' => rest <~ cons_all items' value; language (on_heap (Heap.cons x rest))
  end.

(** How a turn of [form]'s loop ends: at the end of the source, with [continue], or
    with a value for the frames that are open. *)
Inductive outcome := O_eof | O_again (stack : list frame) | O_value (value : Z) (stack : list frame).

(** A character that closes the innermost frame, or must. *)
Definition closes (f : frame) (c : Z) : bool :=
  bool_decide (type f = K_close) || (bool_decide (type f = K_list) && (c =? ch ")"))
  || (bool_decide (type f = K_vector) && (c =? ch "]")).

Definition close (f : frame) (c : Z) (stack : list frame) : reading outcome :=
  p <~ here;
  if bool_decide (type f = K_close) && negb (c =? ch ")") then fail p "expected ')' after dotted tail"
  else
    _ <~ take_char;
    value <~ (if bool_decide (type f = K_vector) then language (on_heap (newv32 (foreign (items f))))
              else cons_all (items f) (suffix f));
    pret (O_value value stack).

(** The cases of the [#] dispatch. *)
Definition dispatch (stack : list frame) : reading outcome :=
  _ <~ take_char;
  at_ <~ here;
  c <~ take_char;
  if c =? ch ":" then
    text <~ name;
    s <~ language (on_heap (newv08 (foreign text)));
    value <~ language (on_heap (make T_sym [s; nil; nah; nil; nil]));
    pret (O_value value stack)
  else if c =? ch "\" then
    x <~ take_char;
    pret (O_value (immediate T_chr x) stack)
  else if c =? ch "'" then
    m <~ gets evaluator_;
    pret (O_again (MkFrame K_quote (known "FUNCTION" m) [] :: stack))
  else fail at_ "unknown '#' dispatch".

Definition quoted (c : Z) (stack : list frame) : reading outcome :=
  _ <~ take_char;
  m <~ gets evaluator_;
  let op := if c =? ch "'" then known "QUOTE" m else if c =? ch "`" then known "BACKQUOTE" m else known "UNQUOTE" m in
  if c =? ch "," then
    next <~ peek;
    if next =? ch "@" then
      _ <~ take_char;
      pret (O_again (MkFrame K_quote (known "UNQUOTE-SPLICING" m) [] :: stack))
    else pret (O_again (MkFrame K_quote op [] :: stack))
  else pret (O_again (MkFrame K_quote op [] :: stack)).

Definition keyword_form (stack : list frame) : reading outcome :=
  _ <~ take_char;
  text <~ name;
  value <~ language (keyword text);
  _ <~ language (on_heap (hset T_sym F_val value value));
  pret (O_value value stack).

(** The switch on the first character of a form. *)
Definition start_form (c : Z) (stack : list frame) : reading outcome :=
  if (c =? ch "(") || (c =? ch "[") then
    _ <~ take_char;
    pret (O_again (MkFrame (if c =? ch "(" then K_list else K_vector) nil [] :: stack))
  else if (c =? ch "'") || (c =? ch "`") || (c =? ch ",") then quoted c stack
  else if c =? ch "#" then dispatch stack
  else if c =? ch ":" then keyword_form stack
  else if c =? dquote then value <~ string_form; pret (O_value value stack)
  else if digit c then value <~ number; pret (O_value value stack)
  else if constituent c then value <~ symbol; pret (O_value value stack)
  else p <~ here; fail p "unexpected character".

(** A turn of the loop up to the frames that take the value; the innermost frame is
    first. *)
Definition turn (stack : list frame) : reading outcome :=
  _ <~ space;
  c <~ peek;
  p <~ here;
  if c =? eof then
    match stack with [] => pret O_eof | _ => fail p "unexpected EOF" end
  else
    match stack with
    | f :: outer =>
        if closes f c then close f c outer
        else if bool_decide (type f = K_list) && (c =? ch ".") then
          _ <~ take_char;
          pret (O_again (MkFrame K_tail (suffix f) (items f) :: outer))
        else start_form c stack
    | [] => start_form c stack
    end.

(** The inner loop: the value goes to the frames, [inl] when none is open. *)
Fixpoint settle (value : Z) (stack : list frame) : reading (Z + list frame) :=
  match stack with
  | [] => pret (inl value)
  | f :: outer =>
      match type f with
      | K_quote =>
          inner <~ language (on_heap (Heap.cons value nil));
          value <~ language (on_heap (Heap.cons (suffix f) inner));
          settle value outer
      | K_tail => pret (inr (MkFrame K_close value (items f) :: outer))
      | _ => pret (inr (MkFrame (type f) (suffix f) (items f ++ [value]) :: outer))
      end
  end.

Fixpoint form_loop (fuel : nat) (stack : list frame) : reading (option Z) :=
  match fuel with
  | O => λ _, None
  | S fuel' =>
      o <~ turn stack;
      match o with
      | O_eof => pret None
      | O_again stack => form_loop fuel' stack
      | O_value value stack =>
          s <~ settle value stack;
          match s with
          | inl value => pret (Some value)
          | inr stack => form_loop fuel' stack
          end
      end
  end.

Definition form : reading (option Z) := n <~ gets turns; form_loop n [].

(** [catch (const read_error & error)] around the body of [next]. *)
Definition located {A} (body : reading A) : reading A := λ r,
  match body r with
  | Some (Throw (read_error offset message), r') =>
      match source_location source path offset with
      | Ret place => Some (Throw (read_error offset (place ++ str ": " ++ message)), r')
      | Throw e => Some (Throw e, r')
      end
  | other => other
  end.

Definition next : reading (option Z) :=
  located (_ <~ space; p <~ here; _ <~ modify (set_form_position p); form).
End reader.

(** ** Reading never goes wrong *)

Lemma max_fixnum_value : max_fixnum = 1073741823.
Proof. reflexivity. Qed.

Lemma u32_id n : 0 ≤ n < 2 ^ 32 → u32 n = n.
Proof. intros Hn. apply wrap_small. lia. Qed.

Lemma find_from_lt c from text i : find_from c from text = Some i → (from ≤ i < length text)%nat.
Proof.
  unfold find_from. destruct (list_find (eq c) (drop from text)) as [[j y]|] eqn:Hf; [|done]. intros [= <-].
  apply list_find_Some in Hf as (Hl & _). apply lookup_lt_Some in Hl. rewrite length_drop in Hl. lia.
Qed.

Lemma width_pos c : (0 < scalar_width c)%nat.
Proof. unfold scalar_width. repeat case_match; lia. Qed.

(** The cells from [x] on hold the items and end with [y]. *)
Fixpoint chain (h : heap) (x : Z) (items : list Z) (y : Z) : Prop :=
  match items with
  | [] => x = y
  | a :: items' => ∃ d, valid h x ∧ tag_of x = T_duo ∧ hread T_duo x h = Ret [a; d] ∧ chain h d items' y
  end.

Lemma chain_keeps h h' xs y : keeps h h' → ∀ x, chain h x xs y → chain h' x xs y.
Proof.
  intros Hk. induction xs as [|a xs IH]; intros x; cbn [chain]; [done|]. intros (d & Hv & Ht & Hr & Hd). exists d.
  split; [by apply Hk|]. split; [done|]. split; [by eapply keeps_hread|]. auto.
Qed.

Section sound.
Context (source path : bytes) (Hsource : Forall is_byte source).
Context (m0 : evaluator) (D0 : directory) (ps : list (bytes * Z)).
#[local] Set Default Proof Using "All".

Abbreviation size := (length source).

(** The machine that is left: its packages are in order and nothing was lost. *)
Definition sane (r : reader) : Prop := ∃ D, machine_ok (evaluator_ r) D ps ∧ extends m0 (evaluator_ r) D0 D.

(** ... with a position in the source and, besides [k] units of space, eight for each
    byte that is left. *)
Definition inv (k : nat) (r : reader) : Prop :=
  sane r ∧ (position_ r ≤ size)%nat ∧ Grow.space (heap_ (evaluator_ r)) (8 * (size - position_ r) + k).

(** A complaint about a place in the source. *)
Definition complaint (e : exception) : Prop := ∃ offset message, e = read_error offset message ∧ (offset ≤ size)%nat.

(** [runs P a r]: [a] ends with a value and a state that satisfy [P], or with a
    complaint. *)
Definition runs {A} (P : A → reader → Prop) (a : reading A) (r : reader) : Prop :=
  wp a (λ res r', match res with Ret x => P x r' | Throw e => complaint e ∧ sane r' end) r.

Lemma ran_ret {A} (P : A → reader → Prop) x r : P x r → runs P (pret x) r.
Proof using Type. intros H. by apply wp_ret. Qed.

Lemma ran_bind {A B} (P : B → reader → Prop) (Q : A → reader → Prop) (a : reading A) (k : A → reading B) r :
  runs Q a r → (∀ x r', Q x r' → runs P (k x) r') → runs P (pbind a k) r.
Proof using Type.
  intros Ha Hk. apply wp_bind. eapply wp_mono; [exact Ha|]. intros [x|e] r' H; [by apply Hk|done].
Qed.

Lemma runs_mono {A} (P Q : A → reader → Prop) a r : runs Q a r → (∀ x r', Q x r' → P x r') → runs P a r.
Proof using Type. intros Ha H. eapply wp_mono; [exact Ha|]. intros [x|e] r'; auto. Qed.

(** [does P a r]: [a] ends with a value and a state that satisfy [P]. *)
Definition does {A} (P : A → reader → Prop) (a : reading A) (r : reader) : Prop := ∃ x r', a r = Some (Ret x, r') ∧ P x r'.

Lemma does_runs {A} (P : A → reader → Prop) a r : does P a r → runs P a r.
Proof using Type. intros (x & r' & Ha & HP). by exists (Ret x), r'. Qed.

Lemma does_ret {A} (P : A → reader → Prop) x r : P x r → does P (pret x) r.
Proof using Type. intros H. by exists x, r. Qed.

Lemma does_bind {A B} (P : B → reader → Prop) (Q : A → reader → Prop) (a : reading A) (k : A → reading B) r :
  does Q a r → (∀ x r', Q x r' → does P (k x) r') → does P (pbind a k) r.
Proof using Type.
  intros (x & r1 & Ha & HQ) Hk. destruct (Hk x r1 HQ) as (y & r2 & Hy & HP). exists y, r2. split; [|done].
  by rewrite (bind_run _ _ _ _ _ Ha).
Qed.

Lemma does_mono {A} (P Q : A → reader → Prop) a r : does Q a r → (∀ x r', Q x r' → P x r') → does P a r.
Proof using Type. intros (x & r' & Ha & H) HP. exists x, r'. auto. Qed.

Lemma runs_gets {A B} (P : B → reader → Prop) (f : reader → A) (k : A → reading B) r : runs P (k (f r)) r → runs P (pbind (gets f) k) r.
Proof using Type. done. Qed.

Lemma runs_fail {A} (P : A → reader → Prop) at_ message r k : inv k r → (at_ ≤ size)%nat → runs P (fail at_ message) r.
Proof using Type. intros [Hs _] Hat. apply wp_throw. split; [|done]. by eexists _, _. Qed.

Lemma inv_le k k' r : inv k r → (k' ≤ k)%nat → inv k' r.
Proof using Type. intros (Hs & Hp & Hsp) Hk. split; [done|]. split; [done|]. eapply space_le; [done|lia]. Qed.

(** What is left of the source. *)
Abbreviation left_ r := (drop (position_ r) source).

(** Moving on over [w] bytes. *)
Definition onward (r r' : reader) : Prop := evaluator_ r' = evaluator_ r ∧ (position_ r ≤ position_ r' ≤ size)%nat.

Lemma onward_inv k r r' : inv k r → onward r r' → inv (k + 8 * (position_ r' - position_ r)) r'.
Proof using Type.
  intros ((D & Hm & He) & Hp & Hsp) [Hev Hpos]. rewrite <- Hev in *. split; [by exists D|]. split; [lia|].
  eapply space_le; [exact Hsp|lia].
Qed.

Lemma onward_refl r : (position_ r ≤ size)%nat → onward r r.
Proof using Type. split; [done|lia]. Qed.

Lemma onward_trans r1 r2 r3 : onward r1 r2 → onward r2 r3 → onward r1 r3.
Proof using Type. intros [E1 P1] [E2 P2]. split; [congruence|lia]. Qed.

Lemma ran_peek {A} (P : A → reader → Prop) (f : Z → reading A) k r : inv k r →
  (∀ c, (c = eof ∧ position_ r = size ∨ c ≠ eof ∧ scalar c ∧ (position_ r + scalar_width c ≤ size)%nat) →
     Unicode.peek (left_ r) = Ret c → runs P (f c) r) →
  runs P (pbind (peek source) f) r.
Proof.
  intros Hi Hf. pose proof Hi as (Hs & Hp & _). unfold runs. apply wp_bind. unfold wp at 1, peek.
  destruct (Unicode.peek (left_ r)) as [c|e] eqn:Hc.
  - eexists _, _. split; [done|]. apply Hf; [|done]. destruct (decide (left_ r = [])) as [Hn|Hn].
    + left. rewrite Hn in Hc. injection Hc as <-. split; [done|]. apply (f_equal length) in Hn. rewrite length_drop in Hn. cbn in Hn. lia.
    + right. destruct (peek_front _ c (Forall_drop _ _ _ Hsource) Hn Hc) as [Hsc [rest Hr]]. split; [|split; [done|]].
      * intros ->. unfold scalar, eof in Hsc. lia.
      * apply (f_equal length) in Hr. rewrite length_drop, length_app, encode_length in Hr. lia.
  - eexists _, _. split; [done|]. split; [|done]. eexists _, _. split; [done|lia].
Qed.

(** A character taken. *)
Definition taken (c : Z) (r r' : reader) : Prop :=
  scalar c ∧ onward r r' ∧ position_ r' = (position_ r + scalar_width c)%nat ∧ Unicode.peek (left_ r) = Ret c.

Lemma ran_take k r : inv k r → runs (λ c r', taken c r r') (take_char source) r.
Proof.
  intros Hi. unfold take_char. apply (ran_peek _ _ k); [done|]. intros c Hc Hpk. unfold here. apply runs_gets.
  destruct (Z.eqb_spec c eof) as [->|Hne]; [apply (runs_fail _ _ _ _ k Hi), Hi|].
  destruct Hc as [[-> _]|(_ & Hs & Hw)]; [done|]. unfold runs. apply wp_bind, wp_modify, wp_ret.
  split; [done|]. split; [split; [done|cbn; pose proof (width_pos c); lia]|done].
Qed.

(** Taking a character that has been seen. *)
Lemma taken_pos c r r' : taken c r r' → onward r r' ∧ (position_ r < position_ r')%nat.
Proof. intros (Hs & Ho & Hp & _). split; [done|]. pose proof (width_pos c). lia. Qed.

Lemma runs_comment fuel : ∀ r k, inv k r → (size - position_ r < fuel)%nat → runs (λ _ r', onward r r') (comment source fuel) r.
Proof.
  induction fuel as [|fuel IH]; intros r k Hi Hf; [lia|]. cbn [comment]. pose proof Hi as (_ & Hp & _).
  apply (ran_peek _ _ k r Hi). intros c _ _. destruct (c =? eof); [by apply ran_ret, onward_refl|].
  eapply ran_bind; [by eapply ran_take|]. intros d r1 Ht. destruct (taken_pos _ _ _ Ht) as [Ho Hlt].
  destruct (d =? 10); [by apply ran_ret|]. eapply runs_mono; [eapply IH; [by eapply onward_inv|]|].
  - pose proof (proj2 Ho); lia.
  - intros [] r2. by apply onward_trans.
Qed.

Lemma runs_space_loop fuel : ∀ r k, inv k r → (size - position_ r < fuel)%nat → runs (λ _ r', onward r r') (space_loop source fuel) r.
Proof.
  induction fuel as [|fuel IH]; intros r k Hi Hf; [lia|]. cbn [space_loop]. pose proof Hi as (_ & Hp & _).
  apply (ran_peek _ _ k r Hi). intros c Hc Hpk. destruct (_ || _ || _).
  { eapply ran_bind; [by eapply ran_take|]. intros d r1 Ht. destruct (taken_pos _ _ _ Ht) as [Ho Hlt].
    eapply runs_mono; [eapply IH; [by eapply onward_inv|]|].
    - pose proof (proj2 Ho); lia.
    - intros [] r2. by apply onward_trans. }
  destruct (Z.eqb_spec c (ch ";")) as [->|]; [|by apply ran_ret, onward_refl].
  apply runs_gets. eapply (ran_bind _ (λ _ r1, onward r r1 ∧ (position_ r < position_ r1)%nat)).
  - unfold turns. cbn [comment]. apply (ran_peek _ _ k r Hi). intros c _ Hpk'. rewrite Hpk in Hpk'. injection Hpk' as <-.
    change (ch ";" =? eof) with false. cbv iota. eapply ran_bind; [by eapply ran_take|]. intros d r1 Ht.
    destruct (taken_pos _ _ _ Ht) as [Ho Hlt]. destruct (d =? 10); [by apply ran_ret|]. destruct Ho as [Hev Hpos].
    eapply runs_mono; [eapply runs_comment; [by eapply onward_inv|lia]|].
    intros [] r2 H2. split; [by eapply onward_trans|destruct H2; lia].
  - intros [] r1 [Ho Hlt]. eapply runs_mono; [eapply IH; [by eapply onward_inv|]|].
    + pose proof (proj2 Ho); lia.
    + intros [] r2. by apply onward_trans.
Qed.

Lemma runs_space r k : inv k r → runs (λ _ r', onward r r') (space source) r.
Proof. intros Hi. unfold space. apply runs_gets. eapply runs_space_loop; [done|unfold turns; lia]. Qed.


(** *** Names and numbers *)

Lemma runs_name_loop fuel : ∀ r k, inv k r → (size - position_ r < fuel)%nat →
  runs (λ _ r', onward r r' ∧ ∀ c, Unicode.peek (left_ r) = Ret c → constituent c = true → (position_ r < position_ r')%nat)
    (name_loop source fuel) r.
Proof.
  induction fuel as [|fuel IH]; intros r k Hi Hf; [lia|]. cbn [name_loop]. pose proof Hi as (_ & Hp & _).
  apply (ran_peek _ _ k r Hi). intros c Hc Hpk. destruct (constituent c) eqn:Hco.
  - eapply ran_bind; [by eapply ran_take|]. intros d r1 Ht. destruct (taken_pos _ _ _ Ht) as [Ho Hlt].
    eapply runs_mono; [eapply IH; [by eapply onward_inv|]|].
    + pose proof (proj2 Ho); lia.
    + intros [] r2 [Ho2 _]. split; [by eapply onward_trans|]. intros _ _ _. pose proof (proj2 Ho2). lia.
  - apply ran_ret. split; [by apply onward_refl|]. intros d Hd. rewrite Hpk in Hd. injection Hd as <-. congruence.
Qed.

Lemma runs_name r k : inv k r →
  runs (λ text r', onward r r' ∧ length text = (position_ r' - position_ r)%nat ∧
      ∀ c, Unicode.peek (left_ r) = Ret c → constituent c = true → (position_ r < position_ r')%nat)
    (name source) r.
Proof.
  intros Hi. unfold name, here. do 2 apply runs_gets. eapply ran_bind; [eapply runs_name_loop; [done|unfold turns; lia]|].
  intros [] r' [Ho Hc]. apply runs_gets, ran_ret. split; [done|]. split; [|done]. pose proof (proj2 Ho).
  unfold between. rewrite length_fmap, length_take, length_drop. lia.
Qed.

Lemma runs_number_loop fuel : ∀ r k result digits, inv k r → (size - position_ r < fuel)%nat → 0 ≤ result ≤ max_fixnum →
  0 ≤ digits ≤ 10 →
  runs (λ v r', onward r r' ∧ 0 ≤ v ≤ max_fixnum ∧
      ∀ c, Unicode.peek (left_ r) = Ret c → digit c = true → (position_ r < position_ r')%nat)
    (number_loop source fuel result digits) r.
Proof.
  pose proof max_fixnum_value as Hmax. induction fuel as [|fuel IH]; intros r k result digits Hi Hf Hr Hd; [lia|].
  cbn [number_loop]. pose proof Hi as (_ & Hp & _). apply (ran_peek _ _ k r Hi). intros c Hc Hpk.
  destruct (digit c) eqn:Hdig.
  - assert (0 ≤ c - 0x30 ≤ 9) as Hcd by (unfold digit in Hdig; lia). unfold here. apply runs_gets.
    rewrite (u32_id (digits + 1)), (u32_id (max_fixnum - (c - 0x30))) by lia.
    destruct (Z.ltb_spec 10 (digits + 1)) as [Hten|Hten]; [apply (runs_fail _ _ _ _ k Hi), Hi|]. cbn [orb].
    destruct (Z.ltb_spec ((max_fixnum - (c - 0x30)) `div` 10) result) as [Hov|Hov]; [apply (runs_fail _ _ _ _ k Hi), Hi|].
    pose proof (Z.mul_div_le (max_fixnum - (c - 0x30)) 10 ltac:(lia)) as Hdiv.
    assert (0 ≤ result * 10 + (c - 0x30) ≤ max_fixnum) as Hnext by lia.
    rewrite (u32_id (result * 10)), u32_id by lia.
    eapply ran_bind; [by eapply ran_take|]. intros d r1 Ht. destruct (taken_pos _ _ _ Ht) as [Ho Hlt].
    eapply runs_mono; [eapply (IH r1); [by eapply onward_inv|pose proof (proj2 Ho); lia|done|lia]|].
    intros v r2 (Ho2 & Hv & _). split; [by eapply onward_trans|]. split; [done|]. intros _ _ _. pose proof (proj2 Ho2). lia.
  - apply ran_ret. split; [by apply onward_refl|]. split; [done|]. intros d Hpd. rewrite Hpk in Hpd. injection Hpd as <-. congruence.
Qed.

(** *** Values *)

Definition held (r : reader) : heap := heap_ (evaluator_ r).

(** A word that may be put in a cell. *)
Definition value_ok (r : reader) (x : Z) : Prop := valid (held r) x ∧ x ≠ zap.

(** The state after an operation: no live value is lost and no source is read twice. *)
Definition went (r r' : reader) : Prop := keeps (held r) (held r') ∧ (position_ r ≤ position_ r')%nat.

Definition yields (k : nat) (r : reader) (x : Z) (r' : reader) : Prop := inv k r' ∧ went r r' ∧ value_ok r' x.

Lemma inv_heap k r : inv k r → heap_ok (held r).
Proof using Type. intros ((D & Hm & _) & _). apply Hm. Qed.

Lemma went_trans r1 r2 r3 : went r1 r2 → went r2 r3 → went r1 r3.
Proof using Type. intros [K1 P1] [K2 P2]. split; [by eapply keeps_trans|lia]. Qed.

Lemma onward_went k r r' : inv k r → onward r r' → went r r'.
Proof using Type. intros Hi [He Hp]. split; [|lia]. unfold held. rewrite He. by apply keeps_refl, (inv_heap k r). Qed.

Lemma value_went r r' x : went r r' → value_ok r x → value_ok r' x.
Proof using Type. intros [Hk _] [Hv Hz]. split; [by apply Hk|done]. Qed.

Lemma went_refl k r : inv k r → went r r.
Proof using Type. intros Hi. apply (onward_went k); [done|]. apply onward_refl, Hi. Qed.

Lemma small_value r n : 0 ≤ n ≤ max_fixnum → value_ok r n.
Proof using Type.
  intros Hn. pose proof max_fixnum_value. split; [|unfold zap; intros ->; vm_compute in Hn; by destruct Hn].
  apply valid_constant; [unfold is_word; lia|]. unfold pointer_word. rewrite tag_of_arith by (unfold is_word; lia).
  by destruct (Z.ltb_spec n (2 ^ 31)); [|lia].
Qed.

(** Running an action of the evaluator. *)
Lemma does_language {A} (P : A → reader → Prop) (a : Package.action A) r x m :
  a (evaluator_ r) = Some (Ret x, m) → P x (set_evaluator m r) → does P (language a) r.
Proof using Type. intros Ha HP. exists x, (set_evaluator m r). split; [unfold language; by rewrite Ha|done]. Qed.

Lemma inv_extends k' r m D D' : machine_ok (evaluator_ r) D ps → extends m0 (evaluator_ r) D0 D → (position_ r ≤ size)%nat →
  named_packages m D' ps → extends (evaluator_ r) m D D' → Grow.space (heap_ m) (8 * (size - position_ r) + k') →
  inv k' (set_evaluator m r) ∧ went r (set_evaluator m r).
Proof using Type.
  intros Hm He Hp Hn Hx Hsp. split; [split; [|done]|split; [apply Hx|done]].
  exists D'. split; [by apply (machine_extends (evaluator_ r) m D)|by eapply extends_trans].
Qed.

(** Allocating rows keeps the packages. *)
Lemma alloc_packages m h D : machine_ok m D ps → keeps (heap_ m) h → rows_kept (heap_ m) h →
  named_packages (set_heap h m) D ps ∧ extends m (set_heap h m) D D.
Proof using Type.
  intros Hm Hk Hr. split.
  - apply (named_packages_keeps m h D); try done; [|apply Hm]. apply (registered_keeps (heap_ m)); [done| |apply Hm].
    intros p Hv Ht. by apply rows_kept_sym.
  - split; [done|done|]. intros q l us Hq. by exists l.
Qed.

Lemma does_alloc {A} (P : A → reader → Prop) (o : op A) r k k' x h : inv k r → o (held r) = (Ret x, h) → keeps (held r) h →
  rows_kept (held r) h → Grow.space h (8 * (size - position_ r) + k') →
  (∀ r', held r' = h → inv k' r' → went r r' → position_ r' = position_ r → P x r') → does P (language (on_heap o)) r.
Proof using Type.
  intros ((D & Hm & He) & Hp & _) Ho Hk Hr Hsp HP. destruct (alloc_packages (evaluator_ r) h D Hm Hk Hr) as [Hn Hx].
  apply (does_language _ _ r x (set_heap h (evaluator_ r))); [unfold on_heap; fold (held r); by rewrite Ho|].
  destruct (inv_extends k' r (set_heap h (evaluator_ r)) D D Hm He Hp Hn Hx Hsp) as [Hi Hw]. by apply HP.
Qed.

Lemma does_cons a d r k : inv (1 + k) r → value_ok r a → valid (held r) d →
  does (λ x r', yields k r x r' ∧ position_ r' = position_ r ∧ hread T_duo x (held r') = Ret [a; d] ∧ tag_of x = T_duo)
    (language (on_heap (Heap.cons a d))) r.
Proof using Type.
  intros Hi [Ha Hz] Hd. pose proof Hi as (_ & Hp & Hsp).
  destruct (cons_made (held r) a d (8 * (size - position_ r) + k) (inv_heap _ _ Hi) Ha Hd Hz) as (x & h & Ho & Hm & Hr & Hs).
  { eapply space_le; [done|lia]. }
  pose proof Hm as (Hk & Hv & Ht & _). apply (does_alloc _ _ r (1 + k) k x h Hi Ho Hk Hr Hs). intros r' Hh Hi' Hw Hp'.
  split; [|split; [done|split; [rewrite Hh; by apply (made_read _ _ _ _ _ Hm)|done]]].
  split; [done|]. split; [done|]. split; [by rewrite Hh|]. apply pointer_not_zap. unfold pointer_word. by rewrite Ht.
Qed.

Lemma does_text bs r k : inv (1 + length bs + k) r →
  does (λ x r', yields k r x r' ∧ position_ r' = position_ r ∧ text_of (held r') x bs) (language (on_heap (newv08 (foreign bs)))) r.
Proof using Type.
  intros Hi. pose proof Hi as (_ & Hp & Hsp).
  destruct (newv08_made (held r) bs (8 * (size - position_ r) + k) (inv_heap _ _ Hi)) as (x & h & Ho & Hk & Hv & Ht & Hs & Hr & Hsp' & _).
  { eapply space_le; [done|lia]. }
  apply (does_alloc _ _ r _ k x h Hi Ho Hk Hr Hsp'). intros r' Hh Hi' Hw Hp'. rewrite <- Hh in *.
  split; [|split; [done|by split]]. split; [done|]. split; [done|]. split; [done|].
  apply pointer_not_zap. unfold pointer_word. by rewrite Ht.
Qed.


(** *** Symbols and strings *)

Lemma named_value r s text : named (held r) s text → value_ok r s.
Proof using Type. intros (Hv & Ht & _). split; [done|]. apply pointer_not_zap. unfold pointer_word. by rewrite Ht. Qed.

Lemma resolve_value r D text p x : machine_ok (evaluator_ r) D ps → is_Some (D !! p) → resolve (evaluator_ r) D text p = Some x →
  value_ok r x ∧ (reserved (evaluator_ r) text p = None → named (held r) x text).
Proof using Type.
  intros Hm Hp Hx. destruct (reserved (evaluator_ r) text p) as [s|] eqn:Hres.
  - split; [|done]. unfold resolve in Hx. rewrite Hres in Hx. injection Hx as <-. unfold reserved in Hres.
    destruct (_ =? _); [|done]. repeat case_decide; try done; injection Hres as <-; (split; [by apply valid_constant|done]).
  - pose proof (resolve_named _ _ _ _ _ (np_dir _ _ _ (mo_packages _ _ _ Hm)) Hp Hres Hx) as Hn. split; [|done].
    by eapply named_value.
Qed.

Lemma does_intern text p r k : inv (3 + length text + k) r → (∀ D, machine_ok (evaluator_ r) D ps → is_Some (D !! p)) →
  does (λ x r', yields k r x r' ∧ position_ r' = position_ r ∧
      ∃ D, machine_ok (evaluator_ r') D ps ∧ extends m0 (evaluator_ r') D0 D ∧ is_Some (D !! p) ∧
        resolve (evaluator_ r') D text p = Some x)
    (language (intern text p)) r.
Proof using Type.
  intros ((D & Hm & He) & Hpos & Hsp) Hp. pose proof (Hp D Hm) as Hd.
  destruct (intern_step (evaluator_ r) D ps text p (8 * (size - position_ r) + k)) as (s & m & D' & Hi & Hn & Hx & Hsp' & Hs);
    [apply Hm|done|eapply space_le; [done|lia]|].
  apply (does_language _ _ r s m Hi). destruct (inv_extends k r m D D' Hm He Hpos Hn Hx Hsp') as [Hinv Hw].
  assert (machine_ok (evaluator_ (set_evaluator m r)) D' ps) as Hm' by (by apply (machine_extends (evaluator_ r) m D)).
  pose proof (extends_some _ _ _ _ p Hx Hd) as Hd'. split; [|split; [done|]].
  - split; [done|]. split; [done|]. by apply (resolve_value _ D' text p).
  - exists D'. split; [done|]. split; [by eapply extends_trans|]. done.
Qed.

Lemma runs_catch {A} (P : A → reader → Prop) start body r : runs P body r → runs P (catch_invalid start body) r.
Proof.
  intros (res & r' & Hb & H). unfold runs, wp, catch_invalid. rewrite Hb. destruct res as [x|e]; [by eexists _, _|].
  destruct H as [(o & msg & -> & Ho) Hs]. eexists _, _. split; [done|]. split; [|done]. by eexists _, _.
Qed.

Lemma current_some r D : machine_ok (evaluator_ r) D ps → is_Some (D !! current_ (evaluator_ r)).
Proof. apply mo_current. Qed.

(** Each form is read with a unit to spare, from what its own bytes pay. *)
Lemma runs_symbol c r k : inv k r → Unicode.peek (left_ r) = Ret c → constituent c = true →
  runs (λ x r', yields (k + 1) r x r' ∧ (position_ r < position_ r')%nat) (symbol source) r.
Proof.
  intros Hi Hc Hcon. unfold symbol, here. apply runs_gets. eapply ran_bind; [by eapply runs_name|].
  intros text r1 (Ho & Hlen & Hlt). specialize (Hlt c Hc Hcon). pose proof (onward_inv k r r1 Hi Ho) as Hi1.
  pose proof (onward_went k r r1 Hi Ho) as Hw1. pose proof (proj2 Ho) as Hpos.
  assert (∀ x r', yields (k + 1) r1 x r' ∧ position_ r' = position_ r1 ∧ True →
    yields (k + 1) r x r' ∧ (position_ r < position_ r')%nat) as Hdone.
  { intros x r' ((H1 & H2 & H3) & H4 & _). split; [split; [done|split; [by eapply went_trans|done]]|lia]. }
  apply runs_catch. destruct (find_from (ch ":") 0 text) as [colon|] eqn:Hcol.
  - apply find_from_lt in Hcol. destruct (find_from (ch ":") (colon + 1) text) as [extra|] eqn:Hex.
    { apply find_from_lt in Hex. apply (runs_fail _ _ _ _ _ Hi1). lia. }
    pose proof Hi1 as ((D & Hm & He) & Hp1 & Hsp).
    eapply (ran_bind _ (λ p r2, r2 = r1 ∧ p = default nil (assoc (take colon text) ps))).
    { eapply does_runs, does_language; [by apply (find_package_ok _ D _ ps), Hm|]. split; [|done]. by destruct r1. }
    intros p r2 [-> Hp]. destruct (Z.eqb_spec p nil) as [->|Hne]; [apply (runs_fail _ _ _ _ _ Hi1); lia|].
    eapply runs_mono; [eapply does_runs, (does_intern _ p r1 (k + 1))|intros x r' (H1 & H2 & _); by apply Hdone].
    + eapply inv_le; [exact Hi1|]. rewrite length_drop. lia.
    + intros D' Hm'. destruct (assoc (take colon text) ps) as [q|] eqn:Hq; [|done]. change (default nil (Some q)) with q in Hp. subst q.
      apply assoc_some in Hq. exact (np_known _ _ _ (mo_packages _ _ _ Hm') _ Hq).
  - apply runs_gets. eapply runs_mono; [eapply does_runs, (does_intern text _ r1 (k + 1))|intros x r' (H1 & H2 & _); by apply Hdone].
    + eapply inv_le; [exact Hi1|]. lia.
    + intros D'. by apply mo_current.
Qed.

Lemma runs_string_loop fuel : ∀ r k text, inv (k + 2 + length text) r → (size - position_ r < fuel)%nat →
  runs (λ x r', yields (k + 1) r x r' ∧ (position_ r < position_ r')%nat) (string_loop source fuel text) r.
Proof.
  induction fuel as [|fuel IH]; intros r k text Hi Hf; [lia|]. cbn [string_loop]. unfold here. apply runs_gets.
  assert (∀ c r1 r2, taken c r r1 → onward r1 r2 → ∀ text', (length text' ≤ length text + (position_ r2 - position_ r))%nat →
    runs (λ x r', yields (k + 1) r x r' ∧ (position_ r < position_ r')%nat) (string_loop source fuel text') r2) as Hloop.
  { intros c r1 r2 Ht Ho text' Hl. destruct (taken_pos _ _ _ Ht) as [Ho1 Hlt]. pose proof (onward_trans _ _ _ Ho1 Ho) as Ho2.
    pose proof (proj2 Ho2) as Hp2. pose proof (proj2 Ho) as Hp1.
    eapply runs_mono; [eapply (IH r2 k text'); [eapply inv_le; [by eapply onward_inv|lia]|lia]|].
    intros x r' ((H1 & H2 & H3) & H4). split; [|lia]. split; [done|]. split; [|done].
    eapply went_trans; [by eapply onward_went|done]. }
  eapply ran_bind; [by eapply ran_take|]. intros c r1 Ht. destruct (taken_pos _ _ _ Ht) as [Ho Hlt].
  pose proof (onward_inv _ _ _ Hi Ho) as Hi1. pose proof (proj2 Ho) as Hp1. destruct (c =? dquote).
  { eapply runs_mono; [eapply does_runs, (does_text text r1 (k + 1)); eapply inv_le; [done|lia]|].
    intros x r' ((H1 & H2 & H3) & H4 & _). split; [|lia]. split; [done|]. split; [|done].
    eapply went_trans; [by eapply onward_went|done]. }
  destruct (negb (c =? ch "\")).
  { apply runs_gets. apply (Hloop c r1 r1 Ht); [apply onward_refl; lia|]. unfold between.
    rewrite length_app, length_take, length_drop. lia. }
  apply runs_gets. eapply ran_bind; [by eapply ran_take|]. intros e r2 Ht2. destruct (taken_pos _ _ _ Ht2) as [Ho2 Hlt2].
  pose proof (onward_inv _ _ _ Hi1 Ho2) as Hi2. pose proof (proj2 Ho2) as Hp2.
  destruct (e =? ch "n"); [apply (Hloop c r1 r2 Ht Ho2); rewrite length_app; cbn; lia|].
  destruct (e =? dquote); [apply (Hloop c r1 r2 Ht Ho2); rewrite length_app; cbn; lia|].
  destruct (e =? ch "\"); [apply (Hloop c r1 r2 Ht Ho2); rewrite length_app; cbn; lia|].
  apply (runs_fail _ _ _ _ _ Hi2). lia.
Qed.

Lemma runs_string r k : inv k r → runs (λ x r', yields (k + 1) r x r' ∧ (position_ r < position_ r')%nat) (string_form source) r.
Proof.
  intros Hi. unfold string_form. eapply ran_bind; [by eapply ran_take|]. intros c r1 Ht. destruct (taken_pos _ _ _ Ht) as [Ho Hlt].
  apply runs_gets. pose proof (proj2 Ho) as Hp1. eapply runs_mono; [eapply (runs_string_loop _ r1 k)|].
  - eapply inv_le; [by eapply onward_inv|cbn; lia].
  - unfold turns. lia.
  - intros x r' ((H1 & H2 & H3) & H4). split; [|lia]. split; [done|]. split; [|done]. eapply went_trans; [by eapply onward_went|done].
Qed.


(** *** Frames *)

Definition frame_ok (r : reader) (f : frame) : Prop := value_ok r (suffix f) ∧ Forall (value_ok r) (items f).

(** The cells and words that closing the frame allocates. *)
Definition weight (f : frame) : nat := match type f with K_quote => 2 | _ => 1 + length (items f) end.

Definition weights (stack : list frame) : nat := sum_list_with weight stack.

Lemma frame_went r r' f : went r r' → frame_ok r f → frame_ok r' f.
Proof using Type.
  intros Hw [Hs Hi]. split; [by eapply value_went|]. eapply Forall_impl; [exact Hi|]. intros x. by apply value_went.
Qed.

Lemma frames_went r r' st : went r r' → Forall (frame_ok r) st → Forall (frame_ok r') st.
Proof using Type. intros Hw H. eapply Forall_impl; [exact H|]. intros f. by apply frame_went. Qed.

Lemma constant_value r x : is_word x → pointer_word x = false → x ≠ zap → value_ok r x.
Proof using Type. intros Hw Hp Hz. split; [by apply valid_constant|done]. Qed.

Lemma empty_frame r t x : value_ok r x → frame_ok r (MkFrame t x []).
Proof using Type. intros Hx. split; [done|apply Forall_nil_2]. Qed.

Lemma does_cons_all xs v k : ∀ r, inv (length xs + k) r → Forall (value_ok r) xs → value_ok r v →
  does (λ x r', yields k r x r' ∧ position_ r' = position_ r ∧ chain (held r') x xs v) (cons_all xs v) r.
Proof using Type.
  induction xs as [|x xs IH] in k |- *; intros r Hi Hxs Hv; cbn [cons_all].
  { apply does_ret. split; [|done]. split; [done|]. split; [by eapply went_refl|done]. }
  apply Forall_cons in Hxs as [Hx Hxs]. eapply does_bind; [apply (IH (1 + k)%nat r); try done; eapply inv_le; [done|cbn; lia]|].
  intros rest r1 ((Hi1 & Hw1 & Hr1) & Hp1 & Hc1).
  eapply does_mono; [apply (does_cons x rest r1 k Hi1); [by eapply value_went|apply Hr1]|].
  intros y r2 ((Hi2 & Hw2 & Hy) & Hp2 & Hr2 & Ht2). split; [split; [done|]; split; [by eapply went_trans|done]|].
  split; [congruence|]. exists rest. split; [apply Hy|]. split; [done|]. split; [done|]. eapply chain_keeps; [apply Hw2|done].
Qed.

Lemma does_vector xs r k : inv (1 + length xs + k) r → Forall (value_ok r) xs →
  does (λ x r', yields k r x r' ∧ position_ r' = position_ r) (language (on_heap (newv32 (foreign xs)))) r.
Proof using Type.
  intros Hi Hxs. pose proof Hi as (_ & Hp & Hsp).
  destruct (newv32_made (held r) xs (8 * (size - position_ r) + k) (inv_heap _ _ Hi)) as (x & h & Ho & Hk & Hv & Ht & Hs & Hr & Hsp' & _).
  { eapply Forall_impl; [exact Hxs|]. by intros y []. }
  { eapply space_le; [done|lia]. }
  apply (does_alloc _ _ r _ k x h Hi Ho Hk Hr Hsp'). intros r' Hh Hi' Hw Hp'. split; [|done].
  split; [done|]. split; [done|]. split; [by rewrite Hh|]. apply pointer_not_zap. unfold pointer_word. by rewrite Ht.
Qed.

(** What a turn leaves: a place further on, the values of the frames that are open, and
    what they will allocate; one unit more with a value to put in a frame. *)
Definition further (k : nat) (r : reader) (o : outcome) (r' : reader) : Prop :=
  went r r' ∧
  match o with
  | O_eof => inv k r' ∧ position_ r' = size
  | O_again st => inv (k + weights st) r' ∧ Forall (frame_ok r') st ∧ (position_ r < position_ r')%nat
  | O_value v st => inv (k + weights st + 1) r' ∧ Forall (frame_ok r') st ∧ value_ok r' v ∧ (position_ r < position_ r')%nat
  end.

Lemma further_went k r1 r2 o r3 : went r1 r2 → further k r2 o r3 → further k r1 o r3.
Proof.
  intros Hw [Hw' Ho]. split; [by eapply went_trans|]. pose proof (proj2 Hw). destruct o as [|st|v st]; [done|..].
  - destruct Ho as (H1 & H2 & H3). split; [done|]. split; [done|lia].
  - destruct Ho as (H1 & H2 & H3 & H4). split; [done|]. split; [done|]. split; [done|lia].
Qed.

(** A value read with a unit to spare. *)
Lemma further_value k r st x r' : Forall (frame_ok r) st → yields (k + weights st + 1) r x r' → (position_ r < position_ r')%nat →
  further k r (O_value x st) r'.
Proof.
  intros Hst (Hi & Hw & Hx) Hp. split; [done|]. split; [done|]. split; [by eapply frames_went|done].
Qed.

(** A new frame, paid by the byte that opens it. *)
Lemma further_open k r st f r' : inv (k + weights st) r → Forall (frame_ok r) st → onward r r' → (position_ r < position_ r')%nat →
  frame_ok r' f → (weight f ≤ 8)%nat → further k r (O_again (f :: st)) r'.
Proof.
  intros Hi Hst Ho Hp Hf Hwt. pose proof (onward_went _ _ _ Hi Ho) as Hw. split; [done|].
  split; [eapply inv_le; [by eapply onward_inv|]; change (weights (f :: st)) with (weight f + weights st)%nat; lia|].
  split; [|done]. apply Forall_cons_2; [done|]. by eapply frames_went.
Qed.

Lemma known_value i name r : (∃ k, inv k r) → known_names !! i = Some name → value_ok r (nth i (known_ (evaluator_ r)) 0).
Proof.
  intros [k ((D & Hm & _) & _)] Hi. destruct (Forall2_lookup_l _ _ _ _ _ (mo_known _ _ _ Hm) Hi) as (s & Hs & Ha).
  rewrite (nth_lookup_Some _ _ 0 s Hs). apply (named_value r s name).
  apply (resolve_named _ D name (base_ (evaluator_ r))); [apply Hm|apply Hm|apply jet_not_reserved, (Forall_lookup_1 _ _ _ _ known_jets Hi)|].
  destruct (mo_base _ _ _ Hm) as [[l us] Hb]. rewrite (resolve_at _ _ _ _ l us Hb), jet_not_reserved, assoc_app.
  - revert Ha. unfold own at 1. rewrite Hb. change (default [] (fst <$> Some (l, us))) with l. by intros ->.
  - apply (Forall_lookup_1 _ _ _ _ known_jets Hi).
Qed.

Lemma runs_close f c st r k : inv (k + weights (f :: st)) r → Forall (frame_ok r) (f :: st) → type f ≠ K_quote →
  runs (further k r) (close source f c st) r.
Proof.
  intros Hi Hst Hq. unfold close, here. apply runs_gets. destruct (_ && _); [apply (runs_fail _ _ _ _ _ Hi), Hi|].
  eapply ran_bind; [by eapply ran_take|]. intros d r1 Ht. destruct (taken_pos _ _ _ Ht) as [Ho Hlt].
  pose proof (onward_inv _ _ _ Hi Ho) as Hi1. pose proof (onward_went _ _ _ Hi Ho) as Hw1.
  assert (weights (f :: st) = 1 + length (items f) + weights st)%nat as Hwt.
  { unfold weights. cbn. unfold weight. by destruct (type f). }
  rewrite Hwt in Hi1. pose proof (frames_went _ _ _ Hw1 Hst) as Hst1. apply Forall_cons in Hst1 as [[Hsuf Hitems] Hst1].
  assert (∀ x r', yields (k + weights st + 1) r1 x r' ∧ position_ r' = position_ r1 → runs (further k r) (pret (O_value x st)) r') as Hend.
  { intros x r' [(H1 & H2 & H3) H4]. apply ran_ret. split; [by eapply went_trans|]. split; [done|].
    split; [by eapply frames_went|]. split; [done|lia]. }
  eapply (ran_bind _ (λ x r', yields (k + weights st + 1) r1 x r' ∧ position_ r' = position_ r1)); [|done].
  case_bool_decide.
  - apply does_runs, does_vector; [eapply inv_le; [done|lia]|done].
  - eapply runs_mono; [apply does_runs, (does_cons_all _ _ (k + weights st + 1)); [eapply inv_le; [done|lia]|done..]|].
    intros x r' (H1 & H2 & _). done.
Qed.

Lemma runs_dispatch st r k : inv (k + weights st) r → Forall (frame_ok r) st → runs (further k r) (dispatch source st) r.
Proof.
  intros Hi Hst. unfold dispatch. eapply ran_bind; [by eapply ran_take|]. intros c0 r1 Ht. destruct (taken_pos _ _ _ Ht) as [Ho Hlt].
  pose proof (onward_inv _ _ _ Hi Ho) as Hi1. unfold here. apply runs_gets.
  eapply ran_bind; [by eapply ran_take|]. intros c r2 Ht2. destruct (taken_pos _ _ _ Ht2) as [Ho2 Hlt2].
  pose proof (onward_trans _ _ _ Ho Ho2) as Ho02. pose proof (onward_inv _ _ _ Hi Ho02) as Hi2.
  pose proof (onward_went _ _ _ Hi Ho02) as Hw2. pose proof (proj2 Ho02) as Hp2.
  destruct (c =? ch ":").
  { eapply ran_bind; [by eapply runs_name|]. intros text r3 (Ho3 & Hlen & _). pose proof (onward_inv _ _ _ Hi2 Ho3) as Hi3.
    pose proof (onward_went _ _ _ Hi2 Ho3) as Hw3. pose proof (proj2 Ho3) as Hp3.
    eapply ran_bind; [apply does_runs, (does_text text r3 (k + weights st + 2)); eapply inv_le; [done|lia]|].
    intros s r4 ((Hi4 & Hw4 & Hs) & Hp4 & _ & Hts & _). pose proof Hi4 as (_ & _ & Hsp4).
    destruct (make_space (held r4) T_sym [s; nil; nah; nil; nil] (8 * (size - position_ r4) + (k + weights st + 1)))
      as (x & h & Hmk & Hm & Hr & Hsp); try done; [by eapply inv_heap| |eapply space_le; [done|lia]|].
    { apply row_valid; try done; [|apply Hs]. apply Forall_cons_2; [apply Hs|].
      repeat (apply Forall_cons_2; [by apply valid_constant|]). apply Forall_nil_2. }
    pose proof Hm as (Hk & Hv & Htx & _).
    eapply ran_bind; [eapply does_runs, (does_alloc (λ y r5, yields (k + weights st + 1) r4 y r5 ∧ position_ r5 = position_ r4) _ r4 _ _ x h Hi4 Hmk Hk Hr Hsp)|].
    - intros r5 Hh Hi5 Hw5 Hp5. split; [|done]. split; [done|]. split; [done|]. split; [by rewrite Hh|].
      apply pointer_not_zap. unfold pointer_word. by rewrite Htx.
    - intros y r5 [(Hi5 & Hw5 & Hy) Hp5]. apply ran_ret, further_value; [done| |lia]. split; [done|]. split; [|done].
      eapply went_trans; [exact Hw2|]. eapply went_trans; [exact Hw3|]. by eapply went_trans. }
  destruct (c =? ch "\").
  { eapply ran_bind; [by eapply ran_take|]. intros x r3 Ht3. destruct (taken_pos _ _ _ Ht3) as [Ho3 Hlt3].
    pose proof (onward_inv _ _ _ Hi2 Ho3) as Hi3. pose proof (proj1 Ht3) as Hsc.
    destruct (immediate_parts T_chr x ltac:(done)) as (Hw & Htag & _); [unfold scalar in Hsc; lia|].
    apply ran_ret, further_value; [done| |lia]. split; [eapply inv_le; [done|lia]|]. split; [eapply went_trans; [done|by eapply onward_went]|].
    apply constant_value; [done|unfold pointer_word; by rewrite Htag|]. intros E. rewrite E in Htag. by vm_compute in Htag. }
  destruct (c =? ch "'").
  { apply runs_gets, ran_ret. eapply further_open; [done|done|done|lia| |cbn; lia]. apply empty_frame.
    change (known "FUNCTION" (evaluator_ r2)) with (nth 4 (known_ (evaluator_ r2)) 0). eapply known_value; [by eexists|reflexivity]. }
  apply (runs_fail _ _ _ _ _ Hi2). lia.
Qed.

Lemma runs_quoted c st r k : inv (k + weights st) r → Forall (frame_ok r) st → runs (further k r) (quoted source c st) r.
Proof.
  intros Hi Hst. unfold quoted. eapply ran_bind; [by eapply ran_take|]. intros c0 r1 Ht. destruct (taken_pos _ _ _ Ht) as [Ho Hlt].
  pose proof (onward_inv _ _ _ Hi Ho) as Hi1. apply runs_gets.
  assert (∀ i name, known_names !! i = Some name → value_ok r1 (nth i (known_ (evaluator_ r1)) 0)) as Hkn.
  { intros i name. apply known_value. by eexists. }
  assert (value_ok r1 (if c =? ch "'" then known "QUOTE" (evaluator_ r1) else if c =? ch "`" then known "BACKQUOTE" (evaluator_ r1)
    else known "UNQUOTE" (evaluator_ r1))) as Hop.
  { destruct (c =? ch "'"); [by eapply (Hkn 0%nat)|]. destruct (c =? ch "`"); [by eapply (Hkn 1%nat)|by eapply (Hkn 2%nat)]. }
  assert (∀ op, value_ok r1 op → runs (further k r) (pret (O_again (MkFrame K_quote op [] :: st))) r1) as Hend.
  { intros op Hv. apply ran_ret. eapply further_open; [done|done|done|lia|by apply empty_frame|cbn; lia]. }
  destruct (c =? ch ","); [|by apply Hend]. apply (ran_peek _ _ _ r1 Hi1). intros d _ _.
  destruct (d =? ch "@"); [|by apply Hend]. eapply ran_bind; [by eapply ran_take|]. intros e r2 Ht2.
  destruct (taken_pos _ _ _ Ht2) as [Ho2 Hlt2]. apply ran_ret.
  eapply further_open; [done|done|by eapply onward_trans|lia| |cbn; lia]. apply empty_frame.
  eapply value_went; [by eapply onward_went|]. by eapply (Hkn 3%nat).
Qed.


Lemma runs_eq {A} (P : A → reader → Prop) a b r : a r = b r → runs P b r → runs P a r.
Proof. intros E. unfold runs, wp. by rewrite E. Qed.

Lemma runs_keyword st r k : inv (k + weights st) r → Forall (frame_ok r) st → runs (further k r) (keyword_form source st) r.
Proof.
  intros Hi Hst. unfold keyword_form. eapply ran_bind; [by eapply ran_take|]. intros c r1 Ht. destruct (taken_pos _ _ _ Ht) as [Ho Hlt].
  pose proof (onward_inv _ _ _ Hi Ho) as Hi1. eapply ran_bind; [by eapply runs_name|]. intros text r2 (Ho2 & Hlen & _).
  pose proof (onward_trans _ _ _ Ho Ho2) as Ho02. pose proof (onward_inv _ _ _ Hi Ho02) as Hi2.
  pose proof (onward_went _ _ _ Hi Ho02) as Hw2. pose proof (proj2 Ho02) as Hp2.
  eapply (ran_bind _ (λ s r3, yields (k + weights st + 1) r2 s r3 ∧ position_ r3 = position_ r2 ∧ tag_of s = T_sym)).
  { apply (runs_eq _ _ (language (intern text (keywords_ (evaluator_ r2))))); [done|].
    eapply runs_mono; [eapply does_runs, (does_intern text _ r2 (k + weights st + 1))|].
    - pose proof (proj2 Ho2). eapply inv_le; [done|lia].
    - intros D. apply mo_keywords.
    - intros s r3 (Hy & Hp & D & Hm & He & Hd & Hs). split; [done|]. split; [done|].
      destruct (resolve_value r3 D text _ s Hm Hd Hs) as [_ Hn]. destruct Hn as (_ & Hts & _); [|done].
      unfold reserved. pose proof (mo_apart _ _ _ Hm) as Hap.
      destruct (extends_base _ _ _ _ He) as (_ & Ek & _). destruct Hi2 as ((D2 & Hm2 & He2) & _).
      destruct (extends_base _ _ _ _ He2) as (_ & Ek2 & _).
      destruct (Z.eqb_spec (keywords_ (evaluator_ r2)) (base_ (evaluator_ r3))) as [E|]; [|done]. congruence. }
  intros s r3 (Hy & Hp3 & Hts). pose proof Hy as (Hi3 & Hw3 & Hvs). pose proof Hi3 as ((D & Hm & He) & Hpos & Hsp).
  destruct (symbol_write (evaluator_ r3) D ps s F_val 2 s (8 * (size - position_ r3) + (k + weights st + 1)))
    as (h & Hset & Hn & Hx & Hsp' & _); try done; [apply Hm|apply Hvs|apply Hvs|].
  eapply (ran_bind _ (λ _ r4, inv (k + weights st + 1) r4 ∧ went r3 r4 ∧ position_ r4 = position_ r3)).
  { eapply does_runs, does_language; [unfold on_heap; by rewrite Hset|]. 
    destruct (inv_extends (k + weights st + 1) r3 (set_heap h (evaluator_ r3)) D D Hm He Hpos Hn Hx Hsp') as [Hi4 Hw4]. done. }
  intros [] r4 (Hi4 & Hw4 & Hp4). pose proof (proj2 Ho2) as Hp12. apply ran_ret, further_value; [done| |lia]. split; [done|].
  split; [|by eapply value_went]. eapply went_trans; [exact Hw2|]. by eapply went_trans.
Qed.

Lemma runs_start_form c st r k : inv (k + weights st) r → Forall (frame_ok r) st → Unicode.peek (left_ r) = Ret c →
  runs (further k r) (start_form source c st) r.
Proof.
  intros Hi Hst Hc. unfold start_form. destruct (_ || _).
  { eapply ran_bind; [by eapply ran_take|]. intros d r1 Ht. destruct (taken_pos _ _ _ Ht) as [Ho Hlt].
    apply ran_ret. eapply further_open; [done|done|done|lia| |destruct (c =? ch "("); cbn; lia].
    apply empty_frame. by apply constant_value. }
  destruct (_ || _); [by apply runs_quoted|]. destruct (c =? ch "#"); [by apply runs_dispatch|].
  destruct (c =? ch ":"); [by apply runs_keyword|].
  assert (∀ x r', yields (k + weights st + 1) r x r' ∧ (position_ r < position_ r')%nat → runs (further k r) (pret (O_value x st)) r') as Hend.
  { intros x r' [Hy Hp]. by apply ran_ret, further_value. }
  destruct (c =? dquote); [eapply ran_bind; [by apply runs_string|done]|].
  destruct (digit c) eqn:Hd.
  { eapply ran_bind; [|exact Hend]. unfold number. apply runs_gets.
    eapply runs_mono; [apply (runs_number_loop _ r _ 0 0 Hi); [unfold turns; lia|vm_compute; split; discriminate|lia]|].
    intros v r' (Ho & Hv & Hlt). specialize (Hlt c Hc Hd). split; [|done].
    split; [eapply inv_le; [by eapply onward_inv|lia]|]. split; [by eapply onward_went|by apply small_value]. }
  destruct (constituent c) eqn:Hco; [eapply ran_bind; [by eapply runs_symbol|done]|].
  unfold here. apply runs_gets, (runs_fail _ _ _ _ _ Hi), Hi.
Qed.

Lemma runs_turn st r k : inv (k + weights st) r → Forall (frame_ok r) st → runs (further k r) (turn source st) r.
Proof.
  intros Hi Hst. unfold turn. eapply ran_bind; [by eapply runs_space|]. intros [] r1 Ho.
  pose proof (inv_le _ (k + weights st) _ (onward_inv _ _ _ Hi Ho) ltac:(lia)) as Hi1. pose proof (onward_went _ _ _ Hi Ho) as Hw1.
  pose proof (frames_went _ _ _ Hw1 Hst) as Hst1. apply (runs_mono _ (further k r1)); [|intros o r'; by apply further_went].
  apply (ran_peek _ _ _ r1 Hi1). intros c Hc Hpk. unfold here. apply runs_gets.
  destruct (Z.eqb_spec c eof) as [->|Hne].
  { destruct st as [|f st]; [|apply (runs_fail _ _ _ _ _ Hi1), Hi1]. apply ran_ret. split; [by eapply went_refl|].
    split; [eapply inv_le; [done|lia]|]. by destruct Hc as [[]|[]]. }
  destruct st as [|f outer]; [by apply runs_start_form|]. destruct (closes f c) eqn:Hcl.
  { apply runs_close; [done|done|]. intros E. unfold closes in Hcl. rewrite E in Hcl. done. }
  case_bool_decide as Hl; cbn [andb]; [|by apply runs_start_form]. destruct (c =? ch "."); [|by apply runs_start_form].
  eapply ran_bind; [by eapply ran_take|]. intros d r2 Ht. destruct (taken_pos _ _ _ Ht) as [Ho2 Hlt].
  pose proof (onward_went _ _ _ Hi1 Ho2) as Hw2. apply ran_ret. split; [done|].
  split; [|split; [|done]].
  - assert (weights (MkFrame K_tail (suffix f) (items f) :: outer) = weights (f :: outer)) as ->.
    { unfold weights. cbn. unfold weight. by rewrite Hl. }
    eapply inv_le; [by eapply onward_inv|lia].
  - apply (frames_went _ _ _ Hw2) in Hst1. apply Forall_cons in Hst1 as [Hf Hout]. by apply Forall_cons_2.
Qed.

Lemma does_settle st k : ∀ v r, inv (k + weights st + 1) r → Forall (frame_ok r) st → value_ok r v →
  does (λ s r', went r r' ∧ position_ r' = position_ r ∧
      match s with inl x => inv k r' ∧ value_ok r' x | inr st' => inv (k + weights st') r' ∧ Forall (frame_ok r') st' end)
    (settle v st) r.
Proof using Type.
  induction st as [|f st IH]; intros v r Hi Hst Hv; cbn [settle].
  { apply does_ret. split; [by eapply went_refl|]. split; [done|]. split; [eapply inv_le; [done|lia]|done]. }
  change (weights (f :: st)) with (weight f + weights st)%nat in Hi. apply Forall_cons in Hst as [[Hsuf Hitems] Hst].
  assert (type f ≠ K_quote → type f ≠ K_tail → does (λ s r', went r r' ∧ position_ r' = position_ r ∧
      match s with inl x => inv k r' ∧ value_ok r' x | inr st' => inv (k + weights st') r' ∧ Forall (frame_ok r') st' end)
    (pret (inr (MkFrame (type f) (suffix f) (items f ++ [v]) :: st))) r) as Hpush.
  { intros H1 H2. apply does_ret. split; [by eapply went_refl|]. split; [done|]. split.
    - eapply inv_le; [done|]. unfold weights. cbn. unfold weight. cbn. rewrite length_app. cbn. destruct (type f); try done; lia.
    - apply Forall_cons_2; [|done]. split; [done|]. by apply Forall_app_2; [|apply Forall_singleton]. }
  destruct (type f) eqn:Ht; try (by apply Hpush).
  - assert (weight f = 2)%nat as Hwt by (unfold weight; by rewrite Ht). rewrite Hwt in Hi.
    eapply does_bind; [apply (does_cons v nil r (k + weights st + 2)); [eapply inv_le; [done|lia]|done|by apply valid_constant]|].
    intros inner r1 ((Hi1 & Hw1 & Hv1) & Hp1 & _).
    eapply does_bind; [apply (does_cons (suffix f) inner r1 (k + weights st + 1)); [eapply inv_le; [done|lia]|by eapply value_went|apply Hv1]|].
    intros v2 r2 ((Hi2 & Hw2 & Hv2) & Hp2 & _).
    eapply does_mono; [apply (IH v2 r2); [done|by eapply frames_went; [|eapply frames_went]|done]|].
    intros s r3 (Hw3 & Hp3 & Hs). split; [eapply went_trans; [done|by eapply went_trans]|]. split; [congruence|done].
  - apply does_ret. split; [by eapply went_refl|]. split; [done|]. split.
    + eapply inv_le; [done|]. unfold weights. cbn. unfold weight. rewrite Ht. cbn. lia.
    + apply Forall_cons_2; [|done]. by split.
Qed.

Lemma runs_form_loop fuel k : ∀ st r, inv (k + weights st) r → Forall (frame_ok r) st → (size - position_ r < fuel)%nat →
  runs (λ o r', went r r' ∧ inv k r' ∧ match o with None => position_ r' = size | Some x => value_ok r' x ∧ (position_ r < position_ r')%nat end)
    (form_loop source fuel st) r.
Proof.
  induction fuel as [|fuel IH]; intros st r Hi Hst Hf; [lia|]. cbn [form_loop]. eapply ran_bind; [by apply runs_turn|].
  assert (∀ r1 st', went r r1 → inv (k + weights st') r1 → Forall (frame_ok r1) st' → (position_ r < position_ r1)%nat →
    runs (λ o r', went r r' ∧ inv k r' ∧ match o with None => position_ r' = size | Some x => value_ok r' x ∧ (position_ r < position_ r')%nat end)
      (form_loop source fuel st') r1) as Hloop.
  { intros r1 st' Hw Hi1 Hst1 Hp. pose proof Hi1 as (_ & Hpos & _). eapply runs_mono; [apply (IH st' r1 Hi1 Hst1); lia|].
    intros o r2 (Hw2 & Hi2 & Ho). split; [by eapply went_trans|]. split; [done|]. destruct o; [|done]. destruct Ho. split; [done|lia]. }
  intros [|st'|v st'] r1 [Hw Ho].
  - destruct Ho as [Hi1 Hp]. by apply ran_ret.
  - destruct Ho as (Hi1 & Hst1 & Hp). by apply Hloop.
  - destruct Ho as (Hi1 & Hst1 & Hv & Hp). eapply ran_bind; [by apply does_runs, (does_settle st' k)|].
    intros [x|st2] r2 (Hw2 & Hp2 & Hs).
    + destruct Hs as [Hi2 Hx]. apply ran_ret. split; [by eapply went_trans|]. split; [done|]. split; [done|lia].
    + destruct Hs as [Hi2 Hst2]. apply Hloop; [by eapply went_trans|done|done|lia].
Qed.


Lemma runs_located {A} (P : A → reader → Prop) body r : runs P body r → runs P (located source path body) r.
Proof.
  intros (res & r' & Hb & H). unfold runs, wp, located. rewrite Hb. destruct res as [x|e]; [by eexists _, _|].
  destruct H as [(o & msg & -> & Ho) Hs]. unfold source_location. destruct (Nat.ltb_spec size o); [lia|].
  eexists _, _. split; [done|]. split; [|done]. by eexists _, _.
Qed.

Lemma runs_next r k : inv k r →
  runs (λ o r', went r r' ∧ inv k r' ∧ match o with None => position_ r' = size | Some x => value_ok r' x ∧ (position_ r < position_ r')%nat end)
    (next source path) r.
Proof.
  intros Hi. apply runs_located. eapply ran_bind; [by eapply runs_space|]. intros [] r1 Ho. unfold here. apply runs_gets.
  set (r2 := set_form_position (position_ r1) r1).
  eapply (ran_bind _ (λ _ r', r' = r2)); [by apply wp_modify|]. intros [] _ ->.
  assert (onward r r2) as Ho2 by exact Ho. pose proof (onward_went _ _ _ Hi Ho2) as Hw2. pose proof (proj2 Ho2) as Hp2.
  unfold form. apply runs_gets. eapply runs_mono; [apply (runs_form_loop _ k [] r2)|].
  - eapply inv_le; [by eapply onward_inv|cbn; lia].
  - apply Forall_nil_2.
  - unfold turns. lia.
  - intros o r' (Hw & Hi' & Hx). split; [by eapply went_trans|]. split; [done|]. destruct o; [|done]. destruct Hx. split; [done|lia].
Qed.
End sound.

(** C28: Reading a form is safe and ends: from a machine in order and with eight units of
    space for each byte of source that is left, [next] gives a live value and a place
    further on, or the end of the source, or an error about a place in the source,
    whatever bytes the source has; never a failure of the heap or of a package. The
    machine is still in order after it, with the symbols it had, and there is as much
    space for the rest. *)
Theorem read_next_safe source path m D ps r n : Forall is_byte source → machine_ok m D ps → evaluator_ r = m →
  (position_ r ≤ length source)%nat → Grow.space (heap_ m) (8 * (length source - position_ r) + n) →
  ∃ res r' D', next source path r = Some (res, r') ∧ machine_ok (evaluator_ r') D' ps ∧ extends m (evaluator_ r') D D' ∧
  match res with
  | Ret (Some x) =>
      valid (heap_ (evaluator_ r')) x ∧ (position_ r < position_ r' ≤ length source)%nat ∧
      Grow.space (heap_ (evaluator_ r')) (8 * (length source - position_ r') + n)
  | Ret None => position_ r' = length source
  | Throw e => ∃ offset message, e = read_error offset message ∧ (offset ≤ length source)%nat
  end.
Proof.
  intros Hs Hm <- Hp Hsp.
  assert (inv source (evaluator_ r) D ps n r) as Hi.
  { split; [|done]. exists D. split; [done|]. apply extends_same, Hm. }
  destruct (runs_next source path Hs (evaluator_ r) D ps r n Hi) as (res & r' & Hn & H). exists res, r'.
  destruct res as [o|e].
  - destruct H as (_ & ((D' & Hm' & He') & Hp' & Hsp') & Ho). exists D'. split; [done|]. split; [done|]. split; [done|].
    destruct o as [x|]; [|done]. destruct Ho as [[Hv _] Hlt]. done.
  - destruct H as ((offset & message & -> & Ho) & D' & Hm' & He'). exists D'. split; [done|]. split; [done|]. split; [done|].
    by exists offset, message.
Qed.

(** ** Examples *)

(** The outcomes of reading all the forms of a text in a new machine, as printed. *)
Fixpoint read_all (source path : bytes) (fuel : nat) (r : reader) : list bytes :=
  match fuel with
  | O => []
  | S fuel' =>
      match next source path r with
      | Some (Ret (Some x), r') =>
          match print (heap_ (evaluator_ r')) (current_ (evaluator_ r')) 1000 x with
          | Some (Ret t) => t :: read_all source path fuel' r'
          | _ => [str "?"]
          end
      | Some (Ret None, _) => []
      | Some (Throw (read_error _ message), _) => [message]
      | _ => [str "!"]
      end
  end.

Definition read_text (text : string) : list bytes :=
  match new_evaluator [] (new_heap false) with
  | Some (Ret m) => read_all (str text) (str "f") 20 (MkReader m 0 0)
  | _ => [str "?"]
  end.

Example read_forms :
  read_text "(a b . c) ; comment
 '(1 2 (foo-bar :key)) [1 2] () nil t 007 (. x) (a .b) #'car #:g (a b" =
  str <$> ["(A B . C)"; "(QUOTE (1 2 (FOO-BAR :KEY)))"; "#<1 2>"; "NIL"; "NIL"; "T"; "7"; "X"; "(A . B)";
           "(FUNCTION CAR)"; "#:G"; "f:2:70: unexpected EOF"]%string.
Proof. vm_compute. reflexivity. Qed.

Example read_errors :
  read_text "00000000000" = [str "f:1:11: integer overflow"] ∧ read_text "a:b:c" = [str "f:1:4: colon in symbol name"] ∧
  read_text "foo:x" = [str "f:1:1: no such package"] ∧ read_text "(a . b c)" = [str "f:1:8: expected ')' after dotted tail"].
Proof. vm_compute. done. Qed.

Lemma read_next_safe_witness : ∃ m res r', new_evaluator [] (new_heap false) = Some (Ret m) ∧
  next (str "(a . [1 #x") [] (MkReader m 0 0) = Some (res, r').
Proof.
  destruct (small_machine 1000) as (m & D & Hn & Hm & Hc & Hsp & Hal); [vm_compute; discriminate|].
  assert (Forall is_byte (str "(a . [1 #x")) as Hb by (apply (bool_decide_unpack _); vm_compute; exact I).
  destruct (read_next_safe (str "(a . [1 #x") [] m D _ (MkReader m 0 0) 0 Hb Hm eq_refl) as (res & r' & D' & Hx & _).
  - apply Nat.le_0_l.
  - apply (space_le _ _ _ Hsp). vm_compute. lia.
  - exists m, res, r'. split; [exact Hn|exact Hx].
Defined.
