(* ===== verification/Readback.v ===== *)
(** * Reading what is printed

    The round trip between the printer ([Printer]) and the reader ([Reader]) on the data
    that both of them write the same way: numbers that are not negative, strings of
    Unicode text, symbols of the current package and lists of those, proper or
    dotted. *)
From S2P Require Import Prelude State Unicode Word Vat Heap Grow Package Printer Reader.
#[local] Open Scope Z_scope.

Inductive sexp :=
| S_nil
| S_number (n : Z)
| S_string (text : list Z)
| S_symbol (name : list Z)
| S_cons (car cdr : sexp).

Definition utf8_text (cps : list Z) : bytes := concat (encode_utf8 <$> cps).

Fixpoint datum_of (e : sexp) : datum :=
  match e with
  | S_nil => D_nil
  | S_number n => D_atom (to_string n)
  | S_string text => D_atom (string_text (utf8_text text))
  | S_symbol name => D_atom (utf8_text name)
  | S_cons a d => D_cons (datum_of a) (datum_of d)
  end.

(** A character of a name: not a colon and not in lower case. *)
Definition name_char (c : Z) : Prop := scalar c ∧ constituent c = true ∧ c ≠ ch ":" ∧ ¬ (0x61 ≤ c ≤ 0x7a).

(** A name that is read as a symbol and is not a word of its own. *)
Definition symbol_name (name : list Z) : Prop :=
  Forall name_char name ∧ jet_name (utf8_text name) ∧
  match name with [] => False | c :: _ => digit c = false ∧ c ≠ ch "." end.

Fixpoint writable (e : sexp) : Prop :=
  match e with
  | S_nil => True
  | S_number n => 0 ≤ n ≤ max_fixnum
  | S_string text => Forall scalar text
  | S_symbol name => symbol_name name
  | S_cons a d => writable a ∧ writable d
  end.

(** ** Values of expressions *)

Fixpoint represents (h : heap) (package x : Z) (e : sexp) : Prop :=
  match e with
  | S_nil => x = nil
  | S_number n => x = n
  | S_string text => text_of h x (utf8_text text)
  | S_symbol name => homed h package x (utf8_text name)
  | S_cons a d => ∃ car cdr, valid h x ∧ tag_of x = T_duo ∧ hread T_duo x h = Ret [car; cdr] ∧
      represents h package car a ∧ represents h package cdr d
  end.

Lemma represents_keeps h h' p e : keeps h h' → ∀ x, represents h p x e → represents h' p x e.
Proof.
  intros Hk. induction e as [| | | |a IHa d IHd]; intros x; cbn [represents]; try done.
  - by apply text_keeps.
  - by apply homed_keeps.
  - intros (car & cdr & Hv & Ht & Hr & Ha & Hd). exists car, cdr. split; [by apply Hk|]. split; [done|].
    split; [by eapply keeps_hread|]. auto.
Qed.

Lemma integer_small n : 0 ≤ n ≤ max_fixnum → tag_of n = T_integer ∧ integer n = n.
Proof.
  intros Hn. rewrite max_fixnum_value in Hn. rewrite tag_of_arith by (unfold is_word; lia).
  split; [by destruct (Z.ltb_spec n (2 ^ 31)); [|lia]|]. rewrite integer_arith by lia. destruct (_ <? _) eqn:E; lia.
Qed.

Lemma represents_denotes h p pname : p ≠ nil → package_named h p pname → pname ≠ str "KEYWORD" →
  ∀ e x, writable e → represents h p x e → denotes h p x (datum_of e).
Proof.
  intros Hp (Hvp & Htp & nam & Hnam & Hvn & Htn & Hpn) Hk. induction e as [|n|text|name|a IHa d IHd]; intros x Hw; cbn [represents datum_of].
  - intros ->. apply denotes_nil.
  - intros ->. destruct (integer_small n Hw) as [Ht Hi]. apply denotes_atom; [by rewrite Ht|by intros ->|].
    unfold atom_text. rewrite Ht, Hi. unfold to_string_signed. cbn in Hw. by destruct (Z.ltb_spec n 0); [lia|].
  - intros (Hv & Ht & Hs). apply denotes_atom; [by rewrite Ht|by intros ->|]. unfold atom_text. rewrite Ht, Hs. done.
  - intros [(Hv & Ht & s & Hs & Hvs & Hts & Htext) Hh]. apply denotes_atom; [by rewrite Ht|by intros ->|].
    unfold atom_text, symbol_text. rewrite Ht, Hh. cbn [bind]. destruct (Z.eqb_spec p nil); [done|].
    rewrite Hnam. cbn [bind]. rewrite Hpn. cbn [bind]. rewrite (bool_decide_false (pname = str "KEYWORD")) by done.
    rewrite Z.eqb_refl. cbn [negb]. rewrite andb_false_r. cbn [bind]. rewrite Hs. cbn [bind]. rewrite Htext. done.
  - intros (car & cdr & Hv & Ht & Hr & Ha & Hd). destruct Hw. eapply denotes_cons; eauto.
Qed.

(** ** Digits *)

Lemma dec_value_snoc ds d : dec_value (ds ++ [d]) = dec_value ds * 10 + (d - 48).
Proof. unfold dec_value. by rewrite foldl_app. Qed.

Lemma dec_value_nonneg ds : Forall (λ c, is_digit c = true) ds → 0 ≤ dec_value ds.
Proof.
  induction ds as [|d ds IH] using rev_ind; [done|]. intros [Hds Hd]%Forall_app. apply Forall_cons in Hd as [Hd _].
  rewrite dec_value_snoc. cbn beta in Hd. unfold is_digit in Hd. specialize (IH Hds). lia.
Qed.

(** The value of some of the digits is at most that of all. *)
Lemma dec_value_app ds es : Forall (λ c, is_digit c = true) (ds ++ es) → dec_value ds ≤ dec_value (ds ++ es).
Proof.
  induction es as [|e es IH] using rev_ind; [by rewrite app_nil_r|]. rewrite app_assoc. intros [H He]%Forall_app. apply Forall_cons in He as [He _].
  rewrite dec_value_snoc. specialize (IH H). pose proof (dec_value_nonneg _ H). cbn beta in He. unfold is_digit in He. lia.
Qed.

Lemma to_string_length n : 0 ≤ n ≤ max_fixnum → (length (to_string n) ≤ 10)%nat.
Proof. intros Hn. rewrite max_fixnum_value in Hn. apply digits_loop_length; [lia|]. change (10 ^ Z.of_nat 10) with 10000000000. lia. Qed.

(** ** Running over known text *)

Section known.
Context (source : bytes).
#[local] Set Default Proof Using "Type".

Abbreviation left_ r := (drop (position_ r) source).

Definition skip (n : nat) (r : reader) : reader := set_position (position_ r + n) r.

Lemma left_skip n r : left_ (skip n r) = drop n (left_ r).
Proof. cbn. by rewrite drop_drop. Qed.

Lemma left_after (t rest : bytes) n r : left_ r = t ++ rest → n = length t → left_ (skip n r) = rest.
Proof. intros H ->. by rewrite left_skip, H, drop_app_length. Qed.

Lemma skip_skip n k r : skip k (skip n r) = skip (n + k) r.
Proof. unfold skip, set_position. cbn. f_equal. lia. Qed.

Lemma peek_at c rest r : scalar c → left_ r = encode_utf8 c ++ rest → peek source r = Some (Ret c, r).
Proof. intros Hc Hl. unfold peek. by rewrite Hl, peek_encode. Qed.

Lemma encode_ascii c : 0 ≤ c < 128 → encode_utf8 c = [c].
Proof.
  intros Hc. rewrite encode_utf8_arith by (unfold scalar; lia). by destruct (Z.leb_spec c 0x7f); [|lia].
Qed.

Lemma peek_ascii c rest r : 0 ≤ c < 128 → left_ r = c :: rest → peek source r = Some (Ret c, r).
Proof. intros Hc Hl. apply (peek_at c rest); [unfold scalar; lia|by rewrite encode_ascii]. Qed.

Lemma peek_end r : left_ r = [] → peek source r = Some (Ret eof, r).
Proof. intros Hl. unfold peek. by rewrite Hl. Qed.

Lemma scalar_not_eof c : scalar c → (c =? eof) = false.
Proof. unfold scalar, eof. lia. Qed.

Lemma take_at c rest r : scalar c → left_ r = encode_utf8 c ++ rest → take_char source r = Some (Ret c, skip (scalar_width c) r).
Proof.
  intros Hc Hl. unfold take_char. rewrite (bind_run _ _ _ _ _ (peek_at c rest r Hc Hl)).
  change (pbind here ?k r) with (k (position_ r) r). cbv beta. by rewrite scalar_not_eof.
Qed.

Lemma take_ascii c rest r : 0 ≤ c < 128 → left_ r = c :: rest → take_char source r = Some (Ret c, skip 1 r).
Proof.
  intros Hc Hl. rewrite (take_at c rest); [|unfold scalar; lia|by rewrite encode_ascii].
  unfold scalar_width. by destruct (Z.ltb_spec c 0x80); [|lia].
Qed.

(** What ends a name or a number. *)
Definition stops (rest : bytes) : Prop := rest = [] ∨ ∃ c t, rest = c :: t ∧ (c = 32 ∨ c = ch ")").

Lemma stops_peek rest r : stops rest → left_ r = rest → ∃ c, peek source r = Some (Ret c, r) ∧ constituent c = false ∧ digit c = false.
Proof.
  intros [->|(c & t & -> & Hc)] Hl; [exists eof; split; [by apply peek_end|done]|].
  exists c. split; [apply (peek_ascii c t); [destruct Hc as [->| ->]; vm_compute; split; done|done]|]. by destruct Hc as [->| ->].
Qed.

(** The bytes before the stop are the characters. *)
Lemma left_positive r t : t ≠ [] → left_ r = t → (position_ r < length source)%nat ∧ (length t = length source - position_ r)%nat.
Proof. intros Ht <-. rewrite length_drop in *. split; [|done]. destruct (decide (position_ r < length source)%nat); [done|]. rewrite drop_ge in Ht by lia. done. Qed.

Lemma encode_text_nonempty c cps : (0 < length (utf8_text (c :: cps)))%nat.
Proof. unfold utf8_text. rewrite fmap_cons. cbn. rewrite length_app, encode_length. pose proof (width_pos c). lia. Qed.

Lemma utf8_text_cons c cps : utf8_text (c :: cps) = encode_utf8 c ++ utf8_text cps.
Proof. done. Qed.

Lemma name_loop_at cps rest : Forall name_char cps → stops rest → ∀ fuel r, left_ r = utf8_text cps ++ rest → (length cps < fuel)%nat →
  name_loop source fuel r = Some (Ret tt, skip (length (utf8_text cps)) r).
Proof.
  intros Hcps Hr. induction Hcps as [|c cps Hc _ IH]; intros [|fuel] r Hl Hf; cbn [length] in Hf; try lia; cbn [name_loop].
  - destruct (stops_peek rest r Hr Hl) as (c & Hp & Hn & _). rewrite (bind_run _ _ _ _ _ Hp), Hn.
    unfold skip. cbn. rewrite Nat.add_0_r. by destruct r.
  - destruct Hc as (Hs & Hco & _). rewrite utf8_text_cons, <- app_assoc in Hl.
    rewrite (bind_run _ _ _ _ _ (peek_at c _ r Hs Hl)), Hco, (bind_run _ _ _ _ _ (take_at c _ r Hs Hl)).
    rewrite (IH fuel (skip (scalar_width c) r)); [|by apply (left_after (encode_utf8 c)); [|rewrite encode_length]|lia].
    by rewrite skip_skip, utf8_text_cons, length_app, encode_length.
Qed.

Lemma name_at cps rest r : Forall name_char cps → stops rest → left_ r = utf8_text cps ++ rest →
  name source r = Some (Ret (fold_case <$> utf8_text cps), skip (length (utf8_text cps)) r).
Proof.
  intros Hcps Hr Hl. unfold name. change (pbind here ?k r) with (k (position_ r) r). cbv beta.
  change (pbind (gets ?f) ?k r) with (k (f r) r). cbv beta.
  assert (length cps ≤ length (utf8_text cps))%nat as Hlen.
  { clear. induction cps as [|c cps IH]; [done|]. rewrite utf8_text_cons, length_app, encode_length. pose proof (width_pos c). cbn. lia. }
  assert (length cps < turns source r)%nat as Hfuel.
  { pose proof (f_equal length Hl) as Hl'. rewrite length_drop, length_app in Hl'. unfold turns. lia. }
  rewrite (bind_run _ _ _ _ _ (name_loop_at cps rest Hcps Hr _ r Hl Hfuel)).
  change (pbind here ?k ?r) with (k (position_ r) r). cbv beta. unfold between.
  change (position_ (skip ?n r)) with (position_ r + n)%nat. rewrite Nat.add_comm, Nat.add_sub, Hl, take_app_length. done.
Qed.

Lemma digit_scalar d : is_digit d = true → scalar d ∧ 0 ≤ d < 128 ∧ digit d = true ∧ 0 ≤ d - 48 ≤ 9.
Proof. unfold is_digit, scalar, digit. lia. Qed.

Lemma number_loop_at rest : stops rest → ∀ ds done fuel r, left_ r = ds ++ rest → Forall (λ c, is_digit c = true) (done ++ ds) →
  dec_value (done ++ ds) ≤ max_fixnum → (length (done ++ ds) ≤ 10)%nat → (length ds < fuel)%nat →
  number_loop source fuel (dec_value done) (Z.of_nat (length done)) r = Some (Ret (dec_value (done ++ ds)), skip (length ds) r).
Proof.
  intros Hr. pose proof max_fixnum_value as Hmax. induction ds as [|d ds IH]; intros done [|fuel] r Hl Hd Hv Hlen Hf;
    cbn [length] in Hf; try lia; cbn [number_loop].
  - destruct (stops_peek rest r Hr Hl) as (c & Hp & _ & Hn). rewrite (bind_run _ _ _ _ _ Hp), Hn, app_nil_r.
    unfold skip. cbn. rewrite Nat.add_0_r. by destruct r.
  - replace (done ++ d :: ds) with ((done ++ [d]) ++ ds) in * by (by rewrite <- app_assoc).
    pose proof Hd as Hd'. apply Forall_app in Hd' as [Hd1 _]. pose proof (dec_value_app (done ++ [d]) ds Hd) as Hle.
    rewrite dec_value_snoc in Hle. apply Forall_app in Hd1 as [Hdone Hdd]. apply Forall_cons in Hdd as [Hdd _].
    pose proof (dec_value_nonneg _ Hdone). destruct (digit_scalar d Hdd) as (Hs & Ha & Hdig & Hrange).
    rewrite !length_app in Hlen. cbn [length] in Hlen.
    rewrite (bind_run _ _ _ _ _ (peek_ascii d _ r Ha Hl)), Hdig. change (pbind here ?k r) with (k (position_ r) r). cbv beta.
    rewrite (u32_id (Z.of_nat (length done) + 1)), (u32_id (max_fixnum - (d - 48))) by lia.
    destruct (Z.ltb_spec 10 (Z.of_nat (length done) + 1)); [lia|]. cbn [orb].
    pose proof (Z.div_le_lower_bound (max_fixnum - (d - 48)) 10 (dec_value done) ltac:(lia) ltac:(lia)).
    destruct (Z.ltb_spec ((max_fixnum - (d - 48)) `div` 10) (dec_value done)); [lia|].
    rewrite (bind_run _ _ _ _ _ (take_ascii d _ r Ha Hl)). rewrite (u32_id (dec_value done * 10)), u32_id by lia.
    rewrite <- dec_value_snoc. replace (Z.of_nat (length done) + 1) with (Z.of_nat (length (done ++ [d]))) by (rewrite length_app; cbn; lia).
    rewrite (IH (done ++ [d]) fuel (skip 1 r)); [by rewrite skip_skip| |done|done|rewrite !length_app; cbn; lia|lia].
    apply (left_after [d]); [done|done].
Qed.

Lemma number_at n rest r : 0 ≤ n ≤ max_fixnum → stops rest → left_ r = to_string n ++ rest →
  number source r = Some (Ret n, skip (length (to_string n)) r).
Proof.
  intros Hn Hr Hl. unfold number. change (pbind (gets ?f) ?k r) with (k (f r) r). cbv beta.
  pose proof (to_string_value n ltac:(lia)) as Hv.
  pose proof (number_loop_at rest Hr (to_string n) [] (turns source r) r Hl) as H. cbn [app length] in H. rewrite Hv in H.
  apply H; [apply to_string_digits; lia|lia|by apply to_string_length|].
  pose proof (f_equal length Hl) as Hl'. rewrite length_drop, length_app in Hl'. unfold turns. lia.
Qed.

Lemma high_bytes c : scalar c → 128 ≤ c → Forall (λ b, 128 ≤ b) (encode_utf8 c).
Proof.
  intros Hs Hc. rewrite encode_utf8_arith by done. unfold scalar in Hs.
  destruct (Z.leb_spec c 0x7f); [lia|]. repeat case_match;
    repeat (apply Forall_cons_2; [Z.to_euclidean_division_equations; lia|]); apply Forall_nil_2.
Qed.

Lemma escape_high b : 128 ≤ b → escape b = [b].
Proof.
  intros Hb. unfold escape, dquote, backslash. destruct (Z.eqb_spec b 34); [lia|]. destruct (Z.eqb_spec b 92); [lia|].
  by destruct (Z.eqb_spec b 10); [lia|].
Qed.

Lemma escape_encode c : scalar c → concat (escape <$> encode_utf8 c) =
  if decide (c = dquote ∨ c = backslash ∨ c = 10) then [backslash; if c =? 10 then ch "n" else c] else encode_utf8 c.
Proof.
  intros Hs. destruct (Z.lt_ge_cases c 128) as [Hc|Hc].
  - rewrite encode_ascii by (unfold scalar in Hs; lia). unfold dquote, backslash. cbn. rewrite app_nil_r. unfold escape, dquote, backslash.
    destruct (Z.eqb_spec c 34) as [->|]; [done|]. destruct (Z.eqb_spec c 92) as [->|]; [done|].
    destruct (Z.eqb_spec c 10) as [->|]; [done|]. rewrite decide_False; [done|]. lia.
  - rewrite decide_False by (unfold dquote, backslash; lia). pose proof (high_bytes c Hs Hc) as Hb.
    induction Hb as [|b bs Hb _ IH]; [done|]. cbn. rewrite escape_high by done. cbn. f_equal. apply IH.
Qed.

Lemma string_loop_at rest : ∀ cps text fuel r, Forall scalar cps →
  left_ r = concat (escape <$> utf8_text cps) ++ dquote :: rest → (length cps < fuel)%nat →
  string_loop source fuel text r =
  language (on_heap (newv08 (foreign (text ++ utf8_text cps)))) (skip (length (concat (escape <$> utf8_text cps)) + 1) r).
Proof.
  induction cps as [|c cps IH]; intros text [|fuel] r Hcps Hl Hf; cbn [length] in Hf; try lia; cbn [string_loop];
    change (pbind here ?k ?r) with (k (position_ r) r); cbv beta.
  - rewrite (bind_run _ _ _ _ _ (take_ascii dquote rest r ltac:(unfold dquote; lia) Hl)). rewrite Z.eqb_refl. cbn. by rewrite app_nil_r.
  - apply Forall_cons in Hcps as [Hs Hcps]. rewrite utf8_text_cons, fmap_app, concat_app, escape_encode in Hl |- * by done.
    rewrite <- app_assoc in Hl. case_decide as Hspecial.
    + cbn [app] in Hl. rewrite (bind_run _ _ _ _ _ (take_ascii backslash _ r ltac:(unfold backslash; lia) Hl)).
      change (backslash =? dquote) with false. change (backslash =? ch "\") with true. cbn [negb]. cbv iota.
      set (e := if c =? 10 then ch "n" else c) in *.
      assert (left_ (skip 1 r) = e :: concat (escape <$> utf8_text cps) ++ dquote :: rest) as Hl1 by (by apply (left_after [backslash])).
      change (pbind here ?k ?r) with (k (position_ r) r). cbv beta.
      assert (0 ≤ e < 128) as He.
      { unfold e. destruct (Z.eqb_spec c 10); [vm_compute; split; done|]. unfold dquote, backslash in Hspecial. lia. }
      rewrite (bind_run _ _ _ _ _ (take_ascii e _ _ He Hl1)). rewrite skip_skip.
      assert (left_ (skip (1 + 1) r) = concat (escape <$> utf8_text cps) ++ dquote :: rest) as Hl2 by (by apply (left_after [backslash; e])).
      assert (encode_utf8 c = [c]) as Henc by (apply encode_ascii; unfold dquote, backslash in Hspecial; lia).
      assert ((if e =? ch "n" then string_loop source fuel (text ++ [10])
        else if e =? dquote then string_loop source fuel (text ++ [dquote])
        else if e =? ch "\" then string_loop source fuel (text ++ [ch "\"]) else fail (position_ (skip 1 r)) "bad string escape") =
        string_loop source fuel (text ++ [c])) as ->.
      { unfold e. destruct Hspecial as [->|[->| ->]]; reflexivity. }
      rewrite (IH (text ++ [c]) fuel (skip (1 + 1) r) Hcps Hl2) by lia. rewrite skip_skip, <- app_assoc, Henc. done.
    + rewrite (bind_run _ _ _ _ _ (take_at c _ r Hs Hl)).
      assert ((c =? dquote) = false ∧ (c =? ch "\") = false) as [-> ->].
      { change (ch "\") with backslash. destruct (Z.eqb_spec c dquote), (Z.eqb_spec c backslash); tauto. }
      cbn [negb]. cbv iota. change (pbind here ?k ?r) with (k (position_ r) r). cbv beta.
      assert (between source (position_ r) (position_ (skip (scalar_width c) r)) = encode_utf8 c) as ->.
      { unfold between. change (position_ (skip ?n r)) with (position_ r + n)%nat.
        rewrite Nat.add_comm, Nat.add_sub, Hl, <- encode_length. by rewrite take_app_length. }
      rewrite (IH _ fuel (skip (scalar_width c) r) Hcps); [|by apply (left_after (encode_utf8 c)); [|rewrite encode_length]|lia].
      rewrite skip_skip, <- app_assoc, length_app, encode_length. do 2 f_equal. lia.
Qed.

Lemma string_at cps rest r : Forall scalar cps → left_ r = string_text (utf8_text cps) ++ rest →
  string_form source r = language (on_heap (newv08 (foreign (utf8_text cps)))) (skip (length (string_text (utf8_text cps))) r).
Proof.
  intros Hs Hl. unfold string_form, string_text in *. rewrite <- !app_assoc in Hl. cbn [app] in Hl.
  rewrite (bind_run _ _ _ _ _ (take_ascii dquote _ r ltac:(unfold dquote; lia) Hl)).
  change (pbind (gets ?f) ?k ?r) with (k (f r) r). cbv beta.
  assert (left_ (skip 1 r) = concat (escape <$> utf8_text cps) ++ dquote :: rest) as Hl1 by (by apply (left_after [dquote])).
  rewrite (string_loop_at rest cps [] _ _ Hs Hl1).
  - rewrite skip_skip. cbn [app]. f_equal. f_equal. cbn [length]. rewrite length_app. done.
  - pose proof (f_equal length Hl1) as Hl'. rewrite length_drop, length_app in Hl'. cbn [length] in Hl'.
    enough (length cps ≤ length (concat (escape <$> utf8_text cps)))%nat by (unfold turns; lia).
    clear -Hs. induction Hs as [|c cps Hc _ IH]; [done|]. rewrite utf8_text_cons, fmap_app, concat_app, length_app, escape_encode by done.
    case_decide; cbn [length]; [lia|]. rewrite encode_length. pose proof (width_pos c). lia.
Qed.
End known.

(** ** The forms *)

Lemma plain_bytes cps : Forall name_char cps → Forall (λ b, fold_case b = b ∧ ch ":" ≠ b) (utf8_text cps).
Proof.
  induction 1 as [|c cps (Hs & Hc & Hcol & Hlow) _ IH]; [done|]. rewrite utf8_text_cons. apply Forall_app. split; [|done].
  destruct (Z.lt_ge_cases c 128) as [Ha|Ha].
  - rewrite encode_ascii by (unfold scalar in Hs; lia). apply Forall_singleton. split; [|by intros <-].
    unfold fold_case. destruct (Z.leb_spec 0x61 c), (Z.leb_spec c 0x7a); try done. lia.
  - eapply Forall_impl; [by apply high_bytes|]. intros b Hb. cbn beta in Hb. split.
    + unfold fold_case. by destruct (Z.leb_spec 0x61 b), (Z.leb_spec b 0x7a); try lia.
    + intros <-. vm_compute in Hb. by apply Hb.
Qed.

Lemma fold_plain bs : Forall (λ b, fold_case b = b ∧ ch ":" ≠ b) bs → fold_case <$> bs = bs.
Proof. induction 1 as [|b bs [Hb _] _ IH]; [done|]. rewrite fmap_cons. by rewrite Hb, IH. Qed.

Lemma find_plain bs : Forall (λ b, fold_case b = b ∧ ch ":" ≠ b) bs → find_from (ch ":") 0 bs = None.
Proof.
  intros H. unfold find_from. rewrite drop_0. destruct (list_find (eq (ch ":")) bs) as [[i c]|] eqn:Hf; [|done].
  apply list_find_Some in Hf as (Hi & <- & _). rewrite Forall_lookup in H. by destruct (H _ _ Hi).
Qed.

(** The tests that come before the one that a character passes. *)
Ltac pass_tests c :=
  repeat match goal with
  | |- context [c =? ?d] => destruct (Z.eqb_spec c d) as [->|]; [try discriminate; try contradiction|]
  end.

Lemma start_number source c st : digit c = true →
  start_form source c st = (value <~ number source; pret (O_value value st)).
Proof. intros Hd. unfold start_form. pass_tests c. cbn [orb]. by rewrite Hd. Qed.

Lemma start_symbol source c st : constituent c = true → digit c = false → c ≠ ch ":" →
  start_form source c st = (value <~ symbol source; pret (O_value value st)).
Proof. intros Hc Hd Hcol. unfold start_form. pass_tests c. cbn [orb]. by rewrite Hd, Hc. Qed.

(** A stack that takes a value. *)
Definition receptive (st : list frame) : Prop := match st with [] => True | f :: _ => type f ≠ K_close end.

(** A character that starts a form and does not close or dot a list. *)
Definition starts (c : Z) : Prop :=
  scalar c ∧ c ≠ 32 ∧ c ≠ 10 ∧ c ≠ 12 ∧ c ≠ ch ";" ∧ c ≠ ch ")" ∧ c ≠ ch "]" ∧ c ≠ ch ".".

Lemma space_none source c t r : scalar c → c ≠ 32 → c ≠ 10 → c ≠ 12 → c ≠ ch ";" → drop (position_ r) source = encode_utf8 c ++ t →
  space source r = Some (Ret tt, r).
Proof.
  intros Hs H1 H2 H3 H4 Hl. unfold space, turns. change (pbind (gets ?f) ?k ?r) with (k (f r) r). cbn [space_loop].
  rewrite (bind_run _ _ _ _ _ (peek_at source c t r Hs Hl)). pass_tests c. done.
Qed.

Lemma space_blank source t r : drop (position_ r) source = 32 :: t → space source r = space source (skip 1 r).
Proof.
  intros Hl. unfold space. change (pbind (gets ?f) ?k ?r) with (k (f r) r). cbv beta.
  destruct (left_positive source r (32 :: t) ltac:(done) Hl) as [Hp _].
  assert (turns source r = S (turns source (skip 1 r))) as ->.
  { unfold turns. change (position_ (skip 1 r)) with (position_ r + 1)%nat. lia. }
  cbn [space_loop]. rewrite (bind_run _ _ _ _ _ (peek_ascii source 32 t r ltac:(lia) Hl)). cbv beta.
  change ((32 =? 0x20) || (32 =? 10) || (32 =? 12)) with true. cbv iota. by rewrite (bind_run _ _ _ _ _ (take_ascii source 32 t r ltac:(lia) Hl)).
Qed.

Lemma turn_blank source t st r : drop (position_ r) source = 32 :: t → turn source st r = turn source st (skip 1 r).
Proof. intros Hl. unfold turn, pbind at 1 5. by rewrite (space_blank source t r Hl). Qed.

Lemma form_blank source t fuel st r : drop (position_ r) source = 32 :: t → form_loop source (S fuel) st r = form_loop source (S fuel) st (skip 1 r).
Proof. intros Hl. cbn [form_loop]. unfold pbind at 1 3. by rewrite (turn_blank source t st r Hl). Qed.

Lemma turn_start source c t st r : starts c → receptive st → drop (position_ r) source = encode_utf8 c ++ t →
  turn source st r = start_form source c st r.
Proof.
  intros (Hs & H1 & H2 & H3 & H4 & H5 & H6 & H7) Hst Hl. unfold turn.
  rewrite (bind_run _ _ _ _ _ (space_none source c t r Hs H1 H2 H3 H4 Hl)), (bind_run _ _ _ _ _ (peek_at source c t r Hs Hl)).
  change (pbind here ?k ?r) with (k (position_ r) r). cbv beta. rewrite (scalar_not_eof c Hs).
  destruct st as [|f outer]; [done|]. cbn in Hst. unfold closes. rewrite (bool_decide_false (type f = K_close)) by done.
  pass_tests c. cbn [orb]. by rewrite !andb_false_r.
Qed.

Section readback.
Context (source path : bytes) (Hsource : Forall is_byte source).
Context (m0 : evaluator) (D0 : directory) (ps : list (bytes * Z)).
Context (Hcurrent : current_ m0 = base_ m0) (Halone : alone D0 (base_ m0)).
#[local] Set Default Proof Using "All".

Abbreviation size := (length source).
Abbreviation left_ r := (drop (position_ r) source).
Abbreviation inv_ := (inv source m0 D0 ps).
Abbreviation text rest e := (notation rest (datum_of e)).
Abbreviation stands h x e := (represents h (base_ m0) x e).

(** The rest of the outer loop's turn with a value. *)
Definition deliver (fuel : nat) (x : Z) (st : list frame) : reading (option Z) :=
  s <~ settle x st;
  match s with
  | inl value => pret (Some value)
  | inr stack => form_loop source fuel stack
  end.

(** What is known once a value stands for the expression and the source is at [rest]. *)
Record got (k : nat) (st : list frame) (r : reader) (rest : bytes) (x : Z) (r' : reader) : Prop := {
  got_left : left_ r' = rest;
  got_inv : inv_ (k + weights st + 1) r';
  got_frames : Forall (frame_ok r') st;
  got_value : value_ok r' x;
  got_went : went r r';
}.

Definition form_spec (e : sexp) : Prop := ∀ (P : option Z → reader → Prop) fuel st r k rest,
  receptive st → left_ r = text false e ++ rest → stops rest → inv_ (k + weights st) r → Forall (frame_ok r) st →
  (size - position_ r < fuel)%nat →
  (∀ x r' fuel', got k st r rest x r' → stands (held r') x e → (size - position_ r' < fuel')%nat → does P (deliver fuel' x st) r') →
  does P (form_loop source fuel st) r.

Definition list_frame (xs : list Z) : frame := MkFrame K_list nil xs.

Definition tail_spec (e : sexp) : Prop := ∀ (P : option Z → reader → Prop) fuel st r k rest xs,
  left_ r = text true e ++ ch ")" :: rest → inv_ (k + weights (list_frame xs :: st)) r → Forall (frame_ok r) (list_frame xs :: st) →
  (size - position_ r < fuel)%nat →
  (∀ x y r' fuel', got k st r rest x r' → chain (held r') x xs y → stands (held r') y e → (size - position_ r' < fuel')%nat →
     does P (deliver fuel' x st) r') →
  does P (form_loop source fuel (list_frame xs :: st)) r.

Lemma onward_skip n r : (n ≤ length (left_ r))%nat → (position_ r ≤ size)%nat → onward source r (skip n r).
Proof. rewrite length_drop. intros Hn Hp. split; [done|]. change (position_ (skip n r)) with (position_ r + n)%nat. lia. Qed.

Lemma inv_skip n r k : inv_ k r → (n ≤ length (left_ r))%nat → inv_ (k + 8 * n) (skip n r) ∧ went r (skip n r).
Proof.
  intros Hi Hn. pose proof (onward_skip n r Hn (proj1 (proj2 Hi))) as Ho. split.
  - replace n with (position_ (skip n r) - position_ r)%nat at 1 by (cbn; lia).
    by apply (onward_inv source m0 D0 ps).
  - by apply (onward_went source m0 D0 ps k).
Qed.

Lemma base_now r D : extends m0 (evaluator_ r) D0 D → base_ (evaluator_ r) = base_ m0 ∧ current_ (evaluator_ r) = base_ m0.
Proof. intros He. destruct (extends_base _ _ _ _ He) as (-> & _ & -> & _). by rewrite Hcurrent. Qed.

(** Interning a name in the base package. *)
Lemma does_symbol cps rest r k : Forall name_char cps → (0 < length (utf8_text cps))%nat → stops rest → left_ r = utf8_text cps ++ rest → inv_ k r →
  does (λ x r', inv_ (k + 1) r' ∧ went r r' ∧ value_ok r' x ∧ left_ r' = rest ∧
      ∃ D, machine_ok (evaluator_ r') D ps ∧ extends m0 (evaluator_ r') D0 D ∧ resolve (evaluator_ r') D (utf8_text cps) (base_ m0) = Some x)
    (symbol source) r.
Proof.
  intros Hcps Hne Hr Hl Hi. pose proof (plain_bytes cps Hcps) as Hplain. set (n := length (utf8_text cps)) in *.
  destruct (inv_skip n r k Hi) as [Hi1 Hw1]; [rewrite Hl, length_app; lia|].
  assert (symbol source r = catch_invalid (position_ r) (language (intern (utf8_text cps) (base_ m0))) (skip n r)) as Hrun.
  { unfold symbol. change (pbind here ?k ?r) with (k (position_ r) r). cbv beta.
    rewrite (bind_run _ _ _ _ _ (name_at source cps rest r Hcps Hr Hl)). rewrite (fold_plain _ Hplain), (find_plain _ Hplain).
    destruct Hi as ((D & _ & He) & _).
    assert ((m <~ gets evaluator_; language (intern (utf8_text cps) (current_ m))) (skip n r) =
      language (intern (utf8_text cps) (base_ m0)) (skip n r)) as Hin.
    { change (pbind (gets ?f) ?k ?r) with (k (f r) r). cbv beta. change (evaluator_ (skip n r)) with (evaluator_ r).
      by rewrite (proj2 (base_now r D He)). }
    fold n. unfold catch_invalid. by rewrite Hin. }
  destruct (does_intern source m0 D0 ps (utf8_text cps) (base_ m0) (skip n r) (k + 1)) as (x & r' & Ha & Hy & Hp & D & Hm & He & _ & Hx).
  { eapply inv_le; [exact Hi1|]. fold n. lia. }
  { intros D Hm. destruct Hi1 as ((D1 & _ & He1) & _). rewrite <- (proj1 (base_now _ _ He1)). apply Hm. }
  exists x, r'. split; [rewrite Hrun; unfold catch_invalid; by rewrite Ha|]. destruct Hy as (Hi' & Hw' & Hv).
  split; [done|]. split; [by eapply went_trans|]. split; [done|]. split; [|by exists D].
  rewrite Hp. by apply (left_after source (utf8_text cps)).
Qed.

Lemma got_intro k st r rest x r' : Forall (frame_ok r) st → inv_ (k + weights st + 1) r' → went r r' → value_ok r' x → left_ r' = rest →
  got k st r rest x r'.
Proof. intros Hst Hi Hw Hv Hl. split; try done. by eapply frames_went. Qed.

(** A form that one turn reads. *)
Lemma form_atom e c t : starts c → text false e = encode_utf8 c ++ t →
  (∀ st r k rest, left_ r = text false e ++ rest → stops rest → inv_ (k + weights st) r → Forall (frame_ok r) st →
     does (λ o r', ∃ x, o = O_value x st ∧ got k st r rest x r' ∧ stands (held r') x e) (start_form source c st) r) → form_spec e.
Proof.
  intros Hc Ht Hstart P fuel st r k rest Hrec Hl Hr Hi Hst Hf HP. destruct fuel as [|fuel]; [lia|]. cbn [form_loop].
  eapply (does_bind _ (λ o r', ∃ x, o = O_value x st ∧ got k st r rest x r' ∧ stands (held r') x e)).
  - destruct (Hstart st r k rest Hl Hr Hi Hst) as (o & r' & Ha & HQ). exists o, r'. split; [|done].
    rewrite (turn_start source c (t ++ rest)); [done|done|done|]. by rewrite Hl, Ht, <- app_assoc.
  - intros o r' (x & -> & Hg & Hx). change (does P (deliver fuel x st) r'). apply HP; [done|done|].
    pose proof (f_equal length (got_left _ _ _ _ _ _ Hg)) as H1. pose proof (f_equal length Hl) as H2.
    rewrite length_drop in H1. rewrite length_drop, length_app, Ht, length_app, encode_length in H2. pose proof (width_pos c). lia.
Qed.

Lemma form_number n : 0 ≤ n ≤ max_fixnum → form_spec (S_number n).
Proof.
  intros Hn. pose proof (to_string_digits n ltac:(lia)) as Hd. pose proof (to_string_nonempty n) as Hne.
  destruct (to_string n) as [|c t] eqn:Ht; [done|]. apply Forall_cons in Hd as [Hc _].
  destruct (digit_scalar c Hc) as (Hs & Ha & Hdig & _). apply (form_atom _ c t).
  - split; [done|]. unfold is_digit in Hc. vm_compute (ch _). lia.
  - change (text false (S_number n)) with (to_string n). by rewrite Ht, encode_ascii.
  - intros st r k rest Hl Hr Hi Hst. rewrite start_number by done. change (text false (S_number n)) with (to_string n) in Hl.
    destruct (inv_skip (length (to_string n)) r _ Hi) as [Hi1 Hw1]; [rewrite Hl, length_app; lia|].
    exists (O_value n st), (skip (length (to_string n)) r). split; [by rewrite (bind_run _ _ _ _ _ (number_at source n rest r Hn Hr Hl))|].
    exists n. split; [done|]. split; [|done]. apply got_intro; [done| |done|by apply small_value|].
    + eapply inv_le; [exact Hi1|]. rewrite Ht. cbn. lia.
    + by apply (left_after source (to_string n)).
Qed.

Lemma form_string cps : Forall scalar cps → form_spec (S_string cps).
Proof.
  intros Hs. apply (form_atom _ dquote (concat (escape <$> utf8_text cps) ++ [dquote])).
  - split; [unfold scalar, dquote; lia|]. vm_compute. repeat split; discriminate.
  - change (text false (S_string cps)) with (string_text (utf8_text cps)). unfold string_text. rewrite encode_ascii by (unfold dquote; lia). done.
  - intros st r k rest Hl Hr Hi Hst. change (text false (S_string cps)) with (string_text (utf8_text cps)) in Hl. set (n := length (string_text (utf8_text cps))).
    assert (length (utf8_text cps) + 2 ≤ n)%nat as Hlen.
    { unfold n, string_text. rewrite !length_app. cbn [length]. enough (length (utf8_text cps) ≤ length (concat (escape <$> utf8_text cps)))%nat by lia.
      generalize (utf8_text cps) as bs. induction bs as [|b bs IH]; [done|]. rewrite fmap_cons. cbn [concat]. rewrite length_app. cbn.
      enough (0 < length (escape b))%nat by lia. unfold escape. repeat case_match; cbn; lia. }
    destruct (inv_skip n r _ Hi) as [Hi1 Hw1]; [rewrite Hl, length_app; fold n; lia|].
    destruct (does_text source m0 D0 ps (utf8_text cps) (skip n r) (k + weights st + 1)) as (x & r' & Ha & (Hi' & Hw' & Hv) & Hp & Htext).
    { eapply inv_le; [exact Hi1|]. lia. }
    exists (O_value x st), r'. split.
    + change (start_form source dquote st) with (value <~ string_form source; pret (O_value value st)).
      unfold pbind. rewrite (string_at source cps rest r Hs Hl). fold n. by rewrite Ha.
    + exists x. split; [done|]. split; [|done]. apply got_intro; [done|done| |done|].
      * by eapply went_trans.
      * rewrite Hp. by apply (left_after source (string_text (utf8_text cps))).
Qed.

(** A name whose meaning stands for the expression. *)
Lemma form_name e c cps : Forall name_char (c :: cps) → digit c = false → c ≠ ch "." → text false e = utf8_text (c :: cps) →
  (∀ r D x, machine_ok (evaluator_ r) D ps → extends m0 (evaluator_ r) D0 D →
     resolve (evaluator_ r) D (utf8_text (c :: cps)) (base_ m0) = Some x → stands (held r) x e) → form_spec e.
Proof.
  intros Hcps Hd Hdot Ht Hx. pose proof Hcps as Hc. apply Forall_cons in Hc as [(Hs & Hco & Hcol & _) _].
  apply (form_atom _ c (utf8_text cps)).
  - split; [done|]. split_and!; (intros ->; by vm_compute in Hco) || done.
  - done.
  - intros st r k rest Hl Hr Hi Hst. rewrite start_symbol by done. rewrite Ht in Hl.
    destruct (does_symbol (c :: cps) rest r _ Hcps (encode_text_nonempty c cps) Hr Hl Hi)
      as (x & r' & Ha & Hi' & Hw & Hv & Hl' & D & Hm & He & Hres).
    exists (O_value x st), r'. split; [by rewrite (bind_run _ _ _ _ _ Ha)|]. exists x. split; [done|].
    split; [by apply got_intro|]. by eapply Hx.
Qed.

Lemma form_symbol name : symbol_name name → form_spec (S_symbol name).
Proof.
  intros (Hn & Hj & Hhead). destruct name as [|c cps]; [done|]. destruct Hhead as [Hd Hdot].
  apply (form_name _ c cps); try done. intros r D x Hm He Hx. cbn [represents].
  pose proof (alone_extends _ _ _ _ _ He Halone) as Hal. rewrite (alone_resolve _ _ _ _ Hal Hj) in Hx.
  destruct Hal as [l Hl]. unfold own in Hx. rewrite Hl in Hx. change (default [] (fst <$> Some (l, []))) with l in Hx.
  destruct (rg_symbols _ _ (np_dir _ _ _ (mo_packages _ _ _ Hm)) _ _ _ Hl) as [(_ & _ & _ & _ & _ & _ & Hall) _].
  rewrite Forall_forall in Hall. exact (Hall _ (assoc_some _ _ _ Hx)).
Qed.

Lemma form_nil : form_spec S_nil.
Proof.
  apply (form_name _ 78 [73; 76]); try done.
  - repeat (apply Forall_cons_2; [split; [unfold scalar; lia|]; split; [done|]; split; [done|lia]|]). apply Forall_nil_2.
  - intros r D x Hm He Hx. cbn [represents]. unfold resolve, reserved in Hx. rewrite (proj1 (base_now r D He)), Z.eqb_refl in Hx.
    rewrite decide_True in Hx by done. by injection Hx as <-.
Qed.

(** *** Lists *)

Lemma starts_close : scalar (ch ")") ∧ ch ")" ≠ 32 ∧ ch ")" ≠ 10 ∧ ch ")" ≠ 12 ∧ ch ")" ≠ ch ";".
Proof. vm_compute. split_and!; (discriminate || intros []; done). Qed.

(** The bytes that are left fall with the source that is read. *)
Lemma left_less r r' t rest : left_ r = t ++ rest → left_ r' = rest → (size - position_ r' + length t = size - position_ r)%nat.
Proof. intros H1%(f_equal length) H2%(f_equal length). rewrite length_drop in H1, H2. rewrite length_app in H1. lia. Qed.

(** A closing parenthesis conses the items of the innermost frame. *)
Lemma turn_close f st r k rest : type f = K_list ∨ type f = K_close → left_ r = ch ")" :: rest → inv_ (k + weights (f :: st)) r →
  Forall (frame_ok r) (f :: st) →
  does (λ o r', ∃ x, o = O_value x st ∧ got k st r rest x r' ∧ chain (held r') x (items f) (suffix f)) (turn source (f :: st)) r.
Proof.
  intros Hf Hl Hi Hst. destruct starts_close as (Hs & H1 & H2 & H3 & H4).
  assert (0 ≤ ch ")" < 128) as Hasc by (vm_compute; split; done).
  assert (left_ r = encode_utf8 (ch ")") ++ rest) as Hl' by (by rewrite encode_ascii).
  assert (turn source (f :: st) r = (value <~ cons_all (items f) (suffix f); pret (O_value value st)) (skip 1 r)) as Hrun.
  { unfold turn. rewrite (bind_run _ _ _ _ _ (space_none source (ch ")") rest r Hs H1 H2 H3 H4 Hl')).
    rewrite (bind_run _ _ _ _ _ (peek_at source (ch ")") rest r Hs Hl')).
    change (pbind here ?k ?r) with (k (position_ r) r). cbv beta. rewrite (scalar_not_eof _ Hs).
    assert (closes f (ch ")") = true) as ->.
    { unfold closes. destruct Hf as [E|E]; rewrite E; done. }
    unfold close. change (pbind here ?k ?r) with (k (position_ r) r). cbv beta. rewrite Z.eqb_refl, andb_false_r.
    rewrite (bind_run _ _ _ _ _ (take_ascii source (ch ")") rest r Hasc Hl)).
    rewrite bool_decide_false by (by destruct Hf as [-> | ->]). done. }
  assert (weights (f :: st) = 1 + length (items f) + weights st)%nat as Hwt.
  { unfold weights. cbn. unfold weight. by destruct Hf as [-> | ->]. }
  destruct (inv_skip 1 r _ Hi) as [Hi1 Hw1]; [rewrite Hl; cbn; lia|]. rewrite Hwt in Hi1.
  pose proof (frames_went _ _ _ Hw1 Hst) as Hst1. apply Forall_cons in Hst1 as [[Hsuf Hitems] Hst1].
  destruct (does_cons_all source m0 D0 ps (items f) (suffix f) (k + weights st + 1) (skip 1 r)) as (x & r' & Ha & (Hi' & Hw' & Hv) & Hp & Hch);
    [eapply inv_le; [exact Hi1|lia]|done|done|].
  exists (O_value x st), r'. split; [by rewrite Hrun, (bind_run _ _ _ _ _ Ha)|]. exists x. split; [done|]. split; [|done].
  apply Forall_cons in Hst as [_ Hst]. apply got_intro; [done|done|by eapply went_trans|done|].
  rewrite Hp. by apply (left_after source [ch ")"]).
Qed.

Lemma form_close (P : option Z → reader → Prop) f fuel st r k rest : type f = K_list ∨ type f = K_close → left_ r = ch ")" :: rest →
  inv_ (k + weights (f :: st)) r → Forall (frame_ok r) (f :: st) → (size - position_ r < fuel)%nat →
  (∀ x r' fuel', got k st r rest x r' → chain (held r') x (items f) (suffix f) → (size - position_ r' < fuel')%nat →
     does P (deliver fuel' x st) r') →
  does P (form_loop source fuel (f :: st)) r.
Proof.
  intros Hf Hl Hi Hst Hfu HP. destruct fuel as [|fuel]; [lia|]. cbn [form_loop].
  eapply does_bind; [by apply (turn_close f st r k rest)|]. intros o r' (x & -> & Hg & Hc).
  change (does P (deliver fuel x st) r'). apply HP; [done|done|].
  pose proof (left_less r r' [ch ")"] rest Hl (got_left _ _ _ _ _ _ Hg)) as Hless. cbn [length] in Hless. lia.
Qed.

Lemma turn_dot f st r t : type f = K_list → left_ r = ch "." :: t →
  turn source (f :: st) r = Some (Ret (O_again (MkFrame K_tail (suffix f) (items f) :: st)), skip 1 r).
Proof.
  intros Hf Hl. assert (0 ≤ ch "." < 128) as Hasc by (vm_compute; split; done).
  assert (scalar (ch ".")) as Hs by (unfold scalar; lia).
  assert (left_ r = encode_utf8 (ch ".") ++ t) as Hl' by (by rewrite encode_ascii).
  unfold turn. rewrite (bind_run _ _ _ _ _ (space_none source (ch ".") t r Hs ltac:(discriminate) ltac:(discriminate) ltac:(discriminate) ltac:(discriminate) Hl')).
  rewrite (bind_run _ _ _ _ _ (peek_at source (ch ".") t r Hs Hl')).
  change (pbind here ?k ?r) with (k (position_ r) r). cbv beta. rewrite (scalar_not_eof _ Hs).
  unfold closes. rewrite Hf. cbn [bool_decide kind_eq_dec]. change (ch "." =? ch ")") with false. change (ch "." =? ch "]") with false.
  rewrite !andb_false_r. cbn [orb]. rewrite Z.eqb_refl.
  rewrite !bool_decide_false by done. rewrite bool_decide_true by done. cbn [orb andb].
  by rewrite (bind_run _ _ _ _ _ (take_ascii source (ch ".") t r Hasc Hl)).
Qed.

Lemma got_trans k st r r1 rest x r' : went r r1 → got k st r1 rest x r' → got k st r rest x r'.
Proof. intros Hw [H1 H2 H3 H4 H5]. split; try done. by eapply went_trans. Qed.

(** Blanks before a form do not matter. *)
Lemma does_blank (P : option Z → reader → Prop) fuel st r t k : left_ r = 32 :: t → inv_ k r → (size - position_ r < fuel)%nat →
  (left_ (skip 1 r) = t → inv_ k (skip 1 r) → went r (skip 1 r) → (size - position_ (skip 1 r) < fuel)%nat →
     does P (form_loop source fuel st) (skip 1 r)) →
  does P (form_loop source fuel st) r.
Proof.
  intros Hl Hi Hf HP. destruct fuel as [|fuel]; [lia|]. destruct (inv_skip 1 r k Hi) as [Hi1 Hw1]; [rewrite Hl; cbn; lia|].
  destruct HP as (x & r' & Ha & HP); [by apply (left_after source [32])|eapply inv_le; [done|lia]|done| |].
  - change (position_ (skip 1 r)) with (position_ r + 1)%nat. lia.
  - exists x, r'. split; [|done]. by rewrite (form_blank source t fuel st r Hl).
Qed.

(** An item that is not a list after a dot. *)
Lemma dotted_tail e : form_spec e → text true e = str " . " ++ text false e → tail_spec e.
Proof.
  intros Hform Ht P fuel st r k rest xs Hl Hi Hst Hf HP. rewrite Ht, <- app_assoc in Hl. set (t := text false e) in *.
  eapply (does_blank P fuel _ r); [exact Hl|exact Hi|done|]. intros Hl1 Hi1 Hw1 Hf1.
  pose proof (frames_went _ _ _ Hw1 Hst) as Hst1. destruct fuel as [|fuel]; [lia|]. cbn [form_loop].
  change (left_ (skip 1 r) = ch "." :: 32 :: t ++ ch ")" :: rest) in Hl1.
  unfold does. rewrite (bind_run _ _ _ _ _ (turn_dot (list_frame xs) st (skip 1 r) (32 :: t ++ ch ")" :: rest) eq_refl Hl1)).
  cbn [suffix items list_frame]. set (r2 := skip 1 (skip 1 r)). set (f := MkFrame K_tail nil xs).
  destruct (inv_skip 1 (skip 1 r) _ Hi1) as [Hi2 Hw2]; [rewrite Hl1; cbn; lia|]. fold r2 in Hi2, Hw2.
  change (weights (list_frame xs :: st)) with (weights (f :: st)) in Hi2.
  assert (left_ r2 = 32 :: t ++ ch ")" :: rest) as Hl2 by (by apply (left_after source [ch "."])).
  pose proof (left_less _ r2 [ch "."] _ Hl1 Hl2) as Hless. cbn [length] in Hless.
  eapply (does_blank P fuel _ r2); [exact Hl2|eapply inv_le; [exact Hi2|]; apply Nat.le_add_r|lia|].
  intros Hl3 Hi3 Hw3 Hf3. set (r3 := skip 1 r2) in *.
  assert (went r r3) as Hw by (eapply went_trans; [done|by eapply went_trans]).
  eapply (Hform P fuel (f :: st) r3 k (ch ")" :: rest)); [done|exact Hl3|right; eexists _, _; split; [done|by right]|exact Hi3| |done|].
  { apply (frames_went _ _ _ Hw) in Hst. apply Forall_cons in Hst as [Hf0 Hst0]. by apply Forall_cons_2. }
  intros x r4 fuel' Hg Hx Hf4. unfold deliver. cbn [settle f type].
  change (does P (form_loop source fuel' (MkFrame K_close x xs :: st)) r4).
  pose proof (got_frames _ _ _ _ _ _ Hg) as Hfr. apply Forall_cons in Hfr as [[_ Hitems] Hst4].
  eapply (form_close P (MkFrame K_close x xs) fuel' st r4 k rest); [by right|apply Hg|eapply inv_le; [apply (got_inv _ _ _ _ _ _ Hg)|]| |done|].
  - change (weights (MkFrame K_close x xs :: st)) with (weights (f :: st)). lia.
  - apply Forall_cons_2; [|done]. split; [apply (got_value _ _ _ _ _ _ Hg)|done].
  - intros y r5 fuel5 Hg5 Hc5 Hf5. apply (HP y x); [|done| |done].
    + eapply got_trans; [exact Hw|]. eapply got_trans; [apply (got_went _ _ _ _ _ _ Hg)|done].
    + eapply represents_keeps; [apply (got_went _ _ _ _ _ _ Hg5)|done].
Qed.

Lemma tail_nil : tail_spec S_nil.
Proof.
  intros P fuel st r k rest xs Hl Hi Hst Hf HP. eapply (form_close P (list_frame xs) fuel st r k rest); try done; [by left|].
  intros x r' fuel' Hg Hc Hf'. by apply (HP x nil).
Qed.

Lemma chain_snoc h x xs a y : chain h x (xs ++ [a]) y →
  ∃ c, chain h x xs c ∧ valid h c ∧ tag_of c = T_duo ∧ hread T_duo c h = Ret [a; y].
Proof.
  revert x. induction xs as [|b xs IH]; intros x; cbn.
  - intros (d & Hv & Ht & Hr & ->). by exists x.
  - intros (d & Hv & Ht & Hr & Hd). destruct (IH d Hd) as (c & Hc & Hrest). exists c. split; [by exists d|done].
Qed.

Lemma tail_stops e rest : stops (text true e ++ ch ")" :: rest).
Proof.
  right. destruct e as [| | | |a d]; cbn [datum_of notation].
  - eexists _, _. split; [done|by right].
  - eexists _, _. split; [reflexivity|by left].
  - eexists _, _. split; [reflexivity|by left].
  - eexists _, _. split; [reflexivity|by left].
  - eexists _, _. split; [reflexivity|by left].
Qed.

(** An item goes to the innermost list. *)
Lemma deliver_item fuel x xs st r : deliver fuel x (list_frame xs :: st) r = form_loop source fuel (list_frame (xs ++ [x]) :: st) r.
Proof. done. Qed.

Lemma tail_cons a d : form_spec a → tail_spec d → tail_spec (S_cons a d).
Proof.
  intros Ha Hd P fuel st r k rest xs Hl Hi Hst Hf HP.
  change (text true (S_cons a d)) with (str " " ++ text false a ++ text true d) in Hl. rewrite <- !app_assoc in Hl.
  eapply (does_blank P fuel _ r); [exact Hl|exact Hi|done|]. intros Hl1 Hi1 Hw1 Hf1.
  eapply (Ha P fuel (list_frame xs :: st) (skip 1 r) k); [done|exact Hl1|apply tail_stops|exact Hi1|by eapply frames_went|done|].
  intros x r2 fuel2 Hg Hx Hf2. unfold does. rewrite deliver_item. pose proof Hg as [Gl Gi Gf Gv Gw].
  apply Forall_cons in Gf as [[Hsuf Hitems] Gst].
  eapply (Hd P fuel2 st r2 k rest (xs ++ [x])); [exact Gl| | |done|].
  - eapply inv_le; [exact Gi|]. unfold weights, list_frame. cbn. rewrite length_app. cbn. lia.
  - apply Forall_cons_2; [|done]. split; [done|]. apply Forall_app_2; [done|]. by apply Forall_singleton.
  - intros y y' r3 fuel3 Hg3 Hc3 Hy Hf3. destruct (chain_snoc _ _ _ _ _ Hc3) as (c & Hc & Hvc & Htc & Hrc).
    apply (HP y c); [|done| |done].
    + eapply got_trans; [exact Hw1|]. by eapply got_trans.
    + exists x, y'. split; [done|]. split; [done|]. split; [done|]. split; [|done].
      eapply represents_keeps; [apply (got_went _ _ _ _ _ _ Hg3)|done].
Qed.

Lemma form_cons a d : form_spec a → tail_spec d → form_spec (S_cons a d).
Proof.
  intros Ha Hd P fuel st r k rest Hrec Hl Hr Hi Hst Hf HP.
  assert (left_ r = ch "(" :: text false a ++ text true d ++ ch ")" :: rest) as Hl0.
  { rewrite Hl. change (text false (S_cons a d)) with (ch "(" :: text false a ++ text true d ++ [ch ")"]). cbn [app].
    by rewrite <- !app_assoc. }
  assert (0 ≤ ch "(" < 128) as Hasc by (vm_compute; split; done).
  destruct fuel as [|fuel]; [lia|]. cbn [form_loop].
  assert (turn source st r = Some (Ret (O_again (list_frame [] :: st)), skip 1 r)) as Hturn.
  { rewrite (turn_start source (ch "(") (text false a ++ text true d ++ ch ")" :: rest)); [|split; [unfold scalar; lia|vm_compute; repeat split; discriminate]|done|by rewrite encode_ascii].
    change (start_form source (ch "(") st) with (_ <~ take_char source; pret (O_again (list_frame [] :: st))).
    by rewrite (bind_run _ _ _ _ _ (take_ascii source (ch "(") _ r Hasc Hl0)). }
  unfold does. rewrite (bind_run _ _ _ _ _ Hturn). destruct (inv_skip 1 r _ Hi) as [Hi1 Hw1]; [rewrite Hl0; cbn; lia|].
  assert (left_ (skip 1 r) = text false a ++ text true d ++ ch ")" :: rest) as Hl1 by (by apply (left_after source [ch "("])).
  pose proof (left_less _ _ [ch "("] _ Hl0 Hl1) as Hless. cbn [length] in Hless.
  eapply (Ha P fuel (list_frame [] :: st) (skip 1 r) k); [done|exact Hl1|apply tail_stops| | |lia|].
  { eapply inv_le; [exact Hi1|]. change (weights (list_frame [] :: st)) with (1 + weights st)%nat. lia. }
  { apply Forall_cons_2; [|by eapply frames_went]. apply empty_frame. by apply constant_value. }
  intros x r2 fuel2 Hg Hx Hf2. unfold does. rewrite deliver_item. pose proof Hg as [Gl Gi Gf Gv Gw].
  apply Forall_cons in Gf as [[Hsuf _] Gst].
  eapply (Hd P fuel2 st r2 k rest [x]); [exact Gl|eapply inv_le; [exact Gi|]| |done|].
  - unfold weights, list_frame. cbn. lia.
  - apply Forall_cons_2; [|done]. split; [done|]. by apply Forall_singleton.
  - intros y y' r3 fuel3 Hg3 Hc3 Hy Hf3. destruct Hc3 as (c & Hvy & Hty & Hry & ->).
    apply (HP y); [|exists x, y'|done].
    + eapply got_trans; [exact Hw1|]. by eapply got_trans.
    + split; [done|]. split; [done|]. split; [done|]. split; [|done]. eapply represents_keeps; [apply (got_went _ _ _ _ _ _ Hg3)|done].
Qed.

Lemma form_tail e : writable e → form_spec e ∧ tail_spec e.
Proof.
  induction e as [|n|cps|name|a IHa d IHd]; intros Hw.
  - split; [apply form_nil|apply tail_nil].
  - pose proof (form_number n Hw) as H. split; [done|]. by apply dotted_tail.
  - pose proof (form_string cps Hw) as H. split; [done|]. by apply dotted_tail.
  - pose proof (form_symbol name Hw) as H. split; [done|]. by apply dotted_tail.
  - destruct Hw as [Hwa Hwd]. destruct (IHa Hwa) as [Fa _]. destruct (IHd Hwd) as [_ Td].
    split; [by apply form_cons|]. by apply tail_cons.
Qed.
End readback.

Lemma text_starts e : writable e → ∃ c t, starts c ∧ notation false (datum_of e) = encode_utf8 c ++ t.
Proof.
  destruct e as [|n|cps|name|a d]; intros Hw.
  - exists 78, [73; 76]. split; [|done]. split; [unfold scalar; lia|vm_compute; repeat split; discriminate].
  - pose proof (to_string_digits n (proj1 Hw)) as Hd. pose proof (to_string_nonempty n) as Hne.
    destruct (to_string n) as [|c t] eqn:Ht; [done|]. apply Forall_cons in Hd as [Hc _].
    destruct (digit_scalar c Hc) as (Hs & Ha & _). exists c, t. split.
    + split; [done|]. unfold is_digit in Hc. vm_compute (ch _). lia.
    + change (notation false (datum_of (S_number n))) with (to_string n). by rewrite Ht, encode_ascii.
  - exists dquote. eexists. split; [split; [unfold scalar, dquote; lia|vm_compute; repeat split; discriminate]|].
    rewrite encode_ascii by (unfold dquote; lia). reflexivity.
  - destruct Hw as (Hn & _ & Hhead). destruct name as [|c cps]; [done|]. apply Forall_cons in Hn as [(Hs & Hco & _) _].
    exists c, (utf8_text cps). split; [|done]. split; [done|]. split_and!; (intros ->; by vm_compute in Hco) || apply Hhead.
  - exists (ch "("). eexists. split; [split; [vm_compute; split; [split; discriminate|intros []; done]|vm_compute; repeat split; discriminate]|].
    rewrite encode_ascii by (vm_compute; split; done). reflexivity.
Qed.

(** Reading a text that stands for an expression. *)
Lemma next_reads source path m D ps r e rest n : Forall is_byte source → machine_ok m D ps → current_ m = base_ m → alone D (base_ m) →
  writable e → evaluator_ r = m → (position_ r ≤ length source)%nat →
  drop (position_ r) source = notation false (datum_of e) ++ rest → stops rest →
  Grow.space (heap_ m) (8 * (length source - position_ r) + n) →
  ∃ x r', next source path r = Some (Ret (Some x), r') ∧ drop (position_ r') source = rest ∧
    represents (heap_ (evaluator_ r')) (base_ m) x e ∧ ∃ D', machine_ok (evaluator_ r') D' ps ∧ extends m (evaluator_ r') D D'.
Proof.
  intros Hs Hm Hc Hal Hw <- Hp Hl Hr Hsp. destruct (text_starts e Hw) as (c & t & (Hsc & H1 & H2 & H3 & H4 & _) & Ht).
  set (r1 := set_form_position (position_ r) r).
  assert (inv source (evaluator_ r) D ps n r1) as Hi.
  { split; [|done]. exists D. split; [done|]. apply extends_same, Hm. }
  destruct (form_tail source path Hs (evaluator_ r) D ps Hc Hal e Hw) as [Hform _].
  destruct (Hform (λ o r', ∃ x, o = Some x ∧ drop (position_ r') source = rest ∧ represents (held r') (base_ (evaluator_ r)) x e ∧
      ∃ D', machine_ok (evaluator_ r') D' ps ∧ extends (evaluator_ r) (evaluator_ r') D D')
    (turns source r1) [] r1 n rest) as (o & r' & Ha & x & -> & Hl' & Hx & HD); try done.
  - cbn. eapply inv_le; [exact Hi|lia].
  - unfold turns. lia.
  - intros x r' fuel' Hg Hx Hf. apply does_ret. exists x. split; [done|]. split; [apply Hg|]. split; [done|].
    destruct (got_inv _ _ _ _ _ _ _ _ _ _ Hg) as ((D' & Hm' & He') & _). by exists D'.
  - exists x, r'. split; [|done]. unfold next, located.
    assert (space source r = Some (Ret tt, r)) as Hspace by (apply (space_none source c (t ++ rest)); try done; by rewrite Hl, Ht, app_assoc).
    rewrite (bind_run _ _ _ _ _ Hspace). change (pbind here ?k ?r) with (k (position_ r) r). cbv beta.
    change (pbind (modify ?f) ?k ?r) with (k tt (f r)). cbv beta. fold r1. unfold form.
    change (pbind (gets ?f) ?k ?r) with (k (f r) r). cbv beta. by rewrite Ha.
Qed.

(** C5: The reader reads back what the printer writes: from the text of an expression of
    nonnegative numbers, Unicode strings, symbols of the current package and lists,
    followed by the end of the source, a blank or a closing parenthesis, [next] makes
    a value that stands for the expression, stops just after the text, and the value
    prints as the text that was read. *)
Theorem read_print source path m D ps r e rest n : Forall is_byte source → machine_ok m D ps → current_ m = base_ m →
  alone D (base_ m) → (str "WISP", base_ m) ∈ ps → writable e → evaluator_ r = m → (position_ r ≤ length source)%nat →
  drop (position_ r) source = notation false (datum_of e) ++ rest → stops rest →
  Grow.space (heap_ m) (8 * (length source - position_ r) + n) →
  ∃ x r', next source path r = Some (Ret (Some x), r') ∧ drop (position_ r') source = rest ∧
    represents (heap_ (evaluator_ r')) (base_ m) x e ∧
    ∃ k, ∀ j, print (heap_ (evaluator_ r')) (current_ (evaluator_ r')) (k + j) x = Some (Ret (notation false (datum_of e))).
Proof.
  intros Hs Hm Hc Hal Hin Hw Hev Hp Hl Hr Hsp.
  destruct (next_reads source path m D ps r e rest n Hs Hm Hc Hal Hw Hev Hp Hl Hr Hsp) as (x & r' & Hn & Hl' & Hx & D' & Hm' & He').
  exists x, r'. split; [done|]. split; [done|]. split; [done|]. destruct (extends_base _ _ _ _ He') as (_ & _ & -> & _). rewrite Hc.
  pose proof (np_named _ _ _ (mo_packages _ _ _ Hm')) as Hnamed. rewrite Forall_forall in Hnamed. specialize (Hnamed _ Hin). cbn [fst snd] in Hnamed.
  assert (base_ m ≠ nil) as Hnil by (intros E; rewrite E in Hnamed; by destruct Hnamed as (_ & Ht & _)).
  pose proof (represents_denotes _ _ _ Hnil Hnamed ltac:(by vm_compute) e x Hw Hx) as Hden.
  apply (print_show _ _ (2 * datum_size (datum_of e))), (proj1 (show_datum _ _ _)); [done| |lia].
  intros y Hy. by apply elem_of_empty in Hy.
Qed.

(** ** Witnesses *)

Definition sample : sexp := S_cons (S_symbol [65]) (S_cons (S_string [0x22; 0xe9]) (S_number 12)).

Lemma sample_writable : writable sample.
Proof.
  split; [|split; [|vm_compute; split; discriminate]].
  - split; [|split; [split; discriminate|split; [done|discriminate]]].
    apply Forall_singleton. split; [unfold scalar; lia|]. split; [done|]. split; [discriminate|lia].
  - apply Forall_cons_2; [unfold scalar; lia|]. apply Forall_singleton. unfold scalar. lia.
Qed.

Definition sample_text : bytes := notation false (datum_of sample).

Lemma sample_bytes : Forall is_byte sample_text.
Proof. apply (bool_decide_unpack _). vm_compute. exact I. Qed.

Lemma read_print_witness : ∃ m x r', new_evaluator [] (new_heap false) = Some (Ret m) ∧
  next sample_text [] (MkReader m 0 0) = Some (Ret (Some x), r') ∧ represents (heap_ (evaluator_ r')) (base_ m) x sample.
Proof.
  destruct (small_machine 1000) as (m & D & Hn & Hm & Hc & Hsp & Hal); [vm_compute; discriminate|].
  destruct (read_print sample_text [] m D _ (MkReader m 0 0) sample [] 0 sample_bytes Hm Hc Hal) as (x & r' & Hx & _ & Hr & _).
  - do 2 right. by left.
  - exact sample_writable.
  - reflexivity.
  - apply Nat.le_0_l.
  - cbn [position_]. rewrite drop_0, app_nil_r. reflexivity.
  - by left.
  - apply (space_le _ _ _ Hsp). vm_compute. lia.
  - exists m, x, r'. split; [exact Hn|]. split; [exact Hx|exact Hr].
Defined.
