(* ===== verification/Frames.v ===== *)
(** * The evaluator's frame cache (src/src/wisp/eval.cpp, src/src/wisp/eval.hpp)

    A batch of transitions keeps the innermost frames of the continuation in a native
    array, with the argument vectors of suspended calls in a second array, and writes
    them to the heap as continuation rows only when it must. This file models that
    cache and shows that it is a stack of frames. Each operation also keeps the
    arguments of a suspended call that may be written in one place ([owned]), which
    [Capture] uses. *)
From S2P Require Import Prelude State Word Vat Heap Grow.
#[local] Open Scope Z_scope.

Record cached_frame := MkFrame {
  f_env : Z;
  f_fun : Z;
  f_acc : Z;
  f_arg : Z;
  progress_begin : nat;
  progress_size : nat;
}.

(** The sizes of [frames_] and [progress_]. *)
Definition max_frames : nat := 64.
Definition max_progress : nat := 1024.

(** The registers and arrays that frames use. *)
Record cache := MkCache {
  h : heap;
  env : Z;
  way : Z;
  frames_ : list cached_frame;
  depth : nat;
  progress_ : list Z;
  progress_used : nat;
}.

Abbreviation step := (prog cache fault).

Definition set_h (x : heap) (m : cache) : cache :=
  MkCache x (env m) (way m) (frames_ m) (depth m) (progress_ m) (progress_used m).
Definition set_way (x : Z) (m : cache) : cache :=
  MkCache (h m) (env m) x (frames_ m) (depth m) (progress_ m) (progress_used m).
Definition set_env (x : Z) (m : cache) : cache :=
  MkCache (h m) x (way m) (frames_ m) (depth m) (progress_ m) (progress_used m).
Definition set_frames (fs : list cached_frame) (d : nat) (m : cache) : cache :=
  MkCache (h m) (env m) (way m) fs d (progress_ m) (progress_used m).
Definition set_words (ws : list Z) (n : nat) (m : cache) : cache :=
  MkCache (h m) (env m) (way m) (frames_ m) (depth m) ws n.

Definition on_h {A} (o : op A) : step A := λ m,
  match o (h m) with
  | (r, x) => Some (r, set_h x m)
  end.

Definition asks {A} (q : heap → result fault A) : step A := λ m, Some (q (h m), m).

Definition assert (b : bool) : step unit := require b assertion.

(** [vm.frames_[i]]. *)
Definition no_frame : cached_frame := MkFrame 0 0 0 0 0 0.
Definition frame_at (i : nat) (m : cache) : cached_frame := nth i (frames_ m) no_frame.

(** An assignment to the innermost cached frame. *)
Definition alter_frame (g : cached_frame → cached_frame) (m : cache) : cache :=
  set_frames (<[(depth m - 1)%nat := g (frame_at (depth m - 1) m)]> (frames_ m)) (depth m) m.

Definition with_acc (x : Z) (f : cached_frame) : cached_frame :=
  MkFrame (f_env f) (f_fun f) x (f_arg f) (progress_begin f) (progress_size f).
Definition with_arg (x : Z) (f : cached_frame) : cached_frame :=
  MkFrame (f_env f) (f_fun f) (f_acc f) x (progress_begin f) (progress_size f).
Definition with_progress (b n : nat) (f : cached_frame) : cached_frame :=
  MkFrame (f_env f) (f_fun f) (f_acc f) (f_arg f) b n.

Definition segment_empty (m : cache) : bool := (depth m =? 0)%nat && (way m =? top).

Definition frame : step cached_frame :=
  m <~ gets (λ m, m);
  if negb (depth m =? 0)%nat then pret (frame_at (depth m - 1) m)
  else
    r <~ asks (hread T_ktx (way m));
    pret (MkFrame (nth 1 r 0) (nth 2 r 0) (nth 3 r 0) (nth 4 r 0) 0 0).

Definition frame_acc : step Z :=
  m <~ gets (λ m, m);
  if negb (depth m =? 0)%nat then pret (f_acc (frame_at (depth m - 1) m))
  else asks (hget T_ktx F_acc (way m)).

Definition inline_progress (m : cache) : bool :=
  negb (depth m =? 0)%nat && negb (progress_size (frame_at (depth m - 1) m) =? 0)%nat.

(** A part of the second array. *)
Definition words_of (f : cached_frame) (ws : list Z) : list Z := take (progress_size f) (drop (progress_begin f) ws).

Definition progress : step (list Z) :=
  m <~ gets (λ m, m);
  if inline_progress m then pret (words_of (frame_at (depth m - 1) m) (progress_ m))
  else
    acc <~ frame_acc;
    if bool_decide (tag_of acc = T_v32) then asks (v32slice acc) else pret [].

Definition set_progress (i : nat) (value : Z) : step unit :=
  m <~ gets (λ m, m);
  if inline_progress m then
    let f := frame_at (depth m - 1) m in
    _ <~ assert (i <? progress_size f)%nat;
    modify (λ m, set_words (<[(progress_begin f + i)%nat := value]> (progress_ m)) (progress_used m) m)
  else
    acc <~ frame_acc;
    on_h (v32set acc i value).

(** The loop of [spill]: each frame becomes a row on top of the ones before it. *)
Fixpoint spill_loop (fs : list cached_frame) : step unit :=
  match fs with
  | [] => pret tt
  | f :: fs' =>
      m <~ gets (λ m, m);
      acc <~ (if (progress_size f =? 0)%nat then pret (f_acc f) else on_h (newv32 (foreign (words_of f (progress_ m)))));
      w <~ on_h (make T_ktx [way m; f_env f; f_fun f; acc; f_arg f]);
      _ <~ modify (set_way w);
      spill_loop fs'
  end.

(** [std::move] of the elements from [from] to [stop] to the front of an array. *)
Definition move_front {A} (from stop : nat) (xs : list A) : list A :=
  let moved := take (stop - from) (drop from xs) in moved ++ drop (length moved) xs.

Definition spill (count : nat) : step unit :=
  m <~ gets (λ m, m);
  _ <~ assert (count <=? depth m)%nat;
  if (count =? 0)%nat then pret tt
  else
    _ <~ spill_loop (take count (frames_ m));
    let last := frame_at (count - 1) m in
    let released := (progress_begin last + progress_size last)%nat in
    _ <~ modify (λ m, set_words
           (if (released =? 0)%nat then progress_ m else move_front released (progress_used m) (progress_ m))
           (size_sub (progress_used m) released) m);
    modify (λ m,
      let kept := (depth m - count)%nat in
      let moved := move_front count (depth m) (frames_ m) in
      let shift f := with_progress (size_sub (progress_begin f) released) (progress_size f) f in
      set_frames ((shift <$> take kept moved) ++ drop kept moved) kept m).

Definition flush : step unit := m <~ gets (λ m, m); spill (depth m).

Definition push (fun_ acc arg : Z) : step unit :=
  m <~ gets (λ m, m);
  _ <~ (if (depth m =? max_frames)%nat then spill (depth m / 2) else pret tt);
  modify (λ m, set_frames
    (<[depth m := MkFrame (env m) fun_ acc arg (progress_used m) 0]> (frames_ m)) (S (depth m)) m).

Definition set_acc (acc : Z) : step unit :=
  m <~ gets (λ m, m);
  if negb (depth m =? 0)%nat then modify (alter_frame (with_acc acc))
  else
    frozen <~ asks (continuation_frozen (way m));
    _ <~ assert (negb frozen);
    on_h (hset T_ktx F_acc (way m) acc).

Definition set_position (arg : Z) : step unit :=
  m <~ gets (λ m, m);
  if negb (depth m =? 0)%nat then modify (alter_frame (with_arg arg))
  else
    frozen <~ asks (continuation_frozen (way m));
    _ <~ assert (negb frozen);
    on_h (hset T_ktx F_arg (way m) arg).

Definition make_progress (size : nat) : step unit :=
  m <~ gets (λ m, m);
  _ <~ assert (negb (size =? 0)%nat && negb (inline_progress m));
  if negb (depth m =? 0)%nat && (size <=? max_progress)%nat then
    _ <~ (if (max_progress - progress_used m <? size)%nat then spill (depth m - 1) else pret tt);
    m <~ gets (λ m, m);
    _ <~ assert (size <=? max_progress - progress_used m)%nat;
    _ <~ modify (alter_frame (with_progress (progress_used m) size));
    modify (λ m, set_words
      (take (progress_used m) (progress_ m) ++ replicate size nil ++ drop (progress_used m + size) (progress_ m))
      (progress_used m + size) m)
  else
    acc <~ on_h (filledv32 size nil);
    set_acc acc.

Definition pop : step unit :=
  m <~ gets (λ m, m);
  if negb (depth m =? 0)%nat then
    _ <~ modify (λ m, set_words (progress_ m) (progress_begin (frame_at (depth m - 1) m)) m);
    modify (λ m, set_frames (frames_ m) (depth m - 1) m)
  else
    w <~ asks (hget T_ktx F_hop (way m));
    modify (set_way w).

(** The frames whose accumulator is the arguments so far. *)
Definition suspended_call (fun_ : Z) : bool :=
  bool_decide (tag_of fun_ = T_fun) || bool_decide (tag_of fun_ = T_jet) || bool_decide (tag_of fun_ = T_rec).

Definition writable_frame : step unit :=
  m <~ gets (λ m, m);
  if negb (depth m =? 0)%nat then pret tt
  else
    frozen <~ asks (continuation_frozen (way m));
    if negb frozen then pret tt
    else
      f <~ frame;
      f <~ (if suspended_call (f_fun f) && bool_decide (tag_of (f_acc f) = T_v32) then
              xs <~ asks (v32slice (f_acc f));
              if negb (length xs =? 0)%nat && (length xs <=? max_progress)%nat then
                _ <~ modify (λ m, set_words (xs ++ drop (length xs) (progress_ m)) (length xs) m);
                pret (with_progress (progress_begin f) (length xs) (with_acc nil f))
              else
                acc <~ on_h (clonev32 (f_acc f));
                pret (with_acc acc f)
            else pret f);
      w <~ asks (hget T_ktx F_hop (way m));
      _ <~ modify (set_way w);
      modify (λ m, set_frames (<[depth m := f]> (frames_ m)) (S (depth m)) m).

(** ** The stack of frames *)

(** An accumulator: a word, or the words of a vector. *)
Inductive slot := Word (w : Z) | Words (ws : list Z).

Record aframe := MkA { a_env : Z; a_fun : Z; a_acc : slot; a_arg : Z }.

Definition shown (x : heap) (acc : Z) : slot :=
  if bool_decide (tag_of acc = T_v32) then
    match v32slice acc x with Ret ws => Words ws | Throw _ => Words [] end
  else Word acc.

Definition shown_frame (x : heap) (ws : list Z) (f : cached_frame) : aframe :=
  MkA (f_env f) (f_fun f) (if (progress_size f =? 0)%nat then shown x (f_acc f) else Words (words_of f ws)) (f_arg f).

(** The rows from [w] on, innermost first, each of them such that [P]. *)
Inductive saved (P : Z → Prop) (x : heap) : Z → list aframe → Prop :=
| saved_top : saved P x top []
| saved_row w hop e f a g l : valid x w → tag_of w = T_ktx → P w → hread T_ktx w x = Ret [hop; e; f; a; g] → valid x a →
    saved P x hop l → saved P x w (MkA e f (shown x a) g :: l).

Definition frozen_row (x : heap) (w : Z) : Prop := (Z.to_nat (index_of w) < frozen_ktx_ x)%nat.

#[export] Instance frozen_row_dec x w : Decision (frozen_row x w).
Proof. unfold frozen_row. apply _. Defined.

(** A continuation that was captured: its rows are frozen. *)
Definition captured (x : heap) (k : Z) (l : list aframe) : Prop := saved (frozen_row x) x k l.

Definition cached (m : cache) : list cached_frame := take (depth m) (frames_ m).

Definition stack (m : cache) (base : list aframe) : list aframe :=
  reverse (shown_frame (h m) (progress_ m) <$> cached m) ++ base.

(** *** Vectors in the word pool *)

(** Where the words of a vector are. *)
Definition extent (x : heap) (a : Z) : nat * nat :=
  (Z.to_nat (nth 0 (row_of x a) 0), Z.to_nat (nth 1 (row_of x a) 0)).

(** Two vectors with no word in common. *)
Definition apart (x : heap) (a b : Z) : Prop :=
  ∀ k, ((extent x a).1 ≤ k < (extent x a).1 + (extent x a).2)%nat → ((extent x b).1 ≤ k < (extent x b).1 + (extent x b).2)%nat → False.

Lemma apart_sym x a b : apart x a b → apart x b a.
Proof. unfold apart. eauto. Qed.

Lemma vector_pointer a : tag_of a = T_v32 → pointer_word a = true.
Proof. intros H. unfold pointer_word. by rewrite H. Qed.

Lemma frame_pointer a : tag_of a = T_ktx → pointer_word a = true.
Proof. intros H. unfold pointer_word. by rewrite H. Qed.

Lemma v32slice_extent x a : heap_ok x → valid x a → tag_of a = T_v32 →
  v32slice a x = Ret (take (extent x a).2 (drop (extent x a).1 (words_ x))) ∧
  ((extent x a).1 + (extent x a).2 ≤ length (words_ x))%nat.
Proof.
  intros Hh Hv Ht. split; [by apply hwords_ok|].
  pose proof (row_of_ok x a Hh Hv (vector_pointer a Ht)) as Hrow. rewrite Ht in Hrow.
  apply (in_pool_bounds x T_v32); [done|]. by apply (row_v32 _ _ _ Hrow).
Qed.

(** ** What an operation keeps *)

(** The rows of [x] that are not in [W] read as before in [y], and so do the words that
    are not in the vector [a]. *)
Record spares (W : Z → Prop) (a : option Z) (x y : heap) : Prop := {
  sp_from : heap_ok x;
  sp_to : heap_ok y;
  sp_frozen : frozen_ktx_ y = frozen_ktx_ x;
  sp_valid : ∀ v, valid x v → valid y v;
  sp_row : ∀ v, valid x v → pointer_word v = true → ¬ W v → row_of y v = row_of x v;
  sp_tags : ∀ v, W v → tag_of v = T_ktx;
  sp_pool : (length (words_ x) ≤ length (words_ y))%nat;
  sp_word : ∀ k w, words_ x !! k = Some w →
    (∀ b, a = Some b → ¬ ((extent x b).1 ≤ k < (extent x b).1 + (extent x b).2)%nat) → words_ y !! k = Some w;
  sp_size : (size_ (htable x T_ktx) ≤ size_ (htable y T_ktx))%nat;
}.

Definition nothing (_ : Z) : Prop := False.

(** Vectors apart from the one written read as before. *)
Lemma spares_slice W a x y b : spares W a x y → valid x b → tag_of b = T_v32 → (∀ c, a = Some c → apart x c b) →
  extent y b = extent x b ∧ v32slice b y = v32slice b x.
Proof.
  intros Hs Hv Ht Ha. assert (extent y b = extent x b) as He.
  { unfold extent. rewrite (sp_row _ _ _ _ Hs b Hv (vector_pointer b Ht)); [done|].
    intros Hw. apply (sp_tags _ _ _ _ Hs) in Hw. congruence. }
  split; [done|]. destruct (v32slice_extent x b (sp_from _ _ _ _ Hs) Hv Ht) as [-> Hle].
  destruct (v32slice_extent y b (sp_to _ _ _ _ Hs) (sp_valid _ _ _ _ Hs b Hv) Ht) as [-> Hle']. rewrite He. f_equal.
  apply list_eq. intros i. destruct (decide (i < (extent x b).2)%nat) as [Hi|Hi];
    [|by rewrite !lookup_take_ge by lia]. rewrite !lookup_take_lt, !lookup_drop by lia.
  destruct (lookup_lt_is_Some_2 (words_ x) ((extent x b).1 + i)) as [w Hw]; [lia|]. rewrite Hw.
  apply (sp_word _ _ _ _ Hs); [done|]. intros c Hc Hk. eapply (Ha c Hc); [exact Hk|]. lia.
Qed.

Lemma spares_shown W a x y b : spares W a x y → valid x b → (tag_of b = T_v32 → ∀ c, a = Some c → apart x c b) →
  shown y b = shown x b.
Proof.
  intros Hs Hv Ha. unfold shown. case_bool_decide as Ht; [|done]. by rewrite (proj2 (spares_slice _ _ _ _ b Hs Hv Ht (Ha Ht))).
Qed.

(** The accumulators of the rows. *)
Definition row_acc (x : heap) (w : Z) : Z := nth 3 (row_of x w) 0.
Definition row_fun (x : heap) (w : Z) : Z := nth 2 (row_of x w) 0.

Lemma saved_spares (P Q : Z → Prop) W a x y w l : spares W a x y → saved P x w l → (∀ v, P v → valid x v → ¬ W v ∧ Q v) →
  (∀ v c, P v → valid x v → tag_of v = T_ktx → a = Some c → tag_of (row_acc x v) = T_v32 → apart x c (row_acc x v)) → saved Q y w l.
Proof.
  intros Hs H HP Ha. induction H as [|w hop e f b g l Hv Ht Hp Hr Hb _ IH]; [constructor|].
  pose proof (hread_ok x T_ktx w (sp_from _ _ _ _ Hs) Hv Ht eq_refl) as Hread. rewrite Hr in Hread. injection Hread as Hread.
  destruct (HP w Hp Hv) as [Hw Hq].
  rewrite <- (spares_shown W a x y b Hs Hb).
  - apply (saved_row Q y w hop); [by apply Hs|done|done| |by apply Hs|done].
    rewrite hread_ok; [|apply Hs|by apply Hs|done|done]. by rewrite (sp_row _ _ _ _ Hs w Hv (frame_pointer w Ht) Hw), <- Hread.
  - intros Htb c Hc. specialize (Ha w c Hp Hv Ht Hc). unfold row_acc in Ha. rewrite <- Hread in Ha. by apply Ha.
Qed.

Lemma spares_trans x y z : spares nothing None x y → spares nothing None y z → spares nothing None x z.
Proof.
  intros [A1 A2 A3 A4 A5 A6 A7 A8 A9] [B1 B2 B3 B4 B5 B6 B7 B8 B9]. split; try done; try lia; [auto| |].
  - intros v Hv Hp Hn. rewrite B5, A5; auto.
  - intros k w Hk _. apply B8; [|done]. by apply A8.
Qed.

Lemma spares_refl x : heap_ok x → spares nothing None x x.
Proof. by split. Qed.

(** *** New rows and vectors *)

Lemma kept_spares x y : keeps x y → rows_kept x y → spares nothing None x y.
Proof.
  intros Hk Hr. split; try apply Hk; [apply Hr| |done|by apply prefix_length, Hk| |by apply Hr].
  - intros v Hv Hp _. by apply Hr.
  - intros k w Hw _. by eapply prefix_lookup_Some; [|apply Hk].
Qed.

Definition frame_valid (x : heap) (f : cached_frame) : Prop :=
  valid x (f_env f) ∧ valid x (f_fun f) ∧ valid x (f_acc f) ∧ valid x (f_arg f).

Lemma spares_frame_valid W a x y fs : spares W a x y → Forall (frame_valid x) fs → Forall (frame_valid y) fs.
Proof.
  intros Hs Hfs. eapply Forall_impl; [exact Hfs|]. intros f (H1 & H2 & H3 & H4). split; [by apply Hs|]. split; [by apply Hs|]. split; by apply Hs.
Qed.

Lemma spares_shown_frame x y ws f : spares nothing None x y → frame_valid x f → shown_frame y ws f = shown_frame x ws f.
Proof.
  intros Hs (_ & _ & Ha & _). unfold shown_frame. destruct (_ =? 0)%nat; [|done]. f_equal. by apply (spares_shown nothing None).
Qed.

Lemma spares_shown_frames x y ws fs : spares nothing None x y → Forall (frame_valid x) fs →
  shown_frame y ws <$> fs = shown_frame x ws <$> fs.
Proof.
  intros Hs Hfs. apply Forall_fmap_ext_1. eapply Forall_impl; [exact Hfs|]. intros f Hf. by apply spares_shown_frame.
Qed.

(** Any row. *)
Definition any (_ : Z) : Prop := True.

Lemma saved_spared P x y w l : spares nothing None x y → saved P x w l → saved P y w l.
Proof. intros Hs H. apply (saved_spares P P nothing None x y w l Hs H); [|done]. intros v Hp _. split; [intros []|done]. Qed.

Lemma saved_valid P x w l : saved P x w l → valid x w.
Proof. intros []; [by split|done]. Qed.

Lemma captured_spared x y k l : spares nothing None x y → captured x k l → captured y k l.
Proof.
  intros Hs H. unfold captured, frozen_row. rewrite (sp_frozen _ _ _ _ Hs). by apply (saved_spared _ x).
Qed.

Lemma saved_impl (P Q : Z → Prop) x w l : (∀ v, P v → Q v) → saved P x w l → saved Q x w l.
Proof. intros Hi. induction 1; econstructor; eauto. Qed.

Lemma saved_inv P x w a l : saved P x w (a :: l) → ∃ hop e f c g, a = MkA e f (shown x c) g ∧ valid x w ∧ tag_of w = T_ktx ∧
  P w ∧ hread T_ktx w x = Ret [hop; e; f; c; g] ∧ valid x c ∧ saved P x hop l.
Proof. intros H. inversion H; subst. eexists _, _, _, _, _. eauto 10. Qed.

(** A row determines the frames from it on. *)
Lemma saved_det P Q x w l l' : saved P x w l → saved Q x w l' → l = l'.
Proof.
  intros H. revert l'. induction H as [|w hop e f a g l Hv Ht _ Hr _ _ IH]; intros [|b l'] H'; [done| | |].
  - apply saved_inv in H' as (? & ? & ? & ? & ? & _ & _ & ? & _). done.
  - inversion H'; subst. done.
  - apply saved_inv in H' as (? & ? & ? & ? & ? & -> & _ & _ & _ & Hr' & _ & Hl). rewrite Hr in Hr'.
    injection Hr' as <- <- <- <- <-. f_equal. by apply IH.
Qed.

(** The rows below a row are other rows. *)
Lemma saved_below P x w b l : saved P x w (b :: l) → ∃ hop e f a g, b = MkA e f (shown x a) g ∧ valid x w ∧ tag_of w = T_ktx ∧
  P w ∧ hread T_ktx w x = Ret [hop; e; f; a; g] ∧ valid x a ∧ saved (λ v, P v ∧ v ≠ w) x hop l.
Proof.
  intros H. pose proof H as (hop & e & f & a & g & -> & Hv & Ht & Hp & Hr & Ha & Hl)%saved_inv.
  exists hop, e, f, a, g. split_and!; try done.
  assert (∀ v k, saved P x v k → (length k < length (MkA e f (shown x a) g :: l))%nat → saved (λ v, P v ∧ v ≠ w) x v k) as Hgen.
  { intros v k Hk. induction Hk as [|v hop' e' f' a' g' k Vv Tv Pv Rv Av Hk IH]; intros Hlt; [constructor|].
    econstructor; try done; [|apply IH; cbn in *; lia]. split; [done|]. intros ->.
    assert (MkA e' f' (shown x a') g' :: k = MkA e f (shown x a) g :: l) as E by (apply (saved_det P P x w); [by apply (saved_row P x w hop')|exact H]).
    rewrite E in Hlt. lia. }
  apply Hgen; [done|]. cbn. lia.
Qed.

(** ** The invariant of the cache *)

(** The words of the frames lie one after the other. *)
Fixpoint laid (n : nat) (fs : list cached_frame) : Prop :=
  match fs with
  | [] => True
  | f :: fs' => progress_begin f = n ∧ laid (n + progress_size f) fs'
  end.

Definition total (fs : list cached_frame) : nat := sum_list_with progress_size fs.

Lemma laid_app n fs gs : laid n (fs ++ gs) ↔ laid n fs ∧ laid (n + total fs) gs.
Proof.
  revert n. induction fs as [|f fs IH]; intros n; cbn; [rewrite Nat.add_0_r; tauto|].
  rewrite IH, Nat.add_assoc. tauto.
Qed.

Lemma total_app fs gs : total (fs ++ gs) = (total fs + total gs)%nat.
Proof. apply sum_list_with_app. Qed.

Record cache_ok (m : cache) (base : list aframe) : Prop := {
  ck_heap : heap_ok (h m);
  ck_frames : length (frames_ m) = max_frames;
  ck_words : length (progress_ m) = max_progress;
  ck_depth : (depth m ≤ max_frames)%nat;
  ck_used : progress_used m = total (cached m);
  ck_fits : (progress_used m ≤ max_progress)%nat;
  ck_laid : laid 0 (cached m);
  ck_env : valid (h m) (env m);
  ck_valid : Forall (frame_valid (h m)) (cached m);
  ck_args : Forall (valid (h m)) (take (progress_used m) (progress_ m));
  ck_base : saved any (h m) (way m) base;
}.

(** The stack that a cache shows. *)
Definition holds (m : cache) (l : list aframe) : Prop := ∃ base, cache_ok m base ∧ l = stack m base.

Lemma cached_length m base : cache_ok m base → length (cached m) = depth m.
Proof. intros H. unfold cached. rewrite length_take, (ck_frames _ _ H). pose proof (ck_depth _ _ H). lia. Qed.

(** *** Who holds which vector *)

(** A row of the heap or a frame of the cache, by its place. *)
Abbreviation holder := (Z + nat)%type.

(** The holder runs the function [f] and its accumulator is the vector [a]. *)
Definition has (x : heap) (fs : list cached_frame) (p : holder) (f a : Z) : Prop :=
  tag_of a = T_v32 ∧
  match p with
  | inl w => valid x w ∧ tag_of w = T_ktx ∧ row_fun x w = f ∧ row_acc x w = a
  | inr i => ∃ c, fs !! i = Some c ∧ f_fun c = f ∧ f_acc c = a
  end.

(** A suspended call that may be written where it is: in the cache, or in a row that is not frozen. *)
Definition unshared (x : heap) (p : holder) (f : Z) : Prop :=
  suspended_call f = true ∧ match p with inl w => ¬ frozen_row x w | inr _ => True end.

(** The arguments of a suspended call that may be written are in no other frame, in no row and
    in no continuation that was captured. *)
Definition owned (x : heap) (fs : list cached_frame) : Prop :=
  ∀ p q f g a b, p ≠ q → has x fs p f a → has x fs q g b → unshared x p f → apart x a b.

(** The words of [a] were not there in [x]. *)
Definition fresh (x y : heap) (a : Z) : Prop := (length (words_ x) ≤ (extent y a).1)%nat.

(** No row of a frame was made. *)
Definition same_frames (x y : heap) : Prop := era_ y = era_ x ∧ size_ (htable y T_ktx) = size_ (htable x T_ktx).

Lemma same_frames_valid x y w : same_frames x y → valid y w → tag_of w = T_ktx → valid x w.
Proof.
  intros [He Hs] [Hw Hp] Ht. split; [done|]. intros Hpw. destruct (Hp Hpw) as [E Hi]. rewrite Ht in *. split; [congruence|lia].
Qed.

Lemma has_valid x fs p f a : heap_ok x → Forall (frame_valid x) fs → has x fs p f a → valid x a.
Proof.
  intros Hh Hfs [Ht H]. destruct p as [w|i].
  - destruct H as (Hv & Htw & _ & <-). pose proof (row_of_ok x w Hh Hv (frame_pointer w Htw)) as Hr. rewrite Htw in Hr. unfold row_acc in *.
    rewrite nth_lookup in *. destruct (row_of x w !! 3%nat) as [a|] eqn:E; [|done]. apply (row_values _ _ _ Hr 3); [by eexists|done].
  - destruct H as (c & Hc & _ & <-). rewrite Forall_forall in Hfs. apply (Hfs c). by eapply list_elem_of_lookup_2.
Qed.

Lemma spares_extent W v x y a : spares W v x y → valid x a → tag_of a = T_v32 → extent y a = extent x a.
Proof.
  intros Hs Hv Ht. unfold extent. rewrite (sp_row _ _ _ _ Hs a Hv (vector_pointer a Ht)); [done|].
  intros Hw. apply (sp_tags _ _ _ _ Hs) in Hw. congruence.
Qed.

(** Ownership after a step, from where each holder has its vector: [from] is the holder that had it,
    or nothing when the vector is new. *)
Lemma owned_by (from : holder → option holder) W v x y fs gs : spares W v x y → Forall (frame_valid x) fs →
  (∀ p f a, has y gs p f a → match from p with Some p0 => has x fs p0 f a | None => fresh x y a end) →
  (∀ p p0 f a, has y gs p f a → unshared y p f → from p = Some p0 → unshared x p0 f) →
  (∀ p q f g a b, has y gs p f a → has y gs q g b → unshared y p f → from p = from q → p = q) →
  owned x fs → owned y gs.
Proof.
  intros Hs Hfs Hfrom Hun Hinj Ho p q f g a b Hne Hp Hq Hu. pose proof (sp_from _ _ _ _ Hs) as Hh.
  assert (∀ p0 f a, has x fs p0 f a → extent y a = extent x a ∧ ((extent x a).1 + (extent x a).2 ≤ length (words_ x))%nat) as Hold.
  { intros p0 f0 a0 H0. pose proof (has_valid _ _ _ _ _ Hh Hfs H0) as Hv. pose proof (proj1 H0) as Ht.
    split; [by eapply spares_extent|by apply v32slice_extent]. }
  pose proof (Hfrom _ _ _ Hp) as H1. pose proof (Hfrom _ _ _ Hq) as H2. pose proof (Hinj _ _ _ _ _ _ Hp Hq Hu) as H3. unfold apart.
  destruct (from p) as [p0|] eqn:Ep, (from q) as [q0|] eqn:Eq; [| | |by destruct Hne; apply H3].
  - destruct (Hold _ _ _ H1) as [-> _], (Hold _ _ _ H2) as [-> _]. eapply (Ho p0 q0); [|done|done|by eapply Hun].
    intros ->. by destruct Hne; apply H3.
  - destruct (Hold _ _ _ H1) as [-> Hle]. unfold fresh in H2. lia.
  - destruct (Hold _ _ _ H2) as [-> Hle]. unfold fresh in H1. lia.
Qed.

(** At most the holder [o] has another vector, a new one. *)
Lemma owned_update (o : option holder) W v x y fs gs : spares W v x y → same_frames x y → Forall (frame_valid x) fs →
  (∀ w, valid x w → tag_of w = T_ktx → o ≠ Some (inl w) → tag_of (row_acc y w) = T_v32 → row_fun y w = row_fun x w ∧ row_acc y w = row_acc x w) →
  (∀ i c, gs !! i = Some c → o ≠ Some (inr i) → tag_of (f_acc c) = T_v32 → ∃ c', fs !! i = Some c' ∧ f_fun c' = f_fun c ∧ f_acc c' = f_acc c) →
  (∀ p f a, o = Some p → has y gs p f a → fresh x y a) → owned x fs → owned y gs.
Proof.
  intros Hs Hsame Hfs Hrows Hslots Hnew. apply (owned_by (λ p, if decide (o = Some p) then None else Some p) W v); [done|done| | |].
  - intros p f a Hp. case_decide as E; [by eapply Hnew|]. destruct Hp as [Ht Hp]. split; [done|]. destruct p as [w|i].
    + destruct Hp as (Hv & Htw & Hf & Ha). pose proof (same_frames_valid _ _ _ Hsame Hv Htw) as Hvx.
      destruct (Hrows w Hvx Htw E) as [Ef Ea]; [by rewrite Ha|]. by rewrite <- Ef, <- Ea.
    + destruct Hp as (c & Hc & Hf & Ha). destruct (Hslots i c Hc E) as (c' & Hc' & Ef & Ea); [by rewrite Ha|]. exists c'. split_and!; [done|congruence|congruence].
  - intros p p0 f a _ Hu. case_decide; [done|]. intros [= <-]. destruct Hu as [Hf Hu]. split; [done|]. destruct p; [|done].
    unfold frozen_row in *. by rewrite <- (sp_frozen _ _ _ _ Hs).
  - intros p q f g a b _ _ _. case_decide as E1; case_decide as E2; congruence.
Qed.

(** The heap is the same, and the frames hold no other vectors. *)
Lemma owned_frames x fs gs : heap_ok x → Forall (frame_valid x) fs →
  (∀ i c, gs !! i = Some c → tag_of (f_acc c) = T_v32 → ∃ c', fs !! i = Some c' ∧ f_fun c' = f_fun c ∧ f_acc c' = f_acc c) →
  owned x fs → owned x gs.
Proof. intros Hh Hfs H. eapply (owned_update None nothing None); [by apply spares_refl|done|done|done| |done]. intros i c Hc _. by apply H. Qed.

(** The innermost frame is another, with the same function and accumulator. *)
Lemma same_vectors_last init f g : f_fun g = f_fun f → f_acc g = f_acc f →
  ∀ i c, (init ++ [g]) !! i = Some c → tag_of (f_acc c) = T_v32 → ∃ c', (init ++ [f]) !! i = Some c' ∧ f_fun c' = f_fun c ∧ f_acc c' = f_acc c.
Proof.
  intros Ef Ea i c Hi _. apply lookup_app_Some in Hi as [Hi|[Hlen Hi]]; [exists c; split; [by apply lookup_app_l_Some|done]|].
  apply list_lookup_singleton_Some in Hi as [Hz <-]. exists f. split; [|done]. by rewrite lookup_app_r, Hz by done.
Qed.

(** The heap grew, with no new frame. *)
Lemma owned_grown v x y fs : spares nothing v x y → same_frames x y → Forall (frame_valid x) fs → owned x fs → owned y fs.
Proof.
  intros Hs Hsame Hfs. apply (owned_update None nothing v x y fs fs Hs Hsame Hfs); [|by eauto|done].
  intros w Hv Ht _ _. unfold row_fun, row_acc. by rewrite (sp_row _ _ _ _ Hs w Hv (frame_pointer w Ht)) by (by intros []).
Qed.

(** The first frame of a list becomes a row; its vector, if it has one, is the one it had or a new one. *)
Lemma owned_spilled x y f fs w hop acc : spares nothing None x y → Forall (frame_valid x) (f :: fs) →
  (∀ u, valid y u → tag_of u = T_ktx → valid x u ∨ u = w) → ¬ valid x w → row_of y w = [hop; f_env f; f_fun f; acc; f_arg f] →
  (acc = f_acc f ∨ fresh x y acc) → owned x (f :: fs) → owned y fs.
Proof.
  intros Hs Hfs Hrows Hw Hrow Hacc. assert (row_fun y w = f_fun f ∧ row_acc y w = acc) as [Ef Ea] by (unfold row_fun, row_acc; by rewrite Hrow).
  set (from := λ p : holder, match p with
    | inl u => if decide (u = w) then if decide (acc = f_acc f) then Some (inr 0%nat) else None else Some (inl u)
    | inr i => Some (inr (S i))
    end).
  apply (owned_by from nothing None); [done|done| | |].
  - intros p g a [Ht Hp]. destruct p as [u|i]; cbn [from]; [|by split].
    destruct Hp as (Hv & Htu & Hg & Ha). destruct (decide (u = w)) as [->|Hne].
    + rewrite Ef in Hg. rewrite Ea in Ha. subst g a. destruct (decide (acc = f_acc f)) as [E|E]; [|by destruct Hacc]. split; [done|]. by exists f.
    + destruct (Hrows u Hv Htu) as [Hvx|]; [|done]. split; [done|]. unfold row_fun, row_acc in *.
      by rewrite (sp_row _ _ _ _ Hs u Hvx (frame_pointer u Htu)) in Hg, Ha by (by intros []).
  - intros p p0 g a _ [Hg Hu] Hf. split; [done|]. destruct p as [u|i]; cbn [from] in Hf; [|by injection Hf as <-].
    repeat case_decide; try done; injection Hf as <-; [done|]. unfold frozen_row in *. by rewrite <- (sp_frozen _ _ _ _ Hs).
  - intros p q f1 f2 a1 a2 _ _ _. destruct p, q; cbn [from]; repeat case_decide; congruence.
Qed.

(** *** Writing frames to the heap *)

(** The space that a frame takes in the heap. *)
Definition cost (fs : list cached_frame) : nat := sum_list_with (λ f, 2 + progress_size f)%nat fs.

Lemma cost_total fs : cost fs = (2 * length fs + total fs)%nat.
Proof. unfold cost, total. induction fs as [|f fs IH]; [done|]. cbn [sum_list_with length]. lia. Qed.

Lemma cache_cost m base : cache_ok m base → (cost (cached m) ≤ 2 * max_frames + max_progress)%nat.
Proof.
  intros H. rewrite cost_total, <- (ck_used _ _ H), (cached_length m base H).
  pose proof (ck_depth _ _ H). pose proof (ck_fits _ _ H). lia.
Qed.

Lemma ktx_row_ok x w e f a g : valid x w → valid x e → valid x f → valid x a → valid x g →
  w ≠ zap → row_ok x T_ktx [w; e; f; a; g].
Proof.
  intros Hw He Hf Ha Hg Hz. split; try done.
  - repeat (apply Forall_cons_2; [by match goal with H : valid _ ?v |- is_word ?v => apply H end|]). apply Forall_nil_2.
  - intros c v _ Hx. destruct c as [|[|[|[|[|]]]]]; try done; by injection Hx as <-.
Qed.

Lemma saved_not_zap P x w l : saved P x w l → w ≠ zap.
Proof. intros [|? ? ? ? ? ? ? ? Ht]; [done|]. intros ->. done. Qed.

(** A row is the only new one. *)
Lemma new_row_only x y w : era_ y = era_ x → one_more T_ktx x y → valid y w → tag_of w = T_ktx → ¬ valid x w →
  ∀ u, valid y u → tag_of u = T_ktx → valid x u ∨ u = w.
Proof.
  intros He Hm Hw Htw Hnw u Hu Htu. specialize (Hm T_ktx eq_refl). rewrite decide_True in Hm by done.
  assert (∀ v, valid y v → tag_of v = T_ktx → ¬ valid x v → Z.to_nat (index_of v) = size_ (htable x T_ktx)) as Hidx.
  { intros v [Hv1 Hv2] Ht Hn. destruct (Hv2 (frame_pointer v Ht)) as [E Hlt]. rewrite Ht in Hlt.
    destruct (Nat.lt_ge_cases (Z.to_nat (index_of v)) (size_ (htable x T_ktx))) as [H|H]; [|lia]. destruct Hn. split; [done|]. intros _. rewrite Ht. split; [congruence|done]. }
  destruct (decide (Z.to_nat (index_of u) = size_ (htable x T_ktx))) as [E|E].
  - right. apply (same_row y); [done|done|by apply frame_pointer|congruence|]. by rewrite E, (Hidx w).
  - left. destruct Hu as [Hu1 Hu2]. split; [done|]. intros Hp. destruct (Hu2 Hp) as [E' Hlt]. rewrite Htu in *. split; [congruence|lia].
Qed.

Lemma vector_frames x y ws n a : vector_made x y ws n a → same_frames x y ∧ fresh x y a ∧ spares nothing None x y.
Proof.
  intros (Hk & _ & _ & _ & Hr & _ & Hrow & _ & Hm). split; [|split; [|by apply kept_spares]].
  - split; [apply Hr|]. rewrite (Hm T_ktx eq_refl), decide_False by done. lia.
  - unfold fresh, extent. rewrite Hrow. cbn. lia.
Qed.

Lemma spill_frame m f base n : heap_ok (h m) → frame_valid (h m) f → Forall (valid (h m)) (words_of f (progress_ m)) →
  length (words_of f (progress_ m)) = progress_size f →
  saved any (h m) (way m) base → space (h m) (cost [f] + n) →
  ∃ x acc w y, (if (progress_size f =? 0)%nat then pret (f_acc f) else on_h (newv32 (foreign (words_of f (progress_ m))))) m =
      Some (Ret acc, set_h x m) ∧
    make T_ktx [way m; f_env f; f_fun f; acc; f_arg f] x = (Ret w, y) ∧
    spares nothing None (h m) y ∧ space y n ∧ saved any y w (shown_frame (h m) (progress_ m) f :: base) ∧
    (∀ fs, Forall (frame_valid (h m)) (f :: fs) → owned (h m) (f :: fs) → owned y fs).
Proof.
  intros Hh (He & Hf & Ha & Hg) Hws Hlen Hb Hsp. rewrite cost_total in Hsp. cbn [length total sum_list_with] in Hsp.
  assert (∃ x acc, (if (progress_size f =? 0)%nat then pret (f_acc f) else on_h (newv32 (foreign (words_of f (progress_ m))))) m =
      Some (Ret acc, set_h x m) ∧ spares nothing None (h m) x ∧ space x (S n) ∧ valid x acc ∧
      shown x acc = a_acc (shown_frame (h m) (progress_ m) f) ∧ same_frames (h m) x ∧ (acc = f_acc f ∨ fresh (h m) x acc ∧ tag_of acc = T_v32))
      as (x & acc & Hacc & Hs & Hsx & Hva & Hsh & Hsame & Hwhose).
  { unfold shown_frame. cbn [a_acc]. destruct (Nat.eqb_spec (progress_size f) 0) as [H0|H0].
    - exists (h m), (f_acc f). split; [by destruct m|]. split; [by apply spares_refl|]. split; [eapply space_le; [exact Hsp|lia]|]. split; [done|]. split; [done|]. split; [done|by left].
    - destruct (newv32_made (h m) (words_of f (progress_ m)) (S n) Hh Hws) as (acc & x & Hm & Hvm).
      { eapply space_le; [exact Hsp|]. rewrite Hlen. lia. }
      destruct (vector_frames _ _ _ _ _ Hvm) as (Hsame & Hfresh & _). destruct Hvm as (Hk & Hv & Ht & Hwd & Hr & Hsx & _).
      exists x, acc. unfold on_h. rewrite Hm. split; [done|]. split; [by apply kept_spares|]. split; [done|]. split; [done|]. split; [|split; [done|by right]].
      unfold shown. rewrite bool_decide_true by done. unfold v32slice. by rewrite Hwd. }
  destruct (make_sizes x T_ktx [way m; f_env f; f_fun f; acc; f_arg f] n) as (w & y & Hm & (Hk & Hvw & Htw & Hrow & Hnw) & Hr & Hsy & Hone & _).
  { apply Hs. } { done. } { done. }
  { apply ktx_row_ok; try (by apply Hs); [|done|by eapply saved_not_zap]. apply Hs. by eapply saved_valid. }
  { done. }
  exists x, acc, w, y. split; [done|]. split; [done|].
  assert (spares nothing None x y) as Hxy by (by apply kept_spares).
  split; [by eapply spares_trans|]. split; [done|].
  assert (shown_frame (h m) (progress_ m) f = MkA (f_env f) (f_fun f) (shown y acc) (f_arg f)) as ->.
  { rewrite (spares_shown nothing None x y acc Hxy Hva) by done. by rewrite Hsh. }
  split.
  - apply (saved_row any y w (way m)); [done|done|done| |by apply Hxy|].
    + rewrite hread_ok; [by rewrite Hrow|apply Hk|done..].
    + apply (saved_spared any x); [done|]. by apply (saved_spared any (h m)).
  - intros fs Hfs. pose proof (new_row_only x y w (rk_era _ _ Hr) Hone Hvw Htw Hnw) as Honly.
    apply (owned_spilled (h m) y f fs w (way m) acc); [by eapply spares_trans|done| | |done|].
    + intros u Hu Htu. destruct (Honly u Hu Htu) as [Hx|]; [left; by eapply same_frames_valid|by right].
    + intros Hv. by apply Hnw, Hs.
    + destruct Hwhose as [|[Hfr Ht]]; [by left|right]. unfold fresh in *. by rewrite (spares_extent nothing None x y acc Hxy Hva Ht).
Qed.

Lemma words_of_length f ws : (progress_begin f + progress_size f ≤ length ws)%nat → length (words_of f ws) = progress_size f.
Proof. intros H. unfold words_of. len. Qed.

Lemma words_of_valid P n fs f ws : laid n fs → f ∈ fs → Forall P (take (n + total fs) ws) → Forall P (words_of f ws) ∧
  (progress_begin f + progress_size f ≤ n + total fs)%nat.
Proof.
  revert n. induction fs as [|g fs IH]; intros n; [by intros _ ?%elem_of_nil|]. intros [Hb Hl] [->|Hf]%elem_of_cons Hws.
  - cbn in *. split; [|lia]. unfold words_of. rewrite Hb, take_drop_commute. apply Forall_drop.
    assert (take (n + progress_size g) ws = take (n + progress_size g) (take (n + (progress_size g + sum_list_with progress_size fs)) ws)) as ->
      by (rewrite take_take; f_equal; lia). by apply Forall_take.
  - destruct (IH (n + progress_size g)%nat) as [H1 H2]; [done|done|by rewrite <- Nat.add_assoc|]. split; [done|]. cbn in *. unfold total in *. lia.
Qed.

Lemma spill_loop_run fs m base n k : heap_ok (h m) → laid n fs → Forall (frame_valid (h m)) fs →
  Forall (valid (h m)) (take (n + total fs) (progress_ m)) → (n + total fs ≤ length (progress_ m))%nat →
  saved any (h m) (way m) base → space (h m) (cost fs + k) →
  ∃ y w, spill_loop fs m = Some (Ret tt, set_way w (set_h y m)) ∧ spares nothing None (h m) y ∧ space y k ∧
    saved any y w (reverse (shown_frame (h m) (progress_ m) <$> fs) ++ base) ∧
    (∀ gs, Forall (frame_valid (h m)) gs → owned (h m) (fs ++ gs) → owned y gs).
Proof.
  revert m base n. induction fs as [|f fs IH]; intros m base n Hh Hl Hv Hws Hlen Hb Hsp.
  - exists (h m), (way m). split; [by destruct m|]. split; [by apply spares_refl|]. split; [done|]. split; [done|]. by intros gs.
  - apply Forall_cons in Hv as [Hf Hv]. destruct (words_of_valid (valid (h m)) n (f :: fs) f (progress_ m) Hl) as [Hwv Hwl]; [by left|done|].
    destruct (spill_frame m f base (cost fs + k)%nat) as (x & acc & w & y & Hacc & Hm & Hs & Hsy & Hb' & Hown); try done.
    { apply words_of_length. lia. } { rewrite !cost_total in *. eapply space_le; [exact Hsp|]. cbn. unfold total. lia. }
    destruct Hl as [_ Hl].
    destruct (IH (set_way w (set_h y m)) (shown_frame (h m) (progress_ m) f :: base) (n + progress_size f)%nat) as (z & w' & Hrun & Hs' & Hsz & Hb2 & Hown').
    { apply Hs. } { done. } { by eapply spares_frame_valid. }
    { change (h (set_way w (set_h y m))) with y. change (progress_ (set_way w (set_h y m))) with (progress_ m).
      cbn in Hws. rewrite <- Nat.add_assoc. eapply Forall_impl; [exact Hws|]. intros v. apply Hs. }
    { cbn in Hlen. change (progress_ (set_way w (set_h y m))) with (progress_ m). unfold total in *. lia. } { done. } { done. }
    exists z, w'. split; [|split; [by eapply spares_trans|split; [done|split]]].
    + cbn [spill_loop]. change (pbind (gets ?g) ?kk ?r) with (kk (g r) r). cbv beta. rewrite (bind_run _ _ _ _ _ Hacc).
      unfold on_h at 1, pbind at 1. change (h (set_h x m)) with x. rewrite Hm.
      change (pbind (modify ?g) ?kk ?r) with (kk tt (g r)). exact Hrun.
    + change (h (set_way w (set_h y m))) with y in Hb2. change (progress_ (set_way w (set_h y m))) with (progress_ m) in Hb2.
      rewrite (spares_shown_frames (h m) y) in Hb2 by done. rewrite fmap_cons, reverse_cons, <- app_assoc. done.
    + intros gs Hgs Ho. apply Hown'; [by eapply spares_frame_valid|]. apply Hown; [|done]. apply Forall_cons_2; [done|]. by apply Forall_app.
Qed.

(** *** Moving the frames that stay *)

Lemma move_front_take {A} r s (xs : list A) : (r ≤ s ≤ length xs)%nat →
  take (s - r) (move_front r s xs) = take (s - r) (drop r xs) ∧ length (move_front r s xs) = length xs.
Proof.
  intros H. unfold move_front. assert (length (take (s - r) (drop r xs)) = (s - r)%nat) as Hl by len. split; [|len].
  rewrite take_app_le by lia. by rewrite take_ge by lia.
Qed.

(** A frame whose words moved down by [r]. *)
Definition shift (r : nat) (f : cached_frame) : cached_frame :=
  with_progress (size_sub (progress_begin f) r) (progress_size f) f.

Lemma laid_shift r n fs : laid (r + n) fs → (r + n + total fs ≤ max_progress)%nat → laid n (shift r <$> fs).
Proof.
  revert n. induction fs as [|f fs IH]; intros n; [done|]. intros [Hb Hl] Hle. cbn in *. unfold total in *. split.
  - rewrite Hb, size_sub_small; [lia|lia|]. unfold max_progress in *. lia.
  - apply IH; [by rewrite Nat.add_assoc|]. lia.
Qed.

Lemma total_shift r fs : total (shift r <$> fs) = total fs.
Proof. unfold total. induction fs as [|f fs IH]; [done|]. cbn. by rewrite IH. Qed.

Lemma laid_begin n fs f : laid n fs → f ∈ fs → (n ≤ progress_begin f ∧ progress_begin f + progress_size f ≤ n + total fs)%nat.
Proof.
  intros Hl Hf. split; [|by apply (words_of_valid (λ _, True) n fs f []); [done|done|apply Forall_true]].
  revert n Hl. induction Hf as [|f g fs Hf IH]; intros n [Hb Hl]; [lia|]. specialize (IH _ Hl). lia.
Qed.

Lemma laid_last n fs f : laid n (fs ++ [f]) → (progress_begin f + progress_size f = n + total (fs ++ [f]))%nat.
Proof. intros [_ [Hb _]]%laid_app. rewrite total_app. cbn. lia. Qed.

Lemma shift_frame x r ws ws' u f : (r ≤ progress_begin f)%nat → (progress_begin f + progress_size f ≤ u)%nat → (u ≤ max_progress)%nat →
  (u ≤ length ws)%nat → take (u - r) ws' = take (u - r) (drop r ws) → shown_frame x ws' (shift r f) = shown_frame x ws f.
Proof.
  intros H1 H2 H3 H4 Hws. unfold shown_frame. cbn [progress_size shift with_progress f_env f_fun f_acc f_arg]. f_equal.
  destruct (_ =? 0)%nat; [done|]. f_equal. unfold words_of. cbn [progress_begin progress_size shift with_progress].
  rewrite size_sub_small by (unfold max_progress in *; lia).
  assert (∀ zs : list Z, take (progress_size f) (drop (progress_begin f - r) zs) =
    take (progress_size f) (drop (progress_begin f - r) (take (u - r) zs))) as Hcut.
  { intros zs. rewrite !take_drop_commute, take_take. do 2 f_equal. lia. }
  rewrite Hcut, Hws, <- Hcut, drop_drop. do 2 f_equal. lia.
Qed.

Lemma cached_split m base count : cache_ok m base → (count ≤ depth m)%nat →
  cached m = take count (frames_ m) ++ drop count (cached m) ∧ take count (frames_ m) = take count (cached m) ∧
  drop count (cached m) = take (depth m - count) (drop count (frames_ m)).
Proof.
  intros H Hc. unfold cached. split_and!.
  - rewrite <- (take_drop count (take (depth m) (frames_ m))) at 1. rewrite take_take. do 2 f_equal. lia.
  - rewrite take_take. f_equal. lia.
  - rewrite take_drop_commute. do 2 f_equal. lia.
Qed.

(** The place after the words of the first [count] frames. *)
Lemma released_total m base count : cache_ok m base → (0 < count ≤ depth m)%nat →
  (progress_begin (frame_at (count - 1) m) + progress_size (frame_at (count - 1) m))%nat = total (take count (cached m)).
Proof.
  intros H Hc. pose proof (cached_length m base H) as Hlen.
  destruct (lookup_lt_is_Some_2 (cached m) (count - 1)) as [f Hf]; [lia|].
  assert (frame_at (count - 1) m = f) as ->.
  { unfold frame_at. rewrite nth_lookup. unfold cached in Hf. rewrite lookup_take_lt in Hf by lia. by rewrite Hf. }
  assert (take count (cached m) = take (count - 1) (cached m) ++ [f]) as E.
  { rewrite <- (take_S_r _ _ _ Hf). f_equal. lia. }
  pose proof (ck_laid _ _ H) as Hl. rewrite <- (take_drop count (cached m)), E in Hl. apply laid_app in Hl as [Hl _].
  rewrite E. by apply (laid_last 0).
Qed.

Lemma shift_none fs : laid 0 fs → (total fs ≤ max_progress)%nat → shift 0 <$> fs = fs.
Proof.
  intros Hl Hle. rewrite <- (list_fmap_id fs) at 2. apply list_fmap_ext. intros i f Hf.
  apply list_elem_of_lookup_2, (laid_begin 0 fs f Hl) in Hf. destruct f. unfold shift, with_progress. cbn in *. f_equal.
  rewrite size_sub_small; [lia|lia|]. unfold max_progress in *. lia.
Qed.

(** The cache after the first frames were written: the others, and their words, moved to the front. *)
Definition kept_cache (count : nat) (y : heap) (w : Z) (m : cache) : cache :=
  let r := total (take count (cached m)) in
  let moved := move_front count (depth m) (frames_ m) in
  MkCache y (env m) w ((shift r <$> take (depth m - count) moved) ++ drop (depth m - count) moved) (depth m - count)
    (if (r =? 0)%nat then progress_ m else move_front r (progress_used m) (progress_ m)) (progress_used m - r).

Lemma spill_kept m base count k : cache_ok m base → (0 < count ≤ depth m)%nat → space (h m) (2 * max_frames + max_progress + k) →
  ∃ y w, spill count m = Some (Ret tt, kept_cache count y w m) ∧ spares nothing None (h m) y ∧ space y k ∧
    saved any y w (reverse (shown_frame (h m) (progress_ m) <$> take count (cached m)) ++ base) ∧
    (owned (h m) (cached m) → owned y (drop count (cached m))).
Proof.
  intros H Hc Hsp. destruct (cached_split m base count H ltac:(lia)) as (Hsplit & Hfront & _).
  pose proof (ck_laid _ _ H) as Hl. pose proof (ck_valid _ _ H) as Hv. pose proof (ck_args _ _ H) as Ha.
  pose proof (ck_used _ _ H) as Hu. pose proof (ck_fits _ _ H) as Hfit. pose proof (cache_cost m base H) as Hcost. pose proof (ck_words _ _ H) as Hwl.
  rewrite Hsplit in Hl, Hv, Hu, Hcost. apply laid_app in Hl as [Hl _]. apply Forall_app in Hv as [Hv _].
  rewrite total_app in Hu. rewrite cost_total, length_app, total_app in Hcost.
  destruct (spill_loop_run (take count (frames_ m)) m base 0 k) as (y & w & Hrun & Hs & Hsy & Hb & Hown); try done; [apply H| | |apply H| |].
  { cbn [Nat.add]. apply (Forall_take _ (total (take count (frames_ m)))) in Ha. rewrite take_take in Ha. by replace (_ `min` _)%nat with (total (take count (frames_ m))) in Ha by lia. }
  { cbn [Nat.add]. lia. }
  { eapply space_le; [exact Hsp|]. rewrite cost_total. lia. }
  exists y, w. split; [|split; [done|split; [done|split; [by rewrite Hfront in Hb|]]]].
  2:{ intros Ho. apply Hown; [apply Forall_drop, H|]. by rewrite <- Hsplit. }
  unfold spill. change (pbind (gets ?g) ?kk ?r) with (kk (g r) r). cbv beta.
  unfold assert. rewrite require_then by (apply Nat.leb_le; lia). destruct (Nat.eqb_spec count 0) as [->|H0]; [lia|].
  rewrite (bind_run _ _ _ _ _ Hrun). rewrite (released_total m base count H Hc). unfold kept_cache.
  rewrite <- Hfront in *. rewrite <- (size_sub_small (progress_used m) (total (take count (frames_ m)))) by (unfold max_progress in *; lia).
  reflexivity.
Qed.

Lemma kept_ok m base count y w : cache_ok m base → (0 < count ≤ depth m)%nat → spares nothing None (h m) y →
  let base' := reverse (shown_frame (h m) (progress_ m) <$> take count (cached m)) ++ base in
  saved any y w base' →
  cache_ok (kept_cache count y w m) base' ∧ stack (kept_cache count y w m) base' = stack m base ∧
    cached (kept_cache count y w m) = shift (total (take count (cached m))) <$> drop count (cached m).
Proof.
  intros H Hc Hs base' Hb. destruct (cached_split m base count H ltac:(lia)) as (Hsplit & Hfront & Hback). rewrite Hfront in Hsplit.
  pose proof (ck_laid _ _ H) as Hl. pose proof (ck_valid _ _ H) as Hv. pose proof (ck_args _ _ H) as Ha. pose proof (ck_depth _ _ H) as Hd.
  pose proof (ck_used _ _ H) as Hu. pose proof (ck_fits _ _ H) as Hfit. pose proof (ck_words _ _ H) as Hwl. pose proof (ck_frames _ _ H) as Hfl.
  destruct (move_front_take count (depth m) (frames_ m)) as [Hmv Hml]; [lia|]. rewrite <- Hback in Hmv.
  rewrite Hsplit in Hl, Hu. apply laid_app in Hl as [_ Hl]. rewrite total_app in Hu.
  set (r := total (take count (cached m))) in *. set (back := drop count (cached m)) in *.
  assert (Forall (frame_valid (h m)) back) as Hvb by (by apply Forall_drop).
  set (ws' := if (r =? 0)%nat then progress_ m else move_front r (progress_used m) (progress_ m)).
  assert (length ws' = max_progress ∧ take (progress_used m - r) ws' = take (progress_used m - r) (drop r (progress_ m))) as [Hwl' Hws'].
  { unfold ws'. destruct (Nat.eqb_spec r 0) as [->|Hr]; [done|].
    destruct (move_front_take r (progress_used m) (progress_ m)) as [H1 H2]; [lia|]. split; [lia|done]. }
  assert (cached (kept_cache count y w m) = shift r <$> back) as Hcache.
  { unfold cached at 1, kept_cache. cbn [depth frames_]. fold r. rewrite Hmv, take_app_le, take_ge; [done|..]; unfold back; rewrite length_fmap, length_drop, (cached_length m base H); lia. }
  split; [|split; [|done]].
  - split; try rewrite Hcache.
    + apply Hs.
    + unfold kept_cache. cbn [frames_]. fold r. rewrite length_app, length_fmap, length_take, length_drop. lia.
    + done.
    + unfold kept_cache. cbn [depth]. lia.
    + unfold kept_cache. cbn [progress_used]. fold r. rewrite total_shift. lia.
    + unfold kept_cache. cbn [progress_used]. lia.
    + apply laid_shift; [by rewrite Nat.add_0_r|]. lia.
    + apply Hs, H.
    + apply Forall_fmap. eapply Forall_impl; [eapply spares_frame_valid; [exact Hs|exact Hvb]|]. intros f Hf. exact Hf.
    + change (Forall (valid y) (take (progress_used m - r) ws')). rewrite Hws', take_drop_commute. apply Forall_drop.
      replace (r + (progress_used m - r))%nat with (progress_used m) by lia. eapply Forall_impl; [exact Ha|]. intros v. apply Hs.
    + exact Hb.
  - unfold stack. rewrite Hcache, Hsplit, fmap_app, reverse_app, <- app_assoc. f_equal. f_equal. rewrite <- list_fmap_compose.
    change (h (kept_cache count y w m)) with y. change (progress_ (kept_cache count y w m)) with ws'.
    rewrite <- (spares_shown_frames (h m) y (progress_ m) back Hs Hvb). apply list_fmap_ext. intros i f Hf. cbn [compose].
    apply list_elem_of_lookup_2, (laid_begin _ _ f Hl) in Hf as [Hf1 Hf2]. apply (shift_frame y r (progress_ m) ws' (progress_used m)); [lia..|done].
Qed.

Lemma spill_run m base count k : cache_ok m base → (count ≤ depth m)%nat → space (h m) (2 * max_frames + max_progress + k) →
  ∃ m' base', spill count m = Some (Ret tt, m') ∧ cache_ok m' base' ∧ stack m' base' = stack m base ∧
    spares nothing None (h m) (h m') ∧ space (h m') k ∧ env m' = env m ∧ depth m' = (depth m - count)%nat ∧
    cached m' = shift (total (take count (cached m))) <$> drop count (cached m) ∧ (owned (h m) (cached m) → owned (h m') (cached m')).
Proof.
  intros H Hc Hsp. destruct (decide (count = 0%nat)) as [->|H0].
  - exists m, base. split_and!; try done; [by apply spares_refl, (ck_heap _ _ H)|eapply space_le; [exact Hsp|lia]|lia|].
    rewrite drop_0. symmetry. apply shift_none; [apply H|]. rewrite <- (ck_used _ _ H). apply H.
  - destruct (spill_kept m base count k H ltac:(lia) Hsp) as (y & w & Hrun & Hs & Hsy & Hb & Hown).
    destruct (kept_ok m base count y w H ltac:(lia) Hs Hb) as (Hok & Hst & Hca). eexists _, _. split; [exact Hrun|]. split; [exact Hok|]. split_and!; try done.
    intros Ho. rewrite Hca. apply (owned_frames y (drop count (cached m))); [apply Hs|eapply spares_frame_valid; [exact Hs|apply Forall_drop, H]| |by apply Hown].
    intros i c Hi _. apply list_lookup_fmap_Some in Hi as (c' & -> & Hc'). by exists c'.
Qed.

(** ** The operations on the innermost frame *)

Lemma shown_frame_words x ws ws' u f : (progress_begin f + progress_size f ≤ u)%nat → take u ws' = take u ws →
  shown_frame x ws' f = shown_frame x ws f.
Proof.
  intros Hle Hws. unfold shown_frame, words_of. assert (∀ zs : list Z, take (progress_size f) (drop (progress_begin f) zs) =
    take (progress_size f) (drop (progress_begin f) (take u zs))) as Hcut.
  { intros zs. rewrite !take_drop_commute, take_take. do 2 f_equal. lia. }
  by rewrite Hcut, Hws, <- Hcut.
Qed.

Lemma shown_laid x ws ws' fs : laid 0 fs → take (total fs) ws' = take (total fs) ws → shown_frame x ws' <$> fs = shown_frame x ws <$> fs.
Proof.
  intros Hl Hws. apply list_fmap_ext. intros i f Hf. apply (shown_frame_words x ws ws' (total fs)); [|done].
  apply list_elem_of_lookup_2, (laid_begin 0 fs f Hl) in Hf. apply Hf.
Qed.

(** The frames [init] of a cache below a frame [g], in place of the others. *)
Lemma top_frame m base init rest m' g : cache_ok m base → cached m = init ++ rest → cached m' = init ++ [g] →
  h m' = h m → env m' = env m → way m' = way m →
  length (frames_ m') = max_frames → length (progress_ m') = max_progress → (depth m' ≤ max_frames)%nat →
  progress_begin g = total init → progress_used m' = (total init + progress_size g)%nat → (progress_used m' ≤ max_progress)%nat →
  take (total init) (progress_ m') = take (total init) (progress_ m) →
  Forall (valid (h m)) (words_of g (progress_ m')) → frame_valid (h m) g →
  cache_ok m' base ∧ stack m' base = shown_frame (h m) (progress_ m') g :: reverse (shown_frame (h m) (progress_ m) <$> init) ++ base.
Proof.
  intros H Hm Hm' Hh He Hw Hfl Hwl Hd Hb Hu Hfit Hws Hval Hg.
  pose proof (ck_laid _ _ H) as Hl. pose proof (ck_valid _ _ H) as Hv. pose proof (ck_args _ _ H) as Ha. pose proof (ck_used _ _ H) as Hu0.
  rewrite Hm in Hl, Hv, Hu0. apply laid_app in Hl as [Hl _]. apply Forall_app in Hv as [Hv _]. rewrite total_app in Hu0.
  split.
  - split; rewrite ?Hm', ?Hh, ?He, ?Hw; try done; try apply H.
    + rewrite total_app. cbn. lia.
    + apply laid_app. split; [done|]. done.
    + apply Forall_app. split; [done|]. by apply Forall_cons_2.
    + rewrite <- (take_drop (total init) (take (progress_used m') (progress_ m'))). apply Forall_app. split.
      * rewrite take_take, Nat.min_l by lia. rewrite Hws. apply (Forall_take _ (total init)) in Ha. rewrite take_take, Nat.min_l in Ha by lia. done.
      * unfold words_of in Hval. rewrite Hb, take_drop_commute, <- Hu in Hval. done.
  - unfold stack. rewrite Hm', Hh, fmap_app, reverse_app. cbn [fmap list_fmap reverse rev_append app]. f_equal. f_equal. f_equal. by apply shown_laid.
Qed.

Lemma cached_top m base : cache_ok m base → depth m ≠ 0%nat → ∃ init f, cached m = init ++ [f] ∧ frame_at (depth m - 1) m = f ∧
  init = take (depth m - 1) (frames_ m) ∧ progress_begin f = total init ∧ progress_used m = (total init + progress_size f)%nat ∧
  frame_valid (h m) f ∧ stack m base = shown_frame (h m) (progress_ m) f :: reverse (shown_frame (h m) (progress_ m) <$> init) ++ base.
Proof.
  intros H Hd. pose proof (ck_depth _ _ H) as Hle. pose proof (ck_frames _ _ H) as Hfl.
  destruct (lookup_lt_is_Some_2 (frames_ m) (depth m - 1)) as [f Hf]; [lia|].
  assert (cached m = take (depth m - 1) (frames_ m) ++ [f]) as Hc.
  { unfold cached. rewrite <- (take_S_r _ _ _ Hf). f_equal. lia. }
  pose proof (ck_laid _ _ H) as Hl. pose proof (ck_valid _ _ H) as Hv. pose proof (ck_used _ _ H) as Hu. rewrite Hc in Hl, Hv, Hu.
  apply laid_app in Hl as [_ [Hb _]]. rewrite total_app in Hu. apply Forall_app in Hv as [_ Hv]. apply Forall_cons in Hv as [Hv _].
  eexists _, f. split_and!; try done; [|cbn in Hu; lia|by unfold stack; rewrite Hc, fmap_app, reverse_app].
  unfold frame_at. by rewrite nth_lookup, Hf.
Qed.

Lemma take_insert_last {A} (fs : list A) n f : (n < length fs)%nat → take (S n) (<[n := f]> fs) = take n fs ++ [f].
Proof.
  intros H. rewrite (take_S_r _ _ f) by (by rewrite list_lookup_insert_eq). by rewrite take_insert_ge.
Qed.

Lemma alter_cached m base g init f : cache_ok m base → depth m ≠ 0%nat → cached m = init ++ [f] → frame_at (depth m - 1) m = f →
  init = take (depth m - 1) (frames_ m) → cached (alter_frame g m) = init ++ [g f].
Proof.
  intros H Hd Hc Hf Hi. unfold alter_frame, cached. cbn [depth frames_ set_frames]. rewrite Hf, Hi.
  replace (depth m) with (S (depth m - 1)) at 1 by lia. apply take_insert_last. rewrite (ck_frames _ _ H). pose proof (ck_depth _ _ H). lia.
Qed.

(** *** Push and pop *)

Definition pushed (f : cached_frame) (m : cache) : cache := set_frames (<[depth m := f]> (frames_ m)) (S (depth m)) m.

Lemma pushed_ok m base f : cache_ok m base → (depth m < max_frames)%nat → frame_valid (h m) f → progress_begin f = progress_used m →
  progress_size f = 0%nat → cache_ok (pushed f m) base ∧ stack (pushed f m) base = shown_frame (h m) (progress_ m) f :: stack m base.
Proof.
  intros H Hd Hf Hb Hs. pose proof (ck_frames _ _ H) as Hfl. apply (top_frame m base (cached m) [] (pushed f m) f); try done.
  - by rewrite app_nil_r.
  - apply take_insert_last. lia.
  - unfold pushed. cbn [frames_ set_frames]. by rewrite length_insert.
  - apply H.
  - rewrite Hb. apply H.
  - rewrite Hs, Nat.add_0_r. apply H.
  - apply H.
  - unfold words_of. by rewrite Hs.
Qed.

Lemma push_run m base fun_ acc arg k : cache_ok m base → valid (h m) fun_ → valid (h m) acc → valid (h m) arg →
  space (h m) (2 * max_frames + max_progress + k) →
  ∃ m' base', push fun_ acc arg m = Some (Ret tt, m') ∧ cache_ok m' base' ∧
    stack m' base' = MkA (env m) fun_ (shown (h m) acc) arg :: stack m base ∧
    spares nothing None (h m) (h m') ∧ space (h m') k ∧ env m' = env m ∧ depth m' ≠ 0%nat ∧ inline_progress m' = false ∧
    (tag_of acc ≠ T_v32 → owned (h m) (cached m) → owned (h m') (cached m')).
Proof.
  intros H Hf Ha Hg Hsp. assert (∃ m1 base1, (if (depth m =? max_frames)%nat then spill (depth m / 2) else pret tt) m = Some (Ret tt, m1) ∧
    cache_ok m1 base1 ∧ stack m1 base1 = stack m base ∧ spares nothing None (h m) (h m1) ∧ space (h m1) k ∧ env m1 = env m ∧ (depth m1 < max_frames)%nat ∧
    (owned (h m) (cached m) → owned (h m1) (cached m1)))
    as (m1 & base1 & Hrun & H1 & Hst & Hs & Hsp1 & He & Hd & Hown).
  { pose proof (ck_depth _ _ H) as Hd. destruct (Nat.eqb_spec (depth m) max_frames) as [E|E].
    - destruct (spill_run m base (depth m / 2) k H) as (m1 & base1 & Hrun & H1 & Hst & Hs & Hsp1 & He & Hd1 & _ & Hown);
        [rewrite E; vm_compute; lia|done|]. exists m1, base1. split_and!; try done. rewrite Hd1, E. vm_compute. lia.
    - exists m, base. split_and!; try done; [by apply spares_refl, (ck_heap _ _ H)|eapply space_le; [exact Hsp|lia]|lia]. }
  set (f := MkFrame (env m1) fun_ acc arg (progress_used m1) 0).
  destruct (pushed_ok m1 base1 f H1 Hd) as [H2 Hst2]; [|done|done|].
  { split; [apply H1|]. split; [by apply Hs|]. split; by apply Hs. }
  exists (pushed f m1), base1. split; [|split; [done|]].
  - unfold push. change (pbind (gets ?g) ?kk ?r) with (kk (g r) r). cbv beta. by rewrite (bind_run _ _ _ _ _ Hrun).
  - split; [|split; [done|split; [done|split; [done|split; [done|split]]]]].
    + rewrite Hst2, Hst. unfold shown_frame. cbn. rewrite He. by rewrite (spares_shown nothing None (h m) (h m1) acc Hs Ha).
    + unfold inline_progress, pushed, frame_at. cbn [depth frames_ set_frames]. replace (S (depth m1) - 1)%nat with (depth m1) by lia.
      rewrite nth_lookup, list_lookup_insert_eq by (rewrite (ck_frames _ _ H1); lia). done.
    + intros Hacc Ho. assert (cached (pushed f m1) = cached m1 ++ [f]) as -> by (apply take_insert_last; rewrite (ck_frames _ _ H1); lia).
      apply (owned_frames (h m1) (cached m1)); [apply H1|apply H1| |by apply Hown]. intros i c Hc Ht.
      apply lookup_app_Some in Hc as [Hc|[_ Hc]]; [by exists c|]. apply list_lookup_singleton_Some in Hc as [_ <-]. done.
Qed.

Lemma pop_run m base a l : cache_ok m base → stack m base = a :: l →
  ∃ m' base', pop m = Some (Ret tt, m') ∧ cache_ok m' base' ∧ stack m' base' = l ∧ h m' = h m ∧ env m' = env m ∧
    (owned (h m) (cached m) → owned (h m') (cached m')).
Proof.
  intros H Hst. unfold pop. change (pbind (gets ?g) ?kk ?r) with (kk (g r) r). cbv beta.
  destruct (Nat.eqb_spec (depth m) 0) as [Hd|Hd].
  - cbn [negb]. unfold stack, cached in Hst. rewrite Hd in Hst. change (base = a :: l) in Hst. subst base.
    pose proof (ck_base _ _ H) as (hop & e & f & c & g & -> & Hv & Ht & _ & Hr & Hc & Hl)%saved_inv.
    destruct (hget_ok (h m) T_ktx F_hop (way m) 0 (ck_heap _ _ H) Hv Ht eq_refl eq_refl ltac:(cbn; lia)) as (w & Hg & Hw).
    rewrite hread_ok in Hr by (done || apply H). injection Hr as Hr. rewrite Hr in Hw. injection Hw as <-.
    exists (set_way hop m), l. unfold asks. unfold pbind. rewrite Hg. split; [done|]. split; [|split; [|done]].
    + destruct H. by split.
    + unfold stack, cached. cbn [depth set_way]. rewrite Hd. done.
  - cbn [negb]. destruct (cached_top m base H Hd) as (init & f & Hc & Hf & Hi & Hb & Hu & Hvf & Hs). rewrite Hs in Hst. injection Hst as _ <-.
    eexists _, base. split; [reflexivity|]. set (m' := set_frames _ _ _). assert (cached m' = init) as Hm' by done.
    pose proof (ck_laid _ _ H) as Hl. pose proof (ck_valid _ _ H) as Hv. pose proof (ck_args _ _ H) as Ha. pose proof (ck_fits _ _ H) as Hfit.
    pose proof (ck_depth _ _ H) as Hle.
    rewrite Hc in Hl, Hv. apply laid_app in Hl as [Hl _]. apply Forall_app in Hv as [Hv _].
    assert (progress_used m' = total init) as Hu' by (rewrite <- Hb, <- Hf; done).
    split; [|split; [|split; [done|split; [done|]]]].
    3:{ rewrite Hm'. apply owned_frames; [apply H|apply H|]. intros i c Hic _. exists c. split; [|done]. rewrite Hc. by apply lookup_app_l_Some. }
    + split; rewrite ?Hm', ?Hu'; try done; try apply H.
      * change (depth m') with (depth m - 1)%nat. lia.
      * lia.
      * apply (Forall_take _ (total init)) in Ha. rewrite take_take, Nat.min_l in Ha by lia. done.
    + unfold stack. rewrite Hm'. done.
Qed.

(** *** Writing to the innermost frame *)

Lemma frozen_test x w : valid x w → tag_of w = T_ktx → continuation_frozen w x = Ret (bool_decide (frozen_row x w)).
Proof.
  intros Hv Ht. unfold continuation_frozen. rewrite check_ok by done. cbn [bind]. f_equal. unfold frozen_row.
  destruct (Nat.ltb_spec (Z.to_nat (index_of w)) (frozen_ktx_ x)); [by rewrite bool_decide_true|rewrite bool_decide_false by lia; done].
Qed.

(** The innermost frame may be written: it is in the cache, or its row is not frozen. *)
Definition writable (m : cache) : Prop := depth m ≠ 0%nat ∨ continuation_frozen (way m) (h m) = Ret false.

Lemma captured_spares W a x y k l : spares W a x y → (∀ v, W v → ¬ frozen_row x v) →
  (∀ v c, frozen_row x v → valid x v → tag_of v = T_ktx → a = Some c → tag_of (row_acc x v) = T_v32 → apart x c (row_acc x v)) →
  captured x k l → captured y k l.
Proof.
  intros Hs HW Ha H. apply (saved_spares (frozen_row x) (frozen_row y) W a x y k l Hs H); [|done].
  intros v Hf _. split; [intros Hw; by apply (HW v)|]. unfold frozen_row in *. by rewrite (sp_frozen _ _ _ _ Hs).
Qed.

(** Writing a column of the row that is the innermost frame. *)
Lemma write_row m b l fld c v : cache_ok m (b :: l) → continuation_frozen (way m) (h m) = Ret false → column_index T_ktx fld = Some c →
  (0 < c < 5)%nat → valid (h m) v →
  ∃ y hop e f a g, b = MkA e f (shown (h m) a) g ∧ hset T_ktx fld (way m) v (h m) = (Ret tt, y) ∧
    spares (eq (way m)) None (h m) y ∧ valid y (way m) ∧ tag_of (way m) = T_ktx ∧ valid (h m) a ∧ ¬ frozen_row (h m) (way m) ∧
    hread T_ktx (way m) y = Ret (<[c := v]> [hop; e; f; a; g]) ∧ saved any y hop l ∧ (∀ n, space (h m) n → space y n) ∧
    same_frames (h m) y ∧ row_of (h m) (way m) = [hop; e; f; a; g].
Proof.
  intros H Hfr Hc Hc5 Hv. pose proof (ck_heap _ _ H) as Hh.
  pose proof (ck_base _ _ H) as (hop & e & f & a & g & -> & Hw & Ht & _ & Hr & Ha & Hl)%saved_below.
  rewrite hread_ok in Hr by done. injection Hr as Hr. rewrite frozen_test in Hfr by done. injection Hfr as Hfr. apply bool_decide_eq_false in Hfr.
  destruct (hset_row (h m) T_ktx fld (way m) v c) as (y & Hs & Hy & Hmono & Hb & Hwd & Hfz & Hsz & Hrow); try done.
  assert (spares (eq (way m)) None (h m) y) as Hsp.
  { split; try done.
    - intros u Hu Hp Hne. rewrite Hrow by done. by rewrite decide_False by congruence.
    - by intros u <-.
    - by rewrite Hwd.
    - intros k w. by rewrite Hwd.
    - by rewrite Hsz. }
  exists y, hop, e, f, a, g. split_and!; try done.
  - by apply Hsp.
  - rewrite hread_ok by (done || by apply Hsp). rewrite Hrow by (done || by apply frame_pointer). by rewrite decide_True, Hr.
  - apply (saved_spares _ any _ None _ y hop l Hsp Hl); [|done]. intros u [_ Hne] _. split; [congruence|done].
  - intros n. by apply space_same.
  - split; [|by apply Hsz]. destruct (Hmono _ Hw) as [_ Hw'], Hw as [_ Hw].
    destruct (Hw (frame_pointer _ Ht)) as [<- _], (Hw' (frame_pointer _ Ht)) as [<- _]. done.
Qed.

Lemma spares_then W x y z : spares nothing None x y → spares W None y z → spares W None x z.
Proof.
  intros [A1 A2 A3 A4 A5 A6 A7 A8 A9] [B1 B2 B3 B4 B5 B6 B7 B8 B9]. split; try done; try lia; [auto| |].
  - intros v Hv Hp Hn. rewrite B5, A5; auto.
  - intros k w Hk _. apply B8; [|done]. by apply A8.
Qed.

Lemma same_frames_trans x y z : same_frames x y → same_frames y z → same_frames x z.
Proof. intros [? ?] [? ?]. split; congruence. Qed.

(** Ownership after the row of the innermost frame was written: the column is not the accumulator, or
    the new accumulator is no vector, or it is one made since [x0]. *)
Lemma row_written_owned x0 x y w c v fs hop e f a g : spares nothing None x0 x → same_frames x0 x → spares (eq w) None x y → same_frames x y →
  heap_ok y → valid x v → valid y w → tag_of w = T_ktx → row_of x w = [hop; e; f; a; g] → hread T_ktx w y = Ret (<[c := v]> [hop; e; f; a; g]) →
  (c = 4%nat ∨ c = 3%nat ∧ (tag_of v ≠ T_v32 ∨ fresh x0 x v)) → Forall (frame_valid x0) fs → owned x0 fs → owned y fs.
Proof.
  intros Hs0 Hf0 Hs Hf Hy Hv Hw Ht Hrow Hread Hc Hfs. rewrite hread_ok in Hread by done. injection Hread as Hread.
  apply (owned_update (if decide (c = 3%nat) then Some (inl w) else None) (eq w) None); [by eapply spares_then|by eapply same_frames_trans|done| | |].
  - intros u Hu Htu Hne Hta. assert (row_of x u = row_of x0 u) as E0 by (apply (sp_row _ _ _ _ Hs0); [done|by apply frame_pointer|by intros []]).
    unfold row_fun, row_acc in *. rewrite <- E0. destruct (decide (w = u)) as [<-|Hwu].
    + rewrite Hread, Hrow in *. destruct Hc as [->|[-> _]]; [done|]. by rewrite decide_True in Hne.
    + by rewrite (sp_row _ _ _ _ Hs u) by (done || by apply Hs0 || by apply frame_pointer).
  - intros i b Hb _ _. by exists b.
  - intros p f' a' Hp [Hta Hhas]. destruct (decide (c = 3%nat)) as [->|]; [|done]. injection Hp as <-. destruct Hhas as (_ & _ & _ & Ha).
    unfold row_acc in Ha. rewrite Hread in Ha. cbn in Ha. subst a'. destruct Hc as [?|[_ [Hc|Hc]]]; [done..|]. unfold fresh in *. by rewrite (spares_extent (eq w) None x y v Hs Hv Hta).
Qed.

(** The cache after its row was written. *)
Lemma write_row_ok m b l y hop e f a g : cache_ok m (b :: l) → depth m = 0%nat → spares (eq (way m)) None (h m) y →
  hread T_ktx (way m) y = Ret [hop; e; f; a; g] → valid y (way m) → tag_of (way m) = T_ktx → valid y a → saved any y hop l →
  cache_ok (set_h y m) (MkA e f (shown y a) g :: l) ∧ stack (set_h y m) (MkA e f (shown y a) g :: l) = MkA e f (shown y a) g :: l.
Proof.
  intros H Hd Hs Hr Hw Ht Ha Hl. assert (cached m = []) as Hc by (unfold cached; by rewrite Hd).
  pose proof (ck_used _ _ H) as Hu. rewrite Hc in Hu. split; [|unfold stack; change (cached (set_h y m)) with (cached m); by rewrite Hc].
  split; try apply H; [apply Hs|apply Hs, H| | |].
  - change (cached (set_h y m)) with (cached m). by rewrite Hc.
  - change (progress_used (set_h y m)) with (progress_used m). rewrite Hu. apply Forall_nil_2.
  - by apply (saved_row any y (way m) hop).
Qed.

Definition put_arg (x : Z) (a : aframe) : aframe := MkA (a_env a) (a_fun a) (a_acc a) x.
Definition put_acc (s : slot) (a : aframe) : aframe := MkA (a_env a) (a_fun a) s (a_arg a).

(** What each operation on the innermost frame leaves as it was. *)
Record only_top (m m' : cache) : Prop := {
  ot_captured : ∀ k l, captured (h m) k l → captured (h m') k l;
  ot_valid : ∀ v, valid (h m) v → valid (h m') v;
  ot_env : env m' = env m;
}.

Lemma only_top_refl m m' : h m' = h m → env m' = env m → only_top m m'.
Proof. intros E1 E2. split; [|by rewrite E1|done]. by rewrite E1. Qed.

Lemma only_top_spared m m' : spares nothing None (h m) (h m') → env m' = env m → only_top m m'.
Proof. intros Hs He. split; [|by apply Hs|done]. intros k l. by apply captured_spared. Qed.

Lemma alter_run m base g : cache_ok m base → depth m ≠ 0%nat → (∀ f, frame_valid (h m) f → frame_valid (h m) (g f)) →
  (∀ f, progress_begin (g f) = progress_begin f ∧ progress_size (g f) = progress_size f) →
  ∃ f rest, stack m base = shown_frame (h m) (progress_ m) f :: rest ∧ frame_at (depth m - 1) m = f ∧ frame_valid (h m) f ∧
    cache_ok (alter_frame g m) base ∧ stack (alter_frame g m) base = shown_frame (h m) (progress_ m) (g f) :: rest.
Proof.
  intros H Hd Hv Hg. destruct (cached_top m base H Hd) as (init & f & Hc & Hf & Hi & Hb & Hu & Hvf & Hst). destruct (Hg f) as [G1 G2].
  eexists f, _. split; [exact Hst|]. split; [done|]. split; [done|].
  apply (top_frame m base init [f] (alter_frame g m) (g f)); try done.
  - by eapply alter_cached.
  - unfold alter_frame. cbn [frames_ set_frames]. rewrite length_insert. apply H.
  - apply H.
  - apply H.
  - congruence.
  - rewrite G2. done.
  - apply H.
  - unfold words_of. rewrite G1, G2.
    apply (words_of_valid (valid (h m)) 0 (cached m) f (progress_ m) (ck_laid _ _ H)); [rewrite Hc; apply elem_of_app; right; by left|].
    cbn [Nat.add]. rewrite <- (ck_used _ _ H). apply H.
  - by apply Hv.
Qed.

Lemma set_position_run m base a l x n : cache_ok m base → stack m base = a :: l → writable m → valid (h m) x → space (h m) n →
  ∃ m' base', set_position x m = Some (Ret tt, m') ∧ cache_ok m' base' ∧ stack m' base' = put_arg x a :: l ∧ only_top m m' ∧ space (h m') n ∧
    (owned (h m) (cached m) → owned (h m') (cached m')).
Proof.
  intros H Hst Hw Hx Hn. unfold set_position. change (pbind (gets ?g) ?kk ?r) with (kk (g r) r). cbv beta.
  destruct (Nat.eqb_spec (depth m) 0) as [Hd|Hd]; cbn [negb].
  - unfold stack, cached in Hst. rewrite Hd in Hst. change (base = a :: l) in Hst. subst base. destruct Hw as [?|Hw]; [done|].
    destruct (write_row m a l F_arg 4 x) as (y & hop & e & f & c & g & -> & Hset & Hs & Hvw & Ht & Hc & Hnf & Hr & Hl & Hsp & Hsame & Hrow); try done; [lia|].
    destruct (write_row_ok m (MkA e f (shown (h m) c) g) l y hop e f c x) as [Hok Hst']; try done; [by apply Hs|].
    eexists _, _. split; [|split; [exact Hok|split; [|split; [|split; [by apply Hsp|]]]]].
    + unfold pbind, asks. rewrite Hw. unfold assert. cbn. unfold on_h. by rewrite Hset.
    + rewrite Hst'. unfold put_arg. cbn. by rewrite (spares_shown _ _ _ _ _ Hs Hc).
    + split; [|by apply Hs|done]. intros k l'. apply (captured_spares (eq (way m)) None); [done|by intros ? <-|done].
    + apply (row_written_owned (h m) (h m) y (way m) 4 x (cached m) hop e f c g); try done; [by apply spares_refl, H|apply Hs|by left|apply H].
  - destruct (alter_run m base (with_arg x) H Hd) as (f & rest & Hs & Hf & Hv & Hok & Hs'); [by intros f (?&?&?&?)|done|].
    rewrite Hs in Hst. injection Hst as <- <-. exists (alter_frame (with_arg x) m), base. split_and!; try done.
    destruct (cached_top m base H Hd) as (init & f' & Hc & Hf' & Hi & _). rewrite (alter_cached m base _ init f' H Hd Hc Hf' Hi).
    apply owned_frames; [apply H|apply H|]. rewrite Hc. by apply same_vectors_last.
Qed.

Lemma set_acc_run m base a l x n : cache_ok m base → stack m base = a :: l → writable m → inline_progress m = false → valid (h m) x →
  space (h m) n →
  ∃ m' base', set_acc x m = Some (Ret tt, m') ∧ cache_ok m' base' ∧ stack m' base' = put_acc (shown (h m) x) a :: l ∧ only_top m m' ∧ space (h m') n ∧
    ∀ x0, spares nothing None x0 (h m) → same_frames x0 (h m) → Forall (frame_valid x0) (cached m) → (tag_of x ≠ T_v32 ∨ fresh x0 (h m) x) →
      owned x0 (cached m) → owned (h m') (cached m').
Proof.
  intros H Hst Hw Hin Hx Hn. unfold set_acc. change (pbind (gets ?g) ?kk ?r) with (kk (g r) r). cbv beta.
  destruct (Nat.eqb_spec (depth m) 0) as [Hd|Hd]; cbn [negb].
  - unfold stack, cached in Hst. rewrite Hd in Hst. change (base = a :: l) in Hst. subst base. destruct Hw as [?|Hw]; [done|].
    destruct (write_row m a l F_acc 3 x) as (y & hop & e & f & c & g & -> & Hset & Hs & Hvw & Ht & Hc & Hnf & Hr & Hl & Hsp & Hsame & Hrow); try done; [lia|].
    destruct (write_row_ok m (MkA e f (shown (h m) c) g) l y hop e f x g) as [Hok Hst']; try done; [by apply Hs|].
    eexists _, _. split; [|split; [exact Hok|split; [|split; [|split; [by apply Hsp|]]]]].
    + unfold pbind, asks. rewrite Hw. unfold assert. cbn. unfold on_h. by rewrite Hset.
    + rewrite Hst'. unfold put_acc. cbn. by rewrite (spares_shown _ _ _ _ _ Hs Hx).
    + split; [|by apply Hs|done]. intros k l'. apply (captured_spares (eq (way m)) None); [done|by intros ? <-|done].
    + intros x0 Hs0 Hf0 Hfs Hx0. apply (row_written_owned x0 (h m) y (way m) 3 x (cached m) hop e f c g); try done; [apply Hs|by right].
  - destruct (alter_run m base (with_acc x) H Hd) as (f & rest & Hs & Hf & Hv & Hok & Hs'); [by intros f (?&?&?&?)|done|].
    rewrite Hs in Hst. injection Hst as <- <-. exists (alter_frame (with_acc x) m), base. split_and!; try done.
    2:{ intros x0 Hs0 Hf0 Hfs Hx0. destruct (cached_top m base H Hd) as (init & f' & Hc & Hf' & Hi & _). rewrite (alter_cached m base _ init f' H Hd Hc Hf' Hi).
      rewrite Hc in *. apply (owned_update (Some (inr (length init))) nothing None); try done.
      - intros w Hvw Htw _ _. unfold row_fun, row_acc. change (h (alter_frame (with_acc x) m)) with (h m). by rewrite (sp_row _ _ _ _ Hs0 w Hvw (frame_pointer w Htw)) by (by intros []).
      - intros i c Hi' Hne _. apply lookup_app_Some in Hi' as [Hi'|[Hlen Hi']]; [exists c; split; [by apply lookup_app_l_Some|done]|].
        apply list_lookup_singleton_Some in Hi' as [Hz _]. destruct Hne. do 2 f_equal. lia.
      - intros p f0 a0 [= <-] [Ht (c & Hlook & _ & <-)]. rewrite lookup_app_r, Nat.sub_diag in Hlook by done. injection Hlook as <-. by destruct Hx0. }
    rewrite Hs'. unfold inline_progress in Hin. rewrite Hf in Hin. destruct (Nat.eqb_spec (depth m) 0); [done|]. cbn [negb andb] in Hin.
    apply negb_false_iff in Hin. unfold put_acc, shown_frame. cbn [progress_size with_acc f_acc f_env f_fun f_arg a_env a_fun a_arg]. by rewrite Hin.
Qed.

Lemma only_top_trans m1 m2 m3 : only_top m1 m2 → only_top m2 m3 → only_top m1 m3.
Proof. intros [A1 A2 A3] [B1 B2 B3]. split; [auto|auto|congruence]. Qed.

(** A cache whose heap grew. *)
Lemma spared_cache m base y : cache_ok m base → spares nothing None (h m) y → cache_ok (set_h y m) base ∧ stack (set_h y m) base = stack m base.
Proof.
  intros H Hs. split.
  - split; try apply H; [apply Hs|apply Hs, H|eapply spares_frame_valid; [exact Hs|apply H]| |eapply saved_spared; [exact Hs|apply H]].
    eapply Forall_impl; [apply (ck_args _ _ H)|]. intros v. apply Hs.
  - unfold stack. change (cached (set_h y m)) with (cached m). change (h (set_h y m)) with y. change (progress_ (set_h y m)) with (progress_ m).
    by rewrite (spares_shown_frames (h m) y) by (done || apply H).
Qed.

Lemma writable_spared m base a l y : cache_ok m base → stack m base = a :: l → spares nothing None (h m) y → writable m → writable (set_h y m).
Proof.
  intros H Hst Hs Hw. destruct (decide (depth m = 0%nat)) as [Hd|Hd]; [|by left]. destruct Hw as [?|Hw]; [done|]. right.
  unfold stack, cached in Hst. rewrite Hd in Hst. change (base = a :: l) in Hst. subst base.
  pose proof (ck_base _ _ H) as (hop & e & f & c & g & _ & Hv & Ht & _)%saved_inv. change (h (set_h y m)) with y. change (way (set_h y m)) with (way m).
  rewrite frozen_test in Hw by done. rewrite frozen_test by (done || by apply Hs). rewrite <- Hw. f_equal. apply bool_decide_ext.
  unfold frozen_row. by rewrite (sp_frozen _ _ _ _ Hs).
Qed.

Lemma inline_false m : depth m ≠ 0%nat → inline_progress m = false → progress_size (frame_at (depth m - 1) m) = 0%nat.
Proof. unfold inline_progress. intros Hd. destruct (Nat.eqb_spec (depth m) 0); [done|]. by destruct (Nat.eqb_spec (progress_size (frame_at (depth m - 1) m)) 0). Qed.

(** The innermost frame with [size] new words. *)
Definition filled (size : nat) (m : cache) : cache :=
  set_words (take (progress_used m) (progress_ m) ++ replicate size nil ++ drop (progress_used m + size) (progress_ m))
    (progress_used m + size) (alter_frame (with_progress (progress_used m) size) m).

Lemma filled_ok m base a l size : cache_ok m base → stack m base = a :: l → depth m ≠ 0%nat → inline_progress m = false →
  (0 < size)%nat → (progress_used m + size ≤ max_progress)%nat →
  cache_ok (filled size m) base ∧ stack (filled size m) base = put_acc (Words (replicate size nil)) a :: l.
Proof.
  intros H Hst Hd Hin H0 Hle. destruct (cached_top m base H Hd) as (init & f & Hc & Hf & Hi & Hb & Hu & Hvf & Hst'). rewrite Hst' in Hst. injection Hst as <- <-.
  pose proof (inline_false m Hd Hin) as Hz. rewrite Hf in Hz. rewrite Hz, Nat.add_0_r in Hu. pose proof (ck_words _ _ H) as Hwl.
  assert (words_of (with_progress (progress_used m) size f) (progress_ (filled size m)) = replicate size nil) as Hwords.
  { unfold words_of, filled. cbn [progress_begin progress_size with_progress progress_ set_words alter_frame set_frames].
    rewrite drop_app_length' by len. by rewrite take_app_length' by len. }
  destruct (top_frame m base init [f] (filled size m) (with_progress (progress_used m) size f)) as [Hok Hs]; try done.
  - exact (alter_cached m base (with_progress (progress_used m) size) init f H Hd Hc Hf Hi).
  - unfold filled, alter_frame. cbn [frames_ set_words set_frames]. rewrite length_insert. apply H.
  - unfold filled. cbn [progress_ set_words]. len.
  - apply H.
  - unfold filled. cbn [progress_used set_words progress_size with_progress]. lia.
  - unfold filled. cbn [progress_ set_words]. rewrite <- Hu. rewrite take_app_length' by len. done.
  - rewrite Hwords. by apply Forall_replicate.
  - split; [done|]. rewrite Hs. f_equal. unfold put_acc, shown_frame at 1. rewrite Hwords. cbn [progress_size with_progress].
    by destruct (Nat.eqb_spec size 0); [lia|].
Qed.

(** Room in the second array: the frames below the innermost one go to the heap. *)
Lemma make_room m base size k : cache_ok m base → depth m ≠ 0%nat → inline_progress m = false → (size ≤ max_progress)%nat →
  space (h m) (2 * max_frames + max_progress + k) →
  ∃ m' base', (if (max_progress - progress_used m <? size)%nat then spill (depth m - 1) else pret tt) m = Some (Ret tt, m') ∧
    cache_ok m' base' ∧ stack m' base' = stack m base ∧ spares nothing None (h m) (h m') ∧ space (h m') k ∧ env m' = env m ∧
    depth m' ≠ 0%nat ∧ inline_progress m' = false ∧ (progress_used m' + size ≤ max_progress)%nat ∧
    (owned (h m) (cached m) → owned (h m') (cached m')).
Proof.
  intros H Hd Hin Hle Hsp. pose proof (ck_fits _ _ H) as Hfit. destruct (Nat.ltb_spec (max_progress - progress_used m) size) as [Hlt|Hge].
  - destruct (spill_run m base (depth m - 1) k H) as (m' & base' & Hrun & H' & Hst & Hs & Hsp' & He & Hd' & Hc' & Hown); [lia|done|].
    destruct (cached_top m base H Hd) as (init & f & Hc & Hf & Hi & _). pose proof (inline_false m Hd Hin) as Hz. rewrite Hf in Hz.
    assert (length init = depth m - 1)%nat as Hli by (rewrite Hi, length_take, (ck_frames _ _ H); pose proof (ck_depth _ _ H); lia).
    rewrite Hc, <- Hli, drop_app_length in Hc'. cbn [fmap list_fmap] in Hc'.
    destruct (cached_top m' base' H') as (init' & f' & Hc2 & Hf' & _ & _ & Hu' & _); [lia|]. rewrite Hc' in Hc2.
    destruct init' as [|? [|]]; [|done..]. injection Hc2 as <-. cbn in Hu'.
    exists m', base'. split_and!; try done; [lia| |lia]. unfold inline_progress. rewrite Hf'. cbn [progress_size shift with_progress]. rewrite Hz. by destruct (depth m').
  - exists m, base. split_and!; try done; [by apply spares_refl, (ck_heap _ _ H)|eapply space_le; [exact Hsp|lia]|lia].
Qed.

Lemma make_progress_run m base a l size n : cache_ok m base → stack m base = a :: l → writable m → inline_progress m = false →
  (0 < size)%nat → space (h m) (2 * max_frames + max_progress + S (n + size)) →
  ∃ m' base', make_progress size m = Some (Ret tt, m') ∧ cache_ok m' base' ∧
    stack m' base' = put_acc (Words (replicate size nil)) a :: l ∧ only_top m m' ∧ space (h m') n ∧
    (owned (h m) (cached m) → owned (h m') (cached m')).
Proof.
  intros H Hst Hw Hin H0 Hsp. unfold make_progress. change (pbind (gets ?g) ?kk ?r) with (kk (g r) r). cbv beta.
  unfold assert at 1. rewrite require_then by (rewrite Hin; by destruct (Nat.eqb_spec size 0); [lia|]).
  destruct (negb (depth m =? 0)%nat && (size <=? max_progress)%nat) eqn:Hcase.
  - apply andb_true_iff in Hcase as [Hd%negb_true_iff%Nat.eqb_neq Hle%Nat.leb_le].
    destruct (make_room m base size (S (n + size)) H Hd Hin Hle Hsp) as (m1 & base1 & Hrun & H1 & Hst1 & Hs & Hsp1 & He & Hd1 & Hin1 & Hfit & Hown).
    rewrite <- Hst1 in Hst. destruct (filled_ok m1 base1 a l size H1 Hst Hd1 Hin1 H0 Hfit) as [H2 Hst2].
    exists (filled size m1), base1. split; [|split; [done|split; [done|split; [by apply only_top_spared|split; [eapply space_le; [exact Hsp1|lia]|]]]]].
    2:{ intros Ho. destruct (cached_top m1 base1 H1 Hd1) as (init & f & Hc & Hf & Hi & _).
      change (cached (filled size m1)) with (cached (alter_frame (with_progress (progress_used m1) size) m1)). rewrite (alter_cached m1 base1 _ init f H1 Hd1 Hc Hf Hi).
      apply (owned_frames (h m1) (cached m1)); [apply H1|apply H1| |by apply Hown]. rewrite Hc. by apply same_vectors_last. }
    rewrite (bind_run _ _ _ _ _ Hrun). change (pbind (gets ?g) ?kk ?r) with (kk (g r) r). cbv beta.
    unfold assert. rewrite require_then by (apply Nat.leb_le; lia). reflexivity.
  - destruct (filledv32_made (h m) size nil (n + 0) (ck_heap _ _ H)) as (acc & y & Hm & Hvm);
      [by split|eapply space_le; [exact Hsp|lia]|]. destruct (vector_frames _ _ _ _ _ Hvm) as (Hsame & Hfresh & Hs). destruct Hvm as (Hk & Hv & Ht & Hwd & Hr & Hsy & _).
    destruct (spared_cache m base y H Hs) as [H1 Hst1]. rewrite <- Hst1 in Hst.
    pose proof (writable_spared m base a l y H ltac:(congruence) Hs Hw) as Hw1.
    destruct (set_acc_run (set_h y m) base a l acc n H1 Hst Hw1 Hin Hv) as (m' & base' & Hset & H2 & Hst2 & Ho & Hn & Hown); [eapply space_le; [exact Hsy|lia]|].
    exists m', base'. split; [|split; [done|split; [|split; [|split; [done|]]]]].
    + unfold on_h, pbind. by rewrite Hm.
    + rewrite Hst2. f_equal. unfold shown. rewrite bool_decide_true by done. unfold v32slice. change (h (set_h y m)) with y. by rewrite Hwd.
    + eapply only_top_trans; [|exact Ho]. by apply only_top_spared.
    + apply (Hown (h m)); [done|done|apply H|by right].
Qed.

(** *** Writing an argument *)

Lemma set_word_heap x k v : heap_ok x → valid x v → heap_ok (Heap.set_words x (<[k := v]> (words_ x))).
Proof.
  intros Hh Hv. assert (∀ u, valid x u → valid (Heap.set_words x (<[k := v]> (words_ x))) u) as Hm by done.
  destruct Hh as [H1 H2 H3 H4 H5 H6 H7 H8 H9 H10 H11]. split; try done.
  - intros t i r Ht Hi. apply (row_ok_mono x); try done; [|by eapply H3]. cbn. by rewrite length_insert.
  - eapply Forall_impl; [by apply Forall_insert|]. done.
  - cbn. by rewrite length_insert.
Qed.

Lemma take_drop_insert {A} (xs : list A) b n i v : (i < n)%nat → (b + n ≤ length xs)%nat →
  take n (drop b (<[(b + i)%nat := v]> xs)) = <[i := v]> (take n (drop b xs)).
Proof.
  intros Hi Hl. rewrite drop_insert_ge by lia. replace (b + i - b)%nat with i by lia. by rewrite take_insert_lt.
Qed.

Lemma v32set_run x a i v ws : heap_ok x → valid x a → tag_of a = T_v32 → v32slice a x = Ret ws → (i < length ws)%nat → valid x v →
  ∃ y, v32set a i v x = (Ret tt, y) ∧ spares nothing (Some a) x y ∧ v32slice a y = Ret (<[i := v]> ws) ∧ (∀ n, space x n → space y n) ∧ same_frames x y.
Proof.
  intros Hh Ha Ht Hws Hi Hv. destruct (v32slice_extent x a Hh Ha Ht) as [Hsl Hle]. 
  assert (ws = take (extent x a).2 (drop (extent x a).1 (words_ x))) as -> by congruence. clear Hws.
  set (b := (extent x a).1) in *. set (n := (extent x a).2) in *. assert (i < n)%nat as Hin by (rewrite length_take, length_drop in Hi; lia).
  pose proof (set_word_heap x (b + i) v Hh Hv) as Hy. exists (Heap.set_words x (<[(b + i)%nat := v]> (words_ x))).
  assert (spares nothing (Some a) x (Heap.set_words x (<[(b + i)%nat := v]> (words_ x)))) as Hs.
  { split; try done; [cbn; by rewrite length_insert|]. intros k w Hk Hout. cbn. rewrite list_lookup_insert_ne; [done|].
    intros <-. apply (Hout a eq_refl). change (b ≤ b + i < b + n)%nat. lia. }
  split; [|split; [done|split]].
  - unfold v32set, set_word, words_place. rewrite hread_ok by done. cbn [bind].
    pose proof (row_of_ok x a Hh Ha (vector_pointer a Ht)) as Hrow. rewrite Ht in Hrow. rewrite (slice_ok _ _ _ _ Hrow (row_v32 _ _ _ Hrow eq_refl)).
    change (Z.to_nat (nth 0 (row_of x a) 0)) with b. change (Z.to_nat (nth 1 (row_of x a) 0)) with n.
    by destruct (Nat.ltb_spec i n); [|lia].
  - destruct (v32slice_extent _ a Hy (sp_valid _ _ _ _ Hs a Ha) Ht) as [-> _]. f_equal. by apply take_drop_insert.
  - split; [|done]. intros k [S1 S2 S3]. split; [done|done|]. cbn. by rewrite length_insert.
Qed.

Definition top_acc (m : cache) : Z := if (depth m =? 0)%nat then row_acc (h m) (way m) else f_acc (frame_at (depth m - 1) m).

(** No other frame has a word of the vector that holds the arguments of the innermost one. *)
Definition sole (m : cache) : Prop :=
  (∀ v, valid (h m) v → tag_of v = T_ktx → (depth m = 0%nat → v ≠ way m) → tag_of (row_acc (h m) v) = T_v32 →
     apart (h m) (top_acc m) (row_acc (h m) v)) ∧
  (∀ i f, cached m !! i = Some f → (S i < depth m)%nat → tag_of (f_acc f) = T_v32 → apart (h m) (top_acc m) (f_acc f)).

(** An argument in the second array. *)
Lemma set_inline m base a l ws i v n : cache_ok m base → stack m base = a :: l → a_acc a = Words ws → (i < length ws)%nat → valid (h m) v →
  inline_progress m = true → space (h m) n →
  ∃ m', set_progress i v m = Some (Ret tt, m') ∧ cache_ok m' base ∧ stack m' base = put_acc (Words (<[i := v]> ws)) a :: l ∧
    only_top m m' ∧ space (h m') n ∧ h m' = h m ∧ cached m' = cached m.
Proof.
  intros H Hst Hacc Hi Hv Hin Hsp. unfold set_progress. change (pbind (gets ?g) ?kk ?r) with (kk (g r) r). cbv beta. rewrite Hin.
  unfold inline_progress in Hin. apply andb_true_iff in Hin as [Hd%negb_true_iff%Nat.eqb_neq Hz%negb_true_iff%Nat.eqb_neq].
  destruct (cached_top m base H Hd) as (init & f & Hc & Hf & Hini & Hb & Hu & Hvf & Hst'). rewrite Hst' in Hst. injection Hst as <- <-.
  rewrite Hf in *. unfold shown_frame in Hacc. cbn [a_acc] in Hacc. rewrite (proj2 (Nat.eqb_neq _ _) Hz) in Hacc. injection Hacc as Hacc.
  pose proof (ck_fits _ _ H) as Hfit. pose proof (ck_words _ _ H) as Hwl.
  assert (length (words_of f (progress_ m)) = progress_size f) as Hlen by (apply words_of_length; lia).
  assert (i < progress_size f)%nat as Hi' by (rewrite <- Hlen, Hacc; done).
  set (m' := set_words (<[(progress_begin f + i)%nat := v]> (progress_ m)) (progress_used m) m). exists m'.
  assert (words_of f (progress_ m') = <[i := v]> ws) as Hwords.
  { unfold words_of, m'. cbn [progress_ set_words]. rewrite take_drop_insert by lia. by rewrite <- Hacc. }
  destruct (top_frame m base init [f] m' f) as [Hok Hs]; try done; try apply H.
  - cbn. by rewrite length_insert.
  - cbn. rewrite take_insert_ge by lia. done.
  - rewrite Hwords. apply Forall_insert; [|done]. rewrite <- Hacc.
    apply (words_of_valid (valid (h m)) 0 (cached m) f (progress_ m) (ck_laid _ _ H)); [rewrite Hc; apply elem_of_app; right; by left|].
    cbn [Nat.add]. rewrite <- (ck_used _ _ H). apply H.
  - split; [|split; [done|split; [|done]]].
    + unfold assert. rewrite require_then by (by apply Nat.ltb_lt). done.
    + rewrite Hs. unfold put_acc, shown_frame at 1. by rewrite (proj2 (Nat.eqb_neq _ _) Hz), Hwords.
Qed.

(** A row of the heap is the innermost frame. *)
Lemma bottom m base a l : cache_ok m base → stack m base = a :: l → depth m = 0%nat → base = a :: l ∧ cached m = [].
Proof. intros _ Hst Hd. unfold stack, cached in *. rewrite Hd in *. done. Qed.

Lemma row_fields x w hop e f a g : heap_ok x → valid x w → tag_of w = T_ktx → hread T_ktx w x = Ret [hop; e; f; a; g] →
  row_of x w = [hop; e; f; a; g] ∧ hget T_ktx F_hop w x = Ret hop ∧ hget T_ktx F_acc w x = Ret a.
Proof.
  intros Hh Hv Ht Hr. rewrite hread_ok in Hr by done. injection Hr as Hr. split; [done|].
  destruct (hget_ok x T_ktx F_hop w 0 Hh Hv Ht eq_refl eq_refl ltac:(cbn; lia)) as (v & Hg & Hl). rewrite Hr in Hl. injection Hl as <-.
  destruct (hget_ok x T_ktx F_acc w 3 Hh Hv Ht eq_refl eq_refl ltac:(cbn; lia)) as (v & Hg' & Hl). rewrite Hr in Hl. injection Hl as <-. done.
Qed.

Lemma frame_acc_run m base a l : cache_ok m base → stack m base = a :: l → inline_progress m = false →
  frame_acc m = Some (Ret (top_acc m), m) ∧ valid (h m) (top_acc m) ∧ a_acc a = shown (h m) (top_acc m).
Proof.
  intros H Hst Hin. unfold frame_acc, top_acc. change (pbind (gets ?g) ?kk ?r) with (kk (g r) r). cbv beta.
  destruct (Nat.eqb_spec (depth m) 0) as [Hd|Hd]; cbn [negb].
  - destruct (bottom m base a l H Hst Hd) as [-> _].
    pose proof (ck_base _ _ H) as (hop & e & f & c & g & -> & Hv & Ht & _ & Hr & Hc & _)%saved_inv.
    destruct (row_fields _ _ _ _ _ _ _ (ck_heap _ _ H) Hv Ht Hr) as (Hrow & _ & Hg). unfold row_acc, asks. rewrite Hrow, Hg. done.
  - destruct (cached_top m base H Hd) as (init & f & _ & Hf & _ & _ & _ & (_ & _ & Ha & _) & Hst'). rewrite Hst' in Hst. injection Hst as <- <-.
    pose proof (inline_false m Hd Hin) as Hz. rewrite Hf in *. split; [done|]. split; [done|]. unfold shown_frame. by rewrite Hz.
Qed.

Lemma shown_words x c ws : heap_ok x → valid x c → shown x c = Words ws → tag_of c = T_v32 ∧ v32slice c x = Ret ws.
Proof.
  intros Hh Hv. unfold shown. case_bool_decide as Ht; [|done]. destruct (v32slice_extent x c Hh Hv Ht) as [-> _]. by intros [= <-].
Qed.

(** The cache after a word of the vector of the innermost frame was written: the frame is a row. *)
Lemma vector_row m a l y : cache_ok m (a :: l) → depth m = 0%nat → sole m → spares nothing (Some (top_acc m)) (h m) y →
  ∃ base', cache_ok (set_h y m) base' ∧ stack (set_h y m) base' = put_acc (shown y (top_acc m)) a :: l.
Proof.
  intros H Hd [Hsole _] Hs. assert (cached m = []) as Hc by (unfold cached; by rewrite Hd). pose proof (ck_heap _ _ H) as Hh.
  pose proof (ck_base _ _ H) as (hop & e & f & c & g & -> & Hvw & Htw & _ & Hr & Hvc & Hl)%saved_below. destruct (row_fields _ _ _ _ _ _ _ Hh Hvw Htw Hr) as (Hrow & _).
  assert (top_acc m = c) as Ec by (unfold top_acc, row_acc; rewrite (proj2 (Nat.eqb_eq _ _) Hd), Hrow; done). rewrite Ec in *.
  assert (saved any y hop l) as Hl'.
  { apply (saved_spares _ any nothing (Some c) _ _ _ _ Hs Hl); [by intros u _ _; split; [intros []|]|].
    intros u c' [_ Hne] Hu Htu [= <-] Hta. by apply Hsole. }
  exists (MkA e f (shown y c) g :: l). split; [|unfold stack; change (cached (set_h y m)) with (cached m); by rewrite Hc].
  split; try apply H; [apply Hs|apply Hs, H|change (cached (set_h y m)) with (cached m); by rewrite Hc| |].
  - eapply Forall_impl; [apply (ck_args _ _ H)|]. intros u. apply Hs.
  - apply (saved_row any y (way m) hop); [by apply Hs|done|done| |by apply Hs|done].
    rewrite hread_ok by (done || by apply Hs). rewrite (sp_row _ _ _ _ Hs) by (done || by apply frame_pointer || intros []). by rewrite Hrow.
Qed.

(** The frame is in the cache. *)
Lemma vector_cached m base a l y : cache_ok m base → stack m base = a :: l → depth m ≠ 0%nat → inline_progress m = false → sole m →
  spares nothing (Some (top_acc m)) (h m) y → cache_ok (set_h y m) base ∧ stack (set_h y m) base = put_acc (shown y (top_acc m)) a :: l.
Proof.
  intros H Hst Hd Hin [Hsole1 Hsole2] Hs. destruct (cached_top m base H Hd) as (init & f & Hc & Hf & _ & _ & _ & _ & Hst'). rewrite Hst' in Hst. injection Hst as <- <-.
  pose proof (inline_false m Hd Hin) as Hz. rewrite Hf in Hz.
  assert (top_acc m = f_acc f) as Ec by (unfold top_acc; by rewrite (proj2 (Nat.eqb_neq _ _) Hd), Hf). split.
  - split; try apply H; [apply Hs|apply Hs, H|eapply spares_frame_valid; [exact Hs|apply H]| |].
    + eapply Forall_impl; [apply (ck_args _ _ H)|]. intros u. apply Hs.
    + apply (saved_spares any any nothing (Some (top_acc m)) _ _ _ _ Hs (ck_base _ _ H)); [by intros u _ _; split; [intros []|]|].
      intros u c' _ Hu' Htu [= <-] Hta. by apply Hsole1.
  - unfold stack. change (cached (set_h y m)) with (cached m). change (h (set_h y m)) with y. change (progress_ (set_h y m)) with (progress_ m).
    rewrite Hc, fmap_app, reverse_app. change (reverse (shown_frame y (progress_ m) <$> [f])) with [shown_frame y (progress_ m) f]. cbn [app]. f_equal.
    + unfold put_acc, shown_frame. cbn [a_env a_fun a_arg]. by rewrite Hz, Ec.
    + f_equal. f_equal. apply list_fmap_ext. intros j g Hg. unfold shown_frame. destruct (Nat.eqb_spec (progress_size g) 0) as [|]; [|done].
      f_equal. pose proof (lookup_lt_Some _ _ _ Hg) as Hj. pose proof (cached_length m base H) as Hcl. rewrite Hc, length_app in Hcl. cbn in Hcl.
      assert (cached m !! j = Some g) as Hgj by (rewrite Hc; by apply lookup_app_l_Some).
      pose proof (ck_valid _ _ H) as Hvs. rewrite Forall_forall in Hvs. destruct (Hvs g (list_elem_of_lookup_2 _ _ _ Hgj)) as (_ & _ & Hvg & _).
      apply (spares_shown nothing (Some (top_acc m)) _ _ _ Hs Hvg). intros Htg c' [= <-]. apply (Hsole2 j g Hgj); [lia|done].
Qed.

(** A frozen row is not the innermost frame, when that may be written. *)
Lemma writable_row m base a l v : cache_ok m base → stack m base = a :: l → writable m → frozen_row (h m) v → depth m = 0%nat → v ≠ way m.
Proof.
  intros H Hst [Hw|Hw] Hv Hd; [done|]. intros ->. destruct (bottom m base a l H Hst Hd) as [-> _].
  pose proof (ck_base _ _ H) as (? & ? & ? & ? & ? & _ & Hvw & Htw & _)%saved_inv. rewrite frozen_test in Hw by done. injection Hw as Hw. by apply bool_decide_eq_false in Hw.
Qed.

(** An argument in a vector of the heap. *)
Lemma set_vector m base a l ws i v n : cache_ok m base → stack m base = a :: l → a_acc a = Words ws → (i < length ws)%nat → valid (h m) v →
  inline_progress m = false → writable m → sole m → space (h m) n →
  ∃ m' base', set_progress i v m = Some (Ret tt, m') ∧ cache_ok m' base' ∧ stack m' base' = put_acc (Words (<[i := v]> ws)) a :: l ∧
    only_top m m' ∧ space (h m') n ∧ (owned (h m) (cached m) → owned (h m') (cached m')).
Proof.
  intros H Hst Hacc Hi Hv Hin Hw Hsole Hn. pose proof (ck_heap _ _ H) as Hh.
  destruct (frame_acc_run m base a l H Hst Hin) as (Hrun & Hva & Ea). rewrite Ea in Hacc. destruct (shown_words _ _ _ Hh Hva Hacc) as [Ht Hsl].
  destruct (v32set_run (h m) (top_acc m) i v ws Hh Hva Ht Hsl Hi Hv) as (y & Hset & Hs & Hsl' & Hsp & Hsame).
  assert (owned (h m) (cached m) → owned y (cached m)) as Hown by (eapply owned_grown; [exact Hs|done|apply H]).
  assert (shown y (top_acc m) = Words (<[i := v]> ws)) as Hshown by (unfold shown; by rewrite bool_decide_true, Hsl').
  assert (set_progress i v m = Some (Ret tt, set_h y m)) as Hset'.
  { unfold set_progress. change (pbind (gets ?g) ?kk ?r) with (kk (g r) r). cbv beta. rewrite Hin.
    rewrite (bind_run _ _ _ _ _ Hrun). unfold on_h. by rewrite Hset. }
  assert (only_top m (set_h y m)) as Ho.
  { split; [|apply Hs|done]. intros k lk. apply (captured_spares nothing (Some (top_acc m))); [done|by intros u []|].
    intros u c' Hf Hu Htu [= <-] Hta. apply (proj1 Hsole); try done. by apply (writable_row m base a l). }
  destruct (decide (depth m = 0%nat)) as [Hd|Hd].
  - destruct (bottom m base a l H Hst Hd) as [-> _]. destruct (vector_row m a l y H Hd Hsole Hs) as (base' & Hok & Hst'). rewrite Hshown in Hst'.
    exists (set_h y m), base'. split_and!; try done. by apply Hsp.
  - destruct (vector_cached m base a l y H Hst Hd Hin Hsole Hs) as [Hok Hst']. rewrite Hshown in Hst'. exists (set_h y m), base. split_and!; try done. by apply Hsp.
Qed.

(** *** Making the innermost frame writable *)

Lemma spares_hop W a x y w v : spares W a x y → ¬ W w → valid x w → tag_of w = T_ktx → hget T_ktx F_hop w x = Ret v → hget T_ktx F_hop w y = Ret v.
Proof.
  intros Hs Hw Hv Ht Hg. pose proof (sp_row _ _ _ _ Hs w Hv (frame_pointer w Ht) Hw) as Hrow.
  destruct (hget_ok x T_ktx F_hop w 0 (sp_from _ _ _ _ Hs) Hv Ht eq_refl eq_refl ltac:(cbn; lia)) as (v1 & H1 & R1).
  destruct (hget_ok y T_ktx F_hop w 0 (sp_to _ _ _ _ Hs) (sp_valid _ _ _ _ Hs w Hv) Ht eq_refl eq_refl ltac:(cbn; lia)) as (v2 & H2 & R2).
  congruence.
Qed.

(** A frame, with its words, in an empty cache. *)
Lemma pulled_ok m base g ws : cache_ok m base → depth m = 0%nat → progress_begin g = 0%nat → length ws = max_progress →
  (progress_size g ≤ max_progress)%nat → frame_valid (h m) g → Forall (valid (h m)) (words_of g ws) →
  let m' := pushed g (set_words ws (progress_size g) m) in
  cache_ok m' base ∧ stack m' base = shown_frame (h m) ws g :: base.
Proof.
  intros H Hd Hb Hl Hle Hg Hw m'. assert (cached m = []) as Hc by (unfold cached; by rewrite Hd). pose proof (ck_frames _ _ H) as Hfl.
  apply (top_frame m base [] [] m' g); try done; try apply H.
  - unfold cached, m', pushed. cbn [depth frames_ set_frames set_words]. rewrite Hd. apply (take_insert_last _ 0). rewrite Hfl. vm_compute. lia.
  - unfold m', pushed. cbn [frames_ set_frames set_words]. by rewrite length_insert.
  - unfold m', pushed. cbn [depth set_frames set_words]. rewrite Hd. vm_compute. lia.
Qed.

Lemma below_ok m a l : cache_ok m (a :: l) → depth m = 0%nat → ∃ hop e f c g, a = MkA e f (shown (h m) c) g ∧
  frame m = Some (Ret (MkFrame e f c g 0 0), m) ∧ frame_valid (h m) (MkFrame e f c g 0 0) ∧
  asks (hget T_ktx F_hop (way m)) m = Some (Ret hop, m) ∧ cache_ok (set_way hop m) l ∧ valid (h m) (way m) ∧ tag_of (way m) = T_ktx ∧
  row_of (h m) (way m) = [hop; e; f; c; g].
Proof.
  intros H Hd. pose proof (ck_heap _ _ H) as Hh. pose proof (ck_base _ _ H) as (hop & e & f & c & g & -> & Hv & Ht & _ & Hr & Hc & Hl)%saved_inv.
  destruct (row_fields _ _ _ _ _ _ _ Hh Hv Ht Hr) as (Hrow & Hhop & _). exists hop, e, f, c, g.
  assert (frame_valid (h m) (MkFrame e f c g 0 0)) as Hfv.
  { pose proof (row_of_ok _ _ Hh Hv (frame_pointer _ Ht)) as Hok. rewrite Ht, Hrow in Hok.
    split; [|split; [|split; [done|]]]; [eapply (row_values _ _ _ Hok 1)|eapply (row_values _ _ _ Hok 2)|eapply (row_values _ _ _ Hok 4)];
      first [by eexists | done]. }
  split; [done|]. split; [|split; [done|split; [|split; [|done]]]].
  - unfold frame. change (pbind (gets ?g) ?kk ?r) with (kk (g r) r). cbv beta. rewrite Hd. cbn [negb Nat.eqb]. unfold pbind, asks. by rewrite Hr.
  - unfold asks. by rewrite Hhop.
  - destruct H. by split.
Qed.

(** A frozen frame in the cache that still shares its accumulator: it is not a suspended call with a vector. *)
Lemma owned_pulled x w f : heap_ok x → valid x w → tag_of w = T_ktx → row_fun x w = f_fun f → row_acc x w = f_acc f → frozen_row x w →
  suspended_call (f_fun f) && bool_decide (tag_of (f_acc f) = T_v32) = false → owned x [] → owned x [f].
Proof.
  intros Hh Hv Ht Hf Ha Hfz Hno. assert (∀ i g a, has x [f] (inr i) g a → ¬ unshared x (inr i) g) as Hshared.
  { intros i g a [Hta (c & Hc & <- & <-)] [Hsu _]. apply list_lookup_singleton_Some in Hc as [_ <-]. rewrite Hsu, bool_decide_true in Hno by done. done. }
  apply (owned_by (λ p, match p with inl u => Some (inl u) | inr _ => Some (inl w) end) nothing None); [by apply spares_refl|done| | |].
  - intros [u|i] g a [Hta H]; [by split|]. destruct H as (c & Hc & <- & <-). apply list_lookup_singleton_Some in Hc as [_ <-]. by split.
  - intros [u|i] p0 g a Hp Hu [= <-]; [done|]. by destruct (Hshared _ _ _ Hp).
  - intros [u|i] [u'|i'] g g' a a' Hp Hq Hu E; [congruence| |by destruct (Hshared _ _ _ Hp)..]. injection E as ->. by destruct Hu.
Qed.

(** The copy of a frozen frame. *)
Definition thaw (m : cache) (f : cached_frame) : step cached_frame :=
  if suspended_call (f_fun f) && bool_decide (tag_of (f_acc f) = T_v32) then
    xs <~ asks (v32slice (f_acc f));
    if negb (length xs =? 0)%nat && (length xs <=? max_progress)%nat then
      _ <~ modify (λ m, set_words (xs ++ drop (length xs) (progress_ m)) (length xs) m);
      pret (with_progress (progress_begin f) (length xs) (with_acc nil f))
    else
      acc <~ on_h (clonev32 (f_acc f));
      pret (with_acc acc f)
  else pret f.

Lemma thaw_run m base f n : cache_ok m base → depth m = 0%nat → frame_valid (h m) f → progress_begin f = 0%nat → progress_size f = 0%nat →
  (∀ ws, shown (h m) (f_acc f) = Words ws → space (h m) (S (n + length ws))) → space (h m) n →
  ∃ m1 g, thaw m f m = Some (Ret g, m1) ∧ cache_ok (pushed g m1) base ∧ stack (pushed g m1) base = shown_frame (h m) [] f :: base ∧
    only_top m m1 ∧ space (h m1) n ∧ way m1 = way m ∧ depth m1 = 0%nat ∧ spares nothing None (h m) (h m1) ∧
    (∀ w, valid (h m) w → tag_of w = T_ktx → row_fun (h m) w = f_fun f → row_acc (h m) w = f_acc f → frozen_row (h m) w →
      owned (h m) [] → owned (h m1) [g]).
Proof.
  intros H Hd Hf Hb Hz Hws Hn. pose proof (ck_heap _ _ H) as Hh. pose proof Hf as (He & Hfn & Ha & Hg).
  pose proof (ck_used _ _ H) as Hu. unfold cached in Hu. rewrite Hd in Hu. change (progress_used m = 0%nat) in Hu.
  assert (shown_frame (h m) [] f = MkA (f_env f) (f_fun f) (shown (h m) (f_acc f)) (f_arg f)) as Hsh by (unfold shown_frame; by rewrite Hz).
  unfold thaw. destruct (suspended_call (f_fun f) && bool_decide (tag_of (f_acc f) = T_v32)) eqn:Hcase.
  - apply andb_true_iff in Hcase as [_ Ht%bool_decide_eq_true]. destruct (hwords_valid (h m) T_v32 (f_acc f) Hh Ha Ht eq_refl) as (xs & Hxs & Hvx).
    assert (shown (h m) (f_acc f) = Words xs) as Hsx by (unfold shown; rewrite bool_decide_true by done; unfold v32slice; by rewrite Hxs).
    unfold asks at 1, pbind at 1, v32slice. rewrite Hxs.
    destruct (negb (length xs =? 0)%nat && (length xs <=? max_progress)%nat) eqn:Hlen.
    + apply andb_true_iff in Hlen as [H0%negb_true_iff%Nat.eqb_neq Hle%Nat.leb_le].
      set (ws := xs ++ drop (length xs) (progress_ m)). set (g := with_progress (progress_begin f) (length xs) (with_acc nil f)).
      assert (words_of g ws = xs) as Hg' by (unfold words_of, g, ws; cbn; rewrite Hb, drop_0; by apply take_app_length).
      assert (length ws = max_progress) as Hlw by (unfold ws; rewrite length_app, length_drop, (ck_words _ _ H); lia).
      destruct (pulled_ok m base g ws H Hd Hb Hlw Hle) as [Hok Hst]; [split; [done|split; [done|split; [by split|done]]]|by rewrite Hg'|].
      exists (set_words ws (length xs) m), g. split_and!; try done.
      2:{ intros w _ _ _ _ _. apply owned_frames; [done|constructor|]. intros i c Hc%list_lookup_singleton_Some Htc. by destruct Hc as [_ <-]. }
      change (length xs) with (progress_size g). rewrite Hst, Hsh, Hsx. unfold shown_frame. rewrite Hg'. cbn. by rewrite (proj2 (Nat.eqb_neq _ _) H0).
    + destruct (clonev32_made (h m) (f_acc f) xs n Hh Ha Ht Hxs (Hws xs Hsx)) as (acc & y & Hm & Hvm).
      destruct (vector_frames _ _ _ _ _ Hvm) as (Hsame & Hfresh & Hs). destruct Hvm as (Hk & Hv & Hta & Hwd & Hr & Hsy & _). destruct (spared_cache m base y H Hs) as [H1 Hst1].
      destruct (pushed_ok (set_h y m) base (with_acc acc f) H1) as [Hok Hst]; try done.
      * change (depth (set_h y m)) with (depth m). rewrite Hd. vm_compute. lia.
      * split; [by apply Hs|]. split; [by apply Hs|]. split; [done|by apply Hs].
      * cbn. lia.
      * exists (set_h y m), (with_acc acc f). unfold on_h, pbind. rewrite Hm. split_and!; try done; [|by apply only_top_spared|].
        2:{ intros w _ _ _ _ _. apply (owned_update (Some (inr 0%nat)) nothing None); [done|done|constructor| | |].
          - intros u Hvu Htu _ _. unfold row_fun, row_acc. change (h (set_h y m)) with y. by rewrite (sp_row _ _ _ _ Hs u Hvu (frame_pointer u Htu)) by (by intros []).
          - intros i c Hc%list_lookup_singleton_Some Hne. by destruct Hc as [-> _].
          - intros p f0 a0 [= <-] [_ (c & Hc & _ & <-)]. by injection Hc as <-. }
        rewrite Hst, Hst1, Hsh, Hsx. unfold stack, cached. rewrite Hd. unfold shown_frame. cbn [progress_size with_acc f_acc f_env f_fun f_arg].
        rewrite Hz. cbn. unfold shown. rewrite bool_decide_true by done. unfold v32slice. by rewrite Hwd.
  - destruct (pushed_ok m base f H) as [Hok Hst]; [rewrite Hd; vm_compute; lia|done|lia|done|].
    exists m, f. split_and!; try done; [rewrite Hst, Hsh; unfold shown_frame; rewrite Hz; unfold stack, cached; by rewrite Hd|].
    intros w. intros. by eapply owned_pulled.
Qed.

Lemma writable_frame_run m base a l n : cache_ok m base → stack m base = a :: l →
  (∀ ws, a_acc a = Words ws → space (h m) (S (n + length ws))) → space (h m) n →
  ∃ m' base', writable_frame m = Some (Ret tt, m') ∧ cache_ok m' base' ∧ stack m' base' = a :: l ∧ only_top m m' ∧ space (h m') n ∧ writable m' ∧
    (owned (h m) (cached m) → owned (h m') (cached m')).
Proof.
  intros H Hst Hws Hn. unfold writable_frame. change (pbind (gets ?g) ?kk ?r) with (kk (g r) r). cbv beta.
  destruct (Nat.eqb_spec (depth m) 0) as [Hd|Hd]; cbn [negb]; [|exists m, base; split_and!; try done; by left].
  destruct (bottom m base a l H Hst Hd) as [-> Hcm]. destruct (below_ok m a l H Hd) as (hop & e & f & c & g & -> & Hfr & Hfv & Hhop & Hok & Hv & Ht & Hrow).
  unfold asks at 1, pbind at 1. destruct (continuation_frozen (way m) (h m)) as [fz|] eqn:Hfz; [|by rewrite frozen_test in Hfz by done].
  destruct fz; cbn [negb]; [|exists m, (MkA e f (shown (h m) c) g :: l); split_and!; try done; by right].
  rewrite (bind_run _ _ _ _ _ Hfr). change (if suspended_call _ && _ then _ else _) with (thaw m (MkFrame e f c g 0 0)).
  destruct (thaw_run m (MkA e f (shown (h m) c) g :: l) (MkFrame e f c g 0 0) n H Hd Hfv) as (m1 & f1 & Hthaw & Hok1 & Hst1 & Ho & Hn1 & Hw1 & Hd1 & Hs1 & Hown); try done.
  rewrite (bind_run _ _ _ _ _ Hthaw). pose proof (saved_spared any _ _ _ _ Hs1 (ck_base _ _ Hok)) as Hl. change (way (set_way hop m)) with hop in Hl.
  assert (asks (hget T_ktx F_hop (way m)) m1 = Some (Ret hop, m1)) as Hhop1.
  { unfold asks in *. injection Hhop as Hhop. by rewrite (spares_hop nothing None (h m) _ _ hop Hs1) by (done || intros []). }
  rewrite (bind_run _ _ _ _ _ Hhop1). exists (set_way hop (pushed f1 m1)), l. split; [reflexivity|]. split; [|split; [|split; [|split; [done|split; [by left|]]]]].
  - destruct Hok1. by split.
  - change (reverse (shown_frame (h (pushed f1 m1)) (progress_ (pushed f1 m1)) <$> cached (pushed f1 m1)) ++ l = MkA e f (shown (h m) c) g :: l).
    apply (app_inv_tail _ _ [_]) in Hst1. by rewrite Hst1.
  - destruct Ho. by split.
  - rewrite frozen_test in Hfz by done. injection Hfz as Hfz%bool_decide_eq_true. rewrite Hcm. intros Hown0.
    assert (cached (set_way hop (pushed f1 m1)) = [f1]) as ->.
    { pose proof (ck_frames _ _ Hok1) as Hfl. unfold pushed in Hfl. cbn [frames_ set_frames] in Hfl. rewrite length_insert in Hfl.
      unfold cached, pushed. cbn [depth frames_ set_frames set_way]. rewrite Hd1. apply (take_insert_last _ 0). rewrite Hfl. vm_compute. lia. }
    apply (Hown (way m)); try done; unfold row_fun, row_acc; by rewrite Hrow.
Qed.

(** ** Reading the innermost frame *)

Lemma frame_run m base a l : cache_ok m base → stack m base = a :: l →
  ∃ f, frame m = Some (Ret f, m) ∧ f_env f = a_env a ∧ f_fun f = a_fun a ∧ f_arg f = a_arg a.
Proof.
  intros H Hst. destruct (decide (depth m = 0%nat)) as [Hd|Hd].
  - destruct (bottom m base a l H Hst Hd) as [-> _]. destruct (below_ok m a l H Hd) as (hop & e & f & c & g & -> & Hfr & _). by eexists.
  - destruct (cached_top m base H Hd) as (init & f & _ & Hf & _ & _ & _ & _ & Hst'). rewrite Hst' in Hst. injection Hst as <- <-.
    exists f. split; [|done]. unfold frame. change (pbind (gets ?g) ?kk ?r) with (kk (g r) r). cbv beta. rewrite (proj2 (Nat.eqb_neq _ _) Hd), Hf. done.
Qed.

Lemma progress_run m base a l : cache_ok m base → stack m base = a :: l →
  progress m = Some (Ret (match a_acc a with Words ws => ws | Word _ => [] end), m).
Proof.
  intros H Hst. unfold progress. change (pbind (gets ?g) ?kk ?r) with (kk (g r) r). cbv beta. destruct (inline_progress m) eqn:Hin.
  - unfold inline_progress in Hin. apply andb_true_iff in Hin as [Hd%negb_true_iff%Nat.eqb_neq Hz%negb_true_iff].
    destruct (cached_top m base H Hd) as (init & f & _ & Hf & _ & _ & _ & _ & Hst'). rewrite Hst' in Hst. injection Hst as <- <-.
    rewrite Hf in *. unfold shown_frame. cbn [a_acc]. by rewrite Hz.
  - destruct (frame_acc_run m base a l H Hst Hin) as (Hrun & Hva & ->). rewrite (bind_run _ _ _ _ _ Hrun). unfold shown.
    case_bool_decide as Ht; [|done]. unfold asks. by destruct (v32slice_extent (h m) (top_acc m) (ck_heap _ _ H) Hva Ht) as [-> _].
Qed.

(** ** Capturing *)

(** [snapshot] of the running segment and of the boundaries [meta]; [continuation] is the
    symbol the evaluator knows by that name. *)
Definition snapshot (continuation ctx_way ctx_meta : Z) : step Z :=
  m <~ gets (λ m, m);
  _ <~ assert (depth m =? 0)%nat;
  _ <~ modify (λ m, set_h (freeze_continuations (h m)) m);
  if ctx_meta =? top then pret ctx_way else on_h (make T_ktx [top; nil; continuation; ctx_way; ctx_meta]).

Lemma freeze_ok x : heap_ok x → heap_ok (freeze_continuations x).
Proof. intros Hh. destruct Hh. split; try done. intros t i r Ht Hi. apply (row_ok_mono x); try done. eauto. Qed.

Lemma saved_freeze (P : Z → Prop) x w l : saved P x w l → saved (frozen_row (freeze_continuations x)) (freeze_continuations x) w l.
Proof.
  induction 1 as [|w hop e f a g l Hv Ht _ Hr Ha _ IH]; [constructor|].
  change (shown x a) with (shown (freeze_continuations x) a). apply (saved_row _ _ w hop); try done.
  destruct Hv as [_ Hv]. destruct (Hv (frame_pointer w Ht)) as [_ Hlt]. rewrite Ht in Hlt. exact Hlt.
Qed.

Definition frozen_cache (m : cache) : cache := set_h (freeze_continuations (h m)) m.

Lemma freeze_run m base n : cache_ok m base → space (h m) n →
  cache_ok (frozen_cache m) base ∧ stack (frozen_cache m) base = stack m base ∧ only_top m (frozen_cache m) ∧ space (h (frozen_cache m)) n.
Proof.
  intros H Hn. split; [|split; [done|split; [|by destruct Hn]]].
  - split; try apply H; [apply freeze_ok, H|]. eapply saved_impl; [|eapply saved_freeze, (ck_base _ _ H)]. done.
  - split; [|done|done]. intros k l Hc. by eapply saved_freeze.
Qed.

(** ** The stack of frames as a specification *)

Inductive call :=
| Push (fun_ acc arg : Z)
| Pop
| MakeProgress (size : nat)
| SetProgress (i : nat) (value : Z)
| SetAcc (acc : Z)
| SetPosition (arg : Z)
| WritableFrame
| Spill (count : nat)
| Flush
| Snapshot.

Definition perform (o : call) : step unit :=
  match o with
  | Push fun_ acc arg => push fun_ acc arg
  | Pop => pop
  | MakeProgress size => make_progress size
  | SetProgress i value => set_progress i value
  | SetAcc acc => set_acc acc
  | SetPosition arg => set_position arg
  | WritableFrame => writable_frame
  | Spill count => spill count
  | Flush => flush
  | Snapshot => m <~ gets (λ m, m); _ <~ snapshot nil (way m) top; pret tt
  end.

(** What each operation does to the stack of frames that [m] shows. *)
Definition effect (m : cache) (o : call) (l : list aframe) : option (list aframe) :=
  match o, l with
  | Push fun_ acc arg, _ => Some (MkA (env m) fun_ (shown (h m) acc) arg :: l)
  | Pop, _ :: l' => Some l'
  | MakeProgress size, a :: l' => Some (put_acc (Words (replicate size nil)) a :: l')
  | SetProgress i value, a :: l' =>
      match a_acc a with
      | Words ws => if (i <? length ws)%nat then Some (put_acc (Words (<[i := value]> ws)) a :: l') else None
      | Word _ => None
      end
  | SetAcc acc, a :: l' => Some (put_acc (shown (h m) acc) a :: l')
  | SetPosition arg, a :: l' => Some (put_arg arg a :: l')
  | WritableFrame, _ :: _ | Spill _, _ | Flush, _ | Snapshot, _ => Some l
  | _, [] => None
  end.

(** When the evaluator calls it: words that are live, a frame that may be written, and
    arguments that no other frame shares. *)
Definition ready (m : cache) (o : call) : Prop :=
  match o with
  | Push fun_ acc arg => valid (h m) fun_ ∧ valid (h m) acc ∧ valid (h m) arg
  | MakeProgress size => (0 < size)%nat ∧ writable m ∧ inline_progress m = false
  | SetProgress _ value => valid (h m) value ∧ (inline_progress m = true ∨ inline_progress m = false ∧ writable m ∧ sole m)
  | SetAcc acc => valid (h m) acc ∧ writable m ∧ inline_progress m = false
  | SetPosition arg => valid (h m) arg ∧ writable m
  | Spill count => (count ≤ depth m)%nat
  | Snapshot => depth m = 0%nat
  | Pop | WritableFrame | Flush => True
  end.

(** The rows and words that it may allocate. *)
Definition extra (o : call) (l : list aframe) : nat :=
  2 * max_frames + max_progress +
  match o, l with
  | MakeProgress size, _ => S size
  | WritableFrame, MkA _ _ (Words ws) _ :: _ => S (length ws)
  | _, _ => 0
  end.

Lemma perform_run m base o l' : cache_ok m base → ready m o → space (h m) (extra o (stack m base)) → effect m o (stack m base) = Some l' →
  ∃ m' base', perform o m = Some (Ret tt, m') ∧ cache_ok m' base' ∧ stack m' base' = l' ∧ only_top m m'.
Proof.
  intros H Hr Hsp He. unfold extra in Hsp. destruct o as [fun_ acc arg| |size|i value|acc|arg| |count| |]; cbn [perform ready effect] in *.
  - injection He as <-. destruct Hr as (H1 & H2 & H3).
    destruct (push_run m base fun_ acc arg 0 H H1 H2 H3 Hsp) as (m' & base' & R1 & R2 & R3 & R4 & _ & R5 & _).
    exists m', base'. split_and!; try done. by apply only_top_spared.
  - destruct (stack m base) as [|a l] eqn:Hst; [done|]. injection He as <-.
    destruct (pop_run m base a l H Hst) as (m' & base' & R1 & R2 & R3 & R4 & R5 & _). exists m', base'. split_and!; try done. by apply only_top_refl.
  - destruct (stack m base) as [|a l] eqn:Hst; [done|]. injection He as <-. destruct Hr as (H1 & H2 & H3).
    destruct (make_progress_run m base a l size 0 H Hst H2 H3 H1 Hsp) as (m' & base' & R1 & R2 & R3 & R4 & _). by exists m', base'.
  - destruct (stack m base) as [|a l] eqn:Hst; [done|]. destruct (a_acc a) as [|ws] eqn:Ha; [done|].
    destruct (Nat.ltb_spec i (length ws)) as [Hi|]; [|done]. injection He as <-. destruct Hr as (Hv & [Hin|(Hin & Hw & Hso)]).
    + destruct (set_inline m base a l ws i value _ H Hst Ha Hi Hv Hin Hsp) as (m' & R1 & R2 & R3 & R4 & _). by exists m', base.
    + destruct (set_vector m base a l ws i value _ H Hst Ha Hi Hv Hin Hw Hso Hsp) as (m' & base' & R1 & R2 & R3 & R4 & _). by exists m', base'.
  - destruct (stack m base) as [|a l] eqn:Hst; [done|]. injection He as <-. destruct Hr as (H1 & H2 & H3).
    destruct (set_acc_run m base a l acc _ H Hst H2 H3 H1 Hsp) as (m' & base' & R1 & R2 & R3 & R4 & _). by exists m', base'.
  - destruct (stack m base) as [|a l] eqn:Hst; [done|]. injection He as <-. destruct Hr as (H1 & H2).
    destruct (set_position_run m base a l arg _ H Hst H2 H1 Hsp) as (m' & base' & R1 & R2 & R3 & R4 & _). by exists m', base'.
  - destruct (stack m base) as [|[e f s g] l] eqn:Hst; [done|]. injection He as <-.
    destruct (writable_frame_run m base (MkA e f s g) l 0 H Hst) as (m' & base' & R1 & R2 & R3 & R4 & _).
    { intros ws Hs. cbn in Hs. subst s. eapply space_le; [exact Hsp|]. lia. } { eapply space_le; [exact Hsp|]. lia. }
    by exists m', base'.
  - injection He as <-. destruct (spill_run m base count 0 H Hr Hsp) as (m' & base' & R1 & R2 & R3 & R4 & _ & R5 & _).
    exists m', base'. split_and!; try done. by apply only_top_spared.
  - injection He as <-. destruct (spill_run m base (depth m) 0 H (Nat.le_refl _) Hsp) as (m' & base' & R1 & R2 & R3 & R4 & _ & R5 & _).
    exists m', base'. split_and!; try done. by apply only_top_spared.
  - injection He as <-. destruct (freeze_run m base _ H Hsp) as (R1 & R2 & R3 & _). exists (frozen_cache m), base. split_and!; try done.
    unfold snapshot. change (pbind (gets ?g) ?kk ?r) with (kk (g r) r). cbv beta. unfold pbind at 1.
    change (pbind (gets ?g) ?kk ?r) with (kk (g r) r). cbv beta. unfold assert. rewrite require_then by (by apply Nat.eqb_eq). done.
Qed.

(** C4: The frame cache refines a stack of frames: when a cache shows the stack [l], each
    operation on it (push, pop, the writes to the innermost frame, [make_progress],
    [writable_frame], [spill], [flush] and the capture of the running segment) returns
    without a fault, and the cache then shows the stack the operation has as its effect.
    In particular spilling frames to the heap, moving the rest of both arrays and pulling
    a frozen frame back are not visible. *)
Theorem frames_refine_stack m l o l' : holds m l → ready m o → space (h m) (extra o l) → effect m o l = Some l' →
  ∃ m', perform o m = Some (Ret tt, m') ∧ holds m' l'.
Proof.
  intros (base & H & ->) Hr Hsp He. destruct (perform_run m base o l' H Hr Hsp He) as (m' & base' & Hrun & H' & <- & _).
  exists m'. split; [done|]. by exists base'.
Qed.

(** What [snapshot] returns for the running segment is captured from then on: its
    rows are frozen and show the stack of the cache. *)
Theorem snapshot_captures m l continuation : holds m l → depth m = 0%nat →
  ∃ m', snapshot continuation (way m) top m = Some (Ret (way m), m') ∧ holds m' l ∧ captured (h m') (way m) l.
Proof.
  intros (base & H & ->) Hd. exists (frozen_cache m). split; [|split].
  - unfold snapshot. change (pbind (gets ?g) ?kk ?r) with (kk (g r) r). cbv beta. unfold assert. rewrite require_then by (by apply Nat.eqb_eq). done.
  - exists base. split; [|done]. split; try apply H; [apply freeze_ok, H|]. eapply saved_impl; [|eapply saved_freeze, (ck_base _ _ H)]. done.
  - unfold stack, cached. rewrite Hd. eapply saved_freeze, (ck_base _ _ H).
Qed.

(** ** A cache to try it on *)

Definition new_cache : cache :=
  MkCache (new_heap false) nil top (replicate max_frames no_frame) 0 (replicate max_progress 0) 0.

Lemma new_cache_ok : cache_ok new_cache [].
Proof. split; try done; [apply new_heap_ok|vm_compute; lia|vm_compute; lia|constructor]. Qed.

Fixpoint pushes (n : nat) : step unit :=
  match n with
  | O => pret tt
  | S n' => _ <~ push nah (Z.of_nat n) nil; pushes n'
  end.

(** The frame after the last one that fits sends half of them to the heap. *)
Example spills_when_full :
  (λ r, match r with Some (Ret _, m) => Some (depth m, size_ (htable (h m) T_ktx)) | _ => None end) (pushes 65 new_cache) =
  Some (33%nat, 32%nat).
Proof. vm_compute. reflexivity. Qed.

Lemma frames_refine_stack_witness :
  ∃ m', perform (Push nah top nil) new_cache = Some (Ret tt, m') ∧ holds m' [MkA nil nah (Word top) nil].
Proof.
  apply (frames_refine_stack new_cache []).
  - exists []. split; [exact new_cache_ok|reflexivity].
  - split; [by split|]. split; by split.
  - apply new_heap_space. vm_compute. discriminate.
  - reflexivity.
Defined.

(** A cache whose running segment, of one frame, was captured. *)
Lemma captured_example : ∃ m base, let f := MkA nil nah (Word top) nil in cache_ok m base ∧ stack m base = [f] ∧ depth m = 0%nat ∧ captured (h m) (way m) [f] ∧
  space (h m) 1700.
Proof.
  assert (space (h new_cache) 4096) as Hsp by (apply new_heap_space; vm_compute; discriminate).
  destruct (push_run new_cache [] nah top nil 2900 new_cache_ok) as (m1 & base1 & _ & H1 & Hst1 & _ & Hsp1 & _); [by split..|eapply space_le; [exact Hsp|vm_compute; lia]|].
  destruct (spill_run m1 base1 (depth m1) 1700 H1) as (m2 & base2 & _ & H2 & Hst2 & _ & Hsp2 & _ & Hd2 & _); [done|eapply space_le; [exact Hsp1|vm_compute; lia]|].
  destruct (freeze_run m2 base2 1700 H2 Hsp2) as (H3 & Hst3 & _ & Hsp3).
  exists (frozen_cache m2), base2. assert (depth m2 = 0%nat) as Hd by lia.
  assert (stack m2 base2 = [MkA nil nah (Word top) nil]) as Hst by (rewrite Hst2, Hst1; done).
  split_and!; try done. unfold stack, cached in Hst. rewrite Hd in Hst. change (base2 = [MkA nil nah (Word top) nil]) in Hst. rewrite <- Hst.
  eapply saved_freeze, (ck_base _ _ H2).
Qed.

Lemma snapshot_captures_witness : ∃ m m' f, depth m = 0%nat ∧ snapshot nil (way m) top m = Some (Ret (way m), m') ∧ captured (h m') (way m) [f].
Proof.
  destruct captured_example as (m & base & H & Hst & Hd & _). set (f := MkA nil nah (Word top) nil) in *.
  destruct (snapshot_captures m [f] nil) as (m' & Hrun & _ & Hc); [exists base; split; [exact H|by symmetry]|exact Hd|].
  exists m, m', f. split; [exact Hd|]. split; [exact Hrun|exact Hc].
Defined.
