(* ===== verification/Capture.v ===== *)
(** * Captured continuations are never changed (src/src/wisp/eval.cpp)

    The evaluator shares the rows of a captured continuation with the run that goes on, and
    copies a frozen frame before it writes to it ([writable_frame]). This file composes the
    operations of the frame cache of [Frames] in the way the evaluator calls them, and shows
    that no sequence of them changes a continuation that was captured: the copy is made
    whenever it is needed, the argument vector included. *)
From S2P Require Import Prelude State Word Vat Heap Grow Frames.
#[local] Open Scope Z_scope.

(** ** The evaluator's use of the cache *)

(** What the evaluator does with frames. Every write to the innermost frame comes after a call
    of [writable_frame]; right after a [push], where the code leaves it out, it does
    nothing. [a_install] carries the frames that the continuation was captured with. *)
Inductive act :=
| a_push (fun_ acc arg : Z)
| a_pop
| a_reserve (size : nat)
| a_fill (i : nat) (value : Z)
| a_replace (acc : Z)
| a_advance (arg : Z)
| a_spill (count : nat)
| a_flush
| a_capture
| a_install (k : Z) (frames : list aframe).

(** [install] of a segment; [meta], the boundaries around it, is no part of the cache. *)
Definition install (k : Z) : step unit :=
  m <~ gets (λ m, m);
  _ <~ assert (depth m =? 0)%nat;
  modify (set_way k).

Definition run_act (a : act) : step unit :=
  match a with
  | a_push fun_ acc arg => push fun_ acc arg
  | a_pop => pop
  | a_reserve size => _ <~ writable_frame; make_progress size
  | a_fill i value => _ <~ writable_frame; set_progress i value
  | a_replace acc => _ <~ writable_frame; set_acc acc
  | a_advance arg => _ <~ writable_frame; set_position arg
  | a_spill count => spill count
  | a_flush => flush
  | a_capture => m <~ gets (λ m, m); _ <~ snapshot nil (way m) top; pret tt
  | a_install k _ => install k
  end.

Fixpoint run_acts (acts : list act) : step unit :=
  match acts with
  | [] => pret tt
  | a :: acts' => _ <~ run_act a; run_acts acts'
  end.

(** ** What it means for the stack of frames *)

(** The stack after it, [e] being the environment; [None] when the innermost frame is not one
    that the evaluator does it to: arguments are filled in for a suspended call whose
    accumulator is their vector, and an accumulator that is replaced, or for which arguments
    are reserved, is not such a vector. *)
Definition outcome (e : Z) (a : act) (l : list aframe) : option (list aframe) :=
  match a, l with
  | a_push fun_ acc arg, _ => Some (MkA e fun_ (Word acc) arg :: l)
  | a_pop, _ :: l' => Some l'
  | a_reserve size, MkA e' f (Word _) g :: l' => Some (MkA e' f (Words (replicate size nil)) g :: l')
  | a_fill i value, MkA e' f (Words ws) g :: l' =>
      if suspended_call f && (i <? length ws)%nat then Some (MkA e' f (Words (<[i := value]> ws)) g :: l') else None
  | a_replace acc, MkA e' f (Word _) g :: l' => Some (MkA e' f (Word acc) g :: l')
  | a_advance arg, MkA e' f s _ :: l' => Some (MkA e' f s arg :: l')
  | a_spill _, _ | a_flush, _ | a_capture, _ => Some l
  | a_install _ frames, _ => Some frames
  | _, _ => None
  end.

Fixpoint outcomes (e : Z) (acts : list act) (l : list aframe) : option (list aframe) :=
  match acts with
  | [] => Some l
  | a :: acts' => outcome e a l ≫= outcomes e acts'
  end.

(** What the evaluator sees to: the words it passes are live, an accumulator that it passes is
    NIL, a list or the callee of a call with one argument (a vector as callee, which the call
    would refuse, is left out), and a segment is captured or installed when the cache was
    flushed. *)
Definition allowed (m : cache) (a : act) : Prop :=
  match a with
  | a_push fun_ acc arg => valid (h m) fun_ ∧ valid (h m) acc ∧ tag_of acc ≠ T_v32 ∧ valid (h m) arg
  | a_reserve size => (0 < size)%nat
  | a_fill _ value => valid (h m) value
  | a_replace acc => valid (h m) acc ∧ tag_of acc ≠ T_v32
  | a_advance arg => valid (h m) arg
  | a_spill count => (count ≤ depth m)%nat
  | a_capture => depth m = 0%nat
  | a_install k frames => depth m = 0%nat ∧ captured (h m) k frames
  | a_pop | a_flush => True
  end.

(** The rows and words that it may allocate. *)
Definition needs (a : act) (l : list aframe) : nat :=
  2 * max_frames + max_progress + match a with a_reserve size => S size | _ => 0 end +
  match l with MkA _ _ (Words ws) _ :: _ => S (length ws) | _ => 0 end.

(** Each of the acts is allowed in the state it is done in, with room in the heap. *)
Fixpoint all_allowed (acts : list act) (m : cache) (l : list aframe) : Prop :=
  match acts with
  | [] => True
  | a :: acts' => allowed m a ∧ space (h m) (needs a l) ∧
      ∃ l', outcome (env m) a l = Some l' ∧ ∀ m', run_act a m = Some (Ret tt, m') → all_allowed acts' m' l'
  end.

(** ** Ownership gives the right to write *)

(** When all rows are frozen and the cache is empty, nothing is to be shown. *)
Lemma owned_frozen x : (size_ (htable x T_ktx) ≤ frozen_ktx_ x)%nat → owned x [].
Proof.
  intros Hs [w|i] q f g a b _ [_ Hp] _ [_ Hu]; [|by destruct Hp as (? & ? & _)].
  destruct Hp as ([_ Hv] & Ht & _). destruct (Hv (frame_pointer w Ht)) as [_ Hi]. destruct Hu. unfold frozen_row. rewrite Ht in Hi. lia.
Qed.

Lemma owned_freeze x fs : owned x fs → owned (freeze_continuations x) fs.
Proof.
  intros Ho p q f g a b Hne Hp Hq [Hf Hu]. apply (Ho p q f g a b Hne Hp Hq). split; [done|]. destruct p as [w|i]; [|done].
  destruct Hp as (_ & [_ Hv] & Ht & _). destruct Hu. destruct (Hv (frame_pointer w Ht)) as [_ Hi]. rewrite Ht in Hi. exact Hi.
Qed.

(** The innermost frame, as a holder. *)
Lemma top_has m base a l ws : cache_ok m base → stack m base = a :: l → a_acc a = Words ws → inline_progress m = false →
  has (h m) (cached m) (if (depth m =? 0)%nat then inl (way m) else inr (depth m - 1)%nat) (a_fun a) (top_acc m).
Proof.
  intros H Hst Hacc Hin. destruct (frame_acc_run m base a l H Hst Hin) as (_ & Hva & Ea). rewrite Ea in Hacc.
  destruct (shown_words _ _ _ (ck_heap _ _ H) Hva Hacc) as [Ht _]. split; [done|]. unfold top_acc. destruct (Nat.eqb_spec (depth m) 0) as [Hd|Hd].
  - destruct (bottom m base a l H Hst Hd) as [-> _]. destruct (below_ok m a l H Hd) as (hop & e & f & c & g & -> & _ & _ & _ & _ & Hv & Htw & Hrow).
    split_and!; try done. unfold row_fun. by rewrite Hrow.
  - destruct (cached_top m base H Hd) as (init & f & Hc & Hf & Hi & _ & _ & _ & Hst'). rewrite Hst' in Hst. injection Hst as <- _. exists f. rewrite Hf. split; [|done].
    rewrite Hc, lookup_app_r, Hi, length_take, (ck_frames _ _ H); [|rewrite Hi, length_take; lia]. pose proof (ck_depth _ _ H). by replace (_ - _)%nat with 0%nat by lia.
Qed.

Lemma owned_sole m base a l ws : cache_ok m base → stack m base = a :: l → a_acc a = Words ws → inline_progress m = false →
  suspended_call (a_fun a) = true → writable m → owned (h m) (cached m) → sole m.
Proof.
  intros H Hst Hacc Hin Hsu Hw Ho. pose proof (top_has m base a l ws H Hst Hacc Hin) as Hp.
  assert (unshared (h m) (if (depth m =? 0)%nat then inl (way m) else inr (depth m - 1)%nat) (a_fun a)) as Hu.
  { split; [done|]. destruct (Nat.eqb_spec (depth m) 0) as [Hd|]; [|done]. intros Hf. by apply (writable_row m base a l (way m) H Hst Hw Hf Hd). }
  split.
  - intros v Hv Ht Hne Hta. refine (Ho _ (inl v) (a_fun a) (row_fun (h m) v) _ _ _ Hp _ Hu); [|by split].
    destruct (Nat.eqb_spec (depth m) 0) as [Hd|]; [|done]. intros [= E]. by apply (Hne Hd).
  - intros i f Hi Hlt Hta. refine (Ho _ (inr i) (a_fun a) (f_fun f) _ _ _ Hp _ Hu); [|split; [done|by exists f]].
    destruct (Nat.eqb_spec (depth m) 0); [lia|]. intros [= E]. lia.
Qed.

(** A frame whose accumulator is a plain word has no arguments in the array. *)
Lemma word_not_inline m base a l w : cache_ok m base → stack m base = a :: l → a_acc a = Word w → inline_progress m = false.
Proof.
  intros H Hst Ha. unfold inline_progress. destruct (Nat.eqb_spec (depth m) 0) as [|Hd]; [done|].
  destruct (cached_top m base H Hd) as (init & f & _ & Hf & _ & _ & _ & _ & Hst'). rewrite Hst' in Hst. injection Hst as <- _. rewrite Hf.
  unfold shown_frame in Ha. by destruct (Nat.eqb_spec (progress_size f) 0).
Qed.

(** ** Each act *)

(** The act returns, has its outcome, keeps the arguments owned and changes no captured continuation. *)
Definition goes (m : cache) (r : step unit) (l' : list aframe) : Prop :=
  ∃ m' base', r m = Some (Ret tt, m') ∧ cache_ok m' base' ∧ stack m' base' = l' ∧ only_top m m' ∧ owned (h m') (cached m').

(** A write after [writable_frame]. *)
Lemma goes_after m base a l k n l' : cache_ok m base → owned (h m) (cached m) → stack m base = a :: l →
  (∀ ws, a_acc a = Words ws → space (h m) (S (n + length ws))) → space (h m) n →
  (∀ m1 base1, cache_ok m1 base1 → stack m1 base1 = a :: l → writable m1 → owned (h m1) (cached m1) → space (h m1) n →
     (∀ v, valid (h m) v → valid (h m1) v) → goes m1 (k tt) l') →
  goes m (pbind writable_frame k) l'.
Proof.
  intros H Ho Hst Hws Hn Hk. destruct (writable_frame_run m base a l n H Hst Hws Hn) as (m1 & base1 & Hrun & H1 & Hst1 & Ht1 & Hn1 & Hw1 & Ho1).
  destruct (Hk m1 base1 H1 Hst1 Hw1 (Ho1 Ho) Hn1 (ot_valid _ _ Ht1)) as (m2 & base2 & Hrun2 & H2 & Hst2 & Ht2 & Ho2).
  exists m2, base2. split_and!; try done; [by rewrite (bind_run _ _ _ _ _ Hrun)|by eapply only_top_trans].
Qed.

Lemma goes_fill m base e f ws g l i v : cache_ok m base → owned (h m) (cached m) → stack m base = MkA e f (Words ws) g :: l →
  suspended_call f = true → (i < length ws)%nat → valid (h m) v → space (h m) (S (length ws)) →
  goes m (run_act (a_fill i v)) (MkA e f (Words (<[i := v]> ws)) g :: l).
Proof.
  intros H Ho Hst Hsu Hi Hv Hsp. apply (goes_after m base (MkA e f (Words ws) g) l _ 0); try done; [by intros ? [= <-]|eapply space_le; [exact Hsp|lia]|].
  intros m1 base1 H1 Hst1 Hw1 Ho1 Hn1 Hval. destruct (inline_progress m1) eqn:Hin.
  - destruct (set_inline m1 base1 _ l ws i v 0 H1 Hst1 eq_refl Hi (Hval v Hv) Hin Hn1) as (m' & R1 & R2 & R3 & R4 & _ & Eh & Ec). exists m', base1. split_and!; try done. by rewrite Eh, Ec.
  - pose proof (owned_sole m1 base1 _ l ws H1 Hst1 eq_refl Hin Hsu Hw1 Ho1) as Hso.
    destruct (set_vector m1 base1 _ l ws i v 0 H1 Hst1 eq_refl Hi (Hval v Hv) Hin Hw1 Hso Hn1) as (m' & base' & R1 & R2 & R3 & R4 & _ & R5). exists m', base'. split_and!; try done. by apply R5.
Qed.

Lemma goes_reserve m base e f w g l size : cache_ok m base → owned (h m) (cached m) → stack m base = MkA e f (Word w) g :: l →
  (0 < size)%nat → space (h m) (2 * max_frames + max_progress + S size) →
  goes m (run_act (a_reserve size)) (MkA e f (Words (replicate size nil)) g :: l).
Proof.
  intros H Ho Hst H0 Hsp. apply (goes_after m base (MkA e f (Word w) g) l _ (2 * max_frames + max_progress + S size)); try done.
  intros m1 base1 H1 Hst1 Hw1 Ho1 Hn1 Hval. pose proof (word_not_inline m1 base1 _ l w H1 Hst1 eq_refl) as Hin.
  destruct (make_progress_run m1 base1 _ l size 0 H1 Hst1 Hw1 Hin H0 Hn1) as (m' & base' & R1 & R2 & R3 & R4 & _ & R5). exists m', base'. split_and!; try done. by apply R5.
Qed.

Lemma goes_replace m base e f w g l acc : cache_ok m base → owned (h m) (cached m) → stack m base = MkA e f (Word w) g :: l →
  valid (h m) acc → tag_of acc ≠ T_v32 → space (h m) 0 → goes m (run_act (a_replace acc)) (MkA e f (Word acc) g :: l).
Proof.
  intros H Ho Hst Hv Ht Hsp. apply (goes_after m base (MkA e f (Word w) g) l _ 0); try done.
  intros m1 base1 H1 Hst1 Hw1 Ho1 Hn1 Hval. pose proof (word_not_inline m1 base1 _ l w H1 Hst1 eq_refl) as Hin.
  destruct (set_acc_run m1 base1 _ l acc 0 H1 Hst1 Hw1 Hin (Hval acc Hv) Hn1) as (m' & base' & R1 & R2 & R3 & R4 & _ & R5).
  exists m', base'. split_and!; try done; [rewrite R3; unfold put_acc, shown; by rewrite bool_decide_false|].
  apply (R5 (h m1)); [by apply spares_refl, (ck_heap _ _ H1)|done|apply H1|by left|done].
Qed.

Lemma goes_advance m base e f s g l arg : cache_ok m base → owned (h m) (cached m) → stack m base = MkA e f s g :: l →
  valid (h m) arg → space (h m) (needs (a_advance arg) (MkA e f s g :: l)) → goes m (run_act (a_advance arg)) (MkA e f s arg :: l).
Proof.
  intros H Ho Hst Hv Hsp. unfold needs in Hsp. apply (goes_after m base (MkA e f s g) l _ 0); try done; [|by eapply space_le; [|lia]|].
  { intros ws Hs. cbn in Hs. subst s. eapply space_le; [exact Hsp|lia]. }
  intros m1 base1 H1 Hst1 Hw1 Ho1 Hn1 Hval.
  destruct (set_position_run m1 base1 _ l arg 0 H1 Hst1 Hw1 (Hval arg Hv) Hn1) as (m' & base' & R1 & R2 & R3 & R4 & _ & R5). exists m', base'. split_and!; try done. by apply R5.
Qed.

Lemma goes_spill m base count : cache_ok m base → owned (h m) (cached m) → (count ≤ depth m)%nat → space (h m) (2 * max_frames + max_progress) →
  goes m (spill count) (stack m base).
Proof.
  intros H Ho Hc Hsp. destruct (spill_run m base count 0 H Hc) as (m' & base' & R1 & R2 & R3 & R4 & _ & R5 & _ & _ & R6); [eapply space_le; [exact Hsp|lia]|].
  exists m', base'. split_and!; try done; [by apply only_top_spared|by apply R6].
Qed.

Lemma goes_capture m base : cache_ok m base → owned (h m) (cached m) → depth m = 0%nat → goes m (run_act a_capture) (stack m base).
Proof.
  intros H Ho Hd. assert (cache_ok (frozen_cache m) base) as Hok.
  { split; try apply H; [apply freeze_ok, H|]. eapply saved_impl; [|eapply saved_freeze, (ck_base _ _ H)]. done. }
  exists (frozen_cache m), base. split_and!; try done; [|split; [|done|done]|by apply owned_freeze].
  - cbn [run_act]. unfold snapshot. change (pbind (gets ?g) ?kk ?r) with (kk (g r) r). cbv beta. unfold pbind at 1.
    change (pbind (gets ?g) ?kk ?r) with (kk (g r) r). cbv beta. unfold assert. rewrite require_then by (by apply Nat.eqb_eq). done.
  - intros k l Hc. by eapply saved_freeze.
Qed.

Lemma goes_install m base k frames : cache_ok m base → owned (h m) (cached m) → depth m = 0%nat → captured (h m) k frames →
  goes m (install k) frames.
Proof.
  intros H Ho Hd Hk. assert (cached m = []) as Hc by (unfold cached; by rewrite Hd). exists (set_way k m), frames.
  split_and!; try done; [| |by unfold stack; change (cached (set_way k m)) with (cached m); rewrite Hc].
  - unfold install. change (pbind (gets ?g) ?kk ?r) with (kk (g r) r). cbv beta. unfold assert. by rewrite require_then by (by apply Nat.eqb_eq).
  - split; try apply H. eapply saved_impl; [|exact Hk]. done.
Qed.

Lemma act_goes m base a l' : cache_ok m base → owned (h m) (cached m) → allowed m a → space (h m) (needs a (stack m base)) →
  outcome (env m) a (stack m base) = Some l' → goes m (run_act a) l'.
Proof.
  intros H Ho Ha Hsp Hl. unfold needs in Hsp. assert (space (h m) (2 * max_frames + max_progress)) as Hsp0 by (eapply space_le; [exact Hsp|lia]).
  destruct a as [fun_ acc arg| |size|i value|acc|arg|count| | |k frames]; cbn [allowed outcome] in *.
  - destruct Ha as (H1 & H2 & H3 & H4). injection Hl as <-.
    destruct (push_run m base fun_ acc arg 0 H H1 H2 H4) as (m' & base' & R1 & R2 & R3 & R4 & _ & R5 & _ & _ & R6); [eapply space_le; [exact Hsp0|lia]|].
    exists m', base'. split_and!; try done; [rewrite R3; unfold shown; by rewrite bool_decide_false|by apply only_top_spared|by apply R6].
  - destruct (stack m base) as [|b l] eqn:Hst; [done|]. injection Hl as <-.
    destruct (pop_run m base b l H Hst) as (m' & base' & R1 & R2 & R3 & R4 & R5 & R6). exists m', base'. split_and!; try done; [by apply only_top_refl|by apply R6].
  - destruct (stack m base) as [|[e f [w|ws] g] l] eqn:Hst; try done. injection Hl as <-. eapply goes_reserve; [done..|]. eapply space_le; [exact Hsp|lia].
  - destruct (stack m base) as [|[e f [w|ws] g] l] eqn:Hst; try done. destruct (suspended_call f && (i <? length ws)%nat) eqn:Hc; [|done]. injection Hl as <-.
    apply andb_true_iff in Hc as [Hsu Hi%Nat.ltb_lt]. eapply goes_fill; [done..|]. eapply space_le; [exact Hsp|lia].
  - destruct (stack m base) as [|[e f [w|ws] g] l] eqn:Hst; try done. injection Hl as <-. destruct Ha. eapply goes_replace; [done..|]. eapply space_le; [exact Hsp|lia].
  - destruct (stack m base) as [|[e f s g] l] eqn:Hst; [done|]. injection Hl as <-. by eapply goes_advance.
  - injection Hl as <-. by apply goes_spill.
  - injection Hl as <-. by apply goes_spill.
  - injection Hl as <-. by apply goes_capture.
  - injection Hl as <-. destruct Ha. by eapply goes_install.
Qed.

(** ** The property *)

(** C26: A continuation that was captured is never changed. Let the evaluator do any sequence of
    pushes, pops and writes to the innermost frame, each write after [writable_frame] as in the
    code, with spills, captures and installations of captured segments between them. Then every
    act returns, the cache shows the stack of frames that the acts amount to, and the frames of
    each continuation that was frozen are the ones it had. Nothing is asked of frozen rows and
    of their vectors, which the innermost frame may share: that the arguments which may be
    written in place are shared with no other frame ([owned]) holds when all rows are frozen
    and the cache is empty, and every sequence keeps it. *)
Theorem captured_never_changes acts m l : holds m l → owned (h m) (cached m) → all_allowed acts m l →
  ∃ m' l', run_acts acts m = Some (Ret tt, m') ∧ outcomes (env m) acts l = Some l' ∧ holds m' l' ∧ owned (h m') (cached m') ∧
    ∀ k frames, captured (h m) k frames → captured (h m') k frames.
Proof.
  revert m l. induction acts as [|a acts IH]; intros m l Hh Ho Ha; [by exists m, l|].
  destruct Ha as (Ha & Hsp & l1 & Hl & Hnext), Hh as (base & H & ->). destruct (act_goes m base a l1 H Ho Ha Hsp Hl) as (m1 & base1 & Hrun & H1 & Hst & Ht & Ho1).
  destruct (IH m1 l1) as (m' & l' & Hrun' & Hl' & Hh' & Ho' & Hc'); [by exists base1|done|by apply Hnext|].
  exists m', l'. cbn [run_acts outcomes]. rewrite (bind_run _ _ _ _ _ Hrun), Hl, <- (ot_env _ _ Ht). split_and!; try done.
  intros k frames Hk. by apply Hc', (ot_captured _ _ Ht).
Qed.

(** ** A call that is suspended, captured, and goes on *)

(** A builtin that waits for two arguments and has the first one: its frame, written to the heap and captured. *)
Definition builtin_word : Z := immediate T_jet 0.

Definition waiting : aframe := MkA nil builtin_word (Words [fixnum 7; nil]) nil.

Definition after (a : act) (m : cache) : cache :=
  match run_act a m with Some (_, m') => m' | None => m end.

Definition suspended : cache :=
  after a_capture (after a_flush (after (a_fill 0 (fixnum 7)) (after (a_reserve 2) (after (a_push builtin_word nil nil) new_cache)))).

Lemma after_holds a m l l' : holds m l ∧ owned (h m) (cached m) → allowed m a → space (h m) (needs a l) → outcome (env m) a l = Some l' →
  holds (after a m) l' ∧ owned (h (after a m)) (cached (after a m)).
Proof.
  intros [(base & H & ->) Ho] Ha Hsp Hl. destruct (act_goes m base a l' H Ho Ha Hsp Hl) as (m' & base' & Hrun & H' & Hst & _ & Ho').
  unfold after. rewrite Hrun. split; [by exists base'|done].
Qed.

Ltac fits := split; [intros [] _| |]; vm_compute; first [reflexivity|discriminate|lia].

Lemma suspended_holds : holds suspended [waiting] ∧ owned (h suspended) (cached suspended).
Proof.
  unfold suspended. apply (after_holds _ _ [waiting]); [|vm_compute; reflexivity|fits|reflexivity].
  apply (after_holds _ _ [waiting]); [|exact I|fits|reflexivity].
  apply (after_holds _ _ [MkA nil builtin_word (Words [nil; nil]) nil]); [|by split|fits|reflexivity].
  apply (after_holds _ _ [MkA nil builtin_word (Word nil) nil]); [|vm_compute; lia|fits|reflexivity].
  apply (after_holds _ _ []); [|split_and!; [by split|by split|done|by split]|fits|reflexivity].
  split; [exists []; by split; [exact new_cache_ok|]|]. by apply owned_frozen.
Qed.

Lemma suspended_captured : captured (h suspended) (way suspended) [waiting].
Proof.
  assert (waiting = MkA nil builtin_word (shown (h suspended) 3355443200) nil) as -> by (vm_compute; reflexivity).
  apply (saved_row _ _ _ top); [split; [done|intros _; split; [done|vm_compute; lia]]|done|vm_compute; lia|vm_compute; reflexivity|split; [done|intros _; split; [done|vm_compute; lia]]|constructor].
Qed.

(** The suspended call takes its second argument: the stack has both, and the continuation
    is still the call that waits for it. *)
Lemma captured_never_changes_witness :
  ∃ m', run_acts [a_fill 1 (fixnum 9)] suspended = Some (Ret tt, m') ∧
    holds m' [MkA nil builtin_word (Words [fixnum 7; fixnum 9]) nil] ∧ captured (h m') (way suspended) [waiting].
Proof.
  destruct suspended_holds as [Hh Ho].
  destruct (captured_never_changes [a_fill 1 (fixnum 9)] suspended [waiting] Hh Ho) as (m' & l' & Hrun & Hl & Hh' & _ & Hc).
  - split; [by split|]. split; [fits|]. exists [MkA nil builtin_word (Words [fixnum 7; fixnum 9]) nil]. split; [reflexivity|exact (λ _ _, I)].
  - exists m'. split; [exact Hrun|]. split; [|exact (Hc _ _ suspended_captured)].
    assert (outcomes (env suspended) [a_fill 1 (fixnum 9)] [waiting] = Some [MkA nil builtin_word (Words [fixnum 7; fixnum 9]) nil]) as E by reflexivity.
    rewrite E in Hl. injection Hl as <-. exact Hh'.
Defined.
