(* ===== verification/Deck.v ===== *)
(** * The task table and the ready queue of a deck

    nxtrt/ids.hpp ([task_id]) and the registry of nxtrt/deck.hpp, whose operations are
    in nxtrt/task/runtime.hpp: [register_task], [resolve], [unregister_task] and
    [enqueue]. A promise is named by a number, and so is the handle of its coroutine;
    what the registry keeps in the promise itself ([id], [registered_deck]) is a [link].

    The table is well formed under every sequence of operations: it is a bijection
    between live rows and registered promises, and an id that was given up names no
    task until its row has gone through the 255 eras. *)
From stdpp Require Import functions.
From S2P Require Import Prelude.

Local Open Scope Z_scope.

(** ** Task ids *)

Definition index_bits : Z := 24.
Definition index_mask : Z := Z.shiftl 1 index_bits - 1.
Definition max_index : Z := index_mask.

(** [task_id::make]: the era in the high byte, the one-based row in the rest. *)
Definition make_id (index era : Z) : Z := u32 (Z.lor (Z.shiftl era index_bits) (Z.land index index_mask)).

Definition id_index (id : Z) : Z := Z.land id index_mask.

Definition id_era (id : Z) : Z := u8 (Z.shiftr id index_bits).

(** ** The table *)

Record row := MkRow {
  r_id : Z;
  r_handle : option nat;
  r_promise : option nat;
  r_live : bool;
  r_era : Z;
}.

(** A value-initialized [deck_task_record]. *)
Definition fresh_row : row := MkRow 0 None None false 1.

(** [name] stands for the address of the deck. *)
Record deck := MkDeck {
  name : nat;
  rows : list row;
  ready : list Z;
}.

(** What a promise keeps of its registration. *)
Record link := MkLink {
  l_id : Z;
  l_deck : option nat;
}.

#[export] Instance link_eq_dec : EqDecision link.
Proof. solve_decision. Defined.

Definition no_link : link := MkLink 0 None.

Definition new_deck (name capacity : nat) : deck := MkDeck name (replicate capacity fresh_row) [].

Definition set_rows (rs : list row) (d : deck) : deck := MkDeck (name d) rs (ready d).

Definition set_ready (q : list Z) (d : deck) : deck := MkDeck (name d) (rows d) q.

(** [resolve]: the place of the live row that has this id. *)
Definition resolve (id : Z) (d : deck) : option (nat * row) :=
  if id =? 0 then None else
  let index := id_index id in
  if (index =? 0) || (Z.of_nat (length (rows d)) <? index) then None else
  let i := Z.to_nat (index - 1) in
  r ← rows d !! i;
  if negb (r_live r) || negb (r_id r =? id) then None else Some (i, r).

(** The first vacant row. *)
Fixpoint vacant (i : nat) (rs : list row) : option (nat * row) :=
  match rs with
  | [] => None
  | r :: rs => if r_live r then vacant (S i) rs else Some (i, r)
  end.

(** The loop of [register_task] over the rows. *)
Definition claim_row (handle promise : option nat) (l : link) (d : deck) : result string Z * link * deck :=
  match vacant 0 (rows d) with
  | None => (Throw "nxtrt deck task table is full"%string, l, d)
  | Some (i, r) =>
      let index := Z.of_nat i + 1 in
      if max_index <? index then (Throw "nxtrt deck task table is too large"%string, l, d) else
      let id := make_id index (r_era r) in
      (Ret id, MkLink id (Some (name d)), set_rows (<[i := MkRow id handle promise true (r_era r)]> (rows d)) d)
  end.

Definition register_task (handle promise : option nat) (l : link) (d : deck) : result string Z * link * deck :=
  if bool_decide (handle = None) || bool_decide (promise = None) then (Ret 0, l, d) else
  if bool_decide (l_deck l ≠ None) && bool_decide (l_deck l ≠ Some (name d)) then
    (Throw "nxtrt task scheduled on a different deck"%string, l, d) else
  if l_id l =? 0 then claim_row handle promise l d else
  match resolve (l_id l) d with
  | Some (i, r) =>
      if bool_decide (r_promise r ≠ promise) then (Throw "nxtrt task id collision"%string, l, d) else
      (Ret (l_id l), l, set_rows (<[i := MkRow (r_id r) handle (r_promise r) (r_live r) (r_era r)]> (rows d)) d)
  | None => claim_row handle promise (MkLink 0 (l_deck l)) d
  end.

(** [++row->era], an 8-bit counter that skips 0. *)
Definition next_era (e : Z) : Z := if u8 (e + 1) =? 0 then 1 else u8 (e + 1).

Definition unregister_task (id : Z) (promise : option nat) (l : link) (d : deck) : link * deck :=
  match resolve id d with
  | Some (i, r) =>
      if bool_decide (r_promise r ≠ promise) then (l, d) else
      (if bool_decide (promise ≠ None) then MkLink 0 (if bool_decide (l_deck l = Some (name d)) then None else l_deck l) else l,
       set_rows (<[i := MkRow 0 None None false (next_era (r_era r))]> (rows d)) d)
  | None => (l, d)
  end.

Definition enqueue (handle promise : option nat) (l : link) (d : deck) : result string Z * link * deck :=
  match register_task handle promise l d with
  | (Ret id, l', d') => (Ret id, l', if id =? 0 then d' else set_ready (ready d' ++ [id]) d')
  | (Throw e, l', d') => (Throw e, l', d')
  end.

(** [promise_base::unregister_from_deck]; a promise that is registered with another deck
    leaves this one alone. *)
Definition unregister_from_deck (promise : nat) (l : link) (d : deck) : link * deck :=
  if bool_decide (l_deck l = Some (name d)) then unregister_task (l_id l) (Some promise) l d else (l, d).

(** ** Ids as numbers *)

Lemma index_mask_ones : index_mask = 2 ^ 24 - 1.
Proof. done. Qed.

Lemma make_id_value i e : 0 ≤ i < 2 ^ 24 → 0 ≤ e < 256 → make_id i e = e * 2 ^ 24 + i.
Proof.
  intros Hi He. unfold make_id. rewrite index_mask_ones, land_ones_mod by lia. rewrite (Z.mod_small i) by lia.
  unfold index_bits. rewrite lor_shiftl_add by lia. apply wrap_small. lia.
Qed.

Lemma make_id_index i e : 0 ≤ i < 2 ^ 24 → 0 ≤ e < 256 → id_index (make_id i e) = i.
Proof.
  intros Hi He. rewrite make_id_value by done. unfold id_index. rewrite index_mask_ones, land_ones_mod by lia.
  rewrite Z.add_comm, Z_mod_plus_full. by apply Z.mod_small.
Qed.

Lemma make_id_inj i e i' e' : 0 ≤ i < 2 ^ 24 → 0 ≤ e < 256 → 0 ≤ i' < 2 ^ 24 → 0 ≤ e' < 256 →
  make_id i e = make_id i' e' → i = i' ∧ e = e'.
Proof. intros Hi He Hi' He' H. rewrite !make_id_value in H by done. lia. Qed.

Lemma next_era_value e : 1 ≤ e ≤ 255 → next_era e = e mod 255 + 1.
Proof.
  intros He. unfold next_era, wrap. destruct (decide (e = 255)) as [->|Hne]; [done|].
  rewrite !Z.mod_small by (change (2 ^ 8) with 256; lia). destruct (Z.eqb_spec (e + 1) 0); lia.
Qed.

Lemma next_era_range e : 1 ≤ e ≤ 255 → 1 ≤ next_era e ≤ 255.
Proof. intros He. rewrite next_era_value by done. pose proof (Z.mod_pos_bound e 255). lia. Qed.

(** ** Well-formed tables *)

(** [lk] gives the link of each promise, [no_link] for one that does not exist. *)
Record table_ok (lk : nat → link) (d : deck) : Prop := {
  tk_era : ∀ i r, rows d !! i = Some r → 1 ≤ r_era r ≤ 255;
  tk_live : ∀ i r, rows d !! i = Some r → r_live r = true → Z.of_nat i + 1 ≤ max_index ∧
    ∃ p, r = MkRow (make_id (Z.of_nat i + 1) (r_era r)) (Some p) (Some p) true (r_era r) ∧ lk p = MkLink (r_id r) (Some (name d));
  tk_vacant : ∀ i r, rows d !! i = Some r → r_live r = false → r = MkRow 0 None None false (r_era r);
  tk_link : ∀ p, lk p = no_link ∨ ∃ i r, rows d !! i = Some r ∧ r_live r = true ∧ r_promise r = Some p;
}.

Lemma resolve_inv id d i r : resolve id d = Some (i, r) → rows d !! i = Some r ∧ r_live r = true ∧ r_id r = id ∧ id ≠ 0.
Proof.
  unfold resolve. destruct (Z.eqb_spec id 0) as [|Hz]; [done|]. destruct (_ || _); [done|].
  destruct (rows d !! _) as [r'|] eqn:Hr; [|done]. cbn. destruct (r_live r') eqn:Hl; [|done]. destruct (Z.eqb_spec (r_id r') id) as [He|]; [|done].
  cbn. by intros [= <- <-].
Qed.

Lemma live_row lk d i r : table_ok lk d → rows d !! i = Some r → r_live r = true →
  0 ≤ Z.of_nat i + 1 < 2 ^ 24 ∧ 0 ≤ r_era r < 256 ∧ r_id r = make_id (Z.of_nat i + 1) (r_era r) ∧ r_id r ≠ 0.
Proof.
  intros H Hr Hl. pose proof (tk_era _ _ H i r Hr). destruct (tk_live _ _ H i r Hr Hl) as (Hi & p & Hrow & _).
  change max_index with (2 ^ 24 - 1) in Hi. assert (r_id r = make_id (Z.of_nat i + 1) (r_era r)) as -> by by rewrite Hrow.
  split_and!; try lia. rewrite make_id_value by lia. lia.
Qed.

Lemma resolve_live lk d i r : table_ok lk d → rows d !! i = Some r → r_live r = true → resolve (r_id r) d = Some (i, r).
Proof.
  intros H Hr Hl. destruct (live_row lk d i r H Hr Hl) as (Hi & He & Hid & Hz). unfold resolve.
  rewrite (proj2 (Z.eqb_neq _ _) Hz).
  assert (id_index (r_id r) = Z.of_nat i + 1) as -> by (rewrite Hid; by apply make_id_index).
  apply lookup_lt_Some in Hr as Hlt. destruct (Z.eqb_spec (Z.of_nat i + 1) 0); [lia|]. destruct (Z.ltb_spec (Z.of_nat (length (rows d))) (Z.of_nat i + 1)); [lia|].
  cbn [orb]. replace (Z.to_nat (Z.of_nat i + 1 - 1)) with i by lia. rewrite Hr. cbn. by rewrite Hl, Z.eqb_refl.
Qed.

(** A registered promise has its row. *)
Lemma linked_row lk d p : table_ok lk d → lk p ≠ no_link →
  ∃ i r, rows d !! i = Some r ∧ r_live r = true ∧ r = MkRow (l_id (lk p)) (Some p) (Some p) true (r_era r) ∧
    lk p = MkLink (r_id r) (Some (name d)) ∧ resolve (l_id (lk p)) d = Some (i, r) ∧ l_id (lk p) ≠ 0.
Proof.
  intros H Hp. destruct (tk_link _ _ H p) as [|(i & r & Hr & Hl & Hrp)]; [done|]. destruct (tk_live _ _ H i r Hr Hl) as (_ & q & Hrow & Hq).
  assert (q = p) as -> by (rewrite Hrow in Hrp; cbn in Hrp; congruence). pose proof (live_row lk d i r H Hr Hl) as (_ & _ & Hid & Hz).
  exists i, r. rewrite Hq. cbn [l_id]. split_and!; try done; [rewrite Hid; exact Hrow|by apply (resolve_live lk)].
Qed.

Lemma row_unique lk d i j r r' p : table_ok lk d → rows d !! i = Some r → rows d !! j = Some r' →
  r_live r = true → r_live r' = true → r_promise r = Some p → r_promise r' = Some p → i = j.
Proof.
  intros H Hi Hj Hl Hl' Hp Hp'. destruct (tk_live _ _ H i r Hi Hl) as (_ & q & Hrow & Hq). destruct (tk_live _ _ H j r' Hj Hl') as (_ & q' & Hrow' & Hq').
  rewrite Hrow in Hp. rewrite Hrow' in Hp'. cbn in Hp, Hp'. assert (q' = q) as -> by congruence.
  destruct (live_row lk d i r H Hi Hl) as (Ri & Re & Hid & _). destruct (live_row lk d j r' H Hj Hl') as (Ri' & Re' & Hid' & _).
  assert (r_id r = r_id r') as E by congruence. rewrite Hid, Hid' in E. apply make_id_inj in E as [E _]; try done. lia.
Qed.

Lemma row_promise lk d i r p : table_ok lk d → rows d !! i = Some r → r_live r = true → r_promise r = Some p →
  r = MkRow (r_id r) (Some p) (Some p) true (r_era r) ∧ lk p = MkLink (r_id r) (Some (name d)).
Proof.
  intros H Hr Hl Hp. destruct (tk_live _ _ H i r Hr Hl) as (_ & q & Hrow & Hq). assert (q = p) as -> by (rewrite Hrow in Hp; cbn in Hp; congruence).
  split; [|done]. destruct (live_row lk d i r H Hr Hl) as (_ & _ & -> & _). exact Hrow.
Qed.

(** ** The operations on a well-formed table *)

Lemma vacant_spec rs : ∀ n i r, vacant n rs = Some (i, r) → (n ≤ i)%nat ∧ rs !! (i - n)%nat = Some r ∧ r_live r = false.
Proof.
  induction rs as [|r0 rs IH]; intros n i r; [done|]. cbn [vacant]. destruct (r_live r0) eqn:Hl.
  - intros (Hle & Hr & Hv)%IH. split_and!; [lia| |done]. replace (i - n)%nat with (S (i - S n)) by lia. done.
  - intros [= -> ->]. split_and!; [lia| |done]. by rewrite Nat.sub_diag.
Qed.

Lemma vacant_none rs : ∀ n, vacant n rs = None → Forall (λ r, r_live r = true) rs.
Proof. induction rs as [|r rs IH]; intros n; [constructor|]. cbn [vacant]. destruct (r_live r) eqn:Hl; [|done]. intros H. constructor; eauto. Qed.

(** One row is written: the other rows keep their promises. *)
Lemma table_insert lk d i r0 r l p : table_ok lk d → rows d !! i = Some r0 → 1 ≤ r_era r ≤ 255 →
  (r_live r = true → Z.of_nat i + 1 ≤ max_index ∧ r = MkRow (make_id (Z.of_nat i + 1) (r_era r)) (Some p) (Some p) true (r_era r) ∧ l = MkLink (r_id r) (Some (name d))) →
  (r_live r = false → r = MkRow 0 None None false (r_era r) ∧ l = no_link) →
  (r_live r0 = true → r_promise r0 = Some p) → (lk p = no_link ∨ r_live r0 = true) →
  table_ok (<[p := l]> lk) (set_rows (<[i := r]> (rows d)) d).
Proof.
  intros H Hi He Hlive Hvac Hr0 Hp. apply lookup_lt_Some in Hi as Hlt. split; cbn [set_rows rows name].
  - intros j rj Hj. apply list_lookup_insert_Some in Hj as [(_ & <- & _)|(_ & Hj)]; [done|by apply (tk_era _ _ H j)].
  - intros j rj Hj Hl. apply list_lookup_insert_Some in Hj as [(<- & <- & _)|(Hne & Hj)].
    + destruct (Hlive Hl) as (Hm & Hr & Hlk). split; [done|]. exists p. split; [done|]. by rewrite fn_lookup_insert.
    + destruct (tk_live _ _ H j rj Hj Hl) as (Hm & q & Hr & Hlk). split; [done|]. exists q. split; [done|].
      destruct (decide (q = p)) as [->|Hqp]; [|by rewrite fn_lookup_insert_ne]. destruct Hp as [Hp|Hp]; [by rewrite Hp in Hlk|].
      destruct Hne. apply (row_unique lk d i j r0 rj p); try done; [by apply Hr0|by rewrite Hr].
  - intros j rj Hj Hl. apply list_lookup_insert_Some in Hj as [(<- & <- & _)|(_ & Hj)]; [by apply Hvac|by apply (tk_vacant _ _ H j)].
  - intros q. destruct (decide (q = p)) as [->|Hqp].
    + rewrite fn_lookup_insert. destruct (r_live r) eqn:Hl; [right|left; by apply Hvac]. exists i, r. split; [by apply list_lookup_insert_eq|].
      split; [done|]. destruct (Hlive eq_refl) as (_ & -> & _). done.
    + rewrite fn_lookup_insert_ne by done. destruct (tk_link _ _ H q) as [Hq|(j & rj & Hj & Hl & Hjp)]; [by left|right].
      exists j, rj. split; [|done]. rewrite list_lookup_insert_ne; [done|]. intros <-. assert (rj = r0) as -> by congruence.
      specialize (Hr0 Hl). congruence.
Qed.

(** A promise that has its row keeps it. *)
Lemma enqueue_linked lk d p : table_ok lk d → lk p ≠ no_link →
  enqueue (Some p) (Some p) (lk p) d = (Ret (l_id (lk p)), lk p, set_ready (ready d ++ [l_id (lk p)]) d).
Proof.
  intros H Hp. destruct (linked_row lk d p H Hp) as (i & r & Hr & Hl & Hrow & Hlk & Hres & Hz).
  unfold enqueue, register_task. rewrite (bool_decide_false (Some p = None)) by done. cbn [orb].
  assert (l_deck (lk p) = Some (name d)) as -> by (by rewrite Hlk). rewrite (bool_decide_false (Some (name d) ≠ Some (name d))) by congruence.
  rewrite andb_false_r, (proj2 (Z.eqb_neq _ _) Hz), Hres. assert (r_promise r = Some p) as Hrp by (by rewrite Hrow). rewrite (bool_decide_false (r_promise r ≠ Some p)) by congruence.
  assert (MkRow (r_id r) (Some p) (r_promise r) (r_live r) (r_era r) = r) as -> by (rewrite Hrow; done).
  rewrite list_insert_id by done. rewrite (proj2 (Z.eqb_neq _ _) Hz). by destruct d.
Qed.

(** One that has none gets the first vacant row, with an id that no other promise has. *)
Lemma enqueue_unlinked lk d p : table_ok lk d → lk p = no_link → Z.of_nat (length (rows d)) ≤ max_index →
  (vacant 0 (rows d) = None ∧ enqueue (Some p) (Some p) no_link d = (Throw "nxtrt deck task table is full"%string, no_link, d)) ∨
  ∃ i r id, vacant 0 (rows d) = Some (i, r) ∧ id ≠ 0 ∧ let d' := set_rows (<[i := MkRow id (Some p) (Some p) true (r_era r)]> (rows d)) d in
    enqueue (Some p) (Some p) no_link d = (Ret id, MkLink id (Some (name d)), set_ready (ready d ++ [id]) d') ∧
    table_ok (<[p := MkLink id (Some (name d))]> lk) d' ∧ resolve id d = None.
Proof.
  intros H Hp Hmax. unfold enqueue, register_task. rewrite (bool_decide_false (Some p = None)) by done. cbn [orb]. cbn [no_link l_deck l_id].
  rewrite (bool_decide_false (None ≠ None)) by congruence. cbn [andb Z.eqb]. unfold claim_row.
  destruct (vacant 0 (rows d)) as [[i r]|] eqn:Hv; [right|by left]. destruct (vacant_spec _ _ _ _ Hv) as (_ & Hr & Hl). rewrite Nat.sub_0_r in Hr.
  apply lookup_lt_Some in Hr as Hlt. destruct (Z.ltb_spec max_index (Z.of_nat i + 1)); [lia|]. pose proof (tk_era _ _ H i r Hr) as He.
  assert (make_id (Z.of_nat i + 1) (r_era r) ≠ 0) as Hz by (rewrite make_id_value by (change max_index with (2 ^ 24 - 1) in *; lia); lia).
  exists i, r, (make_id (Z.of_nat i + 1) (r_era r)). split; [done|]. split; [done|]. rewrite (proj2 (Z.eqb_neq _ _) Hz). split; [done|]. split.
  - apply (table_insert lk d i r); [done|done|done|intros _; split; [lia|done]|done|congruence|by left].
  - destruct (resolve _ d) as [[j rj]|] eqn:Hres; [|done]. apply resolve_inv in Hres as (Hj & Hlj & Hid & _).
    destruct (live_row lk d j rj H Hj Hlj) as (Rj & Re & Hidj & _). rewrite Hid in Hidj.
    apply make_id_inj in Hidj as [E _]; [|change max_index with (2 ^ 24 - 1) in *; lia..]. assert (i = j) as <- by lia. congruence.
Qed.

Lemma unregister_linked lk d p : table_ok lk d → lk p ≠ no_link →
  ∃ i r, rows d !! i = Some r ∧ r_live r = true ∧ r_promise r = Some p ∧ let d' := set_rows (<[i := MkRow 0 None None false (next_era (r_era r))]> (rows d)) d in
    unregister_from_deck p (lk p) d = (no_link, d') ∧ table_ok (<[p := no_link]> lk) d'.
Proof.
  intros H Hp. destruct (linked_row lk d p H Hp) as (i & r & Hr & Hl & Hrow & Hlk & Hres & Hz).
  assert (r_promise r = Some p) as Hrp by (by rewrite Hrow). exists i, r. split; [done|]. split; [done|]. split; [done|]. split.
  - unfold unregister_from_deck, unregister_task. assert (l_deck (lk p) = Some (name d)) as -> by (by rewrite Hlk).
    rewrite (bool_decide_true (Some (name d) = Some (name d))), Hres by done.
    rewrite (bool_decide_false (r_promise r ≠ Some p)) by congruence. by rewrite (bool_decide_true (Some p ≠ None)).
  - pose proof (tk_era _ _ H i r Hr) as He. apply (table_insert lk d i r); [done|done|by apply next_era_range|done|done|done|by right].
Qed.

Lemma unregister_unlinked d p : unregister_from_deck p no_link d = (no_link, d).
Proof. unfold unregister_from_deck. by rewrite bool_decide_false. Qed.

(** A table with more rows than there are registered promises has a vacant row. *)
Lemma vacancy lk d (ps : list nat) : table_ok lk d → (∀ p, lk p ≠ no_link → p ∈ ps) → (length ps < length (rows d))%nat →
  vacant 0 (rows d) ≠ None.
Proof.
  intros H Hps Hlt Hv. apply vacant_none in Hv. rewrite Forall_lookup in Hv.
  assert (NoDup (r_promise <$> rows d)) as Hnd.
  { apply NoDup_alt. intros i j q Hi Hj. apply list_lookup_fmap_Some in Hi as (r & -> & Hi), Hj as (r' & Hq & Hj).
    destruct (tk_live _ _ H i r Hi (Hv i r Hi)) as (_ & p & Hrow & _). assert (r_promise r = Some p) as Hp by (by rewrite Hrow).
    eapply (row_unique lk d i j r r' p); eauto. congruence. }
  enough (length (r_promise <$> rows d) ≤ length (Some <$> ps))%nat by (rewrite !length_fmap in *; lia).
  apply submseteq_length, NoDup_submseteq; [done|]. intros q Hq. apply list_elem_of_fmap in Hq as (r & -> & Hr).
  apply list_elem_of_lookup in Hr as (i & Hr). destruct (tk_live _ _ H i r Hr (Hv i r Hr)) as (_ & p & Hrow & Hp).
  assert (r_promise r = Some p) as -> by (by rewrite Hrow). apply list_elem_of_fmap. exists p. split; [done|]. apply Hps. by rewrite Hp.
Qed.

(** There are no more registered promises than rows. *)
Lemma linked_count lk d (ps : list nat) : table_ok lk d → NoDup ps → (∀ p, p ∈ ps → lk p ≠ no_link) → (length ps ≤ length (rows d))%nat.
Proof.
  intros H Hnd Hps. enough (length (Some <$> ps) ≤ length (r_promise <$> rows d))%nat by (rewrite !length_fmap in *; lia).
  apply submseteq_length, NoDup_submseteq; [by apply NoDup_fmap; [apply _|]|]. intros q Hq. apply list_elem_of_fmap in Hq as (p & -> & Hp).
  destruct (linked_row lk d p H (Hps p Hp)) as (i & r & Hr & _ & Hrow & _). apply list_elem_of_fmap. exists r. split; [by rewrite Hrow|].
  by apply list_elem_of_lookup_2 in Hr.
Qed.

(** ** Sequences of operations *)

(** A deck with its promises: [Enqueue] schedules a promise, [Unregister] is its end, and
    [Round] takes the queue. *)
Inductive table_op := Enqueue (p : nat) | Unregister (p : nat) | Round.

Definition table_step (s : (nat → link) * deck) (o : table_op) : (nat → link) * deck :=
  let '(lk, d) := s in
  match o with
  | Enqueue p => let '(_, l, d') := enqueue (Some p) (Some p) (lk p) d in (<[p := l]> lk, d')
  | Unregister p => let '(l, d') := unregister_from_deck p (lk p) d in (<[p := l]> lk, d')
  | Round => (lk, set_ready [] d)
  end.

Definition table_run (ops : list table_op) (s : (nat → link) * deck) : (nat → link) * deck := foldl table_step s ops.

Definition new_table (name capacity : nat) : (nat → link) * deck := (λ _, no_link, new_deck name capacity).

Lemma table_ok_ext lk lk' d d' : table_ok lk d → (∀ p, lk' p = lk p) → rows d' = rows d → name d' = name d → table_ok lk' d'.
Proof. intros [He Hl Hv Hk] E R N. split; rewrite ?R, ?N; try done; [|intros p; rewrite E; apply Hk]. intros i r Hr Hlive. destruct (Hl i r Hr Hlive) as (? & p & ? & ?). split; [done|]. exists p. by rewrite E. Qed.

Lemma new_table_ok name cap : table_ok (λ _, no_link) (new_deck name cap).
Proof.
  split; cbn [new_deck rows]; [..|by left]; intros i r Hr; apply lookup_replicate in Hr as [-> _]; done.
Qed.

Lemma fn_insert_self (lk : nat → link) p q : <[p := lk p]> lk q = lk q.
Proof. destruct (decide (p = q)) as [->|]; [by rewrite fn_lookup_insert|by rewrite fn_lookup_insert_ne]. Qed.

(** What an operation does to the table: it stays well formed, and a row changes its era
    only when a promise leaves it. *)
Lemma table_step_ok lk d o : table_ok lk d → Z.of_nat (length (rows d)) ≤ max_index → let s := table_step (lk, d) o in
  table_ok s.1 s.2 ∧ length (rows s.2) = length (rows d) ∧
  ∀ i r, rows d !! i = Some r → ∃ r', rows s.2 !! i = Some r' ∧
    (r_era r' = r_era r ∨ (∃ p, o = Unregister p) ∧ r_era r' = next_era (r_era r)).
Proof.
  intros H Hmax. assert (∀ i r r0 j, rows d !! i = Some r → rows d !! j = Some r0 → ∀ r1, ∃ r', <[j := r1]> (rows d) !! i = Some r' ∧ (r' = r ∨ r = r0 ∧ r' = r1)) as Hins.
  { intros i r r0 j Hi Hj r1. apply lookup_lt_Some in Hj as Hlt. destruct (decide (i = j)) as [->|Hne].
    - exists r1. rewrite list_lookup_insert_eq by done. split; [done|right]. split; congruence.
    - exists r. rewrite list_lookup_insert_ne by done. by split; [|left]. }
  destruct o as [p|p|]; cbn [table_step].
  - destruct (decide (lk p = no_link)) as [Hp|Hp].
    + rewrite Hp. destruct (enqueue_unlinked lk d p H Hp Hmax) as [[_ ->]|(i & r & id & Hv & _ & -> & Hok & _)]; cbn.
      * split; [apply (table_ok_ext lk _ d); try done; intros q; rewrite <- Hp; apply fn_insert_self|]. split; [done|]. intros i r Hr. exists r. by split; [|left].
      * split; [by apply (table_ok_ext _ _ _ _ Hok)|]. rewrite length_insert. split; [done|]. intros j rj Hj.
        destruct (vacant_spec _ _ _ _ Hv) as (_ & Hr & _). rewrite Nat.sub_0_r in Hr.
        destruct (Hins j rj r i Hj Hr (MkRow id (Some p) (Some p) true (r_era r))) as (r' & Hr' & Hcase). exists r'. split; [done|]. left.
        by destruct Hcase as [->|[-> ->]].
    + rewrite (enqueue_linked lk d p H Hp). cbn. split; [apply (table_ok_ext lk _ d); try done; intros q; apply fn_insert_self|]. split; [done|]. intros i r Hr. exists r. by split; [|left].
  - destruct (decide (lk p = no_link)) as [Hp|Hp].
    + rewrite Hp, unregister_unlinked. cbn. split; [apply (table_ok_ext lk _ d); try done; intros q; rewrite <- Hp; apply fn_insert_self|]. split; [done|]. intros i r Hr. exists r. by split; [|left].
    + destruct (unregister_linked lk d p H Hp) as (i & r & Hr & _ & _ & -> & Hok). cbn. split; [done|]. rewrite length_insert. split; [done|]. intros j rj Hj.
      destruct (Hins j rj r i Hj Hr (MkRow 0 None None false (next_era (r_era r)))) as (r' & Hr' & Hcase). exists r'. split; [done|].
      destruct Hcase as [->|[-> ->]]; [by left|right]. by split; [exists p|].
  - cbn. split; [by apply (table_ok_ext lk _ d)|]. split; [done|]. intros i r Hr. exists r. by split; [|left].
Qed.

Lemma table_run_ok ops : ∀ lk d, table_ok lk d → Z.of_nat (length (rows d)) ≤ max_index →
  let s := table_run ops (lk, d) in table_ok s.1 s.2 ∧ length (rows s.2) = length (rows d).
Proof.
  induction ops as [|o ops IH]; intros lk d H Hmax; [done|]. unfold table_run. cbn [foldl].
  pose proof (table_step_ok lk d o H Hmax) as (Hok & Hlen & _). destruct (table_step (lk, d) o) as [lk' d']. cbn in Hok, Hlen.
  destruct (IH lk' d' Hok ltac:(lia)) as [Hok' Hlen']. split; [done|]. unfold table_run in Hlen'. lia.
Qed.

(** The era after [k] departures. *)
Definition era_after (k : nat) (e : Z) : Z := (e - 1 + Z.of_nat k) mod 255 + 1.

Lemma era_after_next k e : 1 ≤ e ≤ 255 → era_after k (next_era e) = era_after (S k) e.
Proof.
  intros He. unfold era_after. rewrite next_era_value by done. f_equal.
  replace (e mod 255 + 1 - 1 + Z.of_nat k) with (e mod 255 + Z.of_nat k) by lia. rewrite Zplus_mod_idemp_l. f_equal. lia.
Qed.

Definition departure (o : table_op) : bool := match o with Unregister _ => true | _ => false end.

Lemma era_run ops : ∀ lk d i r, table_ok lk d → Z.of_nat (length (rows d)) ≤ max_index → rows d !! i = Some r →
  ∃ r' k, rows (table_run ops (lk, d)).2 !! i = Some r' ∧ (k ≤ length (filter (λ o, departure o = true) ops))%nat ∧ r_era r' = era_after k (r_era r).
Proof.
  induction ops as [|o ops IH]; intros lk d i r H Hmax Hr.
  { exists r, 0%nat. split_and!; [done|lia|]. pose proof (tk_era _ _ H i r Hr). unfold era_after. rewrite Z.mod_small by lia. lia. }
  unfold table_run. cbn [foldl]. pose proof (table_step_ok lk d o H Hmax) as (Hok & Hlen & Hera). destruct (table_step (lk, d) o) as [lk' d']. cbn in Hok, Hlen, Hera.
  destruct (Hera i r Hr) as (r1 & Hr1 & He). destruct (IH lk' d' i r1 Hok ltac:(lia) Hr1) as (r' & k & Hr' & Hk & Hek). unfold table_run in Hr'.
  destruct He as [He|[[p ->] He]]; rewrite He in Hek.
  - exists r', k. split_and!; [done| |done]. rewrite filter_cons. destruct (decide (departure o = true)); cbn; lia.
  - exists r', (S k). split_and!; [done| |]; [rewrite filter_cons_True by done; cbn; lia|]. rewrite Hek. apply era_after_next, (tk_era _ _ H i r Hr).
Qed.

(** C35: The task table of a deck is well formed under every sequence of operations: each
    live row has the id made of its place and era and belongs to the one promise that has
    this id, vacant rows are empty, eras stay in [1, 255]; so an id names a task exactly
    when that task has the id. *)
Theorem ids_name_tasks name capacity ops : Z.of_nat capacity ≤ max_index →
  let s := table_run ops (new_table name capacity) in
  table_ok s.1 s.2 ∧ ∀ p id, (∃ i r, resolve id s.2 = Some (i, r) ∧ r_promise r = Some p) ↔ (l_id (s.1 p) = id ∧ id ≠ 0).
Proof.
  intros Hmax s. destruct (table_run_ok ops _ _ (new_table_ok name capacity)) as [Hok _].
  { cbn. by rewrite length_replicate. }
  fold (new_table name capacity) in Hok. fold s in Hok. split; [done|]. intros p id. split.
  - intros (i & r & Hres & Hp). apply resolve_inv in Hres as (Hr & Hl & Hid & Hz). destruct (row_promise _ _ _ _ _ Hok Hr Hl Hp) as [_ ->]. done.
  - intros [Hid Hz]. destruct (linked_row _ _ p Hok) as (i & r & Hr & Hl & Hrow & _ & Hres & _); [intros E; rewrite E in Hid; cbn in Hid; congruence|].
    exists i, r. rewrite <- Hid. split; [done|]. by rewrite Hrow.
Qed.

Lemma ids_name_tasks_witness : let s := table_run [Enqueue 7; Enqueue 8; Unregister 7; Enqueue 9] (new_table 0 4) in
  l_id (s.1 9%nat) = make_id 1 2 ∧ ∃ i r, resolve (make_id 1 2) s.2 = Some (i, r) ∧ r_promise r = Some 9%nat.
Proof.
  cbv zeta. split; [vm_compute; reflexivity|]. apply (ids_name_tasks 0 4 [Enqueue 7; Enqueue 8; Unregister 7; Enqueue 9] ltac:(vm_compute; discriminate)).
  split; vm_compute; [reflexivity|discriminate].
Defined.

(** C36: A queued id whose task ended is dead: from the end of the task on, whatever is
    scheduled and ended since, the id names no task until 254 more tasks have ended, so
    the pump skips it and never resumes another task in its place. *)
Theorem stale_id_dead name capacity before after p : Z.of_nat capacity ≤ max_index →
  let s := table_run before (new_table name capacity) in
  s.1 p ≠ no_link → (length (filter (λ o, departure o = true) after) < 254)%nat →
  resolve (l_id (s.1 p)) (table_run (Unregister p :: after) s).2 = None.
Proof.
  intros Hmax s Hp Hfew. destruct (table_run_ok before _ _ (new_table_ok name capacity)) as [Hok Hlen]; [cbn; by rewrite length_replicate|].
  fold (new_table name capacity) in Hok, Hlen. fold s in Hok, Hlen. destruct s as [lk d]. cbn in Hok, Hlen, Hp |- *. rewrite length_replicate in Hlen.
  destruct (unregister_linked lk d p Hok Hp) as (i & r & Hr & Hl & Hrp & -> & Hok'). destruct (row_promise _ _ _ _ _ Hok Hr Hl Hrp) as [_ Hlk].
  set (d' := set_rows _ d) in *. apply lookup_lt_Some in Hr as Hlt. assert (length (rows d') = length (rows d)) as Hlen' by apply length_insert.
  fold (table_run after (<[p := no_link]> lk, d')). destruct (era_run after _ d' i (MkRow 0 None None false (next_era (r_era r))) Hok' ltac:(lia)) as (r' & k & Hr' & Hk & Hera).
  { by apply list_lookup_insert_eq. }
  destruct (table_run_ok after _ d' Hok' ltac:(lia)) as [Hok2 _]. destruct (table_run after (<[p := no_link]> lk, d')) as [lk2 d2]. cbn in Hr', Hok2 |- *.
  destruct (resolve _ d2) as [[j rj]|] eqn:Hres; [|done]. apply resolve_inv in Hres as (Hj & Hlj & Hid & _). rewrite Hlk in Hid. cbn in Hid.
  destruct (live_row lk d i r Hok Hr Hl) as (Ri & Re & Hidr & _). destruct (live_row lk2 d2 j rj Hok2 Hj Hlj) as (Rj & Rej & Hidj & _).
  rewrite Hid, Hidr in Hidj. apply make_id_inj in Hidj as [Eij Ee]; try done. assert (i = j) as <- by lia. assert (rj = r') as -> by congruence.
  pose proof (tk_era _ _ Hok i r Hr) as Her. cbn [r_era] in Hera. rewrite era_after_next in Hera by done. unfold era_after in Hera.
  exfalso. rewrite <- Ee in Hera. pose proof (Z.div_mod (r_era r - 1 + Z.of_nat (S k)) 255 ltac:(lia)).
  pose proof (Z.mod_pos_bound (r_era r - 1 + Z.of_nat (S k)) 255 ltac:(lia)). lia.
Qed.

Lemma stale_id_dead_witness : let s := table_run [Enqueue 7; Enqueue 8] (new_table 0 2) in
  resolve (l_id (s.1 7%nat)) (table_run (Unregister 7 :: [Enqueue 9]) s).2 = None.
Proof. apply (stale_id_dead 0 2 [Enqueue 7; Enqueue 8] [Enqueue 9] 7%nat); [vm_compute; discriminate|vm_compute; discriminate|vm_compute; lia]. Defined.

(** The bound is exact: after 254 more departures from the row the id is handed out again. *)
Example stale_id_returns : let s := table_run [Enqueue 0] (new_table 0 1) in
  let t := table_run (Unregister 0 :: concat (replicate 254 [Enqueue 1; Unregister 1]) ++ [Enqueue 2]) s in
  r_promise <$> (snd <$> resolve (l_id (s.1 0%nat)) t.2) = Some (Some 2%nat).
Proof. vm_compute. reflexivity. Qed.
