(* ===== verification/Tasks.v ===== *)
(** * Tasks, groups and the pump of a deck

    nxtrt/task/promise.hpp, task.hpp, runtime.hpp, concurrent.hpp, compose.hpp, context.hpp
    and root.hpp, and the pump of nxtrt/deck.hpp: awaiting a task, final suspension,
    completion links, stop requests, [settle] over [run_group], [sync_wait].

    The body of a coroutine is a [prog]: a tree of the points at which it meets the
    runtime, with the rest of the body as a function of what it gets there. A body thus
    ends after finitely many suspensions along every sequence of answers. A frame of the
    machine is a promise with its coroutine, stopped at one of those points or in one of
    the coroutines of the library ([settle] and [run_group], kept as frames of their own).

    The wand is known by its contract: it parks a task under a coin, and settles a parked
    coin at most once, when and how it likes. A cancellation settles a coin at once, inside
    the stop request, if the wand has submitted it, as [epoll_wand] does, and else is kept
    for later. That the host asks a task to stop or starts one, and that the wand submits or
    settles a coin between two rounds, are actions of the machine. *)
From stdpp Require Import functions.
From S2P Require Import Prelude Deck.

#[local] Set Warnings "-register-all".

(** ** Results *)

(** The exceptions of nxtrt/exceptions.hpp; [Failure] stands for any other. *)
Inductive exn :=
| Failure (n : Z)
| Cancelled
| TimedOut
| Runtime (what : string)
| Logic (what : string)
| Exceptions (summary : string) (members : list exn).

(** Values of tasks. [Outcomes] is what [settle] returns, with the job whose completion
    made the policy stop the group, which [record_first] stores for its caller. *)
Inductive value :=
| Unit
| Num (n : Z)
| Tuple (vs : list value)
| Recorded (first : option nat)
| Outcomes (os : list (value + exn)) (first : option nat).

Abbreviation outcome := (value + exn)%type.

Definition failed (o : outcome) : bool := match o with inl _ => false | inr _ => true end.

Definition is_operation_cancelled (e : exn) : bool := match e with Cancelled => true | _ => false end.

(** [throw_exceptions]: one exception as it is, several as a group. *)
Definition throw_exceptions (summary : string) (es : list exn) : exn :=
  match es with
  | [] => Logic "nxtrt throw_exceptions called without exceptions"
  | [e] => e
  | _ => Exceptions summary es
  end.

(** ** Bodies *)

(** A group policy: whether the completion of this job, failed or not, stops the others. *)
Definition policy := nat → bool → bool.

Definition environment := gmap nat Z.

Inductive prog :=
| Return (o : outcome)
| Yield (k : outcome → prog)
| Wish (w : Z) (k : outcome → prog)
| Stopping (k : bool → prog)
| Lookup (key : nat) (k : option Z → prog)
| Replace (key : nat) (v : Z) (k : prog)
| Await (child : prog) (follow kept : bool) (k : outcome → prog)
| Settle (jobs : list prog) (pol : policy) (k : outcome → prog).

(** The locals of [run_group]; [waiter] tells whether the frame waits in the countdown. *)
Record group := MkGroup {
  pending : nat;
  stopping : bool;
  parent_stopped : bool;
  setup_failure : option exn;
  first : option nat;
  waiter : bool;
}.

(** Where a coroutine is suspended, or its result. *)
Inductive code :=
| Body (p : prog)
| Awaiting (c : nat) (kept : bool) (k : outcome → prog)
| Wishing (coin : nat) (k : outcome → prog)
| SettleStart (jobs : list nat) (pol : policy)
| SettleWait (jobs : list nat) (g : nat)
| GroupStart (jobs : list nat) (pol : policy)
| GroupWait (jobs : list nat) (pol : policy) (gr : group)
| Done (o : outcome).

(** ** Promises *)

(** [p_follows] is the task whose stop token [parent_stop_callback] is registered with,
    [p_waits] the coin of [wait_stop_callback], [p_completion] the frame of [run_group] and
    the position of the link that observes the task. [p_owner] is the frame that holds the
    task object as a parameter, a local or a temporary, and destroys it. *)
Record promise := MkPromise {
  p_link : link;
  p_cont : option nat;
  p_follows : option nat;
  p_waits : option nat;
  p_completion : option (nat * nat);
  p_stop : bool;
  p_env : environment;
  p_owner : option nat;
  p_code : code;
}.

Definition set_link (l : link) (P : promise) := MkPromise l (p_cont P) (p_follows P) (p_waits P) (p_completion P) (p_stop P) (p_env P) (p_owner P) (p_code P).
Definition set_cont (c : option nat) (P : promise) := MkPromise (p_link P) c (p_follows P) (p_waits P) (p_completion P) (p_stop P) (p_env P) (p_owner P) (p_code P).
Definition set_follows (f : option nat) (P : promise) := MkPromise (p_link P) (p_cont P) f (p_waits P) (p_completion P) (p_stop P) (p_env P) (p_owner P) (p_code P).
Definition set_waits (w : option nat) (P : promise) := MkPromise (p_link P) (p_cont P) (p_follows P) w (p_completion P) (p_stop P) (p_env P) (p_owner P) (p_code P).
Definition set_completion (c : option (nat * nat)) (P : promise) := MkPromise (p_link P) (p_cont P) (p_follows P) (p_waits P) c (p_stop P) (p_env P) (p_owner P) (p_code P).
Definition set_stop (P : promise) := MkPromise (p_link P) (p_cont P) (p_follows P) (p_waits P) (p_completion P) true (p_env P) (p_owner P) (p_code P).
Definition set_env (e : environment) (P : promise) := MkPromise (p_link P) (p_cont P) (p_follows P) (p_waits P) (p_completion P) (p_stop P) e (p_owner P) (p_code P).
Definition set_owner (o : option nat) (P : promise) := MkPromise (p_link P) (p_cont P) (p_follows P) (p_waits P) (p_completion P) (p_stop P) (p_env P) o (p_code P).
Definition set_code (c : code) (P : promise) := MkPromise (p_link P) (p_cont P) (p_follows P) (p_waits P) (p_completion P) (p_stop P) (p_env P) (p_owner P) c.

(** The executions of a wand: who is parked under which coin, the results of the urges, the
    coins whose cancellation was requested, those that a cancellation settles at once. *)
Record wand := MkWand {
  parked : gmap nat nat;
  settled : gmap nat outcome;
  cancelled : list nat;
  submitted : list nat;
  coins : nat;
}.

Definition new_wand : wand := MkWand ∅ ∅ [] [] 0.

(** [m_crash] is set where an exception leaves a [noexcept] function or a dangling
    reference would be followed. *)
Record machine := MkMachine {
  m_deck : deck;
  m_promises : gmap nat promise;
  m_next : nat;
  m_wand : option wand;
  m_crash : bool;
}.

Definition set_deck (d : deck) (m : machine) := MkMachine d (m_promises m) (m_next m) (m_wand m) (m_crash m).
Definition set_promises (ps : gmap nat promise) (m : machine) := MkMachine (m_deck m) ps (m_next m) (m_wand m) (m_crash m).
Definition set_wand (w : option wand) (m : machine) := MkMachine (m_deck m) (m_promises m) (m_next m) w (m_crash m).
Definition crash (m : machine) := MkMachine (m_deck m) (m_promises m) (m_next m) (m_wand m) true.

Definition upd (p : nat) (f : promise → promise) (m : machine) : machine := set_promises (alter f p (m_promises m)) m.

Definition new_machine (capacity : nat) (w : option wand) : machine := MkMachine (new_deck 0 capacity) ∅ 0 w false.

(** The constructor of a promise: the frame inherits the environment of its creator and
    suspends before its body. *)
Definition new_task (c : code) (e : environment) (owner : option nat) (m : machine) : nat * machine :=
  (m_next m, MkMachine (m_deck m) (<[m_next m := MkPromise no_link None None None None false e owner c]> (m_promises m)) (S (m_next m)) (m_wand m) (m_crash m)).

Definition code_done (c : code) : bool := match c with Done _ => true | _ => false end.

Definition done (p : nat) (m : machine) : bool :=
  match m_promises m !! p with Some P => code_done (p_code P) | None => true end.

(** [promise::result]. *)
Definition task_result (p : nat) (m : machine) : outcome :=
  match p_code <$> m_promises m !! p with
  | Some (Done o) => o
  | _ => inr (Runtime "nxtrt task result was never set")
  end.

(** ** Scheduling *)

Definition enqueue_task (p : nat) (m : machine) : result exn unit * machine :=
  match m_promises m !! p with
  | None => (Throw (Runtime "dangling promise"), crash m)
  | Some P =>
      let '(r, l, d) := enqueue (Some p) (Some p) (p_link P) (m_deck m) in
      let m' := set_deck d (upd p (set_link l) m) in
      match r with
      | Ret _ => (Ret tt, m')
      | Throw e => (Throw (Runtime e), m')
      end
  end.

(** From a [noexcept] function. *)
Definition enqueue_noexcept (p : nat) (m : machine) : machine :=
  match enqueue_task p m with
  | (Ret _, m') => m'
  | (Throw _, m') => crash m'
  end.

(** [need::resume]. *)
Definition need_resume (p : nat) (m : machine) : machine := enqueue_noexcept p (upd p (set_waits None) m).

(** [deck::start]. *)
Definition start (p : nat) (m : machine) : result exn unit * machine :=
  if done p m then (Ret tt, m) else enqueue_task p m.

(** The wand settles a parked coin: the result is stored, then the task queued. *)
Definition settle_coin (coin : nat) (o : outcome) (m : machine) : machine :=
  match m_wand m with
  | None => m
  | Some w =>
      match parked w !! coin with
      | None => m
      | Some p => need_resume p (set_wand (Some (MkWand (delete coin (parked w)) (<[coin := o]> (settled w)) (cancelled w) (submitted w) (coins w))) m)
      end
  end.

(** [wand::cancel], which the stop callback of a parked task calls: nothing for a coin that is
    not parked or already being cancelled; a submitted one is settled and its task queued before
    the call returns. *)
Definition cancel (coin : nat) (m : machine) : machine :=
  match m_wand m with
  | None => m
  | Some w =>
      if bool_decide (parked w !! coin = None) || bool_decide (coin ∈ cancelled w) then m
      else if bool_decide (coin ∈ submitted w) then settle_coin coin (inr Cancelled) m
      else set_wand (Some (MkWand (parked w) (settled w) (cancelled w ++ [coin]) (submitted w) (coins w))) m
  end.

(** The wand submits a queued coin. *)
Definition submit (coin : nat) (m : machine) : machine :=
  match m_wand m with
  | None => m
  | Some w =>
      if bool_decide (parked w !! coin = None) || bool_decide (coin ∈ cancelled w) then m
      else set_wand (Some (MkWand (parked w) (settled w) (cancelled w) (submitted w ++ [coin]) (coins w))) m
  end.

Definition set_stopping (gr : group) := MkGroup (pending gr) true (parent_stopped gr) (setup_failure gr) (first gr) (waiter gr).
Definition set_parent_stopped (gr : group) := MkGroup (pending gr) (stopping gr) true (setup_failure gr) (first gr) (waiter gr).
Definition set_pending (n : nat) (gr : group) := MkGroup n (stopping gr) (parent_stopped gr) (setup_failure gr) (first gr) (waiter gr).
Definition set_failure (e : exn) (gr : group) := MkGroup (pending gr) (stopping gr) (parent_stopped gr) (Some e) (first gr) (waiter gr).
Definition set_first (i : nat) (gr : group) := MkGroup (pending gr) (stopping gr) (parent_stopped gr) (setup_failure gr) (Some i) (waiter gr).
Definition set_waiter (b : bool) (gr : group) := MkGroup (pending gr) (stopping gr) (parent_stopped gr) (setup_failure gr) (first gr) b.

(** A change of the locals of a group. *)
Definition on_group (f : group → group) (P : promise) : promise :=
  match p_code P with
  | GroupWait jobs pol gr => set_code (GroupWait jobs pol (f gr)) P
  | _ => P
  end.

(** [child.id() && !child.done()]. *)
Definition running (j : nat) (m : machine) : bool :=
  match m_promises m !! j with
  | Some J => negb (l_id (p_link J) =? 0)%Z && negb (code_done (p_code J))
  | None => false
  end.

(** The tasks whose [parent_stop_callback] is registered with the stop token of [p]. *)
Definition followers (p : nat) (m : machine) : list nat :=
  (filter (λ q, p_follows (q.2) = Some p) (map_to_list (m_promises m))).*1.

(** [request_stop] on a stop source: the first request sets the flag and runs the callbacks
    that are registered with its token: [parent_stop_callback_fn] of the tasks that follow,
    [wait_stop_callback_fn], and that of [run_group], which stops the jobs of the group. *)
Fixpoint request_stop (fuel : nat) (p : nat) (m : machine) : machine :=
  match fuel with
  | 0 => m
  | S fuel =>
      match m_promises m !! p with
      | None => m
      | Some P =>
          if p_stop P then m else
          let m := upd p set_stop m in
          let m := match p_waits P with Some coin => cancel coin m | None => m end in
          let m := match p_code P with
            | GroupWait jobs _ _ =>
                foldl (λ m j, if running j m then request_stop fuel j m else m)
                  (upd p (on_group (λ gr, set_stopping (set_parent_stopped gr))) m) jobs
            | _ => m
            end in
          foldl (λ m c, request_stop fuel c m) m (followers p m)
      end
  end.

(** Each request that goes on sets a flag. *)
Definition stop_fuel (m : machine) : nat := S (size (m_promises m)).

Definition stop_task (p : nat) (m : machine) : machine := request_stop (stop_fuel m) p m.

(** The function [stop] of [run_group]. *)
Definition group_stop (g : nat) (jobs : list nat) (m : machine) : machine :=
  foldl (λ m j, if running j m then stop_task j m else m) (upd g (on_group set_stopping) m) jobs.

(** The tasks whose objects are in the frame of [p]. *)
Definition held_by (p : nat) (m : machine) : list nat :=
  (filter (λ q, p_owner (q.2) = Some p) (map_to_list (m_promises m))).*1.

(** [task::destroy]: the row is given up, the frame goes with the tasks in it. *)
Fixpoint destroy (fuel : nat) (p : nat) (m : machine) : machine :=
  match fuel with
  | 0 => m
  | S fuel =>
      match m_promises m !! p with
      | None => m
      | Some P =>
          let '(_, d) := unregister_from_deck p (p_link P) (m_deck m) in
          foldl (λ m c, destroy fuel c m) (set_deck d (set_promises (delete p (m_promises m)) m)) (held_by p m)
      end
  end.

Definition destroy_task (p : nat) (m : machine) : machine := destroy (S (size (m_promises m))) p m.

(** ** Completion *)

(** [countdown::arrive]. *)
Definition arrive (g : nat) (m : machine) : machine :=
  match p_code <$> m_promises m !! g with
  | Some (GroupWait _ _ gr) =>
      let n := size_sub (pending gr) 1 in
      if (n =? 0)%nat && waiter gr then need_resume g (upd g (on_group (λ gr, set_waiter false (set_pending n gr))) m)
      else upd g (on_group (set_pending n)) m
  | _ => crash m
  end.

(** The function of a completion link of [run_group]: job [i] of group [g] is done. *)
Definition job_done (g i : nat) (fail : bool) (m : machine) : machine :=
  match p_code <$> m_promises m !! g with
  | Some (GroupWait jobs pol gr) =>
      let m := if negb (stopping gr) && pol i fail then group_stop g jobs (upd g (on_group (set_first i)) m) else m in
      arrive g m
  | _ => crash m
  end.

(** [final_awaitable::await_suspend]: the observer is told, then the continuation queued. *)
Definition finish (p : nat) (o : outcome) (m : machine) : machine :=
  match m_promises m !! p with
  | None => crash m
  | Some P =>
      let m := upd p (λ P, set_completion None (set_code (Done o) P)) m in
      let m := match p_completion P with Some (g, i) => job_done g i (failed o) m | None => m end in
      match p_cont P with Some c => enqueue_noexcept c m | None => m end
  end.

(** ** Awaiting a task *)

(** [task::splice_handle], called while [p] runs. *)
Definition splice_handle (c p : nat) (follow : bool) (m : machine) : result exn unit * machine :=
  match m_promises m !! p with
  | None => (Throw (Runtime "nxtrt task spliced without a running deck"), crash m)
  | Some P =>
      let m := upd c (λ C, set_cont (Some p) (set_env (p_env P) C)) m in
      let m := if follow then let m := upd c (set_follows (Some p)) m in if p_stop P then stop_task c m else m else m in
      enqueue_task c m
  end.

(** The frames of the jobs, created in order and moved into the frame [s]. *)
Fixpoint new_tasks (ps : list prog) (e : environment) (s : nat) (m : machine) : list nat * machine :=
  match ps with
  | [] => ([], m)
  | q :: ps =>
      let '(j, m) := new_task (Body q) e (Some s) m in
      let '(js, m) := new_tasks ps e s m in (j :: js, m)
  end.

Definition env_of (p : nat) (m : machine) : environment :=
  match m_promises m !! p with Some P => p_env P | None => ∅ end.

Definition stop_of (p : nat) (m : machine) : bool :=
  match m_promises m !! p with Some P => p_stop P | None => false end.

Definition no_wand : exn := Runtime "wish awaited without a running wand".

(** Runs the coroutine of [p] up to its next suspension. *)
Fixpoint exec (p : nat) (q : prog) (m : machine) : machine :=
  match q with
  | Return o => finish p o m
  | Yield k =>
      match enqueue_task p (upd p (set_code (Body (k (inl Unit)))) m) with
      | (Ret _, m) => m
      | (Throw e, m) => exec p (k (inr e)) m
      end
  | Wish w k =>
      match m_wand m with
      | None => exec p (k (inr no_wand)) m
      | Some w =>
          let coin := coins w in
          let m := set_wand (Some (MkWand (<[coin := p]> (parked w)) (settled w) (cancelled w) (submitted w) (S coin))) m in
          let m := upd p (λ P, set_waits (Some coin) (set_code (Wishing coin k) P)) m in
          if stop_of p m then cancel coin m else m
      end
  | Stopping k => exec p (k (stop_of p m)) m
  | Lookup key k => exec p (k (env_of p m !! key)) m
  | Replace key v k => exec p k (upd p (λ P, set_env (<[key := v]> (p_env P)) P) m)
  | Await child follow kept k =>
      let '(c, m) := new_task (Body child) (env_of p m) (Some p) m in
      match splice_handle c p follow (upd p (set_code (Awaiting c kept k)) m) with
      | (Ret _, m) => m
      | (Throw e, m) => exec p (k (inr e)) (if kept then m else destroy_task c m)
      end
  | Settle jobs pol k =>
      let '(js, m) := new_tasks jobs (env_of p m) (m_next m + length jobs) m in
      let '(s, m) := new_task (SettleStart js pol) (env_of p m) (Some p) m in
      match splice_handle s p true (upd p (set_code (Awaiting s false k)) m) with
      | (Ret _, m) => m
      | (Throw e, m) => exec p (k (inr e)) (destroy_task s m)
      end
  end.

(** ** [run_group] *)

Definition unlink (g : nat) (j : nat) (m : machine) : machine :=
  upd j (λ J, if bool_decide (fst <$> p_completion J = Some g) then set_completion None J else J) m.

(** The end of the coroutine: the links are destroyed, then the outcome decided. *)
Definition group_finish (g : nat) (m : machine) : machine :=
  match p_code <$> m_promises m !! g with
  | Some (GroupWait jobs _ gr) =>
      finish g (match setup_failure gr with
        | Some e => inr e
        | None => if parent_stopped gr then inr Cancelled else inl (Recorded (first gr))
        end) (foldr (unlink g) m jobs)
  | _ => crash m
  end.

Definition group_fail (g : nat) (jobs : list nat) (e : exn) (m : machine) : machine :=
  group_stop g jobs (upd g (on_group (set_failure e)) m).

Definition group_stopping (g : nat) (m : machine) : bool :=
  match p_code <$> m_promises m !! g with Some (GroupWait _ _ gr) => stopping gr | _ => false end.

Definition more_pending (gr : group) : group := set_pending (S (pending gr)) gr.

(** The visit that connects and starts the jobs from position [i] on; [all] are all jobs. *)
Fixpoint group_visit (g i : nat) (all jobs : list nat) (m : machine) : machine :=
  match jobs with
  | [] => m
  | j :: jobs =>
      match m_promises m !! j with
      | None => crash m
      | Some J =>
          match p_code J with
          | Done o => group_visit g (S i) all jobs (job_done g i (failed o) (upd g (on_group more_pending) m))
          | _ =>
              if group_stopping g m then group_visit g (S i) all jobs m else
              let m := upd j (set_env (env_of g m)) m in
              if bool_decide (p_completion J ≠ None) then group_fail g all (Runtime "nxtrt task already has a completion observer") m else
              match start j (upd j (set_completion (Some (g, i))) m) with
              | (Ret _, m) => group_visit g (S i) all jobs (upd g (on_group more_pending) m)
              | (Throw e, m) => group_fail g all e m
              end
          end
      end
  end.

Definition group_start (g : nat) (jobs : list nat) (pol : policy) (m : machine) : machine :=
  let m := upd g (set_code (GroupWait jobs pol (MkGroup 0 false false None None false))) m in
  let m := if stop_of g m then group_stop g jobs (upd g (on_group set_parent_stopped) m) else m in
  let m := group_visit g 0 jobs jobs m in
  match p_code <$> m_promises m !! g with
  | Some (GroupWait _ _ gr) => if (pending gr =? 0)%nat then group_finish g m else upd g (on_group (set_waiter true)) m
  | _ => crash m
  end.

(** ** [settle] *)

(** [extract_outcome]. *)
Definition extract_outcome (m : machine) (j : nat) : outcome :=
  if done j m then task_result j m else inr Cancelled.

Definition settle_start (s : nat) (jobs : list nat) (pol : policy) (m : machine) : machine :=
  let '(g, m) := new_task (GroupStart jobs pol) (env_of s m) (Some s) m in
  match splice_handle g s true (upd s (set_code (SettleWait jobs g)) m) with
  | (Ret _, m) => m
  | (Throw e, m) => finish s (inr e) (destroy_task g m)
  end.

Definition settle_finish (s : nat) (jobs : list nat) (g : nat) (m : machine) : machine :=
  let r := task_result g m in
  let m := destroy_task g m in
  finish s (match r with
    | inl (Recorded f) => inl (Outcomes (extract_outcome m <$> jobs) f)
    | inl v => inl v
    | inr e => inr e
    end) m.

(** ** The pump *)

(** [handle.resume()]. *)
Definition resume (p : nat) (m : machine) : machine :=
  match p_code <$> m_promises m !! p with
  | Some (Body q) => exec p q m
  | Some (Awaiting c kept k) =>
      let r := task_result c m in
      exec p (k r) (if kept then m else destroy_task c m)
  | Some (Wishing coin k) =>
      exec p (k (match m_wand m with Some w => default (inr (Runtime "nxtrt urge result was never set")) (settled w !! coin) | None => inr no_wand end)) m
  | Some (SettleStart jobs pol) => settle_start p jobs pol m
  | Some (SettleWait jobs g) => settle_finish p jobs g m
  | Some (GroupStart jobs pol) => group_start p jobs pol m
  | Some (GroupWait _ _ _) => group_finish p m
  | _ => crash m
  end.

Definition resume_if_ready (m : machine) (id : Z) : machine :=
  match resolve id (m_deck m) with
  | None => m
  | Some (_, r) =>
      match r_handle r with
      | None => m
      | Some p => if done p m then m else resume p m
      end
  end.

(** [deck::run_ready]: one round. The wand settles coins by an action of its own. *)
Definition run_ready (m : machine) : machine :=
  foldl resume_if_ready (set_deck (set_ready [] (m_deck m)) m) (ready (m_deck m)).

(** ** Actions of the host *)

Inductive action :=
| Launch (q : prog)
| Pump
| Submit (coin : nat)
| Complete (coin : nat) (o : outcome)
| Stop (p : nat).

Definition act (m : machine) (a : action) : machine :=
  match a with
  | Launch q => let '(p, m) := new_task (Body q) ∅ None m in (start p m).2
  | Pump => run_ready m
  | Submit coin => submit coin m
  | Complete coin o => settle_coin coin o m
  | Stop p => if running p m then stop_task p m else m
  end.

Definition acts (l : list action) (m : machine) : machine := foldl act m l.

(** [deck::drive]: rounds until the root is done; an idle deck with an unfinished root is a
    deadlock. *)
Fixpoint drive (fuel : nat) (p : nat) (m : machine) : option (outcome * machine) :=
  match fuel with
  | 0 => None
  | S fuel =>
      if done p m then Some (task_result p m, m) else
      if bool_decide (ready (m_deck m) = []) then Some (inr (Runtime "nxtrt deck deadlock"), m) else
      drive fuel p (run_ready m)
  end.

(** [deck::sync_wait]: the root task is started, driven and destroyed. *)
Definition sync_wait (fuel : nat) (q : prog) (m : machine) : option (outcome * machine) :=
  let '(p, m) := new_task (Body q) ∅ None m in
  match start p m with
  | (Throw e, m) => Some (inr e, destroy_task p m)
  | (Ret _, m) =>
      match drive fuel p m with
      | Some (o, m) => Some (o, destroy_task p m)
      | None => None
      end
  end.

(** [deck::run_until_idle]. *)
Fixpoint run_until_idle (fuel : nat) (m : machine) : option machine :=
  match fuel with
  | 0 => None
  | S fuel => if bool_decide (ready (m_deck m) = []) then Some m else run_until_idle fuel (run_ready m)
  end.

(** ** Policies *)

Definition all_group : policy := λ _ _, false.
Definition fail_fast_group : policy := λ _ failed, failed.
Definition first_success_group : policy := λ _ failed, negb failed.
Definition first_completion_group : policy := λ _ _, true.
Definition primary_group : policy := λ index _, (index =? 0)%nat.

(** ** Composition *)

(** A parameter of a coroutine lives until the frame is destroyed; a temporary or a local
    of the last block goes before the coroutine ends. *)
Definition shield (child : prog) : prog := Await child false true Return.

Definition then_ (child : prog) (fn : value → outcome) : prog :=
  Await child true true (λ o, match o with inl v => Return (fn v) | inr e => Return (inr e) end).

Definition let_value (child : prog) (fn : value → prog) : prog :=
  Await child true true (λ o, match o with inl v => Await (fn v) true false Return | inr e => Return (inr e) end).

(** How the results of body and cleanup are combined. *)
Definition finally_result (body cleanup : outcome) : outcome :=
  match body, cleanup with
  | inr b, inr c => inr (throw_exceptions "task body and cleanup failed" [b; c])
  | _, inr c => inr c
  | r, inl _ => r
  end.

Definition finally (child cleanup : prog) : prog :=
  Await child true true (λ body, Await (shield cleanup) true false (λ c, Return (finally_result body c))).

Definition with_env (key : nat) (v : Z) (child : prog) : prog := Replace key v (Await child true false Return).

(** [for_each_task]: one after the other, values discarded. *)
Fixpoint for_each_task (tasks : list prog) : prog :=
  match tasks with
  | [] => Return (inl Unit)
  | t :: tasks => Await t true false (λ o, match o with inl _ => for_each_task tasks | inr e => Return (inr e) end)
  end.

(** [take_all_or_throw]: the values in order, or the first error. *)
Fixpoint take_all (os : list outcome) : list value + exn :=
  match os with
  | [] => inl []
  | inr e :: _ => inr e
  | inl v :: os => match take_all os with inl vs => inl (v :: vs) | inr e => inr e end
  end.

Definition bad_result : exn := Logic "outcome without an error".

(** The error of an outcome; [std::expected::error] of a value is undefined. *)
Definition error_at (os : list outcome) (i : nat) : exn :=
  match os !! i with Some (inr e) => e | _ => bad_result end.

Definition when_all_result (os : list outcome) (first : option nat) : outcome :=
  match first with
  | Some f => inr (error_at os f)
  | None => match take_all os with inl vs => inl (Tuple vs) | inr e => inr e end
  end.

Definition when_all (tasks : list prog) : prog :=
  Settle tasks fail_fast_group (λ r,
    match r with
    | inl (Outcomes os first) => Return (when_all_result os first)
    | inl _ => Return (inr bad_result)
    | inr e => Return (inr e)
    end).

Definition errors (os : list outcome) : list exn := omap (λ o, match o with inr e => Some e | inl _ => None end) os.

Definition wait_any_result (os : list outcome) (first : option nat) : outcome :=
  match first with
  | Some f => default (inr bad_result) (os !! f)
  | None => inr (throw_exceptions "wait_any tasks failed" (errors os))
  end.

Definition wait_any (tasks : list prog) : prog :=
  Settle tasks first_success_group (λ r,
    match r with
    | inl (Outcomes os first) => Return (wait_any_result os first)
    | inl _ => Return (inr bad_result)
    | inr e => Return (inr e)
    end).

(** The range form refuses an empty range, after its group ended. *)
Definition wait_any_range_result (os : list outcome) (first : option nat) : outcome :=
  if bool_decide (os = []) then inr (Runtime "wait_any_range used with no tasks") else wait_any_result os first.

Definition wait_any_range (tasks : list prog) : prog :=
  Settle tasks first_success_group (λ r,
    match r with
    | inl (Outcomes os first) => Return (wait_any_range_result os first)
    | inl _ => Return (inr bad_result)
    | inr e => Return (inr e)
    end).

(** [throw_if_stop_requested]. *)
Definition throw_if_stop_requested (k : outcome → prog) : prog := Stopping (λ stop, k (if stop then inr Cancelled else inl Unit)).

(** [timeout_after]; the wish is an [op::timeout]. *)
Definition timeout_after (duration : Z) : prog :=
  Wish duration (λ o, match o with inl _ => Return (inr TimedOut) | inr e => Return (inr e) end).

Definition with_timeout_result (body timeout : outcome) : outcome :=
  match body with
  | inl v => inl v
  | inr e => if negb (is_operation_cancelled e) then inr e else match timeout with inr t => inr t | inl _ => inr e end
  end.

Definition with_timeout (duration : Z) (body : prog) : prog :=
  Settle [body; timeout_after duration] first_completion_group (λ r,
    match r with
    | inl (Outcomes [b; t] _) => Return (with_timeout_result b t)
    | inl _ => Return (inr bad_result)
    | inr e => Return (inr e)
    end).

(** [poll_until_after]: readiness against a deadline; both wishes are tasks of a group. *)
Definition poll_until_result (ready deadline : outcome) : outcome :=
  match ready, deadline with
  | inl v, _ => inl v
  | inr _, inl v => inl v
  | inr r, inr d =>
      if negb (is_operation_cancelled r) then inr r else if negb (is_operation_cancelled d) then inr d else inr r
  end.

Definition poll_until_after (poll timeout : Z) : prog :=
  Settle [Wish poll Return; Wish timeout (λ o, match o with inl _ => Return (inl Unit) | inr e => Return (inr e) end)] first_completion_group (λ r,
    match r with
    | inl (Outcomes [b; t] _) => Return (poll_until_result b t)
    | inl _ => Return (inr bad_result)
    | inr e => Return (inr e)
    end).
