(* ===== verification/Pump.v ===== *)
(** * No wake-up is lost

    The invariant of the machine of [Tasks] between and inside rounds: every task that was
    started and is not done is queued exactly once, or parked under a coin of the wand, or
    waits for a task or a group of tasks that are not done. It holds after every sequence
    of actions, whatever the policies, stop requests, cancellations, failures to register and
    results of wishes. *)
From stdpp Require Import functions.
From S2P Require Import Prelude Deck Tasks.

(** ** What the invariant does not see *)

(** Stop flags, environments, the flags of a group: the shape of the waiting tasks does not
    depend on them. *)
Definition mask_code (c : code) : code :=
  match c with
  | GroupWait jobs pol gr => GroupWait jobs pol (MkGroup (pending gr) false false None None (waiter gr))
  | c => c
  end.

Definition mask (P : promise) : promise :=
  MkPromise (p_link P) (p_cont P) None None (p_completion P) false ∅ (p_owner P) (mask_code (p_code P)).

(** The frames of two machines differ only in what is masked. *)
Definition same_frames (m m' : machine) : Prop := mask <$> m_promises m' = mask <$> m_promises m.

#[export] Instance same_frames_equivalence : Equivalence same_frames.
Proof. unfold same_frames. split; [done|by intros m m'|]. intros m1 m2 m3 H1 H2. congruence. Qed.

Definition lk (m : machine) (p : nat) : link := match m_promises m !! p with Some P => p_link P | None => no_link end.

Definition linked (P : promise) : Prop := l_id (p_link P) ≠ 0%Z.

Lemma mask_fields P P' : mask P' = mask P → p_link P' = p_link P ∧ p_cont P' = p_cont P ∧
  p_completion P' = p_completion P ∧ p_owner P' = p_owner P ∧ mask_code (p_code P') = mask_code (p_code P).
Proof.
  intros H. exact (conj (f_equal p_link H) (conj (f_equal p_cont H) (conj (f_equal p_completion H) (conj (f_equal p_owner H) (f_equal p_code H))))).
Qed.

Lemma mask_wishing c c' coin k : mask_code c' = mask_code c → c = Wishing coin k → c' = Wishing coin k.
Proof. intros E ->. by destruct c'. Qed.

Lemma same_lookup m m' p P : same_frames m m' → m_promises m !! p = Some P → ∃ P', m_promises m' !! p = Some P' ∧ mask P' = mask P.
Proof.
  intros E HP. apply (f_equal (.!! p)) in E. rewrite !lookup_fmap, HP in E.
  destruct (m_promises m' !! p) as [P'|]; [|done]. exists P'. split; [done|]. by apply (inj Some) in E.
Qed.

Lemma lk_similar m m' p : same_frames m m' → lk m' p = lk m p.
Proof.
  intros H. unfold lk. destruct (m_promises m !! p) as [P|] eqn:HP.
  - destruct (same_lookup m m' p P H HP) as (P' & -> & (-> & _)%mask_fields). done.
  - destruct (m_promises m' !! p) as [P'|] eqn:HP'; [|done]. symmetry in H. destruct (same_lookup m' m p P' H HP') as (P & ? & _). congruence.
Qed.

(** The task [p] is parked under a coin. *)
Definition parks (m : machine) (p coin : nat) : Prop := ∃ w P k, m_wand m = Some w ∧ parked w !! coin = Some p ∧ m_promises m !! p = Some P ∧ p_code P = Wishing coin k ∧ linked P.

(** What a coin is after the wand settled the coins of the tasks [new]. *)
Definition coin_after (new : list nat) (w w' : wand) (coin : nat) : Prop :=
  parked w' !! coin = parked w !! coin ∧ settled w' !! coin = settled w !! coin ∧ (∀ p, parked w !! coin = Some p → p ∉ new) ∨
  ∃ p, p ∈ new ∧ parked w !! coin = Some p ∧ parked w' !! coin = None ∧ is_Some (settled w' !! coin).

(** The machines differ in what is masked, and in that the wand settled the coins of the parked
    tasks [new] and queued them: what a stop request can do. *)
Record woken (new : list nat) (m m' : machine) : Prop := {
  wo_frames : same_frames m m';
  wo_rows : rows (m_deck m') = rows (m_deck m) ∧ name (m_deck m') = name (m_deck m);
  wo_ready : ready (m_deck m') ≡ₚ ready (m_deck m) ++ ((λ p, l_id (lk m p)) <$> new);
  wo_next : m_next m' = m_next m;
  wo_crash : m_crash m' = m_crash m;
  wo_new : NoDup new ∧ ∀ p, p ∈ new → ∃ coin, parks m p coin;
  wo_wand : match m_wand m, m_wand m' with
    | None, None => True
    | Some w, Some w' => coins w' = coins w ∧ ∀ coin, coin_after new w w' coin
    | _, _ => False
    end;
}.

Definition similar (m m' : machine) : Prop := ∃ new, woken new m m'.

Lemma similar_frames m m' : similar m m' → same_frames m m'.
Proof. intros [new H]. apply H. Qed.

Lemma similar_lookup m m' p P : similar m m' → m_promises m !! p = Some P → ∃ P', m_promises m' !! p = Some P' ∧ mask P' = mask P.
Proof. intros H. apply same_lookup. by apply similar_frames. Qed.

Lemma parks_back m m' new p coin : woken new m m' → parks m' p coin → parks m p coin ∧ p ∉ new.
Proof.
  intros H (w' & P' & k & Hw' & Hp & HP' & Hc & Hl). assert (same_frames m' m) as Hs by (symmetry; apply H). destruct (same_lookup m' m p P' Hs HP') as (P & HP & (El & _ & _ & _ & Ec)%mask_fields).
  pose proof (wo_wand _ _ _ H) as Hw. rewrite Hw' in Hw. destruct (m_wand m) as [w|] eqn:Hmw; [|done]. destruct Hw as [_ Hw]. destruct (Hw coin) as [(E1 & _ & Hn)|(q & _ & _ & E & _)]; [|congruence].
  rewrite E1 in Hp. split; [|by apply Hn]. exists w, P, k. split_and!; try done; [by apply (mask_wishing _ _ _ _ Ec)|unfold linked in *; by rewrite El].
Qed.

#[export] Instance similar_preorder : PreOrder similar.
Proof.
  split.
  - intros m. exists []. split; try done; [by rewrite app_nil_r|split; [constructor|by intros p ?%not_elem_of_nil]|]. destruct (m_wand m) as [w|]; [|done]. split; [done|]. intros coin. left. split_and!; try done. intros p _. apply not_elem_of_nil.
  - intros m1 m2 m3 [n1 H1] [n2 H2]. exists (n1 ++ n2). pose proof (wo_new _ _ _ H1) as [Hn1 Hp1]. pose proof (wo_new _ _ _ H2) as [Hn2 Hp2]. split.
    + etrans; [apply H1|apply H2].
    + destruct (wo_rows _ _ _ H1), (wo_rows _ _ _ H2). split; congruence.
    + rewrite (wo_ready _ _ _ H2), (wo_ready _ _ _ H1), fmap_app, app_assoc. apply Permutation_app_head, Permutation_refl'. apply list_fmap_ext. intros _ p _. by rewrite (lk_similar m1 m2) by apply H1.
    + rewrite (wo_next _ _ _ H2). apply H1.
    + rewrite (wo_crash _ _ _ H2). apply H1.
    + split.
      * apply NoDup_app. split_and!; try done. intros p Hp Hq. destruct (Hp2 p Hq) as [coin Hc]. by destruct (parks_back _ _ _ _ _ H1 Hc).
      * intros p [Hp|Hp]%elem_of_app; [by apply Hp1|]. destruct (Hp2 p Hp) as [coin Hc]. exists coin. by apply (parks_back _ _ _ _ _ H1 Hc).
    + pose proof (wo_wand _ _ _ H1) as W1. pose proof (wo_wand _ _ _ H2) as W2. destruct (m_wand m1) as [w1|], (m_wand m2) as [w2|] eqn:Hw2, (m_wand m3) as [w3|]; try done.
      destruct W1 as [C1 W1], W2 as [C2 W2]. split; [congruence|]. intros coin. destruct (W1 coin) as [(E1 & F1 & N1)|(p & Hp & E1 & F1 & S1)], (W2 coin) as [(E2 & F2 & N2)|(q & Hq & E2 & F2 & S2)].
      * left. split_and!; [congruence..|]. intros p Hp [Hin|Hin]%elem_of_app; [by apply (N1 p)|]. apply (N2 p); [congruence|done].
      * right. exists q. split_and!; try done; [apply elem_of_app; by right|congruence].
      * right. exists p. split_and!; try done; [apply elem_of_app; by left|congruence|by rewrite F2].
      * congruence.
Qed.

Lemma quiet_woken m m' : same_frames m m' → m_deck m' = m_deck m → m_next m' = m_next m → m_crash m' = m_crash m →
  (λ w, (parked w, settled w, coins w)) <$> m_wand m' = (λ w, (parked w, settled w, coins w)) <$> m_wand m → woken [] m m'.
Proof.
  intros Hf Hd Hn Hc Hw. split; try done.
  - by rewrite Hd.
  - by rewrite Hd, app_nil_r.
  - split; [constructor|by intros p ?%not_elem_of_nil].
  - destruct (m_wand m) as [w|], (m_wand m') as [w'|]; try done. cbn in Hw. simplify_eq. split; [done|]. intros coin. left. split_and!; [congruence..|]. intros p _. apply not_elem_of_nil.
Qed.

Lemma woken_upd m p f : (∀ P, m_promises m !! p = Some P → mask (f P) = mask P) → woken [] m (upd p f m).
Proof.
  intros Hf. apply quiet_woken; try done. apply map_eq. intros q. unfold upd. cbn [m_promises set_promises]. rewrite !lookup_fmap.
  destruct (decide (p = q)) as [->|Hne]; [|by rewrite lookup_alter_ne]. rewrite lookup_alter_eq. destruct (m_promises m !! q) as [P|] eqn:HP; [|done].
  cbn. by rewrite (Hf P eq_refl).
Qed.

Lemma similar_upd m p f : (∀ P, m_promises m !! p = Some P → mask (f P) = mask P) → similar m (upd p f m).
Proof. intros Hf. exists []. by apply woken_upd. Qed.

Lemma similar_group m p f : (∀ gr, pending (f gr) = pending gr ∧ waiter (f gr) = waiter gr) → similar m (upd p (on_group f) m).
Proof.
  intros Hf. apply similar_upd. intros P _. unfold on_group. destruct (p_code P) as [| | | | | |jobs pol gr|] eqn:Hc; try done.
  destruct (Hf gr) as [E1 E2]. unfold mask. cbn. by rewrite Hc, E1, E2.
Qed.

(** *** Stop requests *)

(** The wand parks only tasks that wait for it and have a row: settling their coins queues them. *)
Record parked_ok (m : machine) : Prop := {
  po_table : table_ok (lk m) (m_deck m);
  po_parked : ∀ w coin p, m_wand m = Some w → parked w !! coin = Some p → parks m p coin;
}.

Lemma parked_similar m m' : similar m m' → parked_ok m → parked_ok m'.
Proof.
  intros [new H] [Ht Hp]. split.
  - apply (table_ok_ext (lk m) _ (m_deck m)); try done; [|apply H..]. intros p. apply lk_similar, H.
  - intros w' coin p Hw' Hc. pose proof (wo_wand _ _ _ H) as Hw. rewrite Hw' in Hw. destruct (m_wand m) as [w|] eqn:Hmw; [|done]. destruct Hw as [_ Hw].
    destruct (Hw coin) as [(E & _)|(q & _ & _ & E & _)]; [|congruence]. rewrite E in Hc. destruct (Hp w coin p eq_refl Hc) as (w1 & P & k & _ & _ & HP & HcP & Hl).
    destruct (same_lookup m m' p P (wo_frames _ _ _ H) HP) as (P' & HP' & (El & _ & _ & _ & Ec)%mask_fields). exists w', P', k.
    split_and!; try done; [congruence|by apply (mask_wishing _ _ _ _ Ec)|unfold linked in *; by rewrite El].
Qed.

Lemma parked_upd x f m X : parked_ok m → (∀ w coin, m_wand m = Some w → parked w !! coin ≠ Some x) → m_promises m !! x = Some X → p_link (f X) = p_link X → parked_ok (upd x f m).
Proof.
  intros [Ht Hp] Hx HX E. split.
  - apply (table_ok_ext (lk m) _ (m_deck m)); try done. intros p. unfold lk, upd. cbn. destruct (decide (x = p)) as [<-|Hne]; [by rewrite lookup_alter_eq, HX|by rewrite lookup_alter_ne].
  - intros w coin p Hw Hc. destruct (Hp w coin p Hw Hc) as (w1 & P & k & Hw1 & Hc1 & HP & Hrest). exists w1, P, k. split; [done|]. split; [done|]. split; [|done].
    unfold upd. cbn. rewrite lookup_alter_ne; [done|]. intros <-. by apply (Hx w coin).
Qed.

Lemma parks_fun m p coin coin' : parks m p coin → parks m p coin' → coin' = coin.
Proof. intros (w & P & k & _ & _ & HP & Hc & _) (w' & P' & k' & _ & _ & HP' & Hc' & _). congruence. Qed.

(** ** The invariant *)

(** What a suspended coroutine waits for. *)
Definition waits_for (c : code) : option nat :=
  match c with
  | Awaiting c _ _ => Some c
  | SettleWait _ g => Some g
  | _ => None
  end.

(** The jobs of a group that was not finished. *)
Definition kind (c : code) : option (list nat) :=
  match c with
  | GroupStart jobs _ | GroupWait jobs _ _ => Some jobs
  | _ => None
  end.

(** A job that was not started yet. *)
Definition unstarted (m : machine) (j : nat) : Prop :=
  ∃ J, m_promises m !! j = Some J ∧ p_link J = no_link ∧ p_completion J = None ∧ p_cont J = None ∧ code_done (p_code J) = false ∧ kind (p_code J) = None.

Definition jobs_of (m : machine) (s : nat) (jobs : list nat) : Prop :=
  NoDup jobs ∧ ∀ j, j ∈ jobs → ∃ J, m_promises m !! j = Some J ∧ p_owner J = Some s.

Definition active (m : machine) (jobs : list nat) : nat := length (filter (λ j, running j m = true) jobs).

(** The task [p] waits for [c]: they know each other, and [p] is queued once [c] is done. *)
Definition child_ok (m : machine) (qs : list nat) (p c : nat) (P C : promise) : Prop :=
  m_promises m !! c = Some C ∧ p_cont C = Some p ∧ p_owner C = Some p ∧ linked C ∧ linked P ∧ (code_done (p_code C) = true ↔ p ∈ qs).

(** The group [g] runs the jobs of the [settle] that waits for it. *)
Definition group_of (m : machine) (g : nat) (G : promise) (jobs : list nat) : Prop :=
  (g ∉ jobs) ∧ ∃ s S, p_owner G = Some s ∧ m_promises m !! s = Some S ∧ p_code S = SettleWait jobs g ∧ jobs_of m s jobs.

(** A suspended task has what will wake it up. *)
Definition frame_ok (m : machine) (qs : list nat) (p : nat) (P : promise) : Prop :=
  match p_code P with
  | Body _ => linked P → p ∈ qs
  | Awaiting c _ _ => ∃ C, child_ok m qs p c P C ∧ match p_code C with GroupStart _ _ | GroupWait _ _ _ => False | _ => True end
  | Wishing coin _ => linked P ∧ ∃ w, m_wand m = Some w ∧
      ((parked w !! coin = Some p ∧ p ∉ qs) ∨ (parked w !! coin = None ∧ is_Some (settled w !! coin) ∧ p ∈ qs))
  | SettleStart jobs _ => (linked P → p ∈ qs) ∧ jobs_of m p jobs ∧ Forall (unstarted m) jobs
  | SettleWait jobs g => jobs_of m p jobs ∧ ∃ G, child_ok m qs p g P G ∧
      match p_code G with
      | GroupStart jobs' _ => jobs' = jobs ∧ Forall (unstarted m) jobs
      | GroupWait jobs' _ _ => jobs' = jobs
      | Done _ => Forall (λ j, running j m = false) jobs
      | _ => False
      end
  | GroupStart jobs _ => linked P → p ∈ qs ∧ group_of m p P jobs
  | GroupWait jobs _ gr => linked P ∧ group_of m p P jobs ∧ pending gr = active m jobs ∧
      ((waiter gr = true ∧ (p ∉ qs) ∧ pending gr ≠ 0) ∨ (p ∈ qs ∧ pending gr = 0))
  | Done _ => True
  end.

(** Who will be told when the running task [c] ends: nobody, for a root; the task that waits
    for it; or the group it is a job of. *)
Definition role (m : machine) (c : nat) (C : promise) : Prop :=
  (p_owner C = None ∧ p_cont C = None ∧ p_completion C = None) ∨
  (∃ p P, p_owner C = Some p ∧ p_cont C = Some p ∧ p_completion C = None ∧ m_promises m !! p = Some P ∧ waits_for (p_code P) = Some c) ∨
  (∃ s S g G i jobs pol gr, p_owner C = Some s ∧ p_cont C = None ∧ p_completion C = Some (g, i) ∧ m_promises m !! s = Some S ∧
    p_code S = SettleWait jobs g ∧ m_promises m !! g = Some G ∧ p_code G = GroupWait jobs pol gr ∧ jobs !! i = Some c).

(** [x] is the task that runs, [rest] the ids of this round that are still to be resumed, and
    [qs] the tasks that [rest] and the ready queue name. *)
Record shape (x : option nat) (rest : list Z) (qs : list nat) (m : machine) : Prop := {
  sh_crash : m_crash m = false;
  sh_table : table_ok (lk m) (m_deck m);
  sh_max : (Z.of_nat (length (rows (m_deck m))) ≤ max_index)%Z;
  sh_next : ∀ p P, m_promises m !! p = Some P → p < m_next m;
  sh_queue : rest ++ ready (m_deck m) = (λ p, l_id (lk m p)) <$> qs;
  sh_nodup : NoDup qs;
  sh_queued : ∀ p, p ∈ qs → running p m = true;
  sh_frame : ∀ p P, m_promises m !! p = Some P → Some p ≠ x → frame_ok m qs p P;
  sh_role : ∀ c C, m_promises m !! c = Some C → running c m = true → role m c C;
  sh_coins : ∀ w coin, m_wand m = Some w → coins w ≤ coin → parked w !! coin = None ∧ settled w !! coin = None;
  sh_parked : ∀ w coin p, m_wand m = Some w → parked w !! coin = Some p → ∃ P k, m_promises m !! p = Some P ∧ p_code P = Wishing coin k ∧ Some p ≠ x;
  sh_running : ∀ p, x = Some p → running p m = true ∧ p ∉ qs;
}.

(** *** It does not depend on what is masked *)

Lemma mask_code_done c c' : mask_code c' = mask_code c → code_done c' = code_done c.
Proof. by destruct c, c'. Qed.

Lemma mask_code_kind c c' : mask_code c' = mask_code c → kind c' = kind c.
Proof. destruct c, c'; cbn; try done; congruence. Qed.

Lemma running_similar m m' p : same_frames m m' → running p m' = running p m.
Proof.
  intros H. unfold running. destruct (m_promises m !! p) as [P|] eqn:HP.
  - destruct (same_lookup m m' p P H HP) as (P' & -> & (-> & _ & _ & _ & Hc)%mask_fields). by rewrite (mask_code_done _ _ Hc).
  - destruct (m_promises m' !! p) as [P'|] eqn:HP'; [|done]. symmetry in H. destruct (same_lookup m' m p P' H HP') as (P & ? & _). congruence.
Qed.

Lemma active_similar m m' jobs : same_frames m m' → active m' jobs = active m jobs.
Proof.
  intros H. unfold active. f_equal. apply list_filter_iff. intros j. by rewrite (running_similar m m' j H).
Qed.

Lemma unstarted_similar m m' j : same_frames m m' → unstarted m j → unstarted m' j.
Proof.
  intros H (J & HJ & H1 & H2 & H3 & H4 & H5). destruct (same_lookup m m' j J H HJ) as (J' & HJ' & (E1 & E2 & E4 & _ & Hc)%mask_fields).
  exists J'. by rewrite E1, E2, E4, (mask_code_done _ _ Hc), (mask_code_kind _ _ Hc).
Qed.

Lemma jobs_of_similar m m' s jobs : same_frames m m' → jobs_of m s jobs → jobs_of m' s jobs.
Proof.
  intros H [Hn Hj]. split; [done|]. intros j Hin. destruct (Hj j Hin) as (J & HJ & Ho).
  destruct (same_lookup m m' j J H HJ) as (J' & HJ' & (_ & _ & _ & E & _)%mask_fields). exists J'. by rewrite E.
Qed.

Lemma child_similar m m' qs qs' p c P P' C : same_frames m m' → p_link P' = p_link P → (p ∈ qs' ↔ p ∈ qs) → child_ok m qs p c P C →
  ∃ C', child_ok m' qs' p c P' C' ∧ mask_code (p_code C') = mask_code (p_code C).
Proof.
  intros H EP Hq (HC & H1 & H2 & H3 & H4 & H5). destruct (same_lookup m m' c C H HC) as (C' & HC' & (E1 & E2 & _ & E5 & Hc)%mask_fields).
  exists C'. split; [|done]. unfold child_ok, linked in *. by rewrite E1, E2, E5, EP, (mask_code_done _ _ Hc), Hq.
Qed.

Lemma group_of_similar m m' g G G' jobs : same_frames m m' → p_owner G' = p_owner G → group_of m g G jobs → group_of m' g G' jobs.
Proof.
  intros H EG (Hn & s & S & Ho & HS & Hc & Hj). destruct (same_lookup m m' s S H HS) as (S' & HS' & (_ & _ & _ & _ & Hs)%mask_fields).
  split; [done|]. exists s, S'. rewrite EG. split_and!; try done; [|by eapply jobs_of_similar]. rewrite Hc in Hs. destruct (p_code S'); by simplify_eq/=.
Qed.

Lemma frame_similar m m' qs qs' p P P' : same_frames m m' → mask P' = mask P →
  match p_code P with
  | Wishing coin _ => ∀ w, m_wand m = Some w → (parked w !! coin = Some p ∧ p ∉ qs ∨ parked w !! coin = None ∧ is_Some (settled w !! coin) ∧ p ∈ qs) →
      ∃ w', m_wand m' = Some w' ∧ (parked w' !! coin = Some p ∧ p ∉ qs' ∨ parked w' !! coin = None ∧ is_Some (settled w' !! coin) ∧ p ∈ qs')
  | _ => p ∈ qs' ↔ p ∈ qs
  end → frame_ok m qs p P → frame_ok m' qs' p P'.
Proof.
  intros H HP Hq. apply mask_fields in HP as (El & _ & _ & Eo & Hc). unfold frame_ok, linked. rewrite El.
  destruct (p_code P) eqn:EP, (p_code P') eqn:EP'; try discriminate Hc; simplify_eq/=; intros HF; try done.
  - by rewrite Hq.
  - destruct HF as (C & HC & Hg). destruct (child_similar _ _ _ _ _ _ _ _ _ H El Hq HC) as (C' & HC' & Hm). exists C'. split; [done|]. by destruct (p_code C), (p_code C').
  - destruct HF as (Hl & w & Hw & HF). split; [done|]. by apply (Hq w Hw).
  - destruct HF as (HF & Hj & Hu). split; [by rewrite Hq|]. split; [by eapply jobs_of_similar|]. eapply Forall_impl; [exact Hu|]. intros j. by apply unstarted_similar.
  - destruct HF as (Hj & G & HG & HF). split; [by eapply jobs_of_similar|]. destruct (child_similar _ _ _ _ _ _ _ _ _ H El Hq HG) as (G' & HG' & Hm). exists G'. split; [done|].
    destruct (p_code G), (p_code G'); try discriminate Hm; simplify_eq/=; try done.
    + destruct HF as [-> Hu]. split; [done|]. eapply Forall_impl; [exact Hu|]. intros j. by apply unstarted_similar.
    + eapply Forall_impl; [exact HF|]. intros j. by rewrite (running_similar m m').
  - intros HL. destruct (HF HL) as [? Hg]. split; [by rewrite Hq|]. by eapply group_of_similar.
  - rewrite (active_similar m m') by done. destruct gr, gr0. cbn in *. subst. destruct HF as (? & Hg & ? & ?). rewrite Hq. split_and!; try done. by eapply group_of_similar.
Qed.

Lemma role_similar m m' c C C' : same_frames m m' → mask C' = mask C → role m c C → role m' c C'.
Proof.
  intros H (_ & E2 & E4 & E5 & _)%mask_fields. unfold role. rewrite E2, E4, E5. intros [HR|[HR|HR]]; [by left|right; left|right; right].
  - destruct HR as (p & P & H1 & H2 & H3 & HP & H4). destruct (same_lookup m m' p P H HP) as (P' & HP' & (_ & _ & _ & _ & Hc)%mask_fields).
    exists p, P'. split_and!; try done. by destruct (p_code P), (p_code P'); simplify_eq/=.
  - destruct HR as (s & S & g & G & i & jobs & pol & gr & H1 & H2 & H3 & HS & H4 & HG & H5 & H6).
    destruct (same_lookup m m' s S H HS) as (S' & HS' & (_ & _ & _ & _ & Hs)%mask_fields). destruct (same_lookup m m' g G H HG) as (G' & HG' & (_ & _ & _ & _ & Hg)%mask_fields).
    rewrite H4 in Hs. rewrite H5 in Hg. destruct (p_code S') eqn:ES; try discriminate Hs. destruct (p_code G') eqn:EG; try discriminate Hg. simplify_eq/=.
    by eexists s, S', g, G', i, _, _, _.
Qed.

(** Queueing some tasks adds them to the queue, in some order. *)
Lemma queue_woken new rest qs m m' : woken new m m' → rest ++ ready (m_deck m) = (λ p, l_id (lk m p)) <$> qs →
  ∃ qs', rest ++ ready (m_deck m') = (λ p, l_id (lk m' p)) <$> qs' ∧ qs' ≡ₚ qs ++ new.
Proof.
  intros H Hq. assert (rest = (λ p, l_id (lk m p)) <$> take (length rest) qs) as Er by (rewrite fmap_take, <- Hq; by rewrite take_app_length).
  assert (ready (m_deck m) = (λ p, l_id (lk m p)) <$> drop (length rest) qs) as Ed by (rewrite fmap_drop, <- Hq; by rewrite drop_app_length).
  pose proof (wo_ready _ _ _ H) as Hp. rewrite Ed, <- fmap_app in Hp. destruct (Permutation_map_inv _ _ Hp) as (l3 & E3 & P3).
  exists (take (length rest) qs ++ l3). split.
  - rewrite fmap_app. f_equal.
    + rewrite Er at 1. apply list_fmap_ext. intros _ p _. by rewrite (lk_similar m m') by apply H.
    + etrans; [exact E3|]. apply list_fmap_ext. intros _ p _. by rewrite (lk_similar m m') by apply H.
  - rewrite <- P3, app_assoc. by rewrite take_drop.
Qed.

Lemma shape_woken new x rest qs m m' : woken new m m' → shape x rest qs m → ∃ qs', qs' ≡ₚ qs ++ new ∧ shape x rest qs' m'.
Proof.
  intros H Hs. pose proof (wo_frames _ _ _ H) as Hf. assert (same_frames m' m) as Hf' by by symmetry. destruct (queue_woken new rest qs m m' H (sh_queue _ _ _ _ Hs)) as (qs' & Hq & Hperm).
  exists qs'. split; [done|]. pose proof (wo_wand _ _ _ H) as Ew. pose proof (wo_new _ _ _ H) as [Hnd Hnew]. destruct (wo_rows _ _ _ H) as [Hrows Hname].
  assert (∀ p, p ∈ qs' ↔ p ∈ qs ∨ p ∈ new) as Hin by (intros p; by rewrite Hperm, elem_of_app).
  assert (∀ p, p ∈ new → ∃ w P coin k, m_wand m = Some w ∧ m_promises m !! p = Some P ∧ p_code P = Wishing coin k ∧ linked P ∧ parked w !! coin = Some p ∧ (p ∉ qs) ∧ Some p ≠ x) as Hpk.
  { intros p Hp. destruct (Hnew p Hp) as (coin & w & P & k & Hw & Hc & HP & HcP & Hl). destruct (sh_parked _ _ _ _ Hs w coin p Hw Hc) as (_ & _ & _ & _ & Hx).
    exists w, P, coin, k. split_and!; try done. pose proof (sh_frame _ _ _ _ Hs p P HP Hx) as HF. unfold frame_ok in HF. rewrite HcP in HF. destruct HF as (_ & w1 & Hw1 & [[_ ?]|(? & _)]); [done|congruence]. }
  assert (∀ p P, m_promises m !! p = Some P → (∀ coin k, p_code P ≠ Wishing coin k) → (p ∈ qs' ↔ p ∈ qs)) as Hsame.
  { intros p P HP Hc. rewrite Hin. split; [|by left]. intros [?|Hp]; [done|]. destruct (Hpk p Hp) as (w & P1 & coin & k & _ & HP1 & Hc1 & _). by destruct (Hc coin k); congruence. }
  split.
  - rewrite (wo_crash _ _ _ H). apply Hs.
  - apply (table_ok_ext (lk m) _ (m_deck m)); try done; [apply Hs|]. intros p. by apply lk_similar.
  - rewrite Hrows. apply Hs.
  - intros p P' HP'. destruct (same_lookup m' m p P' Hf' HP') as (P & HP & _). rewrite (wo_next _ _ _ H). by apply (sh_next _ _ _ _ Hs p P).
  - done.
  - rewrite Hperm. apply NoDup_app. split; [apply Hs|]. split; [|done]. intros p Hp Hn. by destruct (Hpk p Hn) as (w & P & coin & k & _ & _ & _ & _ & _ & ? & _).
  - intros p Hp. rewrite (running_similar m m') by done. apply Hin in Hp as [Hp|Hp]; [by apply Hs|]. destruct (Hpk p Hp) as (w & P & coin & k & _ & HP & Hc & Hl & _).
    unfold running, linked in *. rewrite HP, Hc. apply Z.eqb_neq in Hl. by rewrite Hl.
  - intros p P' HP' Hx. destruct (same_lookup m' m p P' Hf' HP') as (P & HP & E). eapply (frame_similar m m' qs qs' p P); [done|by symmetry in E| |by apply Hs].
    destruct (p_code P) as [| |coin k| | | | |] eqn:HcP; try (apply (Hsame p P HP); intros; congruence).
    intros w Hw HF. rewrite Hw in Ew. destruct (m_wand m') as [w'|]; [|done]. destruct Ew as [_ Ew]. exists w'. split; [done|]. rewrite Hin.
    destruct (Ew coin) as [(E1 & E2 & En)|(q & Hqn & E1 & E2 & E3)].
    + rewrite E1, E2. destruct HF as [[Hc Hn]|(Hc & Hst & Hn)]; [left|right; by split_and!; try left]. split; [done|]. intros [?|?]; [done|]. by apply (En p).
    + right. split_and!; try done. right. destruct HF as [[Hc _]|(Hc & _)]; [|congruence]. by assert (q = p) as -> by congruence.
  - intros c C' HC' Hr. destruct (same_lookup m' m c C' Hf' HC') as (C & HC & E). eapply (role_similar m); [done|by symmetry in E|].
    apply Hs; [done|]. by rewrite <- (running_similar m m').
  - intros w' coin Hw' Hc. rewrite Hw' in Ew. destruct (m_wand m) as [w|] eqn:Hw; [|done]. destruct Ew as [Ec Ew]. rewrite Ec in Hc. destruct (sh_coins _ _ _ _ Hs w coin Hw Hc) as [H1 H2].
    destruct (Ew coin) as [(-> & -> & _)|(q & _ & E1 & _)]; [done|congruence].
  - intros w' coin p Hw' Hc. rewrite Hw' in Ew. destruct (m_wand m) as [w|] eqn:Hw; [|done]. destruct Ew as [_ Ew]. destruct (Ew coin) as [(E & _)|(q & _ & _ & E & _)]; [|congruence]. rewrite E in Hc.
    destruct (sh_parked _ _ _ _ Hs w coin p Hw Hc) as (P & k & HP & HPc & Hx). destruct (same_lookup m m' p P Hf HP) as (P' & HP' & (_ & _ & _ & _ & E')%mask_fields). exists P', k. split_and!; try done. by apply (mask_wishing _ _ _ _ E').
  - intros p Hp. rewrite (running_similar m m') by done. destruct (sh_running _ _ _ _ Hs p Hp) as [Hr Hnq]. split; [done|]. rewrite Hin. intros [?|Hn]; [done|]. by destruct (Hpk p Hn) as (w & P & coin & k & _ & _ & _ & _ & _ & _ & ?).
Qed.

Lemma shape_similar x rest qs m m' : similar m m' → shape x rest qs m → ∃ qs', shape x rest qs' m'.
Proof. intros [new H] Hs. destruct (shape_woken new x rest qs m m' H Hs) as (qs' & _ & ?). by exists qs'. Qed.

(** The states of a round park their tasks well. *)
Lemma shape_parked x rest qs m : shape x rest qs m → parked_ok m ∧ ∀ y w coin, x = Some y → m_wand m = Some w → parked w !! coin ≠ Some y.
Proof.
  intros H. split; [split; [apply H|]|].
  - intros w coin p Hw Hp. destruct (sh_parked _ _ _ _ H w coin p Hw Hp) as (P & k & HP & Hc & Hx). exists w, P, k. split_and!; try done.
    pose proof (sh_frame _ _ _ _ H p P HP Hx) as HF. unfold frame_ok in HF. rewrite Hc in HF. by destruct HF.
  - intros y w coin -> Hw Hp. by destruct (sh_parked _ _ _ _ H w coin y Hw Hp) as (_ & _ & _ & _ & ?).
Qed.

(** ** Changes of one frame *)

Lemma upd_eq p f m P : m_promises m !! p = Some P → m_promises (upd p f m) !! p = Some (f P).
Proof. intros H. unfold upd. cbn. by rewrite lookup_alter_eq, H. Qed.

Lemma upd_ne p q f m : p ≠ q → m_promises (upd p f m) !! q = m_promises m !! q.
Proof. intros H. unfold upd. cbn. by rewrite lookup_alter_ne. Qed.

Lemma running_ext m m' p : (mask <$> m_promises m' !! p) = (mask <$> m_promises m !! p) → running p m' = running p m.
Proof.
  unfold running. destruct (m_promises m !! p) as [P|], (m_promises m' !! p) as [P'|]; try done. intros E%(inj Some).
  apply mask_fields in E as (-> & _ & _ & _ & Hc). by rewrite (mask_code_done _ _ Hc).
Qed.

Lemma running_some m p : running p m = true ↔ ∃ P, m_promises m !! p = Some P ∧ linked P ∧ code_done (p_code P) = false.
Proof.
  unfold running, linked. destruct (m_promises m !! p) as [P|]; [|split; [done|by intros (? & ? & _)]]. split.
  - intros [Hz Hd]%andb_true_iff. exists P. split; [done|]. apply negb_true_iff, Z.eqb_neq in Hz. by apply negb_true_iff in Hd.
  - intros (P' & [= <-] & Hz & Hd). apply Z.eqb_neq in Hz. by rewrite Hz, Hd.
Qed.

(** Whether a group is still to be set up. *)
Definition is_setup (c : code) : bool := match c with GroupStart _ _ => true | _ => false end.

(** A frame as those that refer to it see it. *)
Record alike (C C' : promise) : Prop := {
  al_link : p_link C' = p_link C;
  al_cont : p_cont C' = p_cont C;
  al_owner : p_owner C' = p_owner C;
  al_completion : p_completion C = None → p_completion C' = None;
  al_done : code_done (p_code C') = code_done (p_code C);
  al_kind : kind (p_code C') = kind (p_code C);
  al_setup : is_setup (p_code C') = true → is_setup (p_code C) = true;
}.

Definition looks (m m' : machine) (c : nat) : Prop := ∀ C, m_promises m !! c = Some C → ∃ C', m_promises m' !! c = Some C' ∧ alike C C'.

Lemma alike_refl C : alike C C.
Proof. by split. Qed.

Lemma mask_alike C C' : mask C' = mask C → alike C C'.
Proof. intros (E1 & E2 & E4 & E5 & Ec)%mask_fields. split; try done; [by rewrite E4|..]; destruct (p_code C), (p_code C'); by simplify_eq/=. Qed.

Lemma looks_same m m' c : m_promises m' !! c = m_promises m !! c → looks m m' c.
Proof. intros E C HC. exists C. rewrite E. split; [done|apply alike_refl]. Qed.

Lemma looks_running m m' c : looks m m' c → is_Some (m_promises m !! c) → running c m' = running c m.
Proof. intros H [C HC]. destruct (H C HC) as (C' & HC' & [El _ _ _ Ed _ _]). unfold running. by rewrite HC, HC', El, Ed. Qed.

Lemma looks_unstarted m m' j : looks m m' j → unstarted m j → unstarted m' j.
Proof. intros H (J & HJ & H1 & H2 & H3 & H4 & H5). destruct (H J HJ) as (J' & HJ' & [E1 E2 E3 E4 E5 E6 _]). exists J'. by rewrite E1, E2, (E4 H2), E5, E6. Qed.

Lemma looks_jobs m m' s jobs : (∀ j, j ∈ jobs → looks m m' j) → jobs_of m s jobs → jobs_of m' s jobs.
Proof. intros H [Hn Hj]. split; [done|]. intros j Hin. destruct (Hj j Hin) as (J & HJ & Ho). destruct (H j Hin J HJ) as (J' & HJ' & E). exists J'. by rewrite (al_owner _ _ E). Qed.

Lemma looks_child m m' qs qs' p c P C : looks m m' c → (p ∈ qs' ↔ p ∈ qs) → child_ok m qs p c P C → ∃ C', child_ok m' qs' p c P C' ∧ alike C C'.
Proof.
  intros H Hq (HC & H1 & H2 & H3 & H4 & H5). destruct (H C HC) as (C' & HC' & E). exists C'. split; [|done]. destruct E as [E1 E2 E3 E4 E5 _ _].
  unfold child_ok, linked in *. by rewrite E1, E2, E3, E5, Hq.
Qed.

Lemma active_same m m' jobs : (∀ j, j ∈ jobs → running j m' = running j m) → active m' jobs = active m jobs.
Proof.
  intros H. unfold active. induction jobs as [|j jobs IH]; [done|]. rewrite !filter_cons. rewrite (H j) by (by left).
  assert (length (filter (λ j, running j m' = true) jobs) = length (filter (λ j, running j m = true) jobs)) as E by (apply IH; intros; apply H; by right).
  destruct (decide (running j m = true)); cbn; lia.
Qed.

(** The frames a suspended task refers to. *)
Definition refs (P : promise) : list nat :=
  match p_code P with
  | Awaiting c _ _ => [c]
  | SettleStart jobs _ => jobs
  | SettleWait jobs g => g :: jobs
  | GroupStart jobs _ => if (l_id (p_link P) =? 0)%Z then [] else jobs
  | GroupWait jobs _ _ => jobs
  | _ => []
  end.

(** A suspended task is as it was if what it refers to is. *)
Lemma frame_same m m' qs qs' p P : frame_ok m qs p P → (∀ c, c ∈ refs P → looks m m' c) → (p ∈ qs' ↔ p ∈ qs) →
  (∀ s S jobs, p_owner P = Some s → linked P → kind (p_code P) = Some jobs → m_promises m !! s = Some S → p_code S = SettleWait jobs p →
    ∃ S', m_promises m' !! s = Some S' ∧ p_code S' = p_code S) →
  (∀ w coin k, p_code P = Wishing coin k → m_wand m = Some w → ∃ w', m_wand m' = Some w' ∧ parked w' !! coin = parked w !! coin ∧ settled w' !! coin = settled w !! coin) →
  frame_ok m' qs' p P.
Proof.
  intros HF Hr Hq Hs Hw. unfold frame_ok, refs in *. destruct (p_code P) as [q|c kept k|coin k|jobs pol|jobs g|jobs pol|jobs pol gr|o]; [by rewrite Hq| | | | | | |done].
  - destruct HF as (C & HC & Hg). destruct (looks_child m m' qs qs' p c P C) as (C' & HC' & E); [apply Hr; by left|done|done|]. exists C'. split; [done|].
    pose proof (al_kind _ _ E) as Ek. destruct (p_code C); try done; by destruct (p_code C').
  - destruct HF as (Hl & w & Hmw & HF). split; [done|]. destruct (Hw w coin k eq_refl Hmw) as (w' & Hw' & E1 & E2). exists w'. by rewrite E1, E2, Hq.
  - destruct HF as (H1 & H2 & H3). rewrite Hq. split; [done|]. split; [by apply (looks_jobs m)|]. rewrite Forall_forall in *. intros j Hj. apply (looks_unstarted m); eauto.
  - destruct HF as (H0 & G & HG & Hg). assert (∀ j, j ∈ jobs → looks m m' j) as Hjs by (intros; apply Hr; by right).
    split; [by apply (looks_jobs m)|]. destruct (looks_child m m' qs qs' p g P G) as (G' & HG' & E); [apply Hr; by left|done|done|]. exists G'. split; [done|].
    pose proof (al_kind _ _ E) as Ek. pose proof (al_setup _ _ E) as Es. pose proof (al_done _ _ E) as Ed.
    destruct (p_code G), (p_code G'); try done; simplify_eq/=; try done; try (by specialize (Es eq_refl)); try (by destruct Hg).
    + destruct Hg as [-> Hg]. split; [done|]. rewrite Forall_forall in *. intros j Hj. apply (looks_unstarted m); eauto.
    + rewrite Forall_forall in *. intros j Hj. destruct H0 as [_ H0]. destruct (H0 j Hj) as (J & HJ & _). rewrite (looks_running m m'); eauto.
  - intros HL. destruct (HF HL) as (H1 & Hn & s & S & Ho & HS & Hc & Hj). rewrite Hq. split; [done|]. destruct (Hs s S jobs Ho HL eq_refl HS Hc) as (S' & HS' & E). split; [done|]. exists s, S'. rewrite E.
    split_and!; try done. apply (looks_jobs m); [|done]. apply Z.eqb_neq in HL. by rewrite HL in Hr.
  - destruct HF as (H1 & (Hn & s & S & Ho & HS & Hc & Hj) & H2 & H3). split; [done|]. rewrite Hq. split; [|split; [|done]].
    + destruct (Hs s S jobs Ho H1 eq_refl HS Hc) as (S' & HS' & E). split; [done|]. exists s, S'. rewrite E. split_and!; try done. by apply (looks_jobs m).
    + rewrite (active_same m m'); [done|]. intros j Hin. destruct Hj as [_ Hj]. destruct (Hj j Hin) as (J & HJ & _). apply looks_running; eauto.
Qed.

(** The role of a task depends on the frames that are to be told. *)
Lemma role_same m m' c C C' : role m c C → p_owner C' = p_owner C → p_cont C' = p_cont C → p_completion C' = p_completion C →
  (∀ p P, p_owner C = Some p → m_promises m !! p = Some P → waits_for (p_code P) ≠ None → ∃ P', m_promises m' !! p = Some P' ∧ p_code P' = p_code P) →
  (∀ g i G jobs pol gr, p_completion C = Some (g, i) → m_promises m !! g = Some G → p_code G = GroupWait jobs pol gr →
    ∃ G' gr', m_promises m' !! g = Some G' ∧ p_code G' = GroupWait jobs pol gr') →
  role m' c C'.
Proof.
  intros HR E1 E2 E3 Ho Hc. unfold role. rewrite E1, E2, E3. destruct HR as [HR|[HR|HR]]; [by left|right; left|right; right].
  - destruct HR as (p & P & H1 & H2 & H3 & HP & H4). destruct (Ho p P H1 HP) as (P' & HP' & E); [by rewrite H4|]. exists p, P'. by rewrite E.
  - destruct HR as (s & S & g & G & i & jobs & pol & gr & H1 & H2 & H3 & HS & H4 & HG & H5 & H6).
    destruct (Ho s S H1 HS) as (S' & HS' & ES); [by rewrite H4|]. destruct (Hc g i G jobs pol gr H3 HG H5) as (G' & gr' & HG' & EG).
    exists s, S', g, G', i, jobs, pol, gr'. by rewrite ES.
Qed.

(** Nobody waits to tell [x]: the tasks it started are done. *)
Definition calm (x : nat) (m : machine) : Prop :=
  ∀ c C, m_promises m !! c = Some C → running c m = true → p_owner C ≠ Some x ∧ ∀ i, p_completion C ≠ Some (x, i).

(** ** Scheduling *)

Lemma linked_iff m p P : table_ok (lk m) (m_deck m) → m_promises m !! p = Some P → linked P ↔ lk m p ≠ no_link.
Proof.
  intros H HP. assert (lk m p = p_link P) as E by (unfold lk; by rewrite HP). unfold linked. rewrite <- E. split; [intros Hz Hn; by rewrite Hn in Hz|].
  intros Hl. by destruct (linked_row _ _ p H Hl) as (i & r & _ & _ & _ & _ & _ & Hz).
Qed.

Lemma enqueue_linked_task m p P : table_ok (lk m) (m_deck m) → m_promises m !! p = Some P → linked P →
  enqueue_task p m = (Ret tt, set_deck (set_ready (ready (m_deck m) ++ [l_id (p_link P)]) (m_deck m)) m).
Proof.
  intros H HP Hl. unfold enqueue_task. rewrite HP. assert (lk m p = p_link P) as E by (unfold lk; by rewrite HP).
  rewrite <- E. rewrite (enqueue_linked (lk m) (m_deck m) p H) by (by apply (linked_iff m p P)). rewrite E. f_equal. f_equal.
  unfold upd. rewrite alter_id; [by destruct m|]. intros P' HP'. assert (P' = P) as -> by congruence. by destruct P.
Qed.

(** A frame that has no row gets one, or the table is full and nothing changes. *)
Lemma enqueue_unlinked_task m c C : table_ok (lk m) (m_deck m) → (Z.of_nat (length (rows (m_deck m))) ≤ max_index)%Z → m_promises m !! c = Some C → p_link C = no_link →
  (vacant 0 (rows (m_deck m)) = None ∧ enqueue_task c m = (Throw (Runtime "nxtrt deck task table is full"), m)) ∨
  ∃ l d, l_id l ≠ 0%Z ∧ vacant 0 (rows (m_deck m)) ≠ None ∧ enqueue_task c m = (Ret tt, set_deck d (upd c (set_link l) m)) ∧ ready d = ready (m_deck m) ++ [l_id l] ∧
    length (rows d) = length (rows (m_deck m)) ∧ table_ok (<[c := l]> (lk m)) d.
Proof.
  intros H Hmax HC Hl. assert (lk m c = no_link) as E by (unfold lk; by rewrite HC). unfold enqueue_task. rewrite HC, Hl.
  destruct (enqueue_unlinked (lk m) (m_deck m) c H E Hmax) as [[Hv ->]|(i & r & id & Hv & Hz & -> & Hok & _)]; [left; split; [done|]|right].
  - f_equal. unfold upd. rewrite alter_id; [by destruct m|]. intros P' HP'. assert (P' = C) as -> by congruence. rewrite <- Hl. by destruct C.
  - eexists (MkLink id _), _. split; [done|]. split; [by rewrite Hv|]. split; [done|]. split; [done|]. cbn. rewrite length_insert. split; [done|].
    by apply (table_ok_ext _ _ _ _ Hok).
Qed.

Lemma lk_upd m p f P : m_promises m !! p = Some P → ∀ q, lk (upd p f m) q = if decide (p = q) then p_link (f P) else lk m q.
Proof. intros HP q. unfold lk. destruct (decide (p = q)) as [<-|Hne]; [by rewrite (upd_eq _ _ _ P)|by rewrite upd_ne]. Qed.

Lemma noexcept_linked m p P : table_ok (lk m) (m_deck m) → m_promises m !! p = Some P → linked P →
  enqueue_noexcept p m = set_deck (set_ready (ready (m_deck m) ++ [l_id (p_link P)]) (m_deck m)) m.
Proof. intros H HP Hl. unfold enqueue_noexcept. by rewrite (enqueue_linked_task m p P). Qed.

Lemma upd_table x f m X : table_ok (lk m) (m_deck m) → m_promises m !! x = Some X → p_link (f X) = p_link X → table_ok (lk (upd x f m)) (m_deck (upd x f m)).
Proof.
  intros H HX E. apply (table_ok_ext (lk m) _ (m_deck m)); try done. intros p. rewrite (lk_upd m x f X HX). destruct (decide (x = p)) as [<-|]; [|done]. unfold lk. by rewrite HX.
Qed.

(** *** Stop requests *)

(** Settling a coin queues its task. *)
Lemma settle_coin_similar coin o m : parked_ok m → similar m (settle_coin coin o m).
Proof.
  intros [Ht Hpk]. unfold settle_coin. destruct (m_wand m) as [w|] eqn:Hw; [|done]. destruct (parked w !! coin) as [p|] eqn:Hp; [|done].
  pose proof (Hpk w coin p eq_refl Hp) as Hparks. pose proof Hparks as (w1 & P & k & _ & _ & HP & Hc & Hl). set (w' := MkWand _ _ _ _ _). unfold need_resume.
  rewrite (noexcept_linked _ p (set_waits None P)); [|apply (upd_table p _ (set_wand (Some w') m) P); [by apply (table_ok_ext (lk m) _ (m_deck m))|done|done]|by apply upd_eq|done].
  exists [p]. split; cbn [m_deck m_next m_crash m_wand set_deck upd set_promises set_wand set_ready rows name ready]; try done.
  - apply map_eq. intros q. cbn. rewrite !lookup_fmap. destruct (decide (p = q)) as [<-|Hne]; [|by rewrite lookup_alter_ne]. by rewrite lookup_alter_eq, HP.
  - cbn. unfold lk. by rewrite HP.
  - split; [apply NoDup_singleton|]. intros q ->%list_elem_of_singleton. by exists coin.
  - rewrite Hw. split; [done|]. intros c. destruct (decide (c = coin)) as [->|Hcc].
    + right. exists p. cbn. rewrite lookup_delete_eq, lookup_insert_eq. split_and!; try done. by left.
    + left. cbn. rewrite lookup_delete_ne, lookup_insert_ne by done. split_and!; try done. intros q Hq ->%list_elem_of_singleton. apply Hcc. apply (parks_fun m p); [done|by apply (Hpk w)].
Qed.

Lemma similar_cancel m coin : parked_ok m → similar m (cancel coin m).
Proof.
  intros H. unfold cancel. destruct (m_wand m) as [w|] eqn:Hw; [|done]. destruct (_ || _); [done|]. destruct (bool_decide _); [by apply settle_coin_similar|]. exists []; apply quiet_woken; try done. cbn. by rewrite Hw.
Qed.

Lemma submit_similar m coin : similar m (submit coin m).
Proof. unfold submit. destruct (m_wand m) as [w|] eqn:Hw; [|done]. destruct (_ || _); [done|]. exists []; apply quiet_woken; try done. cbn. by rewrite Hw. Qed.

Lemma similar_foldl {A} (f : machine → A → machine) l : (∀ m a, parked_ok m → similar m (f m a)) → ∀ m, parked_ok m → similar m (foldl f m l).
Proof. intros Hf. induction l as [|a l IH]; intros m H; [done|]. cbn. pose proof (Hf m a H) as H1. etrans; [exact H1|]. apply IH. by apply (parked_similar m). Qed.

Lemma request_stop_similar fuel : ∀ p m, parked_ok m → similar m (request_stop fuel p m).
Proof.
  induction fuel as [|fuel IH]; intros p m H; [done|]. cbn [request_stop]. destruct (m_promises m !! p) as [P|] eqn:HP; [|done].
  destruct (p_stop P); [done|]. cbv zeta.
  assert (similar m (match p_waits P with Some coin => cancel coin (upd p set_stop m) | None => upd p set_stop m end)) as H1.
  { assert (similar m (upd p set_stop m)) as H0 by (by apply similar_upd). etrans; [exact H0|]. destruct (p_waits P); [|done]. apply similar_cancel. by apply (parked_similar m). }
  set (m1 := match p_waits P with Some coin => _ | None => _ end) in *. clearbody m1. pose proof (parked_similar _ _ H1 H) as Hm1.
  assert (∀ m2, similar m1 m2 → similar m (foldl (λ m c, request_stop fuel c m) m2 (followers p m2))) as Hall.
  { intros m2 H2. etrans; [exact H1|]. etrans; [exact H2|]. apply similar_foldl; [intros m3 c; by apply IH|by apply (parked_similar m1)]. }
  apply Hall. destruct (p_code P); try done. assert (similar m1 (upd p (on_group (λ gr, set_stopping (set_parent_stopped gr))) m1)) as H2 by (by apply similar_group).
  etrans; [exact H2|]. apply similar_foldl; [|by apply (parked_similar m1)]. intros m3 c Hm3. destruct (running c m3); [by apply IH|done].
Qed.

Lemma stop_task_similar p m : parked_ok m → similar m (stop_task p m).
Proof. apply request_stop_similar. Qed.

Lemma group_stop_similar g jobs m : parked_ok m → similar m (group_stop g jobs m).
Proof.
  intros H. unfold group_stop. assert (similar m (upd g (on_group set_stopping) m)) as H1 by (by apply similar_group). etrans; [exact H1|].
  apply similar_foldl; [|by apply (parked_similar m)]. intros m2 c Hm2. destruct (running c m2); [by apply stop_task_similar|done].
Qed.

(** *** The same step on both sides *)

Lemma upd_similar new m m' p f : woken new m m' → p ∉ new → (∀ P P', mask P' = mask P → mask (f P') = mask (f P)) → woken new (upd p f m) (upd p f m').
Proof.
  intros H Hp Hf. assert (∀ q, q ∈ new → m_promises (upd p f m) !! q = m_promises m !! q) as Hne by (intros q Hq; apply upd_ne; by intros ->). split; try apply H.
  - apply map_eq. intros q. unfold upd. cbn [m_promises set_promises]. rewrite !lookup_fmap. pose proof (wo_frames _ _ _ H) as E. apply (f_equal (.!! q)) in E. rewrite !lookup_fmap in E. destruct (decide (p = q)) as [<-|Hpq].
    + rewrite !lookup_alter_eq. destruct (m_promises m !! p) as [P|], (m_promises m' !! p) as [P'|]; try done. cbn in *. f_equal. apply Hf. by apply (inj Some) in E.
    + by rewrite !lookup_alter_ne.
  - cbn. rewrite (wo_ready _ _ _ H). apply Permutation_app_head, Permutation_refl'. apply list_fmap_ext. intros i q Hq. unfold lk. rewrite Hne; [done|]. by apply list_elem_of_lookup_2 in Hq.
  - destruct (wo_new _ _ _ H) as [Hnd Hn]. split; [done|]. intros q Hq. destruct (Hn q Hq) as (coin & w & P & k & Hw & Hc & HP & Hcode & Hl). exists coin, w, P, k. split; [done|]. split; [done|]. rewrite Hne by done. done.
Qed.

Lemma enqueue_deck p l d d' : rows d' = rows d → name d' = name d → ∃ added, let '(r, l1, d1) := enqueue (Some p) (Some p) l d in
  ready d1 = ready d ++ added ∧ enqueue (Some p) (Some p) l d' = (r, l1, set_ready (ready d' ++ added) d1).
Proof.
  destruct d as [n rs q], d' as [n' rs' q']. cbn. intros -> ->. unfold enqueue, register_task, claim_row, resolve. cbn [name rows ready bool_decide orb].
  repeat (case_match; simplify_eq/=); first [exists []; rewrite !app_nil_r; done|by eexists].
Qed.

Lemma enqueue_similar new m m' p : woken new m m' → p ∉ new → let r := enqueue_task p m in let r' := enqueue_task p m' in r'.1 = r.1 ∧ woken new r.2 r'.2.
Proof.
  intros H Hp. unfold enqueue_task. pose proof (wo_frames _ _ _ H) as Hf. destruct (wo_rows _ _ _ H) as [Hrows Hname]. destruct (m_promises m !! p) as [P|] eqn:HP.
  - destruct (same_lookup m m' p P Hf HP) as (P' & HP' & E). rewrite HP'. pose proof (mask_fields _ _ E) as (El & _). rewrite El.
    destruct (enqueue_deck p (p_link P) _ _ Hrows Hname) as (added & Hd). destruct (enqueue _ _ _ (m_deck m)) as [[r l] d]. destruct Hd as [Hr ->].
    enough (woken new (set_deck d (upd p (set_link l) m)) (set_deck (set_ready (ready (m_deck m') ++ added) d) (upd p (set_link l) m'))) by (by destruct r).
    assert (woken new (upd p (set_link l) m) (upd p (set_link l) m')) as Hu.
    { apply upd_similar; try done. intros Q Q' (E1 & E2 & E4 & E5 & E6)%mask_fields. unfold mask. cbn. congruence. }
    split; try apply Hu; [done|]. cbn. rewrite Hr. pose proof (wo_ready _ _ _ Hu) as Hq. cbn in Hq. rewrite Hq. change (lk (set_deck d (upd p (set_link l) m))) with (lk (upd p (set_link l) m)).
    rewrite <- !app_assoc. apply Permutation_app_head, Permutation_app_comm.
  - assert (m_promises m' !! p = None) as ->.
    { destruct (m_promises m' !! p) as [P'|] eqn:HP'; [|done]. symmetry in Hf. destruct (same_lookup m' m p P' Hf HP') as (? & ? & _). congruence. }
    split; [done|]. split; try apply H; done.
Qed.

(** ** Destruction *)

(** A suspended task that waits for something is running. *)
Lemma waiting_running x rest qs m p P : shape x rest qs m → m_promises m !! p = Some P → Some p ≠ x →
  match p_code P with Awaiting _ _ _ | Wishing _ _ | SettleWait _ _ | GroupWait _ _ _ => running p m = true | _ => True end.
Proof.
  intros H HP Hx. pose proof (sh_frame _ _ _ _ H p P HP Hx) as HF. unfold frame_ok, child_ok in HF.
  destruct (p_code P) eqn:Hc; try done; apply running_some; exists P; rewrite Hc; (split; [done|split; [|done]]);
    first [by destruct HF as (C & (_ & _ & _ & _ & ? & _) & _)|by destruct HF as (_ & G & (_ & _ & _ & _ & ? & _) & _)|by destruct HF].
Qed.

(** Who refers to a frame holds it, or is the group of the task that holds it. *)
Lemma refs_owner x rest qs m p P c : shape x rest qs m → m_promises m !! p = Some P → Some p ≠ x → c ∈ refs P →
  ∃ C q Q, m_promises m !! c = Some C ∧ p_owner C = Some q ∧ m_promises m !! q = Some Q ∧ code_done (p_code Q) = false ∧
    (q = p ∨ running p m = true ∧ p_owner P = Some q ∧ waits_for (p_code Q) = Some p).
Proof.
  intros H HP Hx Hc. pose proof (sh_frame _ _ _ _ H p P HP Hx) as HF. pose proof (waiting_running _ _ _ _ _ _ H HP Hx) as Hrun. unfold frame_ok, refs in *.
  destruct (p_code P) as [q|c' kept k|coin k|jobs pol|jobs g|jobs pol|jobs pol gr|o] eqn:Hcode; try (by apply not_elem_of_nil in Hc).
  - apply list_elem_of_singleton in Hc as ->. destruct HF as (C & (HC & _ & Ho & _) & _). exists C, p, P. rewrite Hcode. by eauto 10.
  - destruct HF as (_ & [_ Hj] & _). destruct (Hj c Hc) as (C & HC & Ho). exists C, p, P. rewrite Hcode. by eauto 10.
  - destruct HF as ([_ Hj] & G & (HG & _ & Ho & _) & _). apply elem_of_cons in Hc as [->|Hc].
    + exists G, p, P. rewrite Hcode. by eauto 10.
    + destruct (Hj c Hc) as (C & HC & Ho'). exists C, p, P. rewrite Hcode. by eauto 10.
  - destruct (Z.eqb_spec (l_id (p_link P)) 0) as [_|HL]; [by apply not_elem_of_nil in Hc|]. destruct (HF HL) as (_ & _ & s & S & Ho & HS & Hcs & [_ Hj]). destruct (Hj c Hc) as (C & HC & Ho').
    exists C, s, S. rewrite Hcs. split_and!; try done. right. split; [|done]. apply running_some. exists P. by rewrite Hcode.
  - destruct HF as (_ & (_ & s & S & Ho & HS & Hcs & [_ Hj]) & _). destruct (Hj c Hc) as (C & HC & Ho'). exists C, s, S. rewrite Hcs. split_and!; try done. by right.
Qed.

(** The frame of a task that is not running can go, if whoever holds it is done or runs. *)
Lemma delete_shape x rest qs m j J : shape x rest qs m → (∀ y, x = Some y → calm y m) → m_promises m !! j = Some J → running j m = false →
  (∀ q Q, p_owner J = Some q → m_promises m !! q = Some Q → Some q = x ∨ code_done (p_code Q) = true) →
  shape x rest qs (set_deck (unregister_from_deck j (p_link J) (m_deck m)).2 (set_promises (delete j (m_promises m)) m)).
Proof.
  intros H Hcalm HJ Hidle Hown.
  assert (Some j ≠ x) as Hjx. { intros Hx. destruct (sh_running _ _ _ _ H j) as [Hr _]; [done|]. congruence. }
  assert (j ∉ qs) as Hjq. { intros Hq. apply (sh_queued _ _ _ _ H) in Hq. congruence. }
  pose proof (waiting_running _ _ _ _ _ _ H HJ Hjx) as Hjw. rewrite Hidle in Hjw.
  assert (lk m j = p_link J) as Elk by (unfold lk; by rewrite HJ).
  set (d := (unregister_from_deck j (p_link J) (m_deck m)).2). set (m' := set_deck d (set_promises (delete j (m_promises m)) m)).
  assert (∀ p, p ≠ j → m_promises m' !! p = m_promises m !! p) as Hne by (intros p Hp; unfold m'; cbn; by rewrite lookup_delete_ne).
  assert (m_promises m' !! j = None) as Hj' by (unfold m'; cbn; by rewrite lookup_delete_eq).
  assert (∀ p, p ≠ j → running p m' = running p m) as Hrun by (intros p Hp; unfold running; by rewrite Hne).
  assert (∀ p, lk m' p = <[j := no_link]> (lk m) p) as Hlk.
  { intros p. unfold lk at 1. destruct (decide (j = p)) as [<-|Hp]; [by rewrite Hj', fn_lookup_insert|]. rewrite Hne, fn_lookup_insert_ne by done. done. }
  assert (table_ok (lk m') d ∧ ready d = ready (m_deck m) ∧ length (rows d) = length (rows (m_deck m))) as (Htab & Hrd & Hlen).
  { unfold d. rewrite <- Elk. destruct (decide (lk m j = no_link)) as [El|El].
    - rewrite El, unregister_unlinked. split; [|done]. apply (table_ok_ext (lk m) _ (m_deck m)); try done; [apply H|]. intros p. rewrite Hlk, <- El. apply fn_insert_self.
    - destruct (unregister_linked (lk m) (m_deck m) j (sh_table _ _ _ _ H) El) as (i & r & _ & _ & _ & -> & Hok). cbn. rewrite length_insert. split; [|done].
      by apply (table_ok_ext _ _ _ _ Hok). }
  assert (∀ p P, m_promises m !! p = Some P → p ≠ j → Some p ≠ x → j ∉ refs P) as Hrefs.
  { intros p P HP Hpj Hpx Hin. destruct (refs_owner _ _ _ _ _ _ _ H HP Hpx Hin) as (C & q & Q & HC & Ho & HQ & Hd & Hcase). assert (C = J) as -> by congruence.
    destruct (Hown q Q Ho HQ) as [Hqx|Hdone]; [|congruence]. destruct Hcase as [->|(Hr & HoP & _)]; [done|]. by destruct (Hcalm q (eq_sym Hqx) p P HP Hr). }
  split.
  - apply H.
  - done.
  - cbn. rewrite Hlen. apply H.
  - intros p P HP. destruct (decide (p = j)) as [->|Hp]; [congruence|]. rewrite Hne in HP by done. by apply (sh_next _ _ _ _ H p P).
  - cbn [m' m_deck set_deck]. rewrite Hrd, (sh_queue _ _ _ _ H). apply list_fmap_ext. intros i p Hp. rewrite Hlk, fn_lookup_insert_ne; [done|].
    intros <-. apply Hjq. by apply list_elem_of_lookup_2 in Hp.
  - apply H.
  - intros p Hp. rewrite Hrun; [by apply H|]. by intros ->.
  - intros p P HP Hpx. destruct (decide (p = j)) as [->|Hp]; [congruence|]. rewrite Hne in HP by done. pose proof (Hrefs p P HP Hp Hpx) as Hno.
    eapply (frame_same m); [by apply H| |done| |].
    + intros c Hc. apply looks_same, Hne. by intros ->.
    + intros s S jobs Ho _ Hcode HS Hcs. exists S. rewrite Hne; [done|]. intros ->. assert (S = J) as -> by congruence. by rewrite Hcs in Hjw.
    + intros w coin k _ Hw. by exists w.
  - intros c C HC Hr. destruct (decide (c = j)) as [->|Hc]; [congruence|]. rewrite Hrun in Hr by done. rewrite Hne in HC by done.
    eapply (role_same m); [by apply H|done..| |].
    + intros p P Ho HP Hw. exists P. rewrite Hne; [done|]. intros ->. assert (P = J) as -> by congruence. by destruct (p_code J).
    + intros g i G jobs pol gr Ho HG Hw. exists G, gr. rewrite Hne; [done|]. intros ->. assert (G = J) as -> by congruence. by rewrite Hw in Hjw.
  - apply H.
  - intros w coin p Hw Hp. destruct (sh_parked _ _ _ _ H w coin p Hw Hp) as (P & k & HP & Hcode & Hpx). exists P, k. rewrite Hne; [done|].
    intros ->. assert (P = J) as -> by congruence. by rewrite Hcode in Hjw.
  - intros p Hp. destruct (sh_running _ _ _ _ H p Hp) as [Hr Hq]. rewrite Hrun; [done|]. intros ->. congruence.
Qed.

(** What a destruction leaves: nothing new, and calm tasks calm. *)
Record only_deletes (m m' : machine) : Prop := {
  od_promises : ∀ q Q, m_promises m' !! q = Some Q → m_promises m !! q = Some Q;
  od_next : m_next m' = m_next m;
  od_wand : m_wand m' = m_wand m;
}.

#[export] Instance only_deletes_preorder : PreOrder only_deletes.
Proof. split; [by split|]. intros a b c [] []. split; [by eauto|congruence..]. Qed.

Lemma only_deletes_running m m' q : only_deletes m m' → running q m' = true → running q m = true.
Proof. intros H (Q & HQ & HR)%running_some. apply running_some. exists Q. split; [by apply H|done]. Qed.

Lemma only_deletes_calm m m' y : only_deletes m m' → calm y m → calm y m'.
Proof. intros H Hc c C HC Hr. apply (Hc c C); [by apply H|by apply (only_deletes_running m m')]. Qed.

Lemma delete_only m j d : only_deletes m (set_deck d (set_promises (delete j (m_promises m)) m)).
Proof. split; try done. intros q Q HQ. cbn in HQ. by apply lookup_delete_Some in HQ as [_ ?]. Qed.

Lemma elem_held_by p m c : c ∈ held_by p m ↔ ∃ C, m_promises m !! c = Some C ∧ p_owner C = Some p.
Proof.
  unfold held_by. rewrite list_elem_of_fmap. split.
  - intros ([c' C] & -> & [Ho Hin]%list_elem_of_filter). apply elem_of_map_to_list in Hin. by exists C.
  - intros (C & HC & Ho). exists (c, C). split; [done|]. apply list_elem_of_filter. split; [done|]. by apply elem_of_map_to_list.
Qed.

Lemma destroy_only fuel : ∀ p m, only_deletes m (destroy fuel p m).
Proof.
  induction fuel as [|fuel IH]; intros p m; [done|]. cbn [destroy]. destruct (m_promises m !! p) as [P|]; [|done]. destruct (unregister_from_deck _ _ _) as [l d].
  etrans; [apply (delete_only m p d)|]. generalize (held_by p m). generalize (set_deck d (set_promises (delete p (m_promises m)) m)).
  intros m1 l1. revert m1. induction l1 as [|c l1 IHl]; intros m1; [done|]. cbn. etrans; [apply IH|apply IHl].
Qed.

(** What is held by a frame that is gone is not running. *)
Lemma orphan_idle x rest qs m c C p : shape x rest qs m → m_promises m !! p = None → m_promises m !! c = Some C → p_owner C = Some p → running c m = false.
Proof.
  intros H Hp HC Ho. destruct (running c m) eqn:Hr; [|done]. destruct (sh_role _ _ _ _ H c C HC Hr) as [(E & _)|[(q & Q & E & _ & _ & HQ & _)|(s & S & g & G & i & jobs & pol & gr & E & _ & _ & HS & _)]]; congruence.
Qed.

Lemma destroy_shape x rest qs fuel : ∀ p m, shape x rest qs m → (∀ y, x = Some y → calm y m) →
  (∀ P, m_promises m !! p = Some P → running p m = false ∧ ∀ q Q, p_owner P = Some q → m_promises m !! q = Some Q → Some q = x ∨ code_done (p_code Q) = true) →
  shape x rest qs (destroy fuel p m).
Proof.
  induction fuel as [|fuel IH]; intros p m H Hcalm Hp; [done|]. cbn [destroy]. destruct (m_promises m !! p) as [P|] eqn:HP; [|done].
  destruct (Hp P eq_refl) as [Hidle Hown]. pose proof (delete_shape x rest qs m p P H Hcalm HP Hidle Hown) as H1.
  destruct (unregister_from_deck p (p_link P) (m_deck m)) as [l d]. cbn [snd] in H1. pose proof (delete_only m p d) as Hd.
  assert (∀ c C, c ∈ held_by p m → m_promises (set_deck d (set_promises (delete p (m_promises m)) m)) !! c = Some C → p_owner C = Some p) as Hheld.
  { intros c C (C' & HC' & Ho)%elem_held_by HC. apply Hd in HC. congruence. }
  assert (m_promises (set_deck d (set_promises (delete p (m_promises m)) m)) !! p = None) as Hgone by (cbn; by rewrite lookup_delete_eq).
  assert (∀ y, x = Some y → calm y (set_deck d (set_promises (delete p (m_promises m)) m))) as Hcalm1 by (intros y Hy; eapply only_deletes_calm; [exact Hd|by apply Hcalm]).
  clear Hd. revert H1 Hheld Hgone Hcalm1. generalize (held_by p m). generalize (set_deck d (set_promises (delete p (m_promises m)) m)). clear - IH.
  intros m1 l1. revert m1. induction l1 as [|c l1 IHl]; intros m1 H1 Hheld Hgone Hcalm1; [done|]. cbn. pose proof (destroy_only fuel c m1) as Hd. apply IHl.
  - apply IH; [done|done|]. intros C HC. pose proof (Hheld c C ltac:(by left) HC) as Ho. split; [by eapply orphan_idle|]. intros q Q Hq HQ. congruence.
  - intros c' C' Hin HC'. apply Hd in HC'. by apply (Hheld c'); [right|].
  - destruct (m_promises (destroy fuel c m1) !! p) as [P'|] eqn:E; [|done]. apply Hd in E. congruence.
  - intros y Hy. eapply only_deletes_calm; [exact Hd|by apply Hcalm1].
Qed.

(** ** One step of the running task *)

(** The step changes the frames [D]. What is left to show is how those that stay see them. *)
Lemma step_shape_to x y rest qs qs' m m' (D : list nat) : shape x rest qs m →
  (∀ p, p ∉ D → m_promises m' !! p = m_promises m !! p) →
  m_crash m' = false → table_ok (lk m') (m_deck m') → length (rows (m_deck m')) = length (rows (m_deck m)) →
  (∀ p P, m_promises m' !! p = Some P → p < m_next m') →
  rest ++ ready (m_deck m') = (λ p, l_id (lk m' p)) <$> qs' → NoDup qs' → (∀ p, p ∈ qs' → running p m' = true) →
  (∀ p, x = Some p → p ∈ D) →
  (∀ p, y = Some p → p ∈ D ∧ running p m' = true ∧ p ∉ qs') →
  (∀ p P, p ∈ D → m_promises m' !! p = Some P → (Some p ≠ y → frame_ok m' qs' p P) ∧ (running p m' = true → role m' p P)) →
  (∀ p, p ∉ D → is_Some (m_promises m !! p) → (p ∈ qs' ↔ p ∈ qs)) →
  (∀ p P c, p ∉ D → m_promises m !! p = Some P → c ∈ refs P → c ∈ D → looks m m' c) →
  (∀ p P s S, p ∉ D → m_promises m !! p = Some P → running p m = true → p_owner P = Some s → s ∈ D → m_promises m !! s = Some S → waits_for (p_code S) ≠ None →
    ∃ S', m_promises m' !! s = Some S' ∧ p_code S' = p_code S) →
  (∀ c C g i G jobs pol gr, c ∉ D → m_promises m !! c = Some C → running c m = true → p_completion C = Some (g, i) → g ∈ D → m_promises m !! g = Some G →
    p_code G = GroupWait jobs pol gr → ∃ G' gr', m_promises m' !! g = Some G' ∧ p_code G' = GroupWait jobs pol gr') →
  (∀ w coin, m_wand m' = Some w → coins w ≤ coin → parked w !! coin = None ∧ settled w !! coin = None) →
  (∀ w coin p, m_wand m' = Some w → parked w !! coin = Some p → ∃ P k, m_promises m' !! p = Some P ∧ p_code P = Wishing coin k ∧ Some p ≠ y) →
  (∀ p P coin k w, p ∉ D → m_promises m !! p = Some P → p_code P = Wishing coin k → m_wand m = Some w →
    ∃ w', m_wand m' = Some w' ∧ parked w' !! coin = parked w !! coin ∧ settled w' !! coin = settled w !! coin) →
  shape y rest qs' m'.
Proof.
  intros H Heq Hcr Htab Hlen Hnext Hqueue Hnd Hqd HxD Hy HD Hq Hlooks Howner Hgroup Hcoins Hpark Hwand.
  assert (∀ p P, m_promises m !! p = Some P → p ∉ D → Some p ≠ x) as Hpx by (intros p P _ Hp Hx; by apply Hp, HxD).
  split; try done.
  - rewrite Hlen. apply H.
  - intros p P' HP' Hpy. destruct (decide (p ∈ D)) as [Hin|Hin]; [by apply (HD p P')|]. rewrite Heq in HP' by done.
    pose proof (sh_frame _ _ _ _ H p P' HP' (Hpx p P' HP' Hin)) as HF. eapply (frame_same m); [exact HF| |apply Hq; [done|by eexists]| |].
    + intros c Hc. destruct (decide (c ∈ D)) as [HcD|HcD]; [by apply (Hlooks p P')|by apply looks_same, Heq].
    + intros s S jobs Ho HL Hc HS Hcs. destruct (decide (s ∈ D)) as [Hs|Hs]; [|exists S; by rewrite Heq].
      apply (Howner p P' s S); try done; [|by rewrite Hcs]. apply running_some. exists P'. split_and!; try done. by destruct (p_code P').
    + intros w coin k Hc Hw. by apply (Hwand p P' coin k w).
  - intros c C' HC' Hr. destruct (decide (c ∈ D)) as [Hin|Hin]; [by apply (HD c C')|]. rewrite Heq in HC' by done.
    assert (running c m = true) as Hr' by (unfold running in *; by rewrite Heq in Hr).
    eapply (role_same m); [by apply H|done..| |].
    + intros p P Ho HP Hw. destruct (decide (p ∈ D)) as [Hp|Hp]; [by apply (Howner c C' p P)|exists P; by rewrite Heq].
    + intros g i G jobs pol gr Ho HG Hw. destruct (decide (g ∈ D)) as [Hg|Hg]; [by apply (Hgroup c C' g i G jobs pol gr)|exists G, gr; by rewrite Heq].
  - intros p Hp. by destruct (Hy p Hp) as (_ & ? & ?).
Qed.

Lemma step_shape x rest qs qs' m m' (D : list nat) : shape x rest qs m →
  (∀ p, p ∉ D → m_promises m' !! p = m_promises m !! p) →
  m_crash m' = false → table_ok (lk m') (m_deck m') → length (rows (m_deck m')) = length (rows (m_deck m)) →
  (∀ p P, m_promises m' !! p = Some P → p < m_next m') →
  rest ++ ready (m_deck m') = (λ p, l_id (lk m' p)) <$> qs' → NoDup qs' → (∀ p, p ∈ qs' → running p m' = true) →
  (∀ p, x = Some p → p ∈ D) →
  (∀ p P, p ∈ D → m_promises m' !! p = Some P → frame_ok m' qs' p P ∧ (running p m' = true → role m' p P)) →
  (∀ p, p ∉ D → is_Some (m_promises m !! p) → (p ∈ qs' ↔ p ∈ qs)) →
  (∀ p P c, p ∉ D → m_promises m !! p = Some P → c ∈ refs P → c ∈ D → looks m m' c) →
  (∀ p P s S, p ∉ D → m_promises m !! p = Some P → running p m = true → p_owner P = Some s → s ∈ D → m_promises m !! s = Some S → waits_for (p_code S) ≠ None →
    ∃ S', m_promises m' !! s = Some S' ∧ p_code S' = p_code S) →
  (∀ c C g i G jobs pol gr, c ∉ D → m_promises m !! c = Some C → running c m = true → p_completion C = Some (g, i) → g ∈ D → m_promises m !! g = Some G →
    p_code G = GroupWait jobs pol gr → ∃ G' gr', m_promises m' !! g = Some G' ∧ p_code G' = GroupWait jobs pol gr') →
  (∀ w coin, m_wand m' = Some w → coins w ≤ coin → parked w !! coin = None ∧ settled w !! coin = None) →
  (∀ w coin p, m_wand m' = Some w → parked w !! coin = Some p → ∃ P k, m_promises m' !! p = Some P ∧ p_code P = Wishing coin k) →
  (∀ p P coin k w, p ∉ D → m_promises m !! p = Some P → p_code P = Wishing coin k → m_wand m = Some w →
    ∃ w', m_wand m' = Some w' ∧ parked w' !! coin = parked w !! coin ∧ settled w' !! coin = settled w !! coin) →
  shape None rest qs' m'.
Proof.
  intros H ? ? ? ? ? ? ? ? ? HD ? ? ? ? ? Hpark ?. eapply (step_shape_to x None rest qs qs' m m' D); try done.
  - intros p P Hp HP. destruct (HD p P Hp HP). by split.
  - intros w coin p Hw Hp. destruct (Hpark w coin p Hw Hp) as (P & k & ? & ?). by exists P, k.
Qed.

(** *** A new frame *)

Lemma fresh_lookup x rest qs m p : shape x rest qs m → m_next m ≤ p → m_promises m !! p = None.
Proof. intros H Hp. destruct (m_promises m !! p) as [P|] eqn:E; [|done]. pose proof (sh_next _ _ _ _ H p P E). lia. Qed.

Lemma add_shape x rest qs m c e o : shape x rest qs m →
  let m' := (new_task c e o m).2 in
  match c with
  | Body _ | GroupStart _ _ => True
  | SettleStart jobs _ => jobs_of m (m_next m) jobs ∧ Forall (unstarted m) jobs
  | _ => False
  end →
  shape x rest qs m' ∧ ∀ y, calm y m → calm y m'.
Proof.
  intros H m' Hc. set (n := m_next m) in *. set (N := MkPromise no_link None None None None false e o c).
  assert (m_promises m !! n = None) as Hn by (by eapply fresh_lookup).
  assert (m_promises m' !! n = Some N) as HN by (cbn; by rewrite lookup_insert_eq).
  assert (∀ p, p ≠ n → m_promises m' !! p = m_promises m !! p) as Hne by (intros p Hp; cbn; by rewrite lookup_insert_ne).
  assert (∀ p, running p m' = running p m) as Hrun.
  { intros p. unfold running. destruct (decide (p = n)) as [->|Hp]; [by rewrite HN, Hn|by rewrite Hne]. }
  assert (∀ p, lk m' p = lk m p) as Hlk. { intros p. unfold lk. destruct (decide (p = n)) as [->|Hp]; [by rewrite HN, Hn|by rewrite Hne]. }
  assert (∀ p P, m_promises m !! p = Some P → m_promises m' !! p = Some P) as Hkeep by (intros p P HP; rewrite Hne; [done|congruence]).
  split; [|intros y Hcalm p P HP Hr; rewrite Hrun in Hr; destruct (decide (p = n)) as [->|Hp]; [|rewrite Hne in HP by done; by apply (Hcalm p P)];
    apply running_some in Hr as (P' & ? & _); congruence].
  split; try apply H.
  - apply (table_ok_ext (lk m) _ (m_deck m)); try done. apply H.
  - intros p P HP. cbn. destruct (decide (p = n)) as [->|Hp]; [lia|]. rewrite Hne in HP by done. pose proof (sh_next _ _ _ _ H p P HP). lia.
  - cbn. rewrite (sh_queue _ _ _ _ H). apply list_fmap_ext. intros i p _. by rewrite Hlk.
  - intros p Hp. rewrite Hrun. by apply H.
  - intros p P HP Hpx. destruct (decide (p = n)) as [->|Hp].
    + assert (P = N) as -> by congruence. unfold frame_ok, N. cbn [p_code]. destruct c as [| | |jobs pol| | | |]; try done. destruct Hc as [[Hnd Hj] Hu].
      split; [done|]. split; [split; [done|intros j Hin; destruct (Hj j Hin) as (J & HJ & Ho); exists J; split; [by apply Hkeep|done]]|].
      eapply Forall_impl; [exact Hu|]. intros j (J & HJ & Hu'). exists J. split; [by apply Hkeep|done].
    + rewrite Hne in HP by done. eapply (frame_same m); [by apply H| |done| |intros w coin k _ Hw; by exists w].
      * intros q _ Q HQ. exists Q. split; [by apply Hkeep|apply alike_refl].
      * intros s S jobs _ _ _ HS _. exists S. split; [by apply Hkeep|done].
  - intros p P HP Hr. rewrite Hrun in Hr. destruct (decide (p = n)) as [->|Hp]; [apply running_some in Hr as (P' & ? & _); congruence|]. rewrite Hne in HP by done.
    eapply (role_same m); [by apply H|done..| |]; [intros q Q _ HQ _; exists Q; split; [by apply Hkeep|done]|].
    intros g i G jobs pol gr _ HG Hg. exists G, gr. split; [by apply Hkeep|done].
  - intros w coin p Hw Hp. destruct (sh_parked _ _ _ _ H w coin p Hw Hp) as (P & k & HP & ?). exists P, k. split; [by apply Hkeep|done].
  - intros p Hp. rewrite Hrun. by apply H.
Qed.

(** *** The running task suspends *)

Lemma elem_snoc_ne (p q : nat) qs : p ≠ q → p ∈ qs ++ [q] ↔ p ∈ qs.
Proof. intros Hne. rewrite elem_of_app, list_elem_of_singleton. split; [by intros [?| ->]|by left]. Qed.

Lemma elem_snoc (q : nat) qs : q ∈ qs ++ [q].
Proof. apply elem_of_app. right. by left. Qed.

Lemma NoDup_snoc (q : nat) qs : q ∉ qs → NoDup qs → NoDup (qs ++ [q]).
Proof. intros Hq Hn. apply NoDup_app. split; [done|]. split; [|apply NoDup_singleton]. intros p Hp Hx%list_elem_of_singleton. by subst. Qed.

(** The fields of the running task that its role depends on. *)
Lemma running_role x rest qs m X : shape (Some x) rest qs m → m_promises m !! x = Some X → linked X ∧ code_done (p_code X) = false ∧ role m x X ∧ x ∉ qs.
Proof.
  intros H HX. destruct (sh_running _ _ _ _ H x eq_refl) as [Hr Hq]. pose proof (sh_role _ _ _ _ H x X HX Hr) as HR.
  apply running_some in Hr as (X' & HX' & Hl & Hd). by simplify_eq.
Qed.

(** Only the frame of [x] changes, and it stays unfinished. Nothing it holds runs, and what it
    is the group of stays so. *)
Lemma step_self_to x y rest qs qs' m m' X X' : shape (Some x) rest qs m → m_promises m !! x = Some X →
  (∀ c C, m_promises m !! c = Some C → running c m = true → p_owner C ≠ Some x) →
  (∀ c C i jobs pol gr, m_promises m !! c = Some C → running c m = true → p_completion C = Some (x, i) → p_code X = GroupWait jobs pol gr → ∃ gr', p_code X' = GroupWait jobs pol gr') →
  alike X X' → p_completion X' = p_completion X →
  m_promises m' = <[x := X']> (m_promises m) → m_crash m' = m_crash m → rows (m_deck m') = rows (m_deck m) → name (m_deck m') = name (m_deck m) → m_next m' = m_next m →
  rest ++ ready (m_deck m') = (λ p, l_id (lk m p)) <$> qs' → NoDup qs' → (∀ p, p ∈ qs' → running p m = true) → (∀ p, p ≠ x → (p ∈ qs' ↔ p ∈ qs)) →
  match y with None => frame_ok m' qs' x X' | Some p => p = x ∧ x ∉ qs' end →
  (∀ w coin, m_wand m' = Some w → coins w ≤ coin → parked w !! coin = None ∧ settled w !! coin = None) →
  (∀ w coin p, m_wand m' = Some w → parked w !! coin = Some p → ∃ P k, m_promises m' !! p = Some P ∧ p_code P = Wishing coin k ∧ Some p ≠ y) →
  (∀ p P coin k w, p ≠ x → m_promises m !! p = Some P → p_code P = Wishing coin k → m_wand m = Some w →
    ∃ w', m_wand m' = Some w' ∧ parked w' !! coin = parked w !! coin ∧ settled w' !! coin = settled w !! coin) →
  shape y rest qs' m'.
Proof.
  intros H HX Hown Hgrp Hal Hcompl Hm' Hcr Hrows Hname Hnext Hq Hnd Hqd Hsame HF Hcoins Hpark Hwand.
  destruct (running_role x rest qs m X H HX) as (Hl & Hd & HR & Hxq). assert (running x m = true) as Hxr by (apply running_some; by exists X).
  assert (∀ p, p ≠ x → m_promises m' !! p = m_promises m !! p) as Hne by (intros p Hp; rewrite Hm'; by rewrite lookup_insert_ne).
  assert (m_promises m' !! x = Some X') as HX' by (rewrite Hm'; by rewrite lookup_insert_eq).
  assert (∀ p, lk m' p = lk m p) as Hlk.
  { intros p. unfold lk. destruct (decide (p = x)) as [->|Hp]; [by rewrite HX', HX, (al_link _ _ Hal)|by rewrite Hne]. }
  assert (∀ p, running p m' = running p m) as Hrun.
  { intros p. unfold running. destruct (decide (p = x)) as [->|Hp]; [by rewrite HX', HX, (al_link _ _ Hal), (al_done _ _ Hal)|by rewrite Hne]. }
  assert (∀ c C g i G jobs pol gr, m_promises m !! c = Some C → running c m = true → p_completion C = Some (g, i) → m_promises m !! g = Some G → p_code G = GroupWait jobs pol gr →
    ∃ G' gr', m_promises m' !! g = Some G' ∧ p_code G' = GroupWait jobs pol gr') as Hform.
  { intros c C g i G jobs pol gr HC Hr Hg HG Hc. destruct (decide (g = x)) as [->|Hgx]; [|exists G, gr; by rewrite Hne]. assert (G = X) as -> by congruence.
    destruct (Hgrp c C i jobs pol gr HC Hr Hg Hc) as [gr' Hgr']. by exists X', gr'. }
  eapply (step_shape_to (Some x) y rest qs qs' m m' [x]); try done; try setoid_rewrite list_elem_of_singleton; try done.
  - rewrite Hcr. apply H.
  - apply (table_ok_ext (lk m) _ (m_deck m)); try done. apply H.
  - by rewrite Hrows.
  - intros p P HP. rewrite Hnext. destruct (decide (p = x)) as [->|Hp]; [by apply (sh_next _ _ _ _ H x X)|]. rewrite Hne in HP by done. by apply (sh_next _ _ _ _ H p P).
  - rewrite Hq. apply list_fmap_ext. intros i p _. by rewrite Hlk.
  - intros p Hp. rewrite Hrun. by apply Hqd.
  - by intros p [= ->].
  - intros p ->. destruct HF as [-> ?]. by rewrite Hrun.
  - intros p P -> HP. assert (P = X') as -> by congruence. split; [by destruct y as [y|]; [destruct HF as [-> _]|]|]. intros _. eapply (role_same m); [exact HR|apply Hal|apply Hal|done| |].
    + intros q Q Ho HQ _. exists Q. rewrite Hne; [done|]. intros ->. by apply (Hown x X).
    + intros g i G jobs pol gr Ho HG Hc. by apply (Hform x X g i G jobs pol gr).
  - intros p Hp _. by apply Hsame.
  - intros p P c _ _ _ -> C HC. assert (C = X) as -> by congruence. by exists X'.
  - intros p P s S Hp HP Hr Ho -> _ _. by destruct (Hown p P HP Hr).
  - intros c C g i G jobs pol gr Hc HC Hr Ho _ HG Hcg. by apply (Hform c C g i G jobs pol gr).
Qed.

Lemma step_self x rest qs qs' m m' X X' : shape (Some x) rest qs m → calm x m → m_promises m !! x = Some X → alike X X' → p_completion X' = p_completion X →
  m_promises m' = <[x := X']> (m_promises m) → m_crash m' = m_crash m → rows (m_deck m') = rows (m_deck m) → name (m_deck m') = name (m_deck m) → m_next m' = m_next m →
  rest ++ ready (m_deck m') = (λ p, l_id (lk m p)) <$> qs' → NoDup qs' → (∀ p, p ∈ qs' → running p m = true) → (∀ p, p ≠ x → (p ∈ qs' ↔ p ∈ qs)) →
  frame_ok m' qs' x X' →
  (∀ w coin, m_wand m' = Some w → coins w ≤ coin → parked w !! coin = None ∧ settled w !! coin = None) →
  (∀ w coin p, m_wand m' = Some w → parked w !! coin = Some p → ∃ P k, m_promises m' !! p = Some P ∧ p_code P = Wishing coin k) →
  (∀ p P coin k w, p ≠ x → m_promises m !! p = Some P → p_code P = Wishing coin k → m_wand m = Some w →
    ∃ w', m_wand m' = Some w' ∧ parked w' !! coin = parked w !! coin ∧ settled w' !! coin = settled w !! coin) →
  shape None rest qs' m'.
Proof.
  intros H Hcalm HX Hal Hcompl ? ? ? ? ? ? ? ? ? ? ? Hpark ?. eapply (step_self_to x None rest qs qs' m m' X X'); try done.
  - intros c C HC Hr. by apply (Hcalm c C).
  - intros c C i jobs pol gr HC Hr Hc _. destruct (Hcalm c C HC Hr) as [_ Hi]. by destruct (Hi i).
  - intros w coin p Hw Hp. destruct (Hpark w coin p Hw Hp) as (P & k & ? & ?). by exists P, k.
Qed.

Lemma queue_app m rest qs p P : rest ++ ready (m_deck m) = (λ p, l_id (lk m p)) <$> qs → m_promises m !! p = Some P →
  rest ++ (ready (m_deck m) ++ [l_id (p_link P)]) = (λ p, l_id (lk m p)) <$> (qs ++ [p]).
Proof.
  intros Hq HP. rewrite app_assoc, Hq, fmap_app. cbn. unfold lk at 3. by rewrite HP.
Qed.

Lemma yield_shape x rest qs m X q : shape (Some x) rest qs m → calm x m → m_promises m !! x = Some X → kind (p_code X) = None →
  ∃ m', enqueue_task x (upd x (set_code (Body q)) m) = (Ret tt, m') ∧ shape None rest (qs ++ [x]) m'.
Proof.
  intros H Hcalm HX Hk. destruct (running_role x rest qs m X H HX) as (Hl & Hd & HR & Hxq). set (m1 := upd x (set_code (Body q)) m).
  assert (m_promises m1 !! x = Some (set_code (Body q) X)) as HX1 by (by apply upd_eq).
  assert (table_ok (lk m1) (m_deck m1)) as Htab.
  { apply (table_ok_ext (lk m) _ (m_deck m)); try done; [apply H|]. intros p. unfold m1. rewrite (lk_upd m x _ X HX). destruct (decide (x = p)) as [<-|]; [|done]. unfold lk. by rewrite HX. }
  rewrite (enqueue_linked_task m1 x _ Htab HX1 Hl). eexists. split; [done|].
  eapply (step_self x rest qs _ m _ X (set_code (Body q) X)); try done; cbn [set_deck m_deck m_promises m_wand].
  - unfold m1, upd. cbn. apply map_eq. intros p. destruct (decide (p = x)) as [->|Hp]; [by rewrite lookup_alter_eq, HX, lookup_insert_eq|by rewrite lookup_alter_ne, lookup_insert_ne].
  - by apply (queue_app m rest qs x X (sh_queue _ _ _ _ H)).
  - apply NoDup_snoc; [done|apply H].
  - intros p [Hp|Hp%list_elem_of_singleton]%elem_of_app; [by apply H|subst p]. apply running_some. by exists X.
  - intros p Hp. by apply elem_snoc_ne.
  - unfold frame_ok. cbn. intros _. apply elem_of_app. right. by left.
  - apply H.
  - intros w coin p Hw Hp. destruct (sh_parked _ _ _ _ H w coin p Hw Hp) as (P & k & HP & Hc & Hpx). exists P, k. split; [|done]. unfold m1. rewrite upd_ne; [done|congruence].
  - intros p P coin k w _ _ _ Hw. by exists w.
Qed.

Lemma upd_insert x f m X : m_promises m !! x = Some X → m_promises (upd x f m) = <[x := f X]> (m_promises m).
Proof.
  intros HX. unfold upd. cbn. apply map_eq. intros p.
  destruct (decide (p = x)) as [->|Hp]; [by rewrite lookup_alter_eq, HX, lookup_insert_eq|by rewrite lookup_alter_ne, lookup_insert_ne].
Qed.

(** The task parks under a fresh coin. *)
Lemma park_shape x rest qs m X k w : shape (Some x) rest qs m → calm x m → m_promises m !! x = Some X → kind (p_code X) = None → m_wand m = Some w →
  shape None rest qs (upd x (λ P, set_waits (Some (coins w)) (set_code (Wishing (coins w) k) P))
    (set_wand (Some (MkWand (<[coins w := x]> (parked w)) (settled w) (cancelled w) (submitted w) (S (coins w)))) m)).
Proof.
  intros H Hcalm HX Hk Hw. destruct (running_role x rest qs m X H HX) as (Hl & Hd & HR & Hxq). destruct (sh_coins _ _ _ _ H w (coins w) Hw ltac:(lia)) as [Hp0 Hs0].
  eapply (step_self x rest qs qs m _ X); [done..| | | |done|done|done|done|apply H|apply H|apply H|done| | | |].
  - instantiate (1 := set_waits (Some (coins w)) (set_code (Wishing (coins w) k) X)). by split.
  - done.
  - by rewrite (upd_insert x _ _ X).
  - unfold frame_ok. cbn. split; [done|]. eexists. split; [done|]. left. cbn. by rewrite lookup_insert_eq.
  - intros w' coin [= <-] Hc. cbn in *. destruct (sh_coins _ _ _ _ H w coin Hw ltac:(lia)) as [? ?]. rewrite lookup_insert_ne by lia. done.
  - intros w' coin p [= <-] Hp. cbn [parked] in Hp. apply lookup_insert_Some in Hp as [[<- <-]|[Hne Hp]].
    + eexists _, k. split; [by apply upd_eq|done].
    + destruct (sh_parked _ _ _ _ H w coin p Hw Hp) as (P & k' & HP & Hc & Hpx). exists P, k'. split; [|done]. rewrite upd_ne; [done|congruence].
  - intros p P coin k' w' Hp HP Hc Hw'. assert (w' = w) as -> by congruence. eexists. split; [done|]. cbn. split; [|done]. rewrite lookup_insert_ne; [done|].
    intros <-. pose proof (sh_frame _ _ _ _ H p P HP ltac:(congruence)) as HF. unfold frame_ok in HF. rewrite Hc in HF. destruct HF as (_ & w1 & Hw1 & HF). assert (w1 = w) as -> by congruence.
    rewrite Hp0, Hs0 in HF. destruct HF as [[? _]|(_ & [? ?] & _)]; congruence.
Qed.

(** A task that does not run waits for nothing. *)
Lemma idle_code x rest qs m c C : shape x rest qs m → m_promises m !! c = Some C → running c m = false →
  waits_for (p_code C) = None ∧ (∀ jobs pol gr, p_code C ≠ GroupWait jobs pol gr) ∧ ∀ coin k, p_code C ≠ Wishing coin k.
Proof.
  intros H HC Hr. assert (Some c ≠ x) as Hx. { intros <-. destruct (sh_running _ _ _ _ H c eq_refl). congruence. }
  pose proof (waiting_running _ _ _ _ _ _ H HC Hx) as Hw. rewrite Hr in Hw. by destruct (p_code C).
Qed.

Lemma elem_pair (p a b : nat) : p ∈ [a; b] → p = a ∨ p = b.
Proof. intros [->|Hb%list_elem_of_singleton]%elem_of_cons; [by left|by right]. Qed.

(** The task waits for a frame of its own that gets a row. *)
Lemma await_shape x rest qs m m' c X X' C C' : shape (Some x) rest qs m → calm x m →
  m_promises m !! x = Some X → m_promises m !! c = Some C → p_link C = no_link → p_owner C = Some x → p_completion C = None →
  (∀ p, p ≠ x → p ≠ c → m_promises m' !! p = m_promises m !! p) → m_promises m' !! x = Some X' → m_promises m' !! c = Some C' →
  p_link X' = p_link X → p_cont X' = p_cont X → p_owner X' = p_owner X → p_completion X' = p_completion X → kind (p_code X) = None → waits_for (p_code X') = Some c →
  linked C' → p_cont C' = Some x → p_owner C' = Some x → p_completion C' = None → p_code C' = p_code C → code_done (p_code C) = false →
  m_crash m' = m_crash m → m_next m' = m_next m → m_wand m' = m_wand m →
  ready (m_deck m') = ready (m_deck m) ++ [l_id (p_link C')] → length (rows (m_deck m')) = length (rows (m_deck m)) → table_ok (<[c := p_link C']> (lk m)) (m_deck m') →
  frame_ok m' (qs ++ [c]) x X' → frame_ok m' (qs ++ [c]) c C' →
  shape None rest (qs ++ [c]) m'.
Proof.
  intros H Hcalm HX HC Hlc Hoc Hcc Hne HX' HC' E1 E2 E3 E4 Hkind Hw Hl' Hcont' Howner' Hcompl' Hcode' Hnd Hcr Hnext Hwand Hready Hrows Htab HFx HFc.
  destruct (running_role x rest qs m X H HX) as (Hl & Hd & HR & Hxq).
  assert (running c m = false) as Hrc. { destruct (running c m) eqn:E; [|done]. apply running_some in E as (? & ? & HL & _). simplify_eq. unfold linked in HL. by rewrite Hlc in HL. }
  assert (c ≠ x) as Hcx. { intros ->. assert (C = X) as -> by congruence. unfold linked in Hl. by rewrite Hlc in Hl. }
  assert (c ∉ qs) as Hcq. { intros Hq. apply (sh_queued _ _ _ _ H) in Hq. congruence. }
  assert (code_done (p_code X') = false) as Hd' by (by destruct (p_code X')).
  assert (∀ p, lk m' p = <[c := p_link C']> (lk m) p) as Hlk.
  { intros p. unfold lk at 1. destruct (decide (c = p)) as [<-|Hpc]; [by rewrite HC', fn_lookup_insert|]. rewrite fn_lookup_insert_ne by done. unfold lk.
    destruct (decide (p = x)) as [->|Hpx]; [by rewrite HX', HX|by rewrite Hne]. }
  assert (∀ p, p ≠ c → running p m' = running p m) as Hrun.
  { intros p Hpc. unfold running. destruct (decide (p = x)) as [->|Hpx]; [by rewrite HX', HX, E1, Hd, Hd'|by rewrite Hne]. }
  assert (alike X X') as Hal. { split; try done; [by rewrite E4|by rewrite Hd|by destruct (p_code X'); simplify_eq/=|by destruct (p_code X'); simplify_eq/=]. }
  destruct (idle_code _ _ _ _ _ _ H HC Hrc) as (Hi1 & Hi2 & Hi3).
  assert (∀ p P, p ≠ x → m_promises m !! p = Some P → c ∉ refs P) as Hnoref.
  { intros p P Hpx HP Hin. destruct (refs_owner _ _ _ _ _ _ _ H HP ltac:(congruence) Hin) as (C1 & q & Q & HC1 & Ho & _ & _ & Hcase). assert (C1 = C) as -> by congruence.
    assert (q = x) as -> by congruence. destruct Hcase as [->|(Hr & HoP & _)]; [done|]. by destruct (Hcalm p P HP Hr). }
  eapply (step_shape (Some x) rest qs _ m m' [x; c]); [done|..].
  - intros p Hp. apply Hne; intros ->; apply Hp; [by left|by right; left].
  - rewrite Hcr. apply H.
  - by apply (table_ok_ext _ _ _ _ Htab).
  - done.
  - intros p P HP. rewrite Hnext. destruct (decide (p = x)) as [->|Hpx]; [by apply (sh_next _ _ _ _ H x X)|]. destruct (decide (p = c)) as [->|Hpc]; [by apply (sh_next _ _ _ _ H c C)|].
    rewrite Hne in HP by done. by apply (sh_next _ _ _ _ H p P).
  - rewrite Hready, app_assoc, (sh_queue _ _ _ _ H), fmap_app. cbn. rewrite Hlk, fn_lookup_insert. f_equal. apply list_fmap_ext. intros i p Hp. rewrite Hlk, fn_lookup_insert_ne; [done|].
    intros <-. apply Hcq. by apply list_elem_of_lookup_2 in Hp.
  - apply NoDup_snoc; [done|apply H].
  - intros p [Hp|Hp%list_elem_of_singleton]%elem_of_app; [rewrite Hrun; [by apply H|by intros ->]|subst p]. apply running_some. exists C'. by rewrite Hcode'.
  - intros p [= ->]. by left.
  - intros p P Hp HP. apply elem_pair in Hp as [->| ->].
    + assert (P = X') as -> by congruence. split; [done|]. intros _. eapply (role_same m); [exact HR|done..| |].
      * intros q Q Ho HQ Hq. exists Q. assert (q ≠ x). { intros ->. destruct (Hcalm x X HX) as [? _]; [|done]. apply running_some. by exists X. }
        assert (q ≠ c) by (intros ->; congruence). by rewrite Hne.
      * intros g i G jobs pol gr Ho HG Hcg. exists G, gr. assert (g ≠ x). { intros ->. assert (G = X) as -> by congruence. by rewrite Hcg in Hkind. }
        assert (g ≠ c) by (intros ->; congruence). by rewrite Hne.
    + assert (P = C') as -> by congruence. split; [done|]. intros _. right. left. exists x, X'. by split_and!.
  - intros p Hp _. apply elem_snoc_ne. intros ->. apply Hp. by right; left.
  - intros p P q Hp HP Hin Hq. apply elem_pair in Hq as [->| ->].
    + intros C1 HC1. assert (C1 = X) as -> by congruence. by exists X'.
    + destruct (Hnoref p P); [|done|done]. intros ->. apply Hp. by left.
  - intros p P s S Hp HP Hr Ho Hs HS Hws. apply elem_pair in Hs as [->| ->]; [by destruct (Hcalm p P HP Hr) as [? _]|]. congruence.
  - intros q Q g i G jobs pol gr Hq HQ Hr Ho Hg HG Hcg. apply elem_pair in Hg as [->| ->]; [by destruct (Hcalm q Q HQ Hr) as [_ Hi]; destruct (Hi i)|]. congruence.
  - rewrite Hwand. apply H.
  - intros w coin p Hmw Hp. rewrite Hwand in Hmw. destruct (sh_parked _ _ _ _ H w coin p Hmw Hp) as (P & k & HP & Hc & Hpx). exists P, k. split; [|done]. rewrite Hne; [done|congruence|intros ->; congruence].
  - intros p P coin k w _ _ _ Hmw. rewrite Hwand. by exists w.
Qed.

(** *** The running task ends *)

(** The frame of a task that ended. *)
Definition ended (o : outcome) (X : promise) : promise := set_completion None (set_code (Done o) X).

Lemma ended_running m m' x X o : m_promises m' !! x = Some (ended o X) → (∀ p, p ≠ x → running p m' = running p m) →
  running x m' = false ∧ ∀ p, running p m' = true → p ≠ x ∧ running p m = true.
Proof.
  intros HX Hrun. assert (running x m' = false) as Hx by (unfold running; rewrite HX; cbn; by rewrite andb_false_r).
  split; [done|]. intros p Hp. assert (p ≠ x) by (intros ->; congruence). split; [done|]. by rewrite <- Hrun.
Qed.

(** A root: nobody is told. *)
Lemma end_root x rest qs m X o : shape (Some x) rest qs m → calm x m → m_promises m !! x = Some X → p_owner X = None →
  shape None rest qs (upd x (ended o) m).
Proof.
  intros H Hcalm HX Ho. destruct (running_role x rest qs m X H HX) as (Hl & Hd & HR & Hxq). set (m' := upd x (ended o) m).
  assert (m_promises m' !! x = Some (ended o X)) as HX' by (by apply upd_eq).
  assert (∀ p, p ≠ x → m_promises m' !! p = m_promises m !! p) as Hne by (intros p Hp; by apply upd_ne).
  assert (∀ p, p ≠ x → running p m' = running p m) as Hrun by (intros p Hp; unfold running; by rewrite Hne).
  destruct (ended_running m m' x X o HX' Hrun) as [Hx' _].
  assert (∀ p, lk m' p = lk m p) as Hlk. { intros p. unfold m'. rewrite (lk_upd m x _ X HX). destruct (decide (x = p)) as [<-|]; [|done]. unfold lk. by rewrite HX. }
  eapply (step_shape (Some x) rest qs qs m m' [x]); try done; try setoid_rewrite list_elem_of_singleton; try done; try apply H.
  - apply (table_ok_ext (lk m) _ (m_deck m)); try done. apply H.
  - intros p P HP. destruct (decide (p = x)) as [->|Hp]; [by apply (sh_next _ _ _ _ H x X)|]. rewrite Hne in HP by done. by apply (sh_next _ _ _ _ H p P).
  - cbn. rewrite (sh_queue _ _ _ _ H). apply list_fmap_ext. intros i p _. by rewrite Hlk.
  - intros p Hp. rewrite Hrun; [by apply H|by intros ->].
  - by intros p [= ->].
  - intros p P -> HP. assert (P = ended o X) as -> by congruence. split; [done|]. congruence.
  - intros p P c Hp HP Hin ->. destruct (refs_owner _ _ _ _ _ _ _ H HP ltac:(congruence) Hin) as (C1 & q & Q & HC1 & Ho' & _). congruence.
  - intros p P s S Hp HP Hr Ho' -> _ _. by destruct (Hcalm p P HP Hr) as [? _].
  - intros c C g i G jobs pol gr Hc HC Hr Ho' -> _ _. destruct (Hcalm c C HC Hr) as [_ Hi]. by destruct (Hi i).
  - intros w coin p Hw Hp. destruct (sh_parked _ _ _ _ H w coin p Hw Hp) as (P & k & HP & Hc & Hpx). exists P, k. rewrite Hne; [done|congruence].
  - intros p P coin k w _ _ _ Hw. by exists w.
Qed.

(** A child: the task that waits for it is queued. *)
Lemma end_child x rest qs m m' X p P o : shape (Some x) rest qs m → calm x m → m_promises m !! x = Some X → m_promises m !! p = Some P →
  p_owner X = Some p → waits_for (p_code P) = Some x → (∀ jobs, p_code P = SettleWait jobs x → Forall (λ j, running j m = false) jobs) →
  m' = set_deck (set_ready (ready (m_deck m) ++ [l_id (p_link P)]) (m_deck m)) (upd x (ended o) m) →
  shape None rest (qs ++ [p]) m'.
Proof.
  intros H Hcalm HX HP Ho Hw Hjobs ->. destruct (running_role x rest qs m X H HX) as (Hl & Hd & HR & Hxq). set (m' := set_deck _ _).
  assert (p ≠ x) as Hpx. { intros ->. destruct (Hcalm x X HX) as [? _]; [|done]. apply running_some. by exists X. }
  pose proof (sh_frame _ _ _ _ H p P HP ltac:(congruence)) as HF. pose proof (waiting_running _ _ _ _ _ _ H HP ltac:(congruence)) as Hpr.
  assert (running p m = true) as Hpr' by (by destruct (p_code P)). clear Hpr.
  assert (p ∉ qs) as Hpq.
  { unfold frame_ok, child_ok in HF. intros Hin. destruct (p_code P); simplify_eq/=.
    - destruct HF as (C & (HC & _ & _ & _ & _ & Hiff) & _). assert (C = X) as -> by congruence. apply Hiff in Hin. congruence.
    - destruct HF as (_ & C & (HC & _ & _ & _ & _ & Hiff) & _). assert (C = X) as -> by congruence. apply Hiff in Hin. congruence. }
  assert (m_promises m' !! x = Some (ended o X)) as HX' by (by apply upd_eq).
  assert (∀ q, q ≠ x → m_promises m' !! q = m_promises m !! q) as Hne by (intros q Hq; by apply upd_ne).
  assert (∀ q, q ≠ x → running q m' = running q m) as Hrun by (intros q Hq; unfold running; by rewrite Hne).
  destruct (ended_running m m' x X o HX' Hrun) as [Hx' Hran].
  assert (∀ q, lk m' q = lk m q) as Hlk. { intros q. unfold lk. destruct (decide (q = x)) as [->|Hq]; [by rewrite HX', HX|by rewrite Hne]. }
  assert (frame_ok m' (qs ++ [p]) p P) as HFp.
  { unfold frame_ok, child_ok in HF |- *. destruct (p_code P) eqn:Hcode; simplify_eq/=.
    - destruct HF as (C & (HC & H1 & H2 & H3 & H4 & _) & Hk). assert (C = X) as -> by congruence. exists (ended o X). split; [|done]. split_and!; try done. split; [intros _; apply elem_snoc|done].
    - destruct HF as ([Hnd Hj] & C & (HC & H1 & H2 & H3 & H4 & _) & Hk). assert (C = X) as -> by congruence. split.
      + split; [done|]. intros j Hin. destruct (Hj j Hin) as (J & HJ & HoJ). destruct (decide (j = x)) as [->|Hjx]; [|exists J; by rewrite Hne]. assert (J = X) as -> by congruence. by exists (ended o X).
      + exists (ended o X). split; [split_and!; try done; split; [intros _; apply elem_snoc|done]|]. cbn. specialize (Hjobs jobs eq_refl). rewrite Forall_forall in *. intros j Hin.
        destruct (decide (j = x)) as [->|Hjx]; [done|]. rewrite Hrun by done. by apply Hjobs. }
  eapply (step_shape (Some x) rest qs _ m m' [x; p]); [done|..].
  - intros q Hq. apply Hne. intros ->. apply Hq. by left.
  - apply H.
  - apply (table_ok_ext (lk m) _ (m_deck m)); try done. apply H.
  - done.
  - intros q Q HQ. destruct (decide (q = x)) as [->|Hq]; [by apply (sh_next _ _ _ _ H x X)|]. rewrite Hne in HQ by done. by apply (sh_next _ _ _ _ H q Q).
  - cbn. rewrite (queue_app m rest qs p P (sh_queue _ _ _ _ H) HP). apply list_fmap_ext. intros i q _. by rewrite Hlk.
  - apply NoDup_snoc; [done|apply H].
  - intros q [Hq|Hq%list_elem_of_singleton]%elem_of_app; [|subst q; by rewrite Hrun]. rewrite Hrun; [by apply H|by intros ->].
  - intros q [= ->]. by left.
  - intros q Q Hq HQ. apply elem_pair in Hq as [->| ->].
    + assert (Q = ended o X) as -> by congruence. split; [done|]. congruence.
    + rewrite Hne in HQ by done. assert (Q = P) as -> by congruence. split; [done|]. intros _. eapply (role_same m); [by apply H|done..| |].
      * intros q Q Hq HQ' _. exists Q. rewrite Hne; [done|]. intros ->. by destruct (Hcalm p P HP Hpr') as [? _].
      * intros g i G jobs pol gr Hg HG Hcg. exists G, gr. rewrite Hne; [done|]. intros ->. destruct (Hcalm p P HP Hpr') as [_ Hi]. by destruct (Hi i).
  - intros q Hq _. apply elem_snoc_ne. intros ->. apply Hq. by right; left.
  - intros q Q c Hq HQ Hin Hc. apply elem_pair in Hc as [->| ->]; [|by apply looks_same, Hne].
    assert (q ≠ x) as Hqx by (intros ->; apply Hq; by left). assert (q ≠ p) as Hqp by (intros ->; apply Hq; by right; left).
    destruct (refs_owner _ _ _ _ _ _ _ H HQ ltac:(congruence) Hin) as (C1 & q1 & Q1 & HC1 & Ho1 & HQ1 & _ & Hcase). assert (C1 = X) as -> by congruence. assert (q1 = p) as -> by congruence.
    assert (Q1 = P) as -> by congruence. destruct Hcase as [->|(_ & _ & Hw1)]; [done|]. congruence.
  - intros q Q s S Hq HQ Hr Hs HsD HS Hws. apply elem_pair in HsD as [->| ->]; [by destruct (Hcalm q Q HQ Hr) as [? _]|]. exists S. by rewrite Hne.
  - intros c C g i G jobs pol gr Hc HC Hr Hg HgD HG Hcg. apply elem_pair in HgD as [->| ->]; [destruct (Hcalm c C HC Hr) as [_ Hi]; by destruct (Hi i)|]. exists G, gr. by rewrite Hne.
  - apply H.
  - intros w coin q Hmw Hq. destruct (sh_parked _ _ _ _ H w coin q Hmw Hq) as (Q & k & HQ & Hc & Hqx). exists Q, k. rewrite Hne; [done|congruence].
  - intros q Q coin k w _ _ _ Hmw. by exists w.
Qed.

Lemma active_down m m' jobs x : NoDup jobs → x ∈ jobs → running x m = true → running x m' = false → (∀ j, j ≠ x → running j m' = running j m) →
  active m jobs = S (active m' jobs).
Proof.
  intros Hnd Hin Hx Hx' Hne. apply list_elem_of_split in Hin as (l1 & l2 & ->). apply NoDup_app in Hnd as (_ & Hd & Hnd). apply NoDup_cons in Hnd as [Hx2 _].
  unfold active. rewrite !filter_app, !length_app. rewrite filter_cons_True by done. rewrite filter_cons_False by (by rewrite Hx'). cbn.
  change (length (filter (λ j, running j m = true) ?l)) with (active m l). change (length (filter (λ j, running j m' = true) ?l)) with (active m' l).
  rewrite (active_same m m' l1), (active_same m m' l2); [lia|..]; intros j Hj; apply Hne; intros ->; [done|]. by apply (Hd x); [|left].
Qed.

Lemma active_bound x rest qs m jobs : shape x rest qs m → NoDup jobs → (Z.of_nat (active m jobs) < 2 ^ 64)%Z.
Proof.
  intros H Hnd. pose proof (linked_count (lk m) (m_deck m) (filter (λ j, running j m = true) jobs) (sh_table _ _ _ _ H)) as Hle.
  pose proof (sh_max _ _ _ _ H) as Hmax. change max_index with (2 ^ 24 - 1)%Z in Hmax. unfold active.
  enough (length (filter (λ j, running j m = true) jobs) ≤ length (rows (m_deck m)))%nat by lia. apply Hle; [by apply NoDup_filter|].
  intros p [Hr _]%list_elem_of_filter. apply running_some in Hr as (P & HP & Hl & _). by apply (linked_iff m p P (sh_table _ _ _ _ H) HP).
Qed.

(** A job: its group counts down, and is queued by the last one. *)
Lemma end_job x rest qs m m' X s S g G G' i jobs pol gr gr' o qs' : shape (Some x) rest qs m → calm x m → m_promises m !! x = Some X →
  p_owner X = Some s → p_completion X = Some (g, i) → m_promises m !! s = Some S → p_code S = SettleWait jobs g → m_promises m !! g = Some G →
  p_code G = GroupWait jobs pol gr → jobs !! i = Some x →
  G' = set_code (GroupWait jobs pol gr') G → pending gr = (pending gr' + 1)%nat →
  (∀ p, p ≠ x → p ≠ g → m_promises m' !! p = m_promises m !! p) → m_promises m' !! x = Some (ended o X) → m_promises m' !! g = Some G' →
  m_crash m' = m_crash m → m_next m' = m_next m → m_wand m' = m_wand m →
  (pending gr' ≠ 0 ∧ waiter gr' = waiter gr ∧ m_deck m' = m_deck m ∧ qs' = qs ∨
   pending gr' = 0 ∧ m_deck m' = set_ready (ready (m_deck m) ++ [l_id (p_link G)]) (m_deck m) ∧ qs' = qs ++ [g]) →
  shape None rest qs' m'.
Proof.
  intros H Hcalm HX Ho Hcomp HS HcS HG HcG Hi HG' Hpend Hne HX' HGm' Hcr Hnext Hwand Hcase. destruct (running_role x rest qs m X H HX) as (Hl & Hd & HR & Hxq).
  assert (running x m = true) as Hxr by (apply running_some; by exists X). destruct (Hcalm x X HX Hxr) as [Hcx1 Hcx2].
  assert (g ≠ x) as Hgx by (intros ->; by apply (Hcx2 i)). assert (s ≠ x) as Hsx by congruence. assert (s ≠ g) as Hsg by (intros ->; congruence).
  assert (running g m = true) as Hgr by (pose proof (waiting_running _ _ _ _ _ _ H HG ltac:(congruence)) as E; by rewrite HcG in E).
  assert (running s m = true) as Hsr by (pose proof (waiting_running _ _ _ _ _ _ H HS ltac:(congruence)) as E; by rewrite HcS in E).
  pose proof (sh_frame _ _ _ _ H g G HG ltac:(congruence)) as HFg. unfold frame_ok in HFg. rewrite HcG in HFg. destruct HFg as (Hlg & Hgo & Hact & Hwt).
  destruct Hgo as (Hgn & s1 & S1 & Hos1 & HS1 & HcS1 & Hjo). assert (x ∈ jobs) as Hxj by (by apply list_elem_of_lookup_2 in Hi).
  assert (p_owner G = Some s) as Hos. { destruct Hjo as [_ Hjo]. destruct (Hjo x Hxj) as (J & HJ & HoJ). congruence. }
  assert (g ∉ qs) as Hgq by (destruct Hwt as [(_ & ? & _)|(_ & ?)]; [done|lia]).
  assert (waiter gr = true) as Hwg by (destruct Hwt as [(? & _)|(_ & ?)]; [done|lia]). clear Hwt.
  assert (p_link G' = p_link G ∧ p_cont G' = p_cont G ∧ p_owner G' = p_owner G ∧ p_completion G' = p_completion G ∧ p_code G' = GroupWait jobs pol gr') as (E1 & E2 & E3 & E4 & E5) by (by subst G').
  assert (alike G G') as Hal by (split; try done; first [by rewrite E4|by rewrite E5, HcG]). clear HG'.
  assert (∀ p, p ≠ x → running p m' = running p m) as Hrun.
  { intros p Hp. unfold running. destruct (decide (p = g)) as [->|Hpg]; [by rewrite HGm', HG, (al_link _ _ Hal), (al_done _ _ Hal)|by rewrite Hne]. }
  destruct (ended_running m m' x X o HX' Hrun) as [Hx' Hran].
  assert (∀ p, lk m' p = lk m p) as Hlk.
  { intros p. unfold lk. destruct (decide (p = x)) as [->|Hp]; [by rewrite HX', HX|]. destruct (decide (p = g)) as [->|Hpg]; [by rewrite HGm', HG, (al_link _ _ Hal)|by rewrite Hne]. }
  assert (jobs_of m' s jobs) as Hjo'.
  { destruct Hjo as [Hnd Hj]. split; [done|]. intros j Hin. destruct (Hj j Hin) as (J & HJ & HoJ).
    destruct (decide (j = x)) as [->|Hjx]; [exists (ended o X); by split|]. destruct (decide (j = g)) as [->|Hjg]; [exists G'; by rewrite E3|]. exists J. rewrite Hne by done. split; [done|]. destruct (Hj x Hxj) as (J2 & HJ2 & HoJ2). congruence. }
  pose proof (active_down m m' jobs x (proj1 Hjo) Hxj Hxr Hx' Hrun) as Hdown.
  assert (frame_ok m' qs' g G') as HFg'.
  { unfold frame_ok. rewrite E5. split; [unfold linked; by rewrite E1|]. split; [split; [done|]; exists s, S; rewrite E3, Hne by done; done|]. split; [lia|].
    destruct Hcase as [(? & ? & _ & ->)|(? & _ & ->)]; [left; split_and!; try done; congruence|right; split; [apply elem_snoc|done]]. }
  assert (∀ p, p ≠ g → p ∈ qs' ↔ p ∈ qs) as Hqs by (intros p Hp; destruct Hcase as [(_ & _ & _ & ->)|(_ & _ & ->)]; [done|by apply elem_snoc_ne]).
  assert (rest ++ ready (m_deck m') = (λ p, l_id (lk m' p)) <$> qs' ∧ NoDup qs' ∧ rows (m_deck m') = rows (m_deck m) ∧ name (m_deck m') = name (m_deck m)) as (Hq & Hnd & Hrows & Hname).
  { destruct Hcase as [(_ & _ & -> & ->)|(_ & -> & ->)]; (split; [|split; [|done]]).
    - rewrite (sh_queue _ _ _ _ H). apply list_fmap_ext. intros j p _. by rewrite Hlk.
    - apply H.
    - cbn. rewrite (queue_app m rest qs g G (sh_queue _ _ _ _ H) HG). apply list_fmap_ext. intros j p _. by rewrite Hlk.
    - apply NoDup_snoc; [done|apply H]. }
  eapply (step_shape (Some x) rest qs qs' m m' [x; g; s]); [done|..].
  - intros p Hp. apply Hne; intros ->; apply Hp; [by left|by right; left].
  - rewrite Hcr. apply H.
  - apply (table_ok_ext (lk m) _ (m_deck m)); try done. apply H.
  - by rewrite Hrows.
  - intros p P HP. rewrite Hnext. assert (is_Some (m_promises m !! p)) as [P' HP'].
    { destruct (decide (p = x)) as [->|Hp]; [by eexists|]. destruct (decide (p = g)) as [->|Hpg]; [by eexists|]. rewrite <- Hne by done. by eexists. }
    by apply (sh_next _ _ _ _ H p P').
  - done.
  - done.
  - intros p Hp. destruct (decide (p = g)) as [->|Hpg]; [by rewrite Hrun|]. apply Hqs in Hp; [|done]. rewrite Hrun; [by apply H|by intros ->].
  - intros p [= ->]. by left.
  - intros p P Hp HP. apply elem_of_cons in Hp as [->|Hp]; [|apply elem_pair in Hp as [->| ->]].
    + assert (P = ended o X) as -> by congruence. split; [done|]. congruence.
    + assert (P = G') as -> by congruence. split; [done|]. intros _. eapply (role_same m); [by apply (sh_role _ _ _ _ H g G HG)|done..| |].
      * intros q Q Hoq HQ _. assert (q = s) as -> by congruence. exists Q. by rewrite Hne.
      * intros g2 i2 G2 jobs2 pol2 gr2 Hg2 HG2 HcG2. destruct (decide (g2 = g)) as [->|Hg2g].
        -- exists G', gr'. split; [done|]. assert (G2 = G) as -> by congruence. rewrite HcG in HcG2. by simplify_eq.
        -- exists G2, gr2. rewrite Hne; [done| |done]. intros ->. destruct (Hcalm g G HG Hgr) as [_ Hc2]. by destruct (Hc2 i2).
    + rewrite Hne in HP by done. assert (P = S) as -> by congruence. split.
      * pose proof (sh_frame _ _ _ _ H s S HS ltac:(congruence)) as HFs. unfold frame_ok, child_ok in HFs |- *. rewrite HcS in HFs |- *. destruct HFs as (_ & G2 & (HG2 & F1 & F2 & F3 & F4 & F5) & _).
        assert (G2 = G) as -> by congruence. split; [done|]. exists G'. unfold linked in *. rewrite E1, E2, E3, E5, (Hqs s) by done. rewrite HcG in F5. by split_and!.
      * intros _. eapply (role_same m); [by apply (sh_role _ _ _ _ H s S HS)|done..| |].
        -- intros q Q Hoq HQ Hwq. exists Q. rewrite Hne; [done|intros ->; by destruct (Hcalm s S HS Hsr)|]. intros ->. assert (Q = G) as -> by congruence. by rewrite HcG in Hwq.
        -- intros g2 i2 G2 jobs2 pol2 gr2 Hg2 HG2 HcG2. destruct (decide (g2 = g)) as [->|Hg2g].
           ++ exists G', gr'. split; [done|]. assert (G2 = G) as -> by congruence. rewrite HcG in HcG2. by simplify_eq.
           ++ exists G2, gr2. rewrite Hne; [done| |done]. intros ->. destruct (Hcalm s S HS Hsr) as [_ Hc2]. by destruct (Hc2 i2).
  - intros p Hp _. apply Hqs. intros ->. apply Hp. by right; left.
  - intros p P c Hp HP Hin Hc. assert (p ≠ x) as Hpx by (intros ->; apply Hp; by left). assert (p ≠ g) as Hpg by (intros ->; apply Hp; by right; left).
    assert (p ≠ s) as Hps by (intros ->; apply Hp; by right; right; left).
    apply elem_of_cons in Hc as [->|Hc]; [|apply elem_pair in Hc as [->| ->]].
    + destruct (refs_owner _ _ _ _ _ _ _ H HP ltac:(congruence) Hin) as (C1 & q1 & Q1 & HC1 & Ho1 & HQ1 & _ & Hc1). assert (C1 = X) as -> by congruence. assert (q1 = s) as -> by congruence.
      assert (Q1 = S) as -> by congruence. destruct Hc1 as [->|(_ & _ & Hw1)]; [done|]. rewrite HcS in Hw1. cbn in Hw1. congruence.
    + intros C HC. assert (C = G) as -> by congruence. by exists G'.
    + by apply looks_same, Hne.
  - intros p P q Q Hp HP Hr Hoq HqD HQ Hwq. apply elem_of_cons in HqD as [->|HqD]; [by destruct (Hcalm p P HP Hr)|]. apply elem_pair in HqD as [->| ->].
    + assert (Q = G) as -> by congruence. by rewrite HcG in Hwq.
    + exists Q. by rewrite Hne.
  - intros c C g2 i2 G2 jobs2 pol2 gr2 Hc HC Hr Hg2 HgD HG2 HcG2. apply elem_of_cons in HgD as [->|HgD]; [destruct (Hcalm c C HC Hr) as [_ Hc2]; by destruct (Hc2 i2)|]. apply elem_pair in HgD as [->| ->].
    + exists G', gr'. split; [done|]. assert (G2 = G) as -> by congruence. rewrite HcG in HcG2. by simplify_eq.
    + congruence.
  - rewrite Hwand. apply H.
  - intros w coin p Hmw Hp. rewrite Hwand in Hmw. destruct (sh_parked _ _ _ _ H w coin p Hmw Hp) as (P & k & HP & Hc & Hpx). exists P, k. rewrite Hne; [done|congruence|]. intros ->. congruence.
  - intros p P coin k w _ _ _ Hmw. rewrite Hwand. by exists w.
Qed.

Lemma calm_similar m m' x : same_frames m m' → calm x m → calm x m'.
Proof.
  intros H Hc p P' HP' Hr. assert (same_frames m' m) as H' by by symmetry. destruct (same_lookup m' m p P' H' HP') as (P & HP & (_ & _ & E4 & E5 & _)%mask_fields).
  rewrite <- E4, <- E5. apply (Hc p P HP). by rewrite <- (running_similar m m').
Qed.

Lemma crash_similar new m m' : woken new m m' → woken new (crash m) (crash m').
Proof. intros H. split; try apply H; done. Qed.

Lemma noexcept_similar new m m' p : woken new m m' → p ∉ new → woken new (enqueue_noexcept p m) (enqueue_noexcept p m').
Proof.
  intros H Hp. unfold enqueue_noexcept. destruct (enqueue_similar new m m' p H Hp) as [E Hs]. destruct (enqueue_task p m) as [[] m1], (enqueue_task p m') as [[] m1']; try done; cbn in *. by apply crash_similar.
Qed.

Lemma mask_on_group f f' P P' : mask P' = mask P →
  (∀ gr gr', pending gr' = pending gr → waiter gr' = waiter gr → pending (f' gr') = pending (f gr) ∧ waiter (f' gr') = waiter (f gr)) →
  mask (on_group f' P') = mask (on_group f P).
Proof.
  intros E Hf. pose proof (f_equal p_code E) as Ec. cbn in Ec. unfold on_group.
  destruct (p_code P) as [| | | | | |jobs pol gr|] eqn:HP, (p_code P') as [| | | | | |jobs' pol' gr'|] eqn:HP'; try discriminate Ec; try (by unfold mask in E |- *; rewrite HP, HP' in *).
  apply mask_fields in E as (F1 & F2 & F3 & F4 & _). cbn in Ec. simplify_eq. destruct (Hf gr gr') as [E1 E2]; [done..|]. unfold mask. cbn. congruence.
Qed.

Lemma group_view_similar m m' g : same_frames m m' → mask_code <$> (p_code <$> m_promises m' !! g) = mask_code <$> (p_code <$> m_promises m !! g).
Proof.
  intros E. apply (f_equal (.!! g)) in E. rewrite !lookup_fmap in E.
  destruct (m_promises m !! g) as [P|], (m_promises m' !! g) as [P'|]; try done. cbn in *. f_equal. by apply (inj Some), (f_equal p_code) in E.
Qed.

Lemma arrive_similar new m m' g : woken new m m' → g ∉ new → woken new (arrive g m) (arrive g m').
Proof.
  intros H Hg. unfold arrive. pose proof (group_view_similar m m' g (wo_frames _ _ _ H)) as E.
  destruct (p_code <$> m_promises m !! g) as [[]|], (p_code <$> m_promises m' !! g) as [[]|]; try discriminate E; try by apply crash_similar.
  cbn in E. destruct gr, gr0. simplify_eq/=. destruct (_ && _).
  - unfold need_resume. apply noexcept_similar; [|done]. apply upd_similar; [apply upd_similar; [done|done|intros P P' HP; by apply mask_on_group]|done|].
    intros P P' (F1 & F2 & F3 & F4 & F5)%mask_fields. unfold mask. cbn. congruence.
  - apply upd_similar; [done|done|]. intros P P' HP. by apply mask_on_group.
Qed.

(** Up to flags and to the jobs that it wakes up, the end of a job is the countdown of its group. *)
Lemma job_done_similar m g i fail G jobs pol gr : parked_ok m → m_promises m !! g = Some G → p_code G = GroupWait jobs pol gr → similar (arrive g m) (job_done g i fail m).
Proof.
  intros H HG Hc. unfold job_done. rewrite HG. cbn. rewrite Hc. destruct (_ && _); [|done]. assert (similar m (upd g (on_group (set_first i)) m)) as H1 by (by apply similar_group).
  assert (similar m (group_stop g jobs (upd g (on_group (set_first i)) m))) as [new H2] by (etrans; [exact H1|apply group_stop_similar; by apply (parked_similar m)]).
  exists new. apply arrive_similar; [done|]. intros Hn. destruct (wo_new _ _ _ H2) as [_ Hp]. destruct (Hp g Hn) as (coin & w & G' & k & _ & _ & HG' & Hc' & _). congruence.
Qed.

(** A suspended or ended task in the place of the running one. *)
Lemma finish_shape x rest qs m X o : shape (Some x) rest qs m → calm x m → m_promises m !! x = Some X →
  (∀ jobs, kind (p_code X) = Some jobs → Forall (λ j, running j m = false) jobs) → ∃ qs', shape None rest qs' (finish x o m).
Proof.
  intros H Hcalm HX Hjobs. destruct (running_role x rest qs m X H HX) as (Hl & Hd & HR & Hxq). unfold finish. rewrite HX.
  change (λ P, set_completion None (set_code (Done o) P)) with (ended o). assert (running x m = true) as Hxr by (apply running_some; by exists X).
  pose proof (upd_table x (ended o) m X (sh_table _ _ _ _ H) HX eq_refl) as Htab.
  destruct HR as [(Ho & -> & ->)|[(p & P & Ho & -> & -> & HP & Hw)|(s & S & g & G & i & jobs & pol & gr & Ho & -> & Hcomp & HS & HcS & HG & HcG & Hi)]].
  - exists qs. by apply (end_root x rest qs m X).
  - assert (p ≠ x) as Hpx by (intros ->; by destruct (Hcalm x X HX Hxr)).
    assert (linked P) as HlP. { pose proof (waiting_running _ _ _ _ _ _ H HP ltac:(congruence)) as E. assert (running p m = true) as (? & ? & ? & _)%running_some by (by destruct (p_code P)). congruence. }
    rewrite (noexcept_linked _ p P Htab) by (by rewrite ?upd_ne). exists (qs ++ [p]). eapply (end_child x rest qs m _ X p P o); try done.
    intros jobs Hc. pose proof (sh_frame _ _ _ _ H p P HP ltac:(congruence)) as HF. unfold frame_ok, child_ok in HF. rewrite Hc in HF. destruct HF as (_ & G & (HG & _) & Hg).
    assert (G = X) as -> by congruence. destruct (p_code X) eqn:HcX; try done; [|subst; by apply Hjobs]. destruct Hg as [-> _]. by apply Hjobs.
  - rewrite Hcomp. destruct (Hcalm x X HX Hxr) as [Hcx1 Hcx2]. assert (g ≠ x) as Hgx by (intros ->; by apply (Hcx2 i)).
    pose proof (sh_frame _ _ _ _ H g G HG ltac:(congruence)) as HFg. unfold frame_ok in HFg. rewrite HcG in HFg. destruct HFg as (Hlg & (_ & s1 & S1 & _ & _ & _ & Hnd & _) & Hact & _).
    assert (x ∈ jobs) as Hxj by (by apply list_elem_of_lookup_2 in Hi). pose proof (active_bound _ _ _ _ jobs H Hnd) as Hb.
    assert (pending gr ≠ 0) as Hp0. { rewrite Hact. unfold active. intros E%length_zero_iff_nil. assert (x ∈ filter (λ j, running j m = true) jobs) as Hin by (by apply list_elem_of_filter). rewrite E in Hin. by apply not_elem_of_nil in Hin. }
    assert (m_promises (upd x (ended o) m) !! g = Some G) as HG1 by (by rewrite upd_ne).
    enough (∃ qs', shape None rest qs' (arrive g (upd x (ended o) m))) as [qs' Hs].
    { eapply shape_similar; [|exact Hs]. eapply job_done_similar; [|done|done]. destruct (shape_parked _ _ _ _ H) as [Hpo Hpx]. eapply (parked_upd x _ m X); try done. intros w coin. by apply Hpx. }
    unfold arrive. rewrite HG1. cbn [fmap option_fmap option_map]. rewrite HcG. rewrite size_sub_small by lia.
    pose proof (sh_frame _ _ _ _ H g G HG ltac:(congruence)) as HFg. unfold frame_ok in HFg. rewrite HcG in HFg. destruct HFg as (_ & _ & _ & Hwt).
    assert (waiter gr = true) as Hwg by (destruct Hwt as [(? & _)|(_ & ?)]; [done|lia]). rewrite Hwg, andb_true_r. destruct (Nat.eqb_spec (pending gr - 1) 0) as [E0|E0].
    + eapply (shape_similar None rest (qs ++ [g])); [exists []; apply noexcept_similar; [by apply woken_upd|apply not_elem_of_nil]|].
      rewrite (noexcept_linked _ g (on_group (λ gr0, set_waiter false (set_pending (pending gr - 1) gr0)) G)).
      * eapply (end_job x rest qs m _ X s S g G _ i jobs pol gr (set_waiter false (set_pending (pending gr - 1) gr)) o); try done.
        -- cbn. lia.
        -- intros p Hpx Hpg. cbn. by rewrite !lookup_alter_ne.
        -- cbn. by rewrite lookup_alter_ne, lookup_alter_eq, HX.
        -- cbn. rewrite lookup_alter_eq, lookup_alter_ne, HG by done. cbn. unfold on_group. by rewrite HcG.
        -- right. split; [cbn; lia|]. split; [|done]. cbn. unfold on_group. by rewrite HcG.
      * eapply (upd_table g _ _ G); [done|done|]. unfold on_group. by rewrite HcG.
      * erewrite upd_eq by done. done.
      * unfold on_group, linked. by rewrite HcG.
    + exists qs. eapply (end_job x rest qs m _ X s S g G _ i jobs pol gr (set_pending (pending gr - 1) gr) o); try done.
      * cbn. lia.
      * intros p Hpx Hpg. cbn. by rewrite !lookup_alter_ne.
      * cbn. by rewrite lookup_alter_ne, lookup_alter_eq, HX.
      * cbn. rewrite lookup_alter_eq, lookup_alter_ne, HG by done. cbn. unfold on_group. by rewrite HcG.
      * left. by split.
Qed.

(** *** Awaiting *)

(** A frame that does not run yet, as a step of the running task leaves it. *)
Lemma start_frame_in x rest qs qs' m m' c o C C' : shape (Some x) rest qs m → m_promises m !! c = Some C → p_link C = no_link → p_owner C = Some o → o ≠ c →
  (∀ p, p ≠ c → p ≠ x → m_promises m' !! p = m_promises m !! p) → p_code C' = p_code C → (linked C' → c ∈ qs') →
  (∀ jobs pol, p_code C = GroupStart jobs pol → linked C' → group_of m' c C' jobs) → frame_ok m' qs' c C'.
Proof.
  intros H HC Hlc Hoc Hoc' Hne Hcode Hq Hgs. assert (running c m = false) as Hrc by (unfold running; by rewrite HC, Hlc). destruct (sh_running _ _ _ _ H x eq_refl) as [Hxr _].
  assert (Some c ≠ Some x) as Hcx by congruence. destruct (idle_code _ _ _ _ _ _ H HC Hrc) as (Hi1 & Hi2 & Hi3).
  pose proof (sh_frame _ _ _ _ H c C HC Hcx) as HF. unfold frame_ok in HF |- *. rewrite Hcode. destruct (p_code C) as [q|c' kept k|coin k|jobs pol|jobs g|jobs pol|jobs pol gr|res] eqn:E; try done.
  - by destruct (Hi3 coin k).
  - destruct HF as (_ & [Hnd Hj] & Hu). split; [done|]. assert (∀ j, j ∈ jobs → m_promises m' !! j = m_promises m !! j) as Hsame.
    { intros j Hin. rewrite Forall_forall in Hu. destruct (Hu j Hin) as (J & HJ & Hl & _). destruct (Hj j Hin) as (J' & HJ' & Ho). apply Hne; [congruence|]. intros ->.
      apply running_some in Hxr as (X & HX & HlX & _). assert (X = J) as -> by congruence. unfold linked in HlX. by rewrite Hl in HlX. }
    split; [apply (looks_jobs m); [|done]; intros j Hin; by apply looks_same, Hsame|]. rewrite Forall_forall in Hu |- *. intros j Hin. apply (looks_unstarted m); [by apply looks_same, Hsame|by apply Hu].
  - intros HL. split; [by apply Hq|by apply (Hgs jobs pol)].
  - by destruct (Hi2 jobs pol gr).
Qed.

Lemma start_frame x rest qs qs' m m' c C C' : shape (Some x) rest qs m → m_promises m !! c = Some C → p_link C = no_link → p_owner C = Some x →
  (∀ p, p ≠ x → p ≠ c → m_promises m' !! p = m_promises m !! p) → p_code C' = p_code C → (linked C' → c ∈ qs') →
  (∀ jobs pol, p_code C = GroupStart jobs pol → linked C' → group_of m' c C' jobs) → frame_ok m' qs' c C'.
Proof.
  intros H HC Hlc Hoc Hne. eapply (start_frame_in x rest qs); try done; [|by auto]. intros ->. destruct (sh_running _ _ _ _ H c eq_refl) as [(X & HX & Hl & _)%running_some _].
  assert (X = C) as -> by congruence. unfold linked in Hl. by rewrite Hlc in Hl.
Qed.

(** The running task and an unregistered frame of its own change, and the task runs on. *)
Lemma stay_shape x rest qs m m' c X X' C C' : shape (Some x) rest qs m → calm x m →
  m_promises m !! x = Some X → m_promises m !! c = Some C → p_link C = no_link → p_owner C = Some x →
  (∀ p, p ≠ x → p ≠ c → m_promises m' !! p = m_promises m !! p) → m_promises m' !! x = Some X' → m_promises m' !! c = Some C' →
  alike X X' → p_completion X' = p_completion X → p_link C' = no_link → p_owner C' = Some x → p_code C' = p_code C →
  m_crash m' = m_crash m → m_next m' = m_next m → m_wand m' = m_wand m → m_deck m' = m_deck m →
  shape (Some x) rest qs m' ∧ calm x m'.
Proof.
  intros H Hcalm HX HC Hlc Hoc Hne HX' HC' Hal Hcompl Hlc' Hoc' Hcode' Hcr Hnext Hwand Hdeck. destruct (running_role x rest qs m X H HX) as (Hl & Hd & HR & Hxq).
  assert (c ≠ x) as Hcx. { intros ->. assert (C = X) as -> by congruence. unfold linked in Hl. by rewrite Hlc in Hl. }
  assert (∀ p, running p m' = running p m) as Hrun.
  { intros p. unfold running. destruct (decide (p = x)) as [->|Hpx]; [by rewrite HX', HX, (al_link _ _ Hal), (al_done _ _ Hal)|].
    destruct (decide (p = c)) as [->|Hpc]; [by rewrite HC', HC, Hlc, Hlc'|by rewrite Hne]. }
  assert (∀ p, lk m' p = lk m p) as Hlk.
  { intros p. unfold lk. destruct (decide (p = x)) as [->|Hpx]; [by rewrite HX', HX, (al_link _ _ Hal)|]. destruct (decide (p = c)) as [->|Hpc]; [by rewrite HC', HC, Hlc, Hlc'|by rewrite Hne]. }
  assert (running c m = false) as Hrc by (unfold running; rewrite HC, Hlc; done). assert (running x m = true) as Hxr by (apply running_some; by exists X).
  destruct (idle_code _ _ _ _ _ _ H HC Hrc) as (Hi1 & Hi2 & Hi3).
  assert (∀ p P, p ≠ x → m_promises m !! p = Some P → c ∉ refs P) as Hnoref.
  { intros p P Hpx HP Hin. destruct (refs_owner _ _ _ _ _ _ _ H HP ltac:(congruence) Hin) as (C1 & q & Q & HC1 & Ho & _ & _ & Hcase). assert (C1 = C) as -> by congruence.
    assert (q = x) as -> by congruence. destruct Hcase as [->|(Hr & HoP & _)]; [done|]. by destruct (Hcalm p P HP Hr). }
  split.
  2:{ intros p P HP Hr. rewrite Hrun in Hr. destruct (decide (p = x)) as [->|Hpx]; [|destruct (decide (p = c)) as [->|Hpc]; [congruence|rewrite Hne in HP by done; by apply (Hcalm p P)]].
      assert (P = X') as -> by congruence. destruct Hal as [_ _ -> _ _ _ _]. rewrite Hcompl. by apply (Hcalm x X). }
  eapply (step_shape_to (Some x) (Some x) rest qs qs m m' [x; c]); try done.
  - intros p Hp. apply Hne; intros ->; apply Hp; [by left|by right; left].
  - rewrite Hcr. apply H.
  - apply (table_ok_ext (lk m) _ (m_deck m)); try done; [apply H|by rewrite Hdeck..].
  - by rewrite Hdeck.
  - intros p P HP. rewrite Hnext. destruct (decide (p = x)) as [->|Hpx]; [by apply (sh_next _ _ _ _ H x X)|]. destruct (decide (p = c)) as [->|Hpc]; [by apply (sh_next _ _ _ _ H c C)|].
    rewrite Hne in HP by done. by apply (sh_next _ _ _ _ H p P).
  - rewrite Hdeck, (sh_queue _ _ _ _ H). apply list_fmap_ext. intros i p _. by rewrite Hlk.
  - apply H.
  - intros p Hp. rewrite Hrun. by apply H.
  - intros p [= ->]. by left.
  - intros p [= <-]. split; [by left|]. by rewrite Hrun.
  - intros p P Hp HP. apply elem_pair in Hp as [->| ->].
    + assert (P = X') as -> by congruence. split; [done|]. intros _. eapply (role_same m); [exact HR|apply Hal|apply Hal|done| |].
      * intros q Q Ho HQ Hq. exists Q. assert (q ≠ x) by (intros ->; by destruct (Hcalm x X HX Hxr)). assert (q ≠ c) by (intros ->; congruence). by rewrite Hne.
      * intros g i G jobs pol gr Ho HG Hcg. exists G, gr. assert (g ≠ x) by (intros ->; destruct (Hcalm x X HX Hxr) as [_ Hi]; by destruct (Hi i)).
        assert (g ≠ c) by (intros ->; congruence). by rewrite Hne.
    + assert (P = C') as -> by congruence. rewrite Hrun, Hrc. split; [|done]. intros _. eapply (start_frame x rest qs qs m m' c C); try done; unfold linked; by rewrite Hlc'.
  - intros p P q Hp HP Hin Hq. apply elem_pair in Hq as [->| ->].
    + intros C1 HC1. assert (C1 = X) as -> by congruence. by exists X'.
    + destruct (Hnoref p P); [|done|done]. intros ->. apply Hp. by left.
  - intros p P s S Hp HP Hr Ho Hs HS Hws. apply elem_pair in Hs as [->| ->]; [by destruct (Hcalm p P HP Hr) as [? _]|]. congruence.
  - intros q Q g i G jobs pol gr Hq HQ Hr Ho Hg HG Hcg. apply elem_pair in Hg as [->| ->]; [by destruct (Hcalm q Q HQ Hr) as [_ Hi]; destruct (Hi i)|]. congruence.
  - rewrite Hwand. apply H.
  - intros w coin p Hmw Hp. rewrite Hwand in Hmw. destruct (sh_parked _ _ _ _ H w coin p Hmw Hp) as (P & k & HP & Hc & Hpx). exists P, k. rewrite Hne; [done|congruence|intros ->; congruence].
  - intros p P coin k w _ _ _ Hmw. rewrite Hwand. by exists w.
Qed.

(** [splice_handle] for a fresh frame of the running task: it waits, or the table is full and
    it runs on with the frame left as it was. *)
Lemma splice_shape x rest qs m c X C w follow : shape (Some x) rest qs m → calm x m →
  m_promises m !! x = Some X → kind (p_code X) = None → m_promises m !! c = Some C → p_link C = no_link → p_owner C = Some x → p_completion C = None → code_done (p_code C) = false →
  match w with
  | Awaiting c' _ _ => c' = c ∧ kind (p_code C) = None
  | SettleWait jobs c' => c' = c ∧ (c ∉ jobs) ∧ (∃ pol, p_code C = GroupStart jobs pol) ∧ jobs_of m x jobs ∧ Forall (unstarted m) jobs
  | _ => False
  end →
  let r := splice_handle c x follow (upd x (set_code w) m) in
  (r.1 = Ret tt ∧ ∃ qs', shape None rest qs' r.2) ∨
  (∃ e X' C' qs', r.1 = Throw e ∧ shape (Some x) rest qs' r.2 ∧ calm x r.2 ∧ m_promises r.2 !! x = Some X' ∧ kind (p_code X') = None ∧
    m_promises r.2 !! c = Some C' ∧ p_owner C' = Some x ∧ running c r.2 = false ∧ m_next r.2 = m_next m).
Proof.
  intros H Hcalm HX Hkind HC Hlc Hoc Hcc Hdc Hw r. destruct (running_role x rest qs m X H HX) as (Hl & Hd & HR & Hxq).
  assert (running c m = false) as Hrc by (unfold running; by rewrite HC, Hlc). assert (c ≠ x) as Hcx. { intros ->. assert (C = X) as -> by congruence. unfold linked in Hl. by rewrite Hlc in Hl. }
  set (m1 := upd x (set_code w) m) in *. set (mc := upd c (set_cont (Some x)) m1).
  assert (m_promises m1 !! x = Some (set_code w X)) as HX1 by (by apply upd_eq). assert (m_promises m1 !! c = Some C) as HC1 by (unfold m1; by rewrite upd_ne).
  assert (m_promises mc !! x = Some (set_code w X)) as HXc by (unfold mc; by rewrite upd_ne). assert (m_promises mc !! c = Some (set_cont (Some x) C)) as HCc by (by apply upd_eq).
  assert (∀ p, p ≠ x → p ≠ c → m_promises mc !! p = m_promises m !! p) as Hne by (intros p Hpx Hpc; unfold mc, m1; by rewrite !upd_ne).
  assert (alike X (set_code w X)) as Hal. { split; try done; cbn; [rewrite Hd; by destruct w|rewrite Hkind; by destruct w|by destruct w]. }
  assert (table_ok (lk mc) (m_deck mc)) as Htab by (eapply (upd_table c _ m1 C); [|done|done]; eapply (upd_table x _ m X); [apply H|done|done]).
  destruct (shape_parked _ _ _ _ H) as [Hpo Hxpk]. assert (parked_ok mc) as Hpkc.
  { apply (parked_upd c _ m1 C); try done; [apply (parked_upd x _ m X); try done; intros v coin; by apply Hxpk|].
    intros v coin Hv Hc. destruct (po_parked _ Hpo v coin c Hv Hc) as (v1 & C1 & k1 & _ & _ & HC2 & _ & HlC). assert (C1 = C) as -> by congruence. unfold linked in HlC. by rewrite Hlc in HlC. }
  assert (∃ m3, r = enqueue_task c m3 ∧ similar mc m3) as (m3 & Hr & new & Hs3).
  { unfold r, splice_handle. rewrite HX1. eexists. split; [done|].
    assert (similar mc (upd c (λ C, set_cont (Some x) (set_env (p_env (set_code w X)) C)) m1)) as Hs.
    { exists []. apply quiet_woken; try done. clear - c. unfold mc. generalize m1. intros m2. unfold same_frames, upd. cbn [m_promises set_promises]. apply map_eq. intros p. rewrite !lookup_fmap.
      destruct (decide (c = p)) as [<-|]; [|by rewrite !lookup_alter_ne]. rewrite !lookup_alter_eq. by destruct (m_promises m2 !! c). }
    destruct follow; [|done]. assert (∀ m2, similar m2 (upd c (set_follows (Some x)) m2)) as Hfo by (intros m2; by apply similar_upd). etrans; [exact Hs|]. etrans; [apply Hfo|].
    destruct (p_stop _); [|done]. apply stop_task_similar. eapply parked_similar; [|exact Hpkc]. etrans; [exact Hs|apply Hfo]. }
  assert (c ∉ new) as Hcn.
  { intros Hin. destruct (wo_new _ _ _ Hs3) as [_ Hn]. destruct (Hn c Hin) as (coin & v1 & C1 & k1 & _ & _ & HC2 & _ & HlC). assert (C1 = set_cont (Some x) C) as -> by congruence. unfold linked in HlC. cbn in HlC. by rewrite Hlc in HlC. }
  destruct (enqueue_similar new mc m3 c Hs3 Hcn) as [E1 E2]. rewrite <- Hr in E1, E2.
  destruct (enqueue_unlinked_task mc c _ Htab (sh_max _ _ _ _ H) HCc Hlc) as [[_ Hen]|(l & d & Hl0 & _ & Hen & Hrd & Hrows & Htab')]; rewrite Hen in E1, E2; cbn [fst snd] in E1, E2.
  - right. destruct (stay_shape x rest qs m mc c X (set_code w X) C (set_cont (Some x) C)) as [Hs Hc]; try done.
    pose proof (wo_frames _ _ _ E2) as E2f. destruct (same_lookup mc r.2 x _ E2f HXc) as (X' & HX' & (_ & _ & _ & _ & Ex)%mask_fields). destruct (same_lookup mc r.2 c _ E2f HCc) as (C' & HC' & (_ & _ & _ & Eo & _)%mask_fields).
    destruct (shape_woken new _ _ _ mc _ E2 Hs) as (qs' & _ & Hs').
    exists (Runtime "nxtrt deck task table is full"), X', C', qs'. split; [done|]. split; [done|]. split; [by apply (calm_similar mc)|]. split; [done|].
    split; [cbn in Ex; destruct w; try done; by destruct (p_code X')|]. split; [done|]. split; [by rewrite Eo|]. split; [|apply (wo_next _ _ _ E2)].
    rewrite (running_similar mc) by done. unfold running. by rewrite HCc; cbn; rewrite Hlc.
  - left. split; [done|]. eapply (shape_similar None rest (qs ++ [c])); [by exists new|]. set (m' := set_deck d (upd c (set_link l) mc)). set (C' := set_link l (set_cont (Some x) C)).
    assert (m_promises m' !! c = Some C') as HC' by (by apply upd_eq). assert (∀ p, p ≠ c → m_promises m' !! p = m_promises mc !! p) as Hne' by (intros p Hp; by apply upd_ne).
    assert (∀ p, p ≠ x → p ≠ c → m_promises m' !! p = m_promises m !! p) as Hne2 by (intros p Hpx Hpc; by rewrite Hne', Hne).
    assert (m_promises m' !! x = Some (set_code w X)) as HX' by (by rewrite Hne').
    eapply (await_shape x rest qs m m' c X (set_code w X) C C'); try done.
    + destruct w; try done; by destruct Hw as [-> _].
    + apply (table_ok_ext _ _ _ _ Htab'); try done. intros p. unfold C'. cbn [set_link p_link]. destruct (decide (c = p)) as [<-|Hp]; [by rewrite !fn_lookup_insert|]. rewrite !fn_lookup_insert_ne by done.
      unfold mc. rewrite (lk_upd m1 c _ C HC1). destruct (decide (c = p)) as [|_]; [done|]. unfold m1. rewrite (lk_upd m x _ X HX). destruct (decide (x = p)) as [<-|]; [|done]. unfold lk. by rewrite HX.
    + assert (child_ok m' (qs ++ [c]) x c (set_code w X) C') as Hch.
      { split_and!; try done. unfold C'. cbn. rewrite Hdc. split; [done|]. intros [Hin|Hin%list_elem_of_singleton]%elem_of_app; [done|by subst]. }
      unfold frame_ok. cbn [set_code p_code]. destruct w as [|c' kept k| | |jobs c'| | |]; try done.
      * destruct Hw as [-> Hk]. exists C'. split; [done|]. unfold C'. cbn. by destruct (p_code C).
      * destruct Hw as (-> & Hcj & [pol Hpol] & Hj & Hu). assert (∀ j, j ∈ jobs → m_promises m' !! j = m_promises m !! j) as Hsame.
        { intros j Hin. apply Hne2; [|by intros ->]. intros ->. rewrite Forall_forall in Hu. destruct (Hu x Hin) as (J & HJ & HlJ & _). assert (J = X) as -> by congruence. unfold linked in Hl. by rewrite HlJ in Hl. }
        split; [apply (looks_jobs m); [|done]; intros j Hin; by apply looks_same, Hsame|]. exists C'. split; [done|]. unfold C'. cbn. rewrite Hpol. split; [done|].
        rewrite Forall_forall in Hu |- *. intros j Hin. apply (looks_unstarted m); [by apply looks_same, Hsame|by apply Hu].
    + eapply (start_frame x rest qs _ m m' c C); try done; [intros _; apply elem_snoc|]. intros jobs' pol' Hcode _. destruct w as [|c' kept k| | |jobs c'| | |]; try done; [by destruct Hw as [_ Hk]; rewrite Hcode in Hk|].
      destruct Hw as (-> & Hcj & [pol Hpol] & Hj & Hu). rewrite Hpol in Hcode. injection Hcode as <- _. split; [done|]. exists x, (set_code (SettleWait jobs c) X). split_and!; try done.
      apply (looks_jobs m); [|done]. intros j Hin. apply looks_same, Hne2; [|by intros ->]. intros ->. rewrite Forall_forall in Hu. destruct (Hu x Hin) as (J & HJ & HlJ & _).
      assert (J = X) as -> by congruence. unfold linked in Hl. by rewrite HlJ in Hl.
Qed.

Lemma new_task_lookup c e o m q : m_promises (new_task c e o m).2 !! q = if decide (q = m_next m) then Some (MkPromise no_link None None None None false e o c) else m_promises m !! q.
Proof. cbn. destruct (decide (q = m_next m)) as [->|Hq]; [by rewrite lookup_insert_eq|by rewrite lookup_insert_ne]. Qed.

Lemma new_tasks_shape x rest qs s e ps : ∀ m, shape x rest qs m → let r := new_tasks ps e s m in
  shape x rest qs r.2 ∧ (∀ y, calm y m → calm y r.2) ∧ r.1 = seq (m_next m) (length ps) ∧ m_next r.2 = m_next m + length ps ∧
  (∀ p, p < m_next m → m_promises r.2 !! p = m_promises m !! p) ∧ (∀ j, j ∈ r.1 → unstarted r.2 j ∧ ∃ J, m_promises r.2 !! j = Some J ∧ p_owner J = Some s).
Proof.
  induction ps as [|q ps IH]; intros m H; cbn [new_tasks length].
  { split_and!; try done. by intros j ?%not_elem_of_nil. }
  change (new_task (Body q) e (Some s) m) with (m_next m, (new_task (Body q) e (Some s) m).2). cbv iota beta. set (m1 := (new_task (Body q) e (Some s) m).2).
  destruct (add_shape x rest qs m (Body q) e (Some s) H I) as [H1 Hc1]. fold m1 in H1, Hc1. pose proof (new_task_lookup (Body q) e (Some s) m) as Hm1. assert (m_next m1 = S (m_next m)) as Hn1 by done. fold m1 in Hm1. clearbody m1.
  specialize (IH m1 H1). destruct (new_tasks ps e s m1) as [js m2]. cbn in IH. rewrite Hn1 in IH.
  destruct IH as (H2 & Hc2 & -> & Hn & Hlow & Hjs). cbn [fst snd]. split_and!; try done.
  - intros y Hy. by apply Hc2, Hc1.
  - rewrite Hn. lia.
  - intros p Hp. rewrite Hlow, Hm1 by lia. by destruct (decide _); [lia|].
  - intros j [->|Hj]%elem_of_cons; [|by apply Hjs]. assert (m_promises m2 !! m_next m = Some (MkPromise no_link None None None None false e (Some s) (Body q))) as E.
    { rewrite Hlow, Hm1 by lia. by destruct (decide _). }
    split; eexists; (split; [exact E|done]).
Qed.

(** The frame that could not be registered goes. *)
Lemma drop_shape x rest qs m c C : shape (Some x) rest qs m → calm x m → m_promises m !! c = Some C → p_owner C = Some x → running c m = false →
  shape (Some x) rest qs (destroy_task c m) ∧ calm x (destroy_task c m) ∧ (∀ X, m_promises m !! x = Some X → m_promises (destroy_task c m) !! x = Some X).
Proof.
  intros H Hcalm HC Ho Hr. pose proof (destroy_only (S (size (m_promises m))) c m) as Hd. assert (shape (Some x) rest qs (destroy_task c m)) as Hs.
  { apply destroy_shape; [done|by intros y [= <-]|]. intros C1 HC1. split; [done|]. intros q Q Hq _. left. congruence. }
  split; [done|]. split; [by eapply only_deletes_calm|]. intros X HX. destruct (sh_running _ _ _ _ Hs x eq_refl) as [(X' & HX' & _)%running_some _]. apply Hd in HX' as E. congruence.
Qed.

(** The running task creates a frame and waits for it. *)
Lemma splice_new x rest qs m X c0 e w follow : shape (Some x) rest qs m → calm x m → m_promises m !! x = Some X → kind (p_code X) = None →
  match c0 with
  | Body _ | GroupStart _ _ => True
  | SettleStart jobs _ => jobs_of m (m_next m) jobs ∧ Forall (unstarted m) jobs
  | _ => False
  end →
  match w with
  | Awaiting c' _ _ => c' = m_next m ∧ kind c0 = None
  | SettleWait jobs c' => c' = m_next m ∧ (∃ pol, c0 = GroupStart jobs pol) ∧ jobs_of m x jobs ∧ Forall (unstarted m) jobs
  | _ => False
  end →
  let r := splice_handle (m_next m) x follow (upd x (set_code w) (new_task c0 e (Some x) m).2) in
  (r.1 = Ret tt ∧ ∃ qs', shape None rest qs' r.2) ∨
  (∃ err X' C' qs', r.1 = Throw err ∧ shape (Some x) rest qs' r.2 ∧ calm x r.2 ∧ m_promises r.2 !! x = Some X' ∧ kind (p_code X') = None ∧
    m_promises r.2 !! m_next m = Some C' ∧ p_owner C' = Some x ∧ running (m_next m) r.2 = false).
Proof.
  intros H Hcalm HX Hk Hc0 Hw r. destruct (add_shape (Some x) rest qs m c0 e (Some x) H Hc0) as [H1 Hc1]. pose proof (sh_next _ _ _ _ H x X HX) as Hlt.
  pose proof (new_task_lookup c0 e (Some x) m) as Hl. set (m1 := (new_task c0 e (Some x) m).2) in *. clearbody m1.
  assert (∀ q Q, m_promises m !! q = Some Q → m_promises m1 !! q = Some Q) as Hkeep.
  { intros q Q HQ. rewrite Hl. pose proof (sh_next _ _ _ _ H q Q HQ). by destruct (decide _); [lia|]. }
  destruct (splice_shape x rest qs m1 (m_next m) X (MkPromise no_link None None None None false e (Some x) c0) w follow) as [[E Hs]|Hs]; try done.
  - by apply Hc1.
  - by apply Hkeep.
  - rewrite Hl. by destruct (decide _).
  - by destruct c0.
  - destruct w; try done. destruct Hw as (-> & Hpol & [Hnd Hj] & Hu). split; [done|]. split; [|split; [done|]].
    + intros Hin. destruct (Hj _ Hin) as (J & HJ & _). pose proof (sh_next _ _ _ _ H _ J HJ). lia.
    + split; [split; [done|]|].
      * intros j Hin. destruct (Hj j Hin) as (J & HJ & Ho). exists J. split; [by apply Hkeep|done].
      * eapply Forall_impl; [exact Hu|]. intros j (J & HJ & Hj'). exists J. split; [by apply Hkeep|done].
  - by left.
  - right. destruct Hs as (err & X' & C' & qs' & H2 & H3 & H4 & H5 & H6 & H7 & H8 & H9 & _). by exists err, X', C', qs'.
Qed.

Lemma exec_shape x rest q : ∀ qs m X, shape (Some x) rest qs m → calm x m → m_promises m !! x = Some X → kind (p_code X) = None → ∃ qs', shape None rest qs' (exec x q m).
Proof.
  induction q as [o|k IH|w k IH|k IH|key k IH|key v k IH|child IHc follow kept k IH|jobs pol k IH]; intros qs m X H Hcalm HX Hk; cbn [exec].
  - apply (finish_shape x rest qs m X o); try done. intros jobs. by rewrite Hk.
  - destruct (yield_shape x rest qs m X (k (inl Unit)) H Hcalm HX Hk) as (m' & -> & Hs). by eexists.
  - destruct (m_wand m) as [w'|] eqn:Hw; [|by eapply IH]. pose proof (park_shape x rest qs m X k w' H Hcalm HX Hk Hw) as Hs. destruct (stop_of x _); [|by exists qs].
    eapply shape_similar; [|exact Hs]. apply similar_cancel. by apply (shape_parked _ _ _ _ Hs).
  - by eapply IH.
  - by eapply IH.
  - assert (similar m (upd x (λ P, set_env (<[key := v]> (p_env P)) P) m)) as Hs by (by apply similar_upd).
    destruct (shape_similar _ _ _ _ _ Hs H) as [qs' H']. eapply IH; [exact H'|eapply calm_similar; [by apply similar_frames|done]|by apply upd_eq|done].
  - destruct (splice_new x rest qs m X (Body child) (env_of x m) (Awaiting (m_next m) kept k) follow H Hcalm HX Hk I (conj eq_refl eq_refl)) as [[E Hs]|(e & X' & C' & qs' & E & Hs & Hc & HX' & Hk' & HC' & Ho' & Hr')];
      cbn [new_task] in *; destruct (splice_handle _ _ _ _) as [r m2]; cbn [fst snd] in *; subst r; [done|].
    destruct kept; [by eapply IH|]. destruct (drop_shape x rest qs' m2 _ C' Hs Hc HC' Ho' Hr') as (Hs2 & Hc2 & HX2). by eapply IH; [..|apply HX2|].
  - pose proof (sh_next _ _ _ _ H x X HX) as Hlt. destruct (new_tasks_shape (Some x) rest qs (m_next m + length jobs) (env_of x m) jobs m H) as (H1 & Hc1 & Ejs & Hn & Hlow & Hjs).
    destruct (new_tasks jobs (env_of x m) (m_next m + length jobs) m) as [js m1]. cbn [fst snd] in *. assert (m_promises m1 !! x = Some X) as HX1 by (by rewrite Hlow).
    assert (jobs_of m1 (m_next m1) js ∧ Forall (unstarted m1) js) as Hj.
    { split; [split; [rewrite Ejs; apply NoDup_seq|]|]; [intros j Hj; rewrite Hn; by apply Hjs|]. apply Forall_forall. intros j Hj. by apply Hjs. }
    destruct (splice_new x rest qs m1 X (SettleStart js pol) (env_of x m1) (Awaiting (m_next m1) false k) true H1 (Hc1 x Hcalm) HX1 Hk Hj (conj eq_refl eq_refl)) as [[E Hs]|(e & X' & C' & qs' & E & Hs & Hc & HX' & Hk' & HC' & Ho' & Hr')];
      cbn [new_task] in *; destruct (splice_handle _ _ _ _) as [r m2]; cbn [fst snd] in *; subst r; [done|].
    destruct (drop_shape x rest qs' m2 _ C' Hs Hc HC' Ho' Hr') as (Hs2 & Hc2 & HX2). by eapply IH; [..|apply HX2|].
Qed.

(** ** Waking a task *)

(** The task at the head of the queue runs: what it waited for is there. *)
Lemma wake_shape rest qs m p id : shape None (id :: rest) (p :: qs) m → id = l_id (lk m p) ∧ shape (Some p) rest qs m ∧ calm p m.
Proof.
  intros H. pose proof (sh_queue _ _ _ _ H) as Hq. cbn in Hq. injection Hq as Hid Hq. split; [done|].
  pose proof (sh_nodup _ _ _ _ H) as [Hpq Hnd]%NoDup_cons. pose proof (sh_queued _ _ _ _ H p ltac:(by left)) as Hpr.
  apply running_some in Hpr as Hp. destruct Hp as (P & HP & Hl & Hd). pose proof (sh_frame _ _ _ _ H p P HP ltac:(done)) as HF. split.
  - split; try apply H; try done.
    + intros q Hin. apply H. by right.
    + intros q Q HQ Hqx. eapply (frame_same m); [by apply H| | | |].
      * intros c _. by apply looks_same.
      * rewrite elem_of_cons. split; [by right|]. intros [->|?]; [congruence|done].
      * intros s S jobs _ _ _ HS _. by exists S.
      * intros w coin k _ Hw. by exists w.
    + intros w coin q Hw Hin. destruct (sh_parked _ _ _ _ H w coin q Hw Hin) as (Q & k & HQ & Hc & _). exists Q, k. split_and!; try done. intros [= ->].
      assert (Q = P) as -> by congruence. unfold frame_ok in HF. rewrite Hc in HF. destruct HF as (_ & w' & Hw' & [[_ Hn]|(Hn & _)]); [by apply Hn; left|congruence].
    + by intros q [= <-].
  - intros c C HC Hr. apply running_some in Hr as Hr'. destruct Hr' as (C0 & HC0 & _ & Hdc). assert (C0 = C) as -> by congruence.
    destruct (sh_role _ _ _ _ H c C HC Hr) as [(E1 & E2 & E3)|[(q & Q & E1 & E2 & E3 & HQ & Hw)|(s & S & g & G & i & jobs & pol & gr & E1 & E2 & E3 & HS & HcS & HG & HcG & Hi)]]; [by rewrite E1, E3|..].
    + rewrite E1, E3. split; [|done]. intros [= ->]. assert (Q = P) as -> by congruence. unfold frame_ok, child_ok in HF. destruct (p_code P); try done; simplify_eq/=.
      * destruct HF as (C1 & (HC1 & _ & _ & _ & _ & Hiff) & _). assert (C1 = C) as -> by congruence. rewrite Hdc in Hiff. by assert (false = true) by (apply Hiff; by left).
      * destruct HF as (_ & C1 & (HC1 & _ & _ & _ & _ & Hiff) & _). assert (C1 = C) as -> by congruence. rewrite Hdc in Hiff. by assert (false = true) by (apply Hiff; by left).
    + rewrite E1, E3. split.
      * intros [= ->]. assert (S = P) as -> by congruence. unfold frame_ok, child_ok in HF. rewrite HcS in HF. destruct HF as (_ & G1 & (HG1 & _ & _ & _ & _ & Hiff) & _). assert (G1 = G) as -> by congruence.
        rewrite HcG in Hiff. by assert (false = true) by (apply Hiff; by left).
      * intros i' [= -> <-]. assert (G = P) as -> by congruence. unfold frame_ok in HF. rewrite HcG in HF. destruct HF as (_ & _ & Hact & [(_ & Hn & _)|(_ & H0)]); [by apply Hn; left|].
        rewrite H0 in Hact. symmetry in Hact. apply length_zero_iff_nil in Hact. assert (c ∈ filter (λ j, running j m = true) jobs) as Hin by (apply list_elem_of_filter; split; [done|by apply list_elem_of_lookup_2 in Hi]).
        rewrite Hact in Hin. by apply not_elem_of_nil in Hin.
Qed.

Lemma idle_active m jobs : active m jobs = 0 ↔ Forall (λ j, running j m = false) jobs.
Proof.
  unfold active. split.
  - intros E. apply Forall_forall. intros j Hj. destruct (running j m) eqn:Hr; [|done]. assert (j ∈ filter (λ j, running j m = true) jobs) as Hin by (by apply list_elem_of_filter).
    apply length_zero_iff_nil in E. rewrite E in Hin. by apply not_elem_of_nil in Hin.
  - intros HF. apply length_zero_iff_nil. destruct (filter _ jobs) as [|j l] eqn:E; [done|]. assert (j ∈ filter (λ j, running j m = true) jobs) as [Hr Hin]%list_elem_of_filter by (rewrite E; by left).
    rewrite Forall_forall in HF. specialize (HF j Hin). congruence.
Qed.

(** ** Groups *)

(** A link of a job that does not run is destroyed. *)
Lemma unlink_shape x rest qs m g j : shape x rest qs m → running j m = false →
  shape x rest qs (unlink g j m) ∧ (∀ q, running q (unlink g j m) = running q m) ∧ (∀ q, q ≠ j → m_promises (unlink g j m) !! q = m_promises m !! q) ∧ (∀ y, calm y m → calm y (unlink g j m)).
Proof.
  intros H Hr. set (m' := unlink g j m). assert (∀ q, q ≠ j → m_promises m' !! q = m_promises m !! q) as Hne by (intros q Hq; by apply upd_ne).
  assert (∀ J, m_promises m !! j = Some J → ∃ J', m_promises m' !! j = Some J' ∧ alike J J' ∧ p_code J' = p_code J) as HJ.
  { intros J HJ. eexists. split; [by apply upd_eq|]. cbv beta. destruct (bool_decide _); by split. }
  assert (m_promises m !! j = None → m_promises m' !! j = None) as HJ0 by (intros E; unfold m', unlink, upd; cbn; by rewrite lookup_alter_eq, E).
  assert (∀ q, looks m m' q) as Hlook. { intros q. destruct (decide (q = j)) as [->|Hq]; [|by apply looks_same, Hne]. intros J E. destruct (HJ J E) as (J' & ? & ? & _). by exists J'. }
  assert (∀ q, running q m' = running q m) as Hrun.
  { intros q. destruct (m_promises m !! q) as [Q|] eqn:E; [by apply looks_running|]. unfold running. rewrite E. destruct (decide (q = j)) as [->|Hq]; [by rewrite HJ0|by rewrite Hne, E]. }
  assert (∀ q, lk m' q = lk m q) as Hlk.
  { intros q. unfold lk. destruct (m_promises m !! q) as [Q|] eqn:E; [by destruct (Hlook q Q E) as (Q' & -> & [-> _ _ _ _ _ _])|]. destruct (decide (q = j)) as [->|Hq]; [by rewrite HJ0|by rewrite Hne, E]. }
  assert (∀ q Q, m_promises m !! q = Some Q → ∃ Q', m_promises m' !! q = Some Q' ∧ p_code Q' = p_code Q) as Hcode.
  { intros q Q E. destruct (decide (q = j)) as [->|Hq]; [|exists Q; by rewrite Hne]. destruct (HJ Q E) as (J' & ? & _ & ?). by exists J'. }
  split; [|split; [done|split; [done|]]].
  2:{ intros y Hy c C HC Hc. rewrite Hrun in Hc. rewrite Hne in HC; [by apply (Hy c C)|]. intros ->. congruence. }
  split; try apply H.
  - apply (table_ok_ext (lk m) _ (m_deck m)); try done. apply H.
  - intros q Q HQ. change (m_next m') with (m_next m). destruct (m_promises m !! q) as [Q0|] eqn:E; [by apply (sh_next _ _ _ _ H q Q0)|]. destruct (decide (q = j)) as [->|Hq]; [rewrite HJ0 in HQ by done; congruence|rewrite Hne in HQ by done; congruence].
  - cbn. rewrite (sh_queue _ _ _ _ H). apply list_fmap_ext. intros i q _. by rewrite Hlk.
  - intros q Hq. rewrite Hrun. by apply H.
  - intros q Q HQ Hqx. assert (∃ Q0, m_promises m !! q = Some Q0 ∧ p_code Q = p_code Q0 ∧ p_link Q = p_link Q0 ∧ p_owner Q = p_owner Q0) as (Q0 & HQ0 & Ec & El & Eo).
    { destruct (decide (q = j)) as [->|Hq]; [|exists Q; by rewrite <- Hne]. destruct (m_promises m !! j) as [J|] eqn:E; [|rewrite HJ0 in HQ by done; congruence]. destruct (HJ J eq_refl) as (J' & HJ' & [? ? ? ? ? ? ?] & ?). exists J. by simplify_eq. }
    assert (frame_ok m' qs q Q0) as HF.
    { eapply (frame_same m); [by apply H|by intros; apply Hlook|done| |intros w coin k _ Hw; by exists w]. intros s S jobs _ _ _ HS _. by apply Hcode. }
    unfold frame_ok, child_ok, group_of, linked in *. by rewrite Ec, El, ?Eo.
  - intros c C HC Hc. rewrite Hrun in Hc. assert (c ≠ j) as Hcj by congruence. rewrite Hne in HC by done. eapply (role_same m); [by apply H|done..| |].
    + intros q Q _ HQ _. by apply Hcode.
    + intros g' i G jobs pol gr _ HG Hg. destruct (Hcode g' G HG) as (G' & HG' & E). exists G', gr. by rewrite E.
  - intros w coin q Hw Hq. destruct (sh_parked _ _ _ _ H w coin q Hw Hq) as (Q & k & HQ & Hc & Hqx). destruct (Hcode q Q HQ) as (Q' & HQ' & E). exists Q', k. by rewrite E.
  - intros q Hq. rewrite Hrun. by apply H.
Qed.

Lemma unlink_all_shape x rest qs g jobs : ∀ m, shape x rest qs m → Forall (λ j, running j m = false) jobs → let m' := foldr (unlink g) m jobs in
  shape x rest qs m' ∧ (∀ q, running q m' = running q m) ∧ (∀ q, q ∉ jobs → m_promises m' !! q = m_promises m !! q) ∧ (∀ y, calm y m → calm y m').
Proof.
  induction jobs as [|j jobs IH]; intros m H HF; [done|]. apply Forall_cons in HF as [Hj HF]. cbn [foldr]. destruct (IH m H HF) as (H1 & Hr1 & Hl1 & Hc1).
  destruct (unlink_shape x rest qs (foldr (unlink g) m jobs) g j H1) as (H2 & Hr2 & Hl2 & Hc2); [by rewrite Hr1|]. split; [done|]. split; [intros q; by rewrite Hr2|]. split; [|intros y Hy; by apply Hc2, Hc1].
  intros q [Hq1 Hq2]%not_elem_of_cons. by rewrite Hl2, Hl1.
Qed.

(** The end of a group whose jobs are done. *)
Lemma group_finish_shape x rest qs m X jobs pol gr : shape (Some x) rest qs m → calm x m → m_promises m !! x = Some X → p_code X = GroupWait jobs pol gr →
  Forall (λ j, running j m = false) jobs → ∃ qs', shape None rest qs' (group_finish x m).
Proof.
  intros H Hcalm HX Hc HF. unfold group_finish. rewrite HX. cbn [fmap option_fmap option_map]. rewrite Hc. destruct (unlink_all_shape (Some x) rest qs x jobs m H HF) as (H1 & Hr1 & Hl1 & Hc1).
  assert (x ∉ jobs) as Hxj. { intros Hin. rewrite Forall_forall in HF. specialize (HF x Hin). destruct (sh_running _ _ _ _ H x eq_refl). congruence. }
  eapply finish_shape; [exact H1|by apply Hc1|by rewrite Hl1|]. intros jobs' Hk. rewrite Hc in Hk. cbn in Hk. simplify_eq. eapply Forall_impl; [exact HF|]. intros j. by rewrite Hr1.
Qed.

(** The group [g] of the jobs [all] while it is set up; it is not calm, its jobs run. *)
Record setup (rest : list Z) (qs : list nat) (g : nat) (all : list nat) (m : machine) : Prop := {
  su_shape : shape (Some g) rest qs m;
  su_group : ∃ G s S pol gr, m_promises m !! g = Some G ∧ p_code G = GroupWait all pol gr ∧ waiter gr = false ∧ pending gr = active m all ∧
    p_owner G = Some s ∧ m_promises m !! s = Some S ∧ p_code S = SettleWait all g ∧ jobs_of m s all;
  su_self : g ∉ all;
  su_own : ∀ c C, m_promises m !! c = Some C → running c m = true → p_owner C ≠ Some g;
}.

Lemma setup_similar rest qs g all m m' : similar m m' → setup rest qs g all m → ∃ qs', setup rest qs' g all m'.
Proof.
  intros H [Hs (G & s & S & pol & gr & HG & HcG & Hw & Hp & Ho & HS & HcS & Hj) Hn Hown]. destruct (shape_similar _ _ _ _ _ H Hs) as [qs' Hs']. exists qs'. clear Hs. apply similar_frames in H. split; [done| |done|].
  - destruct (same_lookup m m' g G H HG) as (G' & HG' & (_ & _ & _ & Eo & Ec)%mask_fields). destruct (same_lookup m m' s S H HS) as (S' & HS' & (_ & _ & _ & _ & Es)%mask_fields).
    rewrite HcG in Ec. rewrite HcS in Es. destruct (p_code G') as [| | | | | |all' pol' gr'|] eqn:EG; try discriminate Ec. destruct (p_code S') eqn:ES; try discriminate Es. destruct gr, gr'. simplify_eq/=.
    eexists G', s, S', _, _. split; [done|]. split; [exact EG|]. rewrite (active_similar m m') by done. cbn. split_and!; try done; [by rewrite Eo|by eapply jobs_of_similar].
  - intros c C' HC' Hr. assert (same_frames m' m) as H' by by symmetry. destruct (same_lookup m' m c C' H' HC') as (C & HC & (_ & _ & _ & E5 & _)%mask_fields). rewrite <- E5.
    apply (Hown c C HC). by rewrite <- (running_similar m m').
Qed.

Lemma active_up m m' jobs x : NoDup jobs → x ∈ jobs → running x m = false → running x m' = true → (∀ j, j ≠ x → running j m' = running j m) → active m' jobs = S (active m jobs).
Proof. intros Hnd Hin Hx Hx' Hne. apply (active_down m' m jobs x); try done. intros j Hj. by rewrite Hne. Qed.

(** A job is observed and, if the table has a row for it, started. *)
Lemma job_shape rest qs qs' g all m m' j J J' i G pol gr gr' : setup rest qs g all m → m_promises m !! j = Some J → p_link J = no_link → p_cont J = None → code_done (p_code J) = false → kind (p_code J) = None →
  all !! i = Some j → m_promises m !! g = Some G → p_code G = GroupWait all pol gr →
  (∀ p, p ≠ j → p ≠ g → m_promises m' !! p = m_promises m !! p) → m_promises m' !! g = Some (set_code (GroupWait all pol gr') G) → waiter gr' = false →
  m_promises m' !! j = Some J' → p_owner J' = p_owner J → p_cont J' = None → p_code J' = p_code J → p_completion J' = Some (g, i) →
  m_crash m' = m_crash m → m_next m' = m_next m → m_wand m' = m_wand m →
  (linked J' ∧ pending gr' = S (pending gr) ∧ qs' = qs ++ [j] ∧ ready (m_deck m') = ready (m_deck m) ++ [l_id (p_link J')] ∧
     length (rows (m_deck m')) = length (rows (m_deck m)) ∧ table_ok (<[j := p_link J']> (lk m)) (m_deck m') ∨
   p_link J' = no_link ∧ pending gr' = pending gr ∧ qs' = qs ∧ m_deck m' = m_deck m) →
  setup rest qs' g all m'.
Proof.
  intros [H (G0 & s & S & pol0 & gr0 & HG0 & HcG0 & _ & Hact & Hos & HS & HcS & Hjo) Hgn Hown] HJ Hlj Hcj Hdj Hkin Hi HG HcG Hne HG' Hwt HJ' Eo Econt Ecode Ecomp Hcr Hnext Hwand Hcase.
  assert (G0 = G) as -> by congruence. rewrite HcG in HcG0. injection HcG0 as <- <-. destruct (running_role g rest qs m G H HG) as (Hlg & Hdg & HRg & Hgq).
  assert (j ∈ all) as Hin by (by apply list_elem_of_lookup_2 in Hi). assert (running j m = false) as Hrj by (unfold running; by rewrite HJ, Hlj).
  assert (running g m = true) as Hgr by (apply running_some; by exists G). assert (s ≠ g) as Hsg by (intros ->; congruence).
  assert (running s m = true) as Hsr by (pose proof (waiting_running _ _ _ _ _ _ H HS ltac:(congruence)) as E; by rewrite HcS in E).
  assert (j ≠ g) as Hjg by congruence. assert (j ≠ s) as Hjs by congruence. assert (p_owner J = Some s) as Hoj by (destruct (proj2 Hjo j Hin) as (J0 & HJ0 & ?); congruence).
  destruct (idle_code _ _ _ _ _ _ H HJ Hrj) as (Hi1 & Hi2 & Hi3). assert (j ∉ qs) as Hjq by (intros E; apply (sh_queued _ _ _ _ H) in E; congruence).
  set (G' := set_code (GroupWait all pol gr') G) in *. assert (alike G G') as Hal by (split; try done; unfold G'; cbn; by rewrite HcG).
  assert (∀ p, p ≠ j → running p m' = running p m) as Hrun.
  { intros p Hp. unfold running. destruct (decide (p = g)) as [->|Hpg]; [by rewrite HG', HG, (al_link _ _ Hal), (al_done _ _ Hal)|by rewrite Hne]. }
  assert (∀ p, p ≠ j → lk m' p = lk m p) as Hlk. { intros p Hp. unfold lk. destruct (decide (p = g)) as [->|Hpg]; [by rewrite HG', HG|by rewrite Hne]. }
  assert (lk m' j = p_link J') as Hlkj by (unfold lk; by rewrite HJ').
  assert (jobs_of m' s all) as Hjo'.
  { destruct Hjo as [Hnd Hj]. split; [done|]. intros k Hk. destruct (Hj k Hk) as (K & HK & Ho). destruct (decide (k = j)) as [->|Hkj]; [exists J'; split; [done|congruence]|].
    destruct (decide (k = g)) as [->|Hkg]; [exists G'; split; [done|by rewrite (al_owner _ _ Hal)]|]. exists K. by rewrite Hne. }
  assert (pending gr' = active m' all ∧ (∀ p, p ≠ j → p ∈ qs' ↔ p ∈ qs) ∧ NoDup qs' ∧ (running j m' = true → j ∈ qs') ∧ (∀ p, p ∈ qs' → running p m' = true) ∧ (g ∉ qs') ∧
    table_ok (lk m') (m_deck m') ∧ length (rows (m_deck m')) = length (rows (m_deck m)) ∧ rest ++ ready (m_deck m') = (λ p, l_id (lk m' p)) <$> qs') as (Hact' & Hqs & Hnd & Hjq' & Hqr & Hgq' & Htab & Hrows & Hq).
  { assert (∀ p, p ∈ qs → p ≠ j) as Hqj by (by intros p Hp ->). destruct Hcase as [(Hl & -> & -> & Hrd & Hrows & Htab)|(Hl & -> & -> & Hdk)].
    - assert (running j m' = true) as Hrj' by (apply running_some; exists J'; by rewrite Ecode). rewrite (active_up m m' all j (proj1 Hjo) Hin Hrj Hrj' Hrun). split_and!; try done; [lia|..].
      + intros p Hp. by apply elem_snoc_ne.
      + apply NoDup_snoc; [done|apply H].
      + intros _. apply elem_snoc.
      + intros p [Hp|Hp%list_elem_of_singleton]%elem_of_app; [rewrite Hrun; [by apply H|by apply Hqj]|by subst].
      + intros [?|?%list_elem_of_singleton]%elem_of_app; congruence.
      + apply (table_ok_ext _ _ _ _ Htab); try done. intros p. destruct (decide (j = p)) as [<-|Hp]; [by rewrite fn_lookup_insert|rewrite fn_lookup_insert_ne, Hlk by done; done].
      + rewrite Hrd, app_assoc, (sh_queue _ _ _ _ H), fmap_app. cbn. rewrite Hlkj. f_equal. apply list_fmap_ext. intros n p Hp. rewrite Hlk; [done|]. apply Hqj. by apply list_elem_of_lookup_2 in Hp.
    - assert (running j m' = false) as Hrj' by (unfold running; by rewrite HJ', Hl). assert (∀ p, lk m' p = lk m p) as Hlk2 by (intros p; destruct (decide (p = j)) as [->|Hp]; [rewrite Hlkj, Hl; unfold lk; by rewrite HJ|by apply Hlk]).
      rewrite Hrj', Hdk. split_and!; try done; try apply H.
      + rewrite Hact. symmetry. apply active_same. intros p _. destruct (decide (p = j)) as [->|Hp]; [congruence|by apply Hrun].
      + intros p Hp. rewrite Hrun; [by apply H|by apply Hqj].
      + by apply (table_ok_ext (lk m) _ (m_deck m)); [apply H|..].
      + rewrite (sh_queue _ _ _ _ H). apply list_fmap_ext. intros n p _. by rewrite Hlk2. }
  split; [|by eexists G', s, S, pol, gr'; split_and!; try done; rewrite Hne|done|].
  2:{ intros c C HC Hr. destruct (decide (c = j)) as [->|Hcj']; [assert (C = J') as -> by congruence; congruence|]. rewrite Hrun in Hr by done. destruct (decide (c = g)) as [->|Hcg].
      - assert (C = G') as -> by congruence. rewrite (al_owner _ _ Hal). by apply (Hown g G).
      - rewrite Hne in HC by done. by apply (Hown c C). }
  assert (∀ g2 G2 jobs2 pol2 gr2, m_promises m !! g2 = Some G2 → p_code G2 = GroupWait jobs2 pol2 gr2 → ∃ G3 gr3, m_promises m' !! g2 = Some G3 ∧ p_code G3 = GroupWait jobs2 pol2 gr3) as Hform.
  { intros g2 G2 jobs2 pol2 gr2 HG2 HcG2. destruct (decide (g2 = g)) as [->|Hg2]; [|exists G2, gr2; rewrite Hne; [done|intros ->; congruence|done]].
    exists G', gr'. split; [done|]. assert (G2 = G) as -> by congruence. rewrite HcG in HcG2. by simplify_eq. }
  eapply (step_shape_to (Some g) (Some g) rest qs qs' m m' [g; j; s]); try done.
  - intros p Hp. apply Hne; intros ->; apply Hp; [by right; left|by left].
  - rewrite Hcr. apply H.
  - intros p P HP. rewrite Hnext. assert (is_Some (m_promises m !! p)) as [P' HP'].
    { destruct (decide (p = j)) as [->|Hpj]; [by eexists|]. destruct (decide (p = g)) as [->|Hpg]; [by eexists|]. rewrite <- Hne by done. by eexists. }
    by apply (sh_next _ _ _ _ H p P').
  - intros p [= ->]. by left.
  - intros p [= <-]. split; [by left|]. by rewrite Hrun.
  - intros p P Hp HP. apply elem_of_cons in Hp as [->|Hp]; [|apply elem_pair in Hp as [->| ->]].
    + assert (P = G') as -> by congruence. split; [done|]. intros _. eapply (role_same m); [exact HRg|done..| |].
      * intros q Q Hq' HQ _. exists Q. assert (q = s) as -> by congruence. by rewrite Hne.
      * intros g2 i2 G2 jobs2 pol2 gr2 Hg2 HG2 HcG2. by apply (Hform g2 G2 jobs2 pol2 gr2).
    + assert (P = J') as -> by congruence. split.
      * intros _. eapply (start_frame_in g rest qs qs' m m' j s J J'); try done; [|intros jobs2 pol2 Ej; by rewrite Ej in Hkin]. intros HL. apply Hjq'. apply running_some. exists J'. by rewrite Ecode.
      * intros _. right. right. exists s, S, g, G', i, all, pol, gr'. rewrite Eo, (Hne s) by done. by split_and!.
    + rewrite Hne in HP by done. assert (P = S) as -> by congruence. split.
      * intros _. pose proof (sh_frame _ _ _ _ H s S HS ltac:(congruence)) as HFs. unfold frame_ok, child_ok in HFs |- *. rewrite HcS in HFs |- *. destruct HFs as (_ & G2 & (HG2 & F1 & F2 & F3 & F4 & F5) & _).
        assert (G2 = G) as -> by congruence. split; [done|]. exists G'. rewrite (Hqs s) by done. rewrite HcG in F5. by split_and!.
      * intros _. eapply (role_same m); [by apply (sh_role _ _ _ _ H s S HS)|done..| |].
        -- intros q Q Hoq HQ Hwq. exists Q. rewrite Hne; [done|intros ->; congruence|]. intros ->. by destruct (Hown s S HS Hsr).
        -- intros g2 i2 G2 jobs2 pol2 gr2 Hg2 HG2 HcG2. by apply (Hform g2 G2 jobs2 pol2 gr2).
  - intros p Hp _. apply Hqs. intros ->. apply Hp. by right; left.
  - intros p P c Hp HP Hc HcD. assert (p ≠ g) as Hpg by (intros ->; apply Hp; by left). assert (p ≠ s) as Hps by (intros ->; apply Hp; by right; right; left).
    apply elem_of_cons in HcD as [->|HcD]; [|apply elem_pair in HcD as [->| ->]].
    + intros C HC. assert (C = G) as -> by congruence. by exists G'.
    + destruct (refs_owner _ _ _ _ _ _ _ H HP ltac:(congruence) Hc) as (C1 & q1 & Q1 & HC1 & Ho1 & HQ1 & _ & Hc1). assert (C1 = J) as -> by congruence. assert (q1 = s) as -> by congruence.
      assert (Q1 = S) as -> by congruence. destruct Hc1 as [->|(_ & _ & Hw1)]; [done|]. rewrite HcS in Hw1. cbn in Hw1. congruence.
    + by apply looks_same, Hne.
  - intros p P q Q Hp HP Hr Hoq HqD HQ Hwq. apply elem_of_cons in HqD as [->|HqD]; [by destruct (Hown p P HP Hr)|]. apply elem_pair in HqD as [->| ->]; [congruence|]. exists Q. by rewrite Hne.
  - intros c C g2 i2 G2 jobs2 pol2 gr2 _ _ _ _ _ HG2 HcG2. by apply (Hform g2 G2 jobs2 pol2 gr2).
  - rewrite Hwand. apply H.
  - intros w coin p Hmw Hp. rewrite Hwand in Hmw. destruct (sh_parked _ _ _ _ H w coin p Hmw Hp) as (P & k & HP & Hc & Hpx). exists P, k. rewrite Hne; [done|intros ->; congruence|congruence].
  - intros p P coin k w _ _ _ Hmw. rewrite Hwand. by exists w.
Qed.

Lemma set_code_same P : set_code (p_code P) P = P.
Proof. by destruct P. Qed.

(** One job of the visit. *)
Lemma visit_job rest qs g all m j i : setup rest qs g all m → unstarted m j → all !! i = Some j →
  let m1 := upd j (set_completion (Some (g, i))) m in
  (∃ e, start j m1 = (Throw e, m1) ∧ setup rest qs g all m1) ∨
  (∃ m2 qs', start j m1 = (Ret tt, m2) ∧ setup rest qs' g all (upd g (on_group more_pending) m2) ∧
    ∀ p, p ≠ j → p ≠ g → m_promises (upd g (on_group more_pending) m2) !! p = m_promises m !! p).
Proof.
  intros Hs (J & HJ & Hl & Hcomp & Hcont & Hd & Hk) Hi m1. pose proof Hs as [H (G & s & S & pol & gr & HG & HcG & Hw & Hact & Hos & HS & HcS & Hjo) Hgn Hown].
  assert (running j m = false) as Hrj by (unfold running; by rewrite HJ, Hl). destruct (sh_running _ _ _ _ H g eq_refl) as [Hgr _]. assert (j ≠ g) as Hjg by congruence.
  assert (m_promises m1 !! j = Some (set_completion (Some (g, i)) J)) as HJ1 by (by apply upd_eq). assert (m_promises m1 !! g = Some G) as HG1 by (unfold m1; by rewrite upd_ne).
  assert (start j m1 = enqueue_task j m1) as -> by (unfold start, done; rewrite HJ1; cbn; by rewrite Hd).
  pose proof (upd_table j (set_completion (Some (g, i))) m J (sh_table _ _ _ _ H) HJ eq_refl) as Htab.
  destruct (enqueue_unlinked_task m1 j _ Htab (sh_max _ _ _ _ H) HJ1 Hl) as [[_ ->]|(l & d & Hl0 & _ & -> & Hrd & Hrows & Htab')]; [left|right].
  - eexists. split; [done|]. eapply (job_shape rest qs qs g all m m1 j J _ i G pol gr gr); try done.
    + intros p Hpj _. by apply upd_ne.
    + rewrite <- HcG. by rewrite set_code_same.
    + right. done.
  - eexists _, (qs ++ [j]). split; [done|]. split.
    + eapply (job_shape rest qs _ g all m _ j J (set_link l (set_completion (Some (g, i)) J)) i G pol gr (more_pending gr)); try done.
      * intros p Hpj Hpg. rewrite upd_ne by done. cbn. rewrite lookup_alter_ne by done. by apply upd_ne.
      * erewrite upd_eq; [|cbn; rewrite lookup_alter_ne by done; exact HG1]. unfold on_group. by rewrite HcG.
      * rewrite upd_ne by done. by apply upd_eq.
      * left. split; [done|]. split; [done|]. split; [done|]. split; [done|]. split; [done|]. apply (table_ok_ext _ _ _ _ Htab'); try done. intros p.
        destruct (decide (j = p)) as [<-|Hp]; [by rewrite !fn_lookup_insert|]. rewrite !fn_lookup_insert_ne by done. unfold m1. rewrite (lk_upd m j _ J HJ). by destruct (decide (j = p)).
    + intros p Hpj Hpg. rewrite upd_ne by done. cbn. rewrite lookup_alter_ne by done. by apply upd_ne.
Qed.

Lemma group_fail_similar g jobs e m : parked_ok m → similar m (group_fail g jobs e m).
Proof. intros H. unfold group_fail. assert (similar m (upd g (on_group (set_failure e)) m)) as H1 by (by apply similar_group). etrans; [exact H1|]. apply group_stop_similar. by apply (parked_similar m). Qed.

Lemma visit_shape rest g all jobs : ∀ i qs m, setup rest qs g all m → drop i all = jobs → (∀ j, j ∈ jobs → unstarted m j) → ∃ qs', setup rest qs' g all (group_visit g i all jobs m).
Proof.
  induction jobs as [|j jobs IH]; intros i qs m Hs Hdrop Hun; [by exists qs|]. cbn [group_visit]. destruct (Hun j ltac:(by left)) as (J & HJ & Hl & Hcomp & Hcont & Hd & Hk).
  assert (all !! i = Some j) as Hi by (rewrite <- (Nat.add_0_r i), <- lookup_drop, Hdrop; done). assert (drop (Datatypes.S i) all = jobs) as Hdrop'.
  { rewrite <- (Nat.add_1_r i), <- drop_drop, Hdrop. done. }
  assert (NoDup (j :: jobs)) as [Hnj _]%NoDup_cons. { destruct (su_group _ _ _ _ _ Hs) as (G & s & S & pol & gr & _ & _ & _ & _ & _ & _ & _ & Hnd & _). rewrite <- Hdrop. eapply sublist_NoDup; [done|apply sublist_drop]. }
  rewrite HJ. assert (∀ (f : outcome → machine) b, match p_code J with Done o => f o | _ => b end = b) as -> by (intros f b; by destruct (p_code J)).
  destruct (group_stopping g m). { apply (IH _ qs m Hs Hdrop'). intros j' Hj'. apply Hun. by right. }
  set (m1 := upd j (set_env (env_of g m)) m). assert (similar m m1) as Hsim by (by apply similar_upd). destruct (setup_similar _ _ _ _ _ _ Hsim Hs) as [qs1 Hs1]. apply similar_frames in Hsim.
  rewrite bool_decide_false by (rewrite Hcomp; congruence). assert (unstarted m1 j) as Hun1 by (by apply (unstarted_similar m), Hun; [|left]).
  destruct (visit_job rest qs1 g all m1 j i Hs1 Hun1 Hi) as [(e & -> & Hs2)|(m2 & qs' & -> & Hs2 & Hlook)].
  - eapply setup_similar; [|exact Hs2]. apply group_fail_similar. apply (shape_parked _ _ _ _ (su_shape _ _ _ _ _ Hs2)).
  - apply (IH _ qs' _ Hs2 Hdrop'). intros j' Hj'. pose proof (unstarted_similar m m1 j' Hsim (Hun j' ltac:(by right))) as (J' & HJ' & Hrest). exists J'. split; [|done]. rewrite Hlook; [done|by intros ->|].
    intros ->. destruct Hrest as (Hl' & _). destruct (sh_running _ _ _ _ (su_shape _ _ _ _ _ Hs1) g eq_refl) as [(G & HG & HlG & _)%running_some _]. assert (G = J') as -> by congruence. unfold linked in HlG. by rewrite Hl' in HlG.
Qed.

(** The running task gets to another point of its coroutine. *)
Lemma recode_shape x y rest qs m X c : shape (Some x) rest qs m → m_promises m !! x = Some X →
  (∀ q Q, m_promises m !! q = Some Q → running q m = true → p_owner Q ≠ Some x) →
  (∀ q Q i jobs pol gr, m_promises m !! q = Some Q → running q m = true → p_completion Q = Some (x, i) → p_code X = GroupWait jobs pol gr → ∃ gr', c = GroupWait jobs pol gr') →
  alike X (set_code c X) → match y with None => frame_ok (upd x (set_code c) m) qs x (set_code c X) | Some p => p = x end → shape y rest qs (upd x (set_code c) m).
Proof.
  intros H HX Hown Hgrp Hal Hy. destruct (running_role x rest qs m X H HX) as (_ & _ & _ & Hxq).
  eapply (step_self_to x y rest qs qs m _ X (set_code c X)); try done; try apply H.
  - by apply upd_insert.
  - by destruct y.
  - intros w coin p Hw Hp. destruct (sh_parked _ _ _ _ H w coin p Hw Hp) as (P & k & HP & Hc & Hpx). exists P, k. rewrite upd_ne by congruence. split_and!; try done. destruct y; [by subst|done].
  - intros p P coin k w _ _ _ Hw. by exists w.
Qed.

(** A group before its jobs are visited. *)
Lemma setup_start x rest qs m X jobs pol : shape (Some x) rest qs m → calm x m → m_promises m !! x = Some X → p_code X = GroupStart jobs pol → group_of m x X jobs →
  let m' := upd x (set_code (GroupWait jobs pol (MkGroup 0 false false None None false))) m in
  setup rest qs x jobs m' ∧ ∀ j, j ∈ jobs → unstarted m' j.
Proof.
  intros H Hcalm HX Hc (Hn & s & S & Ho & HS & HcS & Hnd & Hj) m'. assert (s ≠ x) as Hsx by (intros ->; congruence).
  pose proof (sh_frame _ _ _ _ H s S HS ltac:(congruence)) as HF. unfold frame_ok, child_ok in HF. rewrite HcS in HF. destruct HF as (_ & G & (HG & _) & HF).
  assert (G = X) as -> by congruence. rewrite Hc in HF. destruct HF as [_ Hun]. rewrite Forall_forall in Hun. destruct (sh_running _ _ _ _ H x eq_refl) as [Hxr _].
  assert (∀ p, p ≠ x → m_promises m' !! p = m_promises m !! p) as Hne by (intros p Hp; by apply upd_ne).
  assert (∀ j, j ∈ jobs → j ≠ x) as Hjx.
  { intros j Hin ->. destruct (Hun x Hin) as (J & HJ & Hl & _). apply running_some in Hxr as (X' & HX' & HL & _). assert (X' = J) as -> by congruence. unfold linked in HL. by rewrite Hl in HL. }
  assert (∀ j, j ∈ jobs → unstarted m' j) as Hun' by (intros j Hin; destruct (Hun j Hin) as (J & HJ & Hu); exists J; rewrite Hne by (by apply Hjx); done).
  split; [|done]. split.
  - eapply recode_shape; [done..| | | |done].
    + intros q Q HQ Hr. by apply (Hcalm q Q).
    + intros q Q i jobs' pol' gr' _ _ _ Hc'. congruence.
    + split; try done; cbn; by rewrite Hc.
  - eexists _, s, S, pol, _. split; [by apply upd_eq|]. split; [done|]. split; [done|]. split; [|split; [done|split; [by rewrite Hne|split; [done|]]]].
    + symmetry. apply idle_active, Forall_forall. intros j Hin. destruct (Hun' j Hin) as (J & HJ & Hl & _). unfold running. by rewrite HJ, Hl.
    + split; [done|]. intros j Hin. rewrite Hne by (by apply Hjx). by apply Hj.
  - done.
  - intros q Q HQ Hr. destruct (decide (q = x)) as [->|Hq]; [unfold m' in HQ; erewrite upd_eq in HQ by done; injection HQ as <-; cbn; congruence|].
    rewrite Hne in HQ by done. apply (Hcalm q Q HQ). unfold running in *. by rewrite Hne in Hr.
Qed.

(** The visit is over: the group waits for its jobs, or ends if none was started. *)
Lemma setup_end rest qs g all m : setup rest qs g all m → ∃ qs', shape None rest qs'
  match p_code <$> m_promises m !! g with
  | Some (GroupWait _ _ gr) => if (pending gr =? 0)%nat then group_finish g m else upd g (on_group (set_waiter true)) m
  | _ => crash m
  end.
Proof.
  intros [H (G & s & S & pol & gr & HG & HcG & Hw & Hp & Ho & HS & HcS & Hj) Hgn Hown]. destruct (running_role g rest qs m G H HG) as (Hl & Hd & HR & Hgq).
  rewrite HG. cbn [fmap option_fmap option_map]. rewrite HcG. destruct (Nat.eqb_spec (pending gr) 0) as [E|E].
  - assert (Forall (λ j, running j m = false) all) as Hidle by (apply idle_active; congruence). eapply (group_finish_shape g rest qs m G all pol gr); try done.
    intros c C HC Hr. split; [by apply (Hown c C)|]. intros i Hi.
    destruct (sh_role _ _ _ _ H c C HC Hr) as [(_ & _ & ?)|[(? & ? & _ & _ & ? & _)|(s1 & S1 & g1 & G1 & i1 & jobs & pol1 & gr1 & _ & _ & E1 & _ & _ & HG1 & HcG1 & Hin)]]; [congruence..|].
    assert (g1 = g) as -> by congruence. assert (G1 = G) as -> by congruence. assert (jobs = all) as -> by congruence. rewrite Forall_forall in Hidle.
    assert (c ∈ all) as Hca by (by apply list_elem_of_lookup_2 in Hin). specialize (Hidle c Hca). congruence.
  - assert (upd g (on_group (set_waiter true)) m = upd g (set_code (GroupWait all pol (set_waiter true gr))) m) as ->.
    { unfold upd. f_equal. apply map_eq. intros q. destruct (decide (g = q)) as [<-|Hq]; [|by rewrite !lookup_alter_ne]. rewrite !lookup_alter_eq, HG. cbn. f_equal. unfold on_group. by rewrite HcG. }
    assert (s ≠ g) as Hsg by (intros ->; congruence). set (X' := set_code (GroupWait all pol (set_waiter true gr)) G). assert (alike G X') as Hal by (split; try done; unfold X'; cbn; by rewrite HcG).
    exists qs. apply (recode_shape g None rest qs m G); try done; [intros q Q i jobs' pol' gr' _ _ _ Hc'; rewrite HcG in Hc'; simplify_eq; by eexists|].
    assert (∀ p, looks m (upd g (set_code (GroupWait all pol (set_waiter true gr))) m) p) as Hlook.
    { intros p. destruct (decide (p = g)) as [->|Hpg]; [|apply looks_same; by apply upd_ne]. intros P HP. assert (P = G) as -> by congruence. exists X'. split; [by apply upd_eq|done]. }
    unfold frame_ok. cbn [set_code p_code]. split; [done|]. split; [|split; [|left; by split_and!]].
    + split; [done|]. exists s, S. rewrite upd_ne by done. split_and!; try done. by apply (looks_jobs m).
    + cbn. rewrite Hp. symmetry. apply active_same. intros j Hin. destruct (proj2 Hj j Hin) as (J & HJ & _). by apply looks_running; [|exists J].
Qed.

(** The first resumption of a group: its jobs are started, and it waits unless none was. *)
Lemma group_start_shape x rest qs m X jobs pol : shape (Some x) rest qs m → calm x m → m_promises m !! x = Some X → p_code X = GroupStart jobs pol → group_of m x X jobs →
  ∃ qs', shape None rest qs' (group_start x jobs pol m).
Proof.
  intros H Hcalm HX Hc Hg. destruct (setup_start x rest qs m X jobs pol H Hcalm HX Hc Hg) as [Hs Hun]. unfold group_start.
  set (m1 := upd x (set_code _) m) in *. assert (∃ m2, similar m1 m2 ∧ (if stop_of x m1 then group_stop x jobs (upd x (on_group set_parent_stopped) m1) else m1) = m2) as (m2 & Hsim & ->).
  { eexists. split; [|done]. destruct (stop_of x m1); [|done]. assert (similar m1 (upd x (on_group set_parent_stopped) m1)) as H1 by (by apply similar_group). etrans; [exact H1|].
    apply group_stop_similar, (parked_similar m1); [done|]. apply (shape_parked _ _ _ _ (su_shape _ _ _ _ _ Hs)). }
  destruct (setup_similar _ _ _ _ _ _ Hsim Hs) as [qs2 Hs2]. apply similar_frames in Hsim. destruct (visit_shape rest x jobs jobs 0 qs2 m2) as [qs' Hv]; [done|done| |by apply (setup_end rest qs' x jobs)].
  intros j Hin. by apply (unstarted_similar m1), Hun.
Qed.

(** ** [settle] *)

Lemma settle_start_shape x rest qs m X jobs pol : shape (Some x) rest qs m → calm x m → m_promises m !! x = Some X → p_code X = SettleStart jobs pol →
  jobs_of m x jobs → Forall (unstarted m) jobs → ∃ qs', shape None rest qs' (settle_start x jobs pol m).
Proof.
  intros H Hcalm HX Hc Hj Hu. unfold settle_start.
  destruct (splice_new x rest qs m X (GroupStart jobs pol) (env_of x m) (SettleWait jobs (m_next m)) true H Hcalm HX ltac:(by rewrite Hc) I) as [[E Hs]|(e & X' & C' & qs' & E & Hs & Hc' & HX' & Hk' & HC' & Ho' & Hr')]; [by split_and!; [|eexists|..]|..];
    cbn [new_task] in *; destruct (splice_handle _ _ _ _) as [r m2]; cbn [fst snd] in *; subst r; [done|].
  destruct (drop_shape x rest qs' m2 _ C' Hs Hc' HC' Ho' Hr') as (Hs2 & Hc2 & HX2). eapply finish_shape; [done|done|by apply HX2|]. intros jobs' Hk. congruence.
Qed.

(** What the running task awaited is done, and goes. *)
Lemma drop_child x rest qs m c X C qs' : shape (Some x) rest qs m → calm x m → m_promises m !! x = Some X → child_ok m qs' x c X C → x ∈ qs' →
  shape (Some x) rest qs (destroy_task c m) ∧ calm x (destroy_task c m) ∧ m_promises (destroy_task c m) !! x = Some X.
Proof.
  intros H Hcalm HX (HC & _ & Ho & _ & _ & Hd) Hin. apply Hd in Hin. destruct (drop_shape x rest qs m c C H Hcalm HC Ho) as (H1 & H2 & H3); [unfold running; rewrite HC, Hin; by rewrite andb_false_r|].
  split_and!; try done. by apply H3.
Qed.

Lemma settle_finish_shape x rest qs m X jobs g G qs' : shape (Some x) rest qs m → calm x m → m_promises m !! x = Some X → p_code X = SettleWait jobs g →
  child_ok m qs' x g X G → x ∈ qs' → ∃ qs', shape None rest qs' (settle_finish x jobs g m).
Proof.
  intros H Hcalm HX Hc HG Hin. destruct (drop_child x rest qs m g X G qs' H Hcalm HX HG Hin) as (H1 & H2 & H3). unfold settle_finish.
  eapply finish_shape; [done..|]. intros jobs' Hk. by rewrite Hc in Hk.
Qed.

(** ** The pump *)

Lemma resume_shape rest qs m p id : shape None (id :: rest) (p :: qs) m → ∃ qs', shape None rest qs' (resume p m).
Proof.
  intros H. destruct (wake_shape rest qs m p id H) as (_ & Hs & Hcalm). destruct (sh_running _ _ _ _ Hs p eq_refl) as [Hr _]. apply running_some in Hr as (P & HP & Hl & Hd).
  pose proof (sh_frame _ _ _ _ H p P HP ltac:(done)) as HF. assert (p ∈ p :: qs) as Hin by (by left). unfold resume, frame_ok in *. rewrite HP. cbn [fmap option_fmap option_map].
  destruct (p_code P) as [q|c kept k|coin k|jobs pol|jobs g|jobs pol|jobs pol gr|o] eqn:Hc; [| | | | | | |done].
  - eapply exec_shape; [done..|by rewrite Hc].
  - destruct HF as (C & HC & _). destruct kept; [by eapply exec_shape; [..|rewrite Hc]|]. destruct (drop_child p rest qs m c P C (p :: qs)) as (H1 & H2 & H3); try done. eapply exec_shape; [done..|by rewrite Hc].
  - eapply exec_shape; [done..|by rewrite Hc].
  - destruct HF as (_ & Hj & Hu). by eapply settle_start_shape.
  - destruct HF as (_ & G & HG & _). by eapply (settle_finish_shape p rest qs m P jobs g G (p :: qs)).
  - destruct (HF Hl) as [_ Hg]. by eapply group_start_shape.
  - destruct HF as (_ & _ & Ha & [(_ & Hn & _)|[_ Hp]]); [done|]. eapply group_finish_shape; try done. apply idle_active. congruence.
Qed.

(** The id of a task names it. *)
Lemma running_resolve x rest qs m p : shape x rest qs m → running p m = true → ∃ i r, resolve (l_id (lk m p)) (m_deck m) = Some (i, r) ∧ r_handle r = Some p ∧ done p m = false.
Proof.
  intros H (P & HP & Hl & Hd)%running_some. pose proof (proj1 (linked_iff m p P (sh_table _ _ _ _ H) HP) Hl) as Hlk.
  destruct (linked_row _ _ p (sh_table _ _ _ _ H) Hlk) as (i & r & _ & _ & Hrow & _ & Hres & _). exists i, r. unfold done. rewrite HP. split_and!; try done. by rewrite Hrow.
Qed.

Lemma round_shape ids : ∀ qs m, shape None ids qs m → ∃ qs', shape None [] qs' (foldl resume_if_ready m ids).
Proof.
  induction ids as [|id ids IH]; intros qs m H; [by exists qs|]. cbn. destruct qs as [|p qs]; [pose proof (sh_queue _ _ _ _ H) as E; discriminate E|].
  destruct (wake_shape ids qs m p id H) as (-> & _). destruct (running_resolve _ _ _ _ p H ltac:(apply H; by left)) as (i & r & Hres & Hh & Hd). unfold resume_if_ready at 2. rewrite Hres, Hh, Hd.
  destruct (resume_shape ids qs m p _ H) as [qs' H']. by apply (IH qs').
Qed.

Lemma run_ready_shape qs m : shape None [] qs m → ∃ qs', shape None [] qs' (run_ready m).
Proof.
  intros H. unfold run_ready. apply (round_shape _ qs). set (m' := set_deck _ m). split; try apply H.
  - apply (table_ok_ext (lk m) _ (m_deck m)); try done. apply H.
  - cbn. rewrite app_nil_r. apply H.
Qed.

(** ** Between the rounds *)

(** The task [p] is queued while none runs. *)
Lemma queue_shape qs m m' p P P' : shape None [] qs m → m_promises m !! p = Some P → m_promises m' !! p = Some P' → (∀ q, q ≠ p → m_promises m' !! q = m_promises m !! q) →
  p_code P' = p_code P → p_cont P' = p_cont P → p_owner P' = p_owner P → p_completion P' = p_completion P → (p_link P' = p_link P ∨ p_owner P = None) → linked P' → code_done (p_code P) = false → p ∉ qs →
  m_crash m' = m_crash m → m_next m' = m_next m → length (rows (m_deck m')) = length (rows (m_deck m)) → table_ok (lk m') (m_deck m') → ready (m_deck m') = ready (m_deck m) ++ [l_id (p_link P')] →
  frame_ok m' (qs ++ [p]) p P' → role m' p P' →
  (∀ w coin, m_wand m' = Some w → coins w ≤ coin → parked w !! coin = None ∧ settled w !! coin = None) →
  (∀ w coin q, m_wand m' = Some w → parked w !! coin = Some q → ∃ Q k, m_promises m' !! q = Some Q ∧ p_code Q = Wishing coin k) →
  (∀ q Q coin k w, q ≠ p → m_promises m !! q = Some Q → p_code Q = Wishing coin k → m_wand m = Some w →
    ∃ w', m_wand m' = Some w' ∧ parked w' !! coin = parked w !! coin ∧ settled w' !! coin = settled w !! coin) →
  shape None [] (qs ++ [p]) m'.
Proof.
  intros H HP HP' Hne E1 E2 E3 E4 Hlink Hl Hd Hpq Hcr Hnext Hrows Htab Hready HF HR Hcoins Hpark Hwand.
  assert (∀ q, q ∈ qs → q ≠ p) as Hqp by (by intros q Hq ->).
  eapply (step_shape None [] qs _ m m' [p]); try done; try setoid_rewrite list_elem_of_singleton; try done.
  - rewrite Hcr. apply H.
  - intros q Q HQ. rewrite Hnext. destruct (decide (q = p)) as [->|Hq]; [by apply (sh_next _ _ _ _ H p P)|]. rewrite Hne in HQ by done. by apply (sh_next _ _ _ _ H q Q).
  - cbn [app]. rewrite Hready. pose proof (sh_queue _ _ _ _ H) as Hq. cbn [app] in Hq. rewrite Hq, fmap_app. cbn. f_equal; [|unfold lk; by rewrite HP'].
    apply list_fmap_ext. intros i q Hin. unfold lk. rewrite Hne; [done|]. apply Hqp. by apply list_elem_of_lookup_2 in Hin.
  - apply NoDup_snoc; [done|apply H].
  - intros q [Hq|Hq%list_elem_of_singleton]%elem_of_app; [|subst q; apply running_some; exists P'; by rewrite E1]. unfold running. rewrite Hne by (by apply Hqp). by apply (sh_queued _ _ _ _ H).
  - intros q Q -> HQ. by assert (Q = P') as -> by congruence.
  - intros q Hq _. by apply elem_snoc_ne.
  - intros q Q c Hq HQ Hc -> C HC. assert (C = P) as -> by congruence. exists P'. split; [done|]. destruct Hlink as [Hlk|Ho]; [split; try done; by rewrite ?E1, ?E4|].
    destruct (refs_owner _ _ _ _ _ _ _ H HQ ltac:(done) Hc) as (C1 & q1 & Q1 & HC1 & Ho1 & _). congruence.
  - intros q Q s S Hq HQ Hr Ho -> HS _. assert (S = P) as -> by congruence. by exists P'.
  - intros c C g i G jobs pol gr Hc HC Hr Hg -> HG HcG. assert (G = P) as -> by congruence. exists P', gr. by rewrite E1.
Qed.

Lemma launch_shape qs m q : shape None [] qs m → ∃ qs', shape None [] qs' (act m (Launch q)).
Proof.
  intros H. cbn [act]. change (new_task (Body q) ∅ None m) with (m_next m, (new_task (Body q) ∅ None m).2). cbv iota beta.
  destruct (add_shape None [] qs m (Body q) ∅ None H I) as [H1 _]. pose proof (new_task_lookup (Body q) ∅ None m (m_next m)) as Hl. rewrite decide_True in Hl by done.
  set (m1 := (new_task (Body q) ∅ None m).2) in *. set (p := m_next m) in *. clearbody m1 p. set (P := MkPromise no_link None None None None false ∅ None (Body q)) in *.
  assert (start p m1 = enqueue_task p m1) as -> by (unfold start, done; by rewrite Hl).
  destruct (enqueue_unlinked_task m1 p P (sh_table _ _ _ _ H1) (sh_max _ _ _ _ H1) Hl eq_refl) as [[_ ->]|(l & d & Hl0 & _ & -> & Hrd & Hrows & Htab)]; [by exists qs|].
  exists (qs ++ [p]). cbn [snd]. assert (p ∉ qs) as Hpq. { intros Hin. apply (sh_queued _ _ _ _ H1), running_some in Hin as (P' & HP' & HL & _). assert (P' = P) as -> by congruence. done. }
  set (m' := set_deck _ _). assert (m_promises m' !! p = Some (set_link l P)) as HP' by (by apply upd_eq). assert (∀ q, q ≠ p → m_promises m' !! q = m_promises m1 !! q) as Hne by (intros r Hr; by apply upd_ne).
  eapply (queue_shape qs m1 m' p P); try done; try apply H1.
  - by right.
  - apply (table_ok_ext _ _ _ _ Htab); try done. intros r. unfold lk at 1. destruct (decide (p = r)) as [<-|Hr]; [by rewrite HP', fn_lookup_insert|by rewrite Hne, fn_lookup_insert_ne].
  - intros _. apply elem_snoc.
  - by left.
  - intros w coin r Hw Hr. destruct (sh_parked _ _ _ _ H1 w coin r Hw Hr) as (R & k & HR & Hc & _). exists R, k. rewrite Hne; [done|]. intros ->. by assert (R = P) as -> by congruence.
  - intros r R coin k w _ _ _ Hw. by exists w.
Qed.

Lemma act_shape qs m a : shape None [] qs m → ∃ qs', shape None [] qs' (act m a).
Proof.
  intros H. destruct (shape_parked _ _ _ _ H) as [Hp _]. destruct a as [q| |coin|coin o|p]; [by apply (launch_shape qs)|by apply (run_ready_shape qs)|..]; apply (shape_similar None [] qs m); try done; cbn [act].
  - apply submit_similar.
  - by apply settle_coin_similar.
  - destruct (running p m); [by apply stop_task_similar|done].
Qed.

Lemma acts_shape l : ∀ qs m, shape None [] qs m → ∃ qs', shape None [] qs' (acts l m).
Proof. induction l as [|a l IH]; intros qs m H; [by exists qs|]. cbn. destruct (act_shape qs m a H) as [qs' H']. by apply (IH qs'). Qed.

Lemma new_machine_shape capacity w : (Z.of_nat capacity ≤ max_index)%Z → (∀ v, w = Some v → v = new_wand) → shape None [] [] (new_machine capacity w).
Proof.
  intros Hcap Hw. split; try done.
  - apply (table_ok_ext _ _ _ _ (new_table_ok 0 capacity)); try done.
  - cbn. by rewrite length_replicate.
  - constructor.
  - by intros p ?%not_elem_of_nil.
  - intros v coin Hv _. cbn in Hv. by rewrite (Hw v Hv).
  - intros v coin p Hv Hp. cbn in Hv. by rewrite (Hw v Hv) in Hp.
Qed.

(** ** Who holds whom *)


(** No frame is new, and none changes hands. *)
Record keeps (m m' : machine) : Prop := {
  ke_next : m_next m' = m_next m;
  ke_owner : ∀ c C', m_promises m' !! c = Some C' → ∃ C, m_promises m !! c = Some C ∧ p_owner C' = p_owner C;
}.

#[export] Instance keeps_preorder : PreOrder keeps.
Proof.
  split; [by split; [|eauto]|]. intros a b c [N1 O1] [N2 O2]. split; [congruence|]. intros d D'' HD. destruct (O2 d D'' HD) as (D' & HD' & E'). destruct (O1 d D' HD') as (D & HD0 & E). exists D. split; [done|congruence].
Qed.


































(** ** What a task waits for *)

(** A suspended task waits for the one it awaits; a group for each of its jobs that runs. *)
Definition waits (m : machine) (p q : nat) : Prop :=
  running q m = true ∧ ∃ P, m_promises m !! p = Some P ∧ (waits_for (p_code P) = Some q ∨ ∃ jobs pol gr, p_code P = GroupWait jobs pol gr ∧ q ∈ jobs).








(** ** The properties *)

Lemma running_id_inj x rest qs m p q : shape x rest qs m → running p m = true → running q m = true → l_id (lk m p) = l_id (lk m q) → p = q.
Proof.
  intros H Hp Hq Eid. destruct (running_resolve _ _ _ _ p H Hp) as (i & r & Hr & Hh & _). destruct (running_resolve _ _ _ _ q H Hq) as (i' & r' & Hr' & Hh' & _). rewrite Eid, Hr' in Hr. simplify_eq. congruence.
Qed.


Lemma queued_iff qs m p : shape None [] qs m → running p m = true → l_id (lk m p) ∈ ready (m_deck m) ↔ p ∈ qs.
Proof.
  intros H Hr. pose proof (sh_queue _ _ _ _ H) as E. cbn [app] in E. rewrite E, list_elem_of_fmap. split; [|by exists p]. intros (q & Eid & Hq).
  assert (p = q) as ->; [|done]. eapply running_id_inj; try done. by apply H.
Qed.

(** Who waits for a running task is itself running, and not queued. *)
Lemma scope_waits qs m p c P : shape None [] qs m → m_promises m !! p = Some P → waits_for (p_code P) = Some c → running c m = true → running p m = true ∧ l_id (lk m p) ∉ ready (m_deck m).
Proof.
  intros H HP Hw Hr. pose proof (waiting_running _ _ _ _ _ _ H HP ltac:(done)) as Hp. assert (running p m = true) as Hpr by (by destruct (p_code P)). split; [done|]. rewrite (queued_iff qs m p H Hpr).
  pose proof (sh_frame _ _ _ _ H p P HP ltac:(done)) as HF. unfold frame_ok, child_ok in HF. apply running_some in Hr as (C & HC & _ & Hd).
  destruct (p_code P); try done; simplify_eq/=; [destruct HF as (C' & (HC' & _ & _ & _ & _ & Hiff) & _)|destruct HF as (_ & C' & (HC' & _ & _ & _ & _ & Hiff) & _)];
    (intros Hq; apply Hiff in Hq; congruence).
Qed.


(** A group of a task that waits for the wand and one that fails after a turn: the failure stops the group, and the coin,
    which the wand has submitted, is settled inside the stop request. *)
Definition race : list action := [Launch (when_all [Wish 5 Return; Yield (λ _, Return (inr (Failure 1)))]); Pump; Pump; Pump; Pump; Submit 0; Pump].


(** C11: Structured concurrency. Between two rounds, a task that was started and is not done
    is a root, or the task that holds it was started, is not done and does not run on before
    it is: it awaits the task, or the group the task is a job of. So a task never outlives
    its scope, and when a group or a [settle] is done, none of its jobs is running. *)
Theorem scopes_outlive_tasks capacity w l : (Z.of_nat capacity ≤ max_index)%Z → (∀ v, w = Some v → v = new_wand) →
  let m := acts l (new_machine capacity w) in
  ∀ c C, m_promises m !! c = Some C → running c m = true → p_owner C = None ∨
  ∃ p P, p_owner C = Some p ∧ m_promises m !! p = Some P ∧ running p m = true ∧ (l_id (lk m p) ∉ ready (m_deck m)) ∧
    (waits_for (p_code P) = Some c ∨ ∃ jobs g, p_code P = SettleWait jobs g ∧ c ∈ jobs ∧ waits m p g ∧ waits m g c).
Proof.
  intros Hcap Hw m c C HC Hr. destruct (acts_shape l [] _ (new_machine_shape capacity w Hcap Hw)) as [qs H]. fold m in H.
  destruct (sh_role _ _ _ _ H c C HC Hr) as [(Ho & _)|[(p & P & Ho & _ & _ & HP & Hwf)|(s & S & g & G & i & jobs & pol & gr & Ho & _ & _ & HS & HcS & HG & HcG & Hi)]]; [by left|right..].
  - destruct (scope_waits qs m p c P H HP Hwf Hr) as [Hpr Hpq]. exists p, P. split_and!; try done. by left.
  - assert (running g m = true) as Hgr by (pose proof (waiting_running _ _ _ _ _ _ H HG ltac:(done)) as E; by rewrite HcG in E).
    destruct (scope_waits qs m s g S H HS ltac:(by rewrite HcS) Hgr) as [Hsr Hsq]. assert (c ∈ jobs) as Hin by (by apply list_elem_of_lookup_2 in Hi). exists s, S. split_and!; try done. right. exists jobs, g. split_and!; try done.
    + split; [done|]. exists S. split; [done|]. left. by rewrite HcS.
    + split; [done|]. exists G. split; [done|]. right. by exists jobs, pol, gr.
Qed.

Lemma scopes_outlive_tasks_witness : let m := acts race (new_machine 8 (Some new_wand)) in
  ∃ C p P, m_promises m !! 1 = Some C ∧ p_owner C = Some p ∧ m_promises m !! p = Some P ∧ running p m = true ∧
    (waits_for (p_code P) = Some 1 ∨ ∃ jobs g, p_code P = SettleWait jobs g ∧ 1 ∈ jobs ∧ waits m p g ∧ waits m g 1).
Proof.
  cbv zeta. destruct (m_promises (acts race (new_machine 8 (Some new_wand))) !! 1) as [C|] eqn:HC; [|vm_compute in HC; discriminate HC].
  destruct (scopes_outlive_tasks 8 (Some new_wand) race ltac:(vm_compute; discriminate) ltac:(by intros v [= <-]) 1 C HC ltac:(vm_compute; reflexivity)) as [Ho|(p & P & Ho & HP & Hr & _ & Hw)].
  - apply (f_equal (λ o, p_owner <$> o)) in HC. cbn in HC. rewrite Ho in HC. vm_compute in HC. discriminate HC.
  - exists C, p, P. split; [reflexivity|]. split; [exact Ho|]. split; [exact HP|]. split; [exact Hr|exact Hw].
Defined.
