(* ===== verification/X25519.v ===== *)
(** * X25519

    nxt/crypto/x25519.cpp: the field of integers modulo [2 ^ 255 - 19] in five limbs of
    51 bits, the Montgomery ladder, clamping, and the check of the shared secret. The code
    is modelled with its 64-bit and 128-bit arithmetic; the theorems compare it with the
    ladder of RFC 7748 over the integers modulo the prime. Random bytes are a parameter of
    the key generation. *)
From S2P Require Import Prelude Hash.

#[local] Open Scope Z_scope.

(** ** Machine arithmetic *)

Definition add64 (x y : Z) : Z := wrap 64 (x + y).
Definition sub64 (x y : Z) : Z := wrap 64 (x - y).
Definition mul64 (x y : Z) : Z := wrap 64 (x * y).
Definition shl64 (x n : Z) : Z := wrap 64 (Z.shiftl x n).
Definition not64 (x : Z) : Z := Z.lxor x (2 ^ 64 - 1).
Definition add128 (x y : Z) : Z := wrap 128 (x + y).
Definition mul128 (x y : Z) : Z := wrap 128 (x * y).

(** ** Field elements *)

Record fe := MkFe { v0 : Z; v1 : Z; v2 : Z; v3 : Z; v4 : Z }.

Definition MASK51 : Z := Z.shiftl 1 51 - 1.

Definition load64_le (p : bytes) : Z :=
  foldl (λ out i, Z.lor out (shl64 (nthZ p i) (8 * Z.of_nat i))) 0 (seq 0 8).

Definition store64_le (value : Z) : bytes := (λ i, wrap 8 (Z.shiftr value (8 * Z.of_nat i))) <$> seq 0 8.

Definition fe_from_bytes (in_ : bytes) : fe :=
  MkFe (Z.land (load64_le in_) MASK51)
    (Z.land (Z.shiftr (load64_le (drop 6 in_)) 3) MASK51)
    (Z.land (Z.shiftr (load64_le (drop 12 in_)) 6) MASK51)
    (Z.land (Z.shiftr (load64_le (drop 19 in_)) 1) MASK51)
    (Z.land (Z.shiftr (load64_le (drop 24 in_)) 12) MASK51).

(** The first pass of [fe_to_bytes]: the carries are propagated once. *)
Definition carried (f : fe) : fe :=
  let c := Z.shiftr (v0 f) 51 in let t0 := Z.land (v0 f) MASK51 in let t1 := add64 (v1 f) c in
  let c := Z.shiftr t1 51 in let t1 := Z.land t1 MASK51 in let t2 := add64 (v2 f) c in
  let c := Z.shiftr t2 51 in let t2 := Z.land t2 MASK51 in let t3 := add64 (v3 f) c in
  let c := Z.shiftr t3 51 in let t3 := Z.land t3 MASK51 in let t4 := add64 (v4 f) c in
  let c := Z.shiftr t4 51 in let t4 := Z.land t4 MASK51 in
  MkFe (add64 t0 (mul64 19 c)) t1 t2 t3 t4.

(** The second: the modulus is subtracted if that does not underflow. *)
Definition frozen (t : fe) : fe :=
  let g0 := add64 (v0 t) 19 in
  let c := Z.shiftr g0 51 in let g0 := Z.land g0 MASK51 in let g1 := add64 (v1 t) c in
  let c := Z.shiftr g1 51 in let g1 := Z.land g1 MASK51 in let g2 := add64 (v2 t) c in
  let c := Z.shiftr g2 51 in let g2 := Z.land g2 MASK51 in let g3 := add64 (v3 t) c in
  let c := Z.shiftr g3 51 in let g3 := Z.land g3 MASK51 in
  let g4 := sub64 (add64 (v4 t) c) (Z.shiftl 1 51) in
  let mask := sub64 (Z.shiftr g4 63) 1 in
  let g4 := Z.land g4 MASK51 in
  let select a b := Z.lor (Z.land a (not64 mask)) (Z.land b mask) in
  MkFe (select (v0 t) g0) (select (v1 t) g1) (select (v2 t) g2) (select (v3 t) g3) (select (v4 t) g4).

Definition words (t : fe) : list Z :=
  [Z.lor (v0 t) (shl64 (v1 t) 51);
   Z.lor (Z.shiftr (v1 t) 13) (shl64 (v2 t) 38);
   Z.lor (Z.shiftr (v2 t) 26) (shl64 (v3 t) 25);
   Z.lor (Z.shiftr (v3 t) 39) (shl64 (v4 t) 12)].

Definition fe_to_bytes (f : fe) : bytes := concat (store64_le <$> words (frozen (carried f))).

(** ** Field operations *)

Definition fe_add (a b : fe) : fe :=
  MkFe (add64 (v0 a) (v0 b)) (add64 (v1 a) (v1 b)) (add64 (v2 a) (v2 b)) (add64 (v3 a) (v3 b)) (add64 (v4 a) (v4 b)).

Definition fe_sub (a b : fe) : fe :=
  MkFe (sub64 (add64 (v0 a) 0xFFFFFFFFFFFDA) (v0 b)) (sub64 (add64 (v1 a) 0xFFFFFFFFFFFFE) (v1 b))
    (sub64 (add64 (v2 a) 0xFFFFFFFFFFFFE) (v2 b)) (sub64 (add64 (v3 a) 0xFFFFFFFFFFFFE) (v3 b))
    (sub64 (add64 (v4 a) 0xFFFFFFFFFFFFE) (v4 b)).

(** The carry chain that ends [fe_mul] and [fe_mul121665]. *)
Definition carry_chain (r0 r1 r2 r3 r4 : Z) : fe :=
  let c := wrap 64 (Z.shiftr r0 51) in let w0 := Z.land (wrap 64 r0) MASK51 in let r1 := add128 r1 c in
  let c := wrap 64 (Z.shiftr r1 51) in let w1 := Z.land (wrap 64 r1) MASK51 in let r2 := add128 r2 c in
  let c := wrap 64 (Z.shiftr r2 51) in let w2 := Z.land (wrap 64 r2) MASK51 in let r3 := add128 r3 c in
  let c := wrap 64 (Z.shiftr r3 51) in let w3 := Z.land (wrap 64 r3) MASK51 in let r4 := add128 r4 c in
  let c := wrap 64 (Z.shiftr r4 51) in let w4 := Z.land (wrap 64 r4) MASK51 in let w0 := add64 w0 (mul64 19 c) in
  let c := Z.shiftr w0 51 in let w0 := Z.land w0 MASK51 in let w1 := add64 w1 c in
  MkFe w0 w1 w2 w3 w4.

Definition fe_mul (a b : fe) : fe :=
  let hi x y := mul128 (mul128 19 x) y in
  let sum p q r s t := add128 (add128 (add128 (add128 p q) r) s) t in
  carry_chain
    (sum (mul128 (v0 a) (v0 b)) (hi (v1 a) (v4 b)) (hi (v2 a) (v3 b)) (hi (v3 a) (v2 b)) (hi (v4 a) (v1 b)))
    (sum (mul128 (v0 a) (v1 b)) (mul128 (v1 a) (v0 b)) (hi (v2 a) (v4 b)) (hi (v3 a) (v3 b)) (hi (v4 a) (v2 b)))
    (sum (mul128 (v0 a) (v2 b)) (mul128 (v1 a) (v1 b)) (mul128 (v2 a) (v0 b)) (hi (v3 a) (v4 b)) (hi (v4 a) (v3 b)))
    (sum (mul128 (v0 a) (v3 b)) (mul128 (v1 a) (v2 b)) (mul128 (v2 a) (v1 b)) (mul128 (v3 a) (v0 b)) (hi (v4 a) (v4 b)))
    (sum (mul128 (v0 a) (v4 b)) (mul128 (v1 a) (v3 b)) (mul128 (v2 a) (v2 b)) (mul128 (v3 a) (v1 b)) (mul128 (v4 a) (v0 b))).

Definition fe_sq (a : fe) : fe := fe_mul a a.

Definition fe_mul121665 (a : fe) : fe :=
  carry_chain (mul128 (v0 a) 121665) (mul128 (v1 a) 121665) (mul128 (v2 a) 121665) (mul128 (v3 a) 121665) (mul128 (v4 a) 121665).

(** One limb of [fe_cswap]. *)
Definition cswap_limb (swap x y : Z) : Z * Z :=
  let mask := sub64 0 swap in let t := Z.land mask (Z.lxor x y) in (Z.lxor x t, Z.lxor y t).

Definition fe_cswap (a b : fe) (swap : Z) : fe * fe :=
  let '(a0, b0) := cswap_limb swap (v0 a) (v0 b) in
  let '(a1, b1) := cswap_limb swap (v1 a) (v1 b) in
  let '(a2, b2) := cswap_limb swap (v2 a) (v2 b) in
  let '(a3, b3) := cswap_limb swap (v3 a) (v3 b) in
  let '(a4, b4) := cswap_limb swap (v4 a) (v4 b) in
  (MkFe a0 a1 a2 a3 a4, MkFe b0 b1 b2 b3 b4).

(** [fe_sq] and a loop of [n - 1] more. *)
Definition squares (n : nat) (t : fe) : fe := Nat.iter n fe_sq t.

Definition fe_invert (z : fe) : fe :=
  let z2 := fe_sq z in
  let t := fe_sq (fe_sq z2) in
  let z9 := fe_mul t z in
  let z11 := fe_mul z9 z2 in
  let z2_5_0 := fe_mul (fe_sq z11) z9 in
  let z2_10_0 := fe_mul (squares 5 z2_5_0) z2_5_0 in
  let z2_20_0 := fe_mul (squares 10 z2_10_0) z2_10_0 in
  let t := fe_mul (squares 20 z2_20_0) z2_20_0 in
  let z2_50_0 := fe_mul (squares 10 t) z2_10_0 in
  let z2_100_0 := fe_mul (squares 50 z2_50_0) z2_50_0 in
  let t := fe_mul (squares 100 z2_100_0) z2_100_0 in
  let t := fe_mul (squares 50 t) z2_50_0 in
  fe_mul (squares 5 t) z11.

(** ** The ladder *)

(** The clamped scalar. *)
Definition clamp (scalar : bytes) : bytes :=
  <[31%nat := Z.lor (Z.land (nthZ scalar 31) 127) 64]> (<[0%nat := Z.land (nthZ scalar 0) 248]> scalar).

Record ladder := MkLadder { x2 : fe; z2 : fe; x3 : fe; z3 : fe; swap : Z }.

Definition fe_zero : fe := MkFe 0 0 0 0 0.
Definition fe_one : fe := MkFe 1 0 0 0 0.

Definition scalar_bit (e : bytes) (t : nat) : Z := Z.land (Z.shiftr (nthZ e (t / 8)) (Z.of_nat t mod 8)) 1.

(** The swap at the head of a turn. *)
Definition cswap (s : ladder) : ladder :=
  let '(a, b) := fe_cswap (x2 s) (x3 s) (swap s) in let '(c, d) := fe_cswap (z2 s) (z3 s) (swap s) in MkLadder a c b d (swap s).

Definition ladder_turn (x1 : fe) (e : bytes) (t : nat) (s : ladder) : ladder :=
  let bit := scalar_bit e t in
  let s := cswap (MkLadder (x2 s) (z2 s) (x3 s) (z3 s) (Z.lxor (swap s) bit)) in
  let A := fe_add (x2 s) (z2 s) in
  let AA := fe_sq A in
  let B := fe_sub (x2 s) (z2 s) in
  let BB := fe_sq B in
  let E := fe_sub AA BB in
  let C := fe_add (x3 s) (z3 s) in
  let D := fe_sub (x3 s) (z3 s) in
  let DA := fe_mul D A in
  let CB := fe_mul C B in
  let t0 := fe_add DA CB in
  let t1 := fe_sub DA CB in
  let t2 := fe_mul121665 E in
  let t3 := fe_add AA t2 in
  MkLadder (fe_mul AA BB) (fe_mul E t3) (fe_sq t0) (fe_mul (fe_sq t1) x1) bit.

(** The turns for the bits below [n], the highest first. *)
Fixpoint ladder_loop (x1 : fe) (e : bytes) (n : nat) (s : ladder) : ladder :=
  match n with
  | O => s
  | S t => ladder_loop x1 e t (ladder_turn x1 e t s)
  end.

(** The field element that [x25519_raw] serializes. *)
Definition x25519_field (scalar point : bytes) : fe :=
  let e := clamp scalar in
  let x1 := fe_from_bytes point in
  let s := cswap (ladder_loop x1 e 255 (MkLadder fe_one fe_zero x1 fe_one 0)) in
  fe_mul (x2 s) (fe_invert (z2 s)).

Definition x25519_raw (scalar point : bytes) : bytes := fe_to_bytes (x25519_field scalar point).

(** ** The interface *)

Definition is_all_zero (value : bytes) : bool := foldl Z.lor 0 value =? 0.

Definition require_x25519_size (value : bytes) (name : string) : result string unit :=
  if bool_decide (length value = 32%nat) then Ret tt else Throw name.

Definition x25519dh (secret_key peer_public_key : bytes) : result string (option bytes) :=
  let! _ := require_x25519_size secret_key "X25519 secret key must be 32 bytes" in
  let! _ := require_x25519_size peer_public_key "X25519 public key must be 32 bytes" in
  let out := x25519_raw secret_key peer_public_key in
  Ret (if is_all_zero out then None else Some out).

Definition basepoint : bytes := 9 :: replicate 31 0.

(** [x25519_keygen], for the random bytes of the secret key. *)
Definition x25519_keygen (random : bytes) : bytes * bytes := (random, x25519_raw random basepoint).

(** ** The field *)

Definition prime : Z := 2 ^ 255 - 19.

(** The number that five limbs stand for. *)
Definition val (f : fe) : Z := v0 f + 2 ^ 51 * v1 f + 2 ^ 102 * v2 f + 2 ^ 153 * v3 f + 2 ^ 204 * v4 f.

(** Limbs below [b]. *)
Definition below (b : Z) (f : fe) : Prop := 0 ≤ v0 f < b ∧ 0 ≤ v1 f < b ∧ 0 ≤ v2 f < b ∧ 0 ≤ v3 f < b ∧ 0 ≤ v4 f < b.

(** What a multiplication takes. *)
Abbreviation loose := (below (2 ^ 53)).

(** What it gives: one limb may have a carry left. *)
Definition tight (f : fe) : Prop :=
  0 ≤ v0 f < 2 ^ 51 ∧ 0 ≤ v1 f < 2 ^ 51 + 2 ^ 13 ∧ 0 ≤ v2 f < 2 ^ 51 ∧ 0 ≤ v3 f < 2 ^ 51 ∧ 0 ≤ v4 f < 2 ^ 51.

(** Equal in the field. *)
Definition eqp (x y : Z) : Prop := x mod prime = y mod prime.

#[local] Infix "≡p" := eqp (at level 70).

#[export] Instance eqp_equivalence : Equivalence eqp.
Proof. split; [done|by intros x y H|]. intros x y z H1 H2. unfold eqp in *. congruence. Qed.

#[export] Instance eqp_add : Proper (eqp ==> eqp ==> eqp) Z.add.
Proof. intros a b H c d H'. unfold eqp in *. rewrite Zplus_mod, H, H', <- Zplus_mod. done. Qed.

#[export] Instance eqp_sub : Proper (eqp ==> eqp ==> eqp) Z.sub.
Proof. intros a b H c d H'. unfold eqp in *. rewrite Zminus_mod, H, H', <- Zminus_mod. done. Qed.

#[export] Instance eqp_mul : Proper (eqp ==> eqp ==> eqp) Z.mul.
Proof. intros a b H c d H'. unfold eqp in *. rewrite Zmult_mod, H, H', <- Zmult_mod. done. Qed.

Lemma eqp_pow x y n : x ≡p y → x ^ n ≡p y ^ n.
Proof. unfold eqp. intros H. by rewrite <- Z.mod_pow_l, H, Z.mod_pow_l. Qed.

Lemma eqp_mod x : x mod prime ≡p x.
Proof. unfold eqp. by rewrite Zmod_mod. Qed.

(** A multiple of the prime vanishes. *)
Lemma eqp_multiple k x y : x = y + k * prime → x ≡p y.
Proof. intros ->. unfold eqp. apply Z_mod_plus_full. Qed.

Lemma MASK51_eq : MASK51 = 2 ^ 51 - 1.
Proof. reflexivity. Qed.

Lemma land_mask x : Z.land x MASK51 = x mod 2 ^ 51.
Proof. rewrite MASK51_eq. by apply land_ones_mod. Qed.

Lemma shiftr_div x n : 0 ≤ n → Z.shiftr x n = x / 2 ^ n.
Proof. apply Z.shiftr_div_pow2. Qed.

(** A limb and its carry. *)
Lemma split51 x : 0 ≤ x → ∃ q m, x / 2 ^ 51 = q ∧ x mod 2 ^ 51 = m ∧ x = 2 ^ 51 * q + m ∧ 0 ≤ m < 2 ^ 51 ∧ 0 ≤ q.
Proof.
  intros Hx. exists (x / 2 ^ 51), (x mod 2 ^ 51). split_and!; try done; [apply Z.div_mod; lia|apply Z.mod_pos_bound; lia|apply Z.mod_pos_bound; lia|apply Z.div_pos; lia].
Qed.

Lemma wrap_mod51 x : 0 ≤ x → wrap 64 x mod 2 ^ 51 = x mod 2 ^ 51.
Proof. intros Hx. unfold wrap. apply Z.mod_mod_divide. by exists (2 ^ 13). Qed.

Lemma carry_chain_spec r0 r1 r2 r3 r4 : 0 ≤ r0 < 2 ^ 113 → 0 ≤ r1 < 2 ^ 113 → 0 ≤ r2 < 2 ^ 113 → 0 ≤ r3 < 2 ^ 113 → 0 ≤ r4 < 2 ^ 109 - 2 ^ 64 →
  let f := carry_chain r0 r1 r2 r3 r4 in tight f ∧ val f ≡p r0 + 2 ^ 51 * r1 + 2 ^ 102 * r2 + 2 ^ 153 * r3 + 2 ^ 204 * r4.
Proof.
  intros H0 H1 H2 H3 H4. cbv zeta. unfold carry_chain, add128, add64, mul64. cbv zeta. rewrite !land_mask, !shiftr_div by done.
  destruct (split51 r0) as (q0 & m0 & Eq0 & Em0 & E0 & B0 & Q0); [lia|]. rewrite (wrap_mod51 r0), Eq0, Em0 by lia. rewrite (wrap_small 64 q0) by lia. rewrite (wrap_small 128 (r1 + q0)) by lia.
  destruct (split51 (r1 + q0)) as (q1 & m1 & Eq1 & Em1 & E1 & B1 & Q1); [lia|]. rewrite (wrap_mod51 (r1 + q0)), Eq1, Em1 by lia. rewrite (wrap_small 64 q1) by lia. rewrite (wrap_small 128 (r2 + q1)) by lia.
  destruct (split51 (r2 + q1)) as (q2 & m2 & Eq2 & Em2 & E2 & B2 & Q2); [lia|]. rewrite (wrap_mod51 (r2 + q1)), Eq2, Em2 by lia. rewrite (wrap_small 64 q2) by lia. rewrite (wrap_small 128 (r3 + q2)) by lia.
  destruct (split51 (r3 + q2)) as (q3 & m3 & Eq3 & Em3 & E3 & B3 & Q3); [lia|]. rewrite (wrap_mod51 (r3 + q2)), Eq3, Em3 by lia. rewrite (wrap_small 64 q3) by lia. rewrite (wrap_small 128 (r4 + q3)) by lia.
  destruct (split51 (r4 + q3)) as (q4 & m4 & Eq4 & Em4 & E4 & B4 & Q4); [lia|]. rewrite (wrap_mod51 (r4 + q3)), Eq4, Em4 by lia. rewrite (wrap_small 64 q4) by lia. rewrite (wrap_small 64 (19 * q4)) by lia.
  rewrite (wrap_small 64 (m0 + 19 * q4)) by lia. destruct (split51 (m0 + 19 * q4)) as (q5 & m5 & Eq5 & Em5 & E5 & B5 & Q5); [lia|]. rewrite Eq5, Em5, (wrap_small 64 (m1 + q5)) by lia.
  split; [unfold tight; cbn [v0 v1 v2 v3 v4]; lia|]. symmetry. apply (eqp_multiple q4). unfold val, prime. cbn [v0 v1 v2 v3 v4]. lia.
Qed.

Lemma mul_bound a b m n : 0 ≤ a < m → 0 ≤ b < n → 0 ≤ a * b ∧ a * b < m * n.
Proof. nia. Qed.

Lemma wrap_mul_wrap w x y : 0 ≤ w → wrap w (wrap w x * y) = wrap w (x * y).
Proof. intros. unfold wrap. by rewrite Zmult_mod_idemp_l. Qed.

Lemma add128_wrap x y : add128 (wrap 128 x) (wrap 128 y) = wrap 128 (x + y).
Proof. unfold add128, wrap. by rewrite <- Zplus_mod. Qed.

(** A partial product of [fe_mul]. *)
Definition partial (p : Z) : Prop := 0 ≤ p < 19 * 2 ^ 106.

Lemma lo_partial x y : 0 ≤ x < 2 ^ 53 → 0 ≤ y < 2 ^ 53 → partial (x * y).
Proof. intros Hx Hy. pose proof (mul_bound x y _ _ Hx Hy). unfold partial. lia. Qed.

Lemma hi_partial x y : 0 ≤ x < 2 ^ 53 → 0 ≤ y < 2 ^ 53 → partial (19 * x * y).
Proof. intros Hx Hy. pose proof (mul_bound x y _ _ Hx Hy). rewrite <- Z.mul_assoc. unfold partial. lia. Qed.

(** The sum of five of them does not overflow. *)
Lemma sum_partial p q r s t : partial p → partial q → partial r → partial s → partial t →
  add128 (add128 (add128 (add128 (wrap 128 p) (wrap 128 q)) (wrap 128 r)) (wrap 128 s)) (wrap 128 t) = p + q + r + s + t ∧ 0 ≤ p + q + r + s + t < 2 ^ 113.
Proof.
  unfold partial. intros Hp Hq Hr Hs Ht. rewrite (add128_wrap p), (add128_wrap (p + q)), (add128_wrap (p + q + r)), (add128_wrap (p + q + r + s)). split; [apply wrap_small; lia|lia].
Qed.

Ltac partials := first [apply hi_partial; assumption|apply lo_partial; assumption].

Lemma fe_mul_spec a b : loose a → loose b → tight (fe_mul a b) ∧ val (fe_mul a b) ≡p val a * val b.
Proof.
  intros (A0 & A1 & A2 & A3 & A4) (B0 & B1 & B2 & B3 & B4). unfold fe_mul, mul128. cbv zeta. rewrite !wrap_mul_wrap by done.
  edestruct (sum_partial (v0 a * v0 b) (19 * v1 a * v4 b) (19 * v2 a * v3 b) (19 * v3 a * v2 b) (19 * v4 a * v1 b)) as [-> R0]; [partials..|].
  edestruct (sum_partial (v0 a * v1 b) (v1 a * v0 b) (19 * v2 a * v4 b) (19 * v3 a * v3 b) (19 * v4 a * v2 b)) as [-> R1]; [partials..|].
  edestruct (sum_partial (v0 a * v2 b) (v1 a * v1 b) (v2 a * v0 b) (19 * v3 a * v4 b) (19 * v4 a * v3 b)) as [-> R2]; [partials..|].
  edestruct (sum_partial (v0 a * v3 b) (v1 a * v2 b) (v2 a * v1 b) (v3 a * v0 b) (19 * v4 a * v4 b)) as [-> R3]; [partials..|].
  edestruct (sum_partial (v0 a * v4 b) (v1 a * v3 b) (v2 a * v2 b) (v3 a * v1 b) (v4 a * v0 b)) as [-> _]; [partials..|].
  assert (0 ≤ v0 a * v4 b + v1 a * v3 b + v2 a * v2 b + v3 a * v1 b + v4 a * v0 b < 2 ^ 109 - 2 ^ 64) as R4.
  { pose proof (mul_bound _ _ _ _ A0 B4). pose proof (mul_bound _ _ _ _ A1 B3). pose proof (mul_bound _ _ _ _ A2 B2). pose proof (mul_bound _ _ _ _ A3 B1). pose proof (mul_bound _ _ _ _ A4 B0). lia. }
  destruct (carry_chain_spec _ _ _ _ _ R0 R1 R2 R3 R4) as [Ht Hv]. split; [done|]. etrans; [exact Hv|]. symmetry.
  eapply (eqp_multiple (v1 a * v4 b + v2 a * v3 b + v3 a * v2 b + v4 a * v1 b + 2 ^ 51 * (v2 a * v4 b + v3 a * v3 b + v4 a * v2 b) + 2 ^ 102 * (v3 a * v4 b + v4 a * v3 b) + 2 ^ 153 * (v4 a * v4 b))).
  unfold val, prime. ring.
Qed.

Lemma tight_loose f : tight f → loose f.
Proof. unfold tight, below. lia. Qed.

Create HintDb field.

#[local] Hint Resolve tight_loose : field.

Lemma fe_mul121665_spec a : loose a → tight (fe_mul121665 a) ∧ val (fe_mul121665 a) ≡p 121665 * val a.
Proof.
  intros (A0 & A1 & A2 & A3 & A4). unfold fe_mul121665, mul128. rewrite !(wrap_small 128) by lia.
  edestruct carry_chain_spec as [Ht Hv]; [..|split; [exact Ht|etrans; [exact Hv|]]]; [lia..|]. unfold val. apply (eqp_multiple 0). lia.
Qed.

Lemma fe_add_spec a b : tight a → tight b → loose (fe_add a b) ∧ val (fe_add a b) = val a + val b.
Proof.
  unfold tight. intros Ha Hb. unfold fe_add, add64. rewrite !(wrap_small 64) by lia. unfold below, val. cbn [v0 v1 v2 v3 v4]. split; lia.
Qed.

Lemma fe_sub_spec a b : tight a → tight b → loose (fe_sub a b) ∧ val (fe_sub a b) ≡p val a - val b.
Proof.
  unfold tight. intros Ha Hb. unfold fe_sub, add64, sub64. rewrite !(wrap_small 64 (_ + _)) by lia. rewrite !(wrap_small 64) by lia. unfold below. cbn [v0 v1 v2 v3 v4]. split; [lia|].
  apply (eqp_multiple 2). unfold val, prime. cbn [v0 v1 v2 v3 v4]. lia.
Qed.

Lemma fe_sq_spec a : loose a → tight (fe_sq a) ∧ val (fe_sq a) ≡p val a * val a.
Proof. intros Ha. by apply fe_mul_spec. Qed.

(** *** The conditional swap *)

Lemma cswap_limb_spec b x y : 0 ≤ x < 2 ^ 64 → 0 ≤ y < 2 ^ 64 → cswap_limb (Z.b2z b) x y = if b then (y, x) else (x, y).
Proof.
  intros Hx Hy. unfold cswap_limb. destruct b; cbn [Z.b2z].
  - change (sub64 0 1) with (2 ^ 64 - 1). assert (Z.land (2 ^ 64 - 1) (Z.lxor x y) = Z.lxor x y) as ->.
    { rewrite Z.land_comm, land_ones_mod by done. apply Z.mod_small. split; [apply Z.lxor_nonneg; lia|]. destruct (Z.eq_dec (Z.lxor x y) 0) as [->|Hz]; [lia|]. apply Z.log2_lt_pow2; [assert (0 ≤ Z.lxor x y) by (apply Z.lxor_nonneg; lia); lia|].
      eapply Z.le_lt_trans; [by apply Z.log2_lxor; lia|]. apply Z.max_lub_lt; [destruct (Z.eq_dec x 0) as [->|]; [done|]|destruct (Z.eq_dec y 0) as [->|]; [done|]]; apply Z.log2_lt_pow2; lia. }
    rewrite <- Z.lxor_assoc, Z.lxor_nilpotent, Z.lxor_0_l. by rewrite (Z.lxor_comm x y), <- Z.lxor_assoc, Z.lxor_nilpotent, Z.lxor_0_l.
  - change (sub64 0 0) with 0. by rewrite Z.land_0_l, !Z.lxor_0_r.
Qed.

Lemma fe_cswap_spec a b s : loose a → loose b → fe_cswap a b (Z.b2z s) = if s then (b, a) else (a, b).
Proof.
  intros (A0 & A1 & A2 & A3 & A4) (B0 & B1 & B2 & B3 & B4). unfold fe_cswap. rewrite !cswap_limb_spec by lia. destruct a, b. by destruct s.
Qed.

(** *** The inverse *)

(** [f] holds the power [e] of [x]. *)
Definition power (x : Z) (f : fe) (e : Z) : Prop := tight f ∧ 0 ≤ e ∧ val f ≡p x ^ e.

Lemma power_mul x f g a b : power x f a → power x g b → power x (fe_mul f g) (a + b).
Proof.
  intros (Hf & Ha & Ef) (Hg & Hb & Eg). destruct (fe_mul_spec f g) as [Ht Hv]; [auto with field..|]. split; [done|]. split; [lia|]. rewrite Hv, Ef, Eg, Z.pow_add_r by done. done.
Qed.

Lemma power_sq x f a : power x f a → power x (fe_sq f) (2 * a).
Proof. intros H. replace (2 * a) with (a + a) by lia. by apply power_mul. Qed.

Lemma power_squares x f a n : power x f a → power x (squares n f) (2 ^ Z.of_nat n * a).
Proof.
  intros H. induction n as [|n IH]; [by replace (2 ^ Z.of_nat 0 * a) with a by lia|]. replace (2 ^ Z.of_nat (S n) * a) with (2 * (2 ^ Z.of_nat n * a)) by (rewrite Nat2Z.inj_succ, Z.pow_succ_r; lia).
  change (squares (S n) f) with (fe_sq (squares n f)). by apply power_sq.
Qed.

Lemma power_exact x f a b : power x f a → a = b → power x f b.
Proof. by intros ? ->. Qed.

(** The addition chain computes [z ^ (p - 2)]. *)
Lemma fe_invert_spec z : tight z → tight (fe_invert z) ∧ val (fe_invert z) ≡p val z ^ (prime - 2).
Proof.
  intros Hz. assert (power (val z) z 1) as P1 by (split; [done|]; split; [done|]; by rewrite Z.pow_1_r). unfold fe_invert. cbv zeta. set (x := val z) in *.
  pose proof (power_sq _ _ _ P1) as P2. set (z2' := fe_sq z) in *. clearbody z2'.
  pose proof (power_mul _ _ _ _ _ (power_sq _ _ _ (power_sq _ _ _ P2)) P1) as P9. set (z9 := fe_mul _ z) in *. clearbody z9.
  pose proof (power_mul _ _ _ _ _ P9 P2) as P11. set (z11 := fe_mul z9 z2') in *. clearbody z11.
  pose proof (power_mul _ _ _ _ _ (power_sq _ _ _ P11) P9) as P5. set (z5 := fe_mul _ z9) in *. clearbody z5.
  pose proof (power_mul _ _ _ _ _ (power_squares _ _ _ 5 P5) P5) as P10. set (z10 := fe_mul _ z5) in *. clearbody z10.
  pose proof (power_mul _ _ _ _ _ (power_squares _ _ _ 10 P10) P10) as P20. set (z20 := fe_mul (squares 10 z10) z10) in *. clearbody z20.
  pose proof (power_mul _ _ _ _ _ (power_squares _ _ _ 20 P20) P20) as P40. set (z40 := fe_mul _ z20) in *. clearbody z40.
  pose proof (power_mul _ _ _ _ _ (power_squares _ _ _ 10 P40) P10) as P50. set (z50 := fe_mul _ z10) in *. clearbody z50.
  pose proof (power_mul _ _ _ _ _ (power_squares _ _ _ 50 P50) P50) as P100. set (z100 := fe_mul (squares 50 z50) z50) in *. clearbody z100.
  pose proof (power_mul _ _ _ _ _ (power_squares _ _ _ 100 P100) P100) as P200. set (z200 := fe_mul _ z100) in *. clearbody z200.
  pose proof (power_mul _ _ _ _ _ (power_squares _ _ _ 50 P200) P50) as P250. set (z250 := fe_mul _ z50) in *. clearbody z250.
  pose proof (power_mul _ _ _ _ _ (power_squares _ _ _ 5 P250) P11) as P. destruct (power_exact _ _ _ (prime - 2) P ltac:(vm_compute; reflexivity)) as (Ht & _ & Hv). done.
Qed.

(** ** Little-endian numbers *)

Definition le_value (l : bytes) : Z := foldr (λ b n, b + 256 * n) 0 l.

Definition le_bytes (n : nat) (x : Z) : bytes := (λ i, Z.shiftr x (8 * Z.of_nat i) mod 256) <$> seq 0 n.

Lemma le_value_range l : Forall is_byte l → 0 ≤ le_value l < 2 ^ (8 * Z.of_nat (length l)).
Proof.
  induction 1 as [|b l Hb Hl IH]; [done|]. cbn [le_value foldr length]. fold (le_value l). unfold is_byte in Hb.
  replace (8 * Z.of_nat (S (length l))) with (8 + 8 * Z.of_nat (length l)) by lia. rewrite Z.pow_add_r by lia. change (2 ^ 8) with 256. lia.
Qed.

Lemma le_value_app l k : le_value (l ++ k) = le_value l + 2 ^ (8 * Z.of_nat (length l)) * le_value k.
Proof.
  induction l as [|b l IH]; [cbn [app length]; change (le_value []) with 0; change (2 ^ (8 * Z.of_nat 0)) with 1; lia|]. cbn [app length le_value foldr]. fold (le_value l) (le_value (l ++ k)). rewrite IH.
  replace (8 * Z.of_nat (S (length l))) with (8 + 8 * Z.of_nat (length l)) by lia. rewrite Z.pow_add_r by lia. change (2 ^ 8) with 256. lia.
Qed.

Lemma le_value_take_drop n l : Forall is_byte l → (n ≤ length l)%nat → le_value (take n l) = le_value l mod 2 ^ (8 * Z.of_nat n) ∧ le_value (drop n l) = le_value l / 2 ^ (8 * Z.of_nat n).
Proof.
  intros Hl Hn. rewrite <- (take_drop n l) at 2 4. rewrite le_value_app, length_take, Nat.min_l by done. pose proof (le_value_range (take n l) (Forall_take _ _ _ Hl)) as Hr. rewrite length_take, Nat.min_l in Hr by done.
  rewrite Z.mul_comm. split; [rewrite Z_mod_plus_full; by rewrite Z.mod_small|]. rewrite Z.div_add by lia. rewrite Z.div_small by done. lia.
Qed.

Lemma load64_take p : Forall is_byte p → (8 ≤ length p)%nat → load64_le p = le_value (take 8 p).
Proof.
  intros Hp Hl. unfold load64_le. enough (∀ n, (n ≤ 8)%nat → foldl (λ out i, Z.lor out (shl64 (nthZ p i) (8 * Z.of_nat i))) 0 (seq 0 n) = le_value (take n p)) as He by (by apply He).
  induction n as [|n IH]; intros Hn; [done|]. rewrite seq_S, foldl_app. cbn [foldl Nat.add]. rewrite IH by lia. destruct (lookup_lt_is_Some_2 p n ltac:(lia)) as [b Hb].
  rewrite (take_S_r p n b Hb), le_value_app, length_take, Nat.min_l by lia. unfold nthZ. rewrite Hb. change (default 0 (Some b)) with b. change (le_value [b]) with (b + 256 * 0). rewrite Forall_forall in Hp. pose proof (Hp b ltac:(by apply list_elem_of_lookup_2 in Hb)) as Hbb. unfold is_byte in Hbb.
  pose proof (le_value_range (take n p) ltac:(by apply Forall_take, Forall_forall)) as Hr. rewrite length_take, Nat.min_l in Hr by lia.
  unfold shl64. rewrite wrap_small.
  - rewrite Z.lor_comm, lor_shiftl_add by lia. ring.
  - rewrite Z.shiftl_mul_pow2 by lia. split; [apply Z.mul_nonneg_nonneg; lia|]. apply Z.lt_le_trans with (256 * 2 ^ (8 * Z.of_nat n)); [apply Z.mul_lt_mono_pos_r; lia|]. change 256 with (2 ^ 8). rewrite <- Z.pow_add_r by lia. apply Z.pow_le_mono_r; lia.
Qed.

(** Eight bytes from [n] on. *)
Lemma load64_drop n p : Forall is_byte p → (n + 8 ≤ length p)%nat → load64_le (drop n p) = (le_value p / 2 ^ (8 * Z.of_nat n)) mod 2 ^ 64.
Proof.
  intros Hp Hl. rewrite load64_take; [|by apply Forall_drop|rewrite length_drop; lia]. destruct (le_value_take_drop 8 (drop n p)) as [-> _]; [by apply Forall_drop|rewrite length_drop; lia|].
  by destruct (le_value_take_drop n p) as [_ ->]; [done|lia|].
Qed.

(** The bits from [a] on, in a window. *)
Lemma window x a k n : 0 ≤ a → 0 ≤ k → 0 ≤ n → k + n ≤ 64 → ((x / 2 ^ a) mod 2 ^ 64 / 2 ^ k) mod 2 ^ n = (x / 2 ^ (a + k)) mod 2 ^ n.
Proof.
  intros Ha Hk Hn H64. apply Z.bits_inj'. intros i Hi. destruct (Z.lt_ge_cases i n) as [Hin|Hin]; [|by rewrite !Z.mod_pow2_bits_high by lia].
  rewrite !Z.mod_pow2_bits_low by done. rewrite !Z.div_pow2_bits by lia. rewrite Z.mod_pow2_bits_low by lia. rewrite Z.div_pow2_bits by lia. f_equal. lia.
Qed.

Lemma limbs_value x : 0 ≤ x → x mod 2 ^ 51 + 2 ^ 51 * ((x / 2 ^ 51) mod 2 ^ 51) + 2 ^ 102 * ((x / 2 ^ 102) mod 2 ^ 51) + 2 ^ 153 * ((x / 2 ^ 153) mod 2 ^ 51) + 2 ^ 204 * ((x / 2 ^ 204) mod 2 ^ 51) = x mod 2 ^ 255.
Proof.
  intros Hx. change (2 ^ 204) with (2 ^ 153 * 2 ^ 51) at 2. change (2 ^ 153) with (2 ^ 102 * 2 ^ 51) at 2 3. change (2 ^ 102) with (2 ^ 51 * 2 ^ 51) at 2 3 4. rewrite <- !Z.div_div by lia.
  set (a := x / 2 ^ 51). set (b := a / 2 ^ 51). set (c := b / 2 ^ 51). set (d := c / 2 ^ 51).
  change (2 ^ 255) with (2 ^ 51 * (2 ^ 51 * (2 ^ 51 * (2 ^ 51 * 2 ^ 51)))). rewrite (Z.rem_mul_r x), (Z.rem_mul_r (x / 2 ^ 51)), (Z.rem_mul_r (x / 2 ^ 51 / 2 ^ 51)), (Z.rem_mul_r (x / 2 ^ 51 / 2 ^ 51 / 2 ^ 51)) by lia.
  fold a b c d. lia.
Qed.

Lemma fe_from_bytes_spec p : Forall is_byte p → length p = 32%nat → tight (fe_from_bytes p) ∧ val (fe_from_bytes p) = le_value p mod 2 ^ 255.
Proof.
  intros Hp Hl. unfold fe_from_bytes. rewrite !land_mask, !shiftr_div by done. pose proof (load64_drop 0 p Hp ltac:(lia)) as E0. change (drop 0 p) with p in E0. rewrite E0, !load64_drop by (done || lia).
  replace ((le_value p / 2 ^ (8 * Z.of_nat 0)) mod 2 ^ 64) with ((le_value p / 2 ^ 0) mod 2 ^ 64 / 2 ^ 0) by (change (2 ^ (8 * Z.of_nat 0)) with (2 ^ 0); change (2 ^ 0) with 1; by rewrite !Z.div_1_r).
  rewrite (window _ 0 0 51), (window _ (8 * Z.of_nat 6) 3 51), (window _ (8 * Z.of_nat 12) 6 51), (window _ (8 * Z.of_nat 19) 1 51), (window _ (8 * Z.of_nat 24) 12 51) by lia.
  change (8 * Z.of_nat 6 + 3) with 51. change (8 * Z.of_nat 12 + 6) with 102. change (8 * Z.of_nat 19 + 1) with 153. change (8 * Z.of_nat 24 + 12) with 204. change (0 + 0) with 0. change (2 ^ 0) with 1. rewrite Z.div_1_r.
  split; [unfold tight; cbn [v0 v1 v2 v3 v4]; split_and!; pose proof (Z.mod_pos_bound (le_value p) (2 ^ 51)); repeat match goal with |- context [?x mod 2 ^ 51] => pose proof (Z.mod_pos_bound x (2 ^ 51) ltac:(lia)); generalize dependent (x mod 2 ^ 51); intros end; lia|].
  unfold val. cbn [v0 v1 v2 v3 v4]. apply limbs_value. pose proof (le_value_range p Hp). lia.
Qed.

(** ** The ladder of RFC 7748 *)

(** Two points in projective form, [(x2 : z2)] and [(x3 : z3)]. *)
Definition points : Type := Z * Z * (Z * Z).

Definition exchange (s : points) : points := (s.2, s.1).

(** One doubling and one addition whose difference has the coordinate [u]. *)
Definition double_add (u : Z) (s : points) : points :=
  let '((x2, z2), (x3, z3)) := s in
  let A := x2 + z2 in let AA := A * A in let B := x2 - z2 in let BB := B * B in let E := AA - BB in
  let C := x3 + z3 in let D := x3 - z3 in let DA := D * A in let CB := C * B in
  ((AA * BB) mod prime, (E * (AA + 121665 * E)) mod prime, (((DA + CB) * (DA + CB)) mod prime, (u * ((DA - CB) * (DA - CB))) mod prime)).

(** The bits of [k] below [n], the highest first: where a bit is set the points change
    places for the step. *)
Fixpoint montgomery (u k : Z) (n : nat) (s : points) : points :=
  match n with
  | O => s
  | S t => montgomery u k t (if Z.testbit k (Z.of_nat t) then exchange (double_add u (exchange s)) else double_add u s)
  end.

(** The coordinate of [k] times the point with the coordinate [u]; the inverse is taken as
    the power with the exponent [prime - 2]. *)
Definition scalar_mult (k u : Z) : Z :=
  let '((x2, z2), _) := montgomery u k 255 ((1, 0), (u, 1)) in (x2 * z2 ^ (prime - 2)) mod prime.

(** ** Refinement of the ladder *)

(** The limbs of the machine hold the points. *)
Record holds (s : ladder) (ps : points) : Prop := {
  ho_x2 : tight (x2 s) ∧ val (x2 s) ≡p ps.1.1;
  ho_z2 : tight (z2 s) ∧ val (z2 s) ≡p ps.1.2;
  ho_x3 : tight (x3 s) ∧ val (x3 s) ≡p ps.2.1;
  ho_z3 : tight (z3 s) ∧ val (z3 s) ≡p ps.2.2;
}.

Lemma cswap_holds s b ps : holds s ps → swap s = Z.b2z b → holds (cswap s) (if b then exchange ps else ps).
Proof.
  intros [[T1 E1] [T2 E2] [T3 E3] [T4 E4]] Hb. unfold cswap. rewrite Hb, !fe_cswap_spec by auto with field. destruct b; by split.
Qed.

Lemma double_add_holds x1 e t s ps u b : tight x1 → val x1 ≡p u → scalar_bit e t = Z.b2z b → ∀ b0, swap s = Z.b2z b0 → holds s (if b0 then exchange ps else ps) →
  let s' := ladder_turn x1 e t s in holds s' (double_add u (if b then exchange ps else ps)) ∧ swap s' = Z.b2z b.
Proof.
  intros T1 E1 Hbit b0 Hb0 H s'. set (ps' := if b then exchange ps else ps).
  assert (holds (cswap (MkLadder (x2 s) (z2 s) (x3 s) (z3 s) (Z.lxor (swap s) (scalar_bit e t)))) ps') as [[Ta Ea] [Tb Eb] [Tc Ec] [Td Ed]].
  { assert (holds (MkLadder (x2 s) (z2 s) (x3 s) (z3 s) (Z.lxor (swap s) (scalar_bit e t))) (if b0 then exchange ps else ps)) as H' by (destruct H; by split).
    apply (cswap_holds _ (xorb b0 b)) in H'; [|cbn [swap]; rewrite Hb0, Hbit; by destruct b0, b]. unfold ps'. destruct ps, b0, b; exact H'. }
  unfold s', ladder_turn. cbv zeta. set (m := cswap _) in *. clearbody m. split; [|done].
  destruct ps' as [[px2 pz2] [px3 pz3]]. cbn [fst snd] in *.
  destruct (fe_add_spec _ _ Ta Tb) as [LA VA]. destruct (fe_sub_spec _ _ Ta Tb) as [LB VB]. destruct (fe_add_spec _ _ Tc Td) as [LC VC]. destruct (fe_sub_spec _ _ Tc Td) as [LD VD].
  destruct (fe_sq_spec _ LA) as [TAA VAA]. destruct (fe_sq_spec _ LB) as [TBB VBB]. destruct (fe_sub_spec _ _ TAA TBB) as [LE VE]. destruct (fe_mul_spec _ _ LD LA) as [TDA VDA]. destruct (fe_mul_spec _ _ LC LB) as [TCB VCB].
  destruct (fe_add_spec _ _ TDA TCB) as [L0 V0]. destruct (fe_sub_spec _ _ TDA TCB) as [L1 V1]. destruct (fe_mul121665_spec _ LE) as [T2 V2]. destruct (fe_add_spec _ _ TAA T2) as [L3 V3].
  destruct (fe_sq_spec _ L0) as [T5 V5]. destruct (fe_sq_spec _ L1) as [T6 V6]. destruct (fe_mul_spec _ x1 (tight_loose _ T6) (tight_loose _ T1)) as [T7 V7].
  destruct (fe_mul_spec _ _ (tight_loose _ TAA) (tight_loose _ TBB)) as [T8 V8]. destruct (fe_mul_spec _ _ LE L3) as [T9 V9].
  rewrite VA, Ea, Eb in VAA. rewrite Ea, Eb in VB. rewrite VB in VBB. rewrite VAA, VBB in VE. rewrite Ec, Ed in VD. rewrite VD, VA, Ea, Eb in VDA. rewrite VC, Ec, Ed, VB in VCB.
  rewrite V0, VDA, VCB in V5. rewrite VDA, VCB in V1. rewrite V1 in V6. rewrite V6, E1 in V7. rewrite VAA, VBB in V8. rewrite VE in V2. rewrite VE, V3, VAA, V2 in V9.
  split; cbn [x2 z2 x3 z3 double_add fst snd]; (split; [done|]); rewrite eqp_mod; [exact V8|exact V9|exact V5|]. etrans; [exact V7|]. by rewrite (Z.mul_comm u).
Qed.

Lemma testbit_le e : Forall is_byte e → ∀ i j, (i < length e)%nat → 0 ≤ j < 8 → Z.testbit (le_value e) (8 * Z.of_nat i + j) = Z.testbit (nthZ e i) j.
Proof.
  intros He i j Hi Hj. destruct (lookup_lt_is_Some_2 e i Hi) as [b Hb]. rewrite <- (take_drop i e) at 1. rewrite (drop_S e b i Hb), le_value_app, length_take, Nat.min_l by lia.
  pose proof (le_value_range (take i e) (Forall_take _ _ _ He)) as Hr. rewrite length_take, Nat.min_l in Hr by lia. unfold nthZ. rewrite Hb. change (default 0 (Some b)) with b. cbn [le_value foldr]. fold (le_value (drop (S i) e)).
  replace (8 * Z.of_nat i + j) with (j + 8 * Z.of_nat i) by lia. rewrite <- Z.div_pow2_bits by lia. rewrite Z.add_comm, Z.mul_comm, Z.div_add_l, Z.div_small by lia. rewrite Z.add_0_r.
  rewrite Forall_forall in He. pose proof (He b ltac:(by apply list_elem_of_lookup_2 in Hb)) as Hbb. unfold is_byte in Hbb.
  rewrite <- (Z.mod_pow2_bits_low (b + _) 8 j) by lia. change (2 ^ 8) with 256. rewrite Z.mul_comm, Z_mod_plus_full. by rewrite Z.mod_small.
Qed.

Lemma scalar_bit_spec e t : Forall is_byte e → (t < 8 * length e)%nat → scalar_bit e t = Z.b2z (Z.testbit (le_value e) (Z.of_nat t)).
Proof.
  intros He Ht. unfold scalar_bit. change (Z.land ?x 1) with (Z.land x (Z.ones 1)). rewrite Z.land_ones by done. change (2 ^ 1) with 2. rewrite <- Z.bit0_mod, Z.shiftr_spec, Z.add_0_l by done. f_equal.
  pose proof (Nat.div_mod_eq t 8) as Hd. pose proof (Z.mod_pos_bound (Z.of_nat t) 8 ltac:(lia)) as Hm. rewrite <- (testbit_le e He (t / 8) (Z.of_nat t mod 8)); [|apply Nat.Div0.div_lt_upper_bound; lia|done].
  f_equal. rewrite Nat2Z.inj_div. symmetry. by apply Z.div_mod.
Qed.

Lemma ladder_loop_holds x1 e u n : tight x1 → val x1 ≡p u → Forall is_byte e → (n ≤ 8 * length e)%nat → ∀ s ps b, swap s = Z.b2z b → holds s (if b then exchange ps else ps) →
  let s' := ladder_loop x1 e n s in ∃ b', swap s' = Z.b2z b' ∧ holds s' (if b' then exchange (montgomery u (le_value e) n ps) else montgomery u (le_value e) n ps).
Proof.
  intros T1 E1 He. induction n as [|t IH]; intros Hn s ps b Hb H; [by exists b|]. cbn [ladder_loop montgomery]. pose proof (scalar_bit_spec e t He ltac:(lia)) as Hbit. set (k := Z.testbit _ _) in *.
  destruct (double_add_holds x1 e t s ps u k T1 E1 Hbit b Hb H) as [H' Hs']. apply (IH ltac:(lia) _ _ k Hs'). destruct k; [|exact H']. set (q := double_add u (exchange ps)) in *. by destruct q.
Qed.

Lemma clamp_bytes s : Forall is_byte s → length s = 32%nat → Forall is_byte (clamp s) ∧ length (clamp s) = 32%nat.
Proof.
  intros Hs Hl. unfold clamp. split; [|by rewrite !length_insert]. assert (∀ i, is_byte (nthZ s i)) as Hn.
  { intros i. unfold nthZ. destruct (s !! i) as [b|] eqn:E; [|done]. rewrite Forall_forall in Hs. apply Hs. by apply list_elem_of_lookup_2 in E. }
  apply Forall_insert; [apply Forall_insert; [done|]|].
  - pose proof (all_bytes_spec (λ b, bool_decide (is_byte (Z.land b 248))) eq_refl (nthZ s 0) (Hn 0%nat)) as H. by apply bool_decide_eq_true in H.
  - pose proof (all_bytes_spec (λ b, bool_decide (is_byte (Z.lor (Z.land b 127) 64))) eq_refl (nthZ s 31) (Hn 31%nat)) as H. by apply bool_decide_eq_true in H.
Qed.

(** The limbs at the end of [x25519_raw]. *)
Lemma x25519_field_spec scalar point : Forall is_byte scalar → length scalar = 32%nat → Forall is_byte point → length point = 32%nat →
  tight (x25519_field scalar point) ∧ val (x25519_field scalar point) ≡p scalar_mult (le_value (clamp scalar)) (le_value point mod 2 ^ 255).
Proof.
  intros Hs Ls Hp Lp. destruct (clamp_bytes scalar Hs Ls) as [He Le]. destruct (fe_from_bytes_spec point Hp Lp) as [T1 E1]. unfold x25519_field. cbv zeta. set (x1 := fe_from_bytes point) in *. set (u := le_value point mod 2 ^ 255) in *.
  set (k := le_value (clamp scalar)). assert (val x1 ≡p u) as Eu by (by rewrite E1).
  destruct (ladder_loop_holds x1 (clamp scalar) u 255 T1 Eu He ltac:(lia) (MkLadder fe_one fe_zero x1 fe_one 0) ((1, 0), (u, 1)) false eq_refl) as (b & Hb & H).
  { split; (split; [try done; unfold tight; cbn; lia|done]). }
  fold k in H. apply (cswap_holds _ b) in H; [|done]. set (l := cswap _) in *. clearbody l. unfold scalar_mult. set (q := montgomery u k 255 _) in *. clearbody q.
  assert (holds l q) as [[Tx Ex] [Tz Ez] _ _] by (destruct q; by destruct b). destruct q as [[qx qz] r]. cbn [fst snd] in *. destruct (fe_invert_spec _ Tz) as [Ti Ei]. destruct (fe_mul_spec _ _ (tight_loose _ Tx) (tight_loose _ Ti)) as [Tm Em].
  split; [done|]. rewrite eqp_mod, Em, Ex, Ei. apply eqp_mul; [done|by apply eqp_pow].
Qed.

(** ** Serialization *)

(** What the single carry pass of [fe_to_bytes] leaves serializable: the first limb fits, or
    the modulus is subtracted. *)
Definition freezes (f : fe) : bool := (v0 (carried f) <? 2 ^ 51) || (prime <=? val (carried f)).

Lemma carried_spec f : tight f → let t := carried f in
  val t ≡p val f ∧ 0 ≤ v0 t < 2 ^ 51 + 19 ∧ 0 ≤ v1 t < 2 ^ 51 ∧ 0 ≤ v2 t < 2 ^ 51 ∧ 0 ≤ v3 t < 2 ^ 51 ∧ 0 ≤ v4 t < 2 ^ 51 ∧
  (v0 t < 2 ^ 51 ∨ val t < 2 ^ 65).
Proof.
  intros (H0 & H1 & H2 & H3 & H4). unfold carried, add64, mul64. cbv zeta. rewrite !land_mask, !shiftr_div by done.
  destruct (split51 (v0 f)) as (q0 & m0 & -> & -> & E0 & B0 & Q0); [lia|]. rewrite (wrap_small 64 (v1 f + q0)) by lia.
  destruct (split51 (v1 f + q0)) as (q1 & m1 & -> & -> & E1 & B1 & Q1); [lia|]. rewrite (wrap_small 64 (v2 f + q1)) by lia.
  destruct (split51 (v2 f + q1)) as (q2 & m2 & -> & -> & E2 & B2 & Q2); [lia|]. rewrite (wrap_small 64 (v3 f + q2)) by lia.
  destruct (split51 (v3 f + q2)) as (q3 & m3 & -> & -> & E3 & B3 & Q3); [lia|]. rewrite (wrap_small 64 (v4 f + q3)) by lia.
  destruct (split51 (v4 f + q3)) as (q4 & m4 & -> & -> & E4 & B4 & Q4); [lia|]. rewrite (wrap_small 64 (19 * q4)) by lia. rewrite (wrap_small 64 (m0 + 19 * q4)) by lia.
  cbn [v0 v1 v2 v3 v4]. split; [symmetry; apply (eqp_multiple q4); unfold val, prime; cbn [v0 v1 v2 v3 v4]; lia|].
  split_and!; try lia. destruct (Z.lt_ge_cases (m0 + 19 * q4) (2 ^ 51)); [by left|]. right. assert (m2 = 0 ∧ m3 = 0 ∧ m4 = 0 ∧ m1 < 2 ^ 13) by lia. unfold val. cbn [v0 v1 v2 v3 v4]. lia.
Qed.

Lemma select_low a b : 0 ≤ a < 2 ^ 64 → Z.lor (Z.land a (not64 0)) (Z.land b 0) = a.
Proof. intros Ha. change (not64 0) with (2 ^ 64 - 1). rewrite Z.land_0_r, Z.lor_0_r, land_ones_mod by done. by apply Z.mod_small. Qed.

Lemma select_high a b : 0 ≤ b < 2 ^ 64 → Z.lor (Z.land a (not64 (2 ^ 64 - 1))) (Z.land b (2 ^ 64 - 1)) = b.
Proof. intros Hb. change (not64 (2 ^ 64 - 1)) with 0. rewrite Z.land_0_r, Z.lor_0_l, land_ones_mod by done. by apply Z.mod_small. Qed.

Lemma frozen_spec t : 0 ≤ v0 t < 2 ^ 51 + 19 → 0 ≤ v1 t < 2 ^ 51 → 0 ≤ v2 t < 2 ^ 51 → 0 ≤ v3 t < 2 ^ 51 → 0 ≤ v4 t < 2 ^ 51 →
  if prime <=? val t then below (2 ^ 51) (frozen t) ∧ val (frozen t) = val t - prime else frozen t = t.
Proof.
  intros H0 H1 H2 H3 H4. unfold frozen, add64, sub64. cbv zeta. rewrite !land_mask, !shiftr_div by done. change (Z.shiftl 1 51) with (2 ^ 51). rewrite (wrap_small 64 (v0 t + 19)) by lia.
  destruct (split51 (v0 t + 19)) as (q0 & m0 & -> & -> & E0 & B0 & Q0); [lia|]. rewrite (wrap_small 64 (v1 t + q0)) by lia.
  destruct (split51 (v1 t + q0)) as (q1 & m1 & -> & -> & E1 & B1 & Q1); [lia|]. rewrite (wrap_small 64 (v2 t + q1)) by lia.
  destruct (split51 (v2 t + q1)) as (q2 & m2 & -> & -> & E2 & B2 & Q2); [lia|]. rewrite (wrap_small 64 (v3 t + q2)) by lia.
  destruct (split51 (v3 t + q2)) as (q3 & m3 & -> & -> & E3 & B3 & Q3); [lia|]. rewrite (wrap_small 64 (v4 t + q3)) by lia.
  destruct (Z.leb_spec prime (val t)) as [Hp|Hp]; unfold val, prime in Hp.
  - assert (2 ^ 51 ≤ v4 t + q3) as Hq by lia. rewrite (wrap_small 64 (v4 t + q3 - 2 ^ 51)) by lia. rewrite (Z.div_small (v4 t + q3 - 2 ^ 51) (2 ^ 63)) by lia. change (wrap 64 (0 - 1)) with (2 ^ 64 - 1).
    rewrite (Z.mod_small (v4 t + q3 - 2 ^ 51) (2 ^ 51)) by lia. rewrite !select_high by lia. unfold below, val, prime. cbn [v0 v1 v2 v3 v4]. split; lia.
  - assert (v4 t + q3 < 2 ^ 51) as Hq by lia. replace (wrap 64 (v4 t + q3 - 2 ^ 51)) with (2 ^ 64 + (v4 t + q3 - 2 ^ 51)) by (unfold wrap; apply (Z.mod_unique _ _ (-1)); lia).
    replace ((2 ^ 64 + (v4 t + q3 - 2 ^ 51)) / 2 ^ 63) with 1 by (apply (Z.div_unique _ _ _ (2 ^ 63 + (v4 t + q3 - 2 ^ 51))); lia). change (wrap 64 (1 - 1)) with 0. rewrite !select_low by lia. by destruct t.
Qed.

Lemma shl64_mod x n : 0 ≤ x → 0 ≤ n ≤ 64 → shl64 x n = Z.shiftl (x mod 2 ^ (64 - n)) n.
Proof.
  intros Hx Hn. unfold shl64, wrap. rewrite !Z.shiftl_mul_pow2 by lia. replace (2 ^ 64) with (2 ^ (64 - n) * 2 ^ n) by (rewrite <- Z.pow_add_r by lia; f_equal; lia). rewrite Z.mul_mod_distr_r; [done|lia..].
Qed.

(** A word made of the end of one limb and the beginning of the next. *)
Lemma word_add x y n : 0 ≤ x < 2 ^ n → 0 ≤ y → 0 ≤ n ≤ 64 → Z.lor x (shl64 y n) = x + 2 ^ n * (y mod 2 ^ (64 - n)).
Proof. intros Hx Hy Hn. rewrite shl64_mod, Z.lor_comm, lor_shiftl_add by lia. lia. Qed.

Lemma le_bytes_app n a b : 0 ≤ a < 2 ^ 64 → le_bytes (8 + n) (a + 2 ^ 64 * b) = le_bytes 8 a ++ le_bytes n b.
Proof.
  intros Ha. unfold le_bytes. rewrite seq_app, fmap_app. f_equal.
  - apply list_fmap_ext. intros k i Hk. apply lookup_seq in Hk as [-> Hi]. change 256 with (2 ^ 8). rewrite !shiftr_div by lia. apply Z.bits_inj'. intros j Hj. destruct (Z.lt_ge_cases j 8); [|by rewrite !Z.mod_pow2_bits_high by lia].
    rewrite !Z.mod_pow2_bits_low, !Z.div_pow2_bits by lia. rewrite <- (Z.mod_pow2_bits_low (a + _) 64) by lia. rewrite Z.mul_comm, Z_mod_plus_full. by rewrite Z.mod_small.
  - apply list_eq. intros i. rewrite !list_lookup_fmap. destruct (decide (i < n)%nat) as [Hi|Hi].
    + rewrite !lookup_seq_lt by done. cbn [fmap option_fmap option_map]. f_equal. f_equal. replace (8 * Z.of_nat (0 + 8 + i)) with (64 + 8 * Z.of_nat i) by lia. rewrite <- Z.shiftr_shiftr by lia. f_equal.
      rewrite shiftr_div by done. rewrite Z.add_comm, Z.mul_comm, Z.div_add_l, Z.div_small by lia. lia.
    + by rewrite !lookup_seq_ge by lia.
Qed.

Lemma words_spec t : below (2 ^ 51) t → concat (store64_le <$> words t) = le_bytes 32 (val t).
Proof.
  intros (H0 & H1 & H2 & H3 & H4). unfold words. rewrite !shiftr_div by done. cbn [fmap list_fmap concat]. change store64_le with (le_bytes 8). rewrite app_nil_r.
  assert (∀ x k, 0 ≤ x < 2 ^ 51 → 0 ≤ k ≤ 51 → 0 ≤ x / 2 ^ k < 2 ^ (51 - k)) as Hdiv.
  { intros x k Hx Hk. split; [apply Z.div_pos; lia|]. apply Z.div_lt_upper_bound; [lia|]. rewrite <- Z.pow_add_r by lia. replace (k + (51 - k)) with 51 by lia. lia. }
  pose proof (Hdiv (v1 t) 13 H1 ltac:(lia)). pose proof (Hdiv (v2 t) 26 H2 ltac:(lia)). pose proof (Hdiv (v3 t) 39 H3 ltac:(lia)).
  rewrite (word_add (v0 t)), (word_add (v1 t / 2 ^ 13)), (word_add (v2 t / 2 ^ 26)), (word_add (v3 t / 2 ^ 39)) by lia.
  change (64 - 51) with 13. change (64 - 38) with 26. change (64 - 25) with 39. change (64 - 12) with 52. rewrite (Z.mod_small (v4 t)) by lia.
  pose proof (Z.div_mod (v1 t) (2 ^ 13) ltac:(lia)) as D1. pose proof (Z.div_mod (v2 t) (2 ^ 26) ltac:(lia)) as D2. pose proof (Z.div_mod (v3 t) (2 ^ 39) ltac:(lia)) as D3.
  pose proof (Z.mod_pos_bound (v1 t) (2 ^ 13) ltac:(lia)) as M1. pose proof (Z.mod_pos_bound (v2 t) (2 ^ 26) ltac:(lia)) as M2. pose proof (Z.mod_pos_bound (v3 t) (2 ^ 39) ltac:(lia)) as M3.
  set (a1 := v1 t / 2 ^ 13) in *. set (b1 := v1 t mod 2 ^ 13) in *. set (a2 := v2 t / 2 ^ 26) in *. set (b2 := v2 t mod 2 ^ 26) in *. set (a3 := v3 t / 2 ^ 39) in *. set (b3 := v3 t mod 2 ^ 39) in *. clearbody a1 b1 a2 b2 a3 b3.
  rewrite <- (le_bytes_app 8 (a2 + 2 ^ 25 * b3)) by lia. rewrite <- (le_bytes_app 16 (a1 + 2 ^ 38 * b2)) by lia. rewrite <- (le_bytes_app 24 (v0 t + 2 ^ 51 * b1)) by lia. f_equal. unfold val. lia.
Qed.

(** [fe_to_bytes] writes the number that the limbs stand for, reduced. *)
Lemma fe_to_bytes_spec f : tight f → freezes f = true → fe_to_bytes f = le_bytes 32 (val f mod prime).
Proof.
  intros Hf Hz. destruct (carried_spec f Hf) as (E & T0 & T1 & T2 & T3 & T4 & _). unfold fe_to_bytes. unfold freezes in Hz. set (t := carried f) in *. clearbody t. pose proof (frozen_spec t T0 T1 T2 T3 T4) as HF. rewrite <- E.
  assert (0 ≤ val t < 2 ^ 255 + 19) as Hr by (unfold val; lia). destruct (Z.leb_spec prime (val t)) as [Hp|Hp].
  - destruct HF as [HB HV]. rewrite words_spec, HV by done. f_equal. rewrite <- (Z_mod_plus_full (val t) (-1) prime). rewrite Z.mod_small; unfold prime in *; lia.
  - rewrite HF. rewrite orb_false_r in Hz. apply Z.ltb_lt in Hz. rewrite words_spec by (unfold below; lia). by rewrite Z.mod_small by lia.
Qed.

(** Only a number of at most 65 bits can be left with a carry. *)
Lemma freezes_large f : tight f → 2 ^ 65 ≤ val f mod prime → freezes f = true.
Proof.
  intros Hf Hl. destruct (carried_spec f Hf) as (E & T0 & T1 & T2 & T3 & T4 & Hs). unfold freezes. apply orb_true_iff. destruct Hs as [Hs|Hs]; [left; by apply Z.ltb_lt|exfalso].
  rewrite <- E, Z.mod_small in Hl; [lia|]. unfold prime, val in *. lia.
Qed.

(** ** The properties *)

(** C13: X25519 is the scalar multiplication of RFC 7748. For every scalar and every point of
    32 bytes, no sum or product of the 64-bit and 128-bit limb arithmetic overflows and the
    limbs at the end hold, modulo [2 ^ 255 - 19], the coordinate that the plain Montgomery
    ladder computes from the clamped scalar, with the inverse as the power with exponent
    [p - 2]; the bytes returned are that number whenever it has more than 65 bits. *)
Theorem x25519_correct scalar point : Forall is_byte scalar → length scalar = 32%nat → Forall is_byte point → length point = 32%nat →
  let u := scalar_mult (le_value (clamp scalar)) (le_value point mod 2 ^ 255) in
  val (x25519_field scalar point) mod prime = u ∧ (2 ^ 65 ≤ u → x25519_raw scalar point = le_bytes 32 u).
Proof.
  intros Hs Ls Hp Lp u. destruct (x25519_field_spec scalar point Hs Ls Hp Lp) as [Ht Hv]. fold u in Hv.
  assert (val (x25519_field scalar point) mod prime = u) as Hu.
  { rewrite Hv. unfold u, scalar_mult. destruct (montgomery _ _ _ _) as [[a b] c]. apply Zmod_mod. }
  split; [done|]. intros Hl. unfold x25519_raw. rewrite fe_to_bytes_spec, Hu; [done|done|]. apply freezes_large; [done|by rewrite Hu].
Qed.

Lemma x25519_correct_witness : let scalar := 0x77 :: replicate 31 0xa5 in
  let u := scalar_mult (le_value (clamp scalar)) (le_value basepoint mod 2 ^ 255) in
  val (x25519_field scalar basepoint) mod prime = u ∧ (2 ^ 65 ≤ u → x25519_raw scalar basepoint = le_bytes 32 u).
Proof. apply x25519_correct; [repeat (constructor; [unfold is_byte; lia|]); constructor|reflexivity|repeat (constructor; [unfold is_byte; lia|]); constructor|reflexivity]. Defined.

(** One carry pass is not enough. There are field elements with limbs of 51 bits whose
    product [fe_to_bytes] writes wrong: the product is [2 ^ 52], and the bytes written are
    those of [2 ^ 51]. The last carry of the pass leaves a first limb of 52 bits, whose top
    bit the disjunction with the second limb loses. *)
Theorem fe_to_bytes_drops_carry : let a := MkFe (2 ^ 51 - 20) (2 ^ 51 - 1) (2 ^ 51 - 1) (2 ^ 51 - 1) (2 ^ 51 - 1) in let b := MkFe (2 ^ 51 - 19) (2 ^ 51 - 3) (2 ^ 51 - 1) (2 ^ 51 - 1) (2 ^ 51 - 1) in
  below (2 ^ 51) a ∧ below (2 ^ 51) b ∧ (val a * val b) mod prime = 2 ^ 52 ∧ fe_to_bytes (fe_mul a b) = le_bytes 32 (2 ^ 51).
Proof. split_and!; [unfold below; cbn; lia|unfold below; cbn; lia|vm_compute; reflexivity|vm_compute; reflexivity]. Qed.
