(* ===== verification/Aes.v ===== *)
(** * AES, GCM and IGE

    nxt/crypto/aes128gcm.cpp: the block cipher with its key schedule and its inverse, GHASH,
    counter mode, authenticated encryption with AES-128 in Galois counter mode, and AES-256
    in infinite garble extension mode. A block is a list of sixteen bytes; an array that the
    code updates in place is threaded through. *)
From Stdlib Require Import Btauto.
From S2P Require Import Prelude Hash.

#[local] Open Scope Z_scope.

(** ** Tables and the field of bytes *)

Definition sbox : list Z :=
  [0x63; 0x7c; 0x77; 0x7b; 0xf2; 0x6b; 0x6f; 0xc5; 0x30; 0x01; 0x67; 0x2b; 0xfe; 0xd7; 0xab; 0x76;
   0xca; 0x82; 0xc9; 0x7d; 0xfa; 0x59; 0x47; 0xf0; 0xad; 0xd4; 0xa2; 0xaf; 0x9c; 0xa4; 0x72; 0xc0;
   0xb7; 0xfd; 0x93; 0x26; 0x36; 0x3f; 0xf7; 0xcc; 0x34; 0xa5; 0xe5; 0xf1; 0x71; 0xd8; 0x31; 0x15;
   0x04; 0xc7; 0x23; 0xc3; 0x18; 0x96; 0x05; 0x9a; 0x07; 0x12; 0x80; 0xe2; 0xeb; 0x27; 0xb2; 0x75;
   0x09; 0x83; 0x2c; 0x1a; 0x1b; 0x6e; 0x5a; 0xa0; 0x52; 0x3b; 0xd6; 0xb3; 0x29; 0xe3; 0x2f; 0x84;
   0x53; 0xd1; 0x00; 0xed; 0x20; 0xfc; 0xb1; 0x5b; 0x6a; 0xcb; 0xbe; 0x39; 0x4a; 0x4c; 0x58; 0xcf;
   0xd0; 0xef; 0xaa; 0xfb; 0x43; 0x4d; 0x33; 0x85; 0x45; 0xf9; 0x02; 0x7f; 0x50; 0x3c; 0x9f; 0xa8;
   0x51; 0xa3; 0x40; 0x8f; 0x92; 0x9d; 0x38; 0xf5; 0xbc; 0xb6; 0xda; 0x21; 0x10; 0xff; 0xf3; 0xd2;
   0xcd; 0x0c; 0x13; 0xec; 0x5f; 0x97; 0x44; 0x17; 0xc4; 0xa7; 0x7e; 0x3d; 0x64; 0x5d; 0x19; 0x73;
   0x60; 0x81; 0x4f; 0xdc; 0x22; 0x2a; 0x90; 0x88; 0x46; 0xee; 0xb8; 0x14; 0xde; 0x5e; 0x0b; 0xdb;
   0xe0; 0x32; 0x3a; 0x0a; 0x49; 0x06; 0x24; 0x5c; 0xc2; 0xd3; 0xac; 0x62; 0x91; 0x95; 0xe4; 0x79;
   0xe7; 0xc8; 0x37; 0x6d; 0x8d; 0xd5; 0x4e; 0xa9; 0x6c; 0x56; 0xf4; 0xea; 0x65; 0x7a; 0xae; 0x08;
   0xba; 0x78; 0x25; 0x2e; 0x1c; 0xa6; 0xb4; 0xc6; 0xe8; 0xdd; 0x74; 0x1f; 0x4b; 0xbd; 0x8b; 0x8a;
   0x70; 0x3e; 0xb5; 0x66; 0x48; 0x03; 0xf6; 0x0e; 0x61; 0x35; 0x57; 0xb9; 0x86; 0xc1; 0x1d; 0x9e;
   0xe1; 0xf8; 0x98; 0x11; 0x69; 0xd9; 0x8e; 0x94; 0x9b; 0x1e; 0x87; 0xe9; 0xce; 0x55; 0x28; 0xdf;
   0x8c; 0xa1; 0x89; 0x0d; 0xbf; 0xe6; 0x42; 0x68; 0x41; 0x99; 0x2d; 0x0f; 0xb0; 0x54; 0xbb; 0x16].

Definition sub_byte (b : Z) : Z := nthZ sbox (Z.to_nat b).

Definition inv_sbox : list Z :=
  foldl (λ out i, <[Z.to_nat (nthZ sbox i) := Z.of_nat i]> out) (replicate 256 0) (seq 0 256).

Definition inv_sub_byte (b : Z) : Z := nthZ inv_sbox (Z.to_nat b).

Definition xtime (value : Z) : Z := wrap 8 (Z.lxor (Z.shiftl value 1) (Z.shiftr value 7 * 0x1b)).

(** The loop of [gmul]: [n] turns with the registers [a], [b] and [out]. *)
Fixpoint gmul_loop (n : nat) (a b out : Z) : Z :=
  match n with
  | O => out
  | S n =>
      let out := if Z.land b 1 =? 0 then out else Z.lxor out a in
      let high := Z.land a 0x80 in
      let a := wrap 8 (Z.shiftl a 1) in
      let a := if high =? 0 then a else Z.lxor a 0x1b in
      gmul_loop n a (Z.shiftr b 1) out
  end.

Definition gmul (a b : Z) : Z := gmul_loop 8 a b 0.

(** ** Rounds *)

Definition xor_bytes (a b : bytes) : bytes := zip_with Z.lxor a b.

Definition add_round_key (state round_keys : bytes) (round : nat) : bytes :=
  xor_bytes state (take 16 (drop (round * 16) round_keys)).

Definition permute (sr : list nat) (state : bytes) : bytes := nthZ state <$> sr.

Definition shift_rows (state : bytes) : bytes :=
  permute [0; 5; 10; 15; 4; 9; 14; 3; 8; 13; 2; 7; 12; 1; 6; 11]%nat state.

Definition inv_shift_rows (state : bytes) : bytes :=
  permute [0; 13; 10; 7; 4; 1; 14; 11; 8; 5; 2; 15; 12; 9; 6; 3]%nat state.

Definition mix_column (a0 a1 a2 a3 : Z) : bytes :=
  [Z.lxor (Z.lxor (Z.lxor (gmul a0 2) (gmul a1 3)) a2) a3;
   Z.lxor (Z.lxor (Z.lxor a0 (gmul a1 2)) (gmul a2 3)) a3;
   Z.lxor (Z.lxor (Z.lxor a0 a1) (gmul a2 2)) (gmul a3 3);
   Z.lxor (Z.lxor (Z.lxor (gmul a0 3) a1) a2) (gmul a3 2)].

Definition inv_mix_column (a0 a1 a2 a3 : Z) : bytes :=
  [Z.lxor (Z.lxor (Z.lxor (gmul a0 14) (gmul a1 11)) (gmul a2 13)) (gmul a3 9);
   Z.lxor (Z.lxor (Z.lxor (gmul a0 9) (gmul a1 14)) (gmul a2 11)) (gmul a3 13);
   Z.lxor (Z.lxor (Z.lxor (gmul a0 13) (gmul a1 9)) (gmul a2 14)) (gmul a3 11);
   Z.lxor (Z.lxor (Z.lxor (gmul a0 11) (gmul a1 13)) (gmul a2 9)) (gmul a3 14)].

(** The columns of a block, one after the other. *)
Definition columns (f : Z → Z → Z → Z → bytes) (state : bytes) : bytes :=
  concat ((λ c, f (nthZ state (c * 4)) (nthZ state (c * 4 + 1)) (nthZ state (c * 4 + 2)) (nthZ state (c * 4 + 3))) <$> seq 0 4).

Definition mix_columns : bytes → bytes := columns mix_column.
Definition inv_mix_columns : bytes → bytes := columns inv_mix_column.

(** One turn of the loop of [aes_encrypt_block]. *)
Definition encrypt_round (round_keys : bytes) (rounds : nat) (s : bytes) (round : nat) : bytes :=
  let s := sub_byte <$> s in
  let s := shift_rows s in
  let s := if (round <? rounds)%nat then mix_columns s else s in
  add_round_key s round_keys round.

Definition aes_encrypt_block (round_keys : bytes) (rounds : nat) (in_ : bytes) : bytes :=
  foldl (encrypt_round round_keys rounds) (add_round_key in_ round_keys 0) (seq 1 rounds).

(** One turn of the loop of [aes_decrypt_block], which counts down. *)
Definition decrypt_round (round_keys : bytes) (s : bytes) (round : nat) : bytes :=
  inv_mix_columns (add_round_key (inv_sub_byte <$> inv_shift_rows s) round_keys round).

Definition aes_decrypt_block (round_keys : bytes) (rounds : nat) (in_ : bytes) : bytes :=
  let s := foldl (decrypt_round round_keys) (add_round_key in_ round_keys rounds) (rev (seq 1 (rounds - 1))) in
  add_round_key (inv_sub_byte <$> inv_shift_rows s) round_keys 0.

(** ** The key schedule *)

(** The word that the next four bytes of the schedule are mixed with. *)
Definition schedule_temp (key_size generated : nat) (rcon : Z) (temp : bytes) : bytes :=
  if (generated mod key_size =? 0)%nat then
    [Z.lxor (sub_byte (nthZ temp 1)) rcon; sub_byte (nthZ temp 2); sub_byte (nthZ temp 3); sub_byte (nthZ temp 0)]
  else if (24 <? key_size)%nat && (generated mod key_size =? 16)%nat then sub_byte <$> temp
  else temp.

(** The loop of [expand_aes_key]; [rk] are the bytes generated so far. *)
Fixpoint expand_loop (fuel total key_size : nat) (rcon : Z) (rk : bytes) : bytes :=
  match fuel with
  | O => rk
  | S fuel =>
      let generated := length rk in
      if (total <=? generated)%nat then rk else
      let temp := schedule_temp key_size generated rcon (take 4 (drop (generated - 4) rk)) in
      let rcon := if (generated mod key_size =? 0)%nat then xtime rcon else rcon in
      expand_loop fuel total key_size rcon (rk ++ xor_bytes (take 4 (drop (generated - key_size) rk)) temp)
  end.

Definition expand_aes_key (key : bytes) (total : nat) : bytes := expand_loop total total (length key) 1 key.

(** ** GHASH *)

Definition zero_block : bytes := replicate 16 0.

Definition shift_right (v : bytes) : bytes :=
  Z.shiftr (nthZ v 0) 1 :: ((λ j, wrap 8 (Z.lor (Z.shiftr (nthZ v j) 1) (Z.shiftl (nthZ v (j - 1)) 7))) <$> seq 1 15).

(** The loop of [gf_mul] from bit [i] on, [n] turns. *)
Fixpoint gf_loop (n i : nat) (x v z : bytes) : bytes :=
  match n with
  | O => z
  | S n =>
      let z := if Z.land (nthZ x (i / 8)) (Z.shiftr 0x80 (Z.of_nat (i mod 8))) =? 0 then z else xor_bytes z v in
      let lsb := Z.land (nthZ v 15) 1 in
      let v := shift_right v in
      let v := if lsb =? 0 then v else <[0%nat := Z.lxor (nthZ v 0) 0xe1]> v in
      gf_loop n (S i) x v z
  end.

Definition gf_mul (x v : bytes) : bytes := gf_loop 128 0 x v zero_block.

Definition ghash_block (h acc data : bytes) : bytes := gf_mul (xor_bytes acc data) h.

(** [ghash_update]: the last block is filled up with zeros. *)
Fixpoint ghash_loop (fuel : nat) (h acc data : bytes) : bytes :=
  match fuel with
  | O => acc
  | S fuel =>
      if (16 <=? length data)%nat then ghash_loop fuel h (ghash_block h acc (take 16 data)) (drop 16 data)
      else if bool_decide (data = []) then acc
      else ghash_block h acc (data ++ replicate (16 - length data) 0)
  end.

Definition ghash_update (h acc data : bytes) : bytes := ghash_loop (S (length data)) h acc data.

Definition put_be64 (value : Z) : bytes := (λ i, wrap 8 (Z.shiftr value (56 - 8 * Z.of_nat i))) <$> seq 0 8.

(** ** Counter mode *)

Definition initial_counter (nonce : bytes) : bytes := <[15%nat := 1]> (nonce ++ replicate (16 - length nonce) 0).

(** The loop of [increment32] from the byte [i] down, [n] bytes. *)
Fixpoint increment_loop (n i : nat) (ctr : bytes) : bytes :=
  match n with
  | O => ctr
  | S n =>
      let b := wrap 8 (nthZ ctr i + 1) in
      let ctr := <[i := b]> ctr in
      if b =? 0 then increment_loop n (i - 1) ctr else ctr
  end.

Definition increment32 (ctr : bytes) : bytes := increment_loop 4 15 ctr.

(** An expanded key; [ghash_key_] is used by GCM only. *)
Record context := MkContext {
  round_keys_ : bytes;
  ghash_key_ : bytes;
  initialized_ : bool;
}.

(** The loop of [crypt_ctr] over the rest of the input. *)
Fixpoint crypt_loop (fuel : nat) (ctx : context) (counter input : bytes) : bytes :=
  match fuel with
  | O => []
  | S fuel =>
      if bool_decide (input = []) then [] else
      let counter := increment32 counter in
      let stream := aes_encrypt_block (round_keys_ ctx) 10 counter in
      let n := Nat.min 16 (length input) in
      xor_bytes (take n input) stream ++ crypt_loop fuel ctx counter (drop n input)
  end.

Definition crypt_ctr (ctx : context) (counter input : bytes) : bytes := crypt_loop (length input) ctx counter input.

(** The same loop when input and output are one buffer. *)
Fixpoint crypt_in_place (fuel : nat) (ctx : context) (counter buffer : bytes) (offset : nat) : bytes :=
  match fuel with
  | O => buffer
  | S fuel =>
      if (offset =? length buffer)%nat then buffer else
      let counter := increment32 counter in
      let stream := aes_encrypt_block (round_keys_ ctx) 10 counter in
      let n := Nat.min 16 (length buffer - offset) in
      let buffer := foldl (λ buf i, <[(offset + i)%nat := Z.lxor (nthZ buf (offset + i)) (nthZ stream i)]> buf) buffer (seq 0 n) in
      crypt_in_place fuel ctx counter buffer (offset + n)
  end.

Definition ghash_finish (ctx : context) (aad ciphertext : bytes) : bytes :=
  let h := ghash_key_ ctx in
  let acc := ghash_update h zero_block aad in
  let acc := ghash_update h acc ciphertext in
  ghash_block h acc (put_be64 (wrap 64 (Z.of_nat (length aad) * 8)) ++ put_be64 (wrap 64 (Z.of_nat (length ciphertext) * 8))).

Definition tag_equal (a b : bytes) : bool :=
  foldl Z.lor 0 ((λ i, Z.lxor (nthZ a i) (nthZ b i)) <$> seq 0 16) =? 0.

(** ** AES-128-GCM *)

Definition require_size (value : bytes) (size : nat) (message : string) : result string unit :=
  if bool_decide (length value = size) then Ret tt else Throw message.

Definition require_initialized (initialized : bool) (message : string) : result string unit :=
  if initialized then Ret tt else Throw message.

Definition aes_gcm_tag_len : nat := 16.
Definition aes_gcm_nonce_len : nat := 12.
Definition aes_block_len : nat := 16.

Definition aes128gcm_context (key : bytes) : result string context :=
  let! _ := require_size key 16 "AES-128-GCM key must be 16 bytes" in
  let rk := expand_aes_key key 176 in
  Ret (MkContext rk (aes_encrypt_block rk 10 zero_block) true).

Definition gcm_tag (ctx : context) (nonce aad text : bytes) : bytes :=
  xor_bytes (ghash_finish ctx aad text) (aes_encrypt_block (round_keys_ ctx) 10 (initial_counter nonce)).

Definition aes128gcm_open_impl (ctx : context) (nonce aad ciphertext : bytes) : result string (option bytes) :=
  let! _ := require_initialized (initialized_ ctx) "AES-128-GCM context is not initialized" in
  let! _ := require_size nonce aes_gcm_nonce_len "AES-GCM nonce must be 12 bytes" in
  if (length ciphertext <? aes_gcm_tag_len)%nat then Ret None else
  let text := take (length ciphertext - aes_gcm_tag_len) ciphertext in
  let tag := drop (length ciphertext - aes_gcm_tag_len) ciphertext in
  if negb (tag_equal (gcm_tag ctx nonce aad text) tag) then Ret None else
  Ret (Some (crypt_ctr ctx (initial_counter nonce) text)).

(** The caller's buffer is returned with the length of the text in it. *)
Definition aes128gcm_open_in_place_impl (ctx : context) (nonce aad ciphertext : bytes) : result string (option nat) * bytes :=
  match
    let! _ := require_initialized (initialized_ ctx) "AES-128-GCM context is not initialized" in
    require_size nonce aes_gcm_nonce_len "AES-GCM nonce must be 12 bytes"
  with
  | Throw e => (Throw e, ciphertext)
  | Ret _ =>
      if (length ciphertext <? aes_gcm_tag_len)%nat then (Ret None, ciphertext) else
      let size := (length ciphertext - aes_gcm_tag_len)%nat in
      let text := take size ciphertext in
      let tag := drop size ciphertext in
      if negb (tag_equal (gcm_tag ctx nonce aad text) tag) then (Ret None, ciphertext) else
      (Ret (Some size), crypt_in_place (S size) ctx (initial_counter nonce) text 0 ++ tag)
  end.

Definition aes128gcm_seal_impl (ctx : context) (nonce aad plaintext : bytes) : result string bytes :=
  let! _ := require_initialized (initialized_ ctx) "AES-128-GCM context is not initialized" in
  let! _ := require_size nonce aes_gcm_nonce_len "AES-GCM nonce must be 12 bytes" in
  let text := crypt_ctr ctx (initial_counter nonce) plaintext in
  Ret (text ++ gcm_tag ctx nonce aad text).

(** ** AES-256-IGE

    The functions write to a span of the caller, [output] before the call; what they return is
    its contents after it. *)

Definition aes256_context (key : bytes) : result string context :=
  let! _ := require_size key 32 "AES-256 key must be 32 bytes" in
  Ret (MkContext (expand_aes_key key 240) [] true).

Definition aes256_encrypt_block (ctx : context) (input output : bytes) : result string bytes :=
  let! _ := require_initialized (initialized_ ctx) "AES-256 context is not initialized" in
  let! _ := require_size input aes_block_len "AES block input must be 16 bytes" in
  let! _ := require_size output aes_block_len "AES block output must be 16 bytes" in
  Ret (aes_encrypt_block (round_keys_ ctx) 14 input).

Definition aes256_decrypt_block (ctx : context) (input output : bytes) : result string bytes :=
  let! _ := require_initialized (initialized_ ctx) "AES-256 context is not initialized" in
  let! _ := require_size input aes_block_len "AES block input must be 16 bytes" in
  let! _ := require_size output aes_block_len "AES block output must be 16 bytes" in
  Ret (aes_decrypt_block (round_keys_ ctx) 14 input).

Definition require_ige_spans (iv input output : bytes) : result string unit :=
  let! _ := require_size iv 32 "AES-IGE IV must be 32 bytes" in
  if negb (length input mod aes_block_len =? 0)%nat then Throw "AES-IGE input must be a multiple of 16 bytes"%string
  else if negb (length output =? length input)%nat then Throw "AES-IGE output must match input size"%string
  else Ret tt.

Fixpoint ige_encrypt_loop (fuel : nat) (round_keys c_prev p_prev input : bytes) : bytes :=
  match fuel with
  | O => []
  | S fuel =>
      if bool_decide (input = []) then [] else
      let block_in := take 16 input in
      let block_out := aes_encrypt_block round_keys 14 (xor_bytes block_in c_prev) in
      let block_out := xor_bytes block_out p_prev in
      block_out ++ ige_encrypt_loop fuel round_keys block_out block_in (drop 16 input)
  end.

Definition aes256_ige_encrypt (ctx : context) (iv input output : bytes) : result string bytes :=
  let! _ := require_initialized (initialized_ ctx) "AES-256 context is not initialized" in
  let! _ := require_ige_spans iv input output in
  Ret (ige_encrypt_loop (length input) (round_keys_ ctx) (take 16 iv) (drop 16 iv) input).

Fixpoint ige_decrypt_loop (fuel : nat) (round_keys c_prev p_prev input : bytes) : bytes :=
  match fuel with
  | O => []
  | S fuel =>
      if bool_decide (input = []) then [] else
      let block_in := take 16 input in
      let block_out := aes_decrypt_block round_keys 14 (xor_bytes block_in p_prev) in
      let block_out := xor_bytes block_out c_prev in
      block_out ++ ige_decrypt_loop fuel round_keys block_in block_out (drop 16 input)
  end.

Definition aes256_ige_decrypt (ctx : context) (iv input output : bytes) : result string bytes :=
  let! _ := require_initialized (initialized_ ctx) "AES-256 context is not initialized" in
  let! _ := require_ige_spans iv input output in
  Ret (ige_decrypt_loop (length input) (round_keys_ ctx) (take 16 iv) (drop 16 iv) input).

(** ** Blocks *)

Definition is_block (b : bytes) : Prop := length b = 16%nat ∧ Forall is_byte b.

Lemma lxor_range n a b : 0 ≤ n → 0 ≤ a < 2 ^ n → 0 ≤ b < 2 ^ n → 0 ≤ Z.lxor a b < 2 ^ n.
Proof.
  intros Hn Ha Hb. assert (0 ≤ Z.lxor a b) as H0 by (apply Z.lxor_nonneg; lia). split; [done|]. rewrite <- (Z.mod_small a (2 ^ n)), <- (Z.mod_small b (2 ^ n)) by done.
  assert (Z.lxor (a mod 2 ^ n) (b mod 2 ^ n) = Z.lxor a b mod 2 ^ n) as ->; [|apply Z.mod_pos_bound; lia].
  apply Z.bits_inj'. intros i Hi. rewrite Z.lxor_spec. destruct (Z.lt_ge_cases i n); [by rewrite !Z.mod_pow2_bits_low, Z.lxor_spec by lia|by rewrite !Z.mod_pow2_bits_high by lia].
Qed.

Lemma lxor_byte a b : is_byte a → is_byte b → is_byte (Z.lxor a b).
Proof. apply (lxor_range 8). lia. Qed.

Lemma nthZ_byte l i : Forall is_byte l → is_byte (nthZ l i).
Proof. intros H. unfold nthZ. destruct (l !! i) as [b|] eqn:E; [|done]. rewrite Forall_forall in H. apply H. by apply list_elem_of_lookup_2 in E. Qed.

Lemma xor_bytes_length a b : length (xor_bytes a b) = Nat.min (length a) (length b).
Proof. apply length_zip_with. Qed.

Lemma xor_bytes_byte a b : Forall is_byte a → Forall is_byte b → Forall is_byte (xor_bytes a b).
Proof. intros Ha Hb. unfold xor_bytes. revert b Hb. induction Ha as [|x a Hx Ha IH]; intros b Hb; [constructor|]. destruct Hb as [|y b Hy Hb]; [constructor|]. cbn. constructor; [by apply lxor_byte|by apply IH]. Qed.

Lemma xor_block a b : is_block a → is_block b → is_block (xor_bytes a b).
Proof. intros [La Ha] [Lb Hb]. split; [rewrite xor_bytes_length; lia|by apply xor_bytes_byte]. Qed.

(** The same mask twice. *)
Lemma xor_bytes_cancel a k : (length a ≤ length k)%nat → xor_bytes (xor_bytes a k) k = a.
Proof.
  unfold xor_bytes. revert k. induction a as [|x a IH]; intros [|y k] Hl; cbn in *; try done; [lia|]. rewrite Z.lxor_assoc, Z.lxor_nilpotent, Z.lxor_0_r. f_equal. apply IH. lia.
Qed.

Lemma map_block (f : Z → Z) b : (∀ x, is_byte x → is_byte (f x)) → is_block b → is_block (f <$> b).
Proof. intros Hf [L H]. split; [by rewrite length_fmap|]. rewrite Forall_fmap. eapply Forall_impl; [exact H|done]. Qed.

Lemma permute_block sr b : length sr = 16%nat → is_block b → is_block (permute sr b).
Proof. intros Hs [L H]. split; [unfold permute; by rewrite length_fmap|]. unfold permute. rewrite Forall_fmap. apply Forall_true. intros i. by apply nthZ_byte. Qed.

(** *** The inverses of the steps of a round *)

Lemma sub_byte_byte b : is_byte b → is_byte (sub_byte b).
Proof. intros Hb. pose proof (all_bytes_spec (λ b, bool_decide (is_byte (sub_byte b))) eq_refl b Hb) as H. by apply bool_decide_eq_true in H. Qed.

Lemma inv_sub_byte_byte b : is_byte b → is_byte (inv_sub_byte b).
Proof. intros Hb. pose proof (all_bytes_spec (λ b, bool_decide (is_byte (inv_sub_byte b))) eq_refl b Hb) as H. by apply bool_decide_eq_true in H. Qed.

Lemma inv_sub_sub b : is_byte b → inv_sub_byte (sub_byte b) = b.
Proof. intros Hb. pose proof (all_bytes_spec (λ b, inv_sub_byte (sub_byte b) =? b) eq_refl b Hb) as H. by apply Z.eqb_eq in H. Qed.

Lemma sub_inv b : Forall is_byte b → inv_sub_byte <$> (sub_byte <$> b) = b.
Proof. induction 1 as [|x b Hx Hb IH]; [done|]. cbn. by rewrite inv_sub_sub, IH. Qed.

Lemma shift_inv b : length b = 16%nat → inv_shift_rows (shift_rows b) = b.
Proof. intros L. do 16 (destruct b as [|? b]; [done|]). by destruct b. Qed.

(** [gmul] multiplies by repeated doubling. *)
Definition double (a : Z) : Z := Z.lxor (wrap 8 (Z.shiftl a 1)) (if Z.testbit a 7 then 0x1b else 0).

Lemma land_bit a k : 0 ≤ k → (Z.land a (2 ^ k) =? 0) = negb (Z.testbit a k).
Proof.
  intros Hk. destruct (Z.testbit a k) eqn:E.
  - apply Z.eqb_neq. intros H. apply (f_equal (λ x, Z.testbit x k)) in H. rewrite Z.land_spec, E, Z.pow2_bits_true, Z.bits_0 in H by done. done.
  - apply Z.eqb_eq. apply Z.bits_inj'. intros i Hi. rewrite Z.land_spec, Z.bits_0. destruct (Z.eq_dec i k) as [->|]; [by rewrite E|]. rewrite Z.pow2_bits_false by done. apply andb_false_r.
Qed.

Lemma gmul_loop_S n a b out : gmul_loop (S n) a b out = gmul_loop n (double a) (Z.shiftr b 1) (if Z.testbit b 0 then Z.lxor out a else out).
Proof.
  cbn [gmul_loop]. change 0x80 with (2 ^ 7). change (Z.land b 1) with (Z.land b (2 ^ 0)). rewrite !land_bit by done. unfold double. destruct (Z.testbit a 7), (Z.testbit b 0); cbn [negb]; by rewrite ?Z.lxor_0_r.
Qed.

Lemma wrap_lxor w a b : 0 ≤ w → wrap w (Z.lxor a b) = Z.lxor (wrap w a) (wrap w b).
Proof.
  intros Hw. unfold wrap. apply Z.bits_inj'. intros i Hi. rewrite Z.lxor_spec. destruct (Z.lt_ge_cases i w); [by rewrite !Z.mod_pow2_bits_low, Z.lxor_spec by lia|by rewrite !Z.mod_pow2_bits_high by lia].
Qed.

Lemma lxor_swap a b c d : Z.lxor (Z.lxor a b) (Z.lxor c d) = Z.lxor (Z.lxor a c) (Z.lxor b d).
Proof. rewrite !Z.lxor_assoc. f_equal. rewrite <- !Z.lxor_assoc. f_equal. apply Z.lxor_comm. Qed.

Lemma double_lxor a b : double (Z.lxor a b) = Z.lxor (double a) (double b).
Proof.
  unfold double. rewrite Z.shiftl_lxor, wrap_lxor, Z.lxor_spec, (lxor_swap (wrap 8 _)) by done. f_equal. by destruct (Z.testbit a 7), (Z.testbit b 7).
Qed.

Lemma gmul_loop_lxor n : ∀ a a' b o o', gmul_loop n (Z.lxor a a') b (Z.lxor o o') = Z.lxor (gmul_loop n a b o) (gmul_loop n a' b o').
Proof.
  induction n as [|n IH]; intros a a' b o o'; [done|]. rewrite !gmul_loop_S, double_lxor, <- IH. f_equal. destruct (Z.testbit b 0); [apply lxor_swap|done].
Qed.

Lemma gmul_lxor a a' b : gmul (Z.lxor a a') b = Z.lxor (gmul a b) (gmul a' b).
Proof. unfold gmul. by rewrite <- gmul_loop_lxor. Qed.

Lemma double_byte a : is_byte (double a).
Proof. unfold double. apply lxor_byte; [apply (wrap_range 8); lia|]. by destruct (Z.testbit a 7). Qed.

Lemma gmul_loop_byte n : ∀ a b o, is_byte a → is_byte o → is_byte (gmul_loop n a b o).
Proof. induction n as [|n IH]; intros a b o Ha Ho; [done|]. rewrite gmul_loop_S. apply IH; [apply double_byte|]. destruct (Z.testbit b 0); [by apply lxor_byte|done]. Qed.

Lemma gmul_byte a b : is_byte a → is_byte (gmul a b).
Proof. intros Ha. by apply gmul_loop_byte. Qed.

(** The coefficients of [mix_column] and of [inv_mix_column]. *)
Definition mix_coef (row col : nat) : Z := nthZ [2; 3; 1; 1] ((col + 4 - row) mod 4).
Definition inv_coef (row col : nat) : Z := nthZ [14; 11; 13; 9] ((col + 4 - row) mod 4).

Definition scale (k a : Z) : Z := if k =? 1 then a else gmul a k.

(** The product of the two matrices, entry by entry. *)
Definition entry (r i : nat) (a : Z) : Z :=
  Z.lxor (Z.lxor (Z.lxor (gmul (scale (mix_coef 0 i) a) (inv_coef r 0)) (gmul (scale (mix_coef 1 i) a) (inv_coef r 1))) (gmul (scale (mix_coef 2 i) a) (inv_coef r 2))) (gmul (scale (mix_coef 3 i) a) (inv_coef r 3)).

Lemma entry_unit a r i : is_byte a → (r < 4)%nat → (i < 4)%nat → entry r i a = if (r =? i)%nat then a else 0.
Proof.
  intros Ha Hr Hi. pose proof (all_bytes_spec (λ a, forallb (λ r, forallb (λ i, entry r i a =? if (r =? i)%nat then a else 0) (seq 0 4)) (seq 0 4)) ltac:(vm_compute; reflexivity) a Ha) as H. cbv beta in H.
  rewrite forallb_forall in H. specialize (H r ltac:(apply in_seq; lia)). rewrite forallb_forall in H. specialize (H i ltac:(apply in_seq; lia)). by apply Z.eqb_eq in H.
Qed.

Lemma lxor_transpose a0 a1 a2 a3 b0 b1 b2 b3 c0 c1 c2 c3 d0 d1 d2 d3 :
  let x4 p q r s := Z.lxor (Z.lxor (Z.lxor p q) r) s in
  x4 (x4 a0 a1 a2 a3) (x4 b0 b1 b2 b3) (x4 c0 c1 c2 c3) (x4 d0 d1 d2 d3) = x4 (x4 a0 b0 c0 d0) (x4 a1 b1 c1 d1) (x4 a2 b2 c2 d2) (x4 a3 b3 c3 d3).
Proof.
  cbv zeta. apply Z.bits_inj'. intros i _. rewrite !Z.lxor_spec. btauto.
Qed.

Lemma unmix_column a0 a1 a2 a3 : is_byte a0 → is_byte a1 → is_byte a2 → is_byte a3 →
  match mix_column a0 a1 a2 a3 with [b0; b1; b2; b3] => inv_mix_column b0 b1 b2 b3 = [a0; a1; a2; a3] | _ => False end.
Proof.
  intros H0 H1 H2 H3. unfold mix_column, inv_mix_column. rewrite !gmul_lxor.
  assert (∀ r, (r < 4)%nat → Z.lxor (Z.lxor (Z.lxor (entry r 0 a0) (entry r 1 a1)) (entry r 2 a2)) (entry r 3 a3) = nthZ [a0; a1; a2; a3] r) as He.
  { intros r Hr. rewrite !entry_unit by (done || lia). do 4 (destruct r as [|r]; [cbn; by rewrite ?Z.lxor_0_r, ?Z.lxor_0_l|]). lia. }
  pose proof (He 0%nat ltac:(lia)) as E0. pose proof (He 1%nat ltac:(lia)) as E1. pose proof (He 2%nat ltac:(lia)) as E2. pose proof (He 3%nat ltac:(lia)) as E3. clear He.
  f_equal; [etrans; [apply lxor_transpose|exact E0]|]. f_equal; [etrans; [apply lxor_transpose|exact E1]|]. f_equal; [etrans; [apply lxor_transpose|exact E2]|]. f_equal. etrans; [apply lxor_transpose|exact E3].
Qed.

Lemma mix_column_bytes a0 a1 a2 a3 : is_byte a0 → is_byte a1 → is_byte a2 → is_byte a3 → Forall is_byte (mix_column a0 a1 a2 a3) ∧ Forall is_byte (inv_mix_column a0 a1 a2 a3).
Proof. intros. split; unfold mix_column, inv_mix_column; repeat (apply Forall_cons_2; [repeat match goal with |- is_byte (Z.lxor _ _) => apply lxor_byte end; first [done|by apply gmul_byte]|]); apply Forall_nil_2. Qed.

Lemma columns_block f s : (∀ a b c d, is_byte a → is_byte b → is_byte c → is_byte d → length (f a b c d) = 4%nat ∧ Forall is_byte (f a b c d)) → Forall is_byte s → is_block (columns f s).
Proof.
  intros Hf Hs. unfold columns. cbn [seq fmap list_fmap concat]. assert (∀ i, is_byte (nthZ s i)) as Hn by (intros i; by apply nthZ_byte). split.
  - rewrite !length_app. repeat (rewrite (proj1 (Hf _ _ _ _ (Hn _) (Hn _) (Hn _) (Hn _)))). done.
  - repeat (apply Forall_app; split; [by apply Hf|]). constructor.
Qed.

Lemma mix_block s : Forall is_byte s → is_block (mix_columns s) ∧ is_block (inv_mix_columns s).
Proof. intros H. split; apply columns_block; try done; intros a b c d Ha Hb Hc Hd; (split; [done|by apply mix_column_bytes]). Qed.

Lemma mix_inv s : is_block s → inv_mix_columns (mix_columns s) = s.
Proof.
  intros [L H]. do 16 (destruct s as [|? s]; [done|]). destruct s; [|done]. repeat match goal with H : Forall is_byte (_ :: _) |- _ => apply Forall_cons in H as [? H] end.
  unfold mix_columns, columns at 1. unfold mix_column. cbn [seq fmap list_fmap concat Nat.mul Nat.add app]. unfold inv_mix_columns, columns. cbn [seq fmap list_fmap concat Nat.mul Nat.add].
  unfold nthZ. cbn [lookup list_lookup from_option id].
  repeat match goal with |- context [inv_mix_column (Z.lxor (Z.lxor (Z.lxor (gmul ?a 2) (gmul ?b 3)) ?c) ?d) _ _ _] => let U := fresh in pose proof (unmix_column a b c d ltac:(done) ltac:(done) ltac:(done) ltac:(done)) as U; unfold mix_column in U; rewrite U; clear U end.
  done.
Qed.

(** ** The block cipher *)

#[local] Set Default Proof Using "Type*".

Section cipher.
Context (rk : bytes) (rounds : nat).
Hypothesis (Hrk : Forall is_byte rk) (Hlen : (16 * (rounds + 1) ≤ length rk)%nat).

Lemma round_key_block r : (r ≤ rounds)%nat → is_block (take 16 (drop (r * 16) rk)).
Proof. intros Hr. split; [rewrite length_take, length_drop; lia|by apply Forall_take, Forall_drop]. Qed.

Lemma add_round_key_block s r : (r ≤ rounds)%nat → is_block s → is_block (add_round_key s rk r).
Proof. intros Hr Hs. apply xor_block; [done|by apply round_key_block]. Qed.

Lemma add_round_key_twice s r : (r ≤ rounds)%nat → is_block s → add_round_key (add_round_key s rk r) rk r = s.
Proof. intros Hr [Ls _]. destruct (round_key_block r Hr) as [Lk _]. apply xor_bytes_cancel. lia. Qed.

(** Substitution and permutation. *)
Definition half (s : bytes) : bytes := shift_rows (sub_byte <$> s).

Lemma half_block s : is_block s → is_block (half s).
Proof. intros Hs. apply permute_block; [done|]. apply map_block; [apply sub_byte_byte|done]. Qed.

Lemma half_inv s : is_block s → inv_sub_byte <$> inv_shift_rows (half s) = s.
Proof. intros [L H]. unfold half. rewrite shift_inv by (by rewrite length_fmap). by apply sub_inv. Qed.

Lemma encrypt_round_block s r : (r ≤ rounds)%nat → is_block s → is_block (encrypt_round rk rounds s r).
Proof.
  intros Hr Hs. unfold encrypt_round. fold (half s). apply add_round_key_block; [done|]. pose proof (half_block s Hs) as Hh. destruct (r <? rounds)%nat; [|done]. exact (proj1 (mix_block _ (proj2 Hh))).
Qed.

(** The state after [r] rounds. *)
Definition after (s : bytes) (r : nat) : bytes := foldl (encrypt_round rk rounds) (add_round_key s rk 0) (seq 1 r).

Lemma after_S s r : after s (S r) = encrypt_round rk rounds (after s r) (S r).
Proof. unfold after. rewrite seq_S, foldl_app. done. Qed.

Lemma after_block s r : (r ≤ rounds)%nat → is_block s → is_block (after s r).
Proof.
  intros Hr Hs. induction r as [|r IH]; [apply add_round_key_block; [lia|done]|]. rewrite after_S. apply encrypt_round_block; [done|]. apply IH. lia.
Qed.

Lemma encrypt_block s : is_block s → is_block (aes_encrypt_block rk rounds s).
Proof. intros Hs. by apply after_block. Qed.

(** One turn of the decryption takes back one round. *)
Lemma decrypt_round_after s r : (S r < rounds)%nat → is_block s → decrypt_round rk (half (after s (S r))) (S r) = half (after s r).
Proof.
  intros Hr Hs. pose proof (after_block s r ltac:(lia) Hs) as Hb. pose proof (after_block s (S r) ltac:(lia) Hs) as Hb'. unfold decrypt_round. rewrite half_inv by done. rewrite after_S at 1.
  unfold encrypt_round. fold (half (after s r)). rewrite (proj2 (Nat.ltb_lt (S r) rounds) Hr). pose proof (half_block _ Hb) as Hh. rewrite add_round_key_twice; [by apply mix_inv|lia|]. exact (proj1 (mix_block _ (proj2 Hh))).
Qed.

Lemma decrypt_rounds s n : (n < rounds)%nat → is_block s → foldl (decrypt_round rk) (half (after s n)) (rev (seq 1 n)) = half (after s 0).
Proof.
  intros Hn Hs. induction n as [|n IH]; [done|]. rewrite seq_S, rev_app_distr. cbn [rev app foldl Nat.add]. rewrite decrypt_round_after by done. apply IH. lia.
Qed.

(** Decryption takes back encryption. *)
Lemma decrypt_encrypt s : (0 < rounds)%nat → is_block s → aes_decrypt_block rk rounds (aes_encrypt_block rk rounds s) = s.
Proof.
  intros Hr Hs. change (aes_encrypt_block rk rounds s) with (after s rounds). assert (∃ n, rounds = S n) as [n En] by (exists (rounds - 1)%nat; lia). unfold aes_decrypt_block.
  assert (add_round_key (after s rounds) rk rounds = half (after s n)) as ->.
  { pose proof (after_S s n) as E. rewrite <- En in E. rewrite E. unfold encrypt_round. fold (half (after s n)). rewrite Nat.ltb_irrefl. pose proof (after_block s n ltac:(lia) Hs) as Hb. rewrite add_round_key_twice; [done|lia|by apply half_block]. }
  replace (rounds - 1)%nat with n by lia. rewrite decrypt_rounds by (lia || done). rewrite half_inv; [|apply after_block; [lia|done]]. apply add_round_key_twice; [lia|done].
Qed.

Lemma decrypt_round_block s r : (r ≤ rounds)%nat → is_block s → is_block (decrypt_round rk s r).
Proof. intros Hr Hs. unfold decrypt_round. apply mix_block, add_round_key_block; [done|]. apply map_block; [exact inv_sub_byte_byte|]. by apply permute_block. Qed.

Lemma decrypt_block s : is_block s → is_block (aes_decrypt_block rk rounds s).
Proof.
  intros Hs. unfold aes_decrypt_block. apply add_round_key_block; [lia|]. apply map_block; [exact inv_sub_byte_byte|]. apply permute_block; [done|].
  assert (∀ l t, Forall (λ r, r ≤ rounds)%nat l → is_block t → is_block (foldl (decrypt_round rk) t l)) as Hfold.
  { induction l as [|r l IH]; intros t Hl Ht; [done|]. apply Forall_cons in Hl as [Hr Hl]. cbn [foldl]. apply IH; [done|]. by apply decrypt_round_block. }
  apply Hfold; [|apply add_round_key_block; [lia|done]]. apply Forall_rev, Forall_forall. intros r Hr%elem_of_seq. lia.
Qed.

End cipher.

(** *** Round keys *)

Lemma schedule_temp_spec key_size generated rcon temp : is_byte rcon → Forall is_byte temp → length temp = 4%nat →
  length (schedule_temp key_size generated rcon temp) = 4%nat ∧ Forall is_byte (schedule_temp key_size generated rcon temp).
Proof.
  intros Hr Ht Hl. assert (∀ i, is_byte (sub_byte (nthZ temp i))) as Hs by (intros i; by apply sub_byte_byte, nthZ_byte). unfold schedule_temp. destruct (_ =? 0)%nat.
  - split; [done|]. repeat (apply Forall_cons_2; [first [apply Hs|by apply lxor_byte]|]). apply Forall_nil_2.
  - destruct (_ && _); [|done]. split; [by rewrite length_fmap|]. rewrite Forall_fmap. eapply Forall_impl; [exact Ht|]. apply sub_byte_byte.
Qed.

Lemma xtime_byte a : is_byte (xtime a).
Proof. apply (wrap_range 8). lia. Qed.

Lemma expand_key_spec fuel total key_size : ∀ rcon rk k, is_byte rcon → Forall is_byte rk → (4 ≤ key_size ≤ length rk)%nat → total = (length rk + 4 * k)%nat → (k < fuel)%nat →
  let out := expand_loop fuel total key_size rcon rk in length out = total ∧ Forall is_byte out.
Proof.
  induction fuel as [|fuel IH]; intros rcon rk k Hr Hk Hs Ht Hf; [lia|]. cbn [expand_loop]. destruct (Nat.leb_spec total (length rk)) as [Hle|Hle]; [split; [lia|done]|]. destruct k as [|k]; [lia|].
  set (temp := schedule_temp _ _ _ _). destruct (schedule_temp_spec key_size (length rk) rcon (take 4 (drop (length rk - 4) rk)) Hr) as [Lt Bt]; [by apply Forall_take, Forall_drop|rewrite length_take, length_drop; lia|]. fold temp in Lt, Bt.
  assert (length (xor_bytes (take 4 (drop (length rk - key_size) rk)) temp) = 4%nat) as L4 by (rewrite xor_bytes_length, length_take, length_drop, Lt; lia).
  apply (IH _ _ k); try lia.
  - destruct (_ =? 0)%nat; [apply xtime_byte|done].
  - apply Forall_app. split; [done|]. apply xor_bytes_byte; [by apply Forall_take, Forall_drop|done].
  - rewrite length_app. lia.
  - rewrite length_app. lia.
Qed.

Lemma expand_spec key total k : Forall is_byte key → (4 ≤ length key)%nat → total = (length key + 4 * k)%nat → (0 < total)%nat → length (expand_aes_key key total) = total ∧ Forall is_byte (expand_aes_key key total).
Proof. intros Hk Hl Ht Hp. unfold expand_aes_key. apply (expand_key_spec total total (length key) 1 key k); try done; lia. Qed.

(** ** AES-256-IGE *)

Section ige.
Context (rk : bytes).
Hypothesis (Hrk : Forall is_byte rk) (Hlen : length rk = 240%nat).

Lemma ige_loop_inverse fuel : ∀ c p input, is_block c → is_block p → Forall is_byte input → (length input mod 16 = 0)%nat → (length input ≤ fuel)%nat →
  length (ige_encrypt_loop fuel rk c p input) = length input ∧ ige_decrypt_loop fuel rk c p (ige_encrypt_loop fuel rk c p input) = input.
Proof.
  induction fuel as [|fuel IH]; intros c p input Hc Hp Hb Hm Hf; [destruct input; [done|cbn in Hf; lia]|]. cbn [ige_encrypt_loop].
  destruct (bool_decide_reflect (input = [])) as [->|Hne]; [done|]. assert (16 ≤ length input)%nat as H16.
  { destruct (Nat.lt_ge_cases (length input) 16) as [Hlt|]; [|done]. rewrite Nat.mod_small in Hm by done. by apply length_zero_iff_nil in Hm. }
  assert (is_block (take 16 input)) as Hin by (split; [rewrite length_take; lia|by apply Forall_take]). set (b := take 16 input) in *.
  assert (is_block (aes_encrypt_block rk 14 (xor_bytes b c))) as He by (apply encrypt_block; [done|lia|by apply xor_block]). set (e := aes_encrypt_block rk 14 (xor_bytes b c)) in *.
  assert (is_block (xor_bytes e p)) as Ho by (by apply xor_block). set (o := xor_bytes e p) in *.
  destruct (IH o b (drop 16 input)) as [IL ID]; [done|done|by apply Forall_drop|rewrite length_drop; replace (length input) with (1 * 16 + (length input - 16))%nat in Hm by lia; by rewrite Nat.add_comm, Nat.Div0.mod_add in Hm|rewrite length_drop; lia|].
  split; [rewrite length_app, IL, length_drop, (proj1 Ho); lia|]. cbn [ige_decrypt_loop]. rewrite bool_decide_false by (intros [E _]%app_eq_nil; destruct Ho as [L _]; by rewrite E in L).
  pose proof (proj1 Ho) as Lo. rewrite take_app_length', drop_app_length' by done. cbv zeta.
  assert (xor_bytes (aes_decrypt_block rk 14 (xor_bytes o p)) c = b) as ->.
  { unfold o. rewrite xor_bytes_cancel by (rewrite (proj1 He), (proj1 Hp); lia). unfold e. rewrite decrypt_encrypt; [|done|lia|lia|by apply xor_block]. apply xor_bytes_cancel. rewrite (proj1 Hin), (proj1 Hc). lia. }
  rewrite ID. unfold b. apply take_drop.
Qed.

End ige.

(** ** AES-128-GCM *)

Lemma increment_loop_block n : ∀ i ctr, is_block ctr → is_block (increment_loop n i ctr).
Proof.
  induction n as [|n IH]; intros i ctr Hc; [done|]. cbn [increment_loop]. set (b := wrap 8 _). assert (is_block (<[i := b]> ctr)) as H.
  { destruct Hc as [L H]. split; [by rewrite length_insert|]. apply Forall_insert; [done|]. apply (wrap_range 8). lia. }
  destruct (b =? 0); [by apply IH|done].
Qed.

Lemma initial_counter_block nonce : length nonce = 12%nat → Forall is_byte nonce → is_block (initial_counter nonce).
Proof.
  intros L H. unfold initial_counter. split; [rewrite length_insert, length_app, length_replicate; lia|]. apply Forall_insert; [|done]. apply Forall_app. split; [done|]. by apply Forall_replicate.
Qed.

Lemma shift_right_length v : length (shift_right v) = 16%nat.
Proof. reflexivity. Qed.

Lemma gf_loop_length n : ∀ i x v z, length v = 16%nat → length z = 16%nat → length (gf_loop n i x v z) = 16%nat.
Proof.
  induction n as [|n IH]; intros i x v z Hv Hz; [done|]. cbn [gf_loop]. apply IH.
  - destruct (_ =? 0); [done|]. by rewrite length_insert.
  - destruct (_ =? 0); [done|]. rewrite xor_bytes_length. lia.
Qed.

Lemma foldl_lor_zero l : ∀ a, foldl Z.lor a l = 0 ↔ a = 0 ∧ Forall (λ x, x = 0) l.
Proof.
  induction l as [|x l IH]; intros a; cbn [foldl]; [by split; [|intros [? _]]|]. rewrite IH, Forall_cons, Z.lor_eq_0_iff. by split; [intros [[? ?] ?]|intros [? [? ?]]].
Qed.

Lemma tag_equal_spec a b : length a = 16%nat → length b = 16%nat → tag_equal a b = true ↔ a = b.
Proof.
  intros La Lb. unfold tag_equal. rewrite Z.eqb_eq, foldl_lor_zero, Forall_fmap, Forall_forall. split; [|intros ->; split; [done|intros i _; apply Z.lxor_nilpotent]].
  intros [_ H]. apply (list_eq_same_length _ _ 16); [done|done|]. intros i x y Hi Hx Hy. assert (i ∈ seq 0 16) as Hs by (apply elem_of_seq; lia). specialize (H i Hs). unfold compose, nthZ in H. rewrite Hx, Hy in H. by apply Z.lxor_eq.
Qed.

Section gcm.
Context (ctx : context).
Hypothesis (Hrk : Forall is_byte (round_keys_ ctx)) (Hlen : length (round_keys_ ctx) = 176%nat).

Lemma stream_length ctr : is_block ctr → length (aes_encrypt_block (round_keys_ ctx) 10 ctr) = 16%nat.
Proof. intros Hc. apply (encrypt_block (round_keys_ ctx) 10); [done|lia|done]. Qed.

Lemma crypt_loop_twice fuel : ∀ ctr input, is_block ctr → (length input ≤ fuel)%nat →
  length (crypt_loop fuel ctx ctr input) = length input ∧ crypt_loop fuel ctx ctr (crypt_loop fuel ctx ctr input) = input.
Proof.
  induction fuel as [|fuel IH]; intros ctr input Hc Hf; [destruct input; [done|cbn in Hf; lia]|]. cbn [crypt_loop]. destruct (bool_decide_reflect (input = [])) as [->|Hne]; [done|].
  assert (is_block (increment32 ctr)) as Hc' by (by apply increment_loop_block). pose proof (stream_length _ Hc') as Hs. set (st := aes_encrypt_block _ _ _) in *. set (n := Nat.min 16 (length input)). assert (n = Nat.min 16 (length input)) as En by done. clearbody n.
  assert (0 < length input)%nat as Hpos by (destruct input; [done|cbn; lia]). destruct (IH (increment32 ctr) (drop n input)) as [IL ID]; [done|rewrite length_drop; lia|].
  assert (length (xor_bytes (take n input) st) = n) as Lx by (rewrite xor_bytes_length, length_take, Hs; lia).
  split; [rewrite length_app, IL, Lx, length_drop; lia|]. rewrite bool_decide_false by (intros [E _]%app_eq_nil; rewrite E in Lx; cbn in Lx; lia).
  assert (Nat.min 16 (length (xor_bytes (take n input) st ++ crypt_loop fuel ctx (increment32 ctr) (drop n input))) = n) as -> by (rewrite length_app, IL, Lx, length_drop; lia).
  cbv zeta. rewrite take_app_length' by done. rewrite drop_app_length' by done. fold st. rewrite ID, xor_bytes_cancel by (rewrite length_take; lia). apply take_drop.
Qed.

Lemma crypt_twice ctr input : is_block ctr → length (crypt_ctr ctx ctr input) = length input ∧ crypt_ctr ctx ctr (crypt_ctr ctx ctr input) = input.
Proof. intros Hc. destruct (crypt_loop_twice (length input) ctr input Hc ltac:(lia)) as [L H]. unfold crypt_ctr. rewrite L. done. Qed.

Lemma gcm_tag_length nonce aad text : length (ghash_key_ ctx) = 16%nat → is_block (initial_counter nonce) → length (gcm_tag ctx nonce aad text) = 16%nat.
Proof.
  intros Hh Hc. unfold gcm_tag. rewrite xor_bytes_length, stream_length by done. unfold ghash_finish, ghash_block, gf_mul. cbv zeta. by rewrite gf_loop_length.
Qed.

End gcm.

(** *** Decryption in place *)

Lemma patch_lookup (stream : bytes) offset n : ∀ buf k, foldl (λ buf i, <[(offset + i)%nat := Z.lxor (nthZ buf (offset + i)) (nthZ stream i)]> buf) buf (seq 0 n) !! k =
  if bool_decide (offset ≤ k < offset + n)%nat then (λ b, Z.lxor b (nthZ stream (k - offset))) <$> buf !! k else buf !! k.
Proof.
  induction n as [|n IH]; intros buf k; [by rewrite bool_decide_false by lia|]. rewrite seq_S, foldl_app. cbn [foldl Nat.add]. set (f := λ _ _, _). set (buf' := foldl f buf (seq 0 n)) in *.
  assert (∀ k, buf' !! k = if bool_decide (offset ≤ k < offset + n)%nat then (λ b, Z.lxor b (nthZ stream (k - offset))) <$> buf !! k else buf !! k) as E by (intros j; apply IH). clearbody buf'. clear IH.
  destruct (decide (k = (offset + n)%nat)) as [->|Hk].
  - rewrite bool_decide_true by lia. replace (offset + n - offset)%nat with n by lia. pose proof (E (offset + n)%nat) as En. rewrite bool_decide_false in En by lia. destruct (buf !! (offset + n)%nat) as [b|] eqn:Eb.
    + rewrite list_lookup_insert_eq by (by eapply lookup_lt_Some). unfold nthZ at 1. by rewrite En.
    + rewrite list_insert_ge; [done|]. by apply lookup_ge_None.
  - rewrite list_lookup_insert_ne by done. rewrite E. destruct (decide (offset ≤ k < offset + n)%nat) as [H|H]; [by rewrite !bool_decide_true by lia|by rewrite !bool_decide_false by lia].
Qed.

Lemma patch_eq (stream buf : bytes) offset n : (offset + n ≤ length buf)%nat → (n ≤ length stream)%nat →
  foldl (λ buf i, <[(offset + i)%nat := Z.lxor (nthZ buf (offset + i)) (nthZ stream i)]> buf) buf (seq 0 n) =
  take offset buf ++ xor_bytes (take n (drop offset buf)) stream ++ drop (offset + n) buf.
Proof.
  intros Hb Hs. apply list_eq. intros k. rewrite patch_lookup. assert (length (take offset buf) = offset) as L1 by (rewrite length_take; lia). assert (length (xor_bytes (take n (drop offset buf)) stream) = n) as L2 by (rewrite xor_bytes_length, length_take, length_drop; lia).
  destruct (Nat.lt_ge_cases k offset) as [H1|H1]; [rewrite bool_decide_false by lia; rewrite lookup_app_l by lia; by rewrite lookup_take_lt|]. rewrite lookup_app_r by lia. rewrite L1.
  destruct (Nat.lt_ge_cases k (offset + n)) as [H2|H2].
  - rewrite bool_decide_true by lia. rewrite lookup_app_l by lia. unfold xor_bytes. rewrite lookup_zip_with, lookup_take_lt, lookup_drop by lia. replace (offset + (k - offset))%nat with k by lia.
    destruct (lookup_lt_is_Some_2 buf k ltac:(lia)) as [b ->]. destruct (lookup_lt_is_Some_2 stream (k - offset) ltac:(lia)) as [c Hc]. unfold nthZ. rewrite Hc. done.
  - rewrite bool_decide_false by lia. rewrite lookup_app_r, lookup_drop by lia. f_equal. lia.
Qed.

Lemma crypt_in_place_eq ctx fuel : Forall is_byte (round_keys_ ctx) → length (round_keys_ ctx) = 176%nat → ∀ ctr buf offset, is_block ctr → (offset ≤ length buf)%nat → (length buf - offset < fuel)%nat →
  crypt_in_place fuel ctx ctr buf offset = take offset buf ++ crypt_loop fuel ctx ctr (drop offset buf).
Proof.
  intros Hrk Hlen. induction fuel as [|fuel IH]; intros ctr buf offset Hc Ho Hf; [lia|]. cbn [crypt_in_place crypt_loop]. destruct (Nat.eqb_spec offset (length buf)) as [->|Hne].
  - rewrite drop_all, bool_decide_true by done. by rewrite take_ge, app_nil_r by lia.
  - rewrite (bool_decide_false (drop offset buf = [])) by (intros E%(f_equal length); rewrite length_drop in E; cbn in E; lia). cbv zeta. rewrite length_drop.
    assert (is_block (increment32 ctr)) as Hc' by (by apply increment_loop_block). pose proof (stream_length ctx Hrk Hlen _ Hc') as Hs. set (st := aes_encrypt_block _ _ _) in *.
    set (n := Nat.min 16 (length buf - offset)). assert (n = Nat.min 16 (length buf - offset)) as En by done. clearbody n. rewrite patch_eq by lia.
    set (xs := xor_bytes _ st). assert (length xs = n) as Lx by (unfold xs; rewrite xor_bytes_length, length_take, length_drop, Hs; lia). assert (length (take offset buf) = offset) as L1 by (rewrite length_take; lia).
    rewrite IH; [|done|rewrite !length_app, L1, Lx, length_drop; lia|rewrite !length_app, L1, Lx, length_drop; lia]. rewrite app_assoc, take_app_length', drop_app_length' by (rewrite length_app; lia).
    by rewrite <- app_assoc, drop_drop.
Qed.

(** More fuel does not matter. *)
Lemma crypt_loop_fuel ctx fuel : ∀ fuel' ctr input, (length input ≤ fuel)%nat → (length input ≤ fuel')%nat → crypt_loop fuel ctx ctr input = crypt_loop fuel' ctx ctr input.
Proof.
  induction fuel as [|fuel IH]; intros fuel' ctr input H1 H2; [destruct input; [by destruct fuel'|cbn in H1; lia]|]. destruct fuel' as [|fuel']; [destruct input; [done|cbn in H2; lia]|]. cbn [crypt_loop].
  destruct (bool_decide_reflect (input = [])) as [|Hne]; [done|]. cbv zeta. f_equal. assert (0 < length input)%nat by (destruct input; [done|cbn; lia]). apply IH; rewrite length_drop; lia.
Qed.

Lemma crypt_in_place_ctr ctx ctr text : Forall is_byte (round_keys_ ctx) → length (round_keys_ ctx) = 176%nat → is_block ctr → crypt_in_place (S (length text)) ctx ctr text 0 = crypt_ctr ctx ctr text.
Proof. intros Hrk Hlen Hc. rewrite crypt_in_place_eq by (done || lia). rewrite drop_0. cbn [take app]. apply crypt_loop_fuel; lia. Qed.

(** ** Contexts *)

(** What [aes128gcm_context] makes of a key. *)
Record gcm_ready (ctx : context) : Prop := {
  ready_bytes : Forall is_byte (round_keys_ ctx);
  ready_length : length (round_keys_ ctx) = 176%nat;
  ready_hash : is_block (ghash_key_ ctx);
  ready_flag : initialized_ ctx = true;
}.

Lemma zero_block_block : is_block zero_block.
Proof. split; [done|by apply Forall_replicate]. Qed.

Lemma require_size_ret value size message u : require_size value size message = Ret u → length value = size.
Proof. unfold require_size. by case_bool_decide. Qed.

Lemma require_size_ok value size message : length value = size → require_size value size message = Ret tt.
Proof. intros H. unfold require_size. by rewrite bool_decide_true. Qed.

Lemma gcm_context_ready key ctx : Forall is_byte key → aes128gcm_context key = Ret ctx → gcm_ready ctx.
Proof.
  intros Hk H. unfold aes128gcm_context in H. destruct (require_size key 16 _) as [u|e] eqn:E; [|done]. apply require_size_ret in E. cbn [bind] in H. injection H as <-.
  destruct (expand_spec key 176 40 Hk ltac:(lia) ltac:(lia) ltac:(lia)) as [L B]. constructor; cbn [round_keys_ ghash_key_ initialized_]; [exact B|exact L| |reflexivity].
  apply encrypt_block; [exact B|lia|apply zero_block_block].
Qed.

Lemma aes256_context_ready key ctx : Forall is_byte key → aes256_context key = Ret ctx → Forall is_byte (round_keys_ ctx) ∧ length (round_keys_ ctx) = 240%nat ∧ initialized_ ctx = true.
Proof.
  intros Hk H. unfold aes256_context in H. destruct (require_size key 32 _) as [u|e] eqn:E; [|done]. apply require_size_ret in E. cbn [bind] in H. injection H as <-.
  by destruct (expand_spec key 240 52 Hk ltac:(lia) ltac:(lia) ltac:(lia)) as [L B].
Qed.

Section sealed.
Context (ctx : context) (nonce aad : bytes).
Hypothesis (Hctx : gcm_ready ctx) (Hn : length nonce = 12%nat) (Hb : Forall is_byte nonce).

Lemma counter_block : is_block (initial_counter nonce).
Proof. by apply initial_counter_block. Qed.

Lemma seal_eq p : aes128gcm_seal_impl ctx nonce aad p =
  Ret (crypt_ctr ctx (initial_counter nonce) p ++ gcm_tag ctx nonce aad (crypt_ctr ctx (initial_counter nonce) p)).
Proof. unfold aes128gcm_seal_impl, require_initialized. rewrite (ready_flag _ Hctx), require_size_ok by done. done. Qed.

Lemma tag_length text : length (gcm_tag ctx nonce aad text) = 16%nat.
Proof. destruct Hctx as [H1 H2 [H3 _] _]. apply gcm_tag_length; [done|done|done|apply counter_block]. Qed.

(** Whether [aes128gcm_open_impl] accepts the message. *)
Definition authentic (c : bytes) : bool :=
  (16 <=? length c)%nat && tag_equal (gcm_tag ctx nonce aad (take (length c - 16) c)) (drop (length c - 16) c).

Lemma open_eq c : aes128gcm_open_impl ctx nonce aad c =
  Ret (if authentic c then Some (crypt_ctr ctx (initial_counter nonce) (take (length c - 16) c)) else None).
Proof.
  unfold aes128gcm_open_impl, require_initialized, authentic, aes_gcm_tag_len. rewrite (ready_flag _ Hctx), require_size_ok by done. cbn [bind].
  rewrite Nat.leb_antisym. destruct (length c <? 16)%nat; [done|]. cbn [negb andb]. by destruct (tag_equal _ _).
Qed.

Lemma open_in_place_eq c : aes128gcm_open_in_place_impl ctx nonce aad c =
  if authentic c then (Ret (Some (length c - 16)%nat), crypt_ctr ctx (initial_counter nonce) (take (length c - 16) c) ++ drop (length c - 16) c) else (Ret None, c).
Proof.
  unfold aes128gcm_open_in_place_impl, require_initialized, authentic, aes_gcm_tag_len. rewrite (ready_flag _ Hctx), require_size_ok by done. cbn [bind].
  rewrite Nat.leb_antisym. destruct (Nat.ltb_spec (length c) 16) as [|Hc]; [done|]. cbn [negb andb]. destruct (tag_equal _ _); [|done]. cbn [negb].
  destruct Hctx as [H1 H2 _ _]. pose proof (crypt_in_place_ctr ctx (initial_counter nonce) (take (length c - 16) c) H1 H2 counter_block) as E. rewrite length_take, Nat.min_l in E by lia. by rewrite E.
Qed.

Lemma authentic_seal c : authentic c = true ↔ ∃ p, aes128gcm_seal_impl ctx nonce aad p = Ret c ∧ p = crypt_ctr ctx (initial_counter nonce) (take (length c - 16) c).
Proof.
  destruct Hctx as [H1 H2 _ _]. pose proof (λ t, crypt_twice ctx H1 H2 _ t counter_block) as Ht. unfold authentic. rewrite andb_true_iff, Nat.leb_le. split.
  - intros [Hl H]. rewrite tag_equal_spec in H by (apply tag_length || (rewrite length_drop; lia)). eexists. split; [|done]. rewrite seal_eq, (proj2 (Ht _)), H. by rewrite take_drop.
  - intros (p & Hs & _). rewrite seal_eq in Hs. set (t := crypt_ctr ctx (initial_counter nonce) p) in *. injection Hs as <-. rewrite length_app, tag_length. split; [lia|]. replace (length t + 16 - 16)%nat with (length t) by lia.
    rewrite take_app_length, drop_app_length. apply tag_equal_spec; [apply tag_length|apply tag_length|done].
Qed.

Lemma opened_text c p : aes128gcm_seal_impl ctx nonce aad p = Ret c → crypt_ctr ctx (initial_counter nonce) (take (length c - 16) c) = p ∧ length p = (length c - 16)%nat.
Proof.
  intros Hs. destruct Hctx as [H1 H2 _ _]. destruct (crypt_twice ctx H1 H2 _ p counter_block) as [L E]. rewrite seal_eq in Hs. set (t := crypt_ctr ctx (initial_counter nonce) p) in *. injection Hs as <-. rewrite length_app, tag_length.
  replace (length t + 16 - 16)%nat with (length t) by lia. by rewrite take_app_length.
Qed.

End sealed.

(** ** The field of GHASH *)

(** Polynomials over the field of two elements are numbers: bit [i] is the coefficient of
    [x^i]. [xorsum n f] adds [f 0] to [f (n - 1)]. *)
Fixpoint xorsum (n : nat) (f : nat → Z) : Z :=
  match n with
  | O => 0
  | S n => Z.lxor (xorsum n f) (f n)
  end.

(** The product of two polynomials, the first of degree below 128. *)
Definition clmul (a b : Z) : Z := xorsum 128 (λ i, if Z.testbit a (Z.of_nat i) then Z.shiftl b (Z.of_nat i) else 0).

(** A block lists its coefficients from the first byte's top bit on. *)
Definition coef (b : bytes) (i : nat) : bool := Z.testbit (nthZ b (i / 8)) (7 - Z.of_nat (i mod 8)).
Definition poly (b : bytes) : Z := xorsum 128 (λ i, if coef b i then 2 ^ Z.of_nat i else 0).

(** [x^128 + x^7 + x^2 + x + 1] and its multiples. *)
Definition gcm_modulus : Z := 2 ^ 128 + 0x87.

Inductive multiple : Z → Prop :=
| multiple_0 : multiple 0
| multiple_add a i : 0 ≤ i → multiple a → multiple (Z.lxor a (Z.shiftl gcm_modulus i)).

Lemma multiple_lxor a b : multiple a → multiple b → multiple (Z.lxor a b).
Proof. intros Ha Hb. induction Hb as [|b i Hi Hb IH]; [by rewrite Z.lxor_0_r|]. rewrite <- Z.lxor_assoc. by constructor. Qed.

Lemma multiple_shift a : multiple a → multiple (Z.shiftl a 1).
Proof. induction 1 as [|a i Hi Ha IH]; [constructor|]. rewrite Z.shiftl_lxor, Z.shiftl_shiftl by done. constructor; [lia|done]. Qed.

Lemma multiple_modulus : multiple gcm_modulus.
Proof. rewrite <- (Z.lxor_0_l gcm_modulus), <- (Z.shiftl_0_r gcm_modulus). constructor; [done|constructor]. Qed.

Lemma xorsum_ext n f g : (∀ i, (i < n)%nat → f i = g i) → xorsum n f = xorsum n g.
Proof. induction n as [|n IH]; intros H; [done|]. cbn. rewrite IH, H; [done|lia|]. intros i Hi. apply H. lia. Qed.

Lemma xorsum_lxor n f g : xorsum n (λ i, Z.lxor (f i) (g i)) = Z.lxor (xorsum n f) (xorsum n g).
Proof. induction n as [|n IH]; [done|]. cbn. rewrite IH. apply lxor_swap. Qed.

Lemma xorsum_multiple n f : (∀ i, (i < n)%nat → multiple (f i)) → multiple (xorsum n f).
Proof. induction n as [|n IH]; intros H; [constructor|]. cbn. apply multiple_lxor; [apply IH; intros i Hi|]; apply H; lia. Qed.

Lemma testbit_sum n (c : nat → bool) i : 0 ≤ i → Z.testbit (xorsum n (λ k, if c k then 2 ^ Z.of_nat k else 0)) i = (i <? Z.of_nat n) && c (Z.to_nat i).
Proof.
  intros Hi. induction n as [|n IH]; [cbn [xorsum]; rewrite Z.bits_0; by destruct (Z.ltb_spec i (Z.of_nat 0)); [lia|]|]. cbn [xorsum]. rewrite Z.lxor_spec, IH.
  destruct (Z.eq_dec i (Z.of_nat n)) as [->|Hne].
  - rewrite Nat2Z.id. rewrite (proj2 (Z.ltb_ge _ _)), (proj2 (Z.ltb_lt _ _)) by lia. destruct (c n); [by rewrite Z.pow2_bits_true by lia|by rewrite Z.bits_0].
  - assert (Z.testbit (if c n then 2 ^ Z.of_nat n else 0) i = false) as -> by (destruct (c n); [by rewrite Z.pow2_bits_false by lia|apply Z.bits_0]). rewrite xorb_false_r. f_equal.
    destruct (Z.ltb_spec i (Z.of_nat n)), (Z.ltb_spec i (Z.of_nat (S n))); lia || done.
Qed.

Lemma testbit_poly b i : 0 ≤ i → Z.testbit (poly b) i = (i <? 128) && coef b (Z.to_nat i).
Proof. apply (testbit_sum 128). Qed.

Lemma poly_range b : 0 ≤ poly b < 2 ^ 128.
Proof.
  assert (poly b mod 2 ^ 128 = poly b) as <-; [|apply Z.mod_pos_bound; lia]. apply Z.bits_inj'. intros i Hi. destruct (Z.lt_ge_cases i 128); [by rewrite Z.mod_pow2_bits_low by lia|].
  rewrite Z.mod_pow2_bits_high, testbit_poly by lia. by rewrite (proj2 (Z.ltb_ge _ _)) by lia.
Qed.

Lemma byte_high b i : is_byte b → 8 ≤ i → Z.testbit b i = false.
Proof. intros Hb Hi. unfold is_byte in Hb. rewrite <- (Z.mod_small b (2 ^ 8)) by lia. apply Z.mod_pow2_bits_high. lia. Qed.

Lemma coef_xor a b i : length a = length b → coef (xor_bytes a b) i = xorb (coef a i) (coef b i).
Proof.
  intros L. unfold coef, nthZ, xor_bytes. rewrite lookup_zip_with. set (k := (i / 8)%nat). destruct (Nat.lt_ge_cases k (length a)) as [H|H].
  - destruct (lookup_lt_is_Some_2 a k H) as [x ->]. destruct (lookup_lt_is_Some_2 b k ltac:(lia)) as [y ->]. apply Z.lxor_spec.
  - rewrite (lookup_ge_None_2 a), (lookup_ge_None_2 b) by lia. cbn [mbind option_bind from_option]. by rewrite Z.bits_0.
Qed.

Lemma poly_xor a b : length a = length b → poly (xor_bytes a b) = Z.lxor (poly a) (poly b).
Proof.
  intros L. apply Z.bits_inj'. intros i Hi. rewrite Z.lxor_spec, !testbit_poly by done. rewrite coef_xor by done. by destruct (i <? 128).
Qed.

(** One turn of [gf_mul] on its register. *)
Definition gf_step (v : bytes) : bytes :=
  if Z.land (nthZ v 15) 1 =? 0 then shift_right v else <[0%nat := Z.lxor (nthZ (shift_right v) 0) 0xe1]> (shift_right v).

Lemma shift_right_nth v j : (0 < j < 16)%nat → nthZ (shift_right v) j = wrap 8 (Z.lor (Z.shiftr (nthZ v j) 1) (Z.shiftl (nthZ v (j - 1)) 7)).
Proof.
  intros Hj. destruct j as [|j]; [lia|]. unfold nthZ at 1, shift_right. change ((?x :: ?l) !! S j) with (l !! j). rewrite list_lookup_fmap, lookup_seq_lt by lia. done.
Qed.

Lemma coef_shift v i : Forall is_byte v → (i < 128)%nat → coef (shift_right v) i = match i with O => false | S k => coef v k end.
Proof.
  intros Hv Hi. assert (∃ j r, i = (8 * j + r)%nat ∧ (r < 8)%nat ∧ (j < 16)%nat) as (j & r & -> & Hr & Hj).
  { exists (i / 8)%nat, (i mod 8)%nat. repeat split; [apply Nat.div_mod_eq|by apply Nat.mod_upper_bound|]. apply Nat.Div0.div_lt_upper_bound. lia. }
  assert (∀ k s, (s < 8)%nat → coef v (8 * k + s) = Z.testbit (nthZ v k) (7 - Z.of_nat s)) as Hc.
  { intros k s Hs. unfold coef. rewrite (Nat.mul_comm 8), Nat.div_add_l, (Nat.div_small s), Nat.add_0_r, Nat.add_comm, Nat.Div0.mod_add, Nat.mod_small by lia. done. }
  assert (coef (shift_right v) (8 * j + r) = Z.testbit (nthZ (shift_right v) j) (7 - Z.of_nat r)) as ->.
  { unfold coef. rewrite (Nat.mul_comm 8), Nat.div_add_l, (Nat.div_small r), Nat.add_0_r, Nat.add_comm, Nat.Div0.mod_add, Nat.mod_small by lia. done. }
  destruct r as [|r].
  - destruct j as [|j].
    + change (nthZ (shift_right v) 0) with (Z.shiftr (nthZ v 0) 1). rewrite Z.shiftr_spec by lia. apply byte_high; [by apply nthZ_byte|lia].
    + rewrite shift_right_nth by lia. unfold wrap. rewrite Z.mod_pow2_bits_low, Z.lor_spec, Z.shiftr_spec, Z.shiftl_spec by lia. rewrite (byte_high (nthZ v (S j))) by (lia || by apply nthZ_byte).
      replace (8 * S j + 0)%nat with (S (8 * j + 7)) by lia. rewrite Hc by lia. replace (S j - 1)%nat with j by lia. done.
  - replace (8 * j + S r)%nat with (S (8 * j + r)) by lia. rewrite Hc by lia. destruct j as [|j].
    + change (nthZ (shift_right v) 0) with (Z.shiftr (nthZ v 0) 1). rewrite Z.shiftr_spec by lia. f_equal. lia.
    + rewrite shift_right_nth by lia. unfold wrap. rewrite Z.mod_pow2_bits_low, Z.lor_spec, Z.shiftr_spec, Z.shiftl_spec by lia. rewrite (Z.testbit_neg_r (nthZ v (S j - 1))) by lia. rewrite orb_false_r. f_equal. lia.
Qed.

Lemma shift_right_block v : is_block v → is_block (shift_right v).
Proof.
  intros [L H]. split; [done|]. unfold shift_right. apply Forall_cons_2.
  - pose proof (nthZ_byte v 0 H) as [H0 H1]. unfold is_byte. rewrite Z.shiftr_div_pow2 by done. change (2 ^ 1) with 2. split; [apply Z.div_pos; lia|apply Z.div_lt_upper_bound; lia].
  - rewrite Forall_fmap. apply Forall_true. intros j. apply (wrap_range 8). lia.
Qed.

Lemma gf_step_block v : is_block v → is_block (gf_step v).
Proof.
  intros Hv. pose proof (shift_right_block v Hv) as [L H]. unfold gf_step. destruct (_ =? 0); [done|]. split; [by rewrite length_insert|]. apply Forall_insert; [done|]. apply lxor_byte; [by apply nthZ_byte|done].
Qed.

Lemma coef_reduce v i : length v = 16%nat → (i < 128)%nat → coef (<[0%nat := Z.lxor (nthZ v 0) 0xe1]> v) i = xorb (coef v i) (Z.testbit 0x87 (Z.of_nat i)).
Proof.
  intros L Hi. destruct (Nat.lt_ge_cases i 8) as [H|H].
  - unfold coef. rewrite Nat.div_small, Nat.mod_small by done. unfold nthZ at 1. rewrite list_lookup_insert_eq by lia. cbn [from_option id]. rewrite Z.lxor_spec. f_equal. do 8 (destruct i as [|i]; [reflexivity|]). lia.
  - rewrite (byte_high 0x87) by (done || lia). rewrite xorb_false_r. unfold coef, nthZ. rewrite list_lookup_insert_ne; [done|]. assert (1 ≤ i / 8)%nat by (apply Nat.div_le_lower_bound; lia). lia.
Qed.

(** The register is multiplied by [x]. *)
Lemma poly_step v : is_block v → poly (gf_step v) = Z.lxor (Z.shiftl (poly v) 1) (if coef v 127 then gcm_modulus else 0).
Proof.
  intros [L H]. pose proof (shift_right_length v) as Ls. unfold gf_step. change (Z.land (nthZ v 15) 1) with (Z.land (nthZ v 15) (2 ^ 0)). rewrite land_bit by done. change (Z.testbit (nthZ v 15) 0) with (coef v 127).
  assert (∀ i, 0 ≤ i → Z.testbit (Z.shiftl (poly v) 1) i = if i <? 128 then coef (shift_right v) (Z.to_nat i) else (i =? 128) && coef v 127) as Hs.
  { intros i Hi. rewrite Z.shiftl_spec by done. destruct (Z.ltb_spec i 128) as [Hl|Hl].
    - rewrite coef_shift by (done || lia). destruct (Z.to_nat i) as [|k] eqn:E; [by rewrite Z.testbit_neg_r by lia|]. rewrite testbit_poly, (proj2 (Z.ltb_lt _ _)) by lia. cbn [andb]. f_equal. lia.
    - rewrite testbit_poly by lia. destruct (Z.eqb_spec i 128) as [->|]; [done|]. by rewrite (proj2 (Z.ltb_ge _ _)) by lia. }
  apply Z.bits_inj'. intros i Hi. rewrite testbit_poly, Z.lxor_spec, Hs by done. destruct (coef v 127); cbn [negb].
  - assert (gcm_modulus = Z.lxor (2 ^ 128) 0x87) as -> by reflexivity. rewrite Z.lxor_spec. destruct (Z.ltb_spec i 128) as [Hl|Hl]; cbn [andb].
    + rewrite coef_reduce by (done || lia). rewrite Z.pow2_bits_false by lia. rewrite xorb_false_l, Z2Nat.id by done. done.
    + rewrite (byte_high 0x87) by (done || lia). rewrite Z.pow2_bits_eqb by lia. rewrite (Z.eqb_sym 128). by destruct (i =? 128).
  - rewrite Z.bits_0, xorb_false_r. destruct (i <? 128); [done|]. by rewrite andb_false_r.
Qed.

Lemma gf_loop_S n i x v z : gf_loop (S n) i x v z = gf_loop n (S i) x (gf_step v) (if coef x i then xor_bytes z v else z).
Proof.
  cbn [gf_loop]. assert (Z.shiftr 0x80 (Z.of_nat (i mod 8)) = 2 ^ (7 - Z.of_nat (i mod 8))) as ->.
  { pose proof (Nat.mod_upper_bound i 8 ltac:(lia)) as H. set (r := (i mod 8)%nat) in *. clearbody r. do 8 (destruct r as [|r]; [reflexivity|]). lia. }
  pose proof (Nat.mod_upper_bound i 8 ltac:(lia)) as H. rewrite land_bit by lia. fold (coef x i). unfold gf_step. by destruct (coef x i).
Qed.

Lemma xorsum_head n f : xorsum (S n) f = Z.lxor (f 0%nat) (xorsum n (λ k, f (S k))).
Proof. induction n as [|n IH]; [cbn; by rewrite Z.lxor_0_l, Z.lxor_0_r|]. change (xorsum (S (S n)) f) with (Z.lxor (xorsum (S n) f) (f (S n))). rewrite IH. cbn [xorsum]. apply Z.lxor_assoc. Qed.

Definition shifted (x v : bytes) (i k : nat) : Z := if coef x (i + k) then Z.shiftl (poly v) (Z.of_nat k) else 0.

(** What one turn does to the rest of the sum, up to multiples of the modulus. *)
Lemma shifted_step n x v i : is_block v → multiple (Z.lxor (xorsum n (shifted x (gf_step v) (S i))) (xorsum n (λ k, shifted x v i (S k)))).
Proof.
  intros Hv. rewrite <- xorsum_lxor. apply xorsum_multiple. intros k _. unfold shifted. replace (S i + k)%nat with (i + S k)%nat by lia. destruct (coef x (i + S k)); [|constructor].
  rewrite poly_step by done. rewrite Z.shiftl_lxor, Z.shiftl_shiftl by lia. replace (1 + Z.of_nat k) with (Z.of_nat (S k)) by lia. rewrite (Z.lxor_comm (Z.shiftl (poly v) _)), Z.lxor_assoc, Z.lxor_nilpotent, Z.lxor_0_r.
  destruct (coef v 127); [|rewrite Z.shiftl_0_l; constructor]. rewrite <- (Z.lxor_0_l (Z.shiftl gcm_modulus _)). constructor; [lia|constructor].
Qed.

Lemma gf_loop_poly n x : ∀ i v z, is_block v → is_block z →
  is_block (gf_loop n i x v z) ∧ multiple (Z.lxor (poly (gf_loop n i x v z)) (Z.lxor (poly z) (xorsum n (shifted x v i)))).
Proof.
  induction n as [|n IH]; intros i v z Hv Hz; [split; [done|]; cbn [gf_loop xorsum]; rewrite Z.lxor_0_r, Z.lxor_nilpotent; constructor|]. rewrite gf_loop_S. set (z' := if coef x i then xor_bytes z v else z).
  assert (is_block z') as Hz' by (unfold z'; destruct (coef x i); [by apply xor_block|done]). destruct (IH (S i) (gf_step v) z' (gf_step_block v Hv) Hz') as [Hb Hm]. split; [done|].
  assert (poly z' = Z.lxor (poly z) (shifted x v i 0)) as Ez.
  { unfold z', shifted. rewrite Nat.add_0_r. destruct (coef x i); [|by rewrite Z.lxor_0_r]. rewrite poly_xor by (rewrite (proj1 Hz), (proj1 Hv); done). by rewrite Z.shiftl_0_r. }
  pose proof (multiple_lxor _ _ Hm (shifted_step n x v i Hv)) as H. rewrite xorsum_head. rewrite Ez in H. revert H. match goal with |- multiple ?a → multiple ?b => assert (a = b) as ->; [|done] end.
  apply Z.bits_inj'. intros k _. rewrite !Z.lxor_spec. btauto.
Qed.

Lemma poly_zero : poly zero_block = 0.
Proof. vm_compute. reflexivity. Qed.

Lemma gf_mul_block x v : is_block v → is_block (gf_mul x v).
Proof. intros Hv. apply (gf_loop_poly 128 x 0 v zero_block Hv zero_block_block). Qed.

Lemma gf_mul_poly x v : is_block v → multiple (Z.lxor (poly (gf_mul x v)) (clmul (poly x) (poly v))).
Proof.
  intros Hv. pose proof (proj2 (gf_loop_poly 128 x 0 v zero_block Hv zero_block_block)) as H. rewrite poly_zero, Z.lxor_0_l in H.
  assert (clmul (poly x) (poly v) = xorsum 128 (shifted x v 0)) as ->; [|exact H]. apply xorsum_ext. intros i Hi. unfold shifted. rewrite testbit_poly, (proj2 (Z.ltb_lt _ _)), Nat2Z.id by lia. done.
Qed.

(** *** Remainders are unique *)

Definition combination (n : nat) (c : nat → bool) : Z := xorsum n (λ i, if c i then Z.shiftl gcm_modulus (Z.of_nat i) else 0).

Lemma combination_range n c : 0 ≤ combination n c < 2 ^ (128 + Z.of_nat n).
Proof.
  induction n as [|n IH]; [done|]. unfold combination in *. cbn [xorsum]. assert (2 ^ (128 + Z.of_nat (S n)) = 2 * 2 ^ (128 + Z.of_nat n)) as E by (rewrite <- Z.pow_succ_r by lia; f_equal; lia).
  apply lxor_range; [lia|lia|]. destruct (c n); [|lia]. rewrite Z.shiftl_mul_pow2 by lia. rewrite E, Z.pow_add_r by lia. assert (0 < 2 ^ Z.of_nat n) by lia. unfold gcm_modulus. nia.
Qed.

Lemma modulus_top n : Z.testbit (Z.shiftl gcm_modulus (Z.of_nat n)) (128 + Z.of_nat n) = true.
Proof. rewrite Z.shiftl_spec by lia. by replace (128 + Z.of_nat n - Z.of_nat n) with 128 by lia. Qed.

Lemma combination_top n c : combination n c = 0 ∨ 2 ^ 128 ≤ combination n c.
Proof.
  induction n as [|n IH]; [by left|]. destruct (c n) eqn:E; [|unfold combination in *; cbn [xorsum]; rewrite E, Z.lxor_0_r; exact IH]. right.
  pose proof (combination_range n c) as Hr. pose proof (combination_range (S n) c) as [Hr' _]. assert (Z.testbit (combination (S n) c) (128 + Z.of_nat n) = true) as Ht.
  { unfold combination in *. cbn [xorsum]. rewrite E, Z.lxor_spec, modulus_top. rewrite <- (Z.mod_small (xorsum n _) (2 ^ (128 + Z.of_nat n))) by done. rewrite Z.mod_pow2_bits_high by lia. done. }
  destruct (Z.lt_ge_cases (combination (S n) c) (2 ^ 128)) as [Hl|]; [|done]. rewrite <- (Z.mod_small _ _ (conj Hr' Hl)), Z.mod_pow2_bits_high in Ht by lia. done.
Qed.

Lemma combination_ext m n c : (m ≤ n)%nat → (∀ i, (m ≤ i)%nat → c i = false) → combination n c = combination m c.
Proof.
  intros Hmn Hc. replace n with (m + (n - m))%nat by lia. generalize (n - m)%nat as k. induction k as [|k IH]; [by rewrite Nat.add_0_r|]. rewrite Nat.add_succ_r. unfold combination in *. cbn [xorsum]. rewrite Hc by lia. by rewrite Z.lxor_0_r.
Qed.

Lemma combination_flip n c i : (i < n)%nat → Z.lxor (combination n c) (Z.shiftl gcm_modulus (Z.of_nat i)) = combination n (λ k, xorb (c k) (k =? i)%nat).
Proof.
  intros Hi. induction n as [|n IH]; [lia|]. unfold combination in *. cbn [xorsum]. destruct (Nat.eqb_spec n i) as [->|Hne].
  - rewrite (xorsum_ext i (λ k, if xorb (c k) (k =? i)%nat then _ else _) (λ k, if c k then Z.shiftl gcm_modulus (Z.of_nat k) else 0)); [|intros k Hk; destruct (Nat.eqb_spec k i); [lia|by rewrite xorb_false_r]].
    rewrite Z.lxor_assoc. f_equal. destruct (c i); cbn; [apply Z.lxor_nilpotent|apply Z.lxor_0_l].
  - rewrite xorb_false_r, <- IH by lia. rewrite !Z.lxor_assoc. f_equal. apply Z.lxor_comm.
Qed.

Lemma multiple_combination m : multiple m → ∃ n c, m = combination n c ∧ ∀ i, (n ≤ i)%nat → c i = false.
Proof.
  induction 1 as [|a i Hi Ha (n & c & -> & Hc)]; [exists 0%nat, (λ _, false); done|]. destruct (Z_of_nat_complete i Hi) as [j ->]. set (N := Nat.max n (S j)).
  exists N, (λ k, xorb (c k) (k =? j)%nat). split.
  - rewrite <- (combination_ext n N c) by (done || lia). apply combination_flip. lia.
  - intros k Hk. rewrite Hc by lia. destruct (Nat.eqb_spec k j); [lia|done].
Qed.

Lemma remainder_unique a b : 0 ≤ a < 2 ^ 128 → 0 ≤ b < 2 ^ 128 → multiple (Z.lxor a b) → a = b.
Proof.
  intros Ha Hb Hm. pose proof (lxor_range 128 a b ltac:(lia) Ha Hb) as Hr. apply multiple_combination in Hm as (n & c & E & _). destruct (combination_top n c) as [H0|H0]; [|lia]. apply Z.lxor_eq. lia.
Qed.

(** The remainder by the modulus of a polynomial of degree below 256, by long division. *)
Fixpoint reduce (n : nat) (a : Z) : Z :=
  match n with
  | O => a
  | S n => reduce n (if Z.testbit a (128 + Z.of_nat n) then Z.lxor a (Z.shiftl gcm_modulus (Z.of_nat n)) else a)
  end.

Lemma reduce_multiple n : ∀ a, multiple (Z.lxor (reduce n a) a).
Proof.
  induction n as [|n IH]; intros a; [cbn; rewrite Z.lxor_nilpotent; constructor|]. cbn [reduce]. destruct (Z.testbit a (128 + Z.of_nat n)); [|apply IH]. specialize (IH (Z.lxor a (Z.shiftl gcm_modulus (Z.of_nat n)))).
  apply (multiple_add _ (Z.of_nat n)) in IH; [|lia]. revert IH. match goal with |- multiple ?a → multiple ?b => assert (a = b) as ->; [|done] end. apply Z.bits_inj'. intros k _. rewrite !Z.lxor_spec. btauto.
Qed.

Lemma bit_below n a : 0 ≤ n → 0 ≤ a < 2 ^ (n + 1) → Z.testbit a n = false → 0 ≤ a < 2 ^ n.
Proof.
  intros Hn Ha Hb. rewrite Z.pow_add_r in Ha by lia. split; [lia|]. destruct (Z.lt_ge_cases a (2 ^ n)) as [|Hge]; [done|]. assert (a / 2 ^ n = 1) as E by (symmetry; apply (Z.div_unique _ _ _ (a - 2 ^ n)); lia).
  apply (f_equal Z.odd) in E. rewrite <- Z.shiftr_div_pow2 in E by done. rewrite <- (Z.bit0_odd (Z.shiftr a n)), Z.shiftr_spec, Z.add_0_l, Hb in E by done. done.
Qed.

Lemma reduce_range n : ∀ a, 0 ≤ a < 2 ^ (128 + Z.of_nat n) → 0 ≤ reduce n a < 2 ^ 128.
Proof.
  induction n as [|n IH]; intros a Ha; [by rewrite Z.add_0_r in Ha|]. cbn [reduce]. apply IH. destruct (Z.testbit a (128 + Z.of_nat n)) eqn:E.
  - assert (0 ≤ Z.shiftl gcm_modulus (Z.of_nat n) < 2 ^ (128 + Z.of_nat (S n))) as Hs.
    { rewrite Z.shiftl_mul_pow2 by lia. replace (128 + Z.of_nat (S n)) with (129 + Z.of_nat n) by lia. rewrite Z.pow_add_r by lia. assert (0 < 2 ^ Z.of_nat n) by lia. unfold gcm_modulus. nia. }
    pose proof (lxor_range (128 + Z.of_nat (S n)) _ _ ltac:(lia) Ha Hs) as Hr. apply bit_below; [lia| |]; [replace (128 + Z.of_nat n + 1) with (128 + Z.of_nat (S n)) by lia; done|]. rewrite Z.lxor_spec, E, modulus_top. done.
  - apply bit_below; [lia| |done]. by replace (128 + Z.of_nat n + 1) with (128 + Z.of_nat (S n)) by lia.
Qed.

(** *** GHASH of a sequence of blocks *)

(** The product in the field with 2^128 elements, on polynomials. *)
Definition field_mul (a b : Z) : Z := reduce 128 (clmul a b).

(** A string filled up with zeros to whole blocks, and its blocks. *)
Definition pad16 (data : bytes) : bytes := data ++ replicate ((16 - length data mod 16) mod 16) 0.
Definition blocks (data : bytes) : list bytes := (λ i, take 16 (drop (16 * i) data)) <$> seq 0 (length data / 16).

(** GHASH as NIST SP 800-38D defines it. *)
Definition ghash_spec (h : Z) (data : bytes) : Z := foldl (λ y d, field_mul (Z.lxor y (poly d)) h) 0 (blocks data).

Lemma clmul_range a b : 0 ≤ b < 2 ^ 128 → 0 ≤ clmul a b < 2 ^ (128 + 128).
Proof.
  intros Hb. unfold clmul. assert (∀ n, (n ≤ 128)%nat → 0 ≤ xorsum n (λ i, if Z.testbit a (Z.of_nat i) then Z.shiftl b (Z.of_nat i) else 0) < 2 ^ (128 + 128)) as H; [|by apply H].
  induction n as [|n IH]; intros Hn; [done|]. cbn [xorsum]. apply (lxor_range (128 + 128)); [lia|apply IH; lia|]. destruct (Z.testbit a (Z.of_nat n)); [|done]. rewrite Z.shiftl_mul_pow2, Z.pow_add_r by lia.
  assert (0 < 2 ^ Z.of_nat n ≤ 2 ^ 128) by (split; [lia|apply Z.pow_le_mono_r; lia]). nia.
Qed.

Lemma gf_mul_field x v : is_block v → poly (gf_mul x v) = field_mul (poly x) (poly v).
Proof.
  intros Hv. apply remainder_unique; [apply poly_range|apply (reduce_range 128), clmul_range, poly_range|]. pose proof (multiple_lxor _ _ (gf_mul_poly x v Hv) (reduce_multiple 128 (clmul (poly x) (poly v)))) as H. revert H.
  match goal with |- multiple ?a → multiple ?b => assert (a = b) as ->; [|done] end. unfold field_mul. apply Z.bits_inj'. intros k _. rewrite !Z.lxor_spec. btauto.
Qed.

Lemma blocks_nil : blocks [] = [].
Proof. done. Qed.

Lemma blocks_app b data : length b = 16%nat → blocks (b ++ data) = b :: blocks data.
Proof.
  intros L. unfold blocks. rewrite length_app, L. replace (16 + length data)%nat with (1 * 16 + length data)%nat by lia. rewrite Nat.div_add_l by lia. cbn [Nat.add seq fmap list_fmap]. f_equal; [rewrite Nat.mul_0_r, drop_0; by apply take_app_length'|].
  rewrite <- fmap_S_seq, <- list_fmap_compose. apply list_fmap_ext. intros _ i _. unfold compose. replace (16 * S i)%nat with (length b + 16 * i)%nat by lia. by rewrite drop_app_add.
Qed.

Lemma blocks_app_whole a b : (length a mod 16 = 0)%nat → blocks (a ++ b) = blocks a ++ blocks b.
Proof.
  remember (length a) as n eqn:E. revert a E. induction (lt_wf n) as [n _ IH]. intros a -> Hm. destruct (Nat.lt_ge_cases (length a) 16) as [H|H].
  - rewrite Nat.mod_small in Hm by done. apply length_zero_iff_nil in Hm as ->. done.
  - rewrite <- (take_drop 16 a), <- app_assoc. assert (length (take 16 a) = 16%nat) as L by (rewrite length_take; lia). rewrite (blocks_app _ (drop 16 a ++ b)), (blocks_app _ (drop 16 a)) by done. cbn [app]. f_equal. apply (IH (length (drop 16 a))); [rewrite length_drop; lia|done|].
    rewrite length_drop. replace (length a) with (1 * 16 + (length a - 16))%nat in Hm by lia. by rewrite Nat.add_comm, Nat.Div0.mod_add in Hm.
Qed.

Lemma pad16_length data : (length (pad16 data) mod 16 = 0)%nat.
Proof.
  unfold pad16. rewrite length_app, length_replicate. pose proof (Nat.div_mod_eq (length data) 16) as E. pose proof (Nat.mod_upper_bound (length data) 16 ltac:(lia)) as Hr. set (r := (length data mod 16)%nat) in *. set (q := (length data / 16)%nat) in *. clearbody r q. rewrite E.
  destruct r as [|r]; [cbn [Nat.sub]; rewrite Nat.Div0.mod_same, !Nat.add_0_r, Nat.mul_comm; apply Nat.Div0.mod_mul|]. rewrite (Nat.mod_small (16 - S r)) by lia. replace (16 * q + S r + (16 - S r))%nat with ((q + 1) * 16)%nat by lia. apply Nat.Div0.mod_mul.
Qed.

Lemma pad16_app b data : length b = 16%nat → pad16 (b ++ data) = b ++ pad16 data.
Proof. intros L. unfold pad16. rewrite length_app, L, <- app_assoc. replace (16 + length data)%nat with (length data + 1 * 16)%nat by lia. by rewrite Nat.Div0.mod_add. Qed.

(** The loop takes the blocks of the padded string. *)
Lemma ghash_loop_blocks fuel h : ∀ acc data, (length data < fuel)%nat → ghash_loop fuel h acc data = foldl (ghash_block h) acc (blocks (pad16 data)).
Proof.
  induction fuel as [|fuel IH]; intros acc data Hf; [lia|]. cbn [ghash_loop]. destruct (Nat.leb_spec 16 (length data)) as [Hl|Hl].
  - rewrite IH by (rewrite length_drop; lia). rewrite <- (take_drop 16 data) at 3. assert (length (take 16 data) = 16%nat) as L by (rewrite length_take; lia). by rewrite pad16_app, blocks_app by done.
  - destruct (bool_decide_reflect (data = [])) as [->|Hne]; [reflexivity|]. assert (0 < length data)%nat by (destruct data; [done|cbn; lia]). unfold pad16. rewrite (Nat.mod_small (length data)), (Nat.mod_small (16 - length data)) by lia.
    set (b := data ++ _). assert (blocks b = [b]) as ->; [|cbn [foldl]; reflexivity]. rewrite <- (app_nil_r b) at 1. rewrite blocks_app, blocks_nil; [reflexivity|]. unfold b. rewrite length_app, length_replicate. lia.
Qed.

Lemma ghash_update_blocks h acc data : ghash_update h acc data = foldl (ghash_block h) acc (blocks (pad16 data)).
Proof. apply ghash_loop_blocks. lia. Qed.

#[local] Opaque gf_mul poly field_mul.

Lemma foldl_ghash h ds : is_block h → Forall (λ d, length d = 16%nat) ds → ∀ acc, is_block acc →
  is_block (foldl (ghash_block h) acc ds) ∧ poly (foldl (ghash_block h) acc ds) = foldl (λ y d, field_mul (Z.lxor y (poly d)) (poly h)) (poly acc) ds.
Proof.
  intros Hh. induction 1 as [|d ds Hd _ IH]; intros acc Ha; cbn [foldl]; [split; [exact Ha|reflexivity]|]. assert (is_block (ghash_block h acc d)) as Hb by (apply gf_mul_block; exact Hh). destruct (IH _ Hb) as [H1 H2]. split; [exact H1|]. rewrite H2. f_equal.
  unfold ghash_block. rewrite gf_mul_field by exact Hh. rewrite poly_xor; [reflexivity|]. by rewrite (proj1 Ha).
Qed.

Lemma blocks_length data : Forall (λ d, length d = 16%nat) (blocks data).
Proof.
  unfold blocks. rewrite Forall_fmap, Forall_forall. intros i Hi. apply elem_of_seq in Hi. unfold compose. rewrite length_take, length_drop. pose proof (Nat.Div0.mul_div_le (length data) 16). lia.
Qed.

(** Eight bytes of a number, the most significant first. *)
Definition be64 (value : Z) : bytes := (λ i, value / 256 ^ (7 - Z.of_nat i) mod 256) <$> seq 0 8.

Lemma put_be64_spec v : 0 ≤ v → put_be64 (wrap 64 v) = be64 (v mod 2 ^ 64) ∧ (v < 2 ^ 64 → be64 (v mod 2 ^ 64) = be64 v).
Proof.
  intros Hv. split; [|intros H; by rewrite Z.mod_small]. unfold put_be64, be64, wrap. apply list_fmap_ext. intros j i Hi. apply list_elem_of_lookup_2, elem_of_seq in Hi. rewrite Z.shiftr_div_pow2 by lia. do 2 f_equal.
  change 256 with (2 ^ 8). rewrite <- Z.pow_mul_r by lia. f_equal. lia.
Qed.

(** The string that is hashed: the padded data and their lengths in bits. *)
Definition ghash_input (aad text : bytes) : bytes :=
  pad16 aad ++ pad16 text ++ be64 (8 * Z.of_nat (length aad)) ++ be64 (8 * Z.of_nat (length text)).

Lemma ghash_finish_spec ctx aad text : is_block (ghash_key_ ctx) → 8 * Z.of_nat (length aad) < 2 ^ 64 → 8 * Z.of_nat (length text) < 2 ^ 64 →
  is_block (ghash_finish ctx aad text) ∧ poly (ghash_finish ctx aad text) = ghash_spec (poly (ghash_key_ ctx)) (ghash_input aad text).
Proof.
  intros Hh Ha Ht. set (lens := be64 (8 * Z.of_nat (length aad)) ++ be64 (8 * Z.of_nat (length text))).
  assert (ghash_finish ctx aad text = foldl (ghash_block (ghash_key_ ctx)) zero_block (blocks (ghash_input aad text))) as ->.
  { unfold ghash_finish, ghash_input. cbv zeta. fold lens. rewrite !(Z.mul_comm _ 8). rewrite (proj1 (put_be64_spec (8 * Z.of_nat (length aad)) ltac:(lia))), (proj1 (put_be64_spec (8 * Z.of_nat (length text)) ltac:(lia))).
    rewrite !(Z.mod_small (8 * _)) by lia. fold lens. rewrite !ghash_update_blocks, !blocks_app_whole by apply pad16_length. rewrite !foldl_app. f_equal. }
  pose proof (foldl_ghash (ghash_key_ ctx) (blocks (ghash_input aad text)) Hh (blocks_length _) zero_block zero_block_block) as [H1 H2]. split; [done|]. rewrite H2, poly_zero. done.
Qed.

#[local] Transparent gf_mul poly field_mul.

(** ** The properties *)

(** C14: Whatever opens is exactly what was sealed: under a context made from a 16-byte key, a
    12-byte nonce and the same additional data, the receiver gets the text [p] out of a message
    [c] if and only if sealing [p] gives [c]; so every sealed text opens again and every other
    message is refused. *)
Theorem gcm_open_seal key ctx nonce aad c p : Forall is_byte key → aes128gcm_context key = Ret ctx → length nonce = 12%nat → Forall is_byte nonce →
  aes128gcm_open_impl ctx nonce aad c = Ret (Some p) ↔ aes128gcm_seal_impl ctx nonce aad p = Ret c.
Proof.
  intros Hk Hctx Hn Hb. apply gcm_context_ready in Hctx; [|exact Hk]. rewrite open_eq by assumption. split.
  - intros H. destruct (authentic ctx nonce aad c) eqn:E; [|discriminate]. injection H as <-. apply authentic_seal in E as (p & Hs & <-); assumption.
  - intros Hs. destruct (opened_text ctx nonce aad Hctx Hn Hb c p Hs) as [E _]. rewrite (proj2 (authentic_seal ctx nonce aad Hctx Hn Hb c)), E; [reflexivity|]. by exists p.
Qed.

(** A key, a nonce and a short text with its additional data. *)
Definition key_bytes (n : nat) : bytes := Z.of_nat <$> seq 0 n.
Definition sample_text : bytes := [0x61; 0x62; 0x63].
Definition sample_context : context := match aes128gcm_context (key_bytes 16) with Ret ctx => ctx | Throw _ => MkContext [] [] false end.
Definition sample_sealed : bytes := match aes128gcm_seal_impl sample_context (key_bytes 12) [0x17] sample_text with Ret c => c | Throw _ => [] end.

Lemma key_bytes_small n : (n ≤ 256)%nat → Forall is_byte (key_bytes n).
Proof. intros Hn. unfold key_bytes. rewrite Forall_fmap, Forall_forall. intros i Hi. apply elem_of_seq in Hi. unfold compose, is_byte. lia. Qed.

Lemma gcm_open_seal_witness :
  length sample_sealed = 19%nat ∧ aes128gcm_open_impl sample_context (key_bytes 12) [0x17] sample_sealed = Ret (Some sample_text).
Proof.
  split; [vm_compute; reflexivity|]. apply (proj2 (gcm_open_seal (key_bytes 16) sample_context (key_bytes 12) [0x17] sample_sealed sample_text (key_bytes_small 16 ltac:(lia)) ltac:(vm_compute; reflexivity) ltac:(reflexivity) (key_bytes_small 12 ltac:(lia)))). vm_compute. reflexivity.
Defined.

(** Opening in place does what opening into a second buffer does: the two accept the same
    messages, an accepted message is overwritten by its text and keeps its tag, and a refused one is
    left as it was. *)
Theorem gcm_in_place key ctx nonce aad c : Forall is_byte key → aes128gcm_context key = Ret ctx → length nonce = 12%nat → Forall is_byte nonce →
  aes128gcm_open_in_place_impl ctx nonce aad c =
    match aes128gcm_open_impl ctx nonce aad c with
    | Ret (Some p) => (Ret (Some (length p)), p ++ drop (length p) c)
    | _ => (Ret None, c)
    end.
Proof.
  intros Hk Hctx Hn Hb. apply gcm_context_ready in Hctx; [|exact Hk]. rewrite open_eq, open_in_place_eq by assumption. destruct (authentic ctx nonce aad c) eqn:E; [|reflexivity].
  apply authentic_seal in E as (p & Hs & <-); [|assumption..]. destruct (opened_text ctx nonce aad Hctx Hn Hb c p Hs) as [_ L]. by rewrite L.
Qed.

Lemma gcm_in_place_witness :
  aes128gcm_open_in_place_impl sample_context (key_bytes 12) [0x17] sample_sealed = (Ret (Some 3%nat), sample_text ++ drop 3 sample_sealed) ∧
  aes128gcm_open_in_place_impl sample_context (key_bytes 12) [0x18] sample_sealed = (Ret None, sample_sealed).
Proof.
  split; (etrans; [apply (gcm_in_place (key_bytes 16) sample_context (key_bytes 12) _ sample_sealed (key_bytes_small 16 ltac:(lia)) ltac:(vm_compute; reflexivity) ltac:(reflexivity) (key_bytes_small 12 ltac:(lia)))|vm_compute; reflexivity]).
Defined.

(** C37: The authentication tag is GHASH, computed in the field with 2^128 elements as in NIST SP
    800-38D: the hash of the zero-padded additional data, the zero-padded ciphertext and the two
    lengths in bits, where the bitwise loop of [gf_mul] agrees with the product of polynomials
    reduced by long division by [x^128 + x^7 + x^2 + x + 1]. *)
Theorem ghash_correct key ctx aad text : Forall is_byte key → aes128gcm_context key = Ret ctx → Z.of_nat (length aad) < 2 ^ 61 → Z.of_nat (length text) < 2 ^ 61 →
  poly (ghash_finish ctx aad text) = ghash_spec (poly (aes_encrypt_block (expand_aes_key key 176) 10 zero_block)) (ghash_input aad text) ∧
  (∀ x v, is_block v → poly (gf_mul x v) = field_mul (poly x) (poly v)) ∧
  (∀ a b, 0 ≤ b < 2 ^ 128 → 0 ≤ field_mul a b < 2 ^ 128 ∧ multiple (Z.lxor (field_mul a b) (clmul a b))).
Proof.
  intros Hk Hctx Ha Ht. pose proof (gcm_context_ready _ _ Hk Hctx) as R. repeat split.
  - rewrite (proj2 (ghash_finish_spec ctx aad text (ready_hash _ R) ltac:(lia) ltac:(lia))). unfold aes128gcm_context in Hctx. destruct (require_size key 16 _); [|discriminate]. cbn [bind] in Hctx. injection Hctx as <-. reflexivity.
  - exact gf_mul_field.
  - apply (reduce_range 128), clmul_range. assumption.
  - apply (reduce_range 128), clmul_range. assumption.
  - apply reduce_multiple.
Qed.

Lemma ghash_correct_witness :
  poly (ghash_finish sample_context [0x17] sample_text) = ghash_spec (poly (ghash_key_ sample_context)) (ghash_input [0x17] sample_text).
Proof. apply (proj1 (ghash_correct (key_bytes 16) sample_context [0x17] sample_text (key_bytes_small 16 ltac:(lia)) ltac:(vm_compute; reflexivity) ltac:(cbn; lia) ltac:(cbn; lia))). Defined.

(** AES-256 is invertible and IGE restores its input: with a context made from a 32-byte key,
    decrypting an encrypted block gives the block back, and decrypting what
    [aes256_ige_encrypt] writes under the same 32-byte initial vector gives back every
    input of whole blocks, into any output spans of the right sizes; a span of another size is
    an error. *)
Theorem aes256_roundtrip key ctx iv input out out' : Forall is_byte key → aes256_context key = Ret ctx → length iv = 32%nat → Forall is_byte iv → Forall is_byte input → (length input mod 16 = 0)%nat → length out' = length input →
  (length input = 16%nat → length out = 16%nat → ∃ c, aes256_encrypt_block ctx input out = Ret c ∧ aes256_decrypt_block ctx c out' = Ret input) ∧
  (length out = length input → ∃ c, aes256_ige_encrypt ctx iv input out = Ret c ∧ length c = length input ∧ aes256_ige_decrypt ctx iv c out' = Ret input) ∧
  (length out ≠ length input → aes256_ige_encrypt ctx iv input out = Throw "AES-IGE output must match input size"%string).
Proof.
  intros Hk Hctx Hl Hv Hi Hm Ho'. destruct (aes256_context_ready _ _ Hk Hctx) as (Hb & L & Hf). split; [|split].
  - intros Ln Ho. pose proof (encrypt_block (round_keys_ ctx) 14 Hb ltac:(lia) input (conj Ln Hi)) as [Le _]. exists (aes_encrypt_block (round_keys_ ctx) 14 input).
    unfold aes256_encrypt_block, aes256_decrypt_block, require_initialized, aes_block_len. rewrite Hf, !require_size_ok by (assumption || congruence). cbn [bind]. rewrite decrypt_encrypt; [split; reflexivity|assumption|lia|lia|by split].
  - intros Ho. assert (is_block (take 16 iv)) as H1 by (split; [rewrite length_take; lia|by apply Forall_take]). assert (is_block (drop 16 iv)) as H2 by (split; [rewrite length_drop; lia|by apply Forall_drop]).
    destruct (ige_loop_inverse (round_keys_ ctx) Hb L (length input) _ _ input H1 H2 Hi Hm ltac:(lia)) as [E1 E2]. exists (ige_encrypt_loop (length input) (round_keys_ ctx) (take 16 iv) (drop 16 iv) input).
    unfold aes256_ige_encrypt, aes256_ige_decrypt, require_initialized, require_ige_spans, aes_block_len. rewrite Hf, require_size_ok, E1, Hm, E2, Ho, Ho', !Nat.eqb_refl by assumption. repeat split; reflexivity.
  - intros Ho. unfold aes256_ige_encrypt, require_initialized, require_ige_spans, aes_block_len. rewrite Hf, require_size_ok, Hm, (proj2 (Nat.eqb_neq _ _) Ho) by assumption. reflexivity.
Qed.

Lemma aes256_roundtrip_witness : ∃ ctx c, aes256_context (key_bytes 32) = Ret ctx ∧ aes256_ige_encrypt ctx (key_bytes 32) (key_bytes 32) (replicate 32 0) = Ret c ∧ aes256_ige_decrypt ctx (key_bytes 32) c (replicate 32 0) = Ret (key_bytes 32).
Proof.
  destruct (aes256_context (key_bytes 32)) as [ctx|e] eqn:E; [|vm_compute in E; discriminate].
  destruct (proj1 (proj2 (aes256_roundtrip (key_bytes 32) ctx (key_bytes 32) (key_bytes 32) (replicate 32 0) (replicate 32 0) (key_bytes_small 32 ltac:(lia)) E eq_refl (key_bytes_small 32 ltac:(lia)) (key_bytes_small 32 ltac:(lia)) eq_refl eq_refl)) eq_refl) as (c & H1 & _ & H2).
  exists ctx, c. split; [reflexivity|]. split; [exact H1|exact H2].
Defined.

(** The example of appendix C.3 of FIPS-197 and test case 2 of the GCM specification. *)
Example fips197_aes256 : ∀ out, length out = 16%nat →
  (let! ctx := aes256_context (key_bytes 32) in aes256_encrypt_block ctx ((λ i, 0x11 * i) <$> key_bytes 16) out) =
  Ret [0x8e; 0xa2; 0xb7; 0xca; 0x51; 0x67; 0x45; 0xbf; 0xea; 0xfc; 0x49; 0x90; 0x4b; 0x49; 0x60; 0x89].
Proof.
  intros out Ho. destruct (aes256_context (key_bytes 32)) as [ctx|e] eqn:E; [|vm_compute in E; discriminate]. cbn [bind]. unfold aes256_encrypt_block. rewrite (require_size_ok out) by exact Ho. clear Ho out. vm_compute in E. injection E as <-. vm_compute. reflexivity.
Qed.

Example gcm_case_2 : (let! ctx := aes128gcm_context (replicate 16 0) in aes128gcm_seal_impl ctx (replicate 12 0) [] (replicate 16 0)) =
  Ret [0x03; 0x88; 0xda; 0xce; 0x60; 0xb6; 0xa3; 0x92; 0xf3; 0x28; 0xc2; 0xb9; 0x71; 0xb2; 0xfe; 0x78;
       0xab; 0x6e; 0x47; 0xd4; 0x2c; 0xec; 0x13; 0xbd; 0xf5; 0x3a; 0x67; 0xb2; 0x12; 0x57; 0xbd; 0xdf].
Proof. vm_compute. reflexivity. Qed.
