(* ===== verification/Bignum.v ===== *)
(** * Big integers (src/src/nxt/crypto.cpp)

    The arithmetic under RSA and Diffie-Hellman. The integers of the source are arbitrary-precision ([cpp_int]), here [Z]; every one
    of them is built from bytes and is not negative. *)
From S2P Require Import Prelude.

#[local] Open Scope Z_scope.

(** The exceptions of the Telegram client: its own, those of the cryptography and the division by zero of [cpp_int]. *)
Inductive fault : Set :=
| protocol_error (what : string)
| crypto_error (what : string)
| division_by_zero
| out_of_fuel.

Definition demand (good : bool) (e : fault) : result fault unit := if good then Ret tt else Throw e.

Definition int_from_bytes (input : bytes) : Z := foldl (λ out b, Z.lor (Z.shiftl out 8) b) 0 input.

(** The loop of [write_int_bytes]: the last bytes first, and what is left of the value. *)
Fixpoint int_bytes_loop (n : nat) (value : Z) (out : bytes) : bytes * Z :=
  match n with
  | O => (out, value)
  | S n => int_bytes_loop n (Z.shiftr value 8) (Z.land value 0xff :: out)
  end.

Definition write_int_bytes (value : Z) (size : nat) : result fault bytes :=
  let '(out, rest) := int_bytes_loop size value [] in
  let! _ := demand (rest =? 0) (crypto_error "RSA value is too large") in
  Ret out.

(** Both overloads of [pow_mod]; a turn halves the exponent. *)
Fixpoint pow_loop (fuel : nat) (base exponent modulus out : Z) : Z :=
  match fuel with
  | O => out
  | S fuel =>
      if exponent =? 0 then out else
      let out := if negb (Z.land exponent 1 =? 0) then Z.rem (out * base) modulus else out in
      let exponent := Z.shiftr exponent 1 in
      let base := if negb (exponent =? 0) then Z.rem (base * base) modulus else base in
      pow_loop fuel base exponent modulus out
  end.

Definition pow_mod (base exponent modulus : Z) : result fault Z :=
  let! _ := demand (negb (modulus =? 0)) division_by_zero in
  Ret (pow_loop (S (Z.to_nat (Z.log2 exponent))) (Z.rem base modulus) exponent modulus 1).

Definition rsa_raw_public_encrypt (modulus : bytes) (exponent : Z) (input : bytes) (output_size : nat) : result fault bytes :=
  let! _ := demand (negb (bool_decide (modulus = []))) (crypto_error "RSA modulus is empty") in
  let! _ := demand (output_size =? length modulus)%nat (crypto_error "RSA output must match modulus size") in
  let! _ := demand (length input <=? length modulus)%nat (crypto_error "RSA input is too large") in
  let! _ := demand (negb ((exponent <? 3) || (Z.land exponent 1 =? 0))) (crypto_error "unsupported RSA public exponent") in
  let n := int_from_bytes modulus in
  let m := int_from_bytes input in
  let! _ := demand (m <? n) (crypto_error "RSA input is not below modulus") in
  let! r := pow_mod m exponent n in
  write_int_bytes r output_size.

Definition modular_exponentiate (base exponent modulus : bytes) (output_size : nat) : result fault bytes :=
  let! _ := demand (negb (bool_decide (modulus = []))) (crypto_error "modular exponent modulus is empty") in
  let! _ := demand (negb (output_size =? 0)%nat) (crypto_error "modular exponent output is empty") in
  let n := int_from_bytes modulus in
  let b := int_from_bytes base in
  let e := int_from_bytes exponent in
  let! r := pow_mod b e n in
  write_int_bytes r output_size.

(** ** Values *)

Lemma demand_ret b e u : demand b e = Ret u → b = true.
Proof. by destruct b. Qed.

(** The value of bytes, most significant first. *)
Fixpoint be_value (bs : bytes) : Z := match bs with [] => 0 | b :: bs => b * 2 ^ (8 * Z.of_nat (length bs)) + be_value bs end.

Lemma be_value_range bs : Forall is_byte bs → 0 ≤ be_value bs < 2 ^ (8 * Z.of_nat (length bs)).
Proof.
  induction 1 as [|b bs Hb _ IH]; [done|]. cbn [be_value length]. unfold is_byte in Hb. rewrite Nat2Z.inj_succ, Z.mul_succ_r, Z.pow_add_r by lia. change (2 ^ 8) with 256. nia.
Qed.

Lemma int_from_bytes_value bs : Forall is_byte bs → int_from_bytes bs = be_value bs.
Proof.
  intros Hb. unfold int_from_bytes. assert (∀ acc, 0 ≤ acc → foldl (λ out b, Z.lor (Z.shiftl out 8) b) acc bs = acc * 2 ^ (8 * Z.of_nat (length bs)) + be_value bs) as H.
  { induction Hb as [|b bs Hb _ IH]; intros acc Ha; [cbn; lia|]. cbn [foldl be_value length]. unfold is_byte in Hb. rewrite lor_shiftl_add by lia. rewrite IH by lia.
    rewrite Nat2Z.inj_succ, Z.mul_succ_r, Z.pow_add_r by lia. change (2 ^ 8) with 256. lia. }
  rewrite H by lia. lia.
Qed.

(** The last bytes of a value. *)
Fixpoint be_bytes (n : nat) (value : Z) : bytes := match n with O => [] | S n => be_bytes n (value / 256) ++ [value mod 256] end.

Lemma be_bytes_size n v : length (be_bytes n v) = n.
Proof. revert v. induction n as [|n IH]; intros v; [done|]. cbn. rewrite length_app, IH. cbn. lia. Qed.

Lemma be_bytes_are_bytes n v : Forall is_byte (be_bytes n v).
Proof. revert v. induction n as [|n IH]; intros v; [constructor|]. cbn. apply Forall_app. split; [done|]. apply Forall_singleton, Z.mod_pos_bound. lia. Qed.

Lemma be_value_app a b : be_value (a ++ b) = be_value a * 2 ^ (8 * Z.of_nat (length b)) + be_value b.
Proof. induction a as [|x a IH]; [done|]. cbn [be_value app]. rewrite IH, length_app, Nat2Z.inj_add, Z.mul_add_distr_l, Z.pow_add_r by lia. lia. Qed.

Lemma value_of_be_bytes n v : 0 ≤ v < 2 ^ (8 * Z.of_nat n) → be_value (be_bytes n v) = v.
Proof.
  revert v. induction n as [|n IH]; intros v Hv; [cbn in *; lia|]. cbn [be_bytes]. rewrite Nat2Z.inj_succ, Z.mul_succ_r, Z.pow_add_r in Hv by lia. change (2 ^ 8) with 256 in Hv.
  rewrite be_value_app, IH; [|split; [apply Z.div_pos; lia|apply Z.div_lt_upper_bound; lia]]. cbn. pose proof (Z.div_mod v 256). lia.
Qed.

Lemma be_value_bytes bs : Forall is_byte bs → be_bytes (length bs) (be_value bs) = bs.
Proof.
  induction bs as [|b bs IH] using rev_ind; intros Hb; [done|]. apply Forall_app in Hb as [Hbs Hb]. rewrite Forall_singleton in Hb. rewrite length_app. cbn [length]. rewrite Nat.add_1_r. cbn [be_bytes].
  rewrite be_value_app. cbn [length be_value]. change (2 ^ (8 * Z.of_nat 1)) with 256. change (2 ^ (8 * Z.of_nat 0)) with 1. unfold is_byte in Hb. rewrite Z.add_0_r, Z.mul_1_r.
  rewrite (Z.add_comm _ b), Z.div_add, Z.mod_add, (Z.mod_small b), (Z.div_small b) by lia. by rewrite Z.add_0_l, IH.
Qed.

Lemma int_bytes_loop_spec n : ∀ v out, 0 ≤ v → int_bytes_loop n v out = (be_bytes n v ++ out, v / 2 ^ (8 * Z.of_nat n)).
Proof.
  induction n as [|n IH]; intros v out Hv; cbn [int_bytes_loop be_bytes]; [by rewrite Z.div_1_r|]. rewrite Z.shiftr_div_pow2 by lia. change (2 ^ 8) with 256. rewrite IH by (apply Z.div_pos; lia).
  rewrite <- app_assoc. f_equal; [do 2 f_equal; cbn [app]; f_equal; apply (land_ones_mod v 8); lia|]. rewrite Z.div_div by lia. f_equal. rewrite Nat2Z.inj_succ, Z.mul_succ_r, Z.add_comm, Z.pow_add_r by lia. done.
Qed.

Lemma write_int_bytes_ok v size : 0 ≤ v < 2 ^ (8 * Z.of_nat size) → write_int_bytes v size = Ret (be_bytes size v).
Proof. intros Hv. unfold write_int_bytes. rewrite int_bytes_loop_spec, Z.div_small, app_nil_r by lia. done. Qed.

(** ** Powers *)

Lemma pow_loop_spec fuel : ∀ base e n out, 1 < n → 0 ≤ base → 0 ≤ out < n → 0 ≤ e < 2 ^ Z.of_nat fuel →
  pow_loop fuel base e n out = (out * base ^ e) mod n.
Proof.
  induction fuel as [|fuel IH]; intros base e n out Hn Hb Ho He; cbn [pow_loop].
  { change (2 ^ Z.of_nat 0) with 1 in He. replace e with 0 by lia. rewrite Z.mul_1_r. by rewrite Z.mod_small. }
  destruct (Z.eqb_spec e 0) as [->|Hne]; [by rewrite Z.mul_1_r, Z.mod_small|]. rewrite Nat2Z.inj_succ, Z.pow_succ_r in He by lia.
  assert (Z.shiftr e 1 = e / 2) as -> by (apply (Z.shiftr_div_pow2 e 1); lia). assert (Z.land e 1 = e mod 2) as -> by (apply (land_ones_mod e 1); lia).
  pose proof (Z.div_mod e 2) as Hdm. pose proof (Z.mod_pos_bound e 2) as Hmod. assert (0 ≤ e / 2 < 2 ^ Z.of_nat fuel) as Hh by (split; [apply Z.div_pos; lia|apply Z.div_lt_upper_bound; lia]).
  set (b' := if negb (e / 2 =? 0) then _ else base). set (o' := if negb (e mod 2 =? 0) then _ else out).
  assert (0 ≤ o' < n ∧ o' mod n = (out * base ^ (e mod 2)) mod n) as [Ho' Eo].
  { unfold o'. destruct (Z.eqb_spec (e mod 2) 0) as [E|E]; cbn [negb]; [rewrite E, Z.mul_1_r; by split|]. replace (e mod 2) with 1 by lia. rewrite Z.pow_1_r, Z.rem_mod_nonneg by nia. rewrite Z.mod_mod by lia. split; [apply Z.mod_pos_bound; lia|done]. }
  assert (0 ≤ b' ∧ (b' ^ (e / 2)) mod n = ((base * base) ^ (e / 2)) mod n) as [Hb' Eb].
  { unfold b'. destruct (Z.eqb_spec (e / 2) 0) as [E|E]; cbn [negb]; [rewrite E; by split|]. rewrite Z.rem_mod_nonneg by nia. split; [apply Z.mod_pos_bound; lia|]. by rewrite Z.mod_pow_l. }
  rewrite IH by done. rewrite Z.mul_mod, Eb, Eo, <- Z.mul_mod by lia. f_equal. rewrite <- Z.mul_assoc. f_equal. rewrite <- Z.pow_2_r, <- Z.pow_mul_r, <- Z.pow_add_r by lia. f_equal. lia.
Qed.

(** [pow_mod] is the power modulo a modulus above 1. *)
Lemma pow_mod_ok base e n : 1 < n → 0 ≤ base → 0 ≤ e → pow_mod base e n = Ret (base ^ e mod n).
Proof.
  intros Hn Hb He. unfold pow_mod. rewrite (proj2 (Z.eqb_neq n 0)) by lia. cbn [negb demand bind]. f_equal. rewrite Z.rem_mod_nonneg by lia. rewrite pow_loop_spec; [|done|apply Z.mod_pos_bound; lia|lia|].
  - rewrite Z.mul_1_l. by rewrite Z.mod_pow_l.
  - split; [done|]. rewrite Nat2Z.inj_succ, Z2Nat.id by apply Z.log2_nonneg. destruct (Z.eq_dec e 0) as [->|]; [done|]. apply Z.log2_spec. lia.
Qed.

Lemma modular_exponentiate_ok base e m size : Forall is_byte base → Forall is_byte e → Forall is_byte m → 1 < be_value m → (length m ≤ size)%nat →
  modular_exponentiate base e m size = Ret (be_bytes size (be_value base ^ be_value e mod be_value m)).
Proof.
  intros Hb He Hm Hn Hs. unfold modular_exponentiate. rewrite bool_decide_false by (intros ->; cbn in Hn; lia). pose proof (be_value_range m Hm) as Hr. pose proof (be_value_range base Hb). pose proof (be_value_range e He).
  rewrite (proj2 (Nat.eqb_neq size 0)) by (intros ->; assert (length m = 0)%nat as E by lia; rewrite E in Hr; change (2 ^ (8 * Z.of_nat 0)) with 1 in Hr; lia). cbn [negb demand bind]. rewrite !int_from_bytes_value by done. rewrite pow_mod_ok by lia. cbn [bind].
  pose proof (Z.mod_pos_bound (be_value base ^ be_value e) (be_value m)) as Hmod. apply write_int_bytes_ok. split; [lia|]. apply (Z.lt_le_trans _ (2 ^ (8 * Z.of_nat (length m)))); [lia|]. apply Z.pow_le_mono_r; lia.
Qed.

(** Diffie-Hellman: both orders of the two exponents give the same secret. *)
Lemma exponents_commute g a b p : 0 ≤ a → 0 ≤ b → 1 < p → (g ^ a mod p) ^ b mod p = (g ^ b mod p) ^ a mod p.
Proof. intros Ha Hb Hp. rewrite !Z.mod_pow_l, <- !Z.pow_mul_r by lia. by rewrite (Z.mul_comm a b). Qed.

Lemma rsa_raw_ok modulus e input : Forall is_byte modulus → Forall is_byte input → length input = length modulus → be_value input < be_value modulus → 1 < be_value modulus →
  3 ≤ e → Z.odd e = true → rsa_raw_public_encrypt modulus e input (length modulus) = Ret (be_bytes (length modulus) (be_value input ^ e mod be_value modulus)).
Proof.
  intros Hm Hi Hl Hlt H1 He Hodd. unfold rsa_raw_public_encrypt. rewrite bool_decide_false by (intros ->; cbn in H1; lia). rewrite Nat.eqb_refl, Hl, Nat.leb_refl. cbn [negb demand bind].
  assert (Z.land e 1 = 1) as -> by (change 1 with (2 ^ 1 - 1) at 1; rewrite (land_ones_mod e 1) by lia; change (2 ^ 1) with 2; rewrite Zmod_odd, Hodd; done). rewrite (proj2 (Z.ltb_ge e 3)) by lia. cbn [orb negb demand bind Z.eqb].
  rewrite !int_from_bytes_value, (proj2 (Z.ltb_lt _ _) Hlt) by done. cbn [demand bind]. pose proof (be_value_range input Hi). pose proof (be_value_range modulus Hm). rewrite pow_mod_ok by lia. cbn [bind].
  pose proof (Z.mod_pos_bound (be_value input ^ e) (be_value modulus)). apply write_int_bytes_ok. lia.
Qed.
