(* ===== verification/Mt.v ===== *)
(** * MTProto: wire format and cryptography (src/src/nxt/mt/)

    [wire.hpp], [tl.hpp], [transport.hpp], [message.hpp], [crypto.hpp] and [encrypted_packet.hpp]. A writer appends to what it has
    written, within the room of its span; a reader's state is the bytes that are left. Output spans of a fixed size are given by
    their size. *)
From S2P Require Import Prelude State Hash Aes Bignum.

#[local] Open Scope Z_scope.

(** ** wire.hpp *)

Record writer := MkWriter { capacity : nat; written : bytes }.

Abbreviation writing := (prog writer fault).
Abbreviation reading := (prog bytes fault).

Definition ensure (count : nat) : writing unit :=
  remaining <~ gets (λ w, capacity w - length (written w))%nat;
  require (count <=? remaining)%nat (protocol_error "MTProto output buffer is too small").

Definition put (input : bytes) : writing unit :=
  _ <~ ensure (length input);
  modify (λ w, MkWriter (capacity w) (written w ++ input)).

Definition put_u8 (value : Z) : writing unit := put [value].

Definition put_zero (count : nat) : writing unit := put (replicate count 0).

(** The bytes of a little-endian integer. *)
Definition le_bytes (value : Z) (width : nat) : bytes := (λ i, u8 (Z.shiftr value (8 * Z.of_nat i))) <$> seq 0 width.

Definition put_le (value : Z) (width : nat) : writing unit :=
  _ <~ require (width <=? 8)%nat (protocol_error "little-endian integer is too wide");
  put (le_bytes value width).

Definition take_bytes (count : nat) : reading bytes := λ input,
  if (count <=? length input)%nat then Some (Ret (take count input), drop count input)
  else Some (Throw (protocol_error "short MTProto input"), input).

Definition get_u8 : reading Z := b <~ take_bytes 1; pret (nth 0 b 0).

Fixpoint le_loop (i : Z) (input : bytes) (value : Z) : Z :=
  match input with
  | [] => value
  | b :: input => le_loop (i + 1) input (Z.lor value (Z.shiftl b (i * 8)))
  end.

Definition le (width : nat) : reading Z :=
  _ <~ require (width <=? 8)%nat (protocol_error "little-endian integer is too wide");
  input <~ take_bytes width;
  pret (le_loop 0 input 0).

(** [std::bit_cast] to a signed integer. *)
Definition signed (w x : Z) : Z := if x <? 2 ^ (w - 1) then x else x - 2 ^ w.

Definition u32_le : reading Z := x <~ le 4; pret (u32 x).
Definition u64_le : reading Z := le 8.
Definition i32_le : reading Z := x <~ u32_le; pret (signed 32 x).
Definition i64_le : reading Z := x <~ u64_le; pret (signed 64 x).

Definition tl_padding_size (n : nat) : nat := ((4 - n mod 4) mod 4)%nat.

Definition byte_swap32 (value : Z) : Z :=
  Z.lor (Z.lor (Z.lor (u32 (Z.shiftl (Z.land value 0x000000ff) 24)) (u32 (Z.shiftl (Z.land value 0x0000ff00) 8)))
               (Z.shiftr (Z.land value 0x00ff0000) 8)) (Z.shiftr (Z.land value 0xff000000) 24).

(** What a writer over a new span of [size] zeros leaves in it. *)
Definition filled (size : nat) (m : writing unit) : result fault bytes :=
  match m (MkWriter size []) with
  | Some (Ret _, w) => Ret (written w ++ replicate (size - length (written w)) 0)
  | Some (Throw e, _) => Throw e
  | None => Throw out_of_fuel
  end.

(** What a reader returns of a span. *)
Definition read_all {A} (m : reading A) (input : bytes) : result fault A :=
  match m input with
  | Some (r, _) => r
  | None => Throw out_of_fuel
  end.

(** A result in a reader or a writer. *)
Definition lift {S A} (r : result fault A) : prog S fault A := match r with Ret a => pret a | Throw e => pthrow e end.

(** [if (!reader.empty()) throw] *)
Definition at_end (what : string) : reading unit :=
  left <~ gets length;
  require (left =? 0)%nat (protocol_error what).

(** [reader.remaining()] *)
Definition remaining : reading bytes := gets (λ input, input).

(** ** tl.hpp *)

Definition vector_constructor : Z := 0x1cb5c415.
Definition bool_true : Z := 0x997275b5.
Definition bool_false : Z := 0xbc799737.

Definition bytes_size (value_size : nat) : nat :=
  let header := if (value_size <? 254)%nat then 1%nat else 4%nat in
  (header + value_size + tl_padding_size (header + value_size))%nat.

Definition write_int (value : Z) : writing unit := put_le (u32 value) 4.
Definition write_long (value : Z) : writing unit := put_le value 8.
Definition write_signed_long (value : Z) : writing unit := put_le (u64 value) 8.
Definition write_bool (value : bool) : writing unit := put_le (if value then bool_true else bool_false) 4.

Definition write_int128 (value : bytes) : writing unit :=
  _ <~ require (length value =? 16)%nat (protocol_error "invalid TL int128");
  put value.

Definition write_int256 (value : bytes) : writing unit :=
  _ <~ require (length value =? 32)%nat (protocol_error "invalid TL int256");
  put value.

Definition write_bytes (value : bytes) : writing unit :=
  if (length value <? 254)%nat then
    _ <~ put_u8 (u8 (Z.of_nat (length value)));
    _ <~ put value;
    put_zero (tl_padding_size (1 + length value))
  else
    _ <~ require (negb (0xffffff <? Z.of_nat (length value))) (protocol_error "TL bytes value is too large");
    _ <~ put_u8 254;
    _ <~ put_le (Z.of_nat (length value)) 3;
    _ <~ put value;
    put_zero (tl_padding_size (4 + length value)).

Definition tl_bool : reading bool :=
  constructor <~ u32_le;
  if constructor =? bool_true then pret true
  else if constructor =? bool_false then pret false
  else pthrow (protocol_error "invalid TL bool").

Definition tl_bytes : reading bytes :=
  first <~ get_u8;
  size <~ (if first =? 254 then le 3 else pret first);
  let header := if first =? 254 then 4%nat else 1%nat in
  value <~ take_bytes (Z.to_nat size);
  _ <~ take_bytes (tl_padding_size (header + Z.to_nat size));
  pret value.

(** ** transport.hpp *)

Inductive abridged_frame :=
| abridged_payload (payload : bytes)
| quick_ack (token : Z).

Definition abridged_client_prefix : Z := 0xef.
Definition abridged_max_words : Z := 16777216.

Definition abridged_frame_size (payload : bytes) : result fault nat :=
  let! _ := demand (length payload mod 4 =? 0)%nat (protocol_error "abridged payload is not word-aligned") in
  let words := (length payload / 4)%nat in
  let! _ := demand (Z.of_nat words <? abridged_max_words) (protocol_error "abridged payload is too large") in
  Ret (length payload + if (words <? 0x7f)%nat then 1 else 4)%nat.

Definition write_abridged_client_prefix : writing unit := put [abridged_client_prefix].

Definition write_abridged_frame (payload : bytes) (quick_ack_requested : bool) : writing unit :=
  let words := (length payload / 4)%nat in
  _ <~ lift (abridged_frame_size payload);
  _ <~ (if (words <? 0x7f)%nat then put_u8 (u8 (Z.of_nat words + if quick_ack_requested then 0x80 else 0))
        else _ <~ put_u8 (if quick_ack_requested then 0xff else 0x7f); put_le (Z.of_nat words) 3);
  put payload.

Definition read_abridged_frame : reading abridged_frame :=
  first <~ get_u8;
  if 0x80 <=? first then
    b1 <~ get_u8;
    b2 <~ get_u8;
    b3 <~ get_u8;
    pret (quick_ack (byte_swap32 (Z.lor (Z.lor (Z.lor first (Z.shiftl b1 8)) (Z.shiftl b2 16)) (Z.shiftl b3 24))))
  else
    words <~ (if first =? 0x7f then le 3 else pret first);
    payload <~ take_bytes (Z.to_nat (words * 4));
    pret (abridged_payload payload).

(** ** message.hpp *)

Record plain_message := MkPlain { plain_id : Z; plain_body : bytes }.

Definition plain_message_size (body : bytes) : nat := (8 + 8 + 4 + length body)%nat.

Definition write_plain_message (message : plain_message) : writing unit :=
  _ <~ require (negb (0xffffffff <? Z.of_nat (length (plain_body message)))) (protocol_error "plain message body is too large");
  _ <~ put_le 0 8;
  _ <~ put_le (plain_id message) 8;
  _ <~ put_le (Z.of_nat (length (plain_body message))) 4;
  put (plain_body message).

Definition read_plain_message : reading plain_message :=
  auth_key_id <~ u64_le;
  _ <~ require (auth_key_id =? 0) (protocol_error "encrypted message is not a plain message");
  id <~ u64_le;
  size <~ u32_le;
  body <~ take_bytes (Z.to_nat size);
  _ <~ at_end "trailing plain message bytes";
  pret (MkPlain id body).

Definition message_id_from_nanoseconds (now_ns : Z) : Z :=
  let fraction_scale := 4294967296 in
  let nanoseconds_per_second := 1000000000 in
  let seconds := now_ns / nanoseconds_per_second in
  let nanos := now_ns mod nanoseconds_per_second in
  let fraction := Z.max (u64 (nanos * fraction_scale) / nanoseconds_per_second) 4 in
  let message_id := u64 (u64 (seconds * fraction_scale) + fraction) in
  message_id - message_id mod 4.

Definition next_message_id (last_message_id : option Z) (now_ns : Z) : Z :=
  let from_now := message_id_from_nanoseconds now_ns in
  match last_message_id with
  | None => from_now
  | Some last => Z.max from_now (u64 (last + 4))
  end.

(** ** crypto.hpp *)

Inductive sender := client | server.

Record auth_key := MkKey { key_data : bytes; aux_hash : bytes; key_id : bytes }.

Record aes_key_iv := MkKeyIv { aes_key : bytes; aes_iv : bytes }.

Record public_key := MkPublic { modulus : bytes; exponent : Z; fingerprint : Z }.

(** [span.subspan(offset, n)] *)
Definition subspan (offset n : nat) (s : bytes) : bytes := take n (drop offset s).

(** What the cryptography throws. *)
Definition of_crypto {A} (r : result string A) : result fault A := match r with Ret a => Ret a | Throw what => Throw (crypto_error what) end.

(** A state fed with pieces. *)
Definition sha256_of (pieces : list bytes) : bytes := Sha256.finalize (foldl Sha256.update Sha256.init pieces).
Definition sha1_of (pieces : list bytes) : bytes := Sha1.finalize (foldl Sha1.update Sha1.init pieces).

Definition id_integer (key : auth_key) : Z := le_loop 0 (key_id key) 0.

Definition sender_offset (from : sender) : nat := match from with client => 0%nat | server => 8%nat end.

Definition make_auth_key (data : bytes) : result fault auth_key :=
  let! _ := demand (length data =? 256)%nat (protocol_error "invalid auth key length") in
  let digest := Sha1.sha1 data in
  Ret (MkKey data (take 8 digest) (subspan 12 8 digest)).

Definition calc_new_nonce_hash (key : auth_key) (new_nonce : bytes) (number : Z) : result fault bytes :=
  let! _ := demand (negb (negb (length new_nonce =? 32)%nat || (number <? 1) || (3 <? number))) (protocol_error "invalid new nonce hash input") in
  Ret (subspan 4 16 (sha1_of [new_nonce; [number]; aux_hash key])).

Definition message_key (key : auth_key) (plaintext : bytes) (from : sender) : bytes :=
  let x := sender_offset from in
  subspan 8 16 (sha256_of [subspan (88 + x) 32 (key_data key); plaintext]).

Definition derive_aes_key_iv (key : auth_key) (msg_key : bytes) (from : sender) : result fault aes_key_iv :=
  let! _ := demand (length msg_key =? 16)%nat (protocol_error "invalid msg_key") in
  let x := sender_offset from in
  let sha256_a := sha256_of [msg_key; subspan x 36 (key_data key)] in
  let sha256_b := sha256_of [subspan (40 + x) 36 (key_data key); msg_key] in
  Ret (MkKeyIv (take 8 sha256_a ++ subspan 8 16 sha256_b ++ subspan 24 8 sha256_a)
               (take 8 sha256_b ++ subspan 8 16 sha256_a ++ subspan 24 8 sha256_b)).

(** The output has [output_size] bytes. *)
Definition aes_ige_encrypt (input : bytes) (key_iv : aes_key_iv) (output_size : nat) : result fault bytes :=
  let! ctx := of_crypto (aes256_context (aes_key key_iv)) in
  of_crypto (aes256_ige_encrypt ctx (aes_iv key_iv) input (replicate output_size 0)).

Definition aes_ige_decrypt (input : bytes) (key_iv : aes_key_iv) (output_size : nat) : result fault bytes :=
  let! ctx := of_crypto (aes256_context (aes_key key_iv)) in
  of_crypto (aes256_ige_decrypt ctx (aes_iv key_iv) input (replicate output_size 0)).

Definition encrypted_payload_size (plaintext : bytes) : nat := (24 + length plaintext)%nat.

Definition encrypt_padded (plaintext : bytes) (key : auth_key) (from : sender) (output_size : nat) : result fault bytes :=
  let! _ := demand (negb (bool_decide (plaintext = []) || negb (length plaintext mod 16 =? 0)%nat)) (protocol_error "invalid padded plaintext") in
  let! _ := demand (output_size =? encrypted_payload_size plaintext)%nat (protocol_error "encrypted payload output has the wrong length") in
  let msg_key := message_key key plaintext from in
  let! key_iv := derive_aes_key_iv key msg_key from in
  let! ciphertext := aes_ige_encrypt plaintext key_iv (output_size - 24) in
  Ret (key_id key ++ msg_key ++ ciphertext).

Definition decrypt_padded (payload : bytes) (key : auth_key) (from : sender) (output_size : nat) : result fault bytes :=
  let! _ := demand (negb (length payload <? 24)%nat) (protocol_error "short encrypted payload") in
  let! _ := demand (bool_decide (take 8 payload = key_id key)) (protocol_error "auth key id mismatch") in
  let msg_key := subspan 8 16 payload in
  let ciphertext := drop 24 payload in
  let! _ := demand (negb (bool_decide (ciphertext = []) || negb (length ciphertext mod 16 =? 0)%nat)) (protocol_error "invalid encrypted payload") in
  let! _ := demand (output_size =? length ciphertext)%nat (protocol_error "decrypted payload output has the wrong length") in
  let! key_iv := derive_aes_key_iv key msg_key from in
  let! output := aes_ige_decrypt ciphertext key_iv output_size in
  let! _ := demand (bool_decide (msg_key = message_key key output from)) (protocol_error "msg_key mismatch") in
  Ret output.

Definition temp_aes_key_iv (server_nonce new_nonce : bytes) : result fault aes_key_iv :=
  let! _ := demand (negb (negb (length server_nonce =? 16)%nat || negb (length new_nonce =? 32)%nat)) (protocol_error "invalid nonce") in
  let hash_a := sha1_of [new_nonce; server_nonce] in
  let hash_b := sha1_of [server_nonce; new_nonce] in
  let hash_c := sha1_of [new_nonce; new_nonce] in
  Ret (MkKeyIv (hash_a ++ take 12 hash_b) (subspan 12 8 hash_b ++ hash_c ++ take 4 new_nonce)).

Definition encrypted_data_with_hash_size (data_size : nat) : nat :=
  let plaintext_size := (20 + data_size)%nat in
  let padding := ((16 - plaintext_size mod 16) mod 16)%nat in
  (plaintext_size + padding)%nat.

Definition encrypt_data_with_hash (data : bytes) (key_iv : aes_key_iv) (padding_bytes : bytes) (output_size : nat) : result fault bytes :=
  let! _ := demand (output_size =? encrypted_data_with_hash_size (length data))%nat (protocol_error "encrypted data output has the wrong length") in
  let padding_size := (output_size - 20 - length data)%nat in
  let! _ := demand (negb (length padding_bytes <? padding_size)%nat) (protocol_error "insufficient padding bytes") in
  (* the output is encrypted in place, block by block *)
  let output := Sha1.sha1 data ++ data ++ take padding_size padding_bytes in
  aes_ige_encrypt output key_iv output_size.

(** The data with the least padding whose digest is [hash]. *)
Fixpoint strip_padding (n : nat) (hash rest : bytes) (padding_size : nat) : result fault bytes :=
  match n with
  | O => Throw (protocol_error "invalid data with hash")
  | S n =>
      if (length rest <? padding_size)%nat then strip_padding n hash rest (S padding_size) else
      let data := take (length rest - padding_size) rest in
      if bool_decide (hash = Sha1.sha1 data) then Ret data else strip_padding n hash rest (S padding_size)
  end.

Definition decrypt_data_with_hash (ciphertext : bytes) (key_iv : aes_key_iv) (output_size : nat) : result fault bytes :=
  let! _ := demand (negb (bool_decide (ciphertext = []) || negb (length ciphertext mod 16 =? 0)%nat)) (protocol_error "invalid data with hash ciphertext") in
  let! _ := demand (negb (length ciphertext <? 20)%nat) (protocol_error "invalid data with hash ciphertext") in
  let! _ := demand (output_size =? length ciphertext)%nat (protocol_error "decrypted data output has the wrong length") in
  let! output := aes_ige_decrypt ciphertext key_iv output_size in
  strip_padding 16 (take 20 output) (drop 20 output) 0.

Definition server_salt (new_nonce server_nonce : bytes) : result fault Z :=
  let! _ := demand (negb (negb (length new_nonce =? 32)%nat || negb (length server_nonce =? 16)%nat)) (protocol_error "invalid nonce") in
  Ret (signed 64 (le_loop 0 (take 8 (zip_with Z.lxor new_nonce server_nonce)) 0)).

(** *** RSA with padding *)

(** From the last byte to the first one that does not become 0. *)
Fixpoint increment_loop (reversed : bytes) : bytes :=
  match reversed with
  | [] => []
  | b :: bs => let next := u8 (b + 1) in if negb (next =? 0) then next :: bs else next :: increment_loop bs
  end.

Definition increment_be (value : bytes) : bytes := rev (increment_loop (rev value)).

Fixpoint trim_unsigned_be (value : bytes) : bytes :=
  match value with
  | b :: rest => if b =? 0 then trim_unsigned_be rest else value
  | [] => []
  end.

(** [std::ranges::lexicographical_compare] *)
Fixpoint lexicographic (lhs rhs : bytes) : bool :=
  match lhs, rhs with
  | _, [] => false
  | [], _ => true
  | a :: lhs, b :: rhs => if a <? b then true else if b <? a then false else lexicographic lhs rhs
  end.

Definition unsigned_be_less (lhs rhs : bytes) : bool :=
  let lhs := trim_unsigned_be lhs in
  let rhs := trim_unsigned_be rhs in
  if negb (length lhs =? length rhs)%nat then (length lhs <? length rhs)%nat else lexicographic lhs rhs.

(** What is encrypted with a temporary key. *)
Definition rsa_block (temp_key data_with_padding : bytes) : result fault bytes :=
  let data_with_hash := rev data_with_padding ++ sha256_of [temp_key; data_with_padding] in
  let! aes_encrypted := aes_ige_encrypt data_with_hash (MkKeyIv temp_key (replicate 32 0)) 224 in
  Ret (zip_with Z.lxor temp_key (Sha256.sha256 aes_encrypted) ++ aes_encrypted).

Fixpoint rsa_loop (fuel : nat) (key : public_key) (temp_key data_with_padding : bytes) : result fault bytes :=
  match fuel with
  | O => Throw out_of_fuel
  | S fuel =>
      let! output := rsa_block temp_key data_with_padding in
      if unsigned_be_less output (modulus key) then rsa_raw_public_encrypt (modulus key) (exponent key) output 256
      else rsa_loop fuel key (increment_be temp_key) data_with_padding
  end.

Definition rsa_encrypt_padded (fuel : nat) (data : bytes) (key : public_key) (random_bytes : bytes) (output_size : nat) : result fault bytes :=
  let! _ := demand (negb (144 <? length data)%nat) (protocol_error "RSA padded data too large") in
  let! _ := demand (length (modulus key) =? 256)%nat (protocol_error "RSA modulus must be 256 bytes") in
  let! _ := demand (output_size =? 256)%nat (protocol_error "RSA output must be 256 bytes") in
  let! _ := demand (negb (length random_bytes <? 224)%nat) (protocol_error "insufficient RSA random bytes") in
  let data_with_padding := data ++ take (192 - length data) random_bytes in
  let temp_key := subspan 192 32 random_bytes in
  rsa_loop fuel key temp_key data_with_padding.

(** ** encrypted_packet.hpp *)

Record encrypted_packet := MkPacket {
  salt : Z;
  session_id : Z;
  message_id : Z;
  seq_no : Z;
  body : bytes;
  padding : bytes;
}.

Definition default_encrypted_padding_size (plaintext_size : nat) : nat := (16 + (16 - plaintext_size mod 16))%nat.

Definition validate_encrypted_packet_padding (body padding : bytes) : result fault unit :=
  let! _ := demand (length body mod 4 =? 0)%nat (protocol_error "invalid encrypted packet body") in
  let! _ := demand (negb ((length padding <? 12)%nat || (Z.of_nat (length padding) >? 1024))) (protocol_error "invalid encrypted packet padding") in
  demand ((32 + length body + length padding) mod 16 =? 0)%nat (protocol_error "invalid encrypted packet padding alignment").

Definition encode_encrypted_plaintext (packet : encrypted_packet) : result fault bytes :=
  let! _ := validate_encrypted_packet_padding (body packet) (padding packet) in
  filled (32 + length (body packet) + length (padding packet))
    (_ <~ put_le (u64 (salt packet)) 8;
     _ <~ put_le (u64 (session_id packet)) 8;
     _ <~ put_le (u64 (message_id packet)) 8;
     _ <~ put_le (u32 (seq_no packet)) 4;
     _ <~ put_le (u32 (Z.of_nat (length (body packet)))) 4;
     _ <~ put (body packet);
     put (padding packet)).

Definition read_encrypted_plaintext (expected_session_id : option Z) : reading encrypted_packet :=
  salt <~ i64_le;
  session <~ i64_le;
  message <~ i64_le;
  seq <~ i32_le;
  body_size <~ i32_le;
  _ <~ require (negb ((body_size <? 0) || negb (Z.rem body_size 4 =? 0))) (protocol_error "invalid encrypted packet body length");
  body <~ take_bytes (Z.to_nat body_size);
  padding <~ remaining;
  _ <~ lift (validate_encrypted_packet_padding body padding);
  _ <~ (match expected_session_id with
        | Some expected => require (session =? expected) (protocol_error "session id mismatch")
        | None => pret tt
        end);
  pret (MkPacket salt session message seq body padding).

Definition decode_encrypted_plaintext (plaintext : bytes) (expected_session_id : option Z) : result fault encrypted_packet :=
  read_all (read_encrypted_plaintext expected_session_id) plaintext.

Definition set_padding (p : bytes) (packet : encrypted_packet) : encrypted_packet :=
  MkPacket (salt packet) (session_id packet) (message_id packet) (seq_no packet) (body packet) p.

Definition encode_encrypted_packet (packet : encrypted_packet) (key : auth_key) (from : sender) (padding_bytes : bytes) : result fault bytes :=
  let! packet :=
    (if bool_decide (padding packet = []) then
       let padding_size := default_encrypted_padding_size (32 + length (body packet)) in
       let! _ := demand (negb (length padding_bytes <? padding_size)%nat) (protocol_error "insufficient encrypted packet padding") in
       Ret (set_padding (take padding_size padding_bytes) packet)
     else Ret packet) in
  let! plaintext := encode_encrypted_plaintext packet in
  encrypt_padded plaintext key from (encrypted_payload_size plaintext).

Definition decode_encrypted_packet (payload : bytes) (key : auth_key) (from : sender) (expected_session_id : option Z) : result fault encrypted_packet :=
  let! _ := demand (negb (length payload <? 24)%nat) (protocol_error "short encrypted payload") in
  let! opened := decrypt_padded payload key from (length payload - 24) in
  decode_encrypted_plaintext opened expected_session_id.

(** ** Reading back *)

(** [m] reads [a] from a text that starts with [w]. *)
Definition gets_from {A} (m : reading A) (w : bytes) (a : A) : Prop := ∀ rest, m (w ++ rest) = Some (Ret a, rest).

Lemma gets_ret {A} (a : A) : gets_from (pret a) [] a.
Proof. done. Qed.

Lemma gets_bind {A B} (m : reading A) (k : A → reading B) w w' a b : gets_from m w a → gets_from (k a) w' b → gets_from (pbind m k) (w ++ w') b.
Proof. intros Hm Hk rest. unfold pbind. rewrite <- app_assoc, Hm. apply Hk. Qed.

Lemma gets_require {B} good e (k : unit → reading B) w b : good = true → gets_from (k tt) w b → gets_from (pbind (require good e) k) w b.
Proof. intros -> Hk rest. apply Hk. Qed.

Lemma gets_take w n : n = length w → gets_from (take_bytes n) w w.
Proof. intros -> rest. unfold take_bytes. by rewrite length_app, (proj2 (Nat.leb_le _ _)), take_app_length, drop_app_length by lia. Qed.

Lemma gets_run {A B} (m : reading A) (k : A → reading B) w rest a : gets_from m w a → pbind m k (w ++ rest) = k a rest.
Proof. intros H. unfold pbind. by rewrite H. Qed.

Lemma gets_run_end {A B} (m : reading A) (k : A → reading B) w a : gets_from m w a → pbind m k w = k a [].
Proof. intros H. rewrite <- (app_nil_r w) at 1. by apply gets_run. Qed.

(** The value of bytes, least significant first. *)
Fixpoint le_value (bs : bytes) : Z := match bs with [] => 0 | b :: bs => b + 256 * le_value bs end.

Lemma le_value_bound bs : Forall is_byte bs → 0 ≤ le_value bs < 2 ^ (8 * Z.of_nat (length bs)).
Proof.
  induction 1 as [|b bs Hb _ IH]; [done|]. cbn [le_value length]. unfold is_byte in Hb. rewrite Nat2Z.inj_succ, Z.mul_succ_r, Z.pow_add_r by lia. change (2 ^ 8) with 256. lia.
Qed.

Lemma le_loop_value bs : Forall is_byte bs → ∀ i acc, 0 ≤ i → 0 ≤ acc < 2 ^ (8 * i) → le_loop i bs acc = acc + 2 ^ (8 * i) * le_value bs.
Proof.
  induction 1 as [|b bs Hb _ IH]; intros i acc Hi Ha; [cbn; lia|]. cbn [le_loop le_value]. unfold is_byte in Hb. rewrite (Z.mul_comm i 8), Z.lor_comm, lor_shiftl_add by lia. rewrite IH; [|lia|].
  - rewrite Z.mul_add_distr_l, Z.pow_add_r by lia. change (2 ^ (8 * 1)) with 256. lia.
  - rewrite Z.mul_add_distr_l, Z.pow_add_r by lia. change (2 ^ (8 * 1)) with 256. nia.
Qed.

Lemma le_bytes_S v n : le_bytes v (S n) = u8 v :: le_bytes (Z.shiftr v 8) n.
Proof.
  unfold le_bytes. change (seq 0 (S n)) with (0%nat :: seq 1 n). rewrite fmap_cons, <- fmap_S_seq, <- list_fmap_compose. change (8 * Z.of_nat 0) with 0. rewrite Z.shiftr_0_r. f_equal.
  apply list_fmap_ext. intros i x _. cbv beta. unfold compose. rewrite Z.shiftr_shiftr by lia. do 2 f_equal. lia.
Qed.

Lemma le_bytes_value n : ∀ v, 0 ≤ v < 2 ^ (8 * Z.of_nat n) → le_value (le_bytes v n) = v.
Proof.
  induction n as [|n IH]; intros v Hv; [cbn in *; lia|]. rewrite le_bytes_S. cbn [le_value]. rewrite Nat2Z.inj_succ, Z.mul_succ_r, Z.pow_add_r in Hv by lia. change (2 ^ 8) with 256 in Hv.
  rewrite Z.shiftr_div_pow2 by lia. change (2 ^ 8) with 256. rewrite IH by (split; [apply Z.div_pos; lia|apply Z.div_lt_upper_bound; lia]). unfold wrap. change (2 ^ 8) with 256. pose proof (Z.div_mod v 256). lia.
Qed.

Lemma le_bytes_length v n : length (le_bytes v n) = n.
Proof. unfold le_bytes. by rewrite length_fmap, length_seq. Qed.

Lemma le_bytes_bytes v n : Forall is_byte (le_bytes v n).
Proof. unfold le_bytes. rewrite Forall_fmap. apply Forall_true. intros i. apply (wrap_range 8). lia. Qed.

Lemma gets_le v n : (n ≤ 8)%nat → 0 ≤ v < 2 ^ (8 * Z.of_nat n) → gets_from (le n) (le_bytes v n) v.
Proof.
  intros Hn Hv. unfold le. apply gets_require; [by apply Nat.leb_le|]. rewrite <- (app_nil_r (le_bytes v n)). eapply gets_bind; [apply gets_take; by rewrite le_bytes_length|].
  rewrite le_loop_value by (done || apply le_bytes_bytes || lia). rewrite le_bytes_value by done. rewrite Z.add_0_l, Z.mul_1_l. apply gets_ret.
Qed.

Lemma signed_u (w x : Z) : 0 < w → - 2 ^ (w - 1) ≤ x < 2 ^ (w - 1) → signed w (wrap w x) = x.
Proof.
  intros Hw Hx. assert (2 ^ w = 2 * 2 ^ (w - 1)) as E by (rewrite <- Z.pow_succ_r by lia; f_equal; lia). unfold signed, wrap. destruct (Z.lt_ge_cases x 0).
  - rewrite (Z.mod_eq x), <- (Z.div_unique x (2 ^ w) (-1) (x + 2 ^ w)) by lia. destruct (Z.ltb_spec (x - 2 ^ w * -1) (2 ^ (w - 1))); lia.
  - rewrite Z.mod_small by lia. destruct (Z.ltb_spec x (2 ^ (w - 1))); lia.
Qed.

Definition is_i32 (x : Z) : Prop := - 2 ^ 31 ≤ x < 2 ^ 31.
Definition is_i64 (x : Z) : Prop := - 2 ^ 63 ≤ x < 2 ^ 63.

Lemma gets_u32 v : 0 ≤ v < 2 ^ 32 → gets_from u32_le (le_bytes v 4) v.
Proof. intros Hv. unfold u32_le. rewrite <- (app_nil_r (le_bytes v 4)). eapply gets_bind; [apply gets_le; [lia|exact Hv]|]. rewrite wrap_small by done. apply gets_ret. Qed.

Lemma gets_u64 v : 0 ≤ v < 2 ^ 64 → gets_from u64_le (le_bytes v 8) v.
Proof. intros Hv. apply gets_le; [lia|exact Hv]. Qed.

Lemma gets_i32 v : is_i32 v → gets_from i32_le (le_bytes (u32 v) 4) v.
Proof. intros Hv. unfold i32_le. rewrite <- (app_nil_r (le_bytes _ 4)). eapply gets_bind; [apply gets_u32, wrap_range; lia|]. rewrite (signed_u 32) by (done || lia). apply gets_ret. Qed.

Lemma gets_i64 v : is_i64 v → gets_from i64_le (le_bytes (u64 v) 8) v.
Proof. intros Hv. unfold i64_le. rewrite <- (app_nil_r (le_bytes _ 8)). eapply gets_bind; [apply gets_u64, wrap_range; lia|]. rewrite (signed_u 64) by (done || lia). apply gets_ret. Qed.

(** *** Writing *)

(** [m] appends [w] if there is room for it. *)
Definition puts (m : writing unit) (w : bytes) : Prop := ∀ wr, (length (written wr) + length w ≤ capacity wr)%nat →
  m wr = Some (Ret tt, MkWriter (capacity wr) (written wr ++ w)).

Lemma puts_put w : puts (put w) w.
Proof. intros wr Hw. unfold put, ensure, pbind, gets, require, modify. rewrite (proj2 (Nat.leb_le _ _)) by lia. done. Qed.

Lemma puts_bind m k w w' : puts m w → puts k w' → puts (pbind m (λ _, k)) (w ++ w').
Proof.
  intros Hm Hk wr Hw. rewrite length_app in Hw. unfold pbind. rewrite Hm by lia. rewrite Hk by (cbn; rewrite length_app; lia). cbn. by rewrite app_assoc.
Qed.

Lemma puts_require good e k w : good = true → puts k w → puts (pbind (require good e) (λ _, k)) w.
Proof. intros -> Hk wr Hw. by apply Hk. Qed.

Lemma puts_le v n : (n ≤ 8)%nat → puts (put_le v n) (le_bytes v n).
Proof. intros Hn. unfold put_le. apply puts_require; [by apply Nat.leb_le|]. apply puts_put. Qed.

Lemma puts_filled m w size : puts m w → length w = size → filled size m = Ret w.
Proof. intros Hm <-. unfold filled. rewrite Hm by (cbn; lia). cbn. by rewrite Nat.sub_diag, app_nil_r. Qed.

(** *** IGE *)

Record key_iv_ok (k : aes_key_iv) : Prop := {
  ki_key : length (aes_key k) = 32%nat ∧ Forall is_byte (aes_key k);
  ki_iv : length (aes_iv k) = 32%nat ∧ Forall is_byte (aes_iv k);
}.

Lemma ige_encrypt_bytes rk fuel : Forall is_byte rk → length rk = 240%nat → ∀ c p input, is_block c → is_block p → Forall is_byte input → (length input mod 16 = 0)%nat →
  Forall is_byte (ige_encrypt_loop fuel rk c p input).
Proof.
  intros Hrk Hlen. induction fuel as [|fuel IH]; intros c p input Hc Hp Hb Hm; [constructor|]. cbn [ige_encrypt_loop]. destruct (bool_decide_reflect (input = [])) as [->|Hne]; [constructor|].
  assert (16 ≤ length input)%nat as H16. { destruct (Nat.lt_ge_cases (length input) 16) as [Hlt|]; [|done]. rewrite Nat.mod_small in Hm by done. by apply length_zero_iff_nil in Hm. }
  assert (is_block (take 16 input)) as Hin by (split; [rewrite length_take; lia|by apply Forall_take]).
  assert (is_block (aes_encrypt_block rk 14 (xor_bytes (take 16 input) c))) as He by (apply encrypt_block; [done|lia|by apply xor_block]).
  pose proof (xor_block _ _ He Hp) as Ho. apply Forall_app. split; [by apply Ho|]. apply IH; [done|done|by apply Forall_drop|].
  rewrite length_drop. replace (length input) with (1 * 16 + (length input - 16))%nat in Hm by lia. by rewrite Nat.add_comm, Nat.Div0.mod_add in Hm.
Qed.

Lemma aes_ige_inverse k input : key_iv_ok k → Forall is_byte input → (length input mod 16 = 0)%nat → ∃ c,
  aes_ige_encrypt input k (length input) = Ret c ∧ length c = length input ∧ Forall is_byte c ∧ aes_ige_decrypt c k (length input) = Ret input.
Proof.
  intros [[Hkl Hkb] [Hvl Hvb]] Hi Hm. unfold aes_ige_encrypt, aes_ige_decrypt. destruct (aes256_context (aes_key k)) as [ctx|e] eqn:Ec.
  2: { exfalso. unfold aes256_context in Ec. by rewrite require_size_ok in Ec. }
  destruct (aes256_context_ready _ _ Hkb Ec) as (Hb & L & Hf). cbn [of_crypto bind].
  assert (is_block (take 16 (aes_iv k))) as H1 by (split; [rewrite length_take; lia|by apply Forall_take]). assert (is_block (drop 16 (aes_iv k))) as H2 by (split; [rewrite length_drop; lia|by apply Forall_drop]).
  destruct (ige_loop_inverse (round_keys_ ctx) Hb L (length input) _ _ input H1 H2 Hi Hm ltac:(lia)) as [E1 E2]. exists (ige_encrypt_loop (length input) (round_keys_ ctx) (take 16 (aes_iv k)) (drop 16 (aes_iv k)) input).
  unfold aes256_ige_encrypt, aes256_ige_decrypt, require_initialized, require_ige_spans, aes_block_len. rewrite Hf, require_size_ok, length_replicate, E1, Hm, !Nat.eqb_refl by done. cbn [negb bind of_crypto]. rewrite E2.
  split_and!; [done|done|by apply ige_encrypt_bytes|done].
Qed.

Lemma sha256_of_eq pieces : sha256_of pieces = Sha256.sha256 (concat pieces).
Proof. unfold sha256_of. by rewrite HashFacts.sha256_updates, HashFacts.sha256_eq. Qed.

Lemma sha256_of_length pieces : length (sha256_of pieces) = 32%nat.
Proof. rewrite sha256_of_eq. apply HashFacts.sha256_length. Qed.

Lemma sha256_of_bytes pieces : Forall is_byte (sha256_of pieces).
Proof. unfold sha256_of, Sha256.finalize. apply HashFacts.store_words_bytes. Qed.

Lemma derive_ok key msg_key from : length msg_key = 16%nat → ∃ k, derive_aes_key_iv key msg_key from = Ret k ∧ key_iv_ok k.
Proof.
  intros Hl. unfold derive_aes_key_iv. rewrite Hl. cbn [demand bind Nat.eqb]. eexists. split; [done|].
  split; (split; [cbn [aes_key aes_iv]; unfold subspan; rewrite !length_app, !length_take, !length_drop, !sha256_of_length; lia|]); cbn [aes_key aes_iv]; unfold subspan; repeat (apply Forall_app; split); auto using Forall_take, Forall_drop, sha256_of_bytes.
Qed.

Lemma message_key_length key plaintext from : length (message_key key plaintext from) = 16%nat.
Proof. unfold message_key, subspan. rewrite length_take, length_drop, sha256_of_length. lia. Qed.

(** ** Packets *)

(** A key as [make_auth_key] makes it. *)
Record key_ok (key : auth_key) : Prop := {
  ko_data : length (key_data key) = 256%nat ∧ Forall is_byte (key_data key);
  ko_id : length (key_id key) = 8%nat ∧ Forall is_byte (key_id key);
}.

Lemma decrypt_encrypt_padded key plaintext from : key_ok key → Forall is_byte plaintext → plaintext ≠ [] → (length plaintext mod 16 = 0)%nat → ∃ payload,
  encrypt_padded plaintext key from (encrypted_payload_size plaintext) = Ret payload ∧ length payload = encrypted_payload_size plaintext ∧
  decrypt_padded payload key from (length payload - 24) = Ret plaintext.
Proof.
  intros [_ [Hil Hib]] Hb Hne Hm. unfold encrypt_padded, encrypted_payload_size. rewrite bool_decide_false, Hm, !Nat.eqb_refl by done. cbn [negb orb demand bind].
  pose proof (message_key_length key plaintext from) as Hmk. destruct (derive_ok key _ from Hmk) as (k & Ek & Hk). rewrite Ek. cbn [bind]. replace (24 + length plaintext - 24)%nat with (length plaintext) by lia.
  destruct (aes_ige_inverse k plaintext Hk Hb Hm) as (c & Ec & Hcl & _ & Ed). rewrite Ec. cbn [bind]. eexists. split; [done|]. split; [rewrite !length_app; lia|].
  unfold decrypt_padded. rewrite !length_app, Hil, Hmk, Hcl, (proj2 (Nat.ltb_ge _ _)) by lia. cbn [negb demand bind].
  set (mk := message_key key plaintext from) in *. assert (take 8 (key_id key ++ mk ++ c) = key_id key) as -> by (by apply take_app_length').
  rewrite bool_decide_true by done. cbn [demand bind].
  assert (subspan 8 16 (key_id key ++ mk ++ c) = mk) as -> by (unfold subspan; rewrite drop_app_length' by done; by apply take_app_length').
  assert (drop 24 (key_id key ++ mk ++ c) = c) as -> by (rewrite app_assoc; apply drop_app_length'; rewrite length_app; lia).
  rewrite bool_decide_false by (intros ->; by destruct plaintext). rewrite Hcl, Hm. cbn [negb orb demand bind Nat.eqb]. replace (8 + (16 + length plaintext) - 24)%nat with (length plaintext) by lia. rewrite Nat.eqb_refl. cbn [demand bind].
  rewrite Ek.
  cbn [bind]. rewrite Ed. cbn [bind]. by rewrite bool_decide_true.
Qed.

(** What a packet says, in its fields' widths. *)
Record packet_ok (p : encrypted_packet) : Prop := {
  pk_salt : is_i64 (salt p);
  pk_session : is_i64 (session_id p);
  pk_message : is_i64 (message_id p);
  pk_seq : is_i32 (seq_no p);
  pk_body : Forall is_byte (body p) ∧ Z.of_nat (length (body p)) < 2 ^ 31;
  pk_padding : Forall is_byte (padding p);
}.

(** The plaintext of a packet. *)
Definition plaintext_of (p : encrypted_packet) : bytes :=
  le_bytes (u64 (salt p)) 8 ++ le_bytes (u64 (session_id p)) 8 ++ le_bytes (u64 (message_id p)) 8 ++ le_bytes (u32 (seq_no p)) 4 ++
  le_bytes (u32 (Z.of_nat (length (body p)))) 4 ++ body p ++ padding p.

Lemma plaintext_length p : length (plaintext_of p) = (32 + length (body p) + length (padding p))%nat.
Proof. unfold plaintext_of. rewrite !length_app, !le_bytes_length. lia. Qed.

Lemma encode_plaintext_ok p : validate_encrypted_packet_padding (body p) (padding p) = Ret tt → encode_encrypted_plaintext p = Ret (plaintext_of p).
Proof.
  intros Hv. unfold encode_encrypted_plaintext. rewrite Hv. cbn [bind]. apply puts_filled; [|by apply plaintext_length]. unfold plaintext_of.
  repeat (apply puts_bind; [first [apply puts_le; lia|apply puts_put]|]). apply puts_put.
Qed.

Lemma decode_plaintext_ok p expected : packet_ok p → validate_encrypted_packet_padding (body p) (padding p) = Ret tt →
  decode_encrypted_plaintext (plaintext_of p) expected =
    match expected with Some s => if session_id p =? s then Ret p else Throw (protocol_error "session id mismatch") | None => Ret p end.
Proof.
  intros [Hs Hi Hm Hq [Hb Hl] Hp] Hv. unfold decode_encrypted_plaintext, read_all, read_encrypted_plaintext, plaintext_of.
  rewrite (gets_run _ _ _ _ _ (gets_i64 _ Hs)), (gets_run _ _ _ _ _ (gets_i64 _ Hi)), (gets_run _ _ _ _ _ (gets_i64 _ Hm)), (gets_run _ _ _ _ _ (gets_i32 _ Hq)).
  assert (is_i32 (Z.of_nat (length (body p)))) as Hbl by (unfold is_i32; lia). rewrite (gets_run _ _ _ _ _ (gets_i32 _ Hbl)).
  assert (Z.rem (Z.of_nat (length (body p))) 4 = 0) as Hrem.
  { unfold validate_encrypted_packet_padding in Hv. apply bind_ret in Hv as ([] & Hv & _). apply demand_ret, Nat.eqb_eq in Hv. rewrite Z.rem_mod_nonneg by lia. change 4 with (Z.of_nat 4). rewrite <- Nat2Z.inj_mod. lia. }
  rewrite require_then by (rewrite Hrem, (proj2 (Z.ltb_ge _ _)) by lia; done). rewrite Nat2Z.id. rewrite (gets_run _ _ _ _ _ (gets_take (body p) _ eq_refl)).
  unfold remaining at 1. unfold pbind at 1, gets at 1. rewrite Hv. unfold lift. unfold pbind at 1, pret at 1. destruct expected as [s|]; [|by destruct p]. unfold require. destruct (session_id p =? s); [by destruct p|done].
Qed.

(** The padding that [encode_encrypted_packet] adds is accepted. *)
Lemma default_padding_valid body padding : (length body mod 4 = 0)%nat → length padding = default_encrypted_padding_size (32 + length body) → validate_encrypted_packet_padding body padding = Ret tt.
Proof.
  intros Hb Hp. unfold default_encrypted_padding_size in Hp. pose proof (Nat.mod_upper_bound (32 + length body) 16) as Hm. pose proof (Nat.div_mod_eq (32 + length body) 16) as Hd.
  unfold validate_encrypted_packet_padding. rewrite Hb. rewrite (proj2 (Nat.ltb_ge _ _)) by lia. rewrite Z.gtb_ltb, (proj2 (Z.ltb_ge _ _)) by lia. cbn [orb negb demand bind Nat.eqb].
  set (q := ((32 + length body) / 16)%nat) in *. set (r := ((32 + length body) mod 16)%nat) in *. replace (32 + length body + length padding)%nat with ((q + 2) * 16)%nat by lia. by rewrite Nat.Div0.mod_mul.
Qed.

(** The packet with its padding. *)
Definition padded (p : encrypted_packet) (padding_bytes : bytes) : encrypted_packet :=
  if bool_decide (padding p = []) then set_padding (take (default_encrypted_padding_size (32 + length (body p))) padding_bytes) p else p.

Lemma plaintext_aligned p : validate_encrypted_packet_padding (body p) (padding p) = Ret tt → (length (plaintext_of p) mod 16 = 0)%nat.
Proof. intros Hv. unfold validate_encrypted_packet_padding in Hv. do 2 apply bind_ret in Hv as ([] & _ & Hv). apply demand_ret, Nat.eqb_eq in Hv. by rewrite plaintext_length. Qed.

Lemma plaintext_bytes p : Forall is_byte (body p) → Forall is_byte (padding p) → Forall is_byte (plaintext_of p).
Proof. intros Hb Hp. unfold plaintext_of. repeat (apply Forall_app; split); auto using le_bytes_bytes. Qed.

(** A packet that can be sent, with the padding it gets, is what the other side reads. *)
Lemma decode_encode_packet key from p padding_bytes expected : key_ok key → packet_ok p → Forall is_byte padding_bytes → (length (body p) mod 4 = 0)%nat → padding p = [] →
  (default_encrypted_padding_size (32 + length (body p)) ≤ length padding_bytes)%nat → ∃ payload,
  encode_encrypted_packet p key from padding_bytes = Ret payload ∧
  decode_encrypted_packet payload key from expected =
    match expected with Some s => if session_id p =? s then Ret (padded p padding_bytes) else Throw (protocol_error "session id mismatch") | None => Ret (padded p padding_bytes) end.
Proof.
  intros Hk Hp Hb Hm Hpad Hl. unfold encode_encrypted_packet, padded. rewrite Hpad, bool_decide_true by done. rewrite (proj2 (Nat.ltb_ge _ _) Hl). cbn [negb demand bind].
  set (p' := set_padding _ p). assert (validate_encrypted_packet_padding (body p') (padding p') = Ret tt) as Hv by (apply default_padding_valid; [done|]; cbn [p' set_padding padding body]; rewrite length_take; lia).
  assert (packet_ok p') as Hp' by (destruct Hp; split; cbn; auto using Forall_take). rewrite (encode_plaintext_ok p' Hv). cbn [bind].
  destruct (decrypt_encrypt_padded key (plaintext_of p') from Hk) as (payload & -> & Hpl & Hd); [apply plaintext_bytes; apply Hp'|intros E; apply (f_equal length) in E; by rewrite plaintext_length in E|by apply plaintext_aligned|].
  exists payload. split; [done|]. unfold decode_encrypted_packet. assert (24 ≤ length payload)%nat as H24 by (rewrite Hpl; apply Nat.le_add_r). rewrite (proj2 (Nat.ltb_ge _ _) H24). cbn [negb demand bind]. rewrite Hd. cbn [bind]. exact (decode_plaintext_ok p' expected Hp' Hv).
Qed.

(** *** What a reader has read *)

Lemma le_value_bytes bs : Forall is_byte bs → le_bytes (le_value bs) (length bs) = bs.
Proof.
  induction 1 as [|b bs Hb Hbs IH]; [done|]. cbn [length]. rewrite le_bytes_S. cbn [le_value]. unfold is_byte in Hb. pose proof (le_value_bound bs Hbs). rewrite Z.shiftr_div_pow2 by lia. change (2 ^ 8) with 256. f_equal.
  - unfold wrap. change (2 ^ 8) with 256. rewrite (Z.mul_comm 256), Z.mod_add, Z.mod_small by lia. done.
  - rewrite (Z.mul_comm 256), Z.div_add, Z.div_small, Z.add_0_l by lia. exact IH.
Qed.

Lemma pbind_inv {S A B} (m : prog S fault A) (k : A → prog S fault B) s b s' : pbind m k s = Some (Ret b, s') → ∃ a s1, m s = Some (Ret a, s1) ∧ k a s1 = Some (Ret b, s').
Proof. unfold pbind. destruct (m s) as [[[a|e] s1]|]; [eauto|done|done]. Qed.

Lemma require_inv {S} good (e : fault) (s : S) u s' : require good e s = Some (Ret u, s') → good = true ∧ s' = s.
Proof. destruct good; [intros [= _ ->]; done|done]. Qed.

Lemma take_inv n s w s' : take_bytes n s = Some (Ret w, s') → s = w ++ s' ∧ length w = n.
Proof.
  unfold take_bytes. destruct (Nat.leb_spec n (length s)); [|done]. intros [= <- <-]. split; [by rewrite take_drop|]. rewrite length_take. lia.
Qed.

Lemma le_inv n s x s' : Forall is_byte s → le n s = Some (Ret x, s') → s = le_bytes x n ++ s' ∧ 0 ≤ x < 2 ^ (8 * Z.of_nat n).
Proof.
  intros Hs E. unfold le in E. apply pbind_inv in E as ([] & s1 & E1 & E). apply require_inv in E1 as [Hn ->]. apply pbind_inv in E as (w & s2 & E2 & [= <- <-]). apply take_inv in E2 as [-> Hl].
  apply Forall_app in Hs as [Hw _]. rewrite le_loop_value by (done || lia). rewrite Z.add_0_l, Z.mul_1_l, <- Hl. split; [by rewrite le_value_bytes|by apply le_value_bound].
Qed.

Lemma u_signed (w x : Z) : 0 < w → 0 ≤ x < 2 ^ w → wrap w (signed w x) = x ∧ - 2 ^ (w - 1) ≤ signed w x < 2 ^ (w - 1).
Proof.
  intros Hw Hx. assert (2 ^ w = 2 * 2 ^ (w - 1)) as E by (rewrite <- Z.pow_succ_r by lia; f_equal; lia). unfold signed, wrap. destruct (Z.ltb_spec x (2 ^ (w - 1))).
  - rewrite Z.mod_small by lia. lia.
  - replace (x - 2 ^ w) with (x + -1 * 2 ^ w) by lia. rewrite Z.mod_add, Z.mod_small by lia. lia.
Qed.

Lemma u32_inv s x s' : Forall is_byte s → u32_le s = Some (Ret x, s') → s = le_bytes x 4 ++ s' ∧ 0 ≤ x < 2 ^ 32.
Proof. intros Hs E. unfold u32_le in E. apply pbind_inv in E as (y & s1 & E1 & [= <- <-]). apply le_inv in E1 as [-> Hy]; [|done]. change (8 * Z.of_nat 4) with 32 in Hy. rewrite wrap_small by done. done. Qed.

Lemma i32_inv s x s' : Forall is_byte s → i32_le s = Some (Ret x, s') → s = le_bytes (u32 x) 4 ++ s' ∧ is_i32 x.
Proof. intros Hs E. unfold i32_le in E. apply pbind_inv in E as (y & s1 & E1 & [= <- <-]). apply u32_inv in E1 as [-> Hy]; [|done]. destruct (u_signed 32 y ltac:(lia) Hy) as [-> Hr]. done. Qed.

Lemma i64_inv s x s' : Forall is_byte s → i64_le s = Some (Ret x, s') → s = le_bytes (u64 x) 8 ++ s' ∧ is_i64 x.
Proof. intros Hs E. unfold i64_le, u64_le in E. apply pbind_inv in E as (y & s1 & E1 & [= <- <-]). apply le_inv in E1 as [-> Hy]; [|done]. destruct (u_signed 64 y ltac:(lia) Hy) as [-> Hr]. done. Qed.

Lemma lift_inv {S A} (r : result fault A) (s : S) a s' : lift r s = Some (Ret a, s') → r = Ret a ∧ s' = s.
Proof. destruct r; [intros [= -> ->]; done|done]. Qed.

(** A plaintext that is accepted is the plaintext of its packet. *)
Lemma decode_plaintext_inv plaintext expected p : Forall is_byte plaintext → decode_encrypted_plaintext plaintext expected = Ret p →
  plaintext = plaintext_of p ∧ packet_ok p ∧ validate_encrypted_packet_padding (body p) (padding p) = Ret tt ∧ ∀ s, expected = Some s → session_id p = s.
Proof.
  intros Hs E. unfold decode_encrypted_plaintext, read_all in E. destruct (read_encrypted_plaintext expected plaintext) as [[r s']|] eqn:E0; [|done]. subst r. unfold read_encrypted_plaintext in E0.
  apply pbind_inv in E0 as (sa & s1 & E1 & E0). apply i64_inv in E1 as [-> Hsa]; [|done]. apply Forall_app in Hs as [_ Hs]. apply pbind_inv in E0 as (si & s2 & E2 & E0). apply i64_inv in E2 as [-> Hsi]; [|done]. apply Forall_app in Hs as [_ Hs].
  apply pbind_inv in E0 as (mi & s3 & E3 & E0). apply i64_inv in E3 as [-> Hmi]; [|done]. apply Forall_app in Hs as [_ Hs]. apply pbind_inv in E0 as (sq & s4 & E4 & E0). apply i32_inv in E4 as [-> Hsq]; [|done]. apply Forall_app in Hs as [_ Hs].
  apply pbind_inv in E0 as (bl & s5 & E5 & E0). apply i32_inv in E5 as [-> Hbl]; [|done]. apply Forall_app in Hs as [_ Hs]. apply pbind_inv in E0 as ([] & s6 & E6 & E0). apply require_inv in E6 as [Hbs ->].
  apply pbind_inv in E0 as (bd & s7 & E7 & E0). apply take_inv in E7 as [-> Hlen]. apply Forall_app in Hs as [Hbd Hpd]. apply pbind_inv in E0 as (pd & s8 & [= <- <-] & E0). apply pbind_inv in E0 as ([] & s9 & E9 & E0). apply lift_inv in E9 as [Hv ->].
  apply pbind_inv in E0 as ([] & s10 & E10 & [= <- <-]). apply negb_true_iff, orb_false_iff in Hbs as [Hb0 _]. apply Z.ltb_ge in Hb0. unfold is_i32 in Hbl.
  unfold plaintext_of. cbn [salt session_id message_id seq_no body padding]. rewrite Hlen, Z2Nat.id by done. split; [done|]. split; [|split; [done|]].
  - split; cbn; try done. split; [done|]. lia.
  - intros s ->. apply require_inv in E10 as [E10 _]. by apply Z.eqb_eq.
Qed.

Lemma ige_decrypt_bytes rk fuel : Forall is_byte rk → length rk = 240%nat → ∀ c p input, is_block c → is_block p → Forall is_byte input → (length input mod 16 = 0)%nat →
  Forall is_byte (ige_decrypt_loop fuel rk c p input).
Proof.
  intros Hrk Hlen. induction fuel as [|fuel IH]; intros c p input Hc Hp Hb Hm; [constructor|]. cbn [ige_decrypt_loop]. destruct (bool_decide_reflect (input = [])) as [->|Hne]; [constructor|].
  assert (16 ≤ length input)%nat as H16. { destruct (Nat.lt_ge_cases (length input) 16) as [Hlt|]; [|done]. rewrite Nat.mod_small in Hm by done. by apply length_zero_iff_nil in Hm. }
  assert (is_block (take 16 input)) as Hin by (split; [rewrite length_take; lia|by apply Forall_take]).
  assert (is_block (aes_decrypt_block rk 14 (xor_bytes (take 16 input) p))) as He by (apply decrypt_block; [done|lia|by apply xor_block]).
  pose proof (xor_block _ _ He Hc) as Ho. apply Forall_app. split; [by apply Ho|]. apply IH; [done|done|by apply Forall_drop|].
  rewrite length_drop. replace (length input) with (1 * 16 + (length input - 16))%nat in Hm by lia. by rewrite Nat.add_comm, Nat.Div0.mod_add in Hm.
Qed.

Lemma aes_ige_decrypt_inv k input n out : key_iv_ok k → Forall is_byte input → aes_ige_decrypt input k n = Ret out → Forall is_byte out.
Proof.
  intros [[Hkl Hkb] [Hvl Hvb]] Hi E. unfold aes_ige_decrypt in E. apply bind_ret in E as (ctx & Ec & E). destruct (aes256_context (aes_key k)) as [ctx'|e] eqn:Ec'; [|done]. injection Ec as ->.
  destruct (aes256_context_ready _ _ Hkb Ec') as (Hb & L & Hf). unfold aes256_ige_decrypt, require_initialized, require_ige_spans, aes_block_len in E. rewrite Hf, require_size_ok in E by done. cbn [bind] in E.
  destruct (Nat.eqb_spec (length input mod 16) 0) as [Hm|]; [|done]. cbn [negb] in E. destruct (_ =? length input)%nat; [|done]. cbn [negb bind of_crypto] in E. injection E as <-. apply ige_decrypt_bytes; try done; (split; [rewrite ?length_take, ?length_drop; lia|auto using Forall_take, Forall_drop]).
Qed.

(** A payload is accepted only with the key's id and the message key of what it says. *)
Lemma decode_packet_inv payload key from expected p : Forall is_byte payload → decode_encrypted_packet payload key from expected = Ret p →
  take 8 payload = key_id key ∧ packet_ok p ∧ (∀ s, expected = Some s → session_id p = s) ∧ encode_encrypted_plaintext p = Ret (plaintext_of p) ∧
  subspan 8 16 payload = message_key key (plaintext_of p) from.
Proof.
  intros Hb E. unfold decode_encrypted_packet in E. apply bind_ret in E as ([] & Hl & E). apply demand_ret, negb_true_iff, Nat.ltb_ge in Hl. apply bind_ret in E as (opened & Ed & E).
  unfold decrypt_padded in Ed. apply bind_ret in Ed as ([] & _ & Ed). apply bind_ret in Ed as ([] & Hid & Ed). apply demand_ret, bool_decide_eq_true in Hid. do 2 apply bind_ret in Ed as ([] & _ & Ed).
  apply bind_ret in Ed as (k & Ek & Ed). apply bind_ret in Ed as (out & Eo & Ed). apply bind_ret in Ed as ([] & Hmk & [= <-]). apply demand_ret, bool_decide_eq_true in Hmk.
  assert (length (subspan 8 16 payload) = 16%nat) as Hsl by (unfold subspan; rewrite length_take, length_drop; lia). destruct (derive_ok key _ from Hsl) as (k' & Ek' & Hk). rewrite Ek in Ek'. injection Ek' as <-.
  assert (Forall is_byte out) as Hout by (eapply aes_ige_decrypt_inv; [exact Hk| |exact Eo]; by apply Forall_drop). destruct (decode_plaintext_inv out expected p Hout E) as (-> & Hp & Hv & Hs).
  split_and!; [done|done|done|by apply encode_plaintext_ok|done].
Qed.
