(* ===== verification/Session.v ===== *)
(** * MTProto sessions (src/src/nxt/mt/session.hpp)

    A session is a value: an operation takes it and returns the next one with the effects to carry out, or throws
    and leaves the old one. *)
From Stdlib Require Import Sorting.Sorted.
From S2P Require Import Prelude State Bignum Mt.

#[local] Open Scope Z_scope.

Definition ping_constructor : Z := 0x7abe77ec.
Definition pong_constructor : Z := 0x347773c5.
Definition msgs_ack_constructor : Z := 0x62d6b459.
Definition new_session_created_constructor : Z := 0x9ec20908.
Definition bad_server_salt_constructor : Z := 0xedab447b.
Definition rpc_result_constructor : Z := 0xf35c6d01.
Definition msg_container_constructor : Z := 0x73f1f8dc.

Inductive session_event :=
| session_message_sent (message_id seq_no : Z) (body : bytes)
| session_message_received (message_id seq_no : Z) (body : bytes)
| pong_received (message_id ping_id : Z)
| msgs_ack_received (message_ids : list Z)
| msgs_ack_sent (message_id : Z) (message_ids : list Z)
| new_session_created (first_msg_id unique_id server_salt : Z)
| bad_server_salt (bad_msg_id bad_msg_seq_no error_code new_server_salt : Z)
| rpc_result (request_msg_id : Z) (result : bytes)
| rpc_request_result (request_msg_id : Z) (request result : bytes)
| unhandled_session_message (message_id seq_no : Z) (body : bytes).

Inductive session_effect :=
| send_encrypted (payload : bytes)
| notify_session (event : session_event).

Record pending_request := MkPending { p_body : bytes; p_request : bytes; p_seq_no : Z }.

Record session := MkSession {
  key : auth_key;
  current_salt : Z;
  own_id : Z;
  time_offset : Z;
  last_message_id : option Z;
  sent_content_messages : Z;
  pending_requests : gmap Z pending_request;
}.

Definition set_salt (x : Z) (s : session) : session :=
  MkSession (key s) x (own_id s) (time_offset s) (last_message_id s) (sent_content_messages s) (pending_requests s).
Definition set_pending (p : gmap Z pending_request) (s : session) : session :=
  MkSession (key s) (current_salt s) (own_id s) (time_offset s) (last_message_id s) (sent_content_messages s) p.

(** The arrays that the source writes through have room for what is written. *)
Definition encode_msgs_ack_body (message_ids : list Z) : bytes :=
  le_bytes msgs_ack_constructor 4 ++ le_bytes vector_constructor 4 ++ le_bytes (u32 (Z.of_nat (length message_ids))) 4
  ++ concat ((λ id, le_bytes (u64 id) 8) <$> message_ids).

Definition adjusted_now_nanoseconds (state : session) (now_ns : Z) : Z :=
  let adjusted := now_ns + time_offset state * 1000000000 in
  if adjusted <? 0 then 0 else if 2 ^ 64 - 1 <? adjusted then 2 ^ 64 - 1 else adjusted.

Definition next_session_seq_no (state : session) (content_related : bool) : Z :=
  signed 32 (u32 (u64 (sent_content_messages state * 2))) + (if content_related then 1 else 0).

Definition make_session_packet (state : session) (now_ns : Z) (body : bytes) (content_related : bool) : encrypted_packet :=
  MkPacket (current_salt state) (own_id state) (signed 64 (next_message_id (last_message_id state) (adjusted_now_nanoseconds state now_ns)))
    (next_session_seq_no state content_related) body [].

Definition advance_outbound_session (message_id : Z) (content_related : bool) (s : session) : session :=
  MkSession (key s) (current_salt s) (own_id s) (time_offset s) (Some (u64 message_id))
    (if content_related then u64 (sent_content_messages s + 1) else sent_content_messages s) (pending_requests s).

Definition send_effects (encrypted : bytes) (packet : encrypted_packet) : list session_effect :=
  [send_encrypted encrypted; notify_session (session_message_sent (message_id packet) (seq_no packet) (body packet))].

(** [std::map::emplace]: the first value of a key stays. *)
Definition emplace (id : Z) (p : pending_request) (m : gmap Z pending_request) : gmap Z pending_request :=
  match m !! id with Some _ => m | None => <[id := p]> m end.

(** The next session, the id of the request and the effects. *)
Definition send_request (state : session) (now_ns : Z) (request_body request padding_bytes : bytes) : result fault (session * Z * list session_effect) :=
  let packet := make_session_packet state now_ns request_body true in
  let! encrypted := encode_encrypted_packet packet (key state) client padding_bytes in
  let! finalized := decode_encrypted_packet encrypted (key state) client (Some (own_id state)) in
  let state := advance_outbound_session (message_id finalized) true state in
  let state := set_pending (emplace (message_id finalized) (MkPending (body finalized) request (seq_no finalized)) (pending_requests state)) state in
  Ret (state, message_id finalized, send_effects encrypted finalized).

(** A read from the input, and the rest. *)
Definition next {A} (m : reading A) (input : bytes) : result fault (A * bytes) :=
  match m input with
  | Some (Ret a, rest) => Ret (a, rest)
  | Some (Throw e, _) => Throw e
  | None => Throw out_of_fuel
  end.

(** The ids of an acknowledgement; each takes eight bytes. *)
Fixpoint get_ids (fuel : nat) (count : Z) : reading (list Z) :=
  if count =? 0 then pret [] else
  match fuel with
  | O => pthrow out_of_fuel
  | S fuel => id <~ i64_le; ids <~ get_ids fuel (count - 1); pret (id :: ids)
  end.

Definition outcome : Type := session * list session_effect.

(** The loop over the messages of a container, which take at least sixteen bytes each. *)
Fixpoint container_loop (handle : outcome → Z → Z → bytes → result fault outcome) (fuel : nat) (count : Z) (input : bytes) (o : outcome) : result fault outcome :=
  if count <=? 0 then
    let! _ := demand (bool_decide (input = [])) (protocol_error "trailing message container bytes") in Ret o
  else
  match fuel with
  | O => Throw out_of_fuel
  | S fuel =>
      let! (child_msg_id, input) := next i64_le input in
      let! (child_seq_no, input) := next i32_le input in
      let! (body_size, input) := next i32_le input in
      let! _ := demand (negb (body_size <? 0)) (protocol_error "invalid container message length") in
      let! (child_body, input) := next (take_bytes (Z.to_nat body_size)) input in
      let! o := handle (o.1, o.2 ++ [notify_session (session_message_received child_msg_id child_seq_no child_body)]) child_msg_id child_seq_no child_body in
      container_loop handle fuel (count - 1) input o
  end.

Definition notify (e : session_event) (o : outcome) : outcome := (o.1, o.2 ++ [notify_session e]).

(** [handle_session_message]; the bodies in a container are shorter than it. *)
Fixpoint handle_loop (fuel : nat) (o : outcome) (message_id seq_no : Z) (body : bytes) : result fault outcome :=
  match fuel with
  | O => Throw out_of_fuel
  | S fuel =>
      let! (constructor, input) := next u32_le body in
      if constructor =? pong_constructor then
        let! e := read_all (msg_id <~ i64_le; ping_id <~ i64_le; _ <~ at_end "trailing pong bytes"; pret (pong_received msg_id ping_id)) input in
        Ret (notify e o)
      else if constructor =? msgs_ack_constructor then
        let! ids := read_all (v <~ u32_le; _ <~ require (v =? vector_constructor) (protocol_error "invalid msgs_ack vector");
                              count <~ u32_le; ids <~ get_ids (S (length input)) count; _ <~ at_end "trailing msgs_ack bytes"; pret ids) input in
        Ret (notify (msgs_ack_received ids) o)
      else if constructor =? new_session_created_constructor then
        let! (first, unique, salt) := read_all (first <~ i64_le; unique <~ i64_le; salt <~ i64_le; _ <~ at_end "trailing new_session_created bytes"; pret (first, unique, salt)) input in
        Ret (notify (new_session_created first unique salt) (set_salt salt o.1, o.2))
      else if constructor =? bad_server_salt_constructor then
        let! (bad, seq, code, salt) := read_all (bad <~ i64_le; seq <~ i32_le; code <~ i32_le; salt <~ i64_le; _ <~ at_end "trailing bad_server_salt bytes"; pret (bad, seq, code, salt)) input in
        Ret (notify (bad_server_salt bad seq code salt) (set_salt salt o.1, o.2))
      else if constructor =? rpc_result_constructor then
        let! (request_msg_id, result) := next i64_le input in
        match pending_requests o.1 !! request_msg_id with
        | Some p =>
            let o := (set_pending (delete request_msg_id (pending_requests o.1)) o.1, o.2) in
            Ret (notify (rpc_request_result request_msg_id (p_request p) result) (notify (rpc_result request_msg_id result) o))
        | None => Ret (notify (rpc_result request_msg_id result) o)
        end
      else if constructor =? msg_container_constructor then
        let! (count, input) := next i32_le input in
        let! _ := demand (negb (count <? 0)) (protocol_error "invalid message container count") in
        container_loop (handle_loop fuel) (S (length input)) count input o
      else Ret (notify (unhandled_session_message message_id seq_no body) o)
  end.

Definition handle_session_message (o : outcome) (message_id seq_no : Z) (body : bytes) : result fault outcome :=
  handle_loop (S (length body)) o message_id seq_no body.

Definition send_session_ack (o : outcome) (now_ns : Z) (message_ids : list Z) (padding_bytes : bytes) : result fault outcome :=
  let state := o.1 in
  let packet := make_session_packet state now_ns (encode_msgs_ack_body message_ids) false in
  let! encrypted := encode_encrypted_packet packet (key state) client padding_bytes in
  let! finalized := decode_encrypted_packet encrypted (key state) client (Some (own_id state)) in
  let state := advance_outbound_session (message_id finalized) false state in
  Ret (state, o.2 ++ send_effects encrypted finalized ++ [notify_session (msgs_ack_sent (message_id finalized) message_ids)]).

Definition receive_packet (state : session) (payload : bytes) (now_ns : Z) (padding_bytes : bytes) : result fault outcome :=
  let! packet := decode_encrypted_packet payload (key state) server (Some (own_id state)) in
  let effects := [notify_session (session_message_received (message_id packet) (seq_no packet) (body packet))] in
  let! o := handle_session_message (state, effects) (message_id packet) (seq_no packet) (body packet) in
  if negb (Z.rem (seq_no packet) 2 =? 0) then send_session_ack o now_ns [message_id packet] padding_bytes
  else Ret o.

(** ** Sending *)

Record session_ok (s : session) : Prop := {
  so_key : key_ok (key s);
  so_salt : is_i64 (current_salt s);
  so_id : is_i64 (own_id s);
  so_last : ∀ l, last_message_id s = Some l → 0 ≤ l < 2 ^ 64 ∧ l mod 4 = 0;
}.

Lemma message_id_range now : 0 ≤ message_id_from_nanoseconds now < 2 ^ 64 ∧ message_id_from_nanoseconds now mod 4 = 0.
Proof.
  unfold message_id_from_nanoseconds. set (x := u64 (_ + _)). assert (0 ≤ x < 2 ^ 64) as Hx by (apply wrap_range; lia). pose proof (Z.div_mod x 4). pose proof (Z.mod_pos_bound x 4).
  replace (x - x mod 4) with (x / 4 * 4) by lia. split; [lia|]. apply Z.mod_mul. lia.
Qed.

(** A clock before the year 2038. *)
Definition early (s : session) (now_ns : Z) : Prop := 0 ≤ now_ns ∧ adjusted_now_nanoseconds s now_ns < 2 ^ 31 * 1000000000.

Lemma adjusted_nonneg s now : 0 ≤ adjusted_now_nanoseconds s now.
Proof. unfold adjusted_now_nanoseconds. destruct (Z.ltb_spec (now + time_offset s * 1000000000) 0); [lia|]. destruct (_ <? _); lia. Qed.

Lemma message_id_early now : 0 ≤ now < 2 ^ 31 * 1000000000 → message_id_from_nanoseconds now < 2 ^ 63.
Proof.
  intros Hn. unfold message_id_from_nanoseconds. pose proof (Z.div_mod now 1000000000). pose proof (Z.mod_pos_bound now 1000000000). set (s := now / 1000000000) in *. set (n := now mod 1000000000) in *.
  assert (0 ≤ s < 2 ^ 31) as Hs by lia. rewrite (wrap_small 64 (n * _)) by lia. assert (0 ≤ n * 4294967296 / 1000000000 < 4294967296) as Hf by (split; [apply Z.div_pos; lia|apply Z.div_lt_upper_bound; lia]).
  rewrite (wrap_small 64 (s * _)) by lia. rewrite wrap_small by lia. set (x := s * 4294967296 + _). assert (x < 2 ^ 63) by (unfold x; lia). pose proof (Z.mod_pos_bound x 4). lia.
Qed.

(** Ids go up by at least four. *)
Lemma next_message_id_spec last now : (∀ l, last = Some l → 0 ≤ l < 2 ^ 64 - 4 ∧ l mod 4 = 0) → let n := next_message_id last now in
  0 ≤ n < 2 ^ 64 ∧ n mod 4 = 0 ∧ (∀ l, last = Some l → l < n) ∧ n ≤ Z.max (message_id_from_nanoseconds now) (default 0 last + 4).
Proof.
  intros Hl n. unfold n, next_message_id. destruct (message_id_range now) as [Hr Hm]. destruct last as [l|]; [|cbn; split_and!; [lia|lia|done|done|lia]].
  destruct (Hl l eq_refl) as [Hl1 Hl2]. rewrite (wrap_small 64) by lia. assert ((l + 4) mod 4 = 0) as H4 by (rewrite Z.add_mod, Hl2 by lia; done). cbn [default]. split_and!; [lia|lia| | |cbn; lia].
  - destruct (Z.max_spec (message_id_from_nanoseconds now) (l + 4)) as [[_ ->]|[_ ->]]; done.
  - intros l' [= <-]. lia.
Qed.

Lemma seq_no_range s c : is_i32 (next_session_seq_no s c) ∧ Z.odd (next_session_seq_no s c) = c.
Proof.
  unfold next_session_seq_no. set (x := u32 _). assert (0 ≤ x < 2 ^ 32 ∧ x mod 2 = 0) as [Hx H2].
  { split; [apply wrap_range; lia|]. unfold x, wrap. rewrite !Z.mod_mod_divide; [apply Z.mod_mul; lia|by exists (2 ^ 63)|by exists (2 ^ 31)]. }
  destruct (u_signed 32 x ltac:(lia) Hx) as [_ Hs]. assert (signed 32 x mod 2 = 0) as Hs2.
  { unfold signed. destruct (x <? _); [done|]. change (2 ^ 32) with (2 ^ 31 * 2). rewrite Zminus_mod, H2, Z.mod_mul by lia. done. }
  rewrite Zmod_odd in Hs2. destruct (Z.odd (signed 32 x)) eqn:Eo; [done|]. change (32 - 1) with 31 in Hs.
  assert (signed 32 x ≠ 2 ^ 31 - 1) by (intros E; by rewrite E in Eo). unfold is_i32. destruct c; (split; [lia|]); rewrite Z.odd_add, Eo; done.
Qed.

Lemma make_packet_ok s now b c : session_ok s → (∀ l, last_message_id s = Some l → l < 2 ^ 64 - 4) → Forall is_byte b → Z.of_nat (length b) < 2 ^ 31 →
  let p := make_session_packet s now b c in let n := next_message_id (last_message_id s) (adjusted_now_nanoseconds s now) in
  packet_ok p ∧ message_id p = signed 64 n ∧ u64 (message_id p) = n.
Proof.
  intros [Hk Hsa Hid Hl] Hlast Hb Hlen p n. destruct (next_message_id_spec (last_message_id s) (adjusted_now_nanoseconds s now)) as (Hn & _); [intros l E; destruct (Hl l E); specialize (Hlast l E); lia|].
  fold n in Hn. destruct (u_signed 64 n ltac:(lia) Hn) as [Hu Hr]. split; [|done]. split; cbn; try done. apply seq_no_range.
Qed.

(** What is encoded is what is decoded. *)
Lemma finalized_packet k from p padding_bytes payload : key_ok k → packet_ok p → Forall is_byte padding_bytes → padding p = [] → encode_encrypted_packet p k from padding_bytes = Ret payload →
  decode_encrypted_packet payload k from (Some (session_id p)) = Ret (padded p padding_bytes).
Proof.
  intros Hk Hp Hpb Hpad E. assert ((length (body p) mod 4 = 0)%nat ∧ (default_encrypted_padding_size (32 + length (body p)) ≤ length padding_bytes)%nat) as [Hm Hl].
  { unfold encode_encrypted_packet in E. rewrite Hpad, bool_decide_true in E by done. apply bind_ret in E as (p' & E1 & E). apply bind_ret in E1 as ([] & E2 & [= <-]). apply demand_ret, negb_true_iff, Nat.ltb_ge in E2. split; [|done].
    apply bind_ret in E as (pt & E3 & _). unfold encode_encrypted_plaintext in E3. apply bind_ret in E3 as ([] & E3 & _). unfold validate_encrypted_packet_padding in E3. apply bind_ret in E3 as ([] & E3 & _). by apply demand_ret, Nat.eqb_eq in E3. }
  destruct (decode_encode_packet k from p padding_bytes (Some (session_id p)) Hk Hp Hpb Hm Hpad Hl) as (payload' & E' & Hd). rewrite E in E'. injection E' as <-. by rewrite Z.eqb_refl in Hd.
Qed.

(** ** Receiving *)

(** The requests that were answered, with their names. *)
Definition answered (effects : list session_effect) : list (Z * bytes) :=
  omap (λ e, match e with notify_session (rpc_request_result id request _) => Some (id, request) | _ => None end) effects.

(** The ids of the messages that were sent. *)
Definition sent_ids (effects : list session_effect) : list Z :=
  omap (λ e, match e with notify_session (session_message_sent id _ _) => Some (u64 id) | _ => None end) effects.

(** The requests that wait for an answer. *)
Definition waiting (s : session) : list (Z * bytes) := (λ kv, (kv.1, p_request kv.2)) <$> map_to_list (pending_requests s).

(** A message of the server changes the salt and answers requests; it sends nothing. *)
Record reacts (o o' : outcome) : Prop := {
  re_same : key o'.1 = key o.1 ∧ own_id o'.1 = own_id o.1 ∧ time_offset o'.1 = time_offset o.1 ∧ last_message_id o'.1 = last_message_id o.1 ∧ sent_content_messages o'.1 = sent_content_messages o.1;
  re_salt : is_i64 (current_salt o.1) → is_i64 (current_salt o'.1);
  re_effects : ∃ new, o'.2 = o.2 ++ new ∧ sent_ids new = [] ∧ waiting o.1 ≡ₚ answered new ++ waiting o'.1;
  re_pending : pending_requests o'.1 ⊆ pending_requests o.1;
}.

Lemma reacts_refl o : reacts o o.
Proof. split; [done|done|exists []; by rewrite app_nil_r|done]. Qed.

Lemma reacts_trans o1 o2 o3 : reacts o1 o2 → reacts o2 o3 → reacts o1 o3.
Proof.
  intros [(A1 & A2 & A3 & A4 & A5) B1 (n1 & C1 & D1 & E1) F1] [(A1' & A2' & A3' & A4' & A5') B2 (n2 & C2 & D2 & E2) F2]. split.
  - repeat split; congruence.
  - auto.
  - exists (n1 ++ n2). rewrite C2, C1, <- app_assoc. unfold sent_ids, answered in *. rewrite !omap_app, D1, D2. split_and!; [done|done|]. by rewrite E1, E2, app_assoc.
  - by trans (pending_requests o2.1).
Qed.

(** An event that is neither a message sent nor an answer. *)
Definition quiet (e : session_event) : Prop := match e with session_message_sent _ _ _ | rpc_request_result _ _ _ => False | _ => True end.

Lemma reacts_notify e o : quiet e → reacts o (notify e o).
Proof. intros He. split; [done|done| |done]. exists [notify_session e]. by destruct e. Qed.

Lemma reacts_salt x o : is_i64 x → reacts o (set_salt x o.1, o.2).
Proof. intros Hx. split; [done|done|exists []; by rewrite app_nil_r|done]. Qed.

Lemma reacts_answer o id p r : pending_requests o.1 !! id = Some p →
  reacts o (notify (rpc_request_result id (p_request p) r) (notify (rpc_result id r) (set_pending (delete id (pending_requests o.1)) o.1, o.2))).
Proof.
  intros Hp. split; [done|done| |apply delete_subseteq]. exists [notify_session (rpc_result id r); notify_session (rpc_request_result id (p_request p) r)]. cbn [notify fst snd set_pending pending_requests]. rewrite <- app_assoc.
  split_and!; [done|done|]. unfold waiting. cbn [set_pending pending_requests fst answered omap list_omap app]. rewrite <- (insert_delete_id (pending_requests o.1) id p Hp) at 1. rewrite map_to_list_insert by apply lookup_delete_eq. done.
Qed.

Lemma next_inv {A} (m : reading A) s a s' : next m s = Ret (a, s') → m s = Some (Ret a, s').
Proof. unfold next. destruct (m s) as [[[a'|e] s1]|]; [intros [= -> ->]; done|done|done]. Qed.

Lemma read_all_inv {A} (m : reading A) s a : read_all m s = Ret a → ∃ s', m s = Some (Ret a, s').
Proof. unfold read_all. destruct (m s) as [[r s1]|]; [intros ->; eauto|done]. Qed.

Lemma container_reacts handle : (∀ o id seq b o', Forall is_byte b → handle o id seq b = Ret o' → reacts o o') →
  ∀ fuel count input o o', Forall is_byte input → container_loop handle fuel count input o = Ret o' → reacts o o'.
Proof.
  intros Hh. induction fuel as [|fuel IH]; intros count input o o' Hb E; cbn [container_loop] in E.
  { destruct (count <=? 0); [|done]. apply bind_ret in E as (_ & _ & [= <-]). apply reacts_refl. }
  destruct (count <=? 0); [apply bind_ret in E as (_ & _ & [= <-]); apply reacts_refl|].
  apply bind_ret in E as ([id i1] & E1 & E). apply next_inv, i64_inv in E1 as [-> _]; [|done]. apply Forall_app in Hb as [_ Hb]. apply bind_ret in E as ([sq i2] & E2 & E). apply next_inv, i32_inv in E2 as [-> _]; [|done]. apply Forall_app in Hb as [_ Hb].
  apply bind_ret in E as ([sz i3] & E3 & E). apply next_inv, i32_inv in E3 as [-> _]; [|done]. apply Forall_app in Hb as [_ Hb]. apply bind_ret in E as ([] & _ & E). apply bind_ret in E as ([cb i4] & E4 & E). apply next_inv, take_inv in E4 as [-> _]. apply Forall_app in Hb as [Hcb Hb].
  apply bind_ret in E as (o1 & E5 & E). eapply reacts_trans; [|eapply IH; [exact Hb|exact E]]. eapply reacts_trans; [|eapply Hh; [exact Hcb|exact E5]]. by apply (reacts_notify (session_message_received id sq cb)).
Qed.

Lemma handle_reacts fuel : ∀ o id seq b o', Forall is_byte b → handle_loop fuel o id seq b = Ret o' → reacts o o'.
Proof.
  induction fuel as [|fuel IH]; intros o id seq b o' Hb E; [done|]. cbn [handle_loop] in E. apply bind_ret in E as ([c input] & E1 & E). apply next_inv, u32_inv in E1 as [-> _]; [|done]. apply Forall_app in Hb as [_ Hb].
  destruct (c =? pong_constructor). { apply bind_ret in E as (e & E2 & [= <-]). apply reacts_notify. apply read_all_inv in E2 as (s' & E2). apply pbind_inv in E2 as (x & s1 & _ & E2). apply pbind_inv in E2 as (y & s2 & _ & E2). by apply pbind_inv in E2 as (z & s3 & _ & [= <- _]). }
  destruct (c =? msgs_ack_constructor). { apply bind_ret in E as (ids & E2 & [= <-]). by apply reacts_notify. }
  destruct (c =? new_session_created_constructor).
  { apply bind_ret in E as ([[f u] sa] & E2 & [= <-]). apply read_all_inv in E2 as (s' & E2). apply pbind_inv in E2 as (x & s1 & Ex & E2). apply i64_inv in Ex as [-> _]; [|done]. apply Forall_app in Hb as [_ Hb].
    apply pbind_inv in E2 as (y & s2 & Ey & E2). apply i64_inv in Ey as [-> _]; [|done]. apply Forall_app in Hb as [_ Hb]. apply pbind_inv in E2 as (z & s3 & Ez & E2). apply i64_inv in Ez as [-> Hz]; [|done]. apply pbind_inv in E2 as (w & s4 & _ & [= <- <- <- _]).
    eapply reacts_trans; [by apply reacts_salt|by apply reacts_notify]. }
  destruct (c =? bad_server_salt_constructor).
  { apply bind_ret in E as ([[[bd sq] co] sa] & E2 & [= <-]). apply read_all_inv in E2 as (s' & E2). apply pbind_inv in E2 as (x & s1 & Ex & E2). apply i64_inv in Ex as [-> _]; [|done]. apply Forall_app in Hb as [_ Hb].
    apply pbind_inv in E2 as (y & s2 & Ey & E2). apply i32_inv in Ey as [-> _]; [|done]. apply Forall_app in Hb as [_ Hb]. apply pbind_inv in E2 as (z & s3 & Ez & E2). apply i32_inv in Ez as [-> _]; [|done]. apply Forall_app in Hb as [_ Hb].
    apply pbind_inv in E2 as (w & s4 & Ew & E2). apply i64_inv in Ew as [-> Hw]; [|done]. apply pbind_inv in E2 as (v & s5 & _ & [= <- <- <- <- _]). eapply reacts_trans; [by apply reacts_salt|by apply reacts_notify]. }
  destruct (c =? rpc_result_constructor).
  { apply bind_ret in E as ([rid r] & _ & E). destruct (pending_requests o.1 !! rid) as [p|] eqn:Ep; injection E as <-; [by apply reacts_answer|by apply reacts_notify]. }
  destruct (c =? msg_container_constructor); [|injection E as <-; by apply reacts_notify].
  apply bind_ret in E as ([n i1] & E2 & E). apply next_inv, i32_inv in E2 as [-> _]; [|done]. apply Forall_app in Hb as [_ Hb]. apply bind_ret in E as ([] & _ & E). eapply container_reacts; [exact IH|exact Hb|exact E].
Qed.

(** *** Receiving ends *)

(** A read that ends, in one of its own errors if any. *)
Definition steady_at {A} (m : reading A) (s : bytes) : Prop := ∃ r s', m s = Some (r, s') ∧ r ≠ Throw out_of_fuel ∧ (length s' ≤ length s)%nat.
Definition steady {A} (m : reading A) : Prop := ∀ s, steady_at m s.

Lemma steady_bind {A B} (m : reading A) (k : A → reading B) s : steady_at m s → (∀ a s', m s = Some (Ret a, s') → (length s' ≤ length s)%nat → steady_at (k a) s') → steady_at (pbind m k) s.
Proof.
  intros (r & s' & E & Hr & Hl) Hk. unfold steady_at, pbind. rewrite E. destruct r as [a|e].
  - destruct (Hk a s' E Hl) as (r2 & s2 & E2 & Hr2 & Hl2). exists r2, s2. split_and!; [done|done|lia].
  - exists (Throw e), s'. split_and!; [done| |done]. congruence.
Qed.

Lemma steady_ret {A} (a : A) : steady (pret a).
Proof. intros s. exists (Ret a), s. done. Qed.

Lemma steady_require b what : steady (require b (protocol_error what)).
Proof. intros s. destruct b; [exists (Ret tt), s|exists (Throw (protocol_error what)), s]; done. Qed.

Lemma steady_take n : steady (take_bytes n).
Proof. intros s. unfold steady_at, take_bytes. destruct (n <=? length s)%nat; eexists _, _; (split; [done|]); (split; [done|]); [rewrite length_drop; lia|lia]. Qed.

Lemma steady_i64 : steady i64_le.
Proof. intros s. apply steady_bind; [|intros; apply steady_ret]. apply steady_bind; [apply steady_require|]. intros. apply steady_bind; [apply steady_take|intros; apply steady_ret]. Qed.

Lemma steady_u32 : steady u32_le.
Proof. intros s. apply steady_bind; [|intros; apply steady_ret]. apply steady_bind; [apply steady_require|]. intros. apply steady_bind; [apply steady_take|intros; apply steady_ret]. Qed.

Lemma steady_i32 : steady i32_le.
Proof. intros s. apply steady_bind; [apply steady_u32|intros; apply steady_ret]. Qed.

Lemma steady_end what : steady (at_end what).
Proof. intros s. apply steady_bind; [by exists (Ret (length s)), s|]. intros. apply steady_require. Qed.

Lemma i64_length s x s' : i64_le s = Some (Ret x, s') → (length s = 8 + length s')%nat.
Proof.
  intros E. apply pbind_inv in E as (y & s1 & E & [= _ <-]). apply pbind_inv in E as ([] & s2 & E1 & E). apply require_inv in E1 as [_ ->]. apply pbind_inv in E as (w & s3 & E2 & [= _ <-]). apply take_inv in E2 as [-> Hw]. rewrite length_app. lia.
Qed.

Lemma steady_ids fuel : ∀ count s, (length s < fuel)%nat → steady_at (get_ids fuel count) s.
Proof.
  induction fuel as [|fuel IH]; intros count s Hs; [lia|]. cbn [get_ids]. destruct (count =? 0); [apply steady_ret|]. apply steady_bind; [apply steady_i64|]. intros id s1 E1 _. apply i64_length in E1.
  apply steady_bind; [apply IH; lia|]. intros. apply steady_ret.
Qed.

Lemma next_ends {A} (m : reading A) s : steady_at m s → next m s ≠ Throw out_of_fuel.
Proof. intros (r & s' & E & Hr & _). unfold next. rewrite E. destruct r as [a|e]; congruence. Qed.

Lemma read_all_ends {A} (m : reading A) s : steady_at m s → read_all m s ≠ Throw out_of_fuel.
Proof. intros (r & s' & E & Hr & _). unfold read_all. by rewrite E. Qed.

Lemma bind_ends {A B} (r : result fault A) (k : A → result fault B) : r ≠ Throw out_of_fuel → (∀ a, r = Ret a → k a ≠ Throw out_of_fuel) → bind r k ≠ Throw out_of_fuel.
Proof. intros Hr Hk. destruct r as [a|e]; [by apply Hk|]. cbn. congruence. Qed.

Lemma demand_ends b what : demand b (protocol_error what) ≠ Throw out_of_fuel.
Proof. by destruct b. Qed.

Lemma next_steady {A} (m : reading A) s a s' : steady_at m s → next m s = Ret (a, s') → (length s' ≤ length s)%nat.
Proof. intros (r & s1 & E & _ & Hl) H. unfold next in H. rewrite E in H. destruct r; [|done]. by injection H as _ <-. Qed.

Lemma container_ends handle n : (∀ o id seq b, (length b < n)%nat → handle o id seq b ≠ Throw out_of_fuel) →
  ∀ fuel count input o, (length input < fuel)%nat → (length input < n)%nat → container_loop handle fuel count input o ≠ Throw out_of_fuel.
Proof.
  intros Hh. induction fuel as [|fuel IH]; intros count input o Hf Hn; [lia|]. cbn [container_loop]. destruct (count <=? 0); [apply bind_ends; [apply demand_ends|done]|].
  apply bind_ends; [apply next_ends, steady_i64|]. intros [id i1] E1. apply next_inv, i64_length in E1. apply bind_ends; [apply next_ends, steady_i32|]. intros [sq i2] E2. pose proof (next_steady _ _ _ _ (steady_i32 i1) E2).
  apply bind_ends; [apply next_ends, steady_i32|]. intros [sz i3] E3. pose proof (next_steady _ _ _ _ (steady_i32 i2) E3). apply bind_ends; [apply demand_ends|]. intros _ _.
  apply bind_ends; [apply next_ends, steady_take|]. intros [cb i4] E4. apply next_inv, take_inv in E4 as [-> _]. rewrite length_app in *. apply bind_ends; [apply Hh; lia|]. intros o1 _. apply IH; lia.
Qed.

Ltac steady := repeat first [apply steady_bind; [first [apply steady_i64|apply steady_i32|apply steady_u32|apply steady_require|apply steady_end]|intros]|apply steady_ret].

Lemma handle_ends fuel : ∀ o id seq b, (length b < fuel)%nat → handle_loop fuel o id seq b ≠ Throw out_of_fuel.
Proof.
  induction fuel as [|fuel IH]; intros o id seq b Hf; [lia|]. cbn [handle_loop]. apply bind_ends; [apply next_ends, steady_u32|]. intros [c input] E1.
  assert (length input < length b)%nat as Hi.
  { apply next_inv in E1. apply pbind_inv in E1 as (y & s1 & E & [= _ <-]). apply pbind_inv in E as ([] & s2 & E2 & E). apply require_inv in E2 as [_ ->]. apply pbind_inv in E as (w & s3 & E3 & [= _ <-]). apply take_inv in E3 as [-> Hw]. rewrite length_app. lia. }
  destruct (c =? pong_constructor); [apply bind_ends; [apply read_all_ends; steady|done]|].
  destruct (c =? msgs_ack_constructor).
  { apply bind_ends; [|done]. apply read_all_ends. apply steady_bind; [apply steady_u32|]. intros v s1 _ Hs1. apply steady_bind; [apply steady_require|]. intros [] s2 E2 _. apply require_inv in E2 as [_ ->].
    apply steady_bind; [apply steady_u32|]. intros n s3 _ Hs3. apply steady_bind; [apply steady_ids; lia|]. intros. steady. }
  destruct (c =? new_session_created_constructor); [apply bind_ends; [apply read_all_ends; steady|intros [[? ?] ?] _; done]|].
  destruct (c =? bad_server_salt_constructor); [apply bind_ends; [apply read_all_ends; steady|intros [[[? ?] ?] ?] _; done]|].
  destruct (c =? rpc_result_constructor); [apply bind_ends; [apply next_ends, steady_i64|intros [? ?] _; by destruct (pending_requests _ !! _)]|].
  destruct (c =? msg_container_constructor); [|done]. apply bind_ends; [apply next_ends, steady_i32|]. intros [n i1] E2. pose proof (next_steady _ _ _ _ (steady_i32 input) E2). apply bind_ends; [apply demand_ends|]. intros _ _.
  eapply (container_ends _ fuel); [exact IH|lia|lia].
Qed.

(** ** Histories *)

Inductive operation :=
| Send (now_ns : Z) (body request padding_bytes : bytes)
| Receive (payload : bytes) (now_ns : Z) (padding_bytes : bytes).

(** The session after the operations, their effects, and the requests with the ids they were given. An operation that throws leaves the session. *)
Fixpoint run (s : session) (ops : list operation) : session * list session_effect * list (Z * bytes) :=
  match ops with
  | [] => (s, [], [])
  | Send now_ns body request padding_bytes :: ops =>
      match send_request s now_ns body request padding_bytes with
      | Ret (s, id, effects) => let '(s, more, asked) := run s ops in (s, effects ++ more, (id, request) :: asked)
      | Throw _ => run s ops
      end
  | Receive payload now_ns padding_bytes :: ops =>
      match receive_packet s payload now_ns padding_bytes with
      | Ret (s, effects) => let '(s, more, asked) := run s ops in (s, effects ++ more, asked)
      | Throw _ => run s ops
      end
  end.

(** The numbers of the sent messages. *)
Definition sent_seq_nos (effects : list session_effect) : list Z :=
  omap (λ e, match e with notify_session (session_message_sent _ seq _) => Some seq | _ => None end) effects.

(** The numbers that the protocol asks for when [k] content-related messages were sent. *)
Fixpoint numbered_from (k : Z) (seqs : list Z) : Prop :=
  match seqs with
  | [] => True
  | q :: seqs => if Z.odd q then q = 2 * k + 1 ∧ numbered_from (k + 1) seqs else q = 2 * k ∧ numbered_from k seqs
  end.

(** Bytes, and a clock before the year 2038. *)
Definition op_ok (s : session) (o : operation) : Prop :=
  match o with
  | Send now_ns body _ padding_bytes => early s now_ns ∧ Forall is_byte body ∧ Z.of_nat (length body) < 2 ^ 31 ∧ Forall is_byte padding_bytes
  | Receive payload now_ns padding_bytes => early s now_ns ∧ Forall is_byte payload ∧ Forall is_byte padding_bytes
  end.

(** After [n] operations. *)
Record after (n : Z) (s : session) : Prop := {
  af_ok : session_ok s;
  af_last : ∀ l, last_message_id s = Some l → l ≤ 2 ^ 63 + 4 * n;
  af_pending : ∀ id p, pending_requests s !! id = Some p → is_i64 id ∧ ∃ l, last_message_id s = Some l ∧ u64 id ≤ l;
  af_count : 0 ≤ sent_content_messages s ≤ n;
}.

(** A message that goes out. *)
Lemma outbound n s now b c pad payload p : after n s → 0 ≤ n < 2 ^ 30 → early s now → Forall is_byte b → Z.of_nat (length b) < 2 ^ 31 → Forall is_byte pad →
  encode_encrypted_packet (make_session_packet s now b c) (key s) client pad = Ret payload → decode_encrypted_packet payload (key s) client (Some (own_id s)) = Ret p →
  seq_no p = 2 * sent_content_messages s + (if c then 1 else 0) ∧ is_i64 (message_id p) ∧ u64 (message_id p) mod 4 = 0 ∧ (∀ l, last_message_id s = Some l → l < u64 (message_id p)) ∧ 0 ≤ u64 (message_id p) ≤ 2 ^ 63 + 4 * (n + 1).
Proof.
  intros [Hok Hlast Hpend Hcount] Hn [Hnow Hearly] Hb Hlen Hpad Ee Ed. destruct (make_packet_ok s now b c Hok) as (Hp & Hid & Hu); [intros l E; specialize (Hlast l E); lia|done|done|].
  pose proof (finalized_packet (key s) client _ pad payload (so_key _ Hok) Hp Hpad eq_refl Ee) as Hd. cbn [make_session_packet session_id] in Hd. rewrite Ed in Hd. injection Hd as ->.
  set (q := padded _ pad). assert (message_id q = message_id (make_session_packet s now b c) ∧ seq_no q = seq_no (make_session_packet s now b c)) as [-> ->] by done. rewrite Hu.
  destruct (next_message_id_spec (last_message_id s) (adjusted_now_nanoseconds s now)) as (Hr & H4 & Hgt & Hle); [intros l E; specialize (Hlast l E); destruct (so_last _ Hok l E); lia|].
  pose proof (message_id_early _ (conj (adjusted_nonneg s now) Hearly)) as He. split_and!; [|apply Hp|done|done|lia|].
  - cbn. unfold next_session_seq_no. f_equal. rewrite (wrap_small 64), (wrap_small 32) by lia. unfold signed. rewrite (proj2 (Z.ltb_lt _ _)) by lia. lia.
  - assert (default 0 (last_message_id s) ≤ 2 ^ 63 + 4 * n) as Hdef; [|lia]. destruct (last_message_id s) as [l|]; cbn [default from_option id]; [exact (Hlast l eq_refl)|lia].
Qed.

Lemma emplace_fresh id p m : m !! id = None → emplace id p m = <[id := p]> m.
Proof. unfold emplace. by intros ->. Qed.

Lemma waiting_emplace s id p : pending_requests s !! id = None → waiting (set_pending (emplace id p (pending_requests s)) s) ≡ₚ (id, p_request p) :: waiting s.
Proof. intros E. unfold waiting. rewrite emplace_fresh by done. cbn [set_pending pending_requests]. by rewrite map_to_list_insert. Qed.

Lemma send_step n s now b r pad s' id effects : after n s → 0 ≤ n < 2 ^ 30 → early s now → Forall is_byte b → Z.of_nat (length b) < 2 ^ 31 → Forall is_byte pad →
  send_request s now b r pad = Ret (s', id, effects) → after (n + 1) s' ∧ time_offset s' = time_offset s ∧ last_message_id s' = Some (u64 id) ∧ (∀ l, last_message_id s = Some l → l < u64 id) ∧
  u64 id mod 4 = 0 ∧ waiting s' ≡ₚ (id, r) :: waiting s ∧ sent_content_messages s' = sent_content_messages s + 1 ∧
  sent_ids effects = [u64 id] ∧ sent_seq_nos effects = [2 * sent_content_messages s + 1] ∧ answered effects = [].
Proof.
  intros Ha Hn He Hb Hl Hp E. unfold send_request in E. apply bind_ret in E as (payload & Ee & E). apply bind_ret in E as (p & Ed & [= <- <- <-]).
  destruct (outbound n s now b true pad payload p Ha Hn He Hb Hl Hp Ee Ed) as (Hseq & Hi & H4 & Hgt & Hle). destruct Ha as [Hok Hlast Hpend Hcount]. cbn [set_pending advance_outbound_session time_offset last_message_id sent_content_messages pending_requests].
  assert (pending_requests s !! message_id p = None) as Hfresh.
  { destruct (pending_requests s !! message_id p) as [x|] eqn:Ex; [|done]. destruct (Hpend _ _ Ex) as (_ & l & El & Hl'). specialize (Hgt l El). lia. }
  assert (u64 (sent_content_messages s + 1) = sent_content_messages s + 1) as Hc by (apply wrap_small; lia). rewrite Hc. split; [|split_and!; [done|done|done|done| |done|done|cbn; by rewrite Hseq|done]].
  - destruct Hok as [Hk Hsa Hid Hla]. split; cbn [last_message_id pending_requests sent_content_messages].
    + split; cbn; try done. intros l [= <-]. split; [apply wrap_range; lia|done].
    + intros l [= <-]. lia.
    + intros id x Hx. cbn [set_pending advance_outbound_session pending_requests last_message_id] in Hx |- *. rewrite emplace_fresh in Hx by done. destruct (decide (id = message_id p)) as [->|Hne]; [split; [done|]; eexists; split; [done|lia]|]. rewrite lookup_insert_ne in Hx by done. destruct (Hpend _ _ Hx) as (Hi' & l & El & Hl'). split; [done|]. eexists. split; [done|]. specialize (Hgt l El). lia.
    + cbn [set_pending advance_outbound_session sent_content_messages]. rewrite Hc. lia.
  - exact (waiting_emplace s (message_id p) (MkPending (body p) r (seq_no p)) Hfresh).
Qed.

Lemma omap_single {A B} (f : A → option B) x y : f x = Some y → omap f [x] = [y].
Proof. intros E. cbn. by rewrite E. Qed.

(** What a reaction keeps. *)
Lemma after_reacts n o o' : after n o.1 → reacts o o' → after n o'.1 ∧ time_offset o'.1 = time_offset o.1.
Proof.
  intros [[Hk Hsa Hid Hla] Hlast Hpend Hcount] [(E1 & E2 & E3 & E4 & E5) Hs _ Hsub]. split; [|done]. split; rewrite ?E1, ?E2, ?E4, ?E5; try done.
  - split; rewrite ?E1, ?E2, ?E4; auto.
  - intros id p Hp. apply (Hpend id p). by eapply lookup_weaken.
Qed.

Lemma ack_body_small id : Forall is_byte (encode_msgs_ack_body [id]) ∧ length (encode_msgs_ack_body [id]) = 20%nat.
Proof. split; [|done]. unfold encode_msgs_ack_body. repeat (apply Forall_app; split); first [apply le_bytes_bytes|apply Forall_nil_2]. Qed.

Lemma receive_step n s payload now pad s' effects : after n s → 0 ≤ n < 2 ^ 30 → early s now → Forall is_byte payload → Forall is_byte pad →
  receive_packet s payload now pad = Ret (s', effects) → after (n + 1) s' ∧ time_offset s' = time_offset s ∧ waiting s ≡ₚ answered effects ++ waiting s' ∧ sent_content_messages s' = sent_content_messages s ∧
  ((sent_ids effects = [] ∧ sent_seq_nos effects = [] ∧ last_message_id s' = last_message_id s) ∨
   ∃ id, sent_ids effects = [id] ∧ sent_seq_nos effects = [2 * sent_content_messages s] ∧ last_message_id s' = Some id ∧ id mod 4 = 0 ∧ ∀ l, last_message_id s = Some l → l < id).
Proof.
  intros Ha Hn He Hb Hpad E. unfold receive_packet in E. apply bind_ret in E as (p & Ep & E). destruct (decode_packet_inv _ _ _ _ _ Hb Ep) as (_ & Hp & _ & _).
  apply bind_ret in E as (o & Eo & E). set (o0 := (s, [notify_session (session_message_received (message_id p) (seq_no p) (body p))])) in Eo.
  assert (reacts (s, []) o) as Hr. { eapply reacts_trans; [by apply (reacts_notify (session_message_received (message_id p) (seq_no p) (body p)))|]. eapply handle_reacts; [|exact Eo]. apply Hp. }
  destruct (after_reacts n (s, []) o Ha Hr) as [Ha1 Ht1]. destruct Hr as [(E1 & E2 & E3 & E4 & E5) _ (new & En & Hsent & Hperm) _]. cbn [fst snd app] in *.
  assert (sent_seq_nos new = []) as Hseqs. { clear -Hsent. induction new as [|[|[]] new IH]; try done; apply IH; exact Hsent. }
  destruct (negb _).
  - unfold send_session_ack in E. apply bind_ret in E as (out & Ee & E). apply bind_ret in E as (q & Ed & [= <- <-]). destruct (ack_body_small (message_id p)) as [Hbb Hbl].
    assert (early o.1 now) as He1 by (destruct He; split; [done|]; unfold adjusted_now_nanoseconds in *; by rewrite Ht1). destruct (outbound n o.1 now _ false pad out q Ha1 Hn He1 Hbb ltac:(rewrite Hbl; lia) Hpad Ee Ed) as (Hseq & Hi & H4 & Hgt & Hle).
    destruct Ha1 as [[Hk Hsa Hid Hla] Hlast Hpend Hcount]. cbn [advance_outbound_session time_offset last_message_id sent_content_messages]. rewrite En. split.
    + split; cbn; [split; cbn; try done; intros l [= <-]; split; [apply wrap_range; lia|done]|intros l [= <-]; lia| |lia].
      intros id x Hx. destruct (Hpend id x Hx) as (Hi' & l & El & Hl). split; [done|]. eexists. split; [done|]. specialize (Hgt l El). lia.
    + split; [done|]. split; [unfold answered in *; rewrite omap_app; cbn; by rewrite app_nil_r|]. split; [done|]. right. exists (u64 (message_id q)). unfold sent_ids, sent_seq_nos in *. rewrite !omap_app, Hsent, Hseqs. cbn. rewrite Hseq, E5, Z.add_0_r. rewrite <- E4. done.
  - injection E as ->. cbn [fst snd] in *. split; [destruct Ha1 as [A B C D]; split; [done|intros l El; specialize (B l El); lia|done|lia]|]. rewrite En. split; [done|]. split; [done|]. split; [done|]. left. done.
Qed.

(** The clock stays early. *)
Lemma op_ok_offset s s' o : time_offset s' = time_offset s → op_ok s o → op_ok s' o.
Proof. intros E. unfold op_ok, early, adjusted_now_nanoseconds. by rewrite E. Qed.

Lemma run_history ops : ∀ n s, after n s → 0 ≤ n → n + Z.of_nat (length ops) ≤ 2 ^ 30 → Forall (op_ok s) ops →
  let '(s', effects, asked) := run s ops in
  waiting s ++ asked ≡ₚ answered effects ++ waiting s' ∧ StronglySorted Z.lt (option_list (last_message_id s) ++ sent_ids effects) ∧
  Forall (λ id, id mod 4 = 0) (sent_ids effects) ∧ numbered_from (sent_content_messages s) (sent_seq_nos effects).
Proof.
  induction ops as [|o ops IH]; intros n s Ha Hn Hlen Hops.
  { cbn. rewrite !app_nil_r. split_and!; [done| |done|done]. destruct (last_message_id s); repeat constructor. }
  apply Forall_cons in Hops as [Ho Hops]. cbn [length] in Hlen. destruct o as [now b r pad|payload now pad]; cbn [run].
  - destruct Ho as (He & Hb & Hl & Hp). destruct (send_request s now b r pad) as [[[s1 id] effects]|e] eqn:E.
    2: { apply (IH n); [done|done|lia|done]. }
    destruct (send_step n s now b r pad s1 id effects Ha ltac:(lia) He Hb Hl Hp E) as (Ha1 & Ht & Hl1 & Hgt & H4 & Hw & Hc & Hs & Hq & Han).
    specialize (IH (n + 1) s1 Ha1 ltac:(lia) ltac:(lia)). destruct (run s1 ops) as [[s2 more] asked]. destruct IH as (Hperm & Hsort & Hmod & Hnum).
    { eapply Forall_impl; [exact Hops|]. intros o. by apply op_ok_offset. }
    unfold answered, sent_ids, sent_seq_nos in *. rewrite !omap_app, Han, Hs, Hq. cbn [app]. rewrite Hl1 in Hsort. cbn [option_list app] in Hsort. split_and!.
    + rewrite <- Hperm, Hw. by rewrite <- Permutation_middle.
    + destruct (last_message_id s) as [l|] eqn:El; [|done]. cbn [option_list app]. constructor; [done|]. specialize (Hgt l eq_refl). apply StronglySorted_inv in Hsort as [_ Hall]. constructor; [done|]. eapply Forall_impl; [exact Hall|]. intros x Hx. cbv beta in *. lia.
    + by constructor.
    + cbn [numbered_from]. rewrite Z.add_comm, Z.odd_add_mul_2. rewrite Hc in Hnum. done.
  - destruct Ho as (He & Hb & Hp). destruct (receive_packet s payload now pad) as [[s1 effects]|e] eqn:E.
    2: { apply (IH n); [done|done|lia|done]. }
    destruct (receive_step n s payload now pad s1 effects Ha ltac:(lia) He Hb Hp E) as (Ha1 & Ht & Hw & Hc & Hout).
    specialize (IH (n + 1) s1 Ha1 ltac:(lia) ltac:(lia)). destruct (run s1 ops) as [[s2 more] asked]. destruct IH as (Hperm & Hsort & Hmod & Hnum).
    { eapply Forall_impl; [exact Hops|]. intros o. by apply op_ok_offset. }
    assert (waiting s ++ asked ≡ₚ answered (effects ++ more) ++ waiting s2) as Hall by (unfold answered in *; rewrite omap_app, Hw, <- !app_assoc, Hperm; done). split; [done|].
    unfold sent_ids, sent_seq_nos in *. rewrite !omap_app. rewrite Hc in Hnum. destruct Hout as [(-> & -> & El)|(id & -> & -> & El & H4 & Hgt)]; cbn [app]; rewrite El in Hsort; [done|]. cbn [option_list app] in Hsort. split_and!.
    + destruct (last_message_id s) as [l|] eqn:Els; [|done]. cbn [option_list app]. constructor; [done|]. specialize (Hgt l eq_refl). apply StronglySorted_inv in Hsort as [_ Hs]. constructor; [done|]. eapply Forall_impl; [exact Hs|]. intros x Hx. cbv beta in *. lia.
    + by constructor.
    + cbn [numbered_from]. rewrite Z.odd_mul. done.
Qed.

(** C9: whatever the program sends and the server answers, no request is lost or answered twice, and the messages that go out are
    numbered as the protocol asks. Let a new session run any operations, up to 2^30 of them with a clock before the year 2038. Then the requests that were accepted are, with
    the names they were sent with, exactly those that were answered and those that still wait; the ids of the sent messages
    increase and are multiples of four; and a content-related message has the number 2k + 1 and an acknowledgement 2k, where k is how many
    content-related messages went before. *)
Theorem session_keeps_requests s ops : session_ok s → last_message_id s = None → pending_requests s = ∅ → sent_content_messages s = 0 → Forall (op_ok s) ops → Z.of_nat (length ops) ≤ 2 ^ 30 →
  let '(s', effects, asked) := run s ops in
  asked ≡ₚ answered effects ++ waiting s' ∧ StronglySorted Z.lt (sent_ids effects) ∧ Forall (λ id, id mod 4 = 0) (sent_ids effects) ∧ numbered_from 0 (sent_seq_nos effects).
Proof.
  intros Hok Hlast Hpend Hcount Hops Hlen. assert (after 0 s) as Ha.
  { split; [done|intros l E; by rewrite Hlast in E|intros id p E; by rewrite Hpend, lookup_empty in E|lia]. }
  pose proof (run_history ops 0 s Ha ltac:(lia) ltac:(lia) Hops) as H. destruct (run s ops) as [[s' effects] asked]. destruct H as (Hp & Hs & Hm & Hn).
  rewrite Hlast in Hs. rewrite Hcount in Hn. unfold waiting at 1 in Hp. rewrite Hpend, map_to_list_empty in Hp. done.
Qed.

(** ** What the server says *)

Lemma of_crypto_ends {A} (r : result string A) : of_crypto r ≠ Throw out_of_fuel.
Proof. by destruct r. Qed.

Lemma decrypt_ends payload k from n : decrypt_padded payload k from n ≠ Throw out_of_fuel.
Proof.
  unfold decrypt_padded. do 4 (apply bind_ends; [apply demand_ends|intros _ _]). apply bind_ends; [unfold derive_aes_key_iv; apply bind_ends; [apply demand_ends|done]|]. intros kv _.
  apply bind_ends; [unfold aes_ige_decrypt; apply bind_ends; [apply of_crypto_ends|intros; apply of_crypto_ends]|]. intros out _. apply bind_ends; [apply demand_ends|done].
Qed.

Lemma validate_ends b p : validate_encrypted_packet_padding b p ≠ Throw out_of_fuel.
Proof. unfold validate_encrypted_packet_padding. do 2 (apply bind_ends; [apply demand_ends|intros _ _]). apply demand_ends. Qed.

Lemma decode_packet_ends payload k from expected : decode_encrypted_packet payload k from expected ≠ Throw out_of_fuel.
Proof.
  unfold decode_encrypted_packet. apply bind_ends; [apply demand_ends|]. intros _ _. apply bind_ends; [apply decrypt_ends|]. intros pt _. unfold decode_encrypted_plaintext. apply read_all_ends. unfold read_encrypted_plaintext.
  do 5 (apply steady_bind; [first [apply steady_i64|apply steady_i32]|intros]). apply steady_bind; [apply steady_require|intros]. apply steady_bind; [apply steady_take|intros]. apply steady_bind; [eexists (Ret _), _; split; [reflexivity|done]|]. intros pad s _ _.
  apply steady_bind; [|intros; apply steady_bind; [destruct expected; [apply steady_require|apply steady_ret]|intros; apply steady_ret]].
  pose proof (validate_ends a5 pad) as Hv. destruct (validate_encrypted_packet_padding a5 pad) as [u|e]; [by exists (Ret u), s|exists (Throw e), s; split_and!; [done|congruence|done]].
Qed.

Lemma encode_packet_ends p k from pad : encode_encrypted_packet p k from pad ≠ Throw out_of_fuel.
Proof.
  unfold encode_encrypted_packet. apply bind_ends; [destruct (bool_decide _); [apply bind_ends; [apply demand_ends|done]|done]|]. intros p' _. apply bind_ends.
  - pose proof (validate_ends (body p') (padding p')) as Hv. destruct (validate_encrypted_packet_padding (body p') (padding p')) as [[]|e] eqn:E; [by rewrite (encode_plaintext_ok p' E)|]. unfold encode_encrypted_plaintext. rewrite E. cbn [bind]. congruence.
  - intros pt _. unfold encrypt_padded. do 2 (apply bind_ends; [apply demand_ends|intros _ _]). apply bind_ends; [unfold derive_aes_key_iv; apply bind_ends; [apply demand_ends|done]|]. intros kv _.
    apply bind_ends; [unfold aes_ige_encrypt; apply bind_ends; [apply of_crypto_ends|intros; apply of_crypto_ends]|done].
Qed.

Lemma receive_ends s payload now pad : receive_packet s payload now pad ≠ Throw out_of_fuel.
Proof.
  unfold receive_packet. apply bind_ends; [apply decode_packet_ends|]. intros p _. apply bind_ends; [apply handle_ends; lia|]. intros o _. destruct (negb _); [|done].
  unfold send_session_ack. apply bind_ends; [apply encode_packet_ends|]. intros out _. apply bind_ends; [apply decode_packet_ends|]. done.
Qed.

Lemma rem_odd x : (Z.rem x 2 =? 0) = negb (Z.odd x).
Proof.
  destruct (Z.odd x) eqn:E; cbn [negb].
  - apply Z.eqb_neq. intros H. pose proof (Z.quot_rem' x 2) as Hq. rewrite H, Z.add_0_r in Hq. rewrite Hq, Z.odd_mul in E. done.
  - apply Z.eqb_eq. assert (Z.Even x) as [k ->] by (apply Z.even_spec; rewrite <- Z.negb_odd, E; done). rewrite Z.mul_comm. apply Z.rem_mul. lia.
Qed.

(** C10: whatever bytes arrive, receiving them ends, and a packet is taken only from who holds the key: it bears the key's id and, as its message
    key, the digest under the server's part of the key of exactly the packet that is read from it, for this session. Messages of the server send
    nothing but an acknowledgement and answer only requests that wait; what is refused leaves the session as it was. *)
Theorem receive_authentic s payload now pad : Forall is_byte payload →
  receive_packet s payload now pad ≠ Throw out_of_fuel ∧
  ∀ s' effects, receive_packet s payload now pad = Ret (s', effects) → ∃ p o,
    take 8 payload = key_id (key s) ∧ session_id p = own_id s ∧ subspan 8 16 payload = message_key (key s) (plaintext_of p) server ∧
    handle_session_message (s, [notify_session (session_message_received (message_id p) (seq_no p) (body p))]) (message_id p) (seq_no p) (body p) = Ret o ∧ reacts (s, []) o ∧
    (if Z.odd (seq_no p) then send_session_ack o now [message_id p] pad = Ret (s', effects) else o = (s', effects)).
Proof.
  intros Hb. split; [apply receive_ends|]. intros s' effects E. unfold receive_packet in E. apply bind_ret in E as (p & Ep & E). destruct (decode_packet_inv _ _ _ _ _ Hb Ep) as (Hk & Hp & Hs & _ & Hm).
  apply bind_ret in E as (o & Eo & E). exists p, o. specialize (Hs _ eq_refl). split_and!; [done|done|done|done| |].
  - eapply reacts_trans; [by apply (reacts_notify (session_message_received (message_id p) (seq_no p) (body p)))|]. eapply handle_reacts; [|exact Eo]. apply Hp.
  - pose proof (rem_odd (seq_no p)) as Er.
    rewrite Er, negb_involutive in E. destruct (Z.odd (seq_no p)); [done|]. by injection E.
Qed.

(** ** A sample *)

Definition sample_bytes_of (n : nat) : bytes := (λ i, Z.of_nat i mod 256) <$> seq 0 n.
Definition sample_key : auth_key := match make_auth_key (sample_bytes_of 256) with Ret k => k | Throw _ => MkKey [] [] [] end.
Definition sample_session : session := MkSession sample_key 11 7 (-3) None 0 ∅.
Definition sample_time : Z := 1700000000 * 1000000000 + 5.
Definition sample_request_id : Z := next_message_id None (adjusted_now_nanoseconds sample_session sample_time).

(** The server's answer: a container with an acknowledgement and the result. *)
Definition sample_answer : bytes :=
  le_bytes msg_container_constructor 4 ++ le_bytes 2 4
  ++ le_bytes 5 8 ++ le_bytes 0 4 ++ le_bytes 20 4 ++ encode_msgs_ack_body [sample_request_id]
  ++ le_bytes 9 8 ++ le_bytes 1 4 ++ le_bytes 16 4 ++ le_bytes rpc_result_constructor 4 ++ le_bytes sample_request_id 8 ++ [1; 2; 3; 4].

Definition sample_payload : bytes :=
  match encode_encrypted_packet (MkPacket 11 7 12 1 sample_answer []) sample_key server (sample_bytes_of 48) with Ret p => p | Throw _ => [] end.

Definition sample_ops : list operation :=
  [Send sample_time [1; 0; 0; 0] (str "help.getConfig") (sample_bytes_of 48); Receive sample_payload sample_time (sample_bytes_of 48);
   Receive (rev sample_payload) sample_time []].

Lemma bytes_decided l : forallb (λ b, (0 <=? b) && (b <? 256)) l = true → Forall is_byte l.
Proof. intros H. apply Forall_forall. intros b Hb. rewrite forallb_forall in H. apply list_elem_of_In, H, andb_true_iff in Hb as [H0 H1]. apply Z.leb_le in H0. by apply Z.ltb_lt in H1. Qed.

Lemma sample_session_ok : session_ok sample_session.
Proof.
  split; [|by split|by split|done]. split; (split; [vm_compute; reflexivity|]); apply bytes_decided; vm_compute; reflexivity.
Qed.

Lemma sample_payload_bytes : Forall is_byte sample_payload.
Proof. apply bytes_decided. vm_compute. reflexivity. Qed.

Lemma sample_ops_ok : Forall (op_ok sample_session) sample_ops.
Proof.
  assert (early sample_session sample_time) as He by (split; [vm_compute; discriminate|vm_compute; reflexivity]). assert (Forall is_byte (sample_bytes_of 48)) as Hp by (apply bytes_decided; vm_compute; reflexivity).
  apply Forall_cons. split; [split; [exact He|]; split; [apply bytes_decided; reflexivity|]; split; [vm_compute; reflexivity|exact Hp]|]. apply Forall_cons. split; [split; [exact He|]; split; [exact sample_payload_bytes|exact Hp]|].
  apply Forall_singleton. split; [exact He|]. split; [apply Forall_rev; exact sample_payload_bytes|apply Forall_nil_2].
Qed.

Lemma session_keeps_requests_witness : ∃ s' effects asked, run sample_session sample_ops = (s', effects, asked) ∧ asked = [(sample_request_id, str "help.getConfig")] ∧ waiting s' = [] ∧
  asked ≡ₚ answered effects ++ waiting s' ∧ StronglySorted Z.lt (sent_ids effects) ∧ length (sent_ids effects) = 2%nat ∧ numbered_from 0 (sent_seq_nos effects).
Proof.
  pose proof (session_keeps_requests sample_session sample_ops sample_session_ok eq_refl eq_refl eq_refl) as H.
  assert (match run sample_session sample_ops with (s', effects, asked) => bool_decide (asked = [(sample_request_id, str "help.getConfig")]) && bool_decide (waiting s' = []) && (length (sent_ids effects) =? 2)%nat end = true) as Hc by (vm_compute; reflexivity).
  destruct (run sample_session sample_ops) as [[s' effects] asked]. exists s', effects, asked. apply andb_true_iff in Hc as [Hc H2]. apply andb_true_iff in Hc as [Ha Hw].
  apply bool_decide_eq_true_1 in Ha, Hw. apply Nat.eqb_eq in H2. destruct H as (H3 & H4 & _ & H5).
  - exact sample_ops_ok.
  - vm_compute. discriminate.
  - split; [reflexivity|]. split; [exact Ha|]. split; [exact Hw|]. split; [exact H3|]. split; [exact H4|]. split; [exact H2|exact H5].
Defined.

Lemma receive_authentic_witness : ∃ s' effects p o, receive_packet sample_session sample_payload sample_time (sample_bytes_of 48) = Ret (s', effects) ∧
  take 8 sample_payload = key_id sample_key ∧ session_id p = 7 ∧ subspan 8 16 sample_payload = message_key sample_key (plaintext_of p) server ∧ reacts (sample_session, []) o.
Proof.
  destruct (receive_authentic sample_session sample_payload sample_time (sample_bytes_of 48) sample_payload_bytes) as [_ H].
  assert (match receive_packet sample_session sample_payload sample_time (sample_bytes_of 48) with Ret _ => true | Throw _ => false end = true) as Hc by (vm_compute; reflexivity).
  destruct (receive_packet sample_session sample_payload sample_time (sample_bytes_of 48)) as [[s' effects]|e]; [|discriminate].
  destruct (H s' effects eq_refl) as (p & o & H1 & H2 & H3 & _ & H4 & _). exists s', effects, p, o. split; [reflexivity|]. split; [exact H1|]. split; [exact H2|]. split; [exact H3|exact H4].
Defined.
