(* ===== verification/Exchange.v ===== *)
(** * MTProto key exchange (src/src/nxt/mt/auth.hpp)

    The client's part of the exchange that makes the key of a session. The state and the output writer are passed by reference, so
    both are part of the state of the operations, and what an exception leaves behind is part of the model. Scratch spans are given by their
    sizes. *)
From S2P Require Import Prelude State Hash Aes Bignum Mt.

#[local] Open Scope Z_scope.

Definition req_pq_multi_constructor : Z := 0xbe7e8ef1.
Definition res_pq_constructor : Z := 0x05162463.
Definition p_q_inner_data_constructor : Z := 0x83c95aec.
Definition p_q_inner_data_dc_constructor : Z := 0xa9f55f95.
Definition req_dh_params_constructor : Z := 0xd712e4be.
Definition server_dh_params_fail_constructor : Z := 0x79cb045d.
Definition server_dh_params_ok_constructor : Z := 0xd0e8075c.
Definition server_dh_inner_data_constructor : Z := 0xb5890dba.
Definition client_dh_inner_data_constructor : Z := 0x6643b654.
Definition set_client_dh_params_constructor : Z := 0xf5045f1f.
Definition dh_gen_ok_constructor : Z := 0x3bcbf734.
Definition dh_gen_retry_constructor : Z := 0x46dc1fb9.
Definition dh_gen_fail_constructor : Z := 0xa69dae02.

Inductive phase := idle | awaiting_res_pq | awaiting_server_dh_params | awaiting_dh_gen | complete.

#[export] Instance phase_eq_dec : EqDecision phase.
Proof. solve_decision. Defined.

(** The factors are kept as the bytes in use, [p_bytes] and [q_bytes]. *)
Record exchange_state := MkExchange {
  current_phase : phase;
  nonce : bytes;
  server_nonce : bytes;
  new_nonce : bytes;
  p_bytes : bytes;
  q_bytes : bytes;
  temp_aes : aes_key_iv;
  exchange_key : auth_key;
  selected_public_key_fingerprint : Z;
  exchange_salt : Z;
  exchange_offset : Z;
  has_key : bool;
}.

Definition no_key : auth_key := MkKey (replicate 256 0) (replicate 8 0) (replicate 8 0).
Definition new_exchange : exchange_state :=
  MkExchange idle (replicate 16 0) (replicate 16 0) (replicate 32 0) [] [] (MkKeyIv (replicate 32 0) (replicate 32 0)) no_key 0 0 0 false.

Abbreviation exchanging := (prog (exchange_state * writer) fault).

Definition on_state (f : exchange_state → exchange_state) : exchanging unit := modify (λ sw, (f sw.1, sw.2)).

(** A write to the caller's writer. *)
Definition on_writer (m : writing unit) : exchanging unit := λ sw,
  match m sw.2 with
  | Some (r, w) => Some (r, (sw.1, w))
  | None => None
  end.

(** ** Integers *)

(** [while ((value >>= 8) != 0) size++] *)
Fixpoint be_size_loop (fuel : nat) (value : Z) (size : nat) : nat :=
  match fuel with
  | O => size
  | S fuel => let value := Z.shiftr value 8 in if value =? 0 then size else be_size_loop fuel value (S size)
  end.

(** Both overloads; the value has at most eight bytes. *)
Definition unsigned_be_size (value : Z) : nat := be_size_loop 8 value 1.

(** The bytes that both overloads of [write_unsigned_be] write. *)
Definition be_digits (value : Z) (size : nat) : bytes := (λ i, u8 (Z.shiftr value (Z.of_nat (size - 1 - i) * 8))) <$> seq 0 size.

(** The overload for 64 bits, into a span of [out] bytes. *)
Definition write_unsigned_be (out : nat) (value : Z) : result fault bytes :=
  let size := unsigned_be_size value in
  let! _ := demand (negb (out <? size)%nat) (protocol_error "unsigned integer output is too small") in
  Ret (be_digits value size).

Definition decode_unsigned_u64 (input : bytes) : result fault Z :=
  let! _ := demand (negb (bool_decide (input = []) || (8 <? length input)%nat)) (protocol_error "invalid uint64 bytes") in
  Ret (foldl (λ value b, Z.lor (u64 (Z.shiftl value 8)) b) 0 input).

Definition read_u64_le (input : bytes) : result fault Z :=
  let! _ := demand (length input =? 8)%nat (protocol_error "invalid little-endian uint64") in
  Ret (le_loop 0 input 0).

Definition public_key_fingerprint_size (modulus_size : nat) (exponent : Z) : nat := (bytes_size modulus_size + bytes_size (unsigned_be_size exponent))%nat.

Definition public_key_fingerprint (modulus : bytes) (exponent : Z) (scratch : nat) : result fault Z :=
  let exponent_span := be_digits exponent (unsigned_be_size exponent) in
  let needed := public_key_fingerprint_size (length modulus) exponent in
  let! _ := demand (negb (scratch <? needed)%nat) (protocol_error "public key fingerprint scratch is too small") in
  let! written := filled needed (_ <~ write_bytes modulus; write_bytes exponent_span) in
  read_u64_le (subspan 12 8 (Sha1.sha1 written)).

Definition make_public_key (modulus : bytes) (exponent : Z) (scratch : nat) : result fault public_key :=
  let! f := public_key_fingerprint modulus exponent scratch in
  Ret (MkPublic modulus exponent f).

(** *** Pollard's rho *)

(** The steps for one [c]: a factor, or [None] when the walk closed or the steps ran out. *)
Fixpoint rho_loop (steps : nat) (value c x y : Z) : option (Z * Z) :=
  match steps with
  | O => None
  | S steps =>
      let step v := (v * v + c) mod value in
      let x := step x in
      let y := step (step y) in
      let diff := if y <? x then x - y else y - x in
      let divisor := Z.gcd diff value in
      if divisor =? 1 then rho_loop steps value c x y
      else if divisor =? value then None
      else
        let other := value / divisor in
        Some (if other <? divisor then (other, divisor) else (divisor, other))
  end.

Fixpoint factor_loop (steps : nat) (value : Z) (cs : list Z) : result fault (Z * Z) :=
  match cs with
  | [] => Throw (protocol_error "factorization failed")
  | c :: cs => match rho_loop steps value c 2 2 with Some pq => Ret pq | None => factor_loop steps value cs end
  end.

Definition factor_pq (pq_bytes : bytes) : result fault (Z * Z) :=
  let! value := decode_unsigned_u64 pq_bytes in
  let! _ := demand (negb (value <=? 3)) (protocol_error "invalid pq") in
  if value mod 2 =? 0 then Ret (2, value / 2) else factor_loop (Z.to_nat 250000) value (seqZ 1 32).

(** ** Messages *)

Definition req_pq_multi_size : nat := (4 + 16)%nat.

Definition write_req_pq_multi (nonce : bytes) : writing unit :=
  _ <~ require (length nonce =? 16)%nat (protocol_error "invalid nonce");
  _ <~ write_int req_pq_multi_constructor;
  write_int128 nonce.

Record res_pq_view := MkResPq { rp_nonce : bytes; rp_server_nonce : bytes; rp_pq : bytes; rp_fingerprints : list Z }.

Fixpoint get_longs (n : nat) : reading (list Z) :=
  match n with
  | O => pret []
  | S n => x <~ u64_le; xs <~ get_longs n; pret (x :: xs)
  end.

(** With room for [storage] fingerprints. *)
Definition decode_res_pq (storage : nat) : reading res_pq_view :=
  constructor <~ u32_le;
  _ <~ require (constructor =? res_pq_constructor) (protocol_error "unexpected resPQ constructor");
  nonce <~ take_bytes 16;
  server_nonce <~ take_bytes 16;
  pq <~ tl_bytes;
  v <~ u32_le;
  _ <~ require (v =? vector_constructor) (protocol_error "expected vector constructor");
  count <~ i32_le;
  _ <~ require (negb (count <? 0)) (protocol_error "negative vector size");
  _ <~ require (negb (Z.of_nat storage <? count)) (protocol_error "fingerprint storage is too small");
  fingerprints <~ get_longs (Z.to_nat count);
  _ <~ at_end "trailing resPQ bytes";
  pret (MkResPq nonce server_nonce pq fingerprints).

Definition p_q_inner_data_size (pq p q : bytes) (with_dc_id : bool) : nat :=
  (4 + bytes_size (length pq) + bytes_size (length p) + bytes_size (length q) + 16 + 16 + 32 + (if with_dc_id then 4 else 0))%nat.

Definition write_p_q_inner_data (constructor : Z) (pq p q nonce server_nonce new_nonce : bytes) (dc_id : option Z) : writing unit :=
  _ <~ require ((constructor =? p_q_inner_data_constructor) || (constructor =? p_q_inner_data_dc_constructor)) (protocol_error "invalid p_q_inner_data constructor");
  _ <~ write_int constructor;
  _ <~ write_bytes pq;
  _ <~ write_bytes p;
  _ <~ write_bytes q;
  _ <~ write_int128 nonce;
  _ <~ write_int128 server_nonce;
  _ <~ write_int256 new_nonce;
  match dc_id with Some id => write_int id | None => pret tt end.

Definition write_req_dh_params (nonce server_nonce p q : bytes) (fingerprint : Z) (encrypted_data : bytes) : writing unit :=
  _ <~ write_int req_dh_params_constructor;
  _ <~ write_int128 nonce;
  _ <~ write_int128 server_nonce;
  _ <~ write_bytes p;
  _ <~ write_bytes q;
  _ <~ write_long fingerprint;
  write_bytes encrypted_data.

Record server_dh_inner := MkDhInner { di_nonce : bytes; di_server_nonce : bytes; di_g : Z; di_prime : bytes; di_g_a : bytes; di_time : Z }.

Definition decode_server_dh_inner_data : reading server_dh_inner :=
  constructor <~ u32_le;
  _ <~ require (constructor =? server_dh_inner_data_constructor) (protocol_error "unexpected server_DH_inner_data constructor");
  nonce <~ take_bytes 16;
  server_nonce <~ take_bytes 16;
  g <~ i32_le;
  dh_prime <~ tl_bytes;
  g_a <~ tl_bytes;
  server_time <~ i32_le;
  _ <~ at_end "trailing server_DH_inner_data";
  pret (MkDhInner nonce server_nonce g dh_prime g_a server_time).

Definition client_dh_inner_data_size (g_b : nat) : nat := (4 + 16 + 16 + 8 + bytes_size g_b)%nat.

Definition write_client_dh_inner_data (nonce server_nonce : bytes) (retry_id : Z) (g_b : bytes) : writing unit :=
  _ <~ write_int client_dh_inner_data_constructor;
  _ <~ write_int128 nonce;
  _ <~ write_int128 server_nonce;
  _ <~ write_long retry_id;
  write_bytes g_b.

Definition write_set_client_dh_params (nonce server_nonce encrypted_data : bytes) : writing unit :=
  _ <~ write_int set_client_dh_params_constructor;
  _ <~ write_int128 nonce;
  _ <~ write_int128 server_nonce;
  write_bytes encrypted_data.

Record dh_gen_response := MkDhGen { dg_constructor : Z; dg_nonce : bytes; dg_server_nonce : bytes; dg_hash : bytes; dg_number : Z }.

Definition decode_dh_gen_response : reading dh_gen_response :=
  constructor <~ u32_le;
  number <~ (if constructor =? dh_gen_ok_constructor then pret 1
             else if constructor =? dh_gen_retry_constructor then pret 2
             else if constructor =? dh_gen_fail_constructor then pret 3
             else pthrow (protocol_error "unexpected dh_gen constructor"));
  nonce <~ take_bytes 16;
  server_nonce <~ take_bytes 16;
  hash <~ take_bytes 16;
  _ <~ at_end "trailing dh_gen answer";
  pret (MkDhGen constructor nonce server_nonce hash number).

Definition server_dh_fail_hash (new_nonce : bytes) : bytes := subspan 4 16 (Sha1.sha1 new_nonce).

Fixpoint select_public_key (keys : list public_key) (fingerprints : list Z) : option public_key :=
  match fingerprints with
  | [] => None
  | f :: fingerprints =>
      match list_find (λ k, fingerprint k = f) keys with Some (_, k) => Some k | None => select_public_key keys fingerprints end
  end.

(** ** The exchange *)

Definition fresh_for (nonce : bytes) : exchange_state :=
  MkExchange awaiting_res_pq nonce (server_nonce new_exchange) (new_nonce new_exchange) [] [] (temp_aes new_exchange) no_key 0 0 0 false.

Definition begin (nonce : bytes) : exchanging unit :=
  _ <~ require (length nonce =? 16)%nat (protocol_error "invalid nonce");
  _ <~ on_state (λ _, fresh_for nonce);
  on_writer (write_req_pq_multi nonce).

Definition set_factors (p q sn nn : bytes) (s : exchange_state) : exchange_state :=
  MkExchange (current_phase s) (nonce s) sn nn p q (temp_aes s) (exchange_key s) (selected_public_key_fingerprint s) (exchange_salt s) (exchange_offset s) (has_key s).
Definition set_selected (ph : phase) (f : Z) (s : exchange_state) : exchange_state :=
  MkExchange ph (nonce s) (server_nonce s) (new_nonce s) (p_bytes s) (q_bytes s) (temp_aes s) (exchange_key s) f (exchange_salt s) (exchange_offset s) (has_key s).
Definition set_temp (k : aes_key_iv) (s : exchange_state) : exchange_state :=
  MkExchange (current_phase s) (nonce s) (server_nonce s) (new_nonce s) (p_bytes s) (q_bytes s) k (exchange_key s) (selected_public_key_fingerprint s) (exchange_salt s) (exchange_offset s) (has_key s).
Definition set_key (k : auth_key) (salt offset : Z) (s : exchange_state) : exchange_state :=
  MkExchange (current_phase s) (nonce s) (server_nonce s) (new_nonce s) (p_bytes s) (q_bytes s) (temp_aes s) k (selected_public_key_fingerprint s) salt offset true.
Definition set_phase (ph : phase) (s : exchange_state) : exchange_state :=
  MkExchange ph (nonce s) (server_nonce s) (new_nonce s) (p_bytes s) (q_bytes s) (temp_aes s) (exchange_key s) (selected_public_key_fingerprint s) (exchange_salt s) (exchange_offset s) (has_key s).

(** The sizes of the scratch spans. *)
Record storage := MkStorage { fingerprint_storage : nat; inner_storage : nat; encrypted_storage : nat; decrypted_storage : nat; g_b_storage : nat; auth_key_storage : nat; client_inner_storage : nat }.

(** [fuel] bounds the attempts of [rsa_encrypt_padded]. *)
Definition receive_res_pq (fuel : nat) (sizes : storage) (response : bytes) (public_keys : list public_key) (random_bytes : bytes) (dc_id : Z) (include_dc_id : bool) : exchanging unit :=
  s <~ gets fst;
  _ <~ require (bool_decide (current_phase s = awaiting_res_pq)) (protocol_error "unexpected auth phase");
  _ <~ require (negb (length random_bytes <? 32 + 224)%nat) (protocol_error "insufficient random bytes");
  decoded <~ lift (read_all (decode_res_pq (fingerprint_storage sizes)) response);
  _ <~ require (bool_decide (rp_nonce decoded = nonce s)) (protocol_error "nonce mismatch");
  match select_public_key public_keys (rp_fingerprints decoded) with
  | None => pthrow (protocol_error "unknown public key")
  | Some key =>
      pq <~ lift (factor_pq (rp_pq decoded));
      p <~ lift (write_unsigned_be 8 pq.1);
      q <~ lift (write_unsigned_be 8 pq.2);
      _ <~ on_state (set_factors p q (rp_server_nonce decoded) (take 32 random_bytes));
      s <~ gets fst;
      let inner_size := p_q_inner_data_size (rp_pq decoded) p q include_dc_id in
      _ <~ require (negb (inner_storage sizes <? inner_size)%nat) (protocol_error "p_q_inner_data storage is too small");
      inner <~ lift (filled inner_size
        (write_p_q_inner_data (if include_dc_id then p_q_inner_data_dc_constructor else p_q_inner_data_constructor) (rp_pq decoded) p q (nonce s) (server_nonce s) (new_nonce s)
           (if include_dc_id then Some dc_id else None)));
      _ <~ require (negb (encrypted_storage sizes <? 256)%nat) (protocol_error "encrypted data storage is too small");
      encrypted_data <~ lift (rsa_encrypt_padded fuel inner key (subspan 32 224 random_bytes) 256);
      _ <~ on_writer (write_req_dh_params (nonce s) (server_nonce s) p q (fingerprint key) encrypted_data);
      on_state (set_selected awaiting_server_dh_params (fingerprint key))
  end.

(** The start of an answer with the parameters of the group. *)
Definition read_dh_answer (s : exchange_state) : reading bytes :=
  constructor <~ u32_le;
  n <~ take_bytes 16;
  sn <~ take_bytes 16;
  _ <~ require (bool_decide (n = nonce s) && bool_decide (sn = server_nonce s)) (protocol_error "nonce mismatch");
  if constructor =? server_dh_params_fail_constructor then
    actual_hash <~ take_bytes 16;
    _ <~ at_end "trailing server_DH_params_fail";
    _ <~ require (bool_decide (actual_hash = server_dh_fail_hash (new_nonce s))) (protocol_error "new nonce hash mismatch");
    pthrow (protocol_error "server dh params fail")
  else
    _ <~ require (constructor =? server_dh_params_ok_constructor) (protocol_error "unexpected server dh params constructor");
    encrypted_answer <~ tl_bytes;
    _ <~ at_end "trailing server_DH_params_ok";
    pret encrypted_answer.

Definition receive_server_dh_params (sizes : storage) (body random_bytes : bytes) (now : Z) : exchanging unit :=
  s <~ gets fst;
  _ <~ require (bool_decide (current_phase s = awaiting_server_dh_params)) (protocol_error "unexpected auth phase");
  _ <~ require (negb (length random_bytes <? 256)%nat) (protocol_error "insufficient random bytes");
  _ <~ require (auth_key_storage sizes =? 256)%nat (protocol_error "auth key storage must be 256 bytes");
  encrypted_answer <~ lift (read_all (read_dh_answer s) body);
  _ <~ require (negb (decrypted_storage sizes <? length encrypted_answer)%nat) (protocol_error "decrypted server_DH_params storage is too small");
  key_iv <~ lift (temp_aes_key_iv (server_nonce s) (new_nonce s));
  _ <~ on_state (set_temp key_iv);
  decrypted <~ lift (decrypt_data_with_hash encrypted_answer key_iv (length encrypted_answer));
  inner <~ lift (read_all decode_server_dh_inner_data decrypted);
  _ <~ require (bool_decide (di_nonce inner = nonce s) && bool_decide (di_server_nonce inner = server_nonce s)) (protocol_error "nonce mismatch");
  _ <~ require (negb (g_b_storage sizes <? length (di_prime inner))%nat) (protocol_error "g_b storage is too small");
  g_bytes <~ lift (write_unsigned_be 8 (u64 (di_g inner)));
  let b := take 256 random_bytes in
  g_b <~ lift (modular_exponentiate g_bytes b (di_prime inner) (length (di_prime inner)));
  secret <~ lift (modular_exponentiate (di_g_a inner) b (di_prime inner) (auth_key_storage sizes));
  key <~ lift (make_auth_key secret);
  salt <~ lift (Mt.server_salt (new_nonce s) (server_nonce s));
  _ <~ on_state (set_key key salt (di_time inner - now));
  let client_inner_size := client_dh_inner_data_size (length g_b) in
  _ <~ require (negb (client_inner_storage sizes <? client_inner_size)%nat) (protocol_error "client_DH_inner_data storage is too small");
  client_inner <~ lift (filled client_inner_size (write_client_dh_inner_data (nonce s) (server_nonce s) 0 g_b));
  let encrypted_size := encrypted_data_with_hash_size (length client_inner) in
  _ <~ require (negb (encrypted_storage sizes <? encrypted_size)%nat) (protocol_error "client encrypted data storage is too small");
  encrypted <~ lift (encrypt_data_with_hash client_inner key_iv (drop 256 random_bytes) encrypted_size);
  _ <~ on_writer (write_set_client_dh_params (nonce s) (server_nonce s) encrypted);
  on_state (set_phase awaiting_dh_gen).

Definition receive_dh_gen (body : bytes) : exchanging unit :=
  s <~ gets fst;
  _ <~ require (bool_decide (current_phase s = awaiting_dh_gen) && has_key s) (protocol_error "unexpected auth phase");
  response <~ lift (read_all decode_dh_gen_response body);
  _ <~ require (bool_decide (dg_nonce response = nonce s) && bool_decide (dg_server_nonce response = server_nonce s)) (protocol_error "nonce mismatch");
  hash <~ lift (calc_new_nonce_hash (exchange_key s) (new_nonce s) (dg_number response));
  _ <~ require (bool_decide (dg_hash response = hash)) (protocol_error "new nonce hash mismatch");
  _ <~ require (negb (dg_constructor response =? dh_gen_retry_constructor)) (protocol_error "dh_gen_retry");
  _ <~ require (negb (dg_constructor response =? dh_gen_fail_constructor)) (protocol_error "dh_gen_fail");
  on_state (set_phase complete).
