(* ===== verification/Agreement.v ===== *)
(** * Both sides of the MTProto key exchange agree

    The server's side of the exchange that [Exchange] models the client's side of, as the protocol describes it, and the theorem that the two
    end with the same key and the same salt. *)
From S2P Require Import Prelude State Hash Aes Bignum Mt Exchange.

#[local] Open Scope Z_scope.

(** ** TL values *)

(** The bytes of a TL byte string. *)
Definition tl_of (v : bytes) : bytes :=
  if (length v <? 254)%nat then [Z.of_nat (length v)] ++ v ++ replicate (tl_padding_size (1 + length v)) 0
  else [254] ++ le_bytes (Z.of_nat (length v)) 3 ++ v ++ replicate (tl_padding_size (4 + length v)) 0.

Lemma tl_of_length v : length (tl_of v) = bytes_size (length v).
Proof. unfold tl_of, bytes_size. destruct (length v <? 254)%nat; rewrite !length_app, ?le_bytes_length, length_replicate; cbn [length]; lia. Qed.

Lemma bytes_size_bound n : (bytes_size n ≤ n + 7)%nat.
Proof. unfold bytes_size, tl_padding_size. pose proof (Nat.mod_upper_bound (4 - ((if (n <? 254)%nat then 1 else 4) + n) mod 4) 4). destruct (n <? 254)%nat; lia. Qed.

Lemma tl_of_bytes v : Forall is_byte v → Forall is_byte (tl_of v).
Proof.
  intros Hv. assert (∀ n, Forall is_byte (replicate n 0)) as Hz by (intros n; apply Forall_replicate; done). unfold tl_of. destruct (Nat.ltb_spec (length v) 254); repeat (apply Forall_app; split); auto using le_bytes_bytes.
  all: apply Forall_singleton; unfold is_byte; lia.
Qed.

Lemma puts_write_bytes v : Z.of_nat (length v) ≤ 0xffffff → puts (write_bytes v) (tl_of v).
Proof.
  intros Hl. unfold write_bytes, tl_of. destruct (Nat.ltb_spec (length v) 254).
  - rewrite wrap_small by lia. repeat (apply puts_bind; [apply puts_put|]). apply puts_put.
  - apply puts_require; [by rewrite (proj2 (Z.ltb_ge _ _))|]. apply puts_bind; [apply puts_put|]. apply puts_bind; [apply puts_le; lia|]. apply puts_bind; [apply puts_put|]. apply puts_put.
Qed.

Lemma gets_tl v : Z.of_nat (length v) ≤ 0xffffff → gets_from tl_bytes (tl_of v) v.
Proof.
  intros Hl. unfold tl_bytes, tl_of.
  assert (∀ b, gets_from get_u8 [b] b) as Hu by (intros b; unfold get_u8; rewrite <- (app_nil_r [b]); eapply gets_bind; [by apply gets_take|apply gets_ret]).
  destruct (Nat.ltb_spec (length v) 254) as [Hs|Hs]; (eapply gets_bind; [apply Hu|]).
  - rewrite (proj2 (Z.eqb_neq _ _)) by lia. rewrite <- (app_nil_l (v ++ _)). eapply gets_bind; [apply gets_ret|]. rewrite Nat2Z.id. eapply gets_bind; [by apply gets_take|].
    rewrite <- (app_nil_r (replicate _ _)). eapply gets_bind; [apply gets_take; by rewrite length_replicate|apply gets_ret].
  - rewrite Z.eqb_refl. eapply gets_bind; [apply gets_le; [lia|change (2 ^ (8 * Z.of_nat 3)) with 16777216; lia]|]. rewrite Nat2Z.id. eapply gets_bind; [by apply gets_take|].
    rewrite <- (app_nil_r (replicate _ _)). eapply gets_bind; [apply gets_take; by rewrite length_replicate|apply gets_ret].
Qed.

Lemma puts_write_int x : puts (write_int x) (le_bytes (u32 x) 4).
Proof. apply puts_le. lia. Qed.

Lemma puts_write_long x : puts (write_long x) (le_bytes x 8).
Proof. apply puts_le. lia. Qed.

Lemma puts_int128 v : length v = 16%nat → puts (write_int128 v) v.
Proof. intros Hl. apply puts_require; [by rewrite Hl|apply puts_put]. Qed.

Lemma puts_int256 v : length v = 32%nat → puts (write_int256 v) v.
Proof. intros Hl. apply puts_require; [by rewrite Hl|apply puts_put]. Qed.

(** ** Big-endian integers *)

Lemma be_digits_bytes n : ∀ v, 0 ≤ v → be_digits v n = be_bytes n v.
Proof.
  induction n as [|n IH]; intros v Hv; [done|]. unfold be_digits. rewrite seq_S, fmap_app. cbn [be_bytes list_fmap fmap]. rewrite <- (IH (v / 256)) by (apply Z.div_pos; lia). f_equal.
  - unfold be_digits. apply list_fmap_ext. intros i x Hx. apply lookup_seq in Hx as [-> Hx]. cbn [Nat.add]. f_equal. change 256 with (2 ^ 8). rewrite <- (Z.shiftr_div_pow2 v) by lia. rewrite Z.shiftr_shiftr by lia. f_equal. lia.
  - cbn. by rewrite Nat.sub_0_r, Nat.sub_diag, Z.shiftr_0_r.
Qed.

Lemma be_size_spec fuel : ∀ n v size, (n ≤ fuel)%nat → 0 ≤ v < 2 ^ (8 * Z.of_nat (S n)) → let r := be_size_loop fuel v size in
  (size ≤ r ≤ size + n)%nat ∧ v < 2 ^ (8 * Z.of_nat (r - size + 1)).
Proof.
  induction fuel as [|fuel IH]; intros n v size Hn Hv; cbn [be_size_loop].
  { assert (n = 0)%nat as -> by lia. split; [lia|]. rewrite Nat.sub_diag. apply Hv. }
  rewrite Z.shiftr_div_pow2 by lia. change (2 ^ 8) with 256. destruct (Z.eqb_spec (v / 256) 0) as [E|E].
  { split; [lia|]. rewrite Nat.sub_diag. change (2 ^ (8 * Z.of_nat (0 + 1))) with 256. pose proof (proj1 (Z.div_small_iff v 256 ltac:(lia)) E). lia. }
  destruct n as [|n]. { exfalso. apply E, Z.div_small. exact Hv. }
  assert (0 ≤ v / 256 < 2 ^ (8 * Z.of_nat (S n))) as Hq. { rewrite (Nat2Z.inj_succ (S n)), Z.mul_succ_r, Z.pow_add_r in Hv by lia. change (2 ^ 8) with 256 in Hv. split; [apply Z.div_pos; lia|apply Z.div_lt_upper_bound; lia]. }
  destruct (IH n (v / 256) (S size) ltac:(lia) Hq) as [Hr Hb]. set (r := be_size_loop fuel (v / 256) (S size)) in *. split; [lia|]. replace (r - size + 1)%nat with (S (r - S size + 1)) by lia.
  rewrite Nat2Z.inj_succ, Z.mul_succ_r, Z.pow_add_r by lia. change (2 ^ 8) with 256. pose proof (Z.div_mod v 256). pose proof (Z.mod_pos_bound v 256). lia.
Qed.

(** The bytes of an integer, without leading zeros. *)
Definition digits (v : Z) : bytes := be_digits v (unsigned_be_size v).

Lemma write_unsigned_be_ok v : 0 ≤ v < 2 ^ 64 → write_unsigned_be 8 v = Ret (digits v) ∧ be_value (digits v) = v ∧ Forall is_byte (digits v) ∧ (length (digits v) ≤ 8)%nat.
Proof.
  intros Hv. destruct (be_size_spec 8 7 v 1 ltac:(lia) Hv) as [Hr Hb]. unfold write_unsigned_be, unsigned_be_size. set (r := be_size_loop 8 v 1) in *. rewrite (proj2 (Nat.ltb_ge _ _)) by lia. cbn [negb demand bind].
  split; [done|]. unfold digits, unsigned_be_size. fold r. rewrite be_digits_bytes by lia. rewrite be_bytes_size. split_and!; [|apply be_bytes_are_bytes|lia]. apply value_of_be_bytes. replace (r - 1 + 1)%nat with r in Hb by lia. lia.
Qed.

Lemma decode_u64_value bs : Forall is_byte bs → (length bs ≤ 8)%nat → ∀ v, decode_unsigned_u64 bs = Ret v → v = be_value bs.
Proof.
  intros Hb Hl v. unfold decode_unsigned_u64. destruct (demand _ _) eqn:E; [|done]. cbn [bind]. intros [= <-]. clear E.
  assert (∀ k acc, (k + length bs ≤ 8)%nat → 0 ≤ acc < 2 ^ (8 * Z.of_nat k) → foldl (λ value b, Z.lor (u64 (Z.shiftl value 8)) b) acc bs = acc * 2 ^ (8 * Z.of_nat (length bs)) + be_value bs) as H.
  { clear Hl. induction Hb as [|b bs Hb _ IH]; intros k acc Hk Ha; [cbn; lia|]. cbn [foldl be_value length] in *. unfold is_byte in Hb.
    assert (acc * 2 ^ 8 + 255 < 2 ^ (8 * Z.of_nat (S k))) as Hs. { rewrite Nat2Z.inj_succ, Z.mul_succ_r, Z.pow_add_r by lia. change (2 ^ 8) with 256. lia. }
    assert (2 ^ (8 * Z.of_nat (S k)) ≤ 2 ^ 64) as H64 by (apply Z.pow_le_mono_r; lia).
    rewrite wrap_small by (rewrite Z.shiftl_mul_pow2; lia). rewrite lor_shiftl_add by lia. rewrite (IH (S k)) by lia. rewrite Nat2Z.inj_succ, Z.mul_succ_r, Z.pow_add_r by lia. lia. }
  rewrite (H 0%nat) by (done || lia). lia.
Qed.

(** The factors that the client finds. *)
Lemma rho_factors steps : ∀ value c x y p q, 3 < value → rho_loop steps value c x y = Some (p, q) → 1 < p ≤ q ∧ p * q = value.
Proof.
  induction steps as [|steps IH]; intros value c x y p q Hv; [done|]. cbn [rho_loop]. cbv zeta. set (diff := if _ <? _ then _ else _). set (d := Z.gcd diff value).
  destruct (Z.eqb_spec d 1) as [|H1]; [by apply IH|]. destruct (Z.eqb_spec d value) as [|Hn]; [done|]. intros E. apply (inj Some) in E.
  assert (0 ≤ d) as H0 by apply Z.gcd_nonneg. destruct (Z.gcd_divide_r diff value) as [k Hk]. fold d in Hk. assert (d ≠ 0) by (intros Ed; rewrite Ed in Hk; lia).
  assert (value / d = k) as Ek by (rewrite Hk; by apply Z.div_mul). rewrite Ek in E. assert (0 < k) by nia. assert (k ≠ 1) by (intros ->; lia). destruct (Z.ltb_spec k d); simplify_eq; nia.
Qed.

Lemma factor_loop_factors steps value cs pq : 3 < value → factor_loop steps value cs = Ret pq → 1 < pq.1 ≤ pq.2 ∧ pq.1 * pq.2 = value.
Proof. intros Hv. induction cs as [|c cs IH]; [done|]. cbn [factor_loop]. destruct (rho_loop steps value c 2 2) as [[p q]|] eqn:E; [|done]. intros [= <-]. by eapply rho_factors. Qed.

Lemma factor_pq_factors bs p q : Forall is_byte bs → factor_pq bs = Ret (p, q) → 1 < p ≤ q ∧ p * q = be_value bs ∧ be_value bs < 2 ^ 64.
Proof.
  intros Hb. unfold factor_pq. destruct (decode_unsigned_u64 bs) as [v|] eqn:E; [|done]. cbn [bind].
  assert (length bs ≤ 8)%nat as Hl. { unfold decode_unsigned_u64 in E. destruct (Nat.ltb_spec 8 (length bs)); [|done]. by rewrite orb_true_r in E. }
  pose proof (decode_u64_value bs Hb Hl v E) as ->. pose proof (be_value_range bs Hb) as Hr. assert (2 ^ (8 * Z.of_nat (length bs)) ≤ 2 ^ 64) by (apply Z.pow_le_mono_r; lia).
  destruct (Z.leb_spec (be_value bs) 3) as [|H3]; [done|]. cbn [negb demand bind]. destruct (Z.eqb_spec (be_value bs mod 2) 0) as [E2|E2]; intros Hf.
  - injection Hf as <- <-. pose proof (Z.div_mod (be_value bs) 2). lia.
  - apply factor_loop_factors in Hf; [|done]. cbn [fst snd] in Hf. lia.
Qed.

Lemma trim_value bs : be_value (trim_unsigned_be bs) = be_value bs.
Proof. induction bs as [|b bs IH]; [done|]. cbn [trim_unsigned_be]. destruct (Z.eqb_spec b 0) as [->|]; [|done]. rewrite IH. cbn [be_value]. lia. Qed.

Lemma trim_bytes bs : Forall is_byte bs → Forall is_byte (trim_unsigned_be bs).
Proof. induction 1 as [|b bs Hb Hbs IH]; [constructor|]. cbn [trim_unsigned_be]. destruct (b =? 0); [done|]. by constructor. Qed.

Lemma trim_large bs : Forall is_byte bs → trim_unsigned_be bs ≠ [] → 2 ^ (8 * (Z.of_nat (length (trim_unsigned_be bs)) - 1)) ≤ be_value (trim_unsigned_be bs).
Proof.
  induction 1 as [|b bs Hb Hbs IH]; [done|]. cbn [trim_unsigned_be]. destruct (Z.eqb_spec b 0) as [->|Hne]; [done|]. intros _. cbn [length be_value]. pose proof (be_value_range bs Hbs). unfold is_byte in Hb.
  replace (8 * (Z.of_nat (S (length bs)) - 1)) with (8 * Z.of_nat (length bs)) by lia. nia.
Qed.

Lemma lexicographic_value lhs : Forall is_byte lhs → ∀ rhs, Forall is_byte rhs → length lhs = length rhs → lexicographic lhs rhs = (be_value lhs <? be_value rhs).
Proof.
  induction 1 as [|a lhs Ha Hl IH]; intros [|b rhs] Hr Hlen; try done. apply Forall_cons in Hr as [Hb Hr]. cbn [lexicographic be_value length] in *. injection Hlen as Hlen. rewrite Hlen.
  pose proof (be_value_range lhs Hl) as R1. pose proof (be_value_range rhs Hr) as R2. rewrite Hlen in R1. destruct (Z.ltb_spec a b); [symmetry; apply Z.ltb_lt; nia|]. destruct (Z.ltb_spec b a); [symmetry; apply Z.ltb_ge; nia|].
  assert (a = b) as -> by lia. rewrite IH by done. destruct (Z.ltb_spec (be_value lhs) (be_value rhs)); symmetry; [apply Z.ltb_lt|apply Z.ltb_ge]; lia.
Qed.

Lemma shorter_less a b : Forall is_byte a → Forall is_byte b → (length (trim_unsigned_be a) < length (trim_unsigned_be b))%nat → be_value a < be_value b.
Proof.
  intros Ha Hb Hl. rewrite <- (trim_value a), <- (trim_value b). assert (trim_unsigned_be b ≠ []) as Hne by (intros E; rewrite E in Hl; cbn in Hl; lia). pose proof (trim_large b Hb Hne).
  pose proof (be_value_range _ (trim_bytes a Ha)) as [_ R]. assert (2 ^ (8 * Z.of_nat (length (trim_unsigned_be a))) ≤ 2 ^ (8 * (Z.of_nat (length (trim_unsigned_be b)) - 1))) by (apply Z.pow_le_mono_r; lia). lia.
Qed.

(** The comparison of byte strings is the comparison of the integers. *)
Lemma unsigned_be_less_value a b : Forall is_byte a → Forall is_byte b → unsigned_be_less a b = (be_value a <? be_value b).
Proof.
  intros Ha Hb. unfold unsigned_be_less. destruct (Nat.eqb_spec (length (trim_unsigned_be a)) (length (trim_unsigned_be b))) as [E|E]; cbn [negb].
  - rewrite lexicographic_value by auto using trim_bytes. by rewrite !trim_value.
  - destruct (Nat.ltb_spec (length (trim_unsigned_be a)) (length (trim_unsigned_be b))); symmetry; [apply Z.ltb_lt; by apply shorter_less|]. apply Z.ltb_ge, Z.lt_le_incl. apply shorter_less; [done..|lia].
Qed.

(** ** Encrypted data with its digest *)

Lemma sha1_of_length pieces : length (sha1_of pieces) = 20%nat.
Proof. unfold sha1_of, Sha1.finalize. rewrite HashFacts.store_words_length. unfold Block.finalize. by destruct (_ <? 56)%nat. Qed.

Lemma sha1_of_bytes pieces : Forall is_byte (sha1_of pieces).
Proof. apply HashFacts.store_words_bytes. Qed.

Lemma sha1_length m : length (Sha1.sha1 m) = 20%nat.
Proof. apply (sha1_of_length [m]). Qed.

Lemma sha1_bytes m : Forall is_byte (Sha1.sha1 m).
Proof. apply (sha1_of_bytes [m]). Qed.

(** No longer prefix of the padded data has the digest of the data. *)
Definition sole (data pad : bytes) : Prop := ∀ n, (0 < n ≤ length pad)%nat → Sha1.sha1 (data ++ take n pad) ≠ Sha1.sha1 data.

Lemma strip_padding_sole data pad : sole data pad → ∀ j k n, (k + j = length pad)%nat → (j < n)%nat → strip_padding n (Sha1.sha1 data) (data ++ pad) k = Ret data.
Proof.
  intros Hs. induction j as [|j IH]; intros k [|n] Hk Hn; try lia; cbn [strip_padding]; rewrite length_app, (proj2 (Nat.ltb_ge _ _)) by lia; cbv zeta.
  - rewrite take_app_length' by lia. by rewrite bool_decide_true.
  - replace (length data + length pad - k)%nat with (length data + S j)%nat by lia. rewrite take_app_add. rewrite bool_decide_false; [apply IH; lia|]. intros E. symmetry in E. revert E. apply Hs. lia.
Qed.

(** The padding of [n] bytes of data and their digest. *)
Definition hash_padding (n : nat) : nat := ((16 - (20 + n) mod 16) mod 16)%nat.

Lemma with_hash_size n : encrypted_data_with_hash_size n = (20 + n + hash_padding n)%nat.
Proof. done. Qed.

Lemma hash_padding_bound n : (hash_padding n < 16)%nat.
Proof. apply Nat.mod_upper_bound. lia. Qed.

Lemma with_hash_aligned n : (encrypted_data_with_hash_size n mod 16 = 0)%nat.
Proof.
  unfold encrypted_data_with_hash_size. set (x := (20 + n)%nat). pose proof (Nat.mod_upper_bound x 16). pose proof (Nat.div_mod x 16). destruct (Nat.eq_dec (x mod 16)%nat 0%nat) as [E|E].
  - rewrite E. change ((16 - 0) mod 16)%nat with 0%nat. by rewrite Nat.add_0_r.
  - rewrite (Nat.mod_small (16 - x mod 16)) by lia. replace (x + (16 - x mod 16))%nat with ((x / 16 + 1) * 16)%nat by lia. apply Nat.Div0.mod_mul.
Qed.

Lemma data_with_hash_inverse data k pad : key_iv_ok k → Forall is_byte data → Forall is_byte pad → (hash_padding (length data) ≤ length pad)%nat → ∃ c,
  encrypt_data_with_hash data k pad (encrypted_data_with_hash_size (length data)) = Ret c ∧ length c = encrypted_data_with_hash_size (length data) ∧ Forall is_byte c ∧
  aes_ige_decrypt c k (length c) = Ret (Sha1.sha1 data ++ data ++ take (hash_padding (length data)) pad) ∧
  (sole data (take (hash_padding (length data)) pad) → decrypt_data_with_hash c k (length c) = Ret data).
Proof.
  intros Hk Hd Hp Hl. pose proof (with_hash_size (length data)) as Hsize. pose proof (with_hash_aligned (length data)) as Hal. unfold encrypt_data_with_hash. rewrite Nat.eqb_refl. cbn [demand bind].
  set (size := encrypted_data_with_hash_size (length data)) in *. set (h := hash_padding (length data)) in *. replace (size - 20 - length data)%nat with h by lia. rewrite (proj2 (Nat.ltb_ge _ _)) by lia. cbn [negb demand bind].
  set (plain := Sha1.sha1 data ++ data ++ take h pad). assert (length plain = size) as Hpl by (unfold plain; rewrite !length_app, sha1_length, length_take; lia).
  destruct (aes_ige_inverse k plain Hk) as (c & Ec & Hcl & Hcb & Ed). { unfold plain. repeat (apply Forall_app; split); auto using sha1_bytes, Forall_take. } { by rewrite Hpl. }
  rewrite Hpl in *. exists c. rewrite Hcl. split_and!; [done..|]. intros Hs. unfold decrypt_data_with_hash. rewrite Hcl, Hal, Nat.eqb_refl. rewrite bool_decide_false by (intros ->; cbn in Hcl; lia).
  rewrite (proj2 (Nat.ltb_ge _ _)) by lia. rewrite (Nat.eqb_refl size). cbn [negb orb demand bind Nat.eqb]. rewrite Ed. cbn [bind]. unfold plain. rewrite take_app_length', drop_app_length' by (by rewrite sha1_length).
  apply (strip_padding_sole _ _ Hs (length (take h pad))); [lia|]. rewrite length_take. pose proof (hash_padding_bound (length data)). fold h in H. lia.
Qed.

Lemma temp_key_ok sn nn : length sn = 16%nat → length nn = 32%nat → Forall is_byte nn → ∃ k, temp_aes_key_iv sn nn = Ret k ∧ key_iv_ok k.
Proof.
  intros H1 H2 Hb. unfold temp_aes_key_iv. rewrite H1, H2. cbn [demand bind negb orb Nat.eqb]. eexists. split; [done|].
  split; (split; [cbn [aes_key aes_iv]; unfold subspan; rewrite !length_app, ?length_take, ?length_drop, !sha1_of_length; lia|]); cbn [aes_key aes_iv]; unfold subspan; repeat (apply Forall_app; split); auto using Forall_take, Forall_drop, sha1_of_bytes.
Qed.

(** ** RSA *)

(** What the owner of the private key finds in a block. *)
Definition rsa_open (block : bytes) : result fault bytes :=
  let aes_encrypted := drop 32 block in
  let temp_key := xor_bytes (take 32 block) (Sha256.sha256 aes_encrypted) in
  let! data_with_hash := aes_ige_decrypt aes_encrypted (MkKeyIv temp_key (replicate 32 0)) 224 in
  let data_with_padding := rev (take 192 data_with_hash) in
  let! _ := demand (bool_decide (drop 192 data_with_hash = sha256_of [temp_key; data_with_padding])) (protocol_error "data hash mismatch") in
  Ret data_with_padding.

Lemma rsa_block_open tk dwp : length tk = 32%nat → Forall is_byte tk → length dwp = 192%nat → Forall is_byte dwp → ∃ block,
  rsa_block tk dwp = Ret block ∧ length block = 256%nat ∧ Forall is_byte block ∧ rsa_open block = Ret dwp.
Proof.
  intros Htl Htb Hdl Hdb. unfold rsa_block. set (dwh := rev dwp ++ sha256_of [tk; dwp]). assert (length dwh = 224%nat) as Hl by (unfold dwh; rewrite length_app, length_rev, sha256_of_length; lia).
  destruct (aes_ige_inverse (MkKeyIv tk (replicate 32 0)) dwh) as (c & Ec & Hcl & Hcb & Ed).
  { split; (split; [done|]); [done|]. by apply Forall_replicate. } { unfold dwh. apply Forall_app. split; [by apply Forall_rev|apply sha256_of_bytes]. } { by rewrite Hl. }
  rewrite Hl in *. rewrite Ec. cbn [bind]. fold (xor_bytes tk (Sha256.sha256 c)). set (x := xor_bytes tk (Sha256.sha256 c)). assert (length x = 32%nat) as Hx by (unfold x; rewrite xor_bytes_length, HashFacts.sha256_length; lia). assert (Forall is_byte (Sha256.sha256 c)) as Hsb by (unfold Sha256.sha256, Sha256.finalize; apply HashFacts.store_words_bytes).
  eexists. split; [done|]. split; [rewrite length_app; lia|]. split; [apply Forall_app; split; [by apply xor_bytes_byte|done]|].
  unfold rsa_open. rewrite drop_app_length', take_app_length' by done. unfold x. rewrite xor_bytes_cancel by (rewrite HashFacts.sha256_length; lia). rewrite Ed. cbn [bind]. unfold dwh. rewrite take_app_length', drop_app_length' by (by rewrite length_rev).
  rewrite rev_involutive. by rewrite bool_decide_true.
Qed.

Lemma increment_ok tk : Forall is_byte tk → Forall is_byte (increment_be tk) ∧ length (increment_be tk) = length tk.
Proof.
  intros Hb. unfold increment_be. assert (∀ l, Forall is_byte l → Forall is_byte (increment_loop l) ∧ length (increment_loop l) = length l) as H.
  { clear. induction 1 as [|b l Hb Hl [IH1 IH2]]; [done|]. cbn [increment_loop]. cbv zeta. assert (is_byte (u8 (b + 1))) by (apply (wrap_range 8); lia). destruct (negb _); cbn [length]; split; [by constructor|done|by constructor|by rewrite IH2]. }
  destruct (H (rev tk)) as [H1 H2]; [by apply Forall_rev|]. split; [by apply Forall_rev|]. by rewrite length_rev, H2, length_rev.
Qed.

(** A block below the modulus is found within [fuel] attempts. *)
Definition fits (fuel : nat) (key : public_key) (temp_key data_with_padding : bytes) : Prop := ∃ i block, (i < fuel)%nat ∧
  rsa_block (Nat.iter i increment_be temp_key) data_with_padding = Ret block ∧ unsigned_be_less block (modulus key) = true.

(** A public key that the cryptography supports. *)
Record public_ok (key : public_key) : Prop := {
  pu_modulus : length (modulus key) = 256%nat ∧ Forall is_byte (modulus key);
  pu_exponent : 3 ≤ exponent key ∧ Z.odd (exponent key) = true;
  pu_fingerprint : 0 ≤ fingerprint key < 2 ^ 64;
}.

Lemma rsa_loop_ok key dwp : public_ok key → length dwp = 192%nat → Forall is_byte dwp → ∀ fuel tk, length tk = 32%nat → Forall is_byte tk → 1 < be_value (modulus key) → fits fuel key tk dwp → ∃ block c,
  rsa_loop fuel key tk dwp = Ret c ∧ rsa_raw_public_encrypt (modulus key) (exponent key) block 256 = Ret c ∧ rsa_open block = Ret dwp ∧ length c = 256%nat ∧ Forall is_byte c.
Proof.
  intros [[Hml Hmb] [He Hodd] _] Hl Hb. induction fuel as [|fuel IH]; intros tk Htl Htb H1 (i & blk & Hi & Eb & Hless); [lia|]. cbn [rsa_loop].
  destruct (rsa_block_open tk dwp Htl Htb Hl Hb) as (block & E & Hbl & Hbb & Ho). rewrite E. cbn [bind]. destruct (unsigned_be_less block (modulus key)) eqn:El.
  - rewrite unsigned_be_less_value in El by done. apply Z.ltb_lt in El. pose proof (rsa_raw_ok (modulus key) (exponent key) block Hmb Hbb ltac:(lia) El H1 He Hodd) as Er. rewrite Hml in Er.
    exists block. eexists. split_and!; [exact Er|exact Er|done|apply be_bytes_size|apply be_bytes_are_bytes].
  - destruct i as [|i]; [cbn in Eb; congruence|]. destruct (increment_ok tk Htb) as [Hib Hil]. apply IH; [by rewrite Hil|done|done|]. exists i, blk. split; [lia|]. by rewrite <- Nat.iter_succ_r.
Qed.

(** ** The server *)

Record server_side := MkServer { dh_g : Z; dh_prime : bytes; dh_secret : Z; clock : Z; own_nonce : bytes }.

Record honest (srv : server_side) : Prop := {
  ho_prime : 1 < be_value (dh_prime srv) ∧ Forall is_byte (dh_prime srv) ∧ (length (dh_prime srv) ≤ 256)%nat;
  ho_g : 0 ≤ dh_g srv < 2 ^ 31;
  ho_secret : 0 ≤ dh_secret srv;
  ho_clock : is_i32 (clock srv);
  ho_nonce : length (own_nonce srv) = 16%nat ∧ Forall is_byte (own_nonce srv);
}.

Definition res_pq_message (srv : server_side) (n pq : bytes) (fingerprints : list Z) : bytes :=
  le_bytes res_pq_constructor 4 ++ n ++ own_nonce srv ++ tl_of pq ++ le_bytes vector_constructor 4 ++ le_bytes (u32 (Z.of_nat (length fingerprints))) 4 ++ concat ((λ f, le_bytes f 8) <$> fingerprints).

Record dh_request := MkDhRequest { rq_nonce : bytes; rq_server_nonce : bytes; rq_p : bytes; rq_q : bytes; rq_fingerprint : Z; rq_data : bytes }.

Definition read_req_dh_params : reading dh_request :=
  constructor <~ u32_le;
  _ <~ require (constructor =? req_dh_params_constructor) (protocol_error "unexpected request");
  n <~ take_bytes 16;
  sn <~ take_bytes 16;
  p <~ tl_bytes;
  q <~ tl_bytes;
  f <~ u64_le;
  data <~ tl_bytes;
  _ <~ at_end "trailing req_DH_params bytes";
  pret (MkDhRequest n sn p q f data).

Record pq_inner := MkPqInner { pi_pq : bytes; pi_p : bytes; pi_q : bytes; pi_nonce : bytes; pi_server_nonce : bytes; pi_new_nonce : bytes }.

(** Random padding follows the data. *)
Definition read_p_q_inner_data : reading pq_inner :=
  constructor <~ u32_le;
  _ <~ require ((constructor =? p_q_inner_data_constructor) || (constructor =? p_q_inner_data_dc_constructor)) (protocol_error "unexpected p_q_inner_data constructor");
  pq <~ tl_bytes;
  p <~ tl_bytes;
  q <~ tl_bytes;
  n <~ take_bytes 16;
  sn <~ take_bytes 16;
  nn <~ take_bytes 32;
  pret (MkPqInner pq p q n sn nn).

Definition g_a (srv : server_side) : bytes := be_bytes (length (dh_prime srv)) (dh_g srv ^ dh_secret srv mod be_value (dh_prime srv)).

Definition server_inner (srv : server_side) (n : bytes) : bytes :=
  le_bytes server_dh_inner_data_constructor 4 ++ n ++ own_nonce srv ++ le_bytes (u32 (dh_g srv)) 4 ++ tl_of (dh_prime srv) ++ tl_of (g_a srv) ++ le_bytes (u32 (clock srv)) 4.

(** The answer to a request with the factors of [pq]: the new nonce of the client and the message with the parameters of the group. [block] is what the private
    key makes of the encrypted data: the server checks that the public key encrypts it to that data. *)
Definition server_params (srv : server_side) (key : public_key) (n pq block padding req : bytes) : result fault (bytes * bytes) :=
  let! r := read_all read_req_dh_params req in
  let! _ := demand (bool_decide (rq_nonce r = n) && bool_decide (rq_server_nonce r = own_nonce srv) && (rq_fingerprint r =? fingerprint key)) (protocol_error "nonce mismatch") in
  let! c := rsa_raw_public_encrypt (modulus key) (exponent key) block 256 in
  let! _ := demand (bool_decide (rq_data r = c)) (protocol_error "not the block of the request") in
  let! data := rsa_open block in
  let! i := read_all read_p_q_inner_data data in
  let! _ := demand (bool_decide (pi_nonce i = n) && bool_decide (pi_server_nonce i = own_nonce srv) && bool_decide (pi_pq i = pq) && bool_decide (pi_p i = rq_p r) && bool_decide (pi_q i = rq_q r))
              (protocol_error "data mismatch") in
  let p := be_value (rq_p r) in
  let q := be_value (rq_q r) in
  let! _ := demand ((1 <? p) && (p <=? q) && (p * q =? be_value pq)) (protocol_error "wrong factors") in
  let! k := temp_aes_key_iv (own_nonce srv) (pi_new_nonce i) in
  let inner := server_inner srv n in
  let! c := encrypt_data_with_hash inner k padding (encrypted_data_with_hash_size (length inner)) in
  Ret (pi_new_nonce i, le_bytes server_dh_params_ok_constructor 4 ++ n ++ own_nonce srv ++ tl_of c).

Definition read_set_client_dh_params (n sn : bytes) : reading bytes :=
  constructor <~ u32_le;
  _ <~ require (constructor =? set_client_dh_params_constructor) (protocol_error "unexpected request");
  n' <~ take_bytes 16;
  sn' <~ take_bytes 16;
  _ <~ require (bool_decide (n' = n) && bool_decide (sn' = sn)) (protocol_error "nonce mismatch");
  data <~ tl_bytes;
  _ <~ at_end "trailing set_client_DH_params bytes";
  pret data.

(** The client's half of the secret, and what follows it. *)
Definition read_client_inner (n sn : bytes) : reading (bytes * bytes) :=
  constructor <~ u32_le;
  _ <~ require (constructor =? client_dh_inner_data_constructor) (protocol_error "unexpected client_DH_inner_data constructor");
  n' <~ take_bytes 16;
  sn' <~ take_bytes 16;
  _ <~ require (bool_decide (n' = n) && bool_decide (sn' = sn)) (protocol_error "nonce mismatch");
  retry <~ u64_le;
  _ <~ require (retry =? 0) (protocol_error "unexpected retry");
  g_b <~ tl_bytes;
  rest <~ remaining;
  pret (g_b, rest).

(** The server's key, and its last message. *)
Definition server_finish (srv : server_side) (n nn req : bytes) : result fault (auth_key * bytes) :=
  let! data := read_all (read_set_client_dh_params n (own_nonce srv)) req in
  let! k := temp_aes_key_iv (own_nonce srv) nn in
  let! plain := aes_ige_decrypt data k (length data) in
  let inner := drop 20 plain in
  let! r := read_all (read_client_inner n (own_nonce srv)) inner in
  let! _ := demand (bool_decide (take 20 plain = Sha1.sha1 (take (length inner - length r.2) inner))) (protocol_error "digest mismatch") in
  let! key := make_auth_key (be_bytes 256 (be_value r.1 ^ dh_secret srv mod be_value (dh_prime srv))) in
  let! hash := calc_new_nonce_hash key nn 1 in
  Ret (key, le_bytes dh_gen_ok_constructor 4 ++ n ++ own_nonce srv ++ hash).

(** ** Running the steps *)

Lemma run_lift {S A B} (r : result fault A) (k : A → prog S fault B) s a : r = Ret a → pbind (lift r) k s = k a s.
Proof. by intros ->. Qed.

Lemma run_state {B} f (k : unit → exchanging B) s w : pbind (on_state f) k (s, w) = k tt (f s, w).
Proof. done. Qed.

Lemma run_gets {B} (k : exchange_state → exchanging B) s w : pbind (gets fst) k (s, w) = k s (s, w).
Proof. done. Qed.

Lemma run_writer {B} m (k : unit → exchanging B) s cap out : puts m out → (length out ≤ cap)%nat → pbind (on_writer m) k (s, MkWriter cap []) = k tt (s, MkWriter cap out).
Proof. intros Hm Hl. unfold pbind, on_writer. cbn [fst snd]. by rewrite Hm by (cbn; lia). Qed.

Lemma read_all_end {A B} (m : reading A) (k : A → reading B) w a : gets_from m w a → read_all (pbind m k) w = read_all (k a) [].
Proof. intros H. unfold read_all. by rewrite (gets_run_end m k w a H). Qed.

Lemma gets_all {A} (m : reading A) w rest a : gets_from m w a → read_all m (w ++ rest) = Ret a.
Proof. intros H. unfold read_all. by rewrite H. Qed.

(** The last field of a message that nothing may follow. *)
Lemma read_all_app {A B} (m : reading A) (k : A → reading B) w w' a : gets_from m w a → read_all (pbind m k) (w ++ w') = read_all (k a) w'.
Proof. intros H. unfold read_all. by rewrite (gets_run m k w w' a H). Qed.

Lemma read_all_require {B} good e (k : unit → reading B) w : good = true → read_all (pbind (require good e) k) w = read_all (k tt) w.
Proof. by intros ->. Qed.

Lemma read_all_nothing {A} what (a : A) : read_all (pbind (at_end what) (λ _, pret a)) [] = Ret a.
Proof. done. Qed.

Lemma gets_longs fps : Forall (λ f, 0 ≤ f < 2 ^ 64) fps → gets_from (get_longs (length fps)) (concat ((λ f, le_bytes f 8) <$> fps)) fps.
Proof.
  induction 1 as [|f fps Hf _ IH]; [apply gets_ret|]. cbn [get_longs length]. rewrite fmap_cons. cbn [concat]. eapply gets_bind; [by apply gets_u64|]. rewrite <- (app_nil_r (concat _)). eapply gets_bind; [apply IH|apply gets_ret].
Qed.

(** Reads the next field of a message. *)
Ltac reads := erewrite read_all_app by (first [apply gets_tl; lia|apply gets_take; by symmetry|apply gets_u32; done|apply gets_u64; done|apply gets_i32; done]).
Ltac passes := rewrite read_all_require by done.
Ltac reads_last := erewrite read_all_end by (first [apply gets_tl; lia|apply gets_take; by symmetry|by apply gets_longs|apply gets_i32; done]); apply read_all_nothing.

Lemma le_bytes_u32 c : 0 ≤ c < 2 ^ 32 → le_bytes (u32 c) 4 = le_bytes c 4.
Proof. intros H. by rewrite wrap_small. Qed.

Definition pq_constructor (dc : option Z) : Z := match dc with Some _ => p_q_inner_data_dc_constructor | None => p_q_inner_data_constructor end.

Definition pq_inner_of (pq p q n sn nn : bytes) (dc : option Z) : bytes :=
  le_bytes (pq_constructor dc) 4 ++ tl_of pq ++ tl_of p ++ tl_of q ++ n ++ sn ++ nn ++ match dc with Some id => le_bytes (u32 id) 4 | None => [] end.

Definition req_dh_params_of (n sn p q : bytes) (f : Z) (data : bytes) : bytes :=
  le_bytes req_dh_params_constructor 4 ++ n ++ sn ++ tl_of p ++ tl_of q ++ le_bytes f 8 ++ tl_of data.

Lemma puts_pq_inner pq p q n sn nn dc : (length pq ≤ 8)%nat → (length p ≤ 8)%nat → (length q ≤ 8)%nat → length n = 16%nat → length sn = 16%nat → length nn = 32%nat →
  puts (write_p_q_inner_data (pq_constructor dc) pq p q n sn nn dc) (pq_inner_of pq p q n sn nn dc).
Proof.
  intros H1 H2 H3 H4 H5 H6. unfold write_p_q_inner_data, pq_inner_of. set (c := pq_constructor dc). assert (0 ≤ c < 2 ^ 32) as Hc by (unfold c; by destruct dc).
  apply puts_require; [unfold c; by destruct dc|]. apply puts_bind; [rewrite <- (le_bytes_u32 c) by done; apply puts_write_int|].
  repeat (apply puts_bind; [first [apply puts_write_bytes; lia|by apply puts_int128|by apply puts_int256]|]). destruct dc; [apply puts_write_int|]. intros wr _. rewrite app_nil_r. by destruct wr.
Qed.

Lemma pq_inner_length pq p q n sn nn dc : length n = 16%nat → length sn = 16%nat → length nn = 32%nat → length (pq_inner_of pq p q n sn nn dc) = p_q_inner_data_size pq p q (bool_decide (is_Some dc)).
Proof. intros H4 H5 H6. unfold pq_inner_of, p_q_inner_data_size. destruct dc; rewrite !length_app, !le_bytes_length, !tl_of_length, ?le_bytes_length, H4, H5, H6; [rewrite bool_decide_true by eauto|rewrite bool_decide_false by (by intros [])]; cbn [length]; lia. Qed.

Lemma reads_pq_inner pq p q n sn nn dc rest : (length pq ≤ 8)%nat → (length p ≤ 8)%nat → (length q ≤ 8)%nat → length n = 16%nat → length sn = 16%nat → length nn = 32%nat →
  read_all read_p_q_inner_data (pq_inner_of pq p q n sn nn dc ++ rest) = Ret (MkPqInner pq p q n sn nn).
Proof.
  intros H1 H2 H3 H4 H5 H6. unfold pq_inner_of. rewrite <- !app_assoc. unfold read_p_q_inner_data. erewrite read_all_app by (apply gets_u32; by destruct dc).
  rewrite read_all_require by (by destruct dc). do 6 reads. done.
Qed.

Lemma puts_req_dh n sn p q f data : length n = 16%nat → length sn = 16%nat → (length p ≤ 8)%nat → (length q ≤ 8)%nat → length data = 256%nat →
  puts (write_req_dh_params n sn p q f data) (req_dh_params_of n sn p q f data).
Proof.
  intros H1 H2 H3 H4 H5. unfold write_req_dh_params, req_dh_params_of. apply puts_bind; [apply (puts_write_int req_dh_params_constructor)|].
  repeat (apply puts_bind; [first [by apply puts_int128|apply puts_write_bytes; lia|apply puts_write_long]|]). apply puts_write_bytes. lia.
Qed.

Lemma reads_req_dh n sn p q f data : length n = 16%nat → length sn = 16%nat → (length p ≤ 8)%nat → (length q ≤ 8)%nat → length data = 256%nat → 0 ≤ f < 2 ^ 64 →
  read_all read_req_dh_params (req_dh_params_of n sn p q f data) = Ret (MkDhRequest n sn p q f data).
Proof.
  intros H1 H2 H3 H4 H5 Hf. unfold req_dh_params_of, read_req_dh_params. reads. passes. do 5 reads. reads_last.
Qed.

Lemma reads_res_pq srv n pq fps storage : honest srv → length n = 16%nat → (length pq ≤ 8)%nat → Forall (λ f, 0 ≤ f < 2 ^ 64) fps → Z.of_nat (length fps) < 2 ^ 31 → (length fps ≤ storage)%nat →
  read_all (decode_res_pq storage) (res_pq_message srv n pq fps) = Ret (MkResPq n (own_nonce srv) pq fps).
Proof.
  intros [_ _ _ _ [Hsn _]] Hn Hpq Hf Hl Hst. unfold res_pq_message, decode_res_pq. reads. passes. do 4 reads. passes. erewrite read_all_app by (apply gets_i32; unfold is_i32; lia). rewrite read_all_require by (rewrite (proj2 (Z.ltb_ge _ _)); [done|lia]). rewrite read_all_require by (rewrite (proj2 (Z.ltb_ge _ _)); [done|lia]).
  rewrite Nat2Z.id. reads_last.
Qed.

(** The scratch spans are large enough for the messages of the exchange. *)
Record roomy (sizes : storage) (fingerprints : nat) : Prop := {
  ro_fingerprints : (fingerprints ≤ fingerprint_storage sizes)%nat;
  ro_inner : (144 ≤ inner_storage sizes)%nat;
  ro_encrypted : (352 ≤ encrypted_storage sizes)%nat;
  ro_decrypted : (640 ≤ decrypted_storage sizes)%nat;
  ro_g_b : (256 ≤ g_b_storage sizes)%nat;
  ro_auth_key : auth_key_storage sizes = 256%nat;
  ro_client_inner : (320 ≤ client_inner_storage sizes)%nat;
}.

(** What the client pads before it encrypts. *)
Definition padded_inner (pq : bytes) (f : Z * Z) (n sn rnd : bytes) (dc : option Z) : bytes :=
  let inner := pq_inner_of pq (digits f.1) (digits f.2) n sn (take 32 rnd) dc in
  inner ++ take (192 - length inner) (subspan 32 224 rnd).

Definition after_res_pq (key : public_key) (f : Z * Z) (n sn rnd : bytes) : exchange_state :=
  set_selected awaiting_server_dh_params (fingerprint key) (set_factors (digits f.1) (digits f.2) sn (take 32 rnd) (fresh_for n)).

Lemma pq_inner_small pq p q n sn nn dc : (length pq ≤ 8)%nat → (length p ≤ 8)%nat → (length q ≤ 8)%nat → length n = 16%nat → length sn = 16%nat → length nn = 32%nat → (length (pq_inner_of pq p q n sn nn dc) ≤ 144)%nat.
Proof.
  intros. rewrite pq_inner_length by done. unfold p_q_inner_data_size. pose proof (bytes_size_bound (length pq)). pose proof (bytes_size_bound (length p)). pose proof (bytes_size_bound (length q)). destruct (bool_decide _); lia.
Qed.

Lemma pq_inner_bytes pq p q n sn nn dc : Forall is_byte pq → Forall is_byte p → Forall is_byte q → Forall is_byte n → Forall is_byte sn → Forall is_byte nn → Forall is_byte (pq_inner_of pq p q n sn nn dc).
Proof. intros. unfold pq_inner_of. repeat (apply Forall_app; split); auto using le_bytes_bytes, tl_of_bytes. destruct dc; [apply le_bytes_bytes|constructor]. Qed.

Definition dc_of (include_dc_id : bool) (dc_id : Z) : option Z := if include_dc_id then Some dc_id else None.

Lemma factor_pq_short pq f : factor_pq pq = Ret f → (length pq ≤ 8)%nat.
Proof. unfold factor_pq, decode_unsigned_u64. destruct (Nat.ltb_spec 8 (length pq)); [|lia]. by rewrite orb_true_r. Qed.

Lemma res_pq_step fuel sizes srv keys key fps n pq f rnd dc inc cap : honest srv → roomy sizes (length fps) → public_ok key → 1 < be_value (modulus key) → length n = 16%nat → Forall is_byte n →
  (256 ≤ length rnd)%nat → Forall is_byte rnd → Forall is_byte pq → Forall (λ f, 0 ≤ f < 2 ^ 64) fps → Z.of_nat (length fps) < 2 ^ 31 → (512 ≤ cap)%nat →
  factor_pq pq = Ret f → select_public_key keys fps = Some key → fits fuel key (subspan 192 32 (subspan 32 224 rnd)) (padded_inner pq f n (own_nonce srv) rnd (dc_of inc dc)) → ∃ block c,
  receive_res_pq fuel sizes (res_pq_message srv n pq fps) keys rnd dc inc (fresh_for n, MkWriter cap []) =
    Some (Ret tt, (after_res_pq key f n (own_nonce srv) rnd, MkWriter cap (req_dh_params_of n (own_nonce srv) (digits f.1) (digits f.2) (fingerprint key) c))) ∧
  rsa_raw_public_encrypt (modulus key) (exponent key) block 256 = Ret c ∧ rsa_open block = Ret (padded_inner pq f n (own_nonce srv) rnd (dc_of inc dc)) ∧ length c = 256%nat.
Proof.
  intros Hsrv Hsz Hkey H1 Hn Hnb Hrl Hrb Hpb Hf Hfl Hcap Ef Es Hfit. pose proof (ho_nonce _ Hsrv) as [Hsn Hsb]. pose proof (factor_pq_short _ _ Ef) as Hpl. destruct f as [p q].
  destruct (factor_pq_factors _ _ _ Hpb Ef) as ((Hp1 & Hpq) & Eprod & H64). cbn [fst snd] in *. destruct (write_unsigned_be_ok p ltac:(nia)) as (Ep & _ & Hdp & Hlp). destruct (write_unsigned_be_ok q ltac:(nia)) as (Eq & _ & Hdq & Hlq).
  set (sn := own_nonce srv) in *. set (nn := take 32 rnd) in *. assert (length nn = 32%nat) as Hnn by (unfold nn; rewrite length_take; lia). assert (Forall is_byte nn) as Hnnb by (by apply Forall_take).
  set (d := dc_of inc dc) in *. set (inner := pq_inner_of pq (digits p) (digits q) n sn nn d). assert (length inner ≤ 144)%nat as Hil by (by apply pq_inner_small).
  assert (Forall is_byte inner) as Hib by (by apply pq_inner_bytes). set (rr := subspan 32 224 rnd) in *. assert (length rr = 224%nat) as Hrr by (unfold rr, subspan; rewrite length_take, length_drop; lia). assert (Forall is_byte rr) as Hrrb by (apply Forall_take, Forall_drop, Hrb).
  set (dwp := padded_inner pq (p, q) n sn rnd d) in *. assert (dwp = inner ++ take (192 - length inner) rr) as Hdwp by done.
  destruct (rsa_loop_ok key dwp Hkey) with (fuel := fuel) (tk := subspan 192 32 rr) as (block & c & El & Er & Eo & Hcl & Hcb).
  { rewrite Hdwp, length_app, length_take. lia. } { rewrite Hdwp. apply Forall_app. auto using Forall_take. } { unfold subspan. rewrite length_take, length_drop. lia. } { apply Forall_take, Forall_drop, Hrrb. } { done. } { done. }
  exists block, c. split; [|done]. unfold receive_res_pq. rewrite run_gets. rewrite require_then by done. rewrite require_then by (rewrite (proj2 (Nat.ltb_ge _ _)); [done|lia]).
  rewrite (run_lift _ _ _ _ (reads_res_pq srv n pq fps _ Hsrv Hn Hpl Hf Hfl (ro_fingerprints _ _ Hsz))). cbn [rp_nonce rp_server_nonce rp_pq rp_fingerprints]. rewrite require_then by (by apply bool_decide_eq_true_2). rewrite Es.
  rewrite (run_lift _ _ _ _ Ef). cbn [fst snd]. rewrite (run_lift _ _ _ _ Ep), (run_lift _ _ _ _ Eq), run_state, run_gets. fold nn.
  assert (p_q_inner_data_size pq (digits p) (digits q) inc = length inner) as -> by (unfold inner; rewrite pq_inner_length by done; unfold d; by destruct inc).
  rewrite require_then by (rewrite (proj2 (Nat.ltb_ge _ _)); [done|pose proof (ro_inner _ _ Hsz); lia]).
  rewrite (run_lift _ _ _ inner). 2: { replace (if inc then p_q_inner_data_dc_constructor else p_q_inner_data_constructor) with (pq_constructor d) by (unfold d; by destruct inc). apply puts_filled; [by apply puts_pq_inner|done]. }
  rewrite require_then by (rewrite (proj2 (Nat.ltb_ge _ _)); [done|pose proof (ro_encrypted _ _ Hsz); lia]).
  rewrite (run_lift _ _ _ c). 2: { unfold rsa_encrypt_padded. fold rr. rewrite (proj1 (pu_modulus _ Hkey)), Hrr. rewrite (proj2 (Nat.ltb_ge _ _)) by lia. cbn [negb demand bind Nat.eqb Nat.ltb Nat.leb]. exact El. }
  erewrite run_writer; [done|by apply puts_req_dh|]. unfold req_dh_params_of. rewrite !length_app, !le_bytes_length, !tl_of_length. cbn [nonce server_nonce fresh_for set_factors].
  pose proof (bytes_size_bound (length (digits p))). pose proof (bytes_size_bound (length (digits q))). pose proof (bytes_size_bound (length c)). lia.
Qed.

Lemma server_inner_facts srv n : honest srv → length n = 16%nat → Forall is_byte n → Forall is_byte (server_inner srv n) ∧ (length (server_inner srv n) ≤ 600)%nat.
Proof.
  intros [(_ & Hpb & Hpl) _ _ _ [Hsn Hsb]] Hn Hnb. unfold server_inner, g_a. split.
  - repeat (apply Forall_app; split); auto using le_bytes_bytes, tl_of_bytes, be_bytes_are_bytes.
  - rewrite !length_app, !le_bytes_length, !tl_of_length, be_bytes_size. pose proof (bytes_size_bound (length (dh_prime srv))). lia.
Qed.

Definition dh_params_ok_of (n sn data : bytes) : bytes := le_bytes server_dh_params_ok_constructor 4 ++ n ++ sn ++ tl_of data.

Lemma server_params_step srv key n pq f block padding rnd dc c : honest srv → public_ok key → length n = 16%nat → Forall is_byte n → (32 ≤ length rnd)%nat → Forall is_byte rnd → Forall is_byte pq → factor_pq pq = Ret f →
  Forall is_byte padding → (15 ≤ length padding)%nat → rsa_raw_public_encrypt (modulus key) (exponent key) block 256 = Ret c → rsa_open block = Ret (padded_inner pq f n (own_nonce srv) rnd dc) → length c = 256%nat → ∃ k data,
  server_params srv key n pq block padding (req_dh_params_of n (own_nonce srv) (digits f.1) (digits f.2) (fingerprint key) c) = Ret (take 32 rnd, dh_params_ok_of n (own_nonce srv) data) ∧
  temp_aes_key_iv (own_nonce srv) (take 32 rnd) = Ret k ∧ key_iv_ok k ∧ (length data ≤ 636)%nat ∧
  (sole (server_inner srv n) (take (hash_padding (length (server_inner srv n))) padding) → decrypt_data_with_hash data k (length data) = Ret (server_inner srv n)).
Proof.
  intros Hsrv Hkey Hn Hnb Hrl Hrb Hpb Ef Hpadb Hpadl Er Eo Hcl. pose proof (ho_nonce _ Hsrv) as [Hsn Hsb]. pose proof (factor_pq_short _ _ Ef) as Hpl. destruct f as [p q].
  destruct (factor_pq_factors _ _ _ Hpb Ef) as ((Hp1 & Hpq) & Eprod & H64). cbn [fst snd] in *. destruct (write_unsigned_be_ok p ltac:(nia)) as (_ & Vp & _ & Hlp). destruct (write_unsigned_be_ok q ltac:(nia)) as (_ & Vq & _ & Hlq).
  assert (length (take 32 rnd) = 32%nat) as Hnn by (rewrite length_take; lia). assert (Forall is_byte (take 32 rnd)) as Hnnb by (by apply Forall_take).
  destruct (temp_key_ok (own_nonce srv) (take 32 rnd) Hsn Hnn Hnnb) as (k & Ek & Hk). destruct (server_inner_facts srv n Hsrv Hn Hnb) as [Hib Hil].
  pose proof (hash_padding_bound (length (server_inner srv n))) as Hhp.
  destruct (data_with_hash_inverse (server_inner srv n) k padding Hk Hib Hpadb ltac:(lia)) as (data & Ed & Hdl & _ & _ & Hdec). exists k, data.
  split_and!; [|done|done|rewrite Hdl, with_hash_size; lia|done].
  unfold server_params. rewrite reads_req_dh by (done || apply Hkey). cbn [bind rq_nonce rq_server_nonce rq_fingerprint rq_data rq_p rq_q]. rewrite !bool_decide_true, Z.eqb_refl by done. cbn [andb demand bind].
  rewrite Er. cbn [bind]. rewrite bool_decide_true by done. cbn [demand bind]. rewrite Eo. cbn [bind]. unfold padded_inner. rewrite reads_pq_inner by done. cbn [bind fst snd pi_nonce pi_server_nonce pi_pq pi_p pi_q pi_new_nonce].
  rewrite !bool_decide_true by done. cbn [andb demand bind]. rewrite Vp, Vq, Eprod, Z.eqb_refl, (proj2 (Z.ltb_lt _ _)), (proj2 (Z.leb_le _ _)) by lia. cbn [andb demand bind]. rewrite Ek. cbn [bind]. rewrite Ed. done.
Qed.

Lemma reads_dh_answer n sn data s : length n = 16%nat → length sn = 16%nat → Z.of_nat (length data) ≤ 0xffffff → nonce s = n → server_nonce s = sn → read_all (read_dh_answer s) (dh_params_ok_of n sn data) = Ret data.
Proof.
  intros Hn Hsn Hl E1 E2. unfold dh_params_ok_of, read_dh_answer. do 3 reads. rewrite read_all_require by (rewrite E1, E2, !bool_decide_true; done). change (server_dh_params_ok_constructor =? server_dh_params_fail_constructor) with false. cbv iota. passes. reads_last.
Qed.

Lemma reads_server_inner srv n : honest srv → length n = 16%nat →
  read_all decode_server_dh_inner_data (server_inner srv n) = Ret (MkDhInner n (own_nonce srv) (dh_g srv) (dh_prime srv) (g_a srv) (clock srv)).
Proof.
  intros [(_ & Hpb & Hpl) Hg _ Hclk [Hsn Hsb]] Hn. unfold server_inner, decode_server_dh_inner_data. assert (length (g_a srv) = length (dh_prime srv)) as Hga by apply be_bytes_size. reads. passes. do 2 reads.
  erewrite read_all_app by (apply gets_i32; unfold is_i32; lia). do 2 reads. reads_last.
Qed.

(** ** The client's half of the secret *)

Definition set_client_of (n sn data : bytes) : bytes := le_bytes set_client_dh_params_constructor 4 ++ n ++ sn ++ tl_of data.
Definition client_inner_of (n sn g_b : bytes) : bytes := le_bytes client_dh_inner_data_constructor 4 ++ n ++ sn ++ le_bytes 0 8 ++ tl_of g_b.

Lemma puts_client_inner n sn g_b : length n = 16%nat → length sn = 16%nat → (length g_b ≤ 256)%nat → puts (write_client_dh_inner_data n sn 0 g_b) (client_inner_of n sn g_b).
Proof.
  intros Hn Hsn Hl. unfold write_client_dh_inner_data, client_inner_of. apply puts_bind; [apply (puts_write_int client_dh_inner_data_constructor)|]. do 2 (apply puts_bind; [by apply puts_int128|]). apply puts_bind; [apply puts_write_long|]. apply puts_write_bytes. lia.
Qed.

Lemma client_inner_facts n sn g_b : length n = 16%nat → length sn = 16%nat → (length g_b ≤ 256)%nat → Forall is_byte n → Forall is_byte sn → Forall is_byte g_b →
  Forall is_byte (client_inner_of n sn g_b) ∧ length (client_inner_of n sn g_b) = client_dh_inner_data_size (length g_b) ∧ (length (client_inner_of n sn g_b) ≤ 307)%nat.
Proof.
  intros. assert (length (client_inner_of n sn g_b) = client_dh_inner_data_size (length g_b)) as E. { unfold client_inner_of, client_dh_inner_data_size. rewrite !length_app, !le_bytes_length, tl_of_length. lia. }
  split_and!; [|done|]. - unfold client_inner_of. repeat (apply Forall_app; split); auto using le_bytes_bytes, tl_of_bytes. - rewrite E. unfold client_dh_inner_data_size. pose proof (bytes_size_bound (length g_b)). lia.
Qed.

Lemma reads_client_inner n sn g_b rest : length n = 16%nat → length sn = 16%nat → (length g_b ≤ 256)%nat → read_all (read_client_inner n sn) (client_inner_of n sn g_b ++ rest) = Ret (g_b, rest).
Proof.
  intros Hn Hsn Hl. unfold client_inner_of, read_client_inner. rewrite <- !app_assoc. reads. passes. do 2 reads. rewrite read_all_require by (rewrite !bool_decide_true; done). reads. passes. reads. done.
Qed.

Lemma puts_set_client n sn data : length n = 16%nat → length sn = 16%nat → (length data ≤ 1000)%nat → puts (write_set_client_dh_params n sn data) (set_client_of n sn data).
Proof. intros Hn Hsn Hl. unfold write_set_client_dh_params, set_client_of. apply puts_bind; [apply (puts_write_int set_client_dh_params_constructor)|]. do 2 (apply puts_bind; [by apply puts_int128|]). apply puts_write_bytes. lia. Qed.

Lemma reads_set_client n sn data : length n = 16%nat → length sn = 16%nat → (length data ≤ 1000)%nat → read_all (read_set_client_dh_params n sn) (set_client_of n sn data) = Ret data.
Proof. intros Hn Hsn Hl. unfold set_client_of, read_set_client_dh_params. reads. passes. do 2 reads. rewrite read_all_require by (rewrite !bool_decide_true; done). reads_last. Qed.

Definition g_b (srv : server_side) (b : bytes) : bytes := be_bytes (length (dh_prime srv)) (dh_g srv ^ be_value b mod be_value (dh_prime srv)).

(** The secret that both sides compute. *)
Definition secret (srv : server_side) (b : bytes) : bytes := be_bytes 256 ((dh_g srv ^ dh_secret srv mod be_value (dh_prime srv)) ^ be_value b mod be_value (dh_prime srv)).

Lemma group_value srv e : honest srv → be_value (be_bytes (length (dh_prime srv)) (dh_g srv ^ e mod be_value (dh_prime srv))) = dh_g srv ^ e mod be_value (dh_prime srv).
Proof. intros [(H1 & Hb & _) _ _ _ _]. apply value_of_be_bytes. pose proof (be_value_range _ Hb). pose proof (Z.mod_pos_bound (dh_g srv ^ e) (be_value (dh_prime srv))). lia. Qed.

Lemma secret_server srv b : honest srv → Forall is_byte b → secret srv b = be_bytes 256 (be_value (g_b srv b) ^ dh_secret srv mod be_value (dh_prime srv)).
Proof. intros H Hb. unfold secret, g_b. rewrite group_value by done. pose proof (be_value_range b Hb). destruct H as [(H1 & _) _ Ha _ _]. by rewrite exponents_commute by lia. Qed.

Lemma client_powers srv b : honest srv → Forall is_byte b → write_unsigned_be 8 (u64 (dh_g srv)) = Ret (digits (dh_g srv)) ∧
  modular_exponentiate (digits (dh_g srv)) b (dh_prime srv) (length (dh_prime srv)) = Ret (g_b srv b) ∧ modular_exponentiate (g_a srv) b (dh_prime srv) 256 = Ret (secret srv b).
Proof.
  intros H Hb. pose proof H as [(H1 & Hpb & Hpl) Hg _ _ _]. assert (0 ≤ dh_g srv < 2 ^ 64) as Hg' by lia. destruct (write_unsigned_be_ok (dh_g srv) Hg') as (E & V & Hdb & _). rewrite wrap_small by done.
  split_and!; [done| |]; rewrite modular_exponentiate_ok by (done || lia || apply be_bytes_are_bytes); [by rewrite V|]. unfold secret. by rewrite <- (group_value srv (dh_secret srv)).
Qed.

Definition after_params (s : exchange_state) (k : aes_key_iv) (key : auth_key) (salt offset : Z) : exchange_state := set_phase awaiting_dh_gen (set_key key salt offset (set_temp k s)).

Lemma client_params_step sizes srv n fps s nn k data rnd now cap : honest srv → roomy sizes fps → length n = 16%nat → Forall is_byte n → length nn = 32%nat → (271 ≤ length rnd)%nat → Forall is_byte rnd → (512 ≤ cap)%nat →
  current_phase s = awaiting_server_dh_params → nonce s = n → server_nonce s = own_nonce srv → new_nonce s = nn → (length data ≤ 636)%nat →
  temp_aes_key_iv (own_nonce srv) nn = Ret k → key_iv_ok k → decrypt_data_with_hash data k (length data) = Ret (server_inner srv n) →
  ∃ key salt enc rest, make_auth_key (secret srv (take 256 rnd)) = Ret key ∧ Mt.server_salt nn (own_nonce srv) = Ret salt ∧
  receive_server_dh_params sizes (dh_params_ok_of n (own_nonce srv) data) rnd now (s, MkWriter cap []) =
    Some (Ret tt, (after_params s k key salt (clock srv - now), MkWriter cap (set_client_of n (own_nonce srv) enc))) ∧
  (length enc ≤ 1000)%nat ∧ (let inner := client_inner_of n (own_nonce srv) (g_b srv (take 256 rnd)) in aes_ige_decrypt enc k (length enc) = Ret (Sha1.sha1 inner ++ inner ++ rest)).
Proof.
  intros Hsrv Hsz Hn Hnb Hnn Hrl Hrb Hcap Hph En Esn Enn Hdl Ek Hk Edec. pose proof (ho_nonce _ Hsrv) as [Hsn Hsb]. pose proof (ho_prime _ Hsrv) as (_ & _ & Hpl). set (b := take 256 rnd). set (sn := own_nonce srv) in *.
  destruct (client_powers srv b Hsrv ltac:(by apply Forall_take)) as (Eg & Egb & Esec). assert (length (g_b srv b) = length (dh_prime srv)) as Hgl by apply be_bytes_size.
  assert (∃ key, make_auth_key (secret srv b) = Ret key) as [key Ekey] by (unfold make_auth_key, secret; rewrite be_bytes_size; by eexists).
  assert (∃ salt, Mt.server_salt nn sn = Ret salt) as [salt Esalt] by (unfold Mt.server_salt; rewrite Hnn, Hsn; by eexists).
  destruct (client_inner_facts n sn (g_b srv b) Hn Hsn ltac:(lia) Hnb Hsb (be_bytes_are_bytes _ _)) as (Hib & Hisz & Hil). set (inner := client_inner_of n sn (g_b srv b)) in *. pose proof (hash_padding_bound (length inner)) as Hhp.
  destruct (data_with_hash_inverse inner k (drop 256 rnd) Hk Hib ltac:(by apply Forall_drop) ltac:(rewrite length_drop; lia)) as (enc & Eenc & Hel & _ & Eopen & _). rewrite with_hash_size in Hel.
  exists key, salt, enc, (take (hash_padding (length inner)) (drop 256 rnd)). split_and!; [done|done| |lia|done].
  unfold receive_server_dh_params. rewrite run_gets. rewrite require_then by (by apply bool_decide_eq_true_2). rewrite require_then by (rewrite (proj2 (Nat.ltb_ge _ _)); [done|lia]). rewrite require_then by (by rewrite (ro_auth_key _ _ Hsz)).
  rewrite (run_lift _ _ _ _ (reads_dh_answer n sn data s Hn Hsn ltac:(lia) En Esn)). rewrite require_then by (rewrite (proj2 (Nat.ltb_ge _ _)); [done|pose proof (ro_decrypted _ _ Hsz); lia]). rewrite Esn, Enn, En.
  rewrite (run_lift _ _ _ _ Ek), run_state, (run_lift _ _ _ _ Edec), (run_lift _ _ _ _ (reads_server_inner srv n Hsrv Hn)). cbn [di_nonce di_server_nonce di_g di_prime di_g_a di_time].
  rewrite require_then by (rewrite !bool_decide_true; done). rewrite require_then by (rewrite (proj2 (Nat.ltb_ge _ _)); [done|pose proof (ro_g_b _ _ Hsz); lia]). rewrite (run_lift _ _ _ _ Eg). cbv zeta. fold b.
  rewrite (run_lift _ _ _ _ Egb), (ro_auth_key _ _ Hsz), (run_lift _ _ _ _ Esec), (run_lift _ _ _ _ Ekey), (run_lift _ _ _ _ Esalt), run_state, <- Hisz.
  rewrite require_then by (rewrite (proj2 (Nat.ltb_ge _ _)); [done|pose proof (ro_client_inner _ _ Hsz); lia]). rewrite (run_lift _ _ _ inner) by (apply puts_filled; [apply puts_client_inner; lia|done]).
  rewrite require_then by (rewrite (proj2 (Nat.ltb_ge _ _)); [done|pose proof (ro_encrypted _ _ Hsz); rewrite with_hash_size; lia]). rewrite (run_lift _ _ _ _ Eenc).
  erewrite run_writer; [done|apply puts_set_client; lia|]. unfold set_client_of. rewrite !length_app, le_bytes_length, tl_of_length. pose proof (bytes_size_bound (length enc)). lia.
Qed.

(** ** The end of the exchange *)

Definition dh_gen_ok_of (n sn hash : bytes) : bytes := le_bytes dh_gen_ok_constructor 4 ++ n ++ sn ++ hash.

Lemma server_finish_step srv n nn k enc b rest key : honest srv → length n = 16%nat → length nn = 32%nat → (length enc ≤ 1000)%nat → Forall is_byte b → temp_aes_key_iv (own_nonce srv) nn = Ret k →
  make_auth_key (secret srv b) = Ret key → (let inner := client_inner_of n (own_nonce srv) (g_b srv b) in aes_ige_decrypt enc k (length enc) = Ret (Sha1.sha1 inner ++ inner ++ rest)) →
  ∃ hash, calc_new_nonce_hash key nn 1 = Ret hash ∧ length hash = 16%nat ∧ server_finish srv n nn (set_client_of n (own_nonce srv) enc) = Ret (key, dh_gen_ok_of n (own_nonce srv) hash).
Proof.
  intros Hsrv Hn Hnn Hel Hb Ek Ekey Eopen. pose proof (ho_nonce _ Hsrv) as [Hsn _]. pose proof (ho_prime _ Hsrv) as (_ & _ & Hpl). cbv zeta in Eopen. set (sn := own_nonce srv) in *. assert (length (g_b srv b) = length (dh_prime srv)) as Hgl by apply be_bytes_size.
  assert (∃ hash, calc_new_nonce_hash key nn 1 = Ret hash ∧ length hash = 16%nat) as (hash & Eh & Hhl).
  { unfold calc_new_nonce_hash. rewrite Hnn. cbn [Nat.eqb negb orb Z.ltb Z.compare Pos.compare Pos.compare_cont demand bind]. eexists. split; [done|]. unfold subspan. rewrite length_take, length_drop, sha1_of_length. lia. }
  exists hash. split_and!; [done|done|]. unfold server_finish. fold sn. rewrite reads_set_client by done. cbn [bind]. rewrite Ek. cbn [bind]. rewrite Eopen. cbn [bind]. rewrite drop_app_length', take_app_length' by (by rewrite sha1_length).
  rewrite reads_client_inner by (done || lia). cbn [bind fst snd]. rewrite length_app, Nat.add_sub, take_app_length, bool_decide_true by done. cbn [demand bind]. rewrite <- secret_server by done. rewrite Ekey. cbn [bind]. rewrite Eh. done.
Qed.

Lemma client_finish_step n sn key hash s w : length n = 16%nat → length sn = 16%nat → length hash = 16%nat → current_phase s = awaiting_dh_gen → has_key s = true → nonce s = n → server_nonce s = sn → exchange_key s = key →
  calc_new_nonce_hash key (new_nonce s) 1 = Ret hash → receive_dh_gen (dh_gen_ok_of n sn hash) (s, w) = Some (Ret tt, (set_phase complete s, w)).
Proof.
  intros Hn Hsn Hh Hph Hk En Esn Ekey Eh. assert (read_all decode_dh_gen_response (dh_gen_ok_of n sn hash) = Ret (MkDhGen dh_gen_ok_constructor n sn hash 1)) as Er.
  { unfold dh_gen_ok_of, decode_dh_gen_response. reads. rewrite Z.eqb_refl. rewrite <- (app_nil_l (n ++ _)). erewrite read_all_app by apply gets_ret. do 2 reads. reads_last. }
  unfold receive_dh_gen. rewrite run_gets. rewrite require_then by (rewrite Hph, Hk, bool_decide_true; done). rewrite (run_lift _ _ _ _ Er). cbn [dg_nonce dg_server_nonce dg_number dg_hash dg_constructor].
  rewrite require_then by (rewrite En, Esn, !bool_decide_true; done). rewrite Ekey. rewrite (run_lift _ _ _ _ Eh). rewrite require_then by (by apply bool_decide_eq_true_2). by rewrite !require_then by done.
Qed.

Lemma begin_step n s cap : length n = 16%nat → (512 ≤ cap)%nat → begin n (s, MkWriter cap []) = Some (Ret tt, (fresh_for n, MkWriter cap (le_bytes req_pq_multi_constructor 4 ++ n))).
Proof.
  intros Hn Hcap. unfold begin. rewrite require_then by (by rewrite Hn). rewrite run_state. unfold on_writer. cbn [fst snd].
  assert (puts (write_req_pq_multi n) (le_bytes req_pq_multi_constructor 4 ++ n)) as Hp.
  { unfold write_req_pq_multi. apply puts_require; [by rewrite Hn|]. apply puts_bind; [apply (puts_write_int req_pq_multi_constructor)|by apply puts_int128]. }
  rewrite Hp; [done|]. cbn [written capacity length]. rewrite length_app, le_bytes_length. lia.
Qed.

Lemma made_key_ok data key : Forall is_byte data → make_auth_key data = Ret key → key_ok key.
Proof.
  intros Hb. unfold make_auth_key. destruct (Nat.eqb_spec (length data) 256) as [Hl|]; [|done]. cbn [demand bind]. intros [= <-]. split; cbn [key_data key_id]; [done|]. unfold subspan.
  split; [rewrite length_take, length_drop, sha1_length; lia|]. apply Forall_take, Forall_drop, sha1_bytes.
Qed.

(** What the two sides bring to an exchange: the client's nonce, random bytes, clock and public keys, the server's group, secret and padding. *)
Record inputs := MkInputs {
  in_nonce : bytes; in_random : bytes; in_random' : bytes; in_now : Z; in_keys : list public_key; in_dc : Z; in_include_dc : bool;
  in_server : server_side; in_key : public_key; in_fingerprints : list Z; in_pq : bytes; in_factors : Z * Z; in_padding : bytes;
}.

(** They are well formed, the client knows a key of the server and can factor [pq], a block below the modulus is found within [fuel] attempts, and the padding of the
    server's answer makes no second message with the digest of the first. *)
Record inputs_ok (fuel : nat) (i : inputs) : Prop := {
  ok_server : honest (in_server i);
  ok_key : public_ok (in_key i) ∧ 1 < be_value (modulus (in_key i));
  ok_nonce : length (in_nonce i) = 16%nat ∧ Forall is_byte (in_nonce i);
  ok_random : (256 ≤ length (in_random i))%nat ∧ Forall is_byte (in_random i);
  ok_random' : (271 ≤ length (in_random' i))%nat ∧ Forall is_byte (in_random' i);
  ok_padding : (15 ≤ length (in_padding i))%nat ∧ Forall is_byte (in_padding i);
  ok_fingerprints : Forall (λ f, 0 ≤ f < 2 ^ 64) (in_fingerprints i) ∧ Z.of_nat (length (in_fingerprints i)) < 2 ^ 31;
  ok_select : select_public_key (in_keys i) (in_fingerprints i) = Some (in_key i);
  ok_pq : Forall is_byte (in_pq i) ∧ factor_pq (in_pq i) = Ret (in_factors i);
  ok_fits : fits fuel (in_key i) (subspan 192 32 (subspan 32 224 (in_random i)))
              (padded_inner (in_pq i) (in_factors i) (in_nonce i) (own_nonce (in_server i)) (in_random i) (dc_of (in_include_dc i) (in_dc i)));
  ok_sole : sole (server_inner (in_server i) (in_nonce i)) (take (hash_padding (length (server_inner (in_server i) (in_nonce i)))) (in_padding i));
}.

(** C8: with a server that follows the protocol, the client's four steps succeed, from any earlier state, and the two sides agree: the server can read from the client's
    second message the new nonce and a true factorisation of [pq] (a block that the public key encrypts to the message's data, and that unpads to them), the client accepts
    the server's group parameters, the server accepts the client's half, and the client's last step leaves it in the phase [complete] with the very key that the server
    computed from the other half of the secret, with the salt of both nonces and the offset to the server's clock. The key is one the sessions can use. *)
Theorem exchange_agrees fuel sizes i s0 cap : inputs_ok fuel i → roomy sizes (length (in_fingerprints i)) → (512 ≤ cap)%nat →
  let srv := in_server i in let n := in_nonce i in let start s := (s, MkWriter cap []) in
  ∃ hello s1 request block nn answer s2 half key confirmation s3,
    begin n (start s0) = Some (Ret tt, (fresh_for n, MkWriter cap hello)) ∧
    receive_res_pq fuel sizes (res_pq_message srv n (in_pq i) (in_fingerprints i)) (in_keys i) (in_random i) (in_dc i) (in_include_dc i) (start (fresh_for n)) = Some (Ret tt, (s1, MkWriter cap request)) ∧
    server_params srv (in_key i) n (in_pq i) block (in_padding i) request = Ret (nn, answer) ∧
    receive_server_dh_params sizes answer (in_random' i) (in_now i) (start s1) = Some (Ret tt, (s2, MkWriter cap half)) ∧
    server_finish srv n nn half = Ret (key, confirmation) ∧
    receive_dh_gen confirmation (start s2) = Some (Ret tt, start s3) ∧
    current_phase s3 = complete ∧ has_key s3 = true ∧ exchange_key s3 = key ∧ key_ok key ∧ Mt.server_salt nn (own_nonce srv) = Ret (exchange_salt s3) ∧ exchange_offset s3 = clock srv - in_now i.
Proof.
  intros [Hsrv [Hkey H1] [Hn Hnb] [Hr Hrb] [Hr' Hrb'] [Hp Hpb] [Hf Hfl] Es [Hqb Ef] Hfit Hsole] Hsz Hcap srv n start. fold srv n in Hsrv, Hn, Hnb, Hfit, Hsole.
  destruct (res_pq_step fuel sizes srv _ _ _ n _ _ _ _ _ cap Hsrv Hsz Hkey H1 Hn Hnb Hr Hrb Hqb Hf Hfl Hcap Ef Es Hfit) as (block & c & E1 & Er & Eo & Hcl).
  destruct (server_params_step srv (in_key i) n _ _ block (in_padding i) (in_random i) _ c Hsrv Hkey Hn Hnb ltac:(lia) Hrb Hqb Ef Hpb Hp Er Eo Hcl) as (k & data & E2 & Ek & Hk & Hdl & Hdec).
  set (nn := take 32 (in_random i)) in *. assert (length nn = 32%nat) as Hnn by (unfold nn; rewrite length_take; lia). set (s1 := after_res_pq (in_key i) (in_factors i) n (own_nonce srv) (in_random i)) in *.
  destruct (client_params_step sizes srv n _ s1 nn k data (in_random' i) (in_now i) cap Hsrv Hsz Hn Hnb Hnn Hr' Hrb' Hcap eq_refl eq_refl eq_refl eq_refl Hdl Ek Hk (Hdec Hsole)) as (key & salt & enc & rest & Ekey & Esalt & E3 & Hel & Eopen).
  destruct (server_finish_step srv n nn k enc (take 256 (in_random' i)) rest key Hsrv Hn Hnn Hel ltac:(by apply Forall_take) Ek Ekey Eopen) as (hash & Eh & Hhl & E4).
  eexists _, _, _, block, nn, _, _, _, key, _, _. split_and!; [by apply begin_step|exact E1|exact E2|exact E3|exact E4| | | | | | |].
  { apply (client_finish_step _ _ key); [exact Hn|apply (ho_nonce _ Hsrv)|exact Hhl|exact eq_refl..|exact Eh]. }
  1-3: exact eq_refl. { eapply made_key_ok; [|exact Ekey]. apply be_bytes_are_bytes. } { exact Esalt. } exact eq_refl.
Qed.

(** ** An exchange in the group of 5 modulo 23 *)

Definition sample_random (n : nat) : bytes := (λ i, Z.of_nat i * 7 mod 256) <$> seq 0 n.
Definition sample_public : public_key := MkPublic (replicate 256 255) 65537 77.
Definition sample_server : server_side := MkServer 5 [23] 6 1005 (sample_random 16).
Definition sample_sizes : storage := MkStorage 4 144 352 640 256 256 320.
Definition sample_inputs : inputs := MkInputs (sample_random 16) (sample_random 256) (sample_random 271) 1000 [sample_public] 2 true sample_server sample_public [5; 77] [0x9a; 0x11; 0xa7] (1009, 10007) (sample_random 15).

Lemma sample_random_ok n : length (sample_random n) = n ∧ Forall is_byte (sample_random n).
Proof. unfold sample_random. rewrite length_fmap, length_seq, Forall_fmap. split; [done|]. apply Forall_true. intros i. apply (wrap_range 8). lia. Qed.

Lemma sample_block_fits : fits 1 sample_public (subspan 192 32 (subspan 32 224 (in_random sample_inputs)))
  (padded_inner (in_pq sample_inputs) (in_factors sample_inputs) (in_nonce sample_inputs) (own_nonce sample_server) (in_random sample_inputs) (dc_of true 2)).
Proof.
  set (tk := subspan 192 32 _). set (dwp := padded_inner _ _ _ _ _ _). assert (match rsa_block tk dwp with Ret b => unsigned_be_less b (modulus sample_public) | Throw _ => false end = true) as H by (vm_compute; reflexivity).
  destruct (rsa_block tk dwp) as [b|] eqn:E; [|discriminate H]. exists 0%nat, b. split; [lia|]. split; [exact E|exact H].
Qed.

Lemma sole_decided data pad : forallb (λ n, negb (bool_decide (Sha1.sha1 (data ++ take n pad) = Sha1.sha1 data))) (seq 1 (length pad)) = true → sole data pad.
Proof. intros H n Hn E. rewrite forallb_forall in H. specialize (H n). rewrite bool_decide_true in H by done. cbn in H. assert (false = true) as Hf; [|discriminate Hf]. apply H, in_seq. lia. Qed.

Lemma sample_inputs_ok : inputs_ok 1 sample_inputs.
Proof.
  assert (∀ n m, (m ≤ n)%nat → (m ≤ length (sample_random n))%nat ∧ Forall is_byte (sample_random n)) as Hr by (intros n m H; destruct (sample_random_ok n) as [-> ?]; by split).
  split; cbn [in_nonce in_random in_random' in_keys in_server in_key in_fingerprints in_pq in_factors in_padding in_dc in_include_dc sample_inputs].
  - split; cbn [dh_prime dh_g dh_secret clock own_nonce sample_server]; [|lia|lia|unfold is_i32; lia|apply sample_random_ok]. split; [cbn; lia|]. split; [by apply Forall_singleton|cbn; lia].
  - split; [|vm_compute; reflexivity]. split; cbn [modulus exponent fingerprint sample_public]; [|done|lia]. split; [apply length_replicate|by apply Forall_replicate].
  - apply sample_random_ok.
  - apply Hr. lia.
  - apply Hr. lia.
  - apply Hr. lia.
  - split; [|cbn; lia]. repeat (apply Forall_cons; split; [lia|]). by apply Forall_nil.
  - vm_compute. reflexivity.
  - split; [repeat (apply Forall_cons; split; [unfold is_byte; lia|]); by apply Forall_nil|]. vm_compute. reflexivity.
  - exact sample_block_fits.
  - apply sole_decided. vm_compute. reflexivity.
Qed.

Lemma exchange_agrees_witness : ∃ s2 confirmation s3 key, receive_dh_gen confirmation (s2, MkWriter 512 []) = Some (Ret tt, (s3, MkWriter 512 [])) ∧
  current_phase s3 = complete ∧ exchange_key s3 = key ∧ key_ok key ∧ exchange_offset s3 = 5.
Proof.
  destruct (exchange_agrees 1 sample_sizes sample_inputs new_exchange 512 sample_inputs_ok) as (hello & s1 & request & block & nn & answer & s2 & half & key & confirmation & s3 & _ & _ & _ & _ & _ & E & Hph & _ & Hkey & Hok & _ & Hoff).
  { split; cbn [fingerprint_storage inner_storage encrypted_storage decrypted_storage g_b_storage auth_key_storage client_inner_storage sample_sizes in_fingerprints sample_inputs length]; lia. }
  { lia. }
  exists s2, confirmation, s3, key. split; [exact E|]. split; [exact Hph|]. split; [exact Hkey|]. split; [exact Hok|]. exact Hoff.
Defined.
