(* ===== verification/Code.v ===== *)
(** * Code records (src/src/wisp/code.hpp)

    The operations that lowered code is made of, and when a record of the heap is one of
    them. An operation is its position in [code_operations]. *)
From S2P Require Import Prelude Word Vat Heap.

Inductive operand_kind := O_value | O_address | O_symbol | O_name | O_node | O_nodes | O_names.

Definition operand_name (kind : operand_kind) : bytes :=
  str match kind with
      | O_value => "VALUE" | O_address => "ADDRESS" | O_symbol => "SYMBOL" | O_name => "NAME"
      | O_node => "NODE" | O_nodes => "NODES" | O_names => "NAMES"
      end.

Record code_operation := MkOperation { op_name : bytes; operands : list operand_kind }.

Definition code_operations : list code_operation := [
  MkOperation (str "CONSTANT") [O_value];
  MkOperation (str "LEXICAL-LOAD") [O_address; O_address];
  MkOperation (str "GLOBAL-LOAD") [O_symbol];
  MkOperation (str "FUNCTION-CELL") [O_symbol];
  MkOperation (str "LEXICAL-STORE") [O_address; O_address; O_node];
  MkOperation (str "GLOBAL-STORE") [O_symbol; O_node];
  MkOperation (str "BRANCH") [O_node; O_node; O_node];
  MkOperation (str "SEQUENCE") [O_nodes];
  MkOperation (str "LET") [O_names; O_nodes; O_node];
  MkOperation (str "CALL") [O_symbol; O_nodes];
  MkOperation (str "CLOSURE") [O_node];
  MkOperation (str "SOURCE") [O_value];
  MkOperation (str "FUNCTION") [O_name; O_value; O_node; O_value]].

Definition code_version : Z := 1.

Definition code_opcode (op : nat) : Z := fixnum (Z.shiftl code_version 8 + Z.of_nat op).

Definition code_operation_of (opcode : Z) : option nat :=
  if negb (bool_decide (tag_of opcode = T_integer)) then None else
  let index := (integer opcode - Z.shiftl code_version 8)%Z in
  if (index <? 0)%Z || (Z.of_nat (length code_operations) <=? index)%Z then None else Some (Z.to_nat index).

(** The operation of a code record, [None] for any other value. *)
Definition code_record_op (h : heap) (x : Z) : result fault (option nat) :=
  if negb (bool_decide (tag_of x = T_rec)) then Ret None else
  let! xs := hwords T_rec x h in
  Ret match xs with [] => None | opcode :: _ => code_operation_of opcode end.

Definition operand_valid (h : heap) (kind : operand_kind) (x : Z) : result fault bool :=
  match kind with
  | O_value => Ret true
  | O_address => Ret (bool_decide (tag_of x = T_integer) && (0 <=? integer x)%Z)
  | O_symbol => Ret (bool_decide (tag_of x = T_sym))
  | O_name => Ret ((x =? nil)%Z || bool_decide (tag_of x = T_sym))
  | O_node => let! op := code_record_op h x in Ret (bool_decide (is_Some op))
  | O_nodes | O_names => Ret (bool_decide (tag_of x = T_v32))
  end.

(** The operands in order, up to the first that does not fit. *)
Fixpoint operands_fit (h : heap) (kinds : list operand_kind) (xs : list Z) : result fault bool :=
  match kinds, xs with
  | kind :: kinds, x :: xs => let! good := operand_valid h kind x in if good : bool then operands_fit h kinds xs else Ret false
  | _, _ => Ret true
  end.

Definition code_operands_valid (h : heap) (op : nat) (xs : list Z) : result fault bool :=
  let kinds := match code_operations !! op with Some shape => operands shape | None => [] end in
  if negb (length xs =? length kinds) then Ret false else operands_fit h kinds xs.
