(* ===== verification/Tape.v ===== *)
(** * Tapes: heap images (src/src/wisp/tape.hpp, src/src/wisp/tape.cpp)

    [encode] writes a machine with its heap as bytes, and [decode] restores it into a heap of its own. The
    builtins of the evaluator are an argument, the list [jets] of their names and whether they take control;
    a tape that was written with one list may be read with another. The compressed format
    wraps a tape in the output of zlib, which is an argument. Stream I/O is left out. *)
From Stdlib Require Import Sorting.Sorted.
From S2P Require Import Prelude State Hash Word Vat Heap Grow Package Code.

#[local] Set Default Proof Using "Type*".
#[local] Open Scope Z_scope.

Inductive tape_fault :=
| tape_error (what : string)
| heap_error (e : fault)
| name_error (e : wisp_error)
| bad_alloc
| out_of_fuel.

(** What a tape saves: the machine with the sequence of fresh keys and the flag for collections, and the entry. *)
Record image := MkImage {
  machine : evaluator;
  next_key_ : Z;
  collect_ : bool;
  entry : Z;
}.

Definition demand (good : bool) (message : string) : result tape_fault unit := if good then Ret tt else Throw (tape_error message).

(** A call of the heap. *)
Definition of_heap {A} (r : result fault A) : result tape_fault A := match r with Ret a => Ret a | Throw e => Throw (heap_error e) end.

Fixpoint for_each {A} (f : A → result tape_fault unit) (l : list A) : result tape_fault unit :=
  match l with
  | [] => Ret tt
  | x :: l => let! _ := f x in for_each f l
  end.

(** ** The writer *)

Definition magic : bytes := str "NXWISP" ++ [13; 10].
Definition compressed_magic : bytes := str "NXWISPZ" ++ [10].
Definition version : Z := 5.

Definition put_u32 (x : Z) : bytes := [Z.land x 255; Z.land (Z.shiftr x 8) 255; Z.land (Z.shiftr x 16) 255; Z.land (Z.shiftr x 24) 255].

Definition put_count (n : nat) : result tape_fault bytes :=
  let! _ := demand (Z.of_nat n <=? word_limit) "tape count overflow" in Ret (put_u32 (Z.of_nat n)).

Definition put_text (value : bytes) : result tape_fault bytes := let! n := put_count (length value) in Ret (n ++ value).

(** The outputs of a loop. *)
Fixpoint put_all {A} (f : A → result tape_fault bytes) (l : list A) : result tape_fault bytes :=
  match l with
  | [] => Ret []
  | x :: l => let! a := f x in let! b := put_all f l in Ret (a ++ b)
  end.

(** ** The saved roots *)

Inductive saved := S_base | S_keywords | S_keys | S_packages | S_current | S_nil_name | S_true_name | S_known (index : nat).

(** [known_name::find] *)
Definition known_index (name : string) : nat := match list_find (λ n, n = str name) known_names with Some (i, _) => i | None => 0 end%nat.

Definition roots : list (bytes * saved) :=
  [(str "WISP", S_base); (str "KEYWORD", S_keywords); (str "KEY", S_keys); (str "packages", S_packages); (str "current", S_current);
   (str "NIL-name", S_nil_name); (str "T-name", S_true_name)]
  ++ ((λ n : string, (str n, S_known (known_index n))) <$>
      ["DO"; "IF"; "EVAL"; "LET"; "PROMPT"; "BINDING"; "CONTINUATION"; "RESUME"; "&OPTIONAL"; "&REST"; "&BODY"]%string).

Definition root_in (s : saved) (m : evaluator) : Z :=
  match s with
  | S_base => base_ m | S_keywords => keywords_ m | S_keys => keys_ m | S_packages => packages_ m | S_current => current_ m
  | S_nil_name => nil_name_ m | S_true_name => true_name_ m
  | S_known i => nth i (known_ m) 0
  end.

Definition root_put (s : saved) (x : Z) (m : evaluator) : evaluator :=
  let 'MkEvaluator h b kw ks ps c nn tn kn := m in
  match s with
  | S_base => MkEvaluator h x kw ks ps c nn tn kn
  | S_keywords => MkEvaluator h b x ks ps c nn tn kn
  | S_keys => MkEvaluator h b kw x ps c nn tn kn
  | S_packages => MkEvaluator h b kw ks x c nn tn kn
  | S_current => MkEvaluator h b kw ks ps x nn tn kn
  | S_nil_name => MkEvaluator h b kw ks ps c x tn kn
  | S_true_name => MkEvaluator h b kw ks ps c nn x kn
  | S_known i => MkEvaluator h b kw ks ps c nn tn (<[i := x]> kn)
  end.

(** A reader; its state is the bytes that are left. *)
Abbreviation reading := (prog bytes tape_fault).

Section codec.
Context (jets : list (bytes * bool)).

(** ** Validation *)

(** The lambda [value]. *)
Definition check_value (h : heap) (x : Z) : result tape_fault unit :=
  let type := tag_of x in
  if is_pointer type then demand (Bool.eqb (era_of x) (era_ h) && (Z.to_nat (index_of x) <? size_ (htable h type))%nat) "invalid tape pointer"
  else match type with
       | T_integer => Ret tt
       | T_sys => demand ((x =? nil) || (x =? word_t) || (x =? nah) || (x =? top)) "invalid system word"
       | T_chr => let c := payload_of x in demand ((c <=? 0x10ffff) && negb ((0xd800 <=? c) && (c <=? 0xdfff))) "invalid character"
       | T_jet => demand (payload_of x <? Z.of_nat (length jets)) "invalid builtin ID"
       | T_pin => demand ((0 <? payload_of x) && (payload_of x <? next_pin_ h)) "invalid pin handle"
       | _ => Throw (tape_error "unknown word tag")
       end.

Definition is_value (c : Vat.column) : bool := bool_decide (kind c = K_value).

(** The columns of a table, numbered. *)
Definition numbered (t : tag) : list (nat * Vat.column) := zip (seq 0 (width t)) (schema t).

Definition check_columns (h : heap) (t : tag) : result tape_fault unit :=
  for_each (λ nc, if is_value nc.2 then let! xs := of_heap (col (htable h t) nc.1) in for_each (check_value h) xs else Ret tt) (numbered t).

(** The slices of a pool that the rows [i], [i + 1], ... describe, and their lengths added up. *)
Fixpoint check_slices (tb : tab) (size : nat) (n i : nat) (total : Z) : result tape_fault Z :=
  match n with
  | O => Ret total
  | S n =>
      let! r := of_heap (read tb i) in
      let offset := nth 0 r 0 in
      let length := nth 1 r 0 in
      let! _ := demand ((offset <=? Z.of_nat size) && (length <=? Z.of_nat size - offset)) "invalid pool slice" in
      check_slices tb size n (S i) (u64 (total + length))
  end.

Definition check_table (h : heap) (t : tag) : result tape_fault unit :=
  let tb := htable h t in
  let! marks := of_heap (col tb 0) in
  let! _ := for_each (λ x, demand (negb (x =? zap)) "collector forwarding marker in tape") marks in
  let! _ := check_columns h t in
  if bool_decide (t = T_v08) || word_payload t then
    let size := if bool_decide (t = T_v08) then length (bytes_ h) else length (words_ h) in
    let! total := check_slices tb size (size_ tb) 0 0 in
    demand (total <=? word_limit) "collected payload pool would overflow"
  else Ret tt.

(** The first half of [validate]: every word means something in this heap. *)
Definition check_storage (i : image) : result tape_fault unit :=
  let m := machine i in
  let h := heap_ m in
  let! _ := demand (size_ (htable h T_ext) =? 0)%nat "external resources are not portable" in
  let! _ := demand ((1 <=? next_pin_ h) && (next_pin_ h <=? max_immediate + 1)) "invalid next pin ID" in
  let! _ := demand (next_key_ i <? Z.shiftl 1 48) "invalid fresh key sequence" in
  let! _ := check_value h (entry i) in
  let! _ := for_each (λ r : bytes * saved, check_value h (root_in r.2 m)) roots in
  let! _ := for_each (λ p : Z * Z, let! _ := demand ((0 <? p.1) && (p.1 <? next_pin_ h)) "invalid pin ID" in check_value h p.2) (pins_ h) in
  let! _ := for_each (check_value h) (words_ h) in
  for_each (check_table h) vat_tags.

Definition typed (x : Z) (type : tag) : result tape_fault unit := demand (bool_decide (tag_of x = type)) "invalid machine field type".

Definition check_symbol (h : heap) (i : nat) : result tape_fault unit :=
  let! r := of_heap (read (htable h T_sym) i) in
  let! _ := typed (nth 0 r 0) T_v08 in
  if nth 1 r 0 =? nil then Ret tt else typed (nth 1 r 0) T_pkg.

Definition check_record (h : heap) (i : nat) : result tape_fault unit :=
  let x := pointer T_rec (Z.of_nat i) (era_ h) in
  let! op := of_heap (code_record_op h x) in
  match op with
  | Some op =>
      let! xs := of_heap (hwords T_rec x h) in
      let! good := of_heap (code_operands_valid h op (drop 1 xs)) in
      demand good "invalid code record"
  | None => Ret tt
  end.

(** The marks of the cells, 0, 1 or 2. *)
Definition color_of (colors : list nat) (x : Z) : result tape_fault nat :=
  match colors !! Z.to_nat (index_of x) with Some c => Ret c | None => Throw (heap_error assertion) end.

Definition paint (x : Z) (c : nat) (colors : list nat) : list nat := <[Z.to_nat (index_of x) := c]> colors.

(** The two loops of [proper]: down to a cell seen before, and back over the cells of this list. *)
Fixpoint walk_list (fuel : nat) (h : heap) (element : tag) (cur : Z) (colors : list nat) : result tape_fault (list nat) :=
  match fuel with
  | O => Throw out_of_fuel
  | S fuel =>
      if cur =? nil then Ret colors else
      let! _ := typed cur T_duo in
      let! color := color_of colors cur in
      let! _ := demand (negb (color =? 1)%nat) "cyclic machine list" in
      if (color =? 2)%nat then Ret colors else
      let! cell := of_heap (hread T_duo cur h) in
      let! _ := typed (nth 0 cell 0) element in
      walk_list fuel h element (nth 1 cell 0) (paint cur 1 colors)
  end.

Fixpoint settle_list (fuel : nat) (h : heap) (cur : Z) (colors : list nat) : result tape_fault (list nat) :=
  match fuel with
  | O => Throw out_of_fuel
  | S fuel =>
      if cur =? nil then Ret colors else
      let! color := color_of colors cur in
      if negb (color =? 1)%nat then Ret colors else
      let! next := of_heap (hget T_duo F_cdr cur h) in
      settle_list fuel h next (paint cur 2 colors)
  end.

(** A turn of each loop marks a cell. *)
Definition proper (h : heap) (head : Z) (element : tag) (colors : list nat) : result tape_fault (list nat) :=
  let! colors := walk_list (cells h) h element head colors in
  settle_list (cells h) h head colors.

Fixpoint check_packages (h : heap) (n i : nat) (colors : list nat) : result tape_fault unit :=
  match n with
  | O => Ret tt
  | S n =>
      let! r := of_heap (read (htable h T_pkg) i) in
      let! _ := typed (nth 0 r 0) T_v08 in
      let! colors := proper h (nth 1 r 0) T_sym colors in
      check_packages h n (S i) colors
  end.

(** The packages of the list and their names, which must be different. *)
Fixpoint list_packages (fuel : nat) (h : heap) (cur : Z) (packages : list Z) (names : list bytes) : result tape_fault (list Z) :=
  match fuel with
  | O => Throw out_of_fuel
  | S fuel =>
      if cur =? nil then Ret packages else
      let! cell := of_heap (hread T_duo cur h) in
      let pkg := nth 0 cell 0 in
      let! s := of_heap (hget T_pkg F_nam pkg h) in
      let! name := of_heap (v08slice s h) in
      let! _ := demand (negb (bool_decide (pkg ∈ packages)) && negb (bool_decide (name ∈ names))) "duplicate package" in
      list_packages fuel h (nth 1 cell 0) (pkg :: packages) (name :: names)
  end.

(** The root at position [i] of the directory. *)
Definition check_root (m : evaluator) (packages : list Z) (ir : nat * (bytes * saved)) : result tape_fault unit :=
  let h := heap_ m in
  let '(i, (name, s)) := ir in
  let x := root_in s m in
  if (i <? 3)%nat then
    let! _ := demand (bool_decide (x ∈ packages)) "canonical package missing" in
    let! n := of_heap (hget T_pkg F_nam x h) in
    let! text := of_heap (v08slice n h) in
    demand (bool_decide (text = name)) "wrong canonical package"
  else if (i =? 5)%nat || (i =? 6)%nat then
    let! _ := typed x T_v08 in
    let! text := of_heap (v08slice x h) in
    demand (bool_decide (text = (if (i =? 5)%nat then str "NIL" else str "T"))) "invalid immediate name"
  else if (7 <=? i)%nat then
    let! _ := typed x T_sym in
    let! pkg := of_heap (hget T_sym F_pkg x h) in
    (* the name is compared only if the package is the right one *)
    let! same := if pkg =? base_ m then let! n := of_heap (hget T_sym F_str x h) in let! text := of_heap (v08slice n h) in Ret (bool_decide (text = name)) else Ret false in
    demand same "invalid cached symbol"
  else Ret tt.

(** *** Continuations *)

Definition check_continuation (x : Z) : result tape_fault unit := if x =? top then Ret tt else typed x T_ktx.

Definition boundary_kind (m : evaluator) (kind : Z) : bool := (kind =? known "PROMPT" m) || (kind =? known "BINDING" m) || (kind =? known "RESUME" m).

Definition check_segment (m : evaluator) (x : Z) : result tape_fault unit :=
  let! _ := check_continuation x in
  if x =? top then Ret tt else
  let! kind := of_heap (hget T_ktx F_fun x (heap_ m)) in
  demand (negb (boundary_kind m kind) && negb (kind =? known "CONTINUATION" m)) "invalid continuation segment".

Definition check_meta (m : evaluator) (x : Z) : result tape_fault unit :=
  let! _ := check_continuation x in
  if x =? top then Ret tt else
  let! kind := of_heap (hget T_ktx F_fun x (heap_ m)) in
  demand (boundary_kind m kind) "invalid continuation meta chain".

(** The control edges of a continuation. *)
Definition edges_of (m : evaluator) (i : nat) : result tape_fault (Z * Z) :=
  let h := heap_ m in
  let! r := of_heap (hread T_ktx (pointer T_ktx (Z.of_nat i) (era_ h)) h) in
  let hop := nth 0 r 0 in
  let kind := nth 2 r 0 in
  let acc := nth 3 r 0 in
  let arg := nth 4 r 0 in
  if kind =? known "CONTINUATION" m then
    let! _ := demand (hop =? top) "invalid continuation wrapper" in
    let! _ := check_segment m acc in
    let! _ := check_meta m arg in
    Ret (acc, arg)
  else if boundary_kind m kind then
    let! _ := check_meta m hop in
    let! _ := typed arg T_v32 in
    let! xs := of_heap (v32slice arg h) in
    let! _ := demand (length xs =? 2)%nat "invalid continuation boundary" in
    let! _ := check_segment m (nth 1 xs 0) in
    Ret (hop, nth 1 xs 0)
  else
    let! _ := check_segment m hop in
    Ret (hop, top).

Fixpoint all_edges (m : evaluator) (n i : nat) : result tape_fault (list (Z * Z)) :=
  match n with
  | O => Ret []
  | S n => let! e := edges_of m i in let! es := all_edges m n (S i) in Ret (e :: es)
  end.

(** The search for a cycle; the top of the stack comes first. *)
Fixpoint search (fuel : nat) (edges : list (Z * Z)) (pending : list (Z * bool)) (colors : list nat) : result tape_fault (list nat) :=
  match fuel with
  | O => Throw out_of_fuel
  | S fuel =>
      match pending with
      | [] => Ret colors
      | (cur, leaving) :: pending =>
          if cur =? top then search fuel edges pending colors else
          let! color := color_of colors cur in
          if leaving : bool then search fuel edges pending (paint cur 2 colors) else
          let! _ := demand (negb (color =? 1)%nat) "cyclic continuation" in
          if (color =? 2)%nat then search fuel edges pending colors else
          let e := nth (Z.to_nat (index_of cur)) edges (top, top) in
          search fuel edges ((e.2, false) :: (e.1, false) :: (cur, true) :: pending) (paint cur 1 colors)
      end
  end.

(** A search takes a turn for what it starts with, and three for each continuation it marks. *)
Fixpoint search_all (h : heap) (edges : list (Z * Z)) (n i : nat) (colors : list nat) : result tape_fault unit :=
  match n with
  | O => Ret tt
  | S n =>
      let! colors := search (3 * length edges + 2) edges [(pointer T_ktx (Z.of_nat i) (era_ h), false)] colors in
      search_all h edges n (S i) colors
  end.

(** A column of a table by its field. *)
Definition column_of (h : heap) (t : tag) (f : field) : result tape_fault (list Z) := of_heap (col (htable h t) (Heap.column t f)).

Definition check_owner (x : Z) : result tape_fault unit := if x =? nil then Ret tt else typed x T_sym.

(** The second half of [validate]: the shapes that native code relies on. *)
Definition check_machine (m : evaluator) : result tape_fault unit :=
  let h := heap_ m in
  let! _ := for_each (check_symbol h) (seq 0 (size_ (htable h T_sym))) in
  let! _ := for_each (check_record h) (seq 0 (size_ (htable h T_rec))) in
  let white := replicate (size_ (htable h T_duo)) 0%nat in
  let! _ := check_packages h (size_ (htable h T_pkg)) 0 white in
  let! _ := proper h (packages_ m) T_pkg white in
  let! packages := list_packages (cells h) h (packages_ m) [] [] in
  let! _ := demand (bool_decide (current_ m ∈ packages)) "current package missing" in
  let! _ := for_each (check_root m packages) (zip (seq 0 (length roots)) roots) in
  let! edges := all_edges m (size_ (htable h T_ktx)) 0 in
  let! _ := search_all h edges (length edges) 0 (replicate (length edges) 0%nat) in
  let! functions := column_of h T_fun F_sym in
  let! _ := for_each check_owner functions in
  let! macros := column_of h T_mac F_sym in
  let! _ := for_each check_owner macros in
  let! ways := column_of h T_run F_way in
  let! _ := for_each (check_segment m) ways in
  let! chains := column_of h T_run F_meta in
  for_each (check_meta m) chains.

Definition validate (i : image) : result tape_fault unit :=
  let! _ := check_storage i in
  check_machine (machine i).

(** ** Encoding *)

Definition kind_name (kind : field_kind) : bytes :=
  str match kind with K_value => "value" | K_offset => "offset" | K_length => "length" | K_count => "count" | K_external => "external" end.

Definition put_words (xs : list Z) : bytes := concat (put_u32 <$> xs).

Definition put_operation (io : nat * code_operation) : result tape_fault bytes :=
  let '(i, o) := io in
  let! name := put_text (op_name o) in
  let! n := put_count (length (operands o)) in
  let! kinds := put_all (λ k, put_text (operand_name k)) (operands o) in
  Ret (name ++ put_u32 (code_opcode i) ++ n ++ kinds).

Definition put_column (c : Vat.column) : result tape_fault bytes :=
  let! name := put_text (str (Vat.name c)) in
  let! kind := put_text (kind_name (kind c)) in
  Ret (name ++ kind).

Definition put_table (h : heap) (t : tag) : result tape_fault bytes :=
  let tb := htable h t in
  let! size := put_count (size_ tb) in
  let! columns := put_count (width t) in
  let! names := put_all put_column (schema t) in
  let! words := put_all (λ c, let! xs := of_heap (col tb c) in Ret (put_words xs)) (seq 0 (width t)) in
  Ret (put_u32 (tag_number t) ++ size ++ columns ++ names ++ words).

Definition put_root (m : evaluator) (r : bytes * saved) : result tape_fault bytes :=
  let! name := put_text r.1 in Ret (name ++ put_u32 (root_in r.2 m)).

Definition put_jet (j : bytes * bool) : result tape_fault bytes := let! name := put_text j.1 in Ret (name ++ put_u32 (Z.b2z j.2)).

(** A count and then the outputs. *)
Definition put_list {A} (f : A → result tape_fault bytes) (l : list A) : result tape_fault bytes :=
  let! n := put_count (length l) in let! b := put_all f l in Ret (n ++ b).

(** The tape without its checksum. *)
Definition put_image (i : image) : result tape_fault bytes :=
  let m := machine i in
  let h := heap_ m in
  let! directory := put_list (put_root m) roots in
  let! manifest := put_list put_jet jets in
  let! code := put_list put_operation (zip (seq 0 (length code_operations)) code_operations) in
  let! pool := put_text (bytes_ h) in
  let! nwords := put_count (length (words_ h)) in
  let! tables := put_list (put_table h) vat_tags in
  let! npins := put_count (length (pins_ h)) in
  Ret (magic ++ put_u32 version ++ put_u32 (Z.b2z (era_ h)) ++ put_u32 (next_pin_ h) ++ put_u32 (u32 (next_key_ i)) ++ put_u32 (u32 (Z.shiftr (next_key_ i) 32))
       ++ put_u32 (Z.b2z (collect_ i)) ++ put_u32 (entry i) ++ directory ++ manifest ++ put_u32 code_version ++ code ++ pool
       ++ nwords ++ put_words (words_ h) ++ tables ++ npins ++ concat ((λ p : Z * Z, put_u32 p.1 ++ put_u32 p.2) <$> pins_ h)).

Definition encode (i : image) : result tape_fault bytes :=
  let! _ := validate i in
  let! out := put_image i in
  Ret (out ++ Sha256.sha256 out).

(** ** The reader *)

Definition need (good : bool) (message : string) : reading unit := require good (tape_error message).

Definition take_bytes (n : Z) : reading bytes := λ s,
  if n <=? Z.of_nat (length s) then Some (Ret (take (Z.to_nat n) s), drop (Z.to_nat n) s) else Some (Throw (tape_error "truncated tape"), s).

Definition get_u32 : reading Z :=
  data <~ take_bytes 4;
  pret (Z.lor (Z.lor (Z.lor (nth 0 data 0) (Z.shiftl (nth 1 data 0) 8)) (Z.shiftl (nth 2 data 0) 16)) (Z.shiftl (nth 3 data 0) 24)).

Definition get_text : reading bytes := n <~ get_u32; take_bytes n.

Definition get_flag : reading bool := x <~ get_u32; _ <~ need (x <=? 1) "invalid tape flag"; pret (negb (x =? 0)).

(** What is thrown by the heap leaves the reader. *)
Definition on_tables {A} (r : result fault A) : reading A := match r with Ret a => pret a | Throw e => pthrow (heap_error e) end.

(** [std::ranges::find] by name: the position. *)
Definition position {A} (name_of : A → bytes) (name : bytes) (l : list A) : option nat := fst <$> list_find (λ a, name_of a = name) l.

Fixpoint get_roots (n : nat) (seen : list nat) (m : evaluator) : reading evaluator :=
  match n with
  | O => pret m
  | S n =>
      name <~ get_text;
      match position fst name roots with
      | None => pthrow (tape_error "unknown root")
      | Some index =>
          _ <~ need (negb (bool_decide (index ∈ seen))) "duplicate root";
          x <~ get_u32;
          get_roots n (index :: seen) (root_put (snd (nth index roots ([], S_base))) x m)
      end
  end.

(** The builtins of the tape by their positions in this program's list, in reverse. *)
Fixpoint get_jets (n : nat) (jet_map : list nat) : reading (list nat) :=
  match n with
  | O => pret (rev jet_map)
  | S n =>
      name <~ get_text;
      control <~ get_flag;
      match position fst name jets with
      | Some id =>
          _ <~ need (Bool.eqb (snd (nth id jets ([], false))) control) "unsupported builtin";
          _ <~ need (negb (bool_decide (id ∈ jet_map))) "duplicate builtin";
          get_jets n (id :: jet_map)
      | None => pthrow (tape_error "unsupported builtin")
      end
  end.

Fixpoint get_operands (kinds : list operand_kind) : reading unit :=
  match kinds with
  | [] => pret tt
  | k :: kinds => name <~ get_text; _ <~ need (bool_decide (name = operand_name k)) "unsupported code operand"; get_operands kinds
  end.

Fixpoint get_operations (i : nat) (ops : list code_operation) : reading unit :=
  match ops with
  | [] => pret tt
  | o :: ops =>
      name <~ get_text;
      _ <~ need (bool_decide (name = op_name o)) "unsupported code operation";
      opcode <~ get_u32;
      _ <~ need (opcode =? code_opcode i) "unsupported code opcode";
      n <~ get_u32;
      _ <~ need (n =? Z.of_nat (length (operands o))) "unsupported code layout";
      _ <~ get_operands (operands o);
      get_operations (S i) ops
  end.

Fixpoint get_words (n : nat) : reading (list Z) :=
  match n with
  | O => pret []
  | S n => x <~ get_u32; xs <~ get_words n; pret (x :: xs)
  end.

(** The columns of the tape by their positions in the schema. *)
Fixpoint get_columns (t : tag) (n : nat) (seen : list nat) : reading (list nat) :=
  match n with
  | O => pret (rev seen)
  | S n =>
      name <~ get_text;
      kind <~ get_text;
      match position (λ c, str (Vat.name c)) name (schema t) with
      | Some c =>
          _ <~ need (bool_decide (kind_name (Vat.kind (nth c (schema t) (value_column F_car ""))) = kind)) "unsupported column schema";
          _ <~ need (negb (bool_decide (c ∈ seen))) "duplicate column";
          get_columns t n (c :: seen)
      | None => pthrow (tape_error "unsupported column schema")
      end
  end.

(** Rows of zeros. *)
Fixpoint push_rows (t : tag) (n : nat) (tb : tab) : result fault tab :=
  match n with
  | O => Ret tb
  | S n => let! (_, tb) := push tb (replicate (width t) 0) in push_rows t n tb
  end.

(** The words of the rows [i], [i + 1], ... of a column. *)
Fixpoint fill_column (c n i : nat) (tb : tab) : reading tab :=
  match n with
  | O => pret tb
  | S n => x <~ get_u32; tb <~ on_tables (Vat.set tb i c x); fill_column c n (S i) tb
  end.

Fixpoint fill_columns (cs : list nat) (n : nat) (tb : tab) : reading tab :=
  match cs with
  | [] => pret tb
  | c :: cs => tb <~ fill_column c n 0 tb; fill_columns cs n tb
  end.

Definition get_table (t : tag) (tb : tab) : reading tab :=
  rows <~ get_u32;
  _ <~ need (rows <=? max_index + 1) "table count overflow";
  _ <~ need (negb (bool_decide (t = T_ext)) || (rows =? 0)) "external resources are not portable";
  w <~ get_u32;
  _ <~ need (w =? Z.of_nat (width t)) "wrong column count";
  columns <~ get_columns t (width t) [];
  left <~ gets length;
  _ <~ need (rows <=? Z.of_nat left / (4 * Z.of_nat (width t))) "truncated table";
  tb <~ on_tables (reserve tb (Z.to_nat rows));
  tb <~ on_tables (push_rows t (Z.to_nat rows) tb);
  fill_columns columns (Z.to_nat rows) tb.

Fixpoint get_tables (n : nat) (seen : list Z) (v : vat) : reading vat :=
  match n with
  | O => pret v
  | S n =>
      type <~ get_u32;
      _ <~ need (negb (bool_decide (type ∈ seen))) "duplicate table";
      match list_find (λ t, tag_number t = type) vat_tags with
      | Some (_, t) => tb <~ get_table t (table v t); get_tables n (type :: seen) (with_table v t tb)
      | None => pthrow (tape_error "unknown table tag")
      end
  end.

Fixpoint get_pins (n : nat) (pins : list (Z * Z)) : reading (list (Z * Z)) :=
  match n with
  | O => pret pins
  | S n =>
      id <~ get_u32;
      x <~ get_u32;
      _ <~ need (bool_decide (find_pin id pins = None)) "duplicate pin ID";
      get_pins n (Heap.emplace id x pins)
  end.

(** The private constructor of [image]: roots without values. *)
Definition blank_machine : evaluator := MkEvaluator (new_heap false) nil nil nil nil nil nil nil (replicate (length known_names) nil).

(** The whole tape, and the builtins it was written with. *)
Definition get_image : reading (image * list nat) :=
  start <~ take_bytes (Z.of_nat (length magic));
  _ <~ need (bool_decide (start = magic)) "unknown tape magic";
  v <~ get_u32;
  _ <~ need (v =? version) "unsupported tape version";
  era <~ get_flag;
  next_pin <~ get_u32;
  key_low <~ get_u32;
  key_high <~ get_u32;
  collects <~ get_flag;
  e <~ get_u32;
  n <~ get_u32;
  _ <~ need (n =? Z.of_nat (length roots)) "wrong root directory";
  m <~ get_roots (length roots) [] blank_machine;
  n <~ get_u32;
  _ <~ need (n <=? Z.of_nat (length jets)) "unsupported builtin manifest";
  jet_map <~ get_jets (Z.to_nat n) [];
  v <~ get_u32;
  _ <~ need (v =? code_version) "unsupported code version";
  n <~ get_u32;
  _ <~ need (n =? Z.of_nat (length code_operations)) "unsupported code manifest";
  _ <~ get_operations 0 code_operations;
  pool <~ get_text;
  n <~ get_u32;
  left <~ gets length;
  _ <~ need (n <=? Z.of_nat left / 4) "truncated word pool";
  words <~ get_words (Z.to_nat n);
  n <~ get_u32;
  _ <~ need (n =? Z.of_nat (length vat_tags)) "wrong table directory";
  tables <~ get_tables (length vat_tags) [] empty_vat;
  n <~ get_u32;
  left <~ gets length;
  _ <~ need (n <=? Z.of_nat left / 8) "truncated pin map";
  pins <~ get_pins (Z.to_nat n) [];
  left <~ gets length;
  _ <~ need (left =? 0)%nat "trailing tape bytes";
  let h := MkHeap tables pool words pins next_pin None era 0 false ∅ in
  pret (MkImage (set_heap h m) (Z.lor key_low (Z.shiftl key_high 32)) collects e, jet_map).

(** ** Restoring *)

Definition remap (jet_map : list nat) (x : Z) : result tape_fault Z :=
  if negb (bool_decide (tag_of x = T_jet)) then Ret x else
  match jet_map !! Z.to_nat (payload_of x) with
  | Some id => Ret (immediate T_jet (Z.of_nat id))
  | None => Throw (tape_error "invalid saved builtin ID")
  end.

Fixpoint remap_all (jet_map : list nat) (xs : list Z) : result tape_fault (list Z) :=
  match xs with
  | [] => Ret []
  | x :: xs => let! y := remap jet_map x in let! ys := remap_all jet_map xs in Ret (y :: ys)
  end.

Fixpoint remap_roots (jet_map : list nat) (rs : list (bytes * saved)) (m : evaluator) : result tape_fault evaluator :=
  match rs with
  | [] => Ret m
  | r :: rs => let! y := remap jet_map (root_in r.2 m) in remap_roots jet_map rs (root_put r.2 y m)
  end.

Fixpoint remap_rows (jet_map : list nat) (c n i : nat) (tb : tab) : result tape_fault tab :=
  match n with
  | O => Ret tb
  | S n =>
      let! x := of_heap (Vat.get tb i c) in
      let! y := remap jet_map x in
      let! tb := of_heap (Vat.set tb i c y) in
      remap_rows jet_map c n (S i) tb
  end.

Fixpoint remap_columns (jet_map : list nat) (cs : list (nat * Vat.column)) (tb : tab) : result tape_fault tab :=
  match cs with
  | [] => Ret tb
  | (c, k) :: cs => let! tb := (if is_value k then remap_rows jet_map c (size_ tb) 0 tb else Ret tb) in remap_columns jet_map cs tb
  end.

Fixpoint remap_tables (jet_map : list nat) (ts : list tag) (v : vat) : result tape_fault vat :=
  match ts with
  | [] => Ret v
  | t :: ts => let! tb := remap_columns jet_map (numbered t) (table v t) in remap_tables jet_map ts (with_table v t tb)
  end.

Definition relocate (jet_map : list nat) (i : image) : result tape_fault image :=
  let h := heap_ (machine i) in
  let! e := remap jet_map (entry i) in
  let! m := remap_roots jet_map roots (machine i) in
  let! pins := remap_all jet_map (pins_ h).*2 in
  let! words := remap_all jet_map (words_ h) in
  let! v := remap_tables jet_map vat_tags (vat_ h) in
  let h := set_vat (set_words (set_pins h (zip (pins_ h).*1 pins) (next_pin_ h)) words) v in
  Ret (MkImage (set_heap h m) (next_key_ i) (collect_ i) e).

(** [install_known] and [freeze_continuations] at the end of [decode]. *)
Definition finish (i : image) : option (result tape_fault image) :=
  match install_known (machine i) with
  | None => None
  | Some (Throw e, _) => Some (Throw (name_error e))
  | Some (Ret _, m) => Some (Ret (MkImage (set_heap (freeze_continuations (heap_ m)) m) (next_key_ i) (collect_ i) (entry i)))
  end.

(** What the tape says, checked and read but not finished. *)
Definition restore (data : bytes) (limit : nat) : result tape_fault image :=
  let! _ := demand (length data <=? limit)%nat "tape exceeds input limit" in
  let! _ := demand (length magic + 4 + 32 <=? length data)%nat "truncated tape" in
  let body := take (length data - 32) data in
  let! _ := demand (bool_decide (Sha256.sha256 body = drop (length data - 32) data)) "tape checksum mismatch" in
  match get_image body with
  | None => Throw out_of_fuel
  | Some (Throw e, _) => Throw e
  | Some (Ret (i, jet_map), _) =>
      let! i := relocate jet_map i in
      let! _ := validate i in
      Ret i
  end.

Definition decode (data : bytes) (limit : nat) : option (result tape_fault image) :=
  match restore data limit with
  | Throw e => Some (Throw e)
  | Ret i => finish i
  end.

End codec.

(** ** Reading back what was written *)

Definition reads {A} (m : reading A) (w : bytes) (a : A) : Prop := ∀ rest, m (w ++ rest) = Some (Ret a, rest).

Lemma reads_nothing {A} (a : A) : reads (pret a) [] a.
Proof. done. Qed.

Lemma reads_both {A B} (m : reading A) (k : A → reading B) w w' a b : reads m w a → reads (k a) w' b → reads (pbind m k) (w ++ w') b.
Proof. intros Hm Hk rest. unfold pbind. rewrite <- app_assoc, Hm. apply Hk. Qed.

Lemma reads_need {B} good message (k : unit → reading B) w b : good = true → reads (k tt) w b → reads (pbind (need good message) k) w b.
Proof. intros -> Hk rest. apply Hk. Qed.

(** A check of how much is left, which what is read passes. *)
Lemma reads_left {B} (p : nat → bool) message (k : reading B) w b : (∀ n, (length w ≤ n)%nat → p n = true) → reads k w b → reads (pbind (gets length) (λ left, pbind (need (p left) message) (λ _, k))) w b.
Proof. intros Hp Hk rest. unfold pbind, gets, need, require. rewrite Hp by (rewrite length_app; lia). apply Hk. Qed.

Lemma reads_take w n : n = Z.of_nat (length w) → reads (take_bytes n) w w.
Proof.
  intros -> rest. unfold take_bytes. rewrite (proj2 (Z.leb_le _ _)) by (rewrite length_app; lia). rewrite Nat2Z.id, take_app_length, drop_app_length. done.
Qed.

Lemma u32_bytes x : is_word x → Z.lor (Z.lor (Z.lor (Z.land x 255) (Z.shiftl (Z.land (Z.shiftr x 8) 255) 8)) (Z.shiftl (Z.land (Z.shiftr x 16) 255) 16)) (Z.shiftl (Z.land (Z.shiftr x 24) 255) 24) = x.
Proof.
  intros [Hx0 Hx]. apply Z.bits_inj'. intros i Hi. rewrite !Z.lor_spec, !Z.shiftl_spec, !Z.land_spec by done. change 255 with (Z.ones 8).
  destruct (Z.lt_ge_cases i 32) as [Hlt|Hge].
  - assert (∀ k, 0 ≤ k → Z.testbit (Z.ones 8) k = (k <? 8)) as Hones by (intros k Hk; rewrite Z.testbit_ones_nonneg by lia; done).
    destruct (Z.lt_ge_cases i 8); [|destruct (Z.lt_ge_cases i 16); [|destruct (Z.lt_ge_cases i 24)]].
    + rewrite !(Z.testbit_neg_r _ (i - _)) by lia. rewrite Hones by lia. rewrite (proj2 (Z.ltb_lt _ _)) by lia. by rewrite andb_true_r, ?andb_false_r, ?orb_false_r.
    + rewrite !(Z.testbit_neg_r _ (i - 16)), !(Z.testbit_neg_r _ (i - 24)) by lia. rewrite !Hones by lia. rewrite (proj2 (Z.ltb_ge i 8)), (proj2 (Z.ltb_lt (i - 8) 8)) by lia. rewrite Z.shiftr_spec by lia. replace (i - 8 + 8) with i by lia. by rewrite andb_true_r, ?andb_false_r, ?orb_false_r.
    + rewrite !(Z.testbit_neg_r _ (i - 24)) by lia. rewrite !Hones by lia. rewrite (proj2 (Z.ltb_ge i 8)), (proj2 (Z.ltb_ge (i - 8) 8)), (proj2 (Z.ltb_lt (i - 16) 8)) by lia. rewrite !Z.shiftr_spec by lia. replace (i - 16 + 16) with i by lia. by rewrite andb_true_r, ?andb_false_r, ?orb_false_r.
    + rewrite !Hones by lia. rewrite (proj2 (Z.ltb_ge i 8)), (proj2 (Z.ltb_ge (i - 8) 8)), (proj2 (Z.ltb_ge (i - 16) 8)), (proj2 (Z.ltb_lt (i - 24) 8)) by lia. rewrite !Z.shiftr_spec by lia. replace (i - 24 + 24) with i by lia. by rewrite andb_true_r, ?andb_false_r, ?orb_false_r.
  - assert (∀ k, 8 ≤ k → Z.testbit (Z.ones 8) k = false) as Hones by (intros k Hk; rewrite Z.testbit_ones_nonneg by lia; apply Z.ltb_ge; lia). rewrite !Hones by lia. rewrite !andb_false_r. symmetry. destruct (Z.eq_dec x 0) as [->|Hne]; [by rewrite Z.bits_0|]. apply Z.bits_above_log2; [lia|]. apply Z.log2_lt_pow2; [lia|]. apply (Z.lt_le_trans _ (2 ^ 32)); [lia|]. apply Z.pow_le_mono_r; lia.
Qed.

Lemma reads_u32 x : is_word x → reads get_u32 (put_u32 x) x.
Proof. intros Hx rest. unfold get_u32, pbind. rewrite (reads_take (put_u32 x) 4 eq_refl rest). cbn [nth put_u32 pret]. unfold pret. by rewrite u32_bytes. Qed.

Lemma put_u32_length x : length (put_u32 x) = 4%nat.
Proof. done. Qed.

Lemma magic_length : length magic = 8%nat.
Proof. done. Qed.

#[local] Opaque put_u32 magic.

Lemma put_count_inv n w : put_count n = Ret w → w = put_u32 (Z.of_nat n) ∧ is_word (Z.of_nat n).
Proof. unfold put_count, demand, word_limit, is_word. destruct (Z.leb_spec (Z.of_nat n) (2 ^ 32 - 1)); [|done]. intros [= <-]. split; [done|lia]. Qed.

Lemma reads_text s w : put_text s = Ret w → reads get_text w s.
Proof. intros E. unfold put_text in E. apply bind_ret in E as (n & En & [= <-]). apply put_count_inv in En as [-> Hn]. eapply reads_both; [by apply reads_u32|]. by apply reads_take. Qed.

Lemma reads_flag b : reads get_flag (put_u32 (Z.b2z b)) b.
Proof.
  rewrite <- (app_nil_r (put_u32 _)). eapply reads_both; [apply reads_u32; by destruct b|]. apply reads_need; [by destruct b|]. destruct b; apply reads_nothing.
Qed.

Lemma reads_words xs : Forall is_word xs → reads (get_words (length xs)) (put_words xs) xs.
Proof.
  induction 1 as [|x xs Hx _ IH]; [apply reads_nothing|]. cbn [length get_words]. unfold put_words. cbn [fmap list_fmap concat]. eapply reads_both; [by apply reads_u32|]. rewrite <- (app_nil_r (concat _)). eapply reads_both; [exact IH|apply reads_nothing].
Qed.

Lemma put_words_length xs : length (put_words xs) = (4 * length xs)%nat.
Proof. unfold put_words. induction xs as [|x xs IH]; [done|]. cbn [fmap list_fmap concat length]. rewrite length_app, put_u32_length, IH. lia. Qed.

(** *** Directories: lists of names *)

Lemma position_nth {A} (f : A → bytes) l i a : NoDup (f <$> l) → l !! i = Some a → position f (f a) l = Some i.
Proof.
  intros Hnd Hi. unfold position. assert (list_find (λ b, f b = f a) l = Some (i, a)) as ->; [|done]. apply list_find_Some. split_and!; [done|done|]. intros j b Hj Hlt E.
  pose proof (NoDup_lookup (f <$> l) j i (f a) Hnd) as H. rewrite !list_lookup_fmap, Hj, Hi in H. cbn in H. rewrite E in H. specialize (H eq_refl eq_refl). lia.
Qed.

Lemma lookup_suffix {A} (l pre rest : list A) a : l = pre ++ a :: rest → l !! length pre = Some a.
Proof. intros ->. by rewrite lookup_app_r, Nat.sub_diag by lia. Qed.

Lemma nth_lookup_eq {A} (l : list A) i a d : l !! i = Some a → nth i l d = a.
Proof. intros H. by apply nth_lookup_Some. Qed.

Lemma not_seen (k : nat) : negb (bool_decide (k ∈ rev (seq 0 k))) = true.
Proof. rewrite bool_decide_false; [done|]. rewrite list_elem_of_In, <- in_rev, in_seq. lia. Qed.

Lemma rev_seq_S k : k :: rev (seq 0 k) = rev (seq 0 (S k)).
Proof. rewrite seq_S, rev_app_distr. done. Qed.

(** The roots that were put, in order. *)
Definition fill_roots (m : evaluator) (rs : list (bytes * saved)) (m0 : evaluator) : evaluator := foldl (λ m0 r, root_put r.2 (root_in r.2 m) m0) m0 rs.

Lemma root_names_nodup : NoDup roots.*1.
Proof. apply (bool_decide_unpack _). vm_compute. done. Qed.

Lemma reads_roots m rs : (∀ r, r ∈ rs → is_word (root_in r.2 m)) → ∀ pre w m0, roots = pre ++ rs → put_all (put_root m) rs = Ret w →
  reads (get_roots (length rs) (rev (seq 0 (length pre))) m0) w (fill_roots m rs m0).
Proof.
  induction rs as [|r rs IH]; intros Hw pre w m0 Hr E; cbn [put_all] in E; [injection E as <-; apply reads_nothing|].
  apply bind_ret in E as (a & Ea & E). apply bind_ret in E as (b & Eb & [= <-]). unfold put_root in Ea. apply bind_ret in Ea as (name & En & [= <-]).
  cbn [length get_roots]. rewrite <- app_assoc. eapply reads_both; [by apply reads_text|]. cbv beta. rewrite (position_nth fst roots (length pre) r root_names_nodup (lookup_suffix _ _ _ _ Hr)).
  apply reads_need; [apply not_seen|]. eapply reads_both; [apply reads_u32, Hw; by constructor|]. rewrite (nth_lookup_eq _ _ _ _ (lookup_suffix _ _ _ _ Hr)), rev_seq_S.
  specialize (IH (λ r' Hr', Hw r' ltac:(by constructor)) (pre ++ [r]) b (root_put r.2 (root_in r.2 m) m0)). rewrite length_app in IH. cbn [length] in IH. rewrite Nat.add_1_r in IH. apply IH; [by rewrite <- app_assoc|done].
Qed.

Lemma reads_jets (jets : list (bytes * bool)) rs : NoDup jets.*1 → ∀ pre w, jets = pre ++ rs → put_all put_jet rs = Ret w → reads (get_jets jets (length rs) (rev (seq 0 (length pre)))) w (seq 0 (length jets)).
Proof.
  intros Hnd. induction rs as [|r rs IH]; intros pre w Hr E; cbn [put_all] in E.
  - injection E as <-. cbn [length get_jets]. rewrite Hr, app_nil_r, rev_involutive. apply reads_nothing.
  - apply bind_ret in E as (a & Ea & E). apply bind_ret in E as (b & Eb & [= <-]). unfold put_jet in Ea. apply bind_ret in Ea as (name & En & [= <-]).
    cbn [length get_jets]. rewrite <- app_assoc. eapply reads_both; [by apply reads_text|]. eapply reads_both; [apply reads_flag|]. cbv beta. rewrite (position_nth fst jets (length pre) r Hnd (lookup_suffix _ _ _ _ Hr)).
    apply reads_need; [rewrite (nth_lookup_eq _ _ _ _ (lookup_suffix _ _ _ _ Hr)); apply Bool.eqb_reflx|]. apply reads_need; [apply not_seen|]. rewrite rev_seq_S.
    specialize (IH (pre ++ [r]) b). rewrite length_app in IH. cbn [length] in IH. rewrite Nat.add_1_r in IH. apply IH; [by rewrite <- app_assoc|done].
Qed.

Lemma schema_names_nodup t : NoDup ((λ c, str (Vat.name c)) <$> schema t).
Proof. destruct t; apply (bool_decide_unpack _); vm_compute; done. Qed.

Lemma reads_columns t cs : ∀ pre w, schema t = pre ++ cs → put_all put_column cs = Ret w → reads (get_columns t (length cs) (rev (seq 0 (length pre)))) w (seq 0 (width t)).
Proof.
  induction cs as [|c cs IH]; intros pre w Hr E; cbn [put_all] in E.
  - injection E as <-. cbn [length get_columns]. unfold width. rewrite Hr, app_nil_r, rev_involutive. apply reads_nothing.
  - apply bind_ret in E as (a & Ea & E). apply bind_ret in E as (b & Eb & [= <-]). unfold put_column in Ea. apply bind_ret in Ea as (name & En & Ea). apply bind_ret in Ea as (kd & Ek & [= <-]).
    cbn [length get_columns]. rewrite <- app_assoc. eapply reads_both; [by apply reads_text|]. eapply reads_both; [by apply reads_text|]. cbv beta.
    rewrite (position_nth (λ c, str (Vat.name c)) (schema t) (length pre) c (schema_names_nodup t) (lookup_suffix _ _ _ _ Hr)).
    apply reads_need; [rewrite (nth_lookup_eq _ _ _ _ (lookup_suffix _ _ _ _ Hr)); by apply bool_decide_eq_true|]. apply reads_need; [apply not_seen|]. rewrite rev_seq_S.
    specialize (IH (pre ++ [c]) b). rewrite length_app in IH. cbn [length] in IH. rewrite Nat.add_1_r in IH. apply IH; [by rewrite <- app_assoc|done].
Qed.

Lemma reads_operands ks : ∀ w, put_all (λ k, put_text (operand_name k)) ks = Ret w → reads (get_operands ks) w tt.
Proof.
  induction ks as [|k ks IH]; intros w E; cbn [put_all] in E; [injection E as <-; apply reads_nothing|]. apply bind_ret in E as (a & Ea & E). apply bind_ret in E as (b & Eb & [= <-]).
  cbn [get_operands]. eapply reads_both; [by apply reads_text|]. apply reads_need; [by apply bool_decide_eq_true|]. by apply IH.
Qed.

Lemma code_opcode_word i : (i < 1000)%nat → is_word (code_opcode i).
Proof. intros Hi. unfold code_opcode. rewrite fixnum_arith. unfold is_word. pose proof (Z.mod_pos_bound (Z.shiftl code_version 8 + Z.of_nat i) (2 ^ 31)). lia. Qed.

Lemma reads_operations ops : ∀ i w, (i + length ops < 1000)%nat → put_all put_operation (zip (seq i (length ops)) ops) = Ret w → reads (get_operations i ops) w tt.
Proof.
  induction ops as [|o ops IH]; intros i w Hi E; cbn [length seq zip zip_with put_all] in E; [injection E as <-; apply reads_nothing|]. apply bind_ret in E as (a & Ea & E). apply bind_ret in E as (b & Eb & [= <-]).
  unfold put_operation in Ea. apply bind_ret in Ea as (name & En & Ea). apply bind_ret in Ea as (n & Ec & Ea). apply bind_ret in Ea as (kinds & Ek & [= <-]). apply put_count_inv in Ec as [-> Hc].
  cbn [length] in Hi. cbn [get_operations]. rewrite <- !app_assoc. eapply reads_both; [by apply reads_text|]. apply reads_need; [by apply bool_decide_eq_true|]. eapply reads_both; [apply reads_u32, code_opcode_word; lia|]. apply reads_need; [apply Z.eqb_refl|].
  eapply reads_both; [by apply reads_u32|]. apply reads_need; [apply Z.eqb_refl|]. eapply reads_both; [by apply reads_operands|]. apply IH; [lia|done].
Qed.

(** *** Tables *)

Lemma push_rows_ok t n : ∀ tb, tab_ok (width t) tb → Z.of_nat (size_ tb + n) ≤ max_rows →
  ∃ tb', push_rows t n tb = Ret tb' ∧ tab_ok (width t) tb' ∧ rows tb' = rows tb ++ replicate n (replicate (width t) 0).
Proof.
  induction n as [|n IH]; intros tb Hok Hn; cbn [push_rows]; [exists tb; by rewrite app_nil_r|].
  destruct (push_ok (width t) tb (replicate (width t) 0) Hok (length_replicate _ _) ltac:(lia)) as (tb1 & -> & Hok1 & Hr1 & Hs1 & _). cbn [bind].
  destruct (IH tb1 Hok1 ltac:(lia)) as (tb2 & -> & Hok2 & Hr2). exists tb2. split_and!; [done|done|]. rewrite Hr2, Hr1, <- app_assoc. done.
Qed.

Lemma reads_column w c xs : (c < w)%nat → Forall is_word xs → ∀ done_ todo tb, tab_ok w tb → rows tb = done_ ++ todo → length todo = length xs →
  ∃ tb', reads (fill_column c (length xs) (length done_) tb) (put_words xs) tb' ∧ tab_ok w tb' ∧ rows tb' = done_ ++ zip_with (λ r x, <[c := x]> r) todo xs.
Proof.
  intros Hc Hxs. induction Hxs as [|x xs Hx Hxs IH]; intros done_ todo tb Hok Hr Hl; destruct todo as [|r todo]; try done.
  - exists tb. split_and!; [apply reads_nothing|done|by rewrite Hr].
  - destruct (set_ok w tb (length done_) c x r Hok (lookup_suffix _ _ _ _ Hr) Hc) as (tb1 & E1 & Hok1 & Hr1 & _ & _).
    rewrite Hr, insert_app_r_alt, Nat.sub_diag in Hr1 by lia. cbn [insert list_insert] in Hr1.
    destruct (IH (done_ ++ [<[c := x]> r]) todo tb1 Hok1 ltac:(by rewrite Hr1, <- app_assoc) ltac:(by injection Hl)) as (tb2 & R2 & Hok2 & Hr2).
    exists tb2. split_and!; [|done|by rewrite Hr2, <- app_assoc]. cbn [length fill_column]. unfold put_words. cbn [fmap list_fmap concat]. eapply reads_both; [by apply reads_u32|].
    unfold on_tables. rewrite E1. rewrite length_app in R2. cbn [length] in R2. rewrite Nat.add_1_r in R2. exact R2.
Qed.

(** The rows whose first [k] words are in place. *)
Definition partly (w k : nat) (R : list row) : list row := (λ r, take k r ++ replicate (w - k) 0) <$> R.

Lemma partly_step w k R : (k < w)%nat → Forall (λ r, length r = w) R → zip_with (λ r x, <[k := x]> r) (partly w k R) ((λ r, default 0 (r !! k)) <$> R) = partly w (S k) R.
Proof.
  intros Hk HR. induction HR as [|r R Hr _ IH]; [done|]. cbn [partly fmap list_fmap zip_with]. fold (partly w k R). fold (partly w (S k) R). rewrite IH. f_equal. destruct (lookup_lt_is_Some_2 r k ltac:(lia)) as [x E]. rewrite E. cbn [default].
  rewrite insert_app_r_alt by (rewrite length_take; lia). rewrite length_take, Nat.min_l, Nat.sub_diag by lia. replace (w - k)%nat with (S (w - S k)) by lia. cbn [replicate insert list_insert]. rewrite (take_S_r _ _ _ E), <- app_assoc. done.
Qed.

Lemma reads_fill w R n : Forall (λ r, length r = w) R → Forall (Forall is_word) R → ∀ k tb words, (k + n = w)%nat → tab_ok w tb → rows tb = partly w k R →
  put_all (λ c, Ret (put_words ((λ r, default 0 (r !! c)) <$> R))) (seq k n) = Ret words →
  ∃ tb', reads (fill_columns (seq k n) (length R) tb) words tb' ∧ tab_ok w tb' ∧ rows tb' = R.
Proof.
  intros HR HW. induction n as [|n IH]; intros k tb words Hk Hok Hr E; cbn [seq put_all] in E.
  - injection E as <-. exists tb. split_and!; [apply reads_nothing|done|]. rewrite Hr. unfold partly. replace k with w by lia. rewrite Nat.sub_diag. cbn [replicate]. clear -HR. induction HR as [|r R Hr _ IH]; [done|]. cbn [fmap list_fmap]. rewrite IH, app_nil_r, take_ge by lia. done.
  - cbn [bind] in E. apply bind_ret in E as (rest & Er & [= <-]). set (xs := (λ r, default 0 (r !! k)) <$> R) in *.
    assert (Forall is_word xs) as Hxs. { apply Forall_fmap. apply Forall_forall. intros r Hin. cbn. rewrite Forall_forall in HR, HW. destruct (lookup_lt_is_Some_2 r k) as [x E]; [rewrite (HR r Hin); lia|]. rewrite E. cbn. eapply Forall_forall; [exact (HW r Hin)|]. by eapply list_elem_of_lookup_2. }
    assert (length xs = length R) as Lx by apply length_fmap.
    destruct (reads_column w k xs ltac:(lia) Hxs [] (partly w k R) tb Hok Hr ltac:(unfold partly; by rewrite !length_fmap)) as (tb1 & R1 & Hok1 & Hr1). cbn [app length] in R1, Hr1. unfold xs in Hr1. rewrite partly_step in Hr1 by (done || lia).
    destruct (IH (S k) tb1 rest ltac:(lia) Hok1 Hr1 Er) as (tb2 & R2 & Hok2 & Hr2). exists tb2. split_and!; [|done|done]. cbn [seq fill_columns]. eapply reads_both; [rewrite <- Lx; exact R1|exact R2].
Qed.

Lemma put_all_ext {A} (f g : A → result tape_fault bytes) l : (∀ x, x ∈ l → f x = g x) → put_all f l = put_all g l.
Proof. induction l as [|x l IH]; intros H; [done|]. cbn [put_all]. rewrite (H x) by constructor. rewrite IH; [done|]. intros y Hy. apply H. by constructor. Qed.

Lemma put_columns_length R cs : ∀ words, put_all (λ c, Ret (put_words ((λ r : row, default 0 (r !! c)) <$> R))) cs = Ret words → length words = (4 * length cs * length R)%nat.
Proof.
  induction cs as [|c cs IH]; intros words E; cbn [put_all bind] in E; [by injection E as <-|]. apply bind_ret in E as (rest & Er & [= <-]). rewrite length_app, put_words_length, length_fmap, (IH rest Er). cbn [length]. lia.
Qed.

Lemma reads_table h t w : is_pointer t = true → tab_ok (width t) (htable h t) → Forall (Forall is_word) (rows (htable h t)) → (t = T_ext → size_ (htable h t) = 0%nat) → put_table h t = Ret w →
  ∃ w' tb', w = put_u32 (tag_number t) ++ w' ∧ reads (get_table t (empty_tab t)) w' tb' ∧ tab_ok (width t) tb' ∧ rows tb' = rows (htable h t).
Proof.
  intros Ht Hok HW Hext E. unfold put_table in E. set (tb := htable h t) in *. apply bind_ret in E as (s & Es & E). apply bind_ret in E as (c & Ec & E). apply bind_ret in E as (names & En & E). apply bind_ret in E as (words & Ew & [= <-]).
  apply put_count_inv in Es as [-> Hs]. apply put_count_inv in Ec as [-> Hc]. assert (0 < width t)%nat as Hw by (destruct t; try done; cbn; lia).
  rewrite (put_all_ext _ (λ c, Ret (put_words ((λ r : row, default 0 (r !! c)) <$> rows tb)))) in Ew by (intros k Hk; apply list_elem_of_In, in_seq in Hk; rewrite (col_ok (width t) tb k Hok) by lia; done).
  pose proof (put_columns_length _ _ _ Ew) as Hlen. rewrite length_seq, rows_length in Hlen.
  assert (Z.of_nat (size_ tb) ≤ max_rows) as Hmax by (pose proof (ok_size _ _ Hok); pose proof (ok_capacity _ _ Hok); lia).
  destruct (reserve_ok (width t) (empty_tab t) (size_ tb) (empty_tab_ok t) Hmax) as (tb1 & E1 & Hok1 & Hr1 & Hs1 & _).
  destruct (push_rows_ok t (size_ tb) tb1 Hok1 ltac:(rewrite Hs1; cbn; lia)) as (tb2 & E2 & Hok2 & Hr2).
  destruct (reads_fill (width t) (rows tb) (width t) (rows_width _ _ Hok) HW 0 tb2 words ltac:(lia) Hok2) as (tb3 & R3 & Hok3 & Hr3).
  { rewrite Hr2, Hr1. unfold partly. rewrite Nat.sub_0_r. change (rows (empty_tab t)) with ([] : list row). cbn [app]. rewrite <- rows_length. generalize (rows tb). clear. intros R. induction R as [|r R IH]; [done|]. cbn [length replicate fmap list_fmap]. rewrite <- IH. by rewrite take_0. }
  { exact Ew. }
  exists (put_u32 (Z.of_nat (size_ tb)) ++ put_u32 (Z.of_nat (width t)) ++ names ++ words), tb3. split_and!; [done| |done|done].
  unfold get_table. eapply reads_both; [by apply reads_u32|]. apply reads_need; [apply Z.leb_le; exact Hmax|]. apply reads_need; [case_bool_decide as Hx; [rewrite (Hext Hx); done|done]|].
  eapply reads_both; [by apply reads_u32|]. apply reads_need; [apply Z.eqb_refl|]. eapply reads_both; [exact (reads_columns t (schema t) [] names eq_refl En)|]. rewrite !Nat2Z.id.
  apply (reads_left (λ left, Z.of_nat (size_ tb) <=? Z.of_nat left / (4 * Z.of_nat (width t)))).
  - intros n Hn. apply Z.leb_le. apply Z.div_le_lower_bound; [lia|]. nia.
  - intros rest. unfold on_tables, pbind. rewrite E1. cbv beta iota delta [pret]. rewrite E2. rewrite <- rows_length. apply R3.
Qed.

(** What a tape needs of the tables of a heap. *)
Record tables_ok (h : heap) : Prop := {
  tk_tabs : ∀ t, is_pointer t = true → tab_ok (width t) (htable h t);
  tk_words : ∀ t, is_pointer t = true → Forall (Forall is_word) (rows (htable h t));
  tk_ext : size_ (htable h T_ext) = 0%nat;
}.

Lemma tag_number_inj t u : tag_number t = tag_number u → t = u.
Proof. intros E. rewrite <- (tag_at_number t), <- (tag_at_number u). by rewrite E. Qed.

Lemma find_tag_number t : is_pointer t = true → list_find (λ u, tag_number u = tag_number t) vat_tags = Some (vat_index t, t).
Proof. destruct t; try done; intros _; vm_compute; reflexivity. Qed.

Lemma tag_number_word t : is_word (tag_number t).
Proof. by destruct t. Qed.

Lemma vat_tags_pointers t : t ∈ vat_tags → is_pointer t = true.
Proof. apply pointer_tags. Qed.

Lemma empty_vat_table t : is_pointer t = true → table empty_vat t = empty_tab t.
Proof. by destruct t. Qed.

Lemma reads_tables h ts : tables_ok h → ∀ pre seen v w, vat_tags = pre ++ ts → (∀ x, x ∈ seen ↔ x ∈ tag_number <$> pre) → length v = 11%nat →
  (∀ u, u ∈ pre → tab_ok (width u) (table v u) ∧ rows (table v u) = rows (htable h u)) → (∀ u, u ∈ ts → table v u = empty_tab u) → put_all (put_table h) ts = Ret w →
  ∃ v', reads (get_tables (length ts) seen v) w v' ∧ length v' = 11%nat ∧ ∀ u, u ∈ vat_tags → tab_ok (width u) (table v' u) ∧ rows (table v' u) = rows (htable h u).
Proof.
  intros Hh. induction ts as [|t ts IH]; intros pre seen v w Hp Hseen Hlv Hpre Hts E; cbn [put_all] in E.
  - injection E as <-. exists v. split_and!; [apply reads_nothing|done|]. intros u Hu. apply Hpre. by rewrite Hp, app_nil_r in Hu.
  - apply bind_ret in E as (a & Ea & E). apply bind_ret in E as (b & Eb & [= <-]). assert (NoDup vat_tags) as Hnd by (apply (bool_decide_unpack _); vm_compute; done). assert (t ∈ vat_tags) as Hin by (rewrite Hp; apply elem_of_app; right; constructor). pose proof (vat_tags_pointers t Hin) as Ht.
    destruct (reads_table h t a Ht (tk_tabs _ Hh t Ht) (tk_words _ Hh t Ht) ltac:(intros ->; apply (tk_ext _ Hh)) Ea) as (w' & tb' & -> & Rt & Hok & Hr).
    assert (t ∉ pre) as Hni. { rewrite Hp in Hnd. apply NoDup_app in Hnd as (_ & Hd & _). intros H. apply (Hd t H). constructor. }
    destruct (IH (pre ++ [t]) (tag_number t :: seen) (with_table v t tb') b) as (v' & Rv & Hl' & Hall).
    + by rewrite <- app_assoc.
    + intros x. rewrite elem_of_cons, Hseen, fmap_app, elem_of_app. cbn [fmap list_fmap]. rewrite list_elem_of_singleton. tauto.
    + by rewrite with_table_length.
    + intros u [Hu| ->%list_elem_of_singleton]%elem_of_app; [|by rewrite table_with_eq]. rewrite table_with_ne; [by apply Hpre|done|apply vat_tags_pointers; rewrite Hp; apply elem_of_app; by left|congruence].
    + intros u Hu. rewrite Hp in Hnd. apply NoDup_app in Hnd as (_ & _ & Hnd). apply NoDup_cons in Hnd as [Hnt _]. rewrite table_with_ne; [apply Hts; by constructor|done|apply vat_tags_pointers; rewrite Hp; apply elem_of_app; right; by constructor|congruence].
    + done.
    + exists v'. split_and!; [|done|done]. cbn [length get_tables]. rewrite <- app_assoc. eapply reads_both; [apply reads_u32, tag_number_word|].
      apply reads_need. { rewrite bool_decide_false; [done|]. rewrite Hseen. intros [u [E Hu]]%list_elem_of_fmap. apply tag_number_inj in E as <-. done. }
      rewrite (find_tag_number t Ht). rewrite (Hts t) by constructor. eapply reads_both; [exact Rt|exact Rv].
Qed.

Lemma reads_pins ps : Forall (λ p, is_word p.1 ∧ is_word p.2) ps → ∀ pre, StronglySorted Z.lt (pre ++ ps).*1 →
  reads (get_pins (length ps) pre) (concat ((λ p : Z * Z, put_u32 p.1 ++ put_u32 p.2) <$> ps)) (pre ++ ps).
Proof.
  induction 1 as [|[k x] ps [Hk Hx] _ IH]; intros pre Hs; [rewrite app_nil_r; apply reads_nothing|]. cbn [length get_pins fmap list_fmap concat fst snd]. rewrite <- app_assoc.
  assert (Forall (λ j, j < k) pre.*1) as Hlt. { rewrite fmap_app in Hs. clear -Hs. induction (pre.*1) as [|j l IHl]; [constructor|]. cbn in Hs. apply Sorted.StronglySorted_inv in Hs as [Hs Hall]. constructor; [|by apply IHl]. rewrite Forall_app in Hall. destruct Hall as [_ Hall]. by apply Forall_inv in Hall. }
  eapply reads_both; [by apply reads_u32|]. eapply reads_both; [by apply reads_u32|]. apply reads_need.
  - apply bool_decide_eq_true. destruct (find_pin k pre) as [y|] eqn:E; [|done]. apply find_pin_elem in E. rewrite Forall_forall in Hlt. specialize (Hlt k E). lia.
  - rewrite (emplace_last k x pre Hlt). replace (pre ++ (k, x) :: ps) with ((pre ++ [(k, x)]) ++ ps) in * by (by rewrite <- app_assoc). by apply IH.
Qed.

(** *** The whole image *)

(** Two heaps that differ at most in how much room their tables have and in what is not saved. *)
Record same_heap (h h' : heap) : Prop := {
  sh_era : era_ h' = era_ h;
  sh_bytes : bytes_ h' = bytes_ h;
  sh_words : words_ h' = words_ h;
  sh_pins : pins_ h' = pins_ h;
  sh_next_pin : next_pin_ h' = next_pin_ h;
  sh_tabs : ∀ t, is_pointer t = true → tab_ok (width t) (htable h t) ∧ tab_ok (width t) (htable h' t) ∧ rows (htable h' t) = rows (htable h t);
}.

(** What an image needs to be written. *)
Record image_ok (i : image) : Prop := {
  ik_tables : tables_ok (heap_ (machine i));
  ik_roots : ∀ r, r ∈ roots → is_word (root_in r.2 (machine i));
  ik_entry : is_word (entry i);
  ik_key : 0 ≤ next_key_ i < 2 ^ 48;
  ik_words : Forall is_word (words_ (heap_ (machine i)));
  ik_pins : Forall (λ p, is_word p.1 ∧ is_word p.2) (pins_ (heap_ (machine i)));
  ik_sorted : StronglySorted Z.lt (pins_ (heap_ (machine i))).*1;
  ik_next : is_word (next_pin_ (heap_ (machine i)));
}.

(** The reading of a part of the whole. *)
Lemma reads_run {A B} (m : reading A) (k : A → reading B) w rest a : reads m w a → pbind m k (w ++ rest) = k a rest.
Proof. intros H. unfold pbind. by rewrite H. Qed.

Lemma need_run {B} good message (k : unit → reading B) s : good = true → pbind (need good message) k s = k tt s.
Proof. apply require_then. Qed.

Lemma key_halves k : 0 ≤ k < 2 ^ 48 → Z.lor (u32 k) (Z.shiftl (u32 (Z.shiftr k 32)) 32) = k.
Proof.
  intros Hk. rewrite Z.lor_comm, lor_shiftl_add by (try apply wrap_range; lia). rewrite Z.shiftr_div_pow2 by lia. rewrite (wrap_small 32 (k / _)) by (split; [apply Z.div_pos; lia|apply Z.div_lt_upper_bound; lia]). unfold wrap. pose proof (Z.div_mod k (2 ^ 32)). lia.
Qed.

Lemma u32_word x : is_word (u32 x).
Proof. apply wrap_range. lia. Qed.

Lemma put_list_inv {A} (f : A → result tape_fault bytes) l w : put_list f l = Ret w → ∃ b, w = put_u32 (Z.of_nat (length l)) ++ b ∧ is_word (Z.of_nat (length l)) ∧ put_all f l = Ret b.
Proof. intros E. unfold put_list in E. apply bind_ret in E as (n & En & E). apply bind_ret in E as (b & Eb & [= <-]). apply put_count_inv in En as [-> Hn]. by exists b. Qed.

Ltac read_next lem := rewrite <- ?app_assoc; etransitivity; [eapply reads_run; lem|cbv beta].
Ltac read_word := read_next ltac:(apply reads_u32; assumption || apply u32_word || by vm_compute).
Ltac pass := rewrite need_run by (apply Z.eqb_refl || apply Z.leb_refl || (apply bool_decide_eq_true; reflexivity)).

Lemma get_image_put jets i out : NoDup jets.*1 → image_ok i → put_image jets i = Ret out →
  ∃ i', get_image jets out = Some (Ret (i', seq 0 (length jets)), []) ∧ same_heap (heap_ (machine i)) (heap_ (machine i')) ∧ machine i' = set_heap (heap_ (machine i')) (fill_roots (machine i) roots blank_machine) ∧
    next_key_ i' = next_key_ i ∧ collect_ i' = collect_ i ∧ entry i' = entry i ∧ length (vat_ (heap_ (machine i'))) = 11%nat.
Proof.
  intros Hnd [Htab Hroots Hent Hkey Hwords Hpins Hsorted Hnext] E. unfold put_image in E. set (m := machine i) in *. set (h := heap_ m) in *.
  apply bind_ret in E as (w1 & E1 & E). apply bind_ret in E as (w2 & E2 & E). apply bind_ret in E as (w3 & E3 & E). apply bind_ret in E as (w4 & E4 & E). apply bind_ret in E as (w5 & E5 & E). apply bind_ret in E as (w6 & E6 & E). apply bind_ret in E as (w7 & E7 & E).
  apply put_list_inv in E1 as (b1 & -> & N1 & P1). apply put_list_inv in E2 as (b2 & -> & N2 & P2). apply put_list_inv in E3 as (b3 & -> & N3 & P3). apply put_list_inv in E6 as (b6 & -> & N6 & P6). apply put_count_inv in E5 as [-> N5]. apply put_count_inv in E7 as [-> N7]. injection E as <-.
  destruct (reads_tables h vat_tags Htab [] [] empty_vat b6 eq_refl ltac:(done) eq_refl ltac:(by intros u Hu%elem_of_nil) ltac:(intros u Hu; by apply empty_vat_table, vat_tags_pointers) P6) as (v' & R6 & L6 & T6).
  set (h' := MkHeap v' (bytes_ h) (words_ h) (pins_ h) (next_pin_ h) None (era_ h) 0 false ∅). exists (MkImage (set_heap h' (fill_roots m roots blank_machine)) (next_key_ i) (collect_ i) (entry i)).
  split; [|split; [|done]].
  - unfold get_image. read_next ltac:(by apply reads_take). pass. read_word. pass. read_next ltac:(apply reads_flag). read_word. read_word. read_word. read_next ltac:(apply reads_flag). read_word. read_word. pass.
    read_next ltac:(exact (reads_roots m roots Hroots [] b1 blank_machine eq_refl P1)). read_word. pass. rewrite Nat2Z.id. read_next ltac:(exact (reads_jets jets jets Hnd [] b2 eq_refl P2)). read_word. pass. read_word. pass.
    read_next ltac:(exact (reads_operations code_operations 0 b3 ltac:(cbn; lia) P3)). read_next ltac:(exact (reads_text _ _ E4)). read_word.
    unfold pbind at 1. unfold gets at 1. rewrite need_run by (apply Z.leb_le; rewrite length_app, put_words_length; apply Z.div_le_lower_bound; lia). rewrite Nat2Z.id. read_next ltac:(exact (reads_words _ Hwords)). read_word. pass. read_next ltac:(exact R6). read_word.
    unfold pbind at 1. unfold gets at 1. rewrite need_run. 2: { apply Z.leb_le. apply Z.div_le_lower_bound; [lia|]. clear. induction (pins_ h) as [|p ps IH]; [done|]. cbn [fmap list_fmap concat length]. rewrite !length_app, !put_u32_length. lia. }
    rewrite Nat2Z.id. rewrite <- (app_nil_r (concat _)). read_next ltac:(exact (reads_pins _ Hpins [] Hsorted)). unfold pbind at 1. unfold gets at 1. rewrite need_run by done. unfold pret. rewrite key_halves by done. done.
  - split; try done. intros t Ht. change (htable h' t) with (table v' t). destruct (T6 t (proj1 (pointer_tags t) Ht)) as [H1 H2]. split_and!; [apply (tk_tabs _ Htab t Ht)|done|done].
Qed.

(** ** Two heaps with the same contents *)

Section same.
Context (h h' : heap) (Hsame : same_heap h h').

Lemma same_size t : is_pointer t = true → size_ (htable h' t) = size_ (htable h t).
Proof. intros Ht. destruct (sh_tabs _ _ Hsame t Ht) as (_ & _ & E). by rewrite <- !rows_length, E. Qed.

Lemma same_get t i c : is_pointer t = true → Vat.get (htable h' t) i c = Vat.get (htable h t) i c.
Proof.
  intros Ht. destruct (sh_tabs _ _ Hsame t Ht) as (H1 & H2 & E). pose proof (same_size t Ht) as Es. destruct (Nat.lt_ge_cases i (size_ (htable h t))) as [Hi|Hi]; [|rewrite !get_out by lia; done].
  destruct (lookup_lt_is_Some_2 (rows (htable h t)) i ltac:(by rewrite rows_length)) as [r Er]. destruct (Nat.lt_ge_cases c (width t)) as [Hc|Hc].
  - destruct (get_ok _ _ i c r H1 Er Hc) as (x & Ex & ->). destruct (get_ok _ _ i c r H2 ltac:(by rewrite E) Hc) as (x' & Ex' & ->). congruence.
  - unfold Vat.get. rewrite Es. destruct (i <? size_ (htable h t))%nat; [|done]. rewrite !lookup_ge_None_2; [done|rewrite (ok_width _ _ H1); lia|rewrite (ok_width _ _ H2); lia].
Qed.

Lemma same_read t i : is_pointer t = true → read (htable h' t) i = read (htable h t) i.
Proof.
  intros Ht. destruct (sh_tabs _ _ Hsame t Ht) as (H1 & H2 & _). unfold read. rewrite (ok_width _ _ H1), (ok_width _ _ H2). clear H1 H2. generalize 0%nat as c. induction (width t) as [|n IH]; intros c; [done|]. cbn [read_from]. rewrite same_get by done. by rewrite IH.
Qed.

Lemma same_col t c : is_pointer t = true → (c < width t)%nat → col (htable h' t) c = col (htable h t) c.
Proof. intros Ht Hc. destruct (sh_tabs _ _ Hsame t Ht) as (H1 & H2 & E). rewrite (col_ok _ _ c H1 Hc), (col_ok _ _ c H2 Hc). by rewrite E. Qed.

Lemma same_check t x : is_pointer t = true → check h' t x = check h t x.
Proof. intros Ht. unfold check. rewrite (sh_era _ _ Hsame), (same_size t Ht). done. Qed.

Lemma same_hread t x : is_pointer t = true → hread t x h' = hread t x h.
Proof. intros Ht. unfold hread. rewrite same_check by done. destruct (check h t x); [|done]. cbn [bind]. by apply same_read. Qed.

Lemma same_hget t f x : is_pointer t = true → hget t f x h' = hget t f x h.
Proof. intros Ht. unfold hget. rewrite same_check by done. destruct (check h t x); [|done]. cbn [bind]. by apply same_get. Qed.

Lemma same_v08slice x : v08slice x h' = v08slice x h.
Proof. unfold v08slice, v08_place. rewrite same_hread by done. by rewrite (sh_bytes _ _ Hsame). Qed.

Lemma same_hwords t x : is_pointer t = true → hwords t x h' = hwords t x h.
Proof. intros Ht. unfold hwords, words_place. rewrite same_hread by done. by rewrite (sh_words _ _ Hsame). Qed.

Lemma for_each_ext {A} (f g : A → result tape_fault unit) l : (∀ x, x ∈ l → f x = g x) → for_each f l = for_each g l.
Proof. induction l as [|x l IH]; intros H; [done|]. cbn [for_each]. rewrite (H x) by constructor. rewrite IH; [done|]. intros y Hy. apply H. by constructor. Qed.

Lemma same_value jets x : check_value jets h' x = check_value jets h x.
Proof.
  unfold check_value. rewrite (sh_era _ _ Hsame), (sh_next_pin _ _ Hsame). destruct (is_pointer (tag_of x)) eqn:Ht; [|done]. by rewrite same_size.
Qed.

Lemma same_slices t size n : is_pointer t = true → ∀ i total, check_slices (htable h' t) size n i total = check_slices (htable h t) size n i total.
Proof. intros Ht. induction n as [|n IH]; intros i total; [done|]. cbn [check_slices]. rewrite same_read by done. destruct (read (htable h t) i) as [r|e]; [|done]. cbn [of_heap bind]. destruct (demand _ _); [|done]. cbn [bind]. apply IH. Qed.

Lemma numbered_lt t nc : nc ∈ numbered t → (nc.1 < width t)%nat.
Proof. unfold numbered. intros Hin. apply list_elem_of_lookup in Hin as [i E]. apply lookup_zip_with_Some in E as (x & y & -> & Ex & _). apply lookup_seq in Ex. cbn. lia. Qed.

Lemma same_table jets t : is_pointer t = true → check_table jets h' t = check_table jets h t.
Proof.
  intros Ht. unfold check_table, check_columns. assert (0 < width t)%nat as Hw by (destruct t; try done; cbn; lia). rewrite (same_col t 0 Ht Hw), (sh_bytes _ _ Hsame), (sh_words _ _ Hsame), (same_size t Ht), same_slices by done.
  rewrite (for_each_ext (λ nc, if is_value nc.2 then bind (of_heap (col (htable h' t) nc.1)) (λ xs, for_each (check_value jets h') xs) else Ret tt) (λ nc, if is_value nc.2 then bind (of_heap (col (htable h t) nc.1)) (λ xs, for_each (check_value jets h) xs) else Ret tt)); [done|].
  intros nc Hnc. destruct (is_value nc.2); [|done]. rewrite (same_col t nc.1 Ht (numbered_lt t nc Hnc)). destruct (col (htable h t) nc.1); [|done]. cbn [of_heap bind]. apply for_each_ext. intros x _. apply same_value.
Qed.

Lemma same_record_op x : code_record_op h' x = code_record_op h x.
Proof. unfold code_record_op. by rewrite same_hwords. Qed.

Lemma same_operands op xs : code_operands_valid h' op xs = code_operands_valid h op xs.
Proof.
  unfold code_operands_valid. destruct (negb _); [done|]. generalize (match code_operations !! op with Some shape => operands shape | None => [] end) as ks. intros ks. revert xs. induction ks as [|k ks IH]; intros [|x xs]; try done. cbn [operands_fit].
  assert (operand_valid h' k x = operand_valid h k x) as -> by (destruct k; try done; cbn; by rewrite same_record_op). destruct (operand_valid h k x) as [[]|]; cbn [bind]; [apply IH|done|done].
Qed.

Lemma same_walk element fuel : ∀ cur colors, walk_list fuel h' element cur colors = walk_list fuel h element cur colors.
Proof.
  induction fuel as [|fuel IH]; intros cur colors; [done|]. cbn [walk_list]. rewrite same_hread by done. destruct (cur =? nil); [done|]. destruct (typed cur T_duo); [|done]. cbn [bind]. destruct (color_of colors cur); [|done]. cbn [bind]. destruct (demand _ _); [|done]. cbn [bind]. destruct (_ =? 2)%nat; [done|].
  destruct (hread T_duo cur h); [|done]. cbn [of_heap bind]. destruct (typed _ element); [|done]. cbn [bind]. apply IH.
Qed.

Lemma same_settle fuel : ∀ cur colors, settle_list fuel h' cur colors = settle_list fuel h cur colors.
Proof.
  induction fuel as [|fuel IH]; intros cur colors; [done|]. cbn [settle_list]. rewrite same_hget by done. destruct (cur =? nil); [done|]. destruct (color_of colors cur); [|done]. cbn [bind]. destruct (negb _); [done|]. destruct (hget T_duo F_cdr cur h); [|done]. cbn [of_heap bind]. apply IH.
Qed.

Lemma same_cells : cells h' = cells h.
Proof. unfold cells. by rewrite same_size. Qed.

Lemma same_proper head element colors : proper h' head element colors = proper h head element colors.
Proof. unfold proper. rewrite same_cells, same_walk. destruct (walk_list _ _ _ _ _); [|done]. cbn [bind]. apply same_settle. Qed.

Lemma same_packages n : ∀ i colors, check_packages h' n i colors = check_packages h n i colors.
Proof.
  induction n as [|n IH]; intros i colors; [done|]. cbn [check_packages]. rewrite same_read by done. destruct (read _ _); [|done]. cbn [of_heap bind]. destruct (typed _ _); [|done]. cbn [bind]. rewrite same_proper. destruct (proper _ _ _ _); [|done]. cbn [bind]. apply IH.
Qed.

Lemma same_list_packages fuel : ∀ cur packages names, list_packages fuel h' cur packages names = list_packages fuel h cur packages names.
Proof.
  induction fuel as [|fuel IH]; intros cur packages names; [done|]. cbn [list_packages]. rewrite same_hread by done. destruct (cur =? nil); [done|]. destruct (hread _ _ _); [|done]. cbn [of_heap bind]. rewrite same_hget by done. destruct (hget _ _ _ _); [|done]. cbn [of_heap bind]. rewrite same_v08slice. destruct (v08slice _ _); [|done]. cbn [of_heap bind]. destruct (demand _ _); [|done]. cbn [bind]. apply IH.
Qed.

Lemma same_record i : check_record h' i = check_record h i.
Proof. unfold check_record. rewrite (sh_era _ _ Hsame), same_record_op. destruct (code_record_op _ _) as [[op|]|]; [|done|done]. cbn [of_heap bind]. rewrite same_hwords by done. destruct (hwords _ _ _); [|done]. cbn [of_heap bind]. by rewrite same_operands. Qed.

Lemma same_search_all edges n : ∀ i colors, search_all h' edges n i colors = search_all h edges n i colors.
Proof. induction n as [|n IH]; intros i colors; [done|]. cbn [search_all]. rewrite (sh_era _ _ Hsame). destruct (search _ _ _ _); [|done]. cbn [bind]. apply IH. Qed.

End same.

(** Two machines that agree on everything a tape saves. *)
Record same_machine (m m' : evaluator) : Prop := {
  sm_heap : same_heap (heap_ m) (heap_ m');
  sm_roots : ∀ r, r ∈ roots → root_in r.2 m' = root_in r.2 m;
}.

Section same_machine.
Context (m m' : evaluator) (Hsame : same_machine m m').

Let Hh := sm_heap _ _ Hsame.

Lemma bind_ext {A B} (a a' : result tape_fault A) (k k' : A → result tape_fault B) : a = a' → (∀ x, k x = k' x) → bind a k = bind a' k'.
Proof. intros -> E. destruct a'; cbn; [apply E|done]. Qed.

Lemma same_root s name : (name, s) ∈ roots → root_in s m' = root_in s m.
Proof. apply (sm_roots _ _ Hsame (name, s)). Qed.

#[local] Instance saved_eq_dec : EqDecision saved.
Proof. solve_decision. Defined.

Lemma same_known (name : string) : bool_decide (name ∈ ["PROMPT"; "BINDING"; "RESUME"; "CONTINUATION"]%string) = true → known name m' = known name m.
Proof.
  intros Hn. apply bool_decide_eq_true in Hn. assert (known name m' = root_in (S_known (known_index name)) m' ∧ known name m = root_in (S_known (known_index name)) m) as [-> ->].
  { repeat (apply elem_of_cons in Hn as [->|Hn]; [split; vm_compute; reflexivity|]). by apply elem_of_nil in Hn. }
  apply (same_root _ (str name)), (bool_decide_eq_true_1 _). repeat (apply elem_of_cons in Hn as [->|Hn]; [vm_compute; reflexivity|]). by apply elem_of_nil in Hn.
Qed.

Lemma same_boundary kind : boundary_kind m' kind = boundary_kind m kind.
Proof. unfold boundary_kind. by rewrite !same_known. Qed.

Lemma same_segment x : check_segment m' x = check_segment m x.
Proof. unfold check_segment. rewrite (same_hget _ _ Hh) by done. rewrite same_known by done. destruct (check_continuation x); [|done]. cbn [bind]. destruct (x =? top); [done|]. destruct (hget _ _ _ _); [|done]. cbn [of_heap bind]. by rewrite same_boundary. Qed.

Lemma same_meta x : check_meta m' x = check_meta m x.
Proof. unfold check_meta. rewrite (same_hget _ _ Hh) by done. destruct (check_continuation x); [|done]. cbn [bind]. destruct (x =? top); [done|]. destruct (hget _ _ _ _); [|done]. cbn [of_heap bind]. by rewrite same_boundary. Qed.

Lemma same_edges_of i : edges_of m' i = edges_of m i.
Proof.
  unfold edges_of. rewrite (sh_era _ _ Hh), (same_hread _ _ Hh) by done. destruct (hread _ _ _); [|done]. cbn [of_heap bind]. rewrite same_known, same_boundary by done. rewrite !same_segment, !same_meta. unfold v32slice. rewrite (same_hwords _ _ Hh) by done.
  destruct (_ =? known _ _); [done|]. destruct (boundary_kind _ _); [|done]. destruct (check_meta _ _); [|done]. cbn [bind]. destruct (typed _ _); [|done]. cbn [bind]. destruct (hwords _ _ _); [|done]. cbn [of_heap bind]. destruct (demand _ _); [|done]. cbn [bind]. by rewrite same_segment.
Qed.

Lemma same_all_edges n : ∀ i, all_edges m' n i = all_edges m n i.
Proof. induction n as [|n IH]; intros i; [done|]. cbn [all_edges]. by rewrite same_edges_of, IH. Qed.

Lemma same_check_root packages ir : ir ∈ zip (seq 0 (length roots)) roots → check_root m' packages ir = check_root m packages ir.
Proof.
  intros Hin. destruct ir as [i [name s]]. assert ((name, s) ∈ roots) as Hr. { apply list_elem_of_lookup in Hin as [k E]. apply lookup_zip_with_Some in E as (a & b & [= -> ->] & _ & Eb). by eapply list_elem_of_lookup_2. }
  unfold check_root. rewrite (same_root s name Hr). rewrite !(same_hget _ _ Hh) by done. rewrite (same_v08slice _ _ Hh). assert (base_ m' = base_ m) as -> by (apply (same_root S_base (str "WISP")); constructor).
  destruct (i <? 3)%nat; [|destruct ((i =? 5)%nat || (i =? 6)%nat); [done|destruct (7 <=? i)%nat; [|done]]].
  - destruct (demand _ _); [|done]. cbn [bind]. destruct (hget _ _ _ _); [|done]. cbn [of_heap bind]. by rewrite (same_v08slice _ _ Hh).
  - destruct (typed _ _); [|done]. cbn [bind]. destruct (hget T_sym F_pkg _ _) as [pkg|]; [|done]. cbn [of_heap bind]. destruct (pkg =? _); [|done]. destruct (hget _ _ _ _); [|done]. cbn [of_heap bind]. by rewrite (same_v08slice _ _ Hh).
Qed.

Lemma same_check_machine : check_machine m' = check_machine m.
Proof.
  unfold check_machine. rewrite !(same_size _ _ Hh), (same_cells _ _ Hh) by done. unfold column_of. rewrite !(same_col _ _ Hh) by (done || (vm_compute; lia)).
  rewrite (for_each_ext (check_symbol (heap_ m')) (check_symbol (heap_ m))) by (intros k _; unfold check_symbol; by rewrite (same_read _ _ Hh)).
  rewrite (for_each_ext (check_record (heap_ m')) (check_record (heap_ m))) by (intros k _; apply (same_record _ _ Hh)).
  rewrite (same_packages _ _ Hh). assert (packages_ m' = packages_ m) as -> by (apply (same_root S_packages (str "packages")), (bool_decide_eq_true_1 _); vm_compute; reflexivity). assert (current_ m' = current_ m) as -> by (apply (same_root S_current (str "current")), (bool_decide_eq_true_1 _); vm_compute; reflexivity).
  rewrite (same_proper _ _ Hh), (same_list_packages _ _ Hh), same_all_edges. do 4 (apply bind_ext; [done|intros ?]). apply bind_ext; [done|intros packages]. apply bind_ext; [done|intros ?].
  apply bind_ext; [apply for_each_ext; intros ir Hir; by apply same_check_root|intros ?]. apply bind_ext; [done|intros edges]. rewrite (same_search_all _ _ Hh). do 6 (apply bind_ext; [done|intros ?]).
  apply bind_ext; [apply for_each_ext; intros way _; apply same_segment|intros ?]. apply bind_ext; [done|intros chains]. apply for_each_ext. intros chain _. apply same_meta.
Qed.

End same_machine.

(** Two images that agree on everything a tape saves. *)
Record same_image (i i' : image) : Prop := {
  si_machine : same_machine (machine i) (machine i');
  si_key : next_key_ i' = next_key_ i;
  si_collect : collect_ i' = collect_ i;
  si_entry : entry i' = entry i;
}.

Lemma same_validate jets i i' : same_image i i' → validate jets i' = validate jets i.
Proof.
  intros [Hm Hk _ He]. pose proof (sm_heap _ _ Hm) as Hh. unfold validate. rewrite (same_check_machine _ _ Hm). apply bind_ext; [|done]. unfold check_storage. rewrite !(same_size _ _ Hh), !(sh_next_pin _ _ Hh), (sh_pins _ _ Hh), (sh_words _ _ Hh), Hk, He, (same_value _ _ Hh) by done.
  do 4 (apply bind_ext; [done|intros _]). apply bind_ext; [apply for_each_ext; intros r Hr; rewrite (same_value _ _ Hh); by rewrite (sm_roots _ _ Hm r Hr)|intros _].
  apply bind_ext; [apply for_each_ext; intros p _; apply bind_ext; [done|intros _; apply (same_value _ _ Hh)]|intros _]. apply bind_ext; [apply for_each_ext; intros x _; apply (same_value _ _ Hh)|intros _].
  apply for_each_ext. intros t Ht. apply (same_table _ _ Hh). by apply vat_tags_pointers.
Qed.

Lemma fill_roots_in m r : r ∈ roots → root_in r.2 (fill_roots m roots blank_machine) = root_in r.2 m.
Proof. intros Hr. unfold roots in Hr. repeat (apply elem_of_cons in Hr as [->|Hr]; [vm_compute; reflexivity|]). by apply elem_of_nil in Hr. Qed.

Lemma root_in_set_heap s h m : root_in s (set_heap h m) = root_in s m.
Proof. by destruct s. Qed.

(** ** Builtins that keep their places *)

Lemma for_each_inv {A} (f : A → result tape_fault unit) l : for_each f l = Ret tt → ∀ x, x ∈ l → f x = Ret tt.
Proof.
  induction l as [|y l IH]; intros E x Hx; [by apply elem_of_nil in Hx|]. cbn [for_each] in E. apply bind_ret in E as ([] & Ey & E). apply elem_of_cons in Hx as [->|Hx]; [done|by apply IH].
Qed.

Lemma demand_inv b s u : demand b s = Ret u → b = true.
Proof. by destruct b. Qed.

Lemma remap_id jets h x : is_word x → check_value jets h x = Ret tt → remap (seq 0 (length jets)) x = Ret x.
Proof.
  intros Hx Hc. unfold remap. case_bool_decide as Ht; [|done]. cbn [negb]. unfold check_value in Hc. rewrite Ht in Hc. cbn in Hc. apply demand_inv, Z.ltb_lt in Hc.
  assert (0 ≤ payload_of x) as Hp by (rewrite payload_of_arith; apply Z.mod_pos_bound; lia). rewrite lookup_seq_lt by lia. cbn. rewrite Z2Nat.id by done. f_equal. rewrite <- Ht. apply immediate_rebuild; [done|congruence].
Qed.

Lemma remap_all_id jm xs : (∀ x, x ∈ xs → remap jm x = Ret x) → remap_all jm xs = Ret xs.
Proof. induction xs as [|x xs IH]; intros H; [done|]. cbn [remap_all]. rewrite (H x) by constructor. cbn [bind]. rewrite IH; [done|]. intros y Hy. apply H. by constructor. Qed.

Lemma set_same tb i c x : Vat.get tb i c = Ret x → Vat.set tb i c x = Ret tb.
Proof.
  unfold Vat.get, Vat.set. destruct (i <? size_ tb)%nat; [|done]. destruct (columns_ tb !! c) as [rack|] eqn:Ec; [|done]. destruct (rack !! i) as [[y|]|] eqn:Ei; try done. intros [= ->].
  rewrite (proj2 (Nat.ltb_lt _ _)) by (by eapply lookup_lt_Some). cbn [andb]. destruct tb as [cols n cap]. cbn in *. do 2 f_equal. apply list_eq. intros j. destruct (decide (j = c)) as [->|Hne].
  - rewrite list_lookup_alter_eq, Ec. cbn. by rewrite list_insert_id.
  - by rewrite list_lookup_alter_ne.
Qed.

Lemma remap_rows_id jm w c n : ∀ i tb, (c < w)%nat → tab_ok w tb → (i + n = size_ tb)%nat → (∀ r x, r ∈ rows tb → r !! c = Some x → remap jm x = Ret x) → remap_rows jm c n i tb = Ret tb.
Proof.
  induction n as [|n IH]; intros i tb Hc Hok Hn Hx; [done|]. cbn [remap_rows]. destruct (lookup_lt_is_Some_2 (rows tb) i ltac:(rewrite rows_length; lia)) as [r Er]. destruct (get_ok w tb i c r Hok Er Hc) as (x & Ex & Eg). rewrite Eg. cbn [of_heap bind].
  rewrite (Hx r x (list_elem_of_lookup_2 _ _ _ Er) Ex). cbn [bind]. rewrite (set_same _ _ _ _ Eg). cbn [of_heap bind]. by apply IH; [..|lia|].
Qed.

Lemma remap_columns_id jm w cs tb : tab_ok w tb → (∀ c k r x, (c, k) ∈ cs → is_value k = true → (c < w)%nat ∧ (r ∈ rows tb → r !! c = Some x → remap jm x = Ret x)) → remap_columns jm cs tb = Ret tb.
Proof.
  intros Hok. induction cs as [|[c k] cs IH]; intros H; [done|]. cbn [remap_columns]. destruct (is_value k) eqn:Ek.
  - rewrite (remap_rows_id jm w c (size_ tb) 0 tb); [cbn [bind]; apply IH; intros c' k' r x Hin; apply H; by constructor|by apply (H c k [] 0); [constructor|]|done|done|]. intros r x Hr Hx. apply (H c k r x); [constructor|done|done|done].
  - cbn [bind]. apply IH. intros c' k' r x Hin. apply H. by constructor.
Qed.

Lemma with_table_same v t : is_pointer t = true → length v = 11%nat → with_table v t (table v t) = v.
Proof. intros Ht Hl. unfold with_table, table. apply list_insert_id. destruct (vat_index_tags t Ht) as [_ Hi]. destruct (lookup_lt_is_Some_2 v (vat_index t) ltac:(lia)) as [tb E]. by rewrite (nth_lookup_eq _ _ _ _ E). Qed.

Lemma remap_tables_id jm v ts : length v = 11%nat → (∀ t, t ∈ ts → is_pointer t = true ∧ remap_columns jm (numbered t) (table v t) = Ret (table v t)) → remap_tables jm ts v = Ret v.
Proof.
  intros Hl. induction ts as [|t ts IH]; intros H; [done|]. cbn [remap_tables]. destruct (H t ltac:(constructor)) as [Ht ->]. cbn [bind]. rewrite with_table_same by done. apply IH. intros u Hu. apply H. by constructor.
Qed.

Lemma root_put_same s m : (∀ i, s = S_known i → (i < length (known_ m))%nat) → root_put s (root_in s m) m = m.
Proof.
  intros H. destruct m as [h b kw ks ps c nn tn kn], s as [| | | | | | |i]; try done. cbn in *. f_equal. apply list_insert_id. destruct (lookup_lt_is_Some_2 kn i (H i eq_refl)) as [x E]. by rewrite (nth_lookup_eq _ _ _ _ E).
Qed.

Lemma remap_roots_id jm m rs : (∀ r, r ∈ rs → remap jm (root_in r.2 m) = Ret (root_in r.2 m) ∧ ∀ i, r.2 = S_known i → (i < length (known_ m))%nat) → remap_roots jm rs m = Ret m.
Proof. induction rs as [|r rs IH]; intros H; [done|]. cbn [remap_roots]. destruct (H r ltac:(constructor)) as [-> Hk]. cbn [bind]. rewrite root_put_same by done. apply IH. intros u Hu. apply H. by constructor. Qed.

(** A checked column holds checked words. *)
Lemma checked_column jets h t c k r x : is_pointer t = true → tab_ok (width t) (htable h t) → check_table jets h t = Ret tt → (c, k) ∈ numbered t → is_value k = true → r ∈ rows (htable h t) → r !! c = Some x → check_value jets h x = Ret tt.
Proof.
  intros Ht Hok Hc Hin Hk Hr Hx. unfold check_table in Hc. apply bind_ret in Hc as (marks & _ & Hc). apply bind_ret in Hc as (u & _ & Hc). apply bind_ret in Hc as ([] & Hcols & _). unfold check_columns in Hcols. pose proof (for_each_inv _ _ Hcols (c, k) Hin) as H. cbn [snd fst] in H. rewrite Hk in H.
  rewrite (col_ok _ _ c Hok (numbered_lt t (c, k) Hin)) in H. cbn [of_heap bind] in H. apply (for_each_inv _ _ H). apply list_elem_of_fmap. exists r. by rewrite Hx.
Qed.

Lemma zip_fst_snd {A B} (l : list (A * B)) : zip l.*1 l.*2 = l.
Proof. induction l as [|[a b] l IH]; [done|]. cbn. by rewrite IH. Qed.

Lemma known_roots_small i name : (name, S_known i) ∈ roots → (i < 73)%nat.
Proof. intros H. unfold roots in H. repeat first [apply elem_of_cons in H as [[= _ ->]|H]; [vm_compute; lia|]|apply elem_of_cons in H as [[=]|H]]. by apply elem_of_nil in H. Qed.

Lemma relocate_id jets i : image_ok i → length (vat_ (heap_ (machine i))) = 11%nat → length (known_ (machine i)) = 73%nat → check_storage jets i = Ret tt → relocate (seq 0 (length jets)) i = Ret i.
Proof.
  intros [Htab Hroots Hent Hkey Hwords Hpins Hsorted Hnext] Hv Hkn Hc. unfold check_storage in Hc. set (m := machine i) in *. set (h := heap_ m) in *.
  do 3 apply bind_ret in Hc as ([] & _ & Hc). apply bind_ret in Hc as ([] & Ce & Hc). apply bind_ret in Hc as ([] & Cr & Hc). apply bind_ret in Hc as ([] & Cp & Hc). apply bind_ret in Hc as ([] & Cw & Ct).
  unfold relocate. fold m. fold h. rewrite (remap_id jets h (entry i) Hent Ce). cbn [bind].
  rewrite (remap_roots_id _ m roots); [cbn [bind]|]. 2: { intros [name s] Hr. split; [apply (remap_id jets h); [by apply (Hroots (name, s))|exact (for_each_inv _ _ Cr _ Hr)]|]. cbn [snd]. intros k ->. rewrite Hkn. by eapply known_roots_small. }
  rewrite remap_all_id; [cbn [bind]|]. 2: { intros x Hx. apply list_elem_of_fmap in Hx as ([k y] & -> & Hin). rewrite Forall_forall in Hpins. destruct (Hpins _ Hin) as [_ Hy]. apply (remap_id jets h); [done|]. pose proof (for_each_inv _ _ Cp _ Hin) as H. apply bind_ret in H as ([] & _ & H). exact H. }
  rewrite remap_all_id; [cbn [bind]|]. 2: { intros x Hx. rewrite Forall_forall in Hwords. apply (remap_id jets h); [by apply Hwords|exact (for_each_inv _ _ Cw _ Hx)]. }
  rewrite remap_tables_id; [cbn [bind]|done|].
  - rewrite zip_fst_snd. assert (set_heap (set_vat (set_words (set_pins h (pins_ h) (next_pin_ h)) (words_ h)) (vat_ h)) m = m) as ->; [|by destruct i]. unfold h. destruct m as [[] ? ? ? ? ? ? ? ?]. done.
  - intros t Ht. pose proof (vat_tags_pointers t Ht) as Hp. split; [done|]. change (table (vat_ h) t) with (htable h t). apply (remap_columns_id _ (width t)); [by apply Htab|]. intros c k r x Hin Hk. split; [exact (numbered_lt t (c, k) Hin)|]. intros Hr Hx. apply (remap_id jets h).
    + pose proof (tk_words _ Htab t Hp) as HW. rewrite Forall_forall in HW. eapply Forall_forall; [exact (HW r Hr)|]. by eapply list_elem_of_lookup_2.
    + eapply checked_column; [done|by apply Htab|exact (for_each_inv _ _ Ct t Ht)|done|done|done|done].
Qed.

(** ** The known symbols *)

Lemma same_find_symbol m m' name fuel : same_heap (heap_ m) (heap_ m') → ∀ cur r, find_symbol fuel name cur m = Some (r, m) → find_symbol fuel name cur m' = Some (r, m').
Proof.
  intros Hh. induction fuel as [|fuel IH]; intros cur r E; [done|]. cbn [find_symbol] in *. destruct (cur =? nil); [unfold pret in *; by injection E as <-|]. unfold asks, pbind in *. rewrite (same_hread _ _ Hh) by done. destruct (hread T_duo cur (heap_ m)) as [cell|e]; [|by injection E as <-].
  rewrite (same_hget _ _ Hh) by done. destruct (hget T_sym F_str _ (heap_ m)) as [s|e]; [|by injection E as <-]. rewrite (same_v08slice _ _ Hh). destruct (v08slice s (heap_ m)) as [text|e]; [|by injection E as <-]. case_bool_decide; [unfold pret in *; by injection E as <-|]. by apply IH.
Qed.

Lemma same_find m m' name pkg s : same_heap (heap_ m) (heap_ m') → find name pkg m = Some (Ret (Some s), m) → find name pkg m' = Some (Ret (Some s), m').
Proof.
  intros Hh E. unfold find, asks, gets, pbind in *. rewrite (same_hget _ _ Hh) by done. destruct (hget T_pkg F_sym pkg (heap_ m)) as [cur|e]; [|done]. cbv beta iota in *. rewrite (same_cells _ _ Hh). by apply (same_find_symbol m m').
Qed.

(** The known table is what the base package has under the names. *)
Definition knows_symbols (m : evaluator) : Prop := Forall2 (λ name s, find name (base_ m) m = Some (Ret (Some s), m)) known_names (known_ m).

Lemma known_not_special : Forall (λ n, n ≠ str "NIL" ∧ n ≠ str "T") known_names.
Proof. apply (bool_decide_unpack _). vm_compute. done. Qed.

Lemma intern_all_found m names ss : Forall (λ n, n ≠ str "NIL" ∧ n ≠ str "T") names → Forall2 (λ name s, find name (base_ m) m = Some (Ret (Some s), m)) names ss → intern_all names m = Some (Ret ss, m).
Proof.
  intros Hn Hf. revert Hn. induction Hf as [|n s names ss Hs _ IH]; intros Hn; [done|]. apply Forall_cons in Hn as [[H1 H2] Hn]. cbn [intern_all]. assert (intern_base n m = Some (Ret s, m)) as E.
  { unfold intern_base, gets, intern. unfold pbind at 1. unfold gets, pbind at 1. rewrite (bool_decide_false (n = str "NIL")), (bool_decide_false (n = str "T")), !andb_false_r by done. unfold pbind. by rewrite Hs. }
  rewrite (bind_run _ _ _ _ _ E). rewrite (bind_run _ _ _ _ _ (IH Hn)). done.
Qed.

Lemma finish_knows m i' : same_heap (heap_ m) (heap_ (machine i')) → base_ (machine i') = base_ m → knows_symbols m →
  finish i' = Some (Ret (MkImage (set_heap (freeze_continuations (heap_ (machine i'))) (set_known (known_ m) (machine i'))) (next_key_ i') (collect_ i') (entry i'))).
Proof.
  intros Hh Hb Hk. unfold finish, install_known. rewrite (bind_run _ _ (machine i') (known_ m) (machine i')); [done|]. apply intern_all_found; [apply known_not_special|]. rewrite Hb. eapply Forall2_impl; [exact Hk|]. intros n s. by apply same_find.
Qed.

(** ** The properties *)

Lemma image_ok_valid jets i : heap_ok (heap_ (machine i)) → valid (heap_ (machine i)) (entry i) → (∀ r, r ∈ roots → valid (heap_ (machine i)) (root_in r.2 (machine i))) → 0 ≤ next_key_ i → validate jets i = Ret tt → image_ok i.
Proof.
  intros Hok He Hr Hk Hv. unfold validate in Hv. apply bind_ret in Hv as ([] & Hc & _). unfold check_storage in Hc. apply bind_ret in Hc as ([] & Cx & Hc). apply bind_ret in Hc as ([] & _ & Hc). apply bind_ret in Hc as ([] & Ck & _). apply demand_inv, Nat.eqb_eq in Cx. apply demand_inv, Z.ltb_lt in Ck.
  pose proof (hk_next_pin _ Hok) as [Hpk Hnp]. assert (max_immediate = 2 ^ 27 - 1) as Em by done. split.
  - split; [apply (hk_tabs _ Hok)| |done]. intros t Ht. apply Forall_forall. intros r Hin. apply list_elem_of_lookup in Hin as [k E]. exact (row_words _ _ _ (hk_rows _ Hok t k r Ht E)).
  - intros r Hin. apply (Hr r Hin).
  - apply He.
  - change (Z.shiftl 1 48) with (2 ^ 48) in Ck. lia.
  - eapply Forall_impl; [exact (hk_words _ Hok)|]. intros x Hx. apply Hx.
  - pose proof (hk_pins _ Hok) as Hp. rewrite Forall_fmap in Hpk. rewrite Forall_forall in Hp, Hpk |- *. intros p Hin. split; [|apply (Hp p Hin)]. specialize (Hpk p Hin). cbn in Hpk. unfold is_word. lia.
  - apply (hk_pin_keys _ Hok).
  - unfold is_word. lia.
Qed.

Lemma put_image_length jets i out : put_image jets i = Ret out → (12 ≤ length out)%nat.
Proof.
  intros E. unfold put_image in E. do 7 apply bind_ret in E as (? & _ & E). injection E as <-. rewrite !length_app, magic_length, put_u32_length. lia.
Qed.

Lemma same_image_ok i i' : image_ok i → same_image i i' → image_ok i'.
Proof.
  intros [[Ht1 Ht2 Ht3] Hroots Hent Hkey Hwords Hpins Hsorted Hnext] [[Hh Hr] Hk _ He]. split.
  - split.
    + intros t Ht. apply (sh_tabs _ _ Hh t Ht).
    + intros t Ht. destruct (sh_tabs _ _ Hh t Ht) as (_ & _ & ->). by apply Ht2.
    + by rewrite (same_size _ _ Hh).
  - intros r Hin. rewrite (Hr r Hin). by apply Hroots.
  - by rewrite He.
  - by rewrite Hk.
  - by rewrite (sh_words _ _ Hh).
  - by rewrite (sh_pins _ _ Hh).
  - by rewrite (sh_pins _ _ Hh).
  - by rewrite (sh_next_pin _ _ Hh).
Qed.

Lemma restore_encode jets i data limit : image_ok i → NoDup jets.*1 → encode jets i = Ret data → (length data ≤ limit)%nat →
  ∃ i', restore jets data limit = Ret i' ∧ same_image i i'.
Proof.
  intros Hok Hnd E Hl. unfold encode in E. apply bind_ret in E as ([] & Ev & E). apply bind_ret in E as (out & Eo & [= <-]). destruct (get_image_put jets i out Hnd Hok Eo) as (i' & Eg & Hh & Em & Ek & Ec & Ee & El).
  assert (same_image i i') as Hs. { split; [|done|done|done]. split; [done|]. intros r Hr. rewrite Em, root_in_set_heap. by apply fill_roots_in. }
  assert (validate jets i' = Ret tt) as Ev' by (by rewrite (same_validate jets i i' Hs)). exists i'. split; [|done].
  unfold restore. rewrite length_app in *. rewrite (Hash.HashFacts.sha256_length out) in *. pose proof (put_image_length _ _ _ Eo) as H12. rewrite magic_length. unfold demand. rewrite (proj2 (Nat.leb_le _ _) Hl). cbn [bind]. rewrite (proj2 (Nat.leb_le _ _)) by lia. cbn [bind].
  replace (length out + 32 - 32)%nat with (length out) by lia. rewrite take_app_length, drop_app_length, bool_decide_true by done. cbn [bind]. rewrite Eg.
  rewrite (relocate_id jets i'); [cbn [bind]; by rewrite Ev'|by apply (same_image_ok i)|done|rewrite Em; cbn [set_heap known_]; vm_compute; reflexivity|]. unfold validate in Ev'. apply bind_ret in Ev' as ([] & Ev' & _). exact Ev'.
Qed.

(** [decode] reads what [encode] wrote. *)
Lemma decode_encode jets i data limit : let m := machine i in let h := heap_ m in
  heap_ok h → valid h (entry i) → (∀ r, r ∈ roots → valid h (root_in r.2 m)) → 0 ≤ next_key_ i → NoDup jets.*1 → knows_symbols m →
  encode jets i = Ret data → (length data ≤ limit)%nat →
  ∃ i', decode jets data limit = Some (Ret i') ∧ same_image i i' ∧ known_ (machine i') = known_ m ∧ frozen_ktx_ (heap_ (machine i')) = size_ (htable h T_ktx).
Proof.
  intros m h Hok He Hr Hk Hnd Hkn E Hl. assert (validate jets i = Ret tt) as Ev by (unfold encode in E; by apply bind_ret in E as ([] & Ev & _)). destruct (restore_encode jets i data limit (image_ok_valid jets i Hok He Hr Hk Ev) Hnd E Hl) as (i0 & E0 & [[Hh Hroots] Hkey Hcol Hent]).
  assert (base_ (machine i0) = base_ m) as Hb by (apply (Hroots (str "WISP", S_base)); constructor).
  unfold decode. rewrite E0, (finish_knows m i0 Hh Hb Hkn). eexists. split; [done|]. cbn [machine]. split_and!; [|done|cbn; by apply same_size].
  split; cbn [machine next_key_ collect_ entry]; try done. split.
  - destruct Hh as [H1 H2 H3 H4 H5 H6]. by split.
  - intros [name s] Hin. specialize (Hroots _ Hin). by destruct s.
Qed.

(** ** Compressed tapes *)

(** The formats of [tape::encode]. *)
Inductive compression : Set :=
| none
| zlib.

Section public.
Context (jets : list (bytes * bool)).

(** [compress2]: the status and the stream. [uncompress2], with the room for the output: the status, the
    output and how much of the input was read. *)
Context (compress2 : bytes → Z * bytes) (uncompress2 : nat → bytes → Z * bytes * nat).

Definition tape_encode (i : image) (format : compression) : result tape_fault bytes :=
  let! data := encode jets i in
  match format with
  | none => Ret data
  | zlib =>
      let! n := put_count (length data) in
      let '(status, stream) := compress2 data in
      if status =? -4 then Throw bad_alloc else
      let! _ := demand (status =? 0) "tape compression failed" in
      Ret (compressed_magic ++ n ++ stream)
  end.

Definition tape_decode (data : bytes) (limit : nat) : option (result tape_fault image) :=
  if bool_decide (take (length compressed_magic) data = compressed_magic) then
    if negb (length data <=? limit)%nat then Some (Throw (tape_error "tape exceeds input limit")) else
    match get_u32 (drop (length compressed_magic) data) with
    | None => None
    | Some (Throw e, _) => Some (Throw e)
    | Some (Ret decoded_size, rest) =>
        if negb (decoded_size <=? Z.of_nat limit) then Some (Throw (tape_error "tape exceeds decoded limit")) else
        let '(status, decoded, source_size) := uncompress2 (Z.to_nat decoded_size) rest in
        if status =? -4 then Some (Throw bad_alloc)
        else if negb (status =? 0) then Some (Throw (tape_error "invalid compressed tape"))
        else if negb (length decoded =? Z.to_nat decoded_size)%nat then Some (Throw (tape_error "wrong decoded tape size"))
        else if negb (source_size =? length rest)%nat then Some (Throw (tape_error "trailing compressed tape data"))
        else decode jets decoded limit
    end
  else decode jets data limit.

End public.

(** A tape does not begin with the name of a compressed one. *)
Lemma encode_plain jets i data : encode jets i = Ret data → ∃ rest, data = magic ++ rest.
Proof.
  unfold encode, put_image. intros E. apply bind_ret in E as (_ & _ & E). apply bind_ret in E as (out & Eo & [= <-]).
  do 7 apply bind_ret in Eo as (? & _ & Eo). injection Eo as <-. rewrite <- app_assoc. eauto.
Qed.

#[local] Transparent magic.

Lemma magic_differs rest : take (length compressed_magic) (magic ++ rest) ≠ compressed_magic.
Proof. intros Hm. vm_compute in Hm. discriminate Hm. Qed.

#[local] Opaque magic compressed_magic.

(** The compressed format carries the same tape. *)
Lemma tape_decode_encode jets compress2 uncompress2 i format data limit :
  (∀ d z, compress2 d = (0, z) → uncompress2 (length d) z = (0, d, length z)) →
  tape_encode jets compress2 i format = Ret data → (length data ≤ limit)%nat →
  ∃ plain, encode jets i = Ret plain ∧ ((length plain ≤ limit)%nat → tape_decode jets uncompress2 data limit = decode jets plain limit).
Proof.
  intros Hz E Hl. unfold tape_encode in E. apply bind_ret in E as (plain & Ep & E). exists plain. split; [done|]. intros Hp. unfold tape_decode.
  destruct format.
  - injection E as <-. rewrite bool_decide_false; [done|]. destruct (encode_plain _ _ _ Ep) as [rest ->].
    apply magic_differs.
  - apply bind_ret in E as (n & En & E). apply put_count_inv in En as [-> Hn]. destruct (compress2 plain) as [status z] eqn:Ec.
    destruct (status =? -4) eqn:E4; [done|]. apply bind_ret in E as ([] & Es & [= <-]). unfold demand in Es. destruct (Z.eqb_spec status 0) as [->|]; [|done].
    rewrite take_app_length, drop_app_length, bool_decide_true, (proj2 (Nat.leb_le _ _) Hl) by done. cbn [negb]. rewrite (reads_u32 _ Hn).
    rewrite (proj2 (Z.leb_le _ _)), Nat2Z.id, (Hz _ _ Ec), !Nat.eqb_refl by lia. done.
Qed.

(** C7: a tape gives back the machine it was written from, in both formats. Let the heap be well-formed, the roots and the
    entry valid, the known symbols those of the package WISP and no builtin be listed twice; let [uncompress2] take back what [compress2] made, reading all of it.
    Then decoding a tape, under a limit that admits it and its plain form, returns a machine with the same rows in every table, the same pools, pins, era,
    roots, keys and known symbols, whose continuations are frozen; only the spare room of the tables is not saved. *)
Theorem tape_roundtrip jets compress2 uncompress2 i format plain data limit : let m := machine i in let h := heap_ m in
  (∀ d z, compress2 d = (0, z) → uncompress2 (length d) z = (0, d, length z)) →
  heap_ok h → valid h (entry i) → (∀ r, r ∈ roots → valid h (root_in r.2 m)) → 0 ≤ next_key_ i → NoDup jets.*1 → knows_symbols m →
  tape_encode jets compress2 i none = Ret plain → tape_encode jets compress2 i format = Ret data → (length plain ≤ limit)%nat → (length data ≤ limit)%nat →
  ∃ i', tape_decode jets uncompress2 data limit = Some (Ret i') ∧ same_image i i' ∧ known_ (machine i') = known_ m ∧
    frozen_ktx_ (heap_ (machine i')) = size_ (htable h T_ktx).
Proof.
  intros m h Hz Hok He Hr Hk Hnd Hkn E0 E Hp Hl. destruct (tape_decode_encode _ _ _ _ _ _ _ Hz E Hl) as (plain' & Ep & Hd).
  unfold tape_encode in E0. rewrite Ep in E0. injection E0 as ->. rewrite (Hd Hp). by apply decode_encode.
Qed.

(** ** A sample *)

(** The known symbols of a well-formed machine are those of its package. *)
Lemma machine_knows_symbols m D ps : machine_ok m D ps → knows_symbols m.
Proof.
  intros Hm. destruct (mo_base _ _ _ Hm) as [[l us] Hb]. pose proof (mo_known _ _ _ Hm) as Hk. unfold knows, own in Hk. rewrite Hb in Hk.
  destruct (rg_symbols _ _ (np_dir _ _ _ (mo_packages _ _ _ Hm)) _ _ _ Hb) as [Hs _].
  eapply Forall2_impl; [exact Hk|]. intros name s Ha. cbv beta in *. by rewrite (find_ok _ _ _ _ Hs), <- Ha.
Qed.

Definition sample_jets : list (bytes * bool) := [(str "CAR", false); (str "CDR", false); (str "CALL/CC", true)].
Definition sample_machine : evaluator :=
  match new_evaluator sample_jets.*1 (new_heap false) with Some (Ret m) => m | _ => blank_machine end.
Definition sample_image : image := MkImage sample_machine 7 true (pointer T_sym 0 false).
Definition sample_body : bytes := match put_image sample_jets sample_image with Ret out => out | Throw _ => [] end.

(** The tape with a given body, if the compressor stores its input as it is. *)
Definition stored (out : bytes) (format : compression) : bytes :=
  let plain := out ++ Sha256.sha256 out in
  match format with none => plain | zlib => compressed_magic ++ put_u32 (Z.of_nat (length plain)) ++ plain end.

Lemma stored_length out format : Z.of_nat (length (stored out format)) = Z.of_nat (length out) + match format with none => 32 | zlib => 44 end.
Proof.
  unfold stored. destruct format; rewrite !length_app, ?put_u32_length, Hash.HashFacts.sha256_length; [lia|]. change (length compressed_magic) with 8%nat. lia.
Qed.

Lemma stored_plain jets i out : validate jets i = Ret tt → put_image jets i = Ret out → encode jets i = Ret (stored out none).
Proof. intros Hv Hp. unfold encode. rewrite Hv. cbn [bind]. by rewrite Hp. Qed.

Lemma stored_encodes jets i out format : validate jets i = Ret tt → put_image jets i = Ret out → Z.of_nat (length out) ≤ 2 ^ 31 →
  tape_encode jets (λ d, (0, d)) i format = Ret (stored out format).
Proof.
  intros Hv Hp Hl. unfold tape_encode, encode. rewrite Hv. cbn [bind]. rewrite Hp. cbn [bind]. pose proof (stored_length out none) as Hn.
  unfold stored in *. destruct format; [done|]. unfold put_count, demand, word_limit. by rewrite (proj2 (Z.leb_le _ _)) by lia.
Qed.

Lemma sample_new : ∃ D ps, machine_ok sample_machine D ps.
Proof.
  destruct (new_evaluator_ok sample_jets.*1 (new_heap false) 0) as (m & D & Hn & Hm & _).
  - apply new_heap_ok.
  - apply (bool_decide_eq_true_1 _). vm_compute. reflexivity.
  - vm_compute. discriminate.
  - apply new_heap_space. vm_compute. discriminate.
  - exists D. eexists. unfold sample_machine. rewrite Hn. exact Hm.
Qed.

Lemma sample_valid : validate sample_jets sample_image = Ret tt.
Proof. vm_compute. reflexivity. Qed.

Lemma sample_written : put_image sample_jets sample_image = Ret sample_body ∧ Z.of_nat (length sample_body) = 5268.
Proof.
  assert (match put_image sample_jets sample_image with Ret out => Z.of_nat (length out) | Throw _ => 0 end = 5268) as H by (vm_compute; reflexivity).
  unfold sample_body. destruct (put_image sample_jets sample_image); [|discriminate]. by split.
Qed.

Lemma sample_encodes format : tape_encode sample_jets (λ d, (0, d)) sample_image format = Ret (stored sample_body format).
Proof. apply stored_encodes; [exact sample_valid|apply sample_written|]. rewrite (proj2 sample_written). lia. Qed.

Lemma sample_fits format : (length (stored sample_body format) ≤ Z.to_nat 8192)%nat.
Proof. pose proof (stored_length sample_body format) as H. rewrite (proj2 sample_written) in H. destruct format; lia. Qed.

(** [valid], decided. *)
Definition valid_in (h : heap) (x : Z) : bool :=
  (0 <=? x) && (x <? 2 ^ 32) &&
  (negb (pointer_word x) || eqb (era_of x) (era_ h) && (Z.to_nat (index_of x) <? size_ (htable h (tag_of x)))%nat).

Lemma valid_in_valid h x : valid_in h x = true → valid h x.
Proof.
  unfold valid_in, valid, is_word. rewrite !andb_true_iff, Z.leb_le, Z.ltb_lt, orb_true_iff, negb_true_iff, andb_true_iff, Nat.ltb_lt.
  intros [[H0 H1] H]. split; [done|]. intros Hp. destruct H as [H|[He Hi]]; [congruence|]. by apply eqb_prop in He.
Qed.

Lemma sample_roots : Forall (λ r, valid (heap_ sample_machine) (root_in r.2 sample_machine)) roots.
Proof.
  assert (forallb (λ r, valid_in (heap_ sample_machine) (root_in r.2 sample_machine)) roots = true) as H by (vm_compute; reflexivity).
  apply Forall_forall. intros r Hr. apply valid_in_valid. rewrite forallb_forall in H. by apply H, list_elem_of_In.
Qed.

#[local] Opaque sample_machine.

Lemma tape_roundtrip_witness : ∃ i', tape_decode sample_jets (λ _ z, (0, z, length z)) (stored sample_body zlib) (Z.to_nat 8192) = Some (Ret i') ∧
  same_image sample_image i' ∧ known_ (machine i') = known_ (machine sample_image) ∧
  frozen_ktx_ (heap_ (machine i')) = size_ (htable (heap_ (machine sample_image)) T_ktx).
Proof.
  destruct sample_new as (D & ps & Hm).
  refine (tape_roundtrip sample_jets (λ d, (0, d)) (λ _ z, (0, z, length z)) sample_image zlib (stored sample_body none) (stored sample_body zlib) (Z.to_nat 8192) _ _ _ _ _ _ _ _ _ _ _).
  - intros d z [= ->]. reflexivity.
  - exact (rg_heap _ _ (np_dir _ _ _ (mo_packages _ _ _ Hm))).
  - apply valid_in_valid. vm_compute. reflexivity.
  - apply Forall_forall. exact sample_roots.
  - discriminate.
  - apply (bool_decide_eq_true_1 _). vm_compute. reflexivity.
  - exact (machine_knows_symbols _ _ _ Hm).
  - apply sample_encodes.
  - apply sample_encodes.
  - exact (sample_fits none).
  - exact (sample_fits zlib).
Defined.
