(* ===== verification/Restore.v ===== *)
(** * What an accepted tape guarantees (src/src/wisp/tape.cpp)

    [Tape] shows that a tape gives back the machine it was written from. Here the bytes are arbitrary: whatever
    [restore] accepts is a well-formed heap, with package lists that end and continuations whose control links have
    no cycle; and [restore] ends, whatever it is given. *)
From Stdlib Require Import Sorting.Sorted.
From S2P Require Import Prelude State Hash Word Vat Heap Grow Package Code Tape.

#[local] Set Default Proof Using "All".
#[local] Open Scope Z_scope.

(** ** Reading arbitrary bytes *)

(** From bytes, [m] ends, leaves bytes, and what it returns satisfies [Q]. *)
Definition gives {A} (m : reading A) (Q : A → Prop) : Prop := ∀ s, Forall is_byte s →
  wp m (λ r s', Forall is_byte s' ∧ match r with Ret a => Q a | Throw e => e ≠ out_of_fuel end) s.

Lemma gives_ret {A} (a : A) Q : Q a → gives (pret a) Q.
Proof. intros H s Hs. by apply wp_ret. Qed.

Lemma gives_throw {A} e (Q : A → Prop) : e ≠ out_of_fuel → gives (pthrow e) Q.
Proof. intros H s Hs. by apply wp_throw. Qed.

Lemma gives_bind {A B} (m : reading A) (k : A → reading B) P Q : gives m P → (∀ a, P a → gives (k a) Q) → gives (pbind m k) Q.
Proof.
  intros Hm Hk s Hs. apply wp_bind. eapply wp_mono; [apply (Hm s Hs)|]. intros [a|e] s' [Hs' H]; [by apply (Hk a)|done].
Qed.

Lemma gives_need {B} good message (k : unit → reading B) Q : (good = true → gives (k tt) Q) → gives (pbind (need good message) k) Q.
Proof. intros H s Hs. destruct good; [by apply (H eq_refl)|]. apply wp_bind. by apply (wp_throw (tape_error message)). Qed.

Lemma gives_left {B} (k : nat → reading B) Q : (∀ n, gives (k n) Q) → gives (pbind (gets length) k) Q.
Proof. intros H s Hs. by apply H. Qed.

Lemma gives_tables {A B} (r : result fault A) (k : A → reading B) Q : (∀ a, r = Ret a → gives (k a) Q) → gives (pbind (on_tables r) k) Q.
Proof. intros H s Hs. destruct r as [a|e]; [by apply (H a eq_refl)|]. apply wp_bind. by apply (wp_throw (heap_error e)). Qed.

Lemma gives_mono {A} (m : reading A) (P Q : A → Prop) : gives m P → (∀ a, P a → Q a) → gives m Q.
Proof. intros H HPQ s Hs. eapply wp_mono; [by apply H|]. intros [a|e] s' [? ?]; split; eauto. Qed.

Lemma gives_take n : gives (take_bytes n) (λ w, Forall is_byte w ∧ Z.of_nat (length w) = Z.max 0 n).
Proof.
  intros s Hs. unfold wp, take_bytes. destruct (Z.leb_spec n (Z.of_nat (length s))); [|by eexists (Throw _), s].
  eexists (Ret _), _. split; [done|]. split_and!; [by apply Forall_drop|by apply Forall_take|]. rewrite length_take. lia.
Qed.

Lemma bytes_word a b c d : is_byte a → is_byte b → is_byte c → is_byte d →
  is_word (Z.lor (Z.lor (Z.lor a (Z.shiftl b 8)) (Z.shiftl c 16)) (Z.shiftl d 24)).
Proof.
  unfold is_byte, is_word. intros Ha Hb Hc Hd. rewrite (Z.lor_comm a), (lor_shiftl_add b a 8) by lia.
  rewrite (Z.lor_comm _ (Z.shiftl c 16)), (lor_shiftl_add c _ 16) by lia. rewrite (Z.lor_comm _ (Z.shiftl d 24)), (lor_shiftl_add d _ 24) by lia. lia.
Qed.

Lemma gives_u32 : gives get_u32 is_word.
Proof.
  eapply gives_bind; [apply gives_take|]. intros w [Hw Hl]. apply gives_ret. destruct w as [|a [|b [|c [|d [|]]]]]; cbn [length] in Hl; try lia.
  rewrite !Forall_cons in Hw. destruct Hw as (Ha & Hb & Hc & Hd & _). by apply bytes_word.
Qed.

Lemma gives_text : gives get_text (λ w, Forall is_byte w ∧ Z.of_nat (length w) ≤ word_limit).
Proof.
  eapply gives_bind; [apply gives_u32|]. intros n Hn. eapply gives_mono; [apply gives_take|]. intros w [Hw Hl]. split; [done|].
  unfold is_word, word_limit in *. lia.
Qed.

Lemma gives_flag : gives get_flag (λ _, True).
Proof. eapply gives_bind; [apply gives_u32|]. intros x _. apply gives_need. intros _. by apply gives_ret. Qed.

Lemma gives_words n : gives (get_words n) (λ xs, Forall is_word xs ∧ length xs = n).
Proof.
  induction n as [|n IH]; [by apply gives_ret|]. eapply gives_bind; [apply gives_u32|]. intros x Hx. eapply gives_bind; [exact IH|].
  intros xs [Hxs Hl]. apply gives_ret. split; [by constructor|]. cbn. by rewrite Hl.
Qed.

(** The roots are words. *)
Record words_in (m : evaluator) : Prop := {
  wi_fields : Forall is_word [base_ m; keywords_ m; keys_ m; packages_ m; current_ m; nil_name_ m; true_name_ m];
  wi_known : Forall is_word (known_ m);
}.

Lemma root_put_words s x m : is_word x → words_in m → words_in (root_put s x m).
Proof.
  intros Hx [Hf Hk]. destruct m as [h b kw ks ps c nn tn kn]. cbn in Hf, Hk. rewrite !Forall_cons in Hf. destruct Hf as (? & ? & ? & ? & ? & ? & ? & _).
  destruct s; cbn; split; cbn; try done; rewrite ?Forall_cons, ?Forall_nil; try tauto. by apply Forall_insert.
Qed.

Lemma root_in_word s m : words_in m → is_word (root_in s m).
Proof.
  intros [Hf Hk]. rewrite !Forall_cons in Hf. destruct Hf as (? & ? & ? & ? & ? & ? & ? & _). destruct s as [| | | | | | |i]; try done. cbn.
  destruct (nth_in_or_default i (known_ m) 0) as [Hin| ->]; [|done]. by eapply Forall_forall; [exact Hk|apply list_elem_of_In].
Qed.

Lemma gives_roots n : ∀ seen m, words_in m → gives (get_roots n seen m) words_in.
Proof.
  induction n as [|n IH]; intros seen m Hm; [by apply gives_ret|]. cbn [get_roots]. eapply gives_bind; [apply gives_text|]. intros name _.
  destruct (position fst name roots); [|by apply gives_throw]. apply gives_need. intros _. eapply gives_bind; [apply gives_u32|].
  intros x Hx. by apply IH, root_put_words.
Qed.

Lemma position_lt {A} (f : A → bytes) name l i : position f name l = Some i → (i < length l)%nat.
Proof. unfold position. intros E. apply fmap_Some in E as ([j a] & E & ->). apply list_find_Some in E as (E & _). by eapply lookup_lt_Some. Qed.

Lemma gives_jets jets n : ∀ jm, Forall (λ id, id < length jets)%nat jm → gives (get_jets jets n jm) (Forall (λ id, id < length jets)%nat).
Proof.
  induction n as [|n IH]; intros jm Hjm; [apply gives_ret; by apply Forall_rev|]. cbn [get_jets]. eapply gives_bind; [apply gives_text|]. intros name _.
  eapply gives_bind; [apply gives_flag|]. intros control _. destruct (position fst name jets) as [id|] eqn:E; [|by apply gives_throw].
  apply gives_need. intros _. apply gives_need. intros _. apply IH. constructor; [by apply position_lt in E|done].
Qed.

Lemma gives_operands ks : gives (get_operands ks) (λ _, True).
Proof. induction ks as [|k ks IH]; [by apply gives_ret|]. eapply gives_bind; [apply gives_text|]. intros name _. by apply gives_need. Qed.

Lemma gives_operations ops : ∀ i, gives (get_operations i ops) (λ _, True).
Proof.
  induction ops as [|o ops IH]; intros i; [by apply gives_ret|]. cbn [get_operations]. eapply gives_bind; [apply gives_text|]. intros name _. apply gives_need. intros _.
  eapply gives_bind; [apply gives_u32|]. intros opcode _. apply gives_need. intros _. eapply gives_bind; [apply gives_u32|]. intros n _. apply gives_need. intros _.
  eapply gives_bind; [apply gives_operands|]. intros _ _. apply IH.
Qed.

(** *** Tables *)

Record tab_words (w : nat) (tb : tab) : Prop := {
  tw_ok : tab_ok w tb;
  tw_rows : Forall (Forall is_word) (rows tb);
}.

Lemma reserve_words w tb n tb' : tab_words w tb → reserve tb n = Ret tb' → tab_words w tb'.
Proof.
  intros [Hok Hr] E. destruct (Z.le_gt_cases (Z.of_nat n) max_rows) as [Hn|Hn].
  - destruct (reserve_ok w tb n Hok Hn) as (tb1 & E1 & Hok1 & Hr1 & _). rewrite E in E1. injection E1 as ->. split; [done|by rewrite Hr1].
  - unfold reserve in E. by rewrite (proj2 (Z.ltb_lt _ _) Hn) in E.
Qed.

Lemma push_words w tb data k tb' : tab_words w tb → length data = w → Forall is_word data → push tb data = Ret (k, tb') → tab_words w tb'.
Proof.
  intros [Hok Hr] Hl Hd E. destruct (Z.lt_ge_cases (Z.of_nat (size_ tb)) max_rows) as [Hn|Hn].
  - destruct (push_ok w tb data Hok Hl Hn) as (tb1 & E1 & Hok1 & Hr1 & _). rewrite E in E1. injection E1 as -> ->. split; [done|]. rewrite Hr1. apply Forall_app. by split; [|constructor].
  - rewrite (push_full w) in E; [done|done|]. pose proof (ok_size _ _ Hok). pose proof (ok_capacity _ _ Hok). lia.
Qed.

Lemma set_tab_words w tb i c x tb' : tab_words w tb → (c < w)%nat → is_word x → Vat.set tb i c x = Ret tb' → tab_words w tb'.
Proof.
  intros [Hok Hr] Hc Hx E. destruct (rows tb !! i) as [r|] eqn:Er.
  - destruct (set_ok w tb i c x r Hok Er Hc) as (tb1 & E1 & Hok1 & Hr1 & _). rewrite E in E1. injection E1 as ->. split; [done|]. rewrite Hr1. apply Forall_insert; [done|]. apply Forall_insert; [|done].
    eapply Forall_lookup_1; [exact Hr|exact Er].
  - apply lookup_ge_None in Er. rewrite rows_length in Er. unfold Vat.set in E. by rewrite (proj2 (Nat.ltb_ge _ _) Er) in E.
Qed.

Lemma push_rows_words t n : ∀ tb tb', tab_words (width t) tb → push_rows t n tb = Ret tb' → tab_words (width t) tb'.
Proof.
  induction n as [|n IH]; intros tb tb' Hw E; [by injection E as <-|]. cbn [push_rows] in E. apply bind_ret in E as ([k tb1] & E1 & E).
  apply (IH tb1); [|done]. eapply push_words; [exact Hw|apply length_replicate|by apply Forall_replicate|exact E1].
Qed.

Lemma gives_column w c n : (c < w)%nat → ∀ i tb, tab_words w tb → gives (fill_column c n i tb) (tab_words w).
Proof.
  intros Hc. induction n as [|n IH]; intros i tb Hw; [by apply gives_ret|]. cbn [fill_column]. eapply gives_bind; [apply gives_u32|]. intros x Hx.
  apply gives_tables. intros tb' E. apply IH. by eapply set_tab_words.
Qed.

Lemma gives_fill w cs n : Forall (λ c, c < w)%nat cs → ∀ tb, tab_words w tb → gives (fill_columns cs n tb) (tab_words w).
Proof.
  induction 1 as [|c cs Hc _ IH]; intros tb Hw; [by apply gives_ret|]. cbn [fill_columns]. eapply gives_bind; [by apply gives_column|]. exact IH.
Qed.

Lemma gives_columns t n : ∀ seen, Forall (λ c, c < width t)%nat seen → gives (get_columns t n seen) (Forall (λ c, c < width t)%nat).
Proof.
  induction n as [|n IH]; intros seen Hs; [apply gives_ret; by apply Forall_rev|]. cbn [get_columns]. eapply gives_bind; [apply gives_text|]. intros name _. eapply gives_bind; [apply gives_text|]. intros kind _.
  destruct (position _ name (schema t)) as [c|] eqn:E; [|by apply gives_throw]. apply gives_need. intros _. apply gives_need. intros _. apply IH. constructor; [by apply position_lt in E|done].
Qed.

Lemma gives_table t tb : tab_words (width t) tb → gives (get_table t tb) (tab_words (width t)).
Proof.
  intros Hw. unfold get_table. eapply gives_bind; [apply gives_u32|]. intros n _. apply gives_need. intros _. apply gives_need. intros _.
  eapply gives_bind; [apply gives_u32|]. intros w _. apply gives_need. intros _. eapply gives_bind; [by apply gives_columns|]. intros cs Hcs. apply gives_left. intros left.
  apply gives_need. intros _. apply gives_tables. intros tb1 E1. apply gives_tables. intros tb2 E2. apply gives_fill; [done|]. eapply push_rows_words; [|exact E2]. by eapply reserve_words.
Qed.

Record vat_words (v : vat) : Prop := {
  vw_length : length v = 11%nat;
  vw_tables : ∀ t, is_pointer t = true → tab_words (width t) (table v t);
}.

Lemma with_table_words v t tb : is_pointer t = true → vat_words v → tab_words (width t) tb → vat_words (with_table v t tb).
Proof.
  intros Ht [Hl Hv] Hw. split; [by rewrite with_table_length|]. intros u Hu. destruct (decide (t = u)) as [<-|Hne].
  - by rewrite table_with_eq.
  - rewrite table_with_ne by done. by apply Hv.
Qed.

Lemma empty_vat_words : vat_words empty_vat.
Proof. split; [done|]. intros t Ht. rewrite empty_vat_table by done. split; [apply empty_tab_ok|]. by destruct t. Qed.

Lemma gives_get_tables n : ∀ seen v, vat_words v → gives (get_tables n seen v) vat_words.
Proof.
  induction n as [|n IH]; intros seen v Hv; [by apply gives_ret|]. cbn [get_tables]. eapply gives_bind; [apply gives_u32|]. intros type _. apply gives_need. intros _.
  destruct (list_find _ vat_tags) as [[j t]|] eqn:E; [|by apply gives_throw]. apply list_find_Some in E as (E & _).
  pose proof (vat_tags_pointers t (list_elem_of_lookup_2 _ _ _ E)) as Ht. eapply gives_bind; [apply gives_table; by apply Hv|]. intros tb Hw. by apply IH, with_table_words.
Qed.

(** *** Pins *)

Lemma emplace_keys k x m z : z ∈ (emplace k x m).*1 → z = k ∨ z ∈ m.*1.
Proof.
  induction m as [|[j y] m IH]; cbn [emplace fmap list_fmap fst]; intros Hz; [left; by apply list_elem_of_singleton in Hz|].
  destruct (k <? j); [by apply elem_of_cons in Hz|]. destruct (k =? j); [by right|]. cbn [fmap list_fmap fst] in Hz. rewrite elem_of_cons.
  apply elem_of_cons in Hz as [->|Hz]; [tauto|]. destruct (IH Hz); tauto.
Qed.

Lemma emplace_sorted k x m : StronglySorted Z.lt m.*1 → StronglySorted Z.lt (emplace k x m).*1.
Proof.
  induction m as [|[j y] m IH]; intros Hs; cbn [emplace]; [repeat constructor|]. cbn [fmap list_fmap fst] in Hs. apply StronglySorted_inv in Hs as [Hs Hj].
  destruct (Z.ltb_spec k j) as [Hlt|Hge]; [|destruct (Z.eqb_spec k j) as [->|Hne]]; cbn [fmap list_fmap fst].
  - constructor; [by constructor|]. constructor; [done|]. eapply Forall_impl; [exact Hj|]. intros z Hz. cbv beta in *. lia.
  - by constructor.
  - constructor; [by apply IH|]. apply Forall_forall. intros z Hz. rewrite Forall_forall in Hj. destruct (emplace_keys _ _ _ _ Hz) as [->|Hz']; [lia|by apply Hj].
Qed.

Lemma emplace_values k x m : Forall is_word m.*2 → is_word x → Forall is_word (emplace k x m).*2.
Proof.
  intros Hm Hx. induction m as [|[j y] m IH]; cbn [emplace]; [by apply Forall_singleton|]. cbn [fmap list_fmap snd] in Hm. apply Forall_cons in Hm as [Hy Hm].
  destruct (k <? j), (k =? j); cbn [fmap list_fmap snd]; repeat (apply Forall_cons; split); auto.
Qed.

Lemma gives_pins n : ∀ ps, Forall is_word ps.*2 → StronglySorted Z.lt ps.*1 → gives (get_pins n ps) (λ ps, Forall is_word ps.*2 ∧ StronglySorted Z.lt ps.*1).
Proof.
  induction n as [|n IH]; intros ps Hw Hs; [by apply gives_ret|]. cbn [get_pins]. eapply gives_bind; [apply gives_u32|]. intros id _. eapply gives_bind; [apply gives_u32|]. intros x Hx.
  apply gives_need. intros _. apply IH; [by apply emplace_values|by apply emplace_sorted].
Qed.

(** *** The whole image *)

(** What is read before it is checked: words in well-formed tables. *)
Record loaded (i : image) : Prop := {
  ld_vat : vat_words (vat_ (heap_ (machine i)));
  ld_roots : words_in (machine i);
  ld_entry : is_word (entry i);
  ld_words : Forall is_word (words_ (heap_ (machine i)));
  ld_words_size : Z.of_nat (length (words_ (heap_ (machine i)))) ≤ word_limit;
  ld_bytes_size : Z.of_nat (length (bytes_ (heap_ (machine i)))) ≤ word_limit;
  ld_pins : Forall is_word (pins_ (heap_ (machine i))).*2;
  ld_sorted : StronglySorted Z.lt (pins_ (heap_ (machine i))).*1;
  ld_slots : slots_ (heap_ (machine i)) = ∅ ∧ roots_ (heap_ (machine i)) = None;
}.

Lemma blank_words : words_in blank_machine.
Proof. split; [repeat (apply Forall_cons; split; [done|]); apply Forall_nil_2|by apply Forall_replicate]. Qed.

Lemma gives_image jets : gives (get_image jets) (λ p, loaded p.1 ∧ Forall (λ id, id < length jets)%nat p.2).
Proof.
  unfold get_image. eapply gives_bind; [apply gives_take|]. intros start _. apply gives_need. intros _. eapply gives_bind; [apply gives_u32|]. intros v _. apply gives_need. intros _.
  eapply gives_bind; [apply gives_flag|]. intros era _. eapply gives_bind; [apply gives_u32|]. intros next_pin _. eapply gives_bind; [apply gives_u32|]. intros low _. eapply gives_bind; [apply gives_u32|]. intros high _.
  eapply gives_bind; [apply gives_flag|]. intros collects _. eapply gives_bind; [apply gives_u32|]. intros e He. eapply gives_bind; [apply gives_u32|]. intros n0 _. apply gives_need. intros _.
  eapply gives_bind; [apply gives_roots, blank_words|]. intros m Hm. eapply gives_bind; [apply gives_u32|]. intros n1 _. apply gives_need. intros _. eapply gives_bind; [by apply gives_jets|]. intros jm Hjm.
  eapply gives_bind; [apply gives_u32|]. intros v1 _. apply gives_need. intros _. eapply gives_bind; [apply gives_u32|]. intros n2 _. apply gives_need. intros _. eapply gives_bind; [apply gives_operations|]. intros [] _.
  eapply gives_bind; [apply gives_text|]. intros pool [_ Hpool]. eapply gives_bind; [apply gives_u32|]. intros n3 Hn3. apply gives_left. intros left. apply gives_need. intros _. eapply gives_bind; [apply gives_words|]. intros words [Hwords Hlen].
  eapply gives_bind; [apply gives_u32|]. intros n4 _. apply gives_need. intros _. eapply gives_bind; [apply gives_get_tables, empty_vat_words|]. intros tables Ht. eapply gives_bind; [apply gives_u32|]. intros n5 _. apply gives_left. intros left1. apply gives_need. intros _.
  eapply gives_bind; [by apply (gives_pins _ []); [apply Forall_nil_2|constructor]|]. intros pins [Hp Hs]. apply gives_left. intros left2. apply gives_need. intros _. apply gives_ret. split; [|done].
  split; cbn [fst machine heap_ set_heap vat_ words_ bytes_ pins_ slots_ roots_ entry]; try done; [by destruct Hm; split|]. unfold is_word, word_limit in *. lia.
Qed.

(** ** Relocation *)

Lemma get_word w tb i c x : tab_words w tb → (c < w)%nat → Vat.get tb i c = Ret x → is_word x.
Proof.
  intros [Hok Hr] Hc E. destruct (rows tb !! i) as [r|] eqn:Er.
  - destruct (get_ok w tb i c r Hok Er Hc) as (y & Ey & E1). rewrite E in E1. injection E1 as ->. eapply Forall_lookup_1; [|exact Ey]. eapply Forall_lookup_1; [exact Hr|exact Er].
  - apply lookup_ge_None in Er. rewrite rows_length in Er. by rewrite get_out in E.
Qed.

Lemma of_heap_ret {A} (r : result fault A) a : of_heap r = Ret a → r = Ret a.
Proof. destruct r; [by intros [= ->]|done]. Qed.

Section relocation.
Context (jets : list (bytes * bool)) (jm : list nat) (Hjets : Z.of_nat (length jets) ≤ 2 ^ 27) (Hjm : Forall (λ id, id < length jets)%nat jm).

Lemma remap_word x y : is_word x → remap jm x = Ret y → is_word y.
Proof.
  intros Hx E. unfold remap in E. destruct (negb _); [by injection E as <-|]. destruct (jm !! _) as [id|] eqn:Ej; [|done]. injection E as <-.
  apply immediate_parts; [done|]. rewrite Forall_forall in Hjm. specialize (Hjm id (list_elem_of_lookup_2 _ _ _ Ej)). cbv beta in Hjm. lia.
Qed.

Lemma remap_all_words xs : ∀ ys, Forall is_word xs → remap_all jm xs = Ret ys → Forall is_word ys ∧ length ys = length xs.
Proof.
  induction xs as [|x xs IH]; intros ys Hw E; cbn [remap_all] in E; [injection E as <-; by split|]. apply bind_ret in E as (y & Ey & E). apply bind_ret in E as (zs & Ez & [= <-]).
  apply Forall_cons in Hw as [Hx Hw]. destruct (IH zs Hw Ez) as [Hz Hl]. split; [apply Forall_cons; split; [by eapply remap_word|done]|]. cbn. by rewrite Hl.
Qed.

Lemma remap_roots_words rs : ∀ m m', words_in m → remap_roots jm rs m = Ret m' → words_in m' ∧ heap_ m' = heap_ m.
Proof.
  induction rs as [|r rs IH]; intros m m' Hm E; cbn [remap_roots] in E; [injection E as <-; by split|]. apply bind_ret in E as (y & Ey & E).
  destruct (IH (root_put r.2 y m) m') as [Hm' ->]; [|done|].
  - apply root_put_words; [|done]. eapply remap_word; [by apply root_in_word|exact Ey].
  - split; [done|]. by destruct m, (r.2).
Qed.

Lemma remap_rows_words w c n : (c < w)%nat → ∀ i tb tb', tab_words w tb → remap_rows jm c n i tb = Ret tb' → tab_words w tb'.
Proof.
  intros Hc. induction n as [|n IH]; intros i tb tb' Hw E; cbn [remap_rows] in E; [by injection E as <-|]. apply bind_ret in E as (x & Ex & E). apply bind_ret in E as (y & Ey & E). apply bind_ret in E as (tb1 & E1 & E).
  apply of_heap_ret in Ex, E1. eapply IH; [|exact E]. eapply set_tab_words; [exact Hw|exact Hc| |exact E1]. eapply remap_word; [by eapply get_word|exact Ey].
Qed.

Lemma remap_columns_words w cs : Forall (λ ck, ck.1 < w)%nat cs → ∀ tb tb', tab_words w tb → remap_columns jm cs tb = Ret tb' → tab_words w tb'.
Proof.
  induction 1 as [|[c k] cs Hc _ IH]; intros tb tb' Hw E; cbn [remap_columns] in E; [by injection E as <-|]. apply bind_ret in E as (tb1 & E1 & E). eapply IH; [|exact E].
  destruct (is_value k); [by eapply remap_rows_words|by injection E1 as <-].
Qed.

Lemma remap_tables_words ts : Forall (λ t, is_pointer t = true) ts → ∀ v v', vat_words v → remap_tables jm ts v = Ret v' → vat_words v'.
Proof.
  induction 1 as [|t ts Ht _ IH]; intros v v' Hv E; cbn [remap_tables] in E; [by injection E as <-|]. apply bind_ret in E as (tb & Eb & E). eapply IH; [|exact E]. apply with_table_words; [done|done|].
  eapply remap_columns_words; [|by apply Hv|exact Eb]. apply Forall_forall. intros ck. apply numbered_lt.
Qed.

Lemma relocate_loaded i i' : loaded i → relocate jm i = Ret i' → loaded i'.
Proof.
  intros [Hv Hr He Hw Hws Hbs Hp Hs [Hsl Hro]] E. unfold relocate in E. set (h := heap_ (machine i)) in *.
  apply bind_ret in E as (e & Ee & E). apply bind_ret in E as (m & Em & E). apply bind_ret in E as (ps & Ep & E). apply bind_ret in E as (ws & Ew & E). apply bind_ret in E as (v & Ev & [= <-]).
  destruct (remap_all_words _ _ Hp Ep) as [Hps Hlp]. destruct (remap_all_words _ _ Hw Ew) as [Hww Hlw]. destruct (remap_roots_words _ _ _ Hr Em) as [[Hf Hk] _].
  assert (length ps = length (pins_ h).*1) as Hl by (rewrite Hlp; by rewrite !length_fmap).
  split; cbn [machine heap_ set_heap set_vat set_words set_pins vat_ words_ bytes_ pins_ slots_ roots_ entry]; try done.
  - eapply remap_tables_words; [|exact Hv|exact Ev]. apply Forall_forall. exact vat_tags_pointers.
  - by eapply remap_word.
  - by rewrite Hlw.
  - by rewrite snd_zip by lia.
  - by rewrite fst_zip by lia.
Qed.

End relocation.

(** ** Checked storage is a well-formed heap *)

Lemma check_value_valid jets h x : is_word x → check_value jets h x = Ret tt → valid h x.
Proof.
  intros Hx Hc. split; [done|]. intros Hp. unfold pointer_word in Hp. unfold check_value in Hc. rewrite Hp in Hc. apply demand_inv, andb_true_iff in Hc as [He Hi].
  split; [by apply eqb_prop|by apply Nat.ltb_lt].
Qed.

Lemma check_slices_inv w tb size n : tab_ok w tb → ∀ i total total', check_slices tb size n i total = Ret total' →
  ∀ k r, (i ≤ k < i + n)%nat → rows tb !! k = Some r → nth 0 r 0 + nth 1 r 0 ≤ Z.of_nat size.
Proof.
  intros Hok. induction n as [|n IH]; intros i total total' E k r Hk Hr; [lia|]. cbn [check_slices] in E. apply bind_ret in E as (r' & Er & E). apply bind_ret in E as ([] & Ed & E).
  destruct (decide (k = i)) as [->|Hne]; [|eapply IH; [exact E| |exact Hr]; lia].
  apply of_heap_ret in Er. rewrite (read_ok _ _ _ _ Hok Hr) in Er. injection Er as <-. apply demand_inv, andb_true_iff in Ed as [_ Hd]. apply Z.leb_le in Hd. lia.
Qed.

Lemma numbered_lookup t c col : schema t !! c = Some col → (c, col) ∈ numbered t.
Proof.
  intros E. unfold numbered. apply (list_elem_of_lookup_2 _ c). apply lookup_zip_with_Some. exists c, col. split; [done|]. split; [|done]. apply lookup_seq. split; [done|]. by apply lookup_lt_Some in E.
Qed.

(** A row of a checked table. *)
Lemma check_table_row jets h t i r : is_pointer t = true → tab_words (width t) (htable h t) → check_table jets h t = Ret tt → rows (htable h t) !! i = Some r → row_ok h t r.
Proof.
  intros Ht [Hok Hw] Hc Hi. pose proof (list_elem_of_lookup_2 _ _ _ Hi) as Hin. assert (Forall is_word r) as Hr by (eapply Forall_lookup_1; [exact Hw|exact Hi]).
  assert (∀ c x, value_column_at t c → r !! c = Some x → valid h x) as Hvals.
  { intros c x (col & Hcol & Hkind) Hx. apply (check_value_valid jets); [eapply Forall_lookup_1; [exact Hr|exact Hx]|].
    eapply checked_column; [done|done|exact Hc|by apply numbered_lookup|by apply bool_decide_eq_true|exact Hin|done]. }
  assert (i < size_ (htable h t))%nat as Hsz by (rewrite <- rows_length; by eapply lookup_lt_Some).
  unfold check_table in Hc. apply bind_ret in Hc as (marks & Em & Hc). apply bind_ret in Hc as ([] & Ez & Hc). apply bind_ret in Hc as ([] & _ & Hc).
  split; [done| |done| |].
  - intros Hz. apply of_heap_ret in Em. rewrite (col_ok (width t)) in Em by (done || by destruct t; try done; cbn; lia). injection Em as <-.
    pose proof (for_each_inv _ _ Ez zap) as H. assert (zap ∈ (λ r : row, default 0 (r !! 0%nat)) <$> rows (htable h t)) as Hm.
    { apply list_elem_of_fmap. exists r. split; [|done]. destruct r as [|x r]; cbn in Hz |- *; congruence. }
    specialize (H Hm). apply demand_inv in H. by rewrite Z.eqb_refl in H.
  - intros ->. rewrite bool_decide_true in Hc by done. cbn [orb] in Hc. apply bind_ret in Hc as (total & Es & _). eapply check_slices_inv; [exact Hok|exact Es| |exact Hi]. lia.
  - intros Hp. rewrite Hp, orb_true_r in Hc. rewrite bool_decide_false in Hc by (by intros ->). apply bind_ret in Hc as (total & Es & _). eapply check_slices_inv; [exact Hok|exact Es| |exact Hi]. lia.
Qed.

Lemma check_storage_ok jets i : loaded i → check_storage jets i = Ret tt →
  let h := heap_ (machine i) in heap_ok h ∧ valid h (entry i) ∧ Forall (λ r, valid h (root_in r.2 (machine i))) roots.
Proof.
  intros [[Hlen Htabs] Hr He Hw Hws Hbs Hp Hs [Hsl Hro]] Hc h. unfold check_storage in Hc. fold h in Hc, Hlen, Htabs, Hw, Hws, Hbs, Hp, Hs, Hsl, Hro.
  apply bind_ret in Hc as ([] & _ & Hc). apply bind_ret in Hc as ([] & Cn & Hc). apply bind_ret in Hc as ([] & _ & Hc). apply bind_ret in Hc as ([] & Ce & Hc). apply bind_ret in Hc as ([] & Cr & Hc). apply bind_ret in Hc as ([] & Cp & Hc). apply bind_ret in Hc as ([] & Cw & Ct).
  apply demand_inv, andb_true_iff in Cn as [Cn1 Cn2]. apply Z.leb_le in Cn1, Cn2. rewrite Forall_fmap in Hp. rewrite Forall_forall in Hp. rewrite Forall_forall in Hw.
  assert (∀ p, p ∈ pins_ h → 1 ≤ p.1 < next_pin_ h ∧ valid h p.2) as Hpin.
  { intros p Hin. pose proof (for_each_inv _ _ Cp p Hin) as H. apply bind_ret in H as ([] & Hk & H). apply demand_inv, andb_true_iff in Hk as [Hk1 Hk2]. apply Z.ltb_lt in Hk1, Hk2. split; [lia|]. apply (check_value_valid jets); [by apply Hp|done]. }
  split_and!.
  - split; try done.
    + intros t Ht. by apply Htabs.
    + intros t k r Ht Hk. eapply check_table_row; [done|by apply Htabs|apply (for_each_inv _ _ Ct)|exact Hk]. destruct (vat_index_tags t Ht) as [E _]. by eapply list_elem_of_lookup_2.
    + apply Forall_forall. intros x Hx. apply (check_value_valid jets); [by apply Hw|exact (for_each_inv _ _ Cw x Hx)].
    + apply Forall_forall. intros p Hin. by apply Hpin.
    + split; [|done]. rewrite Forall_fmap. apply Forall_forall. intros p Hin. by apply Hpin.
    + intros a r Ha. by rewrite Hsl, lookup_empty in Ha.
    + exists []. split_and!; [constructor|done|by intros k a Hk|]. rewrite Hsl. by apply dom_empty_L.
  - by apply (check_value_valid jets).
  - apply Forall_forall. intros r Hin. apply (check_value_valid jets); [by apply root_in_word|exact (for_each_inv _ _ Cr r Hin)].
Qed.

(** ** The checks end *)

Definition fine {A} (r : result tape_fault A) : Prop := r ≠ Throw out_of_fuel.

Lemma fine_bind {A B} (a : result tape_fault A) (k : A → result tape_fault B) : fine a → (∀ x, a = Ret x → fine (k x)) → fine (bind a k).
Proof. intros Ha Hk. destruct a as [x|e]; [by apply Hk|]. unfold fine in *. cbn. congruence. Qed.

Lemma fine_ret {A} (a : A) : fine (Ret a).
Proof. done. Qed.

Lemma fine_heap {A} (r : result fault A) : fine (of_heap r).
Proof. by destruct r. Qed.

Lemma fine_demand b s : fine (demand b s).
Proof. by destruct b. Qed.

Lemma fine_each {A} (f : A → result tape_fault unit) l : (∀ x, fine (f x)) → fine (for_each f l).
Proof. intros Hf. induction l as [|x l IH]; [done|]. cbn [for_each]. by apply fine_bind. Qed.

Create HintDb fine.
#[export] Hint Resolve fine_ret fine_heap fine_demand fine_each : fine.
#[export] Hint Extern 4 (fine (typed _ _)) => apply fine_demand : fine.
#[export] Hint Extern 4 (fine (Throw _)) => discriminate : fine.
Ltac finish_fine := repeat first [progress intros | solve [auto 2 with fine] | apply fine_bind | apply fine_each | case_match].

Lemma fine_throw {A B} (r : result tape_fault A) e : r = Throw e → fine r → fine (@Throw _ B e).
Proof. unfold fine. intros -> H [= ->]. done. Qed.

Ltac throws E := split; [refine (fine_throw _ _ E _); solve [eauto with fine]|].

(** How many cells have a mark. *)
Fixpoint marked (c : nat) (colors : list nat) : nat :=
  match colors with [] => 0 | d :: colors => (if (d =? c)%nat then 1 else 0) + marked c colors end%nat.

Lemma marked_le c colors : (marked c colors ≤ length colors)%nat.
Proof. induction colors as [|d colors IH]; [done|]. cbn. destruct (d =? c)%nat; lia. Qed.

Lemma marked_paint c d colors : c ≠ d → ∀ i, colors !! i = Some c → (S (marked c (<[i := d]> colors)) = marked c colors)%nat.
Proof.
  intros Hne. induction colors as [|e colors IH]; intros [|i] Hi; try done; cbn in Hi.
  - injection Hi as ->. cbn. rewrite Nat.eqb_refl, (proj2 (Nat.eqb_neq d c)) by congruence. done.
  - specialize (IH i Hi). change (<[S i := d]> (e :: colors)) with (e :: <[i := d]> colors). cbn [marked]. lia.
Qed.

Lemma marked_other c d colors : c ≠ d → ∀ i, (marked c (<[i := d]> colors) ≤ marked c colors)%nat.
Proof.
  intros Hne. induction colors as [|e colors IH]; intros [|i]; try done.
  - cbn. rewrite (proj2 (Nat.eqb_neq d c)) by congruence. lia.
  - specialize (IH i). change (<[S i := d]> (e :: colors)) with (e :: <[i := d]> colors). cbn [marked]. lia.
Qed.

Lemma color_of_inv colors x c : color_of colors x = Ret c → colors !! Z.to_nat (index_of x) = Some c.
Proof. unfold color_of. destruct (colors !! _); [by intros [= ->]|done]. Qed.

Lemma fine_color colors x : fine (color_of colors x).
Proof. unfold color_of. by destruct (colors !! _). Qed.
#[export] Hint Resolve fine_color : fine.

(** Only three marks are in use. *)
Definition colored (n : nat) (colors : list nat) : Prop := length colors = n ∧ Forall (λ c, c ≤ 2)%nat colors.

Lemma colored_paint n x c colors : colored n colors → (c ≤ 2)%nat → colored n (paint x c colors).
Proof. intros [Hl Hc] H. split; [by rewrite <- Hl; apply length_insert|by apply Forall_insert]. Qed.

Lemma walk_list_fine h element n fuel : ∀ cur colors, colored n colors → (marked 0 colors < fuel)%nat →
  fine (walk_list fuel h element cur colors) ∧ ∀ colors', walk_list fuel h element cur colors = Ret colors' → colored n colors'.
Proof.
  induction fuel as [|fuel IH]; intros cur colors Hn Hf; [lia|]. cbn [walk_list]. destruct (cur =? nil); [by split; [|intros ? [= <-]]|].
  destruct (typed cur T_duo) as [[]|e] eqn:Et; cbn [bind]; [|by throws Et].
  destruct (color_of colors cur) as [c|e] eqn:Ec; cbn [bind]; [|by throws Ec]. apply color_of_inv in Ec.
  destruct (Nat.eqb_spec c 1) as [->|H1]; cbn; [done|]. destruct (Nat.eqb_spec c 2) as [->|H2]; [by split; [|intros ? [= <-]]|].
  assert (c = 0%nat) as -> by (destruct Hn as [_ Hc]; pose proof (Forall_lookup_1 _ _ _ _ Hc Ec); cbv beta in *; lia).
  destruct (of_heap (hread T_duo cur h)) as [cell|e] eqn:Eh; cbn [bind]; [|by throws Eh].
  destruct (typed (nth 0 cell 0) element) as [[]|e] eqn:Ee; cbn [bind]; [|by throws Ee].
  apply IH; [by apply colored_paint; [|lia]|]. pose proof (marked_paint 0 1 colors ltac:(lia) _ Ec). unfold paint. lia.
Qed.

Lemma settle_list_fine h n fuel : ∀ cur colors, colored n colors → (marked 1 colors < fuel)%nat →
  fine (settle_list fuel h cur colors) ∧ ∀ colors', settle_list fuel h cur colors = Ret colors' → colored n colors'.
Proof.
  induction fuel as [|fuel IH]; intros cur colors Hn Hf; [lia|]. cbn [settle_list]. destruct (cur =? nil); [by split; [|intros ? [= <-]]|].
  destruct (color_of colors cur) as [c|e] eqn:Ec; cbn [bind]; [|by throws Ec]. apply color_of_inv in Ec.
  destruct (Nat.eqb_spec c 1) as [->|H1]; cbn [negb]; [|by split; [|intros ? [= <-]]].
  destruct (of_heap (hget T_duo F_cdr cur h)) as [next|e] eqn:Eh; cbn [bind]; [|by throws Eh].
  apply IH; [by apply colored_paint; [|lia]|]. pose proof (marked_paint 1 2 colors ltac:(lia) _ Ec). unfold paint. lia.
Qed.

Lemma proper_fine h head element colors : colored (size_ (htable h T_duo)) colors →
  fine (proper h head element colors) ∧ ∀ colors', proper h head element colors = Ret colors' → colored (size_ (htable h T_duo)) colors'.
Proof.
  intros Hn. unfold proper, cells. pose proof (marked_le 0 colors). destruct (walk_list_fine h element _ (S (size_ (htable h T_duo))) head colors Hn) as [Hf Hr]; [destruct Hn; lia|].
  destruct (walk_list _ h element head colors) as [c1|e]; cbn [bind]; [|done]. specialize (Hr c1 eq_refl). apply settle_list_fine; [done|]. pose proof (marked_le 1 c1). destruct Hr; lia.
Qed.

Lemma check_packages_fine h n : ∀ i colors, colored (size_ (htable h T_duo)) colors → fine (check_packages h n i colors).
Proof.
  induction n as [|n IH]; intros i colors Hc; [done|]. cbn [check_packages]. apply fine_bind; [auto with fine|]. intros r _. apply fine_bind; [auto with fine|]. intros _ _.
  destruct (proper_fine h (nth 1 r 0) T_sym colors Hc) as [Hf Hr]. apply fine_bind; [done|]. intros c1 E. apply IH, Hr, E.
Qed.

Lemma unmarked c colors i : marked c colors = 0%nat → colors !! i ≠ Some c.
Proof.
  revert i. induction colors as [|d colors IH]; intros [|i] Hm Hi; try done; cbn in Hm, Hi; destruct (Nat.eqb_spec d c); try lia; [congruence|by eapply IH].
Qed.

(** A list that was walked from the start is read in as many turns. *)
Lemma list_packages_fine h element fuel : ∀ cur colors colors' packages names, marked 2 colors = 0%nat →
  walk_list fuel h element cur colors = Ret colors' → fine (list_packages fuel h cur packages names).
Proof.
  induction fuel as [|fuel IH]; intros cur colors colors' packages names Hm E; [done|]. cbn [walk_list list_packages] in *. destruct (cur =? nil); [done|].
  apply bind_ret in E as (_ & _ & E). apply bind_ret in E as (c & Ec & E). apply bind_ret in E as (_ & _ & E). apply color_of_inv in Ec.
  destruct (Nat.eqb_spec c 2) as [->|H2]; [by apply unmarked in Ec|]. apply bind_ret in E as (cell & Eh & E). apply bind_ret in E as (_ & _ & E). rewrite Eh. cbn [bind].
  apply fine_bind; [auto with fine|]. intros s _. apply fine_bind; [auto with fine|]. intros name _. apply fine_bind; [auto with fine|]. intros _ _. eapply IH; [|exact E].
  pose proof (marked_other 2 1 colors ltac:(lia) (Z.to_nat (index_of cur))). unfold paint. lia.
Qed.

Lemma search_fine edges n fuel : ∀ pending colors, colored n colors → (3 * marked 0 colors + length pending < fuel)%nat →
  fine (search fuel edges pending colors) ∧ ∀ colors', search fuel edges pending colors = Ret colors' → colored n colors'.
Proof.
  induction fuel as [|fuel IH]; intros pending colors Hn Hf; [lia|]. cbn [search]. destruct pending as [|[cur leaving] pending]; [by split; [|intros ? [= <-]]|]. cbn [length] in Hf.
  destruct (cur =? top); [apply IH; [done|lia]|]. destruct (color_of colors cur) as [c|e] eqn:Ec; cbn [bind]; [|by throws Ec]. apply color_of_inv in Ec.
  destruct leaving.
  { apply IH; [by apply colored_paint; [|lia]|]. pose proof (marked_other 0 2 colors ltac:(lia) (Z.to_nat (index_of cur))). unfold paint. lia. }
  destruct (Nat.eqb_spec c 1) as [->|H1]; cbn; [done|]. destruct (Nat.eqb_spec c 2) as [->|H2]; [apply IH; [done|lia]|].
  assert (c = 0%nat) as -> by (destruct Hn as [_ Hc]; pose proof (Forall_lookup_1 _ _ _ _ Hc Ec); cbv beta in *; lia).
  apply IH; [by apply colored_paint; [|lia]|]. pose proof (marked_paint 0 1 colors ltac:(lia) _ Ec). unfold paint. cbn [length]. lia.
Qed.

Lemma search_all_fine h edges n : ∀ i colors, colored (length edges) colors → fine (search_all h edges n i colors).
Proof.
  induction n as [|n IH]; intros i colors Hc; [done|]. cbn [search_all]. pose proof (marked_le 0 colors). destruct Hc as [Hl Hc].
  destruct (search_fine edges (length edges) (3 * length edges + 2) [(pointer T_ktx (Z.of_nat i) (era_ h), false)] colors) as [Hf Hr]; [done|cbn [length]; lia|].
  apply fine_bind; [done|]. intros c1 E. apply IH, Hr, E.
Qed.

Lemma colored_white n : colored n (replicate n 0%nat).
Proof. split; [apply length_replicate|by apply Forall_replicate; lia]. Qed.

Lemma fine_value jets h x : fine (check_value jets h x).
Proof. unfold check_value. finish_fine. Qed.
#[export] Hint Resolve fine_value : fine.

Lemma fine_slices tb size n : ∀ i total, fine (check_slices tb size n i total).
Proof. induction n as [|n IH]; intros i total; [done|]. cbn [check_slices]. finish_fine. Qed.
#[export] Hint Resolve fine_slices : fine.

Lemma fine_table jets h t : fine (check_table jets h t).
Proof. unfold check_table, check_columns. finish_fine. Qed.
#[export] Hint Resolve fine_table : fine.

Lemma check_storage_fine jets i : fine (check_storage jets i).
Proof. unfold check_storage. finish_fine. Qed.

Lemma fine_continuation x : fine (check_continuation x).
Proof. unfold check_continuation. finish_fine. Qed.
#[export] Hint Resolve fine_continuation : fine.

Lemma fine_segment m x : fine (check_segment m x).
Proof. unfold check_segment, check_continuation. finish_fine. Qed.

Lemma fine_meta m x : fine (check_meta m x).
Proof. unfold check_meta, check_continuation. finish_fine. Qed.
#[export] Hint Resolve fine_segment fine_meta : fine.

Lemma fine_edges m i : fine (edges_of m i).
Proof. unfold edges_of.
  finish_fine.
Qed.
#[export] Hint Resolve fine_edges : fine.

Lemma fine_all_edges m n : ∀ i, fine (all_edges m n i).
Proof. induction n as [|n IH]; intros i; [done|]. cbn [all_edges]. finish_fine. Qed.

Lemma fine_root m packages ir : fine (check_root m packages ir).
Proof. unfold check_root. finish_fine. Qed.
#[export] Hint Resolve fine_root : fine.

Lemma check_machine_fine m : fine (check_machine m).
Proof.
  unfold check_machine. set (h := heap_ m). apply fine_bind; [apply fine_each; intros i; unfold check_symbol; finish_fine|]. intros _ _. apply fine_bind; [apply fine_each; intros i; unfold check_record; finish_fine|]. intros _ _.
  apply fine_bind; [apply check_packages_fine, colored_white|]. intros _ _. pose proof (colored_white (size_ (htable h T_duo))) as Hw. apply fine_bind; [by apply proper_fine|]. intros c1 Ec1.
  unfold proper in Ec1. apply bind_ret in Ec1 as (c0 & E0 & _). apply fine_bind; [eapply list_packages_fine; [|exact E0]; clear; induction (size_ _); done|]. intros ps _.
  apply fine_bind; [auto with fine|]. intros _ _. apply fine_bind; [auto with fine|]. intros _ _. apply fine_bind; [apply fine_all_edges|]. intros edges _.
  apply fine_bind; [apply search_all_fine, colored_white|]. intros _ _. unfold column_of, check_owner. finish_fine.
Qed.

Lemma validate_fine jets i : fine (validate jets i).
Proof. unfold validate. apply fine_bind; [apply check_storage_fine|]. intros _ _. apply check_machine_fine. Qed.

(** ** Checked lists end *)

Lemma typed_inv x t u : typed x t = Ret u → tag_of x = t.
Proof. intros H. apply demand_inv in H. by apply bool_decide_eq_true in H. Qed.

Section lists.
Context (h : heap) (Hh : heap_ok h) (element : tag).

(** A list of words with the tag. *)
Definition listed (x : Z) : Prop := ∃ l, spine h x l ∧ Forall (λ a, tag_of a = element) l.

(** The cells marked 2 begin lists. *)
Definition settled (colors : list nat) : Prop :=
  ∀ x, valid h x → tag_of x = T_duo → colors !! Z.to_nat (index_of x) = Some 2%nat → listed x.

Lemma cell_row x : valid h x → tag_of x = T_duo → ∃ a d, hread T_duo x h = Ret [a; d] ∧ valid h a ∧ valid h d.
Proof.
  intros Hv Ht. assert (pointer_word x = true) as Hp by (unfold pointer_word; by rewrite Ht). rewrite (hread_ok h T_duo x Hh Hv Ht eq_refl).
  pose proof (row_of_length h x Hh Hv Hp) as Hl. pose proof (row_of_ok h x Hh Hv Hp) as Hr. rewrite Ht in Hl, Hr. destruct (row_of h x) as [|a [|d [|]]]; try done.
  exists a, d. split; [done|]. split; eapply (row_values _ _ _ Hr); try done; [by instantiate (1 := 0%nat); eexists|done|by instantiate (1 := 1%nat); eexists|done].
Qed.

Lemma settled_paint x colors : settled colors → settled (paint x 1 colors).
Proof.
  intros Hs y Hv Ht Hy. unfold paint in Hy. destruct (decide (Z.to_nat (index_of x) = Z.to_nat (index_of y))) as [E|Hne].
  - rewrite E in Hy. destruct (decide (Z.to_nat (index_of y) < length colors)%nat); [by rewrite list_lookup_insert_eq in Hy|]. rewrite list_insert_ge in Hy by lia. by apply Hs.
  - rewrite list_lookup_insert_ne in Hy by done. by apply Hs.
Qed.

Lemma walk_listed fuel : ∀ cur colors colors', valid h cur → settled colors → walk_list fuel h element cur colors = Ret colors' → listed cur ∧ settled colors'.
Proof.
  induction fuel as [|fuel IH]; intros cur colors colors' Hv Hs E; [done|]. cbn [walk_list] in E. destruct (Z.eqb_spec cur nil) as [->|Hne].
  { injection E as <-. split; [|done]. exists []. split; [constructor|done]. }
  apply bind_ret in E as ([] & Et & E). apply typed_inv in Et. apply bind_ret in E as (c & Ec & E). apply color_of_inv in Ec. apply bind_ret in E as (_ & _ & E).
  destruct (Nat.eqb_spec c 2) as [->|_]; [injection E as <-; split; [by apply Hs|done]|].
  destruct (cell_row cur Hv Et) as (a & d & Er & _ & Hd). rewrite Er in E. cbn [of_heap bind nth] in E. apply bind_ret in E as ([] & Ea & E). apply typed_inv in Ea.
  destruct (IH _ _ _ Hd (settled_paint cur colors Hs) E) as [(l & Hl & Ha) Hs']. split; [|done]. exists (a :: l). split; [by econstructor|by constructor].
Qed.

Lemma same_cell x y : valid h x → valid h y → tag_of x = T_duo → tag_of y = T_duo → Z.to_nat (index_of x) = Z.to_nat (index_of y) → x = y.
Proof.
  intros [Wx Vx] [Wy Vy] Tx Ty Hi. unfold pointer_word in *. rewrite Tx in Vx. rewrite Ty in Vy. destruct (Vx eq_refl) as [Ex _], (Vy eq_refl) as [Ey _].
  pose proof (index_of_range x). pose proof (index_of_range y). rewrite <- (pointer_rebuild x Wx), <- (pointer_rebuild y Wy) by (unfold pointer_word; by rewrite ?Tx, ?Ty).
  rewrite Tx, Ty, Ex, Ey. f_equal. lia.
Qed.

Lemma settle_settled fuel : ∀ cur colors colors', listed cur → settled colors → settle_list fuel h cur colors = Ret colors' → settled colors'.
Proof.
  induction fuel as [|fuel IH]; intros cur colors colors' Hl Hs E; [done|]. cbn [settle_list] in E. destruct (Z.eqb_spec cur nil) as [->|Hne]; [by injection E as <-|].
  apply bind_ret in E as (c & _ & E). destruct (negb _); [by injection E as <-|]. destruct Hl as (l & Hl & Ha).
  inversion Hl as [Hn|x a d l' Hv Ht Hr Hd]; subst; [done|]. rewrite (cell_cdr h cur a d Hh Hv Ht Hr) in E. cbn [of_heap bind] in E. eapply IH; [|  |exact E].
  - exists l'. split; [done|]. by apply Forall_cons in Ha as [_ Ha].
  - intros y Vy Ty Hy. unfold paint in Hy. destruct (decide (Z.to_nat (index_of cur) = Z.to_nat (index_of y))) as [Ei|Hne'].
    + rewrite <- (same_cell cur y); try done. by exists (a :: l').
    + rewrite list_lookup_insert_ne in Hy by done. by apply Hs.
Qed.

Lemma proper_listed head colors colors' : valid h head → settled colors → proper h head element colors = Ret colors' → listed head ∧ settled colors'.
Proof.
  intros Hv Hs E. unfold proper in E. apply bind_ret in E as (c1 & E1 & E). destruct (walk_listed _ _ _ _ Hv Hs E1) as [Hl Hs1]. split; [done|]. by eapply settle_settled.
Qed.

Lemma settled_white n : settled (replicate n 0%nat).
Proof. intros x _ _ Hx. apply lookup_replicate in Hx as [? _]. done. Qed.

End lists.

Lemma check_packages_lists h n : heap_ok h → ∀ i colors, settled h T_sym colors → check_packages h n i colors = Ret tt →
  ∀ k r, (i ≤ k < i + n)%nat → rows (htable h T_pkg) !! k = Some r → tag_of (nth 0 r 0) = T_v08 ∧ listed h T_sym (nth 1 r 0).
Proof.
  intros Hh. induction n as [|n IH]; intros i colors Hs E k r Hk Hr; [lia|]. cbn [check_packages] in E. apply bind_ret in E as (r' & Er & E). apply bind_ret in E as ([] & Et & E). apply bind_ret in E as (c1 & Ep & E).
  assert (∃ r0, rows (htable h T_pkg) !! i = Some r0) as [r0 Hr0].
  { apply lookup_lt_is_Some_2. apply lookup_lt_Some in Hr. lia. }
  apply of_heap_ret in Er. rewrite (read_ok _ _ _ _ (hk_tabs _ Hh T_pkg eq_refl) Hr0) in Er. injection Er as <-.
  assert (valid h (nth 1 r0 0)) as Hv.
  { pose proof (rows_width _ _ (hk_tabs _ Hh T_pkg eq_refl)) as Hw. pose proof (Forall_lookup_1 _ _ _ _ Hw Hr0) as Hl. cbv beta in Hl. destruct r0 as [|a [|b r0]]; try done.
    apply (row_values _ _ _ (hk_rows _ Hh T_pkg i _ eq_refl Hr0) 1); [by eexists|done]. }
  destruct (proper_listed h Hh T_sym _ _ _ Hv Hs Ep) as [Hl Hs1]. destruct (decide (k = i)) as [->|Hne]; [|exact (IH (S i) c1 Hs1 E k r ltac:(lia) Hr)].
  rewrite Hr in Hr0. injection Hr0 as <-. split; [by apply typed_inv in Et|done].
Qed.

(** What every package has: a name and a list of symbols. *)
Definition packages_ok (h : heap) : Prop := ∀ p, valid h p → tag_of p = T_pkg →
  (∃ v, hget T_pkg F_nam p h = Ret v ∧ valid h v ∧ tag_of v = T_v08) ∧ (∃ cur, hget T_pkg F_sym p h = Ret cur ∧ listed h T_sym cur).

Lemma check_packages_ok h : heap_ok h → check_packages h (size_ (htable h T_pkg)) 0 (replicate (size_ (htable h T_duo)) 0%nat) = Ret tt → packages_ok h.
Proof.
  intros Hh E p Hv Ht. assert (pointer_word p = true) as Hp by (unfold pointer_word; by rewrite Ht). pose proof (row_of_lookup h p Hv Hp) as Hr. rewrite Ht in Hr.
  pose proof (lookup_lt_Some _ _ _ Hr) as Hlt. rewrite rows_length in Hlt. destruct (check_packages_lists h _ Hh 0 _ (settled_white h Hh T_sym _) E _ _ (conj (Nat.le_0_l _) Hlt) Hr) as [H0 H1].
  destruct (hget_ok h T_pkg F_nam p 0 Hh Hv Ht) as (v & Hg & Hy); try done; [cbn; lia|]. destruct (hget_ok h T_pkg F_sym p 1 Hh Hv Ht) as (cur & Hg1 & Hy1); try done; [cbn; lia|].
  rewrite (nth_lookup_eq _ _ _ 0 Hy) in H0. rewrite (nth_lookup_eq _ _ _ 0 Hy1) in H1. split; [exists v|by exists cur]. split_and!; [done| |done].
  pose proof (row_of_ok h p Hh Hv Hp) as Hrow. rewrite Ht in Hrow. apply (row_values _ _ _ Hrow 0); [by eexists|done].
Qed.

(** The listed packages are different, and so are their names. *)
Lemma list_packages_inv h fuel : heap_ok h → packages_ok h → ∀ l cur acc names ps, spine h cur l → Forall (λ p, valid h p ∧ tag_of p = T_pkg) l → NoDup acc → NoDup names →
  list_packages fuel h cur acc names = Ret ps → ps = rev l ++ acc ∧ NoDup ps ∧ ∃ ns, Forall2 (package_named h) l ns ∧ NoDup (rev ns ++ names).
Proof.
  intros Hh Hpk. induction fuel as [|fuel IH]; intros l cur acc names ps Hl Htag Ha Hn E; [done|]. cbn [list_packages] in E. inversion Hl as [Hx|x a d l' Hv Ht Hr Hd]; subst.
  { rewrite Z.eqb_refl in E. injection E as <-. split; [done|]. split; [done|]. exists []. by split; [constructor|]. }
  destruct (Z.eqb_spec cur nil) as [->|_]; [by apply spine_not_nil in Hl|]. rewrite Hr in E. cbn [of_heap bind nth] in E. apply bind_ret in E as (s & Es & E). apply bind_ret in E as (name & En & E).
  apply bind_ret in E as ([] & Ed & E). apply demand_inv, andb_true_iff in Ed as [Hp Hq]. apply negb_true_iff, bool_decide_eq_false in Hp, Hq. apply of_heap_ret in Es, En. apply Forall_cons in Htag as [[Va Ta] Htag].
  destruct (IH l' d (a :: acc) (name :: names) ps Hd Htag) as (-> & Hnd & ns & Hns & Hnn); [by constructor|by constructor|done|]. cbn [rev]. rewrite <- app_assoc in *. split; [done|]. split; [done|].
  exists (name :: ns). cbn [rev]. rewrite <- app_assoc. split; [|done]. constructor; [|done]. split; [done|]. split; [done|]. exists s. split; [done|].
  destruct (Hpk a Va Ta) as [(v & Hg & Vv & Tv) _]. rewrite Es in Hg. injection Hg as <-. by split.
Qed.

(** ** Checked continuations have no cycle *)

Section search.
Context (edges : list (Z * Z)).

Abbreviation row_at x := (Z.to_nat (index_of x)).

(** The links from one row to another. *)
Definition leads (a b : nat) : Prop := ∃ e t, edges !! a = Some e ∧ (t = e.1 ∨ t = e.2) ∧ t ≠ top ∧ row_at t = b.

(** Every walk from the row ends. *)
Definition ends : nat → Prop := Acc (λ b a, leads a b).

(** The rows marked 2 are done. *)
Definition finished (colors : list nat) : Prop := ∀ i, colors !! i = Some 2%nat → ends i.

(** The word is done, or is to be visited. *)
Definition handled (pending : list (Z * bool)) (colors : list nat) (t : Z) : Prop :=
  t = top ∨ colors !! row_at t = Some 2%nat ∨ ∃ b, (t, b) ∈ pending.

(** A row is left when what it links to was handled. *)
Definition ordered (pending : list (Z * bool)) (colors : list nat) : Prop :=
  ∀ pre c post e, pending = pre ++ (c, true) :: post → c ≠ top → edges !! row_at c = Some e → handled pre colors e.1 ∧ handled pre colors e.2.

Lemma finished_paint x c colors : finished colors → (c = 2%nat → ends (row_at x)) → finished (paint x c colors).
Proof.
  intros Hf Hx i Hi. unfold paint in Hi. destruct (decide (row_at x = i)) as [<-|Hne].
  - destruct (decide (row_at x < length colors)%nat); [rewrite list_lookup_insert_eq in Hi by done; injection Hi as ->; by apply Hx|]. rewrite list_insert_ge in Hi by lia. by apply Hf.
  - rewrite list_lookup_insert_ne in Hi by done. by apply Hf.
Qed.

(** Handling the first pending word keeps the others in order. *)
Lemma handled_mono cur b pre colors pre' colors' t : (∀ i, colors !! i = Some 2%nat → colors' !! i = Some 2%nat) → (∀ p, p ∈ pre → p ∈ pre') → handled pre' colors' cur →
  handled ((cur, b) :: pre) colors t → handled pre' colors' t.
Proof.
  intros Hc Hp Hcur [->|[Ht|[b' Hin]]]; [by left|right; left; by apply Hc|]. apply elem_of_cons in Hin as [[= -> ->]|Hin]; [done|]. right. right. exists b'. by apply Hp.
Qed.

Lemma ordered_pop cur b pending colors colors' : (∀ i, colors !! i = Some 2%nat → colors' !! i = Some 2%nat) → handled [] colors' cur → ordered ((cur, b) :: pending) colors → ordered pending colors'.
Proof.
  intros Hc Hcur Ho pre c post e -> Hne He. destruct (Ho ((cur, b) :: pre) c post e eq_refl Hne He) as [H1 H2].
  assert (handled pre colors' cur) as Hh by (destruct Hcur as [->|[H|[b' H]]]; [by left|right; by left|by apply elem_of_nil in H]).
  split; eapply handled_mono; try done; auto.
Qed.

Lemma ordered_push cur pending colors e : edges !! row_at cur = Some e → colors !! row_at cur ≠ Some 2%nat → ordered ((cur, false) :: pending) colors →
  ordered ((e.2, false) :: (e.1, false) :: (cur, true) :: pending) (paint cur 1 colors).
Proof.
  intros Hcur H2 Ho. assert (∀ i, colors !! i = Some 2%nat → paint cur 1 colors !! i = Some 2%nat) as Hc.
  { intros i Hi. unfold paint. rewrite list_lookup_insert_ne; [done|]. by intros <-. }
  intros pre c post e' Hp Hne He. destruct pre as [|p0 [|p1 [|p2 pre]]]; [done|done| |].
  - injection Hp as <- <- <- <-. rewrite Hcur in He. injection He as <-. split; right; right; exists false; rewrite !elem_of_cons; [by right; left|by left].
  - injection Hp as <- <- <- ->. destruct (Ho ((cur, false) :: pre) c post e' eq_refl Hne He) as [H1' H2'].
    assert (handled ((e.2, false) :: (e.1, false) :: (cur, true) :: pre) (paint cur 1 colors) cur) as Hh by (right; right; exists true; rewrite !elem_of_cons; by right; right; left).
    split; (eapply (handled_mono cur false pre colors); [exact Hc|intros p; rewrite !elem_of_cons; tauto|exact Hh|assumption]).
Qed.

Lemma leave_ends cur pending colors : finished colors → cur ≠ top → (row_at cur < length edges)%nat → ordered ((cur, true) :: pending) colors → ends (row_at cur).
Proof.
  intros Hf Hne Hlt Ho. destruct (lookup_lt_is_Some_2 edges _ Hlt) as [e He]. destruct (Ho [] cur pending e eq_refl Hne He) as [H1 H2]. constructor. intros b (e' & t & He' & Ht & Htop & <-).
  rewrite He in He'. injection He' as <-. assert (handled [] colors t) as [->|[Hc|[b Hin]]] by (by destruct Ht as [->| ->]); [done|by apply Hf|by apply elem_of_nil in Hin].
Qed.

Lemma search_finishes x fuel : ∀ pending colors colors', colored (length edges) colors → finished colors → ordered pending colors → handled pending colors x →
  search fuel edges pending colors = Ret colors' → finished colors' ∧ handled [] colors' x.
Proof.
  induction fuel as [|fuel IH]; intros pending colors colors' Hn Hf Ho Hx E; [done|]. cbn [search] in E. destruct pending as [|[cur leaving] pending]; [by injection E as <-|].
  destruct (Z.eqb_spec cur top) as [->|Hne].
  { eapply IH; [..|exact E]; try done; [by eapply ordered_pop; [..|exact Ho]; [|left]|by eapply handled_mono; [..|exact Hx]; [| |left]]. }
  apply bind_ret in E as (c & Ec & E). apply color_of_inv in Ec. assert (row_at cur < length colors)%nat as Hlt by (by eapply lookup_lt_Some).
  destruct leaving.
  - assert (∀ i, colors !! i = Some 2%nat → paint cur 2 colors !! i = Some 2%nat) as Hc.
    { intros i Hi. unfold paint. destruct (decide (row_at cur = i)) as [<-|]; [by rewrite list_lookup_insert_eq|by rewrite list_lookup_insert_ne]. }
    assert (∀ pre, handled pre (paint cur 2 colors) cur) as Hcur by (intros pre; right; left; unfold paint; by rewrite list_lookup_insert_eq).
    eapply IH; [..|exact E].
    + apply colored_paint; [done|lia].
    + apply finished_paint; [done|]. intros _. eapply leave_ends; [done|done|destruct Hn; lia|exact Ho].
    + by eapply ordered_pop; [..|exact Ho].
    + by eapply handled_mono; [..|exact Hx].
  - apply bind_ret in E as (_ & _ & E). destruct (Nat.eqb_spec c 2) as [->|H2].
    { eapply IH; [..|exact E]; try done; [by eapply ordered_pop; [..|exact Ho]; [|right; left]|by eapply handled_mono; [..|exact Hx]; [| |right; left]]. }
    destruct (lookup_lt_is_Some_2 edges (row_at cur) ltac:(destruct Hn; lia)) as [e He]. rewrite (nth_lookup_eq _ _ _ _ He) in E. eapply IH; [..|exact E].
    + apply colored_paint; [done|lia].
    + by apply finished_paint.
    + apply ordered_push; [done|congruence|done].
    + eapply handled_mono; [..|exact Hx].
      * intros i Hi. unfold paint. rewrite list_lookup_insert_ne; [done|]. intros <-. congruence.
      * intros p. rewrite !elem_of_cons. tauto.
      * right. right. exists true. rewrite !elem_of_cons. by right; right; left.
Qed.

Lemma search_all_ends h n : (Z.of_nat (length edges) ≤ max_rows) → ∀ i colors, (i + n ≤ length edges)%nat → colored (length edges) colors → finished colors →
  search_all h edges n i colors = Ret tt → ∀ k, (i ≤ k < i + n)%nat → ends k.
Proof.
  intros Hmax. induction n as [|n IH]; intros i colors Hin Hn Hf E k Hk; [lia|]. cbn [search_all] in E. apply bind_ret in E as (c1 & E1 & E). set (x := pointer T_ktx (Z.of_nat i) (era_ h)) in *.
  destruct (pointer_parts T_ktx (Z.of_nat i) (era_ h) eq_refl) as (_ & Ht & Hi & _); [change max_rows with (2 ^ 26) in Hmax; lia|]. fold x in Ht, Hi.
  assert (ordered [(x, false)] colors) as Ho by (intros [|p0 [|]] c post e Hp; done). assert (handled [(x, false)] colors x) as Hx0 by (right; right; exists false; constructor).
  destruct (search_finishes x _ _ _ _ Hn Hf Ho Hx0 E1) as [Hf1 Hx].
  destruct (decide (k = i)) as [->|Hne].
  - destruct Hx as [Hx|[Hx|[b Hb]]]; [by rewrite Hx in Ht| |by apply elem_of_nil in Hb]. apply Hf1 in Hx. by rewrite Hi, Nat2Z.id in Hx.
  - eapply (IH (S i) c1); [lia| |done|exact E|lia]. pose proof (marked_le 0 colors). eapply search_fine; [exact Hn| |exact E1]. cbn [length]. destruct Hn. lia.
Qed.

End search.

(** ** Restoring arbitrary bytes *)

Lemma spine_values h x l : heap_ok h → spine h x l → Forall (valid h) l.
Proof.
  intros Hh. induction 1 as [|x a d l Hv Ht Hr Hs IH]; [constructor|]. destruct (cell_row h Hh T_sym x Hv Ht) as (a' & d' & Hr' & Ha & _). rewrite Hr in Hr'. injection Hr' as <- <-. by constructor.
Qed.

Lemma all_edges_lookup m n : ∀ i es, all_edges m n i = Ret es → length es = n ∧ ∀ k e, (k < n)%nat → edges_of m (i + k) = Ret e → es !! k = Some e.
Proof.
  induction n as [|n IH]; intros i es E; cbn [all_edges] in E; [injection E as <-; split; [done|intros; lia]|]. apply bind_ret in E as (e0 & E0 & E). apply bind_ret in E as (es' & E' & [= <-]).
  destruct (IH _ _ E') as [Hl Hk]. split; [cbn; by rewrite Hl|]. intros [|k] e Hlt He; [rewrite Nat.add_0_r in He; cbn; congruence|]. cbn. apply Hk; [lia|]. by rewrite Nat.add_succ_comm.
Qed.

(** The control links between live continuations. *)
Definition control (m : evaluator) (a b : nat) : Prop :=
  (a < size_ (htable (heap_ m) T_ktx))%nat ∧ ∃ e t, edges_of m a = Ret e ∧ (t = e.1 ∨ t = e.2) ∧ t ≠ top ∧ Z.to_nat (index_of t) = b.

(** What native code may rely on. *)
Record restored_ok (i : image) : Prop := {
  ro_heap : heap_ok (heap_ (machine i));
  ro_entry : valid (heap_ (machine i)) (entry i);
  ro_roots : Forall (λ r, valid (heap_ (machine i)) (root_in r.2 (machine i))) roots;
  ro_packages : packages_ok (heap_ (machine i));
  ro_listed : ∃ ps ns, spine (heap_ (machine i)) (packages_ (machine i)) ps ∧ NoDup ps ∧ current_ (machine i) ∈ ps ∧
    Forall2 (package_named (heap_ (machine i))) ps ns ∧ NoDup ns;
  ro_control : ∀ k, (k < size_ (htable (heap_ (machine i)) T_ktx))%nat → Acc (λ b a, control (machine i) a b) k;
}.

Lemma nodup_rev {A} (l : list A) : NoDup (rev l) → NoDup l.
Proof. rewrite !NoDup_ListNoDup. intros H. apply NoDup_rev in H. by rewrite rev_involutive in H. Qed.

Lemma check_machine_lists m : heap_ok (heap_ m) → valid (heap_ m) (packages_ m) → check_machine m = Ret tt →
  packages_ok (heap_ m) ∧ ∃ ps ns, spine (heap_ m) (packages_ m) ps ∧ NoDup ps ∧ current_ m ∈ ps ∧ Forall2 (package_named (heap_ m)) ps ns ∧ NoDup ns.
Proof.
  intros Hh Hv E. unfold check_machine in E. set (h := heap_ m) in *. do 2 apply bind_ret in E as ([] & _ & E). apply bind_ret in E as ([] & Ep & E). apply bind_ret in E as (c1 & El & E). apply bind_ret in E as (ps & Es & E). apply bind_ret in E as ([] & Ec & _).
  pose proof (check_packages_ok h Hh Ep) as Hpk. split; [done|]. destruct (proper_listed h Hh T_pkg _ _ _ Hv (settled_white h Hh T_pkg _) El) as [(l & Hl & Ht) _].
  assert (Forall (λ p, valid h p ∧ tag_of p = T_pkg) l) as Hlv.
  { pose proof (spine_values h _ _ Hh Hl) as Hva. rewrite Forall_forall in Ht, Hva |- *. intros p Hp. split; [by apply Hva|by apply Ht]. }
  destruct (list_packages_inv h _ Hh Hpk l _ [] [] ps Hl Hlv (NoDup_nil_2) (NoDup_nil_2) Es) as (-> & Hnd & ns & Hns & Hnn).
  rewrite app_nil_r in *. exists l, ns. apply demand_inv, bool_decide_eq_true in Ec. split_and!; [done|by apply nodup_rev|by apply list_elem_of_In, in_rev, list_elem_of_In|done|by apply nodup_rev].
Qed.

Lemma check_machine_control m : heap_ok (heap_ m) → check_machine m = Ret tt → ∀ k, (k < size_ (htable (heap_ m) T_ktx))%nat → Acc (λ b a, control m a b) k.
Proof.
  intros Hh E k Hk. unfold check_machine in E. set (h := heap_ m) in *. do 3 apply bind_ret in E as ([] & _ & E). do 2 apply bind_ret in E as (? & _ & E). do 2 apply bind_ret in E as ([] & _ & E). apply bind_ret in E as (es & Ee & E). apply bind_ret in E as ([] & Es & _).
  destruct (all_edges_lookup _ _ _ _ Ee) as [Hl Hlk]. pose proof (hk_tabs _ Hh T_ktx eq_refl) as Hok. pose proof (ok_size _ _ Hok). pose proof (ok_capacity _ _ Hok).
  assert (ends es k) as Hend.
  { eapply (search_all_ends es h); [lia| |apply colored_white| |exact Es|lia]; [lia|]. intros j Hj. apply lookup_replicate in Hj as [? _]. done. }
  clear Hk. induction Hend as [a _ IH]. constructor. intros b (Hlt & e & t & Ha & Ht). apply IH. exists e, t. split; [by apply Hlk|done].
Qed.

Lemma fine_remap jm x : fine (remap jm x).
Proof. unfold remap. finish_fine. Qed.
#[export] Hint Resolve fine_remap : fine.

Lemma fine_remap_all jm xs : fine (remap_all jm xs).
Proof. induction xs as [|x xs IH]; [done|]. cbn [remap_all]. finish_fine. Qed.

Lemma fine_remap_roots jm rs : ∀ m, fine (remap_roots jm rs m).
Proof. induction rs as [|r rs IH]; intros m; [done|]. cbn [remap_roots]. finish_fine. Qed.

Lemma fine_remap_rows jm c n : ∀ i tb, fine (remap_rows jm c n i tb).
Proof. induction n as [|n IH]; intros i tb; [done|]. cbn [remap_rows]. finish_fine. Qed.
#[export] Hint Resolve fine_remap_all fine_remap_roots fine_remap_rows : fine.

Lemma fine_remap_columns jm cs : ∀ tb, fine (remap_columns jm cs tb).
Proof. induction cs as [|[c k] cs IH]; intros tb; [done|]. cbn [remap_columns]. finish_fine. Qed.
#[export] Hint Resolve fine_remap_columns : fine.

Lemma fine_remap_tables jm ts : ∀ v, fine (remap_tables jm ts v).
Proof. induction ts as [|t ts IH]; intros v; [done|]. cbn [remap_tables]. finish_fine. Qed.
#[export] Hint Resolve fine_remap_tables : fine.

Lemma relocate_fine jm i : fine (relocate jm i).
Proof. unfold relocate. finish_fine. Qed.

(** C6: whatever bytes a tape has, restoring it ends, and what it accepts is safe to run: a well-formed heap of this era, in
    which every word names a live row and every slice lies in its pool, with a valid entry and valid roots; every package has a
    name and a list of symbols that ends; the list of packages ends, without a package or a name
    twice, and has the current package; and the control links of the continuations have no cycle. *)
Theorem restore_safe jets data limit : Forall is_byte data → Z.of_nat (length jets) ≤ 2 ^ 27 →
  restore jets data limit ≠ Throw out_of_fuel ∧ ∀ i, restore jets data limit = Ret i → restored_ok i.
Proof.
  intros Hd Hj. unfold restore. set (body := take _ data). assert (Forall is_byte body) as Hb by (by apply Forall_take). destruct (gives_image jets body Hb) as (r & s' & Eg & _ & Hr). rewrite Eg. split.
  - do 3 (apply fine_bind; [apply fine_demand|intros _ _]). destruct r as [[i jm]|e]; [|congruence]. apply fine_bind; [apply relocate_fine|]. intros i' _. apply fine_bind; [apply validate_fine|done].
  - intros i E. do 3 apply bind_ret in E as ([] & _ & E). destruct r as [[i0 jm]|e]; [|done]. destruct Hr as [Hld Hjm]. apply bind_ret in E as (i1 & E1 & E). apply bind_ret in E as ([] & Ev & [= <-]).
    pose proof (relocate_loaded jets jm Hj Hjm i0 i1 Hld E1) as Hl1. unfold validate in Ev. apply bind_ret in Ev as ([] & Es & Em). destruct (check_storage_ok jets i1 Hl1 Es) as (Hok & He & Hroots).
    destruct (check_machine_lists (machine i1) Hok) as [Hpk Hls]; [|done|].
    + rewrite Forall_forall in Hroots. apply (Hroots (str "packages", S_packages)). unfold roots. do 3 right. left.
    + exact (Build_restored_ok i1 Hok He Hroots Hpk Hls (check_machine_control _ Hok Em)).
Qed.

Lemma sha256_bytes m : Forall is_byte (Sha256.sha256 m).
Proof. unfold Sha256.sha256, Sha256.finalize. apply Hash.HashFacts.store_words_bytes. Qed.

Lemma sample_tape_bytes : Forall is_byte (stored sample_body none).
Proof.
  apply Forall_app. split; [|apply sha256_bytes].
  assert (forallb (λ b, (0 <=? b) && (b <? 256)) sample_body = true) as H by (vm_compute; reflexivity).
  rewrite forallb_forall in H. apply Forall_forall. intros b Hb. apply list_elem_of_In, H, andb_true_iff in Hb as [H0 H1]. apply Z.leb_le in H0. by apply Z.ltb_lt in H1.
Qed.

Lemma sample_restores : ∃ i, restore sample_jets (stored sample_body none) (Z.to_nat 8192) = Ret i.
Proof.
  destruct sample_new as (D & ps & Hm). destruct (restore_encode sample_jets sample_image (stored sample_body none) (Z.to_nat 8192)) as (i & E & _); [| | |exact (sample_fits none)|by exists i].
  - eapply image_ok_valid; [exact (rg_heap _ _ (np_dir _ _ _ (mo_packages _ _ _ Hm)))|apply valid_in_valid; vm_compute; reflexivity|apply Forall_forall; exact sample_roots|discriminate|exact sample_valid].
  - apply (bool_decide_eq_true_1 _). vm_compute. reflexivity.
  - exact (stored_plain _ _ _ sample_valid (proj1 sample_written)).
Qed.

Lemma restore_safe_witness : ∃ i, restore sample_jets (stored sample_body none) (Z.to_nat 8192) = Ret i ∧ restored_ok i.
Proof.
  destruct sample_restores as [i E]. destruct (restore_safe sample_jets (stored sample_body none) (Z.to_nat 8192) sample_tape_bytes) as [_ H]; [discriminate|].
  exists i. split; [exact E|exact (H i E)].
Defined.
