(* ===== verification/Text.v ===== *)
(** * Terminal text (src/src/nxtui/utf8.hpp, text_field.hpp)

    Movement by grapheme cluster, display width in cells, the words and segments of a text, and
    the editable line [TextField]. The Unicode tables are those of the vendored utf8proc: the four functions that
    the code calls are the fields of the class [utf8proc], and [utf8proc_law] is what its
    documentation says of [utf8proc_iterate]. *)
From S2P Require Import Prelude.

#[local] Set Default Proof Using "Type*".

(** [iterate t] is [utf8proc_iterate] on all of [t]: the length and the code point of the first
    character, or [None] for a negative return. *)
Class utf8proc := {
  iterate : bytes → option (nat * Z);
  grapheme_break_stateful : Z → Z → Z → bool * Z;
  charwidth : Z → Z;
  category : Z → Z;
}.

(** In case of success the number of bytes read is returned, at most the bytes there are. *)
Class utf8proc_law (U : utf8proc) : Prop :=
  iterate_reads t len cp : iterate t = Some (len, cp) → t ≠ [] → 0 < len ≤ length t.

Section utf8.
Context {U : utf8proc}.

Record Decoded := MkDecoded {
  d_length : nat;
  d_codepoint : Z;
  d_valid : bool;
}.

Definition decode (text : bytes) (byte : nat) : Decoded :=
  if length text <=? byte then MkDecoded 0 0 false else
  match iterate (drop byte text) with
  | None => MkDecoded 1 0xfffd false
  | Some (len, cp) => MkDecoded len cp true
  end.

Definition regional_indicator (cp : Z) : bool := ((0x1f1e6 <=? cp) && (cp <=? 0x1f1ff))%Z.

(** The categories [ZS], [ZL] and [ZP]. *)
Definition is_separator_category (c : Z) : bool := ((c =? 23) || (c =? 24) || (c =? 25))%Z.

(** Tab, line feed, vertical tab, form feed and carriage return. *)
Definition is_control_break (cp : Z) : bool := ((9 <=? cp) && (cp <=? 13))%Z.

Fixpoint separator_loop (fuel : nat) (cluster : bytes) (byte : nat) : bool :=
  match fuel with
  | O => false
  | S fuel =>
      if length cluster <=? byte then false else
      let d := decode cluster byte in
      if negb (d_valid d) then false
      else if is_control_break (d_codepoint d) then true
      else if is_separator_category (category (d_codepoint d)) then true
      else separator_loop fuel cluster (byte + d_length d)
  end.

Definition is_word_separator (cluster : bytes) : bool := separator_loop (S (length cluster)) cluster 0.

Definition is_line_break (cluster : bytes) : bool :=
  bool_decide (cluster = [10%Z]) || bool_decide (cluster = [13%Z; 10%Z]) || bool_decide (cluster = [13%Z]).

(** The loop of [next]. *)
Fixpoint next_loop (fuel : nat) (text : bytes) (current : Z) (end_ : nat) (state : Z) : nat :=
  match fuel with
  | O => end_
  | S fuel =>
      if length text <=? end_ then end_ else
      let following := decode text end_ in
      if negb (d_valid following) then end_ else
      let '(stop, state) := grapheme_break_stateful current (d_codepoint following) state in
      if stop then end_ else next_loop fuel text (d_codepoint following) (end_ + d_length following) state
  end.

Definition next (text : bytes) (byte : nat) : nat :=
  if length text <=? byte then length text else
  let current := decode text byte in
  if negb (d_valid current) then byte + d_length current
  else next_loop (length text) text (d_codepoint current) (byte + d_length current) 0.

Fixpoint prev_loop (fuel : nat) (text : bytes) (byte b : nat) : nat :=
  match fuel with
  | O => length text
  | S fuel =>
      if length text <=? b then length text else
      let n := next text b in
      if byte <=? n then b else prev_loop fuel text byte n
  end.

Definition prev (text : bytes) (byte : nat) : nat :=
  let byte := if length text <? byte then length text else byte in
  if byte =? 0 then 0 else prev_loop (S (length text)) text byte 0.

Fixpoint floor_loop (fuel : nat) (text : bytes) (byte boundary b : nat) : nat :=
  match fuel with
  | O => length text
  | S fuel =>
      if length text <=? b then length text else
      let n := next text b in
      if byte <? n then boundary else floor_loop fuel text byte n n
  end.

Definition floor_boundary (text : bytes) (byte : nat) : nat :=
  if length text <=? byte then length text else floor_loop (S (length text)) text byte 0 0.

Fixpoint count_loop (fuel : nat) (text : bytes) (b n : nat) : nat :=
  match fuel with
  | O => n
  | S fuel => if length text <=? b then n else count_loop fuel text (next text b) (S n)
  end.

Definition count (text : bytes) : nat := count_loop (S (length text)) text 0 0.

(** The variables of [cluster_width]. *)
Record measure := MkMeasure {
  m_sum : nat;
  m_max : nat;
  m_regional : nat;
  m_only : bool;
  m_zwj : bool;
}.

Definition measure_char (cp : Z) (m : measure) : measure :=
  let zwj := if (cp =? 0x200d)%Z then true else m_zwj m in
  let is_ri := regional_indicator cp in
  let w := if (0 <? charwidth cp)%Z then Z.to_nat (charwidth cp) else 0 in
  MkMeasure (m_sum m + w) (if m_max m <? w then w else m_max m) (if is_ri then S (m_regional m) else m_regional m) (if is_ri then m_only m else false) zwj.

Definition measured (m : measure) : nat :=
  if m_zwj m then (if m_max m =? 0 then 1 else m_max m)
  else if m_only m && (2 <=? m_regional m) then 2
  else if m_sum m =? 0 then 1 else m_sum m.

Fixpoint width_loop (fuel : nat) (cluster : bytes) (byte : nat) (m : measure) : nat :=
  match fuel with
  | O => 1
  | S fuel =>
      if length cluster <=? byte then measured m else
      let d := decode cluster byte in
      if negb (d_valid d) then 1 else width_loop fuel cluster (byte + d_length d) (measure_char (d_codepoint d) m)
  end.

Definition cluster_width (cluster : bytes) : nat :=
  width_loop (S (length cluster)) cluster 0 (MkMeasure 0 0 0 (negb (bool_decide (cluster = []))) false).

(** [text.substr(b, n - b)]. *)
Definition cut (text : bytes) (b n : nat) : bytes := take (n - b) (drop b text).

Fixpoint display_loop (fuel : nat) (text : bytes) (b width : nat) : nat :=
  match fuel with
  | O => width
  | S fuel =>
      if length text <=? b then width else
      let n := next text b in
      display_loop fuel text n (width + cluster_width (cut text b n))
  end.

Definition display_width (text : bytes) : nat := display_loop (S (length text)) text 0 0.

(** *** Words, segments and paragraphs: [scan] of the three iterators *)

(** The first loop of [scan]: past separators. *)
Fixpoint skip_separators (fuel : nat) (text : bytes) (start : nat) : nat :=
  match fuel with
  | O => start
  | S fuel =>
      if length text <=? start then start else
      let next_byte := next text start in
      if negb (is_word_separator (cut text start next_byte)) then start else skip_separators fuel text next_byte
  end.

(** The second loop of [scan]: up to the next separator, with the width. *)
Fixpoint take_word (fuel : nat) (text : bytes) (end_ width : nat) : nat * nat :=
  match fuel with
  | O => (end_, width)
  | S fuel =>
      if length text <=? end_ then (end_, width) else
      let next_byte := next text end_ in
      let cluster := cut text end_ next_byte in
      if is_word_separator cluster then (end_, width) else take_word fuel text next_byte (width + cluster_width cluster)
  end.

(** The words a [word_view] runs through from byte [start] on, each with its width. *)
Fixpoint words_from (fuel : nat) (text : bytes) (start : nat) : list (bytes * nat) :=
  match fuel with
  | O => []
  | S fuel =>
      let start := skip_separators (S (length text)) text start in
      let '(end_, width) := take_word (S (length text)) text start 0 in
      if length text <=? start then [] else (cut text start end_, width) :: words_from fuel text end_
  end.

Definition words (text : bytes) : list (bytes * nat) := words_from (S (length text)) text 0.

Inductive text_segment :=
| segment_word (text : bytes) (width : nat)
| segment_line_break.

(** The first loop of [segment_view::iterator::scan]: the place it stops at, and the end of the
    line break found there. *)
Fixpoint skip_to_segment (fuel : nat) (text : bytes) (start : nat) : nat * option nat :=
  match fuel with
  | O => (start, None)
  | S fuel =>
      if length text <=? start then (start, None) else
      let next_byte := next text start in
      let cluster := cut text start next_byte in
      if is_line_break cluster then (start, Some next_byte)
      else if negb (is_word_separator cluster) then (start, None)
      else skip_to_segment fuel text next_byte
  end.

Fixpoint segments_from (fuel : nat) (text : bytes) (start : nat) : list text_segment :=
  match fuel with
  | O => []
  | S fuel =>
      match skip_to_segment (S (length text)) text start with
      | (_, Some end_) => segment_line_break :: segments_from fuel text end_
      | (start, None) =>
          let '(end_, width) := take_word (S (length text)) text start 0 in
          if length text <=? start then [] else segment_word (cut text start end_) width :: segments_from fuel text end_
      end
  end.

Definition segments (text : bytes) : list text_segment := segments_from (S (length text)) text 0.

Fixpoint prefix_loop (fuel : nat) (text : bytes) (b consumed : nat) : nat :=
  match fuel with
  | O => consumed
  | S fuel =>
      if length text <=? b then consumed else
      let n := next text b in
      prefix_loop fuel text n (if is_word_separator (cut text b n) then n else consumed)
  end.

Definition complete_words_prefix_size (text : bytes) : nat := prefix_loop (S (length text)) text 0 0.

(** *** Positions *)

Fixpoint byte_at_loop (cell : nat) (text : bytes) (b : nat) : nat :=
  match cell with
  | O => b
  | S cell => if length text <=? b then b else byte_at_loop cell text (next text b)
  end.

Definition byte_at (text : bytes) (cell : nat) : nat := byte_at_loop cell text 0.

Fixpoint cell_loop (fuel : nat) (text : bytes) (byte b i : nat) : nat :=
  match fuel with
  | O => i
  | S fuel => if byte <=? b then i else cell_loop fuel text byte (next text b) (S i)
  end.

Definition cell_at (text : bytes) (byte : nat) : nat := cell_loop (S (length text)) text (floor_boundary text byte) 0 0.

Fixpoint column_loop (fuel : nat) (text : bytes) (byte b col : nat) : nat :=
  match fuel with
  | O => col
  | S fuel =>
      if byte <=? b then col else
      let n := next text b in
      column_loop fuel text byte n (col + cluster_width (cut text b n))
  end.

Definition column_at (text : bytes) (byte : nat) : nat := column_loop (S (length text)) text (floor_boundary text byte) 0 0.

Fixpoint at_column_loop (fuel : nat) (text : bytes) (column b col : nat) : nat :=
  match fuel with
  | O => length text
  | S fuel =>
      if length text <=? b then length text else
      let n := next text b in
      let w := cluster_width (cut text b n) in
      if column <? col + w then b
      else if column <=? col + w then n
      else at_column_loop fuel text column n (col + w)
  end.

Definition byte_at_column (text : bytes) (column : nat) : nat := at_column_loop (S (length text)) text column 0 0.

(** *** The editable line *)

Record TextField := MkTextField { text : bytes; cursor_byte : nat }.

Definition insert_bytes (s : bytes) (f : TextField) : TextField :=
  let c := floor_boundary (text f) (cursor_byte f) in
  MkTextField (take c (text f) ++ s ++ drop c (text f)) (c + length s).

Definition erase_left (f : TextField) : bool * TextField :=
  let c := floor_boundary (text f) (cursor_byte f) in
  if c =? 0 then (false, MkTextField (text f) c) else
  let p := prev (text f) c in
  (true, MkTextField (take p (text f) ++ drop c (text f)) p).

Definition erase_right (f : TextField) : bool * TextField :=
  let c := floor_boundary (text f) (cursor_byte f) in
  if length (text f) <=? c then (false, MkTextField (text f) c) else
  let n := next (text f) c in
  (true, MkTextField (take c (text f) ++ drop n (text f)) c).

Definition move_left (f : TextField) : bool * TextField :=
  let c := floor_boundary (text f) (cursor_byte f) in
  if c =? 0 then (false, MkTextField (text f) c) else (true, MkTextField (text f) (prev (text f) c)).

Definition move_right (f : TextField) : bool * TextField :=
  let c := floor_boundary (text f) (cursor_byte f) in
  if length (text f) <=? c then (false, MkTextField (text f) c) else (true, MkTextField (text f) (next (text f) c)).

Definition move_home (f : TextField) : bool * TextField :=
  if cursor_byte f =? 0 then (false, f) else (true, MkTextField (text f) 0).

Definition move_end (f : TextField) : bool * TextField :=
  if length (text f) <=? cursor_byte f then (false, f) else (true, MkTextField (text f) (length (text f))).

Definition clear (f : TextField) : TextField := MkTextField [] 0.

Definition cell_count (f : TextField) : nat := display_width (text f).
Definition cursor_cell (f : TextField) : nat := column_at (text f) (cursor_byte f).

Definition scroll_for_cursor (cursor_cell field_w : nat) : nat :=
  if (field_w =? 0) || (cursor_cell <? field_w) then 0 else cursor_cell - field_w + 1.

(** ** Clusters *)

Context {Law : utf8proc_law U}.

Lemma decode_bounds t b : b < length t → 0 < d_length (decode t b) ∧ b + d_length (decode t b) ≤ length t.
Proof.
  intros Hb. unfold decode. rewrite (proj2 (Nat.leb_gt _ _) Hb). destruct (iterate (drop b t)) as [[len cp]|] eqn:E; cbn [d_length]; [|lia].
  pose proof (iterate_reads _ _ _ E) as H. rewrite length_drop in H. enough (0 < len ≤ length t - b) by lia. apply H. intros Hd%(f_equal length). rewrite length_drop in Hd. cbn in Hd. lia.
Qed.

Lemma next_loop_bounds t fuel : ∀ c e s, e ≤ length t → e ≤ next_loop fuel t c e s ≤ length t.
Proof.
  induction fuel as [|fuel IH]; intros c e s He; [cbn; lia|]. cbn [next_loop]. destruct (Nat.leb_spec (length t) e) as [|Hlt]; [lia|]. destruct (decode_bounds t e Hlt) as [H0 H1].
  destruct (d_valid (decode t e)); cbn [negb]; [|lia]. destruct (grapheme_break_stateful _ _ _) as [stop s']. destruct stop; [lia|]. specialize (IH (d_codepoint (decode t e)) (e + d_length (decode t e)) s' H1). lia.
Qed.

(** A cluster is not empty and ends in the text. *)
Lemma next_bounds t b : b < length t → b < next t b ≤ length t.
Proof.
  intros Hb. unfold next. rewrite (proj2 (Nat.leb_gt _ _) Hb). destruct (decode_bounds t b Hb) as [H0 H1]. destruct (d_valid (decode t b)); cbn [negb]; [|lia].
  pose proof (next_loop_bounds t (length t) (d_codepoint (decode t b)) (b + d_length (decode t b)) 0%Z H1). lia.
Qed.

Lemma next_end t b : length t ≤ b → next t b = length t.
Proof. intros Hb. unfold next. by rewrite (proj2 (Nat.leb_le _ _) Hb). Qed.

(** The boundaries of a text are the places [byte_at] names. *)
Lemma byte_at_iter t k : byte_at t k = Nat.iter k (next t) 0 ∧ byte_at t k ≤ length t.
Proof.
  unfold byte_at. assert (∀ b, b ≤ length t → byte_at_loop k t b = Nat.iter k (next t) b ∧ byte_at_loop k t b ≤ length t) as H; [|apply H; lia].
  induction k as [|k IH]; intros b Hb; [done|]. rewrite Nat.iter_succ_r. cbn [byte_at_loop]. destruct (Nat.leb_spec (length t) b) as [Hge|Hlt].
  - assert (b = length t) as -> by lia. rewrite next_end by lia. split; [|lia]. clear -Law. induction k as [|k IH]; [done|]. rewrite Nat.iter_succ, <- IH, next_end by lia. done.
  - apply IH, next_bounds, Hlt.
Qed.

Lemma byte_at_le t k : byte_at t k ≤ length t.
Proof. apply byte_at_iter. Qed.

Lemma byte_at_S t k : byte_at t (S k) = next t (byte_at t k).
Proof. rewrite (proj1 (byte_at_iter t (S k))), (proj1 (byte_at_iter t k)). done. Qed.

Lemma byte_at_0 t : byte_at t 0 = 0.
Proof. done. Qed.

Lemma byte_at_lt t k : byte_at t k < length t → byte_at t k < byte_at t (S k).
Proof. intros H. rewrite byte_at_S. by apply next_bounds. Qed.

Lemma byte_at_mono t j k : j ≤ k → byte_at t j ≤ byte_at t k.
Proof.
  induction 1 as [|k _ IH]; [done|]. destruct (Nat.lt_ge_cases (byte_at t k) (length t)) as [H|H]; [pose proof (byte_at_lt t k H); lia|]. rewrite byte_at_S, next_end by done. pose proof (byte_at_le t j). lia.
Qed.

Lemma byte_at_inj t j k : byte_at t j < length t → byte_at t j = byte_at t k → j = k.
Proof.
  intros Hl E. destruct (Nat.lt_trichotomy j k) as [H|[H|H]]; [|done|].
  - pose proof (byte_at_lt t j Hl). pose proof (byte_at_mono t (S j) k H). lia.
  - rewrite E in Hl. pose proof (byte_at_lt t k Hl). pose proof (byte_at_mono t (S k) j H). lia.
Qed.

(** [count] is the first index at the end of the text. *)
Lemma count_loop_spec t fuel : ∀ k, byte_at t k ≤ length t → length t - byte_at t k < fuel → (∀ j, j < k → byte_at t j < length t) →
  let c := count_loop fuel t (byte_at t k) k in k ≤ c ∧ byte_at t c = length t ∧ ∀ j, j < c → byte_at t j < length t.
Proof.
  induction fuel as [|fuel IH]; intros k Hk Hf Hj; [lia|]. cbn [count_loop]. destruct (Nat.leb_spec (length t) (byte_at t k)) as [Hge|Hlt]; [split_and!; [lia|lia|done]|].
  rewrite <- byte_at_S. pose proof (byte_at_lt t k Hlt) as Hs. destruct (IH (S k)) as (H1 & H2 & H3); [apply byte_at_le|lia| |split_and!; [lia|done|done]].
  intros j Hjk. destruct (decide (j = k)) as [->|]; [done|apply Hj; lia].
Qed.

Lemma count_spec t : byte_at t (count t) = length t ∧ ∀ j, j < count t → byte_at t j < length t.
Proof. apply (count_loop_spec t (S (length t)) 0); [rewrite byte_at_0; lia|rewrite byte_at_0; lia|lia]. Qed.

Lemma byte_at_ge t k : count t ≤ k → byte_at t k = length t.
Proof. intros H. pose proof (byte_at_mono t _ _ H). pose proof (byte_at_le t k). rewrite (proj1 (count_spec t)) in *. lia. Qed.

(** Where a place of the text falls. *)
Lemma between_boundaries t b : b < length t → ∃ k, k < count t ∧ byte_at t k ≤ b < byte_at t (S k).
Proof.
  intros Hb. assert (∀ n, b < byte_at t n → ∃ k, k < n ∧ byte_at t k ≤ b < byte_at t (S k)) as H.
  { induction n as [|n IH]; intros Hn; [rewrite byte_at_0 in Hn; lia|]. destruct (Nat.lt_ge_cases b (byte_at t n)) as [Hlt|Hge]; [destruct (IH Hlt) as (k & Hk & ?); exists k; split; [lia|done]|exists n; lia]. }
  apply H. by rewrite (proj1 (count_spec t)).
Qed.

Lemma floor_loop_spec t byte fuel : byte < length t → ∀ k, byte_at t k ≤ byte → length t - byte_at t k < fuel →
  ∃ j, floor_loop fuel t byte (byte_at t k) (byte_at t k) = byte_at t j ∧ byte_at t j ≤ byte < byte_at t (S j).
Proof.
  intros Hb. induction fuel as [|fuel IH]; intros k Hk Hf; [lia|]. cbn [floor_loop]. rewrite (proj2 (Nat.leb_gt _ _)) by lia. rewrite <- byte_at_S. destruct (Nat.ltb_spec byte (byte_at t (S k))); [by exists k|].
  apply IH; [done|]. pose proof (byte_at_lt t k ltac:(lia)). lia.
Qed.

Lemma floor_boundary_at t k byte : byte_at t k ≤ byte < byte_at t (S k) → floor_boundary t byte = byte_at t k.
Proof.
  intros Hk. pose proof (byte_at_le t (S k)) as Hl. assert (byte < length t) as Hb by lia. unfold floor_boundary. rewrite (proj2 (Nat.leb_gt _ _)) by lia.
  destruct (floor_loop_spec t byte (S (length t)) Hb 0) as (j & E & Hj); [rewrite byte_at_0; lia|rewrite byte_at_0; lia|]. rewrite byte_at_0 in E. rewrite E. f_equal.
  destruct (Nat.lt_trichotomy j k) as [H|[H|H]]; [|done|]; [pose proof (byte_at_mono t _ _ H)|pose proof (byte_at_mono t _ _ H)]; lia.
Qed.

Lemma floor_boundary_end t byte : length t ≤ byte → floor_boundary t byte = length t.
Proof. intros H. unfold floor_boundary. by rewrite (proj2 (Nat.leb_le _ _) H). Qed.

Lemma floor_boundary_self t k : floor_boundary t (byte_at t k) = byte_at t k.
Proof.
  destruct (Nat.lt_ge_cases (byte_at t k) (length t)) as [H|H]; [|rewrite floor_boundary_end by done; pose proof (byte_at_le t k); lia]. apply floor_boundary_at. pose proof (byte_at_lt t k H). lia.
Qed.

(** The boundary of [floor_boundary], as an index. *)
Lemma floor_boundary_index t byte : ∃ k, k ≤ count t ∧ floor_boundary t byte = byte_at t k.
Proof.
  destruct (Nat.lt_ge_cases byte (length t)) as [H|H].
  - destruct (between_boundaries t byte H) as (k & Hk & Hb). exists k. split; [lia|by apply floor_boundary_at].
  - exists (count t). split; [done|]. by rewrite floor_boundary_end, (proj1 (count_spec t)).
Qed.

Lemma prev_loop_spec t byte fuel : 0 < byte ≤ length t → ∀ k, byte_at t k < byte → length t - byte_at t k < fuel →
  ∃ j, prev_loop fuel t byte (byte_at t k) = byte_at t j ∧ byte_at t j < byte ≤ byte_at t (S j).
Proof.
  intros Hb. induction fuel as [|fuel IH]; intros k Hk Hf; [lia|]. cbn [prev_loop]. rewrite (proj2 (Nat.leb_gt _ _)) by lia. rewrite <- byte_at_S. destruct (Nat.leb_spec byte (byte_at t (S k))); [by exists k|].
  apply IH; [done|]. pose proof (byte_at_lt t k ltac:(lia)). lia.
Qed.

Lemma prev_boundary t k : k < count t → prev t (byte_at t (S k)) = byte_at t k.
Proof.
  intros Hk. pose proof (proj2 (count_spec t) k Hk) as Hl. pose proof (byte_at_lt t k Hl) as Hs. pose proof (byte_at_le t (S k)) as Hle. unfold prev. rewrite (proj2 (Nat.ltb_ge _ _)), (proj2 (Nat.eqb_neq _ _)) by lia.
  destruct (prev_loop_spec t (byte_at t (S k)) (S (length t)) ltac:(lia) 0) as (j & E & Hj); [rewrite byte_at_0; lia|rewrite byte_at_0; lia|]. rewrite byte_at_0 in E. rewrite E. f_equal.
  destruct (Nat.lt_trichotomy j k) as [H|[H|H]]; [|done|]; [pose proof (byte_at_mono t (S j) k H)|pose proof (byte_at_mono t (S k) j H)]; lia.
Qed.

(** The cluster with index [k] and the display column it starts at. *)
Definition cluster (t : bytes) (k : nat) : bytes := cut t (byte_at t k) (byte_at t (S k)).

Fixpoint cols (t : bytes) (k : nat) : nat :=
  match k with
  | O => 0
  | S k => cols t k + cluster_width (cluster t k)
  end.

Definition clusters (t : bytes) : list bytes := cluster t <$> seq 0 (count t).

Lemma cluster_width_pos c : 0 < cluster_width c.
Proof.
  unfold cluster_width. assert (∀ fuel b m, 0 < width_loop fuel c b m) as H; [|apply H].
  induction fuel as [|fuel IH]; intros b m; [cbn; lia|]. cbn [width_loop]. destruct (length c <=? b).
  - unfold measured. destruct (m_zwj m); [destruct (Nat.eqb_spec (m_max m) 0); lia|]. destruct (_ && _); [lia|]. destruct (Nat.eqb_spec (m_sum m) 0); lia.
  - destruct (d_valid _); cbn [negb]; [apply IH|lia].
Qed.

Lemma cols_mono t j k : j < k → cols t j < cols t k.
Proof. induction 1 as [|k _ IH]; cbn [cols]; [pose proof (cluster_width_pos (cluster t j))|pose proof (cluster_width_pos (cluster t k))]; lia. Qed.

Lemma cell_loop_spec t n fuel : n ≤ count t → ∀ k, k ≤ n → length t - byte_at t k < fuel → cell_loop fuel t (byte_at t n) (byte_at t k) k = n.
Proof.
  intros Hn. induction fuel as [|fuel IH]; intros k Hk Hf; [lia|]. cbn [cell_loop]. destruct (decide (k = n)) as [->|Hne]; [by rewrite Nat.leb_refl|].
  assert (byte_at t k < length t) as Hl by (apply (proj2 (count_spec t)); lia). pose proof (byte_at_lt t k Hl) as Hs. pose proof (byte_at_mono t (S k) n ltac:(lia)) as Hm. rewrite (proj2 (Nat.leb_gt _ _)) by lia. rewrite <- byte_at_S. apply IH; lia.
Qed.

Lemma cell_at_spec t byte k : k ≤ count t → floor_boundary t byte = byte_at t k → cell_at t byte = k.
Proof. intros Hk E. unfold cell_at. rewrite E. rewrite <- (byte_at_0 t) at 1. apply cell_loop_spec; [done|lia|rewrite byte_at_0; lia]. Qed.

Lemma column_loop_spec t n fuel : n ≤ count t → ∀ k, k ≤ n → length t - byte_at t k < fuel → column_loop fuel t (byte_at t n) (byte_at t k) (cols t k) = cols t n.
Proof.
  intros Hn. induction fuel as [|fuel IH]; intros k Hk Hf; [lia|]. cbn [column_loop]. destruct (decide (k = n)) as [->|Hne]; [by rewrite Nat.leb_refl|].
  assert (byte_at t k < length t) as Hl by (apply (proj2 (count_spec t)); lia). pose proof (byte_at_lt t k Hl) as Hs. pose proof (byte_at_mono t (S k) n ltac:(lia)) as Hm. rewrite (proj2 (Nat.leb_gt _ _)) by lia. rewrite <- byte_at_S.
  apply (IH (S k)); lia.
Qed.

Lemma column_at_spec t byte k : k ≤ count t → floor_boundary t byte = byte_at t k → column_at t byte = cols t k.
Proof. intros Hk E. unfold column_at. rewrite E. rewrite <- (byte_at_0 t) at 1. apply (column_loop_spec t k _ Hk 0); [lia|rewrite byte_at_0; lia]. Qed.

Lemma display_loop_spec t fuel : ∀ k, k ≤ count t → length t - byte_at t k < fuel → display_loop fuel t (byte_at t k) (cols t k) = cols t (count t).
Proof.
  induction fuel as [|fuel IH]; intros k Hk Hf; [lia|]. cbn [display_loop]. destruct (Nat.leb_spec (length t) (byte_at t k)) as [Hge|Hlt].
  - destruct (decide (k = count t)) as [->|]; [done|]. pose proof (proj2 (count_spec t) k ltac:(lia)). lia.
  - rewrite <- byte_at_S. apply (IH (S k)); [|pose proof (byte_at_lt t k Hlt); lia]. destruct (decide (k = count t)) as [->|]; [|lia]. rewrite (proj1 (count_spec t)) in Hlt. lia.
Qed.

Lemma display_width_spec t : display_width t = cols t (count t).
Proof. unfold display_width. rewrite <- (byte_at_0 t) at 1. apply (display_loop_spec t _ 0); [lia|rewrite byte_at_0; lia]. Qed.

Lemma at_column_loop_spec t column fuel : ∀ k, k ≤ count t → cols t k ≤ column → (k = 0 ∨ cols t k < column) → length t - byte_at t k < fuel →
  ∃ j, j ≤ count t ∧ at_column_loop fuel t column (byte_at t k) (cols t k) = byte_at t j ∧ cols t j ≤ column ∧ (j < count t → column < cols t (S j)).
Proof.
  induction fuel as [|fuel IH]; intros k Hk Hc H0 Hf; [lia|]. cbn [at_column_loop]. destruct (Nat.leb_spec (length t) (byte_at t k)) as [Hge|Hlt].
  - destruct (decide (k = count t)) as [->|]; [|pose proof (proj2 (count_spec t) k ltac:(lia)); lia]. exists (count t). rewrite (proj1 (count_spec t)). split_and!; [lia|done|done|lia].
  - assert (k < count t) as Hkc by (destruct (decide (k = count t)) as [->|]; [rewrite (proj1 (count_spec t)) in Hlt|]; lia). rewrite <- byte_at_S. fold (cluster t k). change (cols t k + cluster_width (cluster t k)) with (cols t (S k)).
    destruct (Nat.ltb_spec column (cols t (S k))) as [Hl|Hl]; [exists k; split_and!; [lia|done|done|done]|]. destruct (Nat.leb_spec column (cols t (S k))) as [He|He].
    + exists (S k). split_and!; [lia|done|lia|]. intros _. pose proof (cols_mono t (S k) (S (S k)) ltac:(lia)). lia.
    + apply (IH (S k)); [lia|lia|lia|]. pose proof (byte_at_lt t k Hlt). lia.
Qed.

(** The place of a column is the last boundary that does not lie behind it. *)
Lemma byte_at_column_spec t column : ∃ k, k ≤ count t ∧ byte_at_column t column = byte_at t k ∧ cols t k ≤ column ∧ (k < count t → column < cols t (S k)).
Proof.
  unfold byte_at_column. apply (at_column_loop_spec t column (S (length t)) 0); [lia|cbn; lia|by left|rewrite byte_at_0; lia].
Qed.

Lemma take_cut t a b : a ≤ b → take a t ++ cut t a b = take b t.
Proof. intros H. unfold cut. rewrite <- (take_drop a (take b t)). rewrite take_take, skipn_firstn_comm, Nat.min_l by lia. done. Qed.

(** The clusters make up the text. *)
Lemma clusters_concat t : concat (clusters t) = t.
Proof.
  unfold clusters. assert (∀ n, concat (cluster t <$> seq 0 n) = take (byte_at t n) t) as H.
  { induction n as [|n IH]; [by rewrite byte_at_0|]. rewrite seq_S, fmap_app, concat_app, IH. cbn [fmap list_fmap concat Nat.add]. rewrite app_nil_r. apply take_cut, byte_at_mono. lia. }
  rewrite H, (proj1 (count_spec t)). by apply take_ge.
Qed.

(** *** Words *)

(** The longest runs of clusters that are no separators; [acc] is the run so far. *)
Definition flush (acc : list bytes) : list (list bytes) := if bool_decide (acc = []) then [] else [acc].

Fixpoint runs (acc cs : list bytes) : list (list bytes) :=
  match cs with
  | [] => flush acc
  | c :: cs => if is_word_separator c then flush acc ++ runs [] cs else runs (acc ++ [c]) cs
  end.

(** A run as a word with its width. *)
Definition word_of (run : list bytes) : bytes * nat := (concat run, sum_list (cluster_width <$> run)).

Lemma clusters_drop t k : k < count t → drop k (clusters t) = cluster t k :: drop (S k) (clusters t).
Proof.
  intros Hk. unfold clusters. assert (∀ m, drop m (cluster t <$> seq 0 (count t)) = cluster t <$> seq m (count t - m)) as H by (intros m; by rewrite <- fmap_drop, drop_seq).
  rewrite !H. replace (count t - k) with (S (count t - S k)) by lia. done.
Qed.

Lemma clusters_drop_end t : drop (count t) (clusters t) = [].
Proof. apply drop_ge. unfold clusters. rewrite length_fmap, length_seq. lia. Qed.

Lemma index_lt t k : k ≤ count t → byte_at t k < length t → k < count t.
Proof. intros Hk Hl. destruct (decide (k = count t)) as [->|]; [rewrite (proj1 (count_spec t)) in Hl|]; lia. Qed.

Lemma index_end t k : k ≤ count t → length t ≤ byte_at t k → k = count t.
Proof. intros Hk Hl. destruct (decide (k = count t)) as [->|]; [done|]. pose proof (proj2 (count_spec t) k ltac:(lia)). lia. Qed.

Lemma skip_separators_spec t fuel : ∀ k, k ≤ count t → length t - byte_at t k < fuel →
  ∃ j, k ≤ j ≤ count t ∧ skip_separators fuel t (byte_at t k) = byte_at t j ∧ runs [] (drop k (clusters t)) = runs [] (drop j (clusters t)) ∧ (j < count t → is_word_separator (cluster t j) = false).
Proof.
  induction fuel as [|fuel IH]; intros k Hk Hf; [lia|]. cbn [skip_separators]. destruct (Nat.leb_spec (length t) (byte_at t k)) as [Hge|Hlt].
  - exists k. split_and!; try done. intros Hc. pose proof (proj2 (count_spec t) k Hc). lia.
  - pose proof (index_lt t k Hk Hlt) as Hc. rewrite <- byte_at_S. fold (cluster t k). destruct (is_word_separator (cluster t k)) eqn:E; cbn [negb]; [|exists k; by split_and!].
    destruct (IH (S k)) as (j & Hj & H1 & H2 & H3); [lia|pose proof (byte_at_lt t k Hlt); lia|]. exists j. split_and!; [lia|lia|done| |done]. rewrite clusters_drop by done. cbn [runs]. by rewrite E.
Qed.

Lemma take_word_spec t fuel : ∀ k w, k ≤ count t → length t - byte_at t k < fuel →
  ∃ j, k ≤ j ≤ count t ∧ take_word fuel t (byte_at t k) w = (byte_at t j, w + sum_list (cluster_width <$> (cluster t <$> seq k (j - k)))) ∧ (k < count t → is_word_separator (cluster t k) = false → k < j) ∧
    ∀ acc, runs acc (drop k (clusters t)) = flush (acc ++ (cluster t <$> seq k (j - k))) ++ runs [] (drop j (clusters t)).
Proof.
  induction fuel as [|fuel IH]; intros k w Hk Hf; [lia|]. cbn [take_word]. destruct (Nat.leb_spec (length t) (byte_at t k)) as [Hge|Hlt].
  - pose proof (index_end t k Hk Hge) as ->. exists (count t). rewrite Nat.sub_diag, clusters_drop_end. cbn [seq fmap list_fmap]. split_and!; [lia|lia|by rewrite Nat.add_0_r|lia|]. intros acc. cbn [runs]. by rewrite !app_nil_r.
  - pose proof (index_lt t k Hk Hlt) as Hc. rewrite <- byte_at_S. fold (cluster t k). rewrite (clusters_drop t k Hc). cbn [runs]. destruct (is_word_separator (cluster t k)) eqn:E.
    + exists k. rewrite Nat.sub_diag. cbn [seq fmap list_fmap]. split_and!; [lia|lia|by rewrite Nat.add_0_r|done|]. intros acc. rewrite app_nil_r, (clusters_drop t k Hc). cbn [runs]. by rewrite E.
    + destruct (IH (S k) (w + cluster_width (cluster t k))) as (j & Hj & H1 & _ & H3); [lia|pose proof (byte_at_lt t k Hlt); lia|]. exists j. replace (j - k) with (S (j - S k)) by lia. split_and!; [lia|lia| |lia|].
      * rewrite H1. cbn. f_equal. lia.
      * intros acc. rewrite H3, <- app_assoc. done.
Qed.

Lemma cut_clusters t k j : k ≤ j → cut t (byte_at t k) (byte_at t j) = concat (cluster t <$> seq k (j - k)).
Proof.
  intros Hj. replace j with (k + (j - k)) at 1 by lia. generalize (j - k) as n. induction n as [|n IH]; [rewrite Nat.add_0_r; unfold cut; by rewrite Nat.sub_diag|]. rewrite seq_S, fmap_app, concat_app, <- IH. cbn [fmap list_fmap concat]. rewrite app_nil_r, Nat.add_succ_r.
  pose proof (byte_at_mono t k (k + n) ltac:(lia)) as H1. pose proof (byte_at_mono t (k + n) (S (k + n)) ltac:(lia)) as H2. pose proof (byte_at_le t (k + n)) as H3. unfold cluster, cut.
  rewrite <- (take_drop (byte_at t (k + n) - byte_at t k) (take (byte_at t (S (k + n)) - _) _)). rewrite take_take, skipn_firstn_comm, drop_drop, Nat.min_l by lia.
  replace (byte_at t k + (byte_at t (k + n) - byte_at t k)) with (byte_at t (k + n)) by lia. do 2 f_equal. lia.
Qed.

Lemma words_from_spec t fuel : ∀ k, k ≤ count t → count t - k < fuel → words_from fuel t (byte_at t k) = word_of <$> runs [] (drop k (clusters t)).
Proof.
  induction fuel as [|fuel IH]; intros k Hk Hf; [lia|]. cbn [words_from]. destruct (skip_separators_spec t (S (length t)) k Hk ltac:(lia)) as (i & Hi & -> & E & Hs). destruct (take_word_spec t (S (length t)) i 0 ltac:(lia) ltac:(lia)) as (j & Hj & -> & Hp & Hr).
  rewrite E, Hr. cbn [app]. destruct (Nat.leb_spec (length t) (byte_at t i)) as [Hge|Hlt].
  - pose proof (index_end t i ltac:(lia) Hge) as ->. assert (j = count t) as -> by lia. rewrite Nat.sub_diag, clusters_drop_end. done.
  - pose proof (index_lt t i ltac:(lia) Hlt) as Hc. specialize (Hp Hc (Hs Hc)). rewrite IH by lia. assert (flush (cluster t <$> seq i (j - i)) = [cluster t <$> seq i (j - i)]) as -> by (unfold flush; rewrite bool_decide_false; [done|]; replace (j - i) with (S (j - i - 1)) by lia; done).
    cbn [fmap list_fmap app]. f_equal. unfold word_of. by rewrite cut_clusters by lia.
Qed.

Lemma count_le t : count t ≤ length t.
Proof.
  assert (∀ k, k ≤ count t → k ≤ byte_at t k) as H; [|specialize (H (count t) ltac:(lia)); by rewrite (proj1 (count_spec t)) in H].
  induction k as [|k IH]; intros Hk; [lia|]. pose proof (byte_at_lt t k (proj2 (count_spec t) k ltac:(lia))). lia.
Qed.

Lemma word_runs_spec t : words t = word_of <$> runs [] (clusters t).
Proof. change (words t) with (words_from (S (length t)) t (byte_at t 0)). rewrite words_from_spec, drop_0; [done|lia|]. pose proof (count_le t). lia. Qed.

(** *** Places in the list of clusters *)

(** The byte where cluster [k] of a list starts. *)
Definition place (cs : list bytes) (k : nat) : nat := length (concat (take k cs)).

Lemma clusters_length t : length (clusters t) = count t.
Proof. unfold clusters. by rewrite length_fmap, length_seq. Qed.

Lemma take_clusters t k : k ≤ count t → concat (take k (clusters t)) = take (byte_at t k) t.
Proof.
  intros Hk. pose proof (cut_clusters t 0 k ltac:(lia)) as H. rewrite byte_at_0, Nat.sub_0_r in H. unfold cut in H. rewrite drop_0, Nat.sub_0_r in H. rewrite H.
  unfold clusters. rewrite <- fmap_take. do 2 f_equal. rewrite take_seq. f_equal. lia.
Qed.

Lemma drop_clusters t k : k ≤ count t → concat (drop k (clusters t)) = drop (byte_at t k) t.
Proof.
  intros Hk. apply (app_inv_head (concat (take k (clusters t)))). rewrite <- concat_app, take_drop, clusters_concat, take_clusters by done. by rewrite take_drop.
Qed.

Lemma place_byte_at t k : k ≤ count t → place (clusters t) k = byte_at t k.
Proof. intros Hk. unfold place. rewrite take_clusters, length_take by done. pose proof (byte_at_le t k). lia. Qed.

Lemma floor_boundary_place t b k : k ≤ length (clusters t) → place (clusters t) k ≤ b → (k < length (clusters t) → b < place (clusters t) (S k)) →
  floor_boundary t b = byte_at t k.
Proof.
  rewrite clusters_length. intros Hk Hb Hb'. rewrite place_byte_at in Hb by done. destruct (Nat.lt_ge_cases k (count t)) as [H|H].
  - apply floor_boundary_at. rewrite place_byte_at in Hb' by lia. lia.
  - rewrite byte_at_ge in * by done. by apply floor_boundary_end.
Qed.

Lemma cols_sum t k : k ≤ count t → cols t k = sum_list (cluster_width <$> take k (clusters t)).
Proof.
  induction k as [|k IH]; intros Hk; [done|]. assert (clusters t !! k = Some (cluster t k)) as E by (unfold clusters; rewrite list_lookup_fmap, lookup_seq_lt by lia; done).
  rewrite (take_S_r _ _ _ E), fmap_app, sum_list_with_app. cbn [cols]. rewrite IH by lia. cbn. lia.
Qed.

Lemma edits_at_start t b : floor_boundary t b = byte_at t 0 →
  move_left (MkTextField t b) = (false, MkTextField t 0) ∧ erase_left (MkTextField t b) = (false, MkTextField t 0).
Proof. intros E. unfold move_left, erase_left. cbn [text cursor_byte]. by rewrite E, byte_at_0. Qed.

Lemma edits_at_end t b : floor_boundary t b = byte_at t (count t) →
  move_right (MkTextField t b) = (false, MkTextField t (length t)) ∧ erase_right (MkTextField t b) = (false, MkTextField t (length t)).
Proof. intros E. unfold move_right, erase_right. cbn [text cursor_byte]. by rewrite E, (proj1 (count_spec t)), Nat.leb_refl. Qed.

Lemma edits_left t b j : S j ≤ count t → floor_boundary t b = byte_at t (S j) → let cs := clusters t in
  move_left (MkTextField t b) = (true, MkTextField t (place cs j)) ∧
  erase_left (MkTextField t b) = (true, MkTextField (concat (take j cs ++ drop (S j) cs)) (place cs j)).
Proof.
  intros Hj E cs. subst cs. pose proof (byte_at_lt t j (proj2 (count_spec t) j ltac:(lia))) as Hl. unfold move_left, erase_left. cbn [text cursor_byte].
  rewrite E, (proj2 (Nat.eqb_neq _ _)), (prev_boundary t j), place_byte_at by lia. split; [done|]. by rewrite concat_app, take_clusters, drop_clusters by lia.
Qed.

Lemma edits_right t b k : floor_boundary t b = byte_at t k → k < count t → let cs := clusters t in
  move_right (MkTextField t b) = (true, MkTextField t (place cs (S k))) ∧
  erase_right (MkTextField t b) = (true, MkTextField (concat (take k cs ++ drop (S k) cs)) (byte_at t k)).
Proof.
  intros E Hk cs. subst cs. pose proof (proj2 (count_spec t) k Hk) as Hl. unfold move_right, erase_right. cbn [text cursor_byte].
  rewrite E, (proj2 (Nat.leb_gt _ _) Hl), <- byte_at_S, place_byte_at by lia. split; [done|]. by rewrite concat_app, take_clusters, drop_clusters by lia.
Qed.

Lemma home_spec t b : move_home (MkTextField t b) = (bool_decide (b ≠ 0), MkTextField t 0).
Proof. unfold move_home. cbn [text cursor_byte]. destruct (Nat.eqb_spec b 0) as [->|]; [done|]. by rewrite bool_decide_true. Qed.

Lemma end_spec t b : move_end (MkTextField t b) = (bool_decide (b < length t), MkTextField t (Nat.max b (length t))).
Proof.
  unfold move_end. cbn [text cursor_byte]. destruct (Nat.leb_spec (length t) b).
  - rewrite bool_decide_false, Nat.max_l by lia. done.
  - rewrite bool_decide_true, Nat.max_r by lia. done.
Qed.

(** ** The properties *)

(** Movement and measure agree on one division of the text into clusters. The clusters make up
    the text; from the boundary with index [k], [next] and [prev] go to the neighbours, any place
    has the last boundary before it as its [floor_boundary] and that boundary's index and column as
    its [cell_at] and [column_at], [byte_at] is the way back, and [byte_at_column] is the last
    boundary that is not behind the column. *)
Theorem clusters_divide t :
  concat (clusters t) = t ∧ Forall (λ c, 0 < length c) (clusters t) ∧ display_width t = cols t (count t) ∧
  (∀ k, next t (byte_at t k) = byte_at t (S k)) ∧
  (∀ k, k < count t → prev t (byte_at t (S k)) = byte_at t k) ∧
  (∀ b, ∃ k, k ≤ count t ∧ floor_boundary t b = byte_at t k ∧ byte_at t k ≤ b ∧ (k < count t → b < byte_at t (S k)) ∧ cell_at t b = k ∧ column_at t b = cols t k) ∧
  (∀ c, ∃ k, k ≤ count t ∧ byte_at_column t c = byte_at t k ∧ cols t k ≤ c ∧ (k < count t → c < cols t (S k))).
Proof.
  split_and!; [apply clusters_concat| |apply display_width_spec|intros k; symmetry; apply byte_at_S|apply prev_boundary| |apply byte_at_column_spec].
  - unfold clusters. rewrite Forall_fmap, Forall_forall. intros k Hk%elem_of_seq. pose proof (byte_at_lt t k (proj2 (count_spec t) k ltac:(lia))). pose proof (byte_at_le t (S k)). unfold compose, cluster, cut. rewrite length_take, length_drop. lia.
  - intros b. assert (∃ k, k ≤ count t ∧ floor_boundary t b = byte_at t k ∧ byte_at t k ≤ b ∧ (k < count t → b < byte_at t (S k))) as (k & Hk & E & H1 & H2).
    { destruct (Nat.lt_ge_cases b (length t)) as [Hb|Hb]; [destruct (between_boundaries t b Hb) as (k & Hk & Hkb); exists k; rewrite (floor_boundary_at t k b Hkb); split_and!; lia|]. exists (count t). rewrite floor_boundary_end, (proj1 (count_spec t)) by done. split_and!; lia. }
    exists k. split_and!; try done; [by apply cell_at_spec|by apply column_at_spec].
Qed.

(** C40: The text field edits a list of clusters with a cursor between two of them. Let [cs] be the
    clusters of the text and let the cursor byte lie at the start of cluster [k] or inside it
    (at the end of the text or behind it for [k = length cs]). Then [insert] puts its bytes
    between the first [k] clusters and the others and leaves the cursor after them; [move_left]
    and [move_right] go to the boundary before and after cluster [k - 1] and [k]; [erase_left] and
    [erase_right] take exactly that cluster out; at the two ends they report that nothing was
    done; [move_home] and [move_end] go to the ends; and the column of the cursor is the width of
    the clusters before it. *)
Theorem text_field_edits t b k : let cs := clusters t in
  k ≤ length cs → place cs k ≤ b → (k < length cs → b < place cs (S k)) →
  let f := MkTextField t b in
  concat cs = t ∧
  (∀ s, insert_bytes s f = MkTextField (concat (take k cs) ++ s ++ concat (drop k cs)) (place cs k + length s)) ∧
  (k = 0 → move_left f = (false, MkTextField t 0) ∧ erase_left f = (false, MkTextField t 0)) ∧
  (∀ j, k = S j → move_left f = (true, MkTextField t (place cs j)) ∧
     erase_left f = (true, MkTextField (concat (take j cs ++ drop k cs)) (place cs j))) ∧
  (k = length cs → move_right f = (false, MkTextField t (length t)) ∧ erase_right f = (false, MkTextField t (length t))) ∧
  (k < length cs → move_right f = (true, MkTextField t (place cs (S k))) ∧
     erase_right f = (true, MkTextField (concat (take k cs ++ drop (S k) cs)) (place cs k))) ∧
  move_home f = (bool_decide (b ≠ 0), MkTextField t 0) ∧
  move_end f = (bool_decide (b < length t), MkTextField t (Nat.max b (length t))) ∧
  cursor_cell f = sum_list (cluster_width <$> take k cs) ∧ cell_count f = sum_list (cluster_width <$> cs).
Proof.
  intros cs Hk Hb Hb' f. pose proof (floor_boundary_place t b k Hk Hb Hb') as E. subst cs. rewrite clusters_length in *.
  rewrite (place_byte_at t k), (take_clusters t k), (drop_clusters t k) by done. split; [apply clusters_concat|].
  split; [intros s; unfold insert_bytes; cbn [text cursor_byte f]; by rewrite E|]. split; [intros ->; by apply edits_at_start|].
  split; [intros j ->; by apply edits_left|]. split; [intros ->; by apply edits_at_end|]. split; [by apply edits_right|].
  split; [by apply home_spec|]. split; [by apply end_spec|]. split.
  - unfold cursor_cell. cbn [text cursor_byte f]. by rewrite (column_at_spec t b k Hk E), cols_sum.
  - unfold cell_count. cbn [text f]. rewrite display_width_spec, cols_sum by done. by rewrite take_ge by (by rewrite clusters_length).
Qed.

(** The words of a text are its longest runs of clusters without a separator, in order, each
    with the sum of the widths of its clusters. *)
Theorem words_are_runs t : words t = word_of <$> runs [] (clusters t).
Proof. apply word_runs_spec. Qed.

End utf8.

(** ** A small set of tables

    Characters of one to three bytes, combining marks and the wide characters of East Asia: an
    instance of the class that the law holds for. *)
#[local] Open Scope Z_scope.

Definition is_cont (b : Z) : bool := (0x80 <=? b) && (b <? 0xc0).

Definition small_iterate (t : bytes) : option (nat * Z) :=
  match t with
  | a :: rest =>
      if a <? 0x80 then Some (1%nat, a)
      else match rest with
           | b :: rest =>
               if is_cont b && (0xc2 <=? a) && (a <? 0xe0) then Some (2%nat, (a - 0xc0) * 64 + (b - 0x80))
               else match rest with
                    | c :: _ => if is_cont b && is_cont c && (0xe1 <=? a) && (a <? 0xed) then Some (3%nat, ((a - 0xe0) * 64 + (b - 0x80)) * 64 + (c - 0x80)) else None
                    | [] => None
                    end
           | [] => None
           end
  | [] => None
  end.

Definition combining (cp : Z) : bool := (0x300 <=? cp) && (cp <? 0x370).

Definition small_tables : utf8proc := {|
  iterate := small_iterate;
  grapheme_break_stateful := λ _ b state, (negb (combining b), state);
  charwidth := λ cp, if (cp <? 32) || combining cp then 0 else if (0x2e80 <=? cp) && (cp <? 0xa000) then 2 else 1;
  category := λ cp, if cp =? 32 then 23 else 0;
|}.

#[export] Instance small_tables_law : utf8proc_law small_tables.
Proof.
  intros t len cp H _. cbn in H. unfold small_iterate in H. destruct t as [|a [|b [|c t]]]; [done|..]; repeat (case_match; simplify_eq); cbn; lia.
Qed.

#[local] Close Scope Z_scope.

(** A letter with an accent, a wide character, a space and a letter. *)
Definition sample_line : bytes := [0x65; 0xcc; 0x81; 0xe4; 0xb8; 0x96; 0x20; 0x62]%Z.

Example sample_line_divides : @clusters small_tables sample_line = [[0x65; 0xcc; 0x81]; [0xe4; 0xb8; 0x96]; [0x20]; [0x62]]%Z ∧ @display_width small_tables sample_line = 5.
Proof. split; vm_compute; reflexivity. Qed.

Lemma clusters_divide_witness : concat (@clusters small_tables sample_line) = sample_line ∧ @prev small_tables sample_line (@byte_at small_tables sample_line 2) = @byte_at small_tables sample_line 1.
Proof.
  destruct (@clusters_divide small_tables small_tables_law sample_line) as (H1 & _ & _ & _ & H2 & _). split; [exact H1|]. apply (H2 1). vm_compute. lia.
Defined.

Lemma text_field_edits_witness :
  @move_left small_tables (MkTextField sample_line 5) = (true, MkTextField sample_line 0) ∧
  @erase_right small_tables (MkTextField sample_line 3) = (true, MkTextField [0x65; 0xcc; 0x81; 0x20; 0x62]%Z 3) ∧
  @cursor_cell small_tables (MkTextField sample_line 7) = 4.
Proof.
  destruct (@text_field_edits small_tables small_tables_law sample_line 5 1) as (_ & _ & _ & H1 & _); [vm_compute; lia..|].
  destruct (@text_field_edits small_tables small_tables_law sample_line 3 1) as (_ & _ & _ & _ & _ & H2 & _); [vm_compute; lia..|].
  destruct (@text_field_edits small_tables small_tables_law sample_line 7 3) as (_ & _ & _ & _ & _ & _ & _ & _ & H3 & _); [vm_compute; lia..|].
  split; [exact (proj1 (H1 0 eq_refl))|]. split; [apply H2; vm_compute; lia|]. rewrite H3. vm_compute. reflexivity.
Defined.

Lemma words_are_runs_witness : @words small_tables sample_line = [([0x65; 0xcc; 0x81; 0xe4; 0xb8; 0x96]%Z, 3); ([0x62]%Z, 1)].
Proof. rewrite (@words_are_runs small_tables small_tables_law sample_line). vm_compute. reflexivity. Defined.

(** A line of two wide characters in a field of four cells with the cursor at its end: the first
    column shown is column 1, inside the first character, so the text is drawn from column 0 on
    and the cursor is drawn on the last half of a character instead of behind it. *)
Example cursor_inside_character : let t := [0xe4; 0xb8; 0x96; 0xe4; 0xb8; 0x96]%Z in
  let cursor := @column_at small_tables t 6 in let scroll := scroll_for_cursor cursor 4 in
  cursor = 4 ∧ scroll = 1 ∧ @byte_at_column small_tables t scroll = 0 ∧ cursor - scroll = 3.
Proof. vm_compute. done. Qed.
