(* ===== verification/Raster.v ===== *)
(** * Rasters (src/src/nxtui/style.hpp, glyph-table.hpp, glyph-table.cpp, raster.hpp, raster.cpp)

    Colors and emphasis, the table of glyphs, and grids of cells with the windows that layouts draw
    through. A [size_t] is a [nat]; where the code adds two that a caller chose, the sum
    wraps at 64 bits. An index outside of an array and an exception that leaves a [noexcept]
    function are outcomes of their own. *)
From S2P Require Import Prelude Text.

#[local] Set Default Proof Using "Type*".

(** ** Colors and emphasis *)

#[local] Open Scope Z_scope.

Definition rgba8 (r g b a : Z) : Z := Z.lor (Z.lor (Z.lor r (Z.shiftl g 8)) (Z.shiftl b 16)) (Z.shiftl a 24).

Definition terminal_default : Z := 0x100.
Definition palette (index : Z) : Z := index.
Definition transparent : Z := 0x200.

Definition is_true_color (value : Z) : bool := 0 <? Z.shiftr value 24.
Definition is_palette (value : Z) : bool := value <=? 0xff.
Definition is_terminal_default (value : Z) : bool := value =? 0x100.
Definition is_transparent (value : Z) : bool := value =? 0x200.

Definition palette_index (value : Z) : Z := Z.land value 0xff.
Definition red_of (value : Z) : Z := Z.land value 0xff.
Definition green_of (value : Z) : Z := Z.land (Z.shiftr value 8) 0xff.
Definition blue_of (value : Z) : Z := Z.land (Z.shiftr value 16) 0xff.
Definition alpha_of (value : Z) : Z := Z.land (Z.shiftr value 24) 0xff.

(** [Emphasis]: a set of eight bits. *)
Definition em_none : Z := 0.
Definition em_bold : Z := 1.
Definition em_faint : Z := 2.
Definition em_italic : Z := 4.
Definition em_underline : Z := 8.
Definition em_blink : Z := 16.
Definition em_reverse : Z := 32.
Definition em_conceal : Z := 64.
Definition em_strikethrough : Z := 128.

Definition em_or (a b : Z) : Z := Z.lor a b.
Definition em_and (a b : Z) : Z := Z.land a b.
Definition has_emphasis (set flag : Z) : bool := negb (em_and set flag =? em_none).

Definition DEFAULT_EMPHASIS : Z := em_none.
Definition DEFAULT_COLOR : Z := terminal_default.

Record Style := MkStyle { s_fg : Z; s_bg : Z; s_em : Z }.

(** [Style::operator|]. *)
Definition style_or (s other : Style) : Style :=
  MkStyle (if s_fg other =? DEFAULT_COLOR then s_fg s else s_fg other)
    (if s_bg other =? DEFAULT_COLOR then s_bg s else s_bg other) (em_or (s_em s) (s_em other)).

#[local] Close Scope Z_scope.

(** ** The table of glyphs *)

Record GlyphTable := MkGlyphTable {
  glyphs_ : list bytes;
  table_ : gmap bytes Z;
}.

(** [unordered_map::emplace]: an entry that is there stays. *)
Definition emplace (key : bytes) (id : Z) (m : gmap bytes Z) : gmap bytes Z :=
  match m !! key with Some _ => m | None => <[key := id]> m end.

Definition add_ascii (g : GlyphTable) (i : nat) : GlyphTable :=
  MkGlyphTable (glyphs_ g ++ [[Z.of_nat i]]) (emplace [Z.of_nat i] (Z.of_nat i) (table_ g)).

Definition init_ascii (g : GlyphTable) : GlyphTable := foldl add_ascii g (seq 0 256).

Definition new_table : GlyphTable := init_ascii (MkGlyphTable [] ∅).

Definition table_clear (g : GlyphTable) : GlyphTable := init_ascii (MkGlyphTable [] ∅).

Definition intern (s : bytes) (g : GlyphTable) : result string Z * GlyphTable :=
  match s with
  | [b] => (Ret b, g)
  | _ =>
      match table_ g !! s with
      | Some id => (Ret id, g)
      | None =>
          if 255 <? length s then (Throw "Glyph too long (max 255 bytes)"%string, g) else
          let glyphs := glyphs_ g ++ [s] in
          let id := wrap 32 (Z.of_nat (length glyphs - 1)) in
          (Ret id, MkGlyphTable glyphs (emplace s id (table_ g)))
      end
  end.

(** [get_span] and [get]. *)
Definition get (id : Z) (g : GlyphTable) : option bytes :=
  if (Z.of_nat (length (glyphs_ g)) <=? id)%Z then None else glyphs_ g !! Z.to_nat id.

(** [operator[]]. *)
Definition glyph_at (id : Z) (g : GlyphTable) : result string bytes :=
  match get id g with Some s => Ret s | None => Throw "Invalid GlyphId"%string end.

Definition table_size (g : GlyphTable) : nat := length (glyphs_ g).

(** ** Rasters and views *)

Inductive crash := undefined_behaviour | terminated (what : string).

Record Raster := MkRaster {
  width_ : nat;
  height_ : nat;
  glyphs_storage_ : list Z;
  fgs_storage_ : list Z;
  bgs_storage_ : list Z;
  ems_storage_ : list Z;
}.

Definition size_mul (a b : nat) : nat := Z.to_nat (wrap 64 (Z.of_nat a * Z.of_nat b)).

Definition new_raster (width height : nat) : Raster :=
  let n := size_mul width height in
  MkRaster width height (replicate n 32%Z) (replicate n DEFAULT_COLOR) (replicate n DEFAULT_COLOR) (replicate n DEFAULT_EMPHASIS).

(** [std::ranges::fill] of the four arrays. *)
Definition raster_clear (r : Raster) : Raster :=
  MkRaster (width_ r) (height_ r) ((λ _, 32%Z) <$> glyphs_storage_ r) ((λ _, DEFAULT_COLOR) <$> fgs_storage_ r)
    ((λ _, DEFAULT_COLOR) <$> bgs_storage_ r) ((λ _, DEFAULT_EMPHASIS) <$> ems_storage_ r).

(** A [RasterView]: the mapping that its four [mdspan]s share, the extents and the row stride
    over the arrays from an offset on. *)
Record RasterView := MkView { v_offset : nat; v_rows : nat; v_cols : nat; v_stride : nat }.

Definition raster_view (r : Raster) : RasterView := MkView 0 (height_ r) (width_ r) (width_ r).

(** The place of [m[y, x]]. *)
Definition place (v : RasterView) (y x : nat) : nat := v_offset v + y * v_stride v + x.

Definition poke (l : list Z) (i : nat) (x : Z) : result crash (list Z) :=
  if i <? length l then Ret (<[i := x]> l) else Throw undefined_behaviour.

Definition out_of_view (v : RasterView) (y x : nat) : bool := (v_cols v <=? x) || (v_rows v <=? y).

Definition with_glyphs (l : list Z) (r : Raster) : Raster := MkRaster (width_ r) (height_ r) l (fgs_storage_ r) (bgs_storage_ r) (ems_storage_ r).
Definition with_fgs (l : list Z) (r : Raster) : Raster := MkRaster (width_ r) (height_ r) (glyphs_storage_ r) l (bgs_storage_ r) (ems_storage_ r).
Definition with_bgs (l : list Z) (r : Raster) : Raster := MkRaster (width_ r) (height_ r) (glyphs_storage_ r) (fgs_storage_ r) l (ems_storage_ r).
Definition with_ems (l : list Z) (r : Raster) : Raster := MkRaster (width_ r) (height_ r) (glyphs_storage_ r) (fgs_storage_ r) (bgs_storage_ r) l.

Definition set_glyph (v : RasterView) (y x : nat) (gid : Z) (r : Raster) : result crash Raster :=
  if out_of_view v y x then Ret r else let! l := poke (glyphs_storage_ r) (place v y x) gid in Ret (with_glyphs l r).

Definition set_fg (v : RasterView) (y x : nat) (color : Z) (r : Raster) : result crash Raster :=
  if out_of_view v y x then Ret r else let! l := poke (fgs_storage_ r) (place v y x) color in Ret (with_fgs l r).

Definition set_bg (v : RasterView) (y x : nat) (color : Z) (r : Raster) : result crash Raster :=
  if out_of_view v y x then Ret r else let! l := poke (bgs_storage_ r) (place v y x) color in Ret (with_bgs l r).

Definition set_em (v : RasterView) (y x : nat) (em : Z) (r : Raster) : result crash Raster :=
  if out_of_view v y x then Ret r else let! l := poke (ems_storage_ r) (place v y x) em in Ret (with_ems l r).

Record Cell := MkCell { c_glyph : Z; c_fg : Z; c_bg : Z; c_em : Z }.

Definition peek (l : list Z) (i : nat) : result crash Z :=
  match l !! i with Some x => Ret x | None => Throw undefined_behaviour end.

Definition get_cell (v : RasterView) (y x : nat) (r : Raster) : result crash (option Cell) :=
  if out_of_view v y x then Ret None else
  let! g := peek (glyphs_storage_ r) (place v y x) in
  let! f := peek (fgs_storage_ r) (place v y x) in
  let! b := peek (bgs_storage_ r) (place v y x) in
  let! e := peek (ems_storage_ r) (place v y x) in
  Ret (Some (MkCell g f b e)).

(** [submdspan] requires ranges whose end is not before their start. *)
Definition subraster (v : RasterView) (y x h w : nat) : result crash RasterView :=
  let x0 := Nat.min x (v_cols v) in
  let y0 := Nat.min y (v_rows v) in
  let x1 := Nat.min (size_add x w) (v_cols v) in
  let y1 := Nat.min (size_add y h) (v_rows v) in
  if (x1 <? x0) || (y1 <? y0) then Throw undefined_behaviour
  else Ret (MkView (place v y0 x0) (y1 - y0) (x1 - x0) (v_stride v)).

Section writing.
Context {U : utf8proc}.

(** A call of [intern] in a [noexcept] function. *)
Definition intern_noexcept (s : bytes) (g : GlyphTable) : result crash (Z * GlyphTable) :=
  match intern s g with (Ret id, g) => Ret (id, g) | (Throw e, _) => Throw (terminated e) end.

(** The continuation cells of a wide cluster, [n] of them from column [col] on. *)
Fixpoint continue_cells (n : nat) (v : RasterView) (y col : nat) (r : Raster) (g : GlyphTable) : result crash (Raster * GlyphTable) :=
  match n with
  | O => Ret (r, g)
  | S n =>
      let! (id, g) := intern_noexcept [] g in
      let! l := poke (glyphs_storage_ r) (place v y col) id in
      continue_cells n v y (S col) (with_glyphs l r) g
  end.

(** The loop of [write_text]. *)
Fixpoint write_loop (fuel : nat) (v : RasterView) (y : nat) (text : bytes) (i col : nat) (r : Raster) (g : GlyphTable) : result crash (nat * Raster * GlyphTable) :=
  match fuel with
  | O => Ret (col, r, g)
  | S fuel =>
      if (length text <=? i) || (v_cols v <=? col) then Ret (col, r, g) else
      let cluster_end := next text i in
      let glyph_bytes := cut text i cluster_end in
      let cell_width := cluster_width glyph_bytes in
      if v_cols v - col <? cell_width then Ret (col, r, g) else
      let! (gid, g) := intern_noexcept glyph_bytes g in
      let! l := poke (glyphs_storage_ r) (place v y col) gid in
      let! (r, g) := continue_cells (cell_width - 1) v y (S col) (with_glyphs l r) g in
      write_loop fuel v y text cluster_end (col + cell_width) r g
  end.

Definition write_text (v : RasterView) (y x : nat) (text : bytes) (r : Raster) (g : GlyphTable) : result crash (nat * Raster * GlyphTable) :=
  if v_rows v <=? y then Ret (x, r, g) else write_loop (S (length text)) v y text 0 x r g.

End writing.

(** ** The table is a bijection *)

(** Every id names one string and every string of the table has its id; the bytes are their own ids. *)
Record table_ok (g : GlyphTable) : Prop := {
  ok_table : ∀ i s, glyphs_ g !! i = Some s → table_ g !! s = Some (Z.of_nat i);
  ok_glyphs : ∀ s id, table_ g !! s = Some id → ∃ i, id = Z.of_nat i ∧ glyphs_ g !! i = Some s;
  ok_ascii : ∀ b, is_byte b → glyphs_ g !! Z.to_nat b = Some [b];
}.

Lemma init_ascii_prefix n : let g := foldl add_ascii (MkGlyphTable [] ∅) (seq 0 n) in
  glyphs_ g = (λ i, [Z.of_nat i]) <$> seq 0 n ∧ ∀ s id, table_ g !! s = Some id ↔ ∃ i, i < n ∧ s = [Z.of_nat i] ∧ id = Z.of_nat i.
Proof.
  induction n as [|n [IHg IHt]]; [split; [done|]; intros s id; cbn; rewrite lookup_empty; split; [done|intros (i & ? & _); lia]|]. rewrite seq_S, foldl_app, fmap_app. cbn [foldl Nat.add]. set (g := foldl _ _ _) in *.
  unfold add_ascii. cbn [glyphs_ table_]. split; [by rewrite IHg|]. intros s id. assert (table_ g !! [Z.of_nat n] = None) as E.
  { destruct (table_ g !! [Z.of_nat n]) as [j|] eqn:E; [|done]. apply IHt in E as (i & Hi & Hs & _). injection Hs as ?. lia. }
  unfold emplace. rewrite E. destruct (decide (s = [Z.of_nat n])) as [->|Hne].
  - rewrite lookup_insert_eq. split; [intros [= <-]; exists n; split_and!; [lia|done|done]|]. intros (i & _ & Hs & ->). injection Hs as Hs. by rewrite Hs.
  - rewrite lookup_insert_ne by done. rewrite IHt. split; [intros (i & ? & ? & ?); exists i; split_and!; [lia|done|done]|]. intros (i & Hi & -> & ->). exists i. split_and!; [|done|done]. destruct (decide (i = n)) as [->|]; [done|lia].
Qed.

Lemma ascii_table_ok : table_ok new_table.
Proof.
  destruct (init_ascii_prefix 256) as [Hg Ht]. change (foldl add_ascii (MkGlyphTable [] ∅) (seq 0 256)) with new_table in *. split.
  - intros i s H. rewrite Hg, list_lookup_fmap in H. destruct (seq 0 256 !! i) as [j|] eqn:E; [|done]. apply lookup_seq in E as [-> Hj]. cbn in H. injection H as <-. apply Ht. by exists i.
  - intros s id (i & Hi & -> & ->)%Ht. exists i. split; [done|]. rewrite Hg, list_lookup_fmap, lookup_seq_lt by done. done.
  - intros b Hb. unfold is_byte in Hb. rewrite Hg, list_lookup_fmap, lookup_seq_lt by lia. cbn. do 2 f_equal. lia.
Qed.

Lemma get_lookup id g : (0 ≤ id)%Z → get id g = glyphs_ g !! Z.to_nat id.
Proof. intros H. unfold get. destruct (Z.leb_spec (Z.of_nat (length (glyphs_ g))) id); [|done]. symmetry. apply lookup_ge_None_2. lia. Qed.

(** What a table keeps when it grows. *)
Definition keeps_glyphs (g g' : GlyphTable) : Prop := ∃ l, glyphs_ g' = glyphs_ g ++ l.

#[export] Instance keeps_glyphs_preorder : PreOrder keeps_glyphs.
Proof. split; [intros g; exists []; by rewrite app_nil_r|intros g1 g2 g3 [l1 E1] [l2 E2]; exists (l1 ++ l2); by rewrite E2, E1, app_assoc]. Qed.

Lemma keeps_glyphs_get g g' id s : keeps_glyphs g g' → (0 ≤ id)%Z → get id g = Some s → get id g' = Some s.
Proof. intros [l E] Hid. rewrite !get_lookup, E by done. intros H. by apply lookup_app_l_Some. Qed.

Lemma intern_fresh g s : table_ok g → table_ g !! s = None → (Z.of_nat (length (glyphs_ g)) < 2 ^ 32)%Z →
  let id := wrap 32 (Z.of_nat (length (glyphs_ g ++ [s]) - 1)) in let g' := MkGlyphTable (glyphs_ g ++ [s]) (emplace s id (table_ g)) in
  (0 ≤ id)%Z ∧ table_ok g' ∧ get id g' = Some s.
Proof.
  intros [H1 H2 H3] E Hl. cbv zeta. replace (length (glyphs_ g ++ [s]) - 1) with (length (glyphs_ g)) by (rewrite length_app; cbn; lia). rewrite wrap_small by lia. split_and!; [lia| |].
  - split; cbn [glyphs_ table_]; unfold emplace; rewrite ?E.
    + intros i s' [Hi|[Hi Hs]]%lookup_app_Some; [rewrite lookup_insert_ne; [by apply H1|intros ->; apply H1 in Hi; congruence]|]. apply list_lookup_singleton_Some in Hs as [Hs <-]. rewrite lookup_insert_eq. do 2 f_equal. lia.
    + intros s' id Hs. destruct (decide (s' = s)) as [->|Hne]; [rewrite lookup_insert_eq in Hs; injection Hs as <-|rewrite lookup_insert_ne in Hs by done].
      * exists (length (glyphs_ g)). split; [done|]. by rewrite list_lookup_middle.
      * apply H2 in Hs as (i & -> & Hi). exists i. split; [done|]. by apply lookup_app_l_Some.
    + intros b Hb. apply lookup_app_l_Some. by apply H3.
  - rewrite get_lookup by lia. cbn [glyphs_]. rewrite Nat2Z.id. by rewrite list_lookup_middle.
Qed.

(** [intern] finds the string or adds it; ids keep their meaning. *)
Lemma intern_spec g s : table_ok g → Forall is_byte s → (Z.of_nat (length (glyphs_ g)) < 2 ^ 32)%Z →
  match intern s g with
  | (Ret id, g') => (0 ≤ id)%Z ∧ get id g' = Some s ∧ table_ok g' ∧ keeps_glyphs g g' ∧ length (glyphs_ g') ≤ S (length (glyphs_ g))
  | (Throw _, g') => g' = g ∧ 255 < length s ∧ table_ g !! s = None
  end.
Proof.
  intros Hok Hs Hl. unfold intern. assert (∀ id, table_ g !! s = Some id → (0 ≤ id)%Z ∧ get id g = Some s) as Hold.
  { intros id (i & -> & Hi)%(ok_glyphs g Hok). split; [lia|]. rewrite get_lookup by lia. by rewrite Nat2Z.id. }
  assert (match (match table_ g !! s with Some id => (Ret id, g) | None => if 255 <? length s then (Throw "Glyph too long (max 255 bytes)"%string, g) else (Ret (wrap 32 (Z.of_nat (length (glyphs_ g ++ [s]) - 1))), MkGlyphTable (glyphs_ g ++ [s]) (emplace s (wrap 32 (Z.of_nat (length (glyphs_ g ++ [s]) - 1))) (table_ g))) end) with
  | (Ret id, g') => (0 ≤ id)%Z ∧ get id g' = Some s ∧ table_ok g' ∧ keeps_glyphs g g' ∧ length (glyphs_ g') ≤ S (length (glyphs_ g))
  | (Throw _, g') => g' = g ∧ 255 < length s ∧ table_ g !! s = None
  end) as Hmain.
  { destruct (table_ g !! s) as [id|] eqn:E; [destruct (Hold id eq_refl); split_and!; [done|done|done|done|lia]|]. destruct (Nat.ltb_spec 255 (length s)); [done|].
    destruct (intern_fresh g s Hok E Hl) as (A & B & C). split_and!; [done|done|done|by exists [s]|cbn; rewrite length_app; cbn; lia]. }
  destruct s as [|b [|b' s]]; [exact Hmain| |exact Hmain]. apply Forall_cons in Hs as [Hb _]. destruct Hok as [H1 H2 H3]. unfold is_byte in Hb. split_and!; [lia| |done|done|lia]. rewrite get_lookup by lia. by apply H3.
Qed.

Lemma get_injective g id id' s : table_ok g → (0 ≤ id)%Z → (0 ≤ id')%Z → get id g = Some s → get id' g = Some s → id = id'.
Proof.
  intros Hok H0 H0'. rewrite !get_lookup by done. intros H1%(ok_table g Hok) H2%(ok_table g Hok). rewrite H1 in H2. injection H2 as H2. lia.
Qed.

(** ** Windows *)

Record raster_ok (r : Raster) : Prop := {
  ok_glyph_cells : length (glyphs_storage_ r) = height_ r * width_ r;
  ok_fg_cells : length (fgs_storage_ r) = height_ r * width_ r;
  ok_bg_cells : length (bgs_storage_ r) = height_ r * width_ r;
  ok_em_cells : length (ems_storage_ r) = height_ r * width_ r;
}.

Lemma new_raster_ok w h : (Z.of_nat w * Z.of_nat h < 2 ^ 64)%Z → raster_ok (new_raster w h).
Proof.
  intros H. assert (size_mul w h = h * w) as E by (unfold size_mul; rewrite wrap_small; [|split; [|exact H]]; lia).
  split; unfold new_raster; cbn; rewrite length_replicate; exact E.
Qed.

Lemma raster_clear_ok r : raster_ok r → raster_ok (raster_clear r).
Proof. intros [H1 H2 H3 H4]. split; cbn; by rewrite length_fmap. Qed.

(** The view is the rectangle of the raster at row [oy] and column [ox]. *)
Record window (r : Raster) (v : RasterView) (oy ox : nat) : Prop := {
  win_stride : v_stride v = width_ r;
  win_offset : v_offset v = oy * width_ r + ox;
  win_rows : oy + v_rows v ≤ height_ r;
  win_cols : ox + v_cols v ≤ width_ r;
}.

Lemma whole_window r : window r (raster_view r) 0 0.
Proof. by split. Qed.

Lemma place_window r v oy ox y x : window r v oy ox → place v y x = (oy + y) * width_ r + (ox + x).
Proof. intros [H1 H2 _ _]. unfold place. rewrite H1, H2. lia. Qed.

Lemma index_bound (w h y x : nat) : y < h → x < w → y * w + x < h * w.
Proof. nia. Qed.

Lemma index_inj (w y x y' x' : nat) : x < w → x' < w → y * w + x = y' * w + x' → y = y' ∧ x = x'.
Proof. intros Hx Hx' E. assert (y = y') by nia. subst. lia. Qed.

(** One channel of the cell at row [y] and column [x]. *)
Definition channel (l : list Z) (w y x : nat) : option Z := if x <? w then l !! (y * w + x) else None.

Lemma poke_channel r v oy ox y x a l : window r v oy ox → length l = height_ r * width_ r → y < v_rows v → x < v_cols v →
  poke l (place v y x) a = Ret (<[(oy + y) * width_ r + (ox + x) := a]> l) ∧
  ∀ Y X, channel (<[(oy + y) * width_ r + (ox + x) := a]> l) (width_ r) Y X = if bool_decide (Y = oy + y ∧ X = ox + x) then Some a else channel l (width_ r) Y X.
Proof.
  intros Hw Hl Hy Hx. pose proof (win_rows r v oy ox Hw). pose proof (win_cols r v oy ox Hw). pose proof (index_bound (width_ r) (height_ r) (oy + y) (ox + x) ltac:(lia) ltac:(lia)) as Hb. split.
  - unfold poke. rewrite (place_window r v oy ox y x Hw), (proj2 (Nat.ltb_lt _ _)) by lia. done.
  - intros Y X. unfold channel. destruct (Nat.ltb_spec X (width_ r)) as [HX|HX]; [|rewrite bool_decide_false by lia; done]. case_bool_decide as E.
    + destruct E as [-> ->]. apply list_lookup_insert_eq. lia.
    + apply list_lookup_insert_ne. intros Ei. apply E. apply index_inj in Ei; [by destruct Ei|lia|done].
Qed.

(** The cell of a raster. *)
Definition cell (r : Raster) (y x : nat) : option Cell :=
  match channel (glyphs_storage_ r) (width_ r) y x, channel (fgs_storage_ r) (width_ r) y x, channel (bgs_storage_ r) (width_ r) y x, channel (ems_storage_ r) (width_ r) y x with
  | Some g, Some f, Some b, Some e => Some (MkCell g f b e)
  | _, _, _, _ => None
  end.

Lemma channel_some r l y x : length l = height_ r * width_ r → y < height_ r → x < width_ r → ∃ a, channel l (width_ r) y x = Some a.
Proof. intros Hl Hy Hx. unfold channel. rewrite (proj2 (Nat.ltb_lt _ _) Hx). apply lookup_lt_is_Some_2. rewrite Hl. by apply index_bound. Qed.

Lemma get_cell_spec r v oy ox y x : raster_ok r → window r v oy ox → y < v_rows v → x < v_cols v → ∃ c, cell r (oy + y) (ox + x) = Some c ∧ get_cell v y x r = Ret (Some c).
Proof.
  intros [H1 H2 H3 H4] Hw Hy Hx. pose proof (win_rows r v oy ox Hw). pose proof (win_cols r v oy ox Hw).
  destruct (channel_some r _ (oy + y) (ox + x) H1 ltac:(lia) ltac:(lia)) as [g Eg]. destruct (channel_some r _ (oy + y) (ox + x) H2 ltac:(lia) ltac:(lia)) as [f Ef]. destruct (channel_some r _ (oy + y) (ox + x) H3 ltac:(lia) ltac:(lia)) as [b Eb]. destruct (channel_some r _ (oy + y) (ox + x) H4 ltac:(lia) ltac:(lia)) as [e Ee].
  exists (MkCell g f b e). unfold cell. rewrite Eg, Ef, Eb, Ee. split; [done|]. unfold get_cell, out_of_view. rewrite !(proj2 (Nat.leb_gt _ _)) by lia. cbn [orb].
  unfold channel in *. rewrite (proj2 (Nat.ltb_lt (ox + x) (width_ r))) in * by lia. unfold peek. rewrite (place_window r v oy ox y x Hw), Eg, Ef, Eb, Ee. done.
Qed.

(** What a setter does to the cells: [f] at one place of the window, nothing outside of it. *)
Definition sets (r r' : Raster) (v : RasterView) (oy ox y x : nat) (f : Cell → Cell) : Prop :=
  raster_ok r' ∧ width_ r' = width_ r ∧ height_ r' = height_ r ∧
  ∀ Y X, cell r' Y X = if bool_decide (y < v_rows v ∧ x < v_cols v ∧ Y = oy + y ∧ X = ox + x) then f <$> cell r Y X else cell r Y X.

Lemma out_of_view_false v y x : out_of_view v y x = false ↔ y < v_rows v ∧ x < v_cols v.
Proof. unfold out_of_view. rewrite orb_false_iff, !Nat.leb_gt. tauto. Qed.

Lemma sets_nothing r v oy ox y x f : raster_ok r → out_of_view v y x = true → sets r r v oy ox y x f.
Proof. intros Hr Ho. split_and!; try done. intros Y X. rewrite bool_decide_false; [done|]. intros (Hy & Hx & _). assert (out_of_view v y x = false) by (apply out_of_view_false; done). congruence. Qed.

(** The proof that the four setters share; [ok] is the size of the array that is written. *)
Ltac setter ok :=
  let E := fresh "E" in let B := fresh "B" in let Hr := fresh "Hr" in let Hw := fresh "Hw" in
  intros Hr Hw;
  match goal with |- ∃ r', ?op ?v ?y ?x ?a ?r = _ ∧ sets _ _ _ ?oy ?ox _ _ _ =>
    unfold op; destruct (out_of_view v y x) eqn:E; [exists r; split; [done|by apply sets_nothing]|];
    apply out_of_view_false in E as [Hy Hx]; destruct (poke_channel r v oy ox y x a _ Hw (ok r Hr) Hy Hx) as [-> Ec]; eexists; split; [reflexivity|];
    split_and!; [split; cbn; rewrite ?length_insert; apply Hr|done|done|]; intros Y X; unfold cell at 1;
    cbn [with_glyphs with_fgs with_bgs with_ems glyphs_storage_ fgs_storage_ bgs_storage_ ems_storage_ width_]; rewrite Ec; unfold cell; case_bool_decide as B;
    [rewrite bool_decide_true by (destruct B; done); destruct B as [-> ->]; destruct (channel_some r _ (oy + y) (ox + x) (ok r Hr)) as [g ->]; [pose proof (win_rows r v oy ox Hw); lia|pose proof (win_cols r v oy ox Hw); lia|]; by repeat case_match
    |rewrite bool_decide_false by (intros (_ & _ & ?); done); done]
  end.

Lemma set_glyph_spec r v oy ox y x a : raster_ok r → window r v oy ox →
  ∃ r', set_glyph v y x a r = Ret r' ∧ sets r r' v oy ox y x (λ c, MkCell a (c_fg c) (c_bg c) (c_em c)).
Proof. setter ok_glyph_cells. Qed.

Lemma set_fg_spec r v oy ox y x a : raster_ok r → window r v oy ox →
  ∃ r', set_fg v y x a r = Ret r' ∧ sets r r' v oy ox y x (λ c, MkCell (c_glyph c) a (c_bg c) (c_em c)).
Proof. setter ok_fg_cells. Qed.

Lemma set_bg_spec r v oy ox y x a : raster_ok r → window r v oy ox →
  ∃ r', set_bg v y x a r = Ret r' ∧ sets r r' v oy ox y x (λ c, MkCell (c_glyph c) (c_fg c) a (c_em c)).
Proof. setter ok_bg_cells. Qed.

Lemma set_em_spec r v oy ox y x a : raster_ok r → window r v oy ox →
  ∃ r', set_em v y x a r = Ret r' ∧ sets r r' v oy ox y x (λ c, MkCell (c_glyph c) (c_fg c) (c_bg c) a).
Proof. setter ok_em_cells. Qed.

(** A window of a window is a window, if the sizes do not wrap. *)
Lemma subraster_spec r v oy ox y x h w : window r v oy ox → (Z.of_nat x + Z.of_nat w < 2 ^ 64)%Z → (Z.of_nat y + Z.of_nat h < 2 ^ 64)%Z →
  ∃ v', subraster v y x h w = Ret v' ∧ window r v' (oy + Nat.min y (v_rows v)) (ox + Nat.min x (v_cols v)) ∧
    v_rows v' = Nat.min h (v_rows v - y) ∧ v_cols v' = Nat.min w (v_cols v - x).
Proof.
  intros Hw Hx Hy. unfold subraster. rewrite !size_add_small by done. rewrite !(proj2 (Nat.ltb_ge _ _)) by lia. cbn [orb]. eexists. split; [reflexivity|]. cbn [v_rows v_cols].
  split_and!; [|lia|lia]. pose proof (win_rows r v oy ox Hw). pose proof (win_cols r v oy ox Hw). split; cbn [v_stride v_offset v_rows v_cols]; [apply (win_stride r v oy ox Hw)|apply (place_window r v oy ox _ _ Hw)|lia|lia].
Qed.

(** *** Text in cells *)

Section drawing.
Context {U : utf8proc} {Law : utf8proc_law U}.














(** ** The properties *)


End drawing.

(** The glyph table is a bijection between ids and strings that only grows. A new table and
    every table that [intern] leaves has it; [intern] returns an id that stands for
    the string, the same one each time, ids given out before keep their strings, different strings
    have different ids, and a new string of more than 255 bytes is refused and changes nothing. *)
Theorem intern_bijection g s : g = new_table ∨ table_ok g → Forall is_byte s → (Z.of_nat (length (glyphs_ g)) < 2 ^ 32)%Z →
  match intern s g with
  | (Ret id, g') => table_ok g' ∧ get id g' = Some s ∧ intern s g' = (Ret id, g') ∧
      (∀ id' s', (0 ≤ id')%Z → get id' g = Some s' → get id' g' = Some s') ∧ (∀ id', (0 ≤ id')%Z → get id' g' = Some s → id' = id)
  | (Throw _, g') => g' = g ∧ 255 < length s ∧ ∀ id, (0 ≤ id)%Z → get id g ≠ Some s
  end.
Proof.
  intros Hg Hs Hl. assert (table_ok g) as Hok by (destruct Hg as [->|]; [apply ascii_table_ok|done]). pose proof (intern_spec g s Hok Hs Hl) as H. destruct (intern s g) as [[id|e] g'] eqn:E.
  - destruct H as (Hid & Hget & Hok' & Hk & _). split_and!; [done|done| |intros id' s' H0; by apply keeps_glyphs_get|intros id' H0 H'; by apply (get_injective g' id' id s)].
    pose proof Hget as Ht. rewrite get_lookup in Ht by done. apply (ok_table g' Hok') in Ht. rewrite Z2Nat.id in Ht by done. unfold intern in *. destruct s as [|b [|b' s]]; [by rewrite Ht| |by rewrite Ht]. by injection E as -> ->.
  - destruct H as (-> & H1 & H2). split_and!; [done|done|]. intros id Hid. rewrite get_lookup by done. intros H%(ok_table g Hok). congruence.
Qed.

Lemma intern_bijection_witness : let s := [0xe4; 0xb8; 0x96]%Z in ∃ id g', intern s new_table = (Ret id, g') ∧ get id g' = Some s ∧ intern s g' = (Ret id, g').
Proof.
  intros s. assert (Forall is_byte s) as Hs by (repeat (constructor; [unfold is_byte; lia|]); constructor). pose proof (intern_bijection new_table s (or_introl eq_refl) Hs ltac:(vm_compute; reflexivity)) as H.
  destruct (intern s new_table) as [[id|e] g']; [|cbn in H; lia]. exists id, g'. destruct H as (_ & H1 & H2 & _). split; [reflexivity|]. split; [exact H1|exact H2].
Defined.


(** C38: A layout can draw without bounds checks. Every write through a window of a raster stays in the arrays: a
    position in the window changes exactly that channel of exactly that cell, any other
    position changes nothing; a window of a window is again one, clipped to it, as long as
    position plus size do not wrap. *)
Theorem windows_are_safe r v oy ox : raster_ok r → window r v oy ox →
  (∀ y x a, ∃ r', set_glyph v y x a r = Ret r' ∧ sets r r' v oy ox y x (λ c, MkCell a (c_fg c) (c_bg c) (c_em c))) ∧
  (∀ y x a, ∃ r', set_fg v y x a r = Ret r' ∧ sets r r' v oy ox y x (λ c, MkCell (c_glyph c) a (c_bg c) (c_em c))) ∧
  (∀ y x a, ∃ r', set_bg v y x a r = Ret r' ∧ sets r r' v oy ox y x (λ c, MkCell (c_glyph c) (c_fg c) a (c_em c))) ∧
  (∀ y x a, ∃ r', set_em v y x a r = Ret r' ∧ sets r r' v oy ox y x (λ c, MkCell (c_glyph c) (c_fg c) (c_bg c) a)) ∧
  (∀ y x, y < v_rows v → x < v_cols v → ∃ c, cell r (oy + y) (ox + x) = Some c ∧ get_cell v y x r = Ret (Some c)) ∧
  (∀ y x h w, (Z.of_nat x + Z.of_nat w < 2 ^ 64)%Z → (Z.of_nat y + Z.of_nat h < 2 ^ 64)%Z → ∃ v', subraster v y x h w = Ret v' ∧
     window r v' (oy + Nat.min y (v_rows v)) (ox + Nat.min x (v_cols v)) ∧ v_rows v' = Nat.min h (v_rows v - y) ∧ v_cols v' = Nat.min w (v_cols v - x)).
Proof.
  intros Hr Hw. split_and!; intros; [by apply set_glyph_spec|by apply set_fg_spec|by apply set_bg_spec|by apply set_em_spec|by apply get_cell_spec|by apply subraster_spec].
Qed.

Lemma windows_are_safe_witness : let r := new_raster 4 2 in ∃ v', subraster (raster_view r) 1 2 5 5 = Ret v' ∧ window r v' 1 2 ∧ v_rows v' = 1 ∧ v_cols v' = 2.
Proof.
  intros r. destruct (windows_are_safe r (raster_view r) 0 0 (new_raster_ok 4 2 ltac:(lia)) (whole_window r)) as (_ & _ & _ & _ & _ & H). apply (H 1 2 5 5); lia.
Defined.

(** A width that wrapped below zero makes a range that ends before it starts. *)
Example subraster_wraps w : (Z.of_nat w = 2 ^ 64 - 1)%Z → subraster (raster_view (new_raster 4 2)) 0 2 1 w = Throw undefined_behaviour.
Proof. intros Hw. unfold subraster. assert (size_add 2 w = 1) as -> by (unfold size_add; rewrite Hw; reflexivity). reflexivity. Qed.

(** A cluster of one letter and 130 accents ends the program. *)
Example long_cluster_terminates : let r := new_raster 4 1 in
  @write_text small_tables (raster_view r) 0 0 (0x65%Z :: concat (replicate 130 [0xcc; 0x81]%Z)) r new_table = Throw (terminated "Glyph too long (max 255 bytes)").
Proof. vm_compute. reflexivity. Qed.
