(* ===== verification/Ansi.v ===== *)
(** * Escape sequences and terminals (src/src/nxtui/ansi.hpp, ansi.cpp)

    The writer of escape sequences, and what a terminal does with them. A terminal is not part
    of the program: the class [terminal] is what the documentation of ECMA-48 and of the DEC
    terminals says of the sequences that the writer produces, and [Emulator] is an instance. *)
From S2P Require Import Prelude Raster.

(** ** The writer *)

Inductive Mode := disabled | debug | enabled.

Definition ESC : Z := 0x1b.
Definition CSI : bytes := [ESC; 0x5b]%Z.
Definition CSI_DEBUG : bytes := [0xe2; 0x9f; 0xa8]%Z ++ str "CSI:".
Definition CLOSE_DEBUG : bytes := [0xe2; 0x9f; 0xa9]%Z.

Section writer.
Context (mode : Mode).

(** [Writer::csi]: what is appended to the buffer. *)
Definition csi (params : bytes) (final_byte : Z) : bytes :=
  match mode with
  | disabled => []
  | debug => CSI_DEBUG ++ params ++ [final_byte] ++ CLOSE_DEBUG
  | enabled => CSI ++ params ++ [final_byte]
  end.

(** [std::format("{}", n)] of an unsigned number. *)
Definition dec (n : nat) : bytes := to_string (Z.of_nat n).
Definition semicolon : Z := 0x3b.

Definition move_to (row col : nat) : bytes := csi (dec (row + 1) ++ [semicolon] ++ dec (col + 1)) (ch "H").
Definition move_up (n : nat) : bytes := if 0 <? n then csi (dec n) (ch "A") else [].
Definition move_down (n : nat) : bytes := if 0 <? n then csi (dec n) (ch "B") else [].
Definition move_cursor_right (n : nat) : bytes := if 0 <? n then csi (dec n) (ch "C") else [].
Definition move_cursor_left (n : nat) : bytes := if 0 <? n then csi (dec n) (ch "D") else [].
Definition move_by (w h : nat) : bytes := move_cursor_right w ++ move_down h.
Definition move_to_column (col : nat) : bytes := csi (dec (col + 1)) (ch "G").
Definition clear_screen : bytes := csi (str "2") (ch "J").
Definition clear_screen_from_cursor : bytes := csi (str "0") (ch "J").
Definition clear_screen_to_cursor : bytes := csi (str "1") (ch "J").
Definition clear_line : bytes := csi (str "2") (ch "K").
Definition clear_line_from_cursor : bytes := csi (str "0") (ch "K").
Definition clear_line_to_cursor : bytes := csi (str "1") (ch "K").
Definition set_scroll_region (top bottom : nat) : bytes := csi (dec (top + 1) ++ [semicolon] ++ dec (bottom + 1)) (ch "r").
Definition reset_scroll_region : bytes := csi [] (ch "r").
Definition scroll_up (n : nat) : bytes := if 0 <? n then csi (dec n) (ch "S") else [].
Definition scroll_down (n : nat) : bytes := if 0 <? n then csi (dec n) (ch "T") else [].
Definition hide_cursor : bytes := csi (str "?25") (ch "l").
Definition show_cursor : bytes := csi (str "?25") (ch "h").
Definition begin_synchronized_update : bytes := csi (str "?2026") (ch "h").
Definition end_synchronized_update : bytes := csi (str "?2026") (ch "l").
Definition request_cursor_position : bytes := csi (str "6") (ch "n").

(** A color component or a palette index. *)
Definition dec_byte (b : Z) : bytes := to_string b.

Definition fg_rgb (r g b : Z) : bytes := csi (str "38;2;" ++ dec_byte r ++ [semicolon] ++ dec_byte g ++ [semicolon] ++ dec_byte b) (ch "m").
Definition bg_rgb (r g b : Z) : bytes := csi (str "48;2;" ++ dec_byte r ++ [semicolon] ++ dec_byte g ++ [semicolon] ++ dec_byte b) (ch "m").
Definition fg_terminal (c : Z) : bytes := csi (to_string c) (ch "m").
Definition bg_terminal (c : Z) : bytes := csi (to_string (c + 10)) (ch "m").
Definition fg_palette (index : Z) : bytes := csi (str "38;5;" ++ dec_byte index) (ch "m").
Definition bg_palette (index : Z) : bytes := csi (str "48;5;" ++ dec_byte index) (ch "m").
Definition fg_default : bytes := csi (str "39") (ch "m").
Definition bg_default : bytes := csi (str "49") (ch "m").

(** The attributes with their SGR parameters, in the order [style] tests them. *)
Definition attributes : list (Z * string) :=
  [(em_bold, "1"); (em_faint, "2"); (em_italic, "3"); (em_underline, "4"); (em_blink, "5"); (em_reverse, "7"); (em_conceal, "8"); (em_strikethrough, "9")]%string.

Definition style (e : Z) : bytes := concat ((λ a : Z * string, if has_emphasis e a.1 then csi (str a.2) (ch "m") else []) <$> attributes).

Definition reset : bytes := csi (str "0") (ch "m").
Definition bold : bytes := style em_bold.
Definition dim : bytes := style em_faint.
Definition italic : bytes := style em_italic.
Definition underline : bytes := style em_underline.
Definition reverse_video : bytes := style em_reverse.

End writer.

(** [save_cursor] and [restore_cursor] push their bytes in every mode. *)
Definition save_cursor : bytes := [ESC; 0x37]%Z.
Definition restore_cursor : bytes := [ESC; 0x38]%Z.

(** *** [render_raster] *)

Definition is_visible_trailing_cell (glyph bg em : Z) : bool := negb (glyph =? 32)%Z || negb (is_terminal_default bg) || negb (em =? em_none)%Z.

Definition emit_fg (mode : Mode) (color : Z) : bytes :=
  if is_terminal_default color || is_transparent color then fg_default mode
  else if is_palette color then fg_palette mode (palette_index color)
  else fg_rgb mode (red_of color) (green_of color) (blue_of color).

Definition emit_bg (mode : Mode) (color : Z) : bytes :=
  if is_terminal_default color || is_transparent color then bg_default mode
  else if is_palette color then bg_palette mode (palette_index color)
  else bg_rgb mode (red_of color) (green_of color) (blue_of color).

(** [RasterCellStyle] is a [Style]. *)
#[export] Instance Style_eq_dec : EqDecision Style.
Proof. solve_decision. Defined.

Definition apply_style (mode : Mode) (current : option Style) (desired : Style) : bytes * option Style :=
  if bool_decide (current = Some desired) then ([], current) else
  (reset mode ++ (if is_terminal_default (s_fg desired) then [] else emit_fg mode (s_fg desired))
     ++ (if is_terminal_default (s_bg desired) then [] else emit_bg mode (s_bg desired))
     ++ (if (s_em desired =? em_none)%Z then [] else style mode (s_em desired)), Some desired).

(** The cell at a place of the arrays. *)
Definition value_at (l : list Z) (i : nat) : Z := default 0%Z (l !! i).

Definition stored (r : Raster) (i : nat) : Cell :=
  MkCell (value_at (glyphs_storage_ r) i) (value_at (fgs_storage_ r) i) (value_at (bgs_storage_ r) i) (value_at (ems_storage_ r) i).

(** A row of the raster. *)
Definition row_cells (r : Raster) (y : nat) : list Cell := (λ x, stored r (y * width_ r + x)) <$> seq 0 (width_ r).

Definition last_visible (row : list Cell) : nat :=
  foldl (λ n xc, if is_visible_trailing_cell (c_glyph xc.2) (c_bg xc.2) (c_em xc.2) then S xc.1 else n) 0 (zip (seq 0 (length row)) row).

Definition render_cell (mode : Mode) (g : GlyphTable) (acc : bytes * option Style) (c : Cell) : bytes * option Style :=
  let '(out, current) := apply_style mode acc.2 (MkStyle (c_fg c) (c_bg c) (c_em c)) in
  (acc.1 ++ out ++ match get (c_glyph c) g with Some s => s | None => [32%Z] end, current).

(** The state is the buffer, the style, and whether a row was written. *)
Definition render_row (mode : Mode) (g : GlyphTable) (acc : bytes * option Style * bool) (row : list Cell) : bytes * option Style * bool :=
  let '(buf, current, emitted) := acc in
  let '(buf, current) := if emitted : bool then (buf ++ reset mode ++ [10%Z], None) else (buf, current) in
  let '(buf, current) := foldl (render_cell mode g) (buf, current) (take (last_visible row) row) in
  (buf, current, true).

Definition render_raster (mode : Mode) (g : GlyphTable) (r : Raster) : bytes :=
  (foldl (render_row mode g) ([], None, false) (row_cells r <$> seq 0 (height_ r))).1.1 ++ reset mode.

(** ** Terminals *)

Inductive tcolor := TDefault | TPalette (index : Z) | TRgb (r g b : Z).

Record pen_t := MkPen { p_fg : tcolor; p_bg : tcolor; p_em : Z }.

Definition default_pen : pen_t := MkPen TDefault TDefault 0.

(** A cell shows a glyph of some width, or it is the right half of the wide glyph before it. *)
Inductive tcell := TGlyph (text : bytes) (n : nat) (pen : pen_t) | THalf.

#[export] Instance tcolor_eq_dec : EqDecision tcolor.
Proof. solve_decision. Defined.

#[export] Instance pen_eq_dec : EqDecision pen_t.
Proof. solve_decision. Defined.

#[export] Instance tcell_eq_dec : EqDecision tcell.
Proof. solve_decision. Defined.

Definition blank : tcell := TGlyph [32%Z] 1 default_pen.

(** The lines of the screen, the cursor, the current and the saved graphics, and the rows between
    the margins, the second one excluded. [history] is a record that the model keeps of the
    lines that left the screen at the top, in the order they left. It says nothing of the terminal: no
    sequence reads it, and whether a terminal shows these lines in a scrollback is up to it. *)
Record screen := MkScreen {
  history : list (list tcell);
  grid : list (list tcell);
  columns : nat;
  cur_y : nat;
  cur_x : nat;
  pen : pen_t;
  saved : nat * nat * pen_t;
  region : nat * nat;
}.

Definition lines (s : screen) : nat := length (grid s).

Definition set_grid (g : list (list tcell)) (s : screen) : screen := MkScreen (history s) g (columns s) (cur_y s) (cur_x s) (pen s) (saved s) (region s).
Definition set_history (h : list (list tcell)) (s : screen) : screen := MkScreen h (grid s) (columns s) (cur_y s) (cur_x s) (pen s) (saved s) (region s).
Definition set_cursor (y x : nat) (s : screen) : screen := MkScreen (history s) (grid s) (columns s) y x (pen s) (saved s) (region s).
Definition set_pen (p : pen_t) (s : screen) : screen := MkScreen (history s) (grid s) (columns s) (cur_y s) (cur_x s) p (saved s) (region s).
Definition set_saved (v : nat * nat * pen_t) (s : screen) : screen := MkScreen (history s) (grid s) (columns s) (cur_y s) (cur_x s) (pen s) v (region s).
Definition set_region (v : nat * nat) (s : screen) : screen := MkScreen (history s) (grid s) (columns s) (cur_y s) (cur_x s) (pen s) (saved s) v.

(** DECSC and DECRC. *)
Definition save (s : screen) : screen := set_saved (cur_y s, cur_x s, pen s) s.
Definition restore (s : screen) : screen := set_pen (saved s).2 (set_cursor (saved s).1.1 (saved s).1.2 s).

Definition blank_line (s : screen) : list tcell := replicate (columns s) blank.

(** SU and SD in margins that start at the top: the lines between the margins move, blank ones
    come in, and those that leave the screen at the top are added to the record. *)
Definition roll_up (n : nat) (s : screen) : screen :=
  let bottom := (region s).2 in
  let part := take bottom (grid s) in
  let k := Nat.min n (length part) in
  set_history (history s ++ take k part) (set_grid (drop k part ++ replicate k (blank_line s) ++ drop bottom (grid s)) s).

Definition roll_down (n : nat) (s : screen) : screen :=
  let bottom := (region s).2 in
  let part := take bottom (grid s) in
  let k := Nat.min n (length part) in
  set_grid (replicate k (blank_line s) ++ take (length part - k) part ++ drop bottom (grid s)) s.

Definition erase_line (s : screen) : screen := set_grid (<[cur_y s := blank_line s]> (grid s)) s.

Definition pen_fg (c : tcolor) (s : screen) : screen := set_pen (MkPen c (p_bg (pen s)) (p_em (pen s))) s.
Definition pen_bg (c : tcolor) (s : screen) : screen := set_pen (MkPen (p_fg (pen s)) c (p_em (pen s))) s.
Definition pen_em (e : Z) (s : screen) : screen := set_pen (MkPen (p_fg (pen s)) (p_bg (pen s)) (Z.lor (p_em (pen s)) e)) s.

Definition at_cell (s : screen) (y x : nat) : option tcell := grid s !! y ≫= λ row, row !! x.

(** A half has the wide glyph it belongs to before it. *)
Definition sound (s : screen) : Prop :=
  ∀ y x, at_cell s y x = Some THalf → ∃ x0 text p, x = S x0 ∧ at_cell s y x0 = Some (TGlyph text 2 p).

(** What printing a glyph of [n] cells at the cursor does, in a line with room for it: the
    cells under it show it, the rest of a wide glyph that was cut is erased, nothing else
    changes, and the cursor stands behind it unless that is behind the margin. *)
Record printed (text : bytes) (n : nat) (s s' : screen) : Prop := {
  pr_history : history s' = history s;
  pr_lines : lines s' = lines s;
  pr_columns : columns s' = columns s;
  pr_cursor : cur_x s + n < columns s → cur_y s' = cur_y s ∧ cur_x s' = cur_x s + n;
  pr_pen : pen s' = pen s;
  pr_saved : saved s' = saved s;
  pr_region : region s' = region s;
  pr_sound : sound s';
  pr_head : at_cell s' (cur_y s) (cur_x s) = Some (TGlyph text n (pen s));
  pr_half : n = 2 → at_cell s' (cur_y s) (S (cur_x s)) = Some THalf;
  pr_same : ∀ y x, (y ≠ cur_y s ∨ x < cur_x s ∨ cur_x s + n ≤ x) →
    ¬ (y = cur_y s ∧ S x = cur_x s ∧ at_cell s y (S x) = Some THalf) → ¬ (y = cur_y s ∧ x = cur_x s + n ∧ at_cell s y x = Some THalf) →
    at_cell s' y x = at_cell s y x;
}.

(** [cells_of text] is the number of cells the terminal gives to [text], if it shows it as one glyph. *)
Class terminal (T : Type) := {
  feed : bytes → T → T;
  shows : T → screen;
  ground : T → Prop;
  cells_of : bytes → option nat;
}.

(** The bytes take the screen to [f] of it, and the terminal is ready for more. *)
Definition does {T} `{terminal T} (seq : bytes) (f : screen → screen) (t : T) : Prop :=
  ground (feed seq t) ∧ shows (feed seq t) = f (shows t).

Class terminal_law (T : Type) `{terminal T} : Prop := {
  feed_nil (t : T) : feed [] t = t;
  feed_app a b (t : T) : feed (a ++ b) t = feed b (feed a t);
  law_move_to (t : T) y x : ground t → y < lines (shows t) → x < columns (shows t) → does (move_to enabled y x) (set_cursor y x) t;
  law_move_up (t : T) n : ground t → 0 < n → (region (shows t)).1 = 0 → does (csi enabled (dec n) (ch "A")) (λ s, set_cursor (cur_y s - n) (cur_x s) s) t;
  law_move_down (t : T) n : ground t → 0 < n → region (shows t) = (0, lines (shows t)) → does (csi enabled (dec n) (ch "B")) (λ s, set_cursor (Nat.min (cur_y s + n) (lines s - 1)) (cur_x s) s) t;
  law_save (t : T) : ground t → does save_cursor save t;
  law_restore (t : T) : ground t → does restore_cursor restore t;
  law_region (t : T) top bottom : ground t → top < bottom < lines (shows t) → does (set_scroll_region enabled top bottom) (λ s, set_cursor 0 0 (set_region (top, S bottom) s)) t;
  law_no_region (t : T) : ground t → does (reset_scroll_region enabled) (λ s, set_cursor 0 0 (set_region (0, lines s) s)) t;
  law_scroll_up (t : T) n : ground t → 0 < n → (region (shows t)).1 = 0 → pen (shows t) = default_pen → does (csi enabled (dec n) (ch "S")) (roll_up n) t;
  law_scroll_down (t : T) n : ground t → 0 < n → (region (shows t)).1 = 0 → pen (shows t) = default_pen → does (csi enabled (dec n) (ch "T")) (roll_down n) t;
  law_erase_line (t : T) : ground t → pen (shows t) = default_pen → does (clear_line enabled) erase_line t;
  law_reset (t : T) : ground t → does (reset enabled) (set_pen default_pen) t;
  law_fg_default (t : T) : ground t → does (fg_default enabled) (pen_fg TDefault) t;
  law_bg_default (t : T) : ground t → does (bg_default enabled) (pen_bg TDefault) t;
  law_fg_palette (t : T) i : ground t → is_byte i → does (fg_palette enabled i) (pen_fg (TPalette i)) t;
  law_bg_palette (t : T) i : ground t → is_byte i → does (bg_palette enabled i) (pen_bg (TPalette i)) t;
  law_fg_rgb (t : T) r g b : ground t → is_byte r → is_byte g → is_byte b → does (fg_rgb enabled r g b) (pen_fg (TRgb r g b)) t;
  law_bg_rgb (t : T) r g b : ground t → is_byte r → is_byte g → is_byte b → does (bg_rgb enabled r g b) (pen_bg (TRgb r g b)) t;
  law_attribute (t : T) e p : ground t → (e, p) ∈ attributes → does (csi enabled (str p) (ch "m")) (pen_em e) t;
  law_text (t : T) text n : ground t → cells_of text = Some n → sound (shows t) → cur_y (shows t) < lines (shows t) → cur_x (shows t) + n ≤ columns (shows t) →
    ground (feed text t) ∧ printed text n (shows t) (shows (feed text t));
}.

(** *** Sequences of sequences *)

Section runs.
Context {T : Type} {I : terminal T} {Law : terminal_law T}.

Lemma does_nil (t : T) : ground t → does [] id t.
Proof using Law. intros Hg. unfold does. by rewrite feed_nil. Qed.

Lemma does_app a b f h (t : T) : does a f t → does b h (feed a t) → does (a ++ b) (h ∘ f) t.
Proof using Law. intros [H1 H2] [H3 H4]. unfold does. rewrite feed_app. split; [done|]. by rewrite H4, H2. Qed.

Lemma does_ext a f h (t : T) : f (shows t) = h (shows t) → does a f t → does a h t.
Proof using Law. intros E [H1 H2]. split; [done|]. by rewrite H2. Qed.

(** The bits of a set of attributes, as far as the first attributes of the list go. *)
Definition bits_of (e : Z) (l : list (Z * string)) : Z := foldl (λ v a, if has_emphasis e a.1 then Z.lor v a.1 else v) 0%Z l.

Lemma foldl_bits e l : ∀ v, foldl (λ v a, if has_emphasis e a.1 then Z.lor v a.1 else v) v l = Z.lor v (bits_of e l).
Proof.
  unfold bits_of. induction l as [|a l IH]; intros v; cbn [foldl]; [by rewrite Z.lor_0_r|]. rewrite IH, (IH (if has_emphasis e a.1 then _ else 0%Z)). destruct (has_emphasis e a.1); [by rewrite Z.lor_0_l, Z.lor_assoc|by rewrite Z.lor_0_l].
Qed.

Lemma bits_of_all e : is_byte e → bits_of e attributes = e.
Proof. intros He. pose proof (all_bytes_spec (λ e, bits_of e attributes =? e)%Z ltac:(vm_compute; reflexivity) e He) as E. by apply Z.eqb_eq in E. Qed.

Lemma does_attributes e l : (∀ a, a ∈ l → a ∈ attributes) → ∀ t : T, ground t →
  does (concat ((λ a : Z * string, if has_emphasis e a.1 then csi enabled (str a.2) (ch "m") else []) <$> l)) (pen_em (bits_of e l)) t.
Proof using Law.
  induction l as [|[b p] l IH]; intros Hl t Hg.
  - cbn [fmap list_fmap concat]. apply (does_ext _ id); [|by apply does_nil]. unfold pen_em, bits_of. cbn [foldl]. rewrite Z.lor_0_r. by destruct (shows t) as [? ? ? ? ? [? ? ?] ? ?].
  - cbn [fmap list_fmap concat]. assert (bits_of e ((b, p) :: l) = Z.lor (if has_emphasis e b then b else 0) (bits_of e l)) as ->.
    { unfold bits_of at 1. cbn [foldl]. rewrite foldl_bits. cbn [fst]. destruct (has_emphasis e b); by rewrite ?Z.lor_0_l. }
    cbn [fst snd]. destruct (has_emphasis e b).
    + pose proof (law_attribute t b p Hg (Hl _ (list_elem_of_here _ _))) as H1. apply (does_ext _ (pen_em (bits_of e l) ∘ pen_em b)); [unfold compose, pen_em, set_pen; cbn; by rewrite Z.lor_assoc|]. apply does_app; [done|]. apply IH; [|apply H1]. intros a Ha. apply Hl. by constructor.
    + rewrite Z.lor_0_l. apply IH; [|done]. intros a Ha. apply Hl. by constructor.
Qed.

Lemma does_style e (t : T) : is_byte e → ground t → does (style enabled e) (pen_em e) t.
Proof using Law. intros He Hg. rewrite <- (bits_of_all e He) at 2. by apply does_attributes. Qed.

End runs.
