(* ===== verification/Emulator.v ===== *)
(** * A terminal (an instance of the class [terminal])

    A small emulator of the sequences that src/src/nxtui/ansi.cpp writes. It shows that the
    laws of [terminal_law] can hold together, and evaluates what a program's output looks
    like on concrete frames. It gives one cell to a printable ASCII character and two cells to a
    character of the ideograph blocks U+4E00 to U+9FFF, and ignores what it does not know. *)
From S2P Require Import Prelude Raster Ansi.

(** ** The parser *)

Inductive parse_state := PGround | PEscape | PCsi (params : bytes) | PUtf8 (sofar : bytes) (missing : nat).

Record emulator := MkEmulator { e_screen : screen; e_parse : parse_state }.

(** The parameters of a sequence. *)
Fixpoint fields (ps : bytes) : list bytes :=
  match ps with
  | [] => [[]]
  | b :: rest => if (b =? semicolon)%Z then [] :: fields rest else match fields rest with [] => [[b]] | f :: fs => (b :: f) :: fs end
  end.

Definition numbers (ps : bytes) : list Z := dec_value <$> fields ps.

Definition attribute_of (n : Z) : Z := default 0%Z (list_find (λ a : Z * string, dec_value (str a.2) = n) attributes ≫= λ r, Some r.2.1).

(** Select Graphic Rendition, one attribute per sequence. *)
Definition sgr (ns : list Z) (s : screen) : screen :=
  match ns with
  | [0%Z] => set_pen default_pen s
  | [38%Z; 5%Z; i] => pen_fg (TPalette i) s
  | [48%Z; 5%Z; i] => pen_bg (TPalette i) s
  | [38%Z; 2%Z; r; g; b] => pen_fg (TRgb r g b) s
  | [48%Z; 2%Z; r; g; b] => pen_bg (TRgb r g b) s
  | [39%Z] => pen_fg TDefault s
  | [49%Z] => pen_bg TDefault s
  | [n] => pen_em (attribute_of n) s
  | _ => s
  end.

Definition place_cursor (y x : Z) (s : screen) : screen :=
  set_cursor (Nat.min (Z.to_nat (y - 1)) (lines s - 1)) (Nat.min (Z.to_nat (x - 1)) (columns s - 1)) s.

(** The margins need at least two lines between them. *)
Definition set_margins (top bottom : Z) (s : screen) : screen :=
  if (0 <? top)%Z && (top <? bottom)%Z && (bottom <=? Z.of_nat (lines s))%Z then set_cursor 0 0 (set_region (Z.to_nat (top - 1), Z.to_nat bottom) s) else s.

Definition execute (ps : bytes) (final : Z) (s : screen) : screen :=
  let ns := numbers ps in
  if (final =? ch "m")%Z then sgr ns s
  else if (final =? ch "H")%Z then match ns with [y; x] => place_cursor y x s | _ => s end
  else if (final =? ch "A")%Z then match ns with [n] => set_cursor (cur_y s - Z.to_nat n) (cur_x s) s | _ => s end
  else if (final =? ch "B")%Z then match ns with [n] => set_cursor (Nat.min (cur_y s + Z.to_nat n) (lines s - 1)) (cur_x s) s | _ => s end
  else if (final =? ch "S")%Z then match ns with [n] => roll_up (Z.to_nat n) s | _ => s end
  else if (final =? ch "T")%Z then match ns with [n] => roll_down (Z.to_nat n) s | _ => s end
  else if (final =? ch "K")%Z then match ns with [2%Z] => erase_line s | _ => s end
  else if (final =? ch "r")%Z then match ns with [0%Z] => set_cursor 0 0 (set_region (0, lines s) s) | [top; bottom] => set_margins top bottom s | _ => s end
  else s.

(** ** Printing *)

(** The rest of a wide glyph that is cut becomes blank. *)
Definition unhalf (x : nat) (row : list tcell) : list tcell := if bool_decide (row !! x = Some THalf) then <[x - 1 := blank]> row else row.
Definition unhead (x : nat) (row : list tcell) : list tcell := if bool_decide (row !! x = Some THalf) then <[x := blank]> row else row.

Definition print_row (text : bytes) (n x : nat) (p : pen_t) (row : list tcell) : list tcell :=
  let row := <[x := TGlyph text n p]> (unhead (x + n) (unhalf x row)) in
  if n =? 2 then <[S x := THalf]> row else row.

Definition print_glyph (text : bytes) (n : nat) (s : screen) : screen :=
  if columns s <? cur_x s + n then s else
  match grid s !! cur_y s with
  | Some row => set_cursor (cur_y s) (Nat.min (cur_x s + n) (columns s - 1)) (set_grid (<[cur_y s := print_row text n (cur_x s) (pen s) row]> (grid s)) s)
  | None => s
  end.

Definition is_printable (b : Z) : bool := (32 <=? b)%Z && (b <? 127)%Z.
Definition is_wide_lead (b : Z) : bool := (0xe4 <=? b)%Z && (b <=? 0xe9)%Z.

Definition emulate (e : emulator) (b : Z) : emulator :=
  let s := e_screen e in
  match e_parse e with
  | PGround =>
      if (b =? ESC)%Z then MkEmulator s PEscape
      else if is_printable b then MkEmulator (print_glyph [b] 1 s) PGround
      else if is_wide_lead b then MkEmulator s (PUtf8 [b] 2)
      else MkEmulator s PGround
  | PEscape =>
      if (b =? 0x5b)%Z then MkEmulator s (PCsi [])
      else if (b =? 0x37)%Z then MkEmulator (save s) PGround
      else if (b =? 0x38)%Z then MkEmulator (restore s) PGround
      else MkEmulator s PGround
  | PCsi ps => if (0x40 <=? b)%Z then MkEmulator (execute ps b s) PGround else MkEmulator s (PCsi (ps ++ [b]))
  | PUtf8 acc missing => if missing =? 1 then MkEmulator (print_glyph (acc ++ [b]) 2 s) PGround else MkEmulator s (PUtf8 (acc ++ [b]) (missing - 1))
  end.

(** Every line has as many cells as the screen has columns. *)
Definition shaped (s : screen) : Prop := Forall (λ row, length row = columns s) (grid s).

Definition glyph_cells (text : bytes) : option nat :=
  match text with
  | [b] => if is_printable b then Some 1 else None
  | [a; _; _] => if is_wide_lead a then Some 2 else None
  | _ => None
  end.

#[export] Instance emulator_terminal : terminal emulator := {
  feed l e := foldl emulate e l;
  shows := e_screen;
  ground e := e_parse e = PGround ∧ shaped (e_screen e);
  cells_of := glyph_cells;
}.

(** A blank screen. *)
Definition fresh_terminal (w h : nat) : emulator := MkEmulator (MkScreen [] (replicate h (replicate w blank)) w 0 0 default_pen (0, 0, default_pen) (0, h)) PGround.

Lemma fresh_ground w h : ground (fresh_terminal w h).
Proof. split; [done|]. apply Forall_replicate. apply length_replicate. Qed.

Lemma fresh_cell w h y x c : at_cell (shows (fresh_terminal w h)) y x = Some c → c = blank.
Proof. unfold at_cell. cbn [shows emulator_terminal fresh_terminal e_screen grid]. intros E. apply bind_Some in E as (row & E & Ex). apply lookup_replicate in E as [-> _]. by apply lookup_replicate in Ex as [-> _]. Qed.

Lemma fresh_sound w h : sound (shows (fresh_terminal w h)).
Proof. intros y x E. by apply fresh_cell in E. Qed.

(** ** The laws *)

Lemma fields_digits d : Forall (λ c, is_digit c = true) d → fields d = [d].
Proof.
  induction 1 as [|b d Hb _ IH]; [done|]. cbn [fields]. unfold is_digit in Hb. apply andb_true_iff in Hb as [_ Hb]. apply Z.leb_le in Hb. unfold semicolon.
  rewrite (proj2 (Z.eqb_neq _ _)) by lia. by rewrite IH.
Qed.

Lemma fields_cons d rest : Forall (λ c, is_digit c = true) d → fields (d ++ semicolon :: rest) = d :: fields rest.
Proof.
  induction 1 as [|b d Hb _ IH]; [done|]. cbn [fields app]. unfold is_digit in Hb. apply andb_true_iff in Hb as [_ Hb]. apply Z.leb_le in Hb.
  rewrite (proj2 (Z.eqb_neq b semicolon)) by (unfold semicolon; lia). by rewrite IH.
Qed.

Lemma numbers_dec n : (0 ≤ n)%Z → numbers (to_string n) = [n].
Proof. intros Hn. unfold numbers. rewrite fields_digits by (by apply to_string_digits). cbn [fmap list_fmap]. by rewrite to_string_value. Qed.

Lemma numbers_cons n rest : (0 ≤ n)%Z → numbers (to_string n ++ [semicolon] ++ rest) = n :: numbers rest.
Proof. intros Hn. unfold numbers. cbn [app]. rewrite fields_cons by (by apply to_string_digits). cbn [fmap list_fmap]. by rewrite to_string_value. Qed.

(** Parameters are digits, semicolons and the like. *)
Definition low (l : bytes) : Prop := Forall (λ b, b < 0x40)%Z l.

Lemma low_dec n : (0 ≤ n)%Z → low (to_string n).
Proof. intros Hn. eapply Forall_impl; [by apply to_string_digits|]. intros b Hb. unfold is_digit in Hb. apply andb_true_iff in Hb as [_ Hb]. apply Z.leb_le in Hb. cbn in *. lia. Qed.

Lemma feed_params ps : low ps → ∀ acc s, foldl emulate (MkEmulator s (PCsi acc)) ps = MkEmulator s (PCsi (acc ++ ps)).
Proof.
  induction 1 as [|b ps Hb _ IH]; intros acc s; cbn [foldl]; [by rewrite app_nil_r|]. unfold emulate at 2. cbn [e_parse e_screen]. rewrite (proj2 (Z.leb_gt _ _)) by lia. rewrite IH. by rewrite <- app_assoc.
Qed.

Lemma feed_csi ps final e : low ps → (0x40 ≤ final)%Z → e_parse e = PGround → feed (csi enabled ps final) e = MkEmulator (execute ps final (e_screen e)) PGround.
Proof.
  intros Hps Hf Hg. destruct e as [s p]. cbn in Hg. subst p. cbn [feed emulator_terminal csi CSI app foldl]. change (emulate (emulate (MkEmulator s PGround) ESC) 0x5b) with (MkEmulator s (PCsi [])).
  rewrite foldl_app, (feed_params ps Hps). cbn [foldl app]. unfold emulate. cbn [e_parse e_screen]. by rewrite (proj2 (Z.leb_le _ _)) by lia.
Qed.

Lemma csi_does ps final f (e : emulator) : ground e → low ps → (0x40 ≤ final)%Z → execute ps final (shows e) = f (shows e) → (shaped (shows e) → shaped (f (shows e))) →
  does (csi enabled ps final) f e.
Proof. intros [Hp Hs] Hl Hf E Hk. unfold does. rewrite (feed_csi ps final e Hl Hf Hp). cbn [shows ground emulator_terminal e_screen e_parse]. change (e_screen e) with (shows e). rewrite E. split; [|done]. split; [done|by apply Hk]. Qed.

Lemma shaped_roll_up n s : shaped s → shaped (roll_up n s).
Proof.
  intros Hs. unfold shaped, roll_up. cbn [set_history set_grid grid columns]. rewrite !Forall_app. split_and!.
  - by apply Forall_drop, Forall_take.
  - apply Forall_replicate. apply length_replicate.
  - by apply Forall_drop.
Qed.

Lemma shaped_roll_down n s : shaped s → shaped (roll_down n s).
Proof.
  intros Hs. unfold shaped, roll_down. cbn [set_grid grid columns]. rewrite !Forall_app. split_and!.
  - apply Forall_replicate. apply length_replicate.
  - by apply Forall_take, Forall_take.
  - by apply Forall_drop.
Qed.

Lemma shaped_erase_line s : shaped s → shaped (erase_line s).
Proof. intros Hs. apply Forall_insert; [done|]. apply length_replicate. Qed.

(** *** Printing *)

Lemma unhalf_length x row : length (unhalf x row) = length row.
Proof. unfold unhalf. case_bool_decide; [apply length_insert|done]. Qed.

Lemma unhead_length x row : length (unhead x row) = length row.
Proof. unfold unhead. case_bool_decide; [apply length_insert|done]. Qed.

Lemma print_row_length text n x p row : length (print_row text n x p row) = length row.
Proof. unfold print_row. destruct (n =? 2); rewrite ?length_insert, unhead_length, unhalf_length; done. Qed.

(** What a cell of the line holds afterwards. *)
Lemma print_row_lookup text n x p row i : (n = 1 ∨ n = 2) → x + n ≤ length row → i < length row →
  print_row text n x p row !! i =
    if i =? x then Some (TGlyph text n p)
    else if (n =? 2) && (i =? S x) then Some THalf
    else if ((i =? x + n) && bool_decide (row !! i = Some THalf)) || ((S i =? x) && bool_decide (row !! x = Some THalf)) then Some blank
    else row !! i.
Proof.
  intros Hn Hx Hi. unfold print_row. set (r1 := unhalf x row). set (r2 := unhead (x + n) r1).
  assert (length r1 = length row) as L1 by apply unhalf_length. assert (length r2 = length row) as L2 by (unfold r2; rewrite unhead_length; done).
  assert (i ≠ x → (n = 2 → i ≠ S x) → r2 !! i = if ((i =? x + n) && bool_decide (row !! i = Some THalf)) || ((S i =? x) && bool_decide (row !! x = Some THalf)) then Some blank else row !! i) as E2.
  { intros Hix HiS. assert (r1 !! (x + n) = row !! (x + n)) as E1. { unfold r1, unhalf. case_bool_decide; [|done]. apply list_lookup_insert_ne. lia. }
    unfold r2, unhead. rewrite E1. destruct (Nat.eqb_spec i (x + n)) as [->|Hne]; cbn [andb].
    - rewrite (proj2 (Nat.eqb_neq (S (x + n)) x)) by lia. cbn [andb orb]. rewrite orb_false_r. case_bool_decide; [rewrite list_lookup_insert_eq; [done|lia]|done].
    - transitivity (r1 !! i); [case_bool_decide; [apply list_lookup_insert_ne; lia|done]|]. cbn [orb]. unfold r1, unhalf. destruct (Nat.eqb_spec (S i) x) as [<-|Hne2]; cbn [andb].
      + case_bool_decide; [|done]. rewrite Nat.sub_1_r. cbn [Nat.pred]. rewrite list_lookup_insert_eq; [done|lia].
      + case_bool_decide; [|done]. destruct x as [|x]; [|apply list_lookup_insert_ne; lia].
        (* the first column never holds a half of a sound line; blanking there is harmless *)
        rewrite list_lookup_insert_ne by lia. done. }
  destruct (Nat.eqb_spec i x) as [->|Hix].
  - destruct (n =? 2); [rewrite list_lookup_insert_ne by lia|]; (rewrite list_lookup_insert_eq; [done|lia]).
  - destruct (Nat.eqb_spec n 2) as [->|Hn2]; cbn [andb].
    + destruct (Nat.eqb_spec i (S x)) as [->|HiS].
      * rewrite list_lookup_insert_eq; [done|rewrite length_insert; lia].
      * rewrite list_lookup_insert_ne, list_lookup_insert_ne by lia. apply E2; done.
    + rewrite list_lookup_insert_ne by lia. apply E2; done.
Qed.

Lemma print_glyph_printed text n s : (n = 1 ∨ n = 2) → shaped s → sound s → cur_y s < lines s → cur_x s + n ≤ columns s → printed text n s (print_glyph text n s) ∧ shaped (print_glyph text n s).
Proof.
  intros Hn Hs Hso Hy Hx. unfold print_glyph. rewrite (proj2 (Nat.ltb_ge _ _) Hx). destruct (lookup_lt_is_Some_2 (grid s) (cur_y s) Hy) as [row Er]. rewrite Er.
  pose proof (proj1 (Forall_lookup _ _) Hs _ _ Er) as Lr. cbn in Lr. set (s' := set_cursor _ _ _).
  assert (∀ x, at_cell s (cur_y s) x = row !! x) as At by (intros x; unfold at_cell; by rewrite Er).
  assert (∀ x, at_cell s' (cur_y s) x = print_row text n (cur_x s) (pen s) row !! x) as At' by (intros x; unfold at_cell, s'; cbn [set_cursor set_grid grid]; rewrite list_lookup_insert_eq; done).
  assert (∀ y x, y ≠ cur_y s → at_cell s' y x = at_cell s y x) as Ao by (intros y x Hne; unfold at_cell, s'; cbn [set_cursor set_grid grid]; rewrite list_lookup_insert_ne; done).
  pose proof (λ i, print_row_lookup text n (cur_x s) (pen s) row i Hn ltac:(lia)) as Look.
  split; [split; try done|].
  - unfold s', lines. cbn [set_cursor set_grid grid]. apply length_insert.
  - intros Hlt. unfold s'. cbn [set_cursor set_grid cur_y cur_x]. split; [done|lia].
  - intros y x E. destruct (decide (y = cur_y s)) as [->|Hne].
    + rewrite At' in E. assert (x < length row) as Hlx by (rewrite <- (print_row_length text n (cur_x s) (pen s) row); by eapply lookup_lt_Some). rewrite (Look x Hlx) in E.
      destruct (Nat.eqb_spec x (cur_x s)) as [_|Hnx]; [done|]. destruct ((n =? 2) && (x =? S (cur_x s))) eqn:E2.
      * apply andb_true_iff in E2 as [En Ex]. apply Nat.eqb_eq in En, Ex. subst n x. exists (cur_x s), text, (pen s). split; [done|]. rewrite At', Look by lia. by rewrite Nat.eqb_refl.
      * destruct (_ || _) eqn:E3; [done|]. apply orb_false_iff in E3 as [E3 E4].
        destruct (Hso (cur_y s) x) as (x0 & t0 & p0 & -> & E0); [by rewrite At|]. exists x0, t0, p0. split; [done|]. rewrite At in E0. rewrite At', Look by lia.
        rewrite (bool_decide_true _ E), andb_true_r in E3. apply Nat.eqb_neq in E3. apply andb_false_iff in E2. rewrite !Nat.eqb_neq in E2.
        rewrite (proj2 (Nat.eqb_neq x0 (cur_x s))) by lia. destruct ((n =? 2) && (x0 =? S (cur_x s))) eqn:E5; [apply andb_true_iff in E5 as [En Ex]; apply Nat.eqb_eq in En, Ex; lia|].
        rewrite E0, (bool_decide_false (Some _ = Some THalf)) by done. rewrite andb_false_r. cbn [orb]. rewrite (proj2 (Nat.eqb_neq (S x0) (cur_x s))) by lia. done.
    + rewrite Ao in E by done. destruct (Hso y x E) as (x0 & t0 & p0 & -> & E0). exists x0, t0, p0. by rewrite Ao.
  - rewrite At', Look by lia. by rewrite Nat.eqb_refl.
  - intros ->. rewrite At', Look by lia. rewrite (proj2 (Nat.eqb_neq _ _)) by lia. by rewrite !Nat.eqb_refl.
  - intros y x Hxy H1 H2. destruct (decide (y = cur_y s)) as [->|Hne]; [|by apply Ao]. rewrite At in H2. rewrite At', At. destruct (Nat.lt_ge_cases x (length row)) as [Hlx|Hge]; [|rewrite !lookup_ge_None_2; [done|lia|rewrite print_row_length; lia]].
    rewrite Look by done. rewrite (proj2 (Nat.eqb_neq x (cur_x s))) by lia. destruct ((n =? 2) && (x =? S (cur_x s))) eqn:E5; [apply andb_true_iff in E5 as [En Ex]; apply Nat.eqb_eq in En, Ex; lia|].
    destruct (_ || _) eqn:E3; [|done]. exfalso. apply orb_true_iff in E3 as [E3|E3]; apply andb_true_iff in E3 as [E3 E4]; apply Nat.eqb_eq in E3; apply bool_decide_eq_true in E4; [by apply H2|apply H1]. rewrite At, E3. done.
  - unfold shaped, s'. cbn [set_cursor set_grid grid columns]. apply Forall_insert; [done|]. by rewrite print_row_length.
Qed.

Lemma feed_glyph text n (e : emulator) : e_parse e = PGround → cells_of text = Some n → (n = 1 ∨ n = 2) ∧ feed text e = MkEmulator (print_glyph text n (e_screen e)) PGround.
Proof.
  destruct e as [s p]. intros Hp Hc. cbn in Hp. subst p. cbn [cells_of emulator_terminal] in Hc. destruct text as [|b [|b2 [|b3 [|]]]]; try done; cbn [glyph_cells] in Hc.
  - destruct (is_printable b) eqn:Hb; [|done]. injection Hc as <-. split; [by left|]. cbn [feed emulator_terminal foldl]. unfold emulate. cbn [e_parse e_screen]. unfold is_printable in Hb. destruct (Z.eqb_spec b ESC) as [->|]; [done|]. unfold is_printable. by rewrite Hb.
  - destruct (is_wide_lead b) eqn:Hb; [|done]. injection Hc as <-. split; [by right|]. cbn [feed emulator_terminal foldl]. unfold emulate at 3. cbn [e_parse e_screen]. destruct (Z.eqb_spec b ESC) as [->|]; [done|].
    assert (is_printable b = false) as ->. { unfold is_wide_lead in Hb. apply andb_true_iff in Hb as [Hb _]. apply Z.leb_le in Hb. unfold is_printable. apply andb_false_iff. right. apply Z.ltb_ge. lia. }
    rewrite Hb. done.
Qed.

Lemma low_str (s : string) : forallb (λ b, b <? 0x40)%Z (str s) = true → low (str s).
Proof. intros H. apply Forall_forall. intros b Hb. apply Z.ltb_lt. apply (proj1 (forallb_forall _ _) H). by apply list_elem_of_In. Qed.

Lemma numbers_two a b s rest : str s = to_string a ++ [semicolon] ++ to_string b ++ [semicolon] → (0 ≤ a)%Z → (0 ≤ b)%Z → numbers (str s ++ rest) = a :: b :: numbers rest.
Proof. intros -> Ha Hb. rewrite <- !app_assoc. rewrite !numbers_cons by done. done. Qed.

Lemma is_byte_nonneg b : is_byte b → (0 ≤ b)%Z.
Proof. unfold is_byte. lia. Qed.

Lemma low_semicolon : low [semicolon].
Proof. repeat constructor. Qed.

Lemma execute_margins ps top bottom s : numbers ps = [top; bottom] → execute ps (ch "r") s = set_margins top bottom s.
Proof. intros E. unfold execute. rewrite E. by destruct top. Qed.

Create HintDb csi.
#[local] Hint Resolve low_dec low_semicolon is_byte_nonneg Forall_app_2 Zle_0_nat : csi.
#[local] Hint Extern 1 (low (_ ++ _)) => apply Forall_app_2 : csi.
#[local] Hint Extern 1 (Forall _ (_ ++ _)) => apply Forall_app_2 : csi.
#[local] Hint Extern 1 (Forall _ (to_string _)) => apply low_dec : csi.
#[local] Hint Extern 1 (Forall _ [semicolon]) => apply low_semicolon : csi.
#[local] Hint Extern 1 (Forall _ (str _)) => apply low_str; reflexivity : csi.
#[local] Hint Extern 1 (low []) => apply Forall_nil_2 : csi.
#[local] Hint Extern 1 (low (str _)) => apply low_str; reflexivity : csi.
#[local] Hint Extern 1 (0 ≤ _)%Z => lia : csi.

(** A sequence with its parameters known: its effect is left to show. *)
Ltac csi_law := apply csi_does; [done|unfold dec, dec_byte; auto 9 with csi nocore|done| |done || auto using shaped_roll_up, shaped_roll_down, shaped_erase_line].

#[export] Instance emulator_law : terminal_law emulator.
Proof.
  split.
  - done.
  - intros a b t. apply foldl_app.
  - intros t y x Hg Hy Hx. csi_law. unfold execute, dec. rewrite numbers_cons, numbers_dec by lia. cbn -[Z.of_nat]. unfold place_cursor.
    cbn [shows emulator_terminal] in Hy, Hx. f_equal; lia.
  - intros t n Hg Hn Hr. csi_law. unfold execute, dec. rewrite numbers_dec by lia. cbn -[Z.of_nat Nat.sub]. by rewrite Nat2Z.id.
  - intros t n Hg Hn Hr. csi_law. unfold execute, dec. rewrite numbers_dec by lia. cbn -[Z.of_nat Nat.sub Nat.min]. by rewrite Nat2Z.id.
  - intros [s p] [Hp Hs]. cbn in Hp. subst p. done.
  - intros [s p] [Hp Hs]. cbn in Hp. subst p. done.
  - intros t top bottom Hg Hb. csi_law. unfold dec. rewrite (execute_margins _ (Z.of_nat (top + 1)) (Z.of_nat (bottom + 1))) by (rewrite numbers_cons, numbers_dec by lia; done). unfold set_margins.
    rewrite (proj2 (Z.ltb_lt _ _)), (proj2 (Z.ltb_lt _ _)), (proj2 (Z.leb_le _ _)) by lia. cbn [andb]. f_equal. unfold set_region. f_equal. f_equal; lia.
  - intros t Hg. csi_law. done.
  - intros t n Hg Hn Hr Hp. csi_law. unfold execute, dec. rewrite numbers_dec by lia. cbn -[Z.of_nat roll_up]. by rewrite Nat2Z.id.
  - intros t n Hg Hn Hr Hp. csi_law. unfold execute, dec. rewrite numbers_dec by lia. cbn -[Z.of_nat roll_down]. by rewrite Nat2Z.id.
  - intros t Hg Hp. csi_law. done.
  - intros t Hg. csi_law. done.
  - intros t Hg. csi_law. done.
  - intros t Hg. csi_law. done.
  - intros t i Hg Hi. csi_law. unfold execute, dec_byte. rewrite (numbers_two 38 5), numbers_dec by auto with csi. done.
  - intros t i Hg Hi. csi_law. unfold execute, dec_byte. rewrite (numbers_two 48 5), numbers_dec by auto with csi. done.
  - intros t r g b Hg Hr Hgr Hb. csi_law. unfold execute, dec_byte. rewrite (numbers_two 38 2), !numbers_cons, numbers_dec by auto with csi. done.
  - intros t r g b Hg Hr Hgr Hb. csi_law. unfold execute, dec_byte. rewrite (numbers_two 48 2), !numbers_cons, numbers_dec by auto with csi. done.
  - intros t e p Hg Hin. unfold attributes in Hin. repeat (apply elem_of_cons in Hin as [[= -> ->]|Hin]; [csi_law; reflexivity|]). by apply elem_of_nil in Hin.
  - intros t text n [Hp Hs] Hc Hso Hy Hx. destruct (feed_glyph text n t Hp Hc) as [Hn ->]. destruct (print_glyph_printed text n (e_screen t) Hn Hs Hso Hy Hx) as [H1 H2]. done.
Qed.
