(* ===== verification/Regional.v ===== *)
(** * A terminal split in two (src/src/nxtui/regional-tty.hpp)

    The partition of the terminal into a scrolling region and a fixed region at the bottom, the
    changes from one partition to another with the programs that carry them out, and the appender for the
    scrolling region. A program is built for a [backend]: bytes for the terminal, or a list of
    commands. Rows and heights are unsigned; the differences that the code takes are of
    numbers it has compared, but for [bottom_inclusive] of an empty region, which wraps. *)
From S2P Require Import Prelude Raster Ansi Emulator.

#[local] Set Default Proof Using "Type*".

Record vertical_region := MkRegion { top : nat; bottom_exclusive : nat }.

#[export] Instance vertical_region_eq_dec : EqDecision vertical_region.
Proof. solve_decision. Defined.

Definition from_terminal_height (height : nat) : vertical_region := MkRegion 0 height.
Definition region_empty (v : vertical_region) : bool := top v =? bottom_exclusive v.
Definition region_height (v : vertical_region) : nat := size_sub (bottom_exclusive v) (top v).
Definition region_contains (v : vertical_region) (row : nat) : bool := (top v <=? row) && (row <? bottom_exclusive v).
Definition bottom_inclusive (v : vertical_region) : nat := size_sub (bottom_exclusive v) 1.

(** A [scroll_region] is its rows; both margins are included. *)
Definition top_margin (v : vertical_region) : nat := top v.
Definition bottom_margin (v : vertical_region) : nat := bottom_inclusive v.

Inductive partition_kind := hidden_fixed_region | windowed_fixed_region | fullscreen_fixed_region.

Record screen_partition := MkPartition {
  terminal_rows : vertical_region;
  kind : partition_kind;
  scroll : option vertical_region;
  bottom_fixed : vertical_region;
}.

#[export] Instance partition_kind_eq_dec : EqDecision partition_kind.
Proof. solve_decision. Defined.

#[export] Instance screen_partition_eq_dec : EqDecision screen_partition.
Proof. solve_decision. Defined.

Definition for_bottom_fixed_height (terminal_height fixed_height : nat) : screen_partition :=
  let rows := from_terminal_height terminal_height in
  let fixed_height := Nat.min fixed_height terminal_height in
  if fixed_height =? 0 then MkPartition rows hidden_fixed_region None (MkRegion terminal_height terminal_height)
  else if fixed_height =? terminal_height then MkPartition rows fullscreen_fixed_region None rows
  else
    let fixed_top := terminal_height - fixed_height in
    MkPartition rows windowed_fixed_region (Some (MkRegion 0 fixed_top)) (MkRegion fixed_top terminal_height).

Definition windowed (p : screen_partition) : bool := bool_decide (kind p = windowed_fixed_region).
Definition hidden (p : screen_partition) : bool := bool_decide (kind p = hidden_fixed_region).
Definition fullscreen (p : screen_partition) : bool := bool_decide (kind p = fullscreen_fixed_region).

Definition chrome_start (p : screen_partition) : nat :=
  if windowed p then top (bottom_fixed p)
  else if fullscreen p then top (terminal_rows p)
  else bottom_exclusive (terminal_rows p).

Record repartition := MkRepartition {
  old : option screen_partition;
  next_partition : screen_partition;
  insertion_cursor : option nat;
  initial_attachment : bool;
}.

Definition repartition_initial (next : screen_partition) (cursor : option nat) : repartition := MkRepartition None next cursor true.
Definition repartition_from (old next : screen_partition) : repartition := MkRepartition (Some old) next None false.

(** [scroll->bottom_margin()] of a partition that has a scroll region. *)
Definition scroll_bottom (p : screen_partition) : nat := match scroll p with Some v => bottom_margin v | None => 0 end.

(** The rows of a [scroll_transfer]; it is active if there are any. *)
Definition reservation (c : repartition) : nat :=
  if negb (windowed (next_partition c)) then 0
  else if initial_attachment c then
    match insertion_cursor c with
    | Some cursor => let bottom := scroll_bottom (next_partition c) in if bottom <? cursor then cursor - bottom else 0
    | None => 0
    end
  else match old c with
       | Some o =>
           if windowed o then
             let old_bottom := scroll_bottom o in
             let new_bottom := scroll_bottom (next_partition c) in
             if new_bottom <? old_bottom then old_bottom - new_bottom else 0
           else region_height (bottom_fixed (next_partition c))
       | None => region_height (bottom_fixed (next_partition c))
       end.

Definition release (c : repartition) : nat :=
  if initial_attachment c then 0
  else match old c with
       | Some o =>
           if negb (windowed o) then 0
           else if hidden (next_partition c) then region_height (bottom_fixed o)
           else if negb (windowed (next_partition c)) then 0
           else
             let old_bottom := scroll_bottom o in
             let new_bottom := scroll_bottom (next_partition c) in
             if old_bottom <? new_bottom then new_bottom - old_bottom else 0
       | None => 0
       end.

(** [std::clamp]. *)
Definition clamp (x lo hi : nat) : nat := if x <? lo then lo else if hi <? x then hi else x.

Definition chrome_to_clear (c : repartition) : vertical_region :=
  let rows := terminal_rows (next_partition c) in
  if initial_attachment c then MkRegion (bottom_exclusive rows) (bottom_exclusive rows)
  else match old c with
       | Some o =>
           if hidden (next_partition c) then bottom_fixed o
           else MkRegion (clamp (Nat.min (chrome_start (next_partition c)) (chrome_start o)) (top rows) (bottom_exclusive rows)) (bottom_exclusive rows)
       | None => MkRegion (clamp (chrome_start (next_partition c)) (top rows) (bottom_exclusive rows)) (bottom_exclusive rows)
       end.

(** ** Backends *)

Class backend (P : Type) := {
  b_empty : P;
  b_append : P → P → P;
  b_save_cursor : P;
  b_restore_cursor : P;
  b_reset_graphics : P;
  b_set_scroll_region : vertical_region → P;
  b_reset_scroll_region : P;
  b_scroll_up : nat → P;
  b_scroll_down : nat → P;
  b_move_up : nat → P;
  b_move_down : nat → P;
  b_move_to_left : nat → P;
  b_clear_line : P;
  b_line_feed : P;
  b_text : bytes → P;
}.

Inductive command :=
| c_save_cursor
| c_restore_cursor
| c_reset_graphics
| c_set_scroll_region (v : vertical_region)
| c_reset_scroll_region
| c_scroll_up (amount : nat)
| c_scroll_down (amount : nat)
| c_move_up (amount : nat)
| c_move_down (amount : nat)
| c_move_to_left (row : nat)
| c_clear_line
| c_line_feed
| c_text (text : bytes).

Definition command_list_backend : backend (list command) := {|
  b_empty := [];
  b_append := app;
  b_save_cursor := [c_save_cursor];
  b_restore_cursor := [c_restore_cursor];
  b_reset_graphics := [c_reset_graphics];
  b_set_scroll_region := λ v, [c_set_scroll_region v];
  b_reset_scroll_region := [c_reset_scroll_region];
  b_scroll_up := λ n, [c_scroll_up n];
  b_scroll_down := λ n, [c_scroll_down n];
  b_move_up := λ n, [c_move_up n];
  b_move_down := λ n, [c_move_down n];
  b_move_to_left := λ row, [c_move_to_left row];
  b_clear_line := [c_clear_line];
  b_line_feed := [c_line_feed];
  b_text := λ s, [c_text s];
|}.

Definition ansi_string_backend (mode : Mode) : backend bytes := {|
  b_empty := [];
  b_append := app;
  b_save_cursor := save_cursor;
  b_restore_cursor := restore_cursor;
  b_reset_graphics := reset mode;
  b_set_scroll_region := λ v, set_scroll_region mode (top_margin v) (bottom_margin v);
  b_reset_scroll_region := reset_scroll_region mode;
  b_scroll_up := scroll_up mode;
  b_scroll_down := scroll_down mode;
  b_move_up := move_up mode;
  b_move_down := move_down mode;
  b_move_to_left := λ row, move_to mode row 0;
  b_clear_line := clear_line mode;
  b_line_feed := [10%Z];
  b_text := λ s, s;
|}.

Section programs.
Context {P : Type} {B : backend P}.

(** The steps that a [program_builder] was given, one after the other. *)
Definition program (steps : list P) : P := foldl b_append b_empty steps.

(** The rows from [row] on, [n] of them. *)
Definition clear_rows (row n : nat) : list P := concat ((λ r, [b_move_to_left r; b_clear_line]) <$> seq row n).

Definition emit_repartition (change : repartition) : P :=
  let r := reservation change in
  let clear := chrome_to_clear change in
  let rel := release change in
  program
    ([b_reset_graphics]
     ++ (if 0 <? r then [b_scroll_up r; b_move_up r] else [])
     ++ [b_save_cursor]
     ++ [match scroll (next_partition change) with Some v => b_set_scroll_region v | None => b_reset_scroll_region end]
     ++ [b_restore_cursor]
     ++ (if region_empty clear then [] else [b_save_cursor] ++ clear_rows (top clear) (bottom_exclusive clear - top clear) ++ [b_restore_cursor])
     ++ (if (0 <? rel) && hidden (next_partition change) then [b_scroll_down rel; b_move_down rel] else [])).

(** The lines of a block, as the loop of [append_block] finds them. *)
Fixpoint block_lines (line block : bytes) : list bytes :=
  match block with
  | [] => [line]
  | b :: block => if (b =? 10)%Z then line :: block_lines [] block else block_lines (line ++ [b]) block
  end.

Definition line_steps (line : bytes) : list P := if bool_decide (line = []) then [] else [b_text line].

(** The function [append_block]: a line feed after every line. *)
Definition append_block (block : bytes) : P :=
  if bool_decide (block = []) then program [] else
  program ([b_reset_graphics] ++ concat ((λ line, line_steps line ++ [b_line_feed]) <$> block_lines [] block)).

(** [scrollback_append_state::append_block]: line feeds between the lines, and before the first
    one if a block came before. *)
Fixpoint between_feeds (ls : list bytes) : list P :=
  match ls with
  | [] => []
  | [line] => line_steps line
  | line :: ls => line_steps line ++ [b_line_feed] ++ between_feeds ls
  end.

Definition append_scrollback (after_block : bool) (block : bytes) : P * bool :=
  if bool_decide (block = []) then (program [], after_block) else
  (program ([b_reset_graphics] ++ (if after_block then [b_line_feed] else []) ++ between_feeds (block_lines [] block)), true).

End programs.

(** ** What a program does to the terminal *)

Lemma program_concat mode (steps : list bytes) : @program _ (ansi_string_backend mode) steps = concat steps.
Proof.
  unfold program. cbn [b_append b_empty ansi_string_backend]. assert (∀ acc, foldl app acc steps = acc ++ concat steps) as E; [|apply (E [])].
  induction steps as [|a steps IH]; intros acc; cbn [foldl concat]; [by rewrite app_nil_r|]. by rewrite IH, app_assoc.
Qed.

(** Rows of the screen become blank. *)
Definition blank_rows (a n : nat) (s : screen) : screen := set_grid (take a (grid s) ++ replicate n (blank_line s) ++ drop (a + n) (grid s)) s.

Lemma set_grid_same s : set_grid (grid s) s = s.
Proof. by destruct s. Qed.

Lemma set_cursor_same s : set_cursor (cur_y s) (cur_x s) s = s.
Proof. by destruct s. Qed.

Lemma blank_rows_0 a s : blank_rows a 0 s = s.
Proof. unfold blank_rows. cbn [replicate app]. rewrite Nat.add_0_r, take_drop. apply set_grid_same. Qed.

Lemma roll_up_0 s : roll_up 0 s = s.
Proof. unfold roll_up. cbv zeta. rewrite Nat.min_0_l, take_0, drop_0, app_nil_r. cbn [replicate app]. rewrite take_drop, set_grid_same. by destruct s. Qed.

Lemma blank_rows_S a n s : a + S n ≤ lines s → blank_rows (S a) n (set_grid (<[a := blank_line s]> (grid s)) s) = blank_rows a (S n) s.
Proof.
  intros Hl. unfold blank_rows, lines in *. cbn [grid set_grid columns blank_line]. unfold set_grid. cbn [history columns cur_y cur_x pen saved region]. f_equal.
  change (blank_line (set_grid _ s)) with (blank_line s). rewrite (take_S_r _ _ (blank_line s)) by (rewrite list_lookup_insert_eq; [done|lia]). rewrite take_insert_ge, drop_insert_lt by lia. cbn [replicate]. rewrite <- app_assoc. cbn [app]. by replace (S a + n) with (a + S n) by lia.
Qed.

Section effects.
Context {T : Type} {I : terminal T} {Law : terminal_law T}.

Lemma does_clear_rows n : ∀ a (t : T), ground t → pen (shows t) = default_pen → 0 < columns (shows t) → a + n ≤ lines (shows t) →
  ∃ y x, does (concat (@clear_rows _ (ansi_string_backend enabled) a n)) (λ s, set_cursor y x (blank_rows a n s)) t.
Proof.
  induction n as [|n IH]; intros a t Hg Hp Hc Hl.
  - exists (cur_y (shows t)), (cur_x (shows t)). eapply does_ext; [|by apply does_nil]. cbn. by rewrite blank_rows_0, set_cursor_same.
  - pose proof (law_move_to t a 0 Hg ltac:(lia) Hc) as D1. pose proof (law_erase_line (feed (move_to enabled a 0) t) (proj1 D1) ltac:(rewrite (proj2 D1); done)) as D2. pose proof (does_app _ _ _ _ _ D1 D2) as D3.
    destruct (IH (S a) (feed (move_to enabled a 0 ++ clear_line enabled) t)) as (y & x & D4).
    + apply D3.
    + by rewrite (proj2 D3).
    + by rewrite (proj2 D3).
    + rewrite (proj2 D3). unfold lines. cbn [compose erase_line set_cursor set_grid grid]. rewrite length_insert. unfold lines in Hl. lia.
    + exists y, x. unfold clear_rows. cbn [seq fmap list_fmap concat b_move_to_left b_clear_line ansi_string_backend app]. rewrite app_assoc. eapply does_ext; [|exact (does_app _ _ _ _ _ D3 D4)].
      unfold compose. cbn [erase_line set_cursor cur_y]. rewrite <- (blank_rows_S a n) by done. done.
Qed.

(** The margins of a partition that a terminal accepts: there are two rows between them. *)
Definition margins_ok (height : nat) (p : screen_partition) : Prop :=
  (Z.of_nat height < 2 ^ 64)%Z ∧ match scroll p with Some v => top v = 0 ∧ 2 ≤ bottom_exclusive v ≤ height | None => True end.

Definition margins (height : nat) (p : screen_partition) : nat * nat := (0, match scroll p with Some v => bottom_exclusive v | None => height end).

Lemma does_margins p (t : T) : ground t → margins_ok (lines (shows t)) p →
  ∃ sv, does (save_cursor ++ (match scroll p with Some v => set_scroll_region enabled (top_margin v) (bottom_margin v) | None => reset_scroll_region enabled end) ++ restore_cursor) (λ s, set_saved sv (set_region (margins (lines s) p) s)) t.
Proof.
  intros Hg [Hh Hm]. set (s := shows t). exists (cur_y s, cur_x s, pen s). pose proof (law_save t Hg) as D1. set (t1 := feed save_cursor t) in *. pose proof (proj2 D1 : shows t1 = save (shows t)) as S1. set (m := match scroll p with Some _ => _ | None => _ end).
  assert (does m (λ s, set_cursor 0 0 (set_region (margins (lines s) p) s)) t1) as D2.
  { unfold m, margins. destruct (scroll p) as [v|].
    - destruct Hm as (Ht & Hb & Hl). unfold top_margin, bottom_margin, bottom_inclusive. rewrite size_sub_small by lia. rewrite Ht.
      assert (lines (shows t1) = lines (shows t)) as El by (by rewrite S1).
      eapply does_ext; [|apply (law_region t1 0 (bottom_exclusive v - 1) (proj1 D1)); lia]. cbv beta. replace (S (bottom_exclusive v - 1)) with (bottom_exclusive v) by lia. done.
    - apply law_no_region, D1. }
  pose proof (law_restore (feed m t1) (proj1 D2)) as D3. eapply does_ext; [|exact (does_app _ _ _ _ _ D1 (does_app _ _ _ _ _ D2 D3))]. unfold compose. fold s. by destruct s.
Qed.

Lemma does_clear a n (t : T) : ground t → pen (shows t) = default_pen → 0 < columns (shows t) → a + n ≤ lines (shows t) →
  ∃ sv, does (save_cursor ++ concat (@clear_rows _ (ansi_string_backend enabled) a n) ++ restore_cursor) (λ s, set_saved sv (blank_rows a n s)) t.
Proof.
  intros Hg Hp Hc Hl. set (s := shows t). exists (cur_y s, cur_x s, pen s). pose proof (law_save t Hg) as D1. set (t1 := feed save_cursor t) in *. pose proof (proj2 D1 : shows t1 = save (shows t)) as S1.
  destruct (does_clear_rows n a t1 (proj1 D1)) as (y & x & D2); [by rewrite S1..|]. pose proof (law_restore _ (proj1 D2)) as D3.
  eapply does_ext; [|exact (does_app _ _ _ _ _ D1 (does_app _ _ _ _ _ D2 D3))]. unfold compose. fold s. by destruct s.
Qed.

(** What a change does to the screen, but for the saved cursor. *)
Definition repartitioned (c : repartition) (s : screen) : screen :=
  let r := reservation c in
  let clear := chrome_to_clear c in
  let s := set_cursor (cur_y s - r) (cur_x s) (roll_up r (set_pen default_pen s)) in
  let s := blank_rows (top clear) (bottom_exclusive clear - top clear) (set_region (margins (lines s) (next_partition c)) s) in
  if (0 <? release c) && hidden (next_partition c) then (λ s, set_cursor (Nat.min (cur_y s + release c) (lines s - 1)) (cur_x s) s) (roll_down (release c) s) else s.

Lemma roll_up_lines n s : lines (roll_up n s) = lines s.
Proof. unfold lines, roll_up. cbn [grid set_history set_grid]. rewrite !length_app, length_drop, length_replicate, length_drop, length_take. lia. Qed.

Lemma does_reserve r (t : T) : ground t → (region (shows t)).1 = 0 → pen (shows t) = default_pen →
  does (if 0 <? r then scroll_up enabled r ++ move_up enabled r else []) (λ s, set_cursor (cur_y s - r) (cur_x s) (roll_up r s)) t.
Proof.
  intros Hg Hr Hp. unfold scroll_up, move_up. destruct (Nat.ltb_spec 0 r) as [Hlt|Hge].
  - pose proof (law_scroll_up t r Hg Hlt Hr Hp) as D1. pose proof (law_move_up _ r (proj1 D1) Hlt ltac:(by rewrite (proj2 D1))) as D2. exact (does_app _ _ _ _ _ D1 D2).
  - assert (r = 0) as -> by lia. eapply does_ext; [|by apply does_nil]. cbv beta. rewrite roll_up_0, Nat.sub_0_r. by rewrite set_cursor_same.
Qed.

Lemma does_release (b : bool) r (t : T) : ground t → (b = true → region (shows t) = (0, lines (shows t))) → pen (shows t) = default_pen →
  does (if (0 <? r) && b then scroll_down enabled r ++ move_down enabled r else [])
    (λ s, if (0 <? r) && b then (λ s, set_cursor (Nat.min (cur_y s + r) (lines s - 1)) (cur_x s) s) (roll_down r s) else s) t.
Proof.
  intros Hg Hr Hp. unfold scroll_down, move_down. destruct (Nat.ltb_spec 0 r) as [Hlt|Hge]; cbn [andb]; [|eapply does_ext; [|by apply does_nil]; done]. destruct b; [|eapply does_ext; [|by apply does_nil]; done]. specialize (Hr eq_refl).
  pose proof (law_scroll_down t r Hg Hlt ltac:(by rewrite Hr) Hp) as D1. set (u := shows t) in *. assert (lines (roll_down r u) = lines u) as El. { unfold lines, roll_down. cbn [grid set_grid]. rewrite !length_app, length_replicate, length_take, length_drop, !length_take. lia. }
  pose proof (law_move_down _ r (proj1 D1) Hlt ltac:(rewrite (proj2 D1); fold u; by rewrite El, <- Hr)) as D2. exact (does_app _ _ _ _ _ D1 D2).
Qed.

Lemma does_repartition c (t : T) : let s := shows t in ground t → (region s).1 = 0 → 0 < columns s → margins_ok (lines s) (next_partition c) → top (chrome_to_clear c) ≤ bottom_exclusive (chrome_to_clear c) ≤ lines s →
  (hidden (next_partition c) = true → scroll (next_partition c) = None) →
  ∃ sv, does (@emit_repartition _ (ansi_string_backend enabled) c) (λ s, set_saved sv (repartitioned c s)) t.
Proof.
  intros s Hg Hr Hc Hm Hcl Hh. unfold emit_repartition, repartitioned. set (r := reservation c). set (cl := chrome_to_clear c) in *. set (rel := release c). rewrite program_concat. cbn [b_reset_graphics b_scroll_up b_move_up b_scroll_down b_move_down b_save_cursor b_restore_cursor b_set_scroll_region b_reset_scroll_region ansi_string_backend].
  pose proof (law_reset t Hg) as D1. assert (shows (feed (reset enabled) t) = set_pen default_pen s) as S1 by apply D1.
  pose proof (does_reserve r _ (proj1 D1) ltac:(by rewrite S1) ltac:(by rewrite S1)) as D2. pose proof (does_app _ _ _ _ _ D1 D2) as D12. clear D2. set (p2 := reset enabled ++ _) in D12. assert (lines (shows (feed p2 t)) = lines s) as L2 by (rewrite (proj2 D12); apply (roll_up_lines r (set_pen default_pen s))).
  destruct (does_margins (next_partition c) _ (proj1 D12) ltac:(by rewrite L2)) as (sv1 & D3). pose proof (does_app _ _ _ _ _ D12 D3) as D123. clear D3. set (p3 := p2 ++ _) in D123.
  assert (lines (shows (feed p3 t)) = lines s) as L3 by (rewrite (proj2 D123); apply (roll_up_lines r (set_pen default_pen s))).
  assert (∃ sv, does (if region_empty cl then [] else save_cursor ++ concat (@clear_rows _ (ansi_string_backend enabled) (top cl) (bottom_exclusive cl - top cl)) ++ restore_cursor) (λ s, set_saved sv (blank_rows (top cl) (bottom_exclusive cl - top cl) s)) (feed p3 t)) as (sv2 & D4).
  { unfold region_empty. destruct (Nat.eqb_spec (top cl) (bottom_exclusive cl)) as [E|_].
    - exists (saved (shows (feed p3 t))). eapply does_ext; [|apply does_nil, D123]. rewrite E, Nat.sub_diag, blank_rows_0. by destruct (shows (feed p3 t)).
    - apply does_clear; [apply D123|by rewrite (proj2 D123)|by rewrite (proj2 D123)|lia]. }
  pose proof (does_app _ _ _ _ _ D123 D4) as D1234. clear D4. set (p4 := p3 ++ _) in D1234.
  assert (lines (shows (feed p4 t)) = lines s) as L4.
  { rewrite (proj2 D1234). unfold compose. unfold lines at 1. cbn [set_saved blank_rows set_grid set_region grid]. rewrite !length_app, length_replicate, length_take, length_drop. pose proof (roll_up_lines r (set_pen default_pen s)) as E. unfold lines in E at 1. cbn [set_cursor grid set_pen]. fold s. rewrite E. change (lines (set_pen default_pen s)) with (lines s). lia. }
  pose proof (does_release (hidden (next_partition c)) rel (feed p4 t) (proj1 D1234)) as D5. rewrite L4 in D5. specialize (D5 ltac:(intros E; rewrite (proj2 D1234); unfold compose, margins; cbn [set_saved blank_rows set_grid set_region region]; rewrite (Hh E); f_equal; exact (roll_up_lines r (set_pen default_pen s))) ltac:(by rewrite (proj2 D1234))).
  pose proof (does_app _ _ _ _ _ D1234 D5) as D. exists sv2. set (p5 := p4 ++ _) in D. replace (concat _) with p5.
  - eapply does_ext; [|exact D]. unfold compose. fold s. destruct ((0 <? rel) && hidden (next_partition c)); done.
  - unfold p5, p4, p3, p2. rewrite !concat_app. destruct (0 <? r), (scroll (next_partition c)), (region_empty cl), ((0 <? rel) && hidden (next_partition c)); cbn [concat]; rewrite ?concat_app; cbn [concat]; rewrite ?app_nil_r, <- ?app_assoc; reflexivity.
Qed.

End effects.

(** ** Changes of the fixed region's height *)

(** The lines above the fixed region after rows were reserved: those that scrolled off and those on the screen. *)
Lemma rolled_lines r bottom B s : region s = (0, B) → r + bottom ≤ B → B ≤ lines s →
  history (roll_up r s) ++ take bottom (grid (roll_up r s)) = history s ++ take (r + bottom) (grid s).
Proof.
  intros Hr Hb Hl. unfold roll_up. rewrite Hr. cbn [snd history grid set_history set_grid]. unfold lines in Hl. rewrite length_take, (Nat.min_l B), (Nat.min_l r) by lia.
  rewrite <- app_assoc. f_equal. rewrite take_app_le by (rewrite length_drop, length_take; lia). rewrite take_take_drop, take_take. f_equal. lia.
Qed.

Section heights.
Context (H : nat) (HH : (Z.of_nat H < 2 ^ 64)%Z).

Abbreviation part h := (for_bottom_fixed_height H h).

Lemma part_hidden : part 0 = MkPartition (MkRegion 0 H) hidden_fixed_region None (MkRegion H H).
Proof. done. Qed.

Lemma part_windowed h : 0 < h < H → part h = MkPartition (MkRegion 0 H) windowed_fixed_region (Some (MkRegion 0 (H - h))) (MkRegion (H - h) H).
Proof.
  intros Hh. unfold for_bottom_fixed_height. rewrite Nat.min_l by lia. rewrite (proj2 (Nat.eqb_neq h 0)), (proj2 (Nat.eqb_neq h H)) by lia. done.
Qed.

Ltac part_cases := rewrite ?part_hidden, ?part_windowed by lia; unfold windowed, hidden, fullscreen, region_height, bottom_margin, bottom_inclusive; cbn -[size_sub Nat.sub Nat.ltb]; rewrite ?size_sub_small by lia;
  repeat match goal with |- context [bool_decide (?a = ?b :> partition_kind)] => first [rewrite (bool_decide_true (a = b)) by done|rewrite (bool_decide_false (a = b)) by done] end; cbn [negb].

Lemma reservation_from a b : a < H → 0 < b < H → reservation (repartition_from (part a) (part b)) = b - a.
Proof.
  intros Ha Hb. unfold reservation, repartition_from, scroll_bottom. destruct (decide (a = 0)) as [->|]; part_cases; [lia|]. destruct (Nat.ltb_spec (H - b - 1) (H - a - 1)); lia.
Qed.

Lemma clear_from a b : a < H → 0 < b < H → chrome_to_clear (repartition_from (part a) (part b)) = MkRegion (Nat.min (H - b) (H - a)) H.
Proof.
  intros Ha Hb. unfold chrome_to_clear, repartition_from, chrome_start, windowed, fullscreen, hidden. destruct (decide (a = 0)) as [->|]; part_cases; f_equal; unfold clamp; rewrite ?Nat.sub_0_r; rewrite (proj2 (Nat.ltb_ge _ _)), (proj2 (Nat.ltb_ge _ _)) by lia; lia.
Qed.

Lemma hide_from a : 0 < a < H → let c := repartition_from (part a) (part 0) in reservation c = 0 ∧ chrome_to_clear c = MkRegion (H - a) H ∧ release c = a.
Proof. intros Ha c. unfold c, reservation, chrome_to_clear, release, repartition_from, windowed, hidden. part_cases. split_and!; [done|done|lia]. Qed.

Lemma initial_reservation b cursor : 0 < b < H → let c := repartition_initial (part b) (Some cursor) in reservation c = cursor - (H - b - 1) ∧ chrome_to_clear c = MkRegion H H ∧ release c = 0.
Proof.
  intros Hb c. unfold c, reservation, chrome_to_clear, release, repartition_initial, scroll_bottom, windowed. part_cases. split_and!; [|done|done]. destruct (Nat.ltb_spec (H - b - 1) cursor); lia.
Qed.

End heights.

(** The screen after a change to a window of [b] rows. *)
Lemma repartitioned_window H a b (s : screen) : (Z.of_nat H < 2 ^ 64)%Z → a < H → 0 < b < H → lines s = H → region s = (0, H - a) →
  let s' := repartitioned (repartition_from (for_bottom_fixed_height H a) (for_bottom_fixed_height H b)) s in
  history s' ++ take (H - b) (grid s') = history s ++ take (H - a) (grid s) ++ replicate (a - b) (blank_line s) ∧
  lines s' = H ∧ (∀ y, H - b ≤ y < H → grid s' !! y = Some (blank_line s)) ∧ columns s' = columns s ∧ region s' = (0, H - b) ∧ pen s' = default_pen ∧ cur_y s' = cur_y s - (b - a) ∧ cur_x s' = cur_x s.
Proof.
  intros HH Ha Hb Hl Hr. unfold repartitioned. rewrite reservation_from, clear_from by lia. cbn [top bottom_exclusive next_partition repartition_from]. rewrite (part_windowed H HH b Hb). unfold hidden. cbn [kind]. rewrite bool_decide_false, andb_false_r by done. cbv zeta.
  set (s0 := set_pen default_pen s). set (m := Nat.min (H - b) (H - a)). set (s1 := set_cursor _ _ (roll_up (b - a) s0)). unfold margins. cbn [scroll bottom_exclusive].
  assert (lines s1 = H) as L1 by (unfold s1, lines; cbn [set_cursor grid]; rewrite <- Hl; apply (roll_up_lines (b - a) s0)).
  assert (history s1 ++ take m (grid s1) = history s ++ take (H - a) (grid s)) as E1.
  { pose proof (rolled_lines (b - a) m (H - a) s0) as E. replace (b - a + m) with (H - a) in E by lia. apply E; [exact Hr|lia|change (lines s0) with (lines s); lia]. }
  unfold blank_rows. cbn [set_grid set_region grid history columns region pen cur_y cur_x]. change (blank_line (set_region _ s1)) with (blank_line s). unfold lines in L1.
  assert (length (take m (grid s1)) = m) as Lm by (rewrite length_take; lia).
  assert (drop (m + (H - m)) (grid s1) = []) as -> by (apply drop_ge; lia). rewrite app_nil_r. split_and!; try done.
  - rewrite take_app_ge by lia. rewrite Lm, app_assoc, E1, <- app_assoc. do 2 f_equal. rewrite take_replicate. f_equal. lia.
  - unfold lines. cbn [set_grid grid]. rewrite length_app, Lm, length_replicate. lia.
  - intros y Hy. rewrite lookup_app_r by lia. rewrite Lm. apply lookup_replicate_2. lia.
Qed.

(** The screen after the window of [a] rows was hidden. *)
Lemma repartitioned_hide H a (s : screen) : (Z.of_nat H < 2 ^ 64)%Z → 0 < a < H → lines s = H →
  let s' := repartitioned (repartition_from (for_bottom_fixed_height H a) (for_bottom_fixed_height H 0)) s in
  history s' = history s ∧ grid s' = replicate a (blank_line s) ++ take (H - a) (grid s) ∧ columns s' = columns s ∧ region s' = (0, H) ∧ pen s' = default_pen ∧ cur_y s' = Nat.min (cur_y s + a) (H - 1) ∧ cur_x s' = cur_x s.
Proof.
  intros HH Ha Hl. unfold repartitioned. destruct (hide_from H HH a Ha) as (-> & -> & ->). cbn [top bottom_exclusive next_partition repartition_from]. rewrite (part_hidden H HH). unfold hidden. cbn [kind]. rewrite bool_decide_true by done. rewrite (proj2 (Nat.ltb_lt 0 a)) by lia. cbn [andb]. cbv zeta beta.
  rewrite roll_up_0, Nat.sub_0_r. set (s0 := set_cursor (cur_y s) (cur_x s) (set_pen default_pen s)). unfold margins. cbn [scroll]. change (lines s0) with (lines s). rewrite Hl. replace (H - (H - a)) with a by lia. set (s1 := blank_rows (H - a) a _).
  assert (grid s1 = take (H - a) (grid s) ++ replicate a (blank_line s)) as E1. { unfold s1, blank_rows. cbn [set_grid grid set_region s0 set_cursor set_pen]. unfold lines in Hl. rewrite (drop_ge (grid s)) by lia. by rewrite app_nil_r. }
  assert (length (grid s1) = H) as L1. { unfold lines in Hl. rewrite E1, length_app, length_replicate, length_take. lia. }
  assert (grid (roll_down a s1) = replicate a (blank_line s) ++ take (H - a) (grid s)) as E2.
  { unfold roll_down. cbn [set_grid grid]. change (region s1) with (0, H). cbn [snd]. rewrite (take_ge (grid s1)), (drop_ge (grid s1)), app_nil_r by lia. rewrite L1, (Nat.min_l a) by lia. f_equal. rewrite E1, take_app_le by (unfold lines in Hl; rewrite length_take; lia). rewrite take_take. f_equal. lia. }
  split_and!; try done. unfold lines. cbn [set_cursor grid cur_y]. rewrite E2, length_app, length_replicate, length_take. unfold lines in Hl. rewrite Hl. change (cur_y (roll_down a s1)) with (cur_y s). lia.
Qed.

(** The screen after a window of [b] rows was attached below the cursor. *)
Lemma repartitioned_initial H b (s : screen) : (Z.of_nat H < 2 ^ 64)%Z → 0 < b < H → lines s = H → region s = (0, H) → cur_y s < H →
  let s' := repartitioned (repartition_initial (for_bottom_fixed_height H b) (Some (cur_y s))) s in let r := cur_y s - (H - b - 1) in
  history s' ++ take (H - b) (grid s') = history s ++ take (r + (H - b)) (grid s) ∧ lines s' = H ∧ columns s' = columns s ∧ region s' = (0, H - b) ∧ pen s' = default_pen ∧ cur_y s' = cur_y s - r ∧ cur_x s' = cur_x s.
Proof.
  intros HH Hb Hl Hr Hy. unfold repartitioned. destruct (initial_reservation H HH b (cur_y s) Hb) as (-> & -> & ->). set (r := cur_y s - (H - b - 1)). cbn [top bottom_exclusive next_partition repartition_initial andb Nat.ltb Nat.leb]. rewrite (part_windowed H HH b Hb). cbv zeta.
  rewrite Nat.sub_diag, blank_rows_0. unfold margins. cbn [scroll bottom_exclusive]. set (s0 := set_pen default_pen s). split_and!; try done.
  - apply (rolled_lines r (H - b) H s0); [exact Hr|unfold r; lia|]. change (lines s0) with (lines s). lia.
  - rewrite <- Hl. apply (roll_up_lines r s0).
Qed.

(** The full screen reserves nothing and clears every row. *)
Lemma full_from H a b : (Z.of_nat H < 2 ^ 64)%Z → a < H ≤ b → let c := repartition_from (for_bottom_fixed_height H a) (for_bottom_fixed_height H b) in
  for_bottom_fixed_height H b = MkPartition (MkRegion 0 H) fullscreen_fixed_region None (MkRegion 0 H) ∧ reservation c = 0 ∧ chrome_to_clear c = MkRegion 0 H ∧ release c = 0.
Proof.
  intros HH Hab c. assert (for_bottom_fixed_height H b = MkPartition (MkRegion 0 H) fullscreen_fixed_region None (MkRegion 0 H)) as E.
  { unfold for_bottom_fixed_height. rewrite Nat.min_r, (proj2 (Nat.eqb_neq _ _)), Nat.eqb_refl by lia. done. }
  split; [done|]. unfold c, reservation, chrome_to_clear, release, chrome_start, repartition_from, windowed, hidden, fullscreen. rewrite E. cbn [next_partition old kind initial_attachment terminal_rows top bottom_exclusive negb].
  rewrite !(bool_decide_false (fullscreen_fixed_region = _)), (bool_decide_true (fullscreen_fixed_region = _)) by done. cbn [negb]. split; [done|]. split; [|by destruct (negb _)].
  by f_equal.
Qed.

Lemma repartitioned_full H a b (s : screen) : (Z.of_nat H < 2 ^ 64)%Z → a < H ≤ b → lines s = H →
  let s' := repartitioned (repartition_from (for_bottom_fixed_height H a) (for_bottom_fixed_height H b)) s in
  history s' = history s ∧ grid s' = replicate H (blank_line s) ∧ region s' = (0, H) ∧ cur_y s' = cur_y s ∧ cur_x s' = cur_x s.
Proof.
  intros HH Hab Hl. destruct (full_from H a b HH Hab) as (E & E1 & E2 & E3). unfold repartitioned. rewrite E1, E2, E3. cbn [top bottom_exclusive next_partition repartition_from Nat.ltb Nat.leb andb]. rewrite E. cbv zeta.
  rewrite roll_up_0, Nat.sub_0_r. unfold margins, blank_rows. cbn [scroll set_grid set_region set_cursor set_pen grid history region cur_y cur_x]. change (lines (set_cursor _ _ (set_pen default_pen s))) with (lines s). rewrite Hl, Nat.sub_0_r.
  split_and!; try done. rewrite drop_ge, app_nil_r by (unfold lines in Hl; lia). done.
Qed.

(** ** The properties *)

(** C17: What a change of the HUD's height does to the lines above it. On a terminal of [H] rows
    whose margins are those of a HUD of [a < H] rows:
    the program for a HUD of [b] rows, two rows or more above it ([0 < b], [b + 2 ≤ H]), overwrites
    no line above the HUD: the lines that left the screen at the top, in order, followed by the lines above
    the new HUD are those before the change, followed by blank lines where the HUD shrank; the rows
    of the HUD are blank, and the cursor moves up with its line.
    Hiding the HUD moves the lines above it down to the bottom of the screen.
    Attaching the first HUD, again with [b + 2 ≤ H], overwrites no line down to the cursor's.
    Growing to the full screen ([H ≤ b]) is the exception: nothing is scrolled up first, and
    every line on the screen is overwritten with a blank one. *)
Theorem hud_keeps_lines {T : Type} {I : terminal T} (Law : terminal_law T) H a b (t : T) : let s := shows t in
  (Z.of_nat H < 2 ^ 64)%Z → a < H → ground t → lines s = H → 0 < columns s → region s = (0, H - a) → cur_y s < H →
  let after c := feed (@emit_repartition _ (ansi_string_backend enabled) c) t in let part h := for_bottom_fixed_height H h in
  (0 < b → b + 2 ≤ H → let t' := after (repartition_from (part a) (part b)) in let s' := shows t' in
     ground t' ∧ history s' ++ take (H - b) (grid s') = history s ++ take (H - a) (grid s) ++ replicate (a - b) (blank_line s) ∧
     (∀ y, H - b ≤ y < H → grid s' !! y = Some (blank_line s)) ∧ lines s' = H ∧ region s' = (0, H - b) ∧ cur_y s' = cur_y s - (b - a) ∧ cur_x s' = cur_x s) ∧
  (0 < a → let t' := after (repartition_from (part a) (part 0)) in let s' := shows t' in
     ground t' ∧ history s' = history s ∧ grid s' = replicate a (blank_line s) ++ take (H - a) (grid s) ∧ region s' = (0, H) ∧ cur_y s' = Nat.min (cur_y s + a) (H - 1) ∧ cur_x s' = cur_x s) ∧
  (a = 0 → 0 < b → b + 2 ≤ H → let t' := after (repartition_initial (part b) (Some (cur_y s))) in let s' := shows t' in let r := cur_y s - (H - b - 1) in
     ground t' ∧ history s' ++ take (H - b) (grid s') = history s ++ take (r + (H - b)) (grid s) ∧ lines s' = H ∧ region s' = (0, H - b) ∧ cur_y s' = cur_y s - r ∧ cur_y s' < H - b ∧ cur_x s' = cur_x s) ∧
  (H ≤ b → let t' := after (repartition_from (part a) (part b)) in let s' := shows t' in
     ground t' ∧ history s' = history s ∧ grid s' = replicate H (blank_line s) ∧ region s' = (0, H) ∧ cur_y s' = cur_y s ∧ cur_x s' = cur_x s).
Proof.
  intros s HH Ha Hg Hl Hc Hr Hy. cbv zeta.
  assert (∀ c, margins_ok H (next_partition c) → top (chrome_to_clear c) ≤ bottom_exclusive (chrome_to_clear c) ≤ H → (hidden (next_partition c) = true → scroll (next_partition c) = None) →
    ∃ sv, does (@emit_repartition _ (ansi_string_backend enabled) c) (λ s, set_saved sv (repartitioned c s)) t) as Does.
  { intros c. rewrite <- Hl. intros Hm Hcl Hh. apply does_repartition; try done. fold s. by rewrite Hr. }
  split_and!.
  - intros Hb0 Hb. destruct (Does (repartition_from (for_bottom_fixed_height H a) (for_bottom_fixed_height H b))) as (sv & G & S).
    + cbn [next_partition repartition_from]. rewrite part_windowed by lia. split; [done|]. cbn. lia.
    + rewrite clear_from by lia. cbn. lia.
    + cbn [next_partition repartition_from]. rewrite part_windowed by lia. done.
    + rewrite S. destruct (repartitioned_window H a b s HH Ha ltac:(lia) Hl Hr) as (H1 & H2 & H3 & H4 & H5 & H6 & H7 & H8). split_and!; done.
  - intros Ha0. destruct (Does (repartition_from (for_bottom_fixed_height H a) (for_bottom_fixed_height H 0))) as (sv & G & S).
    + done.
    + destruct (hide_from H HH a ltac:(lia)) as (_ & -> & _). cbn. lia.
    + done.
    + rewrite S. destruct (repartitioned_hide H a s HH ltac:(lia) Hl) as (H1 & H2 & H3 & H4 & H5 & H6 & H7). split_and!; done.
  - intros -> Hb0 Hb. rewrite Nat.sub_0_r in Hr. destruct (Does (repartition_initial (for_bottom_fixed_height H b) (Some (cur_y s)))) as (sv & G & S).
    + cbn [next_partition repartition_initial]. rewrite part_windowed by lia. split; [done|]. cbn. lia.
    + destruct (initial_reservation H HH b (cur_y s) ltac:(lia)) as (_ & -> & _). cbn. lia.
    + cbn [next_partition repartition_initial]. rewrite part_windowed by lia. done.
    + rewrite S. destruct (repartitioned_initial H b s HH ltac:(lia) Hl Hr Hy) as (H1 & H2 & H3 & H4 & H5 & H6 & H7). split_and!; try done. change (cur_y (repartitioned (repartition_initial (for_bottom_fixed_height H b) (Some (cur_y s))) s) < H - b). rewrite H6. lia.
  - intros Hb. destruct (full_from H a b HH ltac:(lia)) as (E & _ & E2 & _). destruct (Does (repartition_from (for_bottom_fixed_height H a) (for_bottom_fixed_height H b))) as (sv & G & S).
    + cbn [next_partition repartition_from]. rewrite E. done.
    + rewrite E2. cbn. lia.
    + cbn [next_partition repartition_from]. rewrite E. done.
    + rewrite S. destruct (repartitioned_full H a b s HH ltac:(lia) Hl) as (H1 & H2 & H3 & H4 & H5). split_and!; done.
Qed.

Lemma hud_keeps_lines_witness : let t := feed (set_scroll_region enabled 0 3 ++ str "ab" ++ move_to enabled 2 0 ++ str "c") (fresh_terminal 4 5) in
  let t' := feed (@emit_repartition _ (ansi_string_backend enabled) (repartition_from (for_bottom_fixed_height 5 1) (for_bottom_fixed_height 5 2))) t in
  history (shows t') ++ take 3 (grid (shows t')) = take 4 (grid (shows t)) ∧ length (history (shows t')) = 1 ∧ cur_y (shows t) = 2 ∧ cur_y (shows t') = 1.
Proof.
  intros t t'. destruct (hud_keeps_lines emulator_law 5 1 2 t) as [H _]; [lia|lia| |vm_compute; reflexivity|vm_compute; lia|vm_compute; reflexivity|vm_compute; lia|].
  - split; [vm_compute; reflexivity|]. vm_compute. repeat (apply Forall_cons; split; [reflexivity|]). apply Forall_nil_2.
  - destruct (H ltac:(lia) ltac:(lia)) as (_ & E & _ & _ & _ & Ey & _). split; [|split; [vm_compute; reflexivity|split; [vm_compute; reflexivity|transitivity (cur_y (shows t) - (2 - 1)); [exact Ey|vm_compute; reflexivity]]]]. transitivity (history (shows t) ++ take (5 - 1) (grid (shows t)) ++ replicate (1 - 2) (blank_line (shows t))); [exact E|vm_compute; reflexivity].
Defined.

(** A HUD that leaves one row asks for margins with one row between them, which terminals
    ignore: the whole screen still scrolls. *)
Example one_row_does_not_scroll : let t := fresh_terminal 2 3 in
  let change := repartition_from (for_bottom_fixed_height 3 0) (for_bottom_fixed_height 3 2) in
  scroll (next_partition change) = Some (MkRegion 0 1) ∧ region (shows (feed (@emit_repartition _ (ansi_string_backend enabled) change) t)) = (0, 3).
Proof. vm_compute. done. Qed.
