(* ===== verification/Compositor.v ===== *)
(** * The compositor (src/src/nxtui/raster-diff.hpp, compositor.hpp, compositor.cpp)

    The difference of two rasters as runs of changed cells with the style changes before them, and
    [TerminalCompositor], which writes each frame as that difference. An operation
    returns what it writes. The mutex that serializes writers of the standard output is left out. *)
From S2P Require Import Prelude Raster Ansi Emulator Regional.

#[local] Set Default Proof Using "Type*".

#[export] Instance Cell_eq_dec : EqDecision Cell.
Proof. solve_decision. Defined.

(** ** The difference of two rasters *)

(** An [IndexedCell] is a cell with its column; equality is that of the cells. *)
Definition indexed : Type := nat * Cell.

Definition row (r : Raster) (y : nat) : list indexed := zip (seq 0 (width_ r)) (row_cells r y).

Definition zip_row (front back : Raster) (y : nat) : list (indexed * indexed) := zip (row front y) (row back y).

Definition is_changed (pair : indexed * indexed) : bool := negb (bool_decide (pair.1.2 = pair.2.2)).

Definition same_run (a b : indexed * indexed) : bool :=
  Bool.eqb (is_changed a) (is_changed b) && (c_fg a.2.2 =? c_fg b.2.2)%Z && (c_bg a.2.2 =? c_bg b.2.2)%Z && (c_em a.2.2 =? c_em b.2.2)%Z.

(** [std::views::chunk_by]: cut between neighbours that the predicate does not hold of. *)
Fixpoint chunk_by {A} (p : A → A → bool) (l : list A) : list (list A) :=
  match l with
  | [] => []
  | a :: l =>
      match chunk_by p l with
      | (b :: c) :: cs => if p a b then (a :: b :: c) :: cs else [a] :: (b :: c) :: cs
      | cs => [a] :: cs
      end
  end.

Record RawChange := MkRaw { rc_x : nat; rc_y : nat; rc_glyphs : list Z; rc_fg : Z; rc_bg : Z; rc_em : Z }.

Definition glyph_span (r : Raster) (y x len : nat) : list Z := take len (drop (y * width_ r + x) (glyphs_storage_ r)).

(** The change that a chunk makes, [None] for one that has not changed. *)
Definition chunk_change (y : nat) (back : Raster) (chunk : list (indexed * indexed)) : option RawChange :=
  match chunk with
  | first :: _ =>
      if is_changed first then
        let '(col, c) := first.2 in
        Some (MkRaw col y (glyph_span back y col (length chunk)) (c_fg c) (c_bg c) (c_em c))
      else None
  | [] => None
  end.

Definition row_changes (y : nat) (cells : list (indexed * indexed)) (back : Raster) : list RawChange :=
  omap (chunk_change y back) (chunk_by same_run cells).

Definition raw_changes (front back : Raster) : list RawChange :=
  concat ((λ y, row_changes y (zip_row front back y) back) <$> seq 0 (height_ back)).

Record ChangeRun := MkRun {
  cr_x : nat; cr_y : nat; cr_glyphs : list Z;
  fg_change : option Z; bg_change : option Z; em_change : option Z;
  fg_reset : bool; bg_reset : bool; em_reset : bool;
}.

Record StyleState := MkStyleState { ss_fg : option Z; ss_bg : option Z; ss_em : option Z }.

(** The part of [StyleState::operator()] for one color: the reset flag, the change and the new state. *)
Definition color_step (current : option Z) (next : Z) : bool * option Z * option Z :=
  if is_terminal_default next && bool_decide (is_Some current) then (true, None, None)
  else if negb (is_terminal_default next) && negb (bool_decide (Some next = current)) then (false, Some next, Some next)
  else (false, None, current).

Definition em_dropped (current : option Z) (next : Z) : bool :=
  match current with Some e => negb (em_and e next =? e)%Z | None => false end.

Definition style_step (raw : RawChange) (st : StyleState) : ChangeRun * StyleState :=
  let '(fr, fc, fg) := color_step (ss_fg st) (rc_fg raw) in
  let '(br, bc, bg) := color_step (ss_bg st) (rc_bg raw) in
  let er := em_dropped (ss_em st) (rc_em raw) in
  let ec := if negb (rc_em raw =? em_none)%Z && negb (bool_decide (Some (rc_em raw) = ss_em st)) then Some (rc_em raw) else None in
  let em := if (rc_em raw =? em_none)%Z then None else Some (rc_em raw) in
  (MkRun (rc_x raw) (rc_y raw) (rc_glyphs raw) fc bc ec fr br er, MkStyleState fg bg em).

(** The runs that [diff_rasters] emits. *)
Fixpoint style_runs (raws : list RawChange) (st : StyleState) : list ChangeRun :=
  match raws with
  | [] => []
  | raw :: raws => let '(run, st) := style_step raw st in run :: style_runs raws st
  end.

Definition diff_rasters (front back : Raster) : list ChangeRun := style_runs (raw_changes front back) (MkStyleState None None None).

(** ** Writing a frame *)

Section frame.
Context (mode : Mode).

(** The control characters that [write_terminal_text] refuses. *)
Definition is_control (b : Z) : bool := ((9 <=? b) && (b <=? 13) || (b =? 27))%Z.

Definition write_terminal_text (text : bytes) : result string bytes :=
  if existsb is_control text then Throw "terminal raster contains control character glyph"%string else Ret text.

(** The lambdas [emit_fg] and [emit_bg] of [present_frame]. *)
Definition frame_fg (c : Z) : bytes := if is_palette c then fg_palette mode (palette_index c) else fg_rgb mode (red_of c) (green_of c) (blue_of c).
Definition frame_bg (c : Z) : bytes := if is_palette c then bg_palette mode (palette_index c) else bg_rgb mode (red_of c) (green_of c) (blue_of c).

Definition write_opt (f : Z → bytes) (c : option Z) : bytes := match c with Some c => f c | None => [] end.

(** What is written before the text of a run, with the colors that are current before it. *)
Definition run_style (current_fg current_bg : option Z) (run : ChangeRun) : bytes :=
  (if em_reset run then reset mode ++ write_opt frame_fg current_fg ++ write_opt frame_bg current_bg else [])
  ++ (if bg_reset run then bg_default mode else write_opt frame_bg (bg_change run))
  ++ (if fg_reset run then fg_default mode else write_opt frame_fg (fg_change run))
  ++ write_opt (style mode) (em_change run).

(** The current color after the run. *)
Definition run_color (current : option Z) (was_reset : bool) (change : option Z) : option Z :=
  if was_reset then None else match change with Some c => Some c | None => current end.

Fixpoint run_text (g : GlyphTable) (glyphs : list Z) : result string bytes :=
  match glyphs with
  | [] => Ret []
  | gid :: glyphs =>
      let! a := match get gid g with Some text => write_terminal_text text | None => Ret [] end in
      let! b := run_text g glyphs in
      Ret (a ++ b)
  end.

Fixpoint write_runs (g : GlyphTable) (row_offset : nat) (current_fg current_bg : option Z) (runs : list ChangeRun) : result string bytes :=
  match runs with
  | [] => Ret []
  | run :: runs =>
      let! text := run_text g (cr_glyphs run) in
      let! rest := write_runs g row_offset (run_color current_fg (fg_reset run) (fg_change run)) (run_color current_bg (bg_reset run) (bg_change run)) runs in
      Ret (move_to mode (cr_y run + row_offset) (cr_x run) ++ run_style current_fg current_bg run ++ text ++ rest)
  end.

Record TerminalCompositor := MkCompositor {
  front_ : Raster;
  back_ : Raster;
  partition_ : screen_partition;
  geometry_initialized_ : bool;
}.

Definition partition_for (hud_height term_height : nat) : screen_partition := for_bottom_fixed_height term_height hud_height.

Definition raster_height_for (p : screen_partition) : nat :=
  if hidden p then 0 else if windowed p then region_height (bottom_fixed p) else region_height (terminal_rows p).

Definition new_compositor (w h : nat) : TerminalCompositor :=
  MkCompositor (new_raster w h) (new_raster w h) (partition_for h h) false.

(** What is written; nothing if a glyph is refused, and then both buffers are as they were. *)
Definition present_frame (g : GlyphTable) (c : TerminalCompositor) : result string bytes * TerminalCompositor :=
  match write_runs g (chrome_start (partition_ c)) None None (diff_rasters (front_ c) (back_ c)) with
  | Throw e => (Throw e, c)
  | Ret runs => (Ret (save_cursor ++ runs ++ restore_cursor), MkCompositor (back_ c) (back_ c) (partition_ c) (geometry_initialized_ c))
  end.

Definition hud_height (c : TerminalCompositor) : nat := region_height (bottom_fixed (partition_ c)).

(** The rows that [resize] clears in windowed mode. *)
Definition resize_rows (v : vertical_region) : bytes := concat ((λ r, move_to mode r 0 ++ clear_line mode) <$> seq (top v) (bottom_exclusive v - top v)).

Definition resize (w h : nat) (c : TerminalCompositor) : bytes * TerminalCompositor :=
  let hud := if fullscreen (partition_ c) then h else hud_height c in
  let p := partition_for hud h in
  let raster_h := raster_height_for p in
  let c' := MkCompositor (new_raster w raster_h) (new_raster w raster_h) p (geometry_initialized_ c) in
  if negb (geometry_initialized_ c) then ([], c') else
  (save_cursor
     ++ match scroll p with Some v => set_scroll_region mode (top_margin v) (bottom_margin v) | None => reset_scroll_region mode end
     ++ (if windowed p then resize_rows (bottom_fixed p) else if fullscreen p then clear_screen mode else [])
     ++ restore_cursor, c').

Definition set_hud_height (hud term_height : nat) (cursor : option nat) (c : TerminalCompositor) : bytes * TerminalCompositor :=
  let next := partition_for hud term_height in
  let w := width_ (front_ c) in
  if bool_decide (next = partition_ c) then ([], c)
  else if negb (geometry_initialized_ c) && hidden next then ([], MkCompositor (new_raster w 0) (new_raster w 0) next (geometry_initialized_ c))
  else
    let change := if geometry_initialized_ c then repartition_from (partition_ c) next else repartition_initial next cursor in
    let raster_h := raster_height_for next in
    (@emit_repartition _ (ansi_string_backend mode) change, MkCompositor (new_raster w raster_h) (new_raster w raster_h) next true).

(** Zero-based, and -1 without a scroll region. *)
Definition scrollback_bottom_row (c : TerminalCompositor) : Z :=
  match scroll (partition_ c) with Some v => Z.of_nat (bottom_margin v) | None => -1 end.

End frame.

(** ** What the terminal shows of a cell *)

Definition shown_color (c : Z) : tcolor :=
  if is_terminal_default c then TDefault else if is_palette c then TPalette (palette_index c) else TRgb (red_of c) (green_of c) (blue_of c).

Definition shown_opt (c : option Z) : tcolor := match c with Some c => shown_color c | None => TDefault end.

Definition cell_pen (c : Cell) : pen_t := MkPen (shown_color (c_fg c)) (shown_color (c_bg c)) (c_em c).

(** The colors that a cell may have: the default, a palette index or a true color. *)
Definition color_ok (c : Z) : bool := is_terminal_default c || is_palette c || is_true_color c.

Lemma land_byte a : is_byte (Z.land a 0xff).
Proof. unfold is_byte. change 0xff%Z with (Z.ones 8). rewrite Z.land_ones by lia. apply Z.mod_pos_bound. lia. Qed.

Section showing.
Context {T : Type} {I : terminal T} {Law : terminal_law T}.

Lemma does_fg c (t : T) : ground t → is_terminal_default c = false → does (frame_fg enabled c) (pen_fg (shown_color c)) t.
Proof.
  intros Hg Hc. unfold frame_fg, shown_color. rewrite Hc. destruct (is_palette c); [apply law_fg_palette; [done|apply land_byte]|]. apply law_fg_rgb; [done|apply land_byte..].
Qed.

Lemma does_bg c (t : T) : ground t → is_terminal_default c = false → does (frame_bg enabled c) (pen_bg (shown_color c)) t.
Proof.
  intros Hg Hc. unfold frame_bg, shown_color. rewrite Hc. destruct (is_palette c); [apply law_bg_palette; [done|apply land_byte]|]. apply law_bg_rgb; [done|apply land_byte..].
Qed.

(** A color that is tracked is not the default. *)
Definition tracked (c : option Z) : Prop := match c with Some c => is_terminal_default c = false | None => True end.

Lemma does_opt_fg c (t : T) : ground t → tracked c → p_fg (pen (shows t)) = TDefault → does (write_opt (frame_fg enabled) c) (pen_fg (shown_opt c)) t.
Proof.
  intros Hg Hc Hp. destruct c as [c|]; [by apply does_fg|]. cbn. apply (does_ext _ id); [|by apply does_nil]. unfold pen_fg, set_pen. destruct (shows t) as [? ? ? ? ? [? ? ?] ? ?]. cbn in *. by rewrite Hp.
Qed.

Lemma does_opt_bg c (t : T) : ground t → tracked c → p_bg (pen (shows t)) = TDefault → does (write_opt (frame_bg enabled) c) (pen_bg (shown_opt c)) t.
Proof.
  intros Hg Hc Hp. destruct c as [c|]; [by apply does_bg|]. cbn. apply (does_ext _ id); [|by apply does_nil]. unfold pen_bg, set_pen. destruct (shows t) as [? ? ? ? ? [? ? ?] ? ?]. cbn in *. by rewrite Hp.
Qed.

(** The pen that a style state stands for. *)
Definition state_pen (st : StyleState) : pen_t := MkPen (shown_opt (ss_fg st)) (shown_opt (ss_bg st)) (default 0%Z (ss_em st)).

Definition state_ok (st : StyleState) : Prop := tracked (ss_fg st) ∧ tracked (ss_bg st) ∧ is_byte (default 0%Z (ss_em st)).

Lemma color_step_spec current next reset change now : tracked current → color_step current next = (reset, change, now) →
  shown_opt now = shown_color next ∧ tracked now ∧ run_color current reset change = now ∧ tracked change ∧
  (reset = true → now = None) ∧ (reset = false → now = match change with Some c => Some c | None => current end).
Proof.
  intros Ht. unfold color_step, shown_color, run_color. destruct (is_terminal_default next) eqn:E; cbn [andb negb].
  - destruct current as [c|]; [rewrite bool_decide_true by done|rewrite bool_decide_false by (intros [? ?]; done)]; intros [= <- <- <-]; cbn; by rewrite ?E.
  - case_bool_decide as Ec; intros [= <- <- <-]; [subst current|]; cbn; unfold shown_color; rewrite ?E; done.
Qed.

(** The escape sequences before a run take the pen from the state before it to its style. *)
Lemma run_style_spec raw st run st' (t : T) : ground t → state_ok st → is_byte (rc_em raw) → pen (shows t) = state_pen st → style_step raw st = (run, st') →
  does (run_style enabled (ss_fg st) (ss_bg st) run) (set_pen (state_pen st')) t ∧ state_ok st' ∧ state_pen st' = MkPen (shown_color (rc_fg raw)) (shown_color (rc_bg raw)) (rc_em raw) ∧
  ss_fg st' = run_color (ss_fg st) (fg_reset run) (fg_change run) ∧ ss_bg st' = run_color (ss_bg st) (bg_reset run) (bg_change run) ∧ cr_x run = rc_x raw ∧ cr_y run = rc_y raw ∧ cr_glyphs run = rc_glyphs raw.
Proof.
  intros Hg (Hf & Hb & He) Hre Hpen. unfold style_step. destruct (color_step (ss_fg st) (rc_fg raw)) as [[fr fc] fg] eqn:Ef. destruct (color_step (ss_bg st) (rc_bg raw)) as [[br bc] bg] eqn:Eb. intros [= <- <-].
  destruct (color_step_spec _ _ _ _ _ Hf Ef) as (Sf & Tf & Rf & Cf & Rf1 & Rf2). destruct (color_step_spec _ _ _ _ _ Hb Eb) as (Sb & Tb & Rb & Cb & Rb1 & Rb2).
  set (em' := if (rc_em raw =? em_none)%Z then None else Some (rc_em raw)). assert (default 0%Z em' = rc_em raw) as Eem by (unfold em', em_none; by destruct (Z.eqb_spec (rc_em raw) 0)).
  assert (state_ok (MkStyleState fg bg em')) as Hok' by (split_and!; [exact Tf|exact Tb|change (is_byte (default 0%Z em')); by rewrite Eem]).
  assert (state_pen (MkStyleState fg bg em') = MkPen (shown_color (rc_fg raw)) (shown_color (rc_bg raw)) (rc_em raw)) as Hpen' by (unfold state_pen; cbn [ss_fg ss_bg ss_em]; by rewrite Sf, Sb, Eem).
  split; [|by split_and!].
  unfold run_style. cbn [em_reset bg_reset bg_change fg_reset fg_change em_change]. set (er := em_dropped (ss_em st) (rc_em raw)). set (e0 := if er then 0%Z else default 0%Z (ss_em st)).
  (* after the reset *)
  assert (does (if er then reset enabled ++ write_opt (frame_fg enabled) (ss_fg st) ++ write_opt (frame_bg enabled) (ss_bg st) else []) (set_pen (MkPen (shown_opt (ss_fg st)) (shown_opt (ss_bg st)) e0)) t) as D1.
  { unfold e0. destruct er.
    - pose proof (law_reset t Hg) as [G1 S1]. pose proof (does_opt_fg (ss_fg st) (feed (reset enabled) t) G1 Hf ltac:(by rewrite S1)) as D2. destruct D2 as [G2 S2] eqn:ED. clear ED. pose proof (does_opt_bg (ss_bg st) (feed (write_opt (frame_fg enabled) (ss_fg st)) (feed (reset enabled) t)) G2 Hb ltac:(by rewrite S2, S1)) as D3.
      eapply does_ext; [|eapply does_app; [apply law_reset; exact Hg|eapply does_app; [exact (conj G2 S2)|exact D3]]]. done.
    - apply (does_ext _ id); [|by apply does_nil]. unfold id, set_pen. destruct (shows t) as [? ? ? ? ? p ? ?]. cbn in *. rewrite Hpen. done. }
  destruct D1 as [G1 S1]. set (t1 := feed _ t) in *.
  assert (does (if br then bg_default enabled else write_opt (frame_bg enabled) bc) (pen_bg (shown_opt bg)) t1) as D2.
  { destruct br; [rewrite (Rb1 eq_refl); by apply law_bg_default|]. rewrite (Rb2 eq_refl). destruct bc as [c|]; [by apply does_bg|]. apply (does_ext _ id); [|by apply does_nil]. rewrite S1. done. }
  destruct D2 as [G2 S2]. set (t2 := feed _ t1) in *.
  assert (does (if fr then fg_default enabled else write_opt (frame_fg enabled) fc) (pen_fg (shown_opt fg)) t2) as D3.
  { destruct fr; [rewrite (Rf1 eq_refl); by apply law_fg_default|]. rewrite (Rf2 eq_refl). destruct fc as [c|]; [by apply does_fg|]. apply (does_ext _ id); [|by apply does_nil]. rewrite S2, S1. done. }
  destruct D3 as [G3 S3]. set (t3 := feed _ t2) in *.
  set (ec := if negb (rc_em raw =? em_none)%Z && negb (bool_decide (Some (rc_em raw) = ss_em st)) then Some (rc_em raw) else None).
  assert (does (write_opt (style enabled) ec) (set_pen (MkPen (shown_opt fg) (shown_opt bg) (rc_em raw))) t3) as D4.
  { assert (shows t3 = set_pen (MkPen (shown_opt fg) (shown_opt bg) e0) (shows t)) as E3 by (rewrite S3, S2, S1; done).
    assert (match ec with Some e => Z.lor e0 e = rc_em raw ∧ is_byte e | None => e0 = rc_em raw end) as Hec.
    { unfold ec, e0, er, em_dropped, em_and, em_none. destruct (ss_em st) as [e|]; cbn [default id].
      - destruct (Z.eqb_spec (Z.land e (rc_em raw)) e) as [Hs|Hs]; cbn [negb].
        + destruct (Z.eqb_spec (rc_em raw) 0) as [E0|E0]; cbn [negb andb]; [by rewrite E0, Z.land_0_r in *|]. case_bool_decide as Eq; cbn [negb]; [by injection Eq|]. split; [|done]. rewrite <- Hs. apply Z.bits_inj'. intros i _. rewrite Z.lor_spec, Z.land_spec. by destruct (Z.testbit e i), (Z.testbit (rc_em raw) i).
        + destruct (Z.eqb_spec (rc_em raw) 0) as [E0|E0]; cbn [negb andb]; [done|]. case_bool_decide as Eq; cbn [negb]; [injection Eq as Eq; by rewrite Eq, Z.land_diag in Hs|]. by rewrite Z.lor_0_l.
      - destruct (Z.eqb_spec (rc_em raw) 0) as [E0|E0]; cbn [negb andb]; [done|]. rewrite bool_decide_false by done. cbn [negb]. by rewrite Z.lor_0_l. }
    destruct ec as [e|].
    - destruct Hec as [Hor Hbe]. eapply does_ext; [|apply (does_style e t3 Hbe G3)]. rewrite E3. unfold pen_em, set_pen. cbn. by rewrite Hor.
    - eapply does_ext; [|by apply does_nil]. rewrite E3, Hec. done. }
  unfold state_pen. cbn [ss_fg ss_bg ss_em]. fold em'. rewrite Eem. split; [unfold t3, t2, t1 in D4; rewrite !feed_app; apply D4|]. rewrite !feed_app. fold t1. fold t2. fold t3. rewrite (proj2 D4), S3, S2, S1. done.
Qed.

(** ** Frames *)

Context (g : GlyphTable).

(** What a terminal that shows the cell shows. *)
Definition look (c : Cell) : tcell :=
  match get (c_glyph c) g with
  | Some [] | None => THalf
  | Some text => TGlyph text (default 1 (cells_of text)) (cell_pen c)
  end.

Definition same_style (a b : Cell) : Prop := c_fg a = c_fg b ∧ c_bg a = c_bg b ∧ c_em a = c_em b.

(** The cell at column [x] of a row of [w] cells: its colors mean something, and its glyph is one that
    the terminal shows in one cell, or in this and the next one, which is then empty and of
    the same style; an empty cell comes after such a glyph. *)
Definition cell_fine (w : nat) (row : nat → Cell) (x : nat) : Prop :=
  let c := row x in
  color_ok (c_fg c) ∧ color_ok (c_bg c) ∧ is_byte (c_em c) ∧ (0 ≤ c_glyph c)%Z ∧ ∃ text, get (c_glyph c) g = Some text ∧
  ((text = [] ∧ ∃ x0 t0, x = S x0 ∧ get (c_glyph (row x0)) g = Some t0 ∧ t0 ≠ [] ∧ cells_of t0 = Some 2 ∧ same_style (row x0) c) ∨
   (text ≠ [] ∧ existsb is_control text = false ∧
     (cells_of text = Some 1 ∨ cells_of text = Some 2 ∧ S x < w ∧ get (c_glyph (row (S x))) g = Some [] ∧ same_style c (row (S x))))).

Definition row_fine (w : nat) (row : nat → Cell) : Prop := ∀ x, x < w → cell_fine w row x.

Definition row_of (r : Raster) (y x : nat) : Cell := stored r (y * width_ r + x).

Definition frame_fine (r : Raster) : Prop := raster_ok r ∧ ∀ y, y < height_ r → row_fine (width_ r) (row_of r y).

Lemma look_half c : (∃ text, get (c_glyph c) g = Some text) → look c = THalf → get (c_glyph c) g = Some [].
Proof. unfold look. intros [text E]. rewrite E. by destruct text. Qed.

Lemma look_glyph c text : get (c_glyph c) g = Some text → text ≠ [] → look c = TGlyph text (default 1 (cells_of text)) (cell_pen c).
Proof. unfold look. intros ->. by destruct text. Qed.

Section one_row.
Context (w : nat) (od nw : nat → Cell) (Y : nat).
Hypothesis (Hod : row_fine w od) (Hnw : row_fine w nw) (Hg : table_ok g).

(** The cells before column [pos] are as in the new row, and so are those after it that do not
    change. *)
Definition row_inv (s : screen) (pos : nat) : Prop :=
  ∀ x, x < w → (pos ≤ x ∧ od x ≠ nw x) ∨ at_cell s Y x = Some (look (nw x)).

Lemma wide_then_empty x text : x < w → get (c_glyph (nw x)) g = Some text → text ≠ [] → cells_of text = Some 2 → S x < w ∧ get (c_glyph (nw (S x))) g = Some [].
Proof.
  intros Hx Ht Hne H2. destruct (Hnw x Hx) as (_ & _ & _ & _ & text' & Ht' & [[-> _]|(_ & _ & [H1|(_ & H3 & H4 & _)])]); [congruence|congruence|done].
Qed.

Lemma empty_after_wide x : x < w → get (c_glyph (nw x)) g = Some [] → ∃ x0 t0, x = S x0 ∧ get (c_glyph (nw x0)) g = Some t0 ∧ t0 ≠ [] ∧ cells_of t0 = Some 2 ∧ same_style (nw x0) (nw x).
Proof. intros Hx He. destruct (Hnw x Hx) as (_ & _ & _ & _ & text & Ht & [[_ H]|(Hne & _)]); [done|congruence]. Qed.

Lemma print_inv s s' pos text n : sound s → row_inv s pos → pos < w → columns s = w → cur_y s = Y → cur_x s = pos → pen s = cell_pen (nw pos) →
  get (c_glyph (nw pos)) g = Some text → text ≠ [] → cells_of text = Some n → printed text n s s' → row_inv s' (S pos).
Proof.
  intros Hso Hinv Hpos Hcol Hy Hx Hpen Ht Hne Hn Hpr x Hxw. pose proof (pr_head _ _ _ _ Hpr) as Hhead. rewrite Hy, Hx, Hpen in Hhead. assert (n = 1 ∨ n = 2) as Hn12 by (destruct (Hnw pos Hpos) as (_ & _ & _ & _ & text' & Ht' & [[-> _]|(_ & _ & [H1|(H1 & _)])]); [congruence|left; congruence|right; congruence]).
  destruct (decide (x = pos)) as [->|Hxp]; [right; rewrite Hhead, (look_glyph _ _ Ht Hne), Hn; done|].
  destruct (decide (n = 2 ∧ x = S pos)) as [[-> ->]|Hnh]; [right; pose proof (pr_half _ _ _ _ Hpr eq_refl) as Hh; rewrite Hy, Hx in Hh; rewrite Hh; unfold look; by rewrite (proj2 (wide_then_empty pos text Hpos Ht Hne Hn))|].
  destruct (Hinv x Hxw) as [[Hle Hch]|Hm]; [left; split; [lia|done]|]. destruct (decide (x = pos + n ∧ at_cell s Y x = Some THalf)) as [[Ex Ehalf]|Hnext].
  - (* the cell behind shows a half that belongs to the new row: its glyph would be under the cursor *)
    exfalso. rewrite Hm in Ehalf. injection Ehalf as Ehalf. apply look_half in Ehalf; [|destruct (Hnw x Hxw) as (_ & _ & _ & _ & t' & ? & _); by exists t']. destruct (empty_after_wide x Hxw Ehalf) as (x0 & t0 & -> & Ht0 & Hne0 & H20 & _). destruct Hn12 as [-> | ->].
    + assert (x0 = pos) as -> by lia. rewrite Ht in Ht0. injection Ht0 as <-. congruence.
    + assert (x0 = S pos) as -> by lia. destruct (wide_then_empty pos text Hpos Ht Hne Hn) as [_ He]. congruence.
  - right. rewrite (pr_same _ _ _ _ Hpr); [done|lia| |].
    + (* the cell before shows a wide glyph: this one would be its half in the new row *)
      rewrite Hx. intros (_ & Exp & Ehalf). assert (x < pos) as Hlt by lia. destruct (Hso Y (S x) Ehalf) as (x0 & t0 & p0 & [= <-] & Eg). rewrite Hm in Eg. injection Eg as Eg. destruct (Hnw x Hxw) as (_ & _ & _ & _ & t1 & Ht1 & _).
      unfold look in Eg. rewrite Ht1 in Eg. destruct t1 as [|b t1]; [done|]. injection Eg as <- Ec _. destruct (cells_of (b :: t1)) as [m|] eqn:Em; [|done]. cbn in Ec. subst m. destruct (wide_then_empty x _ Hxw Ht1 ltac:(done) Em) as [_ He]. rewrite Exp, Ht in He. congruence.
    + rewrite Hx, Hy. intros (_ & Exn & Ehalf). apply Hnext. done.
Qed.

(** What writing into row [Y] leaves alone. *)
Record kept (s s' : screen) : Prop := {
  kept_history : history s' = history s;
  kept_lines : lines s' = lines s;
  kept_columns : columns s' = columns s;
  kept_saved : saved s' = saved s;
  kept_region : region s' = region s;
  kept_rows : ∀ y x, y ≠ Y → at_cell s' y x = at_cell s y x;
}.

Lemma kept_refl s : kept s s.
Proof. by split. Qed.

Lemma screen_kept_trans s1 s2 s3 : kept s1 s2 → kept s2 s3 → kept s1 s3.
Proof. intros [? ? ? ? ? H1] [? ? ? ? ? H2]. split; try congruence. intros y x Hy. by rewrite H2, H1. Qed.

Lemma printed_kept text n s s' : cur_y s = Y → printed text n s s' → kept s s'.
Proof. intros Hy Hp. split; try apply Hp. intros y x Hne. apply (pr_same _ _ _ _ Hp); rewrite Hy; tauto. Qed.

(** Where the cursor must be before the text of column [c]; the second cell of a wide glyph was
    printed with the first. *)
Definition cursor_at (s : screen) (c : nat) : Prop :=
  (get (c_glyph (nw c)) g ≠ Some [] → cur_y s = Y ∧ cur_x s = c) ∧
  (get (c_glyph (nw c)) g = Some [] → at_cell s Y c = Some THalf ∧ (S c < w → cur_y s = Y ∧ cur_x s = S c)).

Lemma run_cells P k : ∀ c (t : T), c + k ≤ w → ground t → sound (shows t) → columns (shows t) = w → Y < lines (shows t) → (∀ x, c ≤ x < c + k → cell_pen (nw x) = P) → pen (shows t) = P →
  row_inv (shows t) c → (0 < k → cursor_at (shows t) c) →
  ∃ out, run_text g ((λ x, c_glyph (nw x)) <$> seq c k) = Ret out ∧ ground (feed out t) ∧ sound (shows (feed out t)) ∧ kept (shows t) (shows (feed out t)) ∧ pen (shows (feed out t)) = P ∧ row_inv (shows (feed out t)) (c + k).
Proof.
  induction k as [|k IH]; intros c t Hw Hgr Hso Hcol Hln HP Hpen Hinv Hcur.
  - exists []. rewrite feed_nil, Nat.add_0_r. split_and!; try done.
  - destruct (Hcur ltac:(lia)) as [Hc1 Hc2]. cbn [seq fmap list_fmap run_text]. destruct (Hnw c ltac:(lia)) as (_ & _ & _ & _ & text & Ht & Hcase). rewrite Ht. destruct Hcase as [[-> _]|(Hne & Hctl & Hwidth)].
    + (* the second cell of a wide glyph: nothing is written *)
      destruct (Hc2 Ht) as [Hhalf Hcx]. destruct (IH (S c) t ltac:(lia) Hgr Hso Hcol Hln) as (out & E & H1 & H2 & H3 & H4 & H5); [intros x Hx; apply HP; lia|done| | |].
      * intros x Hx. destruct (Hinv x Hx) as [[Hle Hch]|Hm]; [|by right]. destruct (decide (x = c)) as [->|]; [right; rewrite Hhalf; unfold look; by rewrite Ht|left; split; [lia|done]].
      * intros Hk. split; [intros _; apply Hcx; lia|]. intros He. destruct (empty_after_wide (S c) ltac:(lia) He) as (x0 & t0 & [= <-] & Ht0 & Hne0 & _). congruence.
      * exists out. unfold write_terminal_text. cbn [existsb bind]. rewrite E. cbn [bind app]. split_and!; try done. by replace (c + S k) with (S c + k) by lia.
    + (* a glyph is printed *)
      destruct (Hc1 ltac:(congruence)) as [Hy Hx]. assert (∃ n, cells_of text = Some n ∧ c + n ≤ w ∧ (n = 1 ∨ n = 2)) as (n & Hn & Hfit & Hn12) by (destruct Hwidth as [H|(H & Hs & _)]; [exists 1|exists 2]; split_and!; try done; lia).
      destruct (law_text t text n Hgr Hn Hso ltac:(lia) ltac:(rewrite Hcol; lia)) as [Hg' Hpr]. pose proof (printed_kept _ _ _ _ Hy Hpr) as Hk1. pose proof (print_inv _ _ c text n Hso Hinv ltac:(lia) Hcol Hy Hx ltac:(rewrite Hpen; symmetry; apply HP; lia) Ht Hne Hn Hpr) as Hinv'.
      destruct (IH (S c) (feed text t) ltac:(lia) Hg' (pr_sound _ _ _ _ Hpr)) as (out & E & H1 & H2 & H3 & H4 & H5); [rewrite (kept_columns _ _ Hk1); done|rewrite (kept_lines _ _ Hk1); done|intros x Hxr; apply HP; lia|rewrite (pr_pen _ _ _ _ Hpr); done|done| |].
      * intros Hk. pose proof (pr_cursor _ _ _ _ Hpr) as Hcu. rewrite Hcol, Hx, Hy in Hcu. split.
        -- intros Hnext. destruct Hn12 as [-> | ->]; [destruct (Hcu ltac:(lia)); split; [done|lia]|]. by destruct (wide_then_empty c text ltac:(lia) Ht Hne Hn) as [_ He].
        -- intros He. destruct (empty_after_wide (S c) ltac:(lia) He) as (x0 & t0 & [= <-] & Ht0 & _ & H20 & _). assert (n = 2) as -> by congruence. pose proof (pr_half _ _ _ _ Hpr eq_refl) as Hh. rewrite Hy, Hx in Hh. split; [done|]. intros Hs. destruct (Hcu ltac:(lia)). split; [done|lia].
      * exists (text ++ out). unfold write_terminal_text. rewrite Hctl. cbn [bind]. rewrite E. cbn [bind]. rewrite feed_app. split_and!; try done; [by eapply screen_kept_trans|by replace (c + S k) with (S c + k) by lia].
Qed.

(** *** Chunks *)

Definition pair_at (x : nat) : indexed * indexed := ((x, od x), (x, nw x)).
Definition pairs (a n : nat) : list (indexed * indexed) := pair_at <$> seq a n.

Lemma chunk_first n : ∀ a, 0 < n → ∃ k, 0 < k ≤ n ∧ chunk_by same_run (pairs a n) = pairs a k :: chunk_by same_run (pairs (a + k) (n - k)) ∧
  (∀ j, a < j < a + k → same_run (pair_at (j - 1)) (pair_at j) = true) ∧ (k < n → same_run (pair_at (a + k - 1)) (pair_at (a + k)) = false).
Proof.
  induction n as [|n IH]; intros a Hn; [lia|]. change (pairs a (S n)) with (pair_at a :: pairs (S a) n). destruct n as [|n].
  - exists 1. rewrite Nat.add_1_r. split_and!; try lia. done.
  - destruct (IH (S a) ltac:(lia)) as (k & Hk & E & Hin & Hout). cbn [chunk_by]. rewrite E. destruct k as [|k]; [lia|]. change (pairs (S a) (S k)) with (pair_at (S a) :: pairs (S (S a)) k) at 1. cbv beta iota.
    destruct (same_run (pair_at a) (pair_at (S a))) eqn:Es.
    + exists (S (S k)). split_and!; [lia|lia|replace (a + S (S k)) with (S a + S k) by lia; reflexivity| |].
      * intros j Hj. destruct (decide (j = S a)) as [->|]; [by replace (S a - 1) with a by lia|apply Hin; lia].
      * intros Hlt. specialize (Hout ltac:(lia)). by replace (a + S (S k)) with (S a + S k) by lia.
    + exists 1. split_and!; [lia|lia| |lia|].
      * rewrite Nat.add_1_r. cbn [Nat.sub]. rewrite E. done.
      * intros _. by replace (a + 1 - 1) with a by lia; replace (a + 1) with (S a) by lia.
Qed.

(** The cells of a chunk changed or not together and have one style. *)
Lemma chunk_uniform a k : (∀ j, a < j < a + k → same_run (pair_at (j - 1)) (pair_at j) = true) → ∀ x, a ≤ x < a + k → is_changed (pair_at x) = is_changed (pair_at a) ∧ same_style (nw x) (nw a).
Proof.
  intros Hch x Hx. replace x with (a + (x - a)) in * by lia. generalize dependent (x - a). intros d Hd. induction d as [|d IH]; [by rewrite Nat.add_0_r|]. destruct (IH ltac:(lia)) as [E1 (E2 & E3 & E4)]. specialize (Hch (a + S d) ltac:(lia)). replace (a + S d - 1) with (a + d) in Hch by lia.
  unfold same_run in Hch. rewrite !andb_true_iff, !Z.eqb_eq in Hch. destruct Hch as (((H1%eqb_prop & H2) & H3) & H4). cbn in H2, H3, H4. unfold same_style. rewrite <- H1, <- H2, <- H3, <- H4. done.
Qed.

Lemma changed_ne x : is_changed (pair_at x) = true ↔ od x ≠ nw x.
Proof. unfold is_changed, pair_at. cbn. by rewrite negb_true_iff, bool_decide_eq_false. Qed.

(** A run of changes does not start with the second cell of a wide glyph. *)
Lemma run_starts_with_glyph a : a < w → (a = 0 ∨ same_run (pair_at (a - 1)) (pair_at a) = false) → od a ≠ nw a → get (c_glyph (nw a)) g ≠ Some [].
Proof.
  intros Ha Hb Hch He. destruct (empty_after_wide a Ha He) as (x0 & t0 & -> & Ht0 & Hne0 & H20 & (S1 & S2 & S3)). destruct Hb as [|Hb]; [lia|]. replace (S x0 - 1) with x0 in Hb by lia.
  destruct (decide (od x0 = nw x0)) as [Eq|Hne].
  - apply Hch. destruct (Hod x0 ltac:(lia)) as (_ & _ & _ & _ & t1 & Ht1 & Hc1). rewrite Eq, Ht0 in Ht1. injection Ht1 as <-. destruct Hc1 as [[-> _]|(_ & _ & [H1|(_ & _ & He1 & (U1 & U2 & U3))])]; [done|congruence|].
    destruct (Hod (S x0) Ha) as (_ & _ & _ & P1 & _). destruct (Hnw (S x0) Ha) as (_ & _ & _ & P2 & _). pose proof (get_injective g _ _ _ Hg P1 P2 He1 He) as Eg. rewrite Eq in U1, U2, U3. destruct (od (S x0)) as [g1 f1 b1 e1], (nw (S x0)) as [g2 f2 b2 e2]. cbn in *. congruence.
  - unfold same_run in Hb. rewrite (proj2 (changed_ne x0) Hne), (proj2 (changed_ne (S x0)) Hch) in Hb. cbn [pair_at snd] in Hb. rewrite S1, S2, S3, !Z.eqb_refl in Hb. done.
Qed.

(** *** The runs of a row *)

Context (back : Raster) (y off : nat).
Hypothesis (HY : Y = y + off) (Hspan : ∀ a k, a + k ≤ w → glyph_span back y a k = (λ x, c_glyph (nw x)) <$> seq a k).

(** The state between two runs. *)
Record between (st : StyleState) (t : T) : Prop := {
  bt_ground : ground t;
  bt_sound : sound (shows t);
  bt_columns : columns (shows t) = w;
  bt_lines : Y < lines (shows t);
  bt_state : state_ok st;
  bt_pen : pen (shows t) = state_pen st;
}.

(** Writing one run of changes. *)
Lemma one_run a k st (t : T) : 0 < k → a + k ≤ w → (∀ x, a ≤ x < a + k → same_style (nw x) (nw a)) → get (c_glyph (nw a)) g ≠ Some [] → between st t → row_inv (shows t) a →
  let raw := MkRaw a y (glyph_span back y a k) (c_fg (nw a)) (c_bg (nw a)) (c_em (nw a)) in let '(run, st') := style_step raw st in
  ∃ text, run_text g (cr_glyphs run) = Ret text ∧ ss_fg st' = run_color (ss_fg st) (fg_reset run) (fg_change run) ∧ ss_bg st' = run_color (ss_bg st) (bg_reset run) (bg_change run) ∧
    let out := move_to enabled (cr_y run + off) (cr_x run) ++ run_style enabled (ss_fg st) (ss_bg st) run ++ text in
    between st' (feed out t) ∧ kept (shows t) (shows (feed out t)) ∧ row_inv (shows (feed out t)) (a + k).
Proof.
  intros Hk Hw Hst Hne Hb Hinv raw. destruct (style_step raw st) as [run st'] eqn:Es. destruct Hb as [B1 B2 B3 B4 B5 B6].
  pose proof (law_move_to t Y a B1 B4 ltac:(rewrite B3; lia)) as [G1 S1]. set (t1 := feed (move_to enabled Y a) t) in *. destruct (Hnw a ltac:(lia)) as (_ & _ & Hem & _).
  destruct (run_style_spec raw st run st' t1 G1 B5 Hem ltac:(rewrite S1; exact B6) Es) as ([G2 S2] & Hok & Hpen & E1 & E2 & E3 & E4 & E5). set (t2 := feed (run_style enabled (ss_fg st) (ss_bg st) run) t1) in *. rewrite S1 in S2.
  assert (∀ yy xx, at_cell (shows t2) yy xx = at_cell (shows t) yy xx) as Hcells by (intros; rewrite S2; done).
  destruct (run_cells (state_pen st') k a t2 Hw G2) as (text & Et & G3 & So3 & K3 & P3 & R3).
  - intros yy xx H. rewrite Hcells in H. destruct (B2 yy xx H) as (x0 & t0 & p0 & -> & Hx0). exists x0, t0, p0. by rewrite Hcells.
  - rewrite S2. exact B3.
  - rewrite S2. exact B4.
  - intros x Hx. rewrite Hpen. destruct (Hst x Hx) as (U1 & U2 & U3). unfold cell_pen. cbn [rc_fg rc_bg rc_em raw]. congruence.
  - rewrite S2. done.
  - intros x Hx. rewrite Hcells. by apply Hinv.
  - intros _. split; [intros _; rewrite S2; done|done].
  - exists text. rewrite E5. cbn [rc_glyphs raw]. rewrite Hspan by lia. do 3 (split; [done|]). rewrite E3, E4. cbn [rc_x rc_y raw]. rewrite <- HY, !feed_app. fold t1. fold t2.
    assert (kept (shows t) (shows t2)) as K2 by (rewrite S2; by split). pose proof (screen_kept_trans _ _ _ K2 K3) as K. split_and!; [|done|done]. split; try done; [rewrite (kept_columns _ _ K); done|rewrite (kept_lines _ _ K); done].
Qed.

(** The bytes [out] stand for the runs of [raws]: whatever follows is written after them. *)
Definition writes (st : StyleState) (raws : list RawChange) (out : bytes) (st' : StyleState) : Prop :=
  ∀ rest, write_runs enabled g off (ss_fg st) (ss_bg st) (style_runs (raws ++ rest) st) =
    let! more := write_runs enabled g off (ss_fg st') (ss_bg st') (style_runs rest st') in Ret (out ++ more).

Lemma row_runs n : ∀ a st (t : T), a + n = w → (n = 0 ∨ a = 0 ∨ same_run (pair_at (a - 1)) (pair_at a) = false) → between st t → row_inv (shows t) a →
  ∃ out st', writes st (omap (chunk_change y back) (chunk_by same_run (pairs a n))) out st' ∧ between st' (feed out t) ∧ kept (shows t) (shows (feed out t)) ∧ row_inv (shows (feed out t)) w.
Proof.
  induction (lt_wf n) as [n _ IH]. intros a st t Hn Hst Hb Hinv. destruct (decide (n = 0)) as [->|Hn0].
  - exists [], st. rewrite feed_nil. assert (a = w) as <- by lia. split; [|split; [done|split; [apply kept_refl|done]]]. intros rest. cbn [pairs seq fmap list_fmap chunk_by omap list_omap app]. by destruct (write_runs _ _ _ _ _ _).
  - destruct (chunk_first n a ltac:(lia)) as (k & Hk & -> & Hin & Hout). pose proof (chunk_uniform a k Hin) as Hun. assert (n - k = 0 ∨ a + k = 0 ∨ same_run (pair_at (a + k - 1)) (pair_at (a + k)) = false) as Hst' by (destruct (decide (k < n)) as [Hlt|]; [right; right; by apply Hout|left; lia]).
    assert (omap (chunk_change y back) (pairs a k :: chunk_by same_run (pairs (a + k) (n - k))) = (if is_changed (pair_at a) then [MkRaw a y (glyph_span back y a k) (c_fg (nw a)) (c_bg (nw a)) (c_em (nw a))] else []) ++ omap (chunk_change y back) (chunk_by same_run (pairs (a + k) (n - k)))) as ->.
    { destruct k as [|k]; [lia|]. cbn [omap list_omap]. change (pairs a (S k)) with (pair_at a :: pairs (S a) k) at 1. cbn [chunk_change]. assert (length (pair_at a :: pairs (S a) k) = S k) as -> by (cbn; unfold pairs; by rewrite length_fmap, length_seq). destruct (is_changed (pair_at a)); done. }
    destruct (is_changed (pair_at a)) eqn:Ec.
    + pose proof (proj1 (changed_ne a) Ec) as Hch. pose proof (run_starts_with_glyph a ltac:(lia) ltac:(lia || tauto) Hch) as Hglyph. pose proof (one_run a k st t ltac:(lia) ltac:(lia) (λ x Hx, proj2 (Hun x Hx)) Hglyph Hb Hinv) as Hrun. set (raw := MkRaw a y _ _ _ _) in *. cbv zeta in Hrun.
      destruct (style_step raw st) as [run st1] eqn:Es. destruct Hrun as (text & Et & F1 & F2 & B1 & K1 & R1). set (out1 := move_to enabled _ _ ++ _ ++ text) in *.
      destruct (IH (n - k) ltac:(lia) (a + k) st1 (feed out1 t) ltac:(lia) Hst' B1 R1) as (out2 & st2 & W2 & B2 & K2 & R2). exists (out1 ++ out2), st2. rewrite feed_app. split_and!; [|done|by eapply screen_kept_trans|done].
      intros rest. cbn [app style_runs]. rewrite Es. cbn [write_runs]. rewrite Et. cbn [bind]. rewrite <- F1, <- F2, W2. destruct (write_runs enabled g off (ss_fg st2) _ _); cbn [bind]; [|done]. unfold out1. by rewrite <- !app_assoc.
    + apply (IH (n - k) ltac:(lia) (a + k) st t ltac:(lia) Hst' Hb). intros x Hx. destruct (Hinv x Hx) as [[Hle Hch]|Hm]; [|by right]. destruct (Nat.lt_ge_cases x (a + k)) as [Hlt|]; [|left; split; [lia|done]].
      apply changed_ne in Hch. rewrite (proj1 (Hun x ltac:(lia))) in Hch. done.
Qed.

End one_row.

(** *** All rows *)

Lemma zip_seq {A} (f : nat → A) l : zip l (f <$> l) = (λ x, (x, f x)) <$> l.
Proof. induction l as [|x l IH]; [done|]. cbn. by rewrite IH. Qed.

Lemma zip_row_pairs front back y : width_ front = width_ back → zip_row front back y = pairs (row_of front y) (row_of back y) 0 (width_ back).
Proof.
  intros Hw. unfold zip_row, row, row_cells, pairs, pair_at. rewrite Hw, !zip_seq. generalize (seq 0 (width_ back)) as l. intros l. induction l as [|x l IH]; [done|]. cbn. rewrite IH. unfold row_of. by rewrite Hw.
Qed.

Lemma glyph_span_row r y a k : raster_ok r → y < height_ r → a + k ≤ width_ r → glyph_span r y a k = (λ x, c_glyph (row_of r y x)) <$> seq a k.
Proof.
  intros [Hl _ _ _] Hy Hk. apply list_eq. intros i. unfold glyph_span. rewrite list_lookup_fmap. destruct (Nat.lt_ge_cases i k) as [Hi|Hi].
  - rewrite lookup_take_lt, lookup_drop, lookup_seq_lt by done. cbn. unfold value_at. replace (y * width_ r + (a + i)) with (y * width_ r + a + i) by lia. destruct (lookup_lt_is_Some_2 (glyphs_storage_ r) (y * width_ r + a + i)) as [v E]; [rewrite Hl; pose proof (index_bound (width_ r) (height_ r) y (a + i) Hy ltac:(lia)); lia|]. by rewrite E.
  - rewrite lookup_take_ge, lookup_seq_ge by done. done.
Qed.

(** Rows before [n] show the new frame, the others the old one. *)
Definition rows_done (front back : Raster) (off n : nat) (s : screen) : Prop :=
  ∀ y x, y < height_ back → x < width_ back → at_cell s (y + off) x = Some (look (if y <? n then row_of back y x else row_of front y x)).

(** What a frame leaves alone on the screen. *)
Record outside_kept (off h : nat) (s s' : screen) : Prop := {
  out_history : history s' = history s;
  out_lines : lines s' = lines s;
  out_columns : columns s' = columns s;
  out_saved : saved s' = saved s;
  out_region : region s' = region s;
  out_rows : ∀ y x, y < off ∨ off + h ≤ y → at_cell s' y x = at_cell s y x;
}.

Lemma frame_rows front back off : frame_fine front → frame_fine back → table_ok g → width_ front = width_ back → height_ front = height_ back → ∀ n y st (t : T), y + n = height_ back →
  off + height_ back ≤ lines (shows t) → columns (shows t) = width_ back → ground t → sound (shows t) → state_ok st → pen (shows t) = state_pen st → rows_done front back off y (shows t) →
  ∃ out, write_runs enabled g off (ss_fg st) (ss_bg st) (style_runs (concat ((λ y, row_changes y (zip_row front back y) back) <$> seq y n)) st) = Ret out ∧ ground (feed out t) ∧ sound (shows (feed out t)) ∧
    outside_kept off (height_ back) (shows t) (shows (feed out t)) ∧ rows_done front back off (height_ back) (shows (feed out t)).
Proof.
  intros [Hf1 Hf2] [Hb1 Hb2] Hg Hw Hh. induction n as [|n IH]; intros y st t Hn Hln Hcol Hgr Hso Hst Hpen Hdone.
  - exists []. rewrite feed_nil. assert (y = height_ back) as -> by lia. split_and!; try done.
  - cbn [seq fmap list_fmap concat]. unfold row_changes at 1. rewrite (zip_row_pairs front back y Hw).
    assert (row_fine (width_ back) (row_of front y)) as Hfy by (rewrite <- Hw; apply Hf2; lia). assert (row_fine (width_ back) (row_of back y)) as Hby by (apply Hb2; lia).
    destruct (row_runs (width_ back) (row_of front y) (row_of back y) (y + off) Hfy Hby Hg back y off eq_refl (λ a k Hk, glyph_span_row back y a k Hb1 ltac:(lia) Hk) (width_ back) 0 st t eq_refl ltac:(by right; left)) as (out1 & st1 & W1 & B1 & K1 & R1).
    + split; [done|done|done|lia|done|done].
    + intros x Hx. specialize (Hdone y x ltac:(lia) Hx). rewrite (proj2 (Nat.ltb_ge _ _)) in Hdone by lia. destruct (decide (row_of front y x = row_of back y x)) as [<-|Hne]; [by right|left; split; [lia|done]].
    + destruct B1 as [G1 So1 C1 L1 St1 P1]. destruct (IH (S y) st1 (feed out1 t) ltac:(lia)) as (out2 & W2 & G2 & So2 & O2 & D2); try done; [rewrite (kept_lines _ _ _ K1); done| |].
      * intros y' x Hy' Hx. destruct (decide (y' = y)) as [->|Hne].
        -- rewrite (proj2 (Nat.ltb_lt _ _)) by lia. destruct (R1 x Hx) as [[? _]|Hm]; [lia|done].
        -- rewrite (kept_rows _ _ _ K1) by lia. rewrite (Hdone y' x Hy' Hx). destruct (Nat.ltb_spec y' y), (Nat.ltb_spec y' (S y)); lia || done.
      * exists (out1 ++ out2). rewrite W1, W2. cbn [bind]. rewrite feed_app. split_and!; try done. destruct O2 as [O3 O4 O5 O6 O7 O8], K1 as [K3 K4 K5 K6 K7 K8]. split; try congruence. intros y' x Hy'. rewrite O8, K8; [done|lia|done].
Qed.

End showing.

(** ** The properties *)

(** C12: A frame puts the back buffer on the screen. Let the terminal show the front buffer in the rows
    that the compositor owns, with default graphics, and let both buffers hold glyphs the
    terminal can show, wide ones with their two cells in one style. Then [present_frame] returns, and
    feeding what it wrote to the terminal makes the owned rows show the back buffer, cell by cell with
    glyph, colors and emphasis, while every other row, the history, the margins, the cursor
    and the graphics are as before; the front buffer is then the frame on screen, so the
    next frame starts as this one did. *)
Theorem frame_shows {T : Type} {I : terminal T} (Law : terminal_law T) g c (t : T) :
  let w := width_ (back_ c) in let h := height_ (back_ c) in let off := chrome_start (partition_ c) in
  frame_fine (I := I) g (front_ c) → frame_fine (I := I) g (back_ c) → table_ok g → width_ (front_ c) = w → height_ (front_ c) = h →
  ground t → sound (shows t) → pen (shows t) = default_pen → columns (shows t) = w → off + h ≤ lines (shows t) →
  (∀ y x, y < h → x < w → at_cell (shows t) (y + off) x = Some (look g (row_of (front_ c) y x))) →
  ∃ out, present_frame enabled g c = (Ret out, MkCompositor (back_ c) (back_ c) (partition_ c) (geometry_initialized_ c)) ∧
    let s := shows t in let s' := shows (feed out t) in
    ground (feed out t) ∧ sound s' ∧ (∀ y x, y < h → x < w → at_cell s' (y + off) x = Some (look g (row_of (back_ c) y x))) ∧
    (∀ y x, y < off ∨ off + h ≤ y → at_cell s' y x = at_cell s y x) ∧
    history s' = history s ∧ lines s' = lines s ∧ columns s' = columns s ∧ region s' = region s ∧ cur_y s' = cur_y s ∧ cur_x s' = cur_x s ∧ pen s' = default_pen.
Proof.
  intros w h off Hf Hb Hg Hw Hh Hgr Hso Hpen Hcol Hln Hshow. pose proof (law_save t Hgr) as [G1 S1]. set (t1 := feed save_cursor t) in *.
  destruct (frame_rows g (front_ c) (back_ c) off Hf Hb Hg Hw Hh h 0 (MkStyleState None None None) t1 eq_refl) as (runs & E & G2 & So2 & O2 & D2).
  - rewrite S1. exact Hln.
  - rewrite S1. exact Hcol.
  - exact G1.
  - rewrite S1. exact Hso.
  - done.
  - rewrite S1. exact Hpen.
  - intros y x Hy Hx. rewrite S1. exact (Hshow y x Hy Hx).
  - set (t2 := feed runs t1) in *. pose proof (law_restore t2 G2) as [G3 S3]. exists (save_cursor ++ runs ++ restore_cursor). unfold present_frame, diff_rasters, raw_changes. cbn [ss_fg ss_bg] in E. fold off h. rewrite E. split; [done|]. rewrite !feed_app. fold t1. fold t2. cbv zeta. rewrite S3.
    destruct O2 as [O3 O4 O5 O6 O7 O8]. rewrite S1 in O3, O4, O5, O6, O7, O8. unfold restore. cbn [history lines grid columns region cur_y cur_x pen set_pen set_cursor]. rewrite O6. cbn [save set_saved saved fst snd].
    split_and!; try done.
    intros y x Hy Hx. specialize (D2 y x Hy Hx). rewrite (proj2 (Nat.ltb_lt y (height_ (back_ c))) Hy) in D2. exact D2.
Qed.

(** *** On the emulator *)

(** A table with an ideograph as glyph 256 and the empty glyph as 257. *)
Definition sample_table : GlyphTable := (intern [] (intern [0xe4; 0xb8; 0x96]%Z new_table).2).2.

(** A frame of two rows and four columns for the bottom of a screen of four: a red letter, an
    ideograph on a background, and reversed text. *)
Definition sample_back : Raster :=
  let d := terminal_default in
  MkRaster 4 2 [65; 256; 257; 32; 111; 107; 32; 32]%Z [rgba8 255 0 0 255; d; d; d; d; d; d; d]%Z [d; palette 4; palette 4; d; d; d; d; d]%Z [0; 0; 0; 0; em_reverse; em_reverse; 0; 0]%Z.

Definition sample_compositor : TerminalCompositor := MkCompositor (new_raster 4 2) sample_back (partition_for 2 4) true.

Lemma sample_table_ok : table_ok sample_table.
Proof.
  pose proof (intern_spec new_table [0xe4; 0xb8; 0x96]%Z ascii_table_ok ltac:(repeat (constructor; [unfold is_byte; lia|]); constructor) ltac:(vm_compute; reflexivity)) as H1. unfold sample_table. destruct (intern [0xe4; 0xb8; 0x96]%Z new_table) as [[id|e] g1] eqn:E; [|by vm_compute in E].
  destruct H1 as (_ & _ & Hok & _ & Hlen). assert (length (glyphs_ new_table) = 256) as L by (vm_compute; reflexivity). pose proof (intern_spec g1 [] Hok (Forall_nil_2 _) ltac:(lia)) as H2. cbn [snd]. destruct (intern [] g1) as [[id'|e'] g2]; [apply H2|]. cbn in H2. lia.
Qed.

Ltac fine_cell := unfold cell_fine; split_and!; [vm_compute; exact Logic.I|vm_compute; exact Logic.I|vm_compute; split; [discriminate|reflexivity]|vm_compute; discriminate|]; eexists; split; [vm_compute; reflexivity|];
  first [right; split_and!; [discriminate|vm_compute; reflexivity|first [left; vm_compute; reflexivity|right; split_and!; [vm_compute; reflexivity|vm_compute; lia|vm_compute; reflexivity|vm_compute; repeat split]]]
        |left; split; [reflexivity|eexists _, _; split; [reflexivity|split; [vm_compute; reflexivity|split; [discriminate|split; [vm_compute; reflexivity|vm_compute; repeat split]]]]]].

Lemma sample_back_fine : frame_fine sample_table sample_back.
Proof.
  split; [split; vm_compute; reflexivity|]. intros y Hy x Hx. cbn in Hy, Hx. destruct y as [|[|y]]; [| |lia]; (destruct x as [|[|[|[|x]]]]; [| | | |lia]; fine_cell).
Qed.

Lemma new_raster_fine : frame_fine sample_table (new_raster 4 2).
Proof.
  split; [split; vm_compute; reflexivity|]. intros y Hy x Hx. cbn in Hy, Hx. destruct y as [|[|y]]; [| |lia]; (destruct x as [|[|[|[|x]]]]; [| | | |lia]; fine_cell).
Qed.

Lemma frame_shows_witness : ∃ out, present_frame enabled sample_table sample_compositor = (Ret out, MkCompositor sample_back sample_back (partition_for 2 4) true) ∧
  let s := shows (feed out (fresh_terminal 4 4)) in
  at_cell s 2 0 = Some (TGlyph [65%Z] 1 (MkPen (TRgb 255 0 0) TDefault 0)) ∧ at_cell s 2 1 = Some (TGlyph [0xe4; 0xb8; 0x96]%Z 2 (MkPen TDefault (TPalette 4) 0)) ∧ at_cell s 2 2 = Some THalf ∧
  at_cell s 1 0 = Some blank ∧ pen s = default_pen.
Proof.
  destruct (frame_shows emulator_law sample_table sample_compositor (fresh_terminal 4 4)) as (out & E & _ & _ & Hin & Hout & _ & _ & _ & _ & _ & _ & Hp).
  - exact new_raster_fine.
  - exact sample_back_fine.
  - exact sample_table_ok.
  - vm_compute; reflexivity.
  - vm_compute; reflexivity.
  - apply fresh_ground.
  - apply fresh_sound.
  - vm_compute; reflexivity.
  - vm_compute; reflexivity.
  - vm_compute; lia.
  - intros y x Hy Hx. vm_compute in Hy, Hx. destruct y as [|[|y]]; [| |lia]; (destruct x as [|[|[|[|x]]]]; [| | | |lia]; vm_compute; reflexivity).
  - exists out. split; [exact E|]. cbv zeta. split; [etransitivity; [apply (Hin 0 0); vm_compute; lia|vm_compute; reflexivity]|]. split; [etransitivity; [apply (Hin 0 1); vm_compute; lia|vm_compute; reflexivity]|].
    split; [etransitivity; [apply (Hin 0 2); vm_compute; lia|vm_compute; reflexivity]|]. split; [etransitivity; [apply (Hout 1 0); vm_compute; lia|vm_compute; reflexivity]|exact Hp].
Defined.

(** A cursor on an ideograph reverses its first cell alone, as [TextField] draws it. The second cell then starts
    a run of its own, and what follows it is printed one column too far to the left, over the ideograph. *)
Definition split_back : Raster :=
  let d := terminal_default in
  MkRaster 4 1 [256; 257; 120; 32]%Z [d; d; d; d] [d; d; d; d] [em_reverse; 0; 0; 0]%Z.

Example split_glyph_shifts : ∃ out c, present_frame enabled sample_table (MkCompositor (new_raster 4 1) split_back (partition_for 1 2) true) = (Ret out, c) ∧
  let s := shows (feed out (fresh_terminal 4 2)) in
  at_cell s 1 0 = Some blank ∧ at_cell s 1 1 = Some (TGlyph (str "x") 1 default_pen) ∧ at_cell s 1 2 = Some blank ∧ look sample_table (row_of split_back 0 2) = TGlyph (str "x") 1 default_pen.
Proof. eexists _, _. split; [vm_compute; reflexivity|]. vm_compute. done. Qed.

(** The transparent color is written as a true color. *)
Example transparent_is_green : frame_bg enabled transparent = bg_rgb enabled 0 2 0 ∧ emit_bg enabled transparent = bg_default enabled.
Proof. by vm_compute. Qed.
